(* ===== verification/_CoqProject ===== *)
-Q . S2P
Prelude.v
Text.v
Budget.v
Delta.v
Varint.v
PackFormat.v
PackIndex.v
PackSort.v
Merge.v
LineDiff.v
Repack.v
Trees.v
TreeHash.v
CompactFrame.v
TreeCodec.v
ObjectStore.v
TreeMerge.v
F64.v
PackBuild.v
RenameMatch.v
RenameMerge.v
FlatTrees.v
PackRead.v
PackRoundtrip.v
PackVisit.v
RefNames.v
RefText.v
RefDisk.v
BTree.v
RefSummary.v
RefStore.v
RefPublish.v
RefPack.v
RefCas.v
RefSamples.v
OpRecords.v
OpLog.v
OpLogSpec.v
OpIndex.v
OpSegments.v
OpOps.v
OpSamples.v
RefFold.v
RefReconcile.v
RefFoldSpec.v
RefWatermark.v
RefMaterialize.v
RefShared.v
RefRecover.v
RefWitness.v
RefRead.v
RefLocal.v
RefCommit.v
RefReconcileSamples.v
Cursor.v
Manifest.v
ManifestBuild.v
ManifestSpec.v
ManifestCanon.v
ManifestTrie.v
ManifestFsck.v
ManifestAudit.v
ManifestExtent.v
ManifestBinding.v
ManifestSamples.v
