(* ===== verification/Prelude.v ===== *)
(** * Heddle: verification development

    Heddle is a version control system that keeps immutable content-addressed objects
    (blobs, trees, states), mutable names for them (refs: threads, markers, remote
    threads, HEAD), and a log of operations that makes changes of names undoable and
    crash safe.  This development models its storage and merge core, in Rust under
    [src/crates], as executable definitions, and proves what makes them correct.

    ** The parts and how they interact

    - Objects are written into packs.  [delta_encoder.rs] compresses an object against a
      similar one, [pack_builder.rs] chooses the bases and lays the pack out,
      [pack_index.rs] finds an object in it, [pack_reader.rs] follows chains of deltas
      back.  [disk_sort.rs], [offset_index.rs] and [pack_identity.rs] serve whole-pack
      work, [repack] schedules it in the background.
    - A tree is an object that maps names to objects; its id binds its contents.  Two
      trees merge against a common base: [executor.rs] walks the three, follows renames
      that [rename_matcher.rs] detects, and merges texts with [merge/src/diff3.rs].
    - A ref is a small file, or a row of the packed-refs file, listed once more in a
      summary index.  [refs_transactions.rs] changes a batch of them with staged files,
      renames and a rollback.
    - The operation log ([crates/oplog]) records every change.  [refs_manager.rs] commits
      the records of a batch to the log first and publishes the files of the refs after;
      a reader that finds the files behind the log folds the missing records into them
      ([reconciler.rs]), so that the log decides and the files are a cache of it.
    - A manifest ([object/manifest]) is a trie whose root hash names a set of objects.

    ** Conventions

    A function that can fail returns [exec E A] (below): a value, an error, [Panic] or
    [Fuel].  An operation of machine arithmetic, an index or a slice that Rust checks is
    one that can end in [Panic]; wrapping and saturating operations are written out.
    [returns m Q] and [settles m Q R] say that [m] ends in a value with [Q] (or an error
    with [R]), hence neither in [Panic] nor in [Fuel]; most theorems are of that form and so
    include termination and the absence of panics.  Integers are [Z] with their
    width as a hypothesis or a check; bytes are [Z] in [0..255], byte vectors are lists.
    A [BTreeMap] or [HashMap] is a [gmap]; where the code iterates a [HashMap], the order
    is a parameter, any permutation.  Code outside the repository is a parameter with
    its documented behaviour as named hypotheses: BLAKE3 (digests of 32 bytes; no theorem
    assumes it injective, a conclusion that depends on it has a collision as its other
    case), zstd, the line diff of the [similar] crate, base32, the Git ref syntax and
    Git object ids of the [sley] crates.  Each main theorem with hypotheses has a
    witness, which applies it at a concrete input.

    ** Files

    Shared: [Prelude] (outcomes, machine integers, slices, loops, big-endian integers,
    binary search, sorting), [Text] (UTF-8 and lines), [BTree] (sorted vectors and ordered
    maps), [F64] (floats).

    Packs, over [crates/format/src/delta] and [crates/pack/src/store/pack]:
    - [Delta]: [delta_encoder.rs] and [delta_decoder.rs];
    - [Varint], [PackFormat]: [varint.rs], [shared.rs], [versioned_header.rs];
    - [PackIndex]: [pack_index.rs]; [PackSort]: [disk_sort.rs], [offset_index.rs],
      [pack_identity.rs];
    - [CompactFrame]: [object-model/src/compact], the frames a repack writes;
    - [PackBuild]: [pack_builder.rs]; [PackRead]: [pack_reader.rs]; [PackRoundtrip] and
      [PackVisit] compose the two;
    - [Repack]: [repack/policy.rs] and [repack/scheduler.rs], whose threads are a step
      relation over the scheduler's state.

    Trees, diff and merge:
    - [Trees], [TreeHash], [TreeCodec]: [object-model/src/object/tree.rs] and
      [tree_git_layout.rs], the entries, the ids with their redacted projections, the
      external forms;
    - [ObjectStore]: the class of stores that the tree algorithms work over;
    - [Budget], [LineDiff]: [objects/src/util], the Myers diff that blame uses;
    - [Merge]: [crates/merge/src], the text merge;
    - [TreeMerge], [RenameMatch], [RenameMerge], [FlatTrees]: [merge/src/tree_merge], the
      tree merge with and without renames, and flattening as the inverse of rebuilding.

    Refs, over [crates/refs/src/refs] and [object-model/src]:
    - [RefNames], [RefText]: [name_encoding.rs], [refs.rs], [text.rs], [head.rs],
      [name.rs], how names become paths and values become text;
    - [RefDisk]: the files of the store, and a schedule that decides which operation of the
      file system fails, before or after its effect;
    - [RefSummary]: [ref_summary_index.rs];
    - [RefStore]: [refs_transactions.rs] and the writers of [refs_manager.rs];
      [RefPublish], [RefPack] and [RefCas] prove what publishing, packing and updating
      guarantee; [RefSamples] holds the witnesses.

    The operation log, over [crates/oplog/src/oplog]:
    - [OpRecords]: [op_record/types.rs]; [OpLog]: [packed_oplog.rs],
      [segmented_oplog.rs], [oplog_core.rs];
    - [OpLogSpec]: the list of entries that the log stands for; [OpIndex] (the index of a
      container), [OpSegments] (the tail of segments) and [OpOps] (the operations) prove
      that the log refines it; [OpSamples] holds the witnesses.

    The reconciler, over [repo/src/atomic/reconciler.rs] and the chokepoints of
    [refs_manager.rs]:
    - [RefFold]: what committed records say of the refs; [RefReconcile]: watermarks,
      materialization, logical reads and writes, the commit before the publish;
    - [RefFoldSpec], [RefWatermark], [RefMaterialize], [RefShared], [RefRecover],
      [RefWitness], [RefRead], [RefLocal], [RefCommit]: the proofs, from the fold up to
      reads and commits, with what a snapshot's witness file may say ([RefWitness]);
      [RefReconcileSamples] holds the witnesses.

    Manifests, over [object-model/src/object/manifest]:
    - [Cursor], [Manifest], [ManifestBuild], [ManifestFsck], [ManifestExtent],
      [ManifestBinding]: [node.rs], [build.rs], [fsck.rs], [extent.rs], [binding.rs];
    - [ManifestSpec], [ManifestCanon], [ManifestTrie], [ManifestAudit]: the trie of a
      sorted set and the proofs against it; [ManifestSamples] holds the witnesses.

    ** What the theorems show

    - Packs.  [Delta.encode_decode_roundtrip], [Delta.decode_safe],
      [Delta.build_index_bounded]; [PackIndex.index_read_find]; and for whole packs
      [PackRoundtrip.build_read_roundtrip] (what is built is read back, and nothing else)
      and [PackVisit.built_pack_identity].  [PackRoundtrip.build_loses_objects] shows the
      inputs that the first has to exclude.  [Repack.scheduler_bounded] is the invariant
      of the scheduler.
    - Trees and merges.  [Trees.Trees.tree_ops_map], [Trees.Trees.validate_decides],
      [TreeHash.TreeHash.tree_id_binds], [TreeHash.TreeHash.verified_disclosure_sound];
      [LineDiff.visit_lcs_sound], [LineDiff.visit_lcs_complete]; [Merge.merge_segments],
      [Merge.conflict_regions_exact]; [TreeMerge.TreeMerge.recursive_merge_explained] and
      [FlatTrees.FlatTrees.rename_merge_explained] (at every path, the ends of renames
      included, the merge of the three sides or a reported conflict, and the tree of these
      leaves), with what the merge with renames can lose in
      [RenameMerge.RenameMerge.Samples.rename_merge_loses_changes].
    - Refs.  [RefNames.name_path_faithful]; [RefPublish.publish_all_or_nothing],
      [RefCas.update_refs_cas] and [RefPack.pack_refs_crash_safe], under one failing
      operation of the file system wherever it falls; [RefSummary.summary_incremental].
    - Log.  [OpOps.record_refines_append], [OpOps.log_query_reference],
      [OpOps.conditional_commit], [OpOps.undo_redo_roundtrip]; and over sequences of
      operations [OpOps.commits_at_most_once], relative to what callers see to for a
      transaction ([OpOps.careful]); [OpSamples.OpSamples.aged_commit_repeats] and
      [OpSamples.OpSamples.plain_commit_repeats] show the commit repeated without it.
    - Log and refs together.  [RefRecover.fold_newest_change], [RefRead.read_recovers]
      and [RefCommit.commit_and_publish_atomic]: what a logical read sees is what the log
      and the files together say, and a commit changes that at once or not at all. A
      read assumes of the witness file that a witness naming the newest entry is the
      commit's own, which [RefWitness.snapshot_witnessed] shows of the code that writes
      it, and believes no older one.
      [RefReconcileSamples.local_reconcile_clobbers] shows how one checkout can undo
      what another committed.
    - Manifests.  [ManifestCanon.build_canonical], [ManifestTrie.expand_build_roundtrip],
      [ManifestTrie.root_binds_objects], [ManifestAudit.fsck_clean_sound],
      [ManifestAudit.fsck_accepts_built], [ManifestExtent.fsck_pack_range_exact]; and the
      forged root that passes the check in
      [ManifestSamples.ManifestSamples.fsck_overflow_blind].

    ** Fuel

    A loop that is not structural takes a bound on its rounds, and the lemma about it shows
    that the bound is never reached.
    - Loops over input take its length and one more: scans, merges of sorted runs, the
      walk of [Merge], the parsers.  [LineDiff.conquer_fuel] is twice the number of
      lines and two, because each round retires a job or splits one over lines of its own.
    - [Delta.copy_fuel] is the number of copy instructions of maximal length and one.
    - Varints and lists of bits stop at the width of the integer.
    - [PackRead.depth_fuel] is the code's own limit on the depth of a chain and two
      rounds: the round in which the limit is exceeded reports the error.
    - [ManifestBuild.LEVEL_FUEL] is 54: a route has 52 groups of five bits, so nodes have
      the depths 0 to 52, and one more round reaches the depth check.
    - The recursion of the tree merges is over a store that could hold a cycle, so
      their fuel is an argument, and the theorems ask that the input trees are grounded in
      it (complete to a depth below it); grounded trees of any depth have such a number.

    ** What is not modelled

    - Left out of the modelled parts: texts of errors and reports, memory maps and caches,
      locks (an operation that holds the lock of the refs or of the log is one step), the
      [(mtime, len)] cache of packed refs, the byte encodings and the repair of
      damaged files of the operation log (a file is the value that its bytes encode), tree
      and state frames, msgpack bytes ([rmp_serde]).
    - Left out as a whole: the pack builder that streams to temporary files, transfers of
      objects, the file-system store with its journals, worktrees and ignore rules,
      Git import and export through [sley], signing and sealed environments (thin layers
      over cryptography crates), capability checks (the Biscuit engine), hosted
      services and thread replication (RPC over generated messages), mounted
      filesystems, semantic analysis (tree-sitter, embeddings), continuous integration,
      the command line, its rendering and the developer tools. *)

From stdpp Require Export base tactics list list_numbers numbers option sorting gmap strings.
From Stdlib Require Export ZArith Lia Bool.

#[global] Open Scope Z_scope.

(** ** Results of Rust code

    [exec E A] is the outcome of a Rust expression: a value, an error value of
    type [E] ([Result::Err], propagated by [?]), a panic (an index or a slice
    out of range, an arithmetic underflow, an [unwrap] of [None]), or [Fuel],
    the outcome of a loop of the model that ran out of its iteration bound.
    That no operation ever ends in [Panic] or [Fuel] is a theorem about each of
    them, never a convention. *)
Inductive exec (E A : Type) : Type :=
| Ok (a : A)
| Err (e : E)
| Panic
| Fuel.
Arguments Ok {E A} a.
Arguments Err {E A} e.
Arguments Panic {E A}.
Arguments Fuel {E A}.

#[global] Instance exec_ret {E} : MRet (exec E) := λ A a, Ok a.
#[global] Instance exec_bind {E} : MBind (exec E) := λ A B f m,
  match m with
  | Ok a => f a
  | Err e => Err e
  | Panic => Panic
  | Fuel => Fuel
  end.

(** The error type of code that returns no [Result]. *)
Abbreviation pure := (exec Empty_set).

(** [m] returns a value, and that value satisfies [Q]. *)
Definition returns {E A} (m : exec E A) (Q : A → Prop) : Prop :=
  match m with Ok a => Q a | _ => False end.

(** [m] returns a value satisfying [Q] or an error satisfying [R]. *)
Definition settles {E A} (m : exec E A) (Q : A → Prop) (R : E → Prop) : Prop :=
  match m with Ok a => Q a | Err e => R e | _ => False end.

(** Run a computation that cannot fail inside one that can. *)
Definition lift {E A} (m : pure A) : exec E A :=
  match m with
  | Ok a => Ok a
  | Err e => match e with end
  | Panic => Panic
  | Fuel => Fuel
  end.

(** [opt.ok_or(e)?] *)
Definition ok_or {E A} (o : option A) (e : E) : exec E A :=
  match o with Some a => Ok a | None => Err e end.

(** A guard that returns early with an error. *)
Definition ensure {E} (b : bool) (e : E) : exec E unit := if b then Ok () else Err e.

(** ** Machine integers

    A [usize], [u64], [u32] or [u8] is a [Z]; the target is a 64-bit platform.
    Wrapping conversions, checked and saturating arithmetic are written out. *)
Definition U8_MAX : Z := 255.
Definition U32_MAX : Z := 4294967295.
Definition U64_MAX : Z := 18446744073709551615.
Definition USIZE_MAX : Z := 18446744073709551615.

Definition as_u8 (x : Z) : Z := x `mod` 256.
Definition as_u32 (x : Z) : Z := x `mod` 4294967296.
Definition as_u64 (x : Z) : Z := x `mod` 18446744073709551616.

Definition is_byte (b : Z) : Prop := 0 ≤ b < 256.
Abbreviation bytes_ok := (Forall is_byte).

(** [a.checked_add(b)] on [usize]. *)
Definition checked_add (a b : Z) : option Z :=
  if a + b <=? USIZE_MAX then Some (a + b) else None.
(** [a.saturating_sub(b)] on an unsigned integer. *)
Definition saturating_sub (a b : Z) : Z := Z.max 0 (a - b).
(** [a.saturating_add(b)] on a 64-bit unsigned integer. *)
Definition saturating_add (a b : Z) : Z := Z.min U64_MAX (a + b).
Definition saturating_mul (a b : Z) : Z := Z.min U64_MAX (a * b).
(** [a - b] on an unsigned integer: an underflow panics. *)
Definition usub {E} (a b : Z) : exec E Z := if b <=? a then Ok (a - b) else Panic.
Definition div_ceil (a b : Z) : Z := (a + b - 1) / b.
Definition next_multiple_of (a b : Z) : Z := div_ceil a b * b.

(** ** Vectors and slices, indexed by [usize] *)
Definition zlen {A} (l : list A) : Z := Z.of_nat (length l).

(** [l[i]] *)
Definition index {E A} (l : list A) (i : Z) : exec E A :=
  if 0 <=? i then match l !! Z.to_nat i with Some a => Ok a | None => Panic end else Panic.
(** [l[i] = a] *)
Definition vec_set {E A} (l : list A) (i : Z) (a : A) : exec E (list A) :=
  if (0 <=? i) && (i <? zlen l) then Ok (<[Z.to_nat i := a]> l) else Panic.
(** [l.get(i)] *)
Definition get {A} (l : list A) (i : Z) : option A :=
  if 0 <=? i then l !! Z.to_nat i else None.

(** The elements [i..j] of [l]; only used where the range is in bounds. *)
Definition sub_list {A} (l : list A) (i j : Z) : list A :=
  take (Z.to_nat (j - i)) (drop (Z.to_nat i) l).
(** [&l[i..j]] *)
Definition slice {E A} (l : list A) (i j : Z) : exec E (list A) :=
  if (0 <=? i) && (i <=? j) && (j <=? zlen l) then Ok (sub_list l i j) else Panic.

(** [l.get(i..j)] *)
Definition get_range {A} (l : list A) (i j : Z) : option (list A) :=
  if (0 <=? i) && (i <=? j) && (j <=? zlen l) then Some (sub_list l i j) else None.

(** Lexicographic order on byte arrays ([Ord] of [[u8; N]]). *)
Fixpoint compare_bytes (a b : list Z) : comparison :=
  match a, b with
  | [], [] => Eq
  | [], _ :: _ => Lt
  | _ :: _, [] => Gt
  | x :: a, y :: b => match x ?= y with Eq => compare_bytes a b | c => c end
  end.

(** [l.chunks(n)] *)
Fixpoint chunks_from {A} (fuel : nat) (n : nat) (l : list A) : list (list A) :=
  match fuel, l with
  | O, _ | _, [] => []
  | S fuel, _ => take n l :: chunks_from fuel n (drop n l)
  end.
Definition chunks {A} (n : nat) (l : list A) : list (list A) := chunks_from (length l) n l.

(** [u32::from_be_bytes], [u64::to_be_bytes] and the like: big-endian bytes. *)
Definition from_be_bytes (bs : list Z) : Z := fold_left (λ acc b, acc * 256 + b) bs 0.
Fixpoint to_be_bytes (n : nat) (v : Z) : list Z :=
  match n with
  | O => []
  | S n => (v / 256 ^ Z.of_nat n) `mod` 256 :: to_be_bytes n v
  end.

(** [to_le_bytes], [from_le_bytes] *)
Definition to_le_bytes (n : nat) (v : Z) : list Z := reverse (to_be_bytes n v).
Definition from_le_bytes (bs : list Z) : Z := from_be_bytes (reverse bs).

(** [slice.sort_by(cmp)], which is stable: an insertion sort. *)
Fixpoint insert_by {A} (cmp : A → A → comparison) (x : A) (l : list A) : list A :=
  match l with
  | [] => [x]
  | y :: l' => match cmp x y with Gt => y :: insert_by cmp x l' | _ => x :: l end
  end.
Definition sort_by {A} (cmp : A → A → comparison) (l : list A) : list A :=
  foldr (insert_by cmp) [] l.

(** [slice.partition_point(pred)]: binary search for the first index whose
    element fails [pred]. *)
Fixpoint partition_point_loop {A} (fuel : nat) (pred : A → bool) (l : list A) (lo hi : Z)
  : pure Z :=
  match fuel with
  | O => Fuel
  | S fuel =>
      if lo <? hi then
        let mid := lo + (hi - lo) / 2 in
        x ← index l mid;
        if pred x then partition_point_loop fuel pred l (mid + 1) hi
        else partition_point_loop fuel pred l lo mid
      else Ok lo
  end.
Definition partition_point {A} (pred : A → bool) (l : list A) : pure Z :=
  partition_point_loop (S (length l)) pred l 0 (zlen l).

(** [slice.binary_search_by(cmp)]: [Some i] is [Ok(i)], [None] is [Err(_)]. *)
Fixpoint binary_search_loop {A} (fuel : nat) (cmp : A → comparison) (l : list A) (lo hi : Z)
  : pure (option Z) :=
  match fuel with
  | O => Fuel
  | S fuel =>
      if lo <? hi then
        let mid := lo + (hi - lo) / 2 in
        x ← index l mid;
        match cmp x with
        | Eq => Ok (Some mid)
        | Lt => binary_search_loop fuel cmp l (mid + 1) hi
        | Gt => binary_search_loop fuel cmp l lo mid
        end
      else Ok None
  end.
Definition binary_search_by {A} (cmp : A → comparison) (l : list A) : pure (option Z) :=
  binary_search_loop (S (length l)) cmp l 0 (zlen l).

(** [for x in xs { body }] over the loop state [s]; the body goes on with a new
    state ([inl]) or leaves the function with a result ([inr]). *)
Fixpoint for_loop {E X S R} (body : X → S → exec E (S + R)) (xs : list X) (s : S)
  : exec E (S + R) :=
  match xs with
  | [] => Ok (inl s)
  | x :: xs =>
      r ← body x s;
      match r with
      | inl s => for_loop body xs s
      | inr r => Ok (inr r)
      end
  end.

(** ** Reasoning about [exec] *)
Lemma returns_bind {E A B} (m : exec E A) (f : A → exec E B) Q :
  returns m (λ a, returns (f a) Q) → returns (m ≫= f) Q.
Proof. by destruct m. Qed.

Lemma settles_bind {E A B} (m : exec E A) (f : A → exec E B) Q R :
  settles m (λ a, settles (f a) Q R) R → settles (m ≫= f) Q R.
Proof. by destruct m. Qed.

Lemma returns_mono {E A} (m : exec E A) (Q Q' : A → Prop) :
  returns m Q → (∀ a, Q a → Q' a) → returns m Q'.
Proof. destruct m; simpl; auto. Qed.

Lemma settles_mono {E A} (m : exec E A) (Q Q' : A → Prop) (R R' : E → Prop) :
  settles m Q R → (∀ a, Q a → Q' a) → (∀ e, R e → R' e) → settles m Q' R'.
Proof. destruct m; simpl; auto. Qed.

Lemma returns_settles {E A} (m : exec E A) Q R : returns m Q → settles m Q R.
Proof. by destruct m. Qed.

Lemma returns_lift {E A} (m : pure A) Q : returns m Q → returns (E:=E) (lift m) Q.
Proof. by destruct m. Qed.

Lemma returns_inv {E A} (m : exec E A) Q : returns m Q → ∃ a, m = Ok a ∧ Q a.
Proof. destruct m; simpl; [eauto|done..]. Qed.

Lemma returns_and {E A} (m : exec E A) (Q Q' : A → Prop) :
  returns m Q → returns m Q' → returns m (λ a, Q a ∧ Q' a).
Proof. by destruct m. Qed.

Lemma bind_assoc {E A B C} (m : exec E A) (g : A → exec E B) (f : B → exec E C) :
  (m ≫= λ a, g a ≫= f) = (m ≫= g) ≫= f.
Proof. by destruct m. Qed.

Lemma bind_Ok {E A B} (a : A) (f : A → exec E B) : Ok a ≫= f = f a.
Proof. done. Qed.

Lemma bind_ok {E A B} (m : exec E A) (f : A → exec E B) b :
  m ≫= f = Ok b ↔ ∃ a, m = Ok a ∧ f a = Ok b.
Proof.
  destruct m; simpl; (split; [intros H|intros (? & [= ] & ?)]); try done; [by eauto|].
  congruence.
Qed.

(** [step H]: run the first command of a sequence with its specification [H];
    [step H as pat] names what the specification gives. *)
Tactic Notation "step" open_constr(H) "as" simple_intropattern(pat) :=
  first [ apply returns_bind; eapply returns_mono; [eapply H|cbv beta; intros ? pat]
        | apply settles_bind; eapply settles_mono;
            [apply returns_settles; eapply H|cbv beta; intros ? pat|let Hr := fresh in intros ? Hr; exact Hr]
        | apply settles_bind; eapply settles_mono; [eapply H|cbv beta; intros ? pat|] ].

(** The rule of [for]: [I], indexed by the elements already visited, holds
    between the rounds, and [Q] of a result that leaves the loop. *)
Lemma for_loop_spec {E X S R} (body : X → S → exec E (S + R)) (I : list X → S → Prop)
    (Q : R → Prop) (Er : E → Prop) xs s :
  I [] s →
  (∀ pre x post s, xs = pre ++ x :: post → I pre s →
     settles (body x s) (λ r, match r with inl s => I (pre ++ [x]) s | inr r => Q r end) Er) →
  settles (for_loop body xs s) (λ r, match r with inl s => I xs s | inr r => Q r end) Er.
Proof.
  intros H0 Hstep.
  assert (∀ post pre s, xs = pre ++ post → I pre s →
    settles (for_loop body post s) (λ r, match r with inl s => I xs s | inr r => Q r end) Er) as H;
    [|by apply (H xs [])].
  induction post as [|x post IH]; intros pre s' E' HI; cbn [for_loop].
  - rewrite app_nil_r in E'. by subst pre.
  - apply settles_bind. eapply settles_mono; [by eapply Hstep|..|done].
    intros [s''|r] Hr; [|done]. apply (IH (pre ++ [x])); [by rewrite <- app_assoc|done].
Qed.

(** ** Lengths, indices and slices *)
Lemma zlen_nonneg {A} (l : list A) : 0 ≤ zlen l.
Proof. unfold zlen; lia. Qed.
Lemma zlen_nil {A} : zlen (@nil A) = 0.
Proof. done. Qed.
Lemma zlen_cons {A} (x : A) l : zlen (x :: l) = 1 + zlen l.
Proof. unfold zlen; simpl; lia. Qed.
Lemma zlen_app {A} (l k : list A) : zlen (l ++ k) = zlen l + zlen k.
Proof. unfold zlen; rewrite length_app; lia. Qed.
Lemma zlen_0_nil {A} (l : list A) : zlen l = 0 → l = [].
Proof. unfold zlen; destruct l; simpl; [done|lia]. Qed.
Lemma zlen_fmap {A B} (f : A → B) l : zlen (f <$> l) = zlen l.
Proof. unfold zlen; by rewrite length_fmap. Qed.

Create Rewrite HintDb zlen.
#[global] Hint Rewrite @zlen_nil @zlen_cons @zlen_app @zlen_fmap : zlen.

(** Arithmetic over lengths: normalise [zlen], add non-negativity, call [lia]. *)
Ltac zlen_pose :=
  repeat match goal with
  | |- context [zlen ?l] =>
      lazymatch goal with H : 0 ≤ zlen l |- _ => fail | _ => pose proof (zlen_nonneg l) end
  | _ : context [zlen ?l] |- _ =>
      lazymatch goal with H : 0 ≤ zlen l |- _ => fail | _ => pose proof (zlen_nonneg l) end
  end.
Ltac zlia := autorewrite with zlen in *; zlen_pose; lia.

Lemma zlen_sub_list {A} (l : list A) i j :
  0 ≤ i ≤ j → j ≤ zlen l → zlen (sub_list l i j) = j - i.
Proof.
  intros. unfold zlen, sub_list in *. rewrite length_take, length_drop. lia.
Qed.

Lemma sub_list_nil {A} (l : list A) i : sub_list l i i = [].
Proof. unfold sub_list. by replace (Z.to_nat (i - i)) with 0%nat by lia. Qed.

Lemma sub_list_full {A} (l : list A) : sub_list l 0 (zlen l) = l.
Proof. unfold sub_list, zlen. rewrite drop_0, take_ge; [done|lia]. Qed.

Lemma sub_list_app {A} (l : list A) i j k :
  0 ≤ i ≤ j → j ≤ k → sub_list l i j ++ sub_list l j k = sub_list l i k.
Proof.
  intros. unfold sub_list.
  replace (drop (Z.to_nat j) l) with (drop (Z.to_nat (j - i)) (drop (Z.to_nat i) l))
    by (rewrite drop_drop; f_equal; lia).
  rewrite take_take_drop. f_equal. lia.
Qed.

Lemma sub_list_middle {A} (pre l post : list A) i j :
  i = zlen pre → j = zlen pre + zlen l → sub_list (pre ++ l ++ post) i j = l.
Proof.
  intros -> ->. unfold sub_list, zlen.
  rewrite drop_app_length' by lia. apply take_app_length'. lia.
Qed.

Lemma sub_list_cons {A} (l : list A) i j x :
  0 ≤ i < j → l !! Z.to_nat i = Some x → sub_list l i j = x :: sub_list l (i + 1) j.
Proof.
  intros ? Hx. unfold sub_list.
  rewrite (drop_S l x (Z.to_nat i)) by done.
  replace (Z.to_nat (j - i)) with (S (Z.to_nat (j - (i + 1)))) by lia. simpl.
  do 3 f_equal. lia.
Qed.

Lemma sub_list_snoc {A} (l : list A) i j x :
  0 ≤ i ≤ j → l !! Z.to_nat j = Some x → sub_list l i (j + 1) = sub_list l i j ++ [x].
Proof.
  intros ? Hx. rewrite <- (sub_list_app l i j (j + 1)) by lia. f_equal.
  rewrite (sub_list_cons l j (j + 1) x) by (done || lia). by rewrite sub_list_nil.
Qed.

Lemma lookup_sub_list {A} (l : list A) i j k :
  0 ≤ i → 0 ≤ k < j - i → sub_list l i j !! Z.to_nat k = l !! Z.to_nat (i + k).
Proof.
  intros. unfold sub_list. rewrite lookup_take_lt by lia.
  rewrite lookup_drop. f_equal. lia.
Qed.

Lemma sub_list_sub_list {A} (l : list A) i j a b :
  0 ≤ i → 0 ≤ a ≤ b → i + b ≤ j → sub_list (sub_list l i j) a b = sub_list l (i + a) (i + b).
Proof.
  intros. unfold sub_list.
  replace (Z.to_nat (j - i)) with (Z.to_nat a + Z.to_nat (j - i - a))%nat by lia.
  rewrite <- take_drop_commute, take_take, drop_drop. f_equal; [lia|]. f_equal. lia.
Qed.

Lemma Forall_sub_list {A} (P : A → Prop) l i j : Forall P l → Forall P (sub_list l i j).
Proof. intros. unfold sub_list. by apply Forall_take, Forall_drop. Qed.

Lemma slice_ok {E A} (l : list A) i j :
  0 ≤ i ≤ j → j ≤ zlen l → slice (E:=E) l i j = Ok (sub_list l i j).
Proof.
  intros. unfold slice. by repeat rewrite (proj2 (Z.leb_le _ _)) by lia.
Qed.

Lemma get_range_Some {A} (l s : list A) i j :
  get_range l i j = Some s ↔ 0 ≤ i ≤ j ∧ j ≤ zlen l ∧ s = sub_list l i j.
Proof.
  unfold get_range. destruct (Z.leb_spec 0 i), (Z.leb_spec i j), (Z.leb_spec j (zlen l)); simpl;
    (split; [intros [= <-] || intros [=]|]); try (intros (? & ? & ->)); try done; lia.
Qed.

Lemma index_ok {E A} (l : list A) i :
  0 ≤ i < zlen l → ∃ x, l !! Z.to_nat i = Some x ∧ index (E:=E) l i = Ok x.
Proof.
  intros. unfold zlen in *.
  destruct (lookup_lt_is_Some_2 l (Z.to_nat i)) as [x Hx]; [lia|].
  exists x; split; [done|]. unfold index. rewrite (proj2 (Z.leb_le _ _)) by lia. by rewrite Hx.
Qed.

Lemma NoDup_map_inj {A B} (f : A → B) l x y : NoDup (map f l) → x ∈ l → y ∈ l → f x = f y → x = y.
Proof.
  intros Hnd [i Hi]%list_elem_of_lookup [j Hj]%list_elem_of_lookup E.
  assert (i = j) as ->; [|congruence].
  eapply (NoDup_lookup _ i j (f x) Hnd); rewrite list_lookup_fmap; [by rewrite Hi|by rewrite Hj, E].
Qed.

Lemma index_returns {E A} (l : list A) i :
  0 ≤ i < zlen l → returns (index (E:=E) l i) (λ x, l !! Z.to_nat i = Some x).
Proof. intros (x & Hx & ->)%(index_ok (E:=E)). done. Qed.

Lemma slice_returns {E A} (l : list A) i j :
  0 ≤ i ≤ j → j ≤ zlen l → returns (slice (E:=E) l i j) (λ s, s = sub_list l i j).
Proof. intros. by rewrite slice_ok. Qed.

Lemma slice_suffix {E A} (l k : list A) i :
  i = zlen l → slice (E:=E) (l ++ k) i (zlen (l ++ k)) = Ok k.
Proof.
  intros ->. rewrite slice_ok by zlia. f_equal. rewrite <- (app_nil_r k) at 1.
  apply sub_list_middle; zlia.
Qed.

Lemma slice_prefix {E A} (l k : list A) i j :
  0 ≤ i ≤ j → j ≤ zlen l → slice (E:=E) (l ++ k) i j = slice l i j.
Proof.
  intros. rewrite !slice_ok by zlia. f_equal. unfold sub_list, zlen in *.
  rewrite drop_app_le by lia. by rewrite take_app_le by (rewrite length_drop; lia).
Qed.

(** The tail of a vector that has grown. *)
Lemma slice_tail {E A} (l k : list A) i :
  0 ≤ i ≤ zlen l →
  ∃ r, slice (E:=E) l i (zlen l) = Ok r ∧ slice (E:=E) (l ++ k) i (zlen (l ++ k)) = Ok (r ++ k)
       ∧ zlen r = zlen l - i ∧ l = sub_list l 0 i ++ r.
Proof.
  intros. exists (sub_list l i (zlen l)). rewrite !slice_ok by zlia.
  split; [done|]. split; [|split; [apply zlen_sub_list; lia|]].
  - f_equal. unfold sub_list, zlen in *. rewrite length_app, drop_app_le by lia.
    rewrite (take_ge (drop _ l ++ k)), (take_ge (drop _ l)); [done|..];
      rewrite ?length_app, length_drop; lia.
  - rewrite sub_list_app by lia. by rewrite sub_list_full.
Qed.

Lemma get_app {A} (l k : list A) i x : get l i = Some x → get (l ++ k) i = Some x.
Proof.
  unfold get. destruct (0 <=? i); [|done]. intros. by apply lookup_app_l_Some.
Qed.

Lemma usub_returns {E} a b : b ≤ a → returns (usub (E:=E) a b) (λ x, x = a - b).
Proof. intros. unfold usub. by rewrite (proj2 (Z.leb_le _ _)). Qed.

Lemma index_app_middle {E A} (pre post : list A) x i :
  i = zlen pre → index (E:=E) (pre ++ x :: post) i = Ok x.
Proof.
  intros ->. unfold index, zlen.
  rewrite (proj2 (Z.leb_le _ _)) by lia. rewrite Nat2Z.id.
  by rewrite list_lookup_middle.
Qed.

Lemma get_Some {A} (l : list A) i x :
  get l i = Some x → 0 ≤ i < zlen l ∧ l !! Z.to_nat i = Some x.
Proof.
  unfold get, zlen. destruct (Z.leb_spec 0 i); [|done]. intros Hx.
  pose proof (lookup_lt_Some _ _ _ Hx). split; [lia|done].
Qed.

Lemma get_is_Some {A} (l : list A) i : 0 ≤ i < zlen l → ∃ x, get l i = Some x.
Proof.
  intros Hi. destruct (index_ok (E:=Empty_set) l i Hi) as (x & Hx & _).
  exists x. unfold get. destruct (Z.leb_spec 0 i); [done|].
  lia.
Qed.

Lemma get_None {A} (l : list A) i : 0 ≤ i → get l i = None ↔ zlen l ≤ i.
Proof.
  intros. unfold get, zlen. rewrite (proj2 (Z.leb_le _ _)) by lia.
  rewrite lookup_ge_None. lia.
Qed.

Lemma concat_chunks {A} n (l : list A) : (0 < n)%nat → concat (chunks n l) = l.
Proof.
  intros Hn. unfold chunks.
  assert (∀ fuel (k : list A), (length k ≤ fuel)%nat → concat (chunks_from fuel n k) = k) as H.
  { induction fuel as [|fuel IH]; intros k Hk.
    - destruct k; [done|simpl in *; lia].
    - destruct k as [|x k]; [done|]. cbn [chunks_from concat].
      rewrite IH by (rewrite length_drop; cbn [length] in *; lia). apply take_drop. }
  by apply H.
Qed.

Lemma chunks_sizes {A} n (l : list A) :
  (0 < n)%nat → Forall (λ c, 0 < length c ≤ n)%nat (chunks n l).
Proof.
  intros Hn. unfold chunks. generalize (length l) as fuel. intros fuel. revert l.
  induction fuel as [|fuel IH]; intros l; [constructor|].
  destruct l as [|x l]; [constructor|]. cbn [chunks_from]. constructor; [|apply IH].
  rewrite length_take. simpl. lia.
Qed.

(** ** Comparisons *)
Lemma compare_bytes_eq a b : compare_bytes a b = Eq ↔ a = b.
Proof.
  revert b. induction a as [|x a IH]; intros [|y b]; simpl; try done.
  destruct (Z.compare_spec x y) as [->| |]; [rewrite IH|..]; split; intros; simplify_eq; try done; lia.
Qed.

Lemma compare_bytes_antisym a b : compare_bytes b a = CompOpp (compare_bytes a b).
Proof.
  revert b. induction a as [|x a IH]; intros [|y b]; simpl; try done.
  rewrite Z.compare_antisym. by destruct (x ?= y); simpl.
Qed.

Lemma compare_bytes_trans c a b d :
  compare_bytes a b = c → compare_bytes b d = c → compare_bytes a d = c.
Proof.
  revert b d. induction a as [|x a IH]; intros [|y b] [|z d]; simpl; intros H1 H2; try congruence.
  destruct (Z.compare_spec x y), (Z.compare_spec y z), (Z.compare_spec x z);
    subst; try congruence; try lia; eauto.
Qed.

Lemma StronglySorted_lookup_lt {A} (R : relation A) l j k x y :
  StronglySorted R l → l !! j = Some x → l !! k = Some y → (j < k)%nat → R x y.
Proof.
  intros Hs. revert j k. induction Hs as [|a l Hs IH Ha]; intros [|j] [|k] Hx Hy Hjk;
    simplify_eq/=; try lia.
  - eapply Forall_lookup_1; [exact Ha|exact Hy].
  - apply (IH j k); [done..|lia].
Qed.

(** ** Bit fields *)
Lemma land_field x k :
  0 ≤ k → Z.land x (Z.shiftl 255 k) = Z.shiftl (as_u8 (Z.shiftr x k)) k.
Proof.
  intros Hk. unfold as_u8. change 256 with (2 ^ 8). change 255 with (Z.ones 8).
  rewrite <- Z.land_ones by lia. apply Z.bits_inj'. intros n Hn.
  rewrite Z.land_spec, !Z.shiftl_spec by lia.
  destruct (Z.ltb_spec n k).
  - rewrite !(Z.testbit_neg_r _ (n - k)) by lia. apply andb_false_r.
  - rewrite Z.land_spec, Z.shiftr_spec by lia. do 2 f_equal. lia.
Qed.

Lemma testbit_small a k n : 0 ≤ a < 2 ^ k → 0 ≤ k ≤ n → Z.testbit a n = false.
Proof.
  intros Ha Hn. rewrite Z.testbit_false by lia. rewrite Z.div_small; [done|].
  pose proof (Z.pow_le_mono_r 2 k n). lia.
Qed.

Lemma lor_shiftl_add a b k : 0 ≤ k → 0 ≤ a < 2 ^ k → Z.lor a (Z.shiftl b k) = a + b * 2 ^ k.
Proof.
  intros Hk Ha. rewrite <- Z.shiftl_mul_pow2 by lia.
  assert (∀ n, 0 ≤ n → Z.testbit a n = false ∨ Z.testbit (Z.shiftl b k) n = false) as Hd.
  { intros n Hn. destruct (Z.ltb_spec n k).
    - right. rewrite Z.shiftl_spec by lia. apply Z.testbit_neg_r. lia.
    - left. by apply (testbit_small a k). }
  rewrite Z.add_nocarry_lxor.
  - apply Z.bits_inj'. intros n Hn. rewrite Z.lor_spec, Z.lxor_spec.
    destruct (Hd n Hn) as [-> | ->]; [by destruct (Z.testbit (Z.shiftl b k) n)|by destruct (Z.testbit a n)].
  - apply Z.bits_inj'. intros n Hn. rewrite Z.land_spec, Z.bits_0.
    destruct (Hd n Hn) as [-> | ->]; [done|apply andb_false_r].
Qed.

Lemma as_u8_byte x : is_byte (as_u8 x).
Proof. unfold is_byte, as_u8. apply Z.mod_pos_bound. lia. Qed.

(** A decidable property of bytes is checked on the 256 of them. *)
Lemma byte_forall (f : Z → bool) :
  forallb f (seqZ 0 256) = true → ∀ b, is_byte b → f b = true.
Proof.
  intros Hf b Hb. rewrite forallb_forall in Hf. apply Hf.
  apply list_elem_of_In, elem_of_seqZ. unfold is_byte in Hb. lia.
Qed.

Lemma shiftr_div x k : 0 ≤ k → Z.shiftr x k = x / 2 ^ k.
Proof. intros. by apply Z.shiftr_div_pow2. Qed.

(** A 24-bit and a 32-bit number from their bytes. *)
Lemma bytes3 x :
  0 ≤ x < 2 ^ 24 →
  x = as_u8 x + as_u8 (Z.shiftr x 8) * 2 ^ 8 + as_u8 (Z.shiftr x 16) * 2 ^ 16.
Proof.
  intros Hx. rewrite !shiftr_div by lia. unfold as_u8.
  change (2 ^ 16) with (2 ^ 8 * 2 ^ 8). rewrite <- Z.div_div by lia.
  change (2 ^ 24) with (2 ^ 8 * (2 ^ 8 * 2 ^ 8)) in Hx. change (2 ^ 8) with 256 in *.
  pose proof (Z.div_mod x 256). pose proof (Z.div_mod (x / 256) 256).
  assert (0 ≤ x / 256 / 256 < 256) by (Z.to_euclidean_division_equations; lia).
  rewrite (Z.mod_small (x / 256 / 256) 256) by lia. lia.
Qed.

Lemma bytes4 x :
  0 ≤ x < 2 ^ 32 →
  x = as_u8 x + as_u8 (Z.shiftr x 8) * 2 ^ 8 + as_u8 (Z.shiftr x 16) * 2 ^ 16
      + as_u8 (Z.shiftr x 24) * 2 ^ 24.
Proof.
  intros Hx. rewrite !shiftr_div by lia. unfold as_u8.
  change (2 ^ 24) with (2 ^ 8 * (2 ^ 8 * 2 ^ 8)). change (2 ^ 16) with (2 ^ 8 * 2 ^ 8).
  rewrite <- !Z.div_div by lia. change (2 ^ 32) with 4294967296 in Hx. change (2 ^ 8) with 256.
  pose proof (Z.div_mod x 256). pose proof (Z.div_mod (x / 256) 256).
  pose proof (Z.div_mod (x / 256 / 256) 256).
  assert (0 ≤ x / 256 / 256 / 256 < 256) by (Z.to_euclidean_division_equations; lia).
  rewrite (Z.mod_small (x / 256 / 256 / 256) 256) by lia. lia.
Qed.

(** ** Big-endian integers *)
Lemma from_be_bytes_cons b bs :
  from_be_bytes (b :: bs) = b * 256 ^ zlen bs + from_be_bytes bs.
Proof.
  unfold from_be_bytes. cbn [fold_left]. rewrite Z.mul_0_l, Z.add_0_l.
  assert (∀ a, fold_left (λ acc b, acc * 256 + b) bs a
    = a * 256 ^ zlen bs + fold_left (λ acc b, acc * 256 + b) bs 0) as H; [|apply H].
  induction bs as [|c bs IH]; intros a; cbn [fold_left]; [rewrite zlen_nil; simpl; lia|].
  rewrite IH, (IH (0 * 256 + c)), zlen_cons, Z.pow_add_r by zlia.
  change (256 ^ 1) with 256. ring.
Qed.

Lemma from_be_bytes_bound bs : bytes_ok bs → 0 ≤ from_be_bytes bs < 256 ^ zlen bs.
Proof.
  induction 1 as [|b bs Hb Hbs IH]; [done|].
  rewrite from_be_bytes_cons, zlen_cons, Z.pow_add_r by zlia. change (256 ^ 1) with 256.
  unfold is_byte in Hb. nia.
Qed.

Lemma zlen_to_be_bytes n v : zlen (to_be_bytes n v) = Z.of_nat n.
Proof. induction n as [|n IH]; [done|]. cbn [to_be_bytes]. rewrite zlen_cons. lia. Qed.

Lemma to_be_bytes_ok n v : bytes_ok (to_be_bytes n v).
Proof.
  induction n as [|n IH]; constructor; [|done]. unfold is_byte. apply Z.mod_pos_bound. lia.
Qed.

Lemma from_to_be_bytes n v : from_be_bytes (to_be_bytes n v) = v `mod` 256 ^ Z.of_nat n.
Proof.
  induction n as [|n IH]; [by rewrite Z.mod_1_r|].
  cbn [to_be_bytes]. rewrite from_be_bytes_cons, IH, zlen_to_be_bytes.
  rewrite Nat2Z.inj_succ, Z.pow_succ_r, (Z.mul_comm 256) by lia.
  rewrite (Z.rem_mul_r v) by lia. ring.
Qed.

Lemma from_to_be_bytes_small n v :
  0 ≤ v < 256 ^ Z.of_nat n → from_be_bytes (to_be_bytes n v) = v.
Proof. intros. rewrite from_to_be_bytes. by apply Z.mod_small. Qed.

Lemma to_be_bytes_add n v k m :
  Z.of_nat n ≤ m → to_be_bytes n (k * 256 ^ m + v) = to_be_bytes n v.
Proof.
  induction n as [|n IH]; intros Hm; [done|]. cbn [to_be_bytes]. rewrite IH by lia. f_equal.
  replace m with (m - Z.of_nat n - 1 + 1 + Z.of_nat n) at 1 by lia.
  rewrite !Z.pow_add_r by lia. change (256 ^ 1) with 256.
  rewrite Z.mul_assoc, Z.div_add_l, Z.mul_assoc, Z.add_comm by lia.
  by rewrite Z.mod_add by lia.
Qed.

Lemma to_from_be_bytes n bs :
  bytes_ok bs → zlen bs = Z.of_nat n → to_be_bytes n (from_be_bytes bs) = bs.
Proof.
  intros Hbs. revert n. induction Hbs as [|b bs Hb Hbs IH]; intros n Hn.
  - by destruct n; [|rewrite zlen_nil in Hn; lia].
  - destruct n as [|n]; [zlia|]. rewrite zlen_cons in Hn. cbn [to_be_bytes].
    rewrite from_be_bytes_cons. rewrite to_be_bytes_add, IH by lia. f_equal.
    pose proof (from_be_bytes_bound bs Hbs) as Hv. replace (Z.of_nat n) with (zlen bs) by lia.
    rewrite Z.div_add_l, Z.div_small by lia. unfold is_byte in Hb. rewrite Z.mod_small; lia.
Qed.

(** ** Binary search *)
Lemma partition_point_loop_bounds {A} fuel (pred : A → bool) l lo hi :
  0 ≤ lo ≤ hi → hi ≤ zlen l → hi - lo < Z.of_nat fuel →
  returns (partition_point_loop fuel pred l lo hi) (λ r, lo ≤ r ≤ hi).
Proof.
  revert lo hi. induction fuel as [|fuel IH]; intros lo hi Hlo Hhi Hf; [lia|].
  cbn [partition_point_loop]. destruct (Z.ltb_spec lo hi); [|simpl; lia].
  set (mid := lo + (hi - lo) / 2).
  assert (lo ≤ mid < hi) by (unfold mid; Z.to_euclidean_division_equations; lia).
  step (index_returns l mid) as Hx; [lia|].
  destruct (pred a); (eapply returns_mono; [apply IH; lia|simpl; lia]).
Qed.

Lemma partition_point_bounds {A} (pred : A → bool) l :
  returns (partition_point pred l) (λ r, 0 ≤ r ≤ zlen l).
Proof.
  apply partition_point_loop_bounds; pose proof (zlen_nonneg l); unfold zlen in *; lia.
Qed.

(** On a list that satisfies the predicate on a prefix, the length of it. *)
Lemma partition_point_spec {A} (pred : A → bool) l :
  (∀ i j x y, (i ≤ j)%nat → l !! i = Some x → l !! j = Some y → pred y = true → pred x = true) →
  returns (partition_point pred l) (λ r,
    0 ≤ r ≤ zlen l ∧ ∀ i x, l !! i = Some x → pred x = (Z.of_nat i <? r)).
Proof.
  intros Hmono. unfold partition_point.
  assert (∀ fuel lo hi, 0 ≤ lo ≤ hi → hi ≤ zlen l → hi - lo < Z.of_nat fuel →
    (∀ i x, l !! i = Some x → Z.of_nat i < lo → pred x = true) →
    (∀ i x, l !! i = Some x → hi ≤ Z.of_nat i → pred x = false) →
    returns (partition_point_loop fuel pred l lo hi) (λ r,
      0 ≤ r ≤ zlen l ∧ ∀ i x, l !! i = Some x → pred x = (Z.of_nat i <? r))) as H.
  2:{ pose proof (zlen_nonneg l). apply H; try (unfold zlen in *; lia).
      intros i x Hx%lookup_lt_Some ?. unfold zlen in *. lia. }
  induction fuel as [|fuel IH]; intros lo hi Hlo Hhi Hf Ht Hff; [lia|].
  cbn [partition_point_loop]. destruct (Z.ltb_spec lo hi) as [Hlt|Hge].
  2:{ cbn. split; [lia|]. intros i x Hx. destruct (Z.ltb_spec (Z.of_nat i) lo); [by eapply Ht|].
      apply (Hff i); [done|lia]. }
  set (mid := lo + (hi - lo) / 2).
  assert (lo ≤ mid < hi) as Hmid by (unfold mid; Z.to_euclidean_division_equations; lia).
  step (index_returns l mid) as Hx; [lia|]. destruct (pred a) eqn:Hp.
  - apply IH; [lia..| |done]. intros i x Hi Him. apply (Hmono i (Z.to_nat mid) x a); [lia|done..].
  - apply IH; [lia..|done|]. intros i x Hi Him. destruct (pred x) eqn:E; [|done].
    rewrite (Hmono (Z.to_nat mid) i a x) in Hp; [done|lia|done..].
Qed.

Lemma binary_search_loop_bounds {A} fuel (cmp : A → comparison) l lo hi :
  0 ≤ lo ≤ hi → hi ≤ zlen l → hi - lo < Z.of_nat fuel →
  returns (binary_search_loop fuel cmp l lo hi)
    (λ r, ∀ i, r = Some i → lo ≤ i < hi ∧ ∃ x, l !! Z.to_nat i = Some x ∧ cmp x = Eq).
Proof.
  revert lo hi. induction fuel as [|fuel IH]; intros lo hi Hlo Hhi Hf; [lia|].
  cbn [binary_search_loop]. destruct (Z.ltb_spec lo hi); [|done].
  set (mid := lo + (hi - lo) / 2).
  assert (lo ≤ mid < hi) by (unfold mid; Z.to_euclidean_division_equations; lia).
  step (index_returns l mid) as Hx; [lia|].
  destruct (cmp a) eqn:Hc.
  - simpl. intros i [= <-]. split; [lia|eauto].
  - eapply returns_mono; [apply IH; lia|]. simpl. intros r Hr i ->.
    destruct (Hr i eq_refl) as [? ?]. split; [lia|done].
  - eapply returns_mono; [apply IH; lia|]. simpl. intros r Hr i ->.
    destruct (Hr i eq_refl) as [? ?]. split; [lia|done].
Qed.

Lemma binary_search_by_bounds {A} (cmp : A → comparison) l :
  returns (binary_search_by cmp l)
    (λ r, ∀ i, r = Some i → 0 ≤ i < zlen l ∧ ∃ x, l !! Z.to_nat i = Some x ∧ cmp x = Eq).
Proof.
  apply binary_search_loop_bounds; pose proof (zlen_nonneg l); unfold zlen in *; lia.
Qed.

(** On a slice that [cmp] sees in order, the search misses nothing. *)
Lemma binary_search_by_complete {A} (cmp : A → comparison) l :
  (∀ j k x y, (j < k)%nat → l !! j = Some x → l !! k = Some y →
     (cmp x ≠ Lt → cmp y = Gt) ∧ (cmp y ≠ Gt → cmp x = Lt)) →
  returns (binary_search_by cmp l) (λ r, r = None → ∀ j x, l !! j = Some x → cmp x ≠ Eq).
Proof.
  intros Hmono. unfold binary_search_by.
  assert (∀ fuel lo hi, 0 ≤ lo ≤ hi → hi ≤ zlen l → hi - lo < Z.of_nat fuel →
    (∀ j x, l !! j = Some x → Z.of_nat j < lo → cmp x = Lt) →
    (∀ j x, l !! j = Some x → hi ≤ Z.of_nat j → cmp x = Gt) →
    returns (binary_search_loop fuel cmp l lo hi) (λ r, r = None → ∀ j x, l !! j = Some x → cmp x ≠ Eq)) as H.
  2:{ apply H; try (zlen_pose; unfold zlen in *; lia).
      intros j x Hx%lookup_lt_Some ?. unfold zlen in *. lia. }
  induction fuel as [|fuel IH]; intros lo hi Hlo Hhi Hf Hlt Hgt; [lia|].
  cbn [binary_search_loop]. destruct (Z.ltb_spec lo hi).
  2:{ intros _ j x Hx. destruct (Z.lt_ge_cases (Z.of_nat j) lo) as [Hj|Hj].
      - by rewrite (Hlt j x).
      - rewrite (Hgt j x); [done|done|lia]. }
  set (mid := lo + (hi - lo) / 2).
  assert (lo ≤ mid < hi) by (unfold mid; Z.to_euclidean_division_equations; lia).
  step (index_returns l mid) as Hx; [lia|]. destruct (cmp a) eqn:Hc; [done|..].
  - apply IH; [lia..| |done]. intros j x Hj Hjm.
    destruct (Nat.eq_dec j (Z.to_nat mid)) as [->|]; [congruence|].
    apply (Hmono j (Z.to_nat mid) x a); [lia|done|done|congruence].
  - apply IH; [lia..|done|]. intros j x Hj Hjm.
    destruct (Nat.eq_dec j (Z.to_nat mid)) as [->|]; [congruence|].
    apply (Hmono (Z.to_nat mid) j a x); [lia|done|done|congruence].
Qed.

(** ** Sorting *)
Section sort_by.
Context {A : Type} (cmp : A → A → comparison).

Lemma insert_by_perm x l : insert_by cmp x l ≡ₚ x :: l.
Proof.
  induction l as [|y l IH]; [done|]. cbn [insert_by]. destruct (cmp x y); [done..|].
  rewrite IH. constructor.
Qed.

Lemma sort_by_perm l : sort_by cmp l ≡ₚ l.
Proof.
  induction l as [|x l IH]; [done|]. change (insert_by cmp x (sort_by cmp l) ≡ₚ x :: l).
  rewrite insert_by_perm. by constructor.
Qed.

Lemma sort_by_id l : StronglySorted (λ x y, cmp x y = Lt) l → sort_by cmp l = l.
Proof.
  induction 1 as [|x l Hs IH Hx]; [done|]. change (insert_by cmp x (sort_by cmp l) = x :: l).
  rewrite IH. destruct l as [|y l]; [done|]. apply Forall_cons in Hx as [Hx _]. cbn. by rewrite Hx.
Qed.

Context (Hanti : ∀ x y, cmp y x = CompOpp (cmp x y)).
Context (Htrans : ∀ x y z, cmp x y ≠ Gt → cmp y z ≠ Gt → cmp x z ≠ Gt).

Lemma insert_by_sorted x l :
  StronglySorted (λ x y, cmp x y ≠ Gt) l → StronglySorted (λ x y, cmp x y ≠ Gt) (insert_by cmp x l).
Proof.
  induction 1 as [|y l Hs IH Hy]; [by repeat constructor|]. cbn [insert_by].
  destruct (cmp x y) eqn:E.
  - constructor; [by constructor|]. constructor; [congruence|].
    eapply Forall_impl; [exact Hy|]. intros z Hz. apply (Htrans x y z); [congruence|done].
  - constructor; [by constructor|]. constructor; [congruence|].
    eapply Forall_impl; [exact Hy|]. intros z Hz. apply (Htrans x y z); [congruence|done].
  - constructor; [done|]. rewrite insert_by_perm. constructor; [|done]. by rewrite Hanti, E.
Qed.

Lemma sort_by_sorted l : StronglySorted (λ x y, cmp x y ≠ Gt) (sort_by cmp l).
Proof. induction l as [|x l IH]; [constructor|]. by apply insert_by_sorted. Qed.
End sort_by.

Lemma insert_by_ext {A} (cmp cmp' : A → A → comparison) x l :
  (∀ y, y ∈ l → cmp x y = cmp' x y) → insert_by cmp x l = insert_by cmp' x l.
Proof.
  induction l as [|y l IH]; intros Hc; [done|]. cbn [insert_by].
  rewrite Hc by (by left). destruct (cmp' x y); [done..|]. f_equal. apply IH. intros. apply Hc. by right.
Qed.

Lemma sort_by_ext {A} (cmp cmp' : A → A → comparison) l :
  (∀ x y, x ∈ l → y ∈ l → cmp x y = cmp' x y) → sort_by cmp l = sort_by cmp' l.
Proof.
  induction l as [|x l IH]; intros Hc; [done|].
  change (insert_by cmp x (sort_by cmp l) = insert_by cmp' x (sort_by cmp' l)).
  rewrite <- IH by (intros; apply Hc; by right). apply insert_by_ext. intros y.
  rewrite sort_by_perm. intros. apply Hc; [by left|by right].
Qed.

Lemma StronglySorted_weaken {A} (R R' : relation A) l :
  (∀ x y, R x y → R' x y) → StronglySorted R l → StronglySorted R' l.
Proof.
  intros HR. induction 1 as [|x l Hs IH Hx]; [constructor|]. constructor; [done|].
  eapply Forall_impl; [exact Hx|]. intros. by apply HR.
Qed.

(** A strictly sorted list is what sorting any permutation of it gives. *)
Lemma sorted_unique {A} (cmp : A → A → comparison) l k :
  (∀ x y, cmp y x = CompOpp (cmp x y)) →
  StronglySorted (λ x y, cmp x y ≠ Gt) l → StronglySorted (λ x y, cmp x y = Lt) k → l ≡ₚ k → l = k.
Proof.
  intros Hanti Hl Hk Hp. eapply (StronglySorted_unique_strong (λ x y, cmp x y ≠ Gt)); [|done| |done].
  - intros x y [i Hx]%list_elem_of_lookup Hy Hxy Hyx.
    assert (x ∈ k) as [i' Hx']%list_elem_of_lookup by (rewrite <- Hp; by eapply list_elem_of_lookup_2).
    apply list_elem_of_lookup in Hy as [j Hy].
    destruct (Nat.lt_total i' j) as [Hlt|[->|Hlt]]; [|congruence|].
    + pose proof (StronglySorted_lookup_lt _ _ _ _ _ _ Hk Hx' Hy Hlt) as E. cbn in E. rewrite Hanti, E in Hyx. done.
    + pose proof (StronglySorted_lookup_lt _ _ _ _ _ _ Hk Hy Hx' Hlt) as E. cbn in E. rewrite Hanti, E in Hxy. done.
  - eapply StronglySorted_weaken; [|exact Hk]. cbn. congruence.
Qed.

Lemma compare_bytes_le_trans a b c :
  compare_bytes a b ≠ Gt → compare_bytes b c ≠ Gt → compare_bytes a c ≠ Gt.
Proof.
  intros Hab Hbc. destruct (compare_bytes a b) eqn:E1; [apply compare_bytes_eq in E1 as ->; done| |done].
  destruct (compare_bytes b c) eqn:E2; [apply compare_bytes_eq in E2 as <-; congruence| |done].
  by rewrite (compare_bytes_trans Lt a b c).
Qed.

(** The sorted list of byte strings depends on their multiset only. *)
Lemma sort_bytes_perm l k : l ≡ₚ k → sort_by compare_bytes l = sort_by compare_bytes k.
Proof.
  intros Hp. eapply (StronglySorted_unique_strong (λ x y, compare_bytes x y ≠ Gt)).
  - intros x y _ _ Hxy Hyx. rewrite compare_bytes_antisym in Hyx.
    destruct (compare_bytes x y) eqn:E; [by apply compare_bytes_eq|done|done].
  - apply sort_by_sorted; [intros; apply compare_bytes_antisym|apply compare_bytes_le_trans].
  - apply sort_by_sorted; [intros; apply compare_bytes_antisym|apply compare_bytes_le_trans].
  - by rewrite !sort_by_perm.
Qed.

Lemma zlen_app_inj {A} (a a' r r' : list A) : zlen a = zlen a' → a ++ r = a' ++ r' → a = a' ∧ r = r'.
Proof. intros Hz. apply app_inj_1. unfold zlen in Hz. lia. Qed.

Lemma zlen_to_le_bytes n v : zlen (to_le_bytes n v) = Z.of_nat n.
Proof. unfold to_le_bytes, zlen. rewrite length_reverse. apply zlen_to_be_bytes. Qed.

Lemma from_to_le_bytes n v : 0 ≤ v < 256 ^ Z.of_nat n → from_le_bytes (to_le_bytes n v) = v.
Proof.
  intros. unfold from_le_bytes, to_le_bytes. rewrite reverse_involutive. by apply from_to_be_bytes_small.
Qed.

Lemma to_from_le_bytes n bs : bytes_ok bs → zlen bs = Z.of_nat n → to_le_bytes n (from_le_bytes bs) = bs.
Proof.
  intros Hb Hz. unfold from_le_bytes, to_le_bytes. rewrite to_from_be_bytes.
  - apply reverse_involutive.
  - by rewrite Forall_reverse.
  - unfold zlen in *. by rewrite length_reverse.
Qed.

Lemma to_le_bytes_inj n v w :
  0 ≤ v < 256 ^ Z.of_nat n → 0 ≤ w < 256 ^ Z.of_nat n → to_le_bytes n v = to_le_bytes n w → v = w.
Proof. intros Hv Hw E. by rewrite <- (from_to_le_bytes n v), <- (from_to_le_bytes n w), E by done. Qed.

(** Terminated strings are prefix-free. *)
Lemma terminated_inj {A} (z : A) a a' r r' :
  z ∉ a → z ∉ a' → a ++ z :: r = a' ++ z :: r' → a = a' ∧ r = r'.
Proof.
  revert a'. induction a as [|x a IH]; intros [|y a'] Ha Ha'; cbn; rewrite ?not_elem_of_cons in *.
  - by intros [= ->].
  - intros [= -> _]. by destruct Ha' as [? _].
  - intros [= -> _]. by destruct Ha as [? _].
  - intros [= -> E]. destruct Ha, Ha'. by destruct (IH a') as [-> ->].
Qed.

(** Two strictly sorted lists with the same elements are equal. *)
Lemma strict_sorted_nodup {A} (R : relation A) l : (∀ x, ¬ R x x) → StronglySorted R l → NoDup l.
Proof.
  intros Hirr. induction 1 as [|x l _ IH Hx]; constructor; [|done].
  intros Hin. rewrite Forall_forall in Hx. by apply (Hirr x), Hx.
Qed.
Lemma strict_sorted_ext {A} (R : relation A) l k :
  (∀ x, ¬ R x x) → Transitive R → StronglySorted R l → StronglySorted R k →
  (∀ x, x ∈ l ↔ x ∈ k) → l = k.
Proof.
  intros Hirr Htr Hl Hk He. eapply (StronglySorted_unique_strong R); [|done|done|].
  - intros x y _ _ Hxy Hyx. destruct (Hirr x). by etrans.
  - apply NoDup_Permutation; [by eapply strict_sorted_nodup..|done].
Qed.
