(* ===== verification/Text.v ===== *)
(** * Text of the standard library

    UTF-8 validity ([std::str::from_utf8]), [str::lines], [str::split] and
    [str::rsplit_once] on byte lists, with the facts the line-based components
    share. *)

From S2P Require Import Prelude.

Module Text.

Definition between (lo hi b : Z) : bool := (lo <=? b) && (b <=? hi).

(** [std::str::from_utf8(bytes).is_ok()]: the well-formed sequences of the
    Unicode standard (no overlong form, no surrogate, nothing above U+10FFFF). *)
Fixpoint is_utf8 (bytes : list Z) : bool :=
  match bytes with
  | [] => true
  | a :: r1 =>
      if between 0 127 a then is_utf8 r1
      else
        match r1 with
        | [] => false
        | b :: r2 =>
            if between 194 223 a then between 128 191 b && is_utf8 r2
            else
              match r2 with
              | [] => false
              | c :: r3 =>
                  if between 224 239 a then
                    between (if a =? 224 then 160 else 128) (if a =? 237 then 159 else 191) b
                    && between 128 191 c && is_utf8 r3
                  else
                    match r3 with
                    | [] => false
                    | d :: r4 =>
                        between 240 244 a
                        && between (if a =? 240 then 144 else 128) (if a =? 244 then 143 else 191) b
                        && between 128 191 c && between 128 191 d && is_utf8 r4
                    end
              end
        end
  end.

(** [String::from_utf8_lossy]: each maximal ill-formed part becomes U+FFFD. *)
Definition REPLACEMENT : list Z := [239; 191; 189].
Fixpoint lossy (bytes : list Z) : list Z :=
  match bytes with
  | [] => []
  | a :: r1 =>
      if between 0 127 a then a :: lossy r1
      else
        match r1 with
        | [] => REPLACEMENT
        | b :: r2 =>
            if between 194 223 a then
              if between 128 191 b then a :: b :: lossy r2 else REPLACEMENT ++ lossy r1
            else if between 224 239 a then
              if between (if a =? 224 then 160 else 128) (if a =? 237 then 159 else 191) b then
                match r2 with
                | [] => REPLACEMENT
                | c :: r3 =>
                    if between 128 191 c then a :: b :: c :: lossy r3 else REPLACEMENT ++ lossy r2
                end
              else REPLACEMENT ++ lossy r1
            else if between 240 244 a then
              if between (if a =? 240 then 144 else 128) (if a =? 244 then 143 else 191) b then
                match r2 with
                | [] => REPLACEMENT
                | c :: r3 =>
                    if between 128 191 c then
                      match r3 with
                      | [] => REPLACEMENT
                      | d :: r4 =>
                          if between 128 191 d then a :: b :: c :: d :: lossy r4
                          else REPLACEMENT ++ lossy r3
                      end
                    else REPLACEMENT ++ lossy r2
                end
              else REPLACEMENT ++ lossy r1
            else REPLACEMENT ++ lossy r1
        end
  end.

(** The bytes of an ASCII literal. *)
Definition ascii_bytes (s : string) : list Z :=
  map (λ c, Z.of_N (Ascii.N_of_ascii c)) (String.list_ascii_of_string s).

(** The pieces of [split_inclusive('\n')], [cur] being the piece in progress. *)
Fixpoint pieces (cur : list Z) (bytes : list Z) : list (list Z) :=
  match bytes with
  | [] => match cur with [] => [] | _ => [cur] end
  | b :: bytes =>
      if b =? 10 then (cur ++ [b]) :: pieces [] bytes else pieces (cur ++ [b]) bytes
  end.

(** [piece.strip_suffix(b)] *)
Definition strip (b : Z) (piece : list Z) : option (list Z) :=
  match last piece with
  | Some x => if x =? b then Some (take (length piece - 1) piece) else None
  | None => None
  end.

(** The content of a piece: without its newline, and without the carriage return
    before it. *)
Definition line_content (piece : list Z) : list Z :=
  match strip 10 piece with
  | None => piece
  | Some line => match strip 13 line with None => line | Some line => line end
  end.

(** [text.lines()] *)
Definition text_lines (text : list Z) : list (list Z) := map line_content (pieces [] text).

(** [s.split(sep)] *)
Fixpoint split (sep : Z) (s : list Z) : list (list Z) :=
  match s with
  | [] => [[]]
  | b :: s =>
      if b =? sep then [] :: split sep s
      else match split sep s with p :: ps => (b :: p) :: ps | [] => [[b]] end
  end.
(** [s.rsplit_once(sep)] *)
Fixpoint rsplit_once (sep : Z) (s : list Z) : option (list Z * list Z) :=
  match s with
  | [] => None
  | b :: s =>
      match rsplit_once sep s with
      | Some (l, r) => Some (b :: l, r)
      | None => if b =? sep then Some ([], s) else None
      end
  end.

End Text.

Import Text.

Lemma concat_pieces cur bytes : concat (pieces cur bytes) = cur ++ bytes.
Proof.
  revert cur. induction bytes as [|b bytes IH]; intros cur; cbn [pieces].
  - destruct cur; cbn; by rewrite ?app_nil_r.
  - destruct (b =? 10); cbn [concat]; rewrite IH; [by rewrite <- app_assoc|by rewrite <- app_assoc].
Qed.

(** A piece holds a newline only at its end, and only the last can lack one. *)
Definition piece_ok (rest : list Z) (p : list Z) : Prop :=
  ∃ content, (10 ∉ content) ∧ (p = content ++ [10] ∨ p = content ∧ rest = [] ∧ content ≠ []).

Lemma pieces_cons cur bytes p ps :
  10 ∉ cur → pieces cur bytes = p :: ps →
  ∃ rest, cur ++ bytes = p ++ rest ∧ ps = pieces [] rest ∧ piece_ok rest p.
Proof.
  revert cur. induction bytes as [|b bytes IH]; intros cur Hc; cbn [pieces].
  - destruct cur as [|c cur]; [done|]. intros [= <- <-]. exists []. split; [by rewrite !app_nil_r|].
    split; [done|]. exists (c :: cur). split; [done|]. by right.
  - destruct (Z.eqb_spec b 10) as [->|Hb].
    + intros [= <- <-]. exists bytes. split; [by rewrite <- app_assoc|]. split; [done|].
      exists cur. split; [done|]. by left.
    + intros Hp. destruct (IH (cur ++ [b])) as (rest & E & ?); [|done|].
      * rewrite elem_of_app, list_elem_of_singleton. intros [?|?]; [done|congruence].
      * exists rest. by rewrite <- app_assoc in E.
Qed.

Lemma strip_last b l x : strip b (l ++ [x]) = if x =? b then Some l else None.
Proof.
  unfold strip. rewrite last_snoc. destruct (x =? b); [|done].
  rewrite length_app. cbn [length]. replace (length l + 1 - 1)%nat with (length l) by lia.
  by rewrite take_app_length.
Qed.

(** A piece is its content followed by its terminator. *)
Lemma line_content_spec rest p :
  piece_ok rest p →
  ∃ t, p = line_content p ++ t ∧
    (t = [10] ∨ t = [13; 10] ∨ t = [] ∧ rest = [] ∧ line_content p ≠ []).
Proof.
  intros (c & Hc & [->|(-> & -> & Hne)]); unfold line_content.
  - rewrite strip_last. cbn [Z.eqb Pos.eqb]. destruct c as [|x c _] using rev_ind.
    + exists [10]. split; [done|]. by left.
    + rewrite strip_last. destruct (Z.eqb_spec x 13) as [->|].
      * exists [13; 10]. split; [by rewrite <- app_assoc|]. right. by left.
      * exists [10]. split; [done|]. by left.
  - destruct c as [|x c _] using rev_ind; [done|]. rewrite strip_last.
    destruct (Z.eqb_spec x 10) as [->|].
    + exfalso. apply Hc. rewrite elem_of_app, list_elem_of_singleton. by right.
    + exists []. split; [by rewrite app_nil_r|]. right. right. split; [done|]. split; [done|].
      by destruct c.
Qed.

Lemma text_lines_nil : text_lines [] = [].
Proof. done. Qed.

(** The first line of a text, its terminator, and the lines of the rest. *)
Lemma text_lines_cons text :
  text ≠ [] →
  ∃ l t rest, text = l ++ t ++ rest ∧ text_lines text = l :: text_lines rest ∧
    (t = [10] ∨ t = [13; 10] ∨ t = [] ∧ rest = [] ∧ l ≠ []).
Proof.
  intros Hne. unfold text_lines. destruct (pieces [] text) as [|p ps] eqn:E.
  - pose proof (concat_pieces [] text) as Hc. rewrite E in Hc. by destruct Hne.
  - destruct (pieces_cons [] text p ps) as (rest & Ht & -> & Hp); [apply not_elem_of_nil|done|].
    cbn [app] in Ht. destruct (line_content_spec _ _ Hp) as (t & Hl & Hcase).
    exists (line_content p), t, rest. split; [|done].
    rewrite app_assoc. by rewrite <- Hl.
Qed.

Lemma zlen_text_lines text : zlen (text_lines text) ≤ zlen text.
Proof.
  remember (length text) as n eqn:Hn. revert text Hn.
  induction n as [n IH] using lt_wf_ind. intros text ->.
  destruct (decide (text = [])) as [->|Hne]; [done|].
  destruct (text_lines_cons text Hne) as (l & t & rest & E & -> & Ht).
  assert (0 < zlen l + zlen t) as Hpos.
  { destruct Ht as [->|[->|(-> & _ & Hl)]]; try zlia.
    destruct l; [done|]. zlia. }
  assert (zlen text = zlen l + zlen t + zlen rest) as Hz by (rewrite E; zlia).
  rewrite zlen_cons. enough (zlen (text_lines rest) ≤ zlen rest) by lia.
  apply (IH (length rest)); [unfold zlen in *; lia|done].
Qed.

(** Text of ASCII bytes is valid. *)
Lemma ascii_is_utf8 bytes : Forall (λ b, 0 ≤ b < 128) bytes → is_utf8 bytes = true.
Proof.
  induction 1 as [|b bytes Hb _ IH]; [done|]. cbn [is_utf8]. unfold between.
  by rewrite !(proj2 (Z.leb_le _ _)) by lia.
Qed.

(** Valid text starts with a whole character. *)
Lemma utf8_head a : is_utf8 a = true → a ≠ [] →
  ∃ h t, a = h ++ t ∧ h ≠ [] ∧ is_utf8 t = true ∧ ∀ k, is_utf8 k = true → is_utf8 (h ++ k) = true.
Proof.
  intros Ha Hne. destruct a as [|x a]; [done|]. destruct (between 0 127 x) eqn:E1.
  { cbn [is_utf8] in Ha. rewrite E1 in Ha. exists [x], a. split_and!; try done. intros k Hk. cbn [is_utf8 app]. by rewrite E1. }
  destruct a as [|y a]; [cbn in Ha; by rewrite E1 in Ha|]. destruct (between 194 223 x) eqn:E2.
  { cbn [is_utf8] in Ha. rewrite E1, E2 in Ha. apply andb_true_iff in Ha as [Hy Ha]. exists [x; y], a. split_and!; try done.
    intros k Hk. cbn [is_utf8 app]. by rewrite E1, E2, Hy, Hk. }
  destruct a as [|z a]; [cbn in Ha; by rewrite E1, E2 in Ha|]. destruct (between 224 239 x) eqn:E3.
  { cbn [is_utf8] in Ha. rewrite E1, E2, E3 in Ha. apply andb_true_iff in Ha as [[Hy Hz]%andb_true_iff Ha].
    exists [x; y; z], a. split_and!; try done. intros k Hk. cbn [is_utf8 app]. by rewrite E1, E2, E3, Hy, Hz, Hk. }
  destruct a as [|w a]; [cbn in Ha; by rewrite E1, E2, E3 in Ha|]. cbn [is_utf8] in Ha. rewrite E1, E2, E3 in Ha.
  apply andb_true_iff in Ha as [Hc Ha]. exists [x; y; z; w], a. split_and!; try done. intros k Hk. cbn [is_utf8 app].
  by rewrite E1, E2, E3, Hc, Hk.
Qed.

Lemma is_utf8_app a b : is_utf8 a = true → is_utf8 b = true → is_utf8 (a ++ b) = true.
Proof.
  intros Ha Hb. remember (length a) as n eqn:Hn. revert a Hn Ha. induction n as [n IH] using lt_wf_ind. intros a -> Ha.
  destruct (decide (a = [])) as [->|Hne]; [done|]. destruct (utf8_head a Ha Hne) as (h & t & -> & Hh & Ht & Hk).
  rewrite <- app_assoc. apply Hk, (IH (length t)); [|done|done]. rewrite length_app. destruct h; [done|cbn; lia].
Qed.
