(* ===== verification/Budget.v ===== *)
(** * Resource budgets ([crates/objects/src/util/budget.rs])

    Module [Budget]: the caps and the usage that the line diff and the blame
    slices share.  A method that takes [&mut self] returns the new budget. *)

From S2P Require Import Prelude.

Module Budget.

Inductive ResourceKind := ScratchBytes | Lines | Work | States | DecodedBytes.
#[global] Instance ResourceKind_eq_dec : EqDecision ResourceKind.
Proof. solve_decision. Defined.

Record BudgetExceeded := { kind : ResourceKind; limit_ : Z; needed : Z }.

Record ResourceUsage := {
  scratch_bytes : Z; lines : Z; work : Z; states : Z; decoded_bytes : Z
}.
Definition usage_default : ResourceUsage :=
  {| scratch_bytes := 0; lines := 0; work := 0; states := 0; decoded_bytes := 0 |}.

Definition usage_get (u : ResourceUsage) (k : ResourceKind) : Z :=
  match k with
  | ScratchBytes => scratch_bytes u
  | Lines => lines u
  | Work => work u
  | States => states u
  | DecodedBytes => decoded_bytes u
  end.

Record ResourceBudget := { limits : ResourceUsage; used : ResourceUsage }.

Definition budget_new (l : ResourceUsage) : ResourceBudget :=
  {| limits := l; used := usage_default |}.
Definition unlimited : ResourceBudget :=
  budget_new {| scratch_bytes := U64_MAX; lines := U64_MAX; work := U64_MAX;
                states := U64_MAX; decoded_bytes := U64_MAX |}.

Definition limit (b : ResourceBudget) (k : ResourceKind) : Z := usage_get (limits b) k.

Definition set_used (b : ResourceBudget) (k : ResourceKind) (v : Z) : ResourceBudget :=
  let u := used b in
  {| limits := limits b;
     used :=
       match k with
       | ScratchBytes => {| scratch_bytes := v; lines := lines u; work := work u;
                            states := states u; decoded_bytes := decoded_bytes u |}
       | Lines => {| scratch_bytes := scratch_bytes u; lines := v; work := work u;
                     states := states u; decoded_bytes := decoded_bytes u |}
       | Work => {| scratch_bytes := scratch_bytes u; lines := lines u; work := v;
                    states := states u; decoded_bytes := decoded_bytes u |}
       | States => {| scratch_bytes := scratch_bytes u; lines := lines u; work := work u;
                      states := v; decoded_bytes := decoded_bytes u |}
       | DecodedBytes => {| scratch_bytes := scratch_bytes u; lines := lines u; work := work u;
                            states := states u; decoded_bytes := v |}
       end |}.

Definition require (b : ResourceBudget) (k : ResourceKind) (needed : Z)
  : exec BudgetExceeded ResourceBudget :=
  let limit := limit b k in
  if limit <? needed then Err {| kind := k; limit_ := limit; needed := needed |}
  else if usage_get (used b) k <? needed then Ok (set_used b k needed)
  else Ok b.

Definition consume (b : ResourceBudget) (k : ResourceKind) (amount : Z)
  : exec BudgetExceeded ResourceBudget :=
  let used := saturating_add (usage_get (used b) k) amount in
  require b k used.

Definition record (b : ResourceBudget) (k : ResourceKind) (used : Z) : ResourceBudget :=
  set_used b k used.

End Budget.

Import Budget.

Lemma usage_get_set_used b k k' v :
  usage_get (used (set_used b k v)) k' = if decide (k = k') then v else usage_get (used b) k'.
Proof. by destruct k, k'. Qed.

Lemma limit_set_used b k k' v : limit (set_used b k v) k' = limit b k'.
Proof. by destruct k. Qed.

(** A budget grown from [b]: the same limits, at least the usage, and no kind of
    usage pushed over its limit. *)
Definition grows (b b' : ResourceBudget) : Prop :=
  limits b' = limits b ∧
  ∀ k, usage_get (used b) k ≤ usage_get (used b') k ∧
       (usage_get (used b) k ≤ limit b k → usage_get (used b') k ≤ limit b k).

#[global] Instance grows_preorder : PreOrder grows.
Proof.
  split.
  - intros b. split; [done|]. intros k. split; [lia|done].
  - intros b1 b2 b3 [Hl12 H12] [Hl23 H23]. split; [congruence|]. intros k.
    destruct (H12 k) as [? H1]. destruct (H23 k) as [? H2]. unfold limit in *.
    rewrite Hl12 in H2. split; [lia|auto].
Qed.

(** What a failed request says: the limit of its kind, and a need above it. *)
Definition exceeds (b : ResourceBudget) (e : BudgetExceeded) : Prop :=
  limit_ e = limit b (kind e) ∧ limit_ e < needed e.

Lemma exceeds_grows b b' e : grows b b' → exceeds b' e → exceeds b e.
Proof. intros [Hl _] [? ?]. unfold exceeds, limit in *. by rewrite Hl in *. Qed.

Lemma require_spec b k v :
  settles (require b k v)
    (λ b', grows b b' ∧ v ≤ limit b k ∧ usage_get (used b') k = Z.max v (usage_get (used b) k) ∧
       ∀ k', k' ≠ k → usage_get (used b') k' = usage_get (used b) k')
    (λ e, exceeds b e ∧ kind e = k ∧ needed e = v).
Proof.
  unfold require. destruct (Z.ltb_spec (limit b k) v); [done|].
  destruct (Z.ltb_spec (usage_get (used b) k) v); cbn [settles].
  - split; [|split; [done|]].
    + split; [done|]. intros k'. rewrite usage_get_set_used. destruct (decide (k = k')); subst; lia.
    + split; [rewrite usage_get_set_used, decide_True by done; lia|]. intros k' Hk.
      rewrite usage_get_set_used. by rewrite decide_False by congruence.
  - split; [reflexivity|]. split; [done|]. split; [lia|done].
Qed.

Lemma consume_spec b k v :
  0 ≤ v →
  settles (consume b k v)
    (λ b', grows b b' ∧ saturating_add (usage_get (used b) k) v ≤ limit b k ∧
       ∀ k', k' ≠ k → usage_get (used b') k' = usage_get (used b) k')
    (λ e, exceeds b e ∧ kind e = k ∧ needed e = saturating_add (usage_get (used b) k) v).
Proof.
  intros Hv. unfold consume. eapply settles_mono; [apply require_spec|..].
  - intros b' (? & ? & ? & ?). done.
  - done.
Qed.
