(* ===== verification/Delta.v ===== *)
(** * Delta compression ([crates/format/src/delta])

    Module [Encoder] is [delta_encoder.rs], module [Decoder] is
    [delta_decoder.rs].  Positions and lengths are [Z] ([usize]); every loop
    carries a fuel argument equal to a bound on its iterations, and the
    theorems show that the bound is never reached.  The main results: decoding
    what the encoder produced gives the target back, for the freshly built index
    and for any index whose offsets lie in the base; the size estimate is exact;
    the index fits its memory cap; the decoder never panics and never exceeds
    its output limit. *)

From S2P Require Import Prelude.

Module Encoder.

(** Constants of [delta_encoder.rs]. *)
Definition MIN_MATCH_LENGTH_LARGE : Z := 16.
Definition MIN_MATCH_LENGTH_SMALL : Z := 8.
Definition MAX_MATCH_CANDIDATES : Z := 1024.
Definition MATCH_CHUNK_SIZE : Z := 32.
Definition MAX_COPY_LENGTH : Z := 0xFFFFFF.
Definition INDEX_BLOCK_SIZE : Z := 16.
Definition MAX_INDEX_BYTES : Z := 4 * 1024 * 1024.
Definition DENSE_INDEX_BELOW : Z := 1024.

(** [struct IndexEntry { key: u32, offset: u32 }] *)
Record IndexEntry := { key : Z; offset : Z }.
Definition size_of_IndexEntry : Z := 8.

(** [struct DeltaIndex { entries: Vec<IndexEntry> }] *)
Record DeltaIndex := { entries : list IndexEntry }.

(** [!= 0] *)
Definition nonzero (x : Z) : bool := negb (x =? 0).

Definition min_match_for (target_len : Z) : Z :=
  if target_len <? 1024 then MIN_MATCH_LENGTH_SMALL else MIN_MATCH_LENGTH_LARGE.

(** One literal instruction: its length byte, then the bytes. *)
Definition emit_insert (delta data : list Z) : list Z :=
  delta ++ [zlen data - 1] ++ data.

Definition encode_insert (data : list Z) : list Z :=
  fold_left emit_insert (chunks 128 data) [].

(** One copy instruction: the command byte, then the flagged bytes of the
    offset and of the length. *)
Definition emit_copy_instruction (delta : list Z) (offset length : Z) : list Z :=
  let offset := as_u32 offset in
  let length := as_u32 length in
  let cmd := Z.lor 0x80 0x01 in
  let cmd := if nonzero (Z.land offset 0xFF00) then Z.lor cmd 0x02 else cmd in
  let cmd := if nonzero (Z.land offset 0xFF0000) then Z.lor cmd 0x04 else cmd in
  let cmd := if nonzero (Z.land offset 0xFF000000) then Z.lor cmd 0x08 else cmd in
  let cmd :=
    if nonzero (length - 0x10000) then
      let cmd := if nonzero (Z.land length 0xFF) then Z.lor cmd 0x10 else cmd in
      let cmd := if nonzero (Z.land length 0xFF00) then Z.lor cmd 0x20 else cmd in
      if nonzero (Z.land length 0xFF0000) then Z.lor cmd 0x40 else cmd
    else cmd in
  let delta := delta ++ [cmd] in
  let delta := delta ++ [as_u8 offset] in
  let delta :=
    if nonzero (Z.land offset 0xFF00) then delta ++ [as_u8 (Z.shiftr offset 8)] else delta in
  let delta :=
    if nonzero (Z.land offset 0xFF0000) then delta ++ [as_u8 (Z.shiftr offset 16)] else delta in
  let delta :=
    if nonzero (Z.land offset 0xFF000000) then delta ++ [as_u8 (Z.shiftr offset 24)] else delta in
  if nonzero (length - 0x10000) then
    let delta :=
      if nonzero (Z.land length 0xFF) then delta ++ [as_u8 length] else delta in
    let delta :=
      if nonzero (Z.land length 0xFF00) then delta ++ [as_u8 (Z.shiftr length 8)] else delta in
    if nonzero (Z.land length 0xFF0000) then delta ++ [as_u8 (Z.shiftr length 16)] else delta
  else delta.

Fixpoint emit_copy_loop (fuel : nat) (delta : list Z) (offset remaining : Z)
  : pure (list Z) :=
  match fuel with
  | O => Fuel
  | S fuel =>
      if 0 <? remaining then
        let chunk := Z.min remaining MAX_COPY_LENGTH in
        emit_copy_loop fuel (emit_copy_instruction delta offset chunk)
          (offset + chunk) (remaining - chunk)
      else Ok delta
  end.
Definition copy_fuel (length : Z) : nat := S (Z.to_nat (div_ceil length MAX_COPY_LENGTH)).
Definition emit_copy (delta : list Z) (offset length : Z) : pure (list Z) :=
  emit_copy_loop (copy_fuel length) delta offset length.

Definition copy_instruction_size_one (offset length : Z) : Z :=
  let offset := as_u32 offset in
  let length := as_u32 length in
  let n := 1 + 1 in
  let n := if nonzero (Z.land offset 0xFF00) then n + 1 else n in
  let n := if nonzero (Z.land offset 0xFF0000) then n + 1 else n in
  let n := if nonzero (Z.land offset 0xFF000000) then n + 1 else n in
  if nonzero (length - 0x10000) then
    let n := if nonzero (Z.land length 0xFF) then n + 1 else n in
    let n := if nonzero (Z.land length 0xFF00) then n + 1 else n in
    if nonzero (Z.land length 0xFF0000) then n + 1 else n
  else n.

Fixpoint copy_instruction_size_loop (fuel : nat) (size offset remaining : Z) : pure Z :=
  match fuel with
  | O => Fuel
  | S fuel =>
      if 0 <? remaining then
        let chunk := Z.min remaining MAX_COPY_LENGTH in
        copy_instruction_size_loop fuel (size + copy_instruction_size_one offset chunk)
          (offset + chunk) (remaining - chunk)
      else Ok size
  end.
Definition copy_instruction_size (offset length : Z) : pure Z :=
  copy_instruction_size_loop (copy_fuel length) 0 offset length.

(** The big-endian 4-byte key of [target] at [pos]. *)
Definition target_key (target : list Z) (pos : Z) : option Z :=
  stop ← checked_add pos 4;
  if stop <=? zlen target then Some (from_be_bytes (sub_list target pos stop)) else None.

(** [(key? << 8) | next_byte] on [u32]. *)
Definition roll_target_key (key : option Z) (target : list Z) (pos : Z) : option Z :=
  next ← checked_add pos 3;
  next_byte ← get target next;
  key ← key;
  Some (Z.lor (as_u32 (Z.shiftl key 8)) next_byte).

Definition eqb_bytes (a b : list Z) : bool := bool_decide (a = b).

Fixpoint match_chunks_loop (fuel : nat) (base : list Z) (base_pos : Z)
    (target : list Z) (target_pos max_len len : Z) : pure Z :=
  match fuel with
  | O => Fuel
  | S fuel =>
      if len + MATCH_CHUNK_SIZE <=? max_len then
        a ← slice base (base_pos + len) (base_pos + len + MATCH_CHUNK_SIZE);
        b ← slice target (target_pos + len) (target_pos + len + MATCH_CHUNK_SIZE);
        if eqb_bytes a b
        then match_chunks_loop fuel base base_pos target target_pos max_len
               (len + MATCH_CHUNK_SIZE)
        else Ok len
      else Ok len
  end.

Fixpoint match_bytes_loop (fuel : nat) (base : list Z) (base_pos : Z)
    (target : list Z) (target_pos max_len len : Z) : pure Z :=
  match fuel with
  | O => Fuel
  | S fuel =>
      if len <? max_len then
        a ← index base (base_pos + len);
        b ← index target (target_pos + len);
        if a =? b
        then match_bytes_loop fuel base base_pos target target_pos max_len (len + 1)
        else Ok len
      else Ok len
  end.

Definition match_length (base : list Z) (base_pos : Z) (target : list Z) (target_pos : Z)
  : pure Z :=
  base_left ← usub (zlen base) base_pos;
  target_left ← usub (zlen target) target_pos;
  let max_len :=
    Z.min (Z.min base_left target_left) (saturating_add (saturating_sub U32_MAX base_pos) 1) in
  let fuel := S (Z.to_nat max_len) in
  len ← match_chunks_loop fuel base base_pos target target_pos max_len 0;
  match_bytes_loop fuel base base_pos target target_pos max_len len.

Definition compare_key (k : Z) (entry : IndexEntry) : comparison := key entry ?= k.

(** The candidate loop of [find_best_match]; [best] is the pair
    [(best_offset, best_length)]. *)
Fixpoint scan_candidates (candidates : list IndexEntry) (base target : list Z)
    (pos target_remaining : Z) (best : Z * Z) : pure (Z * Z) :=
  match candidates with
  | [] => Ok best
  | entry :: rest =>
      length ← match_length base (offset entry) target pos;
      let best := if best.2 <? length then (offset entry, length) else best in
      if length =? target_remaining then Ok best
      else scan_candidates rest base target pos target_remaining best
  end.

Definition find_best_match (ix : DeltaIndex) (base target : list Z) (pos : Z)
    (k : option Z) (min_match : Z) : pure (option (Z * Z)) :=
  match k with
  | None => Ok None
  | Some k =>
      found ← binary_search_by (compare_key k) (entries ix);
      match found with
      | None => Ok None
      | Some found =>
          below ← slice (entries ix) 0 found;
          first ← partition_point (λ entry, key entry <? k) below;
          above ← slice (entries ix) found (zlen (entries ix));
          count ← partition_point (λ entry, key entry =? k) above;
          let last := found + count in
          offsets ← slice (entries ix) first last;
          target_remaining ← usub (zlen target) pos;
          let recent_start := saturating_sub (zlen offsets) MAX_MATCH_CANDIDATES in
          let finish best examined :=
            remaining_budget ← usub MAX_MATCH_CANDIDATES examined;
            let start := saturating_sub (zlen offsets) remaining_budget in
            candidates ← slice offsets start (zlen offsets);
            best ← scan_candidates candidates base target pos target_remaining best;
            if min_match <=? best.2 then Ok (Some best) else Ok None in
          if 0 <? recent_start then
            entry ← index offsets 0;
            length ← match_length base (offset entry) target pos;
            let best := if 0 <? length then (offset entry, length) else (0, 0) in
            if length =? target_remaining then Ok (Some best)
            else finish best 1
          else finish (0, 0) 0
      end
  end.

(** The literal loop: extend the literal until a match starts, up to 127 bytes.
    Returns the new position and key. *)
Fixpoint literal_loop (fuel : nat) (ix : DeltaIndex) (base target : list Z)
    (min_match start pos : Z) (k : option Z) : pure (Z * option Z) :=
  match fuel with
  | O => Fuel
  | S fuel =>
      if (pos <? zlen target) && (pos - start <? 127) then
        let pos := pos + 1 in
        let k := roll_target_key k target pos in
        m ← find_best_match ix base target pos k min_match;
        match m with
        | Some _ => Ok (pos, k)
        | None => literal_loop fuel ix base target min_match start pos k
        end
      else Ok (pos, k)
  end.

Fixpoint encode_loop (fuel : nat) (ix : DeltaIndex) (base target : list Z)
    (min_match : Z) (delta : list Z) (pos : Z) (k : option Z) : pure (list Z) :=
  match fuel with
  | O => Fuel
  | S fuel =>
      if pos <? zlen target then
        m ← find_best_match ix base target pos k min_match;
        match m with
        | Some (offset, length) =>
            delta ← emit_copy delta offset length;
            let pos := pos + length in
            encode_loop fuel ix base target min_match delta pos (target_key target pos)
        | None =>
            let start := pos in
            '(pos, k) ← literal_loop 128 ix base target min_match start pos k;
            len ← usub (as_u8 (pos - start)) 1;
            lit ← slice target start pos;
            encode_loop fuel ix base target min_match (delta ++ [len] ++ lit) pos k
        end
      else Ok delta
  end.

Definition encode_with_index (ix : DeltaIndex) (base target : list Z) : pure (list Z) :=
  if zlen base =? 0 then Ok (encode_insert target)
  else
    encode_loop (S (length target)) ix base target (min_match_for (zlen target)) [] 0
      (target_key target 0).

Fixpoint estimate_loop (fuel : nat) (ix : DeltaIndex) (base target : list Z)
    (min_match : Z) (size : Z) (pos : Z) (k : option Z) : pure Z :=
  match fuel with
  | O => Fuel
  | S fuel =>
      if pos <? zlen target then
        m ← find_best_match ix base target pos k min_match;
        match m with
        | Some (offset, length) =>
            n ← copy_instruction_size offset length;
            let pos := pos + length in
            estimate_loop fuel ix base target min_match (size + n) pos (target_key target pos)
        | None =>
            let start := pos in
            '(pos, k) ← literal_loop 128 ix base target min_match start pos k;
            estimate_loop fuel ix base target min_match (size + (1 + (pos - start))) pos k
        end
      else Ok size
  end.

Definition estimate_delta_size_with_index (ix : DeltaIndex) (base target : list Z) : pure Z :=
  if zlen base =? 0 then Ok (zlen target + div_ceil (zlen target) 128)
  else
    estimate_loop (S (length target)) ix base target (min_match_for (zlen target)) 0 0
      (target_key target 0).

(** The sort key [(entry.key, entry.offset)]; offsets are distinct, so the
    unstable sort has one result. *)
Definition entry_le (a b : IndexEntry) : Prop :=
  key a < key b ∨ (key a = key b ∧ offset a ≤ offset b).
#[global] Instance entry_le_dec : RelDecision entry_le.
Proof. intros a b. unfold entry_le. apply _. Defined.

Definition index_stride (base_len last_offset : Z) : Z :=
  if base_len <? DENSE_INDEX_BELOW then 1
  else
    let max_entries := MAX_INDEX_BYTES / size_of_IndexEntry in
    next_multiple_of (Z.max (div_ceil (last_offset + 1) max_entries) INDEX_BLOCK_SIZE)
      INDEX_BLOCK_SIZE.

Definition index_entry_at (base : list Z) (off : Z) : IndexEntry :=
  {| key := from_be_bytes (sub_list base off (off + 4)); offset := as_u32 off |}.

(** [(0..=last_offset).step_by(stride)] *)
Definition sampled_offsets (base_len : Z) : list Z :=
  let last_offset := Z.min (base_len - 4) U32_MAX in
  let stride := index_stride base_len last_offset in
  (λ i, i * stride) <$> seqZ 0 (last_offset / stride + 1).

Definition build_index (base : list Z) : DeltaIndex :=
  if zlen base <? 4 then {| entries := [] |}
  else
    {| entries := merge_sort entry_le (index_entry_at base <$> sampled_offsets (zlen base)) |}.

Definition encode (base target : list Z) : pure (list Z) :=
  if zlen base =? 0 then Ok (encode_insert target)
  else encode_with_index (build_index base) base target.

Definition estimate_delta_size (base target : list Z) : pure Z :=
  if zlen base =? 0 then Ok (zlen target + div_ceil (zlen target) 128)
  else estimate_delta_size_with_index (build_index base) base target.

End Encoder.

Module Decoder.

Definition MAX_DELTA_OUTPUT_SIZE : Z := 128 * 1024 * 1024.

Inductive DeltaError :=
| OutputLimitExceeded (attempted max_output : Z)
| TruncatedLiteral (instruction_offset length available : Z)
| TruncatedCopyInstruction (instruction_offset expected_bytes available : Z)
| InvalidBaseRange (instruction_offset copy_offset copy_end base_len : Z)
| ReservedInstruction (instruction_offset : Z).

Abbreviation dres := (exec DeltaError).

Definition ensure_output_limit (current_len append_len max_output : Z) : dres unit :=
  attempted ← ok_or (checked_add current_len append_len)
                (OutputLimitExceeded USIZE_MAX max_output);
  if max_output <? attempted then Err (OutputLimitExceeded attempted max_output) else Ok ().

Definition flag (header bit : Z) : bool := Encoder.nonzero (Z.land header bit).

(** [if header & bit != 0 { acc |= (delta[pos] as usize) << shift; pos += 1; }] *)
Definition read_field (delta : list Z) (header bit shift : Z) (st : Z * Z) : dres (Z * Z) :=
  let '(acc, pos) := st in
  if flag header bit then
    b ← index delta pos;
    Ok (Z.lor acc (Z.shiftl b shift), pos + 1)
  else Ok (acc, pos).

Definition expected_bytes (header : Z) : Z :=
  Z.b2z (flag header 0x01) + Z.b2z (flag header 0x02) + Z.b2z (flag header 0x04)
  + Z.b2z (flag header 0x08) + Z.b2z (flag header 0x10) + Z.b2z (flag header 0x20)
  + Z.b2z (flag header 0x40).

(** One iteration of the decoding loop: the new position and output. *)
Definition decode_step (base delta : list Z) (max_output pos : Z) (target : list Z)
  : dres (Z * list Z) :=
  let instruction_offset := pos in
  header ← index delta pos;
  let pos := pos + 1 in
  if Z.land header 0x80 =? 0 then
    let len := header + 1 in
    if zlen delta <? pos + len then
      Err (TruncatedLiteral instruction_offset len (saturating_sub (zlen delta) pos))
    else
      _ ← ensure_output_limit (zlen target) len max_output;
      lit ← slice delta pos (pos + len);
      Ok (pos + len, target ++ lit)
  else if header =? 0x80 then Err (ReservedInstruction instruction_offset)
  else
    let expected := expected_bytes header in
    if zlen delta <? pos + expected then
      Err (TruncatedCopyInstruction instruction_offset expected
             (saturating_sub (zlen delta) pos))
    else
      st ← read_field delta header 0x01 0 (0, pos);
      st ← read_field delta header 0x02 8 st;
      st ← read_field delta header 0x04 16 st;
      '(offset, pos) ← read_field delta header 0x08 24 st;
      st ← read_field delta header 0x10 0 (0, pos);
      st ← read_field delta header 0x20 8 st;
      '(length, pos) ← read_field delta header 0x40 16 st;
      let length := if length =? 0 then 0x10000 else length in
      copy_end ← ok_or (checked_add offset length)
                   (InvalidBaseRange instruction_offset offset USIZE_MAX (zlen base));
      if zlen base <? copy_end then
        Err (InvalidBaseRange instruction_offset offset copy_end (zlen base))
      else
        _ ← ensure_output_limit (zlen target) length max_output;
        part ← slice base offset copy_end;
        Ok (pos, target ++ part).

Fixpoint decode_loop (fuel : nat) (base delta : list Z) (max_output pos : Z)
    (target : list Z) : dres (list Z) :=
  match fuel with
  | O => Fuel
  | S fuel =>
      if pos <? zlen delta then
        '(pos, target) ← decode_step base delta max_output pos target;
        decode_loop fuel base delta max_output pos target
      else Ok target
  end.

Definition decode (base delta : list Z) (max_output : Z) : dres (list Z) :=
  decode_loop (S (length delta)) base delta max_output 0 [].

End Decoder.

Import Encoder Decoder.

(** ** Matching *)
Lemma match_chunks_loop_spec fuel base bp target tp max_len len :
  0 ≤ bp → 0 ≤ tp → 0 ≤ len ≤ max_len → max_len - len < Z.of_nat fuel →
  bp + max_len ≤ zlen base → tp + max_len ≤ zlen target →
  sub_list base bp (bp + len) = sub_list target tp (tp + len) →
  returns (match_chunks_loop fuel base bp target tp max_len len)
    (λ n, len ≤ n ≤ max_len ∧ sub_list base bp (bp + n) = sub_list target tp (tp + n)).
Proof.
  revert len. unfold MATCH_CHUNK_SIZE in *.
  induction fuel as [|fuel IH]; intros len ?????? Heq; [lia|].
  cbn [match_chunks_loop]. unfold MATCH_CHUNK_SIZE.
  destruct (Z.leb_spec (len + 32) max_len); [|simpl; split; [lia|done]].
  rewrite !slice_ok by lia. simpl.
  unfold eqb_bytes. case_bool_decide as Hc; [|simpl; split; [lia|done]].
  eapply returns_mono; [apply IH; try lia|simpl; intros; split; [lia|tauto]].
  rewrite !Z.add_assoc. rewrite <- (sub_list_app base bp (bp + len)), <- (sub_list_app target tp (tp + len)) by lia.
  by rewrite Heq, Hc.
Qed.

(** The result is exact: either the whole window matches or the next bytes differ. *)
Lemma match_bytes_loop_spec fuel base bp target tp max_len len :
  0 ≤ bp → 0 ≤ tp → 0 ≤ len ≤ max_len → max_len - len < Z.of_nat fuel →
  bp + max_len ≤ zlen base → tp + max_len ≤ zlen target →
  sub_list base bp (bp + len) = sub_list target tp (tp + len) →
  returns (match_bytes_loop fuel base bp target tp max_len len)
    (λ n, len ≤ n ≤ max_len ∧ sub_list base bp (bp + n) = sub_list target tp (tp + n)
       ∧ (n < max_len → base !! Z.to_nat (bp + n) ≠ target !! Z.to_nat (tp + n))).
Proof.
  revert len. induction fuel as [|fuel IH]; intros len ?????? Heq; [lia|].
  cbn [match_bytes_loop].
  destruct (Z.ltb_spec len max_len); [|simpl; split_and!; [lia..|done|intros; lia]].
  step (index_returns base (bp + len)) as Hx; [lia|].
  step (index_returns target (tp + len)) as Hy; [lia|].
  destruct (Z.eqb_spec a a0) as [->|Hne].
  - eapply returns_mono; [apply IH; try lia|simpl; intros; split; [lia|tauto]].
    rewrite !Z.add_assoc.
    by rewrite (sub_list_snoc base _ _ a0), (sub_list_snoc target _ _ a0), Heq by (done || lia).
  - simpl. split; [lia|]. split; [done|]. intros _. congruence.
Qed.

Definition match_cap (base : list Z) (bp : Z) (target : list Z) (tp : Z) : Z :=
  Z.min (Z.min (zlen base - bp) (zlen target - tp)) (Z.max 0 (U32_MAX - bp) + 1).

Lemma match_length_spec base bp target tp :
  0 ≤ bp ≤ zlen base → 0 ≤ tp ≤ zlen target →
  returns (match_length base bp target tp)
    (λ n, 0 ≤ n ≤ match_cap base bp target tp
       ∧ sub_list base bp (bp + n) = sub_list target tp (tp + n)
       ∧ (n < match_cap base bp target tp →
          base !! Z.to_nat (bp + n) ≠ target !! Z.to_nat (tp + n))).
Proof.
  intros. unfold match_length.
  step (usub_returns (zlen base) bp) as ->; [lia|].
  step (usub_returns (zlen target) tp) as ->; [lia|].
  replace (Z.min _ (saturating_add _ 1)) with (match_cap base bp target tp)
    by (unfold match_cap, saturating_add, saturating_sub, U64_MAX, U32_MAX; lia).
  assert (0 ≤ match_cap base bp target tp) by (unfold match_cap, U32_MAX; lia).
  assert (bp + match_cap base bp target tp ≤ zlen base) by (unfold match_cap; lia).
  assert (tp + match_cap base bp target tp ≤ zlen target) by (unfold match_cap; lia).
  step match_chunks_loop_spec as [? ?]; try lia.
  { by rewrite !Z.add_0_r, !sub_list_nil. }
  eapply returns_mono; [apply match_bytes_loop_spec; try lia; done|]. simpl. intros; split; [lia|tauto].
Qed.

(** ** Candidate search *)

(** The offsets of an index point into the base and are [u32] values. *)
Definition entry_in_range (base : list Z) (e : IndexEntry) : Prop :=
  0 ≤ offset e ≤ zlen base ∧ offset e ≤ U32_MAX.
Definition index_in_range (ix : DeltaIndex) (base : list Z) : Prop :=
  Forall (entry_in_range base) (entries ix).

(** A pair (offset, length) names the same bytes in the base and in the target. *)
Definition good_match (base target : list Z) (pos : Z) (m : Z * Z) : Prop :=
  0 ≤ m.1 ≤ zlen base ∧ m.1 ≤ U32_MAX ∧ 0 ≤ m.2 ≤ match_cap base m.1 target pos ∧
  sub_list base m.1 (m.1 + m.2) = sub_list target pos (pos + m.2).

Lemma good_match_zero base target pos :
  0 ≤ pos ≤ zlen target → good_match base target pos (0, 0).
Proof.
  intros. unfold good_match, match_cap, U32_MAX. simpl. pose proof (zlen_nonneg base).
  rewrite !Z.add_0_r, !sub_list_nil. split_and!; lia || done.
Qed.

Lemma scan_candidates_spec cs base target pos best :
  Forall (entry_in_range base) cs → 0 ≤ pos ≤ zlen target →
  good_match base target pos best →
  returns (scan_candidates cs base target pos (zlen target - pos) best)
    (good_match base target pos).
Proof.
  revert best. induction cs as [|e cs IH]; intros best Hcs Hpos Hbest; [done|].
  apply Forall_cons in Hcs as [He Hcs]. cbn [scan_candidates].
  destruct He. step match_length_spec as (Hn & Hsub & _); [done..|].
  assert (good_match base target pos (if best.2 <? a then (offset e, a) else best)).
  { destruct (_ <? _); [|done]. by split. }
  destruct (_ =? _); [done|]. by apply IH.
Qed.

Lemma find_best_match_spec ix base target pos k min_match :
  index_in_range ix base → 0 ≤ pos ≤ zlen target → 0 < min_match →
  (is_Some k → pos + 4 ≤ zlen target) →
  returns (find_best_match ix base target pos k min_match)
    (λ o, ∀ m, o = Some m → good_match base target pos m ∧ 0 < m.2).
Proof.
  intros Hix Hpos Hmin Hk. unfold find_best_match. destruct k as [k|]; [|done].
  specialize (Hk ltac:(eauto)).
  step (binary_search_by_bounds (compare_key k) (entries ix)) as Hfound.
  destruct a as [found|]; [|done]. destruct (Hfound found eq_refl) as [Hf _].
  step (slice_returns (entries ix) 0 found) as ->; [lia..|].
  step (partition_point_bounds (λ entry, key entry <? k)) as Hfirst.
  rewrite zlen_sub_list in Hfirst by lia.
  step (slice_returns (entries ix) found (zlen (entries ix))) as ->; [lia..|].
  step (partition_point_bounds (λ entry, key entry =? k)) as Hcount.
  rewrite zlen_sub_list in Hcount by lia.
  step (slice_returns (entries ix) a (found + a0)) as ->; [lia..|].
  assert (Forall (entry_in_range base) (sub_list (entries ix) a (found + a0))) as Hoff
    by by apply Forall_sub_list.
  set (offs := sub_list (entries ix) a (found + a0)) in *.
  step (usub_returns (zlen target) pos) as ->; [lia|].
  assert (∀ best examined, good_match base target pos best → 0 ≤ examined ≤ 1 →
    returns (remaining_budget ← usub MAX_MATCH_CANDIDATES examined;
             candidates ← slice offs (saturating_sub (zlen offs) remaining_budget) (zlen offs);
             best ← scan_candidates candidates base target pos (zlen target - pos) best;
             if min_match <=? best.2 then Ok (Some best) else Ok None)
      (λ o, ∀ m, o = Some m → good_match base target pos m ∧ 0 < m.2)) as Hfinish.
  { intros best examined Hbest Hex. unfold MAX_MATCH_CANDIDATES.
    step (usub_returns (E:=Empty_set) 1024 examined) as ->; [lia|].
    step (slice_returns offs (saturating_sub (zlen offs) (1024 - examined)) (zlen offs)) as ->;
      [unfold saturating_sub; pose proof (zlen_nonneg offs); lia..|].
    step scan_candidates_spec as Hb; [by apply Forall_sub_list|done..|].
    destruct (Z.leb_spec min_match a1.2); simpl; [|done]. intros m [= <-]. split; [done|lia]. }
  unfold saturating_sub at 1. destruct (Z.ltb_spec 0 (Z.max 0 (zlen offs - MAX_MATCH_CANDIDATES)));
    [|apply Hfinish; [by apply good_match_zero|lia]].
  unfold MAX_MATCH_CANDIDATES in *.
  step (index_returns offs 0) as He; [lia|].
  apply (Forall_lookup_1 _ _ _ _ Hoff) in He as [? ?].
  step match_length_spec as (Hn & Hsub & _); [done..|].
  assert (good_match base target pos (if 0 <? a2 then (offset a1, a2) else (0, 0))).
  { destruct (_ <? _); [by split|by apply good_match_zero]. }
  destruct (Z.eqb_spec a2 (zlen target - pos)) as [->|]; [|apply Hfinish; [done|lia]].
  simpl. intros m [= <-]. split; [done|].
  rewrite (proj2 (Z.ltb_lt 0 (zlen target - pos))) by lia. simpl. lia.
Qed.

(** ** Instructions and what they decode to *)

(** [d] is a piece of a delta that appends [t] to the output: wherever it occurs
    in a delta, the decoding loop runs through it, given the fuel. *)
Definition decodes (base d t : list Z) : Prop :=
  ∃ n, (n ≤ length d)%nat ∧ ∀ pre post max_output out fuel,
    zlen out + zlen t ≤ max_output → max_output ≤ USIZE_MAX →
    decode_loop (n + fuel) base (pre ++ d ++ post) max_output (zlen pre) out
    = decode_loop fuel base (pre ++ d ++ post) max_output (zlen (pre ++ d)) (out ++ t).

Lemma decodes_nil base : decodes base [] [].
Proof. exists 0%nat. split; [done|]. intros. by rewrite !app_nil_r. Qed.

Lemma decodes_app base d1 t1 d2 t2 :
  decodes base d1 t1 → decodes base d2 t2 → decodes base (d1 ++ d2) (t1 ++ t2).
Proof.
  intros (n1 & Hn1 & H1) (n2 & Hn2 & H2). exists (n1 + n2)%nat.
  split; [rewrite length_app; lia|]. intros pre post max out fuel Hle Hmax.
  rewrite <- Nat.add_assoc, <- (app_assoc d1 d2 post), H1 by zlia.
  rewrite (app_assoc pre d1 (d2 ++ post)), H2 by zlia.
  by rewrite <- !app_assoc.
Qed.

Lemma decode_of_decodes base d t max_output :
  decodes base d t → zlen t ≤ max_output → max_output ≤ USIZE_MAX →
  decode base d max_output = Ok t.
Proof.
  intros (n & Hn & H) Ht Hmax. unfold decode.
  specialize (H [] [] max_output [] (S (length d) - n)%nat).
  simpl app in H. rewrite app_nil_r in H. change (zlen (@nil Z)) with 0 in H.
  replace (n + (S (length d) - n))%nat with (S (length d)) in H by lia.
  rewrite H by lia. replace (S (length d) - n)%nat with (S (length d - n)) by lia.
  cbn [decode_loop]. by rewrite Z.ltb_irrefl.
Qed.

Lemma ensure_output_limit_ok a b max_output :
  a + b ≤ max_output → max_output ≤ USIZE_MAX → ensure_output_limit a b max_output = Ok ().
Proof.
  intros. unfold ensure_output_limit, checked_add.
  rewrite (proj2 (Z.leb_le _ _)) by lia. simpl. by rewrite (proj2 (Z.ltb_ge _ _)) by lia.
Qed.

Lemma land_0x80_small h : 0 ≤ h < 128 → Z.land h 0x80 = 0.
Proof.
  intros. apply Z.bits_inj'. intros n Hn. rewrite Z.land_spec, Z.bits_0.
  change 0x80 with (2 ^ 7). rewrite Z.pow2_bits_eqb by lia.
  destruct (Z.eqb_spec 7 n) as [<-|]; [|apply andb_false_r].
  by rewrite (testbit_small h 7 7) by lia.
Qed.

Lemma decodes_insert base lit :
  0 < zlen lit ≤ 128 → decodes base ([zlen lit - 1] ++ lit) lit.
Proof.
  intros Hlit. exists 1%nat. split; [simpl; lia|]. intros pre post max out fuel Hle Hmax.
  cbn [Nat.add decode_loop]. rewrite (proj2 (Z.ltb_lt _ _)) by zlia.
  unfold decode_step. rewrite <- !app_assoc. cbn [app].
  rewrite index_app_middle by done. cbn [mbind exec_bind].
  rewrite land_0x80_small by lia. cbn [Z.eqb].
  rewrite (proj2 (Z.ltb_ge _ _)) by zlia. rewrite ensure_output_limit_ok by lia.
  cbn [mbind exec_bind]. rewrite slice_ok by zlia. cbn [mbind exec_bind].
  replace (sub_list _ _ _) with lit; [f_equal; zlia|].
  symmetry. rewrite (cons_middle _ pre). rewrite app_assoc. apply sub_list_middle; zlia.
Qed.

Lemma read_field_opt delta l r (f : bool) b header bit shift acc :
  flag header bit = f → delta = l ++ (if f then [b] else []) ++ r →
  read_field delta header bit shift (acc, zlen l)
  = Ok (if f then Z.lor acc (Z.shiftl b shift) else acc, zlen (l ++ if f then [b] else [])).
Proof.
  intros Hf ->. unfold read_field. rewrite Hf. destruct f; [|by rewrite app_nil_r].
  cbn [app]. rewrite index_app_middle by done. simpl. do 2 f_equal. zlia.
Qed.

(** The command byte as a function of its six optional flags. *)
Definition header_of (o1 o2 o3 s0 s1 s2 : bool) : Z :=
  let cmd := Z.lor 0x80 0x01 in
  let cmd := if o1 then Z.lor cmd 0x02 else cmd in
  let cmd := if o2 then Z.lor cmd 0x04 else cmd in
  let cmd := if o3 then Z.lor cmd 0x08 else cmd in
  let cmd := if s0 then Z.lor cmd 0x10 else cmd in
  let cmd := if s1 then Z.lor cmd 0x20 else cmd in
  if s2 then Z.lor cmd 0x40 else cmd.

Definition opt (f : bool) (b : Z) : list Z := if f then [b] else [].

Lemma header_flags o1 o2 o3 s0 s1 s2 :
  let h := header_of o1 o2 o3 s0 s1 s2 in
  (Z.land h 0x80 =? 0) = false ∧ (h =? 0x80) = false ∧ flag h 0x01 = true ∧
  flag h 0x02 = o1 ∧ flag h 0x04 = o2 ∧ flag h 0x08 = o3 ∧
  flag h 0x10 = s0 ∧ flag h 0x20 = s1 ∧ flag h 0x40 = s2.
Proof. by destruct o1, o2, o3, s0, s1, s2. Qed.

Lemma nonzero_field x k :
  0 ≤ k → nonzero (Z.land x (Z.shiftl 255 k)) = nonzero (as_u8 (Z.shiftr x k)).
Proof.
  intros Hk. rewrite land_field by done. unfold nonzero. f_equal.
  rewrite Z.shiftl_mul_pow2 by lia.
  destruct (Z.eqb_spec (as_u8 (Z.shiftr x k)) 0) as [->|]; [done|].
  apply Z.eqb_neq. pose proof (Z.pow_pos_nonneg 2 k). nia.
Qed.

Lemma if_snoc (b : bool) (d : list Z) x : (if b then d ++ [x] else d) = d ++ opt b x.
Proof. destruct b; [done|]. by rewrite app_nil_r. Qed.

(** The size flags are all clear for the length 0x10000. *)
Definition size_flag (length b : Z) : bool := nonzero (length - 0x10000) && nonzero b.

Lemma emit_copy_instruction_bytes delta o n :
  0 ≤ o < 2 ^ 32 → 0 < n ≤ 0xFFFFFF →
  let o1 := nonzero (as_u8 (Z.shiftr o 8)) in
  let o2 := nonzero (as_u8 (Z.shiftr o 16)) in
  let o3 := nonzero (as_u8 (Z.shiftr o 24)) in
  let s0 := size_flag n (as_u8 n) in
  let s1 := size_flag n (as_u8 (Z.shiftr n 8)) in
  let s2 := size_flag n (as_u8 (Z.shiftr n 16)) in
  emit_copy_instruction delta o n
  = delta ++ [header_of o1 o2 o3 s0 s1 s2] ++ [as_u8 o]
      ++ opt o1 (as_u8 (Z.shiftr o 8)) ++ opt o2 (as_u8 (Z.shiftr o 16))
      ++ opt o3 (as_u8 (Z.shiftr o 24))
      ++ opt s0 (as_u8 n) ++ opt s1 (as_u8 (Z.shiftr n 8)) ++ opt s2 (as_u8 (Z.shiftr n 16)).
Proof.
  intros Ho Hn. cbv zeta. unfold emit_copy_instruction.
  unfold as_u32. rewrite (Z.mod_small o), (Z.mod_small n) by lia.
  change 0xFF00 with (Z.shiftl 255 8). change 0xFF0000 with (Z.shiftl 255 16).
  change 0xFF000000 with (Z.shiftl 255 24). change 0xFF with (Z.shiftl 255 0).
  rewrite !nonzero_field by lia. rewrite Z.shiftr_0_r. unfold size_flag, header_of.
  rewrite !if_snoc. destruct (nonzero (n - 0x10000)); cbn [andb];
    rewrite ?app_nil_r, <- ?app_assoc; reflexivity.
Qed.

(** Accumulating an optional byte adds its value. *)
Lemma lor_field (f : bool) acc b k :
  0 ≤ k → 0 ≤ acc < 2 ^ k → 0 ≤ b → (f = false → b = 0) →
  (if f then Z.lor acc (Z.shiftl b k) else acc) = acc + b * 2 ^ k.
Proof.
  intros Hk Hacc Hb Hf. destruct f; [by apply lor_shiftl_add|]. rewrite Hf by done. lia.
Qed.

Lemma nonzero_false x : nonzero x = false → x = 0.
Proof. unfold nonzero. rewrite negb_false_iff. apply Z.eqb_eq. Qed.

(** The three size fields, read back. *)
Lemma size_fields n :
  0 < n ≤ 0xFFFFFF →
  let s0 := size_flag n (as_u8 n) in
  let s1 := size_flag n (as_u8 (Z.shiftr n 8)) in
  let s2 := size_flag n (as_u8 (Z.shiftr n 16)) in
  let v0 := if s0 then Z.lor 0 (Z.shiftl (as_u8 n) 0) else 0 in
  let v1 := if s1 then Z.lor v0 (Z.shiftl (as_u8 (Z.shiftr n 8)) 8) else v0 in
  let v2 := if s2 then Z.lor v1 (Z.shiftl (as_u8 (Z.shiftr n 16)) 16) else v1 in
  (if v2 =? 0 then 0x10000 else v2) = n.
Proof.
  intros Hn. cbv zeta. unfold size_flag.
  destruct (nonzero (n - 0x10000)) eqn:E; cbn [andb].
  - pose proof (as_u8_byte n). pose proof (as_u8_byte (Z.shiftr n 8)).
    pose proof (as_u8_byte (Z.shiftr n 16)). unfold is_byte in *.
    rewrite (lor_field _ 0 (as_u8 n)) by (lia || apply nonzero_false).
    rewrite (lor_field _ _ (as_u8 (Z.shiftr n 8))) by (lia || apply nonzero_false).
    rewrite (lor_field _ _ (as_u8 (Z.shiftr n 16))) by (lia || apply nonzero_false).
    pose proof (bytes3 n).
    replace (0 + as_u8 n * 2 ^ 0 + _ + _) with n by lia.
    by rewrite (proj2 (Z.eqb_neq _ _)) by lia.
  - apply nonzero_false in E. simpl. lia.
Qed.

Lemma offset_fields o :
  0 ≤ o < 2 ^ 32 →
  let v0 := Z.lor 0 (Z.shiftl (as_u8 o) 0) in
  let v1 := if nonzero (as_u8 (Z.shiftr o 8))
            then Z.lor v0 (Z.shiftl (as_u8 (Z.shiftr o 8)) 8) else v0 in
  let v2 := if nonzero (as_u8 (Z.shiftr o 16))
            then Z.lor v1 (Z.shiftl (as_u8 (Z.shiftr o 16)) 16) else v1 in
  (if nonzero (as_u8 (Z.shiftr o 24))
   then Z.lor v2 (Z.shiftl (as_u8 (Z.shiftr o 24)) 24) else v2) = o.
Proof.
  intros Ho. cbv zeta.
  pose proof (as_u8_byte o). pose proof (as_u8_byte (Z.shiftr o 8)).
  pose proof (as_u8_byte (Z.shiftr o 16)). pose proof (as_u8_byte (Z.shiftr o 24)).
  unfold is_byte in *.
  rewrite (lor_shiftl_add 0 (as_u8 o)) by lia.
  rewrite (lor_field _ _ (as_u8 (Z.shiftr o 8))) by (lia || apply nonzero_false).
  rewrite (lor_field _ _ (as_u8 (Z.shiftr o 16))) by (lia || apply nonzero_false).
  rewrite (lor_field _ _ (as_u8 (Z.shiftr o 24))) by (lia || apply nonzero_false).
  pose proof (bytes4 o Ho). lia.
Qed.

Lemma expected_bytes_header o1 o2 o3 s0 s1 s2 a b c d e f g :
  expected_bytes (header_of o1 o2 o3 s0 s1 s2)
  = zlen ([a] ++ opt o1 b ++ opt o2 c ++ opt o3 d ++ opt s0 e ++ opt s1 f ++ opt s2 g).
Proof.
  destruct (header_flags o1 o2 o3 s0 s1 s2) as (_ & _ & H0 & H1 & H2 & H3 & H4 & H5 & H6).
  unfold expected_bytes. rewrite H0, H1, H2, H3, H4, H5, H6.
  by destruct o1, o2, o3, s0, s1, s2.
Qed.

(** Run one field read of the decoder on a delta built by appending the fields. *)
Ltac read_next delta f b h bit shift :=
  erewrite (read_field_opt delta _ _ f b h bit shift);
    [ cbn [mbind exec_bind]
    | assumption
    | unfold delta; rewrite <- ?app_assoc; cbn [app]; reflexivity ].

Lemma decodes_copy base o n :
  0 ≤ o < 2 ^ 32 → 0 < n ≤ 0xFFFFFF → o + n ≤ zlen base →
  decodes base (emit_copy_instruction [] o n) (sub_list base o (o + n)).
Proof.
  intros Ho Hn Hbase. rewrite emit_copy_instruction_bytes by done. cbn [app].
  pose proof (size_fields n Hn) as Hsize. pose proof (offset_fields o Ho) as Hoff.
  cbv zeta in Hsize, Hoff.
  set (o1 := nonzero (as_u8 (Z.shiftr o 8))) in *. set (o2 := nonzero (as_u8 (Z.shiftr o 16))) in *.
  set (o3 := nonzero (as_u8 (Z.shiftr o 24))) in *. set (s0 := size_flag n (as_u8 n)) in *.
  set (s1 := size_flag n (as_u8 (Z.shiftr n 8))) in *.
  set (s2 := size_flag n (as_u8 (Z.shiftr n 16))) in *.
  exists 1%nat. split; [cbn [length]; lia|]. intros pre post max out fuel Hle Hmax.
  rewrite zlen_sub_list in Hle by lia.
  cbn [Nat.add decode_loop]. rewrite (proj2 (Z.ltb_lt _ _)) by zlia.
  unfold decode_step. cbn [app]. rewrite index_app_middle by done. cbn [mbind exec_bind].
  destruct (header_flags o1 o2 o3 s0 s1 s2) as (H80 & Hr & Ha & H1 & H2 & H3 & H4 & H5 & H6).
  rewrite H80, Hr.
  rewrite (expected_bytes_header o1 o2 o3 s0 s1 s2 (as_u8 o) (as_u8 (Z.shiftr o 8))
    (as_u8 (Z.shiftr o 16)) (as_u8 (Z.shiftr o 24)) (as_u8 n) (as_u8 (Z.shiftr n 8))
    (as_u8 (Z.shiftr n 16))). cbn [app].
  set (h := header_of o1 o2 o3 s0 s1 s2) in *.
  rewrite (proj2 (Z.ltb_ge _ _)) by zlia.
  replace (zlen pre + 1) with (zlen (pre ++ [h])) by zlia.
  set (delta := pre ++ _).
  read_next delta true (as_u8 o) h 1 0.
  read_next delta o1 (as_u8 (Z.shiftr o 8)) h 2 8.
  read_next delta o2 (as_u8 (Z.shiftr o 16)) h 4 16.
  read_next delta o3 (as_u8 (Z.shiftr o 24)) h 8 24.
  read_next delta s0 (as_u8 n) h 16 0.
  read_next delta s1 (as_u8 (Z.shiftr n 8)) h 32 8.
  read_next delta s2 (as_u8 (Z.shiftr n 16)) h 64 16.
  rewrite Hoff, Hsize.
  unfold checked_add. rewrite (proj2 (Z.leb_le _ _)) by (unfold USIZE_MAX; lia).
  cbn [ok_or mbind exec_bind].
  rewrite (proj2 (Z.ltb_ge _ _)) by lia. rewrite ensure_output_limit_ok by (zlia || done).
  cbn [mbind exec_bind]. rewrite slice_ok by lia. cbn [mbind exec_bind].
  f_equal. unfold opt. by rewrite <- !app_assoc.
Qed.

(** ** The encoder *)
Lemma emit_copy_instruction_app delta o n :
  0 ≤ o < 2 ^ 32 → 0 < n ≤ 0xFFFFFF →
  emit_copy_instruction delta o n = delta ++ emit_copy_instruction [] o n.
Proof. intros. by rewrite !emit_copy_instruction_bytes. Qed.

Lemma div_ceil_sub_max n : 0xFFFFFF < n → div_ceil n 0xFFFFFF = div_ceil (n - 0xFFFFFF) 0xFFFFFF + 1.
Proof. intros. unfold div_ceil. Z.to_euclidean_division_equations; lia. Qed.

Lemma div_ceil_pos n : 0 < n → 0 < div_ceil n 0xFFFFFF.
Proof. intros. unfold div_ceil. Z.to_euclidean_division_equations; lia. Qed.

Lemma div_ceil_nonneg n : 0 ≤ n → 0 ≤ div_ceil n 0xFFFFFF.
Proof. intros. unfold div_ceil. Z.to_euclidean_division_equations; lia. Qed.

Lemma emit_copy_loop_spec fuel base delta o n :
  0 ≤ o → 0 ≤ n → o + n ≤ 2 ^ 32 → o + n ≤ zlen base →
  div_ceil n 0xFFFFFF < Z.of_nat fuel →
  returns (emit_copy_loop fuel delta o n)
    (λ d, ∃ d', d = delta ++ d' ∧ decodes base d' (sub_list base o (o + n))).
Proof.
  revert delta o n. unfold emit_copy_loop, MAX_COPY_LENGTH. fold emit_copy_loop.
  induction fuel as [|fuel IH]; intros delta o n Ho Hn H32 Hbase Hf.
  { pose proof (div_ceil_nonneg n Hn). lia. }
  destruct (Z.ltb_spec 0 n).
  - set (chunk := Z.min n 0xFFFFFF).
    eapply returns_mono.
    + apply IH; try lia. unfold chunk.
      destruct (Z.le_gt_cases n 0xFFFFFF).
      * rewrite Z.min_l, Z.sub_diag by lia. pose proof (div_ceil_pos n).
        change (div_ceil 0 0xFFFFFF) with 0. lia.
      * rewrite Z.min_r by lia. pose proof (div_ceil_sub_max n). lia.
    + simpl. intros d (d' & -> & Hd'). rewrite emit_copy_instruction_app by lia.
      rewrite <- app_assoc. eexists; split; [done|].
      replace (o + chunk + (n - chunk)) with (o + n) in Hd' by lia.
      rewrite <- (sub_list_app base o (o + chunk)) by lia.
      apply decodes_app; [|done]. apply decodes_copy; lia.
  - simpl. exists []. rewrite app_nil_r. split; [done|].
    replace (o + n) with o by lia. rewrite sub_list_nil. apply decodes_nil.
Qed.

Lemma emit_copy_spec base target delta pos m :
  good_match base target pos m → 0 < m.2 →
  returns (emit_copy delta m.1 m.2)
    (λ d, ∃ d', d = delta ++ d' ∧ decodes base d' (sub_list target pos (pos + m.2))).
Proof.
  intros (Ho & H32 & Hn & Hsub) Hpos. rewrite <- Hsub.
  unfold match_cap, U32_MAX in *. unfold emit_copy, copy_fuel, MAX_COPY_LENGTH.
  pose proof (div_ceil_pos m.2). apply emit_copy_loop_spec; lia.
Qed.

(** The rolling key is present only where four bytes remain. *)
Definition key_ok (target : list Z) (k : option Z) (pos : Z) : Prop :=
  is_Some k → pos + 4 ≤ zlen target.

Lemma target_key_ok target pos : key_ok target (target_key target pos) pos.
Proof.
  intros [k Hk]. unfold target_key, checked_add in Hk.
  destruct (_ <=? USIZE_MAX); [|done]. cbn in Hk. destruct (Z.leb_spec (pos + 4) (zlen target)); [lia|done].
Qed.

Lemma roll_target_key_ok target k pos : key_ok target (roll_target_key k target pos) pos.
Proof.
  intros [k' Hk]. unfold roll_target_key, checked_add in Hk.
  destruct (_ <=? USIZE_MAX); [|done]. cbn in Hk.
  destruct (get target (pos + 3)) eqn:Hg; [|done]. apply get_Some in Hg. lia.
Qed.

Section encoder.
  Context (ix : DeltaIndex) (base target : list Z) (min_match : Z).
  Context (Hix : index_in_range ix base) (Hmin : 0 < min_match).

Lemma literal_loop_spec fuel start pos k :
    0 ≤ start ≤ pos → pos ≤ zlen target → pos - start ≤ 127 →
    127 - (pos - start) < Z.of_nat fuel → key_ok target k pos →
    returns (literal_loop fuel ix base target min_match start pos k)
      (λ '(pos', k'), pos ≤ pos' ≤ zlen target ∧ pos' - start ≤ 127
         ∧ (pos < zlen target → pos - start < 127 → pos < pos') ∧ key_ok target k' pos').
  Proof.
    revert pos k. induction fuel as [|fuel IH]; intros pos k ???? Hk; [lia|].
    cbn [literal_loop].
    destruct (Z.ltb_spec pos (zlen target)); [|simpl; split_and!; done || lia].
    destruct (Z.ltb_spec (pos - start) 127); [|simpl; split_and!; done || lia].
    cbn [andb].
    step find_best_match_spec as _; [done|lia|done|apply roll_target_key_ok|].
    destruct a as [m|].
    - simpl. split_and!; try lia. apply roll_target_key_ok.
    - eapply returns_mono; [apply IH; try lia; apply roll_target_key_ok|].
      intros [pos' k'] (?&?&?&?). split_and!; try lia. done.
  Qed.

Lemma encode_loop_spec fuel delta pos k :
    0 ≤ pos ≤ zlen target → zlen target - pos < Z.of_nat fuel → key_ok target k pos →
    decodes base delta (sub_list target 0 pos) →
    returns (encode_loop fuel ix base target min_match delta pos k)
      (λ d, decodes base d target).
  Proof.
    revert delta pos k. induction fuel as [|fuel IH]; intros delta pos k Hpos Hf Hk Hd; [lia|].
    cbn [encode_loop]. destruct (Z.ltb_spec pos (zlen target)).
    - step find_best_match_spec as Hm; [done|lia|done|done|]. destruct a as [m|].
      + destruct (Hm m eq_refl) as [Hg Hm2]. destruct m as [o n]. cbn [fst snd] in *.
        step (emit_copy_spec base target delta pos (o, n)) as (d' & -> & Hd'); [done..|].
        assert (pos + n ≤ zlen target)
          by (destruct Hg as (_ & _ & Hg & _); unfold match_cap in Hg; cbn [fst snd] in Hg; lia).
        apply IH; [lia..|apply target_key_ok|].
        rewrite <- (sub_list_app target 0 pos) by lia. by apply decodes_app.
      + step (literal_loop_spec 128 pos pos k) as Hlit; [lia..|done|].
        destruct a as [pos' k']. destruct Hlit as (? & ? & ? & Hk').
        unfold as_u8. rewrite Z.mod_small by lia.
        step (usub_returns (pos' - pos) 1) as ->; [lia|].
        step (slice_returns target pos pos') as ->; [lia..|].
        apply IH; [lia..|done|].
        rewrite <- (sub_list_app target 0 pos) by lia. apply decodes_app; [done|].
        replace (pos' - pos - 1) with (zlen (sub_list target pos pos') - 1)
          by (rewrite zlen_sub_list; lia).
        apply decodes_insert. rewrite zlen_sub_list; lia.
    - simpl. replace pos with (zlen target) in Hd by lia. by rewrite sub_list_full in Hd.
  Qed.
End encoder.

Lemma decodes_inserts base cs delta t :
  Forall (λ c, 0 < length c ≤ 128)%nat cs → decodes base delta t →
  decodes base (fold_left emit_insert cs delta) (t ++ concat cs).
Proof.
  revert delta t. induction cs as [|c cs IH]; intros delta t Hcs Hd; [by rewrite app_nil_r|].
  apply Forall_cons in Hcs as [Hc Hcs]. cbn [fold_left concat]. rewrite app_assoc.
  apply IH; [done|]. unfold emit_insert. apply decodes_app; [done|].
  apply decodes_insert. unfold zlen. lia.
Qed.

Lemma decodes_encode_insert base t : decodes base (encode_insert t) t.
Proof.
  unfold encode_insert.
  rewrite <- (app_nil_l t) at 2. rewrite <- (concat_chunks 128 t) at 2 by lia.
  apply decodes_inserts; [apply chunks_sizes; lia|apply decodes_nil].
Qed.

Lemma min_match_for_pos n : 0 < min_match_for n.
Proof. unfold min_match_for, MIN_MATCH_LENGTH_SMALL, MIN_MATCH_LENGTH_LARGE. destruct (_ <? _); lia. Qed.

Lemma encode_with_index_decodes ix base target :
  index_in_range ix base →
  returns (encode_with_index ix base target) (λ d, decodes base d target).
Proof.
  intros Hix. unfold encode_with_index. destruct (Z.eqb_spec (zlen base) 0).
  - simpl. apply decodes_encode_insert.
  - apply encode_loop_spec; try done.
    + apply min_match_for_pos.
    + pose proof (zlen_nonneg target). lia.
    + unfold zlen. lia.
    + apply target_key_ok.
    + rewrite sub_list_nil. apply decodes_nil.
Qed.

(** A delta is made of bytes. *)
Lemma is_byte_lor a b : is_byte a → is_byte b → is_byte (Z.lor a b).
Proof.
  unfold is_byte. intros Ha Hb. split; [apply Z.lor_nonneg; lia|].
  destruct (decide (Z.lor a b = 0)) as [->|]; [done|].
  apply (Z.log2_lt_pow2 _ 8); [assert (0 ≤ Z.lor a b) by (apply Z.lor_nonneg; lia); lia|].
  assert (∀ x, 0 ≤ x < 256 → Z.log2 x < 8) as Hlog.
  { intros x Hx. destruct (decide (x = 0)) as [->|]; [done|]. apply Z.log2_lt_pow2; [lia|]. change (2 ^ 8) with 256. lia. }
  rewrite Z.log2_lor by lia. pose proof (Hlog a Ha). pose proof (Hlog b Hb). lia.
Qed.
Lemma if_byte (b : bool) x y : is_byte x → is_byte y → is_byte (if b then x else y).
Proof. by destruct b. Qed.
Lemma snoc_bytes d x : bytes_ok d → is_byte x → bytes_ok (d ++ [x]).
Proof. intros. apply Forall_app. split; [done|by constructor]. Qed.
Lemma if_bytes (b : bool) d d' : bytes_ok d → bytes_ok d' → bytes_ok (if b then d else d').
Proof. by destruct b. Qed.

Lemma or_if_byte (b : bool) x m : is_byte m → is_byte x → is_byte (if b then Z.lor x m else x).
Proof. intros. apply if_byte; [by apply is_byte_lor|done]. Qed.
Lemma snoc_if_bytes (b : bool) d x : is_byte x → bytes_ok d → bytes_ok (if b then d ++ [x] else d).
Proof. intros. destruct b; [by apply snoc_bytes|done]. Qed.

Lemma copy_instruction_bytes d off n : bytes_ok d → bytes_ok (emit_copy_instruction d off n).
Proof.
  intros Hd. unfold emit_copy_instruction. cbv zeta.
  generalize (as_u32 off) (as_u32 n). intros o l.
  apply if_bytes; repeat (apply snoc_if_bytes; [apply as_u8_byte|]);
    (apply snoc_bytes; [apply snoc_bytes; [exact Hd|]|apply as_u8_byte]);
    apply if_byte; repeat (apply or_if_byte; [by vm_compute|]); by vm_compute.
Qed.
Lemma emit_copy_bytes d off n d' : bytes_ok d → emit_copy d off n = Ok d' → bytes_ok d'.
Proof.
  unfold emit_copy. generalize (copy_fuel n) as fuel. intros fuel. revert d off n.
  induction fuel as [|fuel IH]; intros d off n Hd; cbn [emit_copy_loop]; [done|].
  destruct (0 <? n); [|by intros [= <-]]. apply IH. by apply copy_instruction_bytes.
Qed.
Lemma encode_loop_bytes fuel ix base target m delta pos k d :
  bytes_ok target → bytes_ok delta → encode_loop fuel ix base target m delta pos k = Ok d → bytes_ok d.
Proof.
  intros Ht. revert delta pos k. induction fuel as [|fuel IH]; intros delta pos k Hd; cbn [encode_loop]; [done|].
  destruct (_ <? _); [|by intros [= <-]]. rewrite bind_ok. intros ([[off n]|] & _ & E).
  - apply bind_ok in E as (delta' & Hc & E). eapply IH; [|exact E]. by eapply emit_copy_bytes.
  - apply bind_ok in E as ([pos' k'] & _ & E). apply bind_ok in E as (len & Hlen & E).
    apply bind_ok in E as (lit & Hlit & E). eapply IH; [|exact E].
    pose proof (as_u8_byte (pos' - pos)) as Hb. unfold is_byte, usub, slice in *.
    destruct (Z.leb_spec 1 (as_u8 (pos' - pos))); [|done]. injection Hlen as <-.
    destruct (_ && _); [|done]. injection Hlit as <-. apply Forall_app. split; [done|].
    constructor; [unfold is_byte; lia|]. by apply Forall_sub_list.
Qed.
Lemma encode_with_index_bytes ix base target d :
  0 < zlen base → bytes_ok target → encode_with_index ix base target = Ok d → bytes_ok d.
Proof.
  intros Hb Ht. unfold encode_with_index. rewrite (proj2 (Z.eqb_neq _ _)) by lia. by apply encode_loop_bytes.
Qed.

Lemma sampled_offsets_bounds n :
  4 ≤ n → Forall (λ off, 0 ≤ off ≤ n - 4 ∧ as_u32 off = off) (sampled_offsets n).
Proof.
  intros Hn. unfold sampled_offsets. cbv zeta.
  apply Forall_fmap, Forall_forall. intros i [Hi1 Hi2]%elem_of_seqZ.
  set (last := Z.min (n - 4) U32_MAX) in *. set (s := index_stride n last) in *.
  assert (1 ≤ s).
  { unfold s, index_stride, next_multiple_of, div_ceil, INDEX_BLOCK_SIZE. destruct (_ <? _); [lia|].
    Z.to_euclidean_division_equations; lia. }
  assert (i * s ≤ last) by (unfold last, U32_MAX in *; Z.to_euclidean_division_equations; nia).
  unfold last, U32_MAX, compose, as_u32 in *. split; [nia|]. apply Z.mod_small. nia.
Qed.

Lemma build_index_entries base :
  Forall (λ e, entry_in_range base e ∧
               key e = from_be_bytes (sub_list base (offset e) (offset e + 4)))
    (entries (build_index base)).
Proof.
  unfold build_index. destruct (Z.ltb_spec (zlen base) 4); [constructor|].
  cbn [entries]. rewrite merge_sort_Permutation. apply Forall_fmap.
  eapply Forall_impl; [by apply sampled_offsets_bounds|]. intros off [Hoff Hu].
  unfold compose, index_entry_at, entry_in_range. cbn [offset key]. rewrite Hu.
  split; [|done]. split; [lia|]. unfold as_u32, U32_MAX in *.
  pose proof (Z.mod_pos_bound off 4294967296). lia.
Qed.

Lemma build_index_in_range base : index_in_range (build_index base) base.
Proof. eapply Forall_impl; [apply build_index_entries|]. by intros e [? _]. Qed.

(** ** Size estimation *)
Lemma zlen_if_snoc (b : bool) (d : list Z) x : zlen (if b then d ++ [x] else d) = zlen d + Z.b2z b.
Proof. destruct b; simpl; zlia. Qed.
Lemma if_succ (b : bool) n : (if b then n + 1 else n) = n + Z.b2z b.
Proof. destruct b; simpl; lia. Qed.

Lemma zlen_emit_copy_instruction delta o n :
  zlen (emit_copy_instruction delta o n) = zlen delta + copy_instruction_size_one o n.
Proof.
  unfold emit_copy_instruction, copy_instruction_size_one. cbv zeta.
  destruct (nonzero (as_u32 n - 0x10000));
    rewrite !zlen_if_snoc, !if_succ, !zlen_app; change (zlen [_]) with 1; lia.
Qed.

Lemma copy_instruction_size_loop_exact fuel delta size o n d :
  emit_copy_loop fuel delta o n = Ok d →
  copy_instruction_size_loop fuel size o n = Ok (size + (zlen d - zlen delta)).
Proof.
  revert delta size o n. induction fuel as [|fuel IH]; intros delta size o n; [done|].
  cbn [emit_copy_loop copy_instruction_size_loop]. destruct (0 <? n).
  - intros Hd. erewrite IH by exact Hd. f_equal. rewrite zlen_emit_copy_instruction. lia.
  - intros [= ->]. f_equal. lia.
Qed.

Lemma slice_inv {E A} (l s : list A) i j :
  slice (E:=E) l i j = Ok s → 0 ≤ i ≤ j ∧ j ≤ zlen l ∧ s = sub_list l i j.
Proof.
  unfold slice.
  destruct (Z.leb_spec 0 i), (Z.leb_spec i j), (Z.leb_spec j (zlen l)); simpl; try done.
  intros [= <-]. split_and!; lia || done.
Qed.

Lemma estimate_loop_exact fuel ix base target mm delta pos k d :
  encode_loop fuel ix base target mm delta pos k = Ok d →
  estimate_loop fuel ix base target mm (zlen delta) pos k = Ok (zlen d).
Proof.
  revert delta pos k. induction fuel as [|fuel IH]; intros delta pos k; [done|].
  cbn [encode_loop estimate_loop]. destruct (pos <? zlen target); [|congruence].
  destruct (find_best_match ix base target pos k mm) as [[[o n]|]|? | |]; cbn [mbind exec_bind]; try done.
  - intros (delta' & Hc & Hd)%bind_ok. unfold emit_copy, copy_instruction_size in *.
    rewrite (copy_instruction_size_loop_exact _ _ 0 _ _ _ Hc). cbn [mbind exec_bind].
    erewrite <- IH by exact Hd. f_equal. lia.
  - destruct (literal_loop _ _ _ _ _ _ _ _) as [[pos' k']| | |]; cbn [mbind exec_bind]; try done.
    intros (len & _ & Hd)%bind_ok. apply bind_ok in Hd as (lit & Hl & Hd).
    apply slice_inv in Hl as (? & ? & ->).
    erewrite <- IH by exact Hd. f_equal. rewrite !zlen_app, zlen_sub_list, zlen_cons, zlen_nil by lia.
    lia.
Qed.

Lemma zlen_fold_insert cs delta :
  zlen (fold_left emit_insert cs delta) = zlen delta + zlen (concat cs) + zlen cs.
Proof.
  revert delta. induction cs as [|c cs IH]; intros delta; cbn [fold_left concat]; [zlia|].
  rewrite IH. unfold emit_insert. zlia.
Qed.

Lemma zlen_chunks (l : list Z) : zlen (chunks 128 l) = div_ceil (zlen l) 128.
Proof.
  unfold chunks.
  assert (∀ fuel (k : list Z), (length k ≤ fuel)%nat →
    zlen (chunks_from fuel 128 k) = div_ceil (zlen k) 128) as H; [|by apply H].
  induction fuel as [|fuel IH]; intros k Hk.
  - destruct k; [done|cbn [length] in *; lia].
  - destruct k as [|x k]; [done|]. cbn [chunks_from]. rewrite zlen_cons.
    rewrite IH by (rewrite length_drop; cbn [length] in *; lia).
    unfold div_ceil, zlen. rewrite length_drop. cbn [length].
    destruct (decide (length k < 128)%nat).
    + replace (S (length k) - 128)%nat with 0%nat by lia.
      Z.to_euclidean_division_equations; lia.
    + Z.to_euclidean_division_equations; lia.
Qed.

Lemma zlen_encode_insert t : zlen (encode_insert t) = zlen t + div_ceil (zlen t) 128.
Proof. unfold encode_insert. rewrite zlen_fold_insert, concat_chunks, zlen_chunks by lia. zlia. Qed.

Lemma estimate_with_index_exact ix base target d :
  encode_with_index ix base target = Ok d →
  estimate_delta_size_with_index ix base target = Ok (zlen d).
Proof.
  unfold encode_with_index, estimate_delta_size_with_index. destruct (_ =? 0).
  - intros [= <-]. by rewrite zlen_encode_insert.
  - apply (estimate_loop_exact _ _ _ _ _ []).
Qed.

Lemma b2z_bounds b : 0 ≤ Z.b2z b ≤ 1.
Proof. destruct b; simpl; lia. Qed.

(** The estimate is at most eight bytes for each byte of the target. *)
Lemma copy_instruction_size_one_bounds o n : 2 ≤ copy_instruction_size_one o n ≤ 8.
Proof.
  unfold copy_instruction_size_one. cbv zeta. rewrite !if_succ.
  destruct (nonzero (as_u32 n - 0x10000));
    repeat match goal with |- context [Z.b2z ?b] => pose proof (b2z_bounds b); generalize dependent (Z.b2z b); intros end;
    lia.
Qed.

Lemma copy_instruction_size_loop_bounds fuel size o n :
  div_ceil n 0xFFFFFF < Z.of_nat fuel → 0 ≤ n →
  returns (copy_instruction_size_loop fuel size o n) (λ r, size ≤ r ≤ size + 8 * n).
Proof.
  revert size o n. induction fuel as [|fuel IH]; intros size o n Hf Hn.
  { pose proof (div_ceil_nonneg n Hn). lia. }
  cbn [copy_instruction_size_loop]. destruct (Z.ltb_spec 0 n) as [Hlt|]; [|cbn; lia].
  unfold MAX_COPY_LENGTH. pose proof (copy_instruction_size_one_bounds o (Z.min n 0xFFFFFF)).
  eapply returns_mono; [apply IH; [|lia]|cbn; intros; lia].
  destruct (Z.le_gt_cases n 0xFFFFFF) as [Hle|Hgt].
  - rewrite Z.min_l, Z.sub_diag by lia. change (div_ceil 0 0xFFFFFF) with 0. pose proof (div_ceil_pos n Hlt). lia.
  - rewrite Z.min_r by lia. pose proof (div_ceil_sub_max n). lia.
Qed.

Lemma estimate_loop_bounds ix base target mm fuel size pos k :
  index_in_range ix base → 0 < mm →
  0 ≤ pos ≤ zlen target → zlen target - pos < Z.of_nat fuel → key_ok target k pos →
  returns (estimate_loop fuel ix base target mm size pos k)
    (λ r, size ≤ r ≤ size + 8 * (zlen target - pos)).
Proof.
  intros Hix Hmm. revert size pos k. induction fuel as [|fuel IH]; intros size pos k Hpos Hf Hk; [lia|].
  cbn [estimate_loop]. destruct (Z.ltb_spec pos (zlen target)); [|cbn; lia].
  step (find_best_match_spec ix base target pos k mm) as Hm; [done|lia|done|done|]. destruct a as [[o n]|].
  - destruct (Hm (o, n) eq_refl) as [(Ho & H32 & Hg & _) Hm2]. unfold match_cap in Hg. cbn [fst snd] in *.
    unfold copy_instruction_size.
    step (copy_instruction_size_loop_bounds (copy_fuel n) 0 o n) as Hc; [unfold copy_fuel, MAX_COPY_LENGTH; lia|lia|].
    eapply returns_mono; [apply IH; [lia..|apply target_key_ok]|cbn; intros; lia].
  - step (literal_loop_spec ix base target mm Hix Hmm 128 pos pos k) as Hlit; [lia..|done|].
    destruct a as [pos' k']. destruct Hlit as (? & ? & ? & Hk').
    eapply returns_mono; [apply IH; [lia..|done]|cbn; intros; lia].
Qed.

Lemma estimate_with_index_bounds ix base target :
  index_in_range ix base →
  returns (estimate_delta_size_with_index ix base target) (λ n, 0 ≤ n ≤ 8 * zlen target).
Proof.
  intros Hix. pose proof (zlen_nonneg target). unfold estimate_delta_size_with_index.
  destruct (zlen base =? 0).
  - cbn [returns]. unfold div_ceil. Z.to_euclidean_division_equations; lia.
  - eapply returns_mono; [apply estimate_loop_bounds|cbn; intros; lia];
      [done|apply min_match_for_pos|lia|unfold zlen; lia|apply target_key_ok].
Qed.

Lemma estimate_delta_size_bounds base target :
  returns (estimate_delta_size base target) (λ n, 0 ≤ n ≤ 8 * zlen target).
Proof.
  pose proof (zlen_nonneg target). unfold estimate_delta_size. destruct (zlen base =? 0) eqn:E.
  - cbn [returns]. unfold div_ceil. Z.to_euclidean_division_equations; lia.
  - apply estimate_with_index_bounds, build_index_in_range.
Qed.

(** ** Decoder safety *)

(** An error reports a real defect of the instruction at its offset. *)
Definition error_justified (base delta : list Z) (max_output : Z) (e : DeltaError) : Prop :=
  match e with
  | OutputLimitExceeded attempted m => m = max_output ∧ max_output < attempted
  | TruncatedLiteral i len available =>
      0 ≤ i < zlen delta ∧ available = zlen delta - (i + 1) ∧ available < len
  | TruncatedCopyInstruction i expected available =>
      0 ≤ i < zlen delta ∧ available = zlen delta - (i + 1) ∧ available < expected
  | InvalidBaseRange i copy_offset copy_end base_len =>
      0 ≤ i < zlen delta ∧ base_len = zlen base ∧ base_len < copy_end
  | ReservedInstruction i => 0 ≤ i ∧ delta !! Z.to_nat i = Some 0x80
  end.

Lemma ensure_output_limit_spec base delta a b m :
  m ≤ USIZE_MAX - 1 → settles (ensure_output_limit a b m) (λ _, a + b ≤ m) (error_justified base delta m).
Proof.
  intros. unfold ensure_output_limit, checked_add. destruct (Z.leb_spec (a + b) USIZE_MAX); simpl.
  - destruct (Z.ltb_spec m (a + b)); simpl; lia.
  - unfold USIZE_MAX in *. lia.
Qed.

Lemma read_field_spec delta header bit shift st :
  bytes_ok delta → 0 ≤ st.2 → 0 ≤ st.1 → 0 ≤ shift →
  st.2 + Z.b2z (flag header bit) ≤ zlen delta →
  returns (read_field delta header bit shift st)
    (λ st', 0 ≤ st'.1 ∧ st'.2 = st.2 + Z.b2z (flag header bit)).
Proof.
  destruct st as [acc pos]. cbn [fst snd]. intros Hok ????. unfold read_field.
  destruct (flag header bit); simpl in *; [|lia].
  step (index_returns (E:=DeltaError) delta pos) as Hb; [lia|].
  apply (Forall_lookup_1 _ _ _ _ Hok) in Hb. unfold is_byte in Hb.
  simpl. split; [|done]. apply Z.lor_nonneg. split; [done|]. apply Z.shiftl_nonneg. lia.
Qed.

Lemma decode_step_spec base delta m pos out :
  bytes_ok delta → zlen base < USIZE_MAX → m ≤ USIZE_MAX - 1 → 0 ≤ pos < zlen delta →
  settles (decode_step base delta m pos out)
    (λ '(pos', out'), pos < pos' ≤ zlen delta ∧ zlen out' ≤ m) (error_justified base delta m).
Proof.
  intros Hok Hb Hm Hpos. unfold decode_step.
  step (index_returns (E:=DeltaError) delta pos) as Hh; [lia|].
  pose proof (Forall_lookup_1 _ _ _ _ Hok Hh) as Ha. unfold is_byte in Ha.
  destruct (Z.land a 0x80 =? 0).
  - destruct (Z.ltb_spec (zlen delta) (pos + 1 + (a + 1))).
    { simpl. unfold saturating_sub. lia. }
    step (ensure_output_limit_spec base delta (zlen out) (a + 1) m) as Hl; [done| |done].
    step (slice_returns (E:=DeltaError) delta (pos + 1) (pos + 1 + (a + 1))) as ->; [lia..|].
    simpl. rewrite zlen_app, zlen_sub_list by lia. lia.
  - destruct (Z.eqb_spec a 0x80) as [->|]; [simpl; split; [lia|done]|].
    destruct (Z.ltb_spec (zlen delta) (pos + 1 + expected_bytes a)).
    { simpl. unfold saturating_sub. lia. }
    unfold expected_bytes in *.
    pose proof (b2z_bounds (flag a 1)). pose proof (b2z_bounds (flag a 2)).
    pose proof (b2z_bounds (flag a 4)). pose proof (b2z_bounds (flag a 8)).
    pose proof (b2z_bounds (flag a 16)). pose proof (b2z_bounds (flag a 32)).
    pose proof (b2z_bounds (flag a 64)).
    do 7 (step read_field_spec as [? ?]; [done|cbn [fst snd] in *; lia..|];
          match goal with st : (Z * Z)%type |- _ => destruct st as [? ?] end;
          cbn [fst snd] in *).
    subst.
    set (len := if _ =? 0 then _ else _).
    assert (0 < len) by (unfold len; case_match; lia).
    match goal with |- context [checked_add ?x len] => set (o := x) in * end.
    unfold checked_add. destruct (Z.leb_spec (o + len) USIZE_MAX); [|simpl; split_and!; lia || done].
    cbn [ok_or mbind exec_bind].
    destruct (Z.ltb_spec (zlen base) (o + len)); [simpl; split_and!; lia || done|].
    step (ensure_output_limit_spec base delta (zlen out) len m) as Hl; [done| |done].
    step (slice_returns (E:=DeltaError) base o (o + len)) as ->; [lia..|].
    simpl. rewrite zlen_app, zlen_sub_list by lia. lia.
Qed.

Lemma decode_loop_spec fuel base delta m pos out :
  bytes_ok delta → zlen base < USIZE_MAX → m ≤ USIZE_MAX - 1 → 0 ≤ pos ≤ zlen delta →
  zlen delta - pos < Z.of_nat fuel → zlen out ≤ m →
  settles (decode_loop fuel base delta m pos out) (λ t, zlen t ≤ m) (error_justified base delta m).
Proof.
  revert pos out. induction fuel as [|fuel IH]; intros pos out Hok Hb Hm Hpos Hf Hout; [lia|].
  cbn [decode_loop]. destruct (Z.ltb_spec pos (zlen delta)); [|done].
  step decode_step_spec as Hs; [done..|lia| |done]. destruct a as [pos' out'].
  destruct Hs. apply IH; done || lia.
Qed.

(** ** Index *)
Lemma div_succ_div_ceil a b : 0 ≤ a → 0 < b → a / b + 1 = div_ceil (a + 1) b.
Proof. intros. unfold div_ceil. Z.to_euclidean_division_equations; nia. Qed.

Lemma index_len base :
  zlen (entries (build_index base)) ≤ MAX_INDEX_BYTES / size_of_IndexEntry.
Proof.
  unfold build_index. change (MAX_INDEX_BYTES / size_of_IndexEntry) with 524288.
  destruct (Z.ltb_spec (zlen base) 4); cbn [entries]; [rewrite zlen_nil; lia|].
  unfold zlen at 1. rewrite merge_sort_Permutation. unfold sampled_offsets. cbv zeta.
  rewrite !length_fmap, length_seqZ.
  unfold U32_MAX. set (last := Z.min (zlen base - 4) 4294967295).
  assert (0 ≤ last) by lia. unfold index_stride, DENSE_INDEX_BELOW.
  destruct (Z.ltb_spec (zlen base) 1024).
  - rewrite Z.div_1_r. lia.
  - change (MAX_INDEX_BYTES / size_of_IndexEntry) with 524288. unfold INDEX_BLOCK_SIZE.
    set (c := div_ceil (last + 1) 524288).
    assert (last + 1 ≤ c * 524288) by (unfold c, div_ceil; Z.to_euclidean_division_equations; lia).
    set (s := next_multiple_of (Z.max c 16) 16).
    assert (Z.max c 16 ≤ s)
      by (unfold s, next_multiple_of, div_ceil; Z.to_euclidean_division_equations; lia).
    assert (last / s ≤ 524287); [|lia].
    apply Z.lt_succ_r. apply Z.div_lt_upper_bound; nia.
Qed.

#[global] Instance entry_le_trans : Transitive entry_le.
Proof. intros a b c. unfold entry_le. lia. Qed.
#[global] Instance entry_le_total : Total entry_le.
Proof. intros a b. unfold entry_le. lia. Qed.

Lemma fold_be_4 b0 b1 b2 b3 :
  from_be_bytes [b0; b1; b2; b3] = ((b0 * 256 + b1) * 256 + b2) * 256 + b3.
Proof. unfold from_be_bytes. cbn [fold_left]. lia. Qed.

Lemma sub_list_4 (l : list Z) i :
  0 ≤ i → i + 4 ≤ zlen l →
  ∃ a b c d, sub_list l i (i + 4) = [a; b; c; d] ∧ l !! Z.to_nat i = Some a ∧
    l !! Z.to_nat (i + 1) = Some b ∧ l !! Z.to_nat (i + 2) = Some c ∧
    l !! Z.to_nat (i + 3) = Some d.
Proof.
  intros Hi Hl.
  destruct (index_ok (E:=Empty_set) l i) as (a & Ha & _); [lia|].
  destruct (index_ok (E:=Empty_set) l (i + 1)) as (b & Hb & _); [lia|].
  destruct (index_ok (E:=Empty_set) l (i + 2)) as (c & Hc & _); [lia|].
  destruct (index_ok (E:=Empty_set) l (i + 3)) as (d & Hd & _); [lia|].
  exists a, b, c, d. split_and!; try done.
  rewrite (sub_list_cons l i _ a) by (done || lia).
  rewrite (sub_list_cons l (i + 1) _ b) by (done || lia).
  replace (i + 1 + 1) with (i + 2) by lia.
  rewrite (sub_list_cons l (i + 2) _ c) by (done || lia).
  replace (i + 2 + 1) with (i + 3) by lia.
  rewrite (sub_list_cons l (i + 3) _ d) by (done || lia).
  replace (i + 3 + 1) with (i + 4) by lia. by rewrite sub_list_nil.
Qed.

(** * Properties *)

(** C25. decoding the delta of [target] against [base] gives [target] back, for
    every base and target that fit the output limit; the encoder always
    terminates with a delta. *)
Theorem encode_decode_roundtrip base target max_output :
  zlen target ≤ max_output → max_output ≤ USIZE_MAX →
  ∃ delta, encode base target = Ok delta ∧ decode base delta max_output = Ok target.
Proof.
  intros Ht Hmax.
  assert (returns (encode base target) (λ d, decodes base d target)) as (d & -> & Hd)%returns_inv.
  { unfold encode. destruct (_ =? 0); [apply decodes_encode_insert|].
    apply encode_with_index_decodes, build_index_in_range. }
  exists d. split; [done|]. by apply decode_of_decodes.
Qed.

Lemma encode_decode_roundtrip_witness :
  let base := seqZ 0 40 in
  let target := [7; 7] ++ seqZ 3 20 in
  zlen target ≤ 100 ∧
  ∃ delta, encode base target = Ok delta ∧ decode base delta 100 = Ok target.
Proof.
  split; [vm_compute; congruence|].
  apply encode_decode_roundtrip; vm_compute; congruence.
Defined.

(** The round trip holds for any index whose offsets lie in the base, so a
    cached index shared by many targets (the sliding window) cannot corrupt a
    delta, whatever its keys are. *)
Theorem encode_with_index_roundtrip ix base target max_output :
  index_in_range ix base → zlen target ≤ max_output → max_output ≤ USIZE_MAX →
  ∃ delta, encode_with_index ix base target = Ok delta ∧
    decode base delta max_output = Ok target.
Proof.
  intros Hix Ht Hmax.
  pose proof (encode_with_index_decodes ix base target Hix) as (d & -> & Hd)%returns_inv.
  exists d. split; [done|]. by apply decode_of_decodes.
Qed.

Lemma encode_with_index_roundtrip_witness :
  let base := seqZ 0 40 in
  let ix := {| entries := [ {| key := 0x03040506; offset := 3 |} ] |} in
  index_in_range ix base ∧
  ∃ delta, encode_with_index ix base (seqZ 3 20) = Ok delta ∧
    decode base delta 100 = Ok (seqZ 3 20).
Proof.
  assert (index_in_range {| entries := [ {| key := 0x03040506; offset := 3 |} ] |} (seqZ 0 40)).
  { repeat constructor; vm_compute; congruence. }
  split; [done|]. apply encode_with_index_roundtrip; [done|vm_compute; congruence..].
Defined.

(** the size estimate is exactly the length of the delta. *)
Theorem estimate_delta_size_exact base target :
  ∃ delta, encode base target = Ok delta ∧ estimate_delta_size base target = Ok (zlen delta).
Proof.
  unfold encode, estimate_delta_size. destruct (_ =? 0) eqn:E.
  - eexists; split; [done|]. by rewrite zlen_encode_insert.
  - destruct (returns_inv _ _ (encode_with_index_decodes _ _ target (build_index_in_range base)))
      as (d & Hd & _).
    exists d. split; [done|]. by apply estimate_with_index_exact.
Qed.

(** C26. on arbitrary bytes the decoder never panics and never runs on: it
    returns an output within the limit, or an error that is true of the delta. *)
Theorem decode_safe base delta max_output :
  bytes_ok delta → zlen base < USIZE_MAX → 0 ≤ max_output < USIZE_MAX →
  settles (decode base delta max_output) (λ out, zlen out ≤ max_output)
    (error_justified base delta max_output).
Proof.
  intros. apply decode_loop_spec; try done; try lia; pose proof (zlen_nonneg delta);
    unfold zlen in *; simpl; lia.
Qed.

Lemma decode_safe_witness :
  bytes_ok [3; 1; 2] ∧
  settles (decode [] [3; 1; 2] 10) (λ out, zlen out ≤ 10) (error_justified [] [3; 1; 2] 10).
Proof.
  assert (bytes_ok [3; 1; 2]) by (repeat constructor; vm_compute; congruence).
  split; [done|]. apply decode_safe; [done|vm_compute; congruence|vm_compute; split; congruence].
Defined.

(** C27. the index of any base fits in [MAX_INDEX_BYTES], is sorted by key and
    then offset, and every entry holds the key of the base bytes at its offset. *)
Theorem build_index_bounded base :
  zlen (entries (build_index base)) * size_of_IndexEntry ≤ MAX_INDEX_BYTES ∧
  StronglySorted entry_le (entries (build_index base)) ∧
  Forall (λ e, key e = from_be_bytes (sub_list base (offset e) (offset e + 4)))
    (entries (build_index base)).
Proof.
  split_and!.
  - pose proof (index_len base) as H. change (MAX_INDEX_BYTES / size_of_IndexEntry) with 524288 in H.
    change size_of_IndexEntry with 8. change MAX_INDEX_BYTES with (524288 * 8). lia.
  - unfold build_index. destruct (_ <? _); [constructor|]. apply StronglySorted_merge_sort; apply _.
  - eapply Forall_impl; [apply build_index_entries|]. by intros e [_ ?].
Qed.
