(* ===== verification/Varint.v ===== *)
(** * Pack varints ([crates/pack/src/store/pack/varint.rs])

    Module [Varint] models the type+size header of a pack entry and the LEB128
    integers that follow it, with the entry kinds of [pack/mod.rs].  The
    encoders append to a byte vector; the decoders work on a byte slice and are
    modelled with the shifts of a [u64] that panic at 64 or more, so that their
    overflow guard is what the safety theorems rest on. *)

From S2P Require Import Prelude.

Module Varint.

(** [enum ObjectType] *)
Inductive ObjectType :=
| Blob | Tree | State | Action | Delta | StateAttachment | SnapshotCommit
| TimelineOperation | AnnotatedTag.
#[global] Instance ObjectType_eq_dec : EqDecision ObjectType.
Proof. solve_decision. Defined.

(** [obj_type as u8] *)
Definition discriminant (t : ObjectType) : Z :=
  match t with
  | Blob => 0 | Tree => 1 | State => 2 | Action => 3 | Delta => 4
  | StateAttachment => 5 | SnapshotCommit => 6 | TimelineOperation => 7
  | AnnotatedTag => 8
  end.

Definition from_u8 (value : Z) : option ObjectType :=
  match value with
  | 0 => Some Blob
  | 1 => Some Tree
  | 2 => Some State
  | 3 => Some Action
  | 4 => Some Delta
  | 5 => Some StateAttachment
  | 6 => Some SnapshotCommit
  | 7 => Some TimelineOperation
  | 8 => Some AnnotatedTag
  | _ => None
  end.

(** [x << s] on [u64]: a shift by 64 or more panics. *)
Definition shl64 (x s : Z) : pure Z :=
  if s <? 64 then Ok (as_u64 (Z.shiftl x s)) else Panic.

(** The loop of [encode_type_and_size] that writes the remaining bytes. *)
Fixpoint encode_size_loop (fuel : nat) (val : Z) (buf : list Z) : pure (list Z) :=
  match fuel with
  | O => Fuel
  | S fuel =>
      if 0x7F <? val
      then encode_size_loop fuel (Z.shiftr val 7) (buf ++ [Z.lor 0x80 (as_u8 (Z.land val 0x7F))])
      else Ok (buf ++ [as_u8 val])
  end.

Definition encode_type_and_size (obj_type : ObjectType) (size : Z) (buf : list Z)
  : pure (list Z) :=
  let type_bits := Z.land (discriminant obj_type) 0x07 in
  let val := size in
  let low := as_u8 (Z.land val 0x0F) in
  let val := Z.shiftr val 4 in
  if val =? 0 then Ok (buf ++ [Z.lor (as_u8 (Z.shiftl type_bits 4)) low])
  else
    encode_size_loop 10 val (buf ++ [Z.lor (Z.lor 0x80 (as_u8 (Z.shiftl type_bits 4))) low]).

(** The loop of [decode_type_and_size]; its state is [(size, shift, pos)]. *)
Fixpoint decode_size_loop (fuel : nat) (data : list Z) (size shift pos : Z)
  : pure (option (Z * Z)) :=
  match fuel with
  | O => Fuel
  | S fuel =>
      if zlen data <=? pos then Ok None
      else
        byte ← index data pos;
        let pos := pos + 1 in
        bits ← shl64 (Z.land byte 0x7F) shift;
        let size := Z.lor size bits in
        let shift := shift + 7 in
        if Z.land byte 0x80 =? 0 then Ok (Some (size, pos))
        else if 63 <? shift then Ok None
        else decode_size_loop fuel data size shift pos
  end.

Definition decode_type_and_size (data : list Z) : pure (option (ObjectType * Z * Z)) :=
  if zlen data =? 0 then Ok None
  else
    first ← index data 0;
    let type_bits := Z.land (Z.shiftr first 4) 0x07 in
    match from_u8 type_bits with
    | None => Ok None
    | Some obj_type =>
        let size := Z.land first 0x0F in
        let shift := 4 in
        let pos := 1 in
        if negb (Z.land first 0x80 =? 0) then
          r ← decode_size_loop 10 data size shift pos;
          match r with
          | None => Ok None
          | Some (size, pos) => Ok (Some (obj_type, size, pos))
          end
        else Ok (Some (obj_type, size, pos))
    end.

Fixpoint encode_varint_loop (fuel : nat) (val : Z) (buf : list Z) : pure (list Z) :=
  match fuel with
  | O => Fuel
  | S fuel =>
      let byte := as_u8 (Z.land val 0x7F) in
      let val := Z.shiftr val 7 in
      if val =? 0 then Ok (buf ++ [byte])
      else encode_varint_loop fuel val (buf ++ [Z.lor byte 0x80])
  end.
Definition encode_varint (val : Z) (buf : list Z) : pure (list Z) :=
  encode_varint_loop 10 val buf.

(** [for (i, &byte) in data.iter().enumerate()] *)
Fixpoint decode_varint_loop (data : list Z) (i val shift : Z) : pure (option (Z * Z)) :=
  match data with
  | [] => Ok None
  | byte :: data =>
      bits ← shl64 (Z.land byte 0x7F) shift;
      let val := Z.lor val bits in
      let shift := shift + 7 in
      if Z.land byte 0x80 =? 0 then Ok (Some (val, i + 1))
      else if 63 <? shift then Ok None
      else decode_varint_loop data (i + 1) val shift
  end.
Definition decode_varint (data : list Z) : pure (option (Z * Z)) :=
  decode_varint_loop data 0 0 0.

(** ** Specification

    The canonical little-endian base-128 digits of a number, and the bytes that
    carry them; the last byte has no continuation bit. *)
Fixpoint leb (fuel : nat) (v : Z) : list Z :=
  match fuel with
  | O => []
  | S fuel => if v <? 128 then [v] else (v `mod` 128 + 128) :: leb fuel (v / 128)
  end.
(** The bytes of a varint, and of a type+size header. *)
Definition varint_bytes (v : Z) : list Z := leb 10 v.
Definition header_bytes (t : ObjectType) (size : Z) : list Z :=
  let tb := discriminant t `mod` 8 in
  if size <? 16 then [tb * 16 + size]
  else (128 + tb * 16 + size `mod` 16) :: leb 10 (size / 16).

Example encode_300 : encode_varint 300 [] = Ok [172; 2].
Proof. reflexivity. Qed.
Example decode_300 : decode_varint [172; 2; 9] = Ok (Some (300, 2)).
Proof. reflexivity. Qed.
Example max_encoded : zlen (varint_bytes U64_MAX) = 10.
Proof. reflexivity. Qed.

(** ** Byte arithmetic *)
Lemma land_7f x : Z.land x 0x7F = x `mod` 128.
Proof. change 0x7F with (Z.ones 7). rewrite Z.land_ones by lia. done. Qed.
Lemma land_0f x : Z.land x 0x0F = x `mod` 16.
Proof. change 0x0F with (Z.ones 4). rewrite Z.land_ones by lia. done. Qed.
Lemma land_07 x : Z.land x 0x07 = x `mod` 8.
Proof. change 0x07 with (Z.ones 3). rewrite Z.land_ones by lia. done. Qed.
Lemma shiftr_4 x : Z.shiftr x 4 = x / 16.
Proof. by rewrite Z.shiftr_div_pow2. Qed.
Lemma shiftr_7 x : Z.shiftr x 7 = x / 128.
Proof. by rewrite Z.shiftr_div_pow2. Qed.
Lemma as_u8_small x : 0 ≤ x < 256 → as_u8 x = x.
Proof. apply Z.mod_small. Qed.


Lemma as_u8_land_7f x : as_u8 (Z.land x 0x7F) = x `mod` 128.
Proof. rewrite land_7f. apply as_u8_small. pose proof (Z.mod_pos_bound x 128 eq_refl). lia. Qed.

Lemma lor_80 x : 0 ≤ x < 128 → Z.lor 0x80 x = x + 128.
Proof.
  intros. rewrite Z.lor_comm. change 0x80 with (Z.shiftl 1 7). by rewrite lor_shiftl_add by lia.
Qed.

(** The continuation bit of a byte. *)
Lemma land_80 b : is_byte b → (Z.land b 0x80 =? 0) = (b <? 128).
Proof.
  intros Hb. apply eqb_prop, (byte_forall (λ b, eqb (Z.land b 0x80 =? 0) (b <? 128))); [|done].
  vm_compute. done.
Qed.

(** Well-formed varints: the digits of [u], without a bound on its size. *)
Inductive varint_of : list Z → Z → Prop :=
| varint_last b : 0 ≤ b < 128 → varint_of [b] b
| varint_more b bs u : 128 ≤ b < 256 → varint_of bs u → varint_of (b :: bs) (b - 128 + 128 * u).

Lemma varint_of_bound bs u : varint_of bs u → 0 < zlen bs ∧ 0 ≤ u < 128 ^ zlen bs.
Proof.
  induction 1 as [b Hb|b bs u Hb _ [IH1 IH2]].
  - change (zlen [b]) with 1. lia.
  - rewrite zlen_cons, Z.pow_add_r by zlia. zlia.
Qed.

Lemma varint_of_bytes bs u : varint_of bs u → bytes_ok bs.
Proof. induction 1; repeat constructor; unfold is_byte; try lia; done. Qed.

Lemma leb_varint fuel v :
  0 ≤ v < 128 ^ Z.of_nat (S fuel) → varint_of (leb (S fuel) v) v.
Proof.
  revert v. induction fuel as [|fuel IH]; intros v Hv; rewrite Nat2Z.inj_succ, Z.pow_succ_r in Hv by lia.
  - change (128 ^ Z.of_nat 0) with 1 in Hv. simpl.
    rewrite (proj2 (Z.ltb_lt v 128)) by lia. constructor; lia.
  - remember (S fuel) as n. cbn [leb]. destruct (Z.ltb_spec v 128); [constructor; lia|].
    assert (0 ≤ v / 128 < 128 ^ Z.of_nat n)
      by (split; [apply Z.div_pos|apply Z.div_lt_upper_bound]; lia).
    pose proof (Z.mod_pos_bound v 128 eq_refl). pose proof (Z.div_mod v 128).
    replace v with (v `mod` 128 + 128 - 128 + 128 * (v / 128)) at 3 by lia.
    constructor; [lia|]. by apply IH.
Qed.

(** The digits of [v] are the shortest varint of [v]. *)
Lemma leb_length fuel v bs u : 0 ≤ v ≤ u → varint_of bs u → zlen (leb fuel v) ≤ zlen bs.
Proof.
  intros Hv Hbs. revert fuel v Hv. induction Hbs as [b Hb|b bs u Hb Hbs IH]; intros fuel v Hv.
  - destruct fuel as [|fuel]; cbn [leb]; [zlia|]. destruct (Z.ltb_spec v 128); [done|lia].
  - destruct fuel as [|fuel]; cbn [leb]; [zlia|].
    destruct (Z.ltb_spec v 128); [zlia|]. rewrite !zlen_cons.
    assert (0 ≤ v / 128 ≤ u) as Hd.
    { split; [apply Z.div_pos; lia|]. apply Z.lt_succ_r, Z.div_lt_upper_bound; lia. }
    specialize (IH fuel _ Hd). lia.
Qed.

Lemma lor_as_u64 val x : 0 ≤ val < 2 ^ 64 → Z.lor val (as_u64 x) = as_u64 (Z.lor val x).
Proof.
  intros Hv. unfold as_u64. change 18446744073709551616 with (2 ^ 64).
  rewrite <- !Z.land_ones by lia. rewrite Z.land_lor_distr_l. f_equal.
  rewrite Z.land_ones by lia. by rewrite Z.mod_small.
Qed.

Lemma decode_varint_loop_exact data i val s :
  bytes_ok data → 0 ≤ s < 64 → 0 ≤ val < 2 ^ s →
  returns (decode_varint_loop data i val s) (λ r, ∀ v n, r = Some (v, n) ↔
    ∃ pre post u, data = pre ++ post ∧ varint_of pre u ∧ n = i + zlen pre ∧
      s + 7 * (zlen pre - 1) ≤ 63 ∧ v = as_u64 (val + u * 2 ^ s)).
Proof.
  intros Hd. revert i val s. induction Hd as [|b data Hb Hd IH]; intros i val s Hs Hv.
  { intros v n. split; [done|]. intros (pre & post & u & E & Hu & _).
    destruct pre; [inversion Hu|done]. }
  cbn [decode_varint_loop]. unfold shl64. rewrite (proj2 (Z.ltb_lt s 64)) by lia. cbn.
  rewrite land_80, land_7f, lor_as_u64, lor_shiftl_add by
    (done || lia || (pose proof (Z.pow_lt_mono_r 2 s 64); lia)).
  unfold is_byte in Hb. destruct (Z.ltb_spec b 128) as [Hlt|Hge].
  - rewrite (Z.mod_small b 128) by lia. cbn. intros v n. split.
    + intros [= <- <-]. exists [b], data, b. repeat split; try (constructor; lia); zlia.
    + intros (pre & post & u & E & Hu & -> & Hl & ->). destruct Hu; simplify_eq/=; [|lia].
      do 2 f_equal. 
  - replace (b `mod` 128) with (b - 128) by (Z.to_euclidean_division_equations; lia).
    destruct (Z.ltb_spec 63 (s + 7)) as [Hov|Hok].
    + intros v n. split; [done|]. intros (pre & post & u & E & Hu & -> & Hl & ->).
      destruct Hu as [|? ? ? ? Hu]; simplify_eq/=; [lia|].
      apply varint_of_bound in Hu. rewrite zlen_cons in Hl. lia.
    + assert (val + (b - 128) * 2 ^ s < 2 ^ (s + 7)).
      { rewrite Z.pow_add_r by lia. change (2 ^ 7) with 128. nia. }
      assert (2 ^ (s + 7) ≤ 2 ^ 64) by (apply Z.pow_le_mono_r; lia).
      unfold as_u64 at 1. rewrite Z.mod_small by (change 18446744073709551616 with (2 ^ 64); nia).
      eapply returns_mono; [apply IH; nia|]. cbv beta. intros r Hr v n. rewrite Hr. split.
      * intros (pre & post & u & -> & Hu & -> & Hl & ->).
        exists (b :: pre), post, (b - 128 + 128 * u). repeat split; [constructor; [lia|done]|zlia|zlia|].
        f_equal. rewrite Z.pow_add_r by lia. change (2 ^ 7) with 128. ring.
      * intros (pre & post & u & E & Hu & -> & Hl & ->).
        destruct Hu as [|? pre u ? Hu]; simplify_eq/=; [lia|].
        exists pre, post, u. repeat split; [done|zlia|zlia|].
        f_equal. rewrite Z.pow_add_r by lia. change (2 ^ 7) with 128. ring.
Qed.

Lemma decode_size_loop_eq fuel data size shift pos :
  0 ≤ pos → 63 - shift < 7 * Z.of_nat fuel →
  decode_size_loop (S fuel) data size shift pos
  = decode_varint_loop (drop (Z.to_nat pos) data) pos size shift.
Proof.
  revert size shift pos. induction fuel as [|fuel IH]; intros size shift pos Hp Hf.
  all: cbn [decode_size_loop]; destruct (Z.leb_spec (zlen data) pos) as [Hle|Hlt];
    [by rewrite drop_ge by (unfold zlen in *; lia)|].
  all: destruct (index_ok (E:=Empty_set) data pos) as (x & Hx & ->); [lia|].
  all: rewrite (drop_S data x) by done; cbn [decode_varint_loop].
  all: cbn [mbind exec_bind]; destruct (shl64 (Z.land x 0x7F) shift); cbn [mbind exec_bind]; try done.
  all: destruct (Z.land x 0x80 =? 0); [done|].
  all: destruct (Z.ltb_spec 63 (shift + 7)); [done|].
  - lia.
  - replace (S (Z.to_nat pos)) with (Z.to_nat (pos + 1)) by lia.
    apply (IH _ (shift + 7) (pos + 1)); lia.
Qed.

(** ** The encoders produce the canonical bytes *)
Lemma encode_varint_loop_leb fuel v buf :
  0 ≤ v < 128 ^ Z.of_nat (S fuel) →
  encode_varint_loop (S fuel) v buf = Ok (buf ++ leb (S fuel) v).
Proof.
  revert v buf. induction fuel as [|fuel IH]; intros v buf Hv;
    rewrite Nat2Z.inj_succ, Z.pow_succ_r in Hv by lia.
  - change (128 ^ Z.of_nat 0) with 1 in Hv. cbn [encode_varint_loop leb].
    rewrite as_u8_land_7f, shiftr_7, Z.div_small, Z.mod_small by lia. simpl.
    by rewrite (proj2 (Z.ltb_lt v 128)) by lia.
  - remember (S fuel) as n. cbn [encode_varint_loop leb].
    rewrite as_u8_land_7f, shiftr_7. destruct (Z.ltb_spec v 128).
    + by rewrite Z.div_small, Z.mod_small by lia.
    + assert (0 < v / 128 < 128 ^ Z.of_nat n)
        by (split; [apply Z.div_str_pos|apply Z.div_lt_upper_bound]; lia).
      rewrite (proj2 (Z.eqb_neq (v / 128) 0)) by lia. rewrite IH by lia.
      rewrite Z.lor_comm, lor_80 by (apply Z.mod_pos_bound; lia).
      by rewrite <- app_assoc.
Qed.

Lemma encode_size_loop_leb fuel v buf :
  0 ≤ v < 128 ^ Z.of_nat (S fuel) →
  encode_size_loop (S fuel) v buf = Ok (buf ++ leb (S fuel) v).
Proof.
  revert v buf. induction fuel as [|fuel IH]; intros v buf Hv;
    rewrite Nat2Z.inj_succ, Z.pow_succ_r in Hv by lia.
  - change (128 ^ Z.of_nat 0) with 1 in Hv. cbn [encode_size_loop leb].
    rewrite (proj2 (Z.ltb_ge 0x7F v)), (proj2 (Z.ltb_lt v 128)) by lia.
    by rewrite as_u8_small by lia.
  - remember (S fuel) as n. cbn [encode_size_loop leb].
    rewrite as_u8_land_7f, shiftr_7.
    destruct (Z.ltb_spec v 128); [rewrite (proj2 (Z.ltb_ge 0x7F v)) by lia; by rewrite as_u8_small by lia|].
    rewrite (proj2 (Z.ltb_lt 0x7F v)) by lia.
    assert (0 < v / 128 < 128 ^ Z.of_nat n)
      by (split; [apply Z.div_str_pos|apply Z.div_lt_upper_bound]; lia).
    rewrite IH by lia. rewrite lor_80 by (apply Z.mod_pos_bound; lia).
    by rewrite <- app_assoc.
Qed.

Definition is_u64 (x : Z) : Prop := 0 ≤ x ≤ U64_MAX.

Lemma u64_pow x : is_u64 x → 0 ≤ x < 128 ^ 10.
Proof. unfold is_u64, U64_MAX. intros. change (128 ^ 10) with 1180591620717411303424. lia. Qed.

Lemma encode_varint_bytes v buf : is_u64 v → encode_varint v buf = Ok (buf ++ varint_bytes v).
Proof. intros ?%u64_pow. by apply encode_varint_loop_leb. Qed.

Lemma varint_bytes_of v : is_u64 v → varint_of (varint_bytes v) v.
Proof. intros ?%u64_pow. by apply leb_varint. Qed.

Lemma zlen_leb fuel v : zlen (leb fuel v) ≤ Z.of_nat fuel.
Proof.
  revert v. induction fuel as [|fuel IH]; intros v; cbn [leb]; [done|].
  case_match; rewrite zlen_cons; [zlia|]. specialize (IH (v / 128)). lia.
Qed.

Lemma encode_type_and_size_bytes t size buf :
  is_u64 size → encode_type_and_size t size buf = Ok (buf ++ header_bytes t size).
Proof.
  intros Hs. unfold encode_type_and_size, header_bytes. rewrite land_07, land_0f, shiftr_4.
  assert (∀ k, 0 ≤ k < 16 → as_u8 k = k) as H16 by (intros; apply as_u8_small; lia).
  rewrite (H16 (size `mod` 16)) by (apply Z.mod_pos_bound; lia).
  pose proof (Z.mod_pos_bound size 16 eq_refl). pose proof (Z.div_mod size 16).
  assert (Z.lor (as_u8 (Z.shiftl (discriminant t `mod` 8) 4)) (size `mod` 16)
    = discriminant t `mod` 8 * 16 + size `mod` 16) as Hlow.
  { rewrite as_u8_small by (destruct t; done). rewrite Z.lor_comm, lor_shiftl_add by lia. lia. }
  unfold is_u64, U64_MAX in Hs. destruct (Z.ltb_spec size 16).
  - rewrite Z.div_small by lia. simpl. rewrite Hlow, (Z.mod_small size) by lia. done.
  - assert (0 < size / 16 < 128 ^ Z.of_nat 10).
    { split; [apply Z.div_str_pos; lia|]. apply Z.div_lt_upper_bound; [lia|].
      change (128 ^ Z.of_nat 10) with 1180591620717411303424. lia. }
    rewrite (proj2 (Z.eqb_neq (size / 16) 0)) by lia.
    rewrite <- Z.lor_assoc, Hlow.
    rewrite lor_80 by (pose proof (Z.mod_pos_bound (discriminant t) 8 eq_refl); lia). rewrite encode_size_loop_leb by lia.
    rewrite <- app_assoc. cbn [app]. f_equal. f_equal. f_equal. lia.
Qed.

(** What a header says: the low four bits of the size are in the first byte. *)
Definition header_of (bs : list Z) (t : ObjectType) (size : Z) : Prop :=
  ∃ b rest u, bs = b :: rest ∧ from_u8 ((b / 16) `mod` 8) = Some t ∧ size = b `mod` 16 + 16 * u ∧
    (b < 128 ∧ rest = [] ∧ u = 0 ∨ 128 ≤ b ∧ varint_of rest u).

Lemma decode_type_and_size_exact data :
  bytes_ok data →
  returns (decode_type_and_size data) (λ r, ∀ t v n, r = Some (t, v, n) ↔
    ∃ pre post u, data = pre ++ post ∧ header_of pre t u ∧ n = zlen pre ∧ n ≤ 10 ∧ v = as_u64 u).
Proof.
  intros Hd. unfold decode_type_and_size.
  destruct Hd as [|b data Hb Hd].
  { intros t v n. split; [done|]. intros (pre & post & u & E & (b & rest & u' & -> & _) & _).
    done. }
  rewrite (proj2 (Z.eqb_neq (zlen (b :: data)) 0)) by zlia.
  change (index (E:=Empty_set) (b :: data) 0) with (@Ok Empty_set Z b). cbn [mbind exec_bind].
  rewrite shiftr_4, land_07, land_0f, land_80 by done. unfold is_byte in Hb.
  destruct (from_u8 ((b / 16) `mod` 8)) as [t0|] eqn:Ht.
  2:{ intros t v n. split; [done|]. intros (pre & post & u & E & (? & ? & ? & -> & Ht' & _) & _).
      simplify_eq/=. }
  pose proof (Z.mod_pos_bound b 16 eq_refl). destruct (Z.ltb_spec b 128) as [Hlt|Hge].
  - cbn. intros t v n. split.
    + intros [= <- <- <-]. exists [b], data, (b `mod` 16). repeat split; [|lia|].
      * exists b, [], 0. repeat split; [done|lia|]. by left.
      * unfold as_u64. symmetry. apply Z.mod_small. lia.
    + intros (pre & post & u & E & (? & ? & ? & -> & Ht' & -> & [(? & -> & ->)|(? & _)]) & -> & _ & ->);
        simplify_eq/=; [|lia].
      rewrite Z.mul_0_r, Z.add_0_r. unfold as_u64. by rewrite (Z.mod_small (_ `mod` 16)) by lia.
  - rewrite decode_size_loop_eq by lia. simpl drop.
    step (decode_varint_loop_exact data 1 (b `mod` 16) 4) as Hr; [done|lia|lia|].
    change (2 ^ 4) with 16 in Hr.
    assert (∀ t v n, t = t0 ∧ a = Some (v, n) ↔ ∃ pre post u, b :: data = pre ++ post ∧
      header_of pre t u ∧ n = zlen pre ∧ n ≤ 10 ∧ v = as_u64 u) as Hx.
    { intros t v n. rewrite Hr. split.
      - intros (-> & pre & post & u & -> & Hu & -> & Hl & ->).
        exists (b :: pre), post, (b `mod` 16 + 16 * u). split; [done|]. split.
        + exists b, pre, u. split_and!; [done|done|done|by right].
        + split; [zlia|]. split; [zlia|]. by apply f_equal; lia.
      - intros (pre & post & u & E & (? & rest & w & -> & Ht' & -> & [(? & _)|(_ & Hu)]) & -> & Hl & ->);
          simplify_eq/=; [lia|]. split; [done|].
        exists rest, post, w. repeat split; [done|zlia|zlia|]. by apply f_equal; lia. }
    destruct a as [[v0 n0]|]; cbn; intros t v n; rewrite <- Hx; clear.
    + split; [by intros [= <- <- <-]|by intros [-> [= -> ->]]].
    + by split; [|intros [_ ?]].
Qed.

Lemma header_bytes_of t size :
  t ≠ AnnotatedTag → is_u64 size → header_of (header_bytes t size) t size.
Proof.
  intros Ht Hs. unfold is_u64, U64_MAX in Hs. unfold header_bytes.
  pose proof (Z.mod_pos_bound (discriminant t) 8 eq_refl) as Hd.
  pose proof (Z.mod_pos_bound size 16 eq_refl). pose proof (Z.div_mod size 16).
  assert (from_u8 (discriminant t `mod` 8) = Some t) as Hk by by destruct t.
  destruct (Z.ltb_spec size 16).
  - eexists _, [], 0. split; [done|].
    replace ((discriminant t `mod` 8 * 16 + size) / 16) with (discriminant t `mod` 8)
      by (Z.to_euclidean_division_equations; lia).
    rewrite Z.mod_mod by lia. split; [done|].
    split; [Z.to_euclidean_division_equations; lia|]. left. split; [lia|done].
  - eexists _, (leb 10 (size / 16)), (size / 16). split; [done|].
    replace ((128 + discriminant t `mod` 8 * 16 + size `mod` 16) / 16)
      with (8 + discriminant t `mod` 8) by (Z.to_euclidean_division_equations; lia).
    replace ((8 + discriminant t `mod` 8) `mod` 8) with (discriminant t `mod` 8)
      by (Z.to_euclidean_division_equations; lia). split; [done|].
    split; [Z.to_euclidean_division_equations; lia|]. right. split; [lia|].
    apply (leb_varint 9). split; [apply Z.div_pos; lia|]. apply Z.div_lt_upper_bound; [lia|].
    change (128 ^ Z.of_nat 10) with 1180591620717411303424. lia.
Qed.

Lemma zlen_header_bytes t size : is_u64 size → zlen (header_bytes t size) ≤ 10.
Proof.
  intros Hs. unfold is_u64, U64_MAX in Hs. unfold header_bytes.
  destruct (Z.ltb_spec size 16); [zlia|]. rewrite zlen_cons.
  change 10%nat with (S 9).
  assert (zlen (leb 10 (size / 16)) ≤ zlen (leb 9 (size / 16))) as Hl.
  { apply (leb_length 10 _ _ (size / 16)).
    - split; [apply Z.div_pos; lia|done].
    - apply (leb_varint 8). split; [apply Z.div_pos; lia|]. apply Z.div_lt_upper_bound; [lia|].
      change (128 ^ Z.of_nat 9) with 9223372036854775808. lia. }
  pose proof (zlen_leb 9 (size / 16)). lia.
Qed.

Lemma as_u64_small x : is_u64 x → as_u64 x = x.
Proof. unfold is_u64, U64_MAX. intros. apply Z.mod_small. lia. Qed.

(** Decoding what was encoded, whatever follows it. *)
Lemma decode_encoded_varint v rest :
  is_u64 v → bytes_ok rest →
  decode_varint (varint_bytes v ++ rest) = Ok (Some (v, zlen (varint_bytes v))).
Proof.
  intros Hv Hr. pose proof (varint_bytes_of v Hv) as Hb.
  destruct (returns_inv _ _ (decode_varint_loop_exact (varint_bytes v ++ rest) 0 0 0
    ltac:(apply Forall_app; eauto using varint_of_bytes) ltac:(lia) ltac:(lia))) as (r & E & Hx).
  unfold decode_varint. rewrite E. f_equal. apply Hx.
  exists (varint_bytes v), rest, v. pose proof (zlen_leb 10 v).
  unfold varint_bytes in *. repeat split; [done|lia|]. rewrite Z.mul_1_r. by rewrite as_u64_small.
Qed.

Lemma header_bytes_ok t size : is_u64 size → bytes_ok (header_bytes t size).
Proof.
  intros Hs. unfold is_u64, U64_MAX in Hs. unfold header_bytes.
  pose proof (Z.mod_pos_bound (discriminant t) 8 eq_refl) as Hd.
  pose proof (Z.mod_pos_bound size 16 eq_refl).
  destruct (Z.ltb_spec size 16); (constructor; [unfold is_byte; lia|]); [constructor|].
  eapply varint_of_bytes, (leb_varint 9). split; [apply Z.div_pos; lia|].
  apply Z.div_lt_upper_bound; [lia|].
  change (128 ^ Z.of_nat 10) with 1180591620717411303424. lia.
Qed.

Lemma decode_encoded_header t size rest :
  t ≠ AnnotatedTag → is_u64 size → bytes_ok rest →
  decode_type_and_size (header_bytes t size ++ rest)
  = Ok (Some (t, size, zlen (header_bytes t size))).
Proof.
  intros Ht Hs Hr.
  destruct (returns_inv _ _ (decode_type_and_size_exact (header_bytes t size ++ rest)
    ltac:(apply Forall_app; eauto using header_bytes_ok))) as (r & -> & Hx).
  f_equal. apply Hx. exists (header_bytes t size), rest, size.
  split; [done|]. split; [by apply header_bytes_of|]. split; [done|].
  split; [by apply zlen_header_bytes|]. by rewrite as_u64_small.
Qed.

(** What the decoders consume lies in the slice, and the values fit a [u64]. *)
Lemma decode_varint_bounds data :
  bytes_ok data →
  returns (decode_varint data) (λ r, ∀ v n, r = Some (v, n) → 0 < n ≤ zlen data ∧ is_u64 v).
Proof.
  intros Hd. eapply returns_mono; [by apply decode_varint_loop_exact|].
  cbv beta. intros r Hr v n (pre & post & u & -> & Hu%varint_of_bound & -> & _ & ->)%Hr.
  split; [zlia|]. unfold is_u64, as_u64, U64_MAX. 
  pose proof (Z.mod_pos_bound (0 + u * 2 ^ 0) 18446744073709551616 eq_refl). lia.
Qed.

Lemma decode_type_and_size_bounds data :
  bytes_ok data →
  returns (decode_type_and_size data)
    (λ r, ∀ t v n, r = Some (t, v, n) → 0 < n ≤ zlen data ∧ is_u64 v ∧ t ≠ AnnotatedTag).
Proof.
  intros Hd. eapply returns_mono; [by apply decode_type_and_size_exact|].
  cbv beta. intros r Hr t v n (pre & post & u & -> & (b & rest & w & -> & Ht & _) & -> & _ & ->)%Hr.
  assert (t ≠ AnnotatedTag).
  { intros ->. pose proof (Z.mod_pos_bound (b / 16) 8 eq_refl) as Hb. revert Ht Hb.
    generalize ((b / 16) `mod` 8). intros k Hk Hb.
    assert (k = 0 ∨ k = 1 ∨ k = 2 ∨ k = 3 ∨ k = 4 ∨ k = 5 ∨ k = 6 ∨ k = 7)
      as [->|[->|[->|[->|[->|[->|[->| ->]]]]]]] by lia; done. }
  split; [zlia|]. split; [|done]. unfold is_u64, as_u64, U64_MAX. 
  pose proof (Z.mod_pos_bound u 18446744073709551616 eq_refl). lia.
Qed.

(** More data does not change what was decoded. *)
Lemma decode_varint_loop_app data more i val s r :
  decode_varint_loop data i val s = Ok (Some r) →
  decode_varint_loop (data ++ more) i val s = Ok (Some r).
Proof.
  revert i val s. induction data as [|b data IH]; intros i val s; [done|].
  cbn [decode_varint_loop app]. destruct (shl64 _ s); cbn; try done.
  destruct (_ =? 0); [done|]. destruct (_ <? _); [done|]. apply IH.
Qed.

Lemma decode_varint_app data more r :
  decode_varint data = Ok (Some r) → decode_varint (data ++ more) = Ok (Some r).
Proof. apply decode_varint_loop_app. Qed.

Lemma decode_type_and_size_app data more r :
  decode_type_and_size data = Ok (Some r) → decode_type_and_size (data ++ more) = Ok (Some r).
Proof.
  unfold decode_type_and_size. destruct data as [|b data]; [done|].
  rewrite !(proj2 (Z.eqb_neq (zlen (b :: _)) 0)) by zlia. cbn [app].
  rewrite (proj2 (Z.eqb_neq (zlen (b :: _)) 0)) by zlia.
  change (index (E:=Empty_set) (b :: ?l) 0) with (@Ok Empty_set Z b). cbn [mbind exec_bind].
  destruct (from_u8 _); [|done]. destruct (negb _); [|done].
  rewrite !decode_size_loop_eq by lia.
  change (drop (Z.to_nat 1) (b :: data)) with data.
  change (drop (Z.to_nat 1) (b :: data ++ more)) with (data ++ more). intros (a & Ha & Hr)%bind_ok.
  destruct a as [[v n]|]; [|done]. rewrite (decode_varint_loop_app _ more _ _ _ _ Ha). exact Hr.
Qed.

(** ** Properties *)

(** The entry header round trips: for every object kind that a header can
    carry (every kind but annotated tags, which the callers store as blobs) and
    every 64-bit size, [encode_type_and_size] appends at most ten bytes to the
    buffer, and [decode_type_and_size] on those bytes, whatever follows them,
    gives back the kind, the size and the number of bytes. *)
Theorem type_and_size_roundtrip t size buf rest :
  t ≠ AnnotatedTag → is_u64 size → bytes_ok rest →
  ∃ bs, encode_type_and_size t size buf = Ok (buf ++ bs) ∧ zlen bs ≤ 10 ∧
    decode_type_and_size (bs ++ rest) = Ok (Some (t, size, zlen bs)).
Proof.
  intros. exists (header_bytes t size).
  split; [by apply encode_type_and_size_bytes|].
  split; [by apply zlen_header_bytes|by apply decode_encoded_header].
Qed.
Lemma type_and_size_roundtrip_witness :
  ∃ bs, encode_type_and_size Delta 1000000 [7] = Ok ([7] ++ bs) ∧ zlen bs ≤ 10 ∧
    decode_type_and_size (bs ++ [1; 2]) = Ok (Some (Delta, 1000000, zlen bs)).
Proof.
  apply type_and_size_roundtrip; [done|unfold is_u64, U64_MAX; lia|].
  repeat constructor; unfold is_byte; lia.
Defined.

(** LEB128 integers: [encode_varint] appends bytes from which
    [decode_varint] reads the value back whatever follows, and no sequence of
    bytes that [decode_varint] reads as the same value is shorter. *)
Theorem varint_roundtrip v buf rest :
  is_u64 v → bytes_ok rest →
  ∃ bs, encode_varint v buf = Ok (buf ++ bs) ∧
    decode_varint (bs ++ rest) = Ok (Some (v, zlen bs)) ∧
    ∀ data n, bytes_ok data → decode_varint data = Ok (Some (v, n)) → zlen bs ≤ n.
Proof.
  intros Hv Hr. exists (varint_bytes v).
  split; [by apply encode_varint_bytes|]. split; [by apply decode_encoded_varint|].
  intros data n Hd E. unfold decode_varint in E.
  destruct (returns_inv _ _ (decode_varint_loop_exact data 0 0 0 Hd
    ltac:(lia) ltac:(lia))) as (r & E' & Hx). rewrite E in E'. simplify_eq.
  destruct (proj1 (Hx _ _) eq_refl) as (pre & post & u & _ & Hu & -> & _ & Eu).
  rewrite Z.mul_1_r, Z.add_0_l in Eu. pose proof (varint_of_bound _ _ Hu).
  apply (leb_length 10 _ _ u); [|done]. unfold is_u64 in Hv.
  split; [lia|]. rewrite Eu. apply Z.mod_le; lia.
Qed.
Lemma varint_roundtrip_witness :
  ∃ bs, encode_varint 300 [] = Ok ([] ++ bs) ∧
    decode_varint (bs ++ [255]) = Ok (Some (300, zlen bs)) ∧
    ∀ data n, bytes_ok data → decode_varint data = Ok (Some (300, n)) → zlen bs ≤ n.
Proof.
  apply varint_roundtrip; [unfold is_u64, U64_MAX; lia|].
  repeat constructor; unfold is_byte; lia.
Defined.

(** The decoders are total and read exactly the well-formed prefixes: on
    any bytes they neither panic (the 64-bit shift stays in range) nor run out
    of fuel, and they answer [Some] exactly when a prefix of at most ten bytes
    is a well-formed varint (header), giving its value modulo 2^64 and its
    length; anything truncated or longer is [None]. *)
Theorem decoders_exact data :
  bytes_ok data →
  returns (decode_varint data) (λ r, ∀ v n, r = Some (v, n) ↔
    ∃ pre post u, data = pre ++ post ∧ varint_of pre u ∧ n = zlen pre ∧ n ≤ 10 ∧ v = as_u64 u) ∧
  returns (decode_type_and_size data) (λ r, ∀ t v n, r = Some (t, v, n) ↔
    ∃ pre post u, data = pre ++ post ∧ header_of pre t u ∧ n = zlen pre ∧ n ≤ 10 ∧ v = as_u64 u).
Proof.
  intros Hd. split; [|by apply decode_type_and_size_exact].
  eapply returns_mono; [by apply decode_varint_loop_exact|].
  cbv beta. intros r Hr v n. rewrite Hr. setoid_rewrite Z.mul_1_r.
  split; intros (pre & post & u & ? & ? & ? & ? & ?); exists pre, post, u; repeat split; try done; lia.
Qed.
Lemma decoders_exact_witness :
  returns (decode_varint [172; 2; 9]) (λ r, ∀ v n, r = Some (v, n) ↔
    ∃ pre post u, [172; 2; 9] = pre ++ post ∧ varint_of pre u ∧ n = zlen pre ∧ n ≤ 10 ∧
      v = as_u64 u) ∧
  returns (decode_type_and_size [172; 2; 9]) (λ r, ∀ t v n, r = Some (t, v, n) ↔
    ∃ pre post u, [172; 2; 9] = pre ++ post ∧ header_of pre t u ∧ n = zlen pre ∧ n ≤ 10 ∧
      v = as_u64 u).
Proof. apply decoders_exact. repeat constructor; unfold is_byte; lia. Defined.

End Varint.
