(* ===== verification/PackFormat.v ===== *)
(** * Pack container and entry format
    ([crates/pack/src/store/pack/{shared,versioned_header}.rs])

    Module [PackFormat] models object ids and their tagged encoding, the entry
    header that precedes every stored object, the versioned container header
    with its checksum trailer, and the bounded decompression loop.  BLAKE3 and
    zstd are not part of the repository: the digest is a parameter of the
    container functions, the compressor and the decoder's reads are arguments of
    the payload functions. *)

From S2P Require Import Prelude Varint.
Import Varint.

Module PackFormat.

(** The variants of [StoreError] these files use: [InvalidObject] with the text
    of the message and the numbers the source formats into it, [Io], and
    [NotFound] with the bytes of the hash it names. *)
Inductive StoreError :=
| InvalidObject (message : string) (args : list Z)
| Io (message : string)
| NotFound (hash : list Z).
Abbreviation res := (exec StoreError).

Definition PACK_CHECKSUM_LEN : Z := 32.
Definition MAX_PACK_OBJECT_OUTPUT_SIZE : Z := 1024 * 1024 * 1024.
Definition PACK_DECOMPRESSION_INITIAL_CAP : Z := 4 * 1024 * 1024.

(** [enum PackObjectId]; the payload is the 32 bytes of the hash or state id. *)
Inductive PackObjectId :=
| Hash (bytes : list Z)
| StateId (bytes : list Z)
| AnnotatedTagId (bytes : list Z).
#[global] Instance PackObjectId_eq_dec : EqDecision PackObjectId.
Proof. solve_decision. Defined.

Definition encode_tagged (id : PackObjectId) (buf : list Z) : list Z :=
  match id with
  | Hash hash => (buf ++ [0]) ++ hash
  | StateId state_id => (buf ++ [1]) ++ state_id
  | AnnotatedTagId hash => (buf ++ [2]) ++ hash
  end.

Definition decode_tagged (data : list Z) : res (PackObjectId * Z) :=
  match get data 0 with
  | None => Err (InvalidObject "missing pack object id tag" [])
  | Some tag =>
      match tag with
      | 0 =>
          if zlen data <? 33 then Err (InvalidObject "hash pack object id truncated" [])
          else hash ← slice data 1 33; Ok (Hash hash, 33)
      | 1 =>
          if zlen data <? 33 then Err (InvalidObject "state id pack object id truncated" [])
          else state_id ← slice data 1 33; Ok (StateId state_id, 33)
      | 2 =>
          if zlen data <? 33
          then Err (InvalidObject "annotated-tag pack object id truncated" [])
          else hash ← slice data 1 33; Ok (AnnotatedTagId hash, 33)
      | _ => Err (InvalidObject "unknown pack object id tag" [tag])
      end
  end.

(** [matches!(id, PackObjectId::AnnotatedTag(_))] *)
Definition is_annotated_tag (id : PackObjectId) : bool :=
  match id with AnnotatedTagId _ => true | _ => false end.

Record PackEntryHeader := {
  id : PackObjectId;
  obj_type : ObjectType;
  uncompressed_size : Z;
  compressed_size : Z;
  delta_base : option PackObjectId;
  header_len : Z
}.

Record PackObjectRecord := {
  rec_id : PackObjectId;
  rec_obj_type : ObjectType;
  rec_data : list Z;
  rec_delta_base : option PackObjectId;
  rec_path_hint : option (list Z)
}.

(** The buffer is changed even when the result is an error: the function
    returns the buffer with the result. *)
Definition encode_tagged_entry_parts (buf : list Z) (id : PackObjectId)
    (stored_type : ObjectType) (uncompressed_size : Z) (delta_base : option PackObjectId)
    (compressed : list Z) : pure (list Z * option StoreError) :=
  let buf := encode_tagged id buf in
  let encoded_type := if decide (stored_type = AnnotatedTag) then Blob else stored_type in
  buf ← encode_type_and_size encoded_type uncompressed_size buf;
  buf ← encode_varint (zlen compressed) buf;
  if decide (stored_type = Delta) then
    match delta_base with
    | None => Ok (buf, Some (InvalidObject "Delta entry missing base id" []))
    | Some base => Ok (encode_tagged base buf ++ compressed, None)
    end
  else Ok (buf ++ compressed, None).

Definition encode_tagged_entry (buf : list Z) (record : PackObjectRecord)
    (stored_type : ObjectType) (compressed : list Z) : pure (list Z * option StoreError) :=
  encode_tagged_entry_parts buf (rec_id record) stored_type (zlen (rec_data record))
    (rec_delta_base record) compressed.

Definition reject_pack_object_output_over_limit (size max : Z) : res unit :=
  if max <? size then Err (InvalidObject "Pack object output size exceeds max" [size; max])
  else Ok ().

(** [usize::try_from] of a [u64]; on the 64-bit target it always succeeds. *)
Definition checked_decoded_size (field : string) (size : Z) : res Z :=
  size ← (if size <=? USIZE_MAX then Ok size
          else Err (InvalidObject ("Decoded " +:+ field +:+ " exceeds platform limits") []));
  if decide (field = "uncompressed_size") then
    _ ← reject_pack_object_output_over_limit size MAX_PACK_OBJECT_OUTPUT_SIZE;
    Ok size
  else Ok size.

(** The tail of both header decoders. *)
Definition finish_header (id : PackObjectId) (obj_type : ObjectType)
    (uncompressed_size compressed_size : Z) (delta_base : option PackObjectId)
    (header_len : Z) : res PackEntryHeader :=
  uncompressed_size ← checked_decoded_size "uncompressed_size" uncompressed_size;
  compressed_size ← checked_decoded_size "compressed_size" compressed_size;
  Ok {| id := id; obj_type := obj_type; uncompressed_size := uncompressed_size;
        compressed_size := compressed_size; delta_base := delta_base;
        header_len := header_len |}.

(** The kind an entry has, given its id and the kind in its header. *)
Definition entry_type (id : PackObjectId) (obj_type : ObjectType) : res ObjectType :=
  if is_annotated_tag id then
    if decide (obj_type = Blob) then Ok AnnotatedTag
    else Err (InvalidObject "annotated-tag pack entry has invalid encoded type" [])
  else Ok obj_type.

Definition decode_tagged_entry_header (data : list Z) : res PackEntryHeader :=
  '(id, id_len) ← decode_tagged data;
  rest ← slice data id_len (zlen data);
  r ← lift (decode_type_and_size rest);
  '(obj_type, uncompressed_size, type_len) ←
    ok_or r (InvalidObject "Truncated type+size varint" []);
  obj_type ← entry_type id obj_type;
  let varint_start := id_len + type_len in
  rest ← slice data varint_start (zlen data);
  r ← lift (decode_varint rest);
  '(compressed_size, comp_len) ←
    ok_or r (InvalidObject "Truncated compressed_size varint" []);
  let header_len := varint_start + comp_len in
  '(delta_base, header_len) ←
    (if decide (obj_type = Delta) then
       rest ← slice data header_len (zlen data);
       '(base, base_len) ← decode_tagged rest;
       Ok (Some base, header_len + base_len)
     else Ok (None, header_len));
  finish_header id obj_type uncompressed_size compressed_size delta_base header_len.

(** The first tagged id of [try_decode_tagged_entry_header]. *)
Definition try_decode_id (data : list Z) (tag : Z) : res (option (PackObjectId * Z)) :=
  match tag with
  | 0 =>
      if zlen data <? 33 then Ok None
      else hash ← slice data 1 33; Ok (Some (Hash hash, 33))
  | 1 =>
      if zlen data <? 33 then Ok None
      else state_id ← slice data 1 33; Ok (Some (StateId state_id, 33))
  | 2 =>
      if zlen data <? 33 then Ok None
      else hash ← slice data 1 33; Ok (Some (AnnotatedTagId hash, 33))
  | _ => Err (InvalidObject "unknown pack object id tag" [tag])
  end.

(** Its delta base, at [header_len]; the tag of an annotated tag is not among
    the cases. *)
Definition try_decode_base (data : list Z) (header_len base_tag : Z)
  : res (option (PackObjectId * Z)) :=
  match base_tag with
  | 0 =>
      let stop := header_len + 33 in
      if zlen data <? stop then Ok None
      else hash ← slice data (header_len + 1) stop; Ok (Some (Hash hash, 33))
  | 1 =>
      let stop := header_len + 33 in
      if zlen data <? stop then Ok None
      else state_id ← slice data (header_len + 1) stop; Ok (Some (StateId state_id, 33))
  | _ => Err (InvalidObject "unknown pack object id tag" [base_tag])
  end.

Definition try_decode_tagged_entry_header (data : list Z) : res (option PackEntryHeader) :=
  match get data 0 with
  | None => Ok None
  | Some tag =>
      r ← try_decode_id data tag;
      match r with
      | None => Ok None
      | Some (id, id_len) =>
          rest ← slice data id_len (zlen data);
          r ← lift (decode_type_and_size rest);
          match r with
          | None => Ok None
          | Some (obj_type, uncompressed_size, type_len) =>
              obj_type ← entry_type id obj_type;
              let varint_start := id_len + type_len in
              rest ← slice data varint_start (zlen data);
              r ← lift (decode_varint rest);
              match r with
              | None => Ok None
              | Some (compressed_size, comp_len) =>
                  let header_len := varint_start + comp_len in
                  let finish delta_base header_len :=
                    header ← finish_header id obj_type uncompressed_size compressed_size
                               delta_base header_len;
                    Ok (Some header) in
                  if decide (obj_type = Delta) then
                    match get data header_len with
                    | None => Ok None
                    | Some base_tag =>
                        r ← try_decode_base data header_len base_tag;
                        match r with
                        | None => Ok None
                        | Some (base, base_len) => finish (Some base) (header_len + base_len)
                        end
                    end
                  else finish None header_len
              end
          end
      end
  end.

(** ** Container header *)
Inductive HeaderChecksum := NoChecksum | Blake3Trailer.

Record VersionedHeader := {
  magic : list Z;
  version : Z;
  checksum : HeaderChecksum;
  too_short : string;
  invalid_magic : string;
  unsupported_version : string;
  checksum_mismatch : string
}.

Record VerifiedHeader := { count : Z; vheader_len : Z; content_end : Z }.

Definition VERSIONED_HEADER_LEN : Z := 16.
Definition BLAKE3_TRAILER_LEN : Z := 32.

Record PackContainerSpec := { spec_magic : list Z; spec_version : Z }.
(** ["LMPK"], version 4 *)
Definition pack_container_spec : PackContainerSpec :=
  {| spec_magic := [76; 77; 80; 75]; spec_version := 4 |}.

Definition write_vec (h : VersionedHeader) (buf : list Z) (count : Z) : list Z :=
  ((buf ++ magic h) ++ to_be_bytes 4 (version h)) ++ to_be_bytes 8 count.

Definition trailer_len (c : HeaderChecksum) : Z :=
  match c with NoChecksum => 0 | Blake3Trailer => BLAKE3_TRAILER_LEN end.

Definition verify_layout (h : VersionedHeader) (data : list Z) : res VerifiedHeader :=
  let trailer := trailer_len (checksum h) in
  if zlen data <? VERSIONED_HEADER_LEN + trailer then Err (InvalidObject (too_short h) [])
  else
    m ← slice data 0 4;
    if decide (m ≠ magic h) then Err (InvalidObject (invalid_magic h) [])
    else
      v ← slice data 4 8;
      let version' := from_be_bytes v in
      if negb (version' =? version h)
      then Err (InvalidObject (unsupported_version h) [version'])
      else
        content_end ← usub (zlen data) trailer;
        c ← slice data 8 16;
        Ok {| count := from_be_bytes c; vheader_len := VERSIONED_HEADER_LEN;
              content_end := content_end |}.

Section checksums.
  (** [blake3::hash(data).as_bytes()] *)
  Context (blake3 : list Z → list Z).

Definition append_checksum (c : HeaderChecksum) (buf : list Z) : list Z :=
  match c with
  | NoChecksum => buf
  | Blake3Trailer => buf ++ blake3 buf
  end.

Definition verify_checksum (c : HeaderChecksum) (data : list Z) (content_end : Z)
    (mismatch : string) : res unit :=
  match c with
  | NoChecksum => Ok ()
  | Blake3Trailer =>
      content ← slice data 0 content_end;
      stored_checksum ← slice data content_end (zlen data);
      if decide (blake3 content ≠ stored_checksum) then Err (InvalidObject mismatch [])
      else Ok ()
  end.

Definition verify (h : VersionedHeader) (data : list Z) : res VerifiedHeader :=
  header ← verify_layout h data;
  _ ← verify_checksum (checksum h) data (content_end header) (checksum_mismatch h);
  Ok header.

Definition pack_container_header (spec : PackContainerSpec) : VersionedHeader :=
  {| magic := spec_magic spec; version := spec_version spec; checksum := Blake3Trailer;
     too_short := "Pack too short"; invalid_magic := "Invalid pack magic";
     unsupported_version := "Unsupported pack version";
     checksum_mismatch := "Pack checksum mismatch" |}.

Definition write_container_header (buf : list Z) (spec : PackContainerSpec) (count : Z)
  : list Z := write_vec (pack_container_header spec) buf count.

Definition verify_container (data : list Z) (spec : PackContainerSpec) : res (Z * Z * Z) :=
  header ← verify (pack_container_header spec) data;
  Ok (count header, vheader_len header, content_end header).

Definition verify_container_layout (data : list Z) (spec : PackContainerSpec)
  : res (Z * Z * Z) :=
  header ← verify_layout (pack_container_header spec) data;
  Ok (count header, vheader_len header, content_end header).

Definition append_container_checksum (buf : list Z) : list Z :=
  append_checksum Blake3Trailer buf.

(** [a || b] with a fallible right operand is evaluated only when [a] is
    false. *)
Definition verify_supported_container_with (data : list Z) (layout_only : bool)
  : res (Z * Z * Z) :=
  let current := pack_container_spec in
  let verify_current :=
    if layout_only then verify_container_layout data current
    else verify_container data current in
  wrong_magic ← (if zlen data <? 8 then Ok true
                 else m ← slice data 0 4; Ok (bool_decide (m ≠ spec_magic current)));
  if wrong_magic : bool then verify_current
  else
    v ← slice data 4 8;
    let version := from_be_bytes v in
    if spec_version current <? version then
      Err (InvalidObject "pack uses format version, but this binary supports; upgrade heddle"
             [version; spec_version current])
    else if version <? spec_version current then
      Err (InvalidObject "pack uses unsupported format version; recreate the repository" [version])
    else verify_current.

Definition verify_supported_container (data : list Z) : res (Z * Z * Z) :=
  verify_supported_container_with data false.
Definition verify_supported_container_layout (data : list Z) : res (Z * Z * Z) :=
  verify_supported_container_with data true.
End checksums.

(** ** Payloads *)
Record CompressionConfig := { enabled : bool; level : Z; min_size : Z; max_delta_size : Z }.

(** [zstd::encode_all] is [encode_all data level]. *)
Definition compress_pack_payload (encode_all : list Z → Z → option (list Z))
    (data : list Z) (config : CompressionConfig) : list Z :=
  if negb (enabled config) || (zlen data <? min_size config) then data
  else
    match encode_all data (level config) with
    | Some compressed => if zlen compressed <? zlen data then compressed else data
    | None => data
    end.

Definition initial_decompression_capacity (compressed_len expected_size max_output_size : Z) : Z :=
  let hint := if 0 <? expected_size then expected_size else saturating_mul compressed_len 2 in
  Z.min (Z.min hint PACK_DECOMPRESSION_INITIAL_CAP) max_output_size.

(** The read loop over a decoder, whose successive [read] results are the list
    [reads]: bytes, or an error.  No more reads is end of stream. *)
Fixpoint read_loop (reads : list (option (list Z))) (max_output_size : Z) (buf : list Z)
  : res (list Z) :=
  match reads with
  | [] => Ok buf
  | None :: _ => Err (InvalidObject "zstd decompression failed" [])
  | Some chunk :: reads =>
      if zlen chunk =? 0 then Ok buf
      else
        next_len ← ok_or (checked_add (zlen buf) (zlen chunk))
                     (InvalidObject "Pack object output size overflows" []);
        _ ← reject_pack_object_output_over_limit next_len max_output_size;
        read_loop reads max_output_size (buf ++ chunk)
  end.

(** [decoder data] is the result of [zstd::stream::read::Decoder::new]: the
    reads it will answer, or an error. *)
Definition decompress_pack_payload_with_limit
    (decoder : list Z → option (list (option (list Z))))
    (data : list Z) (expected_size max_output_size : Z) : res (list Z) :=
  _ ← reject_pack_object_output_over_limit expected_size max_output_size;
  reads ← ok_or (decoder data) (InvalidObject "zstd decode init failed" []);
  read_loop reads max_output_size [].

Definition decompress_pack_payload (decoder : list Z → option (list (option (list Z))))
    (data : list Z) (expected_size : Z) : res (list Z) :=
  decompress_pack_payload_with_limit decoder data expected_size MAX_PACK_OBJECT_OUTPUT_SIZE.

Definition has_zstd_magic (data : list Z) : bool :=
  (4 <=? zlen data) && bool_decide (sub_list data 0 4 = [0x28; 0xB5; 0x2F; 0xFD]).

End PackFormat.

Import PackFormat.

(** ** Ids *)
Definition id_bytes (i : PackObjectId) : list Z :=
  match i with Hash b | StateId b | AnnotatedTagId b => b end.
(** A 32-byte id. *)
Definition id_ok (i : PackObjectId) : Prop := zlen (id_bytes i) = 32 ∧ bytes_ok (id_bytes i).

Definition id_encoding (i : PackObjectId) : list Z := encode_tagged i [].

Lemma encode_tagged_app i buf : encode_tagged i buf = buf ++ id_encoding i.
Proof. destruct i; unfold id_encoding; simpl; by rewrite <- app_assoc. Qed.

Lemma zlen_id_encoding i : id_ok i → zlen (id_encoding i) = 33.
Proof. intros [H _]. destruct i; simpl in *; zlia. Qed.

Lemma id_encoding_bytes i : id_ok i → bytes_ok (id_encoding i).
Proof.
  intros [_ H]. destruct i; (constructor; [unfold is_byte; lia|done]).
Qed.

Lemma decode_id_encoding i rest :
  id_ok i → decode_tagged (id_encoding i ++ rest) = Ok (i, 33).
Proof.
  intros Hi. pose proof (zlen_id_encoding i Hi) as Hl. destruct Hi as [Hz _].
  unfold decode_tagged. destruct i as [b|b|b]; cbn [id_encoding encode_tagged app get] in *;
    change (get (?x :: ?l) 0) with (Some x); cbn [id_bytes] in Hz.
  all: rewrite (proj2 (Z.ltb_ge _ 33)) by zlia.
  all: change (?x :: b ++ rest) with ([x] ++ b ++ rest).
  all: rewrite slice_ok by zlia; rewrite (sub_list_middle [_] b rest) by zlia; done.
Qed.

Lemma decode_tagged_spec data :
  settles (decode_tagged data)
    (λ '(i, n), n = 33 ∧ 33 ≤ zlen data ∧ zlen (id_bytes i) = 32)
    (λ _, True).
Proof.
  unfold decode_tagged. destruct (get data 0) as [tag|]; [|done].
  assert (∀ c : list Z → PackObjectId, ∀ m, (∀ b, id_bytes (c b) = b) →
    settles (if zlen data <? 33 then Err (InvalidObject m [])
             else h ← slice data 1 33; Ok (c h, 33))
      (λ '(i, n), n = 33 ∧ 33 ≤ zlen data ∧ zlen (id_bytes i) = 32) (λ _, True)) as H.
  { intros c m Hc. destruct (Z.ltb_spec (zlen data) 33); [done|].
    step (slice_returns data 1 33) as ->; [lia..|]. simpl. rewrite Hc, zlen_sub_list; lia. }
  destruct tag as [|[p|[p|p|]|]|p]; try done; by apply H.
Qed.

Lemma decode_tagged_app data more r :
  decode_tagged data = Ok r → decode_tagged (data ++ more) = Ok r.
Proof.
  intros E. pose proof (decode_tagged_spec data) as Hs. rewrite E in Hs.
  destruct r as [i n], Hs as (-> & Hl & _). revert E. unfold decode_tagged.
  destruct (get data 0) as [tag|] eqn:Hg; [|done]. rewrite (get_app _ _ _ _ Hg).
  rewrite zlen_app, !(proj2 (Z.ltb_ge _ 33)) by zlia. by rewrite slice_prefix by lia.
Qed.

(** ** Sizes *)
Definition header_ok (h : PackEntryHeader) : Prop :=
  0 ≤ uncompressed_size h ≤ MAX_PACK_OBJECT_OUTPUT_SIZE ∧ is_u64 (compressed_size h).

Lemma checked_compressed n : is_u64 n → checked_decoded_size "compressed_size" n = Ok n.
Proof.
  unfold is_u64, checked_decoded_size. intros.
  by rewrite (proj2 (Z.leb_le n USIZE_MAX)) by (unfold USIZE_MAX, U64_MAX in *; lia).
Qed.

Lemma checked_uncompressed n :
  0 ≤ n ≤ MAX_PACK_OBJECT_OUTPUT_SIZE → checked_decoded_size "uncompressed_size" n = Ok n.
Proof.
  unfold MAX_PACK_OBJECT_OUTPUT_SIZE, checked_decoded_size, reject_pack_object_output_over_limit.
  intros. rewrite (proj2 (Z.leb_le n USIZE_MAX)) by (unfold USIZE_MAX; lia). cbn.
  by rewrite (proj2 (Z.ltb_ge _ n)) by (unfold MAX_PACK_OBJECT_OUTPUT_SIZE; lia).
Qed.

Lemma finish_header_spec i t u c b n :
  is_u64 u → is_u64 c →
  settles (finish_header i t u c b n)
    (λ h, h = Build_PackEntryHeader i t u c b n ∧ header_ok h)
    (λ e, e = InvalidObject "Pack object output size exceeds max" [u; MAX_PACK_OBJECT_OUTPUT_SIZE]
          ∧ MAX_PACK_OBJECT_OUTPUT_SIZE < u).
Proof.
  intros Hu Hc. unfold finish_header. destruct (Z.ltb_spec MAX_PACK_OBJECT_OUTPUT_SIZE u) as [H|H].
  - unfold checked_decoded_size. rewrite (proj2 (Z.leb_le u USIZE_MAX))
      by (unfold is_u64, USIZE_MAX, U64_MAX in *; lia). cbn.
    unfold reject_pack_object_output_over_limit. by rewrite (proj2 (Z.ltb_lt _ u)) by lia.
  - rewrite checked_uncompressed, checked_compressed by (unfold is_u64 in *; done || lia).
    cbn. split; [done|]. unfold header_ok. cbn. unfold is_u64 in *. lia.
Qed.


(** ** The header decoders on arbitrary bytes *)
Definition header_shape (data : list Z) (h : PackEntryHeader) : Prop :=
  header_ok h ∧ 33 < header_len h ≤ zlen data ∧
  (is_Some (delta_base h) ↔ obj_type h = Delta) ∧
  (obj_type h = AnnotatedTag ↔ is_annotated_tag (id h) = true).

Lemma entry_type_spec i t :
  t ≠ AnnotatedTag →
  settles (entry_type i t) (λ t', t' = AnnotatedTag ↔ is_annotated_tag i = true) (λ _, True).
Proof.
  intros. unfold entry_type. destruct (is_annotated_tag i); [|simpl; naive_solver].
  by destruct (decide (t = Blob)).
Qed.

Lemma decode_header_spec data :
  bytes_ok data → settles (decode_tagged_entry_header data) (header_shape data) (λ _, True).
Proof.
  intros Hd. unfold decode_tagged_entry_header.
  step (decode_tagged_spec data) as Hi; [|done]. destruct a as [i n], Hi as (-> & Hl & _).
  step (slice_returns data 33 (zlen data)) as ->; [lia..|].
  step (returns_lift _ _ (decode_type_and_size_bounds (sub_list data 33 (zlen data))
    ltac:(by apply Forall_sub_list))) as Hr.
  rewrite zlen_sub_list in Hr by lia. destruct a as [[[t u] tn]|]; [|done]. cbn [ok_or mbind exec_bind].
  destruct (Hr _ _ _ eq_refl) as (Htn & Hu & Ht). clear Hr.
  step (entry_type_spec i t Ht) as Ht'; [|done]. rename a into t'.
  step (slice_returns data (33 + tn) (zlen data)) as ->; [lia..|].
  step (returns_lift _ _ (decode_varint_bounds (sub_list data (33 + tn) (zlen data))
    ltac:(by apply Forall_sub_list))) as Hr.
  rewrite zlen_sub_list in Hr by lia. destruct a as [[c cn]|]; [|done]. cbn [ok_or mbind exec_bind].
  destruct (Hr _ _ eq_refl) as (Hcn & Hc). clear Hr. apply settles_bind.
  destruct (decide (t' = Delta)) as [->|Hnd].
  - step (slice_returns data (33 + tn + cn) (zlen data)) as ->; [lia..|].
    step (decode_tagged_spec (sub_list data (33 + tn + cn) (zlen data))) as Hb; [|done].
    destruct a as [b bn], Hb as (-> & Hb & _). rewrite zlen_sub_list in Hb by lia. simpl.
    eapply settles_mono; [by apply finish_header_spec| |done].
    intros h [-> Hh]. unfold header_shape. cbn. split; [done|]. split; [lia|]. split; [|done].
    by split; eauto.
  - simpl. eapply settles_mono; [by apply finish_header_spec| |done].
    intros h [-> Hh]. unfold header_shape. cbn. split; [done|]. split; [lia|]. split; [|done].
    split; [by intros [? [=]]|done].
Qed.

(** What the incremental decoder answers, against the whole-entry decoder:
    the same header, the same error, or "more data", where the other reports a
    truncation.  The exception is the tag of an annotated tag as a delta base. *)
Definition agrees (d : res PackEntryHeader) (t : res (option PackEntryHeader)) : Prop :=
  match t with
  | Ok (Some h) => d = Ok h
  | Ok None => ∃ m, d = Err (InvalidObject m [])
  | Err e => d = Err e ∨ e = InvalidObject "unknown pack object id tag" [2]
  | _ => False
  end.

Lemma try_id_agrees data tag k k' :
  get data 0 = Some tag →
  (∀ i, 33 ≤ zlen data → agrees (k (i, 33)) (k' (i, 33))) →
  agrees (x ← decode_tagged data; k x)
         (x ← try_decode_id data tag; match x with None => Ok None | Some y => k' y end).
Proof.
  intros Hg Hk. unfold decode_tagged, try_decode_id. rewrite Hg.
  assert (∀ c : list Z → PackObjectId, ∀ m,
    agrees (x ← (if zlen data <? 33 then Err (InvalidObject m [])
                 else h ← slice data 1 33; Ok (c h, 33)); k x)
           (x ← (if zlen data <? 33 then Ok None
                 else h ← slice data 1 33; Ok (Some (c h, 33)));
            match x with None => Ok None | Some y => k' y end)) as H.
  { intros c m. destruct (Z.ltb_spec (zlen data) 33); [by eexists|].
    rewrite slice_ok by lia. cbn. apply Hk. lia. }
  destruct tag as [|[p|[p|p|]|]|p]; try (by left); by apply H.
Qed.

Lemma try_base_agrees data n base_tag k k' :
  0 ≤ n → get data n = Some base_tag →
  (∀ r, agrees (k r) (k' r)) →
  agrees (rest ← slice data n (zlen data); x ← decode_tagged rest; k x)
         (x ← try_decode_base data n base_tag; match x with None => Ok None | Some y => k' y end).
Proof.
  intros Hn Hg Hk. destruct (get_Some _ _ _ Hg) as [Hr Hx].
  rewrite slice_ok by lia. cbn [mbind exec_bind]. unfold decode_tagged, try_decode_base.
  assert (get (sub_list data n (zlen data)) 0 = Some base_tag) as ->.
  { unfold get. cbn [Z.leb]. rewrite (sub_list_cons _ _ _ base_tag) by (done || lia). done. }
  assert (∀ c : list Z → PackObjectId, ∀ m,
    agrees (x ← (if zlen (sub_list data n (zlen data)) <? 33 then Err (InvalidObject m [])
                 else h ← slice (sub_list data n (zlen data)) 1 33; Ok (c h, 33)); k x)
           (x ← (if zlen data <? n + 33 then Ok None
                 else h ← slice data (n + 1) (n + 33); Ok (Some (c h, 33)));
            match x with None => Ok None | Some y => k' y end)) as H.
  { intros c m. rewrite zlen_sub_list by lia.
    destruct (Z.ltb_spec (zlen data - n) 33), (Z.ltb_spec (zlen data) (n + 33)); try lia.
    - by eexists.
    - rewrite !slice_ok by (rewrite ?zlen_sub_list; lia). cbn.
      replace (sub_list (sub_list data n (zlen data)) 1 33) with (sub_list data (n + 1) (n + 33));
        [apply Hk|].
      by rewrite sub_list_sub_list by lia. }
  destruct base_tag as [|[p|[p|p|]|]|p]; try (by left); try (by apply H).
  cbn. by right.
Qed.

Lemma finish_agrees i t u c b n :
  is_u64 u → is_u64 c →
  agrees (finish_header i t u c b n) (h ← finish_header i t u c b n; Ok (Some h)).
Proof.
  intros Hu Hc. pose proof (finish_header_spec i t u c b n Hu Hc) as H.
  destruct (finish_header i t u c b n); try done. by left.
Qed.

Lemma try_decode_agrees data :
  bytes_ok data →
  agrees (decode_tagged_entry_header data) (try_decode_tagged_entry_header data).
Proof.
  intros Hd. unfold decode_tagged_entry_header, try_decode_tagged_entry_header.
  destruct (get data 0) as [tag|] eqn:Hg.
  2:{ unfold decode_tagged. rewrite Hg. by eexists. }
  apply (try_id_agrees data tag _ _ Hg). intros i Hl.
  rewrite slice_ok by lia. cbn [mbind exec_bind].
  destruct (returns_inv _ _ (decode_type_and_size_bounds (sub_list data 33 (zlen data))
    ltac:(by apply Forall_sub_list))) as (r & -> & Hr). rewrite zlen_sub_list in Hr by lia.
  cbn [lift mbind exec_bind ok_or]. destruct r as [[[t u] tn]|]; [|by eexists].
  destruct (Hr _ _ _ eq_refl) as (Htn & Hu & _). cbn [ok_or mbind exec_bind].
  destruct (entry_type i t) as [t'| | |] eqn:Ht; cbn [mbind exec_bind]; [|by left|..];
    [|by unfold entry_type in Ht; repeat case_match..].
  rewrite slice_ok by lia. cbn [mbind exec_bind].
  destruct (returns_inv _ _ (decode_varint_bounds (sub_list data (33 + tn) (zlen data))
    ltac:(by apply Forall_sub_list))) as (r & -> & Hr'). rewrite zlen_sub_list in Hr' by lia.
  cbn [lift mbind exec_bind ok_or]. destruct r as [[c cn]|]; [|by eexists].
  destruct (Hr' _ _ eq_refl) as (Hcn & Hc). cbn [ok_or mbind exec_bind].
  destruct (decide (t' = Delta)) as [->|_]; [|by apply finish_agrees].
  destruct (get data (33 + tn + cn)) as [bt|] eqn:Hb.
  - pose proof (try_base_agrees data (33 + tn + cn) bt
      (λ '(base, base_len), finish_header i Delta u c (Some base) (33 + tn + cn + base_len))
      (λ '(base, base_len), h ← finish_header i Delta u c (Some base) (33 + tn + cn + base_len);
         Ok (Some h)) ltac:(lia) Hb
      ltac:(by intros [base bl]; apply finish_agrees)) as H.
    rewrite slice_ok in * by lia. cbn [mbind exec_bind] in *.
    destruct (decode_tagged _) as [[base bl]| | |]; cbn [mbind exec_bind] in *;
      (destruct (try_decode_base _ _ _) as [[[base' bl']|]| | |]; cbn [mbind exec_bind] in *; exact H).
  - apply get_None in Hb; [|lia]. rewrite slice_ok by lia. cbn [mbind exec_bind].
    replace (33 + tn + cn) with (zlen data) by lia. rewrite sub_list_nil. by eexists.
Qed.

(** ** Incremental decoding

    [grows r r']: a decoder that answered [r] answers [r'] on more data. *)
Definition grows {A} (r r' : res (option A)) : Prop := r = Ok None ∨ r' = r.

Lemma grows_bind {A B} (m m' : res (option B)) (k k' : B → res (option A)) :
  grows m m' → (∀ b, m = Ok (Some b) → grows (k b) (k' b)) →
  grows (x ← m; match x with None => Ok None | Some y => k y end)
        (x ← m'; match x with None => Ok None | Some y => k' y end).
Proof.
  intros [->| ->] Hk; [by left|]. destruct m as [[b|]| | |]; cbn; try (by right). by apply Hk.
Qed.

Lemma grows_lift {A} (m m' : pure (option A)) :
  returns m (λ _, True) → (∀ r, m = Ok (Some r) → m' = Ok (Some r)) →
  grows (lift m) (lift m').
Proof.
  intros (r & -> & _)%returns_inv H. destruct r as [r|]; [|by left]. right. by rewrite (H r).
Qed.

Lemma try_id_grows data more tag : grows (try_decode_id data tag) (try_decode_id (data ++ more) tag).
Proof.
  unfold try_decode_id.
  assert (∀ c : list Z → PackObjectId,
    grows (if zlen data <? 33 then Ok None else h ← slice data 1 33; Ok (Some (c h, 33)))
          (if zlen (data ++ more) <? 33 then Ok None
           else h ← slice (data ++ more) 1 33; Ok (Some (c h, 33)))) as H.
  { intros c. destruct (Z.ltb_spec (zlen data) 33); [by left|].
    rewrite (proj2 (Z.ltb_ge (zlen (data ++ more)) 33)) by zlia. rewrite slice_prefix by lia.
    by right. }
  destruct tag as [|[p|[p|p|]|]|p]; try (by right); by apply H.
Qed.

Lemma try_id_inv data tag i n : try_decode_id data tag = Ok (Some (i, n)) → n = 33 ∧ 33 ≤ zlen data.
Proof.
  unfold try_decode_id.
  assert (∀ c : list Z → PackObjectId,
    (if zlen data <? 33 then Ok None else h ← slice (E:=StoreError) data 1 33; Ok (Some (c h, 33)))
    = Ok (Some (i, n)) → n = 33 ∧ 33 ≤ zlen data) as H.
  { intros c. destruct (Z.ltb_spec (zlen data) 33); [done|]. rewrite slice_ok by lia. cbn.
    intros. by simplify_eq. }
  destruct tag as [|[p|[p|p|]|]|p]; try done; by apply H.
Qed.

Lemma try_base_grows data more n tag :
  0 ≤ n → grows (try_decode_base data n tag) (try_decode_base (data ++ more) n tag).
Proof.
  intros Hn. unfold try_decode_base.
  assert (∀ c : list Z → PackObjectId,
    grows (if zlen data <? n + 33 then Ok None
           else h ← slice data (n + 1) (n + 33); Ok (Some (c h, 33)))
          (if zlen (data ++ more) <? n + 33 then Ok None
           else h ← slice (data ++ more) (n + 1) (n + 33); Ok (Some (c h, 33)))) as H.
  { intros c. destruct (Z.ltb_spec (zlen data) (n + 33)); [by left|].
    rewrite (proj2 (Z.ltb_ge (zlen (data ++ more)) (n + 33))) by zlia.
    rewrite slice_prefix by lia. by right. }
  destruct tag as [|[p|p|]|p]; try (by right); by apply H.
Qed.

Lemma try_decode_grows data more :
  bytes_ok data →
  grows (try_decode_tagged_entry_header data) (try_decode_tagged_entry_header (data ++ more)).
Proof.
  intros Hd. unfold try_decode_tagged_entry_header.
  destruct (get data 0) as [tag|] eqn:Hg; [|by left]. rewrite (get_app _ _ _ _ Hg).
  apply grows_bind; [apply try_id_grows|]. intros [i n] [-> Hl]%try_id_inv.
  destruct (slice_tail (E:=StoreError) data more 33) as (rest & -> & -> & Hz & Hdat); [lia|].
  assert (bytes_ok rest) as Hb by (rewrite Hdat in Hd; by apply Forall_app in Hd as [_ ?]).
  pose proof (decode_type_and_size_bounds rest Hb) as Hr. cbn [mbind exec_bind].
  apply grows_bind.
  { apply grows_lift; [by eapply returns_mono|]. intros r. apply decode_type_and_size_app. }
  intros [[t u] tn] Ht. apply returns_inv in Hr as (r & Er & Hr). rewrite Er in Ht.
  cbn in Ht. simplify_eq. destruct (Hr _ _ _ eq_refl) as (Htn & _).
  destruct (entry_type i t) as [t'| | |]; cbn [mbind exec_bind]; try (by right).
  destruct (slice_tail (E:=StoreError) data more (33 + tn)) as (rest' & -> & -> & Hz' & Hdat'); [lia|].
  assert (bytes_ok rest') as Hb' by (rewrite Hdat' in Hd; by apply Forall_app in Hd as [_ ?]).
  pose proof (decode_varint_bounds rest' Hb') as Hr'. cbn [mbind exec_bind].
  apply grows_bind.
  { apply grows_lift; [by eapply returns_mono|]. intros r. apply decode_varint_app. }
  intros [c cn] Hc. apply returns_inv in Hr' as (r & Er' & Hr'). rewrite Er' in Hc.
  cbn in Hc. simplify_eq. destruct (Hr' _ _ eq_refl) as (Hcn & _).
  destruct (decide (t' = Delta)); [|by right].
  destruct (get data (33 + tn + cn)) as [bt|] eqn:Hbt; [|by left].
  rewrite (get_app _ _ _ _ Hbt).
  apply grows_bind; [apply try_base_grows; lia|]. intros [base bl] _. by right.
Qed.

(** ** Entries *)
(** The bytes of an entry before its payload. *)
Definition entry_header_bytes (i : PackObjectId) (t : ObjectType) (size : Z)
    (base : option PackObjectId) (csize : Z) : list Z :=
  id_encoding i ++ header_bytes (if decide (t = AnnotatedTag) then Blob else t) size
  ++ varint_bytes csize ++ (if decide (t = Delta) then from_option id_encoding [] base else []).

(** An entry that the format can carry: annotated tags are stored under
    annotated-tag ids and nothing else is, and exactly the deltas have a base. *)
Definition entry_ok (i : PackObjectId) (t : ObjectType) (base : option PackObjectId) : Prop :=
  id_ok i ∧ (t = AnnotatedTag ↔ is_annotated_tag i = true) ∧
  (is_Some base ↔ t = Delta) ∧ from_option id_ok True base.

Lemma encode_entry_bytes buf i t size base compressed :
  is_u64 size → is_u64 (zlen compressed) → (t = Delta → is_Some base) →
  encode_tagged_entry_parts buf i t size base compressed
  = Ok (buf ++ entry_header_bytes i t size base (zlen compressed) ++ compressed, None).
Proof.
  intros Hs Hc Hb. unfold encode_tagged_entry_parts, entry_header_bytes.
  rewrite encode_tagged_app, encode_type_and_size_bytes by done. cbn [mbind exec_bind].
  rewrite encode_varint_bytes by done. cbn [mbind exec_bind].
  destruct (decide (t = Delta)) as [->|].
  - destruct (Hb eq_refl) as [b ->]. rewrite encode_tagged_app. cbn [from_option].
    by rewrite <- !app_assoc.
  - by rewrite <- !app_assoc, app_nil_l.
Qed.

Lemma decode_entry_bytes i t size base csize rest :
  entry_ok i t base → 0 ≤ size ≤ MAX_PACK_OBJECT_OUTPUT_SIZE → is_u64 csize → bytes_ok rest →
  decode_tagged_entry_header (entry_header_bytes i t size base csize ++ rest)
  = Ok {| id := i; obj_type := t; uncompressed_size := size; compressed_size := csize;
          delta_base := base; header_len := zlen (entry_header_bytes i t size base csize) |}.
Proof.
  intros (Hi & Hti & Hb & Hbi) Hs Hc Hr. unfold decode_tagged_entry_header, entry_header_bytes.
  set (bt := if decide (t = Delta) then from_option id_encoding [] base else []).
  set (te := if decide (t = AnnotatedTag) then Blob else t).
  assert (is_u64 size) as Hsz by (unfold is_u64, U64_MAX, MAX_PACK_OBJECT_OUTPUT_SIZE in *; lia).
  assert (bytes_ok bt) as Hbt.
  { unfold bt. destruct (decide _); [|constructor]. destruct base; [|constructor].
    by apply id_encoding_bytes. }
  pose proof (zlen_id_encoding i Hi) as Hzi.
  rewrite <- !app_assoc, decode_id_encoding by done. cbn [mbind exec_bind].
  rewrite slice_suffix by lia. cbn [mbind exec_bind].
  rewrite decode_encoded_header; [|unfold te; by case_decide|done|].
  2:{ apply Forall_app. split; [|apply Forall_app; by split].
      by eapply varint_of_bytes, varint_bytes_of. }
  cbn [lift mbind exec_bind ok_or].
  assert (entry_type i te = Ok t) as ->.
  { unfold entry_type, te. destruct (decide (t = AnnotatedTag)) as [->|Ht].
    - by rewrite (proj1 Hti eq_refl).
    - destruct (is_annotated_tag i); [by exfalso; apply Ht, Hti|done]. }
  cbn [mbind exec_bind]. rewrite (app_assoc (id_encoding i)), slice_suffix by zlia.
  cbn [mbind exec_bind]. rewrite decode_encoded_varint by (done || (apply Forall_app; by split)).
  cbn [lift mbind exec_bind ok_or]. 
  assert (finish_header i t size csize base
            (33 + zlen (header_bytes te size) + zlen (varint_bytes csize) + zlen bt)
    = Ok {| id := i; obj_type := t; uncompressed_size := size; compressed_size := csize;
          delta_base := base; header_len :=
            zlen (id_encoding i ++ header_bytes te size ++ varint_bytes csize ++ bt) |}) as Hfin.
  { unfold finish_header. rewrite checked_uncompressed, checked_compressed by done. cbn.
    do 2 f_equal. zlia. }
  unfold bt in *. destruct (decide (t = Delta)) as [Ht|Ht].
  - destruct (proj2 Hb Ht) as [b ->]. cbn [from_option] in *.
    rewrite (app_assoc _ (varint_bytes csize)), slice_suffix by zlia. cbn [mbind exec_bind].
    rewrite decode_id_encoding by done. cbn [mbind exec_bind].
    rewrite (zlen_id_encoding b) in Hfin by done. exact Hfin.
  - assert (base = None) as ->.
    { destruct base; [|done]. exfalso. apply Ht, Hb. eauto. }
    cbn [mbind exec_bind]. rewrite zlen_nil, Z.add_0_r in Hfin. exact Hfin.
Qed.

(** ** Containers *)
Definition spec_ok (spec : PackContainerSpec) : Prop :=
  zlen (spec_magic spec) = 4 ∧ 0 ≤ spec_version spec < 2 ^ 32.

(** The 16 bytes of a container header. *)
Lemma write_container_header_bytes spec n :
  write_container_header [] spec n
  = spec_magic spec ++ to_be_bytes 4 (spec_version spec) ++ to_be_bytes 8 n.
Proof. unfold write_container_header, write_vec. simpl. by rewrite <- app_assoc. Qed.

Lemma zlen_container_header spec n :
  spec_ok spec → zlen (write_container_header [] spec n) = 16.
Proof.
  intros [Hm _]. rewrite write_container_header_bytes.
  rewrite !zlen_app, !zlen_to_be_bytes. lia.
Qed.

(** The layout check on well-formed and on arbitrary bytes. *)
Lemma verify_layout_spec spec data :
  spec_ok spec → bytes_ok data →
  settles (verify_layout (pack_container_header spec) data)
    (λ h, ∃ body, data = write_container_header [] spec (count h) ++ body ∧
       is_u64 (count h) ∧ vheader_len h = 16 ∧ content_end h = zlen data - 32 ∧ 32 ≤ zlen body)
    (λ _, ∀ n body, is_u64 n → 32 ≤ zlen body →
       data ≠ write_container_header [] spec n ++ body).
Proof.
  intros Hs Hd. pose proof Hs as [Hm Hv]. unfold verify_layout.
  cbn [checksum pack_container_header trailer_len magic version too_short invalid_magic unsupported_version].
  change (VERSIONED_HEADER_LEN + BLAKE3_TRAILER_LEN) with 48.
  destruct (Z.ltb_spec (zlen data) 48) as [Hl|Hl].
  { intros n body _ Hb ->. rewrite zlen_app, zlen_container_header in Hl by done. lia. }
  assert (∀ n body, data = write_container_header [] spec n ++ body →
    sub_list data 0 4 = spec_magic spec ∧ sub_list data 4 8 = to_be_bytes 4 (spec_version spec)
    ∧ sub_list data 8 16 = to_be_bytes 8 n) as Hparts.
  { intros n body ->. rewrite write_container_header_bytes, <- !app_assoc. split; [|split].
    - apply (sub_list_middle []); zlia.
    - apply sub_list_middle; rewrite ?zlen_to_be_bytes; lia.
    - rewrite (app_assoc (spec_magic spec)).
      apply sub_list_middle; rewrite ?zlen_app, ?zlen_to_be_bytes; lia. }
  rewrite (slice_ok data 0 4) by lia. cbn [mbind exec_bind].
  destruct (decide (sub_list data 0 4 ≠ spec_magic spec)) as [Hne|Heq].
  { intros n body _ _ E. by destruct (Hparts n body E). }
  apply dec_stable in Heq. rewrite (slice_ok data 4 8) by lia. cbn [mbind exec_bind].
  pose proof (to_from_be_bytes 4 (sub_list data 4 8) ltac:(by apply Forall_sub_list)
    ltac:(rewrite zlen_sub_list; lia)) as Hv4.
  destruct (Z.eqb_spec (from_be_bytes (sub_list data 4 8)) (spec_version spec)) as [E|E]; cbn [negb].
  2:{ intros n body _ _ En. destruct (Hparts n body En) as (_ & E' & _). apply E. rewrite E'.
      apply from_to_be_bytes_small. change (256 ^ Z.of_nat 4) with (2 ^ 32). lia. }
  step (usub_returns (E:=StoreError) (zlen data) BLAKE3_TRAILER_LEN) as ->;
    [unfold BLAKE3_TRAILER_LEN; lia|].
  rewrite (slice_ok data 8 16) by lia. cbn [mbind exec_bind settles count vheader_len content_end].
  exists (sub_list data 16 (zlen data)). rewrite zlen_sub_list by lia.
  pose proof (to_from_be_bytes 8 (sub_list data 8 16) ltac:(by apply Forall_sub_list)
    ltac:(rewrite zlen_sub_list; lia)) as Hc8.
  pose proof (from_be_bytes_bound (sub_list data 8 16) ltac:(by apply Forall_sub_list)) as Hc.
  rewrite zlen_sub_list in Hc by lia. change (256 ^ (16 - 8)) with 18446744073709551616 in Hc.
  split.
  - rewrite write_container_header_bytes, Hc8, <- E, Hv4, <- Heq, <- !app_assoc.
    rewrite !sub_list_app by lia. by rewrite sub_list_full.
  - unfold is_u64, U64_MAX, BLAKE3_TRAILER_LEN. split; [lia|]. split; [done|]. lia.
Qed.

Section checked.
  Context (blake3 : list Z → list Z).
  Hypothesis blake3_len : ∀ x, zlen (blake3 x) = 32.

Lemma verify_container_spec spec data :
  spec_ok spec → bytes_ok data →
  settles (verify_container blake3 data spec)
    (λ '(n, hl, stop), is_u64 n ∧ hl = 16 ∧ ∃ body,
       let content := write_container_header [] spec n ++ body in
       data = append_container_checksum blake3 content ∧ stop = zlen content)
    (λ _, ∀ n body, is_u64 n →
       data ≠ append_container_checksum blake3 (write_container_header [] spec n ++ body)).
Proof.
  intros Hs Hd. unfold verify_container, verify.
  destruct (verify_layout (pack_container_header spec) data) as [h|e| |] eqn:E;
    pose proof (verify_layout_spec spec data Hs Hd) as Hl; rewrite E in Hl; try done.
  2:{ cbn. intros n body Hn Eb. apply (Hl n (body ++ blake3 (write_container_header [] spec n ++ body))).
      - done.
      - pose proof (blake3_len (write_container_header [] spec n ++ body)). zlia.
      - rewrite Eb. unfold append_container_checksum, append_checksum. by rewrite <- app_assoc. }
  destruct Hl as (body & Hdat & Hn & Hhl & Hce & Hb). cbn [mbind exec_bind].
  assert (zlen data = 16 + zlen body) as Hz
    by (rewrite Hdat at 1; rewrite zlen_app, zlen_container_header by done; lia).
  unfold verify_checksum. cbn [checksum pack_container_header]. rewrite Hce.
  rewrite (slice_ok data 0) by lia. cbn [mbind exec_bind].
  rewrite (slice_ok data (zlen data - 32)) by lia. cbn [mbind exec_bind].
  pose proof (sub_list_app data 0 (zlen data - 32) (zlen data) ltac:(lia) ltac:(lia)) as Hsplit.
  rewrite sub_list_full in Hsplit.
  destruct (decide (blake3 (sub_list data 0 (zlen data - 32)) ≠ sub_list data (zlen data - 32) (zlen data)))
    as [Hne|Heq]; cbn [mbind exec_bind settles].
  - intros n body' _ Eb. apply Hne. unfold append_container_checksum, append_checksum in Eb.
    set (content := write_container_header [] spec n ++ body') in *.
    assert (zlen data = zlen content + 32) as Hzc by (rewrite Eb, zlen_app, blake3_len; lia).
    assert (sub_list data 0 (zlen data - 32) = content) as ->.
    { rewrite Hzc, Eb. apply (sub_list_middle []); zlia. }
    rewrite Hzc, Eb. rewrite <- (app_nil_r (content ++ _)), <- app_assoc. symmetry.
    apply sub_list_middle; [lia|]. rewrite blake3_len. lia.
  - apply dec_stable in Heq. split; [done|]. split; [done|].
    exists (sub_list data 16 (zlen data - 32)).
    assert (write_container_header [] spec (count h) ++ sub_list data 16 (zlen data - 32)
            = sub_list data 0 (zlen data - 32)) as ->.
    { rewrite <- (sub_list_app data 0 16) by lia. f_equal. rewrite Hdat.
      symmetry. apply (sub_list_middle []); [done|].
      rewrite zlen_container_header by done. done. }
    unfold append_container_checksum, append_checksum. rewrite Heq.
    split; [done|]. rewrite zlen_sub_list; lia.
Qed.
End checked.

(** ** Payloads *)
Lemma read_loop_spec reads max buf :
  max ≤ USIZE_MAX → zlen buf ≤ max →
  settles (read_loop reads max buf)
    (λ out, zlen out ≤ max ∧ ∃ n, out = buf ++ concat (omap (λ r, r) (take n reads)) ∧
       ∀ r, reads !! n = Some r → r = Some [])
    (λ _, True).
Proof.
  intros Hm. revert buf. induction reads as [|[chunk|] reads IH]; intros buf Hb; cbn [read_loop].
  - split; [done|]. exists 0%nat. by rewrite app_nil_r.
  - destruct (Z.eqb_spec (zlen chunk) 0) as [Hz|Hz].
    { split; [done|]. exists 0%nat. apply zlen_0_nil in Hz as ->. rewrite app_nil_r.
      split; [done|]. by intros r [= <-]. }
    unfold checked_add, reject_pack_object_output_over_limit.
    destruct (Z.leb_spec (zlen buf + zlen chunk) USIZE_MAX); [|done]. cbn.
    destruct (Z.ltb_spec max (zlen buf + zlen chunk)); [done|]. cbn.
    eapply settles_mono; [apply IH; zlia| |done]. cbv beta.
    intros out (Ho & n & -> & Hn). split; [done|]. exists (S n). cbn.
    by rewrite <- app_assoc.
  - done.
Qed.

(** * Properties *)

(** Pack entries round trip: the encoder appends a header and the payload
    for every entry the format can carry (and writes no error), and on that
    header, whatever bytes follow, the decoder gives back the id, the kind, both
    sizes, the delta base and the exact length of the header, so that the
    payload starts right after it. *)
Theorem entry_roundtrip buf i t size base compressed rest :
  entry_ok i t base → 0 ≤ size ≤ MAX_PACK_OBJECT_OUTPUT_SIZE →
  is_u64 (zlen compressed) → bytes_ok compressed → bytes_ok rest →
  ∃ header,
    encode_tagged_entry_parts buf i t size base compressed
    = Ok (buf ++ header ++ compressed, None) ∧
    decode_tagged_entry_header (header ++ compressed ++ rest)
    = Ok {| id := i; obj_type := t; uncompressed_size := size;
            compressed_size := zlen compressed; delta_base := base;
            header_len := zlen header |}.
Proof.
  intros He Hs Hc Hcb Hr. exists (entry_header_bytes i t size base (zlen compressed)). split.
  - apply encode_entry_bytes; [|done|].
    + unfold is_u64, U64_MAX, MAX_PACK_OBJECT_OUTPUT_SIZE in *. lia.
    + intros Ht. by apply He.
  - apply decode_entry_bytes; try done. by apply Forall_app.
Qed.
Lemma entry_roundtrip_witness :
  ∃ header,
    encode_tagged_entry_parts [9] (Hash (replicate 32 1)) Delta 5 (Some (StateId (replicate 32 2))) [7; 8]
    = Ok ([9] ++ header ++ [7; 8], None) ∧
    decode_tagged_entry_header (header ++ [7; 8] ++ [3])
    = Ok {| id := Hash (replicate 32 1); obj_type := Delta; uncompressed_size := 5;
            compressed_size := zlen [7; 8]; delta_base := Some (StateId (replicate 32 2));
            header_len := zlen header |}.
Proof.
  assert (∀ x, is_byte x → bytes_ok (replicate 32 x)) as H32
    by (intros; by apply Forall_replicate).
  apply entry_roundtrip; unfold entry_ok, id_ok, is_u64, U64_MAX, MAX_PACK_OBJECT_OUTPUT_SIZE.
  - split; [split; [done|apply H32; unfold is_byte; lia]|]. split; [done|].
    split; [by split; eauto|]. split; [done|apply H32; unfold is_byte; lia].
  - lia.
  - unfold zlen; simpl; lia.
  - repeat constructor; unfold is_byte; lia.
  - repeat constructor; unfold is_byte; lia.
Defined.

(** The header decoder is safe on arbitrary bytes: it neither panics nor runs
    out of fuel, and a header it accepts lies within the data, declares at most
    1 GiB of output, has a delta base exactly when it is a delta, and has the
    annotated-tag kind exactly under an annotated-tag id. *)
Theorem decode_header_safe data :
  bytes_ok data → settles (decode_tagged_entry_header data) (header_shape data) (λ _, True).
Proof. apply decode_header_spec. Qed.
Lemma decode_header_safe_witness :
  settles (decode_tagged_entry_header [0; 1; 2]) (header_shape [0; 1; 2]) (λ _, True).
Proof. apply decode_header_safe. repeat constructor; unfold is_byte; lia. Defined.

(** The incremental decoder refines the whole-entry decoder: on every prefix
    of a stream it gives the header that [decode_tagged_entry_header] gives, or
    the same error, or asks for more data exactly where the other reports a
    truncation; and a header or an error it has given is never revised by the
    bytes that follow.  The one exception to the agreement is the id tag 2 of a
    delta base, which only the whole-entry decoder accepts. *)
Theorem try_decode_refines data more :
  bytes_ok data →
  agrees (decode_tagged_entry_header data) (try_decode_tagged_entry_header data) ∧
  grows (try_decode_tagged_entry_header data) (try_decode_tagged_entry_header (data ++ more)).
Proof. intros. split; [by apply try_decode_agrees|by apply try_decode_grows]. Qed.
Lemma try_decode_refines_witness :
  agrees (decode_tagged_entry_header [0; 5]) (try_decode_tagged_entry_header [0; 5]) ∧
  grows (try_decode_tagged_entry_header [0; 5]) (try_decode_tagged_entry_header ([0; 5] ++ [6])).
Proof. apply try_decode_refines. repeat constructor; unfold is_byte; lia. Defined.

(** A delta whose base is an annotated tag: written by the encoder, read by one
    decoder, refused by the other. *)
Definition tag_base_entry : list Z :=
  entry_header_bytes (Hash (replicate 32 1)) Delta 5 (Some (AnnotatedTagId (replicate 32 2))) 2.

(** The two header decoders differ on a delta whose base is an annotated tag:
    the encoder writes such an entry, [decode_tagged_entry_header] reads it back,
    and [try_decode_tagged_entry_header] rejects it as an unknown id tag. *)
Theorem try_decode_rejects_tag_base :
  encode_tagged_entry_parts [] (Hash (replicate 32 1)) Delta 5
    (Some (AnnotatedTagId (replicate 32 2))) [7; 8] = Ok (tag_base_entry ++ [7; 8], None) ∧
  (∃ h, decode_tagged_entry_header tag_base_entry = Ok h ∧
        delta_base h = Some (AnnotatedTagId (replicate 32 2))) ∧
  try_decode_tagged_entry_header tag_base_entry
  = Err (InvalidObject "unknown pack object id tag" [2]).
Proof.
  split; [vm_compute; reflexivity|]. split; [|vm_compute; reflexivity].
  eexists. split; vm_compute; reflexivity.
Qed.

(** Container verification is exact: for any digest of 32 bytes and any data,
    [verify_container] succeeds with a count and a content end exactly when the
    data is a container header with that count, a body, and the digest of the
    two as trailer, the content ending before the trailer; it never panics. *)
Theorem verify_container_exact blake3 spec data :
  (∀ x, zlen (blake3 x) = 32) → spec_ok spec → bytes_ok data →
  settles (verify_container blake3 data spec)
    (λ '(n, hl, stop), is_u64 n ∧ hl = 16 ∧ ∃ body,
       let content := write_container_header [] spec n ++ body in
       data = append_container_checksum blake3 content ∧ stop = zlen content)
    (λ _, ∀ n body, is_u64 n →
       data ≠ append_container_checksum blake3 (write_container_header [] spec n ++ body)).
Proof. intros. by apply verify_container_spec. Qed.
Lemma verify_container_exact_witness :
  let blake3 := λ x : list Z, replicate 32 (zlen x `mod` 256) in
  let data := append_container_checksum blake3
                (write_container_header [] pack_container_spec 3 ++ [1; 2]) in
  settles (verify_container blake3 data pack_container_spec)
    (λ '(n, hl, stop), is_u64 n ∧ hl = 16 ∧ ∃ body,
       let content := write_container_header [] pack_container_spec n ++ body in
       data = append_container_checksum blake3 content ∧ stop = zlen content)
    (λ _, ∀ n body, is_u64 n →
       data ≠ append_container_checksum blake3 (write_container_header [] pack_container_spec n ++ body)).
Proof.
  apply verify_container_exact; [done|done|].
  vm_compute. repeat constructor; try (intros [=]).
Defined.

(** Decompression is bounded: whatever the zstd decoder answers, the output
    never exceeds the limit; when the loop ends well the output is the
    concatenation of what was read up to the end of the stream. *)
Theorem decompress_bounded decoder data expected_size max_output_size :
  0 ≤ max_output_size ≤ USIZE_MAX →
  settles (decompress_pack_payload_with_limit decoder data expected_size max_output_size)
    (λ out, zlen out ≤ max_output_size ∧ expected_size ≤ max_output_size ∧
       ∃ reads n, decoder data = Some reads ∧ out = concat (omap (λ r, r) (take n reads)) ∧
         ∀ r, reads !! n = Some r → r = Some [])
    (λ _, True).
Proof.
  intros Hm. unfold decompress_pack_payload_with_limit, reject_pack_object_output_over_limit.
  destruct (Z.ltb_spec max_output_size expected_size); [done|]. cbn [mbind exec_bind].
  destruct (decoder data) as [reads|] eqn:Hr; [|done]. cbn [ok_or mbind exec_bind].
  eapply settles_mono; [apply (read_loop_spec reads max_output_size []); zlia| |done].
  cbv beta. intros out (Ho & n & -> & Hn). split; [done|]. split; [done|]. by exists reads, n.
Qed.
Lemma decompress_bounded_witness :
  let decoder := λ data : list Z, Some [Some data; Some [4]; Some []; None] in
  settles (decompress_pack_payload_with_limit decoder [1; 2] 3 10)
    (λ out, zlen out ≤ 10 ∧ 3 ≤ 10 ∧
       ∃ reads n, decoder [1; 2] = Some reads ∧ out = concat (omap (λ r, r) (take n reads)) ∧
         ∀ r, reads !! n = Some r → r = Some [])
    (λ _, True).
Proof. apply decompress_bounded. unfold USIZE_MAX. lia. Defined.
