(* ===== verification/PackIndex.v ===== *)
(** * The pack index ([crates/pack/src/store/pack/pack_index.rs])

    Module [PackIndex] models the sorted table from object ids to pack offsets:
    the 40-byte entries whose two top offset bits carry the id kind, the
    serialised form, the validation of an index read from disk, and the binary
    search over the encoded bytes. *)

From S2P Require Import Prelude Varint PackFormat.
Import PackFormat.

Module PackIndex.

(** ["LMI\0"] *)
Definition INDEX_MAGIC : list Z := [76; 77; 73; 0].
Definition INDEX_VERSION : Z := 4.
Definition INDEX_ENTRY_LEN : Z := 32 + 8.
Definition STATE_ID_OFFSET_TAG : Z := Z.shiftl 1 63.
Definition ANNOTATED_TAG_OFFSET_TAG : Z := Z.shiftl 1 62.
(** [!(STATE_ID_OFFSET_TAG | ANNOTATED_TAG_OFFSET_TAG)] on [u64] *)
Definition PACK_OFFSET_MASK : Z :=
  Z.lxor U64_MAX (Z.lor STATE_ID_OFFSET_TAG ANNOTATED_TAG_OFFSET_TAG).

Record IndexEntry := { entry_id : PackObjectId; offset : Z }.
Record EncodedIndex := { data : list Z; entries_start : Z; enc_count : Z }.
Record PackIndex := { entries : list IndexEntry; encoded : option EncodedIndex }.

(** The derived order of [PackObjectId]: the variant, then the bytes. *)
Definition id_tag (i : PackObjectId) : Z :=
  match i with Hash _ => 0 | StateId _ => 1 | AnnotatedTagId _ => 2 end.
Definition compare_id (a b : PackObjectId) : comparison :=
  match id_tag a ?= id_tag b with
  | Eq => compare_bytes (id_bytes a) (id_bytes b)
  | c => c
  end.
Definition id_le (a b : PackObjectId) : Prop := compare_id a b ≠ Gt.
#[global] Instance id_le_dec : RelDecision id_le.
Proof. intros a b. unfold id_le. apply _. Defined.

Definition new : PackIndex := {| entries := []; encoded := None |}.

Definition add (ix : PackIndex) (i : PackObjectId) (offset : Z) : PackIndex :=
  {| entries := entries ix ++ [{| entry_id := i; offset := offset |}]; encoded := encoded ix |}.

(** [sort_by_key] is stable, as [merge_sort] is. *)
Definition entry_le (a b : IndexEntry) : Prop := id_le (entry_id a) (entry_id b).
#[global] Instance entry_le_dec : RelDecision entry_le.
Proof. intros a b. unfold entry_le. apply _. Defined.
Definition sort (ix : PackIndex) : PackIndex :=
  {| entries := merge_sort entry_le (entries ix); encoded := encoded ix |}.

Definition index_header : VersionedHeader :=
  {| magic := INDEX_MAGIC; version := INDEX_VERSION; checksum := NoChecksum;
     too_short := "Index too short"; invalid_magic := "Invalid index magic";
     unsupported_version := "Unsupported index version"; checksum_mismatch := "" |}.

(** The assertion panics on an offset over 62 bits. *)
Definition encode_index_entry (i : PackObjectId) (offset : Z) : pure (list Z) :=
  if offset <=? PACK_OFFSET_MASK then
    let tagged_offset :=
      match i with
      | Hash _ => offset
      | StateId _ => Z.lor offset STATE_ID_OFFSET_TAG
      | AnnotatedTagId _ => Z.lor offset ANNOTATED_TAG_OFFSET_TAG
      end in
    Ok (id_bytes i ++ to_be_bytes 8 tagged_offset)
  else Panic.

Definition decode_index_entry (bytes : list Z) : res IndexEntry :=
  raw_id ← slice bytes 0 32;
  tail ← slice bytes 32 (zlen bytes);
  let tagged_offset := from_be_bytes tail in
  let i :=
    if negb (Z.land tagged_offset STATE_ID_OFFSET_TAG =? 0) then StateId raw_id
    else if negb (Z.land tagged_offset ANNOTATED_TAG_OFFSET_TAG =? 0) then AnnotatedTagId raw_id
    else Hash raw_id in
  Ok {| entry_id := i; offset := Z.land tagged_offset PACK_OFFSET_MASK |}.

(** [EncodedIndex::entry] *)
Definition encoded_entry (e : EncodedIndex) (index : Z) : res IndexEntry :=
  let start := entries_start e + index * INDEX_ENTRY_LEN in
  let stop := start + INDEX_ENTRY_LEN in
  bytes ← ok_or (get_range (data e) start stop) (InvalidObject "Index data truncated" []);
  decode_index_entry bytes.

(** [PackIndex::entry] *)
Definition entry (ix : PackIndex) (index : Z) : res IndexEntry :=
  match encoded ix with
  | Some e => encoded_entry e index
  | None => ok_or (get (entries ix) index) (InvalidObject "index entry out of range" [])
  end.

Definition len (ix : PackIndex) : Z :=
  match encoded ix with Some e => enc_count e | None => zlen (entries ix) end.
Definition is_empty (ix : PackIndex) : bool := len ix =? 0.

(** Collecting a fallible iterator stops at the first error. *)
Fixpoint try_collect {A B} (f : A → res B) (l : list A) : res (list B) :=
  match l with
  | [] => Ok []
  | x :: l => y ← f x; ys ← try_collect f l; Ok (y :: ys)
  end.

Definition all_entries (ix : PackIndex) : res (list IndexEntry) :=
  match encoded ix with
  | Some e => try_collect (encoded_entry e) (seqZ 0 (enc_count e))
  | None => Ok (entries ix)
  end.
Definition ids (ix : PackIndex) : res (list PackObjectId) :=
  es ← all_entries ix; Ok (map entry_id es).

(** The search of [find] over the encoded entries. *)
Fixpoint find_loop (fuel : nat) (e : EncodedIndex) (i : PackObjectId) (low high : Z)
  : res (option Z) :=
  match fuel with
  | O => Fuel
  | S fuel =>
      if low <? high then
        let middle := low + (high - low) / 2 in
        en ← encoded_entry e middle;
        match compare_id (entry_id en) i with
        | Lt => find_loop fuel e i (middle + 1) high
        | Gt => find_loop fuel e i low middle
        | Eq => Ok (Some (offset en))
        end
      else Ok None
  end.

Definition find (ix : PackIndex) (i : PackObjectId) : res (option Z) :=
  match encoded ix with
  | None =>
      r ← lift (binary_search_by (λ en, compare_id (entry_id en) i) (entries ix));
      match r with
      | None => Ok None
      | Some k => en ← index (entries ix) k; Ok (Some (offset en))
      end
  | Some e => find_loop (S (Z.to_nat (enc_count e))) e i 0 (enc_count e)
  end.

(** The entries of [to_bytes], one after the other. *)
Fixpoint write_entries (es : list IndexEntry) (result : list Z) : pure (list Z) :=
  match es with
  | [] => Ok result
  | e :: es =>
      bytes ← encode_index_entry (entry_id e) (offset e);
      write_entries es (result ++ bytes)
  end.

Definition to_bytes (ix : PackIndex) : pure (list Z) :=
  match encoded ix with
  | Some e => Ok (data e)
  | None => write_entries (entries ix) (write_vec index_header [] (zlen (entries ix)))
  end.

(** The [unreachable!] is a panic. *)
Definition verify_index_version (data : list Z) : res unit :=
  wrong_magic ← (if zlen data <? 8 then Ok true
                 else m ← slice data 0 4; Ok (bool_decide (m ≠ INDEX_MAGIC)));
  if wrong_magic : bool then
    _ ← verify_layout index_header data;
    Panic
  else
    v ← slice data 4 8;
    let version := from_be_bytes v in
    if version =? INDEX_VERSION then Ok ()
    else if INDEX_VERSION <? version then
      Err (InvalidObject "pack index uses format version, but this binary supports; upgrade heddle"
             [version; INDEX_VERSION])
    else
      Err (InvalidObject "pack index uses unsupported format version; recreate the repository"
             [version]).

(** The ordering check over the decoded entries. *)
Fixpoint check_order (ix : PackIndex) (indexes : list Z) (previous : option PackObjectId)
  : res unit :=
  match indexes with
  | [] => Ok ()
  | index :: indexes =>
      en ← entry ix index;
      if match previous with
         | Some p => match compare_id p (entry_id en) with Gt => true | _ => false end
         | None => false
         end
      then Err (InvalidObject "index identities are not ordered" [])
      else check_order ix indexes (Some (entry_id en))
  end.

(** [index_header().verify]: there is no checksum, so no digest is computed. *)
Definition from_owned_bytes (data : list Z) : res PackIndex :=
  _ ← verify_index_version data;
  header ← verify (λ _, []) index_header data;
  let count := count header in
  room ← usub (zlen data) (vheader_len header);
  let max_entries := room / INDEX_ENTRY_LEN in
  if max_entries <? count then
    Err (InvalidObject "Index entry count exceeds available data capacity" [count; max_entries])
  else if USIZE_MAX <? count then
    Err (InvalidObject "Index entry count exceeds platform limits" [])
  else
    let ix :=
      {| entries := [];
         encoded := Some {| data := data; entries_start := vheader_len header;
                            enc_count := count |} |} in
    if negb (vheader_len header + count * INDEX_ENTRY_LEN =? zlen data) then
      Err (InvalidObject "index has trailing bytes" [])
    else
      _ ← check_order ix (seqZ 0 (len ix)) None;
      Ok ix.

Definition from_bytes (data : list Z) : res PackIndex := from_owned_bytes data.

End PackIndex.

Import PackIndex.

(** ** The order of ids *)
Lemma compare_id_eq a b : compare_id a b = Eq ↔ a = b.
Proof.
  unfold compare_id. destruct (Z.compare_spec (id_tag a) (id_tag b)) as [E|E|E].
  - rewrite compare_bytes_eq. destruct a, b; simpl in *; naive_solver.
  - split; [done|]. intros ->. lia.
  - split; [done|]. intros ->. lia.
Qed.

Lemma compare_id_antisym a b : compare_id b a = CompOpp (compare_id a b).
Proof.
  unfold compare_id. rewrite Z.compare_antisym.
  destruct (id_tag a ?= id_tag b); simpl; [apply compare_bytes_antisym|done..].
Qed.

Lemma compare_id_trans c a b d : compare_id a b = c → compare_id b d = c → compare_id a d = c.
Proof.
  unfold compare_id. destruct (Z.compare_spec (id_tag a) (id_tag b)),
    (Z.compare_spec (id_tag b) (id_tag d)), (Z.compare_spec (id_tag a) (id_tag d));
    try congruence; try lia; eauto using compare_bytes_trans.
Qed.

Lemma id_le_lt a b d : id_le a b → compare_id b d = Lt → compare_id a d = Lt.
Proof.
  unfold id_le. intros H Hb. destruct (compare_id a b) eqn:E; try done.
  - apply compare_id_eq in E as ->. done.
  - by eapply compare_id_trans.
Qed.

Lemma gt_id_le a b d : compare_id a d = Gt → id_le a b → compare_id b d = Gt.
Proof.
  rewrite !(compare_id_antisym d _). unfold id_le. intros H Hb.
  assert (compare_id d a = Lt) by (by destruct (compare_id d a)).
  destruct (compare_id a b) eqn:E; try done.
  - apply compare_id_eq in E as <-. done.
  - by rewrite (compare_id_trans Lt d a b).
Qed.

#[global] Instance id_le_trans : Transitive id_le.
Proof.
  unfold id_le. intros a b d Hab Hbd E. destruct (compare_id b d) eqn:E'; try done.
  - apply compare_id_eq in E' as ->. done.
  - by rewrite (id_le_lt a b d) in E.
Qed.
#[global] Instance id_le_total : Total id_le.
Proof.
  unfold id_le. intros a b. rewrite (compare_id_antisym a b).
  destruct (compare_id a b); simpl; [left|left|right]; done.
Qed.
#[global] Instance entry_le_trans : Transitive entry_le.
Proof. unfold entry_le. intros ???. apply id_le_trans. Qed.
#[global] Instance entry_le_total : Total entry_le.
Proof. unfold entry_le. intros ??. apply id_le_total. Qed.

(** ** Index entries *)
Lemma PACK_OFFSET_MASK_ones : PACK_OFFSET_MASK = Z.ones 62.
Proof. reflexivity. Qed.

Lemma land_bit x k : 0 ≤ k → (Z.land x (Z.shiftl 1 k) =? 0) = negb (Z.testbit x k).
Proof.
  intros Hk. rewrite Z.shiftl_1_l. destruct (Z.testbit x k) eqn:Hb; simpl.
  - apply Z.eqb_neq. intros H. apply (f_equal (λ y, Z.testbit y k)) in H.
    rewrite Z.land_spec, Hb, Z.pow2_bits_true, Z.bits_0 in H by lia. done.
  - apply Z.eqb_eq, Z.bits_inj'. intros n Hn. rewrite Z.land_spec, Z.bits_0.
    destruct (Z.eq_dec n k) as [->|]; [by rewrite Hb|].
    rewrite Z.pow2_bits_false by lia. apply andb_false_r.
Qed.

(** An entry that the format can carry. *)
Definition index_entry_ok (e : IndexEntry) : Prop :=
  id_ok (entry_id e) ∧ 0 ≤ offset e ≤ PACK_OFFSET_MASK.

Definition tagged (e : IndexEntry) : Z :=
  match entry_id e with
  | Hash _ => offset e
  | StateId _ => offset e + 2 ^ 63
  | AnnotatedTagId _ => offset e + 2 ^ 62
  end.
Definition entry_bytes (e : IndexEntry) : list Z := id_bytes (entry_id e) ++ to_be_bytes 8 (tagged e).

Lemma offset_bound e : index_entry_ok e → 0 ≤ offset e < 2 ^ 62.
Proof. intros [_ H]. rewrite PACK_OFFSET_MASK_ones in H. change (Z.ones 62) with (2 ^ 62 - 1) in H. lia. Qed.

Lemma encode_index_entry_bytes e :
  index_entry_ok e → encode_index_entry (entry_id e) (offset e) = Ok (entry_bytes e).
Proof.
  intros He. pose proof (offset_bound e He). destruct He as [_ He].
  unfold encode_index_entry, entry_bytes, tagged, STATE_ID_OFFSET_TAG, ANNOTATED_TAG_OFFSET_TAG.
  rewrite (proj2 (Z.leb_le _ _)) by lia.
  destruct (entry_id e); rewrite ?lor_shiftl_add by lia; rewrite ?Z.mul_1_l; done.
Qed.

Lemma zlen_entry_bytes e : index_entry_ok e → zlen (entry_bytes e) = 40.
Proof. intros [[H _] _]. unfold entry_bytes. rewrite zlen_app, zlen_to_be_bytes. lia. Qed.

Lemma testbit_add_pow2 x k m : 0 ≤ x < 2 ^ k → 0 ≤ k → 0 ≤ m →
  Z.testbit (x + 2 ^ k) m = (Z.testbit x m || (m =? k)).
Proof.
  intros Hx Hk Hm. replace (x + 2 ^ k) with (Z.lor x (Z.shiftl 1 k)) by (rewrite lor_shiftl_add; lia).
  rewrite Z.lor_spec, Z.shiftl_1_l, Z.pow2_bits_eqb by lia. by rewrite (Z.eqb_sym m k).
Qed.

Lemma decode_index_entry_bytes e : index_entry_ok e → decode_index_entry (entry_bytes e) = Ok e.
Proof.
  intros He. pose proof (offset_bound e He) as Ho. pose proof (zlen_entry_bytes e He) as Hz.
  destruct He as [[Hi _] _]. unfold decode_index_entry.
  rewrite (slice_ok (entry_bytes e) 0 32) by lia. cbn [mbind exec_bind].
  rewrite (slice_ok (entry_bytes e) 32) by lia. cbn [mbind exec_bind].
  assert (sub_list (entry_bytes e) 0 32 = id_bytes (entry_id e)) as ->
    by (apply (sub_list_middle []); [done|by rewrite Hi]).
  replace (sub_list (entry_bytes e) 32 (zlen (entry_bytes e))) with (to_be_bytes 8 (tagged e)).
  2:{ unfold entry_bytes. rewrite <- (app_nil_r (to_be_bytes 8 _)) at 2.
      symmetry. apply sub_list_middle; [lia|]. rewrite zlen_app. lia. }
  assert (0 ≤ tagged e < 256 ^ Z.of_nat 8) as Ht.
  { change (256 ^ Z.of_nat 8) with (2 ^ 64). unfold tagged. destruct (entry_id e); lia. }
  rewrite from_to_be_bytes_small by done.
  unfold STATE_ID_OFFSET_TAG, ANNOTATED_TAG_OFFSET_TAG. rewrite !land_bit, !negb_involutive by lia.
  rewrite PACK_OFFSET_MASK_ones, Z.land_ones by lia.
  assert (tagged e `mod` 2 ^ 62 = offset e) as ->.
  { unfold tagged. destruct (entry_id e).
    - by apply Z.mod_small.
    - change (2 ^ 63) with (2 * 2 ^ 62). rewrite Z.mod_add by lia. by apply Z.mod_small.
    - replace (offset e + 2 ^ 62) with (offset e + 1 * 2 ^ 62) by lia.
      rewrite Z.mod_add by lia. by apply Z.mod_small. }
  unfold tagged. destruct e as [i off]; cbn [entry_id offset] in *.
  destruct i; cbn [id_bytes].
  - rewrite !(testbit_small off 62) by lia. done.
  - rewrite testbit_add_pow2 by lia. by rewrite orb_true_r.
  - rewrite !testbit_add_pow2 by lia. rewrite !(testbit_small off 62) by lia. done.
Qed.

Lemma write_entries_bytes es result :
  Forall index_entry_ok es → write_entries es result = Ok (result ++ concat (map entry_bytes es)).
Proof.
  intros H. revert result. induction H as [|e es He Hes IH]; intros result; cbn [write_entries map concat].
  - by rewrite app_nil_r.
  - rewrite encode_index_entry_bytes by done. cbn [mbind exec_bind]. rewrite IH.
    by rewrite <- app_assoc.
Qed.

Lemma zlen_entries es : Forall index_entry_ok es → zlen (concat (map entry_bytes es)) = 40 * zlen es.
Proof.
  induction 1 as [|e es He Hes IH]; [done|]. cbn [map concat].
  rewrite zlen_app, zlen_cons, zlen_entry_bytes, IH by done. lia.
Qed.

(** Reading one entry of a serialised table. *)
Lemma encoded_entry_written hdr es k e n :
  zlen hdr = 16 → Forall index_entry_ok es → 0 ≤ k → es !! Z.to_nat k = Some e →
  encoded_entry {| data := hdr ++ concat (map entry_bytes es); entries_start := 16; enc_count := n |} k
  = Ok e.
Proof.
  intros Hh Hes Hk He. pose proof (take_drop_middle es _ _ He) as Hsplit.
  rewrite <- Hsplit in Hes |- *.
  apply Forall_app in Hes as [Ha [He' Hb]%Forall_cons].
  pose proof (lookup_lt_Some _ _ _ He). 
  unfold encoded_entry. cbn [data entries_start].
  rewrite map_app, concat_app. cbn [map concat].
  rewrite (app_assoc hdr). change INDEX_ENTRY_LEN with 40.
  assert (zlen (hdr ++ concat (map entry_bytes (take (Z.to_nat k) es))) = 16 + k * 40) as Hpre.
  { rewrite zlen_app, zlen_entries by done. unfold zlen at 2. rewrite length_take. lia. }
  pose proof (zlen_entry_bytes e He') as Hz.
  rewrite (proj2 (get_range_Some _ (entry_bytes e) _ _)).
  2:{ split; [lia|]. split; [rewrite !zlen_app in *; zlia|].
      symmetry. apply sub_list_middle; lia. }
  cbn [ok_or mbind exec_bind]. by apply decode_index_entry_bytes.
Qed.

(** ** Validation *)
(** [ks] reads as the entries [es]. *)
Definition reads (ix : PackIndex) (ks : list Z) (es : list IndexEntry) : Prop :=
  Forall2 (λ k e, entry ix k = Ok e) ks es.

Definition after (previous : option PackObjectId) (es : list IndexEntry) : Prop :=
  Sorted id_le (match previous with Some p => [p] | None => [] end ++ map entry_id es).

Lemma check_order_spec ix ks previous :
  Forall (λ k, settles (entry ix k) (λ _, True) (λ _, True)) ks →
  settles (check_order ix ks previous)
    (λ _, ∃ es, reads ix ks es ∧ after previous es) (λ _, True).
Proof.
  intros H. revert previous. induction H as [|k ks Hk Hks IH]; intros previous; cbn [check_order].
  - exists []. split; [constructor|]. unfold after. destruct previous; repeat constructor.
  - destruct (entry ix k) as [e| | |] eqn:He; try done. cbn [mbind exec_bind].
    assert (∀ previous, (match previous with Some p => id_le p (entry_id e) | None => True end) →
      settles (check_order ix ks (Some (entry_id e)))
        (λ _, ∃ es, reads ix (k :: ks) es ∧ after previous es) (λ _, True)) as Hgo.
    { intros prev Hp. eapply settles_mono; [apply IH| |done]. intros _ (es & Hr & Hs).
      exists (e :: es). split; [by constructor|]. unfold after in *. cbn [map app] in *.
      destruct prev as [p|]; [|done]. cbn [app]. constructor; [done|by constructor]. }
    destruct previous as [p|]; [|by apply Hgo].
    destruct (compare_id p (entry_id e)) eqn:Hc; [..|done]; apply Hgo; unfold id_le; congruence.
Qed.

Lemma check_order_written ix ks es previous :
  reads ix ks es → after previous es → check_order ix ks previous = Ok ().
Proof.
  intros H. revert previous. induction H as [|k e ks es He Hr IH]; intros previous Ha; [done|].
  cbn [check_order]. rewrite He. cbn [mbind exec_bind]. unfold after in *. cbn [map] in Ha.
  destruct previous as [p|]; cbn [app] in Ha.
  - apply Sorted_inv in Ha as [Ha Hp]. inversion Hp as [|? ? Hle]; subst. unfold id_le in Hle.
    destruct (compare_id p (entry_id e)); [by apply IH|by apply IH|done].
  - by apply IH.
Qed.

Lemma decode_index_entry_settles bytes :
  zlen bytes = 40 → settles (decode_index_entry bytes) (λ _, True) (λ _, True).
Proof.
  intros Hz. unfold decode_index_entry.
  step (slice_returns (E:=StoreError) bytes 0 32) as _; [lia..|].
  step (slice_returns (E:=StoreError) bytes 32 (zlen bytes)) as _; [lia..|]. done.
Qed.

Lemma encoded_entry_settles e k :
  settles (encoded_entry e k) (λ _, True) (λ _, True).
Proof.
  unfold encoded_entry. change INDEX_ENTRY_LEN with 40.
  destruct (get_range _ _ _) as [bytes|] eqn:Hg; [|done]. cbn [ok_or mbind exec_bind].
  apply get_range_Some in Hg as (? & ? & ->). apply decode_index_entry_settles.
  rewrite zlen_sub_list; lia.
Qed.

Lemma index_verify_layout d :
  settles (verify_layout index_header d)
    (λ h, vheader_len h = 16 ∧ 16 ≤ zlen d ∧ sub_list d 0 4 = INDEX_MAGIC ∧
       count h = from_be_bytes (sub_list d 8 16))
    (λ _, True).
Proof.
  unfold verify_layout. cbn [index_header checksum trailer_len magic version too_short invalid_magic
    unsupported_version]. change (VERSIONED_HEADER_LEN + 0) with 16.
  destruct (Z.ltb_spec (zlen d) 16); [done|].
  rewrite (slice_ok d 0 4) by lia. cbn [mbind exec_bind].
  destruct (decide (sub_list d 0 4 ≠ INDEX_MAGIC)) as [|Hm]; [done|]. apply dec_stable in Hm.
  rewrite (slice_ok d 4 8) by lia. cbn [mbind exec_bind]. destruct (negb _); [done|].
  step (usub_returns (E:=StoreError) (zlen d) 0) as ->; [lia|].
  rewrite (slice_ok d 8 16) by lia. done.
Qed.

Lemma verify_index_version_settles d :
  settles (verify_index_version d) (λ _, True) (λ _, True).
Proof.
  unfold verify_index_version. destruct (Z.ltb_spec (zlen d) 8) as [Hl|Hl]; cbn [mbind exec_bind].
  - pose proof (index_verify_layout d) as H. destruct (verify_layout _ d); try done. simpl in H. lia.
  - rewrite (slice_ok d 0 4) by lia. cbn [mbind exec_bind].
    destruct (bool_decide_reflect (sub_list d 0 4 ≠ INDEX_MAGIC)) as [Hm|_].
    + pose proof (index_verify_layout d) as H. destruct (verify_layout _ d); try done.
      by destruct H as (_ & _ & ? & _).
    + rewrite (slice_ok d 4 8) by lia. cbn [mbind exec_bind].
      destruct (_ =? _); [done|]. by destruct (_ <? _).
Qed.

(** A validated index: its bytes, and the ordered entries that it reads as. *)
Definition valid_index (d : list Z) (ix : PackIndex) (es : list IndexEntry) : Prop :=
  ix = {| entries := []; encoded := Some {| data := d; entries_start := 16; enc_count := zlen es |} |} ∧
  reads ix (seqZ 0 (zlen es)) es ∧ StronglySorted id_le (map entry_id es) ∧
  zlen d = 16 + zlen es * 40.

Lemma from_owned_bytes_spec d :
  bytes_ok d → settles (from_owned_bytes d) (λ ix, ∃ es, valid_index d ix es) (λ _, True).
Proof.
  intros Hd. unfold from_owned_bytes.
  step (verify_index_version_settles d) as _; [|done].
  unfold verify. apply settles_bind. apply settles_bind.
  eapply settles_mono; [apply index_verify_layout| |done]. cbv beta.
  intros h (Hh & Hl & _ & Hc). cbn [verify_checksum index_header checksum mbind exec_bind settles].
  rewrite Hh. step (usub_returns (E:=StoreError) (zlen d) 16) as ->; [lia|].
  change INDEX_ENTRY_LEN with 40.
  pose proof (from_be_bytes_bound (sub_list d 8 16) ltac:(by apply Forall_sub_list)) as Hb.
  destruct (Z.ltb_spec ((zlen d - 16) / 40) (count h)); [done|].
  destruct (Z.ltb_spec USIZE_MAX (count h)); [done|].
  destruct (Z.eqb_spec (16 + count h * 40) (zlen d)) as [Hz|]; [|done]. cbn [negb].
  set (ix := {| entries := []; encoded := Some {| data := d; entries_start := 16; enc_count := count h |} |}).
  change (len ix) with (count h).
  step (check_order_spec ix (seqZ 0 (count h)) None) as Hes.
  { apply Forall_forall. intros k _. apply encoded_entry_settles. }
  2:{ done. }
  destruct Hes as (es & Hr & Hs). simpl.
  assert (zlen es = count h) as Hn.
  { unfold reads in Hr. apply Forall2_length in Hr. rewrite length_seqZ in Hr. unfold zlen. lia. }
  exists es. unfold valid_index. rewrite Hn. split; [done|]. split; [done|]. split; [|lia].
  by apply Sorted_StronglySorted; [apply _|].
Qed.

Lemma from_owned_bytes_written es :
  Forall index_entry_ok es → Sorted entry_le es → zlen es * 40 + 16 ≤ USIZE_MAX →
  ∃ ix, from_owned_bytes (write_vec index_header [] (zlen es) ++ concat (map entry_bytes es)) = Ok ix ∧
    valid_index (write_vec index_header [] (zlen es) ++ concat (map entry_bytes es)) ix es.
Proof.
  intros Hes Hs Hsz. set (hdr := write_vec index_header [] (zlen es)).
  pose proof (zlen_entries es Hes) as Hz. pose proof (zlen_nonneg es).
  assert (hdr = INDEX_MAGIC ++ to_be_bytes 4 4 ++ to_be_bytes 8 (zlen es)) as Hhdr
    by (unfold hdr, write_vec; simpl; done).
  assert (zlen hdr = 16) as Hh by (rewrite Hhdr, !zlen_app, !zlen_to_be_bytes; done).
  set (d := hdr ++ concat (map entry_bytes es)).
  assert (zlen d = 16 + zlen es * 40) as Hd by (unfold d; rewrite zlen_app; lia).
  assert (sub_list d 0 4 = INDEX_MAGIC ∧ sub_list d 4 8 = to_be_bytes 4 4 ∧
          sub_list d 8 16 = to_be_bytes 8 (zlen es)) as (H0 & H4 & H8).
  { unfold d. rewrite Hhdr, <- !app_assoc. split; [by apply (sub_list_middle [])|].
    split; [apply sub_list_middle; by rewrite ?zlen_to_be_bytes|].
    rewrite (app_assoc INDEX_MAGIC). apply sub_list_middle; by rewrite zlen_app, ?zlen_to_be_bytes. }
  assert (from_be_bytes (to_be_bytes 4 4) = 4) as H44 by reflexivity.
  assert (from_be_bytes (to_be_bytes 8 (zlen es)) = zlen es) as H88.
  { apply from_to_be_bytes_small. change (256 ^ Z.of_nat 8) with 18446744073709551616.
    unfold USIZE_MAX in Hsz. lia. }
  set (ix := {| entries := []; encoded := Some {| data := d; entries_start := 16; enc_count := zlen es |} |}).
  assert (reads ix (seqZ 0 (zlen es)) es) as Hr.
  { apply Forall2_same_length_lookup. split; [rewrite length_seqZ; unfold zlen; lia|].
    intros k x e Hk He. apply lookup_seqZ in Hk as [-> Hk]. change (encoded_entry
      {| data := d; entries_start := 16; enc_count := zlen es |} (0 + Z.of_nat k) = Ok e).
    apply encoded_entry_written; [done|done|lia|]. by replace (Z.to_nat (0 + Z.of_nat k)) with k by lia. }
  assert (Sorted id_le (map entry_id es)) as Hso.
  { clear -Hs. induction Hs as [|e es Hs IH Hd]; [constructor|]. cbn [map]. constructor; [done|].
    destruct Hd; constructor; done. }
  exists ix. split.
  2:{ split; [done|]. split; [done|]. split; [|done]. by apply Sorted_StronglySorted; [apply _|]. }
  assert (verify_index_version d = Ok ()) as Hver.
  { unfold verify_index_version. rewrite (proj2 (Z.ltb_ge (zlen d) 8)) by lia.
    rewrite (slice_ok d 0 4) by lia. cbn [mbind exec_bind]. rewrite H0, bool_decide_eq_false_2 by auto.
    rewrite (slice_ok d 4 8) by lia. cbn [mbind exec_bind]. by rewrite H4, H44. }
  assert (verify (λ _, []) index_header d
    = Ok {| count := zlen es; vheader_len := 16; content_end := zlen d |}) as Hvf.
  { unfold verify, verify_layout.
    cbn [index_header checksum trailer_len magic version too_short invalid_magic unsupported_version].
    change (VERSIONED_HEADER_LEN + 0) with 16. rewrite (proj2 (Z.ltb_ge (zlen d) 16)) by lia.
    rewrite (slice_ok d 0 4) by lia. cbn [mbind exec_bind]. rewrite H0, decide_False by auto.
    rewrite (slice_ok d 4 8) by lia. cbn [mbind exec_bind]. rewrite H4, H44. cbn [Z.eqb negb].
    unfold usub. rewrite (proj2 (Z.leb_le 0 (zlen d))) by lia. cbn [mbind exec_bind].
    rewrite (slice_ok d 8 16) by lia. cbn [mbind exec_bind]. rewrite H8, H88, Z.sub_0_r. done. }
  unfold from_owned_bytes. rewrite Hver. cbn [mbind exec_bind]. rewrite Hvf.
  cbn [mbind exec_bind vheader_len count]. unfold usub. rewrite (proj2 (Z.leb_le 16 (zlen d))) by lia.
  cbn [mbind exec_bind]. change INDEX_ENTRY_LEN with 40. rewrite Hd.
  replace ((16 + zlen es * 40 - 16) / 40) with (zlen es)
    by (replace (16 + zlen es * 40 - 16) with (zlen es * 40) by lia; symmetry; apply Z.div_mul; lia).
  rewrite Z.ltb_irrefl, (proj2 (Z.ltb_ge USIZE_MAX (zlen es))) by (unfold USIZE_MAX in *; lia).
  rewrite Z.eqb_refl. cbn [negb]. fold ix. change (len ix) with (zlen es).
  by rewrite (check_order_written _ _ es).
Qed.

(** ** Lookup *)
Lemma valid_index_entry d ix es k :
  valid_index d ix es → 0 ≤ k < zlen es →
  ∃ e, es !! Z.to_nat k = Some e ∧
    encoded_entry {| data := d; entries_start := 16; enc_count := zlen es |} k = Ok e.
Proof.
  intros (-> & Hr & _ & _) Hk. unfold reads in Hr.
  destruct (lookup_lt_is_Some_2 es (Z.to_nat k)) as [e He]; [unfold zlen in Hk; lia|].
  exists e. split; [done|].
  destruct (Forall2_lookup_r _ _ _ _ _ Hr He) as (k' & Hk' & E).
  apply lookup_seqZ in Hk' as [-> _]. by replace (0 + Z.of_nat (Z.to_nat k)) with k in E by lia.
Qed.

Lemma valid_index_sorted d ix es j k a b :
  valid_index d ix es → (j ≤ k)%nat → es !! j = Some a → es !! k = Some b →
  id_le (entry_id a) (entry_id b).
Proof.
  intros (_ & _ & Hs & _) Hjk Ha Hb. destruct (decide (j = k)) as [->|].
  - assert (a = b) as -> by congruence. unfold id_le. by rewrite (proj2 (compare_id_eq _ _)).
  - eapply (StronglySorted_lookup_lt id_le _ j k); [done|..|lia];
      rewrite list_lookup_fmap; by rewrite ?Ha, ?Hb.
Qed.

Lemma find_loop_spec d ix es i fuel low high :
  valid_index d ix es → 0 ≤ low ≤ high → high ≤ zlen es → high - low < Z.of_nat fuel →
  (∀ k e, es !! k = Some e → Z.of_nat k < low → compare_id (entry_id e) i = Lt) →
  (∀ k e, es !! k = Some e → high ≤ Z.of_nat k → compare_id (entry_id e) i = Gt) →
  returns (find_loop fuel {| data := d; entries_start := 16; enc_count := zlen es |} i low high)
    (λ r, match r with
          | Some off => {| entry_id := i; offset := off |} ∈ es
          | None => i ∉ map entry_id es
          end).
Proof.
  intros Hv. revert low high. induction fuel as [|fuel IH]; intros low high Hl Hh Hf Hlo Hhi; [lia|].
  cbn [find_loop]. destruct (Z.ltb_spec low high) as [Hlt|Hge].
  - set (mid := low + (high - low) / 2).
    assert (low ≤ mid < high) as Hmid by (unfold mid; Z.to_euclidean_division_equations; lia).
    destruct (valid_index_entry d ix es mid Hv ltac:(lia)) as (e & He & ->).
    cbn [mbind exec_bind]. destruct (compare_id (entry_id e) i) eqn:Hc.
    + apply compare_id_eq in Hc. simpl. apply list_elem_of_lookup.
      exists (Z.to_nat mid). rewrite He. f_equal. destruct e; simpl in *. by subst.
    + apply IH; [lia|lia|lia| |done]. intros k e' He' Hk.
      eapply id_le_lt; [|exact Hc]. eapply (valid_index_sorted d ix es k); [done| |done|done]. lia.
    + apply IH; [lia|lia|lia|done|]. intros k e' He' Hk.
      eapply gt_id_le; [exact Hc|]. eapply (valid_index_sorted d ix es _ k); [done| |done|done]. lia.
  - simpl. rewrite list_elem_of_fmap. intros (e & -> & (k & He)%list_elem_of_lookup).
    destruct (Z.ltb_spec (Z.of_nat k) low) as [Hk|Hk].
    + specialize (Hlo k e He Hk). by rewrite (proj2 (compare_id_eq _ _)) in Hlo.
    + specialize (Hhi k e He ltac:(lia)). by rewrite (proj2 (compare_id_eq _ _)) in Hhi.
Qed.

Lemma find_valid d ix es i :
  valid_index d ix es →
  returns (find ix i)
    (λ r, match r with
          | Some off => {| entry_id := i; offset := off |} ∈ es
          | None => i ∉ map entry_id es
          end).
Proof.
  intros Hv. pose proof Hv as (-> & _). unfold find. cbn [encoded enc_count].
  pose proof (zlen_nonneg es).
  eapply (find_loop_spec d); [done|lia|lia|lia|intros; lia|].
  intros k e He Hk. apply lookup_lt_Some in He. unfold zlen in Hk. lia.
Qed.

Lemma try_collect_reads {A B} (f : A → res B) ks es :
  Forall2 (λ k e, f k = Ok e) ks es → try_collect f ks = Ok es.
Proof.
  induction 1 as [|k e ks es He Hr IH]; [done|]. cbn [try_collect]. rewrite He. cbn. by rewrite IH.
Qed.

Lemma all_entries_valid d ix es : valid_index d ix es → all_entries ix = Ok es.
Proof. intros (-> & Hr & _). by apply try_collect_reads. Qed.

(** * Properties *)

(** C36. Reading an index is safe and lookups in it are right: on arbitrary bytes
    [from_owned_bytes] never panics (its [unreachable!] is unreachable), and an
    index it accepts serialises back to the same bytes, reads as a list of
    entries ordered by id, and [find] always answers, with the offset of an
    entry of that id, or with nothing when no entry has the id. *)
Theorem index_read_find d :
  bytes_ok d →
  settles (from_owned_bytes d)
    (λ ix, ∃ es, all_entries ix = Ok es ∧ to_bytes ix = Ok d ∧ len ix = zlen es ∧
       StronglySorted id_le (map entry_id es) ∧
       ∀ i, returns (find ix i)
         (λ r, match r with
               | Some off => {| entry_id := i; offset := off |} ∈ es
               | None => i ∉ map entry_id es
               end))
    (λ _, True).
Proof.
  intros Hd. eapply settles_mono; [by apply from_owned_bytes_spec| |done].
  cbv beta. intros ix (es & Hv). exists es. split; [by eapply all_entries_valid|].
  split; [by destruct Hv as (-> & _)|]. split; [by destruct Hv as (-> & _)|].
  split; [apply Hv|]. intros i. by eapply find_valid.
Qed.
Lemma index_read_find_witness :
  let d := write_vec index_header [] 1 ++ replicate 32 7 ++ to_be_bytes 8 12 in
  settles (from_owned_bytes d)
    (λ ix, ∃ es, all_entries ix = Ok es ∧ to_bytes ix = Ok d ∧ len ix = zlen es ∧
       StronglySorted id_le (map entry_id es) ∧
       ∀ i, returns (find ix i)
         (λ r, match r with
               | Some off => {| entry_id := i; offset := off |} ∈ es
               | None => i ∉ map entry_id es
               end))
    (λ _, True).
Proof. apply index_read_find. vm_compute. repeat constructor; intros [=]. Defined.

(** A written index, as it is read back. *)
Lemma sorted_index_written es :
  Forall index_entry_ok es → zlen es * 40 + 16 ≤ USIZE_MAX →
  let ix := sort {| entries := es; encoded := None |} in
  ∃ d ix', to_bytes ix = Ok d ∧ from_owned_bytes d = Ok ix' ∧ valid_index d ix' (entries ix) ∧
    Permutation (entries ix) es.
Proof.
  intros Hes Hsz ix. assert (Permutation (entries ix) es) as Hp by apply merge_sort_Permutation.
  assert (Forall index_entry_ok (entries ix)) as Hok by (by rewrite Hp).
  assert (zlen (entries ix) = zlen es) as Hl by (unfold zlen; by rewrite Hp).
  destruct (from_owned_bytes_written (entries ix) Hok ltac:(apply Sorted_merge_sort; apply _) ltac:(lia))
    as (ix' & E & Hv).
  eexists _, ix'. split; [by apply write_entries_bytes|]. done.
Qed.

(** Writing and reading an index: for any entries whose ids and offsets the
    format can carry, sorting the index and serialising it succeeds, the bytes
    are accepted by [from_owned_bytes], and the index read reads as exactly the
    sorted permutation of the entries that were added. *)
Theorem index_write_read es :
  Forall index_entry_ok es → zlen es * 40 + 16 ≤ USIZE_MAX →
  let ix := sort {| entries := es; encoded := None |} in
  ∃ d ix', to_bytes ix = Ok d ∧ from_owned_bytes d = Ok ix' ∧
    all_entries ix' = Ok (entries ix) ∧ Permutation (entries ix) es ∧
    Sorted entry_le (entries ix).
Proof.
  intros Hes Hsz ix. destruct (sorted_index_written es Hes Hsz) as (d & ix' & Hd & E & Hv & Hp).
  exists d, ix'. split; [done|]. split; [done|]. split; [by eapply all_entries_valid|].
  split; [done|]. apply Sorted_merge_sort; apply _.
Qed.
Lemma index_write_read_witness :
  let es := [{| entry_id := StateId (replicate 32 1); offset := 9 |};
             {| entry_id := Hash (replicate 32 2); offset := 5 |}] in
  let ix := sort {| entries := es; encoded := None |} in
  ∃ d ix', to_bytes ix = Ok d ∧ from_owned_bytes d = Ok ix' ∧
    all_entries ix' = Ok (entries ix) ∧ Permutation (entries ix) es ∧
    Sorted entry_le (entries ix).
Proof.
  apply index_write_read; [|unfold zlen, USIZE_MAX; simpl; lia].
  repeat constructor; vm_compute; try done; intros [=].
Defined.
