(* ===== verification/PackSort.v ===== *)
(** * Sorting and ordering of pack records
    ([crates/pack/src/store/pack/{disk_sort,offset_index,pack_identity}.rs])

    Module [DiskSort] is the external merge sort over fixed-size records: a file
    is the list of its bytes, runs are merged like the carries of a binary
    counter.  Module [OffsetIndex] is the table from pack offsets to index
    ordinals, built either in memory or by the external sort.  Module
    [PackIdentity] is the canonical inventory behind a pack's logical id.  Reads
    and writes of temporary files are taken to succeed; a record cut short by the
    end of the file is an error, as [read_exact] makes it. *)

From S2P Require Import Prelude Varint PackFormat PackIndex.
Import Varint.
Import PackFormat.

Module DiskSort.

Definition SORT_BYTES : Z := 1024 * 1024.

(** [read_record::<N>]: the record, and what is left to read. *)
Definition read_record (n : Z) (reader : list Z) : res (option (list Z) * list Z) :=
  if zlen reader =? 0 then Ok (None, reader)
  else if zlen reader <? n then Err (Io "failed to fill whole buffer")
  else
    record ← slice reader 0 n;
    rest ← slice reader n (zlen reader);
    Ok (Some record, rest).

(** [first <= second] on records, and the order of [sort_unstable] (equal
    records are identical, so the sort has one result). *)
Definition record_le (a b : list Z) : Prop := compare_bytes a b ≠ Gt.
#[global] Instance record_le_dec : RelDecision record_le.
Proof. intros a b. unfold record_le. apply _. Defined.

(** The loop of [merge]: the two pending records, what is left of the two runs,
    and what has been written. *)
Fixpoint merge_loop (fuel : nat) (n : Z) (a : option (list Z)) (left : list Z)
    (b : option (list Z)) (right : list Z) (writer : list Z) : res (list Z) :=
  match fuel with
  | O => Fuel
  | S fuel =>
      match a, b with
      | None, None => Ok writer
      | Some record, None =>
          '(a, left) ← read_record n left;
          merge_loop fuel n a left b right (writer ++ record)
      | None, Some record =>
          '(b, right) ← read_record n right;
          merge_loop fuel n a left b right (writer ++ record)
      | Some first, Some second =>
          if decide (record_le first second) then
            '(a, left) ← read_record n left;
            merge_loop fuel n a left b right (writer ++ first)
          else
            '(b, right) ← read_record n right;
            merge_loop fuel n a left b right (writer ++ second)
      end
  end.

Definition merge (n : Z) (left right : list Z) : res (list Z) :=
  let fuel := S (length left + length right) in
  '(a, left) ← read_record n left;
  '(b, right) ← read_record n right;
  merge_loop fuel n a left b right [].

(** Filling a buffer of at most [SORT_BYTES / N] records. *)
Fixpoint fill (fuel : nat) (n : Z) (input : list Z) (records : list (list Z))
  : res (list (list Z) * list Z) :=
  match fuel with
  | O => Fuel
  | S fuel =>
      if zlen records <? SORT_BYTES / n then
        '(record, input) ← read_record n input;
        match record with
        | None => Ok (records, input)
        | Some record => fill fuel n input (records ++ [record])
        end
      else Ok (records, input)
  end.

(** The carry through the levels: the new levels, and what is carried out. *)
Fixpoint carry (n : Z) (levels : list (option (list Z))) (carried : option (list Z))
  : res (list (option (list Z)) * option (list Z)) :=
  match levels with
  | [] => Ok ([], carried)
  | slot :: levels =>
      match carried with
      | None => Ok (slot :: levels, None)
      | Some run =>
          match slot with
          | Some previous =>
              merged ← merge n previous run;
              '(levels, carried) ← carry n levels (Some merged);
              Ok (None :: levels, carried)
          | None =>
              '(levels, carried) ← carry n levels None;
              Ok (Some run :: levels, carried)
          end
      end
  end.

Fixpoint run_loop (fuel : nat) (n : Z) (input : list Z) (levels : list (option (list Z)))
  : res (list (option (list Z))) :=
  match fuel with
  | O => Fuel
  | S fuel =>
      '(records, input) ← fill (S (Z.to_nat (SORT_BYTES / n))) n input [];
      match records with
      | [] => Ok levels
      | _ =>
          let records := merge_sort record_le records in
          let run := concat records in
          '(levels, carried) ← carry n levels (Some run);
          match carried with
          | Some _ => Err (InvalidObject "disk sort exceeds addressable file size" [])
          | None => run_loop fuel n input levels
          end
      end
  end.

(** The final merge of the levels, lowest first. *)
Fixpoint collapse (n : Z) (levels : list (option (list Z))) (result : option (list Z))
  : res (option (list Z)) :=
  match levels with
  | [] => Ok result
  | None :: levels => collapse n levels result
  | Some run :: levels =>
      match result with
      | Some previous => merged ← merge n previous run; collapse n levels (Some merged)
      | None => collapse n levels (Some run)
      end
  end.

Definition sort_records (n : Z) (input : list Z) : res (list Z) :=
  levels ← run_loop (S (length input)) n input (replicate 64 None);
  result ← collapse n levels None;
  Ok (default [] result).

End DiskSort.

Module OffsetIndex.
Import DiskSort PackIndex.

(** The serialised records: offset and ordinal, big-endian. *)
Record OffsetIndex := { odata : list Z }.

Definition encode_record (r : Z * Z) : list Z := to_be_bytes 8 r.1 ++ to_be_bytes 8 r.2.

(** The order of [sort_unstable] on pairs. *)
Definition pair_le (a b : Z * Z) : Prop := a.1 < b.1 ∨ (a.1 = b.1 ∧ a.2 ≤ b.2).
#[global] Instance pair_le_dec : RelDecision pair_le.
Proof. intros a b. unfold pair_le. apply _. Defined.

(** [index.iter().enumerate()] as (offset, ordinal) records. *)
Definition enumerate_offsets (ix : PackIndex) : res (list (Z * Z)) :=
  try_collect (λ ordinal, e ← entry ix ordinal; Ok (offset e, ordinal)) (seqZ 0 (len ix)).

(** Built in memory ([root] absent, or at most 1 MiB of records), or with the
    external sort. *)
Definition new (ix : PackIndex) (has_root : bool) : res OffsetIndex :=
  if negb has_root || (len ix <=? 1024 * 1024 / 16) then
    records ← enumerate_offsets ix;
    let records := merge_sort pair_le records in
    Ok {| odata := concat (map encode_record records) |}
  else
    records ← enumerate_offsets ix;
    sorted ← sort_records 16 (concat (map encode_record records));
    Ok {| odata := if is_empty ix then [] else sorted |}.

Definition record (o : OffsetIndex) (index : Z) : res (Z * Z) :=
  bytes ← ok_or (get_range (odata o) (index * 16) (index * 16 + 16))
            (InvalidObject "offset index truncated" []);
  head ← slice bytes 0 8;
  tail ← slice bytes 8 (zlen bytes);
  let ordinal := from_be_bytes tail in
  if ordinal <=? USIZE_MAX then Ok (from_be_bytes head, ordinal)
  else Err (InvalidObject "offset ordinal exceeds platform" []).

Fixpoint lower_bound (fuel : nat) (o : OffsetIndex) (offset low high : Z) : res Z :=
  match fuel with
  | O => Fuel
  | S fuel =>
      if low <? high then
        let mid := low + (high - low) / 2 in
        r ← record o mid;
        if r.1 <? offset then lower_bound fuel o offset (mid + 1) high
        else lower_bound fuel o offset low mid
      else Ok low
  end.

Definition aliases (o : OffsetIndex) (offset : Z) : res bool :=
  let high := zlen (odata o) / 16 in
  low ← lower_bound (S (Z.to_nat high)) o offset 0 high;
  if low + 1 <? zlen (odata o) / 16 then
    r ← record o low;
    if r.1 =? offset then
      r ← record o (low + 1);
      Ok (r.1 =? offset)
    else Ok false
  else Ok false.

(** The inner loop of [visit]: the first index after the run of [offset]. *)
Fixpoint skip_run (fuel : nat) (o : OffsetIndex) (offset next : Z) : res Z :=
  match fuel with
  | O => Fuel
  | S fuel =>
      if next <? zlen (odata o) / 16 then
        r ← record o next;
        if r.1 =? offset then skip_run fuel o offset (next + 1) else Ok next
      else Ok next
  end.

(** [visit], with the visitor as a state transformer. *)
Section visit.
  Context {St : Type} (visitor : St → Z → Z → Z → res St).
Fixpoint visit_loop (fuel : nat) (o : OffsetIndex) (next : Z) (s : St) : res St :=
  match fuel with
  | O => Fuel
  | S fuel =>
      if next <? zlen (odata o) / 16 then
        '(offset, ordinal) ← record o next;
        let first := next in
        next ← skip_run (S (Z.to_nat (zlen (odata o) / 16))) o offset (next + 1);
        s ← visitor s offset ordinal (next - first);
        visit_loop fuel o next s
      else Ok s
  end.
Definition visit (o : OffsetIndex) (s : St) : res St :=
  visit_loop (S (Z.to_nat (zlen (odata o) / 16))) o 0 s.
End visit.

End OffsetIndex.

Module PackIdentity.

Definition LOGICAL_ENTRY_LEN : Z := 1 + 32 + 1 + 32.

Section digests.
  (** [blake3::hash], and the BLAKE3 key derivation hash under
      [PACK_LOGICAL_ID_CONTEXT]. *)
  Context (blake3 derive : list Z → list Z).

(** [LogicalInventoryEntry::new] *)
Definition inventory_entry (i : PackObjectId) (object_type : ObjectType) (data : list Z) : list Z :=
  [match i with Hash _ => 0 | StateId _ => 1 | AnnotatedTagId _ => 2 end]
  ++ id_bytes i ++ [discriminant object_type] ++ blake3 data.

Record LogicalIdBuilder := { inventory : list (list Z) }.
Definition builder_new : LogicalIdBuilder := {| inventory := [] |}.
Definition push (b : LogicalIdBuilder) (i : PackObjectId) (object_type : ObjectType)
    (data : list Z) : LogicalIdBuilder :=
  {| inventory := inventory b ++ [inventory_entry i object_type data] |}.

(** The bytes fed to the hasher by [finish]. *)
Definition canonical (b : LogicalIdBuilder) : list Z :=
  to_be_bytes 8 (zlen (inventory b)) ++ concat (merge_sort DiskSort.record_le (inventory b)).
Definition finish (b : LogicalIdBuilder) : list Z := derive (canonical b).

Definition logical_id_from_objects (objects : list (PackObjectId * ObjectType * list Z)) : list Z :=
  finish (fold_left (λ b '(i, t, d), push b i t d) objects builder_new).

(** [PackRepresentationHash::compute] *)
Definition representation_hash (pack_bytes : list Z) : list Z := blake3 pack_bytes.
End digests.

End PackIdentity.

(** ** The order of records *)
Import DiskSort.

#[global] Instance record_le_trans : Transitive record_le.
Proof.
  unfold record_le. intros a b c Hab Hbc E.
  destruct (compare_bytes a b) eqn:Eab; try done.
  - apply compare_bytes_eq in Eab as ->. done.
  - destruct (compare_bytes b c) eqn:Ebc; try done.
    + apply compare_bytes_eq in Ebc as <-. congruence.
    + rewrite (compare_bytes_trans Lt a b c Eab Ebc) in E. done.
Qed.
#[global] Instance record_le_total : Total record_le.
Proof.
  unfold record_le. intros a b. rewrite (compare_bytes_antisym a b).
  destruct (compare_bytes a b); simpl; [left|left|right]; done.
Qed.
#[global] Instance record_le_antisymm : AntiSymm eq record_le.
Proof.
  unfold record_le. intros a b Hab Hba. rewrite (compare_bytes_antisym a b) in Hba.
  destruct (compare_bytes a b) eqn:E; try done. by apply compare_bytes_eq.
Qed.

(** ** Files of records *)
Section records.
  Context (n : Z) (Hn : 0 < n).

Definition recs_ok (l : list (list Z)) : Prop := Forall (λ r, zlen r = n) l.

Lemma zlen_concat l : recs_ok l → zlen (concat l) = n * zlen l.
Proof.
  induction 1 as [|r l Hr Hl IH]; [by rewrite Z.mul_0_r|]. cbn [concat].
  rewrite zlen_app, zlen_cons, Hr, IH. lia.
Qed.

Lemma length_concat_ge l : recs_ok l → (length l ≤ length (concat l))%nat.
Proof. intros H%zlen_concat. unfold zlen in H. nia. Qed.

Lemma read_record_concat l :
  recs_ok l → read_record n (concat l) = Ok (head l, concat (tail l)).
Proof.
  unfold read_record. intros [|r l' Hr Hl]; [done|]. cbn [concat head tail].
  pose proof (zlen_nonneg (concat l')).
  rewrite (proj2 (Z.eqb_neq (zlen (r ++ concat l')) 0)), (proj2 (Z.ltb_ge (zlen (r ++ concat l')) n)) by zlia.
  rewrite (slice_ok _ 0 n) by zlia. cbn [mbind exec_bind].
  rewrite (slice_suffix r) by done. cbn [mbind exec_bind]. do 3 f_equal.
  apply (sub_list_middle []); [done|]. by rewrite Hr.
Qed.

Lemma merge_loop_spec fuel la lb w :
  recs_ok la → recs_ok lb → (length la + length lb < fuel)%nat →
  merge_loop fuel n (head la) (concat (tail la)) (head lb) (concat (tail lb)) w
  = Ok (w ++ concat (list_merge record_le la lb)).
Proof.
  revert la lb w. induction fuel as [|fuel IH]; intros la lb w Ha Hb Hf; [lia|].
  cbn [merge_loop]. destruct la as [|x la], lb as [|y lb]; cbn [head tail].
  - by rewrite app_nil_r.
  - rewrite read_record_concat by (by apply Forall_cons in Hb as [_ ?]). cbn [mbind exec_bind].
    rewrite (IH [] lb); [|done|by apply Forall_cons in Hb as [_ ?]|simpl in *; lia].
    rewrite <- app_assoc. do 3 f_equal. by destruct lb.
  - rewrite read_record_concat by (by apply Forall_cons in Ha as [_ ?]). cbn [mbind exec_bind].
    rewrite (IH la []); [|by apply Forall_cons in Ha as [_ ?]|done|simpl in *; lia].
    rewrite <- app_assoc. do 3 f_equal. by destruct la.
  - rewrite list_merge_cons. case_decide.
    + rewrite read_record_concat by (by apply Forall_cons in Ha as [_ ?]). cbn [mbind exec_bind].
      rewrite (IH la (y :: lb)); [|by apply Forall_cons in Ha as [_ ?]|done|simpl in *; lia].
      by rewrite <- app_assoc.
    + rewrite read_record_concat by (by apply Forall_cons in Hb as [_ ?]). cbn [mbind exec_bind].
      rewrite (IH (x :: la) lb); [|done|by apply Forall_cons in Hb as [_ ?]|simpl in *; lia].
      by rewrite <- app_assoc.
Qed.

(** A run: the bytes of a sorted list of records. *)
Definition run_of (f : list Z) (l : list (list Z)) : Prop :=
  f = concat l ∧ recs_ok l ∧ Sorted record_le l.

Lemma merge_spec f g la lb :
  run_of f la → run_of g lb →
  ∃ h l, merge n f g = Ok h ∧ run_of h l ∧ Permutation l (la ++ lb).
Proof.
  intros (-> & Ha & Hsa) (-> & Hb & Hsb). unfold merge.
  rewrite !read_record_concat by done. cbn [mbind exec_bind].
  pose proof (length_concat_ge la Ha). pose proof (length_concat_ge lb Hb).
  rewrite merge_loop_spec by (done || lia).
  exists (concat (list_merge record_le la lb)), (list_merge record_le la lb).
  pose proof (merge_Permutation record_le la lb) as Hp.
  split; [done|]. split; [|done]. split; [done|].
  split; [|apply Sorted_list_merge; [apply _|done|done]].
  unfold recs_ok. rewrite Hp. by apply Forall_app.
Qed.

Lemma fill_spec fuel l acc :
  recs_ok l → zlen acc ≤ SORT_BYTES / n → SORT_BYTES / n - zlen acc < Z.of_nat fuel →
  fill fuel n (concat l) acc
  = Ok (acc ++ take (Z.to_nat (SORT_BYTES / n - zlen acc)) l,
        concat (drop (Z.to_nat (SORT_BYTES / n - zlen acc)) l)).
Proof.
  revert l acc. induction fuel as [|fuel IH]; intros l acc Hl Hc Hf; [lia|].
  cbn [fill]. destruct (Z.ltb_spec (zlen acc) (SORT_BYTES / n)).
  - rewrite read_record_concat by done. cbn [mbind exec_bind].
    destruct l as [|r l]; cbn [head tail]; [by rewrite take_nil, drop_nil, app_nil_r|].
    apply Forall_cons in Hl as [Hr Hl]. rewrite IH; [|done|zlia|zlia].
    rewrite zlen_app, zlen_cons, zlen_nil.
    replace (Z.to_nat (SORT_BYTES / n - zlen acc)) with
      (S (Z.to_nat (SORT_BYTES / n - (zlen acc + (1 + 0))))) by lia.
    cbn [take drop]. by rewrite <- app_assoc.
  - replace (Z.to_nat (SORT_BYTES / n - zlen acc)) with 0%nat by lia. simpl.
    by rewrite take_0, drop_0, app_nil_r.
Qed.

Definition slot_of (slot : option (list Z)) (l : list (list Z)) : Prop :=
  match slot with None => l = [] | Some f => run_of f l end.
Definition levels_of : list (option (list Z)) → list (list (list Z)) → Prop := Forall2 slot_of.

(** The binary counter: how many runs the levels stand for. *)
Fixpoint value (levels : list (option (list Z))) : Z :=
  match levels with
  | [] => 0
  | slot :: levels => (match slot with Some _ => 1 | None => 0 end) + 2 * value levels
  end.

Lemma carry_none levels : carry n levels None = Ok (levels, None).
Proof. by destruct levels. Qed.

Lemma carry_spec levels lss f l :
  levels_of levels lss → run_of f l → value levels + 1 < 2 ^ zlen levels →
  ∃ levels' lss', carry n levels (Some f) = Ok (levels', None) ∧ levels_of levels' lss' ∧
    Permutation (concat lss') (l ++ concat lss) ∧ value levels' = value levels + 1 ∧
    zlen levels' = zlen levels.
Proof.
  intros Hls. revert f l. induction Hls as [|slot ls levels lss Hslot Hls IH]; intros f l Hf Hv.
  { change (0 + 1 < 1) in Hv. lia. }
  cbn [carry]. rewrite zlen_cons, Z.pow_add_r in Hv by zlia. change (2 ^ 1) with 2 in Hv.
  destruct slot as [g|]; cbn [value] in Hv.
  - destruct (merge_spec g f ls l Hslot Hf) as (h & m & -> & Hm & Hp). cbn [mbind exec_bind].
    destruct (IH h m Hm ltac:(lia)) as (levels' & lss' & -> & Hl' & Hp' & Hv' & Hz).
    cbn [mbind exec_bind]. exists (None :: levels'), ([] :: lss').
    split; [done|]. split; [by constructor|]. cbn [concat app value]. rewrite !zlen_cons.
    split; [|lia]. rewrite Hp', Hp. rewrite (Permutation_app_comm ls l). by rewrite <- app_assoc.
  - rewrite carry_none. cbn [mbind exec_bind]. simpl in Hslot. subst ls.
    exists (Some f :: levels), (l :: lss).
    split; [done|]. split; [by constructor|]. split; [done|]. split; [cbn [value]; lia|done].
Qed.

Hypothesis Hcap : n ≤ SORT_BYTES.

Lemma cap_pos : 0 < SORT_BYTES / n.
Proof. apply Z.div_str_pos. lia. Qed.

Lemma run_loop_spec fuel l levels lss :
  recs_ok l → levels_of levels lss → (length l < fuel)%nat →
  value levels + zlen l < 2 ^ zlen levels →
  ∃ levels' lss', run_loop fuel n (concat l) levels = Ok levels' ∧ levels_of levels' lss' ∧
    Permutation (concat lss') (l ++ concat lss).
Proof.
  revert l levels lss. induction fuel as [|fuel IH]; intros l levels lss Hl Hls Hf Hv; [lia|].
  cbn [run_loop]. pose proof cap_pos as Hc.
  rewrite fill_spec by (done || rewrite ?zlen_nil; lia). cbn [mbind exec_bind]. rewrite app_nil_l.
  rewrite zlen_nil, Z.sub_0_r. set (k := Z.to_nat (SORT_BYTES / n)).
  destruct l as [|r l]; [rewrite take_nil; by exists levels, lss|].
  remember (take k (r :: l)) as now eqn:Hnow. pose proof (take_drop k (r :: l)) as Htd.
  rewrite <- Hnow in Htd. destruct now as [|x now]; [destruct k eqn:?; [lia|done]|].
  assert (recs_ok (x :: now) ∧ recs_ok (drop k (r :: l))) as [Hx Hd]
    by (unfold recs_ok; rewrite <- Forall_app, Htd; done).
  set (sorted := merge_sort record_le (x :: now)).
  assert (Permutation sorted (x :: now)) as Hps by apply merge_sort_Permutation.
  assert (run_of (concat sorted) sorted) as Hrun.
  { split; [done|]. split; [unfold recs_ok; by rewrite Hps|]. apply Sorted_merge_sort; apply _. }
  assert (zlen (r :: l) = zlen (x :: now) + zlen (drop k (r :: l))) as Hz
    by (rewrite <- Htd at 1; by rewrite zlen_app).
  rewrite zlen_cons in Hz. assert (length (drop k (r :: l)) < length (r :: l))%nat.
  { unfold zlen in Hz. rewrite <- Htd at 2. rewrite length_app. simpl. lia. }
  rewrite (zlen_cons x now) in Hz. pose proof (zlen_nonneg now).
  pose proof (zlen_nonneg (drop k (r :: l))). rewrite zlen_cons in Hv.
  destruct (carry_spec levels lss _ _ Hls Hrun ltac:(lia)) as (levels1 & lss1 & -> & Hls1 & Hp1 & Hv1 & Hz1).
  cbn [mbind exec_bind].
  destruct (IH (drop k (r :: l)) levels1 lss1 Hd Hls1 ltac:(lia) ltac:(rewrite Hv1, Hz1; lia))
    as (levels2 & lss2 & -> & Hls2 & Hp2).
  exists levels2, lss2. split; [done|]. split; [done|]. rewrite Hp2, Hp1, Hps.
  rewrite (app_assoc (drop k (r :: l))), (Permutation_app_comm (drop k (r :: l))).
  by rewrite Htd.
Qed.

Lemma collapse_spec levels lss result l :
  levels_of levels lss → slot_of result l →
  ∃ r l', collapse n levels result = Ok r ∧ slot_of r l' ∧ Permutation l' (l ++ concat lss).
Proof.
  intros Hls. revert result l. induction Hls as [|slot ls levels lss Hslot Hls IH]; intros result l Hr.
  { exists result, l. cbn [concat]. by rewrite app_nil_r. }
  cbn [collapse concat]. destruct slot as [f|]; [|simpl in Hslot; subst; by apply IH].
  destruct result as [g|].
  - destruct (merge_spec g f l ls Hr Hslot) as (h & m & -> & Hm & Hp). cbn [mbind exec_bind].
    destruct (IH (Some h) m Hm) as (r & l' & -> & Hr' & Hp'). exists r, l'.
    split; [done|]. split; [done|]. by rewrite Hp', Hp, <- app_assoc.
  - simpl in Hr. subst l. by apply IH.
Qed.

Lemma sort_records_spec l :
  recs_ok l → zlen (concat l) ≤ U64_MAX →
  sort_records n (concat l) = Ok (concat (merge_sort record_le l)).
Proof.
  intros Hl Hsz. unfold sort_records. pose proof (length_concat_ge l Hl).
  assert (levels_of (replicate 64 None) (replicate 64 [])) as H0
    by (apply Forall2_replicate; done).
  destruct (run_loop_spec (S (length (concat l))) l _ _ Hl H0) as (levels & lss & -> & Hls & Hp); [lia|..].
  { change (value (replicate 64 None)) with 0. change (2 ^ zlen (replicate 64 None)) with (U64_MAX + 1).
    unfold zlen in *. lia. }
  cbn [mbind exec_bind].
  destruct (collapse_spec levels lss None [] Hls eq_refl) as (r & l' & -> & Hr & Hp').
  cbn [mbind exec_bind]. f_equal.
  assert (Permutation l' l) as Hpl.
  { rewrite Hp', app_nil_l, Hp. change (concat (replicate 64 [])) with (@nil (list Z)). by rewrite app_nil_r. }
  destruct r as [f|]; simpl in *.
  - destruct Hr as (-> & _ & Hs). f_equal. apply (StronglySorted_unique record_le).
    + apply Sorted_StronglySorted; [apply _|done].
    + apply StronglySorted_merge_sort; apply _.
    + rewrite Hpl. symmetry. apply merge_sort_Permutation.
  - subst l'. by rewrite <- (proj1 (Permutation_nil_l l) Hpl).
Qed.
End records.

(** ** The offset index *)
Import OffsetIndex PackIndex PackIdentity.

Definition is_u64_pair (r : Z * Z) : Prop := is_u64 r.1 ∧ is_u64 r.2.

Lemma zlen_encode_record r : zlen (encode_record r) = 16.
Proof. unfold encode_record. by rewrite zlen_app, !zlen_to_be_bytes. Qed.

(** Big-endian records compare as the pairs they encode. *)
Lemma compare_bytes_app a b c d :
  zlen a = zlen b →
  compare_bytes (a ++ c) (b ++ d)
  = match compare_bytes a b with Eq => compare_bytes c d | o => o end.
Proof.
  revert b. induction a as [|x a IH]; intros [|y b] Hz; rewrite ?zlen_cons, ?zlen_nil in Hz;
    try (pose proof (zlen_nonneg a)); try (pose proof (zlen_nonneg b)); try lia; [done|].
  cbn [app compare_bytes]. destruct (x ?= y); [apply IH; lia|done..].
Qed.

Lemma compare_to_be_bytes m x y :
  0 ≤ x < 256 ^ Z.of_nat m → 0 ≤ y < 256 ^ Z.of_nat m →
  compare_bytes (to_be_bytes m x) (to_be_bytes m y) = (x ?= y).
Proof.
  revert x y. induction m as [|m IH]; intros x y Hx Hy.
  { change (256 ^ Z.of_nat 0) with 1 in *. replace x with 0 by lia. by replace y with 0 by lia. }
  rewrite Nat2Z.inj_succ, Z.pow_succ_r in Hx, Hy by lia.
  set (p := 256 ^ Z.of_nat m) in *. assert (0 < p) by (apply Z.pow_pos_nonneg; lia).
  assert (∀ z, 0 ≤ z < 256 * p → to_be_bytes (S m) z = z / p :: to_be_bytes m (z `mod` p) ∧
    0 ≤ z / p < 256 ∧ z = p * (z / p) + z `mod` p ∧ 0 ≤ z `mod` p < p) as Hd.
  { intros z Hz. assert (0 ≤ z / p < 256)
      by (split; [apply Z.div_pos|apply Z.div_lt_upper_bound]; lia).
    pose proof (Z.div_mod z p ltac:(lia)). pose proof (Z.mod_pos_bound z p ltac:(lia)).
    split; [|lia]. cbn [to_be_bytes]. fold p. rewrite (Z.mod_small (z / p)) by lia. f_equal.
    rewrite H1 at 1. rewrite (Z.mul_comm p). by apply to_be_bytes_add. }
  destruct (Hd x Hx) as (-> & ? & Ex & ?), (Hd y Hy) as (-> & ? & Ey & ?).
  cbn [compare_bytes]. rewrite IH by done.
  destruct (Z.compare_spec (x / p) (y / p)) as [E|E|E].
  - rewrite Ex at 2. rewrite Ey at 2. rewrite E. symmetry. apply Z.add_compare_mono_l.
  - symmetry. apply Z.compare_lt_iff. nia.
  - symmetry. apply Z.compare_gt_iff. nia.
Qed.

Lemma record_le_pair a b :
  is_u64_pair a → is_u64_pair b → record_le (encode_record a) (encode_record b) ↔ pair_le a b.
Proof.
  intros [Ha1 Ha2] [Hb1 Hb2]. unfold is_u64, U64_MAX in *.
  unfold record_le, pair_le, encode_record. rewrite compare_bytes_app by (by rewrite !zlen_to_be_bytes).
  rewrite !compare_to_be_bytes by (change (256 ^ Z.of_nat 8) with 18446744073709551616; lia).
  destruct (Z.compare_spec a.1 b.1) as [E|E|E]; [|split; [lia|done]|split; [done|lia]].
  destruct (Z.compare_spec a.2 b.2); (split; [|try done]); try lia. by intros [].
Qed.

#[global] Instance pair_le_trans : Transitive pair_le.
Proof. unfold pair_le. intros ???. lia. Qed.
#[global] Instance pair_le_total : Total pair_le.
Proof. unfold pair_le. intros a b. lia. Qed.
#[global] Instance pair_le_antisymm : AntiSymm eq pair_le.
Proof. unfold pair_le. intros [] []. simpl. intros. f_equal; lia. Qed.

(** Sorting the bytes is sorting the pairs. *)
Lemma merge_sort_encode l :
  Forall is_u64_pair l →
  merge_sort record_le (map encode_record l) = map encode_record (merge_sort pair_le l).
Proof.
  intros Hl. apply (StronglySorted_unique record_le).
  - apply StronglySorted_merge_sort; apply _.
  - assert (Forall is_u64_pair (merge_sort pair_le l)) as Hl' by (by rewrite merge_sort_Permutation).
    pose proof (StronglySorted_merge_sort pair_le l) as Hs. revert Hl'.
    induction Hs as [|a k Hs IH Ha]; intros Hk; [constructor|]. apply Forall_cons in Hk as [Hpa Hk].
    cbn [map]. constructor; [by apply IH|]. apply Forall_forall. intros x Hx.
    apply list_elem_of_fmap in Hx as (b & -> & Hb). rewrite Forall_forall in Ha, Hk.
    apply record_le_pair; auto.
  - by rewrite !merge_sort_Permutation.
Qed.

Lemma recs_encode l : recs_ok 16 (map encode_record l).
Proof. apply Forall_forall. intros x (a & -> & _)%list_elem_of_fmap. apply zlen_encode_record. Qed.

Lemma zlen_encoded l : zlen (concat (map encode_record l)) = 16 * zlen l.
Proof. rewrite (zlen_concat 16) by apply recs_encode. by rewrite (zlen_fmap encode_record). Qed.

Lemma disk_sort_pairs l :
  Forall is_u64_pair l → 16 * zlen l ≤ U64_MAX →
  sort_records 16 (concat (map encode_record l)) = Ok (concat (map encode_record (merge_sort pair_le l))).
Proof.
  intros Hl Hsz. rewrite sort_records_spec; [by rewrite merge_sort_encode|lia|by unfold SORT_BYTES| |].
  - apply recs_encode.
  - by rewrite zlen_encoded.
Qed.

(** An offset index holding the sorted records [l]. *)
Definition holds (o : OffsetIndex) (l : list (Z * Z)) : Prop :=
  odata o = concat (map encode_record l) ∧ Forall is_u64_pair l ∧ StronglySorted pair_le l.

Lemma sub_list_encoded l k r :
  0 ≤ k → l !! Z.to_nat k = Some r →
  k < zlen l ∧
  get_range (concat (map encode_record l)) (k * 16) (k * 16 + 16) = Some (encode_record r).
Proof.
  intros Hk Hr. pose proof (take_drop_middle l _ _ Hr) as Hs.
  pose proof (lookup_lt_Some _ _ _ Hr). split; [unfold zlen; lia|].
  rewrite <- Hs. rewrite map_app, concat_app. cbn [map concat].
  assert (zlen (concat (map encode_record (take (Z.to_nat k) l))) = k * 16) as Hp.
  { rewrite zlen_encoded. unfold zlen. rewrite length_take. lia. }
  pose proof (zlen_encode_record r). apply get_range_Some.
  split; [lia|]. split; [zlia|]. symmetry. apply sub_list_middle; lia.
Qed.

Lemma record_holds o l k r :
  holds o l → 0 ≤ k → l !! Z.to_nat k = Some r → record o k = Ok r.
Proof.
  intros (Ho & Hu & _) Hk Hr. destruct (sub_list_encoded l k r Hk Hr) as [_ Hg].
  unfold record. rewrite Ho, Hg. cbn [ok_or mbind exec_bind].
  rewrite (slice_ok _ 0 8) by (rewrite ?zlen_encode_record; lia). cbn [mbind exec_bind].
  unfold encode_record at 2 3. rewrite slice_suffix by (by rewrite zlen_to_be_bytes).
  cbn [mbind exec_bind]. rewrite Forall_forall in Hu.
  destruct (Hu r ltac:(by eapply list_elem_of_lookup_2)) as [H1 H2].
  assert (∀ x, is_u64 x → from_be_bytes (to_be_bytes 8 x) = x) as Hb.
  { intros x Hx. apply from_to_be_bytes_small. change (256 ^ Z.of_nat 8) with 18446744073709551616.
    unfold is_u64, U64_MAX in Hx. lia. }
  rewrite (Hb r.2) by done. rewrite (proj2 (Z.leb_le r.2 USIZE_MAX)) by apply H2.
  assert (sub_list (encode_record r) 0 8 = to_be_bytes 8 r.1) as ->.
  { unfold encode_record. apply (sub_list_middle []); [done|by rewrite zlen_to_be_bytes]. }
  rewrite (Hb r.1) by done. by destruct r.
Qed.

Lemma holds_size o l : holds o l → zlen (odata o) / 16 = zlen l.
Proof.
  intros (-> & _ & _). rewrite zlen_encoded, Z.mul_comm. by apply Z.div_mul.
Qed.

Lemma holds_le o l j k a b :
  holds o l → (j ≤ k)%nat → l !! j = Some a → l !! k = Some b → a.1 ≤ b.1.
Proof.
  intros (_ & _ & Hs) Hjk Ha Hb. destruct (decide (j = k)) as [->|]; [by simplify_eq|].
  pose proof (StronglySorted_lookup_lt pair_le l j k a b Hs Ha Hb ltac:(lia)) as H.
  unfold pair_le in H. lia.
Qed.

Lemma lookup_zlen {A} (l : list A) k : 0 ≤ k < zlen l → ∃ x, l !! Z.to_nat k = Some x.
Proof. intros. apply lookup_lt_is_Some_2. unfold zlen in *. lia. Qed.

Lemma lower_bound_spec o l off fuel low high :
  holds o l → 0 ≤ low ≤ high → high ≤ zlen l → high - low < Z.of_nat fuel →
  (∀ k r, l !! k = Some r → Z.of_nat k < low → r.1 < off) →
  (∀ k r, l !! k = Some r → high ≤ Z.of_nat k → off ≤ r.1) →
  returns (lower_bound fuel o off low high) (λ p, low ≤ p ≤ high ∧
    (∀ k r, l !! k = Some r → Z.of_nat k < p → r.1 < off) ∧
    (∀ k r, l !! k = Some r → p ≤ Z.of_nat k → off ≤ r.1)).
Proof.
  intros Ho. revert low high. induction fuel as [|fuel IH]; intros low high Hl Hh Hf Hlo Hhi; [lia|].
  cbn [lower_bound]. destruct (Z.ltb_spec low high); [|simpl; split; [lia|]; split; [done|];
    intros k r Hr Hk; apply (Hhi k r Hr); lia].
  set (mid := low + (high - low) / 2).
  assert (low ≤ mid < high) as Hmid by (unfold mid; Z.to_euclidean_division_equations; lia).
  destruct (lookup_zlen l mid ltac:(lia)) as [r Hr].
  rewrite (record_holds o l mid r Ho ltac:(lia) Hr). cbn [mbind exec_bind].
  destruct (Z.ltb_spec r.1 off) as [Hlt|Hge].
  - eapply returns_mono; [apply IH; [lia..| |done]|intros p (Hp & Hp1 & Hp2); split; [lia|done]].
    intros k r' Hr' Hk. pose proof (holds_le o l k (Z.to_nat mid) r' r Ho ltac:(lia) Hr' Hr). lia.
  - eapply returns_mono; [apply IH; [lia..|done|]|intros p (Hp & Hp1 & Hp2); split; [lia|done]].
    intros k r' Hr' Hk. pose proof (holds_le o l (Z.to_nat mid) k r r' Ho ltac:(lia) Hr Hr'). lia.
Qed.

Lemma aliases_spec o l off :
  holds o l →
  returns (aliases o off) (λ b, b = true ↔
    ∃ j k x y, (j < k)%nat ∧ l !! j = Some x ∧ l !! k = Some y ∧ x.1 = off ∧ y.1 = off).
Proof.
  intros Ho. unfold aliases. rewrite (holds_size o l Ho). pose proof (zlen_nonneg l).
  step (lower_bound_spec o l off (S (Z.to_nat (zlen l))) 0 (zlen l) Ho) as Hp; [lia|lia|lia|intros; lia|..].
  { intros k r Hr Hk. apply lookup_lt_Some in Hr. unfold zlen in Hk. lia. }
  rename a into p. destruct Hp as (Hp & Hlo & Hhi).
  assert (∀ j x, l !! j = Some x → x.1 = off → p ≤ Z.of_nat j) as Hge.
  { intros j x Hj Hx. destruct (Z.le_gt_cases p (Z.of_nat j)); [done|].
    specialize (Hlo j x Hj ltac:(lia)). lia. }
  destruct (Z.ltb_spec (p + 1) (zlen l)) as [Hlt|Hnlt].
  2:{ simpl. split; [done|]. intros (j & k & x & y & Hjk & Hj & Hk & Hx & Hy).
      pose proof (Hge j x Hj Hx). apply lookup_lt_Some in Hk. unfold zlen in Hnlt. lia. }
  destruct (lookup_zlen l p ltac:(lia)) as [r Hr].
  destruct (lookup_zlen l (p + 1) ltac:(lia)) as [r' Hr'].
  rewrite (record_holds o l p r Ho ltac:(lia) Hr). cbn [mbind exec_bind].
  assert ((∃ j k x y, (j < k)%nat ∧ l !! j = Some x ∧ l !! k = Some y ∧ x.1 = off ∧ y.1 = off)
    ↔ r.1 = off ∧ r'.1 = off) as Hequiv.
  { split.
    - intros (j & k & x & y & Hjk & Hj & Hk & Hx & Hy). pose proof (Hge j x Hj Hx).
      pose proof (holds_le o l (Z.to_nat p) j r x Ho ltac:(lia) Hr Hj).
      pose proof (holds_le o l (Z.to_nat (p + 1)) k r' y Ho ltac:(lia) Hr' Hk).
      pose proof (Hhi _ r Hr ltac:(lia)). pose proof (Hhi _ r' Hr' ltac:(lia)). lia.
    - intros [? ?]. exists (Z.to_nat p), (Z.to_nat (p + 1)), r, r'. split; [lia|done]. }
  eapply (returns_mono _ (λ b, b = true ↔ r.1 = off ∧ r'.1 = off));
    [|intros b Hb; by rewrite Hb, Hequiv].
  destruct (Z.eqb_spec r.1 off) as [E|E]; [|split; [done|by intros [? _]]].
  rewrite (record_holds o l (p + 1) r' Ho ltac:(lia) Hr'). cbn [mbind exec_bind returns].
  destruct (Z.eqb_spec r'.1 off); [done|split; [done|by intros [_ ?]]].
Qed.

(** A run of records with one offset, and what the visitor is told of it. *)
Definition run_ok (run : list (Z * Z)) : Prop :=
  ∃ r rest, run = r :: rest ∧ Forall (λ x, x.1 = r.1) rest.
Definition run_offset (run : list (Z * Z)) : Z := match run with r :: _ => r.1 | [] => 0 end.
Definition run_ordinal (run : list (Z * Z)) : Z := match run with r :: _ => r.2 | [] => 0 end.

Fixpoint visit_runs {St} (visitor : St → Z → Z → Z → res St) (runs : list (list (Z * Z))) (s : St)
  : res St :=
  match runs with
  | [] => Ok s
  | run :: runs =>
      s ← visitor s (run_offset run) (run_ordinal run) (zlen run);
      visit_runs visitor runs s
  end.

Lemma skip_run_spec o l off fuel next :
  holds o l → 0 ≤ next ≤ zlen l → zlen l - next < Z.of_nat fuel →
  returns (skip_run fuel o off next) (λ p, next ≤ p ≤ zlen l ∧
    Forall (λ x, x.1 = off) (sub_list l next p) ∧
    ∀ r, l !! Z.to_nat p = Some r → r.1 ≠ off).
Proof.
  intros Ho. revert next. induction fuel as [|fuel IH]; intros next Hn Hf; [lia|].
  cbn [skip_run]. rewrite (holds_size o l Ho). destruct (Z.ltb_spec next (zlen l)) as [Hlt|Hge].
  - destruct (lookup_zlen l next ltac:(lia)) as [r Hr].
    rewrite (record_holds o l next r Ho ltac:(lia) Hr). cbn [mbind exec_bind].
    destruct (Z.eqb_spec r.1 off) as [E|E].
    + eapply returns_mono; [apply IH; lia|]. cbv beta. intros p (Hp & Hrun & Hnext).
      split; [lia|]. split; [|done]. rewrite (sub_list_cons l next p r) by (done || lia).
      by constructor.
    + simpl. split; [lia|]. rewrite sub_list_nil. split; [constructor|]. intros r' Hr'.
      by simplify_eq.
  - simpl. split; [lia|]. rewrite sub_list_nil. split; [constructor|]. intros r' Hr'.
    apply lookup_lt_Some in Hr'. unfold zlen in *. lia.
Qed.

Lemma sub_list_drop {A} (l : list A) i j :
  0 ≤ i ≤ j → sub_list l i j ++ drop (Z.to_nat j) l = drop (Z.to_nat i) l.
Proof.
  intros. unfold sub_list.
  replace (drop (Z.to_nat j) l) with (drop (Z.to_nat (j - i)) (drop (Z.to_nat i) l))
    by (rewrite drop_drop; f_equal; lia).
  apply take_drop.
Qed.

Lemma visit_loop_spec {St} (visitor : St → Z → Z → Z → res St) o l fuel next :
  holds o l → 0 ≤ next ≤ zlen l → zlen l - next < Z.of_nat fuel →
  ∃ runs, concat runs = drop (Z.to_nat next) l ∧ Forall run_ok runs ∧
    Sorted Z.lt (map run_offset runs) ∧
    ∀ s, visit_loop visitor fuel o next s = visit_runs visitor runs s.
Proof.
  intros Ho. revert next. induction fuel as [|fuel IH]; intros next Hn Hf; [lia|].
  cbn [visit_loop]. rewrite (holds_size o l Ho). destruct (Z.ltb_spec next (zlen l)) as [Hlt|Hge].
  2:{ exists []. rewrite drop_ge by (unfold zlen in *; lia). repeat split; constructor. }
  destruct (lookup_zlen l next ltac:(lia)) as [[off ord] Hr].
  rewrite (record_holds o l next (off, ord) Ho ltac:(lia) Hr). cbn [mbind exec_bind].
  destruct (returns_inv _ _ (skip_run_spec o l off (S (Z.to_nat (zlen l))) (next + 1) Ho
    ltac:(lia) ltac:(lia))) as (p & -> & Hp & Hrun & Hstop). cbn [mbind exec_bind].
  destruct (IH p ltac:(lia) ltac:(lia)) as (runs & Hc & Hok & Hs & Hv).
  exists (sub_list l next p :: runs). pose proof (sub_list_cons l next p _ ltac:(lia) Hr) as Hsub.
  assert (run_ok (sub_list l next p)) as Hro.
  { rewrite Hsub. by exists (off, ord), (sub_list l (next + 1) p). }
  split; [cbn [concat]; rewrite Hc; by apply sub_list_drop; lia|].
  split; [by constructor|]. split.
  - cbn [map]. constructor; [done|]. destruct runs as [|run runs]; constructor.
    apply Forall_cons in Hok as [(r & rest & -> & _) _]. rewrite Hsub. cbn [run_offset].
    assert (l !! Z.to_nat p = Some r) as Hr'.
    { replace (Z.to_nat p) with (Z.to_nat p + 0)%nat by lia. rewrite <- lookup_drop, <- Hc. done. }
    pose proof (Hstop r Hr').
    pose proof (holds_le o l (Z.to_nat next) (Z.to_nat p) _ r Ho ltac:(lia) Hr Hr'). simpl in *. lia.
  - intros s. cbn [visit_runs]. rewrite zlen_sub_list by lia. rewrite Hsub. cbn [run_offset run_ordinal fst snd].
    destruct (visitor s off ord (p - next)); cbn [mbind exec_bind]; [apply Hv|done..].
Qed.

(** ** Pack identity *)
Section identity.
  Context (blake3 : list Z → list Z).

Definition object_entry (o : PackObjectId * ObjectType * list Z) : list Z :=
  let '(i, t, d) := o in inventory_entry blake3 i t d.

(** The builder after a sequence of pushes. *)
Definition build (objects : list (PackObjectId * ObjectType * list Z)) : LogicalIdBuilder :=
  fold_left (λ b '(i, t, d), push blake3 b i t d) objects builder_new.

Lemma inventory_build objects : inventory (build objects) = map object_entry objects.
Proof.
  unfold build. assert (∀ b, inventory (fold_left (λ b '(i, t, d), push blake3 b i t d) objects b)
    = inventory b ++ map object_entry objects) as H.
  { induction objects as [|[[i t] d] objects IH]; intros b; cbn [fold_left map]; [by rewrite app_nil_r|].
    rewrite IH. cbn [push inventory]. by rewrite <- app_assoc. }
  by rewrite H.
Qed.

(** Fixed-width records are read back from their concatenation. *)
Lemma concat_inj n (l k : list (list Z)) :
  0 < n → recs_ok n l → recs_ok n k → concat l = concat k → l = k.
Proof.
  intros Hn Hl. revert k. induction Hl as [|a l Ha Hl IH]; intros k Hk E.
  - destruct Hk as [|b k Hb Hk]; [done|]. cbn [concat] in E.
    apply (f_equal zlen) in E. rewrite zlen_app, zlen_nil in E. pose proof (zlen_nonneg (concat k)). lia.
  - destruct Hk as [|b k Hb Hk]; cbn [concat] in E.
    + apply (f_equal zlen) in E. rewrite zlen_app, zlen_nil in E. pose proof (zlen_nonneg (concat l)). lia.
    + apply app_inj_1 in E as [-> E]; [|unfold zlen in *; lia]. f_equal. by apply IH.
Qed.

Lemma canonical_permutation a b :
  recs_ok 66 (inventory a) → recs_ok 66 (inventory b) →
  canonical a = canonical b ↔ Permutation (inventory a) (inventory b).
Proof.
  intros Ha Hb. unfold canonical. split.
  - intros [_ E]%app_inj_1; [|reflexivity].
    rewrite <- (merge_sort_Permutation record_le (inventory a)),
      <- (merge_sort_Permutation record_le (inventory b)).
    assert (∀ l, recs_ok 66 l → recs_ok 66 (merge_sort record_le l)) as Hms
      by (intros l Hl; unfold recs_ok; by rewrite (merge_sort_Permutation record_le l)).
    by rewrite (concat_inj 66 _ _ eq_refl (Hms _ Ha) (Hms _ Hb) E).
  - intros Hp. f_equal; [by unfold zlen; rewrite Hp|]. f_equal.
    apply (StronglySorted_unique record_le).
    + apply StronglySorted_merge_sort; apply _.
    + apply StronglySorted_merge_sort; apply _.
    + by rewrite !merge_sort_Permutation.
Qed.

Lemma zlen_object_entry i t d :
  id_ok i → zlen (blake3 d) = 32 → zlen (inventory_entry blake3 i t d) = 66.
Proof. intros [Hi _] Hb. unfold inventory_entry. rewrite !zlen_app, !zlen_cons, !zlen_nil. lia. Qed.

Lemma recs_inventory l :
  (∀ d, zlen (blake3 d) = 32) → Forall (λ o : PackObjectId * ObjectType * list Z, id_ok o.1.1) l →
  recs_ok 66 (inventory (build l)).
Proof.
  intros Hb Hl. rewrite inventory_build. apply Forall_map. eapply Forall_impl; [exact Hl|].
  intros [[i t] d] Hi. by apply zlen_object_entry.
Qed.
Lemma logical_id_permutation derive xs ys :
  (∀ d, zlen (blake3 d) = 32) → Forall (λ o : PackObjectId * ObjectType * list Z, id_ok o.1.1) xs → Permutation xs ys →
  logical_id_from_objects blake3 derive xs = logical_id_from_objects blake3 derive ys.
Proof.
  intros Hb Hx Hp. unfold logical_id_from_objects, finish. f_equal. apply canonical_permutation.
  - by apply recs_inventory.
  - apply recs_inventory; [done|]. by rewrite <- Hp.
  - change (Permutation (inventory (build xs)) (inventory (build ys))). rewrite !inventory_build. by apply Permutation_map.
Qed.
End identity.

(** * Properties *)

(** The external sort sorts: on any file of [n]-byte records (at most 2^64
    bytes, the size of an addressable file) it terminates without error and
    writes the records in order, each as often as it was in the input, whatever
    the number of runs and levels it took. *)
Theorem disk_sort_sorts n l :
  0 < n → n ≤ SORT_BYTES → recs_ok n l → zlen (concat l) ≤ U64_MAX →
  ∃ sorted, sort_records n (concat l) = Ok (concat sorted) ∧ Permutation sorted l ∧
    StronglySorted record_le sorted.
Proof.
  intros Hn Hc Hl Hsz. exists (merge_sort record_le l). split; [by apply sort_records_spec|].
  split; [apply merge_sort_Permutation|apply StronglySorted_merge_sort; apply _].
Qed.
Lemma disk_sort_sorts_witness :
  let l := [[3; 1]; [2; 9]; [2; 8]] in
  ∃ sorted, sort_records 2 (concat l) = Ok (concat sorted) ∧ Permutation sorted l ∧
    StronglySorted record_le sorted.
Proof.
  apply disk_sort_sorts; [lia|unfold SORT_BYTES; lia|repeat constructor|].
  unfold zlen, U64_MAX; simpl; lia.
Defined.

(** Both ways of building the offset index. *)
Lemma offset_index_new ix es :
  reads ix (seqZ 0 (len ix)) es → Forall (λ e, is_u64 (offset e)) es →
  16 * len ix ≤ U64_MAX →
  ∃ o l, (∀ has_root, OffsetIndex.new ix has_root = Ok o) ∧ holds o l ∧
    Permutation l (zip (map offset es) (seqZ 0 (len ix))).
Proof.
  intros Hr He Hsz. set (l0 := zip (map offset es) (seqZ 0 (len ix))).
  assert (zlen es = Z.max 0 (len ix)) as Hlen.
  { unfold reads in Hr. apply Forall2_length in Hr. rewrite length_seqZ in Hr. unfold zlen. lia. }
  assert (enumerate_offsets ix = Ok l0) as Hen.
  { unfold enumerate_offsets. apply try_collect_reads. unfold l0. clear -Hr. unfold reads in Hr.
    induction Hr as [|k e ks es Hk Hr IH]; [constructor|]. cbn [map zip zip_with].
    constructor; [by rewrite Hk|done]. }
  assert (Forall is_u64_pair l0) as Hu.
  { apply Forall_lookup_2. intros k [a b] Hk. unfold l0 in Hk. apply lookup_zip_with_Some in Hk as (x & y & [= -> ->] & Hx & Hy).
    rewrite list_lookup_fmap in Hx. apply fmap_Some in Hx as (e & He' & ->).
    apply lookup_seqZ in Hy as [-> Hy]. rewrite Forall_lookup in He. split; [by eapply He|].
    unfold is_u64. simpl. lia. }
  assert (zlen l0 = zlen es) as Hz.
  { unfold l0, zlen in *. rewrite length_zip_with, length_map, length_seqZ. lia. }
  exists {| odata := concat (map encode_record (merge_sort pair_le l0)) |}, (merge_sort pair_le l0).
  split.
  - intros hr. unfold OffsetIndex.new. rewrite Hen. cbn [mbind exec_bind].
    destruct (negb hr || _); [done|].
    rewrite disk_sort_pairs by (done || (rewrite Hz, Hlen; unfold U64_MAX in *; lia)).
    cbn [mbind exec_bind]. unfold is_empty. destruct (Z.eqb_spec (len ix) 0) as [E|]; [|done].
    assert (l0 = []) as -> by (apply zlen_0_nil; lia). done.
  - split; [|apply merge_sort_Permutation]. split; [done|].
    split; [by rewrite merge_sort_Permutation|apply StronglySorted_merge_sort; apply _].
Qed.

(** The two ways of building the offset index agree: for an index that reads
    as [es], the in-memory path and the external-sort path give the same bytes,
    the offset and ordinal of every entry in increasing order. *)
Theorem offset_index_build ix es :
  reads ix (seqZ 0 (len ix)) es → Forall (λ e, is_u64 (offset e)) es →
  16 * len ix ≤ U64_MAX →
  ∃ o l, (∀ has_root, OffsetIndex.new ix has_root = Ok o) ∧ holds o l ∧
    Permutation l (zip (map offset es) (seqZ 0 (len ix))).
Proof. apply offset_index_new. Qed.
Lemma offset_index_build_witness :
  let es := [{| entry_id := Hash (replicate 32 2); offset := 12 |};
             {| entry_id := StateId (replicate 32 1); offset := 5 |}] in
  let ix := {| entries := es; encoded := None |} in
  ∃ o l, (∀ has_root, OffsetIndex.new ix has_root = Ok o) ∧ holds o l ∧
    Permutation l (zip (map offset es) (seqZ 0 (len ix))).
Proof.
  apply offset_index_build; [repeat constructor| |vm_compute; intros [=]].
  repeat constructor; vm_compute; intros [=].
Defined.

(** Queries of the offset index: [aliases] answers whether two entries of
    the pack share the offset, and [visit] calls the visitor once per distinct
    offset, in increasing order, with the smallest ordinal and the number of
    entries of that offset; both always terminate without error of their own. *)
Theorem offset_index_queries o l :
  holds o l →
  (∀ off, returns (aliases o off) (λ b, b = true ↔
     ∃ j k x y, (j < k)%nat ∧ l !! j = Some x ∧ l !! k = Some y ∧ x.1 = off ∧ y.1 = off)) ∧
  (∀ St (visitor : St → Z → Z → Z → res St), ∃ runs,
     concat runs = l ∧ Forall run_ok runs ∧ Sorted Z.lt (map run_offset runs) ∧
     ∀ s, visit visitor o s = visit_runs visitor runs s).
Proof.
  intros Ho. split; [intros off; by apply aliases_spec|]. intros St visitor.
  pose proof (zlen_nonneg l).
  destruct (visit_loop_spec visitor o l (S (Z.to_nat (zlen (odata o) / 16))) 0 Ho) as (runs & Hr);
    [lia|rewrite (holds_size o l Ho); lia|]. by exists runs.
Qed.
Lemma offset_index_queries_witness :
  let o := {| odata := concat (map encode_record [(5, 1); (12, 0); (12, 2)]) |} in
  let l := [(5, 1); (12, 0); (12, 2)] in
  (∀ off, returns (aliases o off) (λ b, b = true ↔
     ∃ j k x y, (j < k)%nat ∧ l !! j = Some x ∧ l !! k = Some y ∧ x.1 = off ∧ y.1 = off)) ∧
  (∀ St (visitor : St → Z → Z → Z → res St), ∃ runs,
     concat runs = l ∧ Forall run_ok runs ∧ Sorted Z.lt (map run_offset runs) ∧
     ∀ s, visit visitor o s = visit_runs visitor runs s).
Proof.
  apply offset_index_queries. split; [done|].
  split; repeat constructor; unfold is_u64, U64_MAX, pair_le; simpl; lia.
Defined.

(** The logical pack id identifies the multiset of logical objects: two
    sequences of objects feed the same bytes to the digest exactly when their
    inventory records are the same up to order, so the id does not depend on the
    order of the records and distinct inventories are distinguished as far as the
    digest distinguishes its inputs. *)
Theorem logical_id_inventory blake3 derive xs ys :
  Forall (λ o, id_ok o.1.1) (xs ++ ys) → (∀ d, zlen (blake3 d) = 32) →
  (canonical (build blake3 xs) = canonical (build blake3 ys) ↔
     Permutation (map (object_entry blake3) xs) (map (object_entry blake3) ys)) ∧
  (Permutation xs ys →
     logical_id_from_objects blake3 derive xs = logical_id_from_objects blake3 derive ys).
Proof.
  intros [Hx Hy]%Forall_app Hb. split; [|by apply logical_id_permutation].
  rewrite <- !inventory_build. apply canonical_permutation; by apply recs_inventory.
Qed.
Lemma logical_id_inventory_witness :
  let blake3 := λ d : list Z, replicate 32 (zlen d `mod` 256) in
  let xs := [(Hash (replicate 32 1), Blob, [1; 2]); (StateId (replicate 32 2), State, [3])] in
  let ys := [(StateId (replicate 32 2), State, [3]); (Hash (replicate 32 1), Blob, [1; 2])] in
  (canonical (build blake3 xs) = canonical (build blake3 ys) ↔
     Permutation (map (object_entry blake3) xs) (map (object_entry blake3) ys)) ∧
  (Permutation xs ys →
     logical_id_from_objects blake3 (λ x, x) xs = logical_id_from_objects blake3 (λ x, x) ys).
Proof.
  apply logical_id_inventory; [|done].
  repeat constructor; vm_compute; try done; intros [=].
Defined.
