(* ===== verification/Merge.v ===== *)
(** * Three-way text merge ([crates/merge/src])

    Module [Merge] models the line-based merge: line splitting and alignment
    ([lines.rs]), conflict markers ([markers.rs]), the trailing-whitespace policy
    ([whitespace.rs]), the binary check ([preflight.rs]), the diff3 walk with the
    patch composer ([diff3.rs]) and the entry points of [lib.rs].  Bytes are
    [Z]; a line is its list of bytes.  The diff of two line sequences comes from
    the [similar] crate: it is the parameter [diff], and what the walk relies on
    is that it returns an edit script between the two sequences. *)

From S2P Require Import Prelude.

Module Merge.

Abbreviation line := (list Z).

(** The operations of an edit script ([similar::DiffOp]). *)
Inductive DiffOp :=
| OpEqual (old_index new_index len : Z)
| OpDelete (old_index old_len new_index : Z)
| OpInsert (old_index new_index new_len : Z)
| OpReplace (old_index old_len new_index new_len : Z).

Record ConflictLineRange := { start : Z; stop : Z }.
Record TextConflictRegion := {
  r_base : ConflictLineRange;
  r_ours : ConflictLineRange;
  r_theirs : ConflictLineRange;
  r_merged : ConflictLineRange
}.

Inductive MergeOutcome :=
| Clean (bytes : list Z)
| Conflicts (merged_bytes_with_markers : list Z) (conflict_count : Z)
| Binary
| DeleteVsModify.

(** ** [preflight.rs] *)
Definition BINARY_SNIFF_LEN : Z := 8192.
Definition is_binary (bytes : list Z) : bool :=
  bool_decide (0 ∈ sub_list bytes 0 (Z.min (zlen bytes) BINARY_SNIFF_LEN)).
Definition any_binary (base ours theirs : list Z) : bool :=
  is_binary base || is_binary ours || is_binary theirs.

(** ** [lines.rs] *)
(** [bytes.split_inclusive(|&b| b == b'\n')], [cur] being the line in progress. *)
Fixpoint split_inclusive (cur : line) (bytes : list Z) : list line :=
  match bytes with
  | [] => match cur with [] => [] | _ => [cur] end
  | b :: bytes =>
      if b =? 10 then (cur ++ [b]) :: split_inclusive [] bytes
      else split_inclusive (cur ++ [b]) bytes
  end.
Definition split_lines (bytes : list Z) : list line :=
  match bytes with [] => [] | _ => split_inclusive [] bytes end.

(** [for k in 0..len { align[old_index + k] = Some(new_index + k) }] *)
Fixpoint align_range (ks : list Z) (old_index new_index : Z) (align : list (option Z))
  : pure (list (option Z)) :=
  match ks with
  | [] => Ok align
  | k :: ks =>
      align ← vec_set align (old_index + k) (Some (new_index + k));
      align_range ks old_index new_index align
  end.

Fixpoint align_ops (ops : list DiffOp) (align : list (option Z)) : pure (list (option Z)) :=
  match ops with
  | [] => Ok align
  | OpEqual old_index new_index len :: ops =>
      align ← align_range (seqZ 0 len) old_index new_index align;
      align_ops ops align
  | _ :: ops => align_ops ops align
  end.

(** ** [markers.rs] *)
Record ConflictMarkers := { m_ours : list Z; m_theirs : list Z }.
(** ["CURRENT"] and ["INCOMING"] *)
Definition DEFAULT : ConflictMarkers :=
  {| m_ours := [67; 85; 82; 82; 69; 78; 84]; m_theirs := [73; 78; 67; 79; 77; 73; 78; 71] |}.

Definition emit_lines (out : list Z) (lines : list line) : list Z :=
  fold_left (λ out l, out ++ l) lines out.

Definition ensure_trailing_newline (out : list Z) : list Z :=
  match last out with
  | Some b => if negb (b =? 10) then out ++ [10] else out
  | None => out
  end.

Definition emit_conflict (out : list Z) (our_slice their_slice : list line)
    (markers : ConflictMarkers) : list Z :=
  let out := out ++ [60; 60; 60; 60; 60; 60; 60; 32] in
  let out := out ++ m_ours markers in
  let out := out ++ [10] in
  let out := emit_lines out our_slice in
  let out := ensure_trailing_newline out in
  let out := out ++ [61; 61; 61; 61; 61; 61; 61; 10] in
  let out := emit_lines out their_slice in
  let out := ensure_trailing_newline out in
  let out := out ++ [62; 62; 62; 62; 62; 62; 62; 32] in
  let out := out ++ m_theirs markers in
  out ++ [10].

(** ** [whitespace.rs] *)
(** [line.strip_suffix(suffix)] *)
Definition strip_suffix (l suffix : list Z) : option (list Z) :=
  let n := (length l - length suffix)%nat in
  if bool_decide (drop n l = suffix) then Some (take n l) else None.

Definition split_line_ending (l : line) : line * line :=
  match strip_suffix l [13; 10] with
  | Some stripped => (stripped, [13; 10])
  | None =>
      match strip_suffix l [10] with
      | Some stripped => (stripped, [10])
      | None => (l, [])
      end
  end.

(** [b' '] or [b'\t'] *)
Definition is_ws (b : Z) : bool := (b =? 32) || (b =? 9).

(** [body.iter().rposition(p)] *)
Fixpoint rposition (p : Z → bool) (l : list Z) : option Z :=
  match l with
  | [] => None
  | b :: l =>
      match rposition p l with
      | Some i => Some (i + 1)
      | None => if p b then Some 0 else None
      end
  end.

Definition trailing_ws_key (l : line) : line * line :=
  let '(body, ending) := split_line_ending l in
  let stripped_body :=
    match rposition (λ b, negb (is_ws b)) body with
    | Some idx => sub_list body 0 (idx + 1)
    | None => []
    end in
  (stripped_body, ending).

(** [iter().rev().take_while(p).count()] *)
Fixpoint take_while_count (p : Z → bool) (l : list Z) : Z :=
  match l with
  | [] => 0
  | b :: l => if p b then 1 + take_while_count p l else 0
  end.

Definition count_trailing_ws (l : line) : Z :=
  let '(body, _) := split_line_ending l in take_while_count is_ws (reverse body).

Fixpoint compare_ws_loop (a b : list line) (a_ws b_ws : Z) : option (Z * Z) :=
  match a, b with
  | x :: a, y :: b =>
      if bool_decide (trailing_ws_key x ≠ trailing_ws_key y) then None
      else compare_ws_loop a b (a_ws + count_trailing_ws x) (b_ws + count_trailing_ws y)
  | _, _ => Some (a_ws, b_ws)
  end.
Definition compare_trailing_ws (a b : list line) : option (list line) :=
  if negb (zlen a =? zlen b) then None
  else
    match compare_ws_loop a b 0 0 with
    | None => None
    | Some (a_ws, b_ws) => Some (if a_ws <=? b_ws then a else b)
    end.

(** ** [diff3.rs] *)
Inductive LineAction :=
| Keep
| Replace (lines : list line)
| Delete.

Definition compose_gap (out : list Z) (ours theirs : list line) : option (list Z) :=
  match ours, theirs with
  | [], [] => Some out
  | [], _ => Some (emit_lines out theirs)
  | _, [] => Some (emit_lines out ours)
  | _, _ => if bool_decide (ours = theirs) then Some (emit_lines out ours) else None
  end.

(** The lines [side[new_index + k]] for [k] in [ks]. *)
Fixpoint collect_lines (side : list line) (new_index : Z) (ks : list Z) (acc : list line)
  : pure (list line) :=
  match ks with
  | [] => Ok acc
  | k :: ks =>
      l ← index side (new_index + k);
      collect_lines side new_index ks (acc ++ [l])
  end.

(** [actions[old_index + k] = LineAction::Delete] for [k] in [ks]. *)
Fixpoint delete_lines (old_index : Z) (ks : list Z) (actions : list LineAction)
  : pure (list LineAction) :=
  match ks with
  | [] => Ok actions
  | k :: ks =>
      actions ← vec_set actions (old_index + k) Delete;
      delete_lines old_index ks actions
  end.

Definition classify_op (base_len : Z) (side : list line) (op : DiffOp)
    (tables : list LineAction * list (list line)) : pure (list LineAction * list (list line)) :=
  let '(actions, inserts) := tables in
  match op with
  | OpEqual _ _ _ => Ok (actions, inserts)
  | OpInsert old_index new_index new_len =>
      let slot := Z.min old_index base_len in
      present ← index inserts slot;
      present ← collect_lines side new_index (seqZ 0 new_len) present;
      inserts ← vec_set inserts slot present;
      Ok (actions, inserts)
  | OpDelete old_index old_len _ =>
      actions ← delete_lines old_index (seqZ 0 old_len) actions;
      Ok (actions, inserts)
  | OpReplace old_index old_len new_index new_len =>
      repl ← collect_lines side new_index (seqZ 0 new_len) [];
      actions ← vec_set actions old_index (Replace repl);
      actions ← delete_lines old_index (seqZ 1 (old_len - 1)) actions;
      Ok (actions, inserts)
  end.

Fixpoint classify_ops (base_len : Z) (side : list line) (ops : list DiffOp)
    (tables : list LineAction * list (list line)) : pure (list LineAction * list (list line)) :=
  match ops with
  | [] => Ok tables
  | op :: ops =>
      tables ← classify_op base_len side op tables;
      classify_ops base_len side ops tables
  end.

Definition compose_action (out : list Z) (b : line) (ours theirs : LineAction) : option (list Z) :=
  match ours, theirs with
  | Keep, Keep => Some (out ++ b)
  | Keep, Replace repl | Replace repl, Keep => Some (emit_lines out repl)
  | Keep, Delete | Delete, Keep => Some out
  | _, _ => None
  end.

(** The loop over base lines of [compose_disjoint]; [None] is the [return None]
    or the [?] on a gap. *)
Fixpoint compose_loop (idxs : list Z) (base : list line)
    (our_actions : list LineAction) (our_inserts : list (list line))
    (their_actions : list LineAction) (their_inserts : list (list line)) (out : list Z)
  : pure (option (list Z)) :=
  match idxs with
  | [] => Ok (Some out)
  | i :: idxs =>
      oi ← index our_inserts i;
      ti ← index their_inserts i;
      match compose_gap out oi ti with
      | None => Ok None
      | Some out =>
          oa ← index our_actions i;
          ta ← index their_actions i;
          b ← index base i;
          match compose_action out b oa ta with
          | None => Ok None
          | Some out => compose_loop idxs base our_actions our_inserts their_actions their_inserts out
          end
      end
  end.

Definition output_line_count (bytes : list Z) : Z :=
  zlen (filter (λ b, b = 10) bytes)
  + (match last bytes with Some b => if negb (b =? 10) then 1 else 0 | None => 0 end).

(** The scan for the end of an unstable hunk: [(j, end_our, end_their)]. *)
Fixpoint scan_hunk (fuel : nat) (base_len ours_len theirs_len : Z)
    (our_align their_align : list (option Z)) (our_pos their_pos j : Z) : pure (Z * Z * Z) :=
  match fuel with
  | O => Fuel
  | S fuel =>
      if base_len <=? j then Ok (j, ours_len, theirs_len)
      else
        oa ← index our_align j;
        ta ← index their_align j;
        match oa, ta with
        | Some o, Some t =>
            if (our_pos <=? o) && (their_pos <=? t) then Ok (j, o, t)
            else scan_hunk fuel base_len ours_len theirs_len our_align their_align
                   our_pos their_pos (j + 1)
        | _, _ =>
            scan_hunk fuel base_len ours_len theirs_len our_align their_align
              our_pos their_pos (j + 1)
        end
  end.

Section merge.
  (** [similar::capture_diff_slices(Algorithm::Histogram, old, new)] *)
  Context (diff : list line → list line → list DiffOp).

Definition build_alignment (base_lines other_lines : list line) : pure (list (option Z)) :=
  align_ops (diff base_lines other_lines) (replicate (length base_lines) None).

Definition classify_against_base (base side : list line)
  : pure (list LineAction * list (list line)) :=
  classify_ops (zlen base) side (diff base side)
    (replicate (length base) Keep, replicate (S (length base)) []).

Definition compose_disjoint (base ours theirs : list line) : pure (option (list Z)) :=
  '(our_actions, our_inserts) ← classify_against_base base ours;
  '(their_actions, their_inserts) ← classify_against_base base theirs;
  r ← compose_loop (seqZ 0 (zlen base)) base our_actions our_inserts their_actions their_inserts [];
  match r with
  | None => Ok None
  | Some out =>
      oi ← index our_inserts (zlen base);
      ti ← index their_inserts (zlen base);
      Ok (compose_gap out oi ti)
  end.

Definition emit_hunk (out : list Z) (regions : list TextConflictRegion)
    (base_slice our_slice their_slice : list line) (region : TextConflictRegion)
    (markers : ConflictMarkers) : pure (list Z * list TextConflictRegion) :=
  if bool_decide (our_slice = base_slice) then Ok (emit_lines out their_slice, regions)
  else if bool_decide (their_slice = base_slice) || bool_decide (our_slice = their_slice)
  then Ok (emit_lines out our_slice, regions)
  else
    match compare_trailing_ws our_slice their_slice with
    | Some clean => Ok (emit_lines out clean, regions)
    | None =>
        composed ← compose_disjoint base_slice our_slice their_slice;
        match composed with
        | Some composed => Ok (out ++ composed, regions)
        | None =>
            if (zlen base_slice =? 0) && negb (zlen our_slice =? 0) && negb (zlen their_slice =? 0)
            then Ok (emit_lines (emit_lines out our_slice) their_slice, regions)
            else
              let merged_start := output_line_count out in
              let out := emit_conflict out our_slice their_slice markers in
              let region :=
                {| r_base := r_base region; r_ours := r_ours region; r_theirs := r_theirs region;
                   r_merged := {| start := merged_start; stop := output_line_count out |} |} in
              Ok (out, regions ++ [region])
        end
    end.

(** The region handed to [emit_hunk], before the merged range is known. *)
Definition region_at (i j our_pos end_our their_pos end_their : Z) : TextConflictRegion :=
  {| r_base := {| start := i; stop := j |}; r_ours := {| start := our_pos; stop := end_our |};
     r_theirs := {| start := their_pos; stop := end_their |};
     r_merged := {| start := 0; stop := 0 |} |}.

(** The loop of [walk_and_emit]; it returns the output, the regions and the two
    positions. *)
Fixpoint walk_loop (fuel : nat) (base ours theirs : list line)
    (our_align their_align : list (option Z)) (markers : ConflictMarkers)
    (output : list Z) (regions : list TextConflictRegion) (i our_pos their_pos : Z)
  : pure (list Z * list TextConflictRegion * Z * Z) :=
  match fuel with
  | O => Fuel
  | S fuel =>
      if i <? zlen base then
        oa ← index our_align i;
        ta ← index their_align i;
        if bool_decide (oa = Some our_pos) && bool_decide (ta = Some their_pos) then
          l ← index base i;
          walk_loop fuel base ours theirs our_align their_align markers
            (output ++ l) regions (i + 1) (our_pos + 1) (their_pos + 1)
        else
          let hunk_start := i in
          '(j, end_our, end_their) ←
            scan_hunk (S (length base)) (zlen base) (zlen ours) (zlen theirs)
              our_align their_align our_pos their_pos i;
          b ← slice base hunk_start j;
          o ← slice ours our_pos end_our;
          t ← slice theirs their_pos end_their;
          '(output, regions) ←
            emit_hunk output regions b o t
              (region_at hunk_start j our_pos end_our their_pos end_their) markers;
          walk_loop fuel base ours theirs our_align their_align markers
            output regions j end_our end_their
      else Ok (output, regions, our_pos, their_pos)
  end.

Definition walk_and_emit (base ours theirs : list line) (our_align their_align : list (option Z))
    (markers : ConflictMarkers) : pure (MergeOutcome * list TextConflictRegion) :=
  '(output, regions, our_pos, their_pos) ←
    walk_loop (S (length base + length ours + length theirs)) base ours theirs
      our_align their_align markers [] [] 0 0 0;
  '(output, regions) ←
    (if (our_pos <? zlen ours) || (their_pos <? zlen theirs) then
       o ← slice ours our_pos (zlen ours);
       t ← slice theirs their_pos (zlen theirs);
       emit_hunk output regions [] o t
         (region_at (zlen base) (zlen base) our_pos (zlen ours) their_pos (zlen theirs)) markers
     else Ok (output, regions));
  let outcome :=
    match regions with
    | [] => Clean output
    | _ => Conflicts output (zlen regions)
    end in
  Ok (outcome, regions).

Definition run (base ours theirs : list Z) (markers : ConflictMarkers) : pure MergeOutcome :=
  if bool_decide (base = ours) && bool_decide (base = theirs) then Ok (Clean base)
  else if bool_decide (base = ours) then Ok (Clean theirs)
  else if bool_decide (base = theirs) then Ok (Clean ours)
  else if bool_decide (ours = theirs) then Ok (Clean ours)
  else
    let base_lines := split_lines base in
    let our_lines := split_lines ours in
    let their_lines := split_lines theirs in
    our_align ← build_alignment base_lines our_lines;
    their_align ← build_alignment base_lines their_lines;
    r ← walk_and_emit base_lines our_lines their_lines our_align their_align markers;
    Ok r.1.

Definition regions (base ours theirs : list Z) : pure (list TextConflictRegion) :=
  if bool_decide (base = ours) || bool_decide (base = theirs) || bool_decide (ours = theirs)
  then Ok []
  else
    let base_lines := split_lines base in
    let our_lines := split_lines ours in
    let their_lines := split_lines theirs in
    our_align ← build_alignment base_lines our_lines;
    their_align ← build_alignment base_lines their_lines;
    r ← walk_and_emit base_lines our_lines their_lines our_align their_align DEFAULT;
    Ok r.2.

(** ** [lib.rs] *)
Definition text_hunk_merge_with_markers (base ours theirs : list Z) (markers : ConflictMarkers)
  : pure MergeOutcome :=
  if any_binary base ours theirs then Ok Binary else run base ours theirs markers.

Definition text_hunk_merge (base ours theirs : list Z) : pure MergeOutcome :=
  text_hunk_merge_with_markers base ours theirs DEFAULT.

Definition text_conflict_regions (base ours theirs : list Z) : pure (list TextConflictRegion) :=
  if any_binary base ours theirs then Ok [] else regions base ours theirs.
End merge.

End Merge.

Import Merge.

(** ** Edit scripts

    What [similar] documents of its operations: they run through both sequences
    from start to end, an [Equal] pairs equal ranges, and the other operations
    delete, insert or replace non-empty ranges. *)
Inductive script (old new : list line) : Z → Z → list DiffOp → Prop :=
| script_nil : script old new (zlen old) (zlen new) []
| script_equal i j n ops :
    0 < n → i + n ≤ zlen old → j + n ≤ zlen new →
    sub_list old i (i + n) = sub_list new j (j + n) →
    script old new (i + n) (j + n) ops → script old new i j (OpEqual i j n :: ops)
| script_delete i j n k ops :
    0 < n → i + n ≤ zlen old → script old new (i + n) j ops →
    script old new i j (OpDelete i n k :: ops)
| script_insert i j n ops :
    0 < n → j + n ≤ zlen new → script old new i (j + n) ops →
    script old new i j (OpInsert i j n :: ops)
| script_replace i j n m ops :
    0 < n → 0 < m → i + n ≤ zlen old → j + m ≤ zlen new →
    script old new (i + n) (j + m) ops → script old new i j (OpReplace i n j m :: ops).

Lemma script_bounds old new i j ops : script old new i j ops → i ≤ zlen old ∧ j ≤ zlen new.
Proof. induction 1; lia. Qed.

(** A concrete differ: the common prefix, then one operation for the rest. *)
Fixpoint common_prefix (a b : list line) : Z :=
  match a, b with
  | x :: a, y :: b => if bool_decide (x = y) then 1 + common_prefix a b else 0
  | _, _ => 0
  end.
Definition prefix_diff (a b : list line) : list DiffOp :=
  let n := common_prefix a b in
  (if 0 <? n then [OpEqual 0 0 n] else []) ++
  (if n <? zlen a then
     if n <? zlen b then [OpReplace n (zlen a - n) n (zlen b - n)] else [OpDelete n (zlen a - n) n]
   else if n <? zlen b then [OpInsert n n (zlen b - n)] else []).

Lemma common_prefix_spec a b :
  0 ≤ common_prefix a b ≤ Z.min (zlen a) (zlen b) ∧
  sub_list a 0 (common_prefix a b) = sub_list b 0 (common_prefix a b).
Proof.
  revert b. induction a as [|x a IH]; intros [|y b]; cbn [common_prefix]; try (split; [zlia|done]).
  destruct (bool_decide_reflect (x = y)) as [->|]; [|split; [zlia|done]].
  destruct (IH b) as [Hn E]. split; [zlia|].
  unfold sub_list in *. rewrite !Z.sub_0_r in *.
  replace (Z.to_nat (1 + common_prefix a b)) with (S (Z.to_nat (common_prefix a b))) by lia.
  change (Z.to_nat 0) with 0%nat in *. rewrite !drop_0 in *. cbn [take]. by rewrite E.
Qed.

Lemma prefix_diff_script a b : script a b 0 0 (prefix_diff a b).
Proof.
  unfold prefix_diff. destruct (common_prefix_spec a b) as [Hn E].
  set (n := common_prefix a b) in *.
  assert (script a b n n
    (if n <? zlen a then
       if n <? zlen b then [OpReplace n (zlen a - n) n (zlen b - n)] else [OpDelete n (zlen a - n) n]
     else if n <? zlen b then [OpInsert n n (zlen b - n)] else [])) as H.
  { assert (∀ i j, i = zlen a → j = zlen b → script a b i j []) as Hnil
      by (intros i j -> ->; constructor).
    destruct (Z.ltb_spec n (zlen a)), (Z.ltb_spec n (zlen b));
      repeat constructor; try lia; apply Hnil; lia. }
  destruct (Z.ltb_spec 0 n); [|by replace n with 0 in * by lia].
  apply (script_equal a b 0 0 n); [lia..|done|done].
Qed.

(** ** Alignments *)
Lemma vec_set_ok {E A} (l : list A) i a :
  0 ≤ i < zlen l → vec_set (E:=E) l i a = Ok (<[Z.to_nat i := a]> l).
Proof.
  intros. unfold vec_set. rewrite (proj2 (Z.leb_le 0 i)), (proj2 (Z.ltb_lt i (zlen l))) by lia. done.
Qed.

Lemma zlen_insert {A} (l : list A) i a : zlen (<[i := a]> l) = zlen l.
Proof. unfold zlen. by rewrite length_insert. Qed.

(** Every alignment points at an equal line of the other side. *)
Definition align_ok (base other : list line) (align : list (option Z)) : Prop :=
  zlen align = zlen base ∧
  ∀ i o, 0 ≤ i → align !! Z.to_nat i = Some (Some o) →
    0 ≤ o < zlen other ∧ base !! Z.to_nat i = other !! Z.to_nat o.

Lemma sub_list_eq_lookup {A} (l k : list A) i j n m :
  0 ≤ i → 0 ≤ j → 0 ≤ m < n → sub_list l i (i + n) = sub_list k j (j + n) →
  l !! Z.to_nat (i + m) = k !! Z.to_nat (j + m).
Proof.
  intros Hi Hj Hm E. rewrite <- (lookup_sub_list l i (i + n)), <- (lookup_sub_list k j (j + n)) by lia.
  by rewrite E.
Qed.

Lemma align_range_ok base other ks i j align :
  align_ok base other align →
  Forall (λ k, 0 ≤ i + k < zlen base ∧ 0 ≤ j + k < zlen other ∧
               base !! Z.to_nat (i + k) = other !! Z.to_nat (j + k)) ks →
  returns (align_range ks i j align) (align_ok base other).
Proof.
  intros Ha Hks. revert align Ha. induction Hks as [|k ks (Hi & Hj & E) Hks IH]; intros align Ha; [done|].
  cbn [align_range]. destruct Ha as [Hl Ha]. rewrite vec_set_ok by lia. cbn [mbind exec_bind].
  apply IH. split; [by rewrite zlen_insert|]. intros x o Hx Hxo.
  destruct (decide (Z.to_nat (i + k) = Z.to_nat x)) as [Ex|Ex].
  - rewrite Ex, list_lookup_insert_eq in Hxo by (unfold zlen in *; lia). simplify_eq.
    split; [lia|]. by rewrite <- Ex.
  - rewrite list_lookup_insert_ne in Hxo by done. by apply Ha.
Qed.

Lemma align_ops_ok base other i j ops align :
  0 ≤ i → 0 ≤ j → script base other i j ops → align_ok base other align →
  returns (align_ops ops align) (align_ok base other).
Proof.
  intros Hi Hj Hs. revert align Hi Hj.
  induction Hs as [|i j n ops Hn Ho Hm E Hs IH|i j n k ops Hn Ho Hs IH|i j n ops Hn Hm Hs IH
    |i j n m ops Hn Hm Ho Hp Hs IH]; intros align Hi Hj Ha; cbn [align_ops];
    [done| |apply IH; [lia|lia|done]..].
  step (align_range_ok base other (seqZ 0 n) i j align) as Hr; [done| |].
  - apply Forall_forall. intros k Hk%elem_of_seqZ. split; [lia|]. split; [lia|].
    eapply sub_list_eq_lookup; [lia|lia| |exact E]. lia.
  - apply IH; [lia|lia|done].
Qed.

Lemma align_ok_none base other : align_ok base other (replicate (length base) None).
Proof.
  split; [unfold zlen; by rewrite length_replicate|]. intros i o Hi [E _]%lookup_replicate. done.
Qed.

(** ** Classification of one side against the base *)
Definition act (b : line) (a : LineAction) : list line :=
  match a with Keep => [b] | Replace r => r | Delete => [] end.

(** Gap [k] and base line [k], as the side has them. *)
Definition cell (base : list line) (actions : list LineAction) (inserts : list (list line)) (k : nat)
  : list line :=
  default [] (inserts !! k) ++
  match base !! k, actions !! k with Some b, Some a => act b a | _, _ => [] end.
Definition cells base actions inserts (n : nat) : list line :=
  concat (map (cell base actions inserts) (seq 0 n)).
(** The whole side. *)
Definition rendered base actions inserts : list line :=
  cells base actions inserts (length base) ++ default [] (inserts !! length base).

Lemma cells_S base actions inserts n :
  cells base actions inserts (S n) = cells base actions inserts n ++ cell base actions inserts n.
Proof.
  unfold cells. rewrite seq_S, map_app, concat_app. simpl. by rewrite app_nil_r.
Qed.

Lemma cells_ext base actions actions' inserts inserts' n :
  (∀ k, (k < n)%nat → cell base actions inserts k = cell base actions' inserts' k) →
  cells base actions inserts n = cells base actions' inserts' n.
Proof.
  intros H. unfold cells. f_equal. apply map_ext_in. intros k [_ Hk]%in_seq. apply H. lia.
Qed.

(** The tables after the operations before position [(i, j)]. *)
Definition tables_at (base side : list line) (i j : Z)
    (tables : list LineAction * list (list line)) : Prop :=
  let '(actions, inserts) := tables in
  length actions = length base ∧ length inserts = S (length base) ∧
  (∀ k, (Z.to_nat i ≤ k < length base)%nat → actions !! k = Some Keep) ∧
  (∀ k, (Z.to_nat i < k ≤ length base)%nat → inserts !! k = Some []) ∧
  cells base actions inserts (Z.to_nat i) ++ default [] (inserts !! Z.to_nat i)
  = sub_list side 0 j.

Lemma collect_lines_spec side j ks acc :
  Forall (λ k, 0 ≤ j + k < zlen side) ks →
  ∃ ls, collect_lines side j ks acc = Ok (acc ++ ls) ∧
    Forall2 (λ k l, side !! Z.to_nat (j + k) = Some l) ks ls.
Proof.
  intros Hks. revert acc. induction Hks as [|k ks Hk Hks IH]; intros acc.
  { exists []. by rewrite app_nil_r. }
  cbn [collect_lines]. destruct (index_ok (E:=Empty_set) side (j + k) Hk) as (l & Hl & ->).
  cbn [mbind exec_bind]. destruct (IH (acc ++ [l])) as (ls & -> & Hls).
  exists (l :: ls). rewrite <- app_assoc. split; [done|]. by constructor.
Qed.

Lemma collect_lines_range side j n acc :
  0 ≤ j → 0 ≤ n → j + n ≤ zlen side →
  collect_lines side j (seqZ 0 n) acc = Ok (acc ++ sub_list side j (j + n)).
Proof.
  intros Hj Hn Hl.
  destruct (collect_lines_spec side j (seqZ 0 n) acc) as (ls & -> & Hls).
  { apply Forall_forall. intros k Hk%elem_of_seqZ. lia. }
  do 2 f_equal. apply list_eq. intros k.
  pose proof (Forall2_length _ _ _ Hls) as Hlen. rewrite length_seqZ in Hlen.
  destruct (ls !! k) as [l|] eqn:Hk.
  - destruct (Forall2_lookup_r _ _ _ _ _ Hls Hk) as (x & Hx & E).
    apply lookup_seqZ in Hx as [-> Hx]. rewrite Z.add_0_l in *.
    rewrite <- (Nat2Z.id k) at 1. rewrite lookup_sub_list by lia. done.
  - apply lookup_ge_None in Hk. symmetry. apply lookup_ge_None.
    pose proof (zlen_sub_list side j (j + n) ltac:(lia) ltac:(lia)) as Hz. unfold zlen in Hz. lia.
Qed.

Lemma delete_lines_spec i ks actions :
  Forall (λ k, 0 ≤ i + k < zlen actions) ks →
  ∃ actions', delete_lines i ks actions = Ok actions' ∧ length actions' = length actions ∧
    ∀ x, actions' !! x = (if decide (Z.of_nat x - i ∈ ks) then Some Delete else actions !! x).
Proof.
  intros Hks. revert actions Hks. induction ks as [|k ks IH]; intros actions Hks.
  { exists actions. split; [done|]. split; [done|]. intros x. by rewrite decide_False by apply not_elem_of_nil. }
  apply Forall_cons in Hks as [Hk Hks]. cbn [delete_lines]. rewrite vec_set_ok by lia. cbn [mbind exec_bind].
  destruct (IH (<[Z.to_nat (i + k) := Delete]> actions)) as (actions' & -> & Hl & Hx);
    [by rewrite zlen_insert|].
  exists actions'. split; [done|]. split; [by rewrite Hl, length_insert|]. intros x. rewrite Hx.
  destruct (decide (Z.of_nat x - i ∈ ks)) as [Hin|Hin]; [by rewrite decide_True by (apply elem_of_cons; by right)|].
  destruct (decide (x = Z.to_nat (i + k))) as [->|Hne].
  - rewrite list_lookup_insert_eq by (unfold zlen in Hk; lia). rewrite decide_True; [done|].
    apply elem_of_cons. left. lia.
  - rewrite list_lookup_insert_ne by done. rewrite decide_False; [done|].
    intros [?|?]%elem_of_cons; [lia|done].
Qed.

(** Cells [i .. i+n) of tables in which the lines from [i] on are kept, replaced
    or deleted, and no gap after [i] has insertions. *)
Lemma cells_app base actions inserts i n :
  cells base actions inserts (i + n)
  = cells base actions inserts i ++ concat (map (cell base actions inserts) (seq i n)).
Proof. unfold cells. by rewrite seq_app, map_app, concat_app. Qed.

Lemma cells_kept base actions inserts i n :
  (∀ k, (i ≤ k < i + n)%nat → actions !! k = Some Keep) →
  (∀ k, (i ≤ k < i + n)%nat → inserts !! k = Some []) →
  concat (map (cell base actions inserts) (seq i n)) = take n (drop i base).
Proof.
  revert i. induction n as [|n IH]; intros i Ha Hi; [done|].
  cbn [seq map concat]. rewrite IH by (intros; (apply Ha || apply Hi); lia).
  unfold cell at 1. rewrite Ha, Hi by lia. cbn [default from_option id app].
  destruct (base !! i) as [b|] eqn:Hb.
  - by rewrite (drop_S base b i).
  - rewrite !drop_ge; [by rewrite take_nil|..]; apply lookup_ge_None in Hb; lia.
Qed.

Lemma cells_deleted base actions inserts i n :
  (∀ k, (i ≤ k < i + n)%nat → actions !! k = Some Delete) →
  (∀ k, (i ≤ k < i + n)%nat → inserts !! k = Some []) →
  concat (map (cell base actions inserts) (seq i n)) = [].
Proof.
  revert i. induction n as [|n IH]; intros i Ha Hi; [done|].
  cbn [seq map concat]. rewrite IH by (intros; (apply Ha || apply Hi); lia).
  unfold cell. rewrite Ha, Hi by lia. by destruct (base !! i).
Qed.

Lemma cells_step base actions inserts i n :
  (0 < n)%nat →
  cells base actions inserts (i + n)
  = cells base actions inserts i ++ default [] (inserts !! i)
    ++ (match base !! i, actions !! i with Some b, Some a => act b a | _, _ => [] end)
    ++ concat (map (cell base actions inserts) (seq (S i) (n - 1))).
Proof.
  intros Hn. rewrite cells_app. destruct n as [|n]; [lia|]. cbn [seq map concat].
  replace (S n - 1)%nat with n by lia. unfold cell at 1. by rewrite <- !app_assoc.
Qed.

Section classify.
  Context (base side : list line).

Lemma classify_equal i j n tables :
  0 ≤ i → 0 ≤ j → 0 < n → i + n ≤ zlen base → j + n ≤ zlen side →
  sub_list base i (i + n) = sub_list side j (j + n) →
  tables_at base side i j tables → tables_at base side (i + n) (j + n) tables.
Proof.
  intros Hi Hj Hn Hb Hs E. destruct tables as [actions inserts].
  intros (Hla & Hli & Hk & Hg & Hr). unfold zlen in Hb.
  split; [done|]. split; [done|]. split; [intros k ?; apply Hk; lia|].
  split; [intros k ?; apply Hg; lia|].
  rewrite Hg by lia. cbn [default from_option id]. rewrite app_nil_r.
  replace (Z.to_nat (i + n)) with (Z.to_nat i + Z.to_nat n)%nat by lia.
  rewrite cells_step by lia. rewrite app_assoc, Hr.
  destruct (lookup_lt_is_Some_2 base (Z.to_nat i)) as [b Hbi]; [lia|].
  rewrite Hbi, Hk by lia. cbn [act].
  rewrite (cells_kept _ _ _ (S (Z.to_nat i))) by (intros; (apply Hk || apply Hg); lia).
  rewrite <- (sub_list_app side 0 j (j + n)) by lia. f_equal. rewrite <- E.
  unfold sub_list. replace (Z.to_nat (i + n - i)) with (S (Z.to_nat n - 1)) by lia.
  by rewrite (drop_S base b (Z.to_nat i)).
Qed.

Lemma classify_delete i j n k tables :
  0 ≤ i → 0 < n → i + n ≤ zlen base → tables_at base side i j tables →
  returns (classify_op (zlen base) side (OpDelete i n k) tables) (tables_at base side (i + n) j).
Proof.
  intros Hi Hn Hb. destruct tables as [actions inserts].
  intros (Hla & Hli & Hk & Hg & Hr). cbn [classify_op]. unfold zlen in Hb.
  destruct (delete_lines_spec i (seqZ 0 n) actions) as (actions' & -> & Hl' & Hx).
  { apply Forall_forall. intros x Hx%elem_of_seqZ. unfold zlen. lia. }
  cbn [mbind exec_bind returns]. unfold tables_at.
  assert (∀ x, (Z.to_nat i ≤ x < Z.to_nat i + Z.to_nat n)%nat → actions' !! x = Some Delete) as Hdel.
  { intros x ?. rewrite Hx, decide_True; [done|]. apply elem_of_seqZ. lia. }
  assert (∀ x, ¬ (Z.to_nat i ≤ x < Z.to_nat i + Z.to_nat n)%nat → actions' !! x = actions !! x) as Hsame.
  { intros x ?. rewrite Hx, decide_False; [done|]. rewrite elem_of_seqZ. lia. }
  split; [lia|]. split; [done|]. split; [intros x ?; rewrite Hsame by lia; apply Hk; lia|].
  split; [intros x ?; apply Hg; lia|].
  rewrite Hg by lia. cbn [default from_option id]. rewrite app_nil_r.
  replace (Z.to_nat (i + n)) with (Z.to_nat i + Z.to_nat n)%nat by lia.
  rewrite cells_step by lia. rewrite Hdel by lia.
  rewrite (cells_deleted _ _ _ (S (Z.to_nat i))) by (intros; (apply Hdel || apply Hg); lia).
  destruct (base !! Z.to_nat i); cbn [act]; rewrite !app_nil_r;
    (rewrite (cells_ext base actions' actions inserts inserts);
      [done|intros x ?; unfold cell; by rewrite Hsame by lia]).
Qed.

Lemma classify_insert i j n tables :
  0 ≤ i ≤ zlen base → 0 ≤ j → 0 < n → j + n ≤ zlen side → tables_at base side i j tables →
  returns (classify_op (zlen base) side (OpInsert i j n) tables) (tables_at base side i (j + n)).
Proof.
  intros Hi Hj Hn Hs. destruct tables as [actions inserts].
  intros (Hla & Hli & Hk & Hg & Hr). cbn [classify_op]. rewrite Z.min_l by lia. unfold zlen in Hi.
  destruct (index_ok (E:=Empty_set) inserts i) as (g & Hgi & ->); [unfold zlen; lia|].
  cbn [mbind exec_bind]. rewrite collect_lines_range by lia. cbn [mbind exec_bind].
  rewrite vec_set_ok by (unfold zlen; lia). cbn [mbind exec_bind returns]. unfold tables_at.
  split; [done|]. split; [by rewrite length_insert|]. split; [done|].
  split; [intros x ?; rewrite list_lookup_insert_ne by lia; apply Hg; lia|].
  rewrite list_lookup_insert_eq by lia. cbn [default from_option id].
  rewrite (cells_ext base actions actions _ inserts);
    [|intros x ?; unfold cell; by rewrite list_lookup_insert_ne by lia].
  rewrite Hgi in Hr. cbn [default from_option id] in Hr. rewrite app_assoc, Hr. by rewrite sub_list_app by lia.
Qed.

Lemma classify_replace i j n m tables :
  0 ≤ i → 0 ≤ j → 0 < n → 0 < m → i + n ≤ zlen base → j + m ≤ zlen side →
  tables_at base side i j tables →
  returns (classify_op (zlen base) side (OpReplace i n j m) tables)
    (tables_at base side (i + n) (j + m)).
Proof.
  intros Hi Hj Hn Hm Hb Hs. destruct tables as [actions inserts].
  intros (Hla & Hli & Hk & Hg & Hr). cbn [classify_op]. unfold zlen in Hb.
  rewrite collect_lines_range by lia. cbn [mbind exec_bind app].
  rewrite vec_set_ok by (unfold zlen; lia). cbn [mbind exec_bind].
  set (repl := sub_list side j (j + m)).
  destruct (delete_lines_spec i (seqZ 1 (n - 1)) (<[Z.to_nat i := Replace repl]> actions))
    as (actions' & -> & Hl' & Hx).
  { apply Forall_forall. intros x Hx%elem_of_seqZ. rewrite zlen_insert. unfold zlen. lia. }
  cbn [mbind exec_bind returns]. unfold tables_at. rewrite length_insert in Hl'.
  assert (∀ x, (S (Z.to_nat i) ≤ x < Z.to_nat i + Z.to_nat n)%nat → actions' !! x = Some Delete) as Hdel.
  { intros x ?. rewrite Hx, decide_True; [done|]. apply elem_of_seqZ. lia. }
  assert (actions' !! Z.to_nat i = Some (Replace repl)) as Hrep.
  { rewrite Hx, decide_False by (rewrite elem_of_seqZ; lia). by rewrite list_lookup_insert_eq by lia. }
  assert (∀ x, ¬ (Z.to_nat i ≤ x < Z.to_nat i + Z.to_nat n)%nat → actions' !! x = actions !! x) as Hsame.
  { intros x ?. rewrite Hx, decide_False by (rewrite elem_of_seqZ; lia).
    by rewrite list_lookup_insert_ne by lia. }
  split; [lia|]. split; [done|]. split; [intros x ?; rewrite Hsame by lia; apply Hk; lia|].
  split; [intros x ?; apply Hg; lia|].
  rewrite Hg by lia. cbn [default from_option id]. rewrite app_nil_r.
  replace (Z.to_nat (i + n)) with (Z.to_nat i + Z.to_nat n)%nat by lia.
  rewrite cells_step by lia. rewrite Hrep.
  rewrite (cells_deleted _ _ _ (S (Z.to_nat i))) by (intros; (apply Hdel || apply Hg); lia).
  destruct (lookup_lt_is_Some_2 base (Z.to_nat i)) as [b ->]; [lia|]. cbn [act].
  rewrite app_nil_r, app_assoc.
  rewrite (cells_ext base actions' actions inserts inserts);
    [|intros x ?; unfold cell; by rewrite Hsame by lia].
  rewrite Hr. unfold repl. by rewrite sub_list_app by lia.
Qed.

Lemma classify_ops_spec i j ops tables :
  0 ≤ i → 0 ≤ j → script base side i j ops → tables_at base side i j tables →
  returns (classify_ops (zlen base) side ops tables) (tables_at base side (zlen base) (zlen side)).
Proof.
  intros Hi Hj Hs. revert tables Hi Hj.
  induction Hs as [|i j n ops Hn Ho Hm E Hs IH|i j n k ops Hn Ho Hs IH|i j n ops Hn Hm Hs IH
    |i j n m ops Hn Hm Ho Hp Hs IH]; intros tables Hi Hj Ht; [done|..]; cbn [classify_ops].
  - destruct tables as [actions inserts]. cbn [classify_op mbind exec_bind].
    apply IH; [lia|lia|]. by apply classify_equal.
  - step (classify_delete i j n k tables) as Ht'; [lia|lia|lia|done|]. apply IH; [lia|lia|done].
  - pose proof (script_bounds _ _ _ _ _ Hs).
    step (classify_insert i j n tables) as Ht'; [lia|lia|lia|lia|done|]. apply IH; [lia|lia|done].
  - step (classify_replace i j n m tables) as Ht'; [lia..|done|]. apply IH; [lia|lia|done].
Qed.
End classify.

(** The tables of one side: they have the base's shape and render to the side. *)
Definition classifies (base side : list line) (tables : list LineAction * list (list line)) : Prop :=
  length tables.1 = length base ∧ length tables.2 = S (length base) ∧
  rendered base tables.1 tables.2 = side.

Section differ.
  Context (diff : list line → list line → list DiffOp).
  Hypothesis diff_script : ∀ a b, script a b 0 0 (diff a b).

Lemma classify_spec base side :
  returns (classify_against_base diff base side) (classifies base side).
Proof.
  unfold classify_against_base. eapply returns_mono.
  - apply (classify_ops_spec base side 0 0); [done|done|apply diff_script|].
    unfold tables_at. rewrite length_replicate. split; [done|].
    split; [by rewrite length_replicate|]. split; [|split].
    + intros k Hk. apply lookup_replicate. split; [done|lia].
    + intros k Hk. apply lookup_replicate. split; [done|lia].
    + by rewrite sub_list_nil.
  - intros [actions inserts] (Hla & Hli & _ & _ & Hr). split; [done|]. split; [done|].
    cbn [fst snd]. unfold rendered, zlen in *. rewrite Nat2Z.id in Hr. rewrite Hr.
    change (Z.of_nat (length side)) with (zlen side). apply sub_list_full.
Qed.

Lemma build_alignment_spec base other :
  returns (build_alignment diff base other) (align_ok base other).
Proof.
  apply (align_ops_ok base other 0 0); [done|done|apply diff_script|apply align_ok_none].
Qed.
End differ.

(** ** Composition of two classifications *)
Lemma emit_lines_concat out ls : emit_lines out ls = out ++ concat ls.
Proof.
  unfold emit_lines. revert out. induction ls as [|l ls IH]; intros out; cbn [fold_left concat];
    [by rewrite app_nil_r|]. by rewrite IH, <- app_assoc.
Qed.

(** The merged table at a position: one side's change where the other side kept
    the base line, one side's insertion where the other side has none, or the
    same insertion of both. *)
Definition merged_action (oa ta a : LineAction) : Prop := (oa = Keep ∧ a = ta) ∨ (ta = Keep ∧ a = oa).
Definition merged_gap (og tg g : list line) : Prop :=
  (og = [] ∧ g = tg) ∨ (tg = [] ∧ g = og) ∨ (og = tg ∧ g = og).

Lemma compose_gap_spec out og tg out' :
  compose_gap out og tg = Some out' → ∃ g, merged_gap og tg g ∧ out' = out ++ concat g.
Proof.
  unfold compose_gap, merged_gap. destruct og as [|x og], tg as [|y tg]; rewrite ?emit_lines_concat.
  - intros [= <-]. exists []. rewrite app_nil_r. auto.
  - intros [= <-]. exists (y :: tg). auto.
  - intros [= <-]. exists (x :: og). auto.
  - destruct (bool_decide_reflect (x :: og = y :: tg)) as [E|]; [|done]. intros [= <-].
    exists (x :: og). auto.
Qed.

Lemma compose_action_spec out b oa ta out' :
  compose_action out b oa ta = Some out' →
  ∃ a, merged_action oa ta a ∧ out' = out ++ concat (act b a).
Proof.
  unfold merged_action. destruct oa as [|r|], ta as [|r'|]; cbn [compose_action]; intros E; try done;
    injection E as <-; rewrite ?emit_lines_concat.
  - exists Keep. split; [by left|]. cbn [act concat]. by rewrite app_nil_r.
  - exists (Replace r'). split; [by left|done].
  - exists Delete. split; [by left|]. cbn [act concat]. by rewrite app_nil_r.
  - exists (Replace r). split; [by right|done].
  - exists Delete. split; [by right|]. cbn [act concat]. by rewrite app_nil_r.
Qed.

(** Merged tables, position by position. *)
Definition merged_tables (n : nat) (our_tables their_tables tables : list LineAction * list (list line))
  : Prop :=
  length tables.1 = n ∧ length tables.2 = S n ∧
  (∀ k oa ta a, our_tables.1 !! k = Some oa → their_tables.1 !! k = Some ta →
     tables.1 !! k = Some a → merged_action oa ta a) ∧
  (∀ k og tg g, our_tables.2 !! k = Some og → their_tables.2 !! k = Some tg →
     tables.2 !! k = Some g → merged_gap og tg g).

Section compose.
  Context (base : list line) (oa ta : list LineAction) (oi ti : list (list line)).
  Hypothesis Hoa : length oa = length base.
  Hypothesis Hta : length ta = length base.
  Hypothesis Hoi : length oi = S (length base).
  Hypothesis Hti : length ti = S (length base).

(** Tables merged up to position [n], and their rendering so far. *)
Definition merged_upto (n : nat) (acts : list LineAction) (ins : list (list line)) (out : list Z) : Prop :=
  length acts = n ∧ length ins = n ∧
  (∀ k o t a, oa !! k = Some o → ta !! k = Some t → acts !! k = Some a → merged_action o t a) ∧
  (∀ k o t g, oi !! k = Some o → ti !! k = Some t → ins !! k = Some g → merged_gap o t g) ∧
  out = concat (cells base acts ins n).

Lemma cell_app_l acts ins a g k :
  (k < length acts)%nat → (k < length ins)%nat →
  cell base (acts ++ a) (ins ++ g) k = cell base acts ins k.
Proof. intros. unfold cell. by rewrite !lookup_app_l by done. Qed.

Lemma merged_upto_snoc n acts ins out o t a og tg g b :
  merged_upto n acts ins out →
  base !! n = Some b → oa !! n = Some o → ta !! n = Some t → merged_action o t a →
  oi !! n = Some og → ti !! n = Some tg → merged_gap og tg g →
  merged_upto (S n) (acts ++ [a]) (ins ++ [g]) (out ++ concat g ++ concat (act b a)).
Proof.
  intros (Hla & Hli & Ha & Hg & ->) Hb Ho Ht Hm Hog Htg Hmg.
  split; [rewrite length_app; simpl; lia|]. split; [rewrite length_app; simpl; lia|].
  split; [|split].
  - intros k x y z Hx Hy [Hz|[Hk Hz]]%lookup_app_Some; [by eapply Ha|].
    apply list_lookup_singleton_Some in Hz as [Hk' <-].
    assert (k = n) as -> by lia. by simplify_eq.
  - intros k x y z Hx Hy [Hz|[Hk Hz]]%lookup_app_Some; [by eapply Hg|].
    apply list_lookup_singleton_Some in Hz as [Hk' <-].
    assert (k = n) as -> by lia. by simplify_eq.
  - rewrite cells_S, concat_app. f_equal.
    + f_equal. unfold cells. f_equal. apply map_ext_in. intros k [_ Hk]%in_seq.
      symmetry. apply cell_app_l; lia.
    + unfold cell. rewrite Hb, (lookup_app_r acts), (lookup_app_r ins) by lia.
      rewrite Hla, Hli, Nat.sub_diag. cbn [lookup list_lookup default from_option id].
      by rewrite concat_app.
Qed.

Lemma compose_loop_spec m n acts ins out :
  (n + m = length base)%nat → merged_upto n acts ins out →
  returns (compose_loop (seqZ (Z.of_nat n) (Z.of_nat m)) base oa oi ta ti out)
    (λ r, ∀ out', r = Some out' → ∃ acts' ins', merged_upto (length base) acts' ins' out').
Proof.
  revert n acts ins out. induction m as [|m IH]; intros n acts ins out Hn Hu.
  { cbn. intros out' [= <-]. replace (length base) with n by lia. eauto. }
  rewrite seqZ_cons by lia. cbn [compose_loop].
  destruct (index_ok (E:=Empty_set) oi (Z.of_nat n)) as (og & Hog & ->); [unfold zlen; lia|].
  destruct (index_ok (E:=Empty_set) ti (Z.of_nat n)) as (tg & Htg & ->); [unfold zlen; lia|].
  cbn [mbind exec_bind]. destruct (compose_gap out og tg) as [out1|] eqn:Hcg; [|done].
  destruct (index_ok (E:=Empty_set) oa (Z.of_nat n)) as (o & Ho & ->); [unfold zlen; lia|].
  destruct (index_ok (E:=Empty_set) ta (Z.of_nat n)) as (t & Ht & ->); [unfold zlen; lia|].
  destruct (index_ok (E:=Empty_set) base (Z.of_nat n)) as (b & Hb & ->); [unfold zlen; lia|].
  cbn [mbind exec_bind]. destruct (compose_action out1 b o t) as [out2|] eqn:Hca; [|done].
  apply compose_gap_spec in Hcg as (g & Hmg & ->).
  apply compose_action_spec in Hca as (a & Hma & ->).
  rewrite Nat2Z.id in *. rewrite <- app_assoc.
  replace (Z.succ (Z.of_nat n)) with (Z.of_nat (S n)) by lia.
  replace (Z.pred (Z.of_nat (S m))) with (Z.of_nat m) by lia.
  eapply IH; [lia|]. by eapply merged_upto_snoc.
Qed.
End compose.

Section differ2.
  Context (diff : list line → list line → list DiffOp).
  Hypothesis diff_script : ∀ a b, script a b 0 0 (diff a b).

Lemma compose_disjoint_spec base ours theirs :
  ∃ our_tables their_tables,
    classify_against_base diff base ours = Ok our_tables ∧ classifies base ours our_tables ∧
    classify_against_base diff base theirs = Ok their_tables ∧ classifies base theirs their_tables ∧
    returns (compose_disjoint diff base ours theirs) (λ r, ∀ out, r = Some out →
      ∃ tables, merged_tables (length base) our_tables their_tables tables ∧
        out = concat (rendered base tables.1 tables.2)).
Proof.
  destruct (returns_inv _ _ (classify_spec diff diff_script base ours)) as ([oa oi] & Eo & Ho).
  destruct (returns_inv _ _ (classify_spec diff diff_script base theirs)) as ([ta ti] & Et & Ht).
  exists (oa, oi), (ta, ti). split; [done|]. split; [done|]. split; [done|]. split; [done|].
  destruct Ho as (Hoa & Hoi & _), Ht as (Hta & Hti & _). cbn [fst snd] in *.
  unfold compose_disjoint. rewrite Eo, Et. cbn [mbind exec_bind].
  step (compose_loop_spec base oa ta oi ti Hoa Hta Hoi Hti (length base) 0 [] [] []) as Hr;
    [done|by repeat split; intros|].
  destruct a as [out|]; [|done]. destruct (Hr out eq_refl) as (acts & ins & Hu).
  destruct (index_ok (E:=Empty_set) oi (zlen base)) as (og & Hog & ->); [unfold zlen; lia|].
  destruct (index_ok (E:=Empty_set) ti (zlen base)) as (tg & Htg & ->); [unfold zlen; lia|].
  cbn [mbind exec_bind returns]. intros out' Hcg.
  apply compose_gap_spec in Hcg as (g & Hmg & ->).
  destruct Hu as (Hla & Hli & Ha & Hg & ->). unfold zlen in Hog, Htg. rewrite Nat2Z.id in Hog, Htg.
  exists (acts, ins ++ [g]). split.
  - split; [done|]. split; [cbn [snd]; rewrite length_app; simpl; lia|]. split; [done|].
    cbn [snd]. intros k x y z Hx Hy [Hz|[Hk Hz]]%lookup_app_Some; [by eapply Hg|].
    apply list_lookup_singleton_Some in Hz as [Hk' <-].
    assert (k = length base) as -> by lia. by simplify_eq.
  - cbn [fst snd]. unfold rendered. rewrite lookup_app_r by lia. rewrite Hli, Nat.sub_diag.
    cbn [lookup list_lookup default from_option id]. rewrite concat_app. f_equal. f_equal.
    unfold cells. f_equal. apply map_ext_in. intros k [_ Hk]%in_seq.
    unfold cell. by rewrite lookup_app_l by lia.
Qed.
End differ2.

(** ** Hunks *)
(** The bytes of a conflict. *)
Definition conflict_block (our_slice their_slice : list line) (m : ConflictMarkers) : list Z :=
  [60; 60; 60; 60; 60; 60; 60; 32] ++ m_ours m ++ [10]
  ++ ensure_trailing_newline (concat our_slice)
  ++ [61; 61; 61; 61; 61; 61; 61; 10]
  ++ ensure_trailing_newline (concat their_slice)
  ++ [62; 62; 62; 62; 62; 62; 62; 32] ++ m_theirs m ++ [10].

Lemma ensure_trailing_newline_app p x :
  ensure_trailing_newline ((p ++ [10]) ++ x) = (p ++ [10]) ++ ensure_trailing_newline x.
Proof.
  unfold ensure_trailing_newline. destruct x as [|b x] using rev_ind.
  - rewrite app_nil_r, last_snoc. cbn. by rewrite app_nil_r.
  - rewrite (app_assoc (p ++ [10])), !last_snoc. destruct (negb (b =? 10)); by rewrite <- ?app_assoc.
Qed.

Lemma emit_conflict_block out o t m : emit_conflict out o t m = out ++ conflict_block o t m.
Proof.
  unfold emit_conflict, conflict_block. rewrite !emit_lines_concat, ensure_trailing_newline_app.
  change [61; 61; 61; 61; 61; 61; 61; 10] with ([61; 61; 61; 61; 61; 61; 61] ++ [10]).
  rewrite (app_assoc _ [61; 61; 61; 61; 61; 61; 61] [10]), ensure_trailing_newline_app.
  by rewrite <- !app_assoc.
Qed.

(** What a hunk merges to: bytes, or a conflict ([None]). *)
Definition resolution (diff : list line → list line → list DiffOp) (b o t : list line)
  : pure (option (list Z)) :=
  if bool_decide (o = b) then Ok (Some (concat t))
  else if bool_decide (t = b) || bool_decide (o = t) then Ok (Some (concat o))
  else
    match compare_trailing_ws o t with
    | Some clean => Ok (Some (concat clean))
    | None =>
        composed ← compose_disjoint diff b o t;
        match composed with
        | Some composed => Ok (Some composed)
        | None =>
            if (zlen b =? 0) && negb (zlen o =? 0) && negb (zlen t =? 0)
            then Ok (Some (concat o ++ concat t)) else Ok None
        end
    end.

Lemma emit_hunk_resolution diff out regs b o t r m :
  emit_hunk diff out regs b o t r m
  = (x ← resolution diff b o t;
     Ok (match x with
         | Some c => (out ++ c, regs)
         | None =>
             (out ++ conflict_block o t m,
              regs ++ [{| r_base := r_base r; r_ours := r_ours r; r_theirs := r_theirs r;
                          r_merged := {| start := output_line_count out;
                                         stop := output_line_count (out ++ conflict_block o t m) |} |}])
         end)).
Proof.
  unfold emit_hunk, resolution. rewrite !emit_lines_concat, <- app_assoc, emit_conflict_block.
  destruct (bool_decide _); [done|]. destruct (_ || _); [done|].
  destruct (compare_trailing_ws o t); [by rewrite emit_lines_concat|].
  destruct (compose_disjoint diff b o t) as [[c|]| | |]; cbn [mbind exec_bind]; try done.
  by destruct (_ && _ && _).
Qed.

Inductive seg := Stable (l : line) | Hunk (b o t : list line).
Definition base_of (s : seg) : list line := match s with Stable l => [l] | Hunk b _ _ => b end.
Definition ours_of (s : seg) : list line := match s with Stable l => [l] | Hunk _ o _ => o end.
Definition theirs_of (s : seg) : list line := match s with Stable l => [l] | Hunk _ _ t => t end.

(** Hunks are not empty, and a line stable on both sides separates them. *)
Definition seg_ok (s : seg) : Prop :=
  match s with Stable _ => True | Hunk b o t => b ≠ [] ∨ o ≠ [] ∨ t ≠ [] end.
Definition starts_stable (segs : list seg) : Prop :=
  match segs with Hunk _ _ _ :: _ => False | _ => True end.
Fixpoint separated (segs : list seg) : Prop :=
  match segs with
  | [] => True
  | Stable _ :: segs => separated segs
  | Hunk _ _ _ :: segs => starts_stable segs ∧ separated segs
  end.

(** The walk's state after a segment. *)
Record pos := { p_out : list Z; p_regions : list TextConflictRegion; p_base : Z; p_ours : Z; p_theirs : Z }.

Section replay.
  Context (diff : list line → list line → list DiffOp) (m : ConflictMarkers).

(** How a segment is rendered. *)
Definition conflicted (s : seg) : Prop :=
  match s with Stable _ => False | Hunk b o t => resolution diff b o t = Ok None end.
Definition rendering (s : seg) : list Z :=
  match s with
  | Stable l => l
  | Hunk b o t =>
      match resolution diff b o t with Ok (Some c) => c | _ => conflict_block o t m end
  end.

Definition place (p : pos) (s : seg) : pos :=
  {| p_out := p_out p ++ rendering s;
     p_regions := p_regions p ++
       match s with
       | Stable _ => []
       | Hunk b o t =>
           match resolution diff b o t with
           | Ok (Some _) => []
           | _ =>
               [{| r_base := {| start := p_base p; stop := p_base p + zlen b |};
                   r_ours := {| start := p_ours p; stop := p_ours p + zlen o |};
                   r_theirs := {| start := p_theirs p; stop := p_theirs p + zlen t |};
                   r_merged := {| start := output_line_count (p_out p);
                                  stop := output_line_count (p_out p ++ rendering s) |} |}]
           end
       end;
     p_base := p_base p + zlen (base_of s);
     p_ours := p_ours p + zlen (ours_of s);
     p_theirs := p_theirs p + zlen (theirs_of s) |}.
Definition replay (segs : list seg) (p : pos) : pos := fold_left place segs p.
End replay.

(** ** The walk *)
Section walk.
  Context (diff : list line → list line → list DiffOp) (m : ConflictMarkers).
  Hypothesis diff_script : ∀ a b, script a b 0 0 (diff a b).
  Context (base ours theirs : list line) (oal tal : list (option Z)).
  Hypothesis Hoal : align_ok base ours oal.
  Hypothesis Htal : align_ok base theirs tal.

Lemma resolution_total b o t : returns (resolution diff b o t) (λ _, True).
Proof.
  unfold resolution. destruct (bool_decide _); [done|]. destruct (_ || _); [done|].
  destruct (compare_trailing_ws o t); [done|].
  destruct (compose_disjoint_spec diff diff_script b o t) as (? & ? & _ & _ & _ & _ & H).
  destruct (compose_disjoint diff b o t) as [[c|]| | |]; try done. cbn [mbind exec_bind].
  by destruct (_ && _ && _).
Qed.

Lemma scan_hunk_spec fuel op tp j :
  0 ≤ j ≤ zlen base → 0 ≤ op ≤ zlen ours → 0 ≤ tp ≤ zlen theirs →
  zlen base - j < Z.of_nat fuel →
  returns (scan_hunk fuel (zlen base) (zlen ours) (zlen theirs) oal tal op tp j)
    (λ '(j', eo, et), j ≤ j' ≤ zlen base ∧ op ≤ eo ≤ zlen ours ∧ tp ≤ et ≤ zlen theirs ∧
       (j' = zlen base ∧ eo = zlen ours ∧ et = zlen theirs ∨
        j' < zlen base ∧ oal !! Z.to_nat j' = Some (Some eo) ∧ tal !! Z.to_nat j' = Some (Some et))).
Proof.
  intros Hj Ho Ht. revert j Hj. induction fuel as [|fuel IH]; intros j Hj Hf; [lia|].
  cbn [scan_hunk]. destruct Hoal as [Hol Hoa], Htal as [Htl Hta].
  destruct (Z.leb_spec (zlen base) j) as [Hge|Hlt]; [cbn; lia|].
  destruct (index_ok (E:=Empty_set) oal j) as (oa & Eo & ->); [lia|].
  destruct (index_ok (E:=Empty_set) tal j) as (ta & Et & ->); [lia|].
  cbn [mbind exec_bind].
  assert (returns (scan_hunk fuel (zlen base) (zlen ours) (zlen theirs) oal tal op tp (j + 1))
    (λ '(j', eo, et), j ≤ j' ≤ zlen base ∧ op ≤ eo ≤ zlen ours ∧ tp ≤ et ≤ zlen theirs ∧
       (j' = zlen base ∧ eo = zlen ours ∧ et = zlen theirs ∨
        j' < zlen base ∧ oal !! Z.to_nat j' = Some (Some eo) ∧ tal !! Z.to_nat j' = Some (Some et)))) as Hgo.
  { eapply returns_mono; [apply IH; lia|]. intros [[j' eo] et] (? & ? & ? & ?).
    split; [lia|]. split; [lia|]. by split; [lia|]. }
  destruct oa as [o|]; [|exact Hgo]. destruct ta as [t|]; [|exact Hgo].
  destruct (Z.leb_spec op o), (Z.leb_spec tp t); cbn [andb]; try exact Hgo.
  destruct (Hoa j o ltac:(lia) Eo), (Hta j t ltac:(lia) Et). cbn.
  split; [lia|]. split; [lia|]. split; [lia|]. right. by split; [lia|].
Qed.

Definition last_is_hunk (segs : list seg) : Prop :=
  match last segs with Some (Hunk _ _ _) => True | _ => False end.

(** The segments the walk goes through from [p] on, up to [p']. *)
Definition walked (p p' : pos) (segs : list seg) : Prop :=
  replay diff m segs p = p' ∧
  p_base p' = zlen base ∧ p_ours p ≤ p_ours p' ≤ zlen ours ∧ p_theirs p ≤ p_theirs p' ≤ zlen theirs ∧
  concat (map base_of segs) = sub_list base (p_base p) (zlen base) ∧
  concat (map ours_of segs) = sub_list ours (p_ours p) (p_ours p') ∧
  concat (map theirs_of segs) = sub_list theirs (p_theirs p) (p_theirs p') ∧
  Forall seg_ok segs ∧ separated segs ∧
  (p_ours p' < zlen ours ∨ p_theirs p' < zlen theirs → ¬ last_is_hunk segs) ∧
  (oal !! Z.to_nat (p_base p) = Some (Some (p_ours p)) →
   tal !! Z.to_nat (p_base p) = Some (Some (p_theirs p)) → starts_stable segs).

Definition in_bounds (p : pos) : Prop :=
  0 ≤ p_base p ≤ zlen base ∧ 0 ≤ p_ours p ≤ zlen ours ∧ 0 ≤ p_theirs p ≤ zlen theirs.

Lemma last_is_hunk_cons s segs :
  last_is_hunk (s :: segs) ↔ (match segs with [] => last_is_hunk [s] | _ => last_is_hunk segs end).
Proof. unfold last_is_hunk. rewrite last_cons. destruct segs; [done|]. by destruct (last (_ :: _)) eqn:E; [|apply last_None in E]. Qed.

Lemma walked_stable p p' l segs :
  in_bounds p → base !! Z.to_nat (p_base p) = Some l → ours !! Z.to_nat (p_ours p) = Some l →
  theirs !! Z.to_nat (p_theirs p) = Some l → p_base p < zlen base →
  walked (place diff m p (Stable l)) p' segs → walked p p' (Stable l :: segs).
Proof.
  intros (Hb & Ho & Ht) Hlb Hlo Hlt Hlen (Hr & Hbe & Hoe & Hte & Cb & Co & Ct & Hok & Hsep & Hlast & Hst).
  cbn [place p_base p_ours p_theirs base_of ours_of theirs_of] in *.
  change (zlen [l]) with 1 in *.
  split; [exact Hr|]. split; [done|]. split; [lia|]. split; [lia|]. cbn [map concat base_of ours_of theirs_of].
  split; [rewrite Cb; by rewrite (sub_list_cons base (p_base p) _ l) by (done || lia)|].
  split; [rewrite Co; by rewrite (sub_list_cons ours (p_ours p) _ l) by (done || lia)|].
  split; [rewrite Ct; by rewrite (sub_list_cons theirs (p_theirs p) _ l) by (done || lia)|].
  split; [by constructor|]. split; [done|]. split; [|done].
  intros H. rewrite last_is_hunk_cons. destruct segs; [by intros []|by apply Hlast].
Qed.

Lemma walked_hunk p p' j eo et segs s :
  in_bounds p → p_base p ≤ j ≤ zlen base → p_ours p ≤ eo ≤ zlen ours → p_theirs p ≤ et ≤ zlen theirs →
  (p_base p < j ∨ p_ours p < eo ∨ p_theirs p < et) →
  ¬ (oal !! Z.to_nat (p_base p) = Some (Some (p_ours p)) ∧
     tal !! Z.to_nat (p_base p) = Some (Some (p_theirs p))) →
  (j = zlen base ∧ eo = zlen ours ∧ et = zlen theirs ∨
   j < zlen base ∧ oal !! Z.to_nat j = Some (Some eo) ∧ tal !! Z.to_nat j = Some (Some et)) →
  s = Hunk (sub_list base (p_base p) j) (sub_list ours (p_ours p) eo) (sub_list theirs (p_theirs p) et) →
  walked (place diff m p s) p' segs → walked p p' (s :: segs).
Proof.
  intros (Hb & Ho & Ht) Hj Heo Het Hpro Hna Hend ->
    (Hr & Hbe & Hoe & Hte & Cb & Co & Ct & Hok & Hsep & Hlast & Hst).
  cbn [place p_base p_ours p_theirs base_of ours_of theirs_of] in *.
  rewrite !zlen_sub_list in * by lia.
  replace (p_base p + (j - p_base p)) with j in * by lia.
  replace (p_ours p + (eo - p_ours p)) with eo in * by lia.
  replace (p_theirs p + (et - p_theirs p)) with et in * by lia.
  split; [exact Hr|]. split; [done|]. split; [lia|]. split; [lia|]. cbn [map concat base_of ours_of theirs_of].
  split; [rewrite Cb; apply sub_list_app; lia|]. split; [rewrite Co; apply sub_list_app; lia|].
  split; [rewrite Ct; apply sub_list_app; lia|].
  assert (∀ {A} (l : list A) i k, 0 ≤ i → i < k → k ≤ zlen l → sub_list l i k ≠ []) as Hne.
  { intros A l i k ? ? ? E. apply (f_equal zlen) in E. rewrite zlen_sub_list, zlen_nil in E by lia. lia. }
  split; [constructor; [|done]|].
  { destruct Hpro as [?|[?|?]]; [left|right; left|right; right]; apply Hne; lia. }
  split; [split; [|done]|split].
  - destruct Hend as [(-> & -> & ->)|(_ & ? & ?)]; [|by apply Hst].
    rewrite sub_list_nil in Cb. destruct segs as [|[l|b o t] segs]; [done|done|].
    cbn [map concat base_of ours_of theirs_of] in Cb, Co, Ct.
    assert (p_ours p' = zlen ours) as Eo by lia. assert (p_theirs p' = zlen theirs) as Et by lia.
    rewrite Eo, sub_list_nil in Co. rewrite Et, sub_list_nil in Ct.
    apply app_nil in Cb as [-> _], Co as [-> _], Ct as [-> _].
    apply Forall_cons in Hok as [Hok _]. simpl in Hok. by destruct Hok as [?|[?|?]].
  - intros H. rewrite last_is_hunk_cons. destruct segs as [|s' segs]; [|by apply Hlast].
    intros _. cbn [map concat] in Cb, Co, Ct.
    destruct Hend as [(-> & -> & ->)|(Hlt & _ & _)]; [lia|].
    apply (f_equal zlen) in Cb. rewrite zlen_sub_list, zlen_nil in Cb by lia. lia.
  - intros ? ?. exfalso. by apply Hna.
Qed.

Lemma walk_loop_spec fuel p :
  in_bounds p →
  zlen base - p_base p + (zlen ours - p_ours p) + (zlen theirs - p_theirs p) < Z.of_nat fuel →
  ∃ p' segs,
    walk_loop diff fuel base ours theirs oal tal m (p_out p) (p_regions p)
      (p_base p) (p_ours p) (p_theirs p)
    = Ok (p_out p', p_regions p', p_ours p', p_theirs p') ∧ walked p p' segs.
Proof.
  revert p. induction fuel as [|fuel IH]; intros p Hp Hf; [unfold in_bounds in Hp; lia|].
  pose proof Hp as (Hb & Ho & Ht). cbn [walk_loop].
  destruct (Z.ltb_spec (p_base p) (zlen base)) as [Hlt|Hge].
  2:{ exists p, []. split; [done|]. unfold walked.
      replace (p_base p) with (zlen base) by lia. rewrite !sub_list_nil.
      split; [done|]. split; [lia|]. split; [lia|]. split; [lia|]. split; [done|].
      split; [done|]. split; [done|]. split; [constructor|]. split; [done|]. by split; [intros _ []|]. }
  pose proof Hoal as [Hol Hoa]. pose proof Htal as [Htl Hta].
  destruct (index_ok (E:=Empty_set) oal (p_base p)) as (oa & Eo & ->); [lia|].
  destruct (index_ok (E:=Empty_set) tal (p_base p)) as (ta & Et & ->); [lia|].
  cbn [mbind exec_bind].
  destruct (bool_decide (oa = Some (p_ours p)) && bool_decide (ta = Some (p_theirs p))) eqn:Hal.
  - apply andb_true_iff in Hal as [->%bool_decide_eq_true ->%bool_decide_eq_true].
    destruct (index_ok (E:=Empty_set) base (p_base p)) as (l & El & ->); [lia|]. cbn [mbind exec_bind].
    destruct (Hoa (p_base p) (p_ours p) ltac:(lia) Eo) as [? E1].
    destruct (Hta (p_base p) (p_theirs p) ltac:(lia) Et) as [? E2].
    destruct (IH (place diff m p (Stable l))) as (p' & segs & E & Hw).
    { unfold in_bounds. cbn. change (zlen [l]) with 1. lia. }
    { cbn [place p_base p_ours p_theirs base_of ours_of theirs_of]. change (zlen [l]) with 1. lia. }
    exists p', (Stable l :: segs). cbn [place p_out p_regions p_base p_ours p_theirs rendering] in E.
    rewrite app_nil_r in E. split; [exact E|].
    apply walked_stable; [done|done|congruence|congruence|done|done].
  - assert (¬ (oa = Some (p_ours p) ∧ ta = Some (p_theirs p))) as Hna.
    { intros [-> ->]. by rewrite !bool_decide_eq_true_2 in Hal. }
    destruct (returns_inv _ _ (scan_hunk_spec (S (length base)) (p_ours p) (p_theirs p) (p_base p)
      ltac:(lia) ltac:(lia) ltac:(lia) ltac:(unfold zlen; lia))) as ([[j eo] et] & -> & Hj & Heo & Het & Hend).
    cbn [mbind exec_bind].
    rewrite (slice_ok base), (slice_ok ours), (slice_ok theirs) by lia. cbn [mbind exec_bind].
    assert (p_base p < j ∨ p_ours p < eo ∨ p_theirs p < et) as Hpro.
    { destruct Hend as [?|(? & E1 & E2)]; [lia|].
      destruct (Z.eq_dec (p_base p) j) as [<-|]; [|lia].
      destruct (Z.eq_dec (p_ours p) eo) as [<-|]; [|lia].
      destruct (Z.eq_dec (p_theirs p) et) as [<-|]; [|lia]. exfalso. apply Hna. split; congruence. }
    set (b := sub_list base (p_base p) j). set (o := sub_list ours (p_ours p) eo).
    set (t := sub_list theirs (p_theirs p) et).
    assert (zlen b = j - p_base p ∧ zlen o = eo - p_ours p ∧ zlen t = et - p_theirs p) as (Zb & Zo & Zt)
      by (unfold b, o, t; rewrite !zlen_sub_list by lia; lia).
    destruct (IH (place diff m p (Hunk b o t))) as (p' & segs & E & Hw).
    { unfold in_bounds. cbn. rewrite Zb, Zo, Zt. lia. }
    { cbn [place p_base p_ours p_theirs base_of ours_of theirs_of]. rewrite Zb, Zo, Zt. lia. }
    exists p', (Hunk b o t :: segs). split.
    + rewrite emit_hunk_resolution.
      cbn [place p_out p_regions p_base p_ours p_theirs rendering base_of ours_of theirs_of] in E.
      rewrite Zb, Zo, Zt in E.
      replace (p_base p + (j - p_base p)) with j in E by lia.
      replace (p_ours p + (eo - p_ours p)) with eo in E by lia.
      replace (p_theirs p + (et - p_theirs p)) with et in E by lia.
      pose proof (resolution_total b o t) as Hres. unfold rendering in E.
      destruct (resolution diff b o t) as [[c|]| | |]; try done; cbn [mbind exec_bind].
      by rewrite app_nil_r in E.
    + refine (walked_hunk p p' j eo et segs _ Hp Hj Heo Het Hpro _ Hend eq_refl Hw).
      rewrite Eo, Et. intros [? ?]. apply Hna. split; congruence.
Qed.

(** The whole walk, trailing content included. *)
Lemma walk_and_emit_spec :
  ∃ segs, concat (map base_of segs) = base ∧ concat (map ours_of segs) = ours ∧
    concat (map theirs_of segs) = theirs ∧ Forall seg_ok segs ∧ separated segs ∧
    let p := replay diff m segs
               {| p_out := []; p_regions := []; p_base := 0; p_ours := 0; p_theirs := 0 |} in
    walk_and_emit diff base ours theirs oal tal m
    = Ok (match p_regions p with
          | [] => Clean (p_out p)
          | _ => Conflicts (p_out p) (zlen (p_regions p))
          end, p_regions p).
Proof.
  set (p0 := {| p_out := []; p_regions := []; p_base := 0; p_ours := 0; p_theirs := 0 |}).
  destruct (walk_loop_spec (S (length base + length ours + length theirs)) p0) as (p & segs & E & Hw).
  { unfold in_bounds, p0. cbn. zlia. }
  { unfold p0. cbn [p_base p_ours p_theirs]. unfold zlen. lia. }
  destruct Hw as (Hr & Hbe & Hoe & Hte & Cb & Co & Ct & Hok & Hsep & Hlast & _).
  cbn [p0 p_base p_ours p_theirs p_out p_regions] in *. rewrite sub_list_full in Cb.
  unfold walk_and_emit. rewrite E. cbn [mbind exec_bind].
  destruct ((p_ours p <? zlen ours) || (p_theirs p <? zlen theirs)) eqn:Htrail.
  - assert (p_ours p < zlen ours ∨ p_theirs p < zlen theirs) as Hlt.
    { apply orb_true_iff in Htrail as [?%Z.ltb_lt|?%Z.ltb_lt]; auto. }
    rewrite (slice_ok ours), (slice_ok theirs) by lia. cbn [mbind exec_bind].
    set (o := sub_list ours (p_ours p) (zlen ours)). set (t := sub_list theirs (p_theirs p) (zlen theirs)).
    assert (zlen o = zlen ours - p_ours p ∧ zlen t = zlen theirs - p_theirs p) as [Zo Zt]
      by (unfold o, t; rewrite !zlen_sub_list by lia; lia).
    exists (segs ++ [Hunk [] o t]). rewrite !map_app, !concat_app. cbn [map concat base_of ours_of theirs_of].
    rewrite !app_nil_r, Cb, Co, Ct. split; [done|].
    split; [unfold o; rewrite sub_list_app by lia; apply sub_list_full|].
    split; [unfold t; rewrite sub_list_app by lia; apply sub_list_full|].
    split.
    { apply Forall_app. split; [done|]. constructor; [|constructor]. right.
      destruct Hlt; [left|right]; intros Ez; rewrite Ez, zlen_nil in *; lia. }
    split.
    { specialize (Hlast Hlt). clear -Hsep Hlast. induction segs as [|s segs IH]; [done|].
      rewrite last_is_hunk_cons in Hlast. cbn [app separated] in *.
      destruct s as [l|b' o' t']; [destruct segs; [done|by apply IH]|].
      destruct segs as [|s segs]; [by exfalso; apply Hlast|]. destruct Hsep. by split; [|apply IH]. }
    unfold replay. rewrite fold_left_app. cbn [fold_left]. fold (replay diff m segs p0). rewrite Hr.
    rewrite emit_hunk_resolution. cbn [place p_out p_regions rendering].
    pose proof (resolution_total [] o t) as Hres.
    destruct (resolution diff [] o t) as [[c|]| | |]; try done; cbn [mbind exec_bind].
    + by rewrite app_nil_r.
    + unfold region_at. cbn [r_base r_ours r_theirs]. rewrite Hbe, Zo, Zt, zlen_nil, Z.add_0_r.
      replace (p_ours p + (zlen ours - p_ours p)) with (zlen ours) by lia.
      by replace (p_theirs p + (zlen theirs - p_theirs p)) with (zlen theirs) by lia.
  - apply orb_false_iff in Htrail as [Ho%Z.ltb_ge Ht%Z.ltb_ge].
    assert (p_ours p = zlen ours) as Eo by lia. assert (p_theirs p = zlen theirs) as Et by lia.
    exists segs. rewrite Cb, Co, Ct, Eo, Et, !sub_list_full. cbn zeta. by rewrite Hr.
Qed.
End walk.

(** ** Lines *)
Definition terminated (l : line) : Prop := last l = Some 10.
Definition ends_nl (out : list Z) : Prop := out = [] ∨ last out = Some 10.

Lemma ends_nl_app a b : ends_nl a → ends_nl b → ends_nl (a ++ b).
Proof.
  intros Ha [->|Hb]; [by rewrite app_nil_r|]. right.
  destruct b as [|x b] using rev_ind; [done|]. rewrite last_snoc in Hb. by rewrite app_assoc, last_snoc.
Qed.

Lemma ends_nl_concat ls : Forall terminated ls → ends_nl (concat ls).
Proof.
  induction 1 as [|l ls Hl Hls IH]; [by left|]. cbn [concat]. apply ends_nl_app; [by right|done].
Qed.

Lemma split_inclusive_app cur a b :
  last a = Some 10 → split_inclusive cur (a ++ b) = split_inclusive cur a ++ split_inclusive [] b.
Proof.
  revert cur. induction a as [|x a IH]; intros cur Hl; [done|]. cbn [app split_inclusive].
  destruct a as [|y a].
  - simpl in Hl. injection Hl as ->. done.
  - rewrite last_cons_cons in Hl. destruct (x =? 10); rewrite IH by done; done.
Qed.

Lemma split_lines_eq bytes : split_lines bytes = split_inclusive [] bytes.
Proof. by destruct bytes. Qed.

Lemma split_lines_app a b : ends_nl a → split_lines (a ++ b) = split_lines a ++ split_lines b.
Proof. rewrite !split_lines_eq. intros [->|Ha]; [done|by apply split_inclusive_app]. Qed.

(** Splitting loses nothing, and only the last line may lack a newline. *)
Lemma split_inclusive_spec cur bytes :
  10 ∉ cur →
  concat (split_inclusive cur bytes) = cur ++ bytes ∧
  (∀ k l, split_inclusive cur bytes !! k = Some l →
     (S k < length (split_inclusive cur bytes))%nat → terminated l) ∧
  zlen (split_inclusive cur bytes)
  = zlen (filter (λ b, b = 10) bytes)
    + (match last (cur ++ bytes) with Some b => if negb (b =? 10) then 1 else 0 | None => 0 end).
Proof.
  revert cur. induction bytes as [|b bytes IH]; intros cur Hc.
  - cbn [split_inclusive]. rewrite app_nil_r. destruct cur as [|x cur] using rev_ind.
    + split; [done|]. split; [intros k l; by rewrite lookup_nil|done].
    + clear IHcur. assert (split_inclusive (cur ++ [x]) [] = [cur ++ [x]]) as E by (by destruct cur).
      cbn [split_inclusive] in E. rewrite E. cbn [concat]. rewrite app_nil_r.
      split; [done|]. split; [intros k l _ ?; simpl in *; lia|]. rewrite last_snoc.
      destruct (Z.eqb_spec x 10) as [->|]; [set_solver|done].
  - cbn [split_inclusive]. destruct (Z.eqb_spec b 10) as [->|Hb].
    + destruct (IH [] ltac:(by apply not_elem_of_nil)) as (E & Ht & Hz). cbn [concat].
      rewrite E, app_nil_l, <- app_assoc. split; [done|]. split.
      * intros [|k] l Hk Hlt; cbn in Hk, Hlt; [injection Hk as <-; unfold terminated; apply last_snoc|].
        apply (Ht k l Hk). lia.
      * rewrite zlen_cons, Hz, filter_cons_True by done. rewrite zlen_cons. cbn [app].
        rewrite last_app. cbn [last]. destruct bytes as [|x bytes]; [done|].
        rewrite last_cons_cons. destruct (last (x :: bytes)) eqn:El; [lia|by apply last_None in El].
    + destruct (IH (cur ++ [b]) ltac:(intros [?|Hin]%elem_of_app; [done|]; apply list_elem_of_singleton in Hin; lia)) as (E & Ht & Hz).
      rewrite <- app_assoc in E, Hz. split; [done|]. split; [done|].
      by rewrite Hz, filter_cons_False.
Qed.

Lemma concat_split_lines bytes : concat (split_lines bytes) = bytes.
Proof. rewrite split_lines_eq. by destruct (split_inclusive_spec [] bytes (not_elem_of_nil _)). Qed.

Lemma output_line_count_split bytes : output_line_count bytes = zlen (split_lines bytes).
Proof.
  rewrite split_lines_eq. by destruct (split_inclusive_spec [] bytes (not_elem_of_nil _)) as (_ & _ & ->).
Qed.

Lemma split_lines_before bytes A B :
  split_lines bytes = A ++ B → B ≠ [] → Forall terminated A.
Proof.
  rewrite split_lines_eq. intros E HB. destruct (split_inclusive_spec [] bytes (not_elem_of_nil _)) as (_ & Ht & _).
  apply Forall_lookup. intros k l Hk. apply (Ht k l).
  - rewrite E. by apply lookup_app_l_Some.
  - rewrite E, length_app. apply lookup_lt_Some in Hk. destruct B; [done|simpl; lia].
Qed.

(** The lines of a composition come from the two sides. *)
Lemma classifies_act base side tables k a b l :
  classifies base side tables → tables.1 !! k = Some a → base !! k = Some b → l ∈ act b a → l ∈ side.
Proof.
  intros (Hla & Hli & Hr) Ha Hb Hl. rewrite <- Hr. unfold rendered, cells. apply elem_of_app. left.
  apply list_elem_of_In, in_concat. exists (cell base tables.1 tables.2 k). split.
  - apply in_map, in_seq. apply lookup_lt_Some in Hb. lia.
  - apply list_elem_of_In. unfold cell. rewrite Hb, Ha. apply elem_of_app. by right.
Qed.

Lemma classifies_gap base side tables k g l :
  classifies base side tables → tables.2 !! k = Some g → l ∈ g → l ∈ side.
Proof.
  intros (Hla & Hli & Hr) Hg Hl. rewrite <- Hr. unfold rendered, cells. apply elem_of_app.
  pose proof (lookup_lt_Some _ _ _ Hg). destruct (decide (k = length base)) as [->|].
  - right. by rewrite Hg.
  - left. apply list_elem_of_In, in_concat. exists (cell base tables.1 tables.2 k). split.
    + apply in_map, in_seq. lia.
    + apply list_elem_of_In. unfold cell. rewrite Hg. apply elem_of_app. by left.
Qed.

Lemma merged_lines base ours theirs ot tt tables l :
  classifies base ours ot → classifies base theirs tt → merged_tables (length base) ot tt tables →
  l ∈ rendered base tables.1 tables.2 → l ∈ ours ∨ l ∈ theirs.
Proof.
  intros Ho Ht (Hla & Hli & Ha & Hg) Hl.
  pose proof Ho as (Hoa & Hoi & _). pose proof Ht as (Hta & Hti & _).
  assert (∀ k g, tables.2 !! k = Some g → l ∈ g → l ∈ ours ∨ l ∈ theirs) as Hgap.
  { intros k g Hk Hin. pose proof (lookup_lt_Some _ _ _ Hk).
    destruct (lookup_lt_is_Some_2 ot.2 k) as [og Eo]; [lia|].
    destruct (lookup_lt_is_Some_2 tt.2 k) as [tg Et]; [lia|].
    destruct (Hg k og tg g Eo Et Hk) as [[_ ->]|[[_ ->]|[_ ->]]];
      [right|left|left]; by eapply classifies_gap. }
  unfold rendered, cells in Hl. apply elem_of_app in Hl as [Hl|Hl].
  - apply list_elem_of_In, in_concat in Hl as (c & Hc & Hin). apply in_map_iff in Hc as (k & <- & [_ Hk]%in_seq).
    apply list_elem_of_In in Hin. unfold cell in Hin. apply elem_of_app in Hin as [Hin|Hin].
    + destruct (tables.2 !! k) as [g|] eqn:Eg; [by eapply Hgap|by apply not_elem_of_nil in Hin].
    + destruct (lookup_lt_is_Some_2 base k) as [b Eb]; [lia|].
      destruct (lookup_lt_is_Some_2 tables.1 k) as [a Ea]; [lia|].
      destruct (lookup_lt_is_Some_2 ot.1 k) as [o Eo]; [lia|].
      destruct (lookup_lt_is_Some_2 tt.1 k) as [t Et]; [lia|].
      rewrite Eb, Ea in Hin. destruct (Ha k o t a Eo Et Ea) as [[_ ->]|[_ ->]];
        [right|left]; by eapply classifies_act.
  - destruct (tables.2 !! length base) as [g|] eqn:Eg; [by eapply Hgap|by apply not_elem_of_nil in Hl].
Qed.

Lemma compare_trailing_ws_either a b c : compare_trailing_ws a b = Some c → c = a ∨ c = b.
Proof.
  unfold compare_trailing_ws. destruct (negb _); [done|].
  destruct (compare_ws_loop a b 0 0) as [[x y]|]; [|done]. intros [= <-]. destruct (x <=? y); auto.
Qed.

Section terminated.
  Context (diff : list line → list line → list DiffOp) (m : ConflictMarkers).
  Hypothesis diff_script : ∀ a b, script a b 0 0 (diff a b).

Lemma resolution_ends_nl b o t c :
  Forall terminated b → Forall terminated o → Forall terminated t →
  resolution diff b o t = Ok (Some c) → ends_nl c.
Proof.
  intros Hb Ho Ht. unfold resolution.
  destruct (bool_decide _); [intros [= <-]; by apply ends_nl_concat|].
  destruct (_ || _); [intros [= <-]; by apply ends_nl_concat|].
  destruct (compare_trailing_ws o t) as [c'|] eqn:Hc.
  { intros [= <-]. apply compare_trailing_ws_either in Hc as [-> | ->]; by apply ends_nl_concat. }
  destruct (compose_disjoint_spec diff diff_script b o t) as (ot & tt & _ & Hco & _ & Hct & Hr).
  destruct (compose_disjoint diff b o t) as [[c'|]| | |]; try done; cbn [mbind exec_bind].
  - intros [= <-]. destruct (Hr _ eq_refl) as (tables & Hm & ->). apply ends_nl_concat.
    apply Forall_forall. intros l Hl. rewrite Forall_forall in Ho, Ht.
    destruct (merged_lines b o t ot tt tables l Hco Hct Hm Hl); auto.
  - destruct (_ && _ && _); intros [= <-]. apply ends_nl_app; by apply ends_nl_concat.
Qed.

Lemma conflict_block_ends_nl o t : last (conflict_block o t m) = Some 10.
Proof. unfold conflict_block. rewrite !app_assoc. apply last_snoc. Qed.

Lemma rendering_ends_nl s :
  Forall terminated (base_of s) → Forall terminated (ours_of s) → Forall terminated (theirs_of s) →
  ends_nl (rendering diff m s).
Proof.
  destruct s as [l|b o t]; cbn [base_of ours_of theirs_of rendering].
  - intros [Hl _]%Forall_cons _ _. by right.
  - intros Hb Ho Ht. destruct (resolution diff b o t) as [[c|]| | |] eqn:E;
      try (right; apply conflict_block_ends_nl). by apply (resolution_ends_nl b o t c).
Qed.
End terminated.

(** ** Replaying segments *)
Definition is_conflict (diff : list line → list line → list DiffOp) (s : seg) : bool :=
  match s with
  | Stable _ => false
  | Hunk b o t => match resolution diff b o t with Ok (Some _) => false | _ => true end
  end.

Definition segmentation (base ours theirs : list line) (segs : list seg) : Prop :=
  concat (map base_of segs) = base ∧ concat (map ours_of segs) = ours ∧
  concat (map theirs_of segs) = theirs ∧ Forall seg_ok segs ∧ separated segs.

Definition origin : pos := {| p_out := []; p_regions := []; p_base := 0; p_ours := 0; p_theirs := 0 |}.

Section replayed.
  Context (diff : list line → list line → list DiffOp) (m : ConflictMarkers).
  Abbreviation rend := (rendering diff m).
  Abbreviation rep := (replay diff m).

(** The region of a conflicting segment [s] at state [p]. *)
Definition region_of (p : pos) (s : seg) : TextConflictRegion :=
  {| r_base := {| start := p_base p; stop := p_base p + zlen (base_of s) |};
     r_ours := {| start := p_ours p; stop := p_ours p + zlen (ours_of s) |};
     r_theirs := {| start := p_theirs p; stop := p_theirs p + zlen (theirs_of s) |};
     r_merged := {| start := output_line_count (p_out p);
                    stop := output_line_count (p_out p ++ rend s) |} |}.

Lemma place_regions p s :
  p_regions (place diff m p s) = p_regions p ++ (if is_conflict diff s then [region_of p s] else []).
Proof.
  destruct s as [l|b o t]; [done|]. cbn [place p_regions is_conflict].
  destruct (resolution diff b o t) as [[c|]| | |] eqn:E; try done; unfold region_of; cbn [rendering];
    by rewrite E.
Qed.

Lemma replay_snoc segs s p : rep (segs ++ [s]) p = place diff m (rep segs p) s.
Proof. unfold replay. by rewrite fold_left_app. Qed.

Lemma replay_positions segs :
  p_out (rep segs origin) = concat (map rend segs) ∧
  p_base (rep segs origin) = zlen (concat (map base_of segs)) ∧
  p_ours (rep segs origin) = zlen (concat (map ours_of segs)) ∧
  p_theirs (rep segs origin) = zlen (concat (map theirs_of segs)) ∧
  zlen (p_regions (rep segs origin)) = zlen (filter (λ s, is_conflict diff s = true) segs).
Proof.
  induction segs as [|s segs (Eo & Eb & Eu & Et & Er)] using rev_ind; [done|].
  rewrite replay_snoc, !map_app, !concat_app, filter_app. cbn [map concat place p_out p_base p_ours p_theirs].
  rewrite !app_nil_r, Eo, Eb, Eu, Et, !zlen_app. split; [done|]. split; [done|]. split; [done|].
  split; [done|]. change (zlen (p_regions (place diff m (rep segs origin) s))
    = zlen (filter (λ s, is_conflict diff s = true) segs) + zlen (filter (λ s, is_conflict diff s = true) [s])).
  rewrite place_regions, zlen_app, Er. f_equal. rewrite filter_cons, filter_nil.
  destruct (is_conflict diff s); [by rewrite decide_True|by rewrite decide_False].
Qed.

Lemma replay_region segs r :
  r ∈ p_regions (rep segs origin) →
  ∃ pre s post, segs = pre ++ s :: post ∧ is_conflict diff s = true ∧ r = region_of (rep pre origin) s.
Proof.
  induction segs as [|s segs IH] using rev_ind; [by intros ?%not_elem_of_nil|].
  rewrite replay_snoc, place_regions. intros [Hr|Hr]%elem_of_app.
  - destruct (IH Hr) as (pre & s' & post & -> & Hc & ->). exists pre, s', (post ++ [s]).
    split; [by rewrite <- app_assoc|done].
  - destruct (is_conflict diff s) eqn:Hc; [|by apply not_elem_of_nil in Hr].
    apply list_elem_of_singleton in Hr as ->. by exists segs, s, [].
Qed.

Lemma output_line_count_app a b : output_line_count a ≤ output_line_count (a ++ b).
Proof.
  unfold output_line_count. rewrite filter_app, zlen_app, last_app.
  pose proof (zlen_nonneg (filter (λ x, x = 10) b)).
  destruct b as [|x b] using rev_ind; [simpl; lia|]. clear IHb. rewrite last_snoc, filter_app, zlen_app.
  pose proof (zlen_nonneg (filter (λ x, x = 10) b)).
  rewrite filter_cons, filter_nil. destruct (Z.eqb_spec x 10) as [->|Hx]; cbn [negb].
  - rewrite decide_True by done. change (zlen [10]) with 1. destruct (last a) as [y|]; [destruct (negb _)|]; lia.
  - rewrite decide_False by done. change (zlen (@nil Z)) with 0. destruct (last a) as [y|]; [destruct (negb _)|]; lia.
Qed.

(** Regions follow one another in all four texts. *)
Definition before (a b : TextConflictRegion) : Prop :=
  stop (r_base a) ≤ start (r_base b) ∧ stop (r_ours a) ≤ start (r_ours b) ∧
  stop (r_theirs a) ≤ start (r_theirs b) ∧ stop (r_merged a) ≤ start (r_merged b).

Lemma replay_sorted segs :
  StronglySorted before (p_regions (rep segs origin)) ∧
  Forall (λ r, stop (r_base r) ≤ p_base (rep segs origin) ∧ stop (r_ours r) ≤ p_ours (rep segs origin) ∧
    stop (r_theirs r) ≤ p_theirs (rep segs origin) ∧
    stop (r_merged r) ≤ output_line_count (p_out (rep segs origin))) (p_regions (rep segs origin)).
Proof.
  induction segs as [|s segs [IHs IHf]] using rev_ind; [by split; constructor|].
  rewrite replay_snoc, place_regions. set (p := rep segs origin) in *.
  cbn [place p_out p_base p_ours p_theirs].
  pose proof (zlen_nonneg (base_of s)). pose proof (zlen_nonneg (ours_of s)).
  pose proof (zlen_nonneg (theirs_of s)). pose proof (output_line_count_app (p_out p) (rend s)). split.
  - destruct (is_conflict diff s); [|by rewrite app_nil_r].
    clear -IHs IHf. induction (p_regions p) as [|r rs IH]; [repeat constructor|].
    apply Forall_cons in IHf as [Hr IHf]. apply StronglySorted_inv in IHs as [IHs Hrs].
    cbn [app]. constructor; [by apply IH|]. apply Forall_app. split; [done|].
    constructor; [|constructor]. exact Hr.
  - apply Forall_app. split; [eapply Forall_impl; [exact IHf|cbn; lia]|].
    destruct (is_conflict diff s); [|constructor]. constructor; [|constructor].
    cbn [region_of r_base r_ours r_theirs r_merged stop]. lia.
Qed.

Lemma separated_app a b : separated (a ++ b) → separated b.
Proof. induction a as [|[l|? ? ?] a IH]; [done|exact IH|]. intros [_ H]. by apply IH. Qed.

Hypothesis diff_script : ∀ a b, script a b 0 0 (diff a b).
Context (base ours theirs : list Z).

(** The lines of a segment that has a successor all end with a newline. *)
Lemma seg_terminated p1 s0 s1 rest :
  segmentation (split_lines base) (split_lines ours) (split_lines theirs) (p1 ++ s0 :: s1 :: rest) →
  Forall terminated (base_of s0) ∧ Forall terminated (ours_of s0) ∧ Forall terminated (theirs_of s0).
Proof.
  intros (Eb & Eo & Et & Hok & Hsep).
  assert (∀ f bytes, concat (map f (p1 ++ s0 :: s1 :: rest)) = split_lines bytes →
    f s1 ≠ [] → Forall terminated (f s0)) as Hf.
  { intros f bytes E Hne. rewrite map_app, concat_app in E. cbn [map concat] in E. rewrite app_assoc in E.
    symmetry in E. apply split_lines_before in E; [|by destruct (f s1)]. by apply Forall_app in E as [_ ?]. }
  apply separated_app in Hsep. apply Forall_app in Hok as [_ Hok]. apply Forall_cons in Hok as [_ Hok].
  apply Forall_cons in Hok as [Hok _].
  destruct s0 as [l|b o t].
  - cbn [base_of ours_of theirs_of]. assert (Forall terminated [l]) as Hl; [|done].
    destruct s1 as [l1|b1 o1 t1]; [by apply (Hf base_of base Eb)|]. cbn [seg_ok] in Hok.
    destruct Hok as [?|[?|?]]; [by apply (Hf base_of base Eb)|by apply (Hf ours_of ours Eo)|by apply (Hf theirs_of theirs Et)].
  - destruct Hsep as [Hst _]. destruct s1 as [l1|]; [|done].
    split; [by apply (Hf base_of base Eb)|]. split; [by apply (Hf ours_of ours Eo)|by apply (Hf theirs_of theirs Et)].
Qed.

Lemma prefix_ends_nl pre s post :
  segmentation (split_lines base) (split_lines ours) (split_lines theirs) (pre ++ s :: post) →
  ends_nl (concat (map rend pre)).
Proof.
  revert s post. induction pre as [|s0 pre IH] using rev_ind; intros s post Hs; [by left|].
  rewrite <- app_assoc in Hs. cbn [app] in Hs. rewrite map_app, concat_app.
  apply ends_nl_app; [by eapply IH|]. cbn [map concat]. rewrite app_nil_r.
  destruct (seg_terminated pre s0 s post Hs) as (Hb & Ho & Ht).
  by apply rendering_ends_nl.
Qed.

(** The merged lines of a region are the lines of its conflict block. *)
Lemma region_merged pre s post :
  segmentation (split_lines base) (split_lines ours) (split_lines theirs) (pre ++ s :: post) →
  is_conflict diff s = true →
  let r := region_of (rep pre origin) s in
  sub_list (split_lines (concat (map rend (pre ++ s :: post)))) (start (r_merged r)) (stop (r_merged r))
  = split_lines (conflict_block (ours_of s) (theirs_of s) m).
Proof.
  intros Hs Hc r. pose proof (prefix_ends_nl pre s post Hs) as Hpre.
  assert (rend s = conflict_block (ours_of s) (theirs_of s) m) as Er.
  { destruct s as [l|b o t]; [done|]. cbn [is_conflict rendering ours_of theirs_of] in *.
    by destruct (resolution diff b o t) as [[c|]| | |]. }
  assert (ends_nl (concat (map rend pre) ++ rend s)) as Hpre2.
  { apply ends_nl_app; [done|]. right. rewrite Er. apply conflict_block_ends_nl. }
  cbn [r region_of r_merged start stop]. rewrite !output_line_count_split.
  destruct (replay_positions pre) as (-> & _). rewrite map_app, concat_app. cbn [map concat].
  rewrite (split_lines_app _ (rend s)), zlen_app by done.
  rewrite app_assoc, split_lines_app, (split_lines_app _ (rend s)) by done. rewrite <- app_assoc, <- Er.
  by apply sub_list_middle.
Qed.

Lemma region_ranges pre s post :
  segmentation (split_lines base) (split_lines ours) (split_lines theirs) (pre ++ s :: post) →
  let r := region_of (rep pre origin) s in
  sub_list (split_lines base) (start (r_base r)) (stop (r_base r)) = base_of s ∧
  sub_list (split_lines ours) (start (r_ours r)) (stop (r_ours r)) = ours_of s ∧
  sub_list (split_lines theirs) (start (r_theirs r)) (stop (r_theirs r)) = theirs_of s.
Proof.
  intros (Eb & Eo & Et & _ & _) r. cbn [r region_of r_base r_ours r_theirs start stop].
  destruct (replay_positions pre) as (_ & -> & -> & -> & _).
  rewrite <- Eb, <- Eo, <- Et, !map_app, !concat_app. cbn [map concat].
  split; [by apply sub_list_middle|]. split; by apply sub_list_middle.
Qed.
End replayed.

(** * Properties *)

Lemma walk_text diff m base ours theirs :
  (∀ a b, script a b 0 0 (diff a b)) →
  ∃ segs, segmentation (split_lines base) (split_lines ours) (split_lines theirs) segs ∧
    (our_align ← build_alignment diff (split_lines base) (split_lines ours);
     their_align ← build_alignment diff (split_lines base) (split_lines theirs);
     walk_and_emit diff (split_lines base) (split_lines ours) (split_lines theirs)
       our_align their_align m)
    = Ok (let p := replay diff m segs origin in
          (match p_regions p with [] => Clean (p_out p) | _ => Conflicts (p_out p) (zlen (p_regions p)) end,
           p_regions p)).
Proof.
  intros Hd.
  destruct (returns_inv _ _ (build_alignment_spec diff Hd (split_lines base) (split_lines ours)))
    as (oal & -> & Ho).
  destruct (returns_inv _ _ (build_alignment_spec diff Hd (split_lines base) (split_lines theirs)))
    as (tal & -> & Ht).
  cbn [mbind exec_bind].
  destruct (walk_and_emit_spec diff m Hd _ _ _ oal tal Ho Ht) as (segs & Eb & Eo & Et & Hok & Hsep & E).
  exists segs. by split.
Qed.

Lemma text_merge_answers diff base ours theirs m :
  (∀ a b, script a b 0 0 (diff a b)) →
  returns (text_hunk_merge_with_markers diff base ours theirs m) (λ _, True).
Proof.
  intros Hd. unfold text_hunk_merge_with_markers, run. destruct (any_binary _ _ _); [done|].
  destruct (_ && _); [done|]. destruct (bool_decide (base = ours)); [done|].
  destruct (bool_decide (base = theirs)); [done|]. destruct (bool_decide (ours = theirs)); [done|].
  destruct (walk_text diff m base ours theirs Hd) as (segs & _ & E).
  apply bind_ok in E as (oal & -> & E). rewrite bind_Ok. apply bind_ok in E as (tal & -> & E).
  by rewrite bind_Ok, E.
Qed.

(** C28. The three-way merge always terminates, and its result is explained line
    by line.  Binary input gives [Binary]; a side equal to the base gives the
    other side; equal sides give that side; otherwise there is one common
    division of the three texts into lines stable on both sides and hunks
    between them, the merged bytes are the concatenation of the stable lines and
    of each hunk's resolution (or its conflict block), and the outcome is
    [Clean] exactly when no hunk conflicts, with the number of conflicting hunks
    otherwise. *)
Theorem merge_segments diff base ours theirs m :
  (∀ a b, script a b 0 0 (diff a b)) →
  returns (text_hunk_merge_with_markers diff base ours theirs m) (λ out,
    if any_binary base ours theirs then out = Binary
    else if decide (base = ours) then out = Clean theirs
    else if decide (base = theirs ∨ ours = theirs) then out = Clean ours
    else ∃ segs, segmentation (split_lines base) (split_lines ours) (split_lines theirs) segs ∧
      let merged := concat (map (rendering diff m) segs) in
      let conflicts := zlen (filter (λ s, is_conflict diff s = true) segs) in
      out = if conflicts =? 0 then Clean merged else Conflicts merged conflicts).
Proof.
  intros Hd. unfold text_hunk_merge_with_markers, run. destruct (any_binary base ours theirs); [done|].
  destruct (decide (base = ours)) as [->|Hbo].
  { rewrite bool_decide_eq_true_2 by done. cbn [andb].
    by destruct (bool_decide_reflect (ours = theirs)) as [->|]. }
  rewrite (bool_decide_eq_false_2 (base = ours)) by done. cbn [andb].
  destruct (bool_decide_reflect (base = theirs)) as [->|Hbt].
  { cbn [returns]. by rewrite decide_True by (by left). }
  destruct (bool_decide_reflect (ours = theirs)) as [->|Hot].
  { cbn [returns]. by rewrite decide_True by (by right). }
  destruct (walk_text diff m base ours theirs Hd) as (segs & Hs & E).
  apply bind_ok in E as (oal & -> & E). cbn [mbind exec_bind].
  apply bind_ok in E as (tal & -> & E). cbn [mbind exec_bind]. rewrite E. cbn [mbind exec_bind returns fst].
  rewrite decide_False by tauto. exists segs. split; [done|].
  destruct (replay_positions diff m segs) as (Eo & _ & _ & _ & Er). rewrite Eo.
  destruct (p_regions (replay diff m segs origin)) as [|r rs]; rewrite <- Er; [done|].
  rewrite zlen_cons. pose proof (zlen_nonneg rs).
  destruct (Z.eqb_spec (1 + zlen rs) 0); [lia|done].
Qed.
Lemma merge_segments_witness :
  let base := [97; 10; 98; 10; 99; 10] in
  let ours := [97; 10; 66; 10; 99; 10] in
  let theirs := [97; 10; 98; 98; 10; 99; 10] in
  returns (text_hunk_merge_with_markers prefix_diff base ours theirs DEFAULT) (λ out,
    if any_binary base ours theirs then out = Binary
    else if decide (base = ours) then out = Clean theirs
    else if decide (base = theirs ∨ ours = theirs) then out = Clean ours
    else ∃ segs, segmentation (split_lines base) (split_lines ours) (split_lines theirs) segs ∧
      let merged := concat (map (rendering prefix_diff DEFAULT) segs) in
      let conflicts := zlen (filter (λ s, is_conflict prefix_diff s = true) segs) in
      out = if conflicts =? 0 then Clean merged else Conflicts merged conflicts).
Proof. apply merge_segments. apply prefix_diff_script. Defined.

(** A region as the caller may use it: its ranges are the lines of an unresolved
    hunk, and in the merged text it is exactly that hunk's conflict block. *)
Definition region_exact (diff : list line → list line → list DiffOp) (base ours theirs merged : list Z)
    (r : TextConflictRegion) : Prop :=
  let lines_in (text : list Z) (range : ConflictLineRange) :=
    sub_list (split_lines text) (start range) (stop range) in
  match resolution diff (lines_in base (r_base r)) (lines_in ours (r_ours r)) (lines_in theirs (r_theirs r)) with
  | Ok None => True
  | _ => False
  end ∧
  lines_in merged (r_merged r)
  = split_lines (conflict_block (lines_in ours (r_ours r)) (lines_in theirs (r_theirs r)) DEFAULT).

(** C29. The reported conflict regions are exact: when the merge reports
    conflicts, [text_conflict_regions] returns as many regions as it counts, in
    order and without overlap in all four texts; the ranges of each are the lines
    of a hunk that does not resolve, and its range in the merged text holds
    exactly the lines of its conflict block, so that every marker starts at
    column 0. *)
Theorem conflict_regions_exact diff base ours theirs merged n :
  (∀ a b, script a b 0 0 (diff a b)) →
  text_hunk_merge diff base ours theirs = Ok (Conflicts merged n) →
  ∃ rs, text_conflict_regions diff base ours theirs = Ok rs ∧ zlen rs = n ∧
    StronglySorted before rs ∧ Forall (region_exact diff base ours theirs merged) rs.
Proof.
  intros Hd. unfold text_hunk_merge, text_hunk_merge_with_markers, text_conflict_regions, run, regions.
  destruct (any_binary base ours theirs); [done|].
  destruct (bool_decide (base = ours)), (bool_decide (base = theirs)), (bool_decide (ours = theirs));
    cbn [andb orb]; try done.
  destruct (walk_text diff DEFAULT base ours theirs Hd) as (segs & Hs & E).
  apply bind_ok in E as (oal & -> & E). cbn [mbind exec_bind].
  apply bind_ok in E as (tal & -> & E). cbn [mbind exec_bind]. rewrite E. cbn [mbind exec_bind fst snd].
  destruct (replay_positions diff DEFAULT segs) as (Eo & _).
  set (rs := p_regions (replay diff DEFAULT segs origin)) in *.
  intros Hout. exists rs. split; [done|].
  assert (zlen rs = n ∧ merged = concat (map (rendering diff DEFAULT) segs)) as [Hn ->]
    by (destruct rs; [done|]; injection Hout as <- <-; done).
  split; [done|]. split; [apply replay_sorted|]. apply Forall_forall. intros r Hr.
  destruct (replay_region diff DEFAULT segs r Hr) as (pre & s & post & -> & Hc & ->).
  destruct (region_ranges diff DEFAULT base ours theirs pre s post Hs) as (Rb & Ro & Rt).
  pose proof (region_merged diff DEFAULT Hd base ours theirs pre s post Hs Hc) as Rm.
  unfold region_exact. cbn zeta in *. rewrite Rb, Ro, Rt, Rm. split; [|done].
  destruct s as [l|b o t]; [done|]. cbn [is_conflict base_of ours_of theirs_of] in *.
  pose proof (resolution_total diff Hd b o t). by destruct (resolution diff b o t) as [[]| | |].
Qed.
Lemma conflict_regions_exact_witness :
  ∃ rs, text_conflict_regions prefix_diff [97; 10; 98; 10] [97; 10; 66; 10] [97; 10; 67; 10] = Ok rs ∧
    zlen rs = 1 ∧ StronglySorted before rs ∧
    Forall (region_exact prefix_diff [97; 10; 98; 10] [97; 10; 66; 10] [97; 10; 67; 10]
      ([97; 10] ++ conflict_block [[66; 10]] [[67; 10]] DEFAULT)) rs.
Proof. apply conflict_regions_exact; [apply prefix_diff_script|vm_compute; reflexivity]. Defined.

(** The patch composer is sound: the tables it builds for a side render back
    to exactly that side, and when it composes two sides the result renders
    tables in which every base line and every gap carries one side's change where
    the other side has none, or the same insertion of both; so every line of the
    result is a line of one of the sides. *)
Theorem compose_sound diff base ours theirs :
  (∀ a b, script a b 0 0 (diff a b)) →
  ∃ our_tables their_tables,
    classify_against_base diff base ours = Ok our_tables ∧ classifies base ours our_tables ∧
    classify_against_base diff base theirs = Ok their_tables ∧ classifies base theirs their_tables ∧
    returns (compose_disjoint diff base ours theirs) (λ r, ∀ out, r = Some out →
      ∃ tables, merged_tables (length base) our_tables their_tables tables ∧
        out = concat (rendered base tables.1 tables.2) ∧
        ∀ l, l ∈ rendered base tables.1 tables.2 → l ∈ ours ∨ l ∈ theirs).
Proof.
  intros Hd. destruct (compose_disjoint_spec diff Hd base ours theirs) as (ot & tt & Eo & Ho & Et & Ht & H).
  exists ot, tt. split; [done|]. split; [done|]. split; [done|]. split; [done|].
  eapply returns_mono; [exact H|]. intros r Hr out Hout. destruct (Hr out Hout) as (tables & Hm & ->).
  exists tables. split; [done|]. split; [done|]. intros l. by apply (merged_lines base ours theirs ot tt).
Qed.
Lemma compose_sound_witness :
  ∃ our_tables their_tables,
    classify_against_base prefix_diff [[1]; [2]] [[1]; [2]; [3]] = Ok our_tables ∧
    classifies [[1]; [2]] [[1]; [2]; [3]] our_tables ∧
    classify_against_base prefix_diff [[1]; [2]] [[1]; [4]] = Ok their_tables ∧
    classifies [[1]; [2]] [[1]; [4]] their_tables ∧
    returns (compose_disjoint prefix_diff [[1]; [2]] [[1]; [2]; [3]] [[1]; [4]]) (λ r, ∀ out, r = Some out →
      ∃ tables, merged_tables (length [[1]; [2]]) our_tables their_tables tables ∧
        out = concat (rendered [[1]; [2]] tables.1 tables.2) ∧
        ∀ l, l ∈ rendered [[1]; [2]] tables.1 tables.2 → l ∈ [[1]; [2]; [3]] ∨ l ∈ [[1]; [4]]).
Proof. apply compose_sound. apply prefix_diff_script. Defined.

(** Clean merges can glue two lines together when a side ends without a
    newline: with base a, ours appending x and theirs appending y (neither with a
    final newline), the merge is clean and its last line is xy; with ours
    appending z after line y and theirs changing y into Y without its newline,
    the merge is clean and its only line is Yz. *)
Theorem merge_glues_lines :
  text_hunk_merge prefix_diff [97; 10] [97; 10; 120] [97; 10; 121] = Ok (Clean [97; 10; 120; 121]) ∧
  text_hunk_merge prefix_diff [121; 10] [121; 10; 122] [89] = Ok (Clean [89; 122]).
Proof. split; vm_compute; reflexivity. Qed.
