(* ===== verification/LineDiff.v ===== *)
(** * Line diff ([crates/objects/src/util/line_diff])

    Module [LineDiff] models the linear-space Myers diff that blame uses: the
    line scan ([scan.rs]), the layout of the caller's scratch memory
    ([scratch.rs], [visit.rs]), the middle-snake search ([myers_search.rs]), the
    conquer stack ([myers.rs]) and the slides of equal runs ([compact.rs],
    [emit.rs]).  Work is charged to a budget at every line comparison.  The
    scratch memory is its address and its length; the typed regions cut out of
    it are vectors of zeroed elements.  The visitor is a function on a state of
    its own; where the code returns an error, the budget and the states reached
    by then are not part of the outcome. *)

From S2P Require Import Prelude Text Budget.
Import Text Budget.

Module LineDiff.

(** ** [mod.rs] *)
Record EqualRun := { old_start : Z; new_start : Z; run_len : Z }.

Record LineDiffLimits := { lim_scratch_bytes : Z; lim_max_lines : Z; lim_max_work : Z }.
Definition limits_unlimited : LineDiffLimits :=
  {| lim_scratch_bytes := U64_MAX; lim_max_lines := U64_MAX; lim_max_work := U64_MAX |}.
Definition limits_budget (l : LineDiffLimits) (scratch_len : Z) : ResourceBudget :=
  budget_new {| scratch_bytes := Z.min (lim_scratch_bytes l) scratch_len;
                lines := lim_max_lines l; work := lim_max_work l;
                states := U64_MAX; decoded_bytes := U64_MAX |}.

Inductive LineDiffError (E : Type) :=
| InvalidUtf8
| BudgetExceeded (e : Budget.BudgetExceeded)
| Visitor (e : E).
Arguments InvalidUtf8 {E}.
Arguments BudgetExceeded {E} e.
Arguments Visitor {E} e.

(** [From<BudgetExceeded>], applied by [?]. *)
Definition budgeted {E A} (m : exec Budget.BudgetExceeded A) : exec (LineDiffError E) A :=
  match m with Ok a => Ok a | Err e => Err (BudgetExceeded e) | Panic => Panic | Fuel => Fuel end.
(** [.map_err(LineDiffError::Visitor)] *)
Definition map_err_visitor {E A} (m : exec E A) : exec (LineDiffError E) A :=
  match m with Ok a => Ok a | Err e => Err (Visitor e) | Panic => Panic | Fuel => Fuel end.

Definition split_text_lines (bytes : list Z) : option (list (list Z)) :=
  if is_utf8 bytes then Some (text_lines bytes) else None.

(** ** [scan.rs] *)
Record LineOff := { start : Z; len : Z }.

Definition count_text_lines (bytes : list Z) : option Z :=
  if is_utf8 bytes then Some (zlen (text_lines bytes)) else None.

Definition next_line_start (bytes : list Z) (after_content : Z) : pure Z :=
  let pos := after_content in
  pos ← (if pos <? zlen bytes then
           c ← index bytes pos; Ok (if c =? 13 then pos + 1 else pos)
         else Ok pos);
  if pos <? zlen bytes then
    c ← index bytes pos; Ok (if c =? 10 then pos + 1 else pos)
  else Ok pos.

(** [None] is the code's [Err(())]. *)
Fixpoint fill_loop (bytes : list Z) (ls : list (list Z)) (idx byte_start count : Z)
    (out : list LineOff) : pure (option (Z * list LineOff)) :=
  match ls with
  | [] => Ok (Some (count, out))
  | line :: ls =>
      if zlen out <=? idx then Ok None
      else
        let start := byte_start in
        let len := zlen line in
        out ← vec_set out idx {| start := start; len := len |};
        byte_start ← next_line_start bytes (start + len);
        fill_loop bytes ls (idx + 1) byte_start (count + 1) out
  end.
Definition fill_line_offsets (bytes : list Z) (out : list LineOff)
  : pure (option (Z * list LineOff)) :=
  if is_utf8 bytes then fill_loop bytes (text_lines bytes) 0 0 0 out else Ok None.

Definition line_bytes {E} (source : list Z) (off : LineOff) : exec E (list Z) :=
  slice source (start off) (start off + len off).

(** ** [scratch.rs], on a 64-bit target *)
Record ConquerJob := {
  old_lo : Z; old_hi : Z; new_lo : Z; new_hi : Z; job_kind : Z;
  eq_old : Z; eq_new : Z; eq_len : Z
}.
Definition JOB_RANGE : Z := 0.
Definition JOB_EQUAL : Z := 1.

(** [size_of] and [align_of] of two [usize], of [usize], and of the [repr(C)]
    record of four [u32], a [u8] and three [u32]. *)
Definition size_of_LineOff : Z := 16.
Definition align_of_LineOff : Z := 8.
Definition size_of_usize : Z := 8.
Definition align_of_usize : Z := 8.
Definition size_of_ConquerJob : Z := 32.
Definition align_of_ConquerJob : Z := 4.

Definition max_scratch_align : Z :=
  Z.max (Z.max align_of_LineOff align_of_usize) align_of_ConquerJob.

(** The padding before the first aligned byte at or after [addr]. *)
Definition align_scratch (addr scratch_len : Z) : exec Budget.BudgetExceeded Z :=
  let align := max_scratch_align in
  let pad := if align <=? 1 then 0 else (align - addr `mod` align) `mod` align in
  if scratch_len <? pad
  then Err {| kind := ScratchBytes; limit_ := scratch_len; needed := saturating_add pad 1 |}
  else Ok pad.

Record ScratchLayout := {
  old_off : Z; new_off : Z; vf : Z; vb : Z; jobs : Z;
  old_off_bytes : Z; new_off_bytes : Z; vf_bytes : Z; vb_bytes : Z; jobs_bytes : Z
}.

Definition max_d (old_lines new_lines : Z) : Z :=
  saturating_add (div_ceil (saturating_add old_lines new_lines) 2) 1.

Definition align_up (value align : Z) : Z :=
  if align <=? 1 then value
  else
    let rem := value `mod` align in
    if rem =? 0 then value else value + (align - rem).

Definition layout_sizes (old_lines new_lines : Z) : Z * ScratchLayout :=
  let max_d := max_d old_lines new_lines in
  let v_len := 2 * max_d + 1 in
  let job_cap := saturating_add (saturating_add old_lines new_lines) 8 in
  let cursor := 0 in
  let old_off := align_up cursor align_of_LineOff in
  let old_off_bytes := saturating_mul old_lines size_of_LineOff in
  let cursor := saturating_add old_off old_off_bytes in
  let new_off := align_up cursor align_of_LineOff in
  let new_off_bytes := saturating_mul new_lines size_of_LineOff in
  let cursor := saturating_add new_off new_off_bytes in
  let vf := align_up cursor align_of_usize in
  let vf_bytes := saturating_mul v_len size_of_usize in
  let cursor := saturating_add vf vf_bytes in
  let vb := align_up cursor align_of_usize in
  let vb_bytes := saturating_mul v_len size_of_usize in
  let cursor := saturating_add vb vb_bytes in
  let jobs := align_up cursor align_of_ConquerJob in
  let jobs_bytes := saturating_mul job_cap size_of_ConquerJob in
  let cursor := saturating_add jobs jobs_bytes in
  (cursor,
   {| old_off := old_off; new_off := new_off; vf := vf; vb := vb; jobs := jobs;
      old_off_bytes := old_off_bytes; new_off_bytes := new_off_bytes;
      vf_bytes := vf_bytes; vb_bytes := vb_bytes; jobs_bytes := jobs_bytes |}).

Definition scratch_bytes_for_line_counts (old_lines new_lines : Z) : Z :=
  let '(needed, _) := layout_sizes old_lines new_lines in
  saturating_add needed (saturating_sub max_scratch_align 1).

Definition require_scratch (scratch_len needed : Z) : exec Budget.BudgetExceeded unit :=
  if scratch_len <? needed
  then Err {| kind := ScratchBytes; limit_ := scratch_len; needed := needed |}
  else Ok ().

(** ** [myers_search.rs] *)
Record LineView := { bytes : list Z; offs : list LineOff }.

Definition line_at {E} (v : LineView) (i : Z) : exec E (list Z) :=
  off ← index (offs v) i; line_bytes (bytes v) off.

(** Slots of [V]: [(k + offset) as usize]. *)
Definition v_get {E} (offset : Z) (values : list Z) (k : Z) : exec E Z :=
  index values (as_u64 (k + offset)).
Definition v_set {E} (offset : Z) (values : list Z) (k value : Z) : exec E (list Z) :=
  vec_set values (as_u64 (k + offset)) value.

Definition lines_eq (old : LineView) (old_index : Z) (new : LineView) (new_index : Z)
    (budget : ResourceBudget) : exec Budget.BudgetExceeded (bool * ResourceBudget) :=
  budget ← consume budget Work 1;
  a ← line_at old old_index;
  b ← line_at new new_index;
  Ok (bool_decide (a = b), budget).

(** [while matched < max_len && lines_eq(...)?  { matched += 1 }], the indices
    compared being functions of [matched]. *)
Fixpoint match_loop (fuel : nat) (old : LineView) (old_at : Z → Z) (new : LineView)
    (new_at : Z → Z) (matched max_len : Z) (budget : ResourceBudget)
  : exec Budget.BudgetExceeded (Z * ResourceBudget) :=
  match fuel with
  | O => Fuel
  | S fuel =>
      if matched <? max_len then
        '(eq, budget) ← lines_eq old (old_at matched) new (new_at matched) budget;
        if eq : bool then match_loop fuel old old_at new new_at (matched + 1) max_len budget
        else Ok (matched, budget)
      else Ok (matched, budget)
  end.

Definition common_prefix (old : LineView) (old_lo old_hi : Z) (new : LineView) (new_lo new_hi : Z)
    (budget : ResourceBudget) : exec Budget.BudgetExceeded (Z * ResourceBudget) :=
  old_len ← usub old_hi old_lo;
  new_len ← usub new_hi new_lo;
  let max_len := Z.min old_len new_len in
  match_loop (S (Z.to_nat max_len)) old (λ matched, old_lo + matched) new
    (λ matched, new_lo + matched) 0 max_len budget.

Definition common_suffix (old : LineView) (old_lo old_hi : Z) (new : LineView) (new_lo new_hi : Z)
    (budget : ResourceBudget) : exec Budget.BudgetExceeded (Z * ResourceBudget) :=
  old_len ← usub old_hi old_lo;
  new_len ← usub new_hi new_lo;
  let max_len := Z.min old_len new_len in
  match_loop (S (Z.to_nat max_len)) old (λ matched, old_hi - 1 - matched) new
    (λ matched, new_hi - 1 - matched) 0 max_len budget.

(** [(-d..=d).rev().step_by(2)] *)
Definition diagonals (d : Z) : list Z := map (λ i, d - 2 * i) (seqZ 0 (d + 1)).

(** The furthest column on diagonal [k] that one more edit reaches. *)
Definition next_x {E} (offset : Z) (values : list Z) (d k : Z) : exec E Z :=
  down ← (if k =? - d then Ok true
          else if negb (k =? d) then
            a ← v_get offset values (k - 1);
            b ← v_get offset values (k + 1);
            Ok (a <? b)
          else Ok false);
  if down : bool then v_get offset values (k + 1)
  else a ← v_get offset values (k - 1); Ok (a + 1).

Section search.
Context (old : LineView) (old_start old_end : Z) (new : LineView) (new_start new_end : Z).
Context (n m delta : Z) (odd : bool) (offset d : Z).

(** The body of the forward [for k], on the forward vector and the budget. *)
Definition forward_step (vb : list Z) (k : Z) (s : list Z * ResourceBudget)
  : exec Budget.BudgetExceeded (list Z * ResourceBudget + (Z * Z) * list Z * ResourceBudget) :=
  let '(vf, budget) := s in
  x ← next_x offset vf d k;
  let y := as_u64 (x - k) in
  let '(x0, y0) := (x, y) in
  '(x, budget) ←
    (if (x <? n) && (y <? m) then
       '(advance, budget) ← common_prefix old (old_start + x) old_end new (new_start + y) new_end budget;
       Ok (x + advance, budget)
     else Ok (x, budget));
  vf ← v_set offset vf k x;
  hit ← (if odd && (Z.abs (k - delta) <=? d - 1) then
           a ← v_get offset vf k; b ← v_get offset vb (- (k - delta)); Ok (n <=? a + b)
         else Ok false);
  if hit : bool then Ok (inr ((x0 + old_start, y0 + new_start), vf, budget))
  else Ok (inl (vf, budget)).

(** The body of the backward [for k]. *)
Definition backward_step (vf : list Z) (k : Z) (s : list Z * ResourceBudget)
  : exec Budget.BudgetExceeded (list Z * ResourceBudget + (Z * Z) * list Z * ResourceBudget) :=
  let '(vb, budget) := s in
  x ← next_x offset vb d k;
  let y := as_u64 (x - k) in
  '(x, y, budget) ←
    (if (x <? n) && (y <? m) then
       '(advance, budget) ←
         common_suffix old old_start (old_start + n - x) new new_start (new_start + m - y) budget;
       Ok (x + advance, y + advance, budget)
     else Ok (x, y, budget));
  vb ← v_set offset vb k x;
  hit ← (if negb odd && (Z.abs (k - delta) <=? d) then
           a ← v_get offset vb k; b ← v_get offset vf (- (k - delta)); Ok (n <=? a + b)
         else Ok false);
  if hit : bool then
    a ← usub n x; b ← usub m y;
    Ok (inr ((a + old_start, b + new_start), vb, budget))
  else Ok (inl (vb, budget)).
End search.

(** The vectors, the budget and the answer of the search. *)
Record Snake := { split : option (Z * Z); snake_vf : list Z; snake_vb : list Z;
                  snake_budget : ResourceBudget }.

Definition search_round (old : LineView) (old_start old_end : Z) (new : LineView)
    (new_start new_end n m delta : Z) (odd : bool) (offset d : Z)
    (s : list Z * list Z * ResourceBudget)
  : exec Budget.BudgetExceeded (list Z * list Z * ResourceBudget + Snake) :=
  let '(vf, vb, budget) := s in
  r ← for_loop (forward_step old old_start old_end new new_start new_end n m delta odd offset d vb)
        (diagonals d) (vf, budget);
  match r with
  | inr (p, vf, budget) =>
      Ok (inr {| split := Some p; snake_vf := vf; snake_vb := vb; snake_budget := budget |})
  | inl (vf, budget) =>
      r ← for_loop (backward_step old old_start new new_start n m delta odd offset d vf)
            (diagonals d) (vb, budget);
      match r with
      | inr (p, vb, budget) =>
          Ok (inr {| split := Some p; snake_vf := vf; snake_vb := vb; snake_budget := budget |})
      | inl (vb, budget) => Ok (inl (vf, vb, budget))
      end
  end.

Definition find_middle_snake (old : LineView) (old_start old_end : Z) (new : LineView)
    (new_start new_end : Z) (vf_storage vb_storage : list Z) (budget : ResourceBudget)
  : exec Budget.BudgetExceeded Snake :=
  let n := saturating_sub old_end old_start in
  let m := saturating_sub new_end new_start in
  if (n =? 0) || (m =? 0) then
    Ok {| split := Some (old_start, new_start); snake_vf := vf_storage; snake_vb := vb_storage;
          snake_budget := budget |}
  else
    let delta := n - m in
    let odd := Z.land delta 1 =? 1 in
    let d_max := saturating_add (div_ceil (saturating_add n m) 2) 1 in
    let offset := zlen vf_storage / 2 in
    vf ← v_set offset vf_storage 1 0;
    vb ← v_set offset vb_storage 1 0;
    r ← for_loop (search_round old old_start old_end new new_start new_end n m delta odd offset)
          (seqZ 0 d_max) (vf, vb, budget);
    match r with
    | inr s => Ok s
    | inl (vf, vb, budget) =>
        Ok {| split := None; snake_vf := vf; snake_vb := vb; snake_budget := budget |}
    end.

(** ** [compact.rs] *)
Fixpoint slide_loop (fuel : nat) (old new : LineView) (run : EqualRun) (new_cursor slide max_slide : Z)
  : pure Z :=
  match fuel with
  | O => Fuel
  | S fuel =>
      if slide <? max_slide then
        a ← line_at old (old_start run + slide);
        b ← line_at new (new_cursor + slide);
        if bool_decide (a = b) then slide_loop fuel old new run new_cursor (slide + 1) max_slide
        else Ok slide
      else Ok slide
  end.

(** The run after the slide, its rest when the slide splits it, and the cursor. *)
Definition slide_equal_run (old new : LineView) (run : EqualRun) (new_cursor : Z)
  : pure (EqualRun * option EqualRun * Z) :=
  let original_new_start := new_start run in
  let insert_len := saturating_sub original_new_start new_cursor in
  let max_slide := Z.min insert_len (run_len run) in
  slide ← slide_loop (S (Z.to_nat max_slide)) old new run new_cursor 0 max_slide;
  let slid :=
    if slide =? 0 then (run, None)
    else if slide =? run_len run then
      ({| old_start := old_start run; new_start := new_cursor; run_len := slide |}, None)
    else
      ({| old_start := old_start run; new_start := new_cursor; run_len := slide |},
       Some {| old_start := old_start run + slide; new_start := original_new_start + slide;
               run_len := run_len run - slide |}) in
  Ok (slid, original_new_start + run_len run).

(** [(0..run.len).all(|offset| ...)] from [offset] on, [n] elements left. *)
Fixpoint matches_from (n : nat) (old new : LineView) (run : EqualRun) (new_start offset : Z)
  : pure bool :=
  match n with
  | O => Ok true
  | S n =>
      a ← line_at old (old_start run + offset);
      b ← line_at new (new_start + offset);
      if bool_decide (a = b) then matches_from n old new run new_start (offset + 1) else Ok false
  end.
Definition run_matches_at (old new : LineView) (run : EqualRun) (new_start : Z) : pure bool :=
  matches_from (Z.to_nat (run_len run)) old new run new_start 0.

Definition slide_equal_run_right (old new : LineView) (run : EqualRun) (gap_start gap_end : Z)
    (left_justified : bool) : pure (option EqualRun * EqualRun) :=
  if left_justified || (run_len run =? 0) || (gap_end <=? gap_start) then Ok (None, run)
  else
    fits ← (if gap_start + run_len run <=? gap_end then
              a ← run_matches_at old new run gap_start;
              if a : bool then at_end ← usub gap_end (run_len run); run_matches_at old new run at_end
              else Ok false
            else Ok false);
    if fits : bool then
      Ok (None, {| old_start := old_start run; new_start := gap_start; run_len := run_len run |})
    else Ok (None, run).

Definition compact_keeps_right_shift (old new : LineView) (run : EqualRun) (original_end : Z)
    (left_justified : bool) : pure bool :=
  if left_justified || (run_len run =? 0) || (zlen (offs new) <? original_end + run_len run)
  then Ok false
  else
    a ← run_matches_at old new run original_end;
    if a : bool then at_end ← usub (zlen (offs new)) (run_len run); run_matches_at old new run at_end
    else Ok false.

(** ** [emit.rs] and [myers.rs], for one visitor *)
Section visitor.
Context {E W : Type} (visit : W → EqualRun → exec E W).

Definition visit_after_right_slide (old new : LineView) (run : EqualRun) (original_end : Z)
    (left_justified : bool) (w : W) : exec (LineDiffError E) W :=
  keeps ← lift (compact_keeps_right_shift old new run original_end left_justified);
  run ← (if keeps : bool then
           '(_, run) ← lift (slide_equal_run_right old new run original_end (zlen (offs new)) left_justified);
           Ok run
         else Ok run);
  map_err_visitor (visit w run).

Definition emit_slid (old new : LineView) (run : EqualRun) (new_cursor : Z) (w : W)
  : exec (LineDiffError E) (W * Z) :=
  let original_end := new_start run + run_len run in
  let cursor_before := new_cursor in
  '(first, second, new_cursor) ← lift (slide_equal_run old new run new_cursor);
  w ← match second with
      | Some second =>
          w ← map_err_visitor (visit w first);
          visit_after_right_slide old new second original_end (new_start second <=? cursor_before) w
      | None =>
          visit_after_right_slide old new first original_end (new_start first <=? cursor_before) w
      end;
  Ok (w, new_cursor).

(** The mutable state of the conquest: the two vectors, the job stack and its
    height, the budget, the emission cursor and the visitor's state. *)
Record Conquest := {
  c_vf : list Z; c_vb : list Z; c_jobs : list ConquerJob; c_top : Z;
  c_budget : ResourceBudget; c_cursor : Z; c_visitor : W
}.

Definition push_job (jobs : list ConquerJob) (top : Z) (job : ConquerJob)
  : exec Budget.BudgetExceeded (list ConquerJob * Z) :=
  if zlen jobs <=? top
  then Err {| kind := ScratchBytes; limit_ := zlen jobs; needed := saturating_add top 1 |}
  else jobs ← vec_set jobs top job; Ok (jobs, top + 1).

Definition range_job (old_lo old_hi new_lo new_hi : Z) : ConquerJob :=
  {| old_lo := as_u32 old_lo; old_hi := as_u32 old_hi; new_lo := as_u32 new_lo;
     new_hi := as_u32 new_hi; job_kind := JOB_RANGE; eq_old := 0; eq_new := 0; eq_len := 0 |}.
Definition equal_job (old_start new_start len : Z) : ConquerJob :=
  {| old_lo := 0; old_hi := 0; new_lo := 0; new_hi := 0; job_kind := JOB_EQUAL;
     eq_old := as_u32 old_start; eq_new := as_u32 new_start; eq_len := as_u32 len |}.

Definition conquer_range (old new : LineView) (job : ConquerJob) (s : Conquest)
  : exec (LineDiffError E) Conquest :=
  let '(old_lo, old_hi) := (old_lo job, old_hi job) in
  let '(new_lo, new_hi) := (new_lo job, new_hi job) in
  '(prefix, budget) ← budgeted (common_prefix old old_lo old_hi new new_lo new_hi (c_budget s));
  '(old_lo, new_lo, w, cursor) ←
    (if 0 <? prefix then
       '(w, cursor) ← emit_slid old new
          {| old_start := old_lo; new_start := new_lo; run_len := prefix |} (c_cursor s) (c_visitor s);
       Ok (old_lo + prefix, new_lo + prefix, w, cursor)
     else Ok (old_lo, new_lo, c_visitor s, c_cursor s));
  '(suffix, budget) ← budgeted (common_suffix old old_lo old_hi new new_lo new_hi budget);
  suffix_old ← usub old_hi suffix;
  suffix_new ← usub new_hi suffix;
  let '(old_hi, new_hi) := (suffix_old, suffix_new) in
  let push_suffix := λ jobs top,
    if 0 <? suffix then budgeted (push_job jobs top (equal_job suffix_old suffix_new suffix))
    else Ok (jobs, top) in
  if (old_hi <=? old_lo) || (new_hi <=? new_lo) then
    '(jobs, top) ← push_suffix (c_jobs s) (c_top s);
    Ok {| c_vf := c_vf s; c_vb := c_vb s; c_jobs := jobs; c_top := top; c_budget := budget;
          c_cursor := cursor; c_visitor := w |}
  else
    snake ← budgeted (find_middle_snake old old_lo old_hi new new_lo new_hi (c_vf s) (c_vb s) budget);
    match split snake with
    | None =>
        let budget := snake_budget snake in
        Err (BudgetExceeded {| kind := Work; limit_ := limit budget Work;
                               needed := saturating_add (work (used budget)) 1 |})
    | Some (split_old, split_new) =>
        '(jobs, top) ← push_suffix (c_jobs s) (c_top s);
        '(jobs, top) ← budgeted (push_job jobs top (range_job split_old old_hi split_new new_hi));
        '(jobs, top) ← budgeted (push_job jobs top (range_job old_lo split_old new_lo split_new));
        Ok {| c_vf := snake_vf snake; c_vb := snake_vb snake; c_jobs := jobs; c_top := top;
              c_budget := snake_budget snake; c_cursor := cursor; c_visitor := w |}
    end.

(** [while top > 0] *)
Fixpoint conquer_loop (fuel : nat) (old new : LineView) (s : Conquest)
  : exec (LineDiffError E) Conquest :=
  match fuel with
  | O => Fuel
  | S fuel =>
      if 0 <? c_top s then
        let top := c_top s - 1 in
        job ← index (c_jobs s) top;
        let s := {| c_vf := c_vf s; c_vb := c_vb s; c_jobs := c_jobs s; c_top := top;
                    c_budget := c_budget s; c_cursor := c_cursor s; c_visitor := c_visitor s |} in
        s ← (if job_kind job =? JOB_EQUAL then
               if eq_len job =? 0 then Ok s
               else
                 '(w, cursor) ← emit_slid old new
                    {| old_start := eq_old job; new_start := eq_new job; run_len := eq_len job |}
                    (c_cursor s) (c_visitor s);
                 Ok {| c_vf := c_vf s; c_vb := c_vb s; c_jobs := c_jobs s; c_top := c_top s;
                       c_budget := c_budget s; c_cursor := cursor; c_visitor := w |}
             else conquer_range old new job s);
        conquer_loop fuel old new s
      else Ok s
  end.

(** Every round retires or splits a job over lines of its own, hence the bound. *)
Definition conquer_fuel (old new : LineView) : nat :=
  Z.to_nat (2 * (zlen (offs old) + zlen (offs new)) + 2).

Definition emit_equal_runs (old new : LineView) (vf_storage vb_storage : list Z)
    (jobs : list ConquerJob) (budget : ResourceBudget) (w : W)
  : exec (LineDiffError E) (ResourceBudget * W) :=
  if zlen jobs =? 0 then Ok (budget, w)
  else
    let top := 0 in
    '(jobs, top) ← budgeted (push_job jobs top (range_job 0 (zlen (offs old)) 0 (zlen (offs new))));
    s ← conquer_loop (conquer_fuel old new) old new
          {| c_vf := vf_storage; c_vb := vb_storage; c_jobs := jobs; c_top := top;
             c_budget := budget; c_cursor := 0; c_visitor := w |};
    Ok (c_budget s, c_visitor s).

(** ** [visit.rs] *)
(** The elements of the region [start, start + bytes) of the scratch memory at
    [base], refused when its start is not aligned for them. *)
Definition raw_slice {A} (size align : Z) (zero : A) (base start bytes : Z)
  : exec Budget.BudgetExceeded (list A) :=
  let addr := base + start in
  if negb (addr `mod` align =? 0)
  then Err {| kind := ScratchBytes; limit_ := addr; needed := align |}
  else
    let count := if size =? 0 then 0 else bytes / size in
    Ok (replicate (Z.to_nat count) zero).

Record ScratchParts := {
  part_old_offs : list LineOff; part_new_offs : list LineOff;
  part_vf : list Z; part_vb : list Z; part_jobs : list ConquerJob
}.
Definition zero_off : LineOff := {| start := 0; len := 0 |}.
Definition zero_job : ConquerJob :=
  {| old_lo := 0; old_hi := 0; new_lo := 0; new_hi := 0; job_kind := 0;
     eq_old := 0; eq_new := 0; eq_len := 0 |}.

Definition partition (base : Z) (layout : ScratchLayout) : exec Budget.BudgetExceeded ScratchParts :=
  old_offs ← raw_slice size_of_LineOff align_of_LineOff zero_off base (old_off layout) (old_off_bytes layout);
  new_offs ← raw_slice size_of_LineOff align_of_LineOff zero_off base (new_off layout) (new_off_bytes layout);
  vf_ ← raw_slice size_of_usize align_of_usize 0 base (vf layout) (vf_bytes layout);
  vb_ ← raw_slice size_of_usize align_of_usize 0 base (vb layout) (vb_bytes layout);
  jobs_ ← raw_slice size_of_ConquerJob align_of_ConquerJob zero_job base (jobs layout) (jobs_bytes layout);
  Ok {| part_old_offs := old_offs; part_new_offs := new_offs; part_vf := vf_; part_vb := vb_;
        part_jobs := jobs_ |}.

(** The result is the usage, next to the budget and the visitor's state, which
    the code changes in place. *)
Definition visit_lcs_equal_runs (old_bytes new_bytes : list Z) (scratch_addr scratch_len : Z)
    (budget : ResourceBudget) (w : W)
  : exec (LineDiffError E) (ResourceUsage * ResourceBudget * W) :=
  old_lines ← ok_or (count_text_lines old_bytes) InvalidUtf8;
  new_lines ← ok_or (count_text_lines new_bytes) InvalidUtf8;
  budget ← budgeted (require budget Lines old_lines);
  budget ← budgeted (require budget Lines new_lines);
  pad ← budgeted (align_scratch scratch_addr scratch_len);
  let '(needed, layout) := layout_sizes old_lines new_lines in
  budget ← budgeted (require budget ScratchBytes (pad + needed));
  _ ← budgeted (require_scratch (scratch_len - pad) needed);
  parts ← budgeted (partition (scratch_addr + pad) layout);
  filled_old ← lift (fill_line_offsets old_bytes (part_old_offs parts));
  '(filled_old, old_offs) ← ok_or filled_old InvalidUtf8;
  filled_new ← lift (fill_line_offsets new_bytes (part_new_offs parts));
  '(filled_new, new_offs) ← ok_or filled_new InvalidUtf8;
  if negb (filled_old =? old_lines) || negb (filled_new =? new_lines) then Err InvalidUtf8
  else
    '(budget, w) ← emit_equal_runs {| bytes := old_bytes; offs := old_offs |}
       {| bytes := new_bytes; offs := new_offs |} (part_vf parts) (part_vb parts) (part_jobs parts)
       budget w;
    Ok (used budget, budget, w).
End visitor.

End LineDiff.

Import LineDiff.

(** ** Views *)

(** Line [i] of a text given as its lines. *)
Definition ln (ls : list (list Z)) (i : Z) : list Z := default [] (get ls i).

(** The view [v] shows the lines [ls]. *)
Definition view_ok (v : LineView) (ls : list (list Z)) : Prop :=
  zlen (offs v) = zlen ls ∧
  ∀ E i, 0 ≤ i < zlen ls → line_at (E:=E) v i = Ok (ln ls i).

(** Only work was charged. *)
Definition worked (b b' : ResourceBudget) : Prop :=
  grows b b' ∧ ∀ k, k ≠ Work → usage_get (used b') k = usage_get (used b) k.
#[global] Instance worked_preorder : PreOrder worked.
Proof.
  split.
  - intros b. by split.
  - intros b1 b2 b3 [? H12] [? H23]. split; [by etransitivity|].
    intros k Hk. by rewrite H23, H12.
Qed.
Definition overwork (b : ResourceBudget) (e : Budget.BudgetExceeded) : Prop :=
  exceeds b e ∧ kind e = Work ∧ needed e ≤ U64_MAX.
Lemma overwork_worked b b' e : worked b b' → overwork b' e → overwork b e.
Proof. intros [? _] [? ?]. split; [by eapply exceeds_grows|done]. Qed.

(** Two texts of fewer than [2^32] lines and their views. *)
Section texts.
Context (old new : LineView) (A B : list (list Z)).
Context (Hold : view_ok old A) (Hnew : view_ok new B).

Definition same (i j : Z) : Prop := ln A i = ln B j.

Lemma lines_eq_spec i j b :
  0 ≤ i < zlen A → 0 ≤ j < zlen B →
  settles (lines_eq old i new j b)
    (λ r, worked b r.2 ∧ if r.1 then same i j else ¬ same i j) (overwork b).
Proof.
  intros Hi Hj. unfold lines_eq.
  step consume_spec as (Hg & _ & Hk); [lia| |intros e (Hx & Hk & Hn); split; [done|]; split; [done|]; rewrite Hn; unfold saturating_add; lia].
  rewrite (proj2 Hold), (proj2 Hnew) by done. cbn [mbind exec_bind settles fst snd].
  split; [by split|]. by case_bool_decide.
Qed.

Lemma match_loop_spec fuel oa na max_len matched b :
  0 ≤ matched ≤ max_len → max_len - matched < Z.of_nat fuel →
  (∀ i, 0 ≤ i < max_len → 0 ≤ oa i < zlen A ∧ 0 ≤ na i < zlen B) →
  (∀ i, 0 ≤ i < matched → same (oa i) (na i)) →
  settles (match_loop fuel old oa new na matched max_len b)
    (λ r, worked b r.2 ∧ 0 ≤ r.1 ≤ max_len ∧ (∀ i, 0 ≤ i < r.1 → same (oa i) (na i)) ∧
          (r.1 < max_len → ¬ same (oa r.1) (na r.1)))
    (overwork b).
Proof.
  revert matched b. induction fuel as [|fuel IH]; intros matched b Hm Hf Hin Heq; [lia|].
  cbn [match_loop]. destruct (Z.ltb_spec matched max_len) as [Hlt|Hge].
  - step lines_eq_spec as [Hw Hr]; [apply Hin; lia|apply Hin; lia| |done].
    destruct a as [[] b']; cbn [fst snd] in *.
    + eapply settles_mono; [apply IH|..]; try lia; [done|..].
      * intros i Hi. destruct (decide (i = matched)) as [->|]; [done|]. apply Heq. lia.
      * intros r (? & ?). split; [by etransitivity|done].
      * intros e. by apply overwork_worked.
    + cbn [settles fst snd]. done.
  - cbn [settles fst snd]. split; [reflexivity|]. split; [lia|]. split; [done|]. intros. lia.
Qed.

Lemma diff_prefix_spec ol oh nl nh b :
  0 ≤ ol ≤ oh → oh ≤ zlen A → 0 ≤ nl ≤ nh → nh ≤ zlen B →
  settles (common_prefix old ol oh new nl nh b)
    (λ r, worked b r.2 ∧ 0 ≤ r.1 ≤ Z.min (oh - ol) (nh - nl) ∧
          (∀ i, 0 ≤ i < r.1 → same (ol + i) (nl + i)) ∧
          (r.1 < Z.min (oh - ol) (nh - nl) → ¬ same (ol + r.1) (nl + r.1)))
    (overwork b).
Proof.
  intros. unfold common_prefix.
  step usub_returns as ->; [lia|]. step usub_returns as ->; [lia|].
  apply match_loop_spec; lia.
Qed.

Lemma diff_suffix_spec ol oh nl nh b :
  0 ≤ ol ≤ oh → oh ≤ zlen A → 0 ≤ nl ≤ nh → nh ≤ zlen B →
  settles (common_suffix old ol oh new nl nh b)
    (λ r, worked b r.2 ∧ 0 ≤ r.1 ≤ Z.min (oh - ol) (nh - nl) ∧
          (∀ i, 0 ≤ i < r.1 → same (oh - 1 - i) (nh - 1 - i)) ∧
          (r.1 < Z.min (oh - ol) (nh - nl) → ¬ same (oh - 1 - r.1) (nh - 1 - r.1)))
    (overwork b).
Proof.
  intros. unfold common_suffix.
  step usub_returns as ->; [lia|]. step usub_returns as ->; [lia|].
  apply match_loop_spec; lia.
Qed.
End texts.

(** ** The vectors of the search *)

(** The slot of diagonal [k]. *)
Definition slot (offset : Z) (values : list Z) (k : Z) : Z := default 0 (get values (k + offset)).

(** A vector with slots for the diagonals [-r] to [r]. *)
Definition roomy (offset r : Z) (values : list Z) : Prop :=
  0 ≤ r ≤ offset ∧ offset + r < zlen values ∧ zlen values ≤ USIZE_MAX.

Lemma v_get_ok {E} offset r values k :
  roomy offset r values → - r ≤ k ≤ r → v_get (E:=E) offset values k = Ok (slot offset values k).
Proof.
  intros (? & ? & ?) Hk. unfold v_get, slot. unfold as_u64, USIZE_MAX in *.
  rewrite Z.mod_small by lia. destruct (index_ok (E:=E) values (k + offset)) as (x & Hx & ->); [lia|].
  unfold get. destruct (Z.leb_spec 0 (k + offset)); [by rewrite Hx|lia].
Qed.

Lemma v_set_ok {E} offset r values k x :
  roomy offset r values → - r ≤ k ≤ r →
  ∃ values', v_set (E:=E) offset values k x = Ok values' ∧ roomy offset r values' ∧
    zlen values' = zlen values ∧
    ∀ k', - r ≤ k' ≤ r → slot offset values' k' = if decide (k' = k) then x else slot offset values k'.
Proof.
  intros (? & ? & ?) Hk. unfold v_set, vec_set. unfold as_u64, USIZE_MAX in *.
  rewrite Z.mod_small by lia.
  rewrite (proj2 (Z.leb_le 0 _)), (proj2 (Z.ltb_lt _ (zlen values))) by lia. cbn [andb].
  assert (zlen (<[Z.to_nat (k + offset):=x]> values) = zlen values) as E'
    by (unfold zlen; by rewrite length_insert).
  eexists. split; [done|]. split; [|split; [done|]].
  - unfold roomy, USIZE_MAX. rewrite E'. lia.
  - intros k' Hk'. unfold slot, get. destruct (Z.leb_spec 0 (k' + offset)); [|lia].
    destruct (decide (k' = k)) as [->|Hne].
    + rewrite list_lookup_insert_eq; [done|]. unfold zlen in *. lia.
    + rewrite list_lookup_insert_ne by lia. done.
Qed.

(** The diagonals of a round. *)
Definition valid (d k : Z) : Prop := - d ≤ k ≤ d ∧ (k - d) `mod` 2 = 0.

Lemma elem_of_diagonals d k : 0 ≤ d → k ∈ diagonals d ↔ valid d k.
Proof.
  intros Hd. unfold diagonals, valid. rewrite list_elem_of_fmap.
  setoid_rewrite elem_of_seqZ. split.
  - intros (i & -> & Hi). split; [lia|]. replace (d - 2 * i - d) with (- i * 2) by lia.
    apply Z.mod_mul. lia.
  - intros [Hk Hm]. exists ((d - k) / 2). pose proof (Z.div_mod (k - d) 2).
    Z.to_euclidean_division_equations. lia.
Qed.

Lemma diagonals_NoDup d : NoDup (diagonals d).
Proof.
  unfold diagonals. apply NoDup_fmap_2_strong; [|apply NoDup_seqZ]. intros. lia.
Qed.

(** ** The frontier of the search

    [f] maps the diagonals of round [d] to the columns reached. *)

(** Linear arithmetic with parities. *)
Ltac plia := unfold valid in *; Z.to_euclidean_division_equations; lia.

Section frontier.
Context (n m : Z) (Hn : 1 ≤ n) (Hm : 1 ≤ m).

(** After a round: columns and rows are not negative, at least [d] steps were
    made, and what left the box did so past a neighbour at its edge. *)
Record front (d : Z) (f : Z → Z) : Prop := {
  front_lo k : valid d k → 0 ≤ f k ∧ 0 ≤ f k - k ∧ d ≤ f k + (f k - k);
  front_hi k : valid d k → f k ≤ n + d ∧ f k - k ≤ m + d;
  front_x k : valid d k → n < f k → valid d (k - 2) ∧ n ≤ f (k - 2);
  front_y k : valid d k → m < f k - k → valid d (k + 2) ∧ m ≤ f (k + 2) - (k + 2);
  front_0 : d = 0 → f 0 = 0
}.

(** No diagonal the other search can meet has reached an edge of the box. *)
Definition inside (d : Z) (f : Z → Z) : Prop :=
  ∀ k, valid d k → Z.abs (k - (n - m)) ≤ d → f k < n ∧ f k - k < m.

(** What the vector holds when round [d] starts. *)
Definition before (d : Z) (f : Z → Z) : Prop :=
  (d = 0 ∧ f 1 = 0) ∨ (0 < d ∧ front (d - 1) f ∧ inside (d - 1) f).

(** The column from which round [d] starts its snake on diagonal [k]. *)
Definition nx (d : Z) (f : Z → Z) (k : Z) : Z :=
  if (k =? - d) || (negb (k =? d) && (f (k - 1) <? f (k + 1))) then f (k + 1) else f (k - 1) + 1.

Lemma nx_cases d f k :
  0 < d → valid d k →
  (valid (d - 1) (k - 1) → f (k - 1) + 1 ≤ nx d f k) ∧
  (valid (d - 1) (k + 1) → f (k + 1) ≤ nx d f k) ∧
  (valid (d - 1) (k - 1) ∧ nx d f k = f (k - 1) + 1 ∨ valid (d - 1) (k + 1) ∧ nx d f k = f (k + 1)).
Proof.
  intros Hd Hk. unfold nx.
  destruct (Z.eqb_spec k (- d)), (Z.eqb_spec k d), (Z.ltb_spec (f (k - 1)) (f (k + 1)));
    cbn [negb orb andb]; (split; [intros; plia|]; split; [intros; plia|]);
    first [left; split; [plia|done] | right; split; [plia|done]].
Qed.

(** Past the edges, the frontier of a round inside the box is far away. *)
Lemma front_far_x d f k : front d f → inside d f → valid d k → n ≤ f k → d < k - (n - m).
Proof.
  intros Hf Hi Hk Hx. destruct (Z.leb_spec (Z.abs (k - (n - m))) d) as [Ha|Ha].
  - destruct (Hi k Hk Ha). lia.
  - destruct (front_hi _ _ Hf k Hk). lia.
Qed.
Lemma front_far_y d f k : front d f → inside d f → valid d k → m ≤ f k - k → k - (n - m) < - d.
Proof.
  intros Hf Hi Hk Hx. destruct (Z.leb_spec (Z.abs (k - (n - m))) d) as [Ha|Ha].
  - destruct (Hi k Hk Ha). lia.
  - destruct (front_hi _ _ Hf k Hk). lia.
Qed.

(** The starts of the snakes of round [d]. *)
Lemma nx_spec d f k :
  before d f → valid d k →
  let x := nx d f k in
  (0 ≤ x ∧ 0 ≤ x - k ∧ d ≤ x + (x - k)) ∧ (x ≤ n + d ∧ x - k ≤ m + d) ∧
  (Z.abs (k - (n - m)) ≤ d → x ≤ n ∧ x - k ≤ m ∧ ¬ (x = n ∧ x - k = m)).
Proof.
  intros [[-> Hf]|(Hd & Hf & Hi)] Hk x.
  { assert (k = 0) as -> by plia. assert (x = 0) as -> by done. lia. }
  assert (∀ k', valid (d - 1) k' → n ≤ f k' → d - 1 < k' - (n - m)) as Fx
    by (intros; by apply (front_far_x _ f)).
  assert (∀ k', valid (d - 1) k' → m ≤ f k' - k' → k' - (n - m) < - (d - 1)) as Fy
    by (intros; by apply (front_far_y _ f)).
  assert (d = 1 → f 0 = 0) as F0 by (intros; apply (front_0 _ _ Hf); lia).
  destruct (nx_cases d f k Hd Hk) as (_ & _ & [[Hv Hx]|[Hv Hx]]); fold x in Hx;
    pose proof (front_lo _ _ Hf _ Hv); pose proof (front_hi _ _ Hf _ Hv);
    pose proof (Fx _ Hv); pose proof (Fy _ Hv).
  - split; [lia|]. split; [lia|]. intros Ha. split; [lia|].
    assert (x - k ≤ m) as Hy.
    { destruct (Z.leb_spec (x - k) m); [done|]. exfalso.
      destruct (front_y _ _ Hf _ Hv) as [Hv' Hy']; [lia|]. pose proof (Fy _ Hv' Hy'). lia. }
    split; [done|]. intros [Hxn Hym].
    destruct (decide (d = 1)) as [->|]; [|lia]. specialize (F0 eq_refl).
    assert (f (k - 1) = f 0) by (f_equal; plia). plia.
  - split; [lia|]. split; [lia|]. intros Ha.
    assert (x ≤ n) as Hy.
    { destruct (Z.leb_spec x n); [done|]. exfalso.
      destruct (front_x _ _ Hf _ Hv) as [Hv' Hy']; [lia|]. pose proof (Fx _ Hv' Hy'). lia. }
    split; [done|]. split; [lia|]. intros [Hxn Hym].
    destruct (decide (d = 1)) as [->|]; [|lia]. specialize (F0 eq_refl).
    assert (f (k + 1) = f 0) by (f_equal; plia). plia.
Qed.

(** A snake from column [x0] of diagonal [k] ends at column [x]. *)
Definition landed (k x0 x : Z) : Prop := x0 ≤ x ∧ (x = x0 ∨ x ≤ n ∧ x - k ≤ m).

Lemma front_next d f g :
  0 ≤ d → before d f → (∀ k, valid d k → landed k (nx d f k) (g k)) → (d = 0 → g 0 = 0) → front d g.
Proof.
  intros Hd Hb Hg H0. split; [| | | |done].
  - intros k Hk. destruct (nx_spec d f k Hb Hk) as (? & _). destruct (Hg k Hk). lia.
  - intros k Hk. destruct (nx_spec d f k Hb Hk) as (_ & ? & _). destruct (Hg k Hk). lia.
  - intros k Hk Hx. destruct (Hg k Hk) as [_ [E|]]; [|lia]. rewrite E in Hx.
    destruct Hb as [[-> Hf]|(Hd' & Hf & Hi)].
    { assert (k = 0) as -> by plia. cbn in Hx. lia. }
    destruct (nx_cases d f k Hd' Hk) as (_ & _ & [[Hv Ex]|[Hv Ex]]); rewrite Ex in Hx.
    + assert (valid d (k - 2)) as Hv2 by plia. split; [done|].
      destruct (Hg _ Hv2) as [? _]. destruct (nx_cases d f (k - 2) Hd' Hv2) as (_ & Hnx & _).
      replace (k - 2 + 1) with (k - 1) in Hnx by lia. specialize (Hnx Hv). lia.
    + destruct (front_x _ _ Hf _ Hv Hx) as [Hv' Hx'].
      assert (valid d (k - 2)) as Hv2 by plia. split; [done|].
      destruct (Hg _ Hv2) as [? _]. destruct (nx_cases d f (k - 2) Hd' Hv2) as (_ & Hnx & _).
      replace (k - 2 + 1) with (k + 1 - 2) in Hnx by lia. specialize (Hnx Hv'). lia.
  - intros k Hk Hx. destruct (Hg k Hk) as [_ [E|]]; [|lia]. rewrite E in Hx.
    destruct Hb as [[-> Hf]|(Hd' & Hf & Hi)].
    { assert (k = 0) as -> by plia. cbn in Hx. lia. }
    destruct (nx_cases d f k Hd' Hk) as (_ & _ & [[Hv Ex]|[Hv Ex]]); rewrite Ex in Hx.
    + destruct (front_y _ _ Hf _ Hv) as [Hv' Hx']; [lia|].
      assert (valid d (k + 2)) as Hv2 by plia. split; [done|].
      destruct (Hg _ Hv2) as [? _]. destruct (nx_cases d f (k + 2) Hd' Hv2) as (Hnx & _ & _).
      replace (k + 2 - 1) with (k - 1 + 2) in Hnx by lia. specialize (Hnx Hv'). lia.
    + assert (valid d (k + 2)) as Hv2 by plia. split; [done|].
      destruct (Hg _ Hv2) as [? _]. destruct (nx_cases d f (k + 2) Hd' Hv2) as (Hnx & _ & _).
      replace (k + 2 - 1) with (k + 1) in Hnx by lia. specialize (Hnx Hv). lia.
Qed.

(** Two frontiers that do not meet on a diagonal are both short of the edges. *)
Lemma apart_inside d d' f g k :
  front d f → front d' g → valid d k → valid d' (n - m - k) → f k + g (n - m - k) < n →
  (f k < n ∧ f k - k < m) ∧ (g (n - m - k) < n ∧ g (n - m - k) - (n - m - k) < m).
Proof.
  intros Hf Hg Hk Hk' Hlt. pose proof (front_lo _ _ Hf _ Hk). pose proof (front_lo _ _ Hg _ Hk'). lia.
Qed.

(** Two frontiers of many rounds meet on every diagonal they share. *)
Lemma apart_bound d d' f g k :
  front d f → front d' g → valid d k → valid d' (n - m - k) → f k + g (n - m - k) < n →
  d + d' + 2 ≤ n + m.
Proof.
  intros Hf Hg Hk Hk' Hlt. pose proof (front_lo _ _ Hf _ Hk). pose proof (front_lo _ _ Hg _ Hk'). lia.
Qed.

(** A forward pass that missed the backward frontier of the round before. *)
Lemma odd_round d f g :
  (n - m) `mod` 2 = 1 → 0 < d → front d f → front (d - 1) g →
  (∀ k, valid d k → Z.abs (k - (n - m)) ≤ d - 1 → f k + g (n - m - k) < n) →
  inside d f ∧ inside (d - 1) g ∧ 2 * d < n + m.
Proof.
  intros Hpar Hd Hf Hg Hmiss. split; [|split].
  - intros k Hk Ha. eapply (apart_inside d (d - 1)); [exact Hf|exact Hg|done|plia|].
    apply Hmiss; [done|plia].
  - intros k Hk Ha.
    destruct (apart_inside d (d - 1) _ _ (n - m - k) Hf Hg) as [_ Hi];
      [plia|plia|apply Hmiss; plia|].
    by replace (n - m - (n - m - k)) with k in Hi by lia.
  - set (k := if 0 <? n - m then d else - d).
    assert (valid d k ∧ Z.abs (k - (n - m)) ≤ d - 1 ∨ n + m > 2 * d) as [[Hk Ha]|]; [|..|lia].
    { destruct (Z.ltb_spec (2 * d) (n + m)); [right; lia|left].
      unfold k. destruct (Z.ltb_spec 0 (n - m)); plia. }
    pose proof (apart_bound d (d - 1) _ _ k Hf Hg Hk).
    assert (d + (d - 1) + 2 ≤ n + m); [|lia]. apply H; [plia|by apply Hmiss].
Qed.

(** A backward pass that missed the forward frontier of its round. *)
Lemma even_round d f g :
  (n - m) `mod` 2 = 0 → 0 ≤ d → front d f → front d g →
  (∀ k, valid d k → Z.abs (k - (n - m)) ≤ d → g k + f (n - m - k) < n) →
  inside d f ∧ inside d g ∧ 2 * d < n + m.
Proof.
  intros Hpar Hd Hf Hg Hmiss. split; [|split].
  - intros k Hk Ha.
    destruct (apart_inside d d _ _ (n - m - k) Hg Hf) as [_ Hi]; [plia|plia|apply Hmiss; plia|].
    by replace (n - m - (n - m - k)) with k in Hi by lia.
  - intros k Hk Ha. eapply (apart_inside d d); [exact Hg|exact Hf|done|plia|by apply Hmiss].
  - set (k := if 0 <=? n - m then d else - d).
    assert (valid d k ∧ Z.abs (k - (n - m)) ≤ d ∨ n + m > 2 * d) as [[Hk Ha]|]; [|..|lia].
    { destruct (Z.ltb_spec (2 * d) (n + m)); [right; lia|left].
      unfold k. destruct (Z.leb_spec 0 (n - m)); plia. }
    pose proof (apart_bound d d _ _ k Hg Hf Hk).
    assert (d + d + 2 ≤ n + m); [|lia]. apply H; [plia|by apply Hmiss].
Qed.
End frontier.

(** ** The passes *)

Lemma next_x_ok {E} offset r values d k :
  roomy offset r values → 0 ≤ d < r → valid d k →
  next_x (E:=E) offset values d k = Ok (nx d (slot offset values) k).
Proof.
  intros Hr Hd Hk. unfold next_x, nx. assert (- d ≤ k ≤ d) as Hk' by plia.
  destruct (Z.eqb_spec k (- d)) as [->|]; cbn [mbind exec_bind orb].
  - apply (v_get_ok offset r); [done|lia].
  - destruct (Z.eqb_spec k d) as [->|]; cbn [negb andb mbind exec_bind].
    + rewrite (v_get_ok offset r) by (done || lia). done.
    + rewrite !(v_get_ok offset r) by (done || lia). cbn [mbind exec_bind].
      destruct (_ <? _); done.
Qed.

Lemma nx_ext d f g k : (∀ k', k' = k - 1 ∨ k' = k + 1 → f k' = g k') → nx d f k = nx d g k.
Proof. intros Hfg. unfold nx. by rewrite !(Hfg (k - 1)), !(Hfg (k + 1)) by auto. Qed.

(** A vector, a budget, and what a pass keeps of them. *)
Definition kept (offset r : Z) (v0 : list Z) (b0 : ResourceBudget) (v : list Z) (b : ResourceBudget) : Prop :=
  roomy offset r v ∧ zlen v = zlen v0 ∧ worked b0 b.

Section pass.
Context (n m : Z) (Hn : 1 ≤ n) (Hm : 1 ≤ m) (offset r d : Z) (Hd : 0 ≤ d < r).
Context (v0 : list Z) (b0 : ResourceBudget) (Hv0 : roomy offset r v0).
Context {R : Type} (Q : list Z → ResourceBudget → R → Prop) (miss : Z → Z → Prop).
Context (body : Z → list Z * ResourceBudget
  → exec Budget.BudgetExceeded (list Z * ResourceBudget + R * list Z * ResourceBudget)).

(** What one round of a pass does: the column of [k] is set to where its snake
    lands, and it misses the other search, or the pass ends with a result. *)
Definition step_ok (k : Z) (v : list Z) (b : ResourceBudget)
    (out : list Z * ResourceBudget + R * list Z * ResourceBudget) : Prop :=
  match out with
  | inl (v', b') =>
      kept offset r v b v' b' ∧
      ∃ x, landed n m k (nx d (slot offset v0) k) x ∧ (d = 0 → x = 0) ∧ miss k x ∧
        ∀ k', - r ≤ k' ≤ r → slot offset v' k' = if decide (k' = k) then x else slot offset v k'
  | inr (res, v', b') => kept offset r v b v' b' ∧ Q v' b' res
  end.

Context (Hbody : ∀ k v b, valid d k → kept offset r v0 b0 v b →
  next_x (E:=Budget.BudgetExceeded) offset v d k = Ok (nx d (slot offset v0) k) →
  settles (body k (v, b)) (step_ok k v b) (overwork b0)).

Lemma pass_spec :
  before n m d (slot offset v0) →
  settles (for_loop body (diagonals d) (v0, b0))
    (λ out, match out with
     | inl (v, b) =>
         kept offset r v0 b0 v b ∧ front n m d (slot offset v) ∧
         (∀ k, valid d k → miss k (slot offset v k)) ∧
         (∀ k, - r ≤ k ≤ r → ¬ valid d k → slot offset v k = slot offset v0 k)
     | inr (res, v, b) => kept offset r v0 b0 v b ∧ Q v b res
     end) (overwork b0).
Proof.
  intros Hb.
  set (I := λ (pre : list Z) (s : list Z * ResourceBudget),
    kept offset r v0 b0 s.1 s.2 ∧
    (∀ k, - r ≤ k ≤ r → k ∉ pre → slot offset s.1 k = slot offset v0 k) ∧
    (∀ k, k ∈ pre → landed n m k (nx d (slot offset v0) k) (slot offset s.1 k) ∧
      (d = 0 → slot offset s.1 k = 0) ∧ miss k (slot offset s.1 k))).
  eapply settles_mono.
  - apply (for_loop_spec body I (λ res, kept offset r v0 b0 res.1.2 res.2 ∧ Q res.1.2 res.2 res.1.1)).
    + split; [by split|]. split; [done|]. intros k Hk. by apply not_elem_of_nil in Hk.
    + intros pre k post [v b] Hks (Hkept & Hun & Hpre). cbn [fst snd] in *.
      assert (∀ k', k' ∈ pre ++ k :: post → valid d k') as Hval
        by (intros k' Hk'; apply elem_of_diagonals; [lia|by rewrite Hks]).
      assert (valid d k) as Hk by (apply Hval, elem_of_app; right; constructor).
      assert (k ∉ pre) as Hnew.
      { pose proof (diagonals_NoDup d) as Hnd. rewrite Hks in Hnd.
        apply NoDup_app in Hnd as (_ & Hnd & _). intros Hin. apply (Hnd k Hin). constructor. }
      eapply settles_mono; [apply Hbody; [done|done|]|..|done].
      * rewrite (next_x_ok offset r) by (done || apply Hkept). f_equal.
        apply nx_ext. intros k' Hk'. apply Hun; [plia|]. intros Hin.
        assert (valid d k') by (apply Hval, elem_of_app; by left). plia.
      * intros [[v' b']|[[res v'] b']]; cbn [step_ok fst snd].
        -- intros ((? & ? & ?) & x & Hl & Hx0 & Hmiss & Hs). destruct Hkept as (? & ? & ?).
           assert (- r ≤ k ≤ r) as Hkr by plia. unfold I. cbn [fst snd].
           split; [|split].
           ++ split; [done|]. split; [congruence|by etransitivity].
           ++ intros k' Hk' Hn'. rewrite Hs by done.
              rewrite decide_False by (intros ->; apply Hn', elem_of_app; right; constructor).
              apply Hun; [done|]. intros Hin. apply Hn', elem_of_app. by left.
           ++ intros k' [Hin|Hin]%elem_of_app.
              ** assert (valid d k') by (apply Hval, elem_of_app; by left).
                 rewrite Hs by plia. rewrite decide_False by (intros ->; done). by apply Hpre.
              ** apply list_elem_of_singleton in Hin as ->. rewrite Hs by done.
                 by rewrite decide_True.
        -- intros ((? & ? & ?) & ?). destruct Hkept as (? & ? & ?). split; [|done].
           split; [done|]. split; [congruence|by etransitivity].
  - intros [[v b]|[[res v] b]]; [|done]. intros (Hkept & Hun & Hall). cbn [fst snd] in *.
    assert (∀ k, valid d k → k ∈ diagonals d) as Hin by (intros; apply elem_of_diagonals; [lia|done]).
    split; [done|]. split; [|split].
    + apply (front_next n m Hn Hm d (slot offset v0)); [lia|done|..].
      * intros k Hk. by apply Hall, Hin.
      * intros Hd0. apply Hall; [|done]. apply Hin. plia.
    + intros k Hk. by apply Hall, Hin.
    + intros k Hk Hnv. apply Hun; [done|]. rewrite elem_of_diagonals by lia. done.
  - done.
Qed.
End pass.

(** ** The middle snake *)
Section snake.
Context (old new : LineView) (A B : list (list Z)).
Context (Hold : view_ok old A) (Hnew : view_ok new B).
Context (HA : zlen A ≤ U32_MAX) (HB : zlen B ≤ U32_MAX).
Context (os oe ns ne n m delta : Z) (odd : bool).
Context (Hos : 0 ≤ os) (Hoe : oe ≤ zlen A) (Hns : 0 ≤ ns) (Hne : ne ≤ zlen B).
Context (En : n = oe - os) (Em : m = ne - ns) (Ed : delta = n - m) (Hn : 1 ≤ n) (Hm : 1 ≤ m).
Context (Eodd : odd = true ↔ delta `mod` 2 = 1).
Context (Hpre : ¬ same A B os ns) (Hsuf : ¬ same A B (oe - 1) (ne - 1)).
Context (offset r : Z).

(** A division of the box into two smaller boxes. *)
Definition good_split (p : Z * Z) : Prop :=
  os ≤ p.1 ≤ oe ∧ ns ≤ p.2 ≤ ne ∧ os + ns < p.1 + p.2 < oe + ne.

Abbreviation front := (front n m).
Abbreviation inside := (inside n m).
Abbreviation before := (before n m).

Lemma forward_step_spec d vb v0 b0 k v b :
  0 ≤ d < r → roomy offset r vb → roomy offset r v0 → before d (slot offset v0) →
  valid d k → kept offset r v0 b0 v b →
  next_x (E:=Budget.BudgetExceeded) offset v d k = Ok (nx d (slot offset v0) k) →
  settles (forward_step old os oe new ns ne n m delta odd offset d vb k (v, b))
    (step_ok n m offset r d v0 (λ _ _ p, good_split p)
       (λ k x, odd = true → Z.abs (k - delta) ≤ d - 1 → x + slot offset vb (delta - k) < n) k v b)
    (overwork b0).
Proof.
  intros Hd Hrb Hr0 Hb Hk (Hr & Hz & Hw) Hx. unfold forward_step. rewrite Hx. cbn [mbind exec_bind].
  destruct (nx_spec n m Hn Hm d _ k Hb Hk) as ((Hx0 & Hy0 & Hxy) & (Hxn & Hym) & Hin).
  set (x0 := nx d (slot offset v0) k) in *.
  assert (- d ≤ k ≤ d) as Hkd by plia. destruct Hr as (Hr1 & Hr2 & Hr3).
  assert (as_u64 (x0 - k) = x0 - k) as Ey.
  { unfold as_u64. apply Z.mod_small. unfold USIZE_MAX, U32_MAX in *. lia. }
  rewrite Ey. apply settles_bind. eapply settles_mono.
  - assert (settles (if (x0 <? n) && (x0 - k <? m)
        then '(advance, budget) ← common_prefix old (os + x0) oe new (ns + (x0 - k)) ne b;
             Ok (x0 + advance, budget) else Ok (x0, b))
      (λ s, worked b s.2 ∧ landed n m k x0 s.1 ∧ (d = 0 → s.1 = 0)) (overwork b)) as H; [|exact H].
    assert (d = 0 → x0 = 0 ∧ k = 0) as Hd0.
    { intros ->. split; [|plia]. destruct Hb as [[_ Hf]|[? _]]; [|lia]. unfold x0.
      assert (k = 0) as -> by plia. done. }
    destruct (Z.ltb_spec x0 n), (Z.ltb_spec (x0 - k) m); cbn [andb];
      try (cbn [settles fst snd]; split; [reflexivity|]; split; [by split; [|left]|]; intros; by apply Hd0).
    step (diff_prefix_spec old new A B Hold Hnew) as (Hw' & Ha & Hall & _); try lia; [|done].
    destruct a as [adv b']. cbn [settles fst snd] in *. split; [done|].
    split; [unfold landed; lia|]. intros Hd0'. destruct (Hd0 Hd0') as [E0 ->].
    destruct (decide (adv = 0)) as [->|]; [lia|]. exfalso. apply Hpre.
    specialize (Hall 0). rewrite E0, !Z.add_0_r in Hall. apply Hall. lia.
  - intros [x b'] (Hw' & Hl & H0). cbn [fst snd] in *.
    destruct (v_set_ok (E:=Budget.BudgetExceeded) offset r v k x) as (v' & -> & Hr' & Hz' & Hs);
      [done|lia|]. cbn [mbind exec_bind].
    destruct (Z.leb_spec (Z.abs (k - delta)) (d - 1)) as [Ha|Ha]; [destruct odd eqn:Eo|];
      rewrite ?andb_false_r; cbn [andb].
    + rewrite !(v_get_ok offset r) by (done || lia). cbn [mbind exec_bind].
      rewrite (Hs k), decide_True by (done || lia).
      replace (- (k - delta)) with (delta - k) by lia.
      destruct (Z.leb_spec n (x + slot offset vb (delta - k))); cbn [settles step_ok].
      * split; [done|]. destruct Hin as (? & ? & ?); [lia|].
        unfold good_split. cbn [fst snd]. lia.
      * split; [done|]. exists x. done.
    + cbn [mbind exec_bind settles step_ok]. split; [done|]. exists x.
      split; [done|]. split; [done|]. split; [done|exact Hs].
    + cbn [mbind exec_bind settles step_ok]. split; [done|]. exists x.
      split; [done|]. split; [done|]. split; [intros; lia|exact Hs].
  - intros e. by apply overwork_worked.
Qed.

Lemma backward_step_spec d vf v0 b0 k v b :
  0 ≤ d < r → roomy offset r vf → roomy offset r v0 → before d (slot offset v0) →
  (d = 0 → slot offset vf 0 = 0) → valid d k → kept offset r v0 b0 v b →
  next_x (E:=Budget.BudgetExceeded) offset v d k = Ok (nx d (slot offset v0) k) →
  settles (backward_step old os new ns n m delta odd offset d vf k (v, b))
    (step_ok n m offset r d v0 (λ _ _ p, good_split p)
       (λ k x, odd = false → Z.abs (k - delta) ≤ d → x + slot offset vf (delta - k) < n) k v b)
    (overwork b0).
Proof.
  intros Hd Hrf Hr0 Hb Hf0 Hk (Hr & Hz & Hw) Hx. unfold backward_step. rewrite Hx. cbn [mbind exec_bind].
  destruct (nx_spec n m Hn Hm d _ k Hb Hk) as ((Hx0 & Hy0 & Hxy) & (Hxn & Hym) & Hin).
  set (x0 := nx d (slot offset v0) k) in *.
  assert (- d ≤ k ≤ d) as Hkd by plia. destruct Hr as (Hr1 & Hr2 & Hr3).
  assert (as_u64 (x0 - k) = x0 - k) as Ey.
  { unfold as_u64. apply Z.mod_small. unfold USIZE_MAX, U32_MAX in *. lia. }
  rewrite Ey. apply settles_bind. eapply settles_mono.
  - assert (settles (if (x0 <? n) && (x0 - k <? m)
        then '(advance, budget) ← common_suffix old os (os + n - x0) new ns (ns + m - (x0 - k)) b;
             Ok (x0 + advance, x0 - k + advance, budget) else Ok (x0, x0 - k, b))
      (λ s, worked b s.2 ∧ s.1.2 = s.1.1 - k ∧ landed n m k x0 s.1.1 ∧ (d = 0 → s.1.1 = 0) ∧
            (Z.abs (k - delta) ≤ d → ¬ (s.1.1 = n ∧ s.1.2 = m))) (overwork b)) as H; [|exact H].
    assert (d = 0 → x0 = 0 ∧ k = 0) as Hd0.
    { intros ->. split; [|plia]. destruct Hb as [[_ Hf]|[? _]]; [|lia]. unfold x0.
      assert (k = 0) as -> by plia. done. }
    destruct (Z.ltb_spec x0 n), (Z.ltb_spec (x0 - k) m); cbn [andb];
      try (cbn [settles fst snd]; split; [reflexivity|]; split; [done|];
           split; [by split; [|left]|]; split; [intros; by apply Hd0|]; intros; lia).
    step (diff_suffix_spec old new A B Hold Hnew) as (Hw' & Ha & Hall & _); try lia; [|done].
    destruct a as [adv b']. cbn [settles fst snd] in *. split; [done|]. split; [lia|].
    split; [unfold landed; lia|]. split.
    + intros Hd0'. destruct (Hd0 Hd0') as [E0 ->].
      destruct (decide (adv = 0)) as [->|]; [lia|]. exfalso. apply Hsuf.
      specialize (Hall 0). replace (os + n - x0 - 1 - 0) with (oe - 1) in Hall by lia.
      replace (ns + m - (x0 - 0) - 1 - 0) with (ne - 1) in Hall by lia. apply Hall. lia.
    + intros _ [Exn Eym]. apply Hpre. specialize (Hall (adv - 1)).
      replace (os + n - x0 - 1 - (adv - 1)) with os in Hall by lia.
      replace (ns + m - (x0 - k) - 1 - (adv - 1)) with ns in Hall by lia. apply Hall. lia.
  - intros [[x y] b'] (Hw' & Ey' & Hl & H0 & Hcorner). cbn [fst snd] in *.
    destruct (v_set_ok (E:=Budget.BudgetExceeded) offset r v k x) as (v' & -> & Hr' & Hz' & Hs);
      [done|lia|]. cbn [mbind exec_bind].
    destruct (Z.leb_spec (Z.abs (k - delta)) d) as [Ha|Ha]; [destruct odd eqn:Eo|];
      rewrite ?andb_false_r; cbn [andb negb].
    + cbn [mbind exec_bind settles step_ok]. split; [done|]. exists x.
      split; [done|]. split; [done|]. split; [done|exact Hs].
    + destruct (decide (Z.abs (delta - k) ≤ d)) as [Ha'|]; [|lia].
      rewrite !(v_get_ok offset r) by (done || lia). cbn [mbind exec_bind].
      rewrite (Hs k), decide_True by (done || lia).
      replace (- (k - delta)) with (delta - k) by lia.
      destruct (Z.leb_spec n (x + slot offset vf (delta - k))) as [Hhit|Hhit].
      * destruct Hin as (? & ? & ?); [lia|]. specialize (Hcorner Ha). destruct Hl as [Hl1 Hl2].
        unfold usub. rewrite !(proj2 (Z.leb_le _ _)) by lia. cbn [mbind exec_bind settles step_ok].
        split; [done|]. unfold good_split. cbn [fst snd].
        assert (0 < x + y); [|lia].
        destruct (decide (d = 0)) as [Hd0|]; [|lia].
        replace (delta - k) with 0 in Hhit by lia. rewrite Hf0, H0 in Hhit by done. lia.
      * cbn [settles step_ok]. split; [done|]. exists x. done.
    + cbn [mbind exec_bind settles step_ok]. split; [done|]. exists x.
      split; [done|]. split; [done|]. split; [intros; lia|exact Hs].
  - intros e. by apply overwork_worked.
Qed.

(** What holds between two rounds. *)
Definition round_inv (vf0 vb0 : list Z) (b0 : ResourceBudget) (d : Z)
    (s : list Z * list Z * ResourceBudget) : Prop :=
  let '(vf, vb, b) := s in
  let '(f, g) := (slot offset vf, slot offset vb) in
  kept offset r vf0 b0 vf b ∧ kept offset r vb0 b0 vb b ∧ (d = 0 → f 1 = 0 ∧ g 1 = 0) ∧
  (0 < d → front (d - 1) f ∧ inside (d - 1) f ∧ front (d - 1) g ∧
           (odd = false → inside (d - 1) g) ∧ 2 * (d - 1) < n + m).

Definition snake_ok (vf0 vb0 : list Z) (b0 : ResourceBudget) (s : Snake) : Prop :=
  kept offset r vf0 b0 (snake_vf s) (snake_budget s) ∧
  kept offset r vb0 b0 (snake_vb s) (snake_budget s) ∧
  ∃ p, split s = Some p ∧ good_split p.

Lemma search_round_spec vf0 vb0 b0 d s :
  0 ≤ d < r → round_inv vf0 vb0 b0 d s →
  settles (search_round old os oe new ns ne n m delta odd offset d s)
    (λ out, match out with
     | inl s => round_inv vf0 vb0 b0 (d + 1) s
     | inr s => snake_ok vf0 vb0 b0 s
     end) (overwork b0).
Proof.
  destruct s as [[vf vb] b]. intros Hd (Kf & Kb & H0 & Hpos). unfold search_round.
  pose proof Kf as (Rf & Zf & Wf). pose proof Kb as (Rb & Zb & _).
  assert (before d (slot offset vf)) as Bf.
  { destruct (decide (d = 0)) as [->|]; [left; by destruct H0|right].
    destruct Hpos as (? & ? & _); [lia|]. split; [lia|done]. }
  apply settles_bind. eapply settles_mono.
  { apply (pass_spec n m Hn Hm offset r d Hd vf b Rf (λ _ _ p, good_split p)
      (λ k x, odd = true → Z.abs (k - delta) ≤ d - 1 → x + slot offset vb (delta - k) < n)); [|done].
    intros k v b' Hk Hkept Hx. by apply forward_step_spec. }
  2:{ intros e. by apply overwork_worked. }
  intros [[vf1 b1]|[[p vf1] b1]]; cbn [mbind exec_bind]; cycle 1.
  { intros ((R1 & Z1 & W1) & Hp). cbn [settles]. split; [|split; [|by exists p]]; cbn [snake_vf snake_vb snake_budget].
    - split; [done|]. split; [congruence|by etransitivity].
    - split; [done|]. split; [congruence|by etransitivity]. }
  intros ((R1 & Z1 & W1) & F1 & Hmiss & _).
  assert (odd = true → 0 < d → inside d (slot offset vf1) ∧ inside (d - 1) (slot offset vb) ∧ 2 * d < n + m)
    as Hodd.
  { intros Ho Hd'. destruct (Hpos Hd') as (_ & _ & Gb & _). apply Eodd in Ho as Hpar. rewrite Ed in *.
    apply odd_round; try done. intros k Hk Ha. by apply Hmiss. }
  assert (before d (slot offset vb)) as Bb.
  { destruct (decide (d = 0)) as [->|]; [left; by destruct H0|right].
    destruct Hpos as (_ & _ & ? & Hev & _); [lia|]. split; [lia|]. split; [done|].
    destruct odd; [apply Hodd; [done|lia]|by apply Hev]. }
  apply settles_bind. eapply settles_mono.
  { apply (pass_spec n m Hn Hm offset r d Hd vb b1 Rb (λ _ _ p, good_split p)
      (λ k x, odd = false → Z.abs (k - delta) ≤ d → x + slot offset vf1 (delta - k) < n)); [|done].
    intros k v b' Hk Hkept Hx. apply backward_step_spec; try done. by apply F1. }
  2:{ intros e He. eapply overwork_worked; [|exact He]. by etransitivity. }
  intros [[vb1 b2]|[[p vb1] b2]]; cbn [mbind exec_bind]; cycle 1.
  { intros ((R2 & Z2 & W2) & Hp). cbn [settles]. split; [|split; [|by exists p]]; cbn [snake_vf snake_vb snake_budget].
    - split; [done|]. split; [congruence|]. etransitivity; [|exact W2]. by etransitivity.
    - split; [done|]. split; [congruence|]. etransitivity; [|exact W2]. by etransitivity. }
  intros ((R2 & Z2 & W2) & F2 & Hmiss2 & _). cbn [settles round_inv].
  assert (worked b0 b2) as W02 by (etransitivity; [|exact W2]; by etransitivity).
  split; [split; [done|]; split; [congruence|done]|].
  split; [split; [done|]; split; [congruence|done]|].
  split; [lia|]. intros _. replace (d + 1 - 1) with d by lia.
  destruct odd eqn:Eo.
  - destruct (decide (d = 0)) as [->|].
    + split; [done|]. split; [|split; [done|]; split; [done|lia]].
      intros k Hk Ha. pose proof (proj1 Eodd eq_refl). plia.
    + destruct Hodd as (? & _ & ?); [done|lia|]. done.
  - assert ((n - m) `mod` 2 = 0) as Hpar.
    { destruct (decide (delta `mod` 2 = 1)) as [H%Eodd|]; [done|plia]. }
    rewrite Ed in *.
    edestruct (even_round n m) with (f := slot offset vf1) (g := slot offset vb1) (d := d) as (? & ? & ?); try done; [lia|].
    intros k Hk Ha. by apply Hmiss2.
Qed.
End snake.

Lemma max_d_eq N M :
  0 ≤ N ≤ U32_MAX → 0 ≤ M ≤ U32_MAX → max_d N M = (N + M + 1) / 2 + 1.
Proof.
  intros. unfold max_d, saturating_add, div_ceil, U64_MAX, U32_MAX in *.
  rewrite (Z.min_r _ (N + M)) by lia. replace (N + M + 2 - 1) with (N + M + 1) by lia.
  apply Z.min_r. Z.to_euclidean_division_equations. lia.
Qed.

Lemma seqZ_app_cons pre x post n : seqZ 0 n = pre ++ x :: post → x = zlen pre ∧ 0 ≤ x < n.
Proof.
  intros E'. assert (seqZ 0 n !! length pre = Some x) as Hx.
  { rewrite E'. by rewrite list_lookup_middle. }
  apply lookup_seqZ in Hx. unfold zlen. lia.
Qed.

(** The search always finds a split into two smaller boxes: the answer [None]
    of the code is unreachable. *)
Lemma find_middle_snake_spec old new A B os oe ns ne vf vb b :
  view_ok old A → view_ok new B → zlen A ≤ U32_MAX → zlen B ≤ U32_MAX →
  0 ≤ os < oe → oe ≤ zlen A → 0 ≤ ns < ne → ne ≤ zlen B →
  ¬ same A B os ns → ¬ same A B (oe - 1) (ne - 1) →
  zlen vf = 2 * max_d (zlen A) (zlen B) + 1 → zlen vb = zlen vf →
  settles (find_middle_snake old os oe new ns ne vf vb b)
    (λ s, zlen (snake_vf s) = zlen vf ∧ zlen (snake_vb s) = zlen vf ∧ worked b (snake_budget s) ∧
          ∃ p, split s = Some p ∧ good_split os oe ns ne p) (overwork b).
Proof.
  intros Hold Hnew HA HB Ho Hoe Hn Hne Hpre Hsuf Hvf Hvb.
  rewrite max_d_eq in Hvf by (pose proof (zlen_nonneg A); pose proof (zlen_nonneg B); lia).
  set (r := (zlen A + zlen B + 1) / 2 + 1) in *.
  unfold find_middle_snake, saturating_sub. rewrite !Z.max_r by lia.
  set (n := oe - os). set (m := ne - ns).
  destruct (Z.eqb_spec n 0), (Z.eqb_spec m 0); [lia..|]. cbn [orb].
  assert (zlen vf / 2 = r) as -> by (rewrite Hvf; plia).
  set (d_max := saturating_add (div_ceil (saturating_add n m) 2) 1).
  assert (d_max = (n + m + 1) / 2 + 1 ∧ d_max ≤ r ∧ r ≤ U32_MAX + 2) as (Ed & Hdr & Hr).
  { unfold d_max, saturating_add, div_ceil, U64_MAX, U32_MAX, r in *.
    rewrite (Z.min_r _ (n + m)) by lia. replace (n + m + 2 - 1) with (n + m + 1) by lia.
    plia. }
  assert (∀ v : list Z, zlen v = zlen vf → roomy r r v) as Hroom.
  { intros v Hv. unfold roomy, USIZE_MAX, U32_MAX in *. unfold r in *. plia. }
  destruct (v_set_ok (E:=Budget.BudgetExceeded) r r vf 1 0) as (vf1 & -> & Rf & Zf & Sf);
    [by apply Hroom|unfold r; plia|].
  destruct (v_set_ok (E:=Budget.BudgetExceeded) r r vb 1 0) as (vb1 & -> & Rb & Zb & Sb);
    [by apply Hroom|unfold r; plia|].
  cbn [mbind exec_bind]. apply settles_bind. eapply settles_mono.
  - apply (for_loop_spec _ (λ pre s, round_inv n m (Z.land (n - m) 1 =? 1) r r vf1 vb1 b (zlen pre) s)
      (snake_ok os oe ns ne r r vf1 vb1 b)).
    + rewrite zlen_nil. split; [done|]. split; [done|]. split; [|lia]. intros _.
      rewrite Sf, Sb by (unfold r; plia). by rewrite !decide_True.
    + intros pre x post s Hs Hinv. apply seqZ_app_cons in Hs as [-> Hx].
      rewrite zlen_app, zlen_cons, zlen_nil, Z.add_0_r.
      apply (search_round_spec old new A B); try done; try lia.
      rewrite Z.eqb_eq. change 1 with (Z.ones 1) at 1. by rewrite Z.land_ones.
  - intros [[[vf2 vb2] b2]|s]; cbn [settles].
    + intros (_ & _ & _ & Hlast). exfalso. unfold zlen in Hlast. rewrite length_seqZ in Hlast.
      destruct Hlast as (_ & _ & _ & _ & ?); [plia|plia].
    + intros ((_ & ? & ?) & (_ & ? & _) & p & ? & ?). split; [congruence|]. split; [congruence|].
      split; [done|]. by exists p.
  - done.
Qed.

(** ** Runs *)

(** An equal run of the two texts. *)
Definition run_ok (A B : list (list Z)) (r : EqualRun) : Prop :=
  0 ≤ old_start r ∧ 0 ≤ new_start r ∧ 0 < run_len r ∧
  old_start r + run_len r ≤ zlen A ∧ new_start r + run_len r ≤ zlen B ∧
  ∀ i, 0 ≤ i < run_len r → same A B (old_start r + i) (new_start r + i).

(** The last line of the new text occurs nowhere else in it. *)
Definition last_unique (B : list (list Z)) : Prop :=
  ∀ j, 0 ≤ j < zlen B - 1 → ln B j ≠ ln B (zlen B - 1).

(** The runs the visitor is shown: each is equal, they are disjoint and ordered in
    the old text, they start in order in the new text, and they are disjoint in the
    new text as well when its last line is unique. *)
Record trace_ok (A B : list (list Z)) (tr : list EqualRun) : Prop := {
  trace_runs : Forall (run_ok A B) tr;
  trace_old : StronglySorted (λ a b, old_start a + run_len a ≤ old_start b) tr;
  trace_new : StronglySorted (λ a b, new_start a ≤ new_start b) tr;
  trace_disjoint :
    last_unique B → StronglySorted (λ a b, new_start a + run_len a ≤ new_start b) tr
}.

(** What has been shown up to line [oc] of the old and [nc] of the new text. *)
Definition shown (A B : list (list Z)) (oc nc : Z) (tr : list EqualRun) : Prop :=
  trace_ok A B tr ∧
  Forall (λ r, old_start r + run_len r ≤ oc ∧ new_start r ≤ nc ∧
               (last_unique B → new_start r + run_len r ≤ nc)) tr.

Lemma shown_mono A B oc nc oc' nc' tr :
  shown A B oc nc tr → oc ≤ oc' → nc ≤ nc' → shown A B oc' nc' tr.
Proof.
  intros [Ht Hf] ? ?. split; [done|]. eapply Forall_impl; [exact Hf|].
  cbn. intros r (? & ? & Hl). split; [lia|]. split; [lia|]. intros Hu. specialize (Hl Hu). lia.
Qed.

Lemma StronglySorted_snoc {X} (R : relation X) l x :
  StronglySorted R l → Forall (λ y, R y x) l → StronglySorted R (l ++ [x]).
Proof.
  induction 1 as [|y l Hs IH Hy]; intros Hf; cbn [app]; [by repeat constructor|].
  apply Forall_cons in Hf as [? ?]. constructor; [by apply IH|].
  apply Forall_app. split; [done|]. by constructor.
Qed.

Lemma shown_snoc A B oc nc oc' nc' tr r :
  shown A B oc nc tr → run_ok A B r → oc ≤ old_start r → nc ≤ new_start r →
  old_start r + run_len r ≤ oc' → new_start r ≤ nc' → (last_unique B → new_start r + run_len r ≤ nc') →
  shown A B oc' nc' (tr ++ [r]).
Proof.
  intros Hs Hr Ho Hn Ho' Hn' Hu. assert (0 < run_len r) as Hl by apply Hr. split.
  - destruct Hs as [[H1 H2 H3 H4] Hf]. split.
    + apply Forall_app. split; [done|]. by constructor.
    + apply StronglySorted_snoc; [done|]. eapply Forall_impl; [exact Hf|]. cbn. intros x (? & ? & ?). lia.
    + apply StronglySorted_snoc; [done|]. eapply Forall_impl; [exact Hf|]. cbn. intros x (? & ? & ?). lia.
    + intros HU. apply StronglySorted_snoc; [by apply H4|]. eapply Forall_impl; [exact Hf|]. cbn.
      intros x (? & ? & Hx). specialize (Hx HU). lia.
  - apply Forall_app. split; [|constructor; [cbn; done|constructor]].
    apply (shown_mono A B oc nc oc' nc' tr Hs); lia.
Qed.

Section slides.
Context (old new : LineView) (A B : list (list Z)) (Hold : view_ok old A) (Hnew : view_ok new B).

Lemma slide_loop_spec fuel run nc slide max_slide :
  0 ≤ slide ≤ max_slide → max_slide - slide < Z.of_nat fuel →
  0 ≤ old_start run → old_start run + max_slide ≤ zlen A → 0 ≤ nc → nc + max_slide ≤ zlen B →
  (∀ i, 0 ≤ i < slide → same A B (old_start run + i) (nc + i)) →
  returns (slide_loop fuel old new run nc slide max_slide)
    (λ s, 0 ≤ s ≤ max_slide ∧ ∀ i, 0 ≤ i < s → same A B (old_start run + i) (nc + i)).
Proof.
  revert slide. induction fuel as [|fuel IH]; intros slide Hs Hf Ho Hm Hc Hmb Heq; [lia|].
  cbn [slide_loop]. destruct (Z.ltb_spec slide max_slide); [|cbn [returns]; split; [lia|done]].
  rewrite (proj2 Hold), (proj2 Hnew) by lia. cbn [mbind exec_bind].
  case_bool_decide as He; [|cbn [returns]; split; [lia|done]].
  apply IH; try lia. intros i Hi. destruct (decide (i = slide)) as [->|]; [done|]. apply Heq. lia.
Qed.

(** The left slide: one run over the same old lines, or two that divide them; the
    first starts at the cursor or stays, the second stays. *)
Lemma slide_equal_run_spec run nc :
  run_ok A B run → 0 ≤ nc ≤ new_start run →
  returns (slide_equal_run old new run nc) (λ '(first, second, nc'),
    nc' = new_start run + run_len run ∧ run_ok A B first ∧
    old_start first = old_start run ∧ nc ≤ new_start first ∧
    match second with
    | None => run_len first = run_len run ∧ new_start first ≤ new_start run
    | Some second =>
        run_ok A B second ∧ new_start first = nc ∧
        old_start second = old_start first + run_len first ∧
        new_start second = new_start run + run_len first ∧
        run_len first + run_len second = run_len run ∧ nc + run_len first ≤ new_start run
    end).
Proof.
  intros (H1 & H2 & H3 & H4 & H5 & Heq) Hc. unfold slide_equal_run, saturating_sub.
  rewrite Z.max_r by lia. set (max_slide := Z.min (new_start run - nc) (run_len run)).
  step (slide_loop_spec _ run nc 0 max_slide) as [Hs Hsl]; try lia.
  destruct (Z.eqb_spec a 0) as [->|Ha]; [|destruct (Z.eqb_spec a (run_len run)) as [->|Hb]];
    cbn [mbind exec_bind returns old_start new_start run_len].
  - split; [done|]. split; [by repeat split|]. split; [done|]. lia.
  - split; [done|]. split; [unfold run_ok; cbn; repeat (split; [lia|]); done|]. lia.
  - split; [done|]. split; [unfold run_ok; cbn; repeat (split; [lia|]); done|].
    split; [done|]. split; [lia|]. split; [|lia].
    unfold run_ok; cbn; repeat (split; [lia|]). intros i Hi.
    replace (old_start run + a + i) with (old_start run + (a + i)) by lia.
    replace (new_start run + a + i) with (new_start run + (a + i)) by lia. apply Heq. lia.
Qed.

Lemma matches_from_spec n run start offset :
  0 ≤ offset → 0 ≤ old_start run → old_start run + offset + Z.of_nat n ≤ zlen A →
  0 ≤ start → start + offset + Z.of_nat n ≤ zlen B →
  returns (matches_from n old new run start offset)
    (λ b, b = true → ∀ i, offset ≤ i < offset + Z.of_nat n → same A B (old_start run + i) (start + i)).
Proof.
  revert offset. induction n as [|n IH]; intros offset Hf Ho Ha Hs Hb; cbn [matches_from];
    [cbn [returns]; intros; lia|].
  rewrite (proj2 Hold), (proj2 Hnew) by lia. cbn [mbind exec_bind]. case_bool_decide as He; [|done].
  eapply returns_mono; [apply IH; lia|]. cbn. intros b Hb' -> i Hi.
  destruct (decide (i = offset)) as [->|]; [done|]. apply Hb'; [done|lia].
Qed.

Lemma run_matches_at_spec run start :
  run_ok A B run → 0 ≤ start → start + run_len run ≤ zlen B →
  returns (run_matches_at old new run start)
    (λ b, b = true → ∀ i, 0 ≤ i < run_len run → same A B (old_start run + i) (start + i)).
Proof.
  intros (H1 & H2 & H3 & H4 & H5 & Heq) Hs Hb. unfold run_matches_at.
  eapply returns_mono; [apply matches_from_spec; lia|]. cbn. intros b H Hb' i Hi. apply H; [done|lia].
Qed.

(** The right shift is kept only for a run that matches the lines right after
    [original_end] and the last lines of the text. *)
Lemma compact_keeps_spec run oe lj :
  run_ok A B run → 0 ≤ oe →
  returns (compact_keeps_right_shift old new run oe lj) (λ b, b = true →
    lj = false ∧ oe + run_len run ≤ zlen B ∧
    (∀ i, 0 ≤ i < run_len run → same A B (old_start run + i) (oe + i)) ∧
    (∀ i, 0 ≤ i < run_len run → same A B (old_start run + i) (zlen B - run_len run + i))).
Proof.
  intros Hr Hoe. assert (0 < run_len run) as Hl by apply Hr. unfold compact_keeps_right_shift.
  rewrite (proj1 Hnew). destruct lj; [done|].
  destruct (Z.eqb_spec (run_len run) 0); [lia|]. cbn [orb].
  destruct (Z.ltb_spec (zlen B) (oe + run_len run)); [done|].
  step run_matches_at_spec as Hm; [done|lia|lia|]. destruct a; [|done].
  step usub_returns as ->; [lia|]. eapply returns_mono; [apply run_matches_at_spec; [done|lia|lia]|].
  cbn. intros b H' ->. split; [done|]. split; [lia|]. split; [by apply Hm|by apply H'].
Qed.

(** A kept right shift implies a last line that occurs twice. *)
Lemma shift_not_unique run oe :
  run_ok A B run → new_start run < oe → oe + run_len run ≤ zlen B →
  (∀ i, 0 ≤ i < run_len run → same A B (old_start run + i) (zlen B - run_len run + i)) →
  ¬ last_unique B.
Proof.
  intros (H1 & H2 & H3 & H4 & H5 & Heq) Hlt Hoe Hend Hu.
  specialize (Hend (run_len run - 1)). specialize (Heq (run_len run - 1)).
  apply (Hu (new_start run + (run_len run - 1))); [lia|].
  unfold same in *. rewrite <- Heq by lia. rewrite Hend by lia. f_equal. lia.
Qed.

Lemma slide_equal_run_right_spec run oe lj :
  run_ok A B run → 0 ≤ oe →
  returns (slide_equal_run_right old new run oe (zlen (offs new)) lj) (λ '(_, run'),
    run' = run ∨ run' = {| old_start := old_start run; new_start := oe; run_len := run_len run |} ∧
                 run_ok A B run').
Proof.
  intros Hr Hoe. assert (0 < run_len run) as Hl by apply Hr. unfold slide_equal_run_right.
  rewrite (proj1 Hnew). destruct (_ || _ || _); [by left|].
  destruct (Z.leb_spec (oe + run_len run) (zlen B)); [|by left]. cbn [mbind exec_bind].
  apply returns_bind. apply returns_bind. eapply returns_mono; [apply run_matches_at_spec; [done|lia|lia]|].
  intros [] Hm; [|by left].
  step usub_returns as ->; [lia|]. eapply returns_mono; [apply run_matches_at_spec; [done|lia|lia]|].
  intros [] Hm'; [|by left]. right. split; [done|].
  unfold run_ok; cbn. destruct Hr as (? & ? & ? & ? & ? & _). repeat (split; [lia|]). by apply Hm.
Qed.

Context {E W : Type} (visit : W → EqualRun → exec E W).
Context (I : list EqualRun → W → Prop) (Er : E → Prop).
(** The visitor keeps [I] on ordered traces, and fails as [Er] says. *)
Context (Hvisit : ∀ tr w r, I tr w → trace_ok A B (tr ++ [r]) →
  settles (visit w r) (λ w', I (tr ++ [r]) w') Er).

(** The errors of the diff: those of the visitor, and a work budget exceeded. *)
Definition diff_failed (b : ResourceBudget) (e : LineDiffError E) : Prop :=
  match e with
  | Visitor e => Er e
  | BudgetExceeded e => overwork b e
  | InvalidUtf8 => False
  end.

Lemma diff_failed_worked b b' e : worked b b' → diff_failed b' e → diff_failed b e.
Proof. intros Hw. destruct e; cbn; [done| |done]. by apply overwork_worked. Qed.

Lemma budgeted_settles {X} (m : exec Budget.BudgetExceeded X) Q b :
  settles m Q (overwork b) → settles (budgeted (E:=E) m) Q (diff_failed b).
Proof. by destruct m. Qed.

Lemma visit_settles tr w r b :
  I tr w → trace_ok A B (tr ++ [r]) →
  settles (map_err_visitor (visit w r)) (λ w', I (tr ++ [r]) w') (diff_failed b).
Proof. intros HI Ht. pose proof (Hvisit tr w r HI Ht) as H. by destruct (visit w r). Qed.

Lemma visit_after_right_slide_spec run oe lj w tr oc nc b :
  shown A B oc nc tr → I tr w → run_ok A B run → oc ≤ old_start run → nc ≤ new_start run →
  new_start run + run_len run ≤ oe →
  settles (visit_after_right_slide visit old new run oe lj w)
    (λ w', ∃ tr', shown A B (old_start run + run_len run) oe tr' ∧ I tr' w') (diff_failed b).
Proof.
  intros Hs HI Hr Ho Hn Hend. assert (0 < run_len run) as Hl by apply Hr.
  assert (0 ≤ new_start run) as Hn0 by apply Hr. unfold visit_after_right_slide.
  step (returns_lift (E:=LineDiffError E) _ _ (compact_keeps_spec run oe lj Hr ltac:(lia))) as Hk.
  rename a into keeps.
  assert (returns (E:=LineDiffError E)
    (if keeps then '(_, run) ← lift (slide_equal_run_right old new run oe (zlen (offs new)) lj); Ok run
     else Ok run)
    (λ run', old_start run' = old_start run ∧ run_len run' = run_len run ∧ run_ok A B run' ∧
             shown A B (old_start run + run_len run) oe (tr ++ [run']))) as H.
  { assert (shown A B (old_start run + run_len run) oe (tr ++ [run])) as Hstay
      by (apply (shown_snoc A B oc nc); try done; lia).
    destruct keeps; [|done]. destruct (Hk eq_refl) as (_ & Hfit & _ & Hlast).
    step (returns_lift (E:=LineDiffError E) _ _ (slide_equal_run_right_spec run oe lj Hr ltac:(lia))) as Hrun.
    destruct a as [? run']. cbn [returns]. destruct Hrun as [->|[-> Hok]]; [done|]. cbn.
    split; [done|]. split; [done|]. split; [done|].
    apply (shown_snoc A B oc nc); cbn; try done; try lia. intros Hu. exfalso.
    apply (shift_not_unique run oe Hr); [lia|lia|exact Hlast|exact Hu]. }
  step H as (_ & _ & _ & Hsh).
  eapply settles_mono; [apply (visit_settles tr); [done|apply Hsh]|..|done].
  cbn. intros w' HI'. eexists. by split.
Qed.

Lemma emit_slid_spec run nc w tr oc b :
  shown A B oc nc tr → I tr w → run_ok A B run → oc ≤ old_start run → 0 ≤ nc ≤ new_start run →
  settles (emit_slid visit old new run nc w) (λ '(w', nc'),
    nc' = new_start run + run_len run ∧
    ∃ tr', shown A B (old_start run + run_len run) nc' tr' ∧ I tr' w') (diff_failed b).
Proof.
  intros Hs HI Hr Ho Hn. unfold emit_slid.
  step (returns_lift (E:=LineDiffError E) _ _ (slide_equal_run_spec run nc Hr Hn)) as Hsl.
  destruct a as [[first second] nc']. destruct Hsl as (-> & Hf & Eo & Hnf & Hcase).
  assert (0 < run_len first) as Hlf by apply Hf.
  destruct second as [second|].
  - destruct Hcase as (Hsec & En1 & Eo2 & En2 & El & Hfit). assert (0 < run_len second) as Hls by apply Hsec.
    apply settles_bind. apply settles_bind.
    assert (shown A B (old_start second) (nc + run_len first) (tr ++ [first])) as Hs1
      by (apply (shown_snoc A B oc nc); try done; lia).
    eapply settles_mono; [apply (visit_settles tr _ _ b); [done|apply Hs1]|..|done]. intros w1 HI1.
    eapply settles_mono; [apply (visit_after_right_slide_spec _ _ _ _ (tr ++ [first]) _ _ b Hs1)|..|done];
      try done; try lia. cbn.
    intros w2 (tr' & ? & ?). split; [done|]. exists tr'.
    by replace (old_start run + run_len run) with (old_start second + run_len second) by lia.
  - destruct Hcase as [El Hle]. apply settles_bind.
    eapply settles_mono; [apply (visit_after_right_slide_spec first _ _ w tr oc nc b)|..|done];
      try done; try lia. cbn.
    intros w2 (tr' & ? & ?). split; [done|]. exists tr'.
    by replace (old_start run + run_len run) with (old_start first + run_len first) by lia.
Qed.

(** ** The conquest *)

(** The jobs on the stack, topmost first. *)
Definition stacked (cap : Z) (js : list ConquerJob) (top : Z) (pend : list ConquerJob) : Prop :=
  0 ≤ top ≤ cap ∧ zlen js = cap ∧ reverse (take (Z.to_nat top) js) = pend.

Lemma stacked_zlen cap js top pend : stacked cap js top pend → zlen pend = top.
Proof. intros (? & ? & <-). unfold zlen in *. rewrite length_reverse, length_take. lia. Qed.

Lemma stacked_pop cap js top pend :
  stacked cap js top pend → 0 < top →
  ∃ j rest, pend = j :: rest ∧ (∀ E, index (E:=E) js (top - 1) = Ok j) ∧ stacked cap js (top - 1) rest.
Proof.
  intros (Ht & Hc & <-) Hpos. destruct (index_ok (E:=Empty_set) js (top - 1)) as (j & Hj & _); [lia|].
  exists j, (reverse (take (Z.to_nat (top - 1)) js)). split; [|split].
  - replace (Z.to_nat top) with (S (Z.to_nat (top - 1))) by lia.
    by rewrite (take_S_r _ _ _ Hj), reverse_snoc.
  - intros E'. unfold index. rewrite (proj2 (Z.leb_le _ _)) by lia. by rewrite Hj.
  - split; [lia|done].
Qed.

Lemma push_job_spec cap js top pend j b :
  stacked cap js top pend → zlen pend < cap →
  settles (budgeted (E:=E) (push_job js top j)) (λ '(js', top'), stacked cap js' top' (j :: pend))
    (diff_failed b).
Proof.
  intros Hs Hlt. rewrite (stacked_zlen _ _ _ _ Hs) in Hlt. destruct Hs as (Ht & Hc & <-).
  unfold push_job, vec_set. rewrite Hc. destruct (Z.leb_spec cap top); [lia|].
  rewrite (proj2 (Z.leb_le 0 top)), (proj2 (Z.ltb_lt top cap)) by lia.
  cbn [andb mbind exec_bind budgeted settles].
  split; [lia|]. split; [unfold zlen in *; by rewrite length_insert|].
  replace (Z.to_nat (top + 1)) with (S (Z.to_nat top)) by lia.
  rewrite (take_S_r _ _ j) by (apply list_lookup_insert_eq; unfold zlen in *; lia).
  rewrite take_insert_ge by lia. by rewrite reverse_app.
Qed.

(** Lines a job is responsible for, at least one, and the rounds it may take. *)
Definition load (j : ConquerJob) : Z :=
  if job_kind j =? JOB_EQUAL then 2 * eq_len j
  else Z.max 1 ((old_hi j - old_lo j) + (new_hi j - new_lo j)).
Definition weight (j : ConquerJob) : Z :=
  if job_kind j =? JOB_EQUAL then 1 else 2 * load j - 1.
Definition total (f : ConquerJob → Z) (pend : list ConquerJob) : Z :=
  foldr (λ j acc, f j + acc) 0 pend.

(** The jobs cover the rest of both texts in order. *)
Fixpoint tiles (oc nc : Z) (pend : list ConquerJob) : Prop :=
  match pend with
  | [] => oc ≤ zlen A ∧ nc ≤ zlen B
  | j :: rest =>
      if job_kind j =? JOB_EQUAL then
        run_ok A B {| old_start := eq_old j; new_start := eq_new j; run_len := eq_len j |} ∧
        oc ≤ eq_old j ∧ nc ≤ eq_new j ∧ tiles (eq_old j + eq_len j) (eq_new j + eq_len j) rest
      else
        oc ≤ old_lo j ≤ old_hi j ∧ nc ≤ new_lo j ≤ new_hi j ∧ tiles (old_hi j) (new_hi j) rest
  end.

Lemma tiles_in oc nc pend : tiles oc nc pend → oc ≤ zlen A ∧ nc ≤ zlen B.
Proof.
  revert oc nc. induction pend as [|j rest IH]; intros oc nc; cbn [tiles]; [done|].
  destruct (job_kind j =? JOB_EQUAL).
  - intros ((_ & _ & Hl & _) & ? & ? & Ht%IH). cbn in *. lia.
  - intros (? & ? & Ht%IH). lia.
Qed.

Lemma tiles_load oc nc pend :
  tiles oc nc pend → zlen pend ≤ total load pend.
Proof.
  revert oc nc. induction pend as [|j rest IH]; intros oc nc; cbn [tiles total foldr]; [done|].
  fold (total load rest). unfold load at 1. rewrite zlen_cons.
  destruct (job_kind j =? JOB_EQUAL).
  - intros ((_ & _ & Hl & _) & ? & ? & Ht%IH). cbn in *. lia.
  - intros (? & ? & Ht%IH). lia.
Qed.

Lemma tiles_weight oc nc pend : tiles oc nc pend → 0 ≤ total weight pend.
Proof.
  revert oc nc. induction pend as [|j rest IH]; intros oc nc; cbn [tiles total foldr]; [done|].
  fold (total weight rest). unfold weight at 1, load.
  destruct (job_kind j =? JOB_EQUAL).
  - intros (_ & ? & ? & Ht%IH). lia.
  - intros (? & ? & Ht%IH). lia.
Qed.

Context (HA : zlen A ≤ U32_MAX) (HB : zlen B ≤ U32_MAX).

(** What the loop keeps: [pend] on the stack, the vectors' length, work only, and
    everything before the cursor shown. *)
Definition conquest_inv (b0 : ResourceBudget) (s : Conquest) (pend : list ConquerJob) : Prop :=
  stacked (zlen A + zlen B + 8) (c_jobs s) (c_top s) pend ∧
  zlen (c_vf s) = 2 * max_d (zlen A) (zlen B) + 1 ∧ zlen (c_vb s) = zlen (c_vf s) ∧
  worked b0 (c_budget s) ∧ total load pend ≤ zlen A + zlen B + 1 ∧
  ∃ oc tr, 0 ≤ oc ∧ 0 ≤ c_cursor s ∧ shown A B oc (c_cursor s) tr ∧ I tr (c_visitor s) ∧
           tiles oc (c_cursor s) pend.

Lemma as_u32_small x : 0 ≤ x ≤ U32_MAX → as_u32 x = x.
Proof. intros. unfold as_u32, U32_MAX in *. apply Z.mod_small. lia. Qed.

(** The run that a common suffix gives. *)
Lemma suffix_run ol oh nl nh suffix :
  0 ≤ ol → 0 ≤ nl → 0 < suffix ≤ Z.min (oh - ol) (nh - nl) → oh ≤ zlen A → nh ≤ zlen B →
  (∀ i, 0 ≤ i < suffix → same A B (oh - 1 - i) (nh - 1 - i)) →
  run_ok A B {| old_start := oh - suffix; new_start := nh - suffix; run_len := suffix |}.
Proof.
  intros ? ? ? ? ? Hs. unfold run_ok; cbn. repeat (split; [lia|]). intros i Hi.
  specialize (Hs (suffix - 1 - i)).
  replace (oh - 1 - (suffix - 1 - i)) with (oh - suffix + i) in Hs by lia.
  replace (nh - 1 - (suffix - 1 - i)) with (nh - suffix + i) in Hs by lia. apply Hs. lia.
Qed.

(** The lines [ol..oh] and [nl..nh] after a common suffix is set aside: the stack
    with the suffix on it. *)
Definition suffix_jobs (oh nh suffix : Z) (rest : list ConquerJob) : list ConquerJob :=
  if 0 <? suffix then equal_job (oh - suffix) (nh - suffix) suffix :: rest else rest.

Lemma suffix_jobs_spec ol oh nl nh suffix rest :
  0 ≤ ol → 0 ≤ nl → 0 ≤ suffix ≤ Z.min (oh - ol) (nh - nl) →
  (∀ i, 0 ≤ i < suffix → same A B (oh - 1 - i) (nh - 1 - i)) → tiles oh nh rest →
  tiles (oh - suffix) (nh - suffix) (suffix_jobs oh nh suffix rest) ∧
  total load (suffix_jobs oh nh suffix rest) = 2 * suffix + total load rest ∧
  total weight (suffix_jobs oh nh suffix rest) ≤ Z.min 1 suffix + total weight rest.
Proof.
  intros Ho Hn Hs Heq Ht. destruct (tiles_in _ _ _ Ht). unfold suffix_jobs.
  destruct (Z.ltb_spec 0 suffix).
  - cbn [tiles total foldr equal_job job_kind eq_old eq_new eq_len]. unfold load at 1, weight at 1.
    cbn [equal_job job_kind eq_len]. rewrite !as_u32_small by lia. cbn [Z.eqb Pos.eqb JOB_EQUAL].
    change (JOB_EQUAL =? JOB_EQUAL) with true. cbv iota.
    split; [|split; unfold total; lia]. split; [apply (suffix_run ol oh nl nh); (done || lia)|].
    split; [lia|]. split; [lia|].
    replace (oh - suffix + suffix) with oh by lia. by replace (nh - suffix + suffix) with nh by lia.
  - assert (suffix = 0) as -> by lia. rewrite !Z.sub_0_r. split; [done|]. lia.
Qed.

Lemma tiles_mono oc nc oc' nc' pend :
  tiles oc nc pend → oc' ≤ oc → nc' ≤ nc → tiles oc' nc' pend.
Proof.
  destruct pend as [|j rest]; cbn [tiles]; [lia|]. destruct (job_kind j =? JOB_EQUAL).
  - intros (? & ? & ? & ?) ? ?. split; [done|]. split; [lia|]. by split; [lia|].
  - intros (? & ? & ?) ? ?. split; [lia|]. by split; [lia|].
Qed.

(** A state whose topmost job [j] has just been taken. *)
Definition popped (b0 : ResourceBudget) (s : Conquest) (j : ConquerJob) (rest : list ConquerJob) : Prop :=
  stacked (zlen A + zlen B + 8) (c_jobs s) (c_top s) rest ∧
  zlen (c_vf s) = 2 * max_d (zlen A) (zlen B) + 1 ∧ zlen (c_vb s) = zlen (c_vf s) ∧
  worked b0 (c_budget s) ∧ total load (j :: rest) ≤ zlen A + zlen B + 1 ∧
  ∃ oc tr, 0 ≤ oc ∧ 0 ≤ c_cursor s ∧ shown A B oc (c_cursor s) tr ∧ I tr (c_visitor s) ∧
           tiles oc (c_cursor s) (j :: rest).

(** Showing the common prefix, when there is one. *)
Lemma emit_prefix_spec ol nl prefix nc w tr oc b :
  shown A B oc nc tr → I tr w → 0 ≤ oc ≤ ol → 0 ≤ nc ≤ nl → 0 ≤ prefix →
  ol + prefix ≤ zlen A → nl + prefix ≤ zlen B →
  (∀ i, 0 ≤ i < prefix → same A B (ol + i) (nl + i)) →
  settles (if 0 <? prefix then
             '(w, cursor) ← emit_slid visit old new
                {| old_start := ol; new_start := nl; run_len := prefix |} nc w;
             Ok (ol + prefix, nl + prefix, w, cursor)
           else Ok (ol, nl, w, nc))
    (λ '(ol', nl', w', nc'), ol' = ol + prefix ∧ nl' = nl + prefix ∧ 0 ≤ nc' ≤ nl' ∧
       ∃ tr', shown A B ol' nc' tr' ∧ I tr' w') (diff_failed b).
Proof.
  intros Hs HI Ho Hn Hp HpA HpB Heq. destruct (Z.ltb_spec 0 prefix).
  - assert (run_ok A B {| old_start := ol; new_start := nl; run_len := prefix |}) as Hr
      by (unfold run_ok; cbn; repeat (split; [lia|]); done).
    step (emit_slid_spec _ nc w tr oc b Hs HI Hr) as Ha; [cbn; lia..| |done].
    destruct a as [w' nc']. cbn in *. destruct Ha as (-> & tr' & ? & ?).
    split; [done|]. split; [done|]. split; [lia|]. by exists tr'.
  - assert (prefix = 0) as -> by lia. cbn [settles]. rewrite !Z.add_0_r.
    split; [done|]. split; [done|]. split; [lia|]. exists tr. split; [|done].
    apply (shown_mono A B oc nc); [done|lia|lia].
Qed.

(** Pushing the suffix. *)
Lemma push_suffix_spec js top rest oh nh suffix b :
  stacked (zlen A + zlen B + 8) js top rest → zlen rest < zlen A + zlen B + 8 →
  settles (if 0 <? suffix
           then budgeted (E:=E) (push_job js top (equal_job (oh - suffix) (nh - suffix) suffix))
           else Ok (js, top))
    (λ '(js', top'), stacked (zlen A + zlen B + 8) js' top' (suffix_jobs oh nh suffix rest)) (diff_failed b).
Proof.
  intros Hs Hl. unfold suffix_jobs. destruct (0 <? suffix); [|done]. by apply push_job_spec.
Qed.

(** A divided range and its suffix are lighter than the range. *)
Lemma divided ol oh nl nh suffix p rest j :
  (job_kind j =? JOB_EQUAL) = false → oh - ol + (nh - nl) ≤ old_hi j - old_lo j + (new_hi j - new_lo j) →
  0 ≤ ol → 0 ≤ nl → 0 ≤ suffix ≤ Z.min (oh - ol) (nh - nl) →
  (∀ i, 0 ≤ i < suffix → same A B (oh - 1 - i) (nh - 1 - i)) → tiles oh nh rest →
  good_split ol (oh - suffix) nl (nh - suffix) p →
  let pend := range_job ol p.1 nl p.2 :: range_job p.1 (oh - suffix) p.2 (nh - suffix)
              :: suffix_jobs oh nh suffix rest in
  tiles ol nl pend ∧ total load pend ≤ total load (j :: rest) ∧
  total weight pend < total weight (j :: rest).
Proof.
  intros Ek Hsz Ho Hn Hs Heq Ht (Hp1 & Hp2 & Hp3) pend.
  destruct (tiles_in _ _ _ Ht) as [HoA HnB].
  destruct (suffix_jobs_spec ol oh nl nh suffix rest Ho Hn Hs Heq Ht) as (Hts & Hl & Hw).
  assert (load (range_job ol p.1 nl p.2) = p.1 - ol + (p.2 - nl)) as L1.
  { unfold load; cbn. rewrite !as_u32_small by lia. lia. }
  assert (load (range_job p.1 (oh - suffix) p.2 (nh - suffix)) = oh - suffix - p.1 + (nh - suffix - p.2)) as L2.
  { unfold load; cbn. rewrite !as_u32_small by lia. lia. }
  assert (load j = Z.max 1 (old_hi j - old_lo j + (new_hi j - new_lo j))) as Lj
    by (unfold load; by rewrite Ek).
  assert (∀ k, (job_kind k =? JOB_EQUAL) = false → weight k = 2 * load k - 1) as Wk
    by (intros k E'; unfold weight; by rewrite E').
  unfold pend, total. cbn [foldr]. fold (total load (suffix_jobs oh nh suffix rest)).
  fold (total weight (suffix_jobs oh nh suffix rest)). fold (total load rest). fold (total weight rest).
  rewrite !Wk by done. rewrite L1, L2, Hl. split; [|split; lia].
  cbn [tiles range_job job_kind old_lo old_hi new_lo new_hi]. rewrite !as_u32_small by lia.
  change (JOB_RANGE =? JOB_EQUAL) with false. cbv iota. split; [lia|]. split; [lia|].
  split; [lia|]. split; [lia|done].
Qed.

Lemma conquer_range_spec b0 s j rest :
  popped b0 s j rest → (job_kind j =? JOB_EQUAL) = false →
  settles (conquer_range visit old new j s)
    (λ s', ∃ pend, conquest_inv b0 s' pend ∧ total weight pend < total weight (j :: rest))
    (diff_failed b0).
Proof.
  intros (Hst & Hvf & Hvb & Hw & Hload & oc & tr & Hoc & Hcu & Hsh & HI & Ht) Ek.
  cbn [tiles] in Ht. rewrite Ek in Ht. destruct Ht as (Hol & Hnl & Ht).
  destruct (tiles_in _ _ _ Ht) as [HoA HnB]. pose proof (tiles_load _ _ _ Ht) as Hrest.
  assert (total load (j :: rest) = load j + total load rest) as El by done.
  assert (load j = Z.max 1 (old_hi j - old_lo j + (new_hi j - new_lo j))) as Lj
    by (unfold load; by rewrite Ek).
  unfold conquer_range. apply settles_bind.
  eapply settles_mono; [apply budgeted_settles, (diff_prefix_spec old new A B Hold Hnew); lia|..];
    [|intros e; by apply diff_failed_worked].
  intros [prefix b1] (Hw1 & Hp & Hpeq & Hpne). cbn [fst snd] in *.
  step (emit_prefix_spec (old_lo j) (new_lo j) prefix (c_cursor s) (c_visitor s) tr oc b0) as Ha;
    try done; try lia.
  destruct a as [[[ol nl] w] cur]. destruct Ha as (-> & -> & Hcur & tr1 & Hsh1 & HI1).
  set (ol := old_lo j + prefix) in *. set (nl := new_lo j + prefix) in *.
  apply settles_bind.
  eapply settles_mono; [apply budgeted_settles, (diff_suffix_spec old new A B Hold Hnew); lia|..];
    [|intros e; apply diff_failed_worked; by etransitivity].
  intros [suffix b2] (Hw2 & Hs & Hseq & Hsne). cbn [fst snd] in *.
  assert (worked b0 b2) as Hw02 by (etransitivity; [|exact Hw2]; by etransitivity).
  step usub_returns as ->; [lia|]. step usub_returns as ->; [lia|].
  assert (old_hi j - ol + (new_hi j - nl) ≤ old_hi j - old_lo j + (new_hi j - new_lo j)) as Hsz by lia.
  destruct ((old_hi j - suffix <=? ol) || (new_hi j - suffix <=? nl)) eqn:Eleaf.
  - step (push_suffix_spec (c_jobs s) (c_top s) rest (old_hi j) (new_hi j) suffix b0) as Hst'; [done|lia| |done].
    destruct a as [js top]. cbn [settles]. exists (suffix_jobs (old_hi j) (new_hi j) suffix rest).
    destruct (suffix_jobs_spec ol (old_hi j) nl (new_hi j) suffix rest) as (Hts & Hl & Hwt); try done; try lia.
    split; [|change (total weight (j :: rest)) with (weight j + total weight rest);
             unfold weight at 2; rewrite Ek; lia].
    split; [done|]. split; [done|]. split; [done|]. split; [done|]. cbn. split; [lia|].
    exists ol, tr1. split; [lia|]. split; [lia|]. split; [done|]. split; [done|].
    eapply tiles_mono; [exact Hts|lia|lia].
  - apply orb_false_iff in Eleaf as [El1%Z.leb_gt El2%Z.leb_gt].
    apply settles_bind.
    eapply settles_mono; [apply budgeted_settles, (find_middle_snake_spec old new A B); try done; try lia|..];
      [apply Hpne; lia| | |intros e; by apply diff_failed_worked].
    { replace (old_hi j - suffix - 1) with (old_hi j - 1 - suffix) by lia.
      replace (new_hi j - suffix - 1) with (new_hi j - 1 - suffix) by lia. apply Hsne. lia. }
    intros sn (Hv1 & Hv2 & Hw3 & p & -> & Hsplit).
    destruct (divided ol (old_hi j) nl (new_hi j) suffix p rest j) as (Hts & Hl & Hwt); try done; try lia.
    destruct p as [so sn_]. cbn [fst snd] in *.
    pose proof (tiles_load _ _ _ Hts) as Hlen. rewrite !zlen_cons in Hlen.
    step (push_suffix_spec (c_jobs s) (c_top s) rest (old_hi j) (new_hi j) suffix b0) as Hst1; [done|lia| |done].
    destruct a as [js1 top1].
    step (push_job_spec _ js1 top1 _ (range_job so (old_hi j - suffix) sn_ (new_hi j - suffix)) b0 Hst1) as Hst2;
      [lia| |done].
    destruct a as [js2 top2].
    step (push_job_spec _ js2 top2 _ (range_job ol so nl sn_) b0 Hst2) as Hst3; [rewrite zlen_cons; lia| |done].
    destruct a as [js3 top3]. cbn [settles]. eexists. split; [|exact Hwt].
    split; [exact Hst3|]. cbn [c_vf c_vb c_budget c_cursor c_visitor]. split; [congruence|]. split; [congruence|].
    split; [by etransitivity|]. split; [lia|].
    exists ol, tr1. split; [lia|]. split; [lia|]. split; [done|]. split; [done|].
    eapply tiles_mono; [exact Hts|lia|lia].
Qed.

Lemma conquer_loop_spec fuel b0 s pend :
  conquest_inv b0 s pend → total weight pend < Z.of_nat fuel →
  settles (conquer_loop visit fuel old new s) (λ s', conquest_inv b0 s' []) (diff_failed b0).
Proof.
  revert s pend. induction fuel as [|fuel IH]; intros s pend Hinv Hf.
  { destruct Hinv as (_ & _ & _ & _ & _ & oc & tr & _ & _ & _ & _ & Ht).
    pose proof (tiles_weight _ _ _ Ht). lia. }
  pose proof Hinv as (Hst & Hvf & Hvb & Hw & Hload & oc & tr & Hoc & Hcu & Hsh & HI & Ht).
  cbn [conquer_loop]. destruct (Z.ltb_spec 0 (c_top s)) as [Htop|Htop].
  - destruct (stacked_pop _ _ _ _ Hst Htop) as (j & rest & -> & Hj & Hst').
    rewrite Hj. cbn [mbind exec_bind]. apply settles_bind.
    eapply settles_mono with
      (Q := λ s', ∃ pend, conquest_inv b0 s' pend ∧ total weight pend < total weight (j :: rest));
      [|intros s' (pend & ? & ?); apply (IH s' pend); [done|lia]|done].
    destruct (job_kind j =? JOB_EQUAL) eqn:Ek.
    + cbn [tiles] in Ht. rewrite Ek in Ht. destruct Ht as (Hr & Ho & Hn & Ht).
      assert (0 < eq_len j) as Hl by apply Hr.
      destruct (Z.eqb_spec (eq_len j) 0); [lia|]. cbn [c_cursor c_visitor].
      step (emit_slid_spec _ (c_cursor s) (c_visitor s) tr oc b0 Hsh HI Hr) as Ha; [cbn; lia..| |done].
      destruct a as [w cur]. cbn in Ha. destruct Ha as (-> & tr' & ? & ?). cbn [settles].
      exists rest. split.
      * split; [done|]. split; [done|]. split; [done|]. split; [done|].
        split; [cbn [total foldr] in Hload; unfold load at 1 in Hload; rewrite Ek in Hload; unfold total; lia|].
        exists (eq_old j + eq_len j), tr'. cbn [c_cursor c_visitor].
        split; [lia|]. split; [lia|]. done.
      * cbn [total foldr]. unfold weight at 2. rewrite Ek. unfold total. lia.
    + apply conquer_range_spec; [|done].
      split; [done|]. split; [done|]. split; [done|]. split; [done|]. split; [done|].
      by exists oc, tr.
  - cbn [settles]. pose proof (stacked_zlen _ _ _ _ Hst) as Hz. destruct Hst as ([Htop' _] & _).
    rewrite (zlen_0_nil pend) in Hinv by lia. done.
Qed.

Lemma emit_equal_runs_spec vf vb js b w :
  zlen vf = 2 * max_d (zlen A) (zlen B) + 1 → zlen vb = zlen vf →
  zlen js = zlen A + zlen B + 8 → I [] w →
  settles (emit_equal_runs visit old new vf vb js b w)
    (λ '(b', w'), worked b b' ∧ ∃ tr, trace_ok A B tr ∧ I tr w') (diff_failed b).
Proof.
  intros Hvf Hvb Hjs HI. unfold emit_equal_runs. destruct (Z.eqb_spec (zlen js) 0); [zlia|].
  rewrite (proj1 Hold), (proj1 Hnew). pose proof (zlen_nonneg A). pose proof (zlen_nonneg B).
  assert (stacked (zlen A + zlen B + 8) js 0 []) as Hst by (split; [lia|done]).
  step (push_job_spec _ js 0 [] (range_job 0 (zlen A) 0 (zlen B)) b Hst) as Hst1; [rewrite zlen_nil; lia| |done].
  destruct a as [js1 top1].
  assert (load (range_job 0 (zlen A) 0 (zlen B)) = Z.max 1 (zlen A + zlen B)) as Hl.
  { unfold load; cbn. rewrite !as_u32_small by lia. lia. }
  step (conquer_loop_spec _ b _ [range_job 0 (zlen A) 0 (zlen B)]) as Hinv; [| | |done].
  - split; [done|]. split; [done|]. split; [done|]. split; [reflexivity|].
    split; [cbn [total foldr]; rewrite Hl; lia|]. exists 0, []. cbn [c_cursor c_visitor].
    split; [lia|]. split; [lia|]. split; [split; [split; constructor|constructor]|]. split; [done|].
    cbn. rewrite !as_u32_small by lia. lia.
  - cbn [total foldr]. unfold weight. change (job_kind (range_job 0 (zlen A) 0 (zlen B)) =? JOB_EQUAL) with false.
    cbv iota. rewrite Hl. unfold conquer_fuel. rewrite (proj1 Hold), (proj1 Hnew). lia.
  - cbn [settles]. destruct Hinv as (_ & _ & _ & ? & _ & oc & tr & _ & _ & [? _] & ? & _).
    split; [done|]. by exists tr.
Qed.
End slides.

(** ** The line scan *)
Lemma next_line_start_spec pre l t rest :
  (t = [10] ∨ t = [13; 10] ∨ t = [] ∧ rest = [] ∧ l ≠ []) →
  next_line_start (pre ++ l ++ t ++ rest) (zlen pre + zlen l) = Ok (zlen (pre ++ l ++ t)).
Proof.
  intros Ht. unfold next_line_start. rewrite (app_assoc pre l).
  destruct Ht as [->|[->|(-> & -> & _)]]; cbn [app].
  - destruct (Z.ltb_spec (zlen pre + zlen l) (zlen ((pre ++ l) ++ 10 :: rest))); [|zlia].
    rewrite index_app_middle by zlia. cbn [mbind exec_bind Z.eqb Pos.eqb].
    rewrite (proj2 (Z.ltb_lt _ _)) by lia.
    rewrite index_app_middle by zlia. cbn [mbind exec_bind Z.eqb Pos.eqb]. f_equal. zlia.
  - destruct (Z.ltb_spec (zlen pre + zlen l) (zlen ((pre ++ l) ++ 13 :: 10 :: rest))); [|zlia].
    rewrite index_app_middle by zlia. cbn [mbind exec_bind Z.eqb Pos.eqb].
    rewrite (proj2 (Z.ltb_lt _ _)) by zlia.
    replace ((pre ++ l) ++ 13 :: 10 :: rest) with (((pre ++ l) ++ [13]) ++ 10 :: rest) by (by rewrite <- app_assoc).
    rewrite index_app_middle by zlia. cbn [mbind exec_bind Z.eqb Pos.eqb]. f_equal. zlia.
  - rewrite !app_nil_r. destruct (Z.ltb_spec (zlen pre + zlen l) (zlen (pre ++ l))); [zlia|].
    cbn [mbind exec_bind]. destruct (Z.ltb_spec (zlen pre + zlen l) (zlen (pre ++ l))); [zlia|].
    f_equal. zlia.
Qed.

(** The first [n] offsets show the first [n] of the lines. *)
Definition offsets_ok (text : list Z) (ls : list (list Z)) (n : Z) (out : list LineOff) : Prop :=
  ∀ i, 0 ≤ i < n → ∃ off, out !! Z.to_nat i = Some off ∧ ∀ E, line_bytes (E:=E) text off = Ok (ln ls i).

Lemma fill_loop_spec pre rest out ls0 idx :
  zlen out = zlen ls0 → 0 ≤ idx → drop (Z.to_nat idx) ls0 = text_lines rest → idx ≤ zlen ls0 →
  offsets_ok (pre ++ rest) ls0 idx out →
  ∃ out', fill_loop (pre ++ rest) (text_lines rest) idx (zlen pre) idx out = Ok (Some (zlen ls0, out')) ∧
    zlen out' = zlen ls0 ∧ offsets_ok (pre ++ rest) ls0 (zlen ls0) out'.
Proof.
  remember (length rest) as n eqn:Hn. revert pre rest Hn out idx.
  induction n as [n IH] using lt_wf_ind. intros pre rest -> out idx Hz Hi Hd Hle Hok.
  assert (zlen ls0 = idx + zlen (text_lines rest)) as Hlen.
  { rewrite <- Hd. unfold zlen in *. rewrite length_drop. lia. }
  destruct (decide (rest = [])) as [->|Hne].
  { exists out. rewrite text_lines_nil, zlen_nil in *. cbn [fill_loop].
    split; [do 3 f_equal; lia|]. split; [done|]. by replace (zlen ls0) with idx by lia. }
  destruct (text_lines_cons rest Hne) as (l & t & rest' & -> & El & Ht). rewrite El in *.
  rewrite zlen_cons in Hlen. pose proof (zlen_nonneg (text_lines rest')).
  cbn [fill_loop]. destruct (Z.leb_spec (zlen out) idx); [lia|].
  unfold vec_set. rewrite (proj2 (Z.leb_le 0 idx)), (proj2 (Z.ltb_lt idx (zlen out))) by lia.
  cbn [andb mbind exec_bind]. rewrite next_line_start_spec by done. cbn [mbind exec_bind].
  set (out1 := <[Z.to_nat idx:=_]> out).
  assert (pre ++ l ++ t ++ rest' = (pre ++ l ++ t) ++ rest') as E' by (by rewrite <- !app_assoc).
  assert (0 < zlen l + zlen t) as Hpos.
  { destruct Ht as [->|[->|(-> & _ & Hl)]]; try zlia. destruct l; [done|]. zlia. }
  rewrite E'. apply (IH (length rest')); [|done| |lia| |lia|].
  - rewrite !length_app. unfold zlen in Hpos. lia.
  - unfold out1, zlen in *. by rewrite length_insert.
  - replace (Z.to_nat (idx + 1)) with (Z.to_nat idx + 1)%nat by lia. rewrite <- drop_drop, Hd. done.
  - intros i Hi'. unfold out1. destruct (decide (i = idx)) as [->|].
    + rewrite list_lookup_insert_eq by (unfold zlen in *; lia). eexists. split; [done|].
      intros E. unfold line_bytes; cbn. rewrite slice_ok by zlia.
      rewrite <- !app_assoc, sub_list_middle by zlia. f_equal. unfold ln, get.
      rewrite (proj2 (Z.leb_le 0 idx)) by lia.
      assert (ls0 !! Z.to_nat idx = Some l) as ->; [|done].
      rewrite <- (Nat.add_0_r (Z.to_nat idx)), <- lookup_drop, Hd. done.
    + rewrite list_lookup_insert_ne by lia. rewrite <- E'. apply Hok. lia.
Qed.

Lemma fill_line_offsets_spec text out :
  is_utf8 text = true → zlen out = zlen (text_lines text) →
  ∃ out', fill_line_offsets text out = Ok (Some (zlen (text_lines text), out')) ∧
    view_ok {| bytes := text; offs := out' |} (text_lines text).
Proof.
  intros Hu Hz. unfold fill_line_offsets. rewrite Hu.
  destruct (fill_loop_spec [] text out (text_lines text) 0) as (out' & E & Hz' & Hok);
    try done; try (apply zlen_nonneg); [intros i Hi; lia|].
  exists out'. cbn [app] in E. change (zlen (@nil Z)) with 0 in E. rewrite E. split; [done|]. split; [done|].
  intros E' i Hi. destruct (Hok i Hi) as (off & Hoff & Hl). unfold line_at, index. cbn [offs bytes].
  rewrite (proj2 (Z.leb_le 0 i)) by lia. rewrite Hoff. cbn [mbind exec_bind]. apply Hl.
Qed.

(** ** The scratch memory *)
Lemma align_up_aligned v a : v `mod` a = 0 → align_up v a = v.
Proof. intros Hm. unfold align_up. destruct (a <=? 1); [done|]. by rewrite Hm. Qed.

(** The layout for fewer than [2^32] lines: the regions follow each other. *)
Lemma layout_sizes_eq N M :
  0 ≤ N ≤ U32_MAX → 0 ≤ M ≤ U32_MAX →
  let L := 2 * max_d N M + 1 in
  layout_sizes N M =
    (16 * (N + M) + 16 * L + 32 * (N + M + 8),
     {| old_off := 0; new_off := 16 * N; vf := 16 * (N + M); vb := 16 * (N + M) + 8 * L;
        jobs := 16 * (N + M) + 16 * L; old_off_bytes := 16 * N; new_off_bytes := 16 * M;
        vf_bytes := 8 * L; vb_bytes := 8 * L; jobs_bytes := 32 * (N + M + 8) |}).
Proof.
  intros HN HM L. pose proof (max_d_eq N M HN HM) as Ed.
  assert (1 ≤ L ≤ 2 * (N + M) + 10) by (unfold L; rewrite Ed; plia).
  assert (∀ a b, 0 ≤ a ≤ 2 ^ 40 → 0 ≤ b ≤ 2 ^ 40 → saturating_add a b = a + b) as Sadd
    by (intros; unfold saturating_add, U64_MAX; lia).
  assert (∀ a b, 0 ≤ a * b ≤ 2 ^ 40 → saturating_mul a b = b * a) as Smul
    by (intros; unfold saturating_mul, U64_MAX; lia).
  unfold U32_MAX in *. unfold layout_sizes. fold L. cbv zeta.
  unfold size_of_LineOff, size_of_usize, size_of_ConquerJob, align_of_LineOff, align_of_usize,
    align_of_ConquerJob.
  rewrite (Smul N 16), (Smul M 16), (Smul L 8), (Sadd N M), (Sadd (N + M) 8), (Smul (N + M + 8) 32) by lia.
  rewrite (align_up_aligned 0) by done. rewrite (Sadd 0 (16 * N)) by lia. rewrite Z.add_0_l.
  rewrite (align_up_aligned (16 * N)) by plia. rewrite (Sadd (16 * N) (16 * M)) by lia.
  replace (16 * N + 16 * M) with (16 * (N + M)) by lia.
  rewrite (align_up_aligned (16 * (N + M))) by plia. rewrite (Sadd (16 * (N + M)) (8 * L)) by lia.
  rewrite (align_up_aligned (16 * (N + M) + 8 * L)) by plia.
  rewrite (Sadd (16 * (N + M) + 8 * L) (8 * L)) by lia.
  replace (16 * (N + M) + 8 * L + 8 * L) with (16 * (N + M) + 16 * L) by lia.
  rewrite (align_up_aligned (16 * (N + M) + 16 * L)) by plia.
  by rewrite (Sadd (16 * (N + M) + 16 * L) (32 * (N + M + 8))) by lia.
Qed.

(** The typed regions of the scratch memory: start, bytes, element size and
    alignment, number of elements. *)
Definition regions (l : ScratchLayout) (p : ScratchParts) : list (Z * Z * Z * Z * Z) :=
  [ (old_off l, old_off_bytes l, size_of_LineOff, align_of_LineOff, zlen (part_old_offs p));
    (new_off l, new_off_bytes l, size_of_LineOff, align_of_LineOff, zlen (part_new_offs p));
    (vf l, vf_bytes l, size_of_usize, align_of_usize, zlen (part_vf p));
    (vb l, vb_bytes l, size_of_usize, align_of_usize, zlen (part_vb p));
    (jobs l, jobs_bytes l, size_of_ConquerJob, align_of_ConquerJob, zlen (part_jobs p)) ].

(** A region lies inside the scratch memory, holds its elements exactly, and
    starts at an address aligned for them. *)
Definition region_ok (base needed : Z) (r : Z * Z * Z * Z * Z) : Prop :=
  let '(start, bytes, size, align, count) := r in
  0 ≤ start ∧ start + bytes ≤ needed ∧ bytes = count * size ∧ (base + start) `mod` align = 0.

(** The parts cut out for texts of [N] and [M] lines. *)
Definition parts_ok (N M : Z) (p : ScratchParts) : Prop :=
  zlen (part_old_offs p) = N ∧ zlen (part_new_offs p) = M ∧
  zlen (part_vf p) = 2 * max_d N M + 1 ∧ zlen (part_vb p) = 2 * max_d N M + 1 ∧
  zlen (part_jobs p) = N + M + 8.

Lemma raw_slice_ok {X} size align (z : X) base start count :
  0 < size → 0 ≤ count → (base + start) `mod` align = 0 →
  ∃ l, raw_slice size align z base start (size * count) = Ok l ∧ zlen l = count.
Proof.
  intros Hs Hc Hal. unfold raw_slice. rewrite Hal. cbn [negb Z.eqb].
  destruct (Z.eqb_spec size 0); [lia|]. eexists. split; [done|].
  unfold zlen. rewrite length_replicate. rewrite Z.mul_comm, Z.div_mul by lia. lia.
Qed.

Lemma align_scratch_spec addr len :
  0 ≤ len →
  match align_scratch addr len with
  | Ok pad => 0 ≤ pad < 8 ∧ pad ≤ len ∧ (addr + pad) `mod` 8 = 0
  | Err e => len < 7 ∧ kind e = ScratchBytes
  | _ => False
  end.
Proof.
  intros Hl. unfold align_scratch. change max_scratch_align with 8. change (8 <=? 1) with false. cbv iota.
  set (pad := (8 - addr `mod` 8) `mod` 8). assert (0 ≤ pad < 8 ∧ (addr + pad) `mod` 8 = 0) as [? ?]
    by (unfold pad; plia).
  destruct (Z.ltb_spec len pad); [cbn; split; [lia|done]|lia].
Qed.

Lemma partition_ok N M base :
  0 ≤ N ≤ U32_MAX → 0 ≤ M ≤ U32_MAX → base `mod` 8 = 0 →
  let '(needed, layout) := layout_sizes N M in
  ∃ p, partition base layout = Ok p ∧ parts_ok N M p ∧
    Forall (region_ok base needed) (regions layout p) ∧
    StronglySorted (λ a b, a.1.1.1.1 + a.1.1.1.2 ≤ b.1.1.1.1) (regions layout p).
Proof.
  intros HN HM Hb. rewrite layout_sizes_eq by done. set (L := 2 * max_d N M + 1).
  assert (0 ≤ L) as HL by (unfold L; rewrite max_d_eq by done; plia).
  unfold partition. cbn [old_off new_off vf vb jobs old_off_bytes new_off_bytes vf_bytes vb_bytes jobs_bytes].
  unfold size_of_LineOff, size_of_usize, size_of_ConquerJob, align_of_LineOff, align_of_usize, align_of_ConquerJob.
  edestruct (raw_slice_ok 16 8 zero_off base 0 N) as (l1 & -> & H1); [lia|lia|by rewrite Z.add_0_r|].
  edestruct (raw_slice_ok 16 8 zero_off base (16 * N) M) as (l2 & -> & H2); [lia|lia|plia|].
  edestruct (raw_slice_ok 8 8 0 base (16 * (N + M)) L) as (l3 & -> & H3); [lia|lia|plia|].
  edestruct (raw_slice_ok 8 8 0 base (16 * (N + M) + 8 * L) L) as (l4 & -> & H4); [lia|lia|plia|].
  edestruct (raw_slice_ok 32 4 zero_job base (16 * (N + M) + 16 * L) (N + M + 8)) as (l5 & -> & H5);
    [lia|lia|plia|].
  cbn [mbind exec_bind]. eexists. split; [done|]. split; [done|].
  unfold regions. cbn [old_off new_off vf vb jobs old_off_bytes new_off_bytes vf_bytes vb_bytes jobs_bytes
    part_old_offs part_new_offs part_vf part_vb part_jobs]. rewrite H1, H2, H3, H4, H5.
  unfold size_of_LineOff, size_of_usize, size_of_ConquerJob, align_of_LineOff, align_of_usize, align_of_ConquerJob.
  split; repeat constructor; cbn; try lia; plia.
Qed.

(** What a failed visit says. *)
Definition visit_failed {E} (Er : E → Prop) (old new : list Z) (len : Z) (b : ResourceBudget)
    (e : LineDiffError E) : Prop :=
  match e with
  | InvalidUtf8 => is_utf8 old = false ∨ is_utf8 new = false
  | Visitor e => Er e
  | BudgetExceeded x =>
      match kind x with
      | Lines => limit b Lines < Z.max (zlen (text_lines old)) (zlen (text_lines new))
      | ScratchBytes =>
          Z.min len (limit b ScratchBytes)
          < scratch_bytes_for_line_counts (zlen (text_lines old)) (zlen (text_lines new))
      | Work => limit b Work < U64_MAX
      | _ => False
      end
  end.

Lemma grows_limit b b' k : grows b b' → limit b' k = limit b k.
Proof. intros [Hl _]. unfold limit. by rewrite Hl. Qed.

Lemma require_settles {E} b k v :
  settles (budgeted (E:=E) (require b k v)) (grows b)
    (λ e, match e with BudgetExceeded x => kind x = k ∧ limit b k < v | _ => False end).
Proof.
  pose proof (require_spec b k v) as H. destruct (require b k v) as [b'|x| |]; cbn in *; [by destruct H|..|done|done].
  destruct H as ([Hl Hlt] & <- & <-). split; [done|]. by rewrite <- Hl.
Qed.

Lemma scratch_bytes_eq N M :
  0 ≤ N ≤ U32_MAX → 0 ≤ M ≤ U32_MAX →
  scratch_bytes_for_line_counts N M = 16 * (N + M) + 16 * (2 * max_d N M + 1) + 32 * (N + M + 8) + 7.
Proof.
  intros HN HM. unfold scratch_bytes_for_line_counts. rewrite layout_sizes_eq, max_d_eq by done.
  unfold saturating_add, saturating_sub, max_scratch_align, align_of_LineOff, align_of_usize,
    align_of_ConquerJob, U64_MAX, U32_MAX in *. plia.
Qed.

Lemma max_d_pos N M : 1 ≤ max_d N M ∨ N + M < -1.
Proof. unfold max_d, saturating_add, div_ceil, U64_MAX. plia. Qed.

Lemma visit_lcs_spec {E W} (visit : W → EqualRun → exec E W) I Er old new addr len b w :
  let A := text_lines old in
  let B := text_lines new in
  (∀ tr w r, I tr w → trace_ok A B (tr ++ [r]) → settles (visit w r) (λ w', I (tr ++ [r]) w') Er) →
  zlen A ≤ U32_MAX → zlen B ≤ U32_MAX → 0 ≤ len → I [] w →
  settles (visit_lcs_equal_runs visit old new addr len b w)
    (λ '(usage, b', w'), is_utf8 old = true ∧ is_utf8 new = true ∧ usage = used b' ∧ grows b b' ∧
       ∃ tr, trace_ok A B tr ∧ I tr w')
    (visit_failed Er old new len b).
Proof.
  intros A B Hvisit HA HB Hlen HI. pose proof (zlen_nonneg A). pose proof (zlen_nonneg B).
  unfold visit_lcs_equal_runs, count_text_lines. fold A B.
  destruct (is_utf8 old) eqn:Uo; [|by left]. destruct (is_utf8 new) eqn:Un; [|by right].
  cbn [ok_or mbind exec_bind].
  pose proof (scratch_bytes_eq (zlen A) (zlen B) ltac:(lia) ltac:(lia)) as Escr.
  step (require_settles (E:=E) b Lines (zlen A)) as Hg1; [|intros [|x|] He; try done; destruct He as [Ek He]; cbn [visit_failed]; fold A B; rewrite Ek; lia]. rename a into b1.
  step (require_settles (E:=E) b1 Lines (zlen B)) as Hg2;
    [|intros [|x|] He; try done; destruct He as [Ek He]; cbn [visit_failed]; fold A B; rewrite Ek;
      rewrite (grows_limit _ _ _ Hg1) in He; lia]. rename a into b2.
  pose proof (align_scratch_spec addr len Hlen) as Hal.
  destruct (align_scratch addr len) as [pad|e| |]; cbn [budgeted mbind exec_bind settles]; [|..|done|done]; cycle 1.
  { cbn [visit_failed]. destruct Hal as [Hal ->]. fold A B. rewrite Escr. pose proof (max_d_pos (zlen A) (zlen B)). lia. }
  destruct Hal as (Hpad & Hfit & Hbase).
  pose proof (partition_ok (zlen A) (zlen B) (addr + pad)) as Hpart.
  rewrite layout_sizes_eq in * by lia. set (L := 2 * max_d (zlen A) (zlen B) + 1) in *.
  step (require_settles (E:=E) b2 ScratchBytes (pad + (16 * (zlen A + zlen B) + 16 * L + 32 * (zlen A + zlen B + 8)))) as Hg3;
    [|intros [|x|] He; try done; destruct He as [Ek He]; cbn [visit_failed]; fold A B; rewrite Ek, Escr;
      rewrite (grows_limit _ _ _ Hg2), (grows_limit _ _ _ Hg1) in He; lia].
  rename a into b3. unfold require_scratch.
  destruct (Z.ltb_spec (len - pad) (16 * (zlen A + zlen B) + 16 * L + 32 * (zlen A + zlen B + 8)));
    [cbn [visit_failed budgeted mbind exec_bind settles kind]; fold A B; rewrite Escr; lia|]. cbn [budgeted mbind exec_bind].
  destruct Hpart as (p & -> & (P1 & P2 & P3 & P4 & P5) & _ & _); [lia|lia|done|].
  cbn [budgeted mbind exec_bind].
  destruct (fill_line_offsets_spec old (part_old_offs p) Uo P1) as (o1 & -> & V1).
  destruct (fill_line_offsets_spec new (part_new_offs p) Un P2) as (o2 & -> & V2).
  cbn [lift ok_or mbind exec_bind]. rewrite !Z.eqb_refl. cbn [negb orb].
  apply settles_bind.
  eapply settles_mono; [eapply (emit_equal_runs_spec _ _ A B V1 V2 visit I Er Hvisit HA HB); try done; congruence|..].
  - intros [b4 w'] (Hw & tr & ? & ?). cbn [settles]. split; [done|]. split; [done|]. split; [done|].
    split; [|by exists tr]. do 3 (etransitivity; [eassumption|]). by destruct Hw.
  - intros [|e|e]; cbn [diff_failed visit_failed]; [done| |done]. intros ((El & Hlt) & Ek & Hle).
    rewrite Ek in *. rewrite El in Hlt.
    rewrite (grows_limit _ _ _ Hg3), (grows_limit _ _ _ Hg2), (grows_limit _ _ _ Hg1) in Hlt. lia.
Qed.

(** The visitor shown the runs of a trace one after the other. *)
Fixpoint visits {E W} (visit : W → EqualRun → exec E W) (w : W) (tr : list EqualRun) : exec E W :=
  match tr with
  | [] => Ok w
  | r :: tr => w ← visit w r; visits visit w tr
  end.

Lemma visits_snoc {E W} (visit : W → EqualRun → exec E W) w tr r :
  visits visit w (tr ++ [r]) = w ← visits visit w tr; visit w r.
Proof.
  revert w. induction tr as [|x tr IH]; intros w; cbn [app visits].
  - cbn [mbind exec_bind]. by destruct (visit w r).
  - destruct (visit w x); cbn [mbind exec_bind]; [apply IH|done..].
Qed.

Lemma trace_ok_last A B tr r : trace_ok A B (tr ++ [r]) → run_ok A B r.
Proof. intros [H _ _ _]. apply Forall_app in H as [_ H]. by apply Forall_cons in H as [? _]. Qed.

(** C30. Soundness of the line diff: on arbitrary bytes, scratch memory and budget
    the visit terminates without panic (for a visitor that does), and the visitor
    has been shown a trace of runs that are equal lines of the two texts, disjoint
    and in order in the old text, in order in the new text, and disjoint there too
    if the last line of the new text is unique; the budget only grows and within
    its limits.  An error is the visitor's own on such a trace, a text that is not
    UTF-8, too many lines, too little scratch memory, or a work limit below the
    maximum. *)
Theorem visit_lcs_sound {E W} (visit : W → EqualRun → exec E W) old new addr len b w :
  let A := text_lines old in
  let B := text_lines new in
  zlen A ≤ U32_MAX → zlen B ≤ U32_MAX → 0 ≤ len →
  (∀ w r, run_ok A B r → settles (visit w r) (λ _, True) (λ _, True)) →
  settles (visit_lcs_equal_runs visit old new addr len b w)
    (λ '(usage, b', w'), is_utf8 old = true ∧ is_utf8 new = true ∧ usage = used b' ∧ grows b b' ∧
       ∃ tr, trace_ok A B tr ∧ visits visit w tr = Ok w')
    (visit_failed (λ e, ∃ tr, trace_ok A B tr ∧ visits visit w tr = Err e) old new len b).
Proof.
  intros A B HA HB Hlen Hv.
  apply (visit_lcs_spec visit (λ tr w', visits visit w tr = Ok w')); try done.
  intros tr w' r Ew Ht. pose proof (Hv w' r (trace_ok_last _ _ _ _ Ht)) as H.
  assert (visits visit w (tr ++ [r]) = visit w' r) as E' by (by rewrite visits_snoc, Ew).
  destruct (visit w' r) eqn:Er; cbn in *; [done|by exists (tr ++ [r])|done|done].
Qed.
Lemma visit_lcs_sound_witness :
  let visit := λ (w : list EqualRun) (r : EqualRun), Ok (E:=Empty_set) (w ++ [r]) in
  let old := [97; 10; 98; 10] in
  let new := [98; 10; 99] in
  settles (visit_lcs_equal_runs visit old new 3 2000 unlimited [])
    (λ '(usage, b', w'), is_utf8 old = true ∧ is_utf8 new = true ∧ usage = used b' ∧ grows unlimited b' ∧
       ∃ tr, trace_ok (text_lines old) (text_lines new) tr ∧ visits visit [] tr = Ok w')
    (visit_failed (λ e, ∃ tr, trace_ok (text_lines old) (text_lines new) tr ∧ visits visit [] tr = Err e)
       old new 2000 unlimited).
Proof. intros visit old new. apply visit_lcs_sound; vm_compute; done. Defined.

(** C31. The line diff succeeds with the scratch memory its own estimate asks for:
    on UTF-8 texts, with [scratch_bytes_for_line_counts] bytes at any address, line
    and scratch limits that admit them and no work limit, a visitor that cannot
    fail is shown a whole trace and the visit returns the usage. *)
Theorem visit_lcs_complete {W} (f : W → EqualRun → W) old new addr len b w :
  let A := text_lines old in
  let B := text_lines new in
  let scratch := scratch_bytes_for_line_counts (zlen A) (zlen B) in
  zlen A ≤ U32_MAX → zlen B ≤ U32_MAX → is_utf8 old = true → is_utf8 new = true →
  scratch ≤ len → scratch ≤ limit b ScratchBytes → Z.max (zlen A) (zlen B) ≤ limit b Lines →
  U64_MAX ≤ limit b Work →
  returns (visit_lcs_equal_runs (λ w r, Ok (E:=Empty_set) (f w r)) old new addr len b w)
    (λ '(usage, b', w'), usage = used b' ∧ grows b b' ∧ ∃ tr, trace_ok A B tr ∧ w' = fold_left f tr w).
Proof.
  intros A B scratch HA HB Uo Un Hlen Hsc Hli Hwo. subst scratch A B.
  assert (0 ≤ len) as Hl.
  { pose proof (zlen_nonneg (text_lines old)). pose proof (zlen_nonneg (text_lines new)).
    rewrite scratch_bytes_eq, max_d_eq in Hlen by lia. plia. }
  assert (settles (visit_lcs_equal_runs (λ w r, Ok (E:=Empty_set) (f w r)) old new addr len b w)
    (λ '(usage, b', w'), is_utf8 old = true ∧ is_utf8 new = true ∧ usage = used b' ∧ grows b b' ∧
       ∃ tr, trace_ok (text_lines old) (text_lines new) tr ∧ w' = fold_left f tr w)
    (visit_failed (λ _, False) old new len b)) as H.
  { apply (visit_lcs_spec _ (λ tr w', w' = fold_left f tr w)); try done.
    intros tr w' r -> _. cbn [settles]. by rewrite fold_left_app. }
  revert H. destruct (visit_lcs_equal_runs _ _ _ _ _ _ _) as [[[u b'] w']|[|x|[]]| |]; cbn [settles returns]; try done.
  - by intros (_ & _ & ?).
  - intros [?|?]; congruence.
  - cbn [visit_failed]. destruct (kind x); try done; lia.
Qed.
Lemma visit_lcs_complete_witness :
  let f := λ (w : list EqualRun) (r : EqualRun), w ++ [r] in
  let old := [97; 10; 98; 10] in
  let new := [98; 10; 99] in
  returns (visit_lcs_equal_runs (λ w r, Ok (E:=Empty_set) (f w r)) old new 3 2000 unlimited [])
    (λ '(usage, b', w'), usage = used b' ∧ grows unlimited b' ∧
       ∃ tr, trace_ok (text_lines old) (text_lines new) tr ∧ w' = fold_left f tr []).
Proof. intros f old new. apply visit_lcs_complete; vm_compute; done. Defined.

(** Termination of the divide step: on a box of the two texts without a common
    first or last line, the search returns a split into two strictly smaller boxes
    unless the work budget ends; its answer [None], which the caller reports as an
    exhausted budget, never occurs, and no index into the vectors is out of range. *)
Theorem middle_snake_splits old new A B os oe ns ne vf vb b :
  view_ok old A → view_ok new B → zlen A ≤ U32_MAX → zlen B ≤ U32_MAX →
  0 ≤ os < oe → oe ≤ zlen A → 0 ≤ ns < ne → ne ≤ zlen B →
  ln A os ≠ ln B ns → ln A (oe - 1) ≠ ln B (ne - 1) →
  zlen vf = 2 * max_d (zlen A) (zlen B) + 1 → zlen vb = zlen vf →
  settles (find_middle_snake old os oe new ns ne vf vb b)
    (λ s, ∃ so sn, split s = Some (so, sn) ∧ os ≤ so ≤ oe ∧ ns ≤ sn ≤ ne ∧
       0 < (so - os) + (sn - ns) < (oe - os) + (ne - ns))
    (λ e, kind e = Work ∧ limit b Work < needed e).
Proof.
  intros. eapply settles_mono; [by apply (find_middle_snake_spec old new A B)|..].
  - intros s (_ & _ & _ & [so sn] & E & Hp). exists so, sn. split; [done|].
    unfold good_split in Hp. cbn in Hp. lia.
  - intros e ([Hl ?] & E & _). split; [done|]. by rewrite <- E, <- Hl.
Qed.
Lemma middle_snake_splits_witness :
  let old := {| bytes := [97; 98]; offs := [{| start := 0; len := 1 |}; {| start := 1; len := 1 |}] |} in
  let new := {| bytes := [98; 99]; offs := [{| start := 0; len := 1 |}; {| start := 1; len := 1 |}] |} in
  settles (find_middle_snake old 0 2 new 0 2 (replicate 7 0) (replicate 7 0) unlimited)
    (λ s, ∃ so sn, split s = Some (so, sn) ∧ 0 ≤ so ≤ 2 ∧ 0 ≤ sn ≤ 2 ∧
       0 < (so - 0) + (sn - 0) < (2 - 0) + (2 - 0))
    (λ e, kind e = Work ∧ limit unlimited Work < needed e).
Proof.
  intros old new. apply (middle_snake_splits old new [[97]; [98]] [[98]; [99]]); try (vm_compute; done).
  - split; [done|]. intros E i Hi. assert (i = 0 ∨ i = 1) as [->| ->] by (unfold zlen in Hi; cbn [length] in Hi; lia); reflexivity.
  - split; [done|]. intros E i Hi. assert (i = 0 ∨ i = 1) as [->| ->] by (unfold zlen in Hi; cbn [length] in Hi; lia); reflexivity.
Defined.

(** The scratch memory is cut up safely: for any address and length that
    [align_scratch] accepts, the regions lie inside the memory after the padding,
    follow each other without overlap, are aligned for their element type, and
    hold exactly the vectors the diff needs; so the casts of the code are in bounds
    and its alignment checks cannot fail. *)
Theorem scratch_regions_safe N M addr len pad :
  0 ≤ N ≤ U32_MAX → 0 ≤ M ≤ U32_MAX → 0 ≤ len → align_scratch addr len = Ok pad →
  let '(needed, layout) := layout_sizes N M in
  (scratch_bytes_for_line_counts N M ≤ len → pad + needed ≤ len) ∧
  ∃ p, partition (addr + pad) layout = Ok p ∧ parts_ok N M p ∧
    Forall (region_ok (addr + pad) needed) (regions layout p) ∧
    StronglySorted (λ a b, a.1.1.1.1 + a.1.1.1.2 ≤ b.1.1.1.1) (regions layout p).
Proof.
  intros HN HM Hl Hal. pose proof (align_scratch_spec addr len Hl) as H. rewrite Hal in H.
  destruct H as (Hp & _ & Hb). pose proof (partition_ok N M (addr + pad) HN HM Hb) as Hpart.
  rewrite scratch_bytes_eq by done. rewrite layout_sizes_eq in * by done. split; [lia|done].
Qed.
Lemma scratch_regions_safe_witness :
  align_scratch 5 2000 = Ok 3 ∧
  ∃ p, partition (5 + 3) (layout_sizes 2 1).2 = Ok p ∧ parts_ok 2 1 p ∧
    Forall (region_ok (5 + 3) (layout_sizes 2 1).1) (regions (layout_sizes 2 1).2 p) ∧
    StronglySorted (λ a b, a.1.1.1.1 + a.1.1.1.2 ≤ b.1.1.1.1) (regions (layout_sizes 2 1).2 p).
Proof.
  split; [reflexivity|].
  exact (proj2 (scratch_regions_safe 2 1 5 2000 3 ltac:(done) ltac:(done) ltac:(done) eq_refl)).
Defined.

(** Two runs can claim the same line of the new text: for the old lines q, a,
    z, a and the new lines r, a, a, the run of the first a is shifted right onto
    the last new line, which the run of the second a holds already, and the new
    line in between is claimed by none. *)
Theorem runs_can_overlap :
  ∃ usage b,
    visit_lcs_equal_runs (λ w r, Ok (E:=Empty_set) (w ++ [r]))
      [113; 10; 97; 10; 122; 10; 97; 10] [114; 10; 97; 10; 97; 10] 0
      (scratch_bytes_for_line_counts 4 3) unlimited []
    = Ok (usage, b,
          [{| old_start := 1; new_start := 2; run_len := 1 |};
           {| old_start := 3; new_start := 2; run_len := 1 |}]).
Proof. eexists _, _. vm_compute. reflexivity. Qed.
