(* ===== verification/Repack.v ===== *)
(** * Background repack scheduling ([crates/pack/src/store/pack/repack])

    Module [Repack] models the trigger policy ([policy.rs]) and the scheduler
    ([scheduler.rs], [types.rs]).  The scheduler's state is the record behind its
    mutex; the three critical sections are functions on it (admission of a
    request, rollback when the thread cannot be spawned, the end of an attempt),
    and the threads are the interleaving of these steps with the set of live
    workers.  Instants and durations are nanoseconds, read from the clock as
    arguments of the steps; an instant beyond the clock's range is not modelled.
    The work of an operation, its sleeping and its I/O accounting are outside the
    model: an attempt ends with success or failure (a panic of the operation is
    caught and is a failure). *)

From S2P Require Import Prelude.

Module Repack.

(** ** [policy.rs] *)
Record RepackInventory := {
  loose_objects : Z; loose_bytes : Z; pack_count : Z; pack_bytes : Z;
  duplicate_objects : Z; packed_objects : Z
}.

Definition fragmentation_bps (v : RepackInventory) : Z :=
  if packed_objects v =? 0 then 0
  else
    let bps := saturating_mul (duplicate_objects v) 10000 / packed_objects v in
    Z.min bps 10000.

Inductive RepackReason :=
| Manual
| LooseObjects (count : Z)
| PackCount (count : Z)
| PackBytes (bytes : Z)
| Fragmentation (basis_points : Z).

Record RepackPolicy := {
  loose_object_threshold : option Z;
  pack_count_threshold : option Z;
  pack_bytes_threshold : option Z;
  fragmentation_threshold_bps : option Z
}.

Definition default_policy : RepackPolicy :=
  {| loose_object_threshold := Some 10000; pack_count_threshold := Some 8;
     pack_bytes_threshold := Some (1024 * 1024 * 1024);
     fragmentation_threshold_bps := Some 1500 |}.

(** [threshold.is_some_and(|threshold| value >= threshold)] *)
Definition reached (threshold : option Z) (value : Z) : bool :=
  match threshold with Some t => t <=? value | None => false end.

Definition evaluate (p : RepackPolicy) (v : RepackInventory) : option RepackReason :=
  if reached (loose_object_threshold p) (loose_objects v) then Some (LooseObjects (loose_objects v))
  else if reached (pack_count_threshold p) (pack_count v) then Some (PackCount (pack_count v))
  else if (1 <? pack_count v) && reached (pack_bytes_threshold p) (pack_bytes v)
  then Some (PackBytes (pack_bytes v))
  else
    let fragmentation := fragmentation_bps v in
    if reached (fragmentation_threshold_bps p) fragmentation then Some (Fragmentation fragmentation)
    else None.

(** ** [types.rs] *)
Inductive RepackError := Cancelled | Operation (message : string) | WorkerPanicked.

(** The answer to a request; [Started] stands for the handle of the thread. *)
Inductive RepackSchedule :=
| Started
| NotNeeded (inventory : RepackInventory)
| BackingOff (remaining : Z)
| Busy.

(** ** [scheduler.rs] *)
Record SchedulerState := {
  running : gset string;
  next_attempt : gmap string Z;
  failure_count : gmap string Z
}.
Definition initial_state : SchedulerState :=
  {| running := ∅; next_attempt := ∅; failure_count := ∅ |}.

(** Concurrency limit and the three backoff windows. *)
Record RepackScheduler := {
  policy : RepackPolicy;
  max_concurrent_operations : Z;
  success_backoff : Z;
  failure_backoff : Z;
  maximum_failure_backoff : Z
}.

Definition SECOND : Z := 1000000000.
Definition scheduler_new (p : RepackPolicy) (max_concurrent : Z) : RepackScheduler :=
  {| policy := p; max_concurrent_operations := max_concurrent;
     success_backoff := 30 * 60 * SECOND; failure_backoff := 30 * SECOND;
     maximum_failure_backoff := 30 * 60 * SECOND |}.

Definition with_backoff (s : RepackScheduler) (success initial_failure maximum_failure : Z)
  : RepackScheduler :=
  {| policy := policy s; max_concurrent_operations := max_concurrent_operations s;
     success_backoff := success; failure_backoff := initial_failure;
     maximum_failure_backoff := Z.max maximum_failure initial_failure |}.

(** The admission of [start], under the lock. *)
Definition admit_request (s : RepackScheduler) (st : SchedulerState) (key : string)
    (bypass_backoff : bool) (now : Z) : SchedulerState * RepackSchedule :=
  if bool_decide (key ∈ running st)
     || (max_concurrent_operations s <=? Z.of_nat (size (running st)))
  then (st, Busy)
  else
    match (if bypass_backoff then None else next_attempt st !! key) with
    | Some next =>
        if now <? next then (st, BackingOff (next - now))
        else
          ({| running := {[key]} ∪ running st; next_attempt := next_attempt st;
              failure_count := failure_count st |}, Started)
    | None =>
        ({| running := {[key]} ∪ running st; next_attempt := next_attempt st;
            failure_count := failure_count st |}, Started)
    end.

(** The rollback of [start] when the worker thread cannot be spawned. *)
Definition spawn_failed (st : SchedulerState) (key : string) : SchedulerState :=
  {| running := running st ∖ {[key]}; next_attempt := next_attempt st;
     failure_count := failure_count st |}.

(** [Duration::MAX] in nanoseconds. *)
Definition DURATION_MAX : Z := U64_MAX * SECOND + (SECOND - 1).
Definition duration_checked_mul (d k : Z) : option Z :=
  if d * k <=? DURATION_MAX then Some (d * k) else None.
(** [2u32.saturating_pow(n)] *)
Definition pow2_saturating (n : Z) : Z := Z.min U32_MAX (2 ^ n).

Definition failure_delay (s : RepackScheduler) (failures : Z) : Z :=
  Z.min
    (default (maximum_failure_backoff s)
       (duration_checked_mul (failure_backoff s) (pow2_saturating (saturating_sub failures 1))))
    (maximum_failure_backoff s).

Definition finish_attempt (s : RepackScheduler) (st : SchedulerState) (key : string)
    (is_ok : bool) (now : Z) : SchedulerState :=
  let running := running st ∖ {[key]} in
  if is_ok then
    {| running := running; next_attempt := <[key := now + success_backoff s]> (next_attempt st);
       failure_count := delete key (failure_count st) |}
  else
    let failures := Z.min U32_MAX (default 0 (failure_count st !! key) + 1) in
    {| running := running;
       next_attempt := <[key := now + failure_delay s failures]> (next_attempt st);
       failure_count := <[key := failures]> (failure_count st) |}.

(** [schedule_if_needed], [operation.inspect()] having answered [inventory]. *)
Definition schedule_if_needed (s : RepackScheduler) (st : SchedulerState) (key : string)
    (inventory : RepackInventory + RepackError) (now : Z)
  : SchedulerState * (RepackSchedule + RepackError) :=
  match inventory with
  | inr e => (st, inr e)
  | inl inventory =>
      match evaluate (policy s) inventory with
      | None => (st, inl (NotNeeded inventory))
      | Some _ => let '(st, r) := admit_request s st key false now in (st, inl r)
      end
  end.
Definition repack_now (s : RepackScheduler) (st : SchedulerState) (key : string) (now : Z)
  : SchedulerState * RepackSchedule := admit_request s st key true now.

(** ** The threads

    [live] are the workers between their admission and the end of their attempt;
    [streak] is the number of failures of a key since its last success, and
    [ended] when its last attempt ended and how: both are only observed. *)
Record world := {
  st : SchedulerState;
  live : list string;
  streak : gmap string Z;
  ended : gmap string (Z * bool)
}.
Definition initial : world := {| st := initial_state; live := []; streak := ∅; ended := ∅ |}.

Inductive step (s : RepackScheduler) : world → world → Prop :=
| step_schedule w key inventory now st' r :
    schedule_if_needed s (st w) key inventory now = (st', r) → r ≠ inl Started →
    step s w {| st := st'; live := live w; streak := streak w; ended := ended w |}
| step_schedule_started w key inventory now st' :
    schedule_if_needed s (st w) key inventory now = (st', inl Started) →
    step s w {| st := st'; live := key :: live w; streak := streak w; ended := ended w |}
| step_now w key now st' r :
    repack_now s (st w) key now = (st', r) → r ≠ Started →
    step s w {| st := st'; live := live w; streak := streak w; ended := ended w |}
| step_now_started w key now st' :
    repack_now s (st w) key now = (st', Started) →
    step s w {| st := st'; live := key :: live w; streak := streak w; ended := ended w |}
| step_spawn_failed w l1 key l2 :
    live w = l1 ++ key :: l2 →
    step s w {| st := spawn_failed (st w) key; live := l1 ++ l2; streak := streak w; ended := ended w |}
| step_finish w l1 key l2 is_ok now :
    live w = l1 ++ key :: l2 →
    step s w {| st := finish_attempt s (st w) key is_ok now; live := l1 ++ l2;
                streak := (if is_ok then delete key (streak w)
                           else <[key := default 0 (streak w !! key) + 1]> (streak w));
                ended := <[key := (now, is_ok)]> (ended w) |}.

Definition reachable (s : RepackScheduler) : world → Prop := rtc (step s) initial.

End Repack.

Import Repack.

(** ** The invariant *)
Record inv (s : RepackScheduler) (w : world) : Prop := {
  inv_nodup : NoDup (live w);
  inv_running : ∀ key, key ∈ running (st w) ↔ key ∈ live w;
  inv_bound : Z.of_nat (length (live w)) ≤ max_concurrent_operations s;
  inv_count : ∀ key, failure_count (st w) !! key = (λ n, Z.min U32_MAX n) <$> (streak w !! key);
  inv_positive : ∀ key n, streak w !! key = Some n → 0 < n;
  inv_next : ∀ key, next_attempt (st w) !! key =
    (λ '(t, ok), t + (if ok : bool then success_backoff s
                      else failure_delay s (Z.min U32_MAX (default 0 (streak w !! key))))) <$> (ended w !! key);
  inv_ended : ∀ key t ok, ended w !! key = Some (t, ok) →
    match ok with true => streak w !! key = None | false => is_Some (streak w !! key) end
}.

Lemma size_running (g : gset string) (l : list string) :
  NoDup l → (∀ key, key ∈ g ↔ key ∈ l) → size g = length l.
Proof.
  intros Hn Hg. assert (g = list_to_set l) as -> by (apply set_eq; intros x; rewrite elem_of_list_to_set; apply Hg).
  by apply size_list_to_set.
Qed.

Lemma admit_request_spec s st0 key bypass now :
  let '(st1, r) := admit_request s st0 key bypass now in
  match r with
  | Started =>
      (key ∉ running st0) ∧ Z.of_nat (size (running st0)) < max_concurrent_operations s ∧
      st1 = {| running := {[key]} ∪ running st0; next_attempt := next_attempt st0;
               failure_count := failure_count st0 |} ∧
      (bypass = true ∨ ∀ next, next_attempt st0 !! key = Some next → next ≤ now)
  | _ => st1 = st0
  end.
Proof.
  unfold admit_request. destruct (bool_decide_reflect (key ∈ running st0)); [done|].
  destruct (Z.leb_spec (max_concurrent_operations s) (Z.of_nat (size (running st0)))); [done|]. cbn [orb].
  destruct bypass; [by auto|].
  destruct (next_attempt st0 !! key) as [next|] eqn:Hn.
  - destruct (Z.ltb_spec now next); [done|]. split; [done|]. split; [done|]. split; [done|]. right. by intros ? [= <-].
  - split; [done|]. split; [done|]. split; [done|]. by right.
Qed.

Lemma inv_start s w key bypass now st' :
  inv s w → admit_request s (st w) key bypass now = (st', Started) →
  inv s {| st := st'; live := key :: live w; streak := streak w; ended := ended w |}.
Proof.
  intros Hw E. pose proof (admit_request_spec s (st w) key bypass now) as H. rewrite E in H.
  destruct H as (Hk & Hsz & -> & _). destruct Hw as [Hn Hr Hb Hc Hp Hx He].
  rewrite (size_running _ (live w)) in Hsz by done.
  constructor; cbn [Repack.st live streak ended running next_attempt failure_count]; try done.
  - constructor; [by rewrite <- Hr|done].
  - intros k. rewrite elem_of_union, elem_of_singleton, elem_of_cons, Hr. done.
  - cbn [length]. lia.
Qed.

Lemma inv_remove s w l1 key l2 (st' : SchedulerState) :
  inv s w → live w = l1 ++ key :: l2 → running st' = running (st w) ∖ {[key]} →
  NoDup (l1 ++ l2) ∧ (∀ k, k ∈ running st' ↔ k ∈ l1 ++ l2) ∧
  Z.of_nat (length (l1 ++ l2)) ≤ max_concurrent_operations s.
Proof.
  intros [Hn Hr Hb _ _ _ _] El Er. rewrite El in *.
  assert (Permutation (l1 ++ key :: l2) (key :: l1 ++ l2)) as Hp by (symmetry; apply Permutation_middle).
  rewrite Hp in Hn, Hb. apply NoDup_cons in Hn as [Hk Hn]. split; [done|]. split.
  - intros k. rewrite Er, elem_of_difference, Hr, Hp, elem_of_cons, elem_of_singleton.
    split; [tauto|]. intros Hin. split; [by right|]. by intros ->.
  - cbn [length] in Hb. lia.
Qed.

Lemma inv_step s w w' : inv s w → step s w w' → inv s w'.
Proof.
  intros Hw Hs. destruct Hs as [w key v now st' r E Hr|w key v now st' E|w key now st' r E Hr
    |w key now st' E|w l1 key l2 El|w l1 key l2 ok now El].
  - assert (st' = st w) as ->; [|by destruct Hw].
    unfold schedule_if_needed in E. destruct v as [v|e]; [|by injection E as <- _].
    destruct (evaluate (policy s) v); [|by injection E as <- _].
    pose proof (admit_request_spec s (st w) key false now) as H.
    destruct (admit_request s (st w) key false now) as [st1 r1]. injection E as <- <-.
    destruct r1; done.
  - unfold schedule_if_needed in E. destruct v as [v|e]; [|done].
    destruct (evaluate (policy s) v); [|done].
    destruct (admit_request s (st w) key false now) as [st1 r1] eqn:Ea. injection E as <- ->.
    by eapply inv_start.
  - assert (st' = st w) as ->; [|by destruct Hw].
    pose proof (admit_request_spec s (st w) key true now) as H. unfold repack_now in E. rewrite E in H.
    destruct r; done.
  - by eapply inv_start.
  - destruct (inv_remove s w l1 key l2 (spawn_failed (st w) key) Hw El eq_refl) as (? & ? & ?).
    destruct Hw as [_ _ _ Hc Hp Hx He]. by constructor.
  - destruct (inv_remove s w l1 key l2 (finish_attempt s (st w) key ok now) Hw El) as (? & ? & ?);
      [by destruct ok|]. destruct Hw as [_ _ _ Hc Hp Hx He].
    constructor; cbn [Repack.st live streak ended]; try done.
    + intros k. unfold finish_attempt. destruct ok; cbn [failure_count].
      * destruct (decide (k = key)) as [->|]; [by rewrite !lookup_delete_eq|by rewrite !lookup_delete_ne].
      * destruct (decide (k = key)) as [->|]; [|by rewrite !lookup_insert_ne].
        rewrite !lookup_insert_eq, Hc. cbn. f_equal. destruct (streak w !! key) as [n|] eqn:En; cbn; [|done].
        specialize (Hp key n En). unfold U32_MAX. lia.
    + intros k n. destruct ok.
      * intros [_ ?]%lookup_delete_Some. by eapply Hp.
      * intros [[_ <-]|[_ ?]]%lookup_insert_Some; [|by eapply Hp].
        destruct (streak w !! key) as [n|] eqn:En; cbn; [specialize (Hp key n En); lia|lia].
    + intros k. unfold finish_attempt. destruct (decide (k = key)) as [->|].
      * destruct ok; cbn [next_attempt]; rewrite !lookup_insert_eq; [done|]. cbn. do 3 f_equal.
        rewrite Hc. destruct (streak w !! key) as [n|] eqn:En; cbn; [|done].
        specialize (Hp key n En). unfold U32_MAX. lia.
      * destruct ok; cbn [next_attempt]; rewrite !lookup_insert_ne by done; rewrite Hx;
          rewrite ?lookup_delete_ne, ?lookup_insert_ne by done; done.
    + intros k t b [[-> [= <- <-]]|[? Ht]]%lookup_insert_Some.
      * destruct ok; [by apply lookup_delete_eq|rewrite lookup_insert_eq; eauto].
      * specialize (He k t b Ht).
        destruct ok; rewrite ?lookup_delete_ne, ?lookup_insert_ne by done; exact He.
Qed.

Lemma inv_initial s : 0 ≤ max_concurrent_operations s → inv s initial.
Proof.
  intros. constructor; cbn; try done.
  - constructor.
  - intros key. split; [by intros ?%elem_of_empty|by intros ?%not_elem_of_nil].
Qed.

Lemma inv_reachable s w : 0 ≤ max_concurrent_operations s → reachable s w → inv s w.
Proof.
  intros Hm Hr. pose proof (inv_initial s Hm) as H. revert H. unfold reachable in Hr.
  induction Hr as [|x y z Hxy Hyz IH]; [done|]. intros Hx. apply IH. by eapply inv_step.
Qed.

Lemma failure_delay_bound s n :
  0 ≤ failure_backoff s → 0 ≤ maximum_failure_backoff s →
  0 ≤ failure_delay s n ≤ maximum_failure_backoff s.
Proof.
  intros. unfold failure_delay, duration_checked_mul, pow2_saturating, U32_MAX.
  assert (0 ≤ 2 ^ saturating_sub n 1) by (apply Z.pow_nonneg; lia).
  case_match; cbn; nia.
Qed.

Lemma failure_delay_mono s n n' :
  0 ≤ failure_backoff s → 0 ≤ n ≤ n' → failure_delay s n ≤ failure_delay s n'.
Proof.
  intros Hf Hn. unfold failure_delay, duration_checked_mul, pow2_saturating, saturating_sub.
  assert (2 ^ Z.max 0 (n - 1) ≤ 2 ^ Z.max 0 (n' - 1)) by (apply Z.pow_le_mono_r; lia).
  set (a := Z.min U32_MAX (2 ^ Z.max 0 (n - 1))). set (b := Z.min U32_MAX (2 ^ Z.max 0 (n' - 1))).
  assert (failure_backoff s * a ≤ failure_backoff s * b) by (apply Z.mul_le_mono_nonneg_l; unfold a, b; lia).
  destruct (Z.leb_spec (failure_backoff s * a) DURATION_MAX), (Z.leb_spec (failure_backoff s * b) DURATION_MAX);
    cbn; lia.
Qed.

(** * Properties *)

(** C37. The scheduler respects its bounds: in every reachable state, however the
    requests, failed spawns and ends of attempts interleave, the keys marked
    running are exactly the live workers, no store has two of them, and there are
    at most [max_concurrent_operations]. *)
Theorem scheduler_bounded s w :
  0 ≤ max_concurrent_operations s → reachable s w →
  NoDup (live w) ∧ (∀ key, key ∈ running (st w) ↔ key ∈ live w) ∧
  Z.of_nat (length (live w)) ≤ max_concurrent_operations s.
Proof. intros Hm Hr. destruct (inv_reachable s w Hm Hr) as [? ? ? _ _ _ _]. done. Qed.
Lemma scheduler_bounded_witness :
  let s := scheduler_new default_policy 1 in
  let w := {| st := (repack_now s initial_state "a" 0).1; live := ["a"]; streak := ∅; ended := ∅ |} in
  NoDup (live w) ∧ (∀ key, key ∈ running (st w) ↔ key ∈ live w) ∧
  Z.of_nat (length (live w)) ≤ max_concurrent_operations s.
Proof.
  apply scheduler_bounded; [done|]. apply rtc_once. apply (step_now_started _ initial "a" 0). reflexivity.
Defined.

(** Backoff: in every reachable state, an automatic request for a store whose
    last attempt ended at [t] is never started before the backoff is over, where
    the backoff is the success window after a success, and after [n] failures in
    a row the initial window doubled [n - 1] times, capped at the maximum window;
    the window never shrinks as failures accumulate and never exceeds the
    maximum. *)
Theorem scheduler_backoff s w key inventory now st' t ok :
  0 ≤ max_concurrent_operations s → 0 ≤ failure_backoff s ≤ maximum_failure_backoff s →
  reachable s w → ended w !! key = Some (t, ok) →
  schedule_if_needed s (st w) key inventory now = (st', inl Started) →
  let n := default 0 (streak w !! key) in
  (if ok : bool then t + success_backoff s ≤ now
   else t + failure_delay s (Z.min U32_MAX n) ≤ now ∧ 0 < n) ∧
  (∀ a b, 0 ≤ a ≤ b → 0 ≤ failure_delay s a ≤ failure_delay s b ∧
     failure_delay s b ≤ maximum_failure_backoff s).
Proof.
  intros Hm Hf Hr He E n. destruct (inv_reachable s w Hm Hr) as [_ _ _ Hc Hp Hx Hen]. split.
  2:{ intros a b Hab. pose proof (failure_delay_bound s a). pose proof (failure_delay_bound s b).
      pose proof (failure_delay_mono s a b). lia. }
  unfold schedule_if_needed in E. destruct inventory as [v|]; [|done].
  destruct (evaluate (policy s) v); [|done].
  pose proof (admit_request_spec s (st w) key false now) as H.
  destruct (admit_request s (st w) key false now) as [st1 r1]. injection E as <- ->.
  destruct H as (_ & _ & _ & [?|Hnext]); [done|]. specialize (Hx key). rewrite He in Hx. cbn in Hx.
  specialize (Hnext _ Hx). destruct ok; [done|]. split; [done|].
  destruct (Hen _ _ _ He) as [k Hk]. unfold n. rewrite Hk. by eapply Hp.
Qed.
Lemma scheduler_backoff_witness :
  let s := scheduler_new default_policy 1 in
  let w0 := {| st := (repack_now s initial_state "a" 0).1; live := ["a"]; streak := ∅; ended := ∅ |} in
  let w := {| st := finish_attempt s (st w0) "a" false 5; live := []; streak := <["a" := 1]> ∅;
              ended := <["a" := (5, false)]> ∅ |} in
  let v := {| loose_objects := 20000; loose_bytes := 0; pack_count := 0; pack_bytes := 0;
              duplicate_objects := 0; packed_objects := 0 |} in
  let now := 5 + 30 * SECOND in
  let n := default 0 (streak w !! "a") in
  (5 + failure_delay s (Z.min U32_MAX n) ≤ now ∧ 0 < n) ∧
  (∀ a b, 0 ≤ a ≤ b → 0 ≤ failure_delay s a ≤ failure_delay s b ∧
     failure_delay s b ≤ maximum_failure_backoff s).
Proof.
  intros s w0 w v now.
  eapply (scheduler_backoff s w "a" (inl v) now _ 5 false); [done|done| |done|vm_compute; reflexivity].
  eapply rtc_l; [apply (step_now_started s initial "a" 0); reflexivity|].
  apply rtc_once. apply (step_finish s w0 [] "a" [] false 5). done.
Defined.

(** The trigger policy: [evaluate] answers the first crossed signal in the
    order loose objects, pack count, pack bytes, fragmentation; it answers nothing
    only when none is crossed; the size signal never fires on a single pack, so
    that a consolidated store is not rewritten for its size; and fragmentation is
    the duplicate ratio in basis points, rounded down, within 0 and 10000. *)
Theorem policy_first_signal p v :
  0 ≤ duplicate_objects v ≤ packed_objects v → packed_objects v * 10000 ≤ U64_MAX →
  let crossed r :=
    match r with
    | Manual => False
    | LooseObjects n => n = loose_objects v ∧ reached (loose_object_threshold p) n = true
    | PackCount n => n = pack_count v ∧ reached (pack_count_threshold p) n = true
    | PackBytes n => n = pack_bytes v ∧ 1 < pack_count v ∧ reached (pack_bytes_threshold p) n = true
    | Fragmentation n => n = fragmentation_bps v ∧ reached (fragmentation_threshold_bps p) n = true
    end in
  let rank r := match r with
    | Manual => 0 | LooseObjects _ => 1 | PackCount _ => 2 | PackBytes _ => 3 | Fragmentation _ => 4 end in
  match evaluate p v with
  | Some r => crossed r ∧ ∀ r', crossed r' → rank r ≤ rank r'
  | None => ∀ r, ¬ crossed r
  end ∧
  (0 < packed_objects v → fragmentation_bps v = duplicate_objects v * 10000 / packed_objects v) ∧
  0 ≤ fragmentation_bps v ≤ 10000.
Proof.
  intros Hd Hp crossed rank. split.
  - unfold evaluate. destruct (reached (loose_object_threshold p) (loose_objects v)) eqn:E1.
    { split; [done|]. intros [] Hc; first [by destruct Hc|unfold rank; lia]. }
    assert (∀ n, ¬ crossed (LooseObjects n)) as H1 by (intros n [-> ?]; congruence).
    destruct (reached (pack_count_threshold p) (pack_count v)) eqn:E2.
    { split; [done|]. intros [|n| | |] Hc; first [by destruct Hc|by destruct (H1 n)|unfold rank; lia]. }
    assert (∀ n, ¬ crossed (PackCount n)) as H2 by (intros n [-> ?]; congruence).
    destruct ((1 <? pack_count v) && reached (pack_bytes_threshold p) (pack_bytes v)) eqn:E3.
    { apply andb_true_iff in E3 as [E3%Z.ltb_lt E3']. split; [done|].
      intros [|n|n| |] Hc;
        first [by destruct Hc|by destruct (H1 n)|by destruct (H2 n)|unfold rank; lia]. }
    assert (∀ n, ¬ crossed (PackBytes n)) as H3.
    { intros n (-> & Hn%Z.ltb_lt & Hc). rewrite Hn, Hc in E3. done. }
    destruct (reached (fragmentation_threshold_bps p) (fragmentation_bps v)) eqn:E4.
    { split; [done|]. intros [|n|n|n|] Hc;
        first [by destruct Hc|by destruct (H1 n)|by destruct (H2 n)|by destruct (H3 n)|unfold rank; lia]. }
    intros [|n|n|n|n]; [tauto|apply H1|apply H2|apply H3|intros [-> ?]; congruence].
  - unfold fragmentation_bps, saturating_mul. rewrite (Z.min_r U64_MAX) by lia.
    destruct (Z.eqb_spec (packed_objects v) 0); [lia|].
    assert (0 ≤ duplicate_objects v * 10000 / packed_objects v ≤ 10000).
    { split; [apply Z.div_pos; lia|]. apply Z.lt_succ_r, Z.div_lt_upper_bound; lia. }
    lia.
Qed.
Lemma policy_first_signal_witness :
  let v := {| loose_objects := 1; loose_bytes := 0; pack_count := 1; pack_bytes := 5000000000;
              duplicate_objects := 1; packed_objects := 3 |} in
  evaluate default_policy v = Some (Fragmentation 3333) ∧
  (0 < packed_objects v → fragmentation_bps v = duplicate_objects v * 10000 / packed_objects v) ∧
  0 ≤ fragmentation_bps v ≤ 10000.
Proof.
  intros v. split; [reflexivity|].
  apply (policy_first_signal default_policy v); unfold v, U64_MAX; simpl; lia.
Defined.
