(* ===== verification/Trees.v ===== *)
(** * Trees ([crates/object-model/src/object/{tree,tree_git_layout}.rs])

    Module [Trees] models the directory object: entries and their targets, the
    Git layout that an imported tree may record, validation, lookup and update,
    the flat V3 hash, the salted V4 Merkle root and its redacted projections.
    BLAKE3 and the Git object ids of the [sley_core] crate are not part of the
    repository: the hash function is a parameter, the ids are a type with the
    interface [GitObjects].  Names, hashes and ids are byte lists (Rust compares
    [str] bytewise); error messages carry no arguments.  The msgpack encoding at
    the end of [tree.rs] is not modelled. *)

From S2P Require Import Prelude.

(** [sley_core::ObjectId]: an id has a format, [Sha1] or [Sha256], and the raw
    bytes that this format has; both determine it. *)
Class GitObjects (Oid : Type) := {
  #[global] oid_eq_dec :: EqDecision Oid;
  oid_is_sha256 : Oid → bool;
  oid_bytes : Oid → list Z;
  oid_len o : zlen (oid_bytes o) = if oid_is_sha256 o then 32 else 20;
  oid_ok o : bytes_ok (oid_bytes o);
  oid_ext o o' : oid_is_sha256 o = oid_is_sha256 o' → oid_bytes o = oid_bytes o' → o = o'
}.

Module Trees.

Definition TREE_V4_LEAF_PREFIX : list Z := [116; 114; 101; 101; 45; 118; 52; 45; 108; 101; 97; 102].
Definition TREE_V4_NODE_PREFIX : list Z := [116; 114; 101; 101; 45; 118; 52; 45; 110; 111; 100; 101].
Definition TREE_EMPTY_PREFIX : list Z := [116; 114; 101; 101].
Definition GIT_OBJECT_FORMAT_SHA1 : Z := 1.
Definition GIT_OBJECT_FORMAT_SHA256 : Z := 2.

Inductive TreeScheme := V3Flat | V4Salted.
#[global] Instance TreeScheme_eq_dec : EqDecision TreeScheme.
Proof. solve_decision. Defined.

Inductive TreeError := InvalidName (message : string) | InvalidStructure (message : string).
Abbreviation res := (exec TreeError).

Module FileMode.
Inductive t := Normal | Executable | Symlink | Gitlink | Spoollink.
Definition to_byte (m : t) : Z :=
  match m with Normal => 0 | Executable => 1 | Symlink => 2 | Gitlink => 3 | Spoollink => 4 end.
Definition from_byte (b : Z) : option t :=
  match b with
  | 0 => Some Normal | 1 => Some Executable | 2 => Some Symlink | 3 => Some Gitlink
  | 4 => Some Spoollink | _ => None
  end.
End FileMode.

Module EntryType.
Inductive t := Blob | Tree | Symlink | Gitlink | Spoollink.
#[global] Instance t_eq_dec : EqDecision t.
Proof. solve_decision. Defined.
Definition to_byte (m : t) : Z :=
  match m with Blob => 0 | Tree => 1 | Symlink => 2 | Gitlink => 3 | Spoollink => 4 end.
Definition from_byte (b : Z) : option t :=
  match b with
  | 0 => Some Blob | 1 => Some Tree | 2 => Some Symlink | 3 => Some Gitlink
  | 4 => Some Spoollink | _ => None
  end.
End EntryType.

Module TreeEntryTarget.
Inductive t {Oid : Type} :=
| Blob (hash : list Z) (executable : bool)
| Tree (hash : list Z)
| Symlink (hash : list Z)
| Gitlink (target : Oid)
| Spoollink (spool_id state_id : list Z).
Arguments t : clear implicits.
#[global] Instance t_eq_dec {Oid} `{EqDecision Oid} : EqDecision (t Oid).
Proof. solve_decision. Defined.
End TreeEntryTarget.

(** ** [tree_git_layout.rs]: raw modes *)
Definition ENTRY_FLAG_RAW_GIT_MODE : Z := 0x80.
Definition ENTRY_FLAG_SOURCE_POSITION : Z := 0x40.
Definition ENTRY_LAYOUT_FLAGS : Z := Z.lor ENTRY_FLAG_RAW_GIT_MODE ENTRY_FLAG_SOURCE_POSITION.
Definition RAW_GIT_MODE_TRAILER_LEN : Z := 5.
Definition SOURCE_POSITION_TRAILER_LEN : Z := 4.
(** [0o170000] *)
Definition GIT_TYPE_MASK : Z := 61440.

(** [value] is a [NonZeroU32]. *)
Record RawGitMode := { value : Z; leading_zeros : Z }.
#[global] Instance RawGitMode_eq_dec : EqDecision RawGitMode.
Proof. solve_decision. Defined.

Definition is_octal (digit : Z) : bool := (48 <=? digit) && (digit <=? 55).

(** [digits.iter().take_while(|digit| **digit == b'0').count()] *)
Fixpoint count_zeros (digits : list Z) : nat :=
  match digits with
  | d :: digits => if d =? 48 then S (count_zeros digits) else O
  | [] => O
  end.

(** The value of octal digits in [u32]; [None] when a checked operation fails. *)
Fixpoint octal_value (significant : list Z) (value : Z) : option Z :=
  match significant with
  | [] => Some value
  | digit :: significant =>
      if value * 8 <=? U32_MAX then
        if value * 8 + (digit - 48) <=? U32_MAX
        then octal_value significant (value * 8 + (digit - 48))
        else None
      else None
  end.

Definition parse (digits : list Z) : res RawGitMode :=
  let invalid := InvalidStructure "invalid git tree mode" in
  let leading := count_zeros digits in
  let significant := drop leading digits in
  if bool_decide (significant = []) || negb (forallb is_octal digits) then Err invalid
  else
    value ← ok_or (octal_value significant 0) invalid;
    if value =? 0 then Err invalid
    else if Z.of_nat leading <=? U8_MAX
    then Ok {| value := value; leading_zeros := Z.of_nat leading |}
    else Err invalid.

Definition canonical (entry_type : EntryType.t) (executable : bool) : option RawGitMode :=
  match entry_type with
  | EntryType.Tree => Some {| value := 16384; leading_zeros := 0 |}
  | EntryType.Blob => Some {| value := if executable then 33261 else 33188; leading_zeros := 0 |}
  | EntryType.Symlink => Some {| value := 40960; leading_zeros := 0 |}
  | EntryType.Gitlink => Some {| value := 57344; leading_zeros := 0 |}
  | EntryType.Spoollink => None
  end.

(** [RawGitMode::entry_type] *)
Definition mode_entry_type (m : RawGitMode) : option EntryType.t :=
  if negb (Z.land (value m) (U32_MAX - 65535) =? 0) then None
  else
    let kind := Z.land (value m) GIT_TYPE_MASK in
    if kind =? 16384 then Some EntryType.Tree
    else if kind =? 32768 then Some EntryType.Blob
    else if kind =? 40960 then Some EntryType.Symlink
    else if kind =? 57344 then Some EntryType.Gitlink
    else None.

(** [RawGitMode::is_executable] *)
Definition mode_is_executable (m : RawGitMode) : bool :=
  bool_decide (mode_entry_type m = Some EntryType.Blob) && negb (Z.land (value m) 64 =? 0).

(** [format!("{:o}", v)] for [v > 0] *)
Fixpoint octal_digits (fuel : nat) (v : Z) (acc : list Z) : list Z :=
  match fuel with
  | O => acc
  | S fuel => if v =? 0 then acc else octal_digits fuel (v / 8) (48 + v `mod` 8 :: acc)
  end.
Definition write_digits (m : RawGitMode) : list Z :=
  replicate (Z.to_nat (leading_zeros m)) 48 ++ octal_digits 11 (value m) [].

Definition is_canonical_for (m : RawGitMode) (entry_type : EntryType.t) (executable : bool) : bool :=
  bool_decide (canonical entry_type executable = Some m).

Definition validate_name (name : list Z) : res unit :=
  if bool_decide (name = []) then Err (InvalidName "entry name cannot be empty")
  else if bool_decide (name = [46]) || bool_decide (name = [46; 46])
  then Err (InvalidName "not a valid entry name")
  else if existsb (λ b, (b =? 47) || (b =? 92)) name
  then Err (InvalidName "entry name cannot contain path separators")
  else if existsb (λ b, (b <? 0x20) || (b =? 0x7f)) name
  then Err (InvalidName "entry name contains control characters")
  else if 65535 <? zlen name
  then Err (InvalidName "entry name exceeds the HTR4 u16 length bound")
  else Ok ().

(** ** [TreeEntryTarget] and [TreeEntry] *)
Section entries.
Context {Oid : Type} `{GitObjects Oid}.
Abbreviation target_t := (TreeEntryTarget.t Oid).

(** [TreeEntryTarget::entry_type] *)
Definition target_entry_type (t : target_t) : EntryType.t :=
  match t with
  | TreeEntryTarget.Blob _ _ => EntryType.Blob
  | TreeEntryTarget.Tree _ => EntryType.Tree
  | TreeEntryTarget.Symlink _ => EntryType.Symlink
  | TreeEntryTarget.Gitlink _ => EntryType.Gitlink
  | TreeEntryTarget.Spoollink _ _ => EntryType.Spoollink
  end.

(** [TreeEntryTarget::mode] *)
Definition target_mode (t : target_t) : FileMode.t :=
  match t with
  | TreeEntryTarget.Blob _ true => FileMode.Executable
  | TreeEntryTarget.Blob _ false => FileMode.Normal
  | TreeEntryTarget.Tree _ => FileMode.Normal
  | TreeEntryTarget.Symlink _ => FileMode.Symlink
  | TreeEntryTarget.Gitlink _ => FileMode.Gitlink
  | TreeEntryTarget.Spoollink _ _ => FileMode.Spoollink
  end.

Definition encoded_payload_len (t : target_t) : Z :=
  match t with
  | TreeEntryTarget.Blob hash _ | TreeEntryTarget.Tree hash | TreeEntryTarget.Symlink hash => zlen hash
  | TreeEntryTarget.Gitlink target => zlen (oid_bytes target)
  | TreeEntryTarget.Spoollink spool_id state_id => 4 + zlen spool_id + zlen state_id
  end.

Definition git_format_to_tag (is_sha256 : bool) : Z :=
  if is_sha256 then GIT_OBJECT_FORMAT_SHA256 else GIT_OBJECT_FORMAT_SHA1.

(** The bytes that [write_payload] emits. *)
Definition write_payload (t : target_t) (layout_flags : Z) : list Z :=
  [Z.lor (FileMode.to_byte (target_mode t)) layout_flags]
  ++ [EntryType.to_byte (target_entry_type t)]
  ++ match t with
     | TreeEntryTarget.Blob hash _ | TreeEntryTarget.Tree hash | TreeEntryTarget.Symlink hash => hash
     | TreeEntryTarget.Gitlink target => [git_format_to_tag (oid_is_sha256 target)] ++ oid_bytes target
     | TreeEntryTarget.Spoollink spool_id state_id =>
         to_le_bytes 4 (as_u32 (zlen spool_id)) ++ spool_id ++ state_id
     end.

Record TreeEntry := { name : list Z; target : target_t; git_mode : option RawGitMode }.
#[global] Instance TreeEntry_eq_dec : EqDecision TreeEntry.
Proof. solve_decision. Defined.

Definition entry_type (e : TreeEntry) : EntryType.t := target_entry_type (target e).
Definition is_tree (e : TreeEntry) : bool := bool_decide (entry_type e = EntryType.Tree).
Definition is_executable (e : TreeEntry) : bool :=
  match target_mode (target e) with FileMode.Executable => true | _ => false end.
Definition blob_hash (e : TreeEntry) : option (list Z) :=
  match target e with TreeEntryTarget.Blob hash _ => Some hash | _ => None end.
Definition tree_hash (e : TreeEntry) : option (list Z) :=
  match target e with TreeEntryTarget.Tree hash => Some hash | _ => None end.
Definition drop_raw_git_mode (e : TreeEntry) : TreeEntry :=
  {| name := name e; target := target e; git_mode := None |}.

Definition check_raw_git_mode (e : TreeEntry) (mode : RawGitMode) : res unit :=
  let ty := entry_type e in
  let executable := is_executable e in
  if bool_decide (mode_entry_type mode ≠ Some ty)
     || (bool_decide (ty = EntryType.Blob) && negb (Bool.eqb (mode_is_executable mode) executable))
  then Err (InvalidStructure "git mode does not describe the entry")
  else if is_canonical_for mode ty executable
  then Err (InvalidStructure "entry records its canonical git mode as a raw mode")
  else Ok ().

(** [TreeEntry::validate] *)
Definition validate_entry (e : TreeEntry) : res unit :=
  _ ← validate_name (name e);
  match git_mode e with Some mode => check_raw_git_mode e mode | None => Ok () end.

Definition with_raw_git_mode (e : TreeEntry) (mode : RawGitMode) : res TreeEntry :=
  if bool_decide (canonical (entry_type e) (is_executable e) = Some mode) then Ok (drop_raw_git_mode e)
  else
    _ ← check_raw_git_mode e mode;
    Ok {| name := name e; target := target e; git_mode := Some mode |}.

(** [TreeEntry::file], [directory], [symlink], [gitlink], [spoollink] *)
Definition new_entry (name : list Z) (target : target_t) : res TreeEntry :=
  _ ← validate_name name;
  Ok {| name := name; target := target; git_mode := None |}.

(** ** [tree_git_layout.rs]: the layout trailer *)
Definition layout_flags (e : TreeEntry) (source_position : option Z) : Z :=
  let flags := 0 in
  let flags := match git_mode e with Some _ => Z.lor flags ENTRY_FLAG_RAW_GIT_MODE | None => flags end in
  match source_position with Some _ => Z.lor flags ENTRY_FLAG_SOURCE_POSITION | None => flags end.

Definition write_layout_trailer (e : TreeEntry) (source_position : option Z) : list Z :=
  match git_mode e with
  | Some mode => to_le_bytes 4 (value mode) ++ [leading_zeros mode]
  | None => []
  end ++
  match source_position with Some position => to_le_bytes 4 position | None => [] end.

Definition layout_trailer_len (flags : Z) : Z :=
  let len := 0 in
  let len := if negb (Z.land flags ENTRY_FLAG_RAW_GIT_MODE =? 0)
             then len + RAW_GIT_MODE_TRAILER_LEN else len in
  if negb (Z.land flags ENTRY_FLAG_SOURCE_POSITION =? 0)
  then len + SOURCE_POSITION_TRAILER_LEN else len.

Definition apply_layout_trailer (e : TreeEntry) (flags : Z) (trailer : list Z)
  : res (TreeEntry * option Z) :=
  let malformed := InvalidStructure "malformed tree entry layout trailer" in
  if negb (zlen trailer =? layout_trailer_len flags) then Err malformed
  else
    '(e, rest) ←
      (if negb (Z.land flags ENTRY_FLAG_RAW_GIT_MODE =? 0) then
         mode ← slice trailer 0 RAW_GIT_MODE_TRAILER_LEN;
         tail ← slice trailer RAW_GIT_MODE_TRAILER_LEN (zlen trailer);
         bs ← slice mode 0 4;
         let value := from_le_bytes bs in
         if value =? 0 then Err malformed
         else
           zeros ← index mode 4;
           let mode := {| value := value; leading_zeros := zeros |} in
           _ ← check_raw_git_mode e mode;
           Ok ({| name := name e; target := target e; git_mode := Some mode |}, tail)
       else Ok (e, trailer));
    if negb (Z.land flags ENTRY_FLAG_SOURCE_POSITION =? 0) then
      if zlen rest =? 4 then Ok (e, Some (from_le_bytes rest)) else Err malformed
    else Ok (e, None).

Definition split_layout_flags (byte : Z) : Z * Z :=
  (Z.land byte ENTRY_LAYOUT_FLAGS, Z.land byte (255 - ENTRY_LAYOUT_FLAGS)).

Definition git_canonical_order (left right : TreeEntry) : comparison :=
  let shared := Z.min (zlen (name left)) (zlen (name right)) in
  match compare_bytes (sub_list (name left) 0 shared) (sub_list (name right) 0 shared) with
  | Eq =>
      let terminator := λ e, if is_tree e then 47 else 0 in
      let left_next := default (terminator left) (get (name left) shared) in
      let right_next := default (terminator right) (get (name right) shared) in
      left_next ?= right_next
  | c => c
  end.

(** [TreeEntry::encoded_len] *)
Definition encoded_len (e : TreeEntry) (source_position : option Z) : Z :=
  let flags := layout_flags e source_position in
  1 + 1 + encoded_payload_len (target e) + zlen (name e) + 1 + layout_trailer_len flags.

(** The bytes that [TreeEntry::update_hasher] feeds. *)
Definition entry_preimage (e : TreeEntry) (source_position : option Z) : list Z :=
  let flags := layout_flags e source_position in
  write_payload (target e) flags ++ name e ++ [0] ++ write_layout_trailer e source_position.

(** ** [Tree] *)
Record Tree := {
  entries : list TreeEntry;
  scheme : TreeScheme;
  salts : list (list Z);
  source_positions : list Z
}.

Definition tree_new : Tree :=
  {| entries := []; scheme := V3Flat; salts := []; source_positions := [] |}.

Definition compare_names (a b : TreeEntry) : comparison := compare_bytes (name a) (name b).

Definition from_entries (es : list TreeEntry) : Tree :=
  {| entries := sort_by compare_names (map drop_raw_git_mode es); scheme := V3Flat; salts := [];
     source_positions := [] |}.

Definition source_position_at (t : Tree) (index : Z) : option Z := get (source_positions t) index.

Definition has_git_layout (t : Tree) : bool :=
  negb (bool_decide (source_positions t = []))
  || existsb (λ e, match git_mode e with Some _ => true | None => false end) (entries t).

(** [a.cmp(&b)] on [Option<u32>]: [None] is least. *)
Definition compare_option (a b : option Z) : comparison :=
  match a, b with
  | None, None => Eq
  | None, Some _ => Lt
  | Some _, None => Gt
  | Some x, Some y => x ?= y
  end.

(** [self.entries.iter().enumerate()] *)
Fixpoint enumerate {A} (i : Z) (l : list A) : list (Z * A) :=
  match l with [] => [] | x :: l => (i, x) :: enumerate (i + 1) l end.

Definition git_ordered_entries (t : Tree) : list TreeEntry :=
  let ordered := enumerate 0 (entries t) in
  let ordered :=
    if bool_decide (source_positions t = [])
    then sort_by (λ a b, git_canonical_order a.2 b.2) ordered
    else sort_by (λ a b, compare_option (get (source_positions t) a.1) (get (source_positions t) b.1)) ordered in
  map snd ordered.

(** [entries.windows(2).all(|pair| git_canonical_order(..) == Less)] *)
Fixpoint in_git_order (es : list TreeEntry) : bool :=
  match es with
  | a :: (b :: _) as es => match git_canonical_order a b with Lt => in_git_order es | _ => false end
  | _ => true
  end.

(** The loop over the source positions; [seen] marks those taken. *)
Fixpoint check_positions (positions : list Z) (seen : list bool) : res unit :=
  match positions with
  | [] => Ok ()
  | position :: positions =>
      match get seen position with
      | None => Err (InvalidStructure "source position is out of range")
      | Some true => Err (InvalidStructure "source position is repeated")
      | Some false =>
          seen ← vec_set seen position true;
          check_positions positions seen
      end
  end.

Definition validate_source_positions (t : Tree) : res unit :=
  if bool_decide (source_positions t = []) then Ok ()
  else if bool_decide (scheme t ≠ V3Flat)
  then Err (InvalidStructure "only v3 trees record a git source order")
  else if negb (zlen (source_positions t) =? zlen (entries t))
  then Err (InvalidStructure "tree has other than one source position per entry")
  else
    _ ← check_positions (source_positions t) (replicate (length (entries t)) false);
    if in_git_order (git_ordered_entries t)
    then Err (InvalidStructure "recorded git source order is the canonical order")
    else Ok ().

(** The loop of [validate] over the entries. *)
Fixpoint check_entries (previous_name : option (list Z)) (es : list TreeEntry) : res unit :=
  match es with
  | [] => Ok ()
  | e :: es =>
      _ ← validate_entry e;
      match previous_name with
      | Some previous =>
          match compare_bytes previous (name e) with
          | Lt => check_entries (Some (name e)) es
          | _ => Err (InvalidStructure "entries must be strictly sorted by name")
          end
      | None => check_entries (Some (name e)) es
      end
  end.

Definition validate (t : Tree) : res unit :=
  _ ← match scheme t with
      | V3Flat =>
          if negb (bool_decide (salts t = []))
          then Err (InvalidStructure "v3 tree must not carry per-entry salts") else Ok ()
      | V4Salted =>
          if negb (zlen (salts t) =? zlen (entries t))
          then Err (InvalidStructure "v4 tree has other than one salt per entry")
          else if existsb (λ e, match git_mode e with Some _ => true | None => false end) (entries t)
          then Err (InvalidStructure "v4 trees do not record a git source layout")
          else Ok ()
      end;
  _ ← check_entries None (entries t);
  validate_source_positions t.

Definition try_from_decoded_layout (es : list TreeEntry) (positions : list Z) : res Tree :=
  let t := {| entries := es; scheme := V3Flat; salts := []; source_positions := positions |} in
  _ ← validate t; Ok t.

Definition try_from_decoded_entries_salted_v4 (es : list TreeEntry) (ss : list (list Z)) : res Tree :=
  if negb (zlen es =? zlen ss)
  then Err (InvalidStructure "v4 tree has other than one salt per entry")
  else
    let t := {| entries := es; scheme := V4Salted; salts := ss; source_positions := [] |} in
    _ ← validate t; Ok t.

Definition from_entries_salted_v4 (es : list TreeEntry) (ss : list (list Z)) : res Tree :=
  let es := map drop_raw_git_mode es in
  if negb (zlen es =? zlen ss)
  then Err (InvalidStructure "v4 tree has other than one salt per entry")
  else
    let paired := sort_by (λ a b, compare_names a.1 b.1) (zip es ss) in
    try_from_decoded_entries_salted_v4 (map fst paired) (map snd paired).

(** The first pair of neighbours with one name. *)
Fixpoint duplicate_name (paired : list (TreeEntry * Z)) : bool :=
  match paired with
  | a :: (b :: _) as paired => bool_decide (name a.1 = name b.1) || duplicate_name paired
  | _ => false
  end.

Definition from_git_entries (es : list TreeEntry) : res Tree :=
  let canonical := in_git_order es in
  if U32_MAX + 1 <? zlen es then Err (InvalidStructure "git tree has more than u32::MAX entries")
  else
    let paired := map (λ p, (p.2, p.1)) (enumerate 0 es) in
    let paired := sort_by (λ a b, compare_names a.1 b.1) paired in
    if duplicate_name paired then Err (InvalidStructure "duplicate entry name")
    else
      let t := {| entries := map fst paired; scheme := V3Flat; salts := [];
                  source_positions := if canonical then [] else map snd paired |} in
      _ ← validate t; Ok t.

Definition drop_git_layout (t : Tree) : Tree :=
  let positions := if bool_decide (source_positions t = []) then source_positions t else [] in
  let es :=
    if existsb (λ e, match git_mode e with Some _ => true | None => false end) (entries t)
    then map drop_raw_git_mode (entries t) else entries t in
  {| entries := es; scheme := scheme t; salts := salts t; source_positions := positions |}.

(** [Tree::get] *)
Definition tree_get (t : Tree) (n : list Z) : pure (option TreeEntry) :=
  found ← binary_search_by (λ e, compare_bytes (name e) n) (entries t);
  match found with
  | None => Ok None
  | Some index => Ok (get (entries t) index)
  end.

(** [iter().position(p)] *)
Fixpoint position {A} (p : A → bool) (l : list A) : option nat :=
  match l with
  | [] => None
  | x :: l => if p x then Some O else S <$> position p l
  end.
(** [Vec::insert], [Vec::remove] within bounds *)
Definition vec_insert {A} (l : list A) (pos : nat) (x : A) : list A := take pos l ++ x :: drop pos l.
Definition vec_remove {A} (l : list A) (pos : nat) : list A := take pos l ++ drop (S pos) l.

Definition after (n : list Z) (e : TreeEntry) : bool :=
  match compare_bytes (name e) n with Gt => true | _ => false end.

Definition insert_salted (t : Tree) (e : TreeEntry) (salt : list Z) : Tree :=
  let '(es, ss) :=
    match position (λ x, bool_decide (name x = name e)) (entries t) with
    | Some existing => (vec_remove (entries t) existing, vec_remove (salts t) existing)
    | None => (entries t, salts t)
    end in
  let pos := default (length es) (position (after (name e)) es) in
  {| entries := vec_insert es pos e; scheme := scheme t; salts := vec_insert ss pos salt;
     source_positions := source_positions t |}.

(** [Tree::insert]; [salt] is what [rand::random()] draws. *)
Definition tree_insert (t : Tree) (e : TreeEntry) (salt : list Z) : Tree :=
  let t := drop_git_layout t in
  let e := drop_raw_git_mode e in
  match scheme t with
  | V3Flat =>
      let es := filter (λ x, name x ≠ name e) (entries t) in
      let pos := default (length es) (position (after (name e)) es) in
      {| entries := vec_insert es pos e; scheme := scheme t; salts := salts t;
         source_positions := source_positions t |}
  | V4Salted => insert_salted t e salt
  end.

(** [Tree::remove] *)
Definition tree_remove (t : Tree) (n : list Z) : Tree * option TreeEntry :=
  match position (λ x, bool_decide (name x = n)) (entries t) with
  | None => (t, None)
  | Some pos =>
      let t := drop_git_layout t in
      let ss := match scheme t with V4Salted => vec_remove (salts t) pos | V3Flat => salts t end in
      ({| entries := vec_remove (entries t) pos; scheme := scheme t; salts := ss;
          source_positions := source_positions t |}, entries t !! pos)
  end.

End entries.
Arguments TreeEntry : clear implicits.
Arguments Tree : clear implicits.

(** ** Validation *)
Section validation.
Context {Oid : Type} `{GitObjects Oid}.
Abbreviation entry := (TreeEntry Oid).
Abbreviation tree := (Tree Oid).

Definition name_lt (a b : entry) : Prop := compare_names a b = Lt.

(** What [validate] is to establish. *)
Record wf (t : tree) : Prop := {
  wf_entries : Forall (λ e, validate_entry e = Ok ()) (entries t);
  wf_sorted : StronglySorted name_lt (entries t);
  wf_scheme : match scheme t with
              | V3Flat => salts t = []
              | V4Salted => length (salts t) = length (entries t) ∧ Forall (λ e, git_mode e = None) (entries t)
              end;
  wf_positions : source_positions t = []
                 ∨ scheme t = V3Flat ∧ source_positions t ≡ₚ seqZ 0 (zlen (entries t))
                   ∧ in_git_order (git_ordered_entries t) = false
}.

Lemma bind_ok_unit {E A} (m : exec E unit) (k : exec E A) a : m ≫= (λ _, k) = Ok a ↔ m = Ok () ∧ k = Ok a.
Proof. rewrite bind_ok. split; [by intros ([] & ? & ?)|intros [? ?]; by exists ()]. Qed.

Lemma check_positions_ok ps seen :
  check_positions ps seen = Ok () ↔ NoDup ps ∧ Forall (λ p, get seen p = Some false) ps.
Proof.
  revert seen. induction ps as [|p ps IH]; intros seen; cbn [check_positions].
  { split; [intros _; split; constructor|done]. }
  rewrite NoDup_cons, Forall_cons. destruct (get seen p) as [[]|] eqn:E;
    [split; [done|intros (_ & [=] & _)]| |split; [done|intros (_ & [=] & _)]].
  apply get_Some in E as [Hp Hl].
  assert (vec_set (E:=TreeError) seen p true = Ok (<[Z.to_nat p := true]> seen)) as ->.
  { unfold vec_set. rewrite (proj2 (Z.leb_le _ _)), (proj2 (Z.ltb_lt _ _)) by lia. done. }
  cbn. rewrite IH, !Forall_forall.
  assert (∀ q, q ≠ p → get (<[Z.to_nat p := true]> seen) q = get seen q) as Hne.
  { intros q Hq. unfold get. destruct (Z.leb_spec 0 q); [|done]. apply list_lookup_insert_ne. lia. }
  assert (get (<[Z.to_nat p := true]> seen) p = Some true) as He.
  { unfold get. rewrite (proj2 (Z.leb_le _ _)) by lia. apply list_lookup_insert_eq. unfold zlen in Hp. lia. }
  split.
  - intros [Hn Hf]. assert (p ∉ ps) as Hps by (intros Hin%Hf; congruence).
    split; [done|]. split; [done|]. intros q Hq. rewrite <- Hne by congruence. by apply Hf.
  - intros ([Hps Hn] & _ & Hf). split; [done|]. intros q Hq. rewrite Hne by congruence. by apply Hf.
Qed.

Lemma check_entries_ok prev (es : list entry) :
  check_entries prev es = Ok () ↔
  Forall (λ e, validate_entry e = Ok ()) es ∧ StronglySorted name_lt es
  ∧ (∀ p, prev = Some p → Forall (λ e, compare_bytes p (name e) = Lt) es).
Proof.
  revert prev. induction es as [|e es IH]; intros prev; cbn [check_entries].
  { split; [intros _; repeat split; constructor|done]. }
  rewrite bind_ok_unit, Forall_cons.
  assert (check_entries (Some (name e)) es = Ok () ↔
    Forall (λ e, validate_entry e = Ok ()) es ∧ StronglySorted name_lt (e :: es)) as IH'.
  { rewrite IH. split.
    - intros (? & ? & Hp). split; [done|]. constructor; [done|]. by apply Hp.
    - intros [? Hs]. apply StronglySorted_inv in Hs as [? ?]. split; [done|]. split; [done|]. by intros ? [= <-]. }
  assert (∀ p, compare_bytes p (name e) = Lt → StronglySorted name_lt (e :: es) →
    Forall (λ e, compare_bytes p (name e) = Lt) (e :: es)) as Htr.
  { intros p Hp Hs. apply StronglySorted_inv in Hs as [_ Hs]. constructor; [done|].
    eapply Forall_impl; [exact Hs|]. intros x Hx. by eapply compare_bytes_trans. }
  destruct prev as [p|].
  - destruct (compare_bytes p (name e)) eqn:E.
    + split; [by intros [_ ?]|]. intros (_ & _ & Hp). specialize (Hp p eq_refl).
      apply Forall_cons in Hp as [Hp _]. congruence.
    + rewrite IH'. split.
      * intros (? & ? & ?). split; [done|]. split; [done|]. intros ? [= <-]. by apply Htr.
      * intros ([? ?] & ? & ?). done.
    + split; [by intros [_ ?]|]. intros (_ & _ & Hp). specialize (Hp p eq_refl).
      apply Forall_cons in Hp as [Hp _]. congruence.
  - rewrite IH'. split; [intros (? & ? & ?)|intros ([? ?] & ? & _)]; done.
Qed.

Lemma get_replicate (n : nat) p : get (replicate n false) p = Some false ↔ 0 ≤ p < Z.of_nat n.
Proof.
  unfold get. destruct (Z.leb_spec 0 p); [|split; [done|lia]].
  rewrite lookup_replicate. split; [intros []; lia|intros; split; [done|lia]].
Qed.

(** [n] distinct positions below [n] are all of them. *)
Lemma positions_permutation ps n :
  NoDup ps ∧ Forall (λ p, 0 ≤ p < n) ps ∧ zlen ps = n ↔ ps ≡ₚ seqZ 0 n ∧ 0 ≤ n.
Proof.
  split.
  - intros (Hn & Hf & Hz). split; [|zlia]. rewrite Forall_forall in Hf.
    apply submseteq_length_Permutation; [|rewrite length_seqZ; unfold zlen in Hz; lia].
    apply NoDup_submseteq; [done|]. intros p Hp%Hf. apply elem_of_seqZ. lia.
  - intros [Hp Hn]. split; [rewrite Hp; apply NoDup_seqZ|]. split.
    + rewrite Hp. apply Forall_forall. intros p Hin%elem_of_seqZ. lia.
    + apply Permutation_length in Hp. rewrite length_seqZ in Hp. unfold zlen. lia.
Qed.

Lemma validate_source_positions_ok (t : tree) :
  validate_source_positions t = Ok () ↔
  source_positions t = []
  ∨ scheme t = V3Flat ∧ source_positions t ≡ₚ seqZ 0 (zlen (entries t))
    ∧ in_git_order (git_ordered_entries t) = false.
Proof.
  unfold validate_source_positions. case_bool_decide as Hnil; [by intuition|].
  case_bool_decide as Hs; [split; [done|intros [?|[? _]]; done]|].
  assert (scheme t = V3Flat) as Hv by (by destruct (scheme t); [|destruct Hs]).
  pose proof (positions_permutation (source_positions t) (zlen (entries t))) as Hpp.
  destruct (Z.eqb_spec (zlen (source_positions t)) (zlen (entries t))) as [Hz|Hz]; cbn [negb].
  2:{ split; [done|]. intros [?|(_ & Hp & _)]; [done|]. destruct Hz. apply Hpp. split; [done|zlia]. }
  rewrite bind_ok_unit, check_positions_ok.
  assert (Forall (λ p, get (replicate (length (entries t)) false) p = Some false) (source_positions t)
    ↔ Forall (λ p, 0 ≤ p < zlen (entries t)) (source_positions t)) as Hfor.
  { rewrite !Forall_forall. by setoid_rewrite get_replicate. }
  rewrite Hfor. destruct (in_git_order (git_ordered_entries t)).
  - split; [by intros [_ ?]|intros [?|(_ & _ & ?)]; done].
  - split.
    + intros [[? ?] _]. right. split; [done|]. split; [|done]. by apply Hpp.
    + intros [?|(_ & Hp & _)]; [done|]. split; [|done].
      destruct (proj2 Hpp) as (? & ? & _); [split; [done|zlia]|]. done.
Qed.
End validation.

(** ** Lookup and update *)
Section updates.
Context {Oid : Type} `{GitObjects Oid}.
Abbreviation entry := (TreeEntry Oid).
Abbreviation tree := (Tree Oid).
(** An entry with its V4 salt. *)
Abbreviation row := (entry * option (list Z))%type.

Definition rows (t : tree) : list row :=
  match scheme t with
  | V3Flat => (λ e, (e, None)) <$> entries t
  | V4Salted => zip (entries t) (Some <$> salts t)
  end.
(** What the tree means: its entries by name. *)
Definition tree_map (t : tree) : gmap (list Z) row := list_to_map ((λ p, (name p.1, p)) <$> rows t).
Definition drop_layout (p : row) : row := (drop_raw_git_mode p.1, p.2).

Definition row_lt (a b : row) : Prop := name_lt a.1 b.1.
Definition drop_row (n : list Z) (r : list row) : list row :=
  match position (λ p, bool_decide (name p.1 = n)) r with Some i => vec_remove r i | None => r end.
Definition put_row (x : row) (r : list row) : list row :=
  let r := drop_row (name x.1) r in
  vec_insert r (default (length r) (position (λ p, after (name x.1) p.1) r)) x.

Lemma rows_entries (t : tree) : wf t → fst <$> rows t = entries t.
Proof.
  intros [_ _ Hs _]. unfold rows. destruct (scheme t).
  - rewrite <- list_fmap_compose. by apply list_fmap_id.
  - apply fst_zip. rewrite length_fmap. lia.
Qed.

Lemma name_lt_irrefl (e : entry) : ¬ name_lt e e.
Proof. unfold name_lt, compare_names. by rewrite (proj2 (compare_bytes_eq _ _) eq_refl). Qed.

Lemma row_lt_trans (a b c : row) : row_lt a b → row_lt b c → row_lt a c.
Proof. apply compare_bytes_trans. Qed.

Lemma rows_sorted (t : tree) : wf t → StronglySorted row_lt (rows t).
Proof.
  intros Hwf. pose proof (wf_sorted t Hwf) as Hs. rewrite <- (rows_entries t Hwf) in Hs.
  induction (rows t) as [|x r IH]; [constructor|]. apply StronglySorted_inv in Hs as [Hs Hx].
  constructor; [by apply IH|]. exact (proj1 (Forall_fmap fst (name_lt x.1) r) Hx).
Qed.

Lemma sorted_names (r : list row) : StronglySorted row_lt r → NoDup ((λ p, name p.1) <$> r).
Proof.
  induction 1 as [|x r Hs IH Hx]; [constructor|]. cbn. constructor; [|done].
  intros (y & E & Hy)%list_elem_of_fmap. rewrite Forall_forall in Hx. specialize (Hx y Hy).
  unfold row_lt, name_lt, compare_names in Hx. rewrite E in Hx.
  by rewrite (proj2 (compare_bytes_eq _ _) eq_refl) in Hx.
Qed.

Lemma keys_names (r : list row) : ((λ p, (name p.1, p)) <$> r).*1 = (λ p, name p.1) <$> r.
Proof. by rewrite <- list_fmap_compose. Qed.

Lemma rows_lookup (r : list row) n p :
  StronglySorted row_lt r →
  (list_to_map ((λ p, (name p.1, p)) <$> r) : gmap (list Z) row) !! n = Some p ↔ p ∈ r ∧ name p.1 = n.
Proof.
  intros Hs%sorted_names. rewrite <- elem_of_list_to_map by (by rewrite keys_names).
  rewrite list_elem_of_fmap. split.
  - intros (q & [= -> ->] & Hq). done.
  - intros [Hp <-]. by exists p.
Qed.

Lemma position_spec {A} (p : A → bool) l :
  match position p l with
  | Some i => ∃ x, l !! i = Some x ∧ p x = true
  | None => Forall (λ x, p x = false) l
  end.
Proof.
  induction l as [|x l IH]; [constructor|]. cbn. destruct (p x) eqn:E; [by exists x|].
  destruct (position p l); cbn; [done|by constructor].
Qed.

Lemma position_fmap {A B} (f : A → B) (p : B → bool) l : position p (f <$> l) = position (λ x, p (f x)) l.
Proof. induction l as [|x l IH]; [done|]. cbn. by rewrite IH. Qed.

Lemma vec_insert_perm {A} (l : list A) i x : vec_insert l i x ≡ₚ x :: l.
Proof. unfold vec_insert. rewrite <- Permutation_middle. by rewrite take_drop. Qed.

Lemma vec_remove_perm {A} (l : list A) i x : l !! i = Some x → x :: vec_remove l i ≡ₚ l.
Proof. intros Hx. unfold vec_remove. rewrite Permutation_middle. by rewrite take_drop_middle. Qed.

Lemma vec_remove_sorted {A} (R : relation A) l i : StronglySorted R l → StronglySorted R (vec_remove l i).
Proof.
  unfold vec_remove. intros Hs. rewrite <- (take_drop i l) in Hs. apply StronglySorted_app in Hs as (Hx & H1 & H2).
  assert (drop (S i) l = drop 1 (drop i l)) as -> by (rewrite drop_drop; f_equal; lia).
  apply StronglySorted_app_2; [|done|].
  - intros x y Hx1 Hy. apply Hx; [done|]. rewrite <- (take_drop 1 (drop i l)). apply elem_of_app. by right.
  - rewrite <- (take_drop 1 (drop i l)) in H2. by apply StronglySorted_app in H2 as (_ & _ & ?).
Qed.

Lemma vec_insert_sorted (r : list row) (x : row) :
  StronglySorted row_lt r → Forall (λ p, name p.1 ≠ name x.1) r →
  StronglySorted row_lt (vec_insert r (default (length r) (position (λ p, after (name x.1) p.1) r)) x).
Proof.
  induction 1 as [|y r Hs IH Hy]; intros Hn; [by repeat constructor|].
  apply Forall_cons in Hn as [Hn Hns]. cbn [position]. unfold after at 1.
  pose proof (compare_bytes_antisym (name y.1) (name x.1)) as Hanti.
  destruct (compare_bytes (name y.1) (name x.1)) eqn:E; [by apply compare_bytes_eq in E| |].
  - assert (∀ o, default (length (y :: r)) (S <$> o) = S (default (length r) o)) as -> by by intros [].
    change (StronglySorted row_lt (y :: vec_insert r (default (length r) (position (λ p, after (name x.1) p.1) r)) x)).
    constructor; [by apply IH|]. rewrite vec_insert_perm. by constructor.
  - change (StronglySorted row_lt (x :: y :: r)). assert (row_lt x y) as Hxy by done.
    constructor; [by constructor|]. constructor; [done|].
    eapply Forall_impl; [exact Hy|]. intros z Hz. by eapply row_lt_trans.
Qed.

Lemma drop_row_spec n (r : list row) :
  StronglySorted row_lt r →
  StronglySorted row_lt (drop_row n r) ∧ Forall (λ p, name p.1 ≠ n) (drop_row n r)
  ∧ ((drop_row n r = r) ∨ ∃ x, name x.1 = n ∧ x :: drop_row n r ≡ₚ r).
Proof.
  intros Hs. unfold drop_row. pose proof (position_spec (λ p : row, bool_decide (name p.1 = n)) r) as Hp.
  destruct (position _ r) as [i|].
  - destruct Hp as (x & Hx & Hn%bool_decide_eq_true). split; [by apply vec_remove_sorted|].
    pose proof (vec_remove_perm r i x Hx) as Hperm. split; [|by right; exists x].
    pose proof (sorted_names r Hs) as Hd. rewrite <- Hperm in Hd. cbn in Hd.
    apply NoDup_cons in Hd as [Hd _]. apply Forall_forall. intros y Hy Hyn. apply Hd.
    apply list_elem_of_fmap. exists y. by rewrite Hn.
  - split; [done|]. split; [|by left]. eapply Forall_impl; [exact Hp|].
    cbn. intros y Hy%bool_decide_eq_false. done.
Qed.

Abbreviation map_of r := (list_to_map ((λ p : row, (name p.1, p)) <$> r) : gmap (list Z) row).

Lemma map_of_perm (r k : list row) : StronglySorted row_lt r → r ≡ₚ k → map_of r = map_of k.
Proof.
  intros Hs Hp. apply list_to_map_proper; [by rewrite keys_names; apply sorted_names|]. by rewrite Hp.
Qed.

Lemma map_of_fresh n (r : list row) : Forall (λ p, name p.1 ≠ n) r → map_of r !! n = None.
Proof.
  intros Hf. apply not_elem_of_list_to_map. rewrite keys_names.
  intros (y & -> & Hy)%list_elem_of_fmap. rewrite Forall_forall in Hf. by apply (Hf y).
Qed.

Lemma drop_row_map n (r : list row) : StronglySorted row_lt r → map_of (drop_row n r) = delete n (map_of r).
Proof.
  intros Hs. destruct (drop_row_spec n r Hs) as (_ & Hf & [E|(x & Hx & Hp)]).
  - rewrite E in *. symmetry. apply delete_id. by apply map_of_fresh.
  - rewrite (map_of_perm r (x :: drop_row n r)) by done. cbn. rewrite Hx.
    rewrite delete_insert_id; [done|]. by apply map_of_fresh.
Qed.

Lemma put_row_spec (x : row) (r : list row) :
  StronglySorted row_lt r →
  StronglySorted row_lt (put_row x r) ∧ (∀ p, p ∈ put_row x r → p = x ∨ p ∈ r)
  ∧ map_of (put_row x r) = <[name x.1 := x]> (map_of r).
Proof.
  intros Hs. pose proof (drop_row_spec (name x.1) r Hs) as (Hd & Hf & Hor).
  pose proof (vec_insert_sorted (drop_row (name x.1) r) x Hd Hf) as Hi. unfold put_row.
  split; [done|]. split.
  - intros p. rewrite vec_insert_perm, elem_of_cons. intros [?|Hp]; [by left|right].
    destruct Hor as [E|(y & _ & Hy)]; [by rewrite E in Hp|]. rewrite <- Hy. by right.
  - rewrite (map_of_perm _ _ Hi (vec_insert_perm _ _ _)). cbn. rewrite drop_row_map by done.
    apply insert_delete_eq.
Qed.
Lemma drop_git_layout_eq (t : tree) :
  drop_git_layout t = {| entries := drop_raw_git_mode <$> entries t; scheme := scheme t; salts := salts t;
                         source_positions := [] |}.
Proof.
  unfold drop_git_layout. f_equal; [|case_bool_decide; done].
  destruct (existsb _ _) eqn:E; [done|]. induction (entries t) as [|e es IH]; [done|].
  cbn in E. apply orb_false_iff in E as [He E]. cbn. rewrite <- IH by done. f_equal.
  destruct e as [n g [m|]]; [done|]. done.
Qed.

Lemma validate_drop_raw (e : entry) : validate_entry e = Ok () → validate_entry (drop_raw_git_mode e) = Ok ().
Proof. unfold validate_entry. rewrite !bind_ok_unit. by intros [? _]. Qed.

Lemma rows_drop_layout (t : tree) : rows (drop_git_layout t) = drop_layout <$> rows t.
Proof.
  rewrite drop_git_layout_eq. unfold rows. cbn. destruct (scheme t).
  - by rewrite <- !list_fmap_compose.
  - generalize (Some <$> salts t) as ss. induction (entries t) as [|e es IH]; intros [|s ss]; [done..|].
    cbn. f_equal. apply IH.
Qed.

Lemma fmap_vec_insert {A B} (f : A → B) l i x : f <$> vec_insert l i x = vec_insert (f <$> l) i (f x).
Proof. unfold vec_insert. by rewrite fmap_app, fmap_cons, fmap_take, fmap_drop. Qed.
Lemma fmap_vec_remove {A B} (f : A → B) l i : f <$> vec_remove l i = vec_remove (f <$> l) i.
Proof. unfold vec_remove. by rewrite fmap_app, fmap_take, fmap_drop. Qed.
Lemma zip_vec_insert {A B} (l : list A) (k : list B) i x y :
  length l = length k → zip (vec_insert l i x) (vec_insert k i y) = vec_insert (zip l k) i (x, y).
Proof.
  intros. unfold vec_insert. rewrite zip_with_app by (rewrite !length_take; lia). cbn.
  by rewrite zip_with_take, zip_with_drop.
Qed.
Lemma zip_vec_remove {A B} (l : list A) (k : list B) i :
  length l = length k → zip (vec_remove l i) (vec_remove k i) = vec_remove (zip l k) i.
Proof.
  intros. unfold vec_remove. rewrite zip_with_app by (rewrite !length_take; lia).
  by rewrite zip_with_take, zip_with_drop.
Qed.
Lemma length_vec_insert {A B} (l : list A) (k : list B) i x y :
  length l = length k → length (vec_insert l i x) = length (vec_insert k i y).
Proof. intros. unfold vec_insert. rewrite !length_app. cbn. rewrite !length_take, !length_drop. lia. Qed.
Lemma length_vec_remove {A B} (l : list A) (k : list B) i :
  length l = length k → length (vec_remove l i) = length (vec_remove k i).
Proof. intros. unfold vec_remove. rewrite !length_app, !length_take, !length_drop. lia. Qed.

Lemma filter_names n (es : list entry) :
  NoDup (name <$> es) →
  filter (λ x, name x ≠ n) es
  = match position (λ x, bool_decide (name x = n)) es with Some i => vec_remove es i | None => es end.
Proof.
  induction es as [|x es IH]; [done|]. cbn [fmap list_fmap]. intros [Hx Hn]%NoDup_cons. cbn [position].
  specialize (IH Hn). case_bool_decide as E.
  - rewrite filter_cons_False by (by intros ?). rewrite IH.
    pose proof (position_spec (λ x : entry, bool_decide (name x = n)) es) as Hp.
    destruct (position _ es) as [i|]; [|done]. destruct Hp as (y & Hy & Hyn%bool_decide_eq_true).
    destruct Hx. rewrite E. apply list_elem_of_fmap. exists y. split; [done|]. by eapply list_elem_of_lookup_2.
  - rewrite filter_cons_True by done. rewrite IH. by destruct (position _ es).
Qed.

(** A tree is well formed when its rows are sorted and carry the right salts. *)
Lemma wf_intro (t : tree) :
  Forall (λ p, validate_entry p.1 = Ok () ∧ (scheme t = V4Salted → git_mode p.1 = None)) (rows t) →
  StronglySorted row_lt (rows t) →
  match scheme t with V3Flat => salts t = [] | V4Salted => length (salts t) = length (entries t) end →
  source_positions t = [] → wf t.
Proof.
  intros Hv Hs Hsch Hp.
  assert (entries t = fst <$> rows t) as He.
  { unfold rows in *. destruct (scheme t).
    - rewrite <- list_fmap_compose. symmetry. by apply list_fmap_id.
    - symmetry. apply fst_zip. rewrite length_fmap. lia. }
  split; [| | |by left].
  - rewrite He. apply Forall_fmap. eapply Forall_impl; [exact Hv|]. by intros ? [? _].
  - rewrite He. clear -Hs. induction Hs as [|x r Hs IH Hx]; [constructor|]. constructor; [done|].
    by apply (Forall_fmap fst (name_lt x.1)).
  - destruct (scheme t); [done|]. split; [done|]. rewrite He. apply Forall_fmap.
    eapply Forall_impl; [exact Hv|]. intros ? [_ ?]. by apply H0.
Qed.

Lemma wf_rows (t : tree) :
  wf t → Forall (λ p, validate_entry p.1 = Ok () ∧ (scheme t = V4Salted → git_mode p.1 = None)) (rows t).
Proof.
  intros Hwf. assert (Forall (λ e, validate_entry e = Ok () ∧ (scheme t = V4Salted → git_mode e = None))
    (fst <$> rows t)) as Hf; [|by apply Forall_fmap in Hf].
  rewrite rows_entries by done. apply Forall_and. split; [by apply wf_entries|].
  pose proof (wf_scheme t Hwf) as Hs. destruct (scheme t).
  - by apply Forall_forall.
  - eapply Forall_impl; [apply Hs|]. done.
Qed.

Lemma wf_drop_layout (t : tree) : wf t → wf (drop_git_layout t).
Proof.
  intros Hwf. apply wf_intro.
  - rewrite rows_drop_layout. apply Forall_fmap. eapply Forall_impl; [by apply wf_rows|].
    intros p [Hp _]. cbn. split; [by apply validate_drop_raw|done].
  - rewrite rows_drop_layout. pose proof (rows_sorted t Hwf) as Hs. clear -Hs.
    induction Hs as [|x r Hs IH Hx]; [constructor|]. constructor; [done|].
    by apply (Forall_fmap drop_layout (row_lt (drop_layout x))).
  - rewrite drop_git_layout_eq. cbn. pose proof (wf_scheme t Hwf) as Hsc. destruct (scheme t); [done|].
    rewrite length_fmap. by destruct Hsc.
  - by rewrite drop_git_layout_eq.
Qed.

Definition row_salt (t : tree) (salt : list Z) : option (list Z) :=
  match scheme t with V3Flat => None | V4Salted => Some salt end.

Lemma rows_insert (t : tree) e salt :
  wf t →
  rows (tree_insert t e salt) = put_row (drop_raw_git_mode e, row_salt t salt) (rows (drop_git_layout t))
  ∧ scheme (tree_insert t e salt) = scheme t ∧ source_positions (tree_insert t e salt) = []
  ∧ match scheme t with
    | V3Flat => salts (tree_insert t e salt) = []
    | V4Salted => length (salts (tree_insert t e salt)) = length (entries (tree_insert t e salt))
    end.
Proof.
  intros Hwf%wf_drop_layout. unfold tree_insert, row_salt. revert Hwf.
  set (t' := drop_git_layout t). assert (scheme t' = scheme t) as <- by done.
  assert (source_positions t' = []) as Hpos by (unfold t'; by rewrite drop_git_layout_eq). clearbody t'. intros Hwf.
  pose proof (wf_scheme t' Hwf) as Hsc. unfold put_row, drop_row. destruct (scheme t') eqn:Es.
  - split; [|done]. unfold rows. rewrite Es. cbn [scheme entries fst].
    rewrite filter_names.
    2:{ assert (name <$> entries t' = (λ p, name p.1) <$> rows t') as ->.
        { rewrite <- (rows_entries t' Hwf). by rewrite <- list_fmap_compose. }
        by apply sorted_names, rows_sorted. }
    rewrite position_fmap. cbn [fst name drop_raw_git_mode].
    destruct (position (λ x, bool_decide (name x = name e)) (entries t')) as [i|].
    + rewrite <- fmap_vec_remove, length_fmap, position_fmap. by rewrite fmap_vec_insert.
    + rewrite length_fmap, position_fmap. by rewrite fmap_vec_insert.
  - destruct Hsc as [Hl _]. unfold insert_salted. rewrite Es.
    assert (rows t' = zip (entries t') (Some <$> salts t')) as -> by (unfold rows; by rewrite Es).
    cbn [fst name drop_raw_git_mode].
    assert (∀ (es : list entry) ss (p : entry → bool), length ss = length es →
      position (λ y : row, p y.1) (zip es (Some <$> ss)) = position p es) as Hpz.
    { clear. intros es ss p Hl. rewrite <- (fst_zip es (Some <$> ss)) at 2 by (rewrite length_fmap; lia).
      by rewrite position_fmap. }
    pose proof (Hpz _ _ (λ x, bool_decide (name x = name e)) Hl) as Hpe. cbn beta in Hpe. rewrite Hpe.
    set (r := match position _ (entries t') with Some existing => _ | None => _ end).
    set (r' := match position _ (entries t') with Some i => _ | None => _ end).
    assert (length r.2 = length r.1 ∧ r' = zip r.1 (Some <$> r.2)) as [Hr Hr'].
    { unfold r, r'. destruct (position _ (entries t')) as [i|]; [|done]. cbn. split.
      - by apply length_vec_remove.
      - rewrite fmap_vec_remove, zip_vec_remove by (rewrite length_fmap; lia). done. }
    destruct r as [es ss]. cbn in Hr, Hr'. rewrite Hr'. unfold rows. cbn [scheme entries salts source_positions].
    split; [|split; [done|split; [done|by apply length_vec_insert]]].
    rewrite fmap_vec_insert, zip_vec_insert by (rewrite length_fmap; lia).
    rewrite (Hpz _ _ (after (name e))) by done.
    by rewrite length_zip_with, length_fmap, Hr, Nat.min_id.
Qed.
Lemma rows_remove (t : tree) n i :
  wf t → position (λ x, bool_decide (name x = n)) (entries t) = Some i →
  rows (tree_remove t n).1 = drop_row n (rows (drop_git_layout t))
  ∧ scheme (tree_remove t n).1 = scheme t ∧ source_positions (tree_remove t n).1 = []
  ∧ match scheme t with
    | V3Flat => salts (tree_remove t n).1 = []
    | V4Salted => length (salts (tree_remove t n).1) = length (entries (tree_remove t n).1)
    end.
Proof.
  intros Hwf Hi. unfold tree_remove. rewrite Hi. cbn [fst].
  pose proof (rows_entries _ (wf_drop_layout t Hwf)) as He. rewrite drop_git_layout_eq in *.
  cbn [entries scheme salts source_positions] in *. pose proof (wf_scheme t Hwf) as Hsc.
  unfold drop_row.
  assert (∀ r : list row, fst <$> r = drop_raw_git_mode <$> entries t →
    position (λ p, bool_decide (name p.1 = n)) r = Some i) as Hpos.
  { intros r Hr. pose proof (position_fmap fst (λ x : entry, bool_decide (name x = n)) r) as E.
    cbn beta in E. rewrite <- E, Hr, position_fmap. done. }
  rewrite (Hpos _ He). unfold rows. cbn [entries scheme salts]. destruct (scheme t).
  - split; [|done]. by rewrite fmap_vec_remove.
  - destruct Hsc as [Hl _]. split; [|split; [done|split; [done|]]].
    + rewrite fmap_vec_remove, zip_vec_remove; [done|]. rewrite !length_fmap. lia.
    + apply length_vec_remove. rewrite length_fmap. lia.
Qed.

Lemma tree_map_drop_layout (t : tree) : tree_map (drop_git_layout t) = drop_layout <$> tree_map t.
Proof.
  unfold tree_map. rewrite rows_drop_layout, <- list_to_map_fmap, <- !list_fmap_compose. done.
Qed.

Lemma tree_map_lookup (t : tree) n p : wf t → tree_map t !! n = Some p ↔ p ∈ rows t ∧ name p.1 = n.
Proof. intros. by apply rows_lookup, rows_sorted. Qed.

Lemma tree_get_spec (t : tree) n : wf t → returns (tree_get t n) (λ r, r = fst <$> tree_map t !! n).
Proof.
  intros Hwf. unfold tree_get.
  assert (∀ e, e ∈ entries t → name e = n → fst <$> tree_map t !! n = Some e) as Hin.
  { intros e He Hn. rewrite <- (rows_entries t Hwf) in He. apply list_elem_of_fmap in He as (p & -> & Hp).
    by rewrite (proj2 (tree_map_lookup t n p Hwf)). }
  eapply returns_bind, returns_mono;
    [apply returns_and; [apply binary_search_by_bounds|apply binary_search_by_complete]|].
  - intros j k x y Hjk Hx Hy.
    pose proof (StronglySorted_lookup_lt _ _ _ _ _ _ (wf_sorted t Hwf) Hx Hy Hjk) as Hlt.
    unfold name_lt, compare_names in Hlt. split.
    + intros Hne. destruct (compare_bytes (name y) n) eqn:E; [| |done]; destruct Hne.
      * by apply compare_bytes_eq in E as <-.
      * by eapply compare_bytes_trans.
    + intros Hne. destruct (compare_bytes (name y) n) eqn:E; [| |done].
      * by apply compare_bytes_eq in E as <-.
      * by eapply compare_bytes_trans.
  - cbn. intros [i|] [Hb Hc].
    + destruct (Hb i eq_refl) as (Hi & x & Hx & He%compare_bytes_eq). cbn.
      unfold get. rewrite (proj2 (Z.leb_le _ _)) by lia. rewrite Hx. symmetry. apply Hin; [|done].
      by eapply list_elem_of_lookup_2.
    + cbn. destruct (tree_map t !! n) as [p|] eqn:E; [|done].
      apply tree_map_lookup in E as [Hp Hn]; [|done].
      assert (p.1 ∈ entries t) as [j Hj]%list_elem_of_lookup.
      { rewrite <- (rows_entries t Hwf). apply list_elem_of_fmap. by exists p. }
      destruct (Hc eq_refl j p.1 Hj). by apply compare_bytes_eq.
Qed.

Lemma tree_insert_spec (t : tree) e salt :
  wf t → validate_entry e = Ok () →
  wf (tree_insert t e salt)
  ∧ tree_map (tree_insert t e salt)
    = <[name e := (drop_raw_git_mode e, row_salt t salt)]> (drop_layout <$> tree_map t).
Proof.
  intros Hwf He. pose proof (wf_drop_layout t Hwf) as Hwf'.
  destruct (rows_insert t e salt Hwf) as (Hr & Hs & Hp & Hsalts).
  destruct (put_row_spec (drop_raw_git_mode e, row_salt t salt) _ (rows_sorted _ Hwf')) as (Hsort & Hel & Hmap).
  rewrite <- Hr in *. split.
  - apply wf_intro; [|done|by rewrite Hs|done]. apply Forall_forall. intros p [->|Hin]%Hel.
    + cbn. split; [by apply validate_drop_raw|done].
    + pose proof (wf_rows _ Hwf') as Hf. rewrite Forall_forall in Hf. rewrite Hs. by apply Hf.
  - etransitivity; [exact Hmap|]. cbn [fst name drop_raw_git_mode]. f_equal. apply tree_map_drop_layout.
Qed.

Lemma tree_remove_spec (t : tree) n :
  wf t →
  wf (tree_remove t n).1 ∧ (tree_remove t n).2 = (λ p, drop_raw_git_mode p.1) <$> tree_map t !! n
  ∧ tree_map (tree_remove t n).1
    = match tree_map t !! n with Some _ => delete n (drop_layout <$> tree_map t) | None => tree_map t end.
Proof.
  intros Hwf. pose proof (position_spec (λ x : entry, bool_decide (name x = n)) (entries t)) as Hpos.
  destruct (position _ (entries t)) as [i|] eqn:Ei.
  - destruct Hpos as (e & He & Hn%bool_decide_eq_true).
    assert (e ∈ fst <$> rows t) as (p & -> & Hp)%list_elem_of_fmap.
    { rewrite rows_entries by done. by eapply list_elem_of_lookup_2. }
    rewrite (proj2 (tree_map_lookup t n p Hwf)) by done.
    pose proof (wf_drop_layout t Hwf) as Hwf'.
    destruct (rows_remove t n i Hwf Ei) as (Hr & Hs & Hsp & Hsalts).
    pose proof (drop_row_spec n _ (rows_sorted _ Hwf')) as (Hsort & _ & Hsub).
    pose proof (drop_row_map n _ (rows_sorted _ Hwf')) as Hmap. rewrite <- Hr in *. split; [|split].
    + apply wf_intro; [|done|by rewrite Hs|done]. pose proof (wf_rows _ Hwf') as Hf. rewrite Hs.
      destruct Hsub as [->|(x & _ & Hperm)]; [done|]. rewrite <- Hperm in Hf. by apply Forall_cons in Hf as [_ ?].
    + unfold tree_remove. rewrite Ei. cbn [snd]. rewrite drop_git_layout_eq. cbn [entries].
      by rewrite list_lookup_fmap, He.
    + etransitivity; [exact Hmap|]. f_equal. apply tree_map_drop_layout.
  - unfold tree_remove. rewrite Ei. cbn [fst snd].
    destruct (tree_map t !! n) as [p|] eqn:E; [|done].
    apply tree_map_lookup in E as [Hp Hn]; [|done]. rewrite Forall_forall in Hpos.
    assert (p.1 ∈ entries t) as Hin by (rewrite <- (rows_entries t Hwf); apply list_elem_of_fmap; by exists p).
    apply Hpos in Hin. by apply bool_decide_eq_false in Hin.
Qed.
End updates.

(** ** The Git order of the entries *)
Section git_order.
Context {Oid : Type} `{GitObjects Oid}.
Abbreviation entry := (TreeEntry Oid).
Abbreviation tree := (Tree Oid).

Definition terminator (e : entry) : Z := if is_tree e then 47 else 0.
(** Git sorts a subtree as if its name ended in a slash. *)
Definition git_key (e : entry) : list Z := name e ++ [terminator e].
Definition plain_name (n : list Z) : Prop := Forall (λ b, b ≠ 0 ∧ b ≠ 47) n.

Lemma validate_name_plain n : validate_name n = Ok () → plain_name n ∧ zlen n ≤ 65535 ∧ n ≠ [].
Proof.
  unfold validate_name. case_bool_decide; [done|]. destruct (_ || _); [done|].
  destruct (existsb _ n) eqn:E1; [done|]. destruct (existsb (λ b, (b <? 0x20) || _) n) eqn:E2; [done|].
  destruct (Z.ltb_spec 65535 (zlen n)); [done|]. intros _. split; [|done].
  apply Forall_forall. intros b Hb.
  assert (∀ f, existsb f n = false → f b = false) as Hf.
  { clear -Hb. intros f Hf. destruct (f b) eqn:E; [|done]. rewrite <- Hf. symmetry. apply existsb_exists.
    exists b. split; [by apply list_elem_of_In|done]. }
  apply Hf in E1, E2. apply orb_false_iff in E1 as [E1 _], E2 as [E2 _].
  apply Z.eqb_neq in E1. apply Z.ltb_ge in E2. lia.
Qed.

Lemma order_lists l r tl tr :
  plain_name l → plain_name r → tl = 0 ∨ tl = 47 → tr = 0 ∨ tr = 47 →
  let s := Nat.min (length l) (length r) in
  match compare_bytes (take s l) (take s r) with
  | Eq => default tl (l !! s) ?= default tr (r !! s)
  | c => c
  end = compare_bytes (l ++ [tl]) (r ++ [tr]).
Proof.
  intros Hl. revert r. induction Hl as [|x l [Hx0 Hx1] Hl IH]; intros r Hr Htl Htr; cbn.
  - destruct Hr as [|y r [Hy0 Hy1] Hr]; cbn.
    + by destruct (tl ?= tr).
    + destruct (tl ?= y) eqn:E; [apply Z.compare_eq in E; lia|done..].
  - destruct Hr as [|y r [Hy0 Hy1] Hr]; cbn.
    + destruct (x ?= tr) eqn:E; [apply Z.compare_eq in E; lia|done..].
    + destruct (x ?= y); [|done..]. by apply IH.
Qed.

Lemma git_order_key (a b : entry) :
  plain_name (name a) → plain_name (name b) →
  git_canonical_order a b = compare_bytes (git_key a) (git_key b).
Proof.
  intros Ha Hb. unfold git_key. rewrite <- order_lists; [|done|done|unfold terminator; destruct (is_tree _); lia..].
  unfold git_canonical_order. set (s := Nat.min (length (name a)) (length (name b))).
  assert (Z.min (zlen (name a)) (zlen (name b)) = Z.of_nat s) as -> by (unfold zlen; lia).
  unfold sub_list, get. rewrite (proj2 (Z.leb_le _ _)) by lia.
  by rewrite Z.sub_0_r, Nat2Z.id, !drop_0.
Qed.

Lemma enumerate_snd {A} i (l : list A) : map snd (enumerate i l) = l.
Proof. revert i. induction l as [|x l IH]; intros i; [done|]. cbn. by rewrite IH. Qed.

Lemma enumerate_lookup {A} i (l : list A) k : enumerate i l !! k = (λ x, (i + Z.of_nat k, x)) <$> l !! k.
Proof.
  revert i k. induction l as [|x l IH]; intros i [|k]; [done..| |].
  - cbn. by rewrite Z.add_0_r.
  - cbn [enumerate]. rewrite !lookup_cons, IH. destruct (l !! k); [|done]. cbn. do 2 f_equal. lia.
Qed.

Lemma enumerate_sorted {A} i (l : list A) :
  StronglySorted (λ a b, (a.1 ?= b.1) = Lt) (enumerate i l) ∧ Forall (λ a, i ≤ a.1) (enumerate i l).
Proof.
  revert i. induction l as [|x l IH]; intros i; [split; constructor|]. cbn.
  destruct (IH (i + 1)) as [Hs Hf]. split; (constructor; [done || lia|]).
  - eapply Forall_impl; [exact Hf|]. cbn. intros a Ha. apply Z.compare_lt_iff. lia.
  - eapply Forall_impl; [exact Hf|]. cbn. lia.
Qed.

Lemma in_git_order_sorted (es : list entry) :
  Forall (λ e, plain_name (name e)) es →
  in_git_order es = true → StronglySorted (λ a b, compare_bytes (git_key a) (git_key b) = Lt) es.
Proof.
  induction 1 as [|a es Ha Hes IH]; [constructor|]. intros Ho. destruct es as [|b es].
  { constructor; constructor. }
  cbn [in_git_order] in Ho. destruct (git_canonical_order a b) eqn:E; [done| |done].
  pose proof (proj1 (Forall_cons _ _ _) Hes) as [Hb _]. rewrite git_order_key in E by done.
  specialize (IH Ho). constructor; [done|]. apply StronglySorted_inv in IH as [_ Hs]. constructor; [done|].
  eapply Forall_impl; [exact Hs|]. intros c Hc. by eapply compare_bytes_trans.
Qed.

Lemma by_key_anti (a b : Z * entry) :
  compare_bytes (git_key b.2) (git_key a.2) = CompOpp (compare_bytes (git_key a.2) (git_key b.2)).
Proof. apply compare_bytes_antisym. Qed.

Lemma StronglySorted_map {A B} (f : A → B) (R : relation B) l :
  StronglySorted (λ x y, R (f x) (f y)) l ↔ StronglySorted R (map f l).
Proof.
  induction l as [|x l IH]; [split; constructor|]. cbn. split; intros [Hs Hx]%StronglySorted_inv; constructor.
  - by apply IH.
  - by apply (Forall_fmap f (R (f x))).
  - by apply IH.
  - by apply (Forall_fmap f (R (f x))).
Qed.

(** Sorting the entries in Git's order. *)
Lemma git_ordered_canonical (t : tree) es :
  source_positions t = [] → entries t ≡ₚ es → Forall (λ e, plain_name (name e)) es →
  in_git_order es = true → git_ordered_entries t = es.
Proof.
  intros Hpos Hperm Hpl Ho. unfold git_ordered_entries. rewrite Hpos, bool_decide_eq_true_2 by done.
  assert (∀ p, p ∈ enumerate 0 (entries t) → plain_name (name p.2)) as Hp.
  { intros p Hp. rewrite Forall_forall in Hpl. apply Hpl. rewrite <- Hperm, <- (enumerate_snd 0 (entries t)).
    by apply list_elem_of_fmap_2. }
  rewrite (sort_by_ext _ (λ a b, compare_bytes (git_key a.2) (git_key b.2)))
    by (intros; apply git_order_key; by apply Hp).
  set (cmp := λ a b : Z * entry, compare_bytes (git_key a.2) (git_key b.2)).
  apply (sorted_unique (λ a b, compare_bytes (git_key a) (git_key b))).
  - intros. apply compare_bytes_antisym.
  - apply (StronglySorted_map snd). apply (sort_by_sorted cmp).
    + intros. apply compare_bytes_antisym.
    + intros x y z. apply compare_bytes_le_trans.
  - by apply in_git_order_sorted.
  - etransitivity; [|exact Hperm]. rewrite <- (enumerate_snd 0 (entries t)) at 2.
    by apply (fmap_Permutation snd), sort_by_perm.
Qed.

Lemma compare_option_anti a b : compare_option b a = CompOpp (compare_option a b).
Proof. destruct a, b; [|done..]. cbn. apply Z.compare_antisym. Qed.
Lemma compare_option_trans a b c : compare_option a b ≠ Gt → compare_option b c ≠ Gt → compare_option a c ≠ Gt.
Proof.
  destruct a as [a|], b as [b|], c as [c|]; cbn; try done.
  rewrite !Z.compare_gt_iff. lia.
Qed.

(** Sorting the entries by their recorded positions. *)
Lemma git_ordered_recorded (t : tree) es :
  source_positions t ≠ [] → zip (source_positions t) (entries t) ≡ₚ enumerate 0 es →
  length (source_positions t) = length (entries t) → git_ordered_entries t = es.
Proof.
  intros Hpos Hperm Hlen. unfold git_ordered_entries. rewrite bool_decide_eq_false_2 by done.
  set (cmp := λ a b : Z * entry, compare_option (get (source_positions t) a.1) (get (source_positions t) b.1)).
  set (g := λ p : Z * entry, (default 0 (get (source_positions t) p.1), p.2)).
  assert (g <$> enumerate 0 (entries t) = zip (source_positions t) (entries t)) as Hg.
  { apply list_eq. intros k. rewrite list_lookup_fmap, enumerate_lookup, lookup_zip_with.
    destruct (entries t !! k) as [e|] eqn:E; cbn.
    2:{ apply lookup_ge_None in E. by rewrite (proj2 (lookup_ge_None _ _)) by lia. }
    destruct (lookup_lt_is_Some_2 (source_positions t) k) as [p Hp].
    { apply lookup_lt_Some in E. lia. }
    unfold g, get. cbn [fst snd]. rewrite Z.add_0_l, (proj2 (Z.leb_le _ _)) by lia. by rewrite Nat2Z.id, Hp. }
  assert (map g (sort_by cmp (enumerate 0 (entries t))) = enumerate 0 es) as E.
  { apply (sorted_unique (λ a b, a.1 ?= b.1)).
    - intros. apply Z.compare_antisym.
    - apply (StronglySorted_map g). pose proof (sort_by_sorted cmp) as Hs.
      specialize (Hs (λ _ _, compare_option_anti _ _) (λ _ _ _, compare_option_trans _ _ _) (enumerate 0 (entries t))).
      assert (Forall (λ p, is_Some (get (source_positions t) p.1)) (sort_by cmp (enumerate 0 (entries t)))) as Hf.
      { rewrite sort_by_perm. apply Forall_lookup. intros k p. rewrite enumerate_lookup.
        destruct (entries t !! k) eqn:Ek; [|done]. intros [= <-]. cbn [fst]. apply lookup_lt_Some in Ek.
        unfold get. rewrite Z.add_0_l, (proj2 (Z.leb_le _ _)), Nat2Z.id by lia. apply lookup_lt_is_Some_2. lia. }
      clear -Hs Hf. induction Hs as [|x l Hs IH Hx]; [constructor|].
      apply Forall_cons in Hf as [[px Hpx] Hf]. constructor; [by apply IH|].
      rewrite Forall_forall in *. intros y Hy. specialize (Hx y Hy). destruct (Hf y Hy) as [py Hpy].
      unfold cmp, g in *. cbn. rewrite Hpx, Hpy in *. done.
    - apply enumerate_sorted.
    - etransitivity; [by apply (fmap_Permutation g), sort_by_perm|]. by rewrite Hg. }
  apply (f_equal (map snd)) in E. rewrite enumerate_snd, map_map in E. exact E.
Qed.
End git_order.

(** ** Raw modes and the layout trailer *)
Section layout.
Context {Oid : Type} `{GitObjects Oid}.
Abbreviation entry := (TreeEntry Oid).

Definition mode_ok (m : RawGitMode) : Prop := 0 < value m ≤ U32_MAX ∧ 0 ≤ leading_zeros m ≤ U8_MAX.
Definition position_ok (p : option Z) : Prop := ∀ v, p = Some v → 0 ≤ v ≤ U32_MAX.

(** The number that octal digits denote. *)
Definition eval (digits : list Z) (v : Z) : Z := fold_left (λ v d, v * 8 + (d - 48)) digits v.
Definition octal (d : Z) : Prop := is_octal d = true.

Lemma octal_bounds d : octal d → 48 ≤ d ≤ 55.
Proof. unfold octal, is_octal. rewrite andb_true_iff, !Z.leb_le. lia. Qed.

Lemma eval_mono ds v : Forall octal ds → 0 ≤ v → v ≤ eval ds v.
Proof.
  intros Hf. revert v. induction Hf as [|d ds Hd%octal_bounds Hf IH]; intros v Hv; cbn; [done|].
  etransitivity; [|apply IH]; lia.
Qed.

Lemma octal_value_eval ds v :
  Forall octal ds → 0 ≤ v → v ≤ U32_MAX →
  octal_value ds v = if eval ds v <=? U32_MAX then Some (eval ds v) else None.
Proof.
  intros Hf. revert v. induction Hf as [|d ds Hd%octal_bounds Hf IH]; intros v Hv Hm; cbn [octal_value].
  - change (eval [] v) with v. by rewrite (proj2 (Z.leb_le _ _)).
  - change (eval (d :: ds) v) with (eval ds (v * 8 + (d - 48))).
    pose proof (eval_mono ds (v * 8 + (d - 48)) Hf ltac:(lia)) as Hmono.
    destruct (Z.leb_spec (v * 8) U32_MAX).
    + destruct (Z.leb_spec (v * 8 + (d - 48)) U32_MAX); [apply IH; lia|].
      by rewrite (proj2 (Z.leb_gt _ _)) by lia.
    + by rewrite (proj2 (Z.leb_gt _ _)) by lia.
Qed.

Lemma octal_digits_acc fuel v acc : octal_digits fuel v acc = octal_digits fuel v [] ++ acc.
Proof.
  revert v acc. induction fuel as [|fuel IH]; intros v acc; cbn [octal_digits]; [done|].
  destruct (v =? 0); [done|]. by rewrite IH, (IH _ [_]), <- app_assoc.
Qed.

Lemma octal_digits_step fuel v :
  0 < v → octal_digits (S fuel) v [] = octal_digits fuel (v / 8) [] ++ [48 + v `mod` 8].
Proof. intros. cbn [octal_digits]. rewrite (proj2 (Z.eqb_neq _ _)) by lia. apply octal_digits_acc. Qed.

Lemma octal_digits_0 fuel : octal_digits fuel 0 [] = [].
Proof. by destruct fuel. Qed.

Definition no_leading_zero (ds : list Z) : Prop := head ds ≠ Some 48.

Lemma octal_digits_spec fuel v :
  0 ≤ v < 8 ^ Z.of_nat fuel →
  let ds := octal_digits fuel v [] in
  Forall octal ds ∧ eval ds 0 = v ∧ no_leading_zero ds ∧ (0 < v → ds ≠ []).
Proof.
  revert v. induction fuel as [|fuel IH]; intros v Hv.
  { cbn in *. assert (v = 0) as -> by lia. by repeat constructor. }
  destruct (decide (v = 0)) as [->|Hne]; [by repeat constructor|].
  rewrite octal_digits_step by lia. rewrite Nat2Z.inj_succ, Z.pow_succ_r in Hv by lia.
  assert (0 ≤ v / 8 < 8 ^ Z.of_nat fuel) as Hq.
  { split; [apply Z.div_pos; lia|apply Z.div_lt_upper_bound; lia]. }
  pose proof (Z.mod_pos_bound v 8 ltac:(lia)) as Hr. pose proof (Z.div_mod v 8 ltac:(lia)) as Hdm.
  destruct (IH _ Hq) as (Hf & He & Hh & Hn). cbv zeta. split; [|split; [|split]].
  - apply Forall_app. split; [done|]. constructor; [|constructor].
    unfold octal, is_octal. apply andb_true_iff. rewrite !Z.leb_le. lia.
  - unfold eval in *. rewrite fold_left_app, He. cbn [fold_left]. lia.
  - destruct (decide (0 < v / 8)) as [Hp|Hp].
    + unfold no_leading_zero in *. by destruct (octal_digits fuel (v / 8) []); [by destruct Hn|].
    + assert (v / 8 = 0) as E by lia. rewrite E, octal_digits_0 in *. unfold no_leading_zero. cbn [app head].
      assert (48 + v `mod` 8 ≠ 48) as Hd by lia. congruence.
  - intros _ E. by apply app_nil in E as [_ ?].
Qed.

Lemma eval_lower d ds : Forall octal (d :: ds) → d ≠ 48 → 8 ^ zlen ds ≤ eval (d :: ds) 0.
Proof.
  intros Hf Hd. apply Forall_cons in Hf as [Ho%octal_bounds Hf].
  assert (∀ ds v, Forall octal ds → 0 < v → v * 8 ^ zlen ds ≤ eval ds v) as Hgen.
  { clear. intros ds v Hf. revert v. induction Hf as [|d ds Hd%octal_bounds Hf IH]; intros v Hv; [change (v * 1 ≤ v); lia|].
    change (eval (d :: ds) v) with (eval ds (v * 8 + (d - 48))). etransitivity; [|apply IH; lia].
    rewrite zlen_cons, Z.pow_add_r by zlia. pose proof (zlen_nonneg ds).
    assert (0 < 8 ^ zlen ds) by (apply Z.pow_pos_nonneg; lia). nia. }
  change (eval (d :: ds) 0) with (eval ds (0 * 8 + (d - 48))). etransitivity; [|apply Hgen; [done|lia]].
  assert (0 < 8 ^ zlen ds) by (apply Z.pow_pos_nonneg; zlia). nia.
Qed.

Lemma octal_digits_eval fuel ds :
  Forall octal ds → no_leading_zero ds → (length ds ≤ fuel)%nat → octal_digits fuel (eval ds 0) [] = ds.
Proof.
  revert ds. induction fuel as [|fuel IH]; intros ds Hf Hh Hl.
  { destruct ds; [done|cbn in *; lia]. }
  destruct ds as [|d0 ds0] eqn:Eds; [done|]. rewrite <- Eds in *.
  assert (0 < eval ds 0) as Hpos.
  { rewrite Eds in *. pose proof (eval_lower d0 ds0 Hf ltac:(intros ->; by apply Hh)) as Hlow.
    assert (0 < 8 ^ zlen ds0) by (apply Z.pow_pos_nonneg; zlia). lia. }
  rewrite octal_digits_step by done.
  destruct (exists_last (l := ds) ltac:(by rewrite Eds)) as (s & d & ->).
  apply Forall_app in Hf as [Hf Hd]. apply Forall_cons in Hd as [Hd%octal_bounds _].
  unfold eval in *. rewrite fold_left_app in *. cbn [fold_left] in *. fold (eval s 0) in *.
  assert ((eval s 0 * 8 + (d - 48)) / 8 = eval s 0 ∧ (eval s 0 * 8 + (d - 48)) `mod` 8 = d - 48) as [-> ->]
    by (pose proof (eval_mono s 0 Hf ltac:(lia)); Z.to_euclidean_division_equations; lia).
  rewrite length_app in Hl. cbn in Hl. rewrite IH; [do 2 f_equal; lia|done| |lia].
  unfold no_leading_zero in *. by destruct s.
Qed.

Lemma count_zeros_spec ds :
  ds = replicate (count_zeros ds) 48 ++ drop (count_zeros ds) ds ∧ no_leading_zero (drop (count_zeros ds) ds).
Proof.
  induction ds as [|d ds [IH1 IH2]]; [done|]. cbn [count_zeros]. destruct (Z.eqb_spec d 48) as [->|Hd].
  - cbn. split; [by f_equal|done].
  - split; [done|]. unfold no_leading_zero. cbn. congruence.
Qed.

Lemma count_zeros_app n ds : no_leading_zero ds → count_zeros (replicate n 48 ++ ds) = n.
Proof.
  intros Hh. induction n as [|n IH]; cbn; [|by rewrite IH].
  destruct ds as [|d ds]; [done|]. cbn. destruct (Z.eqb_spec d 48) as [->|]; [by destruct Hh|done].
Qed.

Lemma forallb_octal ds : forallb is_octal ds = true ↔ Forall octal ds.
Proof. rewrite forallb_forall, Forall_forall. by setoid_rewrite list_elem_of_In. Qed.

Lemma octal_zeros n : Forall octal (replicate n 48).
Proof. by apply Forall_replicate. Qed.

Lemma parse_write m : mode_ok m → parse (write_digits m) = Ok m.
Proof.
  intros [Hv Hz]. unfold parse, write_digits. unfold U32_MAX, U8_MAX in *.
  destruct (octal_digits_spec 11 (value m)) as (Hf & He & Hh & Hn); [change (8 ^ Z.of_nat 11) with 8589934592; lia|].
  set (ds := octal_digits 11 (value m) []) in *. rewrite count_zeros_app by done.
  rewrite drop_app_length' by by rewrite length_replicate.
  rewrite bool_decide_eq_false_2 by (apply Hn; lia).
  rewrite (proj2 (forallb_octal _)) by (apply Forall_app; split; [apply octal_zeros|done]). cbn [negb orb].
  rewrite octal_value_eval, He by (done || (unfold U32_MAX; lia)). rewrite (proj2 (Z.leb_le (value m) U32_MAX)) by (unfold U32_MAX; lia).
  cbn [ok_or]. apply bind_ok. exists (value m). split; [done|].
  rewrite (proj2 (Z.eqb_neq _ _)) by lia. rewrite Z2Nat.id by lia.
  rewrite (proj2 (Z.leb_le _ _)) by (unfold U8_MAX; lia). by destruct m.
Qed.

Lemma write_parse ds m : parse ds = Ok m → mode_ok m ∧ write_digits m = ds.
Proof.
  unfold parse. destruct (count_zeros_spec ds) as [Hds Hh]. set (s := drop (count_zeros ds) ds) in *.
  case_bool_decide as Hs; [done|]. cbn [orb]. destruct (forallb is_octal ds) eqn:Ef; [|done]. cbn [negb].
  apply forallb_octal in Ef. rewrite Hds in Ef. apply Forall_app in Ef as [_ Ef].
  rewrite octal_value_eval by (done || (unfold U32_MAX; lia)).
  destruct (Z.leb_spec (eval s 0) U32_MAX) as [Hle|]; [|done]. cbn [ok_or].
  rewrite bind_ok. intros (v & [= <-] & E). destruct (Z.eqb_spec (eval s 0) 0) as [|Hne]; [done|].
  destruct (Z.leb_spec (Z.of_nat (count_zeros ds)) U8_MAX); [|done]. injection E as <-.
  pose proof (eval_mono s 0 Ef ltac:(lia)). split; [split; cbn; lia|].
  unfold write_digits. cbn [value leading_zeros]. rewrite Nat2Z.id, octal_digits_eval; [done..|].
  destruct s as [|d s0]; [done|]. pose proof (eval_lower d s0 Ef ltac:(intros ->; by apply Hh)) as Hlow.
  assert (zlen s0 < 11); [|unfold zlen in *; cbn; lia].
  apply (Z.pow_lt_mono_r_iff 8); [lia..|]. unfold U32_MAX in *. change (8 ^ 11) with 8589934592. lia.
Qed.
(** The flag bytes that announce a layout. *)
Definition is_layout (f : Z) : Prop := f = 0 ∨ f = 64 ∨ f = 128 ∨ f = 192.

Lemma layout_flags_cases (e : entry) p :
  layout_flags e p = match git_mode e, p with
                     | None, None => 0 | Some _, None => 128 | None, Some _ => 64 | Some _, Some _ => 192
                     end.
Proof. unfold layout_flags. by destruct (git_mode e), p. Qed.

Lemma layout_flags_is_layout (e : entry) p : is_layout (layout_flags e p).
Proof. rewrite layout_flags_cases. unfold is_layout. destruct (git_mode e), p; tauto. Qed.

(** The raw mode of an entry describes it and is not the canonical one. *)
Definition mode_fits (e : entry) : Prop :=
  ∀ m, git_mode e = Some m → mode_ok m ∧ check_raw_git_mode e m = Ok ().

Lemma le4_bytes v : 0 ≤ v ≤ U32_MAX → from_le_bytes (to_le_bytes 4 v) = v.
Proof. unfold U32_MAX. intros. apply from_to_le_bytes. change (256 ^ Z.of_nat 4) with 4294967296. lia. Qed.

Lemma from_le4_bound bs : bytes_ok bs → zlen bs = 4 → 0 ≤ from_le_bytes bs ≤ U32_MAX.
Proof.
  intros Hb Hz. pose proof (from_be_bytes_bound (reverse bs) ltac:(by rewrite Forall_reverse)) as Hr.
  unfold zlen in *. rewrite length_reverse, Hz in Hr.
  unfold from_le_bytes, U32_MAX. change (256 ^ 4) with 4294967296 in Hr. lia.
Qed.

Definition with_checked_raw_git_mode (e : entry) (m : RawGitMode) : entry :=
  {| name := name e; target := target e; git_mode := Some m |}.

(** The part of [apply_layout_trailer] that reads the position. *)
Definition read_position (e : entry) (flags : Z) (rest : list Z) : res (entry * option Z) :=
  if negb (Z.land flags ENTRY_FLAG_SOURCE_POSITION =? 0) then
    if zlen rest =? 4 then Ok (e, Some (from_le_bytes rest))
    else Err (InvalidStructure "malformed tree entry layout trailer")
  else Ok (e, None).

Lemma apply_mode_trailer (e : entry) flags v z rest :
  negb (Z.land flags ENTRY_FLAG_RAW_GIT_MODE =? 0) = true →
  zlen (v ++ z :: rest) = layout_trailer_len flags → zlen v = 4 →
  apply_layout_trailer e flags (v ++ z :: rest)
  = if from_le_bytes v =? 0 then Err (InvalidStructure "malformed tree entry layout trailer")
    else _ ← check_raw_git_mode e {| value := from_le_bytes v; leading_zeros := z |};
         read_position (with_checked_raw_git_mode e {| value := from_le_bytes v; leading_zeros := z |}) flags rest.
Proof.
  intros Hf Hlen Hv. unfold apply_layout_trailer. rewrite (proj2 (Z.eqb_eq _ _) Hlen), Hf. cbn [negb].
  change (v ++ z :: rest) with (v ++ [z] ++ rest). rewrite app_assoc.
  assert (zlen (v ++ [z]) = RAW_GIT_MODE_TRAILER_LEN) as H5 by (unfold RAW_GIT_MODE_TRAILER_LEN; zlia).
  rewrite (slice_suffix (v ++ [z]) rest) by done.
  rewrite (slice_prefix (v ++ [z]) rest) by (rewrite ?H5; unfold RAW_GIT_MODE_TRAILER_LEN; lia).
  rewrite <- H5, (slice_ok (v ++ [z])), sub_list_full by zlia. rewrite !bind_Ok.
  rewrite slice_prefix, <- Hv, slice_ok, sub_list_full, bind_Ok by lia. cbv zeta.
  destruct (from_le_bytes v =? 0); [done|]. rewrite index_app_middle, bind_Ok by done.
  rewrite Hv. destruct (check_raw_git_mode e _) as [[]|?| |]; reflexivity.
Qed.

Lemma apply_plain_trailer (e : entry) flags trailer :
  negb (Z.land flags ENTRY_FLAG_RAW_GIT_MODE =? 0) = false →
  zlen trailer = layout_trailer_len flags →
  apply_layout_trailer e flags trailer = read_position e flags trailer.
Proof. intros Hf Hlen. unfold apply_layout_trailer. by rewrite (proj2 (Z.eqb_eq _ _) Hlen), Hf. Qed.

Lemma write_apply_trailer (e : entry) p :
  mode_fits e → position_ok p →
  apply_layout_trailer (drop_raw_git_mode e) (layout_flags e p) (write_layout_trailer e p) = Ok (e, p).
Proof.
  intros Hm Hp. rewrite layout_flags_cases. unfold write_layout_trailer.
  assert (∀ f p, position_ok p → negb (Z.land f ENTRY_FLAG_SOURCE_POSITION =? 0) = match p with Some _ => true | None => false end →
    ∀ e, read_position e f match p with Some v => to_le_bytes 4 v | None => [] end = Ok (e, p)) as Hread.
  { clear. intros f p Hp Hf e. unfold read_position. rewrite Hf. destruct p as [v|]; [|done].
    rewrite zlen_to_le_bytes. cbn [Z.eqb]. change (Z.of_nat 4 =? 4) with true. cbv iota.
    by rewrite le4_bytes by by apply Hp. }
  destruct (git_mode e) as [m|] eqn:Em.
  - destruct (Hm m Em) as [[Hv Hz] Hc]. rewrite <- app_assoc. cbn [app].
    rewrite apply_mode_trailer; [|by destruct p|destruct p; by autorewrite with zlen; rewrite ?zlen_to_le_bytes|apply zlen_to_le_bytes].
    rewrite le4_bytes by lia. rewrite (proj2 (Z.eqb_neq _ _)) by lia.
    assert ({| value := value m; leading_zeros := leading_zeros m |} = m) as -> by by destruct m.
    change (check_raw_git_mode (drop_raw_git_mode e) m) with (check_raw_git_mode e m). rewrite Hc, bind_Ok.
    rewrite Hread; [|done|by destruct p]. do 2 f_equal. destruct e; cbn in *. by subst.
  - rewrite apply_plain_trailer; [|by destruct p|destruct p; cbn [app]; by rewrite ?zlen_to_le_bytes].
    cbn [app]. rewrite Hread; [|done|by destruct p]. do 2 f_equal. destruct e; cbn in *. by subst.
Qed.

Lemma read_position_ok (e e' : entry) f rest p :
  bytes_ok rest → read_position e f rest = Ok (e', p) → zlen rest = (if negb (Z.land f ENTRY_FLAG_SOURCE_POSITION =? 0) then 4 else 0) →
  e' = e ∧ position_ok p ∧ rest = match p with Some v => to_le_bytes 4 v | None => [] end
  ∧ negb (Z.land f ENTRY_FLAG_SOURCE_POSITION =? 0) = match p with Some _ => true | None => false end.
Proof.
  unfold read_position. intros Hb. destruct (negb _).
  - destruct (Z.eqb_spec (zlen rest) 4) as [Hz|]; [|done]. intros [= <- <-] _. split; [done|].
    split; [intros v [= <-]; by apply from_le4_bound|]. by rewrite to_from_le_bytes.
  - intros [= <- <-] Hz. split; [done|]. split; [done|]. split; [by apply zlen_0_nil|done].
Qed.

Lemma apply_write_trailer (e e' : entry) f p trailer :
  git_mode e = None → is_layout f → bytes_ok trailer →
  apply_layout_trailer e f trailer = Ok (e', p) →
  drop_raw_git_mode e' = e ∧ mode_fits e' ∧ position_ok p
  ∧ layout_flags e' p = f ∧ write_layout_trailer e' p = trailer.
Proof.
  intros Hn Hf Hb Ha. assert (drop_raw_git_mode e = e) as He by (destruct e; cbn in *; by subst).
  assert (zlen trailer = layout_trailer_len f) as Hlen.
  { unfold apply_layout_trailer in Ha. by destruct (Z.eqb_spec (zlen trailer) (layout_trailer_len f)). }
  rewrite layout_flags_cases. unfold write_layout_trailer.
  destruct (negb (Z.land f ENTRY_FLAG_RAW_GIT_MODE =? 0)) eqn:Eraw.
  - assert (∃ v z rest, trailer = v ++ z :: rest ∧ zlen v = 4
      ∧ zlen rest = (if negb (Z.land f ENTRY_FLAG_SOURCE_POSITION =? 0) then 4 else 0)) as (v & z & rest & -> & Hv & Hr).
    { assert (zlen trailer = 5 + (if negb (Z.land f ENTRY_FLAG_SOURCE_POSITION =? 0) then 4 else 0)) as Hl
        by (rewrite Hlen; by destruct Hf as [->|[->|[->| ->]]]).
      assert (5 ≤ zlen trailer) as H5 by (rewrite Hl; clear; destruct (negb _); lia).
      destruct trailer as [|a [|b [|c [|d [|z rest]]]]]; try (unfold zlen in H5; cbn in H5; lia).
      exists [a; b; c; d], z, rest. split; [done|]. split; [done|]. rewrite !zlen_cons in Hl. lia. }
    rewrite apply_mode_trailer in Ha by done. apply Forall_app in Hb as [Hbv Hbr]. apply Forall_cons in Hbr as [Hz Hbr].
    destruct (Z.eqb_spec (from_le_bytes v) 0) as [|Hne]; [done|].
    apply bind_ok in Ha as ([] & Hc & Ha). apply read_position_ok in Ha as (-> & Hp & -> & Hpos); [|done..].
    pose proof (from_le4_bound v Hbv Hv). split; [by rewrite <- He at 2|]. split.
    { intros m [= <-]. split; [|done]. split; cbn; [lia|]. unfold is_byte, U8_MAX in *. lia. }
    split; [done|]. cbn [git_mode with_checked_raw_git_mode value leading_zeros]. rewrite to_from_le_bytes, <- app_assoc by done.
    split; [|done]. by destruct p, Hf as [->|[->|[->| ->]]].
  - rewrite apply_plain_trailer in Ha by done.
    apply read_position_ok in Ha as (-> & Hp & -> & Hpos); [|done|rewrite Hlen; by destruct Hf as [->|[->|[->| ->]]]].
    rewrite Hn. split; [done|]. split; [intros m; by rewrite Hn|]. split; [done|].
    split; [|done]. by destruct p, Hf as [->|[->|[->| ->]]].
Qed.
End layout.

(** ** Properties *)
Section properties.
Context {Oid : Type} `{GitObjects Oid}.
Abbreviation entry := (TreeEntry Oid).
Abbreviation tree := (Tree Oid).

(** A check that neither panics nor loops decides what its success means. *)
Lemma settles_decides {E} (m : exec E unit) (Q : Prop) :
  settles m (λ _, True) (λ _, True) → (m = Ok () ↔ Q) → settles m (λ _, Q) (λ _, ¬ Q).
Proof. intros Hm HQ. destruct m as [[]|e| |]; cbn in *; [by apply HQ|by intros ?%HQ|done..]. Qed.

Lemma validate_entry_settles (e : entry) : settles (validate_entry e) (λ _, True) (λ _, True).
Proof.
  unfold validate_entry. apply settles_bind, (settles_mono _ (λ _, True) _ (λ _, True)); [|intros _ _|done].
  - unfold validate_name. by repeat case_match.
  - destruct (git_mode e); [|done]. unfold check_raw_git_mode. by repeat case_match.
Qed.

Lemma check_entries_settles prev (es : list entry) : settles (check_entries prev es) (λ _, True) (λ _, True).
Proof.
  revert prev. induction es as [|e es IH]; intros prev; [done|]. cbn [check_entries].
  step (validate_entry_settles e) as _; [|done]. destruct prev as [p|]; [|apply IH].
  destruct (compare_bytes p (name e)); [done|apply IH|done].
Qed.

Lemma check_positions_settles ps seen : settles (check_positions ps seen) (λ _, True) (λ _, True).
Proof.
  revert seen. induction ps as [|p ps IH]; intros seen; [done|]. cbn [check_positions].
  destruct (get seen p) as [[]|] eqn:E; [done| |done]. apply get_Some in E as [? _].
  unfold vec_set. rewrite (proj2 (Z.leb_le _ _)), (proj2 (Z.ltb_lt _ _)) by lia. apply IH.
Qed.

Lemma validate_settles (t : tree) : settles (validate t) (λ _, True) (λ _, True).
Proof.
  unfold validate. apply settles_bind, (settles_mono _ (λ _, True) _ (λ _, True)).
  - destruct (scheme t); repeat case_match; done.
  - intros [] _. step (check_entries_settles None (entries t)) as _; [|done].
    unfold validate_source_positions. repeat case_bool_decide; try done. destruct (negb _); [done|].
    step (check_positions_settles (source_positions t) (replicate (length (entries t)) false)) as _; [|done].
    by destruct (in_git_order _).
  - done.
Qed.

Lemma raw_modes (es : list entry) :
  existsb (λ e, match git_mode e with Some _ => true | None => false end) es = false
  ↔ Forall (λ e, git_mode e = None) es.
Proof.
  induction es as [|e es IH]; cbn; [split; [constructor|done]|].
  rewrite orb_false_iff, Forall_cons, IH. destruct (git_mode e); [|tauto].
  split; intros [? _]; congruence.
Qed.

Lemma validate_wf (t : tree) : settles (validate t) (λ _, wf t) (λ _, ¬ wf t).
Proof.
  apply settles_decides; [apply validate_settles|]. unfold validate.
  rewrite !bind_ok_unit, check_entries_ok, validate_source_positions_ok. split.
  - intros (Hs & (Hv & Hsort & _) & Hp). split; [done|done| |done]. destruct (scheme t).
    + by case_bool_decide.
    + destruct (Z.eqb_spec (zlen (salts t)) (zlen (entries t))); cbn in Hs; [|done].
      destruct (existsb _ _) eqn:E; [done|]. split; [unfold zlen in *; lia|by apply raw_modes].
  - intros [Hv Hsort Hs Hp]. split; [|split; [split; [done|by split]|done]]. destruct (scheme t).
    + by rewrite Hs.
    + destruct Hs as [Hl Hn%raw_modes]. unfold zlen. by rewrite Hl, Z.eqb_refl, Hn.
Qed.

Lemma enumerate_fst {A} i (l : list A) : map fst (enumerate i l) = seqZ i (zlen l).
Proof.
  apply list_eq. intros k. rewrite (list_lookup_fmap fst), enumerate_lookup.
  destruct (l !! k) as [x|] eqn:E; cbn [fmap option_fmap option_map].
  - symmetry. apply lookup_seqZ. apply lookup_lt_Some in E. unfold zlen. cbn. lia.
  - apply lookup_ge_None in E. symmetry. apply lookup_ge_None. rewrite length_seqZ. unfold zlen. lia.
Qed.

Lemma duplicate_name_spec (ps : list (entry * Z)) :
  StronglySorted (λ a b, compare_names a.1 b.1 ≠ Gt) ps →
  if duplicate_name ps then ¬ NoDup (name <$> map fst ps) else StronglySorted name_lt (map fst ps).
Proof.
  induction 1 as [|a ps Hs IH Ha]; [constructor|]. destruct ps as [|b ps]; [by repeat constructor|].
  assert (duplicate_name (a :: b :: ps) = bool_decide (name a.1 = name b.1) || duplicate_name (b :: ps)) as -> by done.
  apply Forall_cons in Ha as [Hab Ha]. case_bool_decide as E; cbn [orb].
  - cbn. rewrite NoDup_cons, E. intros [Hx _]. apply Hx. by left.
  - destruct (duplicate_name (b :: ps)).
    + cbn [map fmap list_fmap] in *. by rewrite NoDup_cons; intros [_ ?].
    + cbn [map] in *. assert (name_lt a.1 b.1) as Hlt.
      { unfold name_lt, compare_names in *. destruct (compare_bytes _ _) eqn:Ec; [|done|done].
        by apply compare_bytes_eq in Ec. }
      constructor; [done|]. apply StronglySorted_inv in IH as [_ Hb]. constructor; [done|].
      eapply Forall_impl; [exact Hb|]. intros x Hx. by eapply compare_bytes_trans.
Qed.

Lemma sorted_by_names {A} (f : A → entry) l :
  StronglySorted (λ a b, compare_names (f a) (f b) ≠ Gt) (sort_by (λ a b, compare_names (f a) (f b)) l).
Proof.
  apply sort_by_sorted; intros; [apply compare_bytes_antisym|by eapply compare_bytes_le_trans].
Qed.

Lemma valid_plain (es : list entry) :
  Forall (λ e, validate_entry e = Ok ()) es → Forall (λ e, plain_name (name e)) es.
Proof.
  intros Hf. eapply Forall_impl; [exact Hf|]. intros e He. unfold validate_entry in He.
  apply bind_ok_unit in He as [He _]. by apply validate_name_plain.
Qed.

(** C35. [Tree::validate], the gate of every decoder, always answers, and
    accepts exactly the well-formed trees: valid entries strictly sorted by
    name, no salt in a V3 tree and one per entry in a V4 tree, which has no raw
    Git modes, and recorded source positions that are a permutation of the
    entries that differs from Git's own order. *)
Theorem validate_decides (t : tree) : settles (validate t) (λ _, wf t) (λ _, ¬ wf t).
Proof. apply validate_wf. Qed.

(** C32. On a well-formed tree lookup, insertion and removal act as on a finite
    map from names to entries (a V4 entry with its salt), and keep the tree
    well formed; an edit that takes effect drops the recorded Git layout. *)
Theorem tree_ops_map (t : tree) (Hwf : wf t) :
  (∀ n, returns (tree_get t n) (λ r, r = fst <$> tree_map t !! n))
  ∧ (∀ e salt, validate_entry e = Ok () →
       wf (tree_insert t e salt)
       ∧ tree_map (tree_insert t e salt)
         = <[name e := (drop_raw_git_mode e, row_salt t salt)]> (drop_layout <$> tree_map t))
  ∧ (∀ n,
       wf (tree_remove t n).1
       ∧ (tree_remove t n).2 = (λ p, drop_raw_git_mode p.1) <$> tree_map t !! n
       ∧ tree_map (tree_remove t n).1
         = match tree_map t !! n with
           | Some _ => delete n (drop_layout <$> tree_map t)
           | None => tree_map t
           end).
Proof.
  split; [intros; by apply tree_get_spec|]. split; [intros; by apply tree_insert_spec|].
  intros. by apply tree_remove_spec.
Qed.

(** Importing a Git tree ([Tree::from_git_entries]) always answers.  It
    fails only on a list with an invalid entry, a repeated name or more than
    2^32 entries; otherwise the tree is well formed and [git_ordered_entries]
    gives back the imported entries in the order of the source, whether that
    was Git's canonical order (nothing is recorded) or not. *)
Theorem from_git_entries_roundtrip (es : list entry) :
  settles (from_git_entries es)
    (λ t, wf t ∧ scheme t = V3Flat ∧ entries t ≡ₚ es ∧ git_ordered_entries t = es)
    (λ _, ¬ (Forall (λ e, validate_entry e = Ok ()) es ∧ NoDup (name <$> es) ∧ zlen es ≤ U32_MAX + 1)).
Proof.
  unfold from_git_entries. destruct (Z.ltb_spec (U32_MAX + 1) (zlen es)) as [Hlen|Hlen].
  { cbn. intros (_ & _ & ?). lia. }
  set (paired := sort_by _ _).
  assert (paired ≡ₚ map (λ p, (p.2, p.1)) (enumerate 0 es)) as Hp by apply sort_by_perm.
  assert (map fst paired ≡ₚ es) as Hfst.
  { rewrite (fmap_Permutation fst _ _ Hp). change (map fst (map (λ p, (p.2, p.1)) (enumerate 0 es)) ≡ₚ es).
    rewrite map_map. cbn. by rewrite enumerate_snd. }
  assert (map snd paired ≡ₚ seqZ 0 (zlen es)) as Hsnd.
  { rewrite (fmap_Permutation snd _ _ Hp).
    change (map snd (map (λ p, (p.2, p.1)) (enumerate 0 es)) ≡ₚ seqZ 0 (zlen es)).
    rewrite map_map. cbn. by rewrite enumerate_fst. }
  assert (zip (map snd paired) (map fst paired) ≡ₚ enumerate 0 es) as Hzip.
  { assert (zip (map snd paired) (map fst paired) = map (λ p, (p.2, p.1)) paired) as ->.
    { clear. induction paired as [|p l IH]; [done|]. cbn. by rewrite <- IH. }
    rewrite (fmap_Permutation _ _ _ Hp). change (map (λ p, (p.2, p.1)) (map (λ p, (p.2, p.1)) (enumerate 0 es)) ≡ₚ enumerate 0 es).
    rewrite map_map. cbn. erewrite map_ext; [by rewrite map_id|]. by intros []. }
  pose proof (duplicate_name_spec paired (sorted_by_names fst _)) as Hdup.
  destruct (duplicate_name paired).
  { intros (_ & Hn & _). apply Hdup. by rewrite Hfst. }
  set (t := {| entries := _ |}). change (entries t ≡ₚ es) in Hfst.
  assert (zlen (entries t) = zlen es) as Hz by (unfold zlen; by rewrite Hfst).
  assert (Forall (λ e, validate_entry e = Ok ()) es → git_ordered_entries t = es) as Hord.
  { intros Hv. destruct (in_git_order es) eqn:Ho.
    - apply git_ordered_canonical; [done|done| |done]. by apply valid_plain.
    - apply git_ordered_recorded; [|done|unfold t; cbn; by rewrite !length_map].
      unfold t. cbn. intros E. rewrite E in Hsnd. apply Permutation_nil in Hsnd.
      destruct es; [done|]. apply (f_equal length) in Hsnd. rewrite length_seqZ, zlen_cons in Hsnd. cbn in Hsnd. zlia. }
  step (validate_wf t) as Hwf.
  - cbn. split; [done|]. split; [done|]. split; [done|]. apply Hord. rewrite <- Hfst. by apply wf_entries.
  - intros e Hwf (Hv & _ & _). apply Hwf. split; [by rewrite Hfst|done|done|].
    rewrite (Hord Hv), Hz. unfold t. cbn. destruct (in_git_order es) eqn:Ho; [by left|right; done].
Qed.

Lemma trailer_len (e : entry) p : zlen (write_layout_trailer e p) = layout_trailer_len (layout_flags e p).
Proof.
  rewrite layout_flags_cases. unfold write_layout_trailer.
  destruct (git_mode e), p; rewrite ?zlen_app, ?zlen_to_le_bytes; reflexivity.
Qed.

(** The digits of a Git mode survive: [RawGitMode::parse] accepts a digit
    string with a mode exactly when the mode fits its types (a non-zero [u32],
    a [u8] count of leading zeros) and [write_digits] prints that string. *)
Theorem mode_digits_roundtrip (ds : list Z) (m : RawGitMode) :
  parse ds = Ok m ↔ mode_ok m ∧ write_digits m = ds.
Proof. split; [apply write_parse|]. intros [Hm <-]. by apply parse_write. Qed.

(** The layout trailer of an entry decodes to its raw mode and source
    position, and whatever trailer decodes is the one that the entry it gives
    is encoded with: the encoding is canonical. *)
Theorem layout_trailer_roundtrip (e : entry) (p : option Z) (Hm : mode_fits e) (Hp : position_ok p) :
  apply_layout_trailer (drop_raw_git_mode e) (layout_flags e p) (write_layout_trailer e p) = Ok (e, p)
  ∧ ∀ f trailer e' p', is_layout f → bytes_ok trailer →
      apply_layout_trailer (drop_raw_git_mode e) f trailer = Ok (e', p') →
      drop_raw_git_mode e' = drop_raw_git_mode e ∧ mode_fits e' ∧ position_ok p'
      ∧ layout_flags e' p' = f ∧ write_layout_trailer e' p' = trailer.
Proof. split; [by apply write_apply_trailer|]. intros. by apply apply_write_trailer. Qed.

(** [encoded_len] is the length of the bytes hashed for an entry, except
    that it misses the format tag of a Gitlink: there the length that the V3
    hash declares is one short. *)
Theorem encoded_len_preimage (e : entry) (p : option Z) :
  zlen (entry_preimage e p)
  = encoded_len e p + match target e with TreeEntryTarget.Gitlink _ => 1 | _ => 0 end.
Proof.
  unfold entry_preimage, encoded_len, write_payload. cbv zeta. autorewrite with zlen. rewrite trailer_len.
  destruct (target e); cbn [encoded_payload_len]; autorewrite with zlen; rewrite ?zlen_to_le_bytes; lia.
Qed.
End properties.

(** ** Examples *)

(** Two object ids, one of each format. *)
#[export] Program Instance two_ids : GitObjects bool := {|
  oid_is_sha256 o := o;
  oid_bytes o := replicate (if o then 32 else 20) 0
|}.
Next Obligation. by intros []. Qed.
Next Obligation. intros []; cbn; repeat constructor; unfold is_byte; lia. Qed.
Next Obligation. by intros [] []. Qed.

Definition sample_hash (b : Z) : list Z := replicate 32 b.
(** The entries ["a.b"] (a file) and ["a"] (a directory) in Git's order, and
    swapped, an order that an import has to record. *)
Definition file_entry : TreeEntry bool :=
  {| name := [97; 46; 98]; target := TreeEntryTarget.Blob (sample_hash 1) false; git_mode := None |}.
Definition dir_entry : TreeEntry bool :=
  {| name := [97]; target := TreeEntryTarget.Tree (sample_hash 2); git_mode := None |}.
(** A file with the legacy mode [100664]. *)
Definition legacy_entry : TreeEntry bool :=
  {| name := [98]; target := TreeEntryTarget.Blob (sample_hash 3) false;
     git_mode := Some {| value := 33204; leading_zeros := 0 |} |}.
Definition salted_tree : Tree bool :=
  {| entries := [dir_entry; file_entry]; scheme := V4Salted; salts := [sample_hash 7; sample_hash 8];
     source_positions := [] |}.

Lemma salted_tree_wf : wf salted_tree.
Proof. pose proof (validate_wf salted_tree) as Hv. vm_compute (validate _) in Hv. exact Hv. Qed.

Example git_order_example : git_canonical_order file_entry dir_entry = Lt.
Proof. reflexivity. Qed.

Lemma tree_ops_map_witness :
  wf salted_tree ∧ tree_get salted_tree [97] = Ok (Some dir_entry)
  ∧ wf (tree_remove salted_tree [97]).1.
Proof.
  split; [exact salted_tree_wf|]. split; [vm_compute; reflexivity|].
  exact (proj1 (proj2 (proj2 (tree_ops_map salted_tree salted_tree_wf)) [97])).
Defined.

Lemma layout_trailer_roundtrip_witness :
  apply_layout_trailer (drop_raw_git_mode legacy_entry) (layout_flags legacy_entry (Some 3))
    (write_layout_trailer legacy_entry (Some 3)) = Ok (legacy_entry, Some 3).
Proof.
  apply (layout_trailer_roundtrip legacy_entry (Some 3)).
  - intros m [= <-]. split; [split; cbn; unfold U32_MAX, U8_MAX; lia|vm_compute; reflexivity].
  - intros v [= <-]. unfold U32_MAX; lia.
Defined.

End Trees.
