(* ===== verification/TreeHash.v ===== *)
(** * Tree identity and redaction ([crates/object-model/src/object/tree.rs])

    Module [TreeHash] models the ids of trees: the flat V3 hash, the salted V4
    Merkle root (RFC 6962 over the sorted leaf hashes) and [PartialTree], the
    redacted projection of a V4 tree.  BLAKE3 is a parameter; what the theorems
    ask of it is that a digest has 32 bytes.  Where a theorem depends on its
    strength, the conclusion names the alternative: two different inputs with
    one digest. *)

From S2P Require Import Prelude.
From S2P Require Import Trees.
Import Trees.

Module TreeHash.

Section hashing.
Context {Oid : Type} `{GitObjects Oid}.
Abbreviation entry := (TreeEntry Oid).
Abbreviation tree := (Tree Oid).
Context (blake3 : list Z → list Z).


(** [ContentHash::compute_typed_with_len] (hash.rs), the updates concatenated. *)
Definition compute_typed_with_len (type_prefix : list Z) (content_len : Z) (content : list Z) : list Z :=
  blake3 (type_prefix ++ to_le_bytes 8 content_len ++ [0] ++ content).
Definition compute_typed (type_prefix content : list Z) : list Z :=
  compute_typed_with_len type_prefix (zlen content) content.

Definition total_len (t : tree) : Z :=
  foldr Z.add 0 (map (λ p, encoded_len p.2 (source_position_at t p.1)) (enumerate 0 (entries t))).
Definition flat_hash_v3 (t : tree) : list Z :=
  compute_typed_with_len TREE_EMPTY_PREFIX (total_len t)
    (concat (map (λ p, entry_preimage p.2 (source_position_at t p.1)) (enumerate 0 (entries t)))).

Definition v4_leaf_preimage (e : entry) (salt : list Z) : list Z :=
  salt ++ write_payload (target e) (layout_flags e None)
  ++ to_le_bytes 2 (zlen (name e)) ++ name e ++ write_layout_trailer e None.
Definition v4_leaf_hash (e : entry) (salt : list Z) : list Z :=
  compute_typed TREE_V4_LEAF_PREFIX (v4_leaf_preimage e salt).

(** [x.leading_zeros()] on a 64-bit [usize]. *)
Definition usize_leading_zeros (x : Z) : Z := if x =? 0 then 64 else 63 - Z.log2 x.

Fixpoint merkle_loop (fuel : nat) (leaves : list (list Z)) : pure (list Z) :=
  match fuel with
  | O => Fuel
  | S fuel =>
      match leaves with
      | [] => Ok (compute_typed TREE_EMPTY_PREFIX [])
      | [leaf] => Ok leaf
      | _ =>
          let n := zlen leaves in
          let k := Z.shiftl 1 ((64 - 1) - usize_leading_zeros (n - 1)) in
          l ← slice leaves 0 k;
          r ← slice leaves k n;
          left ← merkle_loop fuel l;
          right ← merkle_loop fuel r;
          Ok (compute_typed_with_len TREE_V4_NODE_PREFIX 64 (left ++ right))
      end
  end.
Definition merkle_tree_hash (leaves : list (list Z)) : pure (list Z) :=
  merkle_loop (S (length leaves)) leaves.
Definition merkle_root_from_leaves (leaves : list (list Z)) : pure (list Z) :=
  merkle_tree_hash (sort_by compare_bytes leaves).

Definition v4_leaves (t : tree) : list (list Z) :=
  map (λ p, v4_leaf_hash p.1 p.2) (zip (entries t) (salts t)).
Definition merkle_root_v4 (t : tree) : pure (list Z) := merkle_root_from_leaves (v4_leaves t).

(** [Tree::hash] *)
Definition tree_id (t : tree) : pure (list Z) :=
  match scheme t with V3Flat => Ok (flat_hash_v3 t) | V4Salted => merkle_root_v4 t end.

(** ** [PartialTree] *)
Inductive PartialTreeLeaf :=
| Visible (entry : entry) (salt : list Z)
| Redacted (leaf_hash : list Z).

Definition leaf_hash (l : PartialTreeLeaf) : list Z :=
  match l with Visible e salt => v4_leaf_hash e salt | Redacted h => h end.

Record PartialTree := { declared_root : list Z; leaves : list PartialTreeLeaf }.

Definition reconstruct_root (p : PartialTree) : pure (list Z) :=
  merkle_root_from_leaves (map leaf_hash (leaves p)).

(** [PartialTree::verify] *)
Definition partial_verify (p : PartialTree) : res unit :=
  found ← lift (reconstruct_root p);
  if bool_decide (found ≠ declared_root p)
  then Err (InvalidStructure "partial tree reconstructs another root") else Ok ().

Definition project (t : tree) (redacted : gset (list Z)) : res PartialTree :=
  if bool_decide (scheme t ≠ V4Salted)
  then Err (InvalidStructure "cannot project a redacted tree from a non-v4 tree")
  else
    _ ← validate t;
    declared_root ← lift (tree_id t);
    let leaves :=
      map (λ p,
        let leaf_hash := v4_leaf_hash p.1 p.2 in
        if bool_decide (leaf_hash ∈ redacted) then Redacted leaf_hash else Visible p.1 p.2)
        (zip (entries t) (salts t)) in
    Ok {| declared_root := declared_root; leaves := leaves |}.

(** The visible entries with their salts. *)
Fixpoint visible (ls : list PartialTreeLeaf) : list (entry * list Z) :=
  match ls with
  | [] => []
  | Visible e salt :: ls => (e, salt) :: visible ls
  | Redacted _ :: ls => visible ls
  end.
Definition visible_tree (p : PartialTree) : res tree :=
  from_entries_salted_v4 (map fst (visible (leaves p))) (map snd (visible (leaves p))).

Definition has_redactions (p : PartialTree) : bool :=
  existsb (λ l, match l with Redacted _ => true | _ => false end) (leaves p).

Definition into_tree (p : PartialTree) : res tree :=
  _ ← partial_verify p;
  if has_redactions p
  then Err (InvalidStructure "cannot materialize a redacted leaf into a full tree")
  else visible_tree p.
End hashing.

(** ** The encodings under the hash are injective *)
Section encodings.
Context {Oid : Type} `{GitObjects Oid}.
Abbreviation entry := (TreeEntry Oid).
Abbreviation tree := (Tree Oid).

(** What the Rust types say of the fields. *)
Definition target_ok (t : TreeEntryTarget.t Oid) : Prop :=
  match t with
  | TreeEntryTarget.Blob hash _ | TreeEntryTarget.Tree hash | TreeEntryTarget.Symlink hash => zlen hash = 32
  | TreeEntryTarget.Gitlink _ => True
  | TreeEntryTarget.Spoollink spool_id state_id => zlen spool_id ≤ U32_MAX ∧ zlen state_id = 32
  end.
Definition entry_ok (e : entry) : Prop :=
  target_ok (target e) ∧ (∀ m, git_mode e = Some m → mode_ok m) ∧ plain_name (name e) ∧ zlen (name e) ≤ 65535.

Lemma mode_byte_inj m m' f f' :
  is_layout f → is_layout f' →
  Z.lor (FileMode.to_byte m) f = Z.lor (FileMode.to_byte m') f' → m = m' ∧ f = f'.
Proof.
  unfold is_layout. intros Hf Hf'. destruct m, m', Hf as [->|[->|[->| ->]]], Hf' as [->|[->|[->| ->]]];
    first [done | by intros E; vm_compute in E].
Qed.

Lemma as_u32_fits v : 0 ≤ v ≤ U32_MAX → as_u32 v = v.
Proof. unfold U32_MAX, as_u32. intros. rewrite Z.mod_small; lia. Qed.

Lemma write_payload_inj (t t' : TreeEntryTarget.t Oid) f f' r r' :
  target_ok t → target_ok t' → is_layout f → is_layout f' →
  write_payload t f ++ r = write_payload t' f' ++ r' → t = t' ∧ f = f' ∧ r = r'.
Proof.
  unfold write_payload. intros Ht Ht' Hf Hf'. rewrite <- !app_assoc.
  intros E. apply zlen_app_inj in E as [Eb E]; [|done]. apply zlen_app_inj in E as [Et E]; [|done].
  injection Eb as Eb. injection Et as Et. apply mode_byte_inj in Eb as [Em <-]; [|done..].
  assert (∀ h h' : list Z, zlen h = 32 → zlen h' = 32 → h ++ r = h' ++ r' → h = h' ∧ r = r') as H32.
  { intros h h' Hh Hh'. apply zlen_app_inj. lia. }
  destruct t as [h x|h|h|o|sp st], t' as [h' x'|h'|h'|o'|sp' st']; try done; cbn in Ht, Ht'.
  - apply H32 in E as [-> ->]; [|done..]. by destruct x, x'.
  - apply H32 in E as [-> ->]; done.
  - apply H32 in E as [-> ->]; done.
  - rewrite <- !app_assoc in E. apply zlen_app_inj in E as [Etag E]; [|done].
    assert (oid_is_sha256 o = oid_is_sha256 o') as Hs
      by (by destruct (oid_is_sha256 o), (oid_is_sha256 o')).
    apply zlen_app_inj in E as [Eb ->]; [|by rewrite !oid_len, Hs].
    by rewrite (oid_ext _ _ Hs Eb).
  - destruct Ht as [Hs Hst], Ht' as [Hs' Hst']. pose proof (zlen_nonneg sp).
    pose proof (zlen_nonneg sp'). rewrite !as_u32_fits in E by done. rewrite <- !app_assoc in E.
    apply zlen_app_inj in E as [El E]; [|by rewrite !zlen_to_le_bytes].
    apply to_le_bytes_inj in El; [|unfold U32_MAX in *; lia..].
    apply zlen_app_inj in E as [-> E]; [|done]. apply H32 in E as [-> ->]; done.
Qed.

Lemma layout_trailer_inj (e e' : entry) p p' r r' :
  entry_ok e → entry_ok e' → position_ok p → position_ok p' →
  layout_flags e p = layout_flags e' p' →
  write_layout_trailer e p ++ r = write_layout_trailer e' p' ++ r' →
  git_mode e = git_mode e' ∧ p = p' ∧ r = r'.
Proof.
  intros (_ & Hm & _) (_ & Hm' & _) Hp Hp' Hfl. rewrite !layout_flags_cases in Hfl. unfold write_layout_trailer.
  assert (∀ v v' k k', 0 ≤ v ≤ U32_MAX → 0 ≤ v' ≤ U32_MAX →
    to_le_bytes 4 v ++ k = to_le_bytes 4 v' ++ k' → v = v' ∧ k = k') as Hle.
  { intros v v' k k' Hv Hv' E. apply zlen_app_inj in E as [E ->]; [|by rewrite !zlen_to_le_bytes].
    by apply to_le_bytes_inj in E; [|unfold U32_MAX in *; lia..]. }
  rewrite <- !app_assoc.
  assert (∀ k k', match git_mode e with Some mode => to_le_bytes 4 (value mode) ++ [leading_zeros mode] | None => [] end ++ k
    = match git_mode e' with Some mode => to_le_bytes 4 (value mode) ++ [leading_zeros mode] | None => [] end ++ k' →
    git_mode e = git_mode e' ∧ k = k') as Hmode.
  { intros k k'. destruct (git_mode e) as [m|], (git_mode e') as [m'|]; cbn [app]; try done.
    - rewrite <- !app_assoc. destruct (Hm m eq_refl), (Hm' m' eq_refl). intros [Ev Ez]%Hle; [|lia..].
      injection Ez as Ez ->. destruct m, m'; cbn in *. by subst.
    - destruct p, p'; done.
    - destruct p, p'; done. }
  intros [Eg E]%Hmode. split; [done|]. rewrite Eg in Hfl.
  destruct p as [v|], p' as [v'|].
  - apply Hle in E as [-> ->]; [done|by apply Hp|by apply Hp'].
  - by destruct (git_mode e').
  - by destruct (git_mode e').
  - done.
Qed.

Lemma entry_ext (e e' : entry) : name e = name e' → target e = target e' → git_mode e = git_mode e' → e = e'.
Proof. destruct e, e'; cbn. by intros -> -> ->. Qed.

Lemma plain_no_zero n : plain_name n → 0 ∉ n.
Proof. unfold plain_name. rewrite Forall_forall. intros Hf Hin. by destruct (Hf 0 Hin). Qed.

Lemma entry_preimage_inj (e e' : entry) p p' r r' :
  entry_ok e → entry_ok e' → position_ok p → position_ok p' →
  entry_preimage e p ++ r = entry_preimage e' p' ++ r' → e = e' ∧ p = p' ∧ r = r'.
Proof.
  intros He He' Hp Hp'. unfold entry_preimage. rewrite <- !app_assoc.
  intros (Et & Hfl & E)%write_payload_inj; [|apply He|apply He'|apply layout_flags_is_layout..].
  cbn [app] in E. apply terminated_inj in E as [En E]; [|apply plain_no_zero, He|apply plain_no_zero, He'].
  apply layout_trailer_inj in E as (Eg & -> & ->); [|done..]. split; [by apply entry_ext|done].
Qed.

Definition row_ok (p : entry * list Z) : Prop := entry_ok p.1 ∧ zlen p.2 = 32.

Lemma leaf_preimage_inj (p p' : entry * list Z) :
  row_ok p → row_ok p' → v4_leaf_preimage p.1 p.2 = v4_leaf_preimage p'.1 p'.2 → p = p'.
Proof.
  intros [He Hs] [He' Hs']. unfold v4_leaf_preimage. intros E.
  apply zlen_app_inj in E as [Es E]; [|lia].
  apply write_payload_inj in E as (Et & Hfl & E); [|apply He|apply He'|apply layout_flags_is_layout..].
  apply zlen_app_inj in E as [El E]; [|by rewrite !zlen_to_le_bytes].
  apply to_le_bytes_inj in El; [|destruct He as (_ & _ & _ & ?); cbn; zlia|destruct He' as (_ & _ & _ & ?); cbn; zlia].
  apply zlen_app_inj in E as [En E]; [|done].
  rewrite <- (app_nil_r (write_layout_trailer p.1 None)), <- (app_nil_r (write_layout_trailer p'.1 None)) in E.
  apply layout_trailer_inj in E as (Eg & _ & _); [|done..].
  destruct p, p'; cbn in *. f_equal; [by apply entry_ext|done].
Qed.

(** Concatenations of a prefix-free code. *)
Lemma concat_code_inj {A} (f : A → list Z) (P : A → Prop) l l' :
  (∀ a a' r r', P a → P a' → f a ++ r = f a' ++ r' → a = a' ∧ r = r') → (∀ a, f a ≠ []) →
  Forall P l → Forall P l' → concat (map f l) = concat (map f l') → l = l'.
Proof.
  intros Hf Hne Hl. revert l'. induction Hl as [|a l Ha Hl IH]; intros l' Hl'; destruct Hl' as [|a' l' Ha' Hl']; cbn.
  - done.
  - intros E. symmetry in E. apply app_nil in E as [E _]. by apply Hne in E.
  - intros [E _]%app_nil. by apply Hne in E.
  - intros [-> E]%Hf; [|done..]. f_equal. by apply IH.
Qed.
End encodings.

(** ** Merkle roots *)
Section roots.
Context (blake3 : list Z → list Z).
Context (Hlen : ∀ x, zlen (blake3 x) = 32).

(** Two inputs with one digest. *)
Definition collision : Prop := ∃ x y, x ≠ y ∧ blake3 x = blake3 y.

Lemma blake3_inj x y : blake3 x = blake3 y → x = y ∨ collision.
Proof. intros E. destruct (decide (x = y)); [by left|right; by exists x, y]. Qed.

Definition is_leaf (h : list Z) : Prop := ∃ c, h = compute_typed blake3 TREE_V4_LEAF_PREFIX c.
Definition node_hash (l r : list Z) : list Z :=
  compute_typed_with_len blake3 TREE_V4_NODE_PREFIX 64 (l ++ r).
Definition empty_hash : list Z := compute_typed blake3 TREE_EMPTY_PREFIX [].

(** The Merkle trees over a list of leaf hashes, wherever they split it. *)
Inductive root : list (list Z) → list Z → Prop :=
| root_empty : root [] empty_hash
| root_leaf h : root [h] h
| root_node ls rs l r : ls ≠ [] → rs ≠ [] → root ls l → root rs r → root (ls ++ rs) (node_hash l r).

Lemma split_point n : 2 ≤ n → 0 < Z.shiftl 1 ((64 - 1) - usize_leading_zeros (n - 1)) < n.
Proof.
  intros Hn. unfold usize_leading_zeros. rewrite (proj2 (Z.eqb_neq _ _)) by lia.
  replace (64 - 1 - (63 - Z.log2 (n - 1))) with (Z.log2 (n - 1)) by lia.
  pose proof (Z.log2_nonneg (n - 1)). rewrite Z.shiftl_mul_pow2, Z.mul_1_l by done.
  destruct (Z.log2_spec (n - 1)); [lia|]. lia.
Qed.

Lemma merkle_loop_root fuel ls : (length ls < fuel)%nat → returns (merkle_loop blake3 fuel ls) (root ls).
Proof.
  revert ls. induction fuel as [|fuel IH]; intros ls Hf; [lia|]. cbn [merkle_loop].
  destruct ls as [|a [|b ls]]; [constructor..|]. set (l := a :: b :: ls) in *.
  assert (2 ≤ zlen l) as H2 by (unfold l; zlia).
  pose proof (split_point (zlen l) H2) as Hk. cbv zeta. set (k := Z.shiftl 1 _) in *.
  step (slice_returns l 0 k) as ->; [lia..|]. step (slice_returns l k (zlen l)) as ->; [lia..|].
  assert (zlen (sub_list l 0 k) = k) as Hl by (rewrite zlen_sub_list; lia).
  assert (zlen (sub_list l k (zlen l)) = zlen l - k) as Hr by (rewrite zlen_sub_list; lia).
  step (IH (sub_list l 0 k)) as Hroot1; [unfold zlen in *; lia|].
  step (IH (sub_list l k (zlen l))) as Hroot2; [unfold zlen in *; lia|].
  cbn. rewrite <- (sub_list_full l), <- (sub_list_app l 0 k (zlen l)) by lia.
  apply root_node; [| |done|done]; intros E;
    [assert (k = 0) by (by rewrite <- Hl, E)|assert (zlen l - k = 0) by (by rewrite <- Hr, E)]; lia.
Qed.

Lemma merkle_root_spec ls : returns (merkle_root_from_leaves blake3 ls) (root (sort_by compare_bytes ls)).
Proof. apply merkle_loop_root. lia. Qed.

Lemma root_nil_inv h : root [] h → h = empty_hash.
Proof.
  inversion 1 as [| |ls rs l r Hls Hrs _ _ E]; [done|]. apply app_nil in E as [-> _]. done.
Qed.
Lemma root_single_inv x h : root [x] h → h = x.
Proof.
  inversion 1 as [| |ls rs l r Hls Hrs _ _ E]; [done|].
  destruct ls as [|y [|z ls]]; [done| |done]. destruct rs; [done|]. by injection E.
Qed.

Lemma typed_prefix_inj p n c c' :
  compute_typed_with_len blake3 p n c = compute_typed_with_len blake3 p n c' → c = c' ∨ collision.
Proof.
  intros [E|?]%blake3_inj; [left|by right]. apply app_inv_head in E. apply app_inv_head in E. by injection E.
Qed.

Lemma leaf_not_node h l r : is_leaf h → h = node_hash l r → collision.
Proof.
  intros [c ->] [E|?]%blake3_inj; [exfalso|done]. revert E.
  generalize (to_le_bytes 8 (zlen c) ++ [0] ++ c) (to_le_bytes 8 64 ++ [0] ++ l ++ r). intros x y E. discriminate E.
Qed.
Lemma empty_not_leaf h : is_leaf h → h = empty_hash → collision.
Proof.
  intros [c ->] [E|?]%blake3_inj; [exfalso|done]. revert E.
  generalize (to_le_bytes 8 (zlen c) ++ [0] ++ c). intros x E. discriminate E.
Qed.
Lemma empty_not_node l r : empty_hash = node_hash l r → collision.
Proof.
  intros [E|?]%blake3_inj; [exfalso|done]. revert E.
  generalize (to_le_bytes 8 64 ++ [0] ++ l ++ r). intros x E. discriminate E.
Qed.

Lemma node_hash_inj l r l' r' :
  zlen l = 32 → zlen l' = 32 → node_hash l r = node_hash l' r' → (l = l' ∧ r = r') ∨ collision.
Proof. intros Hl Hl' [E|?]%typed_prefix_inj; [left; apply zlen_app_inj in E; [done|lia]|by right]. Qed.

Lemma root_len ls h : Forall (λ x, zlen x = 32) ls → root ls h → zlen h = 32.
Proof.
  intros Hf Hr. destruct Hr; [apply Hlen| |apply Hlen]. by apply Forall_cons in Hf as [? _].
Qed.

Lemma leaves_len ls : Forall is_leaf ls → Forall (λ x, zlen x = 32) ls.
Proof. intros Hf. eapply Forall_impl; [exact Hf|]. intros ? [c ->]. apply Hlen. Qed.

(** A leaf hash in a list under the root of [ks] is among [ks], even when the
    other elements of the list are arbitrary. *)
Lemma root_leaf_in ks h ls x :
  root ks h → root ls h → Forall is_leaf ks → Forall (λ y, zlen y = 32) ls →
  x ∈ ls → is_leaf x → x ∈ ks ∨ collision.
Proof.
  intros Hk. revert ls. induction Hk as [|a|k1 k2 kl kr Hk1 Hk2 Hr1 IH1 Hr2 IH2]; intros ls Hls Hks Hlls Hx Hleaf.
  - right. inversion Hls as [E1 E2|y E1 E2|l1 l2 l r Hl1 Hl2 Hrl1 Hrl2 E1 E2]; subst.
    + by apply elem_of_nil in Hx.
    + apply list_elem_of_singleton in Hx as ->. exact (empty_not_leaf _ Hleaf eq_refl).
    + symmetry in E2. by eapply empty_not_node.
  - apply Forall_cons in Hks as [Ha _].
    inversion Hls as [E1 E2|y E1 E2|l1 l2 l r Hl1 Hl2 Hrl1 Hrl2 E1 E2]; subst.
    + by apply elem_of_nil in Hx.
    + by left.
    + right. exact (leaf_not_node _ _ _ Ha eq_refl).
  - apply Forall_app in Hks as [Hks1 Hks2].
    inversion Hls as [E1 E2|y E1 E2|l1 l2 l r Hl1 Hl2 Hrl1 Hrl2 E1 E2]; subst.
    + by apply elem_of_nil in Hx.
    + right. apply list_elem_of_singleton in Hx as ->. exact (leaf_not_node _ _ _ Hleaf eq_refl).
    + apply Forall_app in Hlls as [Hlls1 Hlls2].
      assert (zlen l = 32) by (eapply (root_len l1); eassumption).
      assert (zlen kl = 32) by (eapply (root_len k1); [by apply leaves_len|done]).
      apply node_hash_inj in E2 as [[-> ->]|?]; [|by right|done..].
      apply elem_of_app in Hx as [Hx|Hx].
      * destruct (IH1 l1) as [?|?]; [done..| |by right]. left. apply elem_of_app. by left.
      * destruct (IH2 l2) as [?|?]; [done..| |by right]. left. apply elem_of_app. by right.
Qed.

(** Leaf hashes are determined by their root. *)
Lemma root_binds ks h ls :
  root ks h → root ls h → Forall is_leaf ks → Forall is_leaf ls → ks = ls ∨ collision.
Proof.
  intros Hk. revert ls. induction Hk as [|a|k1 k2 kl kr Hk1 Hk2 Hr1 IH1 Hr2 IH2]; intros ls Hls Hks Hlls.
  - inversion Hls as [E1 E2|y E1 E2|l1 l2 l r Hl1 Hl2 Hrl1 Hrl2 E1 E2]; subst; [by left|right..].
    + apply Forall_cons in Hlls as [Hl _]. exact (empty_not_leaf _ Hl eq_refl).
    + symmetry in E2. by eapply empty_not_node.
  - apply Forall_cons in Hks as [Ha _].
    inversion Hls as [E1 E2|y E1 E2|l1 l2 l r Hl1 Hl2 Hrl1 Hrl2 E1 E2]; subst; [right|by left|right].
    + exact (empty_not_leaf _ Ha eq_refl).
    + exact (leaf_not_node _ _ _ Ha eq_refl).
  - apply Forall_app in Hks as [Hks1 Hks2].
    inversion Hls as [E1 E2|y E1 E2|l1 l2 l r Hl1 Hl2 Hrl1 Hrl2 E1 E2]; subst; [right..|].
    + by eapply empty_not_node.
    + apply Forall_cons in Hlls as [Hl _]. exact (leaf_not_node _ _ _ Hl eq_refl).
    + apply Forall_app in Hlls as [Hlls1 Hlls2].
      assert (zlen l = 32) by (eapply (root_len l1); [by apply leaves_len|done]).
      assert (zlen kl = 32) by (eapply (root_len k1); [by apply leaves_len|done]).
      apply node_hash_inj in E2 as [[-> ->]|?]; [|by right|done..].
      destruct (IH1 l1) as [->|?]; [done..| |by right]. destruct (IH2 l2) as [->|?]; [done..| |by right]. by left.
Qed.
End roots.

(** ** What the id binds *)
Section identity.
Context {Oid : Type} `{GitObjects Oid}.
Abbreviation entry := (TreeEntry Oid).
Abbreviation tree := (Tree Oid).
Context (blake3 : list Z → list Z).
Context (Hlen : ∀ x, zlen (blake3 x) = 32).
Abbreviation collision := (collision blake3).

(** The fields have the widths of their Rust types. *)
Definition tree_ok (t : tree) : Prop :=
  Forall entry_ok (entries t) ∧ Forall (λ s, zlen s = 32) (salts t)
  ∧ Forall (λ p, 0 ≤ p ≤ U32_MAX) (source_positions t).

(** The V3 hash, item by item. *)
Definition flat_items (t : tree) : list (entry * option Z) :=
  map (λ p, (p.2, source_position_at t p.1)) (enumerate 0 (entries t)).

Lemma flat_hash_items (t : tree) :
  flat_hash_v3 blake3 t
  = compute_typed_with_len blake3 TREE_EMPTY_PREFIX (total_len t)
      (concat (map (λ q, entry_preimage q.1 q.2) (flat_items t))).
Proof. unfold flat_hash_v3, flat_items. by rewrite map_map. Qed.

Lemma flat_items_ok (t : tree) : tree_ok t → Forall (λ q, entry_ok q.1 ∧ position_ok q.2) (flat_items t).
Proof.
  intros (He & _ & Hp). apply Forall_lookup. intros k q. unfold flat_items.
  rewrite (list_lookup_fmap _ _ k), enumerate_lookup. destruct (entries t !! k) as [e|] eqn:E; [|done].
  intros [= <-]. cbn [fst snd]. split; [by eapply Forall_lookup_1|].
  intros v [_ Hv]%get_Some. by eapply (Forall_lookup_1 _ _ _ _ Hp).
Qed.

Lemma flat_items_entries (t : tree) : map fst (flat_items t) = entries t.
Proof. unfold flat_items. rewrite map_map. cbn. apply enumerate_snd. Qed.

Lemma flat_items_lookup (t : tree) k : flat_items t !! k = (λ e, (e, get (source_positions t) (Z.of_nat k))) <$> entries t !! k.
Proof.
  unfold flat_items. rewrite (list_lookup_fmap _ _ k), enumerate_lookup.
  by destruct (entries t !! k).
Qed.

Lemma get_of_nat {A} (l : list A) k : get l (Z.of_nat k) = l !! k.
Proof. unfold get. by rewrite (proj2 (Z.leb_le _ _)), Nat2Z.id by lia. Qed.

Lemma wf_positions_length (t : tree) : wf t → source_positions t = [] ∨ length (source_positions t) = length (entries t).
Proof.
  intros Hwf. destruct (wf_positions t Hwf) as [?|(_ & Hp & _)]; [by left|right].
  rewrite Hp, length_seqZ. unfold zlen. lia.
Qed.

Lemma flat_items_inj (t t' : tree) :
  wf t → wf t' → flat_items t = flat_items t' →
  entries t = entries t' ∧ (entries t = [] ∨ source_positions t = source_positions t').
Proof.
  intros Hwf Hwf' E.
  assert (entries t = entries t') as He by (by rewrite <- !flat_items_entries, E).
  split; [done|]. destruct (entries t) as [|e es] eqn:Ee; [by left|right]. rewrite <- Ee in He.
  assert (∀ k, (k < length (entries t))%nat → source_positions t !! k = source_positions t' !! k) as Hk.
  { intros k [x Hx]%lookup_lt_is_Some_2. apply (f_equal (λ l, l !! k)) in E.
    rewrite !flat_items_lookup, <- He, Hx in E. cbn in E. rewrite !get_of_nat in E. by injection E. }
  assert (0 < length (entries t))%nat as Hn by (rewrite Ee; cbn; lia).
  destruct (wf_positions_length t Hwf) as [Hp|Hp], (wf_positions_length t' Hwf') as [Hp'|Hp'].
  - by rewrite Hp, Hp'.
  - specialize (Hk 0%nat Hn). rewrite Hp in Hk. symmetry in Hk. apply lookup_ge_None in Hk. rewrite <- He in Hp'. lia.
  - specialize (Hk 0%nat Hn). rewrite Hp' in Hk. apply lookup_ge_None in Hk. lia.
  - apply list_eq. intros k. destruct (decide (k < length (entries t))%nat) as [Hlt|Hge]; [by apply Hk|].
    rewrite !(proj2 (lookup_ge_None _ _)); [done|rewrite Hp', <- He; lia|rewrite Hp; lia].
Qed.

Lemma entry_preimage_nonempty (e : entry) p : entry_preimage e p ≠ [].
Proof. unfold entry_preimage, write_payload. by cbn. Qed.

Lemma typed_empty_inj n n' c c' :
  compute_typed_with_len blake3 TREE_EMPTY_PREFIX n c = compute_typed_with_len blake3 TREE_EMPTY_PREFIX n' c' →
  c = c' ∨ collision.
Proof.
  intros [E|?]%(blake3_inj blake3); [left|by right]. apply app_inv_head in E.
  apply zlen_app_inj in E as [_ E]; [|by rewrite !zlen_to_le_bytes]. by injection E.
Qed.

Lemma flat_hash_inj (t t' : tree) :
  tree_ok t → tree_ok t' → flat_hash_v3 blake3 t = flat_hash_v3 blake3 t' →
  flat_items t = flat_items t' ∨ collision.
Proof.
  intros Hok Hok'. rewrite !flat_hash_items. intros [E|?]%typed_empty_inj; [left|by right].
  eapply (concat_code_inj _ (λ q, entry_ok q.1 ∧ position_ok q.2)); [..|exact E].
  - intros [a p] [a' p'] r r' [Ha Hp] [Ha' Hp']. cbn [fst snd]. intros (-> & -> & ->)%entry_preimage_inj; done.
  - intros q. apply entry_preimage_nonempty.
  - by apply flat_items_ok.
  - by apply flat_items_ok.
Qed.

(** Short contents are never hashed like a Merkle leaf or node: the length
    field of the flat hash would have to spell ["-v4-leaf"] or ["-v4-node"]. *)
Lemma flat_prefix n suffix (x y : list Z) :
  0 ≤ n < 2 ^ 56 → zlen suffix = 8 → bytes_ok suffix → 2 ^ 56 ≤ from_le_bytes suffix →
  TREE_EMPTY_PREFIX ++ to_le_bytes 8 n ++ x ≠ (TREE_EMPTY_PREFIX ++ suffix) ++ y.
Proof.
  intros Hn Hz Hb Hs E. rewrite <- app_assoc in E. apply app_inv_head in E.
  apply zlen_app_inj in E as [E _]; [|by rewrite zlen_to_le_bytes]. rewrite <- E, from_to_le_bytes in Hs; lia.
Qed.

Lemma flat_not_leaf (t : tree) h :
  0 ≤ total_len t < 2 ^ 56 → is_leaf blake3 h → h = flat_hash_v3 blake3 t → collision.
Proof.
  intros Hn [c ->] E. symmetry in E. apply (blake3_inj blake3) in E as [E|?]; [exfalso|done]. revert E.
  apply (flat_prefix _ [45; 118; 52; 45; 108; 101; 97; 102]); [done..| |].
  - repeat constructor; unfold is_byte; lia.
  - by vm_compute.
Qed.

Lemma flat_not_node (t : tree) l r :
  0 ≤ total_len t < 2 ^ 56 → node_hash blake3 l r = flat_hash_v3 blake3 t → collision.
Proof.
  intros Hn E. symmetry in E. apply (blake3_inj blake3) in E as [E|?]; [exfalso|done]. revert E.
  apply (flat_prefix _ [45; 118; 52; 45; 110; 111; 100; 101]); [done..| |].
  - repeat constructor; unfold is_byte; lia.
  - by vm_compute.
Qed.

Lemma v4_leaves_are_leaves (t : tree) : Forall (is_leaf blake3) (v4_leaves blake3 t).
Proof.
  unfold v4_leaves. apply Forall_fmap, Forall_forall. intros p _. by eexists.
Qed.

Lemma rows_ok (t : tree) : tree_ok t → Forall row_ok (zip (entries t) (salts t)).
Proof.
  intros (He & Hs & _). apply Forall_lookup. intros k [e s]. rewrite lookup_zip_with_Some.
  intros (? & ? & [= <- <-] & Hke & Hks). split; [by eapply (Forall_lookup_1 _ _ _ _ He)|by eapply (Forall_lookup_1 _ _ _ _ Hs)].
Qed.

(** Equal leaf hashes have equal rows. *)
Lemma leaf_hash_inj (p p' : entry * list Z) :
  row_ok p → row_ok p' → v4_leaf_hash blake3 p.1 p.2 = v4_leaf_hash blake3 p'.1 p'.2 → p = p' ∨ collision.
Proof.
  intros Hp Hp' [E|?]%(blake3_inj blake3); [left|by right]. apply app_inv_head in E.
  apply zlen_app_inj in E as [_ E]; [|by rewrite !zlen_to_le_bytes]. injection E as E.
  by apply leaf_preimage_inj in E.
Qed.

Lemma leaf_hashes_inj (l l' : list (entry * list Z)) :
  Forall row_ok l → Forall row_ok l' →
  map (λ p, v4_leaf_hash blake3 p.1 p.2) l ≡ₚ map (λ p, v4_leaf_hash blake3 p.1 p.2) l' → l ≡ₚ l' ∨ collision.
Proof.
  intros Hl. revert l'. induction Hl as [|p l Hp Hl IH]; intros l' Hl' E.
  - cbn in E. apply Permutation_nil in E. destruct l'; [by left|done].
  - assert (v4_leaf_hash blake3 p.1 p.2 ∈ map (λ p, v4_leaf_hash blake3 p.1 p.2) l') as Hin.
    { rewrite <- E. by left. }
    apply (list_elem_of_fmap (λ p, v4_leaf_hash blake3 p.1 p.2)) in Hin as (p' & Ep & Hp').
    apply elem_of_Permutation in Hp' as [k Hk].
    rewrite Hk in Hl'. apply Forall_cons in Hl' as [Hp' Hl'].
    destruct (leaf_hash_inj p p') as [<-|?]; [done..| |by right].
    assert (map (λ p, v4_leaf_hash blake3 p.1 p.2) l ≡ₚ map (λ p, v4_leaf_hash blake3 p.1 p.2) k) as E'.
    { apply (Permutation_cons_inv (a := v4_leaf_hash blake3 p.1 p.2)).
      etransitivity; [exact E|]. exact (fmap_Permutation (λ p, v4_leaf_hash blake3 p.1 p.2) _ _ Hk). }
    destruct (IH k Hl' E') as [Hlk|?]; [left; by rewrite Hk, Hlk|by right].
Qed.

Lemma zip_sorted (t : tree) :
  wf t → length (salts t) = length (entries t) →
  StronglySorted (λ a b, compare_names a.1 b.1 = Lt) (zip (entries t) (salts t)).
Proof.
  intros Hwf Hl. apply (StronglySorted_map fst name_lt). change (map fst ?l) with (fst <$> l).
  rewrite fst_zip by lia. by apply wf_sorted.
Qed.

Lemma rows_of_permutation (t t' : tree) :
  wf t → wf t' → scheme t = V4Salted → scheme t' = V4Salted →
  zip (entries t) (salts t) ≡ₚ zip (entries t') (salts t') → t = t'.
Proof.
  intros Hwf Hwf' Hs Hs' Hp.
  pose proof (wf_scheme t Hwf) as Hl. pose proof (wf_scheme t' Hwf') as Hl'. rewrite Hs in Hl. rewrite Hs' in Hl'.
  destruct Hl as [Hl _], Hl' as [Hl' _].
  assert (zip (entries t) (salts t) = zip (entries t') (salts t')) as Hz.
  { apply (sorted_unique (λ a b, compare_names a.1 b.1)); [|..|done].
    - intros. apply compare_bytes_antisym.
    - eapply StronglySorted_weaken; [|by apply zip_sorted]. cbn. congruence.
    - by apply zip_sorted. }
  pose proof (f_equal (fmap fst) Hz) as He. pose proof (f_equal (fmap snd) Hz) as Hsa.
  rewrite !fst_zip in He by lia. rewrite !snd_zip in Hsa by lia.
  destruct (wf_positions t Hwf) as [Hpos|(? & _)], (wf_positions t' Hwf') as [Hpos'|(? & _)]; try congruence.
  destruct t, t'; cbn in *. congruence.
Qed.
End identity.

(** ** Properties *)
Section properties.
Context {Oid : Type} `{GitObjects Oid}.
Abbreviation entry := (TreeEntry Oid).
Abbreviation tree := (Tree Oid).
Context (blake3 : list Z → list Z).
Context (Hlen : ∀ x, zlen (blake3 x) = 32).
Abbreviation collision := (collision blake3).
Abbreviation leaf_of := (λ p : entry * list Z, v4_leaf_hash blake3 p.1 p.2).

Lemma total_len_nonneg (t : tree) : 0 ≤ total_len t.
Proof.
  assert (∀ (e : entry) p, 0 ≤ encoded_len e p) as He.
  { intros e p. unfold encoded_len, encoded_payload_len, layout_trailer_len,
      RAW_GIT_MODE_TRAILER_LEN, SOURCE_POSITION_TRAILER_LEN.
    generalize (layout_flags e p) as f. intros f.
    destruct (target e), (negb (Z.land f _ =? 0)), (negb (Z.land f _ =? 0)); zlen_pose; lia. }
  unfold total_len. induction (enumerate 0 (entries t)) as [|p l IH]; cbn [map foldr]; [lia|].
  pose proof (He p.2 (source_position_at t p.1)). lia.
Qed.

Lemma tree_id_v4 (t : tree) :
  scheme t = V4Salted →
  ∃ h ls, tree_id blake3 t = Ok h ∧ root blake3 ls h ∧ ls ≡ₚ map leaf_of (zip (entries t) (salts t))
          ∧ Forall (is_leaf blake3) ls ∧ ls = sort_by compare_bytes (v4_leaves blake3 t).
Proof.
  intros Hs. unfold tree_id, merkle_root_v4. rewrite Hs.
  destruct (returns_inv _ _ (merkle_root_spec blake3 (v4_leaves blake3 t))) as (h & -> & Hr).
  exists h, (sort_by compare_bytes (v4_leaves blake3 t)). split; [done|]. split; [done|].
  pose proof (sort_by_perm compare_bytes (v4_leaves blake3 t)) as Hp. split; [done|]. split; [|done].
  rewrite Hp. apply v4_leaves_are_leaves.
Qed.

Lemma flat_not_root (t : tree) ls h :
  0 ≤ total_len t < 2 ^ 56 → root blake3 ls h → Forall (is_leaf blake3) ls → h = flat_hash_v3 blake3 t →
  (ls = [] ∧ entries t = []) ∨ collision.
Proof.
  intros Hn Hr Hls E. destruct Hr as [|h|ls rs l r Hne1 Hne2 Hr1 Hr2].
  - rewrite flat_hash_items in E. unfold empty_hash, compute_typed in E.
    apply (typed_empty_inj blake3) in E as [E|?]; [left|by right]. split; [done|].
    destruct (entries t) as [|e es] eqn:Ee; [done|]. unfold flat_items in E. rewrite Ee in E. discriminate E.
  - right. apply Forall_cons in Hls as [Hl _]. by eapply flat_not_leaf.
  - right. by eapply flat_not_node.
Qed.

Lemma v4_lengths (t : tree) : wf t → scheme t = V4Salted → length (salts t) = length (entries t).
Proof. intros Hwf Hs. pose proof (wf_scheme t Hwf) as Hl. rewrite Hs in Hl. by destruct Hl. Qed.

Lemma v4_no_leaves (t : tree) ls :
  wf t → scheme t = V4Salted → ls ≡ₚ map leaf_of (zip (entries t) (salts t)) → ls = [] → entries t = [].
Proof.
  intros Hwf Hs Hp ->. pose proof (v4_lengths t Hwf Hs) as Hl. symmetry in Hp. apply Permutation_nil_r in Hp.
  destruct (entries t) as [|e es], (salts t) as [|s ss]; done.
Qed.

(** C33. The id of a tree binds it: two well-formed trees with one id are equal,
    scheme, salts and recorded Git layout included, or both are empty, or two
    different inputs have one BLAKE3 digest.  The V3 and V4 hashes share no
    input for trees whose declared length is below 2^56 bytes. *)
Theorem tree_id_binds (t t' : tree)
    (Hok : tree_ok t) (Hok' : tree_ok t') (Hwf : wf t) (Hwf' : wf t')
    (Hn : total_len t < 2 ^ 56) (Hn' : total_len t' < 2 ^ 56) :
  ∃ h h', tree_id blake3 t = Ok h ∧ tree_id blake3 t' = Ok h'
          ∧ (h = h' → t = t' ∨ (entries t = [] ∧ entries t' = []) ∨ collision).
Proof.
  pose proof (total_len_nonneg t). pose proof (total_len_nonneg t').
  destruct (scheme t) eqn:Es, (scheme t') eqn:Es'.
  - exists (flat_hash_v3 blake3 t), (flat_hash_v3 blake3 t'). unfold tree_id. rewrite Es, Es'.
    split; [done|]. split; [done|]. intros [E|?]%(flat_hash_inj blake3); [|by right; right|done..].
    apply flat_items_inj in E as [He Hp]; [|done..].
    destruct Hp as [Hnil|Hp]; [right; left; by rewrite <- He|left].
    pose proof (wf_scheme t Hwf) as Hs. pose proof (wf_scheme t' Hwf') as Hs'. rewrite Es in Hs. rewrite Es' in Hs'.
    destruct t, t'; cbn in *. congruence.
  - destruct (tree_id_v4 t' Es') as (h' & ls & Hh' & Hr & Hp & Hl & _).
    exists (flat_hash_v3 blake3 t), h'. unfold tree_id at 1. rewrite Es. split; [done|]. split; [done|].
    intros E. symmetry in E. right. destruct (flat_not_root t ls h') as [[Hnil He]|?]; [done..| |by right].
    left. split; [done|]. by eapply v4_no_leaves.
  - destruct (tree_id_v4 t Es) as (h & ls & Hh & Hr & Hp & Hl & _).
    exists h, (flat_hash_v3 blake3 t'). unfold tree_id at 2. rewrite Es'. split; [done|]. split; [done|].
    intros E. right. destruct (flat_not_root t' ls h) as [[Hnil He]|?]; [done..| |by right].
    left. split; [|done]. by eapply v4_no_leaves.
  - destruct (tree_id_v4 t Es) as (h & ls & Hh & Hr & Hp & Hl & _).
    destruct (tree_id_v4 t' Es') as (h' & ls' & Hh' & Hr' & Hp' & Hl' & _).
    exists h, h'. split; [done|]. split; [done|]. intros <-.
    destruct (root_binds blake3 Hlen ls h ls') as [<-|?]; [done..| |by right; right].
    destruct (leaf_hashes_inj blake3 (zip (entries t) (salts t)) (zip (entries t') (salts t'))) as [Hz|?];
      [by apply rows_ok..|by rewrite <- Hp, <- Hp'| |by right; right].
    left. by apply rows_of_permutation.
Qed.

Lemma wf_validate (t : tree) : wf t → validate t = Ok ().
Proof. intros Hwf. pose proof (validate_wf t) as Hv. by destruct (validate t) as [[]| | |]. Qed.

(** A list of sorted rows is the V4 tree it was taken from. *)
Lemma from_sorted_rows (ps : list (entry * list Z)) :
  StronglySorted (λ a b, compare_names a.1 b.1 = Lt) ps →
  Forall (λ p, validate_entry p.1 = Ok () ∧ git_mode p.1 = None) ps →
  from_entries_salted_v4 (map fst ps) (map snd ps)
  = Ok {| entries := map fst ps; scheme := V4Salted; salts := map snd ps; source_positions := [] |}.
Proof.
  intros Hs Hv. unfold from_entries_salted_v4.
  assert (map drop_raw_git_mode (map fst ps) = map fst ps) as ->.
  { rewrite map_map. apply map_ext_in. intros [e s] Hin%list_elem_of_In. rewrite Forall_forall in Hv.
    destruct (Hv _ Hin) as [_ Hm]. destruct e; cbn in *. by subst. }
  assert (zip (map fst ps) (map snd ps) = ps) as -> by (clear; induction ps as [|[] ps IH]; cbn; [done|by rewrite IH]).
  assert (zlen (map fst ps) = zlen (map snd ps)) as Hz by (unfold zlen; by rewrite !length_map).
  rewrite Hz, Z.eqb_refl. cbn [negb]. rewrite (sort_by_id (λ a b, compare_names a.1 b.1)) by done.
  unfold try_from_decoded_entries_salted_v4. rewrite Hz, Z.eqb_refl. cbn [negb]. rewrite wf_validate; [done|].
  split; cbn.
  - apply (Forall_fmap fst). eapply Forall_impl; [exact Hv|]. by intros ? [? _].
  - by apply (StronglySorted_map fst name_lt).
  - split; [by rewrite !length_map|]. apply (Forall_fmap fst). eapply Forall_impl; [exact Hv|]. by intros ? [_ ?].
  - by left.
Qed.

Lemma v4_rows_valid (t : tree) :
  wf t → scheme t = V4Salted →
  Forall (λ p : entry * list Z, validate_entry p.1 = Ok () ∧ git_mode p.1 = None) (zip (entries t) (salts t)).
Proof.
  intros Hwf Hs. pose proof (wf_scheme t Hwf) as Hl. rewrite Hs in Hl. destruct Hl as [Hl Hm].
  apply (Forall_fmap fst (λ e, validate_entry e = Ok () ∧ git_mode e = None)). rewrite fst_zip by lia.
  apply Forall_and. split; [by apply wf_entries|done].
Qed.

Lemma Forall_filter {A} (Q P : A → Prop) `{∀ x, Decision (P x)} l : Forall Q l → Forall Q (filter P l).
Proof. rewrite !Forall_forall. intros Hf x [_ Hx]%list_elem_of_filter. by apply Hf. Qed.

Lemma StronglySorted_filter {A} (R : relation A) (P : A → Prop) `{∀ x, Decision (P x)} l :
  StronglySorted R l → StronglySorted R (filter P l).
Proof.
  induction 1 as [|x l Hs IH Hx]; [constructor|]. rewrite filter_cons. case_decide; [|done].
  constructor; [done|]. by apply Forall_filter.
Qed.

Abbreviation leaf_shown red := (λ p : entry * list Z, if bool_decide (leaf_of p ∈ red) then Redacted (leaf_of p) else Visible p.1 p.2).

Lemma shown_hashes (red : gset (list Z)) ps :
  map (leaf_hash blake3) (map (leaf_shown red) ps) = map leaf_of ps.
Proof. rewrite map_map. apply map_ext. intros p. by case_bool_decide. Qed.

Lemma shown_visible (red : gset (list Z)) ps :
  visible (map (leaf_shown red) ps) = filter (λ p, leaf_of p ∉ red) ps.
Proof.
  induction ps as [|p ps IH]; [done|]. cbn [map visible]. rewrite filter_cons.
  case_bool_decide as Hp; case_decide as Hd; try done; rewrite <- IH; by destruct p.
Qed.

Lemma shown_redactions (red : gset (list Z)) ps r :
  has_redactions {| declared_root := r; leaves := map (leaf_shown red) ps |} = false
  ↔ Forall (λ p, leaf_of p ∉ red) ps.
Proof.
  unfold has_redactions. cbn [leaves]. induction ps as [|p ps IH]; cbn; [split; constructor|].
  rewrite orb_false_iff, Forall_cons, IH. case_bool_decide; split; intros [? ?]; done.
Qed.

(** Redaction keeps the root: projecting a well-formed V4 tree on any set of
    leaf hashes succeeds, the projection declares the id of the tree and
    verifies, its visible rows are those not redacted and form a tree, and it
    converts back to the very tree exactly when nothing was redacted. *)
Theorem project_keeps_root (t : tree) (red : gset (list Z)) (Hwf : wf t) (Hs : scheme t = V4Salted) :
  ∃ p, project blake3 t red = Ok p
       ∧ tree_id blake3 t = Ok (declared_root p)
       ∧ partial_verify blake3 p = Ok ()
       ∧ visible (leaves p) = filter (λ q, leaf_of q ∉ red) (zip (entries t) (salts t))
       ∧ visible_tree p = Ok {| entries := map fst (visible (leaves p)); scheme := V4Salted;
                                salts := map snd (visible (leaves p)); source_positions := [] |}
       ∧ if has_redactions p then (∃ e, into_tree blake3 p = Err e) ∧ ∃ q, q ∈ zip (entries t) (salts t) ∧ leaf_of q ∈ red
         else into_tree blake3 p = Ok t.
Proof.
  destruct (tree_id_v4 t Hs) as (h & ls & Hh & _ & Hp & _ & Hls).
  set (rows := zip (entries t) (salts t)) in *.
  set (p := {| declared_root := h; leaves := map (leaf_shown red) rows |}).
  assert (project blake3 t red = Ok p) as Hproj.
  { unfold project. rewrite Hs, wf_validate, Hh by done. done. }
  assert (partial_verify blake3 p = Ok ()) as Hver.
  { unfold partial_verify, reconstruct_root, merkle_root_from_leaves. cbn [leaves p]. rewrite shown_hashes.
    unfold tree_id, merkle_root_v4, merkle_root_from_leaves in Hh. rewrite Hs in Hh. unfold v4_leaves in Hh.
    fold rows in Hh. rewrite Hh. cbn. by case_bool_decide. }
  assert (visible (leaves p) = filter (λ q, leaf_of q ∉ red) rows) as Hvis by apply shown_visible.
  pose proof (v4_rows_valid t Hwf Hs) as Hv. pose proof (zip_sorted t Hwf (v4_lengths t Hwf Hs)) as Hsort.
  assert (visible_tree p = Ok {| entries := map fst (visible (leaves p)); scheme := V4Salted;
            salts := map snd (visible (leaves p)); source_positions := [] |}) as Hvt.
  { unfold visible_tree. rewrite Hvis. apply from_sorted_rows; [by apply StronglySorted_filter|].
    by apply Forall_filter. }
  exists p. do 5 (split; [done|]).
  assert (into_tree blake3 p = if has_redactions p
    then Err (InvalidStructure "cannot materialize a redacted leaf into a full tree") else visible_tree p) as ->
    by (unfold into_tree; by rewrite Hver).
  pose proof (shown_redactions red rows h) as Hred. fold p in Hred.
  destruct (has_redactions p) eqn:Er.
  - split; [by eexists|]. destruct (decide (Exists (λ q, leaf_of q ∈ red) rows)) as [He|He].
    + by apply Exists_exists in He.
    + apply not_Exists_Forall in He; [|intros; apply _]. by apply Hred in He.
  - assert (Forall (λ q, leaf_of q ∉ red) rows) as Hf by (by apply Hred).
    assert (∀ l, Forall (λ q, leaf_of q ∉ red) l → filter (λ q, leaf_of q ∉ red) l = l) as Hid.
    { induction 1 as [|q l Hq Hl IH]; [done|]. by rewrite filter_cons_True, IH. }
    rewrite Hvt, Hvis, Hid by done. f_equal. pose proof (v4_lengths t Hwf Hs) as Hl.
    change (map fst rows) with (fst <$> rows). change (map snd rows) with (snd <$> rows).
    unfold rows. rewrite fst_zip, snd_zip by lia.
    destruct (wf_positions t Hwf) as [Hpos|(? & _)]; [|congruence]. destruct t; cbn in *. congruence.
Qed.

Definition leaf_ok (l : @PartialTreeLeaf Oid) : Prop :=
  match l with Visible e salt => row_ok (e, salt) | Redacted h => zlen h = 32 end.

(** C34. A verified projection discloses the truth: when the leaves of a partial
    tree reconstruct the id of a V4 tree, every visible entry with its salt is
    an entry of that tree, or two inputs have one BLAKE3 digest.  The redacted
    hashes may be arbitrary. *)
Theorem verified_disclosure_sound (t : tree) (p : PartialTree) (e : entry) (salt : list Z)
    (Hok : tree_ok t) (Hs : scheme t = V4Salted) (Hp : Forall leaf_ok (leaves p))
    (Hid : tree_id blake3 t = Ok (declared_root p)) (Hver : partial_verify blake3 p = Ok ())
    (Hin : Visible e salt ∈ leaves p) :
  (e, salt) ∈ zip (entries t) (salts t) ∨ collision.
Proof.
  destruct (tree_id_v4 t Hs) as (h & ks & Hh & Hr & Hks & Hleaf & _). rewrite Hid in Hh. injection Hh as <-.
  assert (∃ ls, root blake3 ls (declared_root p) ∧ ls ≡ₚ map (leaf_hash blake3) (leaves p)) as (ls & Hrl & Hls).
  { unfold partial_verify, reconstruct_root in Hver.
    destruct (returns_inv _ _ (merkle_root_spec blake3 (map (leaf_hash blake3) (leaves p)))) as (h & Eh & Hr').
    rewrite Eh in Hver. cbn in Hver. case_bool_decide as Hd; [done|]. subst h.
    eexists. split; [exact Hr'|]. apply sort_by_perm. }
  destruct (root_leaf_in blake3 Hlen ks (declared_root p) ls (leaf_of (e, salt))) as [Hk|?]; try done; [| | | |by right].
  - rewrite Hls. apply (Forall_fmap (leaf_hash blake3)). eapply Forall_impl; [exact Hp|].
    intros [e' s'|h'] Hok'; [apply Hlen|exact Hok'].
  - rewrite Hls. apply (list_elem_of_fmap (leaf_hash blake3)). by exists (Visible e salt).
  - by eexists.
  - rewrite Hks in Hk. apply (list_elem_of_fmap leaf_of) in Hk as (q & Eq & Hq).
    pose proof (rows_ok t Hok) as Hrows. rewrite Forall_forall in Hrows.
    destruct (leaf_hash_inj blake3 (e, salt) q) as [<-|?]; [|by apply Hrows|done|by left|by right].
    exact (proj1 (Forall_forall _ _) Hp _ Hin).
Qed.
End properties.

(** ** Examples *)

(** A toy digest of 32 bytes: enough to evaluate the definitions. *)
Definition toy_hash (x : list Z) : list Z := take 32 (reverse x ++ replicate 32 0).

Lemma toy_hash_len x : zlen (toy_hash x) = 32.
Proof. unfold toy_hash, zlen. rewrite length_take, length_app, length_replicate. lia. Qed.

Definition flat_tree : Tree bool := from_entries [file_entry; dir_entry].

Lemma flat_tree_wf : wf flat_tree.
Proof. pose proof (validate_wf flat_tree) as Hv. vm_compute (validate _) in Hv. exact Hv. Qed.

Lemma sample_entries_ok : entry_ok dir_entry ∧ entry_ok file_entry.
Proof.
  unfold entry_ok, plain_name. repeat split; try done; try (repeat constructor; lia); unfold zlen; cbn; lia.
Qed.

Lemma sample_trees_ok : tree_ok salted_tree ∧ tree_ok flat_tree.
Proof.
  assert (Forall entry_ok [dir_entry; file_entry]) as Hf.
  { constructor; [apply sample_entries_ok|]. constructor; [apply sample_entries_ok|constructor]. }
  split; (split; [exact Hf|]); split; repeat constructor.
Qed.

Lemma tree_id_binds_witness :
  ∃ h h', tree_id toy_hash salted_tree = Ok h ∧ tree_id toy_hash flat_tree = Ok h'
          ∧ (h = h' → salted_tree = flat_tree ∨ (entries salted_tree = [] ∧ entries flat_tree = []) ∨ collision toy_hash).
Proof.
  apply (tree_id_binds toy_hash toy_hash_len salted_tree flat_tree);
    [apply sample_trees_ok|apply sample_trees_ok|exact salted_tree_wf|exact flat_tree_wf| |].
  - vm_compute; reflexivity.
  - vm_compute; reflexivity.
Defined.

Definition hidden : gset (list Z) := {[ v4_leaf_hash toy_hash file_entry (sample_hash 8) ]}.

Lemma project_keeps_root_witness :
  ∃ p, project toy_hash salted_tree hidden = Ok p ∧ partial_verify toy_hash p = Ok ().
Proof.
  destruct (project_keeps_root toy_hash salted_tree hidden salted_tree_wf eq_refl) as (p & Hp & _ & Hv & _).
  by exists p.
Defined.

Definition sample_partial : @PartialTree bool :=
  {| declared_root := match tree_id toy_hash salted_tree with Ok h => h | _ => [] end;
     leaves := [Redacted (v4_leaf_hash toy_hash file_entry (sample_hash 8)); Visible dir_entry (sample_hash 7)] |}.

Lemma verified_disclosure_sound_witness :
  partial_verify toy_hash sample_partial = Ok ()
  ∧ ((dir_entry, sample_hash 7) ∈ zip (entries salted_tree) (salts salted_tree) ∨ collision toy_hash).
Proof.
  assert (partial_verify toy_hash sample_partial = Ok ()) as Hv by (vm_compute; reflexivity).
  split; [exact Hv|].
  apply (verified_disclosure_sound toy_hash toy_hash_len salted_tree sample_partial dir_entry (sample_hash 7)).
  - apply sample_trees_ok.
  - reflexivity.
  - constructor; [reflexivity|]. constructor; [|constructor]. split; [apply sample_entries_ok|reflexivity].
  - vm_compute; reflexivity.
  - exact Hv.
  - right. left.
Defined.

End TreeHash.
