(* ===== verification/CompactFrame.v ===== *)
(** * Compact frames ([crates/object-model/src/compact/{io,limits,blob}.rs])

    Module [CompactFrame] models the checksummed frames that a background repack
    writes: the byte writer and reader with their varints, the admission of
    declared counts, and the solid blob frame.  The tree and state frames share
    the reader but are not modelled; only their magic is.  BLAKE3 is a
    parameter. *)

From S2P Require Import Prelude Varint.
From S2P Require Import TreeHash.
Import Varint.

Module CompactFrame.

(** [enum CompactError]; the messages carry no arguments. *)
Inductive CompactError :=
| Invalid (message : string)
| Missing
| TreeInvalid
| GitObjectIdInvalid
| SpoolIdInvalid
| MessagePackEncode
| MessagePackDecode.
Abbreviation cres := (exec CompactError).

Definition FRAME_CHECKSUM_LEN : Z := 32.
Definition MAX_COMPACT_COUNT : Z := 12 * 1024 * 1024.
Definition MIN_BLOB_ITEM_BYTES : Z := 1.
Definition I64_MAX : Z := 9223372036854775807.
Definition I64_MIN : Z := -9223372036854775808.

(** ["HCB2"], ["HCT1"], ["HCS1"], ["HCS2"] *)
Definition BLOB_MAGIC : list Z := [72; 67; 66; 50].
Definition TREE_MAGIC : list Z := [72; 67; 84; 49].
Definition STATE_MAGIC_V1 : list Z := [72; 67; 83; 49].
Definition STATE_MAGIC : list Z := [72; 67; 83; 50].

Definition starts_with (bytes magic : list Z) : bool := bool_decide (take (length magic) bytes = magic).
Definition is_blob_frame (bytes : list Z) : bool := starts_with bytes BLOB_MAGIC.
Definition is_tree_frame (bytes : list Z) : bool := starts_with bytes TREE_MAGIC.
Definition is_state_frame (bytes : list Z) : bool :=
  starts_with bytes STATE_MAGIC || starts_with bytes STATE_MAGIC_V1.

(** ** [Writer]: the bytes written so far *)
Fixpoint put_u64_loop (fuel : nat) (output : list Z) (value : Z) : pure (list Z) :=
  match fuel with
  | O => Fuel
  | S fuel =>
      if 0x80 <=? value then put_u64_loop fuel (output ++ [Z.lor (as_u8 value) 0x80]) (Z.shiftr value 7)
      else Ok (output ++ [as_u8 value])
  end.
Definition put_u64 (output : list Z) (value : Z) : pure (list Z) := put_u64_loop 10 output value.

(** [((value << 1) ^ (value >> 63)) as u64] *)
Definition put_i64 (output : list Z) (value : Z) : pure (list Z) :=
  put_u64 output (as_u64 (Z.lxor (Z.shiftl value 1) (Z.shiftr value 63))).
Definition put_fixed (output value : list Z) : list Z := output ++ value.

(** ** [Reader] *)
Record Reader := { bytes : list Z; position : Z }.

Definition remaining (r : Reader) : cres Z := usub (zlen (bytes r)) (position r).

Definition take_bytes (r : Reader) (len : Z) : cres (list Z * Reader) :=
  stop ← ok_or (checked_add (position r) len) (Invalid "compact offset overflow");
  if zlen (bytes r) <? stop then Err (Invalid "truncated compact payload")
  else
    value ← slice (bytes r) (position r) stop;
    Ok (value, {| bytes := bytes r; position := stop |}).

Definition get_u8 (r : Reader) : cres (Z * Reader) :=
  '(b, r) ← take_bytes r 1;
  b ← index b 0;
  Ok (b, r).

(** [for shift in (0..=63).step_by(7)] *)
Fixpoint get_u64_loop (shifts : list Z) (r : Reader) (value : Z) : cres (Z * Reader) :=
  match shifts with
  | [] => Err (Invalid "compact varint overflow")
  | shift :: shifts =>
      '(byte, r) ← get_u8 r;
      if (shift =? 63) && (1 <? byte) then Err (Invalid "compact varint overflow")
      else
        let value := Z.lor value (as_u64 (Z.shiftl (Z.land byte 0x7f) shift)) in
        if Z.land byte 0x80 =? 0 then Ok (value, r) else get_u64_loop shifts r value
  end.
Definition get_u64 (r : Reader) : cres (Z * Reader) :=
  get_u64_loop [0; 7; 14; 21; 28; 35; 42; 49; 56; 63] r 0.

(** [((value >> 1) as i64) ^ (-((value & 1) as i64))] *)
Definition get_i64 (r : Reader) : cres (Z * Reader) :=
  '(value, r) ← get_u64 r;
  Ok (Z.lxor (Z.shiftr value 1) (- Z.land value 1), r).

Definition admit_count (count remaining min_item_bytes max_count : Z) : cres unit :=
  if max_count <? count then Err (Invalid "count exceeds maximum")
  else
    let min_item_bytes := Z.max min_item_bytes 1 in
    if (count * min_item_bytes <=? USIZE_MAX) && (count * min_item_bytes <=? remaining) then Ok ()
    else Err (Invalid "count exceeds remaining frame bytes").

Definition get_count_at_most (r : Reader) (min_item_bytes max_count : Z) : cres (Z * Reader) :=
  '(count, r) ← get_u64 r;
  left ← remaining r;
  _ ← admit_count count left min_item_bytes max_count;
  Ok (count, r).
Definition get_count (r : Reader) (min_item_bytes : Z) : cres (Z * Reader) :=
  get_count_at_most r min_item_bytes MAX_COMPACT_COUNT.

Definition reader_finish (r : Reader) : cres unit :=
  if position r =? zlen (bytes r) then Ok () else Err (Invalid "trailing bytes in compact payload").

Section blake3.
Context (blake3 : list Z → list Z).

Definition writer_finish (output : list Z) : list Z := output ++ blake3 output.

Definition verified (frame magic : list Z) : cres Reader :=
  if zlen frame <? FRAME_CHECKSUM_LEN then Err (Invalid "frame is shorter than its checksum")
  else
    let content_len := zlen frame - FRAME_CHECKSUM_LEN in
    let content := sub_list frame 0 content_len in
    let checksum := sub_list frame content_len (zlen frame) in
    if bool_decide (get_range content 0 4 ≠ Some magic)
    then Err (Invalid "frame magic does not match its object kind")
    else if bool_decide (blake3 content ≠ checksum) then Err (Invalid "compact frame checksum mismatch")
    else Ok {| bytes := content; position := zlen magic |}.

(** ** [blob.rs] *)
Definition i64_length (n : Z) : cres Z :=
  if n <=? I64_MAX then Ok n else Err (Invalid "blob length exceeds signed delta range").

(** The lengths after the first one, as signed differences. *)
Fixpoint put_lengths (output : list Z) (previous : Z) (rest : list (list Z)) : cres (list Z) :=
  match rest with
  | [] => Ok output
  | blob :: rest =>
      current ← i64_length (zlen blob);
      output ← lift (put_i64 output (current - previous));
      put_lengths output current rest
  end.

Definition encode_blob_frame (blobs : list (list Z)) : cres (list Z) :=
  if MAX_COMPACT_COUNT <? zlen blobs then Err (Invalid "blob frame count exceeds maximum")
  else
    let output := BLOB_MAGIC in
    output ← lift (put_u64 output (zlen blobs));
    output ←
      match blobs with
      | [] => Ok output
      | first :: rest =>
          output ← lift (put_u64 output (zlen first));
          previous ← i64_length (zlen first);
          put_lengths output previous rest
      end;
    Ok (writer_finish (fold_left put_fixed blobs output)).

(** [usize::try_from] always succeeds on the 64-bit target. *)
Definition checked_length (value : Z) : cres Z :=
  if value <=? USIZE_MAX then Ok value else Err (Invalid "blob length exceeds platform limits").

(** [previous.checked_add(delta)] on [i64] *)
Definition checked_add_i64 (a b : Z) : option Z :=
  if (I64_MIN <=? a + b) && (a + b <=? I64_MAX) then Some (a + b) else None.

Fixpoint get_lengths (count : nat) (r : Reader) (previous : Z) : cres (list Z * Reader) :=
  match count with
  | O => Ok ([], r)
  | S count =>
      '(delta, r) ← get_i64 r;
      current ← ok_or (checked_add_i64 previous delta) (Invalid "blob length delta overflow");
      if current <? 0 then Err (Invalid "blob length delta became negative")
      else
        len ← checked_length current;
        '(lens, r) ← get_lengths count r current;
        Ok (len :: lens, r)
  end.

Fixpoint try_sum (total : Z) (lens : list Z) : option Z :=
  match lens with
  | [] => Some total
  | len :: lens => match checked_add total len with Some t => try_sum t lens | None => None end
  end.

Fixpoint take_blobs (r : Reader) (lens : list Z) : cres (list (list Z * list Z) * Reader) :=
  match lens with
  | [] => Ok ([], r)
  | len :: lens =>
      '(body, r) ← take_bytes r len;
      '(blobs, r) ← take_blobs r lens;
      Ok ((TreeHash.compute_typed blake3 [98; 108; 111; 98] body, body) :: blobs, r)
  end.

Definition decode_blob_frame (frame : list Z) : cres (list (list Z * list Z)) :=
  input ← verified frame BLOB_MAGIC;
  '(count, input) ← get_count input MIN_BLOB_ITEM_BYTES;
  '(lengths, input) ←
    (if 0 <? count then
       '(first, input) ← get_u64 input;
       len ← checked_length first;
       previous ← i64_length first;
       '(lens, input) ← get_lengths (Z.to_nat (count - 1)) input previous;
       Ok (len :: lens, input)
     else Ok ([], input));
  minimum_remaining ← ok_or (try_sum 0 lengths) (Invalid "blob frame length overflow");
  left ← remaining input;
  if negb (left =? minimum_remaining) then Err (Invalid "blob lengths do not match the frame")
  else
    '(blobs, input) ← take_blobs input lengths;
    _ ← reader_finish input;
    Ok blobs.
End blake3.
End CompactFrame.

Import CompactFrame.

Example frame_roundtrip :
  decode_blob_frame (λ _, replicate 32 7) (match encode_blob_frame (λ _, replicate 32 7) [[1; 2; 3]; []; replicate 200 5] with Ok f => f | _ => [] end)
  = Ok (map (λ b, (TreeHash.compute_typed (λ _, replicate 32 7) [98; 108; 111; 98] b, b)) [[1; 2; 3]; []; replicate 200 5]).
Proof. vm_compute. reflexivity. Qed.

(** ** Varints and their signed form *)
Lemma lor_as_u8_80 v : Z.lor (as_u8 v) 0x80 = v `mod` 128 + 128.
Proof.
  assert (is_byte (as_u8 v)) as Hb by (unfold is_byte, as_u8; apply Z.mod_pos_bound; lia).
  assert (Z.lor (as_u8 v) 0x80 = as_u8 v `mod` 128 + 128) as ->.
  { apply Z.eqb_eq, (byte_forall (λ b, Z.lor b 0x80 =? b `mod` 128 + 128)); [|done]. vm_compute. done. }
  unfold as_u8. change 256 with (128 * 2). rewrite Z.rem_mul_r by lia. rewrite Z.mul_comm, Z_mod_plus_full.
  by rewrite Z.mod_mod by lia.
Qed.

Lemma put_u64_loop_leb fuel output v :
  0 ≤ v < 128 ^ Z.of_nat (S fuel) → put_u64_loop (S fuel) output v = Ok (output ++ leb (S fuel) v).
Proof.
  revert v output. induction fuel as [|fuel IH]; intros v output Hv; rewrite Nat2Z.inj_succ, Z.pow_succ_r in Hv by lia.
  - change (128 ^ Z.of_nat 0) with 1 in Hv. cbn [put_u64_loop leb].
    rewrite (proj2 (Z.leb_gt 0x80 v)), (proj2 (Z.ltb_lt v 128)) by lia. by rewrite as_u8_small by lia.
  - remember (S fuel) as n. cbn [put_u64_loop leb].
    destruct (Z.ltb_spec v 128); [rewrite (proj2 (Z.leb_gt 0x80 v)) by lia; by rewrite as_u8_small by lia|].
    rewrite (proj2 (Z.leb_le 0x80 v)), shiftr_7, lor_as_u8_80 by lia.
    assert (0 < v / 128 < 128 ^ Z.of_nat n) by (split; [apply Z.div_str_pos|apply Z.div_lt_upper_bound]; lia).
    rewrite IH by lia. by rewrite <- app_assoc.
Qed.

Lemma put_u64_bytes output v : is_u64 v → put_u64 output v = Ok (output ++ varint_bytes v).
Proof. intros ?%u64_pow. by apply put_u64_loop_leb. Qed.

(** The signed form: even numbers are the positive ones. *)
Definition zigzag (d : Z) : Z := if 0 <=? d then 2 * d else - 2 * d - 1.

Lemma zigzag_u64 d : I64_MIN ≤ d ≤ I64_MAX → is_u64 (zigzag d).
Proof. unfold I64_MIN, I64_MAX, is_u64, U64_MAX, zigzag. destruct (Z.leb_spec 0 d); lia. Qed.

Lemma put_i64_bytes output d :
  I64_MIN ≤ d ≤ I64_MAX → put_i64 output d = Ok (output ++ varint_bytes (zigzag d)).
Proof.
  intros Hd. unfold put_i64. rewrite <- put_u64_bytes by by apply zigzag_u64. f_equal.
  rewrite Z.shiftl_mul_pow2, Z.shiftr_div_pow2 by lia. change (2 ^ 1) with 2.
  pose proof (zigzag_u64 d Hd) as Hz. unfold zigzag, I64_MIN, I64_MAX, is_u64, U64_MAX in *. destruct (Z.leb_spec 0 d).
  - rewrite Z.div_small, Z.lxor_0_r by lia. unfold as_u64. rewrite Z.mod_small; lia.
  - assert (d / 2 ^ 63 = -1) as -> by (symmetry; apply (Z.div_unique d (2 ^ 63) (-1) (d + 2 ^ 63)); lia).
    rewrite Z.lxor_m1_r. unfold Z.lnot, as_u64; rewrite Z.mod_small; lia.
Qed.

Lemma unzigzag d : Z.lxor (Z.shiftr (zigzag d) 1) (- Z.land (zigzag d) 1) = d.
Proof.
  rewrite Z.shiftr_div_pow2 by lia. assert (Z.land (zigzag d) 1 = zigzag d `mod` 2) as -> by apply (Z.land_ones _ 1 ltac:(lia)).
  change (2 ^ 1) with 2. unfold zigzag. destruct (Z.leb_spec 0 d).
  - replace (2 * d) with (d * 2) by lia. rewrite Z.div_mul, Z.mod_mul by lia. by rewrite Z.lxor_0_r.
  - replace (- 2 * d - 1) with (1 + (- d - 1) * 2) by lia. rewrite Z.div_add, Z.mod_add by lia. change (1 mod 2) with 1.
    change (1 / 2) with 0. rewrite Z.lxor_m1_r. unfold Z.lnot. lia.
Qed.

(** ** The reader on a frame split at its position *)
Definition reading (pre rest : list Z) : Reader := {| bytes := pre ++ rest; position := zlen pre |}.

Lemma take_bytes_reading pre x rest :
  zlen (pre ++ x ++ rest) ≤ USIZE_MAX → take_bytes (reading pre (x ++ rest)) (zlen x) = Ok (x, reading (pre ++ x) rest).
Proof.
  intros Hz. unfold take_bytes, checked_add, reading. cbn [bytes position].
  rewrite (proj2 (Z.leb_le _ _)) by zlia. cbn [ok_or]. rewrite bind_Ok, (proj2 (Z.ltb_ge _ _)), slice_ok, bind_Ok by zlia.
  rewrite sub_list_middle by zlia. by rewrite <- app_assoc, zlen_app.
Qed.

Lemma get_u8_reading pre b rest :
  zlen (pre ++ b :: rest) ≤ USIZE_MAX → get_u8 (reading pre (b :: rest)) = Ok (b, reading (pre ++ [b]) rest).
Proof.
  intros Hz. unfold get_u8. pose proof (take_bytes_reading pre [b] rest Hz) as E. cbn [app] in E.
  change (zlen [b]) with 1 in E. by rewrite E.
Qed.

Fixpoint shifts_from (s : Z) (n : nat) : list Z :=
  match n with O => [] | S n => s :: shifts_from (s + 7) n end.

Lemma get_u64_loop_leb n s v pre rest value :
  s + 7 * Z.of_nat n = 63 → 0 ≤ s → 0 ≤ v < 2 ^ (64 - s) → 0 ≤ value < 2 ^ s →
  zlen (pre ++ leb (S n) v ++ rest) ≤ USIZE_MAX →
  get_u64_loop (shifts_from s (S n)) (reading pre (leb (S n) v ++ rest)) value
  = Ok (value + v * 2 ^ s, reading (pre ++ leb (S n) v) rest).
Proof.
  revert s v pre value. induction n as [|n IH]; intros s v pre value Hs Hs0 Hv Hval Hz.
  - assert (s = 63) as -> by lia. change (2 ^ (64 - 63)) with 2 in Hv. cbn [leb] in *.
    rewrite (proj2 (Z.ltb_lt v 128)) in * by lia. cbn [shifts_from get_u64_loop app].
    rewrite get_u8_reading, bind_Ok by done. rewrite (proj2 (Z.ltb_ge 1 v)) by lia. rewrite andb_false_r.
    rewrite land_7f, land_80, (proj2 (Z.ltb_lt v 128)), Z.mod_small by (unfold is_byte; lia).
    rewrite lor_as_u64, lor_shiftl_add by (lia || (assert (2 ^ 63 < 2 ^ 64) by (apply Z.pow_lt_mono_r; lia); lia)).
    unfold as_u64. rewrite Z.mod_small; [done|]. change 18446744073709551616 with (2 ^ 64). change (2 ^ 64) with (2 * 2 ^ 63).
    nia.
  - remember (S n) as m. cbn [leb] in *. cbn [shifts_from get_u64_loop].
    assert (2 ^ s < 2 ^ 64) by (apply Z.pow_lt_mono_r; lia).
    assert (2 ^ (64 - s) * 2 ^ s = 2 ^ 64) as Hpow by (rewrite <- Z.pow_add_r by lia; f_equal; lia).
    destruct (Z.ltb_spec v 128).
    + cbn [app] in *. rewrite get_u8_reading, bind_Ok by done.
      rewrite (proj2 (Z.eqb_neq s 63)) by lia. cbn [andb]. rewrite land_7f, land_80, (proj2 (Z.ltb_lt v 128)), Z.mod_small by (unfold is_byte; lia).
      rewrite lor_as_u64, lor_shiftl_add by lia. unfold as_u64. rewrite Z.mod_small; [done|].
      change 18446744073709551616 with (2 ^ 64). nia.
    + cbn [app] in *. rewrite get_u8_reading, bind_Ok by done.
      rewrite (proj2 (Z.eqb_neq s 63)) by lia. cbn [andb].
      pose proof (Z.mod_pos_bound v 128 eq_refl) as Hm.
      rewrite land_7f, land_80 by (unfold is_byte; lia). rewrite (proj2 (Z.ltb_ge (v `mod` 128 + 128) 128)) by lia.
      replace ((v `mod` 128 + 128) `mod` 128) with (v `mod` 128)
        by (Z.to_euclidean_division_equations; lia).
      rewrite lor_as_u64, lor_shiftl_add by lia.
      assert (2 ^ (s + 7) ≤ 2 ^ 64) by (apply Z.pow_le_mono_r; lia).
      assert (2 ^ (s + 7) = 128 * 2 ^ s) as H7 by (rewrite Z.pow_add_r by lia; change (2 ^ 7) with 128; lia).
      assert (2 ^ (64 - s) = 128 * 2 ^ (64 - (s + 7))) as H64
        by (change 128 with (2 ^ 7); rewrite <- Z.pow_add_r by lia; f_equal; lia).
      assert (0 ≤ value + v `mod` 128 * 2 ^ s < 128 * 2 ^ s) as Hnew by nia.
      rewrite <- H7 in Hnew. unfold as_u64. rewrite (Z.mod_small (value + v `mod` 128 * 2 ^ s))
        by (split; [apply Hnew|eapply Z.lt_le_trans; [apply Hnew|exact H1]]).
      rewrite IH; [|lia|lia|split; [apply Z.div_pos; lia|apply Z.div_lt_upper_bound; lia]|exact Hnew|by rewrite <- app_assoc].
      do 2 f_equal; [|by rewrite <- app_assoc]. rewrite H7. rewrite (Z.div_mod v 128) at 3 by lia. ring.
Qed.

Lemma get_u64_reading pre v rest :
  is_u64 v → zlen (pre ++ varint_bytes v ++ rest) ≤ USIZE_MAX →
  get_u64 (reading pre (varint_bytes v ++ rest)) = Ok (v, reading (pre ++ varint_bytes v) rest).
Proof.
  intros Hv Hz. unfold get_u64. change [0; 7; 14; 21; 28; 35; 42; 49; 56; 63] with (shifts_from 0 10).
  unfold varint_bytes in *. rewrite get_u64_loop_leb; [|done|done|unfold is_u64, U64_MAX in Hv; change (2 ^ (64 - 0)) with 18446744073709551616; lia|done|done].
  by rewrite Z.add_0_l, Z.mul_1_r.
Qed.

Lemma get_i64_reading pre d rest :
  I64_MIN ≤ d ≤ I64_MAX → zlen (pre ++ varint_bytes (zigzag d) ++ rest) ≤ USIZE_MAX →
  get_i64 (reading pre (varint_bytes (zigzag d) ++ rest)) = Ok (d, reading (pre ++ varint_bytes (zigzag d)) rest).
Proof.
  intros Hd Hz. unfold get_i64. rewrite get_u64_reading, bind_Ok by (done || by apply zigzag_u64). by rewrite unzigzag.
Qed.

(** ** The blob frame *)
Fixpoint delta_bytes (previous : Z) (rest : list (list Z)) : list Z :=
  match rest with
  | [] => []
  | blob :: rest => varint_bytes (zigzag (zlen blob - previous)) ++ delta_bytes (zlen blob) rest
  end.
Definition length_bytes (blobs : list (list Z)) : list Z :=
  match blobs with [] => [] | first :: rest => varint_bytes (zlen first) ++ delta_bytes (zlen first) rest end.

Definition small (n : Z) : Prop := 0 ≤ n ≤ I64_MAX.

Lemma small_u64 n : small n → is_u64 n.
Proof. unfold small, is_u64, I64_MAX, U64_MAX. lia. Qed.

Lemma small_difference a b : small a → small b → I64_MIN ≤ a - b ≤ I64_MAX.
Proof. unfold small, I64_MIN, I64_MAX. lia. Qed.

Lemma put_lengths_bytes output previous rest :
  small previous → Forall (λ b, small (zlen b)) rest →
  put_lengths output previous rest = Ok (output ++ delta_bytes previous rest).
Proof.
  intros Hp Hrest. revert output previous Hp.
  induction Hrest as [|b rest Hb Hrest IH]; intros output previous Hp; cbn [put_lengths delta_bytes]; [by rewrite app_nil_r|].
  unfold i64_length. rewrite (proj2 (Z.leb_le _ _)) by apply Hb. rewrite bind_Ok.
  rewrite put_i64_bytes by by apply small_difference. cbn [lift]. rewrite bind_Ok, IH by done. by rewrite <- app_assoc.
Qed.

Lemma zlen_varint v : is_u64 v → 1 ≤ zlen (varint_bytes v) ≤ 10.
Proof.
  intros Hv. pose proof (varint_of_bound _ _ (varint_bytes_of v Hv)). pose proof (zlen_leb 10 v). unfold varint_bytes in *. lia.
Qed.

Lemma zlen_delta_bytes previous (rest : list (list Z)) :
  small previous → Forall (λ b, small (zlen b)) rest → zlen rest ≤ zlen (delta_bytes previous rest) ≤ 10 * zlen rest.
Proof.
  intros Hp Hrest. revert previous Hp. induction Hrest as [|b rest Hb Hrest IH]; intros previous Hp; cbn [delta_bytes]; [done|].
  pose proof (zlen_varint (zigzag (zlen b - previous)) ltac:(by apply zigzag_u64, small_difference)).
  pose proof (IH _ Hb). rewrite zlen_cons, zlen_app. lia.
Qed.

Lemma zlen_length_bytes blobs :
  Forall (λ b, small (zlen b)) blobs → zlen blobs ≤ zlen (length_bytes blobs) ≤ 10 * zlen blobs.
Proof.
  intros Hb. destruct Hb as [|b rest Hb Hrest]; [done|]. cbn [length_bytes].
  pose proof (zlen_varint (zlen b) ltac:(by apply small_u64)). pose proof (zlen_delta_bytes _ _ Hb Hrest).
  rewrite zlen_cons, zlen_app. lia.
Qed.

Lemma get_lengths_reading pre previous rest tail :
  small previous → Forall (λ b, small (zlen b)) rest → zlen (pre ++ delta_bytes previous rest ++ tail) ≤ USIZE_MAX →
  get_lengths (length rest) (reading pre (delta_bytes previous rest ++ tail)) previous
  = Ok (map zlen rest, reading (pre ++ delta_bytes previous rest) tail).
Proof.
  intros Hp Hrest. revert pre previous Hp.
  induction Hrest as [|b rest Hb Hrest IH]; intros pre previous Hp Hz; cbn [length get_lengths delta_bytes map] in *.
  { by rewrite app_nil_r. }
  rewrite <- app_assoc in *. rewrite get_i64_reading, bind_Ok by (done || by apply small_difference).
  unfold checked_add_i64. replace (previous + (zlen b - previous)) with (zlen b) by lia.
  unfold small, I64_MIN, I64_MAX in Hb. rewrite !(proj2 (Z.leb_le _ _)) by (unfold I64_MIN, I64_MAX; lia). cbn [andb ok_or].
  rewrite bind_Ok, (proj2 (Z.ltb_ge _ _)) by lia. unfold checked_length.
  rewrite (proj2 (Z.leb_le _ _)) by (unfold USIZE_MAX; lia). rewrite bind_Ok, IH, bind_Ok by (done || by rewrite <- app_assoc).
  by rewrite <- app_assoc.
Qed.

Lemma try_sum_concat total (blobs : list (list Z)) :
  total + zlen (concat blobs) ≤ USIZE_MAX → try_sum total (map zlen blobs) = Some (total + zlen (concat blobs)).
Proof.
  revert total. induction blobs as [|b blobs IH]; intros total Hz; cbn [map try_sum concat] in *.
  { change (zlen (@nil Z)) with 0. by rewrite Z.add_0_r. }
  rewrite zlen_app in *. unfold checked_add. rewrite (proj2 (Z.leb_le _ _)) by zlia. rewrite IH by lia. f_equal. lia.
Qed.

Section blake3.
Context (blake3 : list Z → list Z).
Abbreviation named := (λ b, (TreeHash.compute_typed blake3 [98; 108; 111; 98] b, b)).

Lemma take_blobs_reading pre blobs tail :
  zlen (pre ++ concat blobs ++ tail) ≤ USIZE_MAX →
  take_blobs blake3 (reading pre (concat blobs ++ tail)) (map zlen blobs)
  = Ok (map named blobs, reading (pre ++ concat blobs) tail).
Proof.
  revert pre. induction blobs as [|b blobs IH]; intros pre Hz; cbn [map take_blobs concat] in *; [by rewrite app_nil_r|].
  rewrite <- app_assoc in *. rewrite take_bytes_reading, bind_Ok by done.
  rewrite IH, bind_Ok by by rewrite <- app_assoc. by rewrite <- app_assoc.
Qed.

(** The content of a frame, without its checksum. *)
Definition blob_content (blobs : list (list Z)) : list Z :=
  BLOB_MAGIC ++ varint_bytes (zlen blobs) ++ length_bytes blobs ++ concat blobs.

Lemma fold_put_fixed output blobs : fold_left put_fixed blobs output = output ++ concat blobs.
Proof.
  revert output. induction blobs as [|b blobs IH]; intros output; cbn [fold_left concat]; [by rewrite app_nil_r|].
  rewrite IH. unfold put_fixed. by rewrite <- app_assoc.
Qed.

Lemma encode_blob_frame_bytes blobs :
  zlen blobs ≤ MAX_COMPACT_COUNT → Forall (λ b, small (zlen b)) blobs →
  encode_blob_frame blake3 blobs = Ok (blob_content blobs ++ blake3 (blob_content blobs)).
Proof.
  intros Hn Hb. unfold encode_blob_frame, writer_finish. rewrite (proj2 (Z.ltb_ge _ _)) by done.
  assert (is_u64 (zlen blobs)) by (unfold is_u64, U64_MAX, MAX_COMPACT_COUNT in *; zlia).
  rewrite put_u64_bytes by done. cbn [lift]. rewrite bind_Ok. unfold blob_content.
  destruct Hb as [|b rest Hb Hrest]; [rewrite bind_Ok; by rewrite fold_put_fixed|].
  rewrite put_u64_bytes by by apply small_u64. cbn [lift]. rewrite bind_Ok. unfold i64_length.
  rewrite (proj2 (Z.leb_le _ _)) by apply Hb. rewrite bind_Ok, put_lengths_bytes, bind_Ok by done.
  rewrite fold_put_fixed. cbn [length_bytes]. by rewrite <- !app_assoc.
Qed.

Lemma verified_content content :
  zlen (blake3 content) = 32 → take 4 content = BLOB_MAGIC →
  verified blake3 (content ++ blake3 content) BLOB_MAGIC = Ok {| bytes := content; position := 4 |}.
Proof.
  intros Hh Hm. unfold verified. assert (zlen (take 4 content) = 4) as Hl by (by rewrite Hm).
  assert (4 ≤ zlen content) by (unfold zlen in *; rewrite length_take in Hl; lia).
  unfold FRAME_CHECKSUM_LEN. rewrite (proj2 (Z.ltb_ge _ _)) by zlia.
  replace (zlen (content ++ blake3 content) - 32) with (zlen content) by zlia.
  rewrite (sub_list_middle [] content (blake3 content)) by zlia.
  replace (sub_list (content ++ blake3 content) (zlen content) (zlen (content ++ blake3 content))) with (blake3 content).
  2:{ symmetry. rewrite <- (app_nil_r (content ++ _)), <- app_assoc. apply sub_list_middle; zlia. }
  rewrite !bool_decide_eq_false_2; [done|..]; intros Hne; apply Hne; [done|].
  apply get_range_Some. split; [lia|]. split; [lia|]. rewrite <- Hm. reflexivity.
Qed.

Lemma remaining_reading pre rest : remaining (reading pre rest) = Ok (zlen rest).
Proof.
  unfold remaining, reading, usub. cbn [bytes position]. rewrite (proj2 (Z.leb_le _ _)) by zlia. f_equal. zlia.
Qed.

Lemma get_count_reading pre n rest :
  0 ≤ n ≤ MAX_COMPACT_COUNT → n ≤ zlen rest → zlen (pre ++ varint_bytes n ++ rest) ≤ USIZE_MAX →
  get_count (reading pre (varint_bytes n ++ rest)) MIN_BLOB_ITEM_BYTES = Ok (n, reading (pre ++ varint_bytes n) rest).
Proof.
  intros Hn Hr Hz. unfold get_count, get_count_at_most.
  rewrite get_u64_reading, bind_Ok by (done || (unfold is_u64, U64_MAX, MAX_COMPACT_COUNT in *; lia)).
  rewrite remaining_reading, bind_Ok. unfold admit_count, MIN_BLOB_ITEM_BYTES.
  rewrite (proj2 (Z.ltb_ge _ _)) by lia. change (Z.max 1 1) with 1. rewrite Z.mul_1_r.
  rewrite !(proj2 (Z.leb_le _ _)) by (unfold USIZE_MAX, MAX_COMPACT_COUNT in *; lia). done.
Qed.

(** What follows the lengths. *)
Lemma bodies_reading pre blobs :
  zlen (pre ++ concat blobs) ≤ USIZE_MAX →
  (minimum_remaining ← ok_or (try_sum 0 (map zlen blobs)) (Invalid "blob frame length overflow");
   left ← remaining (reading pre (concat blobs));
   if negb (left =? minimum_remaining) then Err (Invalid "blob lengths do not match the frame")
   else
     '(found, input) ← take_blobs blake3 (reading pre (concat blobs)) (map zlen blobs);
     _ ← reader_finish input;
     Ok found) = Ok (map named blobs).
Proof.
  intros Hz. rewrite try_sum_concat by zlia. cbn [ok_or]. rewrite bind_Ok, remaining_reading, bind_Ok.
  rewrite Z.add_0_l, Z.eqb_refl. cbn [negb]. pose proof (take_blobs_reading pre blobs []) as E. rewrite !app_nil_r in E.
  rewrite E, bind_Ok by done. unfold reader_finish, reading. cbn [bytes position]. by rewrite app_nil_r, Z.eqb_refl.
Qed.

Lemma small_blobs (blobs : list (list Z)) : zlen (concat blobs) ≤ I64_MAX → Forall (λ b, small (zlen b)) blobs.
Proof.
  induction blobs as [|b blobs IH]; intros Hc; [constructor|]. cbn [concat] in Hc. rewrite zlen_app in Hc.
  unfold small in *. constructor; [|apply IH]; zlia.
Qed.

(** Blob frames round trip: for any blobs, at most [MAX_COMPACT_COUNT] of them
    and together smaller than an [i64], the encoder writes a frame from which the
    decoder reads every blob back, in order, each with the typed hash of its own
    bytes. *)
Theorem blob_frame_roundtrip blobs :
  (∀ x, zlen (blake3 x) = 32) → zlen blobs ≤ MAX_COMPACT_COUNT → zlen (concat blobs) ≤ I64_MAX →
  ∃ frame, encode_blob_frame blake3 blobs = Ok frame ∧ decode_blob_frame blake3 frame = Ok (map named blobs).
Proof.
  intros Hh Hn Hc. pose proof (small_blobs blobs Hc) as Hb.
  exists (blob_content blobs ++ blake3 (blob_content blobs)). split; [by apply encode_blob_frame_bytes|].
  pose proof (zlen_length_bytes blobs Hb) as Hl. pose proof (zlen_nonneg blobs) as Hn0.
  pose proof (zlen_varint (zlen blobs) ltac:(unfold is_u64, U64_MAX, MAX_COMPACT_COUNT in *; lia)) as Hv.
  assert (zlen (blob_content blobs) ≤ USIZE_MAX) as Hz.
  { unfold blob_content. rewrite !zlen_app. change (zlen BLOB_MAGIC) with 4.
    unfold USIZE_MAX, I64_MAX, MAX_COMPACT_COUNT in *. lia. }
  unfold decode_blob_frame. rewrite verified_content, bind_Ok by done. unfold blob_content in Hz.
  change {| bytes := blob_content blobs; position := 4 |}
    with (reading BLOB_MAGIC (varint_bytes (zlen blobs) ++ length_bytes blobs ++ concat blobs)).
  rewrite get_count_reading, bind_Ok by (done || lia || zlia). destruct Hb as [|b rest Hb Hrest]; [done|].
  rewrite (proj2 (Z.ltb_lt 0 _)) by zlia. cbn [length_bytes] in *. rewrite <- !app_assoc in *.
  rewrite get_u64_reading; [|by apply small_u64|rewrite <- !app_assoc; exact Hz]. rewrite bind_Ok.
  unfold checked_length, i64_length, small, I64_MAX in *. rewrite !(proj2 (Z.leb_le _ _)) by (unfold USIZE_MAX; lia).
  rewrite !bind_Ok. replace (Z.to_nat (zlen (b :: rest) - 1)) with (length rest) by (unfold zlen; cbn [length]; lia).
  rewrite get_lengths_reading; [|done|done|rewrite <- !app_assoc; exact Hz]. rewrite !bind_Ok.
  apply (bodies_reading _ (b :: rest)). rewrite <- !app_assoc. exact Hz.
Qed.

(** ** Reading arbitrary bytes *)

(** A read that consumes a prefix of what is left. *)
Definition consumes {A} (pre rest : list Z) (P : A → list Z → Prop) (r : A * Reader) : Prop :=
  ∃ x rest', rest = x ++ rest' ∧ r.2 = reading (pre ++ x) rest' ∧ P r.1 x.

Lemma take_bytes_settles pre rest len :
  0 ≤ len → settles (take_bytes (reading pre rest) len) (consumes pre rest (λ v x, v = x ∧ zlen x = len)) (λ _, True).
Proof.
  intros Hl. unfold take_bytes, reading. cbn [bytes position]. destruct (checked_add (zlen pre) len) as [stop|] eqn:E; [|done].
  unfold checked_add in E. destruct (_ <=? _); [|done]. injection E as <-. cbn [ok_or]. rewrite bind_Ok.
  destruct (Z.ltb_spec (zlen (pre ++ rest)) (zlen pre + len)) as [|Hz]; [done|]. rewrite slice_ok, bind_Ok by zlia.
  exists (take (Z.to_nat len) rest), (drop (Z.to_nat len) rest). rewrite take_drop. split; [done|].
  assert (zlen (take (Z.to_nat len) rest) = len) as Ht by (unfold zlen in *; rewrite length_app in Hz; rewrite length_take; lia).
  split; [|split; [|done]].
  - cbn [snd]. unfold reading. rewrite zlen_app, Ht, <- app_assoc, take_drop. done.
  - cbn [fst]. rewrite <- (take_drop (Z.to_nat len) rest) at 1. by rewrite sub_list_middle by lia.
Qed.

Lemma get_u8_settles pre rest : settles (get_u8 (reading pre rest)) (consumes pre rest (λ _ _, True)) (λ _, True).
Proof.
  unfold get_u8. step (take_bytes_settles pre rest 1) as (x & rest' & -> & Hr & Hx & Hl); [lia| |done].
  destruct a as [v r]. cbn [fst snd] in *. subst v r. destruct x as [|b x]; [done|].
  rewrite (index_app_middle [] x b 0), bind_Ok by done. by exists (b :: x), rest'.
Qed.

Lemma get_u64_loop_settles shifts pre rest value :
  0 ≤ value → settles (get_u64_loop shifts (reading pre rest) value) (consumes pre rest (λ v _, 0 ≤ v)) (λ _, True).
Proof.
  revert pre rest value. induction shifts as [|s shifts IH]; intros pre rest value Hv; cbn [get_u64_loop]; [done|].
  step (get_u8_settles pre rest) as (x & rest' & -> & Hr & _); [|done]. destruct a as [b r]. cbn [fst snd] in *. subst r.
  destruct (_ && _); [done|].
  assert (0 ≤ Z.lor value (as_u64 (Z.shiftl (Z.land b 0x7f) s))) as Hv'.
  { apply Z.lor_nonneg. split; [done|]. unfold as_u64. by apply Z.mod_pos_bound. }
  destruct (_ =? 0); [by exists x, rest'|]. eapply settles_mono; [by apply IH| |done].
  intros [v r] (y & rest2 & -> & Hr & Hv2). exists (x ++ y), rest2. rewrite <- !app_assoc. rewrite <- app_assoc in Hr. done.
Qed.

Lemma get_u64_settles pre rest : settles (get_u64 (reading pre rest)) (consumes pre rest (λ v _, 0 ≤ v)) (λ _, True).
Proof. by apply get_u64_loop_settles. Qed.

Lemma get_count_settles pre rest n :
  settles (get_count (reading pre rest) n) (consumes pre rest (λ v _, 0 ≤ v)) (λ _, True).
Proof.
  unfold get_count, get_count_at_most. step (get_u64_settles pre rest) as (x & rest' & -> & Hr & Hv); [|done].
  destruct a as [v r]. cbn [fst snd] in *. subst r. rewrite remaining_reading, bind_Ok. unfold admit_count.
  destruct (_ <? _); [done|]. destruct (_ && _); [|done]. rewrite bind_Ok. by exists x, rest'.
Qed.

Lemma get_lengths_settles count pre rest previous :
  settles (get_lengths count (reading pre rest) previous) (consumes pre rest (λ lens _, Forall (Z.le 0) lens)) (λ _, True).
Proof.
  revert pre rest previous. induction count as [|count IH]; intros pre rest previous; cbn [get_lengths].
  { exists [], rest. by rewrite app_nil_r. }
  unfold get_i64. apply settles_bind. step (get_u64_settles pre rest) as (x & rest' & -> & Hr & _); [|done].
  destruct a as [v r]. cbn [fst snd] in *. subst r. cbn [settles].
  destruct (checked_add_i64 _ _) as [current|]; [|done]. cbn [ok_or]. rewrite bind_Ok.
  destruct (Z.ltb_spec current 0); [done|]. unfold checked_length. destruct (_ <=? _); [|done]. rewrite bind_Ok.
  step (IH (pre ++ x) rest' current) as (y & rest2 & -> & Hr & Hl); [|done]. destruct a as [lens r]. cbn [fst snd] in *. subst r.
  exists (x ++ y), rest2. cbn [fst snd]. rewrite <- !app_assoc. split; [done|]. split; [done|]. by constructor.
Qed.

Lemma take_blobs_settles lens pre rest :
  Forall (Z.le 0) lens →
  settles (take_blobs blake3 (reading pre rest) lens)
    (consumes pre rest (λ found x, ∃ blobs, found = map named blobs ∧ x = concat blobs)) (λ _, True).
Proof.
  intros Hl. revert pre rest. induction Hl as [|len lens Hlen Hl IH]; intros pre rest; cbn [take_blobs].
  { exists [], rest. rewrite app_nil_r. split; [done|]. split; [done|]. by exists []. }
  step (take_bytes_settles pre rest len Hlen) as (x & rest' & -> & Hr & Hx & _); [|done].
  destruct a as [body r]. cbn [fst snd] in *. subst r x.
  step (IH (pre ++ body) rest') as (y & rest2 & -> & Hr & blobs & Hf & ->); [|done]. destruct a as [found r]. cbn [fst snd] in *. subst r found.
  exists (body ++ concat blobs), rest2. cbn [fst snd]. rewrite <- !app_assoc. split; [done|]. split; [done|].
  by exists (body :: blobs).
Qed.

Lemma verified_settles frame magic :
  zlen magic = 4 →
  settles (verified blake3 frame magic)
    (λ r, ∃ rest, r = reading magic rest ∧ frame = (magic ++ rest) ++ blake3 (magic ++ rest)) (λ _, True).
Proof.
  intros Hm. unfold verified, FRAME_CHECKSUM_LEN. destruct (Z.ltb_spec (zlen frame) 32); [done|].
  set (content := sub_list frame 0 _). set (checksum := sub_list frame _ (zlen frame)).
  assert (frame = content ++ checksum) as Hf
    by (unfold content, checksum; rewrite sub_list_app by lia; by rewrite sub_list_full).
  destruct (bool_decide_reflect (get_range content 0 4 ≠ Some magic)) as [|E%dec_stable]; [done|].
  destruct (bool_decide_reflect (blake3 content ≠ checksum)) as [|E'%dec_stable]; [done|].
  apply get_range_Some in E as (_ & Hz & ->). exists (sub_list content 4 (zlen content)). unfold reading.
  rewrite sub_list_app by lia. rewrite sub_list_full. split; [done|]. by rewrite E'.
Qed.

(** The frame decoder is safe and sound: on arbitrary bytes it neither panics
    nor runs on, and what it accepts is a head, the bodies of the blobs one
    after the other and the checksum of both; every blob is given with the typed
    hash of its own bytes. *)
Theorem decode_blob_frame_sound frame :
  settles (decode_blob_frame blake3 frame)
    (λ found, ∃ head blobs, found = map named blobs ∧
       let content := head ++ concat blobs in frame = content ++ blake3 content ∧ take 4 head = BLOB_MAGIC)
    (λ _, True).
Proof.
  unfold decode_blob_frame. assert (zlen BLOB_MAGIC = 4) as Hm by done. remember BLOB_MAGIC as m eqn:Em.
  step (verified_settles frame m) as (rest & -> & ->); [done| |done].
  apply settles_bind. eapply settles_mono; [apply get_count_settles| |done]. intros a (x & rest1 & -> & Hr & Hc).
  destruct a as [count r]. cbn [fst snd] in *. subst r. apply settles_bind.
  eapply (settles_mono _ (consumes (m ++ x) rest1 (λ lens _, Forall (Z.le 0) lens)) _ (λ _, True)); [| |done].
  - destruct (0 <? count); [|by exists [], rest1; rewrite app_nil_r].
    step (get_u64_settles (m ++ x) rest1) as (y & rest2 & -> & Hr & Hf); [|done].
    destruct a as [first r]. cbn [fst snd] in *. subst r. unfold checked_length, i64_length.
    destruct (first <=? USIZE_MAX); [|done]. rewrite bind_Ok. destruct (first <=? I64_MAX); [|done]. rewrite bind_Ok.
    step (get_lengths_settles (Z.to_nat (count - 1)) ((m ++ x) ++ y) rest2 first) as (z & rest3 & -> & Hr & Hl); [|done].
    destruct a as [lens r]. cbn [fst snd] in *. subst r. exists (y ++ z), rest3. cbn [fst snd]. rewrite <- !app_assoc.
    split; [done|]. split; [done|]. by constructor.
  - intros [lens r] (y & rest2 & -> & Hr & Hl). cbn [fst snd] in *. subst r.
    destruct (try_sum 0 lens) as [total|]; [|done]. cbn [ok_or]. rewrite bind_Ok, remaining_reading, bind_Ok.
    destruct (negb _); [done|].
    step (take_blobs_settles lens ((m ++ x) ++ y) rest2 Hl) as (z & rest3 & -> & Hr & blobs & Hf & ->); [|done].
    destruct a as [found r]. cbn [fst snd] in *. subst r found. unfold reader_finish, reading. cbn [bytes position].
    destruct (Z.eqb_spec (zlen ((((m ++ x) ++ y) ++ concat blobs))) (zlen ((((m ++ x) ++ y) ++ concat blobs) ++ rest3))) as [E|]; [|done].
    assert (rest3 = []) as -> by (apply zlen_0_nil; rewrite (zlen_app _ rest3) in E; lia). rewrite bind_Ok.
    exists (m ++ x ++ y), blobs. rewrite app_nil_r, <- !app_assoc. split; [done|]. by rewrite Em.
Qed.
End blake3.

Lemma blob_frame_roundtrip_witness :
  ∃ frame, encode_blob_frame (λ _, replicate 32 7) [[1; 2; 3]; []; [4]] = Ok frame
    ∧ decode_blob_frame (λ _, replicate 32 7) frame
      = Ok (map (λ b, (TreeHash.compute_typed (λ _, replicate 32 7) [98; 108; 111; 98] b, b)) [[1; 2; 3]; []; [4]]).
Proof. apply blob_frame_roundtrip; [done|vm_compute; congruence..]. Defined.
