(* ===== verification/TreeCodec.v ===== *)
(** * Tree bodies ([crates/object-model/src/object/{tree,tree_git_layout}.rs])

    Module [TreeCodec] models the two external forms of a tree: the raw Git
    tree body that an import reads ([parse_git_tree]) and the durable V2 record
    ([EncodedTreeV2]) between a [Tree] and its msgpack bytes.  The msgpack
    layer itself is the [rmp_serde] crate and is not modelled: the model starts
    and ends at the record that this crate converts. *)

From S2P Require Import Prelude.
From S2P Require Import Trees.
Import Trees.

(** [sley_core::ObjectId::from_raw]: accepts the bytes of an id of the format. *)
Class GitObjectBytes (Oid : Type) `{GitObjects Oid} := {
  from_raw : bool → list Z → option Oid;
  from_raw_spec s bs o : from_raw s bs = Some o ↔ oid_is_sha256 o = s ∧ oid_bytes o = bs
}.

Module TreeCodec.

Section codec.
Context {Oid : Type} `{GitObjectBytes Oid}.
Abbreviation entry := (TreeEntry Oid).
Abbreviation tree := (Tree Oid).

(** [format.raw_len()] *)
Definition raw_len (is_sha256 : bool) : Z := if is_sha256 then 32 else 20.

(** ** Raw Git trees *)
Record GitTreeEntryRef := { ref_mode : RawGitMode; ref_name : list Z; ref_oid : Oid }.

Fixpoint parse_loop (fuel : nat) (format : bool) (rest : list Z) (entries : list GitTreeEntryRef)
  : res (list GitTreeEntryRef) :=
  match fuel with
  | O => Fuel
  | S fuel =>
      if bool_decide (rest = []) then Ok entries
      else
        space ← ok_or (position (Z.eqb 32) rest) (InvalidStructure "malformed git tree: unterminated mode");
        let space := Z.of_nat space in
        digits ← slice rest 0 space;
        mode ← parse digits;
        rest ← slice rest (space + 1) (zlen rest);
        nul ← ok_or (position (Z.eqb 0) rest) (InvalidStructure "malformed git tree: unterminated name");
        let nul := Z.of_nat nul in
        if nul =? 0 then Err (InvalidStructure "malformed git tree: empty name")
        else
          name ← slice rest 0 nul;
          rest ← slice rest (nul + 1) (zlen rest);
          let oid_len := raw_len format in
          if zlen rest <? oid_len then Err (InvalidStructure "malformed git tree: truncated object id")
          else
            raw ← slice rest 0 oid_len;
            oid ← ok_or (from_raw format raw) (InvalidStructure "malformed git tree: object id");
            rest ← slice rest oid_len (zlen rest);
            parse_loop fuel format rest
              (entries ++ [{| ref_mode := mode; ref_name := name; ref_oid := oid |}])
  end.
Definition parse_git_tree (format : bool) (body : list Z) : res (list GitTreeEntryRef) :=
  parse_loop (S (length body)) format body [].

(** The bytes of an entry in a Git tree. *)
Definition git_entry_bytes (e : GitTreeEntryRef) : list Z :=
  write_digits (ref_mode e) ++ 32 :: ref_name e ++ 0 :: oid_bytes (ref_oid e).
Definition git_entry_ok (format : bool) (e : GitTreeEntryRef) : Prop :=
  mode_ok (ref_mode e) ∧ (ref_name e ≠ []) ∧ (0 ∉ ref_name e) ∧ oid_is_sha256 (ref_oid e) = format.

(** ** The durable record *)
Definition TREE_FORMAT_VERSION : Z := 3.
Definition TREE_FORMAT_VERSION_V4 : Z := 4.
Definition ENTRY_KIND_BLOB : Z := 0.
Definition ENTRY_KIND_TREE : Z := 1.
Definition ENTRY_KIND_SYMLINK : Z := 2.
Definition ENTRY_KIND_GITLINK : Z := 3.
Definition ENTRY_KIND_SPOOLLINK : Z := 4.

Record EncodedTreeEntryV2 := {
  enc_name : list Z;
  enc_kind : Z;
  enc_hash : option (list Z);
  enc_executable : option bool;
  enc_git_format : option Z;
  enc_git_oid : option (list Z);
  enc_spool_id : option (list Z);
  enc_spool_state_id : option (list Z);
  enc_git_mode : option (list Z)
}.

Record EncodedTreeV2 := {
  enc_version : Z;
  enc_entries : list EncodedTreeEntryV2;
  enc_salts : option (list (list Z));
  enc_source_positions : option (list Z)
}.

(** [EncodedTreeEntryV2::from] *)
Definition encode_entry (e : entry) : EncodedTreeEntryV2 :=
  let name := name e in
  let git_mode := write_digits <$> git_mode e in
  match target e with
  | TreeEntryTarget.Blob hash executable =>
      {| enc_name := name; enc_kind := ENTRY_KIND_BLOB; enc_hash := Some hash; enc_executable := Some executable;
         enc_git_format := None; enc_git_oid := None; enc_spool_id := None; enc_spool_state_id := None;
         enc_git_mode := git_mode |}
  | TreeEntryTarget.Tree hash =>
      {| enc_name := name; enc_kind := ENTRY_KIND_TREE; enc_hash := Some hash; enc_executable := None;
         enc_git_format := None; enc_git_oid := None; enc_spool_id := None; enc_spool_state_id := None;
         enc_git_mode := git_mode |}
  | TreeEntryTarget.Symlink hash =>
      {| enc_name := name; enc_kind := ENTRY_KIND_SYMLINK; enc_hash := Some hash; enc_executable := None;
         enc_git_format := None; enc_git_oid := None; enc_spool_id := None; enc_spool_state_id := None;
         enc_git_mode := git_mode |}
  | TreeEntryTarget.Gitlink target =>
      {| enc_name := name; enc_kind := ENTRY_KIND_GITLINK; enc_hash := None; enc_executable := None;
         enc_git_format := Some (git_format_to_tag (oid_is_sha256 target)); enc_git_oid := Some (oid_bytes target);
         enc_spool_id := None; enc_spool_state_id := None; enc_git_mode := git_mode |}
  | TreeEntryTarget.Spoollink spool_id state_id =>
      {| enc_name := name; enc_kind := ENTRY_KIND_SPOOLLINK; enc_hash := None; enc_executable := None;
         enc_git_format := None; enc_git_oid := None; enc_spool_id := Some spool_id;
         enc_spool_state_id := Some state_id; enc_git_mode := git_mode |}
  end.

(** [EncodedTreeV2::from] *)
Definition encode_tree (t : tree) : EncodedTreeV2 :=
  let '(version, salts) :=
    match scheme t with
    | V3Flat => (TREE_FORMAT_VERSION, None)
    | V4Salted => (TREE_FORMAT_VERSION_V4, Some (salts t))
    end in
  {| enc_version := version; enc_entries := map encode_entry (entries t); enc_salts := salts;
     enc_source_positions := if bool_decide (source_positions t = []) then None else Some (source_positions t) |}.

Definition required_hash (hash : option (list Z)) : res (list Z) :=
  ok_or hash (InvalidStructure "entry is missing hash").
Definition required_git_format (format : option Z) : res Z :=
  ok_or format (InvalidStructure "entry is missing git_format").
Definition git_format_from_tag (tag : Z) : res bool :=
  if tag =? GIT_OBJECT_FORMAT_SHA1 then Ok false
  else if tag =? GIT_OBJECT_FORMAT_SHA256 then Ok true
  else Err (InvalidStructure "unknown git object format tag").

Definition try_from_encoded_target (encoded : EncodedTreeEntryV2) : res entry :=
  let kind := enc_kind encoded in
  if kind =? ENTRY_KIND_BLOB then
    hash ← required_hash (enc_hash encoded);
    new_entry (enc_name encoded) (TreeEntryTarget.Blob hash (default false (enc_executable encoded)))
  else if kind =? ENTRY_KIND_TREE then
    hash ← required_hash (enc_hash encoded);
    new_entry (enc_name encoded) (TreeEntryTarget.Tree hash)
  else if kind =? ENTRY_KIND_SYMLINK then
    hash ← required_hash (enc_hash encoded);
    new_entry (enc_name encoded) (TreeEntryTarget.Symlink hash)
  else if kind =? ENTRY_KIND_GITLINK then
    tag ← required_git_format (enc_git_format encoded);
    format ← git_format_from_tag tag;
    oid ← ok_or (enc_git_oid encoded) (InvalidStructure "gitlink entry is missing git_oid");
    target ← ok_or (from_raw format oid) (InvalidStructure "invalid gitlink target");
    new_entry (enc_name encoded) (TreeEntryTarget.Gitlink target)
  else if kind =? ENTRY_KIND_SPOOLLINK then
    spool_id ← ok_or (enc_spool_id encoded) (InvalidStructure "spoollink entry is missing spool_id");
    state_id ← ok_or (enc_spool_state_id encoded)
      (InvalidStructure "spoollink entry is missing spool_state_id");
    new_entry (enc_name encoded) (TreeEntryTarget.Spoollink spool_id state_id)
  else Err (InvalidStructure "unknown tree entry kind").

(** [TreeEntry::try_from] *)
Definition decode_entry (encoded : EncodedTreeEntryV2) : res entry :=
  git_mode ← match enc_git_mode encoded with
             | Some digits => m ← parse digits; Ok (Some m)
             | None => Ok None
             end;
  e ← try_from_encoded_target encoded;
  match git_mode with
  | Some mode => _ ← check_raw_git_mode e mode; Ok (with_checked_raw_git_mode e mode)
  | None => Ok e
  end.

Fixpoint decode_entries (es : list EncodedTreeEntryV2) : res (list entry) :=
  match es with
  | [] => Ok []
  | e :: es => e ← decode_entry e; es ← decode_entries es; Ok (e :: es)
  end.

(** [Tree::try_from] *)
Definition decode_tree (encoded : EncodedTreeV2) : res tree :=
  es ← decode_entries (enc_entries encoded);
  let source_positions := default [] (enc_source_positions encoded) in
  let version := enc_version encoded in
  if version =? TREE_FORMAT_VERSION then
    if negb (bool_decide (default [] (enc_salts encoded) = []))
    then Err (InvalidStructure "v3 tree body must not carry salts")
    else try_from_decoded_layout es source_positions
  else if version =? TREE_FORMAT_VERSION_V4 then
    if negb (bool_decide (source_positions = []))
    then Err (InvalidStructure "v4 tree body must not carry source positions")
    else
      salts ← ok_or (enc_salts encoded) (InvalidStructure "v4 tree body is missing its salts");
      try_from_decoded_entries_salted_v4 es salts
  else Err (InvalidStructure "unsupported tree format version").

(** ** Lemmas *)
Lemma position_eq c l :
  match position (Z.eqb c) l with
  | Some i => ∃ a b, l = a ++ c :: b ∧ i = length a ∧ c ∉ a
  | None => c ∉ l
  end.
Proof.
  induction l as [|x l IH]; cbn; [apply not_elem_of_nil|]. destruct (Z.eqb_spec c x) as [->|Hne].
  - exists [], l. split; [done|]. split; [done|]. apply not_elem_of_nil.
  - destruct (position (Z.eqb c) l) as [i|]; cbn.
    + destruct IH as (a & b & -> & -> & Ha). exists (x :: a), b. split; [done|]. split; [done|].
      by apply not_elem_of_cons.
    + by apply not_elem_of_cons.
Qed.

Lemma position_app c a b : c ∉ a → position (Z.eqb c) (a ++ c :: b) = Some (length a).
Proof.
  induction a as [|x a IH]; cbn; intros Hc; [by rewrite Z.eqb_refl|].
  apply not_elem_of_cons in Hc as [Hx Hc]. rewrite (proj2 (Z.eqb_neq _ _)) by done. by rewrite IH.
Qed.

Lemma digits_no_space m : mode_ok m → 32 ∉ write_digits m.
Proof.
  intros [Hv _] Hin. assert (octal 32) as Ho; [|apply octal_bounds in Ho; lia].
  unfold write_digits in Hin. apply elem_of_app in Hin as [Hin|Hin].
  - apply elem_of_replicate in Hin as [? _]. done.
  - destruct (octal_digits_spec 11 (value m)) as (Hf & _).
    { unfold U32_MAX in *. change (8 ^ Z.of_nat 11) with 8589934592. lia. }
    rewrite Forall_forall in Hf. by apply Hf.
Qed.

Lemma slice_first {E} (a b : list Z) c :
  slice (E:=E) (a ++ c :: b) 0 (Z.of_nat (length a)) = Ok a
  ∧ slice (E:=E) (a ++ c :: b) (Z.of_nat (length a) + 1) (zlen (a ++ c :: b)) = Ok b.
Proof.
  split.
  - rewrite slice_prefix, slice_ok by (unfold zlen; lia). fold (zlen a). by rewrite sub_list_full.
  - change (a ++ c :: b) with (a ++ [c] ++ b). rewrite app_assoc. apply slice_suffix. unfold zlen.
    rewrite length_app. cbn. lia.
Qed.

Lemma slice_take {E} (a b : list Z) n :
  n = zlen a → slice (E:=E) (a ++ b) 0 n = Ok a ∧ slice (E:=E) (a ++ b) n (zlen (a ++ b)) = Ok b.
Proof.
  intros ->. split; [|by apply slice_suffix].
  by rewrite slice_prefix, slice_ok, sub_list_full by zlia.
Qed.

(** One round of the parser on the bytes of an entry. *)
Lemma parse_entry fuel format e rest es :
  git_entry_ok format e →
  parse_loop (S fuel) format (git_entry_bytes e ++ rest) es = parse_loop fuel format rest (es ++ [e]).
Proof.
  intros (Hm & Hn & Hz & Hf). unfold git_entry_bytes. rewrite <- app_assoc. cbn [app]. cbn [parse_loop].
  rewrite bool_decide_eq_false_2 by (intros E; by apply app_nil in E as [_ ?]).
  rewrite position_app by by apply digits_no_space. cbn [ok_or]. rewrite bind_Ok.
  destruct (@slice_first TreeError (write_digits (ref_mode e)) ((ref_name e ++ 0 :: oid_bytes (ref_oid e)) ++ rest) 32) as [-> ->].
  rewrite bind_Ok, parse_write, !bind_Ok by done. rewrite <- app_assoc. cbn [app].
  rewrite position_app by done. cbn [ok_or]. rewrite bind_Ok.
  rewrite (proj2 (Z.eqb_neq _ _)) by (destruct (ref_name e); [done|cbn; lia]).
  destruct (@slice_first TreeError (ref_name e) (oid_bytes (ref_oid e) ++ rest) 0) as [-> ->]. rewrite !bind_Ok. cbv zeta.
  assert (raw_len format = zlen (oid_bytes (ref_oid e))) as Hlen by (rewrite oid_len, Hf; done).
  rewrite (proj2 (Z.ltb_ge _ _)) by zlia.
  destruct (@slice_take TreeError (oid_bytes (ref_oid e)) rest (raw_len format) Hlen) as [-> ->].
  rewrite bind_Ok, (proj2 (from_raw_spec format (oid_bytes (ref_oid e)) (ref_oid e))) by done.
  cbn [ok_or]. rewrite !bind_Ok. by destruct e.
Qed.

Lemma git_entry_bytes_nonempty e : git_entry_bytes e ≠ [].
Proof. unfold git_entry_bytes. by destruct (write_digits (ref_mode e)). Qed.

Lemma parse_complete fuel format k es :
  Forall (git_entry_ok format) k → (length (concat (map git_entry_bytes k)) < fuel)%nat →
  parse_loop fuel format (concat (map git_entry_bytes k)) es = Ok (es ++ k).
Proof.
  intros Hk. revert fuel es. induction Hk as [|e k He Hk IH]; intros fuel es Hf; cbn [map concat] in *.
  - destruct fuel; [lia|]. cbn. by rewrite app_nil_r.
  - destruct fuel as [|fuel]; [lia|]. rewrite parse_entry by done. rewrite IH, <- app_assoc; [done|].
    rewrite length_app in Hf. pose proof (git_entry_bytes_nonempty e).
    destruct (git_entry_bytes e); [done|cbn in Hf; lia].
Qed.

Lemma parse_settles (ds : list Z) : settles (parse ds) (λ m, parse ds = Ok m) (λ _, True).
Proof.
  assert (∀ m, settles (E:=TreeError) (A:=RawGitMode) m (λ _, True) (λ _, True) → settles m (λ a, m = Ok a) (λ _, True)) as Hs
    by by intros [].
  apply Hs. unfold parse. destruct (_ || _); [done|]. destruct (octal_value _ 0) as [v|]; [|done].
  cbn [ok_or]. rewrite bind_Ok. destruct (v =? 0); [done|]. by destruct (_ <=? U8_MAX).
Qed.

Lemma parse_sound fuel format rest es :
  (length rest < fuel)%nat →
  settles (parse_loop fuel format rest es)
    (λ r, ∃ k, r = es ++ k ∧ Forall (git_entry_ok format) k ∧ rest = concat (map git_entry_bytes k)) (λ _, True).
Proof.
  revert rest es. induction fuel as [|fuel IH]; intros rest es Hf; [lia|]. cbn [parse_loop].
  case_bool_decide as Hr; [exists []; cbn; rewrite app_nil_r; by repeat constructor|].
  pose proof (position_eq 32 rest) as Hp. destruct (position (Z.eqb 32) rest) as [i|]; [|done].
  destruct Hp as (a & b & -> & -> & Ha). cbn [ok_or]. rewrite bind_Ok.
  destruct (@slice_first TreeError a b 32) as [-> ->]. rewrite bind_Ok.
  step (parse_settles a) as Hm; [|done]. apply write_parse in Hm as [Hm <-]. rename a0 into m.
  rewrite bind_Ok. pose proof (position_eq 0 b) as Hp. destruct (position (Z.eqb 0) b) as [i|]; [|done].
  destruct Hp as (n & c & -> & -> & Hn). cbn [ok_or]. rewrite bind_Ok.
  destruct (Z.eqb_spec (Z.of_nat (length n)) 0) as [|Hz]; [done|].
  destruct (@slice_first TreeError n c 0) as [-> ->]. rewrite !bind_Ok. cbv zeta.
  destruct (Z.ltb_spec (zlen c) (raw_len format)) as [|Hlen]; [done|].
  assert (0 ≤ raw_len format) by (unfold raw_len; destruct format; lia).
  rewrite <- (sub_list_full c), <- (sub_list_app c 0 (raw_len format) (zlen c)) by lia.
  set (o := sub_list c 0 (raw_len format)). set (d := sub_list c (raw_len format) (zlen c)).
  assert (raw_len format = zlen o) as Ho by (unfold o; rewrite zlen_sub_list; lia).
  destruct (@slice_take TreeError o d (raw_len format) Ho) as [-> ->]. rewrite bind_Ok.
  destruct (from_raw format o) as [oid|] eqn:Eo; [|done]. apply from_raw_spec in Eo as [Hs Eo]. cbn [ok_or]. rewrite !bind_Ok.
  eapply settles_mono; [apply IH| |done].
  - rewrite !length_app in Hf. cbn in Hf. rewrite !length_app in Hf. cbn in Hf.
    assert (zlen c = zlen (o ++ d)) as Hc by (unfold o, d; by rewrite sub_list_app, sub_list_full by lia).
    unfold zlen in *. rewrite length_app in *. lia.
  - intros r (k & -> & Hk & ->). eexists (_ :: k). rewrite <- app_assoc. split; [done|]. split.
    + constructor; [|done]. split; [done|]. split; [|done].
      cbn [ref_name]. intros E. by rewrite E in Hz.
    + cbn [map concat].
      change (git_entry_bytes _) with (write_digits m ++ 32 :: n ++ 0 :: oid_bytes oid). rewrite Eo.
      rewrite <- app_assoc. cbn [app]. by rewrite <- app_assoc.
Qed.

(** Code that answers: no panic, no lack of fuel. *)
Definition answers {A} (m : res A) : Prop := settles m (λ _, True) (λ _, True).

Lemma answers_bind {A B} (m : res A) (f : A → res B) : answers m → (∀ a, answers (f a)) → answers (m ≫= f).
Proof. intros Hm Hf. apply settles_bind. eapply settles_mono; [exact Hm| |done]. intros a _. apply Hf. Qed.
Lemma answers_ok_or {A} (o : option A) e : answers (ok_or o e).
Proof. by destruct o. Qed.
Lemma answers_parse ds : answers (parse ds).
Proof. eapply settles_mono; [apply parse_settles|done..]. Qed.
Lemma answers_new_entry n (t : TreeEntryTarget.t Oid) : answers (new_entry n t).
Proof. apply answers_bind; [|done]. unfold validate_name. by repeat case_match. Qed.
Lemma answers_check (e : entry) m : answers (check_raw_git_mode e m).
Proof. unfold check_raw_git_mode. by repeat case_match. Qed.
Lemma answers_tag tag : answers (git_format_from_tag tag).
Proof. unfold git_format_from_tag. by repeat case_match. Qed.
Hint Resolve answers_ok_or answers_parse answers_new_entry answers_check answers_tag : core.

Lemma answers_decode_entry (r : EncodedTreeEntryV2) : answers (decode_entry r).
Proof.
  unfold decode_entry. apply answers_bind.
  { destruct (enc_git_mode r); [|done]. by apply answers_bind. }
  intros mode. apply answers_bind.
  - unfold try_from_encoded_target, required_hash, required_git_format.
    repeat (case_match; [repeat (apply answers_bind; [done|intros ?]); done|]). done.
  - intros e. destruct mode; [|done]. by apply answers_bind.
Qed.

Lemma answers_decode_entries es : answers (decode_entries es).
Proof.
  induction es as [|e es IH]; [done|]. cbn [decode_entries].
  apply answers_bind; [apply answers_decode_entry|intros e']. by apply answers_bind.
Qed.

Lemma decode_tree_wf (r : EncodedTreeV2) : settles (decode_tree r) wf (λ _, True).
Proof.
  assert (∀ t : tree, settles (_ ← validate t; Ok t) wf (λ _ : TreeError, True)) as Hval.
  { intros t. apply settles_bind. eapply settles_mono; [apply validate_wf|done|done]. }
  unfold decode_tree, try_from_decoded_layout, try_from_decoded_entries_salted_v4.
  apply settles_bind. eapply settles_mono; [apply answers_decode_entries| |done]. intros es _. cbv zeta.
  destruct (_ =? TREE_FORMAT_VERSION); [destruct (negb _); [done|apply Hval]|].
  destruct (_ =? TREE_FORMAT_VERSION_V4); [|done]. destruct (negb _); [done|].
  destruct (enc_salts r) as [ss|]; [|done]. cbn [ok_or]. rewrite bind_Ok. destruct (negb _); [done|apply Hval].
Qed.

Lemma new_entry_ok n (t : TreeEntryTarget.t Oid) :
  validate_name n = Ok () → new_entry n t = Ok {| name := n; target := t; git_mode := None |}.
Proof. unfold new_entry. by intros ->. Qed.

Lemma decode_encode_entry (e : entry) :
  validate_entry e = Ok () → (∀ m, git_mode e = Some m → mode_ok m) → decode_entry (encode_entry e) = Ok e.
Proof.
  unfold validate_entry. rewrite bind_ok_unit. intros [Hn Hc] Hm. unfold decode_entry.
  assert (enc_git_mode (encode_entry e) = write_digits <$> git_mode e) as -> by by destruct e as [n [] m].
  assert (try_from_encoded_target (encode_entry e) = Ok (drop_raw_git_mode e)) as ->.
  { destruct e as [n t m]. cbn [name] in Hn. destruct t as [h x|h|h|o|sp st]; unfold try_from_encoded_target, encode_entry;
      cbn [enc_kind target]; cbn; rewrite ?new_entry_ok by done; try done.
    assert (git_format_from_tag (git_format_to_tag (oid_is_sha256 o)) = Ok (oid_is_sha256 o)) as ->
      by by destruct (oid_is_sha256 o).
    rewrite bind_Ok, (proj2 (from_raw_spec _ _ o)) by done. cbn. by rewrite new_entry_ok. }
  destruct (git_mode e) as [m|] eqn:Em; cbn [fmap option_fmap option_map].
  - rewrite parse_write by by apply Hm. rewrite !bind_Ok.
    change (check_raw_git_mode (drop_raw_git_mode e) m) with (check_raw_git_mode e m). rewrite Hc, bind_Ok.
    destruct e. cbn in *. by subst.
  - rewrite !bind_Ok. destruct e. cbn in *. by subst.
Qed.

(** Reading a raw Git tree body always answers.  It succeeds exactly on the
    bodies that are the concatenation of well-formed entries, with the one list
    of entries whose bytes - mode digits included - make up the body. *)
Theorem parse_git_tree_exact (format : bool) (body : list Z) :
  settles (parse_git_tree format body)
    (λ es, ∀ es', Forall (git_entry_ok format) es' ∧ body = concat (map git_entry_bytes es') ↔ es' = es)
    (λ _, ¬ ∃ es, Forall (git_entry_ok format) es ∧ body = concat (map git_entry_bytes es)).
Proof.
  assert (∀ es, Forall (git_entry_ok format) es → body = concat (map git_entry_bytes es) →
    parse_git_tree format body = Ok es) as Hc.
  { intros es Hes ->. unfold parse_git_tree. by rewrite parse_complete by (done || lia). }
  pose proof (parse_sound (S (length body)) format body [] ltac:(lia)) as Hs.
  change (settles (parse_git_tree format body) (λ r, ∃ k, r = [] ++ k ∧ Forall (git_entry_ok format) k
    ∧ body = concat (map git_entry_bytes k)) (λ _, True)) in Hs.
  destruct (parse_git_tree format body) as [es|e| |]; cbn in *; [..|done|done].
  - destruct Hs as (k & -> & Hk & Hb). intros es'. split; [intros [Hes' Hb']|by intros ->].
    specialize (Hc es' Hes' Hb'). congruence.
  - intros (es & Hes & Hb). by specialize (Hc es Hes Hb).
Qed.

(** The durable record of a well-formed tree decodes to that tree, scheme,
    salts, raw modes and source positions included, and decoding any record
    answers with an error or with a well-formed tree. *)
Theorem durable_tree_roundtrip (t : tree)
    (Hwf : wf t) (Hm : Forall (λ e, ∀ m, git_mode e = Some m → mode_ok m) (entries t)) :
  decode_tree (encode_tree t) = Ok t ∧ ∀ r, settles (decode_tree r) wf (λ _, True).
Proof.
  split; [|apply decode_tree_wf].
  assert (decode_entries (map encode_entry (entries t)) = Ok (entries t)) as Hes.
  { pose proof (wf_entries t Hwf) as Hv. induction (entries t) as [|e es IH]; [done|].
    apply Forall_cons in Hm as [Hm Hms], Hv as [Hv Hvs]. cbn [map decode_entries].
    rewrite decode_encode_entry by done. rewrite bind_Ok, IH by done. done. }
  assert (validate t = Ok ()) as Hval by (pose proof (validate_wf t) as Hv; by destruct (validate t) as [[]| | |]).
  unfold decode_tree, encode_tree.
  pose proof (wf_scheme t Hwf) as Hs. pose proof (wf_positions t Hwf) as Hp.
  assert (default [] (if bool_decide (source_positions t = []) then None else Some (source_positions t))
    = source_positions t) as Hpos by (by case_bool_decide).
  destruct t as [es sch ss ps]. cbn [scheme entries salts source_positions] in *.
  destruct sch; cbn [enc_entries enc_version enc_salts enc_source_positions]; rewrite Hes, bind_Ok, Hpos; cbv zeta.
  - subst ss. rewrite Z.eqb_refl, (bool_decide_eq_true_2 _ eq_refl). cbn [negb]. unfold try_from_decoded_layout.
    by rewrite Hval.
  - destruct Hs as [Hl _]. destruct Hp as [->|(? & _)]; [|done].
    change (TREE_FORMAT_VERSION_V4 =? TREE_FORMAT_VERSION) with false. cbv iota.
    rewrite Z.eqb_refl, (bool_decide_eq_true_2 _ eq_refl). cbn [negb ok_or]. rewrite bind_Ok.
    unfold try_from_decoded_entries_salted_v4, zlen. rewrite Hl, Z.eqb_refl. cbn [negb]. by rewrite Hval.
Qed.
End codec.

(** ** Examples *)
#[export] Program Instance two_ids_bytes : GitObjectBytes bool := {|
  from_raw s bs := if decide (bs = replicate (if s then 32 else 20) 0) then Some s else None
|}.
Next Obligation.
  intros s bs o. cbn. case_decide as Hd; split.
  - intros [= <-]. by subst.
  - intros [<- _]. done.
  - done.
  - intros [<- <-]. by destruct Hd.
Qed.

Definition legacy_tree : Tree bool :=
  {| entries := [file_entry; legacy_entry]; scheme := V3Flat; salts := []; source_positions := [1; 0] |}.

Lemma durable_tree_roundtrip_witness : decode_tree (encode_tree legacy_tree) = Ok legacy_tree.
Proof.
  apply (durable_tree_roundtrip legacy_tree).
  - pose proof (validate_wf legacy_tree) as Hv. vm_compute (validate _) in Hv. exact Hv.
  - constructor; [intros m [=]|]. constructor; [|constructor]. intros m [= <-].
    split; cbn; unfold U32_MAX, U8_MAX; lia.
Defined.

End TreeCodec.
