(* ===== verification/ObjectStore.v ===== *)
(** * The object store ([crates/objects/src/store/mod.rs])

    The class [ObjectStore] is what the tree algorithms rely on of the trait of
    that name: objects that were put can be got, whatever could be got stays,
    and no operation panics.  The state of the store is explicit.  The file
    also holds the walk from a tree to the entry at a path, the specification
    of flattened trees, and an in-memory store for the examples. *)

From S2P Require Import Prelude.
From S2P Require Import Trees.
Import Trees.

(** [anyhow::Error], by where it comes from. *)
Inductive MergeError :=
| RepositoryIntegrity (error : string)
| TreeRejected (e : TreeError)
| StoreFailed (message : string)
| Internal (message : string).

Abbreviation mres := (exec MergeError).

(** [?] on a tree error. *)
Definition with_tree_error {A} (m : res A) : mres A :=
  match m with Ok a => Ok a | Err e => Err (TreeRejected e) | Panic => Panic | Fuel => Fuel end.

Class ObjectStore (Oid St : Type) `{GitObjects Oid} := {
  get_blob : St → list Z → mres (option (list Z));
  get_tree : St → list Z → mres (option (Tree Oid));
  put_blob : St → list Z → mres (St * list Z);
  put_tree : St → Tree Oid → mres (St * list Z);
  (** The second store has all that the first one has. *)
  extends : St → St → Prop;
  #[global] extends_preorder :: PreOrder extends;
  extends_blob s s' h b : extends s s' → get_blob s h = Ok (Some b) → get_blob s' h = Ok (Some b);
  extends_tree s s' h t : extends s s' → get_tree s h = Ok (Some t) → get_tree s' h = Ok (Some t);
  put_blob_spec s b :
    settles (put_blob s b) (λ r, extends s r.1 ∧ get_blob r.1 r.2 = Ok (Some b)) (λ _, True);
  put_tree_spec s t :
    settles (put_tree s t) (λ r, extends s r.1 ∧ get_tree r.1 r.2 = Ok (Some t)) (λ _, True);
  get_blob_answers s h : settles (get_blob s h) (λ _, True) (λ _, True);
  get_tree_answers s h : settles (get_tree s h) (λ _, True) (λ _, True)
}.

Module Stored.
Section stored.
Context {Oid St : Type} `{ObjectStore Oid St}.
Abbreviation entry := (TreeEntry Oid).
Abbreviation tree := (Tree Oid).
Abbreviation target_t := (TreeEntryTarget.t Oid).

(** [entries.iter().map(|e| (e.name(), e)).collect::<HashMap<_, _>>()] *)
Definition by_name (es : list entry) : gmap (list Z) entry :=
  fold_left (λ m e, <[name e := e]> m) es ∅.

Definition fetch (s : St) (h : list Z) : option tree :=
  match get_tree s h with Ok (Some t) => Some t | _ => None end.

(** The leaf that a tree holds at a path, a list of names; directories are not
    leaves. *)
Fixpoint leaf_at (s : St) (t : tree) (p : list (list Z)) : option target_t :=
  match p with
  | [] => None
  | n :: p =>
      match by_name (entries t) !! n with
      | None => None
      | Some e =>
          match target e with
          | TreeEntryTarget.Tree h =>
              match fetch s h with Some t => leaf_at s t p | None => None end
          | x => match p with [] => Some x | _ => None end
          end
      end
  end.

(** The leaves below an entry, if there is one. *)
Definition leaf_below (s : St) (e : option entry) (p : list (list Z)) : option target_t :=
  match e with
  | None => None
  | Some e =>
      match target e with
      | TreeEntryTarget.Tree h => match fetch s h with Some t => leaf_at s t p | None => None end
      | x => match p with [] => Some x | _ => None end
      end
  end.

(** The store holds the well-formed trees below a tree, to at most [n] levels. *)
Fixpoint grounded (n : nat) (s : St) (t : tree) : Prop :=
  match n with
  | O => False
  | S n =>
      wf t ∧ ∀ e h, e ∈ entries t → target e = TreeEntryTarget.Tree h →
        ∃ t', get_tree s h = Ok (Some t') ∧ grounded n s t'
  end.
End stored.
End Stored.

Section facts.
Context {Oid St : Type} `{ObjectStore Oid St}.
Abbreviation entry := (TreeEntry Oid).
Abbreviation tree := (Tree Oid).
Implicit Types (s : St) (t : tree) (e : entry).
Import Stored.

(** The subtree of an entry, if any, is stored and grounded. *)
Definition settled (n : nat) (s : St) (e : entry) : Prop :=
  ∀ h, target e = TreeEntryTarget.Tree h → ∃ t, get_tree s h = Ok (Some t) ∧ grounded n s t.

Lemma grounded_S n s t : grounded (S n) s t ↔ wf t ∧ Forall (settled n s) (entries t).
Proof.
  cbn [grounded]. rewrite Forall_forall. split; intros [Hwf Hf]; (split; [done|]).
  - intros e He h Ht. by apply (Hf e h).
  - intros e h He Ht. by apply (Hf e He).
Qed.

Lemma fetch_get s h t : get_tree s h = Ok (Some t) → fetch s h = Some t.
Proof. unfold fetch. by intros ->. Qed.

Lemma grounded_extends n s s' t : extends s s' → grounded n s t → grounded n s' t.
Proof.
  intros Hs. revert t. induction n as [|n IH]; intros t; [done|]. rewrite !grounded_S. intros [Hwf Hf].
  split; [done|]. eapply Forall_impl; [exact Hf|]. intros e He h Ht.
  destruct (He h Ht) as (t' & Hg & Ht'). exists t'. split; [by eapply extends_tree|by apply IH].
Qed.

Lemma settled_extends n s s' e : extends s s' → settled n s e → settled n s' e.
Proof.
  intros Hs He h Ht. destruct (He h Ht) as (t' & Hg & Ht'). exists t'.
  split; [by eapply extends_tree|by eapply grounded_extends].
Qed.

Lemma by_name_snoc (es : list entry) e : by_name (es ++ [e]) = <[name e := e]> (by_name es).
Proof. unfold by_name. by rewrite fold_left_app. Qed.

Lemma by_name_in (es : list entry) n e : by_name es !! n = Some e → e ∈ es ∧ name e = n.
Proof.
  induction es as [|x es IH] using rev_ind; [done|]. rewrite by_name_snoc, lookup_insert_Some, elem_of_app.
  intros [[<- ->]|[_ He]]; [split; [right; by left|done]|]. destruct (IH He). split; [by left|done].
Qed.

Lemma by_name_lookup (es : list entry) n e :
  NoDup (name <$> es) → by_name es !! n = Some e ↔ e ∈ es ∧ name e = n.
Proof.
  intros Hd. split; [apply by_name_in|]. revert Hd. induction es as [|x es IH] using rev_ind.
  { by intros _ [?%elem_of_nil _]. }
  rewrite fmap_app, NoDup_app, by_name_snoc, elem_of_app. intros (Hes & Hx & _) [[He|He] Hn].
  - rewrite lookup_insert_ne; [by apply IH|]. intros Hxn. apply (Hx n).
    + apply list_elem_of_fmap. by exists e.
    + rewrite <- Hxn. by left.
  - apply list_elem_of_singleton in He as ->. rewrite Hn. apply lookup_insert_eq.
Qed.

Lemma sorted_nodup (es : list entry) : StronglySorted name_lt es → NoDup (name <$> es).
Proof.
  induction 1 as [|x es Hs IH Hx]; [constructor|]. cbn. constructor; [|done].
  intros (y & E & Hy)%list_elem_of_fmap. rewrite Forall_forall in Hx. specialize (Hx y Hy).
  unfold name_lt, compare_names in Hx. rewrite E in Hx.
  by rewrite (proj2 (compare_bytes_eq _ _) eq_refl) in Hx.
Qed.

Lemma wf_by_name t n e : wf t → by_name (entries t) !! n = Some e ↔ e ∈ entries t ∧ name e = n.
Proof. intros Hwf. by apply by_name_lookup, sorted_nodup, wf_sorted. Qed.

Lemma leaf_below_some s e p :
  leaf_below s (Some e) p
  = match target e with
    | TreeEntryTarget.Tree h => match fetch s h with Some t => leaf_at s t p | None => None end
    | x => match p with [] => Some x | _ => None end
    end.
Proof. done. Qed.

Lemma leaf_at_cons s t n p : leaf_at s t (n :: p) = leaf_below s (by_name (entries t) !! n) p.
Proof. done. Qed.

Lemma leaf_at_extends n s s' t p : extends s s' → grounded n s t → leaf_at s' t p = leaf_at s t p.
Proof.
  intros Hs. revert t p. induction n as [|n IH]; intros t p; [done|]. rewrite grounded_S. intros [Hwf Hf].
  destruct p as [|nm p]; [done|]. rewrite !leaf_at_cons.
  destruct (by_name (entries t) !! nm) as [e|] eqn:E; [|done]. rewrite !leaf_below_some.
  apply wf_by_name in E as [He _]; [|done]. rewrite Forall_forall in Hf. specialize (Hf e He).
  destruct (target e) eqn:Et; try done. destruct (Hf _ Et) as (t' & Hg & Hg').
  rewrite (fetch_get s _ t') by done. rewrite (fetch_get s' _ t') by (by eapply extends_tree). by apply IH.
Qed.

Lemma leaf_below_extends n s s' (oe : option entry) p :
  extends s s' → (∀ x, oe = Some x → settled n s x) → leaf_below s' oe p = leaf_below s oe p.
Proof.
  intros Hs He. destruct oe as [e|]; [|done]. rewrite !leaf_below_some. specialize (He e eq_refl).
  destruct (target e) eqn:Et; try done. destruct (He _ Et) as (t' & Hg & Hg').
  rewrite (fetch_get s _ t') by done. rewrite (fetch_get s' _ t') by (by eapply extends_tree).
  by eapply leaf_at_extends.
Qed.

Lemma leaf_below_target s e e' p : target e = target e' → leaf_below s (Some e) p = leaf_below s (Some e') p.
Proof. intros E. by rewrite !leaf_below_some, E. Qed.

(** Sorting entries with distinct names makes a well-formed tree. *)
Lemma from_entries_wf (es : list entry) :
  Forall (λ e, validate_entry e = Ok ()) es → NoDup (name <$> es) → wf (from_entries es).
Proof.
  intros Hv Hd. set (ds := map drop_raw_git_mode es).
  assert (name <$> ds = name <$> es) as Hn by (unfold ds; by rewrite <- list_fmap_compose).
  pose proof (sort_by_perm compare_names ds) as Hp.
  split; [| |done|by left]; cbn [entries from_entries]; fold ds.
  - rewrite Hp. unfold ds. apply (Forall_fmap drop_raw_git_mode). eapply Forall_impl; [exact Hv|].
    intros e He. by apply validate_drop_raw.
  - assert (NoDup (name <$> sort_by compare_names ds)) as Hd' by (by rewrite Hp, Hn).
    assert (StronglySorted (λ a b, compare_names a b ≠ Gt) (sort_by compare_names ds)) as Hs
      by apply (sorted_by_names (λ e, e) ds).
    revert Hd' Hs. generalize (sort_by compare_names ds). intros k Hd' Hs.
    induction Hs as [|x l Hs IH Hx]; [constructor|]. cbn in Hd'. apply NoDup_cons in Hd' as [Hnx Hd'].
    constructor; [by apply IH|]. rewrite Forall_forall in *. intros y Hy. specialize (Hx y Hy).
    unfold name_lt, compare_names in *. destruct (compare_bytes (name x) (name y)) eqn:E; [|done|done].
    apply compare_bytes_eq in E. destruct Hnx. rewrite E. by apply list_elem_of_fmap_2.
Qed.

Lemma from_entries_by_name (es : list entry) n :
  NoDup (name <$> es) →
  by_name (entries (from_entries es)) !! n = drop_raw_git_mode <$> by_name es !! n.
Proof.
  intros Hd. set (ds := map drop_raw_git_mode es).
  assert (name <$> ds = name <$> es) as Hn by (unfold ds; by rewrite <- list_fmap_compose).
  assert (NoDup (name <$> sort_by compare_names ds)) as Hd' by (by rewrite (sort_by_perm compare_names ds), Hn).
  cbn [entries from_entries]. fold ds. apply option_eq. intros e. rewrite (by_name_lookup _ n e Hd').
  rewrite (sort_by_perm compare_names ds), fmap_Some. unfold ds. rewrite (list_elem_of_fmap drop_raw_git_mode). split.
  - intros [(x & -> & Hx) Hnx]. exists x. split; [|done]. by apply by_name_lookup.
  - intros (x & [Hx Hnx]%by_name_in & ->). split; [by exists x|done].
Qed.
End facts.

(** ** An in-memory store for examples: an object's hash is its number. *)
Module Memory.
Record MemStore := { blobs : list (list Z); trees : list (Tree bool) }.
Definition empty : MemStore := {| blobs := []; trees := [] |}.

Definition stored {A} (l : list A) (h : list Z) : option A :=
  match h with [i] => get l i | _ => None end.
Definition within (s s' : MemStore) : Prop :=
  blobs s `prefix_of` blobs s' ∧ trees s `prefix_of` trees s'.

Lemma stored_last {A} (l : list A) a : stored (l ++ [a]) [zlen l] = Some a.
Proof.
  unfold stored, get, zlen. rewrite (proj2 (Z.leb_le 0 _)) by lia.
  rewrite Nat2Z.id. by apply list_lookup_middle.
Qed.

Lemma stored_prefix {A} (l l' : list A) h a : l `prefix_of` l' → stored l h = Some a → stored l' h = Some a.
Proof.
  intros Hp. unfold stored, get. destruct h as [|i [|j h]]; try done. destruct (0 <=? i); [|done].
  intros E. by eapply prefix_lookup_Some.
Qed.

#[export] Instance within_preorder : PreOrder within.
Proof. split; [by intros s; split|]. intros a b c [? ?] [? ?]. split; by etrans. Qed.

#[export] Program Instance memory : ObjectStore bool MemStore := {|
  get_blob s h := Ok (stored (blobs s) h);
  get_tree s h := Ok (stored (trees s) h);
  put_blob s b := Ok ({| blobs := blobs s ++ [b]; trees := trees s |}, [zlen (blobs s)]);
  put_tree s t := Ok ({| blobs := blobs s; trees := trees s ++ [t] |}, [zlen (trees s)]);
  extends := within
|}.
Next Obligation. intros s s' h b [Hb _] [= E]. f_equal. by eapply stored_prefix. Qed.
Next Obligation. intros s s' h t [_ Ht] [= E]. f_equal. by eapply stored_prefix. Qed.
Next Obligation. intros s b. split; [split; [by eexists|done]|]. apply (f_equal Ok), stored_last. Qed.
Next Obligation. intros s t. split; [split; [done|by eexists]|]. apply (f_equal Ok), stored_last. Qed.
Next Obligation. done. Qed.
Next Obligation. done. Qed.
End Memory.
