(* ===== verification/TreeMerge.v ===== *)
(** * Three-way tree merge ([crates/merge/src/tree_merge/executor.rs])

    Module [TreeMerge] models the merge of three trees without renames
    ([merge_without_renames]): the recursion over directories, the resolution of
    each entry and the conflict contents.  The store is any instance of
    [ObjectStore]; the contents of input blobs come from [load_blob], the
    [MergeBlobSource] of the caller.  A [HashSet] is walked in an order that the
    program does not fix: it is the parameter [order], any permutation.  Error
    messages carry no arguments. *)

From S2P Require Import Prelude.
From S2P Require Import Text.
From S2P Require Import Merge.
From S2P Require Import Trees.
From S2P Require Import ObjectStore.
Import Trees Stored.

Module TreeMerge.

Abbreviation path := (list Z).

(** [MergeStrategy], [ConflictLabels] ([mod.rs]) *)
Inductive MergeStrategy := HunkOnly | Semantic.
Record ConflictLabels := { current : list Z; incoming : list Z; strategy : MergeStrategy }.

(** [SemanticMergeFn] *)
Abbreviation SemanticMergeFn :=
  (list Z → list Z → list Z → path → Merge.ConflictMarkers → Merge.MergeOutcome).

Definition union_executable (left right : bool) : bool := left || right.

Definition ends_newline (text : list Z) : bool := bool_decide (last text = Some 10).

(** The line break that keeps a marker at column 0. *)
Definition separator (text : list Z) : list Z :=
  if bool_decide (text = []) || ends_newline text then [] else [10].

Definition format_conflict_content (our_content their_content : list Z) (labels : ConflictLabels) : list Z :=
  let our_text := Text.lossy our_content in
  let their_text := Text.lossy their_content in
  Text.ascii_bytes "<<<<<<< " ++ current labels ++ [10] ++ our_text ++ separator our_text
  ++ Text.ascii_bytes "=======" ++ [10] ++ their_text ++ separator their_text
  ++ Text.ascii_bytes ">>>>>>> " ++ incoming labels ++ [10].

Section tree_merge.
Context {Oid St : Type} `{ObjectStore Oid St}.
Abbreviation entry := (TreeEntry Oid).
Abbreviation tree := (Tree Oid).

(** The line diff of [similar]; [MergeBlobSource::load_blob] by hash and path;
    the display of a Git object id; the caller's semantic merge driver. *)
Context (diff : list Merge.line → list Merge.line → list Merge.DiffOp).
Context (load_blob : list Z → path → mres (list Z)).
Context (oid_text : Oid → list Z).
Context (semantic_merge : option SemanticMergeFn).
Context (labels : ConflictLabels).
(** The order in which the names under a directory are visited. *)
Context (order : path → list (list Z) → list (list Z)).

(** [TreeEntry::same_meaning], [leaf_content_hash], [with_mode] *)
Definition same_meaning (a b : entry) : bool :=
  bool_decide (name a = name b) && bool_decide (target a = target b).
Definition leaf_content_hash (e : entry) : option (list Z) :=
  match target e with
  | TreeEntryTarget.Blob hash _ | TreeEntryTarget.Symlink hash => Some hash
  | _ => None
  end.
Definition is_blob (e : entry) : bool := bool_decide (entry_type e = EntryType.Blob).
Definition mode (e : entry) : FileMode.t := target_mode (target e).
Definition same_mode (a b : FileMode.t) : bool := FileMode.to_byte a =? FileMode.to_byte b.
Definition with_mode (e : entry) (m : FileMode.t) : res entry :=
  match target e, m with
  | TreeEntryTarget.Blob hash _, FileMode.Normal => new_entry (name e) (TreeEntryTarget.Blob hash false)
  | TreeEntryTarget.Blob hash _, FileMode.Executable => new_entry (name e) (TreeEntryTarget.Blob hash true)
  | TreeEntryTarget.Symlink _, FileMode.Symlink
  | TreeEntryTarget.Tree _, _
  | TreeEntryTarget.Gitlink _, FileMode.Gitlink
  | TreeEntryTarget.Spoollink _ _, FileMode.Spoollink =>
      if same_mode m (mode e) then Ok e else Err (InvalidStructure "cannot apply mode to entry")
  | _, _ => Err (InvalidStructure "cannot apply mode to entry")
  end.

(** [TreeEntry::file], [TreeEntry::directory] *)
Definition file (n hash : list Z) (executable : bool) : mres entry :=
  with_tree_error (new_entry n (TreeEntryTarget.Blob hash executable)).
Definition directory (n hash : list Z) : mres entry :=
  with_tree_error (new_entry n (TreeEntryTarget.Tree hash)).

Definition require_subtree (s : St) (hash : list Z) : mres tree :=
  found ← get_tree s hash;
  ok_or found (RepositoryIntegrity "merge input subtree is missing from the object store").

(** [gitlink_placeholder_bytes] *)
Definition gitlink_placeholder_bytes (target : Oid) : list Z :=
  Text.ascii_bytes "Heddle Gitlink placeholder" ++ [10] ++ Text.ascii_bytes "Target: " ++ oid_text target ++ [10].

(** [names.join("\n")] *)
Fixpoint join_lines (names : list (list Z)) : list Z :=
  match names with
  | [] => []
  | [n] => n
  | n :: names => n ++ [10] ++ join_lines names
  end.

Definition conflict_entry_content (s : St) (e : entry) : mres (list Z) :=
  if is_tree e then
    match tree_hash e with
    | None => Err (RepositoryIntegrity "conflict entry has tree type but no tree hash")
    | Some hash =>
        t ← require_subtree s hash;
        let names := sort_by compare_bytes (map name (entries t)) in
        Ok (match names with
            | [] => Text.ascii_bytes "<empty directory>"
            | _ => Text.ascii_bytes "<directory>" ++ [10] ++ join_lines names
            end)
    end
  else
    match leaf_content_hash e with
    | Some hash => load_blob hash (name e)
    | None =>
        match target e with
        | TreeEntryTarget.Gitlink target => Ok (gitlink_placeholder_bytes target)
        | _ => Ok []
        end
    end.

Definition generate_conflict_content (s : St) (our_entry their_entry : entry) : mres (list Z) :=
  our_content ← conflict_entry_content s our_entry;
  their_content ← conflict_entry_content s their_entry;
  Ok (format_conflict_content our_content their_content labels).

(** The store, the conflicts found so far and the result of a step. *)
Definition content_conflict_merge (s : St) (our_hash their_hash : list Z) (p : path) (conflicts : list path)
  : mres (St * list path * list Z) :=
  our_content ← load_blob our_hash p;
  their_content ← load_blob their_hash p;
  '(s, hash) ← put_blob s (format_conflict_content our_content their_content labels);
  Ok (s, conflicts ++ [p], hash).

(** The strategy's merge of three contents. *)
Definition content_outcome (base_content our_content their_content : list Z) (p : path)
  : mres Merge.MergeOutcome :=
  let markers := {| Merge.m_ours := current labels; Merge.m_theirs := incoming labels |} in
  let text_hunk_merge :=
    lift (Merge.text_hunk_merge_with_markers diff base_content our_content their_content markers) in
  match strategy labels with
  | Semantic =>
      match semantic_merge with
      | Some merge => Ok (merge base_content our_content their_content p markers)
      | None => text_hunk_merge
      end
  | HunkOnly => text_hunk_merge
  end.

Definition text_hunk_merge_blobs (s : St) (base_hash our_hash their_hash : list Z) (p : path)
    (conflicts : list path) : mres (St * list path * list Z) :=
  base_content ← load_blob base_hash p;
  our_content ← load_blob our_hash p;
  their_content ← load_blob their_hash p;
  outcome ← content_outcome base_content our_content their_content p;
  match outcome with
  | Merge.Clean bytes =>
      '(s, hash) ← put_blob s bytes;
      Ok (s, conflicts, hash)
  | Merge.Conflicts merged_bytes_with_markers _ =>
      '(s, hash) ← put_blob s merged_bytes_with_markers;
      Ok (s, conflicts ++ [p], hash)
  | Merge.Binary | Merge.DeleteVsModify => content_conflict_merge s our_hash their_hash p conflicts
  end.

Definition three_way_content_merge (s : St) (base_hash our_hash their_hash : list Z) (p : path)
    (conflicts : list path) : mres (St * list path * list Z) :=
  if bool_decide (our_hash = their_hash) then Ok (s, conflicts, our_hash)
  else if bool_decide (our_hash = base_hash) then Ok (s, conflicts, their_hash)
  else if bool_decide (their_hash = base_hash) then Ok (s, conflicts, our_hash)
  else text_hunk_merge_blobs s base_hash our_hash their_hash p conflicts.

(** The state of the loop over the names: the store, the entries merged and the
    conflicts found so far. *)
Abbreviation merging := (St * list entry * list path)%type.

Definition merge_delete_changed_entry (base_entry kept_entry : entry) (conflict_path : path)
    (m : merging) : mres merging :=
  let '(s, merged_entries, conflicts) := m in
  if same_meaning kept_entry base_entry then Ok m
  else
    kept_content ← conflict_entry_content s kept_entry;
    '(s, hash) ← put_blob s (format_conflict_content kept_content [] labels);
    e ← file (name kept_entry) hash (is_blob kept_entry && is_executable kept_entry);
    Ok (s, merged_entries ++ [e], conflicts ++ [conflict_path]).

Definition merge_mode_content_orthogonal_change (base_entry our_entry their_entry : entry) : option entry :=
  if negb (is_blob base_entry) || negb (is_blob our_entry) || negb (is_blob their_entry) then None
  else if bool_decide (name our_entry ≠ name their_entry) || bool_decide (name our_entry ≠ name base_entry)
  then None
  else
    let our_content_unchanged := bool_decide (blob_hash our_entry = blob_hash base_entry) in
    let their_content_unchanged := bool_decide (blob_hash their_entry = blob_hash base_entry) in
    let our_mode_unchanged := same_mode (mode our_entry) (mode base_entry) in
    let their_mode_unchanged := same_mode (mode their_entry) (mode base_entry) in
    if our_content_unchanged && their_mode_unchanged then
      match with_mode their_entry (mode our_entry) with Ok e => Some e | _ => None end
    else if their_content_unchanged && our_mode_unchanged then
      match with_mode our_entry (mode their_entry) with Ok e => Some e | _ => None end
    else None.

(** A conflict between two entries: a file with both contents. *)
Definition entry_conflict (our_entry their_entry : entry) (conflict_path : path) (m : merging) : mres merging :=
  let '(s, merged_entries, conflicts) := m in
  conflict_content ← generate_conflict_content s our_entry their_entry;
  '(s, hash) ← put_blob s conflict_content;
  e ← file (name our_entry) hash
    (union_executable (is_blob our_entry && is_executable our_entry)
                      (is_blob their_entry && is_executable their_entry));
  Ok (s, merged_entries ++ [e], conflicts ++ [conflict_path]).

Section recursive.
(** [three_way_merge_recursive], one level down. *)
Context (recur : St → tree → tree → tree → path → mres (St * tree * list path)).

Definition merge_subtrees (base_subtree : tree) (our_entry their_entry : entry) (prefix : path)
    (m : merging) : mres merging :=
  let '(s, merged_entries, conflicts) := m in
  our_hash ← ok_or (tree_hash our_entry) (RepositoryIntegrity "merge entry has tree type but no tree hash");
  their_hash ← ok_or (tree_hash their_entry) (RepositoryIntegrity "merge entry has tree type but no tree hash");
  our_subtree ← require_subtree s our_hash;
  their_subtree ← require_subtree s their_hash;
  '(s, merged_subtree, sub_conflicts) ← recur s base_subtree our_subtree their_subtree prefix;
  '(s, merged_hash) ← put_tree s merged_subtree;
  e ← directory (name our_entry) merged_hash;
  Ok (s, merged_entries ++ [e], conflicts ++ sub_conflicts).

Definition merge_added_entries (our_entry their_entry : entry) (conflict_path : path) (m : merging)
  : mres merging :=
  let '(s, merged_entries, conflicts) := m in
  if same_meaning our_entry their_entry then Ok (s, merged_entries ++ [our_entry], conflicts)
  else if is_tree our_entry && is_tree their_entry
  then merge_subtrees tree_new our_entry their_entry conflict_path m
  else entry_conflict our_entry their_entry conflict_path m.

Definition merge_changed_entries (base_entry our_entry their_entry : entry) (conflict_path : path) (m : merging)
  : mres merging :=
  let '(s, merged_entries, conflicts) := m in
  if same_meaning our_entry their_entry then Ok (s, merged_entries ++ [our_entry], conflicts)
  else if same_meaning our_entry base_entry then Ok (s, merged_entries ++ [their_entry], conflicts)
  else if same_meaning their_entry base_entry then Ok (s, merged_entries ++ [our_entry], conflicts)
  else
    match merge_mode_content_orthogonal_change base_entry our_entry their_entry with
    | Some e => Ok (s, merged_entries ++ [e], conflicts)
    | None =>
        if is_tree our_entry && is_tree their_entry then
          base_subtree ←
            (if is_tree base_entry then
               hash ← ok_or (tree_hash base_entry)
                 (RepositoryIntegrity "merge base entry has tree type but no tree hash");
               require_subtree s hash
             else Ok tree_new);
          merge_subtrees base_subtree our_entry their_entry conflict_path m
        else if is_blob base_entry && is_blob our_entry && is_blob their_entry then
          match blob_hash base_entry, blob_hash our_entry, blob_hash their_entry with
          | Some base_hash, Some our_hash, Some their_hash =>
              '(s, conflicts, merged_hash) ←
                three_way_content_merge s base_hash our_hash their_hash conflict_path conflicts;
              e ← file (name our_entry) merged_hash
                (union_executable (is_executable our_entry) (is_executable their_entry));
              Ok (s, merged_entries ++ [e], conflicts)
          | _, _, _ => Err (RepositoryIntegrity "blob merge entry did not carry blob hashes")
          end
        else entry_conflict our_entry their_entry conflict_path m
    end.

(** The body of the loop over the names. *)
Definition merge_name (base_entries our_entries their_entries : gmap (list Z) entry) (prefix : path)
    (n : list Z) (m : merging) : mres merging :=
  let '(s, merged_entries, conflicts) := m in
  let conflict_path := if bool_decide (prefix = []) then n else prefix ++ [47] ++ n in
  match base_entries !! n, our_entries !! n, their_entries !! n with
  | None, None, Some their => Ok (s, merged_entries ++ [their], conflicts)
  | None, Some our, None => Ok (s, merged_entries ++ [our], conflicts)
  | Some base, None, Some their => merge_delete_changed_entry base their conflict_path m
  | Some base, Some our, None => merge_delete_changed_entry base our conflict_path m
  | None, Some our, Some their => merge_added_entries our their conflict_path m
  | Some base, Some our, Some their => merge_changed_entries base our their conflict_path m
  | _, None, None => Ok m
  end.

Fixpoint merge_names (base_entries our_entries their_entries : gmap (list Z) entry) (prefix : path)
    (names : list (list Z)) (m : merging) : mres merging :=
  match names with
  | [] => Ok m
  | n :: names =>
      m ← merge_name base_entries our_entries their_entries prefix n m;
      merge_names base_entries our_entries their_entries prefix names m
  end.
End recursive.

Fixpoint three_way_merge_recursive (fuel : nat) (s : St) (base_tree our_tree their_tree : tree) (prefix : path)
  : mres (St * tree * list path) :=
  match fuel with
  | O => Fuel
  | S fuel =>
      let base_entries := by_name (entries base_tree) in
      let our_entries := by_name (entries our_tree) in
      let their_entries := by_name (entries their_tree) in
      let all_names := elements (dom base_entries ∪ dom our_entries ∪ dom their_entries : gset (list Z)) in
      '(s, merged_entries, conflicts) ←
        merge_names (three_way_merge_recursive fuel) base_entries our_entries their_entries prefix
          (order prefix all_names) (s, [], []);
      Ok (s, from_entries merged_entries, conflicts)
  end.

Definition merge_without_renames (fuel : nat) (s : St) (base_tree our_tree their_tree : tree)
  : mres (St * tree * list path) :=
  three_way_merge_recursive fuel s base_tree our_tree their_tree [].
End tree_merge.

(** ** Specification *)
Section spec.
Context {Oid St : Type} `{ObjectStore Oid St}.
Abbreviation entry := (TreeEntry Oid).
Abbreviation tree := (Tree Oid).
Abbreviation leaf := (option (TreeEntryTarget.t Oid)).
Abbreviation names := (list (list Z)).
Context (diff : list Merge.line → list Merge.line → list Merge.DiffOp).
Context (load_blob : list Z → path → mres (list Z)).
Context (semantic_merge : option SemanticMergeFn).
Context (labels : ConflictLabels).

(** The path of a name under a prefix, and of a list of names. *)
Definition step_path (prefix : path) (n : list Z) : path :=
  if bool_decide (prefix = []) then n else prefix ++ [47] ++ n.
Definition path_str (prefix : path) (p : names) : path := fold_left step_path p prefix.

(** [hm] holds what the three contents merge to. *)
Definition content_merged (s : St) (p : path) (hb ho ht hm : list Z) : Prop :=
  (ho = ht ∧ hm = ho) ∨ (ho = hb ∧ hm = ht) ∨ (ht = hb ∧ hm = ho)
  ∨ ∃ cb co ct bytes,
      load_blob hb p = Ok cb ∧ load_blob ho p = Ok co ∧ load_blob ht p = Ok ct
      ∧ content_outcome diff semantic_merge labels cb co ct p = Ok (Merge.Clean bytes)
      ∧ get_blob s hm = Ok (Some bytes).

(** The three-way merge of a leaf that is no conflict: base, ours, theirs and
    the result. *)
Inductive merged_leaf (s : St) (p : path) : leaf → leaf → leaf → leaf → Prop :=
| leaf_same b x : merged_leaf s p b x x x
| leaf_theirs x t : merged_leaf s p x x t t
| leaf_ours x o : merged_leaf s p x o x o
| leaf_mode_ours hb ht xb xo :
    merged_leaf s p (Some (TreeEntryTarget.Blob hb xb)) (Some (TreeEntryTarget.Blob hb xo))
      (Some (TreeEntryTarget.Blob ht xb)) (Some (TreeEntryTarget.Blob ht xo))
| leaf_mode_theirs hb ho xb xt :
    merged_leaf s p (Some (TreeEntryTarget.Blob hb xb)) (Some (TreeEntryTarget.Blob ho xb))
      (Some (TreeEntryTarget.Blob hb xt)) (Some (TreeEntryTarget.Blob ho xt))
| leaf_content hb ho ht hm xb xo xt :
    content_merged s p hb ho ht hm →
    merged_leaf s p (Some (TreeEntryTarget.Blob hb xb)) (Some (TreeEntryTarget.Blob ho xo))
      (Some (TreeEntryTarget.Blob ht xt)) (Some (TreeEntryTarget.Blob hm (xo || xt))).

(** A conflict is reported at the path or at a directory above it. *)
Definition reported (prefix : path) (conflicts : list path) (p : names) : Prop :=
  ∃ q, q ≠ [] ∧ (q `prefix_of` p) ∧ path_str prefix q ∈ conflicts.

(** Every path merges as a leaf, or a conflict is reported. *)
Definition explained (s : St) (prefix : path) (conflicts : list path) (b o t m : names → leaf) : Prop :=
  ∀ p, reported prefix conflicts p ∨ merged_leaf s (path_str prefix p) (b p) (o p) (t p) (m p).

(** The same below one name. *)
Definition cell (s : St) (prefix : path) (conflicts : list path) (n : list Z) (b o t m : option entry) : Prop :=
  ∀ p, reported prefix conflicts (n :: p)
       ∨ merged_leaf s (path_str prefix (n :: p)) (leaf_below s b p) (leaf_below s o p) (leaf_below s t p)
           (leaf_below s m p).

(** The merged entries, one at most for each name. *)
Definition named : names → list (option entry) → Prop := Forall2 (λ n x, ∀ e, x = Some e → name e = n).

Lemma named_in ns xs y : named ns xs → y ∈ name <$> omap id xs → y ∈ ns.
Proof.
  induction 1 as [|n x ns xs Hx Hf IH]; [by intros ?%elem_of_nil|].
  destruct x as [e|]; cbn; rewrite !elem_of_cons; [rewrite (Hx e) by done; intros [->|?]|]; auto.
Qed.

Lemma named_nodup ns xs : named ns xs → NoDup ns → NoDup (name <$> omap id xs).
Proof.
  induction 1 as [|n x ns xs Hx Hf IH]; [constructor|]. intros [Hn Hd]%NoDup_cons.
  destruct x as [e|]; cbn; [|by apply IH]. constructor; [|by apply IH]. rewrite (Hx e) by done.
  intros Hin. by eapply Hn, named_in.
Qed.

Lemma named_entries (ns : names) (xs : list (option entry)) :
  named ns xs → NoDup ns →
  (∀ n, n ∉ ns → by_name (omap id xs) !! n = None) ∧ Forall2 (λ n x, by_name (omap id xs) !! n = x) ns xs.
Proof.
  intros Hf Hd. pose proof (named_nodup _ _ Hf Hd) as Hn.
  split.
  - intros n Hnin. destruct (by_name _ !! n) as [e|] eqn:E; [|done]. apply by_name_in in E as [He <-].
    destruct Hnin. eapply named_in; [done|]. by apply list_elem_of_fmap_2.
  - apply Forall2_same_length_lookup. split; [by eapply Forall2_length|]. intros i n x Hi Hx.
    apply option_eq. intros e. rewrite by_name_lookup by done. rewrite list_elem_of_omap. split.
    + intros [(y & Hy & Hye) Hen]. cbn in Hye. subst y. apply list_elem_of_lookup in Hy as [j Hj].
      destruct (Forall2_lookup_r _ _ _ _ _ Hf Hj) as (n' & Hn' & He'). specialize (He' e eq_refl).
      assert (i = j) as -> by (eapply (NoDup_lookup ns); [done|exact Hi|by rewrite Hn', <- He', Hen]). congruence.
    + intros ->. split; [exists (Some e); split; [by eapply list_elem_of_lookup_2|done]|].
      by eapply (Forall2_lookup_lr _ _ _ _ _ _ Hf Hi Hx).
Qed.

Lemma merged_leaf_extends s s' p b o t m : extends s s' → merged_leaf s p b o t m → merged_leaf s' p b o t m.
Proof.
  intros Hs. destruct 1 as [| | | | |hb ho ht hm xb xo xt Hc]; try by constructor. constructor.
  destruct Hc as [?|[?|[?|(cb & co & ct & bytes & ? & ? & ? & ? & Hg)]]];
    [by left|right; by left|do 2 right; by left|do 3 right].
  exists cb, co, ct, bytes. do 4 (split; [done|]). by eapply extends_blob.
Qed.

Lemma reported_mono prefix cs cs' p : cs ⊆ cs' → reported prefix cs p → reported prefix cs' p.
Proof. intros Hs (q & Hq & Hp & Hin). exists q. split; [done|]. split; [done|]. by apply Hs. Qed.

Lemma reported_here prefix cs n p : step_path prefix n ∈ cs → reported prefix cs (n :: p).
Proof. intros Hin. exists [n]. split; [done|]. split; [by exists p|done]. Qed.

Lemma reported_below prefix cs n p : reported (step_path prefix n) cs p → reported prefix cs (n :: p).
Proof.
  intros (q & Hq & [r ->] & Hin). exists (n :: q). split; [done|]. split; [by exists r|done].
Qed.

(** What a merged entry must be besides its leaves. *)
Definition fit (k : nat) (s : St) (n : list Z) (e : entry) : Prop :=
  name e = n ∧ validate_entry e = Ok () ∧ settled k s e.

(** One name has been dealt with: its entry, if any, and its leaves. *)
Definition done_name (k : nat) (s : St) (prefix : path) (cs : list path)
    (bs os ts : gmap (list Z) entry) (n : list Z) (x : option entry) : Prop :=
  (∀ e, x = Some e → fit k s n e) ∧ cell s prefix cs n (bs !! n) (os !! n) (ts !! n) x.

(** The entries of an input directory. *)
Definition inputs (k : nat) (s : St) (es : gmap (list Z) entry) : Prop :=
  ∀ n e, es !! n = Some e → fit k s n e.

Lemma inputs_extends k s s' es : extends s s' → inputs k s es → inputs k s' es.
Proof.
  intros Hs He n e Hn. destruct (He n e Hn) as (? & ? & ?). split; [done|]. split; [done|].
  by eapply settled_extends.
Qed.

Lemma inputs_settled k s es n e : inputs k s es → es !! n = Some e → settled k s e.
Proof. intros He Hn. by apply He in Hn as (_ & _ & ?). Qed.

Lemma grounded_inputs k s (t : tree) : grounded (S k) s t → inputs k s (by_name (entries t)).
Proof.
  rewrite grounded_S. intros [Hwf Hf] n e [He Hn]%wf_by_name; [|done]. split; [done|].
  rewrite Forall_forall in Hf. split; [|by apply Hf]. pose proof (wf_entries t Hwf) as Hv.
  rewrite Forall_forall in Hv. by apply Hv.
Qed.

Lemma done_name_extends k s s' prefix cs cs' bs os ts n x :
  extends s s' → cs ⊆ cs' → inputs k s bs → inputs k s os → inputs k s ts →
  done_name k s prefix cs bs os ts n x → done_name k s' prefix cs' bs os ts n x.
Proof.
  intros Hs Hcs Hb Ho Ht [Hx Hc]. split.
  - intros e He. destruct (Hx e He) as (? & ? & ?). split; [done|]. split; [done|]. by eapply settled_extends.
  - intros p. destruct (Hc p) as [Hr|Hm]; [left; by eapply reported_mono|right].
    assert (∀ es, inputs k s es → leaf_below s' (es !! n) p = leaf_below s (es !! n) p) as Hi.
    { intros es He. eapply (leaf_below_extends k); [done|]. intros e. by apply inputs_settled. }
    assert (leaf_below s' x p = leaf_below s x p) as Hx'.
    { eapply (leaf_below_extends k); [done|]. intros e He. by destruct (Hx e He) as (_ & _ & ?). }
    rewrite !Hi, Hx' by done. by eapply merged_leaf_extends.
Qed.
End spec.

(** ** The steps of the merge *)
Section steps.
Context {Oid St : Type} `{ObjectStore Oid St}.
Abbreviation entry := (TreeEntry Oid).
Abbreviation tree := (Tree Oid).
Context (diff : list Merge.line → list Merge.line → list Merge.DiffOp).
Context (load_blob : list Z → path → mres (list Z)).
Context (oid_text : Oid → list Z).
Context (semantic_merge : option SemanticMergeFn).
Context (labels : ConflictLabels).
Context (diff_script : ∀ a b, Merge.script a b 0 0 (diff a b)).
Context (load_answers : ∀ h p, settles (load_blob h p) (λ _, True) (λ _, True)).

Abbreviation merging := (St * list entry * list path)%type.
Abbreviation cell := (cell diff load_blob semantic_merge labels).
Abbreviation merged_leaf := (merged_leaf diff load_blob semantic_merge labels).
Abbreviation explained := (explained diff load_blob semantic_merge labels).

(** What one round of the loop does to its state. *)
Definition outcome (k : nat) (prefix : path) (n : list Z) (b o t : option entry) (m m' : merging) : Prop :=
  ∃ x ds, extends m.1.1 m'.1.1 ∧ m'.1.2 = m.1.2 ++ option_list x ∧ m'.2 = m.2 ++ ds
    ∧ (∀ e, x = Some e → fit k m'.1.1 n e) ∧ cell m'.1.1 prefix m'.2 n b o t x.

Lemma fit_name k s n (e : entry) : fit k s n e → name e = n ∧ validate_name n = Ok ().
Proof. intros (<- & Hv & _). split; [done|]. unfold validate_entry in Hv. by apply bind_ok_unit in Hv as [? _]. Qed.

Lemma new_entry_named n (x : TreeEntryTarget.t Oid) :
  validate_name n = Ok () → new_entry n x = Ok {| name := n; target := x; git_mode := None |}.
Proof. unfold new_entry. by intros ->. Qed.

Lemma file_ok n h x :
  validate_name n = Ok () →
  file n h x = Ok {| name := n; target := TreeEntryTarget.Blob h x; git_mode := None |} :> mres entry.
Proof. intros Hv. unfold file. by rewrite new_entry_named. Qed.

Lemma new_fit k s n (x : TreeEntryTarget.t Oid) :
  validate_name n = Ok () → (∀ h, x = TreeEntryTarget.Tree h → ∃ t, get_tree s h = Ok (Some t) ∧ grounded k s t) →
  fit k s n {| name := n; target := x; git_mode := None |}.
Proof. intros Hv Hx. split; [done|]. split; [|exact Hx]. unfold validate_entry; cbn [name git_mode]. by rewrite Hv. Qed.

(** A round that changes nothing but the entries. *)
Lemma outcome_pure k prefix n b o t s es cs x :
  (∀ e, x = Some e → fit k s n e) → cell s prefix cs n b o t x →
  outcome k prefix n b o t (s, es, cs) (s, es ++ option_list x, cs).
Proof.
  intros Hx Hc. exists x, []. cbn. split; [done|]. split; [done|]. split; [by rewrite app_nil_r|done].
Qed.

Lemma outcome_none k prefix n b o t s es cs :
  cell s prefix cs n b o t None → outcome k prefix n b o t (s, es, cs) (s, es, cs).
Proof. intros Hc. pose proof (outcome_pure k prefix n b o t s es cs None) as Ho. rewrite app_nil_r in Ho. by apply Ho. Qed.

(** A round that reports a conflict at the name and stores a file there. *)
Lemma outcome_conflict k prefix n b o t s s' es cs h x :
  extends s s' → validate_name n = Ok () →
  outcome k prefix n b o t (s, es, cs)
    (s', es ++ [{| name := n; target := TreeEntryTarget.Blob h x; git_mode := None |}], cs ++ [step_path prefix n]).
Proof.
  intros Hs Hv. eexists (Some _), [step_path prefix n]. cbn. split; [done|]. split; [done|]. split; [done|].
  split; [intros e [= <-]; by apply new_fit|]. intros p. left. apply reported_here.
  apply elem_of_app. right. by apply list_elem_of_singleton.
Qed.

Lemma require_subtree_settles s h (Q : tree → Prop) :
  (∀ t, get_tree s h = Ok (Some t) → Q t) → settles (require_subtree s h) Q (λ _, True).
Proof.
  intros HQ. unfold require_subtree. pose proof (get_tree_answers s h) as Ha.
  destruct (get_tree s h) as [[t|]| | |] eqn:E; try done. by apply HQ.
Qed.

Lemma conflict_entry_content_settles s (e : entry) :
  settles (conflict_entry_content load_blob oid_text s e) (λ _, True) (λ _, True).
Proof.
  unfold conflict_entry_content. destruct (is_tree e).
  - destruct (tree_hash e) as [h|]; [|done]. by step (require_subtree_settles s h (λ _, True)) as _.
  - destruct (leaf_content_hash e); [apply load_answers|]. by destruct (target e).
Qed.

Lemma generate_conflict_content_settles s (o t : entry) :
  settles (generate_conflict_content load_blob oid_text labels s o t) (λ _, True) (λ _, True).
Proof.
  unfold generate_conflict_content. step (conflict_entry_content_settles s o) as _; [|done].
  by step (conflict_entry_content_settles s t) as _.
Qed.

Lemma content_outcome_answers cb co ct p :
  settles (content_outcome diff semantic_merge labels cb co ct p) (λ _, True) (λ _, True).
Proof.
  unfold content_outcome. destruct (strategy labels); [|destruct semantic_merge; [done|]];
    apply returns_settles, returns_lift, Merge.text_merge_answers, diff_script.
Qed.

(** What a content merge of three blobs does. *)
Definition content_step (s : St) (hb ho ht : list Z) (p : path) (cs : list path)
    (r : St * list path * list Z) : Prop :=
  extends s r.1.1 ∧
  (r.1.2 = cs ++ [p]
   ∨ r.1.2 = cs ∧ content_merged diff load_blob semantic_merge labels r.1.1 p hb ho ht r.2).

Lemma content_conflict_merge_settles s hb ho ht p cs :
  settles (content_conflict_merge load_blob labels s ho ht p cs) (content_step s hb ho ht p cs) (λ _, True).
Proof.
  unfold content_conflict_merge. step (load_answers ho p) as _; [|done]. step (load_answers ht p) as _; [|done].
  step put_blob_spec as [Hs _]; [|done]. destruct a1 as [s' h]. split; [done|by left].
Qed.

Lemma three_way_content_merge_settles s hb ho ht p cs :
  settles (three_way_content_merge diff load_blob semantic_merge labels s hb ho ht p cs)
    (content_step s hb ho ht p cs) (λ _, True).
Proof.
  unfold three_way_content_merge.
  destruct (bool_decide (ho = ht)) eqn:E1; [apply bool_decide_eq_true in E1; split; [done|right; split; [done|by left]]|].
  destruct (bool_decide (ho = hb)) eqn:E2;
    [apply bool_decide_eq_true in E2; split; [done|right; split; [done|right; by left]]|].
  destruct (bool_decide (ht = hb)) eqn:E3;
    [apply bool_decide_eq_true in E3; split; [done|right; split; [done|do 2 right; by left]]|].
  unfold text_hunk_merge_blobs.
  pose proof (load_answers hb p). destruct (load_blob hb p) as [cb| | |] eqn:Eb; [|done..].
  pose proof (load_answers ho p). destruct (load_blob ho p) as [co| | |] eqn:Eo; [|done..].
  pose proof (load_answers ht p). destruct (load_blob ht p) as [ct| | |] eqn:Et; [|done..].
  rewrite !bind_Ok. pose proof (content_outcome_answers cb co ct p).
  destruct (content_outcome _ _ _ cb co ct p) as [[bytes|bytes regions| | ]| | |] eqn:Ec; try done;
    rewrite bind_Ok; [| |apply content_conflict_merge_settles..].
  - step put_blob_spec as [Hs Hg]; [|done]. destruct a as [s' h]. split; [done|]. right. split; [done|].
    do 3 right. by exists cb, co, ct, bytes.
  - step put_blob_spec as [Hs Hg]; [|done]. destruct a as [s' h]. split; [done|by left].
Qed.
Lemma same_meaning_target (a b : entry) : same_meaning a b = true → target a = target b.
Proof. unfold same_meaning. rewrite andb_true_iff, !bool_decide_eq_true. by intros [_ ?]. Qed.

Lemma cell_leaf s prefix cs n (b o t x : option entry) :
  (∀ p, merged_leaf s (path_str prefix (n :: p)) (leaf_below s b p) (leaf_below s o p) (leaf_below s t p)
          (leaf_below s x p)) → cell s prefix cs n b o t x.
Proof. intros Hm p. by right. Qed.

Lemma merge_delete_changed_settles k prefix n s es cs (b e : entry) o t :
  fit k s n e → (o = None ∧ t = Some e) ∨ (o = Some e ∧ t = None) →
  settles (merge_delete_changed_entry load_blob oid_text labels b e (step_path prefix n) (s, es, cs))
    (outcome k prefix n (Some b) o t (s, es, cs)) (λ _, True).
Proof.
  intros Hf Hot. unfold merge_delete_changed_entry. destruct (fit_name _ _ _ _ Hf) as [Hn Hv].
  destruct (same_meaning e b) eqn:Es.
  - apply same_meaning_target in Es. apply outcome_none, cell_leaf. intros p.
    destruct Hot as [[-> ->]|[-> ->]]; rewrite (leaf_below_target s e b) by done; constructor.
  - step conflict_entry_content_settles as _; [|done]. step put_blob_spec as [Hs _]; [|done].
    destruct a0 as [s' h]. rewrite Hn, file_ok by done. by apply outcome_conflict.
Qed.

Lemma entry_conflict_settles k prefix n s es cs (b : option entry) (o t : entry) :
  fit k s n o →
  settles (entry_conflict load_blob oid_text labels o t (step_path prefix n) (s, es, cs))
    (outcome k prefix n b (Some o) (Some t) (s, es, cs)) (λ _, True).
Proof.
  intros Hf. unfold entry_conflict. destruct (fit_name _ _ _ _ Hf) as [Hn Hv].
  step generate_conflict_content_settles as _; [|done]. step put_blob_spec as [Hs _]; [|done].
  destruct a0 as [s' h]. rewrite Hn, file_ok by done. by apply outcome_conflict.
Qed.

Lemma with_mode_blob (e : entry) m e' h x :
  target e = TreeEntryTarget.Blob h x → with_mode e m = Ok e' → validate_name (name e) = Ok () →
  e' = {| name := name e; target := TreeEntryTarget.Blob h (same_mode m FileMode.Executable); git_mode := None |}.
Proof.
  unfold with_mode. intros ->. destruct m; intros E Hv; rewrite ?new_entry_named in E by done; by simplify_eq.
Qed.

Lemma is_blob_inv (e : entry) : is_blob e = true → ∃ h x, target e = TreeEntryTarget.Blob h x.
Proof.
  unfold is_blob, entry_type. rewrite bool_decide_eq_true. destruct (target e); try done. by eauto.
Qed.

Lemma blob_mode (e : entry) h x :
  target e = TreeEntryTarget.Blob h x → mode e = if x then FileMode.Executable else FileMode.Normal.
Proof. unfold mode. by intros ->. Qed.

(** Only one side changed the content and only the other one the mode. *)
Lemma orthogonal_change_sound k s n p (b o t e : entry) :
  fit k s n o → fit k s n t → merge_mode_content_orthogonal_change b o t = Some e →
  fit k s n e ∧ ∀ q, merged_leaf s p (leaf_below s (Some b) q) (leaf_below s (Some o) q) (leaf_below s (Some t) q)
    (leaf_below s (Some e) q).
Proof.
  intros Ho Ht. unfold merge_mode_content_orthogonal_change.
  destruct (is_blob b) eqn:Hb; [|done]. destruct (is_blob o) eqn:Hbo; [|done].
  destruct (is_blob t) eqn:Hbt; [|done]. cbn [negb orb]. destruct (_ || _); [done|].
  apply is_blob_inv in Hb as (hb & xb & Eb), Hbo as (ho & xo & Eo), Hbt as (ht & xt & Et).
  rewrite (blob_mode b hb xb), (blob_mode o ho xo), (blob_mode t ht xt) by done.
  unfold blob_hash. rewrite Eb, Eo, Et.
  destruct (fit_name _ _ _ _ Ho) as [Hno Hvo], (fit_name _ _ _ _ Ht) as [Hnt Hvt].
  intros E. assert (∃ h x, e = {| name := n; target := TreeEntryTarget.Blob h x; git_mode := None |}
    ∧ merged_leaf s p (Some (TreeEntryTarget.Blob hb xb)) (Some (TreeEntryTarget.Blob ho xo))
        (Some (TreeEntryTarget.Blob ht xt)) (Some (TreeEntryTarget.Blob h x))) as (h & x & -> & Hm).
  { destruct (bool_decide (Some ho = Some hb) && _) eqn:E1.
    - apply andb_prop in E1 as [E1 E2]. apply bool_decide_eq_true in E1 as [= ->].
      assert (xt = xb) as -> by (by destruct xt, xb).
      destruct (with_mode t _) as [e'| | |] eqn:Ew; [|done..]. injection E as <-.
      rewrite <- Hnt in Hvt. rewrite (with_mode_blob t _ _ _ _ Et Ew Hvt), Hnt. do 2 eexists.
      split; [done|]. destruct xo; constructor.
    - destruct (bool_decide (Some ht = Some hb) && _) eqn:E2; [|done].
      apply andb_prop in E2 as [E2 E3]. apply bool_decide_eq_true in E2 as [= ->].
      assert (xo = xb) as -> by (by destruct xo, xb).
      destruct (with_mode o _) as [e'| | |] eqn:Ew; [|done..]. injection E as <-.
      rewrite <- Hno in Hvo. rewrite (with_mode_blob o _ _ _ _ Eo Ew Hvo), Hno. do 2 eexists.
      split; [done|]. destruct xt; constructor. }
  split; [by apply new_fit|]. intros q. rewrite !leaf_below_some, Eb, Eo, Et. cbn [target].
  destruct q; [done|constructor].
Qed.

(** The recursive call on grounded trees. *)
Definition merges (k : nat) (recur : St → tree → tree → tree → path → mres (St * tree * list path)) : Prop :=
  ∀ s b o t prefix, grounded k s b → grounded k s o → grounded k s t →
    settles (recur s b o t prefix) (λ r,
      extends s r.1.1 ∧ grounded k r.1.1 r.1.2
      ∧ explained r.1.1 prefix r.2 (leaf_at r.1.1 b) (leaf_at r.1.1 o) (leaf_at r.1.1 t) (leaf_at r.1.1 r.1.2))
      (λ _, True).

Section round.
Context (k : nat) (recur : St → tree → tree → tree → path → mres (St * tree * list path)).
Context (recur_merges : merges k recur).

Lemma is_tree_inv (e : entry) : is_tree e = true → ∃ h, target e = TreeEntryTarget.Tree h.
Proof.
  unfold is_tree, entry_type. rewrite bool_decide_eq_true. destruct (target e); try done. by eauto.
Qed.

Lemma leaf_below_tree s h t n p :
  get_tree s h = Ok (Some t) →
  leaf_below s (Some {| name := n; target := TreeEntryTarget.Tree h; git_mode := None |}) p = leaf_at s t p.
Proof. intros Hg. rewrite leaf_below_some. cbn [target]. by rewrite (fetch_get _ _ _ Hg). Qed.

(** Two directories under one name merge to a directory. *)
Lemma merge_subtrees_settles prefix n s es cs (b : option entry) (bt : tree) (o t : entry) :
  fit k s n o → fit k s n t → is_tree o = true → is_tree t = true → grounded k s bt →
  (∀ s' p, extends s s' → p ≠ [] → leaf_below s' b p = leaf_at s' bt p) →
  settles (merge_subtrees recur bt o t (step_path prefix n) (s, es, cs))
    (outcome k prefix n b (Some o) (Some t) (s, es, cs)) (λ _, True).
Proof.
  intros Ho Ht Hto Htt Hgb Hb. destruct (fit_name _ _ _ _ Ho) as [Hn Hv].
  apply is_tree_inv in Hto as [ho Eo], Htt as [ht Et].
  destruct Ho as (_ & _ & Ho), Ht as (_ & _ & Ht).
  destruct (Ho _ Eo) as (ot & Ego & Hgo), (Ht _ Et) as (tt & Egt & Hgt).
  unfold merge_subtrees, tree_hash. rewrite Eo, Et. cbn [ok_or]. rewrite !bind_Ok.
  unfold require_subtree. rewrite Ego, Egt, !bind_Ok. cbn [ok_or]. rewrite !bind_Ok.
  step (recur_merges s bt ot tt (step_path prefix n) Hgb Hgo Hgt) as (Hs1 & Hgm & Hex); [|done].
  destruct a as [[s1 m] sub]. cbn [fst snd] in *. step put_tree_spec as (Hs2 & Hpm); [|done].
  destruct a as [s2 h]. cbn [fst snd] in *. unfold directory. rewrite Hn, new_entry_named by done.
  cbn [with_tree_error]. rewrite bind_Ok. assert (extends s s2) as Hs by (by etrans).
  eexists (Some _), sub. cbn [fst snd]. split; [done|]. split; [done|]. split; [done|]. split.
  { intros e [= <-]. apply new_fit; [done|]. intros h' [= <-]. exists m. split; [done|]. by apply (grounded_extends k s1). }
  intros p. assert (∀ e te he, target e = TreeEntryTarget.Tree he → get_tree s he = Ok (Some te) →
    leaf_below s2 (Some e) p = leaf_at s2 te p) as Hbelow.
  { intros e te he Ee Hg. rewrite leaf_below_some, Ee. by rewrite (fetch_get s2 he te) by (by eapply extends_tree). }
  rewrite (Hbelow o ot ho), (Hbelow t tt ht), (leaf_below_tree _ h m) by done. clear Hbelow.
  destruct p as [|nm p]; [right; cbn [leaf_at]; constructor|].
  destruct (Hex (nm :: p)) as [Hr|Hm].
  - left. apply reported_below. eapply reported_mono; [|exact Hr]. intros c Hc. apply elem_of_app. by right.
  - right. rewrite Hb by done. change (path_str prefix (n :: nm :: p)) with (path_str (step_path prefix n) (nm :: p)).
    pose proof (λ t, grounded_extends k s s1 t Hs1) as Hg1.
    rewrite (leaf_at_extends k s1 s2 bt), (leaf_at_extends k s1 s2 ot), (leaf_at_extends k s1 s2 tt),
      (leaf_at_extends k s1 s2 m) by auto. eapply merged_leaf_extends; [exact Hs2|exact Hm].
Qed.

(** One side's entry is the result. *)
Lemma outcome_take prefix n (b o t : option entry) (e : entry) s es cs :
  fit k s n e →
  (∀ p, merged_leaf s (path_str prefix (n :: p)) (leaf_below s b p) (leaf_below s o p) (leaf_below s t p)
          (leaf_below s (Some e) p)) →
  outcome k prefix n b o t (s, es, cs) (s, es ++ [e], cs).
Proof.
  intros Hf Hm. apply (outcome_pure k prefix n b o t s es cs (Some e)); [by intros ? [= <-]|by apply cell_leaf].
Qed.

Lemma grounded_new (s : St) (e : entry) : settled k s e → is_tree e = true → grounded k s tree_new.
Proof.
  intros He [h Eh]%is_tree_inv. destruct (He h Eh) as (t & _ & Ht). destruct k as [|k']; [done|].
  apply grounded_S. split; [|constructor]. split; [constructor|constructor|done|by left].
Qed.

Lemma leaf_at_new (s : St) p : leaf_at s tree_new p = None.
Proof. by destruct p. Qed.

Lemma leaf_below_flat (s : St) (e : entry) p : is_tree e = false → p ≠ [] → leaf_below s (Some e) p = None.
Proof.
  intros He Hp. unfold is_tree, entry_type in He. apply bool_decide_eq_false in He. rewrite leaf_below_some.
  destruct (target e); by destruct p.
Qed.

Lemma merge_added_settles prefix n s es cs (o t : entry) :
  fit k s n o → fit k s n t →
  settles (merge_added_entries load_blob oid_text labels recur o t (step_path prefix n) (s, es, cs))
    (outcome k prefix n None (Some o) (Some t) (s, es, cs)) (λ _, True).
Proof.
  intros Ho Ht. unfold merge_added_entries. destruct (same_meaning o t) eqn:Es.
  { apply same_meaning_target in Es. apply outcome_take; [done|]. intros p.
    rewrite (leaf_below_target s t o) by done. constructor. }
  destruct (is_tree o && is_tree t) eqn:Et; [|by apply entry_conflict_settles].
  apply andb_prop in Et as [Eo Et]. apply merge_subtrees_settles; [done..| |].
  - eapply grounded_new; [by apply Ho|done].
  - intros s' p _ _. by rewrite leaf_at_new.
Qed.

Lemma merge_changed_settles prefix n s es cs (b o t : entry) :
  fit k s n b → fit k s n o → fit k s n t →
  settles (merge_changed_entries diff load_blob oid_text semantic_merge labels recur b o t (step_path prefix n)
             (s, es, cs))
    (outcome k prefix n (Some b) (Some o) (Some t) (s, es, cs)) (λ _, True).
Proof.
  intros Hb Ho Ht. unfold merge_changed_entries.
  destruct (same_meaning o t) eqn:E1.
  { apply same_meaning_target in E1. apply outcome_take; [done|]. intros p.
    rewrite (leaf_below_target s t o) by done. constructor. }
  destruct (same_meaning o b) eqn:E2.
  { apply same_meaning_target in E2. apply outcome_take; [done|]. intros p.
    rewrite (leaf_below_target s o b) by done. constructor. }
  destruct (same_meaning t b) eqn:E3.
  { apply same_meaning_target in E3. apply outcome_take; [done|]. intros p.
    rewrite (leaf_below_target s t b) by done. constructor. }
  destruct (merge_mode_content_orthogonal_change b o t) as [e|] eqn:Em.
  { pose proof (λ p, orthogonal_change_sound k s n p b o t e Ho Ht Em) as Hm.
    apply outcome_take; [apply (Hm [])|]. intros p. apply Hm. }
  destruct (is_tree o && is_tree t) eqn:Et.
  { apply andb_prop in Et as [Eo Et]. destruct (is_tree b) eqn:Eb.
    - pose proof (is_tree_inv b Eb) as [hb Ehb]. destruct Hb as (_ & _ & Hb). destruct (Hb hb Ehb) as (bt & Eg & Hg).
      unfold tree_hash. rewrite Ehb. cbn [ok_or]. rewrite bind_Ok. unfold require_subtree. rewrite Eg, bind_Ok.
      cbn [ok_or]. rewrite bind_Ok. apply merge_subtrees_settles; [done..|].
      intros s' p Hs _. rewrite leaf_below_some, Ehb. by rewrite (fetch_get s' hb bt) by (by eapply extends_tree).
    - rewrite bind_Ok. apply merge_subtrees_settles; [done..| |].
      + eapply grounded_new; [by apply Ho|done].
      + intros s' p _ Hp. by rewrite leaf_at_new, leaf_below_flat. }
  destruct (is_blob b && is_blob o && is_blob t) eqn:Ebl; [|by apply entry_conflict_settles].
  apply andb_prop in Ebl as [[Bb Bo]%andb_prop Bt].
  apply is_blob_inv in Bb as (hb & xb & Eb), Bo as (ho & xo & Eo), Bt as (ht & xt & Et').
  unfold blob_hash, is_executable. rewrite Eb, Eo, Et'.
  destruct (fit_name _ _ _ _ Ho) as [Hn Hv].
  step (three_way_content_merge_settles s hb ho ht (step_path prefix n) cs) as Hc; [|done].
  destruct a as [[s' cs'] hm]. destruct Hc as [Hs Hc]. cbn [fst snd] in *. rewrite Hn, file_ok, bind_Ok by done.
  cbn [target_mode]. destruct Hc as [->|[-> Hc]]; [by apply outcome_conflict|].
  eexists (Some _), []. cbn [fst snd]. rewrite app_nil_r. split; [done|]. split; [done|]. split; [done|].
  split; [intros e [= <-]; by apply new_fit|]. intros p. right. rewrite !leaf_below_some, Eb, Eo, Et'. cbn [target].
  destruct p; [|constructor]. destruct xo, xt; by apply leaf_content.
Qed.

Lemma merge_name_settles bs os ts prefix n s es cs :
  inputs k s bs → inputs k s os → inputs k s ts →
  settles (merge_name diff load_blob oid_text semantic_merge labels recur bs os ts prefix n (s, es, cs))
    (outcome k prefix n (bs !! n) (os !! n) (ts !! n) (s, es, cs)) (λ _, True).
Proof.
  intros Hb Ho Ht. specialize (Hb n). specialize (Ho n). specialize (Ht n). unfold merge_name.
  change (if bool_decide (prefix = []) then n else prefix ++ [47] ++ n) with (step_path prefix n).
  destruct (bs !! n) as [b|], (os !! n) as [o|], (ts !! n) as [t|].
  - apply merge_changed_settles; auto.
  - apply merge_delete_changed_settles; auto.
  - apply merge_delete_changed_settles; auto.
  - apply outcome_none, cell_leaf. intros p. constructor.
  - apply merge_added_settles; auto.
  - apply outcome_take; [auto|]. intros p. constructor.
  - apply outcome_take; [auto|]. intros p. constructor.
  - apply outcome_none, cell_leaf. intros p. constructor.
Qed.

Lemma outcome_done bs os ts prefix n m m' :
  outcome k prefix n (bs !! n) (os !! n) (ts !! n) m m' →
  ∃ x ds, extends m.1.1 m'.1.1 ∧ m'.1.2 = m.1.2 ++ option_list x ∧ m'.2 = m.2 ++ ds
    ∧ done_name diff load_blob semantic_merge labels k m'.1.1 prefix m'.2 bs os ts n x.
Proof. intros (x & ds & ? & ? & ? & ? & ?). by exists x, ds. Qed.

Lemma merge_names_settles bs os ts prefix names s es cs :
  inputs k s bs → inputs k s os → inputs k s ts →
  settles (merge_names diff load_blob oid_text semantic_merge labels recur bs os ts prefix names (s, es, cs))
    (λ m, ∃ xs ds, extends s m.1.1 ∧ m.1.2 = es ++ omap id xs ∧ m.2 = cs ++ ds
       ∧ Forall2 (done_name diff load_blob semantic_merge labels k m.1.1 prefix m.2 bs os ts) names xs)
    (λ _, True).
Proof.
  revert s es cs. induction names as [|n names IH]; intros s es cs Hb Ho Ht; cbn [merge_names].
  { exists [], []. cbn. rewrite !app_nil_r. split; [done|]. split; [done|]. split; [done|constructor]. }
  step (merge_name_settles bs os ts prefix n s es cs Hb Ho Ht) as Hm; [|done]. apply outcome_done in Hm as (x & ds & Hs & He & Hc & Hd).
  destruct a as [[s1 es1] cs1]. cbn [fst snd] in *. subst es1 cs1.
  eapply settles_mono; [apply IH; by eapply inputs_extends| |done].
  intros [[s2 es2] cs2] (xs & ds' & Hs' & He & Hc & Hf). cbn [fst snd] in *. subst es2 cs2.
  exists (x :: xs), (ds ++ ds'). split; [by etrans|]. rewrite <- !app_assoc in *. split; [by destruct x|].
  split; [done|]. constructor; [|done]. eapply (done_name_extends _ _ _ _ k s1 s2); [done| |by eapply inputs_extends..|done].
  intros c Hin. rewrite !elem_of_app in *. destruct Hin; auto.
Qed.
End round.

(** One level: the merged entries make a grounded tree whose leaves are those of
    the entries. *)
Lemma merged_tree k s prefix cs bs os ts ns xs :
  Forall2 (done_name diff load_blob semantic_merge labels k s prefix cs bs os ts) ns xs → NoDup ns →
  grounded (S k) s (from_entries (omap id xs))
  ∧ (∀ n, n ∈ ns → cell s prefix cs n (bs !! n) (os !! n) (ts !! n) (by_name (entries (from_entries (omap id xs))) !! n))
  ∧ (∀ n, n ∉ ns → by_name (entries (from_entries (omap id xs))) !! n = None).
Proof.
  intros Hf Hd.
  assert (named ns xs) as Hnm by (eapply Forall2_impl; [exact Hf|]; intros n x [Hx _] e He; by apply Hx).
  pose proof (named_nodup ns xs Hnm Hd) as Hn. destruct (named_entries ns xs Hnm Hd) as [Hout Hin].
  assert (Forall (λ e, validate_entry e = Ok () ∧ settled k s e) (omap id xs)) as Hfit.
  { apply Forall_forall. intros e (x & Hx & Hxe)%list_elem_of_omap. cbn in Hxe. subst x.
    apply list_elem_of_lookup in Hx as [i Hi]. destruct (Forall2_lookup_r _ _ _ _ _ Hf Hi) as (n & _ & [He _]).
    destruct (He e eq_refl) as (_ & ? & ?). done. }
  split; [|split].
  - apply grounded_S. split; [apply from_entries_wf; [|done]; eapply Forall_impl; [exact Hfit|]; by intros e []|].
    cbn [entries from_entries]. rewrite sort_by_perm. apply (Forall_fmap drop_raw_git_mode).
    eapply Forall_impl; [exact Hfit|]. by intros e [_ He].
  - intros n Hi. apply list_elem_of_lookup in Hi as [i Hi].
    destruct (Forall2_lookup_l _ _ _ _ _ Hf Hi) as (x & Hx & [_ Hc]).
    rewrite from_entries_by_name, (Forall2_lookup_lr _ _ _ _ _ _ Hin Hi Hx) by done.
    intros p. destruct (Hc p) as [Hr|Hm]; [by left|right]. by destruct x.
  - intros n Hi. by rewrite from_entries_by_name, Hout.
Qed.

Section whole.
Context (order : path → list (list Z) → list (list Z)).
Context (order_perm : ∀ p l, order p l ≡ₚ l).

Lemma recursive_merges fuel :
  merges fuel (three_way_merge_recursive diff load_blob oid_text semantic_merge labels order fuel).
Proof.
  induction fuel as [|k IH]; intros s b o t prefix Hb Ho Ht; [by destruct Hb|]. cbn [three_way_merge_recursive].
  set (bs := by_name (entries b)). set (os := by_name (entries o)). set (ts := by_name (entries t)).
  set (ns := order prefix _).
  assert (NoDup ns) as Hd by (unfold ns; rewrite order_perm; apply NoDup_elements).
  assert (∀ n, n ∉ ns → bs !! n = None ∧ os !! n = None ∧ ts !! n = None) as Hout.
  { intros n. unfold ns. rewrite order_perm, elem_of_elements, !elem_of_union, !elem_of_dom.
    intros Hn. rewrite !eq_None_not_Some. tauto. }
  clearbody ns.
  step (merge_names_settles k _ IH bs os ts prefix ns s [] [] (grounded_inputs _ _ _ Hb) (grounded_inputs _ _ _ Ho)
    (grounded_inputs _ _ _ Ht)) as (xs & ds & Hs & He & Hc & Hf); [|done].
  destruct a as [[s' es] cs]. cbn [fst snd app] in *. subst es cs.
  destruct (merged_tree _ _ _ _ _ _ _ _ _ Hf Hd) as (Hg & Hin & Hnone).
  split; [done|]. split; [done|]. intros [|n p]; [right; constructor|]. rewrite !leaf_at_cons.
  destruct (decide (n ∈ ns)) as [Hn|Hn]; [by apply (Hin n)|]. right.
  destruct (Hout n Hn) as (E1 & E2 & E3). fold bs os ts. rewrite E1, E2, E3, Hnone by done. constructor.
Qed.

(** C38. The recursive merge always answers: a storage error, or a tree whose
    subtrees are all stored and well formed, such that at every path the merged
    leaf is the three-way merge of the three input leaves (the side that
    changed, both sides' common change, a content change of one side with a
    mode change of the other, or the clean merge of the contents), unless a
    conflict is reported at that path or at a directory above it.  In
    particular no side's change is lost silently. *)
Theorem recursive_merge_explained fuel s b o t :
  grounded fuel s b → grounded fuel s o → grounded fuel s t →
  settles (merge_without_renames diff load_blob oid_text semantic_merge labels order fuel s b o t)
    (λ '(s', m, conflicts),
       extends s s' ∧ grounded fuel s' m
       ∧ explained s' [] conflicts (leaf_at s' b) (leaf_at s' o) (leaf_at s' t) (leaf_at s' m))
    (λ _, True).
Proof.
  intros Hb Ho Ht. eapply settles_mono; [by apply (recursive_merges fuel)| |done].
  by intros [[s' m] cs].
Qed.
End whole.
End steps.

(** ** Examples, on the in-memory store *)
Module Samples.
Import Memory.

Definition no_labels : ConflictLabels := {| current := [79]; incoming := [84]; strategy := HunkOnly |}.
Definition leaf_file (n h : Z) (x : bool) : TreeEntry bool :=
  {| name := [n]; target := TreeEntryTarget.Blob [h] x; git_mode := None |}.
Definition leaf_dir (n h : Z) : TreeEntry bool :=
  {| name := [n]; target := TreeEntryTarget.Tree [h]; git_mode := None |}.

(** Contents 0, 1 and 2: base, ours and theirs of a text; trees 0, 1 and 2: the
    directory [d] with the file [f] on the three sides. *)
Definition sample_store : MemStore :=
  {| blobs := [[97; 10; 98; 10; 99; 10]; [97; 10; 98; 10; 99; 10; 100; 10]; [97; 10; 120; 10; 99; 10]];
     trees := [from_entries [leaf_file 102 0 false]; from_entries [leaf_file 102 1 false];
               from_entries [leaf_file 102 2 true]] |}.
Definition sample_load (s : MemStore) (h p : list Z) : mres (list Z) :=
  ok_or (stored (blobs s) h) (RepositoryIntegrity "blob is missing").
(** The file [a] is changed on their side and deleted on ours. *)
Definition sample_base : Tree bool := from_entries [leaf_file 97 0 false; leaf_dir 100 0].
Definition sample_ours : Tree bool := from_entries [leaf_dir 100 1].
Definition sample_theirs : Tree bool := from_entries [leaf_file 97 2 false; leaf_dir 100 2].

Definition sample_merge : mres (MemStore * Tree bool * list path) :=
  merge_without_renames Merge.prefix_diff (sample_load sample_store) (λ _, []) None no_labels (λ _ l, l) 2
    sample_store sample_base sample_ours sample_theirs.

Lemma sample_load_answers s h p : settles (sample_load s h p) (λ _, True) (λ _, True).
Proof. unfold sample_load. by destruct (stored _ _). Qed.

(** The content of a leaf of the merged tree. *)
Definition merged_content (r : mres (MemStore * Tree bool * list path)) (p : list (list Z))
  : option (list Z * bool) :=
  match r with
  | Ok (s, t, _) =>
      match leaf_at s t p with
      | Some (TreeEntryTarget.Blob h x) => match stored (blobs s) h with Some b => Some (b, x) | None => None end
      | _ => None
      end
  | _ => None
  end.

Example sample_merge_clean :
  merged_content sample_merge [[100]; [102]] = Some ([97; 10; 120; 10; 99; 10; 100; 10], true).
Proof. vm_compute. reflexivity. Qed.

Example sample_merge_conflict : match sample_merge with Ok (_, _, cs) => cs | _ => [] end = [[97]].
Proof. vm_compute. reflexivity. Qed.

Lemma validated (t : Tree bool) : validate t = Ok () → wf t.
Proof. intros E. pose proof (validate_wf t) as Hv. by rewrite E in Hv. Qed.

Lemma sample_grounded :
  grounded 2 sample_store sample_base ∧ grounded 2 sample_store sample_ours ∧ grounded 2 sample_store sample_theirs.
Proof.
  assert (∀ h, h = 0 ∨ h = 1 ∨ h = 2 → settled 1 sample_store (leaf_dir 100 h)) as Hd.
  { intros h Hh h' [= <-]. destruct Hh as [->|[-> | ->]]; eexists; (split; [reflexivity|]); apply grounded_S;
      (split; [apply validated; vm_compute; reflexivity|]); by constructor. }
  assert (∀ h x, settled 1 sample_store (leaf_file 97 h x)) as Hf by done.
  split; [|split]; apply grounded_S; (split; [apply validated; vm_compute; reflexivity|]);
    repeat (apply Forall_cons; split); first [apply Forall_nil; done|apply Hf|apply Hd; tauto].
Qed.

Lemma recursive_merge_explained_witness :
  settles sample_merge
    (λ '(s', m, conflicts),
       extends sample_store s' ∧ grounded 2 s' m
       ∧ explained Merge.prefix_diff (sample_load sample_store) None no_labels s' [] conflicts
           (leaf_at s' sample_base) (leaf_at s' sample_ours) (leaf_at s' sample_theirs) (leaf_at s' m))
    (λ _, True).
Proof.
  apply (recursive_merge_explained Merge.prefix_diff (sample_load sample_store) (λ _, []) None no_labels
    Merge.prefix_diff_script (sample_load_answers sample_store) (λ _ l, l) (λ _ l, reflexivity l) 2);
    apply sample_grounded.
Defined.
End Samples.

End TreeMerge.
