(* ===== verification/F64.v ===== *)
(** * Double-precision floats

    [f64] values are the Standard Library's [spec_float] at precision 53 and
    maximal exponent 1024, so that scores are computed exactly as the program
    computes them.  The file bounds the magnitude of results: an operation on
    values of moderate magnitude is finite. *)

From S2P Require Import Prelude.
From Stdlib Require Import SpecFloat.

Module F64.

Abbreviation f64 := spec_float.
Abbreviation prec := 53.
Abbreviation emax := 1024.

(** [n as f64], a decimal literal [p / q], [+], [-], [*], [/] *)
Definition of_usize (n : Z) : f64 := binary_normalize prec emax n 0 false.
Definition add : f64 → f64 → f64 := SFadd prec emax.
Definition sub : f64 → f64 → f64 := SFsub prec emax.
Definition mul : f64 → f64 → f64 := SFmul prec emax.
Definition div : f64 → f64 → f64 := SFdiv prec emax.
Definition literal (p q : Z) : f64 := div (of_usize p) (of_usize q).
Definition zero : f64 := S754_zero false.
Definition one : f64 := of_usize 1.

(** [x.max(y)] *)
Definition max (x y : f64) : f64 :=
  match SFcompare x y with
  | Some Lt => y
  | Some _ => x
  | None => match x with S754_nan => y | _ => x end
  end.
(** [x.partial_cmp(&y)], [x >= y], [x < y], [x == y] *)
Definition partial_cmp : f64 → f64 → option comparison := SFcompare.
Definition ge (x y : f64) : bool := SFleb y x.
Definition lt (x y : f64) : bool := SFltb x y.
Definition eq (x y : f64) : bool := SFeqb x y.
Definition is_finite (x : f64) : bool :=
  match x with S754_zero _ | S754_finite _ _ _ => true | _ => false end.

(** [x.to_bits()] without the sign, for a canonical value. *)
Definition magnitude_bits (x : f64) : Z :=
  match x with
  | S754_zero _ => 0
  | S754_infinity _ => 0x7FF0000000000000
  | S754_nan => 0x7FF8000000000000
  | S754_finite _ m e =>
      if Zpos m <? 2 ^ 52 then Zpos m else (e + 1075) * 2 ^ 52 + (Zpos m - 2 ^ 52)
  end.
Definition is_negative (x : f64) : bool :=
  match x with S754_zero s | S754_infinity s | S754_finite s _ _ => s | S754_nan => false end.
(** [x.total_cmp(&y)]: the bits as a signed integer, those of a negative value
    complemented. *)
Definition total_key (x : f64) : Z :=
  if is_negative x then - 1 - magnitude_bits x else magnitude_bits x.
Definition total_cmp (x y : f64) : comparison := total_key x ?= total_key y.

Example sum_rounds : eq (add (literal 1 10) (literal 2 10)) (literal 3 10) = false.
Proof. vm_compute. reflexivity. Qed.
Example four_fifths : ge (div (of_usize 4) (of_usize 5)) (literal 8 10) = true.
Proof. vm_compute. reflexivity. Qed.
Example total_order : total_cmp (S754_zero true) zero = Lt ∧ total_cmp (literal 1 3) (literal 1 2) = Lt.
Proof. vm_compute. by split. Qed.

(** ** Magnitude *)

(** [x] is zero, or finite with [|x| < 2^k]. *)
Definition below (k : Z) (x : f64) : Prop :=
  match x with
  | S754_zero _ => True
  | S754_finite _ m e => Z.log2 (Zpos m) + 1 + e ≤ k
  | _ => False
  end.
(** [x] is finite with [2^(k-1) <= |x|]. *)
Definition above (k : Z) (x : f64) : Prop :=
  match x with S754_finite _ m e => k ≤ Z.log2 (Zpos m) + 1 + e | _ => False end.

Lemma below_finite k x : below k x → is_finite x = true.
Proof. by destruct x. Qed.

Lemma below_le k k' x : k ≤ k' → below k x → below k' x.
Proof. destruct x; cbn; lia. Qed.

Lemma digits_log2 p : Zpos (digits2_pos p) = Z.log2 (Zpos p) + 1.
Proof.
  assert (digits2_pos p = Pos.size p) as ->
    by (induction p as [p IH|p IH|]; cbn; by rewrite ?IH).
  destruct p; cbn; lia.
Qed.

Lemma Zdigits2_log2 m : 0 < m → Zdigits2 m = Z.log2 m + 1.
Proof. destruct m as [|p|p]; try done. intros _. apply digits_log2. Qed.

Lemma shr_1_m r : 0 ≤ shr_m r → shr_m (shr_1 r) = shr_m r / 2.
Proof.
  destruct r as [[|[p|p|]|p] r s]; cbn [shr_1 shr_m]; intros Hm; try done.
  - rewrite (Pos2Z.inj_xI p). apply (Z.div_unique _ _ _ 1); lia.
  - rewrite (Pos2Z.inj_xO p). apply (Z.div_unique _ _ _ 0); lia.
Qed.

Lemma iter_shr n r : 0 ≤ shr_m r → shr_m (iter_pos shr_1 n r) = shr_m r / 2 ^ Zpos n.
Proof.
  assert (∀ a k l, 0 ≤ a → 0 ≤ k → 0 ≤ l → a / 2 ^ k / 2 ^ l = a / 2 ^ (k + l)) as Hd.
  { intros a k l Ha Hk Hl. rewrite Z.div_div, Z.pow_add_r by (try apply Z.pow_nonzero; try apply Z.pow_pos_nonneg; lia).
    done. }
  revert r. induction n as [n IH|n IH|]; intros r Hr; cbn [iter_pos].
  - assert (0 ≤ shr_m (shr_1 r)) by (rewrite shr_1_m by done; apply Z.div_pos; lia).
    assert (0 ≤ shr_m (iter_pos shr_1 n (shr_1 r))) by (rewrite IH by done; apply Z.div_pos; lia).
    rewrite !IH, shr_1_m by done. replace (shr_m r / 2) with (shr_m r / 2 ^ 1) by (by rewrite Z.pow_1_r).
    rewrite (Hd (shr_m r) 1), Hd by lia. by replace (1 + Z.pos n + Z.pos n) with (Z.pos n~1) by lia.
  - assert (0 ≤ shr_m (iter_pos shr_1 n r)) by (rewrite IH by done; apply Z.div_pos; lia).
    rewrite !IH, Hd by (done || lia). by replace (Z.pos n + Z.pos n) with (Z.pos n~0) by lia.
  - rewrite shr_1_m by done. by rewrite Z.pow_1_r.
Qed.

Lemma fexp_eq x : fexp prec emax x = Z.max (x - 53) (-1074).
Proof. done. Qed.

Lemma shr_fexp_spec m e l :
  0 < m →
  let '(r, e') := shr_fexp prec emax m e l in
  e' = Z.max e (fexp prec emax (Z.log2 m + 1 + e)) ∧ shr_m r = m / 2 ^ (e' - e).
Proof.
  intros Hm. unfold shr_fexp. rewrite Zdigits2_log2 by done.
  assert (shr_m (shr_record_of_loc m l) = m) as Hr by (by destruct l as [|[]]).
  set (x := fexp _ _ _). destruct (x - e) as [|p|p] eqn:E; cbn [shr].
  - split; [lia|]. rewrite Hr, Z.sub_diag, Z.pow_0_r. by rewrite Z.div_1_r.
  - split; [lia|]. rewrite iter_shr, Hr by lia. do 2 f_equal. lia.
  - split; [lia|]. rewrite Hr, Z.sub_diag, Z.pow_0_r. by rewrite Z.div_1_r.
Qed.

Lemma log2_shift m n : 0 < m → 0 ≤ n ≤ Z.log2 m → 0 < m / 2 ^ n ∧ Z.log2 (m / 2 ^ n) = Z.log2 m - n.
Proof.
  intros Hm Hn. rewrite <- Z.shiftr_div_pow2 by lia.
  assert (Z.log2 (Z.shiftr m n) = Z.log2 m - n) as E by (rewrite Z.log2_shiftr by done; lia).
  split; [|done]. rewrite Z.shiftr_div_pow2 by lia. apply Z.div_str_pos. split; [by apply Z.pow_pos_nonneg; lia|].
  apply Z.log2_le_pow2; [done|lia].
Qed.

Lemma shift_small m n : 0 < m → Z.log2 m < n → m / 2 ^ n = 0.
Proof. intros Hm Hn. apply Z.div_small. split; [lia|]. apply Z.log2_lt_pow2; lia. Qed.

Lemma round_nearest_cases m l : round_nearest_even m l = m ∨ round_nearest_even m l = m + 1.
Proof. destruct l as [|[]]; cbn; auto. destruct (Z.even m); auto. Qed.

Lemma log2_succ_range m : 0 < m → Z.log2 m ≤ Z.log2 (m + 1) ≤ Z.log2 m + 1.
Proof. intros Hm. split; [apply Z.log2_le_mono; lia|]. apply (Z.log2_succ_le m). Qed.

(** The second normalisation of a rounded mantissa. *)
Lemma renormalize s m e k l :
  0 < m → Z.log2 m + 1 + e ≤ k → 0 ≤ k ≤ 900 →
  let r := match shr_fexp prec emax m e l with
    | (r, e') => match shr_m r with
      | Z0 => S754_zero s
      | Zpos m => if e' <=? emax - prec then S754_finite s m e' else S754_infinity s
      | _ => S754_nan
      end end in
  below k r ∧ ∀ j, -1000 ≤ j → j ≤ Z.log2 m + 1 + e → above j r.
Proof.
  intros Hm Hk Hk0. pose proof (shr_fexp_spec m e l Hm) as Hs. pose proof (Z.log2_nonneg m).
  destruct (shr_fexp _ _ m e l) as [r e']. destruct Hs as [He Hr]. rewrite fexp_eq in He. cbv zeta.
  destruct (Z_le_gt_dec (e' - e) (Z.log2 m)) as [Hle|Hgt].
  - destruct (log2_shift m (e' - e) Hm ltac:(lia)) as [Hp Hl]. rewrite Hr.
    destruct (m / 2 ^ (e' - e)) as [|p|p]; try lia. rewrite (proj2 (Z.leb_le _ _)) by lia.
    cbn [below above]. split; [|intros j Hj1 Hj2]; lia.
  - rewrite Hr, shift_small by lia. split; [done|]. intros j Hj1 Hj2. lia.
Qed.

(** Rounding a mantissa that has been shifted out. *)
Lemma round_zero s l e k :
  1 + e ≤ k → 0 ≤ k ≤ 900 →
  below k (let '(r, e') := shr_fexp prec emax (round_nearest_even 0 l) e loc_Exact in
    match shr_m r with
    | Z0 => S754_zero s
    | Zpos m => if e' <=? emax - prec then S754_finite s m e' else S754_infinity s
    | _ => S754_nan
    end).
Proof.
  intros Hk Hk0. destruct (round_nearest_cases 0 l) as [-> | ->].
  - unfold shr_fexp. cbn [Zdigits2]. destruct (fexp _ _ _ - e) as [|p|p]; cbn [shr shr_record_of_loc shr_m]; try done.
    by rewrite iter_shr.
  - apply (renormalize s 1 e k loc_Exact); [lia|cbn; lia|lia].
Qed.

Lemma round_aux_below s m e l k :
  0 < m → Z.log2 m + 1 + e ≤ k → 0 ≤ k < 900 →
  below (k + 1) (binary_round_aux prec emax s m e l)
  ∧ ∀ j, -1000 ≤ j → j ≤ Z.log2 m + 1 + e → above j (binary_round_aux prec emax s m e l).
Proof.
  intros Hm Hk Hk0. unfold binary_round_aux. pose proof (shr_fexp_spec m e l Hm) as Hs.
  pose proof (Z.log2_nonneg m).
  destruct (shr_fexp _ _ m e l) as [r e']. destruct Hs as [He Hr]. rewrite fexp_eq in He. rewrite Hr.
  destruct (Z_le_gt_dec (e' - e) (Z.log2 m)) as [Hle|Hgt].
  - destruct (log2_shift m (e' - e) Hm ltac:(lia)) as [Hp Hl].
    set (m' := m / 2 ^ (e' - e)) in *. set (m2 := round_nearest_even m' _).
    assert (0 < m2 ∧ Z.log2 m' ≤ Z.log2 m2 ≤ Z.log2 m' + 1) as [Hp2 Hl2].
    { pose proof (log2_succ_range m' Hp). destruct (round_nearest_cases m' (loc_of_shr_record r)) as [E|E];
        unfold m2; rewrite E; lia. }
    destruct (renormalize s m2 e' (k + 1) loc_Exact Hp2 ltac:(lia) ltac:(lia)) as [Hb Ha].
    split; [exact Hb|]. intros j Hj1 Hj2. apply Ha; lia.
  - rewrite shift_small by lia. split; [|intros j Hj1 Hj2; lia]. apply (round_zero s _ e' (k + 1)); lia.
Qed.

(** A quotient that underflows. *)
Lemma round_aux_zero s e l k :
  1 + e ≤ k → 0 ≤ k < 900 → below (k + 1) (binary_round_aux prec emax s 0 e l).
Proof.
  intros Hk Hk0. unfold binary_round_aux.
  change (shr_fexp prec emax 0 e l) with (shr (shr_record_of_loc 0 l) e (Z.max (e - 53) (-1074) - e)).
  assert (shr_m (shr_record_of_loc 0 l) = 0) as Hr by (by destruct l as [|[]]).
  destruct (_ - e) as [|p|p] eqn:E; cbn [shr]; rewrite ?iter_shr, Hr, ?Zdiv_0_l by lia;
    apply (round_zero s _ _ (k + 1)); lia.
Qed.

Lemma shl_align_log2 m e e' :
  let '(m', x) := shl_align m e e' in
  x = Z.min e e' ∧ Z.log2 (Zpos m') + x = Z.log2 (Zpos m) + e.
Proof.
  unfold shl_align. destruct (e' - e) as [|d|d] eqn:E; [split; lia..|].
  split; [lia|]. assert (Zpos (Pos.iter xO m d) = Zpos m * 2 ^ Zpos d) as ->.
  { clear E. induction d as [|d IH] using Pos.peano_ind; [cbn; lia|].
    rewrite Pos.iter_succ, Pos2Z.inj_xO, IH, Pos2Z.inj_succ, Z.pow_succ_r by lia. lia. }
  rewrite Z.log2_mul_pow2 by lia. lia.
Qed.

Lemma round_below s m e k :
  Z.log2 (Zpos m) + 1 + e ≤ k → 0 ≤ k < 900 →
  below (k + 1) (binary_round prec emax s m e)
  ∧ ∀ j, -1000 ≤ j → j ≤ Z.log2 (Zpos m) + 1 + e → above j (binary_round prec emax s m e).
Proof.
  intros Hk Hk0. unfold binary_round. pose proof (shl_align_log2 m e (fexp prec emax (Z.pos (digits2_pos m) + e))) as Hs.
  destruct (shl_align _ _ _) as [m' x]. destruct Hs as [_ Hl].
  destruct (round_aux_below s (Zpos m') x loc_Exact k ltac:(done) ltac:(lia) Hk0) as [Hb Ha].
  split; [done|]. intros j Hj1 Hj2. apply Ha; lia.
Qed.

Lemma normalize_below m e k s :
  (m ≠ 0 → Z.log2 (Z.abs m) + 1 + e ≤ k) → 0 ≤ k < 900 → below (k + 1) (binary_normalize prec emax m e s).
Proof. destruct m as [|p|p]; cbn; [done|intros Hk Hk0; by apply round_below, Hk0; apply Hk..]. Qed.

Lemma of_usize_below k n : 0 ≤ n < 2 ^ k → 0 ≤ k < 900 → below (k + 1) (of_usize n).
Proof.
  intros [Hn Hk] Hk0. apply normalize_below; [|done]. intros Hn0. rewrite Z.abs_eq by done.
  apply Z.log2_lt_pow2 in Hk; [|lia]. lia.
Qed.

Lemma of_usize_above n : 1 ≤ n < 2 ^ 64 → above 1 (of_usize n).
Proof.
  intros [Hn Hk]. unfold of_usize. destruct n as [|p|p]; try lia. cbn [binary_normalize].
  apply Z.log2_lt_pow2 in Hk; [|lia]. pose proof (Z.log2_nonneg (Z.pos p)).
  apply (round_below false p 0 64); lia.
Qed.

Lemma mul_below k k' x y : below k x → below k' y → 0 ≤ k + k' < 900 → below (k + k' + 1) (mul x y).
Proof.
  intros Hx Hy Hk. destruct x as [sx| | |sx mx ex], y as [sy| | |sy my ey]; try done. cbn [below] in Hx, Hy.
  pose proof (Z.log2_mul_above (Z.pos mx) (Z.pos my) ltac:(lia) ltac:(lia)) as Hm.
  rewrite <- Pos2Z.inj_mul in Hm. apply (round_aux_below _ _ _ _ (k + k')); lia.
Qed.

(** The aligned mantissas of two terms. *)
Lemma aligned_below s m e ez k :
  Z.log2 (Zpos m) + 1 + e ≤ k → ez ≤ e →
  Z.abs (cond_Zopp s (Zpos (fst (shl_align m e ez)))) < 2 ^ (k - ez).
Proof.
  intros Hk He. pose proof (shl_align_log2 m e ez) as Hs. destruct (shl_align m e ez) as [m' x]. destruct Hs as [Hx Hl].
  cbn [fst]. replace (Z.abs _) with (Zpos m') by (by destruct s).
  pose proof (Z.log2_nonneg (Z.pos m')). apply Z.log2_lt_pow2; lia.
Qed.

Lemma sum_below a b ez k s :
  Z.abs a < 2 ^ (k - ez) → Z.abs b < 2 ^ (k - ez) → 0 ≤ k < 890 →
  below (k + 2) (binary_normalize prec emax (a + b) ez s).
Proof.
  intros Ha Hb Hk. replace (k + 2) with (k + 1 + 1) by lia. apply normalize_below; [|lia]. intros Hn.
  destruct (Z_lt_le_dec (k - ez) 0) as [Hlt|Hle]; [rewrite Z.pow_neg_r in Ha by done; lia|].
  assert (Z.abs (a + b) < 2 ^ (k - ez + 1)) as Hs by (rewrite Z.pow_add_r by lia; lia).
  apply Z.log2_lt_pow2 in Hs; lia.
Qed.

Lemma add_below k x y : below k x → below k y → 0 ≤ k < 890 → below (k + 2) (add x y).
Proof.
  intros Hx Hy Hk. destruct x as [sx| | |sx mx ex], y as [sy| | |sy my ey]; try done; cbn [below] in *.
  - by destruct sx, sy.
  - change (Z.log2 (Z.pos my) + 1 + ey ≤ k + 2). lia.
  - change (Z.log2 (Z.pos mx) + 1 + ex ≤ k + 2). lia.
  - unfold add, SFadd. cbv zeta. apply sum_below; [apply aligned_below; lia..|lia].
Qed.

Lemma sub_below k x y : below k x → below k y → 0 ≤ k < 890 → below (k + 2) (sub x y).
Proof.
  intros Hx Hy Hk. destruct x as [sx| | |sx mx ex], y as [sy| | |sy my ey]; try done; cbn [below] in *.
  - by destruct sx, sy.
  - change (Z.log2 (Z.pos my) + 1 + ey ≤ k + 2). lia.
  - change (Z.log2 (Z.pos mx) + 1 + ex ≤ k + 2). lia.
  - unfold sub, SFsub. cbv zeta. unfold Z.sub at 1. apply sum_below; [apply aligned_below; lia| |lia].
    rewrite Z.abs_opp. apply aligned_below; lia.
Qed.

Lemma max_below k x y : below k x → below k y → below k (max x y).
Proof. intros Hx Hy. unfold max. destruct (SFcompare x y) as [[]|]; try done. by destruct x. Qed.

Lemma div_below k l x y : below k x → above l y → 0 ≤ k - l + 1 < 900 → below (k - l + 2) (div x y).
Proof.
  destruct x as [sx| | |sx mx ex], y as [sy| | |sy my ey]; cbn [below above]; try done. intros Hx Hy Hk.
  unfold div, SFdiv, SFdiv_core_binary. rewrite !Zdigits2_log2 by lia. cbv zeta.
  set (e' := Z.min _ _). set (s := ex - ey - e').
  assert (0 ≤ s) as Hs by (unfold s, e'; lia).
  assert (match s with Z0 => Z.pos mx | Zpos _ => Z.shiftl (Z.pos mx) s | Zneg _ => 0 end = Z.pos mx * 2 ^ s) as ->.
  { destruct s as [|p|p]; [cbn; lia|by rewrite Z.shiftl_mul_pow2|lia]. }
  pose proof (Z_div_mod (Z.pos mx * 2 ^ s) (Z.pos my) ltac:(lia)) as Hq.
  destruct (Z.div_eucl _ _) as [q r]. destruct Hq as [Eq Hr].
  assert (0 < Z.pos mx * 2 ^ s) as Hpos by (apply Z.mul_pos_pos; [lia|by apply Z.pow_pos_nonneg]).
  assert (Z.log2 (Z.pos mx * 2 ^ s) = Z.log2 (Z.pos mx) + s) as El by (rewrite Z.log2_mul_pow2 by lia; lia).
  assert (0 ≤ q) as Hq0 by nia.
  assert (Z.log2 q + Z.log2 (Z.pos my) ≤ Z.log2 (Z.pos mx) + s + 0 ∨ q = 0) as Hlq.
  { destruct (Z.eq_dec q 0) as [->|Hne]; [by right|left].
    pose proof (Z.log2_mul_below (Z.pos my) q ltac:(lia) ltac:(lia)).
    assert (Z.log2 (Z.pos my * q) ≤ Z.log2 (Z.pos mx * 2 ^ s)) by (apply Z.log2_le_mono; lia). lia. }
  destruct (Z.eq_dec q 0) as [->|Hne].
  - replace (k - l + 2) with (k - l + 1 + 1) by lia. apply round_aux_zero; [|lia].
    unfold e'. rewrite fexp_eq. lia.
  - replace (k - l + 2) with (k - l + 1 + 1) by lia. apply round_aux_below; [lia| |lia].
    destruct Hlq as [Hlq|]; [|done]. unfold s in *. lia.
Qed.
End F64.
