(* ===== verification/PackBuild.v ===== *)
(** * Building packs ([crates/pack/src/store/pack/pack_builder.rs])

    Module [PackBuild] models the pack builder: grouping by type, the order that
    puts similar objects together, the sliding window of delta bases with the
    choice of the smallest delta, and the assembly of the pack and its index.
    BLAKE3 and zstd are parameters, and so is the order in which the groups, a
    [HashMap], are walked.  The totals of the statistics are sums of the lengths
    of vectors in memory and are not wrapped. *)

From S2P Require Import Prelude.
From S2P Require Import Text.
From S2P Require Import Delta.
From S2P Require Import Varint PackFormat PackIndex PackSort.
From S2P Require Import F64.
Import Varint PackFormat.

Module PackBuild.

Definition MIN_DELTA_SIZE : Z := 64.
Definition MAX_DELTA_CHAIN_DEPTH : Z := 50.
Definition DEFAULT_DELTA_WINDOW : Z := 10.

Record PackBuilder := {
  objects : list PackObjectRecord; compression : CompressionConfig; delta_window : Z
}.

Record WindowEntry := {
  whash : list Z; wdata : list Z; windex : Encoder.DeltaIndex; chain_depth : Z
}.

Record PackStats := {
  object_count : Z; stat_uncompressed : Z; stat_compressed : Z; stat_deltas : Z; compression_ratio : F64.f64
}.

Definition new (compression : CompressionConfig) : PackBuilder :=
  {| objects := []; compression := compression; delta_window := DEFAULT_DELTA_WINDOW |}.
Definition for_repack (compression : CompressionConfig) (delta_window : Z) : PackBuilder :=
  {| objects := []; compression := compression; delta_window := delta_window |}.

Definition push (b : PackBuilder) (r : PackObjectRecord) : PackBuilder :=
  {| objects := objects b ++ [r]; compression := compression b; delta_window := delta_window b |}.
Definition add_with_path_id (b : PackBuilder) (id : PackObjectId) (obj_type : ObjectType) (data : list Z)
    (path : option (list Z)) : PackBuilder :=
  push b {| rec_id := id; rec_obj_type := obj_type; rec_data := data; rec_delta_base := None; rec_path_hint := path |}.
Definition add_id (b : PackBuilder) (id : PackObjectId) (obj_type : ObjectType) (data : list Z) : PackBuilder :=
  push b {| rec_id := id; rec_obj_type := obj_type; rec_data := data; rec_delta_base := None; rec_path_hint := None |}.
Definition add (b : PackBuilder) (hash : list Z) (obj_type : ObjectType) (data : list Z) : PackBuilder :=
  add_id b (Hash hash) obj_type data.
Definition add_with_path (b : PackBuilder) (hash : list Z) (obj_type : ObjectType) (data : list Z)
    (path : option (list Z)) : PackBuilder := add_with_path_id b (Hash hash) obj_type data path.

(** [groups.entry(record.obj_type).or_default().push(record)] *)
Fixpoint push_group (groups : list (ObjectType * list PackObjectRecord)) (r : PackObjectRecord)
  : list (ObjectType * list PackObjectRecord) :=
  match groups with
  | [] => [(rec_obj_type r, [r])]
  | (t, rs) :: groups =>
      if bool_decide (t = rec_obj_type r) then (t, rs ++ [r]) :: groups else (t, rs) :: push_group groups r
  end.
Definition group_by_type (objects : list PackObjectRecord) : list (ObjectType * list PackObjectRecord) :=
  fold_left push_group objects [].

(** [path.rsplit('/').next()] and [filename.rfind('.')] *)
Definition sort_key (path : option (list Z)) : list Z * list Z :=
  match path with
  | Some p =>
      let filename := default p (last (Text.split 47 p)) in
      match Text.rsplit_once 46 filename with Some (stem, ext) => (ext, stem) | None => ([], filename) end
  | None => ([239; 191; 191], [])
  end.

Definition compare_for_window (a b : PackObjectRecord) : comparison :=
  let key_a := sort_key (rec_path_hint a) in
  let key_b := sort_key (rec_path_hint b) in
  match compare_bytes key_a.1 key_b.1 with
  | Eq =>
      match compare_bytes key_a.2 key_b.2 with
      | Eq => zlen (rec_data b) ?= zlen (rec_data a)
      | c => c
      end
  | c => c
  end.
Definition sort_for_delta_window (objects : list PackObjectRecord) : list PackObjectRecord :=
  sort_by compare_for_window objects.

(** The mutable state of a build; [retained] is filled when objects are kept. *)
Record Building := {
  pack_data : list Z; index : PackIndex.PackIndex; total_uncompressed : Z; total_compressed : Z;
  delta_count : Z; retained : list (PackObjectId * ObjectType * list Z)
}.

(** The loop over the window: the entry whose delta is estimated smallest. *)
Fixpoint best_base (window : list WindowEntry) (i : Z) (data : list Z) (best_base_idx : option Z)
    (best_delta_estimate : Z) : pure (option Z) :=
  match window with
  | [] => Ok best_base_idx
  | entry :: window =>
      if (MAX_DELTA_CHAIN_DEPTH <=? chain_depth entry) || (zlen (wdata entry) <? MIN_DELTA_SIZE)
      then best_base window (i + 1) data best_base_idx best_delta_estimate
      else
        estimate ← Encoder.estimate_delta_size_with_index (windex entry) (wdata entry) data;
        if estimate <? best_delta_estimate then best_base window (i + 1) data (Some i) estimate
        else best_base window (i + 1) data best_base_idx best_delta_estimate
  end.

Definition logical_id (blake3 derive : list Z → list Z) (b : PackBuilder) : list Z :=
  PackIdentity.logical_id_from_objects blake3 derive
    (map (λ r, (rec_id r, rec_obj_type r, rec_data r)) (objects b)).

Section build.
Context (blake3 : list Z → list Z).
Context (encode_all : list Z → Z → option (list Z)).
Context (order : list (ObjectType * list PackObjectRecord) → list (ObjectType * list PackObjectRecord)).
Abbreviation compress_pack_payload := (compress_pack_payload encode_all).

(** [write_entry_parts], with the index entry and the totals of the object. *)
Definition write_entry_parts (st : Building) (id : PackObjectId) (entry_type : ObjectType)
    (uncompressed_size : Z) (delta_base : option PackObjectId) (compressed : list Z) : res Building :=
  '(buf, error) ← lift (encode_tagged_entry_parts (pack_data st) id entry_type uncompressed_size delta_base compressed);
  match error with
  | Some e => Err e
  | None =>
      Ok {| pack_data := buf; index := PackIndex.add (index st) id (zlen (pack_data st));
            total_uncompressed := total_uncompressed st + uncompressed_size;
            total_compressed := total_compressed st + zlen compressed; delta_count := delta_count st;
            retained := retained st |}
  end.

Definition retain (st : Building) (kept : list (PackObjectId * ObjectType * list Z)) : Building :=
  {| pack_data := pack_data st; index := index st; total_uncompressed := total_uncompressed st;
     total_compressed := total_compressed st; delta_count := delta_count st; retained := retained st ++ kept |}.
Definition count_delta (st : Building) : Building :=
  {| pack_data := pack_data st; index := index st; total_uncompressed := total_uncompressed st;
     total_compressed := total_compressed st; delta_count := delta_count st + 1; retained := retained st |}.

(** An object stored without a delta search. *)
Definition write_direct (config : CompressionConfig) (retain_objects : bool) (obj_type : ObjectType) (st : Building)
    (record : PackObjectRecord) : res Building :=
  let compressed := compress_pack_payload (rec_data record) config in
  st ← write_entry_parts st (rec_id record) obj_type (zlen (rec_data record)) (rec_delta_base record) compressed;
  Ok (if retain_objects then retain st [(rec_id record, obj_type, rec_data record)] else st).

Fixpoint write_all (config : CompressionConfig) (retain_objects : bool) (obj_type : ObjectType) (st : Building)
    (records : list PackObjectRecord) : res Building :=
  match records with
  | [] => Ok st
  | record :: records =>
      st ← write_direct config retain_objects obj_type st record;
      write_all config retain_objects obj_type st records
  end.

(** Delta or raw: the payload, the kind, the base and the depth of the chain. *)
Definition choose_payload (config : CompressionConfig) (obj_type : ObjectType) (window : list WindowEntry)
    (data : list Z) : res (list Z * ObjectType * option (list Z) * Z) :=
  let raw := (compress_pack_payload data config, obj_type, None, 0) in
  base ← (if MIN_DELTA_SIZE <=? zlen data then lift (best_base window 0 data None USIZE_MAX) else Ok None);
  match base with
  | Some base_idx =>
      base_entry ← Prelude.index window base_idx;
      delta ← lift (Encoder.encode_with_index (windex base_entry) (wdata base_entry) data);
      let delta_compressed := compress_pack_payload delta config in
      if zlen delta_compressed <? zlen data
      then Ok (delta_compressed, Delta, Some (whash base_entry), chain_depth base_entry + 1)
      else Ok raw
  | None => Ok raw
  end.

(** The window after an object, and the objects that left it. *)
Definition slide_window (delta_window : Z) (obj_type : ObjectType) (window : list WindowEntry) (entry : WindowEntry)
  : list WindowEntry * list (PackObjectId * ObjectType * list Z) :=
  if 0 <? delta_window then
    if delta_window <=? zlen window then
      match window with
      | [] => ([entry], [])
      | evicted :: window => (window ++ [entry], [(Hash (whash evicted), obj_type, wdata evicted)])
      end
    else (window ++ [entry], [])
  else (window, [(Hash (whash entry), obj_type, wdata entry)]).

Definition encode_record (config : CompressionConfig) (delta_window : Z) (retain_objects : bool) (obj_type : ObjectType)
    (st : Building) (window : list WindowEntry) (record : PackObjectRecord) : res (Building * list WindowEntry) :=
  match rec_id record with
  | Hash hash =>
      let data := rec_data record in
      '(final_data, entry_type, base_hash, chain_depth) ← choose_payload config obj_type window data;
      st ← write_entry_parts st (Hash hash) entry_type (zlen data) (option_map Hash base_hash) final_data;
      let st := if bool_decide (base_hash = None) then st else count_delta st in
      let '(window, gone) := slide_window delta_window obj_type window
        {| whash := hash; wdata := data; windex := Encoder.build_index data; chain_depth := chain_depth |} in
      Ok (if retain_objects then retain st gone else st, window)
  | _ =>
      st ← write_direct config retain_objects obj_type st record;
      Ok (st, window)
  end.

Fixpoint encode_with_sliding_window (config : CompressionConfig) (delta_window : Z) (retain_objects : bool)
    (obj_type : ObjectType) (st : Building) (window : list WindowEntry) (records : list PackObjectRecord)
  : res Building :=
  match records with
  | [] =>
      Ok (if retain_objects
          then retain st (map (λ e, (Hash (whash e), obj_type, wdata e)) window) else st)
  | record :: records =>
      '(st, window) ← encode_record config delta_window retain_objects obj_type st window record;
      encode_with_sliding_window config delta_window retain_objects obj_type st window records
  end.

(** The test of [build_impl] that skips the delta search. *)
Definition no_deltas (config : CompressionConfig) (obj_type : ObjectType) (objects : list PackObjectRecord) : bool :=
  (zlen objects <? 2)
  || match obj_type with State | StateAttachment | AnnotatedTag => true | _ => false end
  || (max_delta_size config =? 0)
  || forallb (λ r, zlen (rec_data r) <? MIN_DELTA_SIZE) objects.

Definition build_group (config : CompressionConfig) (delta_window : Z) (retain_objects : bool) (st : Building)
    (group : ObjectType * list PackObjectRecord) : res Building :=
  if no_deltas config group.1 group.2 then write_all config retain_objects group.1 st group.2
  else
    encode_with_sliding_window config delta_window retain_objects group.1 st [] (sort_for_delta_window group.2).

Fixpoint build_groups (config : CompressionConfig) (delta_window : Z) (retain_objects : bool) (st : Building)
    (groups : list (ObjectType * list PackObjectRecord)) : res Building :=
  match groups with
  | [] => Ok st
  | group :: groups =>
      st ← build_group config delta_window retain_objects st group;
      build_groups config delta_window retain_objects st groups
  end.

Definition build_impl (b : PackBuilder) (retain_objects : bool)
  : res (list Z * list Z * PackStats * list (PackObjectId * ObjectType * list Z)) :=
  let st :=
    {| pack_data := write_container_header [] pack_container_spec (zlen (objects b)); index := PackIndex.new;
       total_uncompressed := 0; total_compressed := 0; delta_count := 0; retained := [] |} in
  st ← build_groups (compression b) (delta_window b) retain_objects st (order (group_by_type (objects b)));
  index_data ← lift (PackIndex.to_bytes (PackIndex.sort (index st)));
  Ok (append_container_checksum blake3 (pack_data st), index_data,
      {| object_count := zlen (objects b); stat_uncompressed := total_uncompressed st;
         stat_compressed := total_compressed st; stat_deltas := delta_count st;
         compression_ratio := F64.div (F64.of_usize (total_compressed st)) (F64.of_usize (total_uncompressed st)) |},
      retained st).

Definition build (b : PackBuilder) : res (list Z * list Z * PackStats) :=
  '(pack_data, index_data, stats, _) ← build_impl b false;
  Ok (pack_data, index_data, stats).
Definition build_retaining_objects (b : PackBuilder)
  : res (list Z * list Z * PackStats * list (PackObjectId * ObjectType * list Z)) := build_impl b true.
End build.
End PackBuild.

Import PackBuild.

(** ** The entries of a pack *)

(** An entry with the object it stands for and the length of its delta chain. *)
Record written := {
  w_id : PackObjectId; w_type : ObjectType; w_data : list Z; w_stored : ObjectType;
  w_base : option (list Z); w_payload : list Z; w_depth : Z
}.
Abbreviation object := (PackObjectId * ObjectType * list Z)%type.
Definition w_object (w : written) : object := (w_id w, w_type w, w_data w).
Definition rec_object (r : PackObjectRecord) : object := (rec_id r, rec_obj_type r, rec_data r).
Definition w_header (w : written) : list Z :=
  entry_header_bytes (w_id w) (w_stored w) (zlen (w_data w)) (option_map Hash (w_base w)) (zlen (w_payload w)).
Definition w_bytes (w : written) : list Z := w_header w ++ w_payload w.

(** The index entries of the records written from an offset on. *)
Fixpoint offsets_from (offset : Z) (ws : list written) : list PackIndex.IndexEntry :=
  match ws with
  | [] => []
  | w :: ws => {| PackIndex.entry_id := w_id w; PackIndex.offset := offset |}
               :: offsets_from (offset + zlen (w_bytes w)) ws
  end.

Lemma offsets_from_app offset ws ws' :
  offsets_from offset (ws ++ ws')
  = offsets_from offset ws ++ offsets_from (offset + zlen (concat (map w_bytes ws))) ws'.
Proof.
  revert offset. induction ws as [|w ws IH]; intros offset; cbn [offsets_from app map concat].
  { change (zlen (@nil Z)) with 0. by rewrite Z.add_0_r. }
  rewrite IH, zlen_app. by rewrite Z.add_assoc.
Qed.

Section stored.
Context (encode_all : list Z → Z → option (list Z)).
Context (decoder : list Z → option (list (option (list Z)))).
Context (config : CompressionConfig).
Abbreviation compress d := (compress_pack_payload encode_all d config).

(** A [zstd] stream: it has the magic and reading it gives the data back. *)
Definition zstd_stream (c d : list Z) : Prop :=
  bytes_ok c ∧ has_zstd_magic c = true
  ∧ ∃ chunks, decoder c = Some (map Some chunks) ∧ Forall (λ b, b ≠ []) chunks ∧ concat chunks = d.

Context (zstd_inverse : ∀ d level c, encode_all d level = Some c → zstd_stream c d).

Lemma decompress_stream c d expected :
  zstd_stream c d → expected ≤ MAX_PACK_OBJECT_OUTPUT_SIZE → zlen d ≤ MAX_PACK_OBJECT_OUTPUT_SIZE →
  decompress_pack_payload decoder c expected = Ok d.
Proof.
  intros (_ & _ & chunks & Hc & Hne & <-) He Hd. unfold decompress_pack_payload, decompress_pack_payload_with_limit.
  unfold reject_pack_object_output_over_limit at 1. rewrite (proj2 (Z.ltb_ge _ _)) by done. rewrite bind_Ok, Hc. cbn [ok_or].
  rewrite bind_Ok. change (concat chunks) with ([] ++ concat chunks) in *. clear Hc. revert Hd. generalize (@nil Z).
  induction Hne as [|b chunks Hb Hne IH]; intros buf Hd; cbn [map read_loop concat] in *; [by rewrite app_nil_r|].
  rewrite app_assoc in *. assert (0 < zlen b) by (destruct b; [done|zlia]).
  rewrite (proj2 (Z.eqb_neq _ _)) by lia. unfold checked_add.
  assert (zlen buf + zlen b ≤ MAX_PACK_OBJECT_OUTPUT_SIZE) as Hz by (rewrite !zlen_app in Hd; zlia).
  rewrite (proj2 (Z.leb_le _ _)) by (unfold USIZE_MAX, MAX_PACK_OBJECT_OUTPUT_SIZE in *; lia). cbn [ok_or].
  rewrite bind_Ok. unfold reject_pack_object_output_over_limit. rewrite (proj2 (Z.ltb_ge _ _)) by lia. rewrite bind_Ok.
  by apply IH.
Qed.

Lemma compress_cases d : compress d = d ∨ (zstd_stream (compress d) d ∧ zlen (compress d) < zlen d).
Proof.
  unfold compress_pack_payload. destruct (_ || _); [by left|]. destruct (encode_all d _) as [c|] eqn:E; [|by left].
  destruct (Z.ltb_spec (zlen c) (zlen d)); [right|by left]. split; [by eapply zstd_inverse|done].
Qed.

Lemma compress_bytes d : bytes_ok d → bytes_ok (compress d) ∧ zlen (compress d) ≤ zlen d.
Proof. intros Hd. destruct (compress_cases d) as [->|[[Hb _] Hz]]; [done|]. split; [done|lia]. Qed.

(** How an entry among [ws] stands for its object: raw, or as the delta to the
    object of an entry with a shorter chain. *)
Definition unpacks (w : written) (d : list Z) : Prop :=
  if decide (w_stored w = Delta) then
    if has_zstd_magic (w_payload w) then decompress_pack_payload decoder (w_payload w) 0 = Ok d else w_payload w = d
  else if negb (zlen (w_payload w) =? zlen (w_data w))
       then decompress_pack_payload decoder (w_payload w) (zlen (w_data w)) = Ok d
       else w_payload w = d.

Definition raw_entry (w : written) : Prop :=
  w_stored w = w_type w ∧ w_base w = None ∧ w_depth w = 0 ∧ unpacks w (w_data w).
Definition delta_entry (ws : list written) (w : written) : Prop :=
  (∃ h, w_id w = Hash h) ∧ w_stored w = Delta ∧ 0 < w_depth w ≤ MAX_DELTA_CHAIN_DEPTH ∧ zlen (w_data w) ≤ Decoder.MAX_DELTA_OUTPUT_SIZE
  ∧ ∃ base delta, base ∈ ws ∧ (∃ h, w_id base = Hash h ∧ w_base w = Some h) ∧ id_ok (w_id base) ∧ w_type base = w_type w
      ∧ w_depth w = w_depth base + 1
      ∧ unpacks w delta ∧ Decoder.decode (w_data base) delta (zlen (w_data w)) = Ok (w_data w).
Definition object_ok (o : object) : Prop :=
  id_ok o.1.1 ∧ (o.1.2 = AnnotatedTag ↔ is_annotated_tag o.1.1 = true) ∧ o.1.2 ≠ Delta
  ∧ bytes_ok o.2 ∧ zlen o.2 ≤ MAX_PACK_OBJECT_OUTPUT_SIZE.
Definition entry_good (ws : list written) (w : written) : Prop :=
  object_ok (w_object w) ∧ bytes_ok (w_payload w) ∧ zlen (w_payload w) ≤ zlen (w_data w)
  ∧ (raw_entry w ∨ delta_entry ws w).

Lemma entry_good_mono ws ws' w : ws ⊆ ws' → entry_good ws w → entry_good ws' w.
Proof.
  intros Hs (Ho & Hb & Hz & [Hr|(Hh & Hst & Hd & Hl & base & delta & Hin & Hrest)]); do 3 (split; [done|]); [by left|].
  right. do 4 (split; [done|]). exists base, delta. split; [by apply Hs|done].
Qed.

Lemma entry_good_header ws w : entry_good ws w → entry_ok (w_id w) (w_stored w) (option_map Hash (w_base w)).
Proof.
  intros ((Hi & Ht & Hnd & _) & _ & _ & Hw). split; [done|]. unfold w_object in *. cbn [fst snd] in *.
  destruct Hw as [(-> & -> & _)|((h & Hh) & -> & _ & _ & base & delta & _ & (hb & Eb & ->) & Hb & _)].
  - split; [done|]. split; [|done]. cbn. split; [by intros []|by intros ?%Hnd].
  - rewrite Hh in *. split; [done|]. split; [cbn; split; eauto|]. cbn [option_map from_option]. by rewrite <- Eb.
Qed.

(** An entry takes at most 86 bytes more than its object. *)
Lemma entry_good_size ws w :
  entry_good ws w → 33 < zlen (w_header w) ∧ zlen (w_bytes w) ≤ zlen (w_data w) + 86 ∧ bytes_ok (w_bytes w).
Proof.
  intros Hg. pose proof (entry_good_header ws w Hg) as (Hi & _ & Hb & Hbi). destruct Hg as ((_ & _ & _ & _ & Hz) & Hpb & Hp & _).
  unfold w_object in Hz. cbn [snd] in Hz. unfold w_bytes, w_header, entry_header_bytes.
  assert (is_u64 (zlen (w_data w))) as Hu by (unfold is_u64, U64_MAX, MAX_PACK_OBJECT_OUTPUT_SIZE in *; zlia).
  assert (is_u64 (zlen (w_payload w))) as Hu' by (unfold is_u64, U64_MAX, MAX_PACK_OBJECT_OUTPUT_SIZE in *; zlia).
  set (te := if decide (w_stored w = AnnotatedTag) then Blob else w_stored w).
  set (bt := if decide (w_stored w = Delta) then _ else _).
  assert (zlen bt ≤ 33 ∧ bytes_ok bt) as [Hbz Hbb].
  { unfold bt. destruct (decide (w_stored w = Delta)); [|split; [by vm_compute|constructor]].
    destruct (option_map Hash (w_base w)); cbn [from_option] in *; [|split; [by vm_compute|constructor]].
    split; [by rewrite zlen_id_encoding|by apply id_encoding_bytes]. }
  pose proof (zlen_header_bytes te _ Hu). pose proof (zlen_leb 10 (zlen (w_payload w))).
  pose proof (varint_of_bound _ _ (varint_bytes_of _ Hu')). unfold varint_bytes in *.
  rewrite !zlen_app, zlen_id_encoding by done. pose proof (zlen_nonneg (header_bytes te (zlen (w_data w)))).
  split; [zlia|]. split; [lia|]. repeat (apply Forall_app; split); try done.
  - by apply id_encoding_bytes.
  - by apply header_bytes_ok.
  - by eapply varint_of_bytes, varint_bytes_of.
Qed.

(** ** The builder writes good entries *)
Context (hdr : list Z).

Definition inv (st : Building) (ws : list written) : Prop :=
  pack_data st = hdr ++ concat (map w_bytes ws)
  ∧ index st = {| PackIndex.entries := offsets_from (zlen hdr) ws; PackIndex.encoded := None |}
  ∧ Forall (entry_good ws) ws.

Lemma inv_retain st ws kept : inv st ws → inv (retain st kept) ws.
Proof. done. Qed.
Lemma inv_count st ws : inv st ws → inv (count_delta st) ws.
Proof. done. Qed.

Lemma write_entry_parts_good st ws w :
  inv st ws → entry_good (ws ++ [w]) w →
  returns (write_entry_parts st (w_id w) (w_stored w) (zlen (w_data w)) (option_map Hash (w_base w)) (w_payload w))
    (λ st, inv st (ws ++ [w])).
Proof.
  intros (Hp & Hi & Hg) Hw. destruct (entry_good_header _ _ Hw) as (_ & _ & Hb & _).
  pose proof Hw as ((_ & _ & _ & _ & Hz) & _ & Hpz & _). unfold w_object in Hz. cbn [snd] in Hz.
  unfold write_entry_parts. rewrite encode_entry_bytes;
    [|unfold is_u64, U64_MAX, MAX_PACK_OBJECT_OUTPUT_SIZE in *; zlia..|apply Hb].
  cbn [lift]. rewrite bind_Ok. cbn [returns]. unfold inv. cbn [pack_data index]. split; [|split].
  - rewrite Hp, map_app, concat_app. cbn [map concat]. by rewrite app_nil_r, <- app_assoc.
  - rewrite Hi. unfold PackIndex.add. cbn [PackIndex.entries PackIndex.encoded].
    rewrite offsets_from_app. cbn [offsets_from]. by rewrite Hp, zlen_app.
  - apply Forall_app. split; [|by constructor]. eapply Forall_impl; [exact Hg|]. intros w' Hw'.
    eapply entry_good_mono; [|exact Hw']. intros x Hx. apply elem_of_app. by left.
Qed.

Lemma unpacks_raw w :
  w_stored w ≠ Delta → w_payload w = compress (w_data w) → zlen (w_data w) ≤ MAX_PACK_OBJECT_OUTPUT_SIZE →
  unpacks w (w_data w).
Proof.
  intros Hs Hp Hz. unfold unpacks. rewrite decide_False, Hp by done. destruct (compress_cases (w_data w)) as [->|[Hc Hlt]].
  - by rewrite Z.eqb_refl.
  - rewrite (proj2 (Z.eqb_neq _ _)) by lia. by apply decompress_stream.
Qed.

Lemma unpacks_delta w d :
  w_stored w = Delta → w_payload w = compress d → has_zstd_magic d = false → zlen d ≤ MAX_PACK_OBJECT_OUTPUT_SIZE →
  unpacks w d.
Proof.
  intros Hs Hp Hm Hz. unfold unpacks. rewrite decide_True, Hp by done. destruct (compress_cases d) as [->|[Hc Hlt]].
  - by rewrite Hm.
  - pose proof Hc as (_ & -> & _). apply decompress_stream; done.
Qed.

Definition record_ok (t : ObjectType) (r : PackObjectRecord) : Prop :=
  object_ok (rec_object r) ∧ rec_obj_type r = t ∧ rec_delta_base r = None.

Lemma write_direct_good keep t st ws r :
  inv st ws → record_ok t r →
  returns (write_direct encode_all config keep t st r) (λ st, ∃ w, w_object w = rec_object r ∧ inv st (ws ++ [w])).
Proof.
  intros Hinv (Ho & <- & Hd). unfold write_direct. rewrite Hd.
  set (w := {| w_id := rec_id r; w_type := rec_obj_type r; w_data := rec_data r; w_stored := rec_obj_type r;
               w_base := None; w_payload := compress (rec_data r); w_depth := 0 |}).
  assert (entry_good (ws ++ [w]) w) as Hw.
  { pose proof Ho as (_ & _ & H3 & H4 & H5). destruct (compress_bytes (rec_data r) H4) as [Hb Hz].
    split; [exact Ho|]. split; [done|]. split; [done|]. left. split; [done|]. split; [done|]. split; [done|].
    apply unpacks_raw; [exact H3|done|exact H5]. }
  step (write_entry_parts_good st ws w Hinv Hw) as Hst. destruct keep; exists w; split; done.
Qed.

Lemma write_all_good keep t st ws rs :
  inv st ws → Forall (record_ok t) rs →
  returns (write_all encode_all config keep t st rs)
    (λ st, ∃ ws', map w_object ws' = map rec_object rs ∧ inv st (ws ++ ws')).
Proof.
  intros Hinv Hrs. revert st ws Hinv. induction Hrs as [|r rs Hr Hrs IH]; intros st ws Hinv; cbn [write_all].
  { exists []. by rewrite app_nil_r. }
  step (write_direct_good keep t st ws r Hinv Hr) as (w & Hw & Hst).
  eapply returns_mono; [by apply IH|]. intros st' (ws' & Hws & Hst'). exists (w :: ws'). cbn [map].
  rewrite <- app_assoc in Hst'. split; [by rewrite Hw, Hws|done].
Qed.

(** ** The window *)
Definition window_ok (ws : list written) (t : ObjectType) (e : WindowEntry) : Prop :=
  windex e = Encoder.build_index (wdata e)
  ∧ ∃ w, w ∈ ws ∧ w_id w = Hash (whash e) ∧ w_type w = t ∧ w_data w = wdata e ∧ w_depth w = chain_depth e.

Lemma window_ok_mono ws ws' t e : ws ⊆ ws' → window_ok ws t e → window_ok ws' t e.
Proof. intros Hs (Hi & w & Hw & Hrest). split; [done|]. exists w. split; [by apply Hs|done]. Qed.

Lemma best_base_spec window i data best estimate :
  Forall (λ e, windex e = Encoder.build_index (wdata e)) window →
  returns (best_base window i data best estimate)
    (λ b, b = best ∨ ∃ k e, b = Some (i + Z.of_nat k) ∧ window !! k = Some e ∧ chain_depth e < MAX_DELTA_CHAIN_DEPTH
          ∧ MIN_DELTA_SIZE ≤ zlen (wdata e)).
Proof.
  intros Hw. revert i best estimate. induction Hw as [|e window He Hw IH]; intros i best estimate; cbn [best_base]; [by left|].
  assert (∀ best est, returns (best_base window (i + 1) data best est)
    (λ b, b = best ∨ ∃ k e', b = Some (i + Z.of_nat k) ∧ (e :: window) !! k = Some e' ∧ chain_depth e' < MAX_DELTA_CHAIN_DEPTH
          ∧ MIN_DELTA_SIZE ≤ zlen (wdata e'))) as Hnext.
  { intros best' est'. eapply returns_mono; [apply IH|]. intros b [->|(k & e' & -> & Hk & Hd)]; [by left|right].
    exists (S k), e'. split; [f_equal; lia|done]. }
  destruct ((_ <=? _) || _) eqn:Eskip; [by apply Hnext|]. apply orb_false_iff in Eskip as [Hdepth%Z.leb_gt Hsize%Z.ltb_ge].
  step (estimate_with_index_bounds (windex e) (wdata e) data) as _; [rewrite He; apply build_index_in_range|].
  destruct (_ <? _); [|by apply Hnext]. eapply returns_mono; [apply Hnext|]. intros b [->|?]; [right|by right].
  exists 0%nat, e. split; [f_equal; lia|]. done.
Qed.
(** No delta between two of the objects starts with the magic of [zstd]: the
    reader takes a stored delta with that magic for a compressed one. *)
Context (datas : list (list Z)).
Definition safe_deltas : Prop := ∀ base target delta, base ∈ datas → target ∈ datas →
  Encoder.encode_with_index (Encoder.build_index base) base target = Ok delta → has_zstd_magic delta = false.
Context (Hsafe : safe_deltas).

Definition deltable (data : list Z) : Prop := data ∈ datas ∧ zlen data ≤ Decoder.MAX_DELTA_OUTPUT_SIZE.

Lemma choose_payload_good t ws window h data :
  Forall (entry_good ws) ws → Forall (window_ok ws t) window → Forall (λ e, wdata e ∈ datas) window →
  object_ok (Hash h, t, data) → deltable data →
  returns (choose_payload encode_all config t window data) (λ '(payload, stored, base, depth),
    entry_good ws {| w_id := Hash h; w_type := t; w_data := data; w_stored := stored; w_base := base;
                     w_payload := payload; w_depth := depth |}).
Proof.
  intros Hws Hwin Hwd Ho [Hd Hdz]. pose proof Ho as (_ & _ & Ht & Hb & Hz). cbn [fst snd] in *.
  unfold choose_payload.
  assert (entry_good ws {| w_id := Hash h; w_type := t; w_data := data; w_stored := t; w_base := None;
                           w_payload := compress data; w_depth := 0 |}) as Hraw.
  { destruct (compress_bytes data Hb) as [Hcb Hcz]. split; [exact Ho|]. split; [done|]. split; [done|]. left.
    split; [done|]. split; [done|]. split; [done|]. by apply unpacks_raw. }
  assert (Forall (λ e, windex e = Encoder.build_index (wdata e)) window) as Hwi.
  { eapply Forall_impl; [exact Hwin|]. by intros e [? _]. }
  assert (returns (E:=StoreError) (if MIN_DELTA_SIZE <=? zlen data then lift (best_base window 0 data None USIZE_MAX) else Ok None)
    (λ b, b = None ∨ ∃ k e, b = Some (0 + Z.of_nat k) ∧ window !! k = Some e ∧ chain_depth e < MAX_DELTA_CHAIN_DEPTH
          ∧ MIN_DELTA_SIZE ≤ zlen (wdata e))) as Hbest.
  { destruct (_ <=? _); [apply returns_lift; by apply best_base_spec|by left]. }
  step Hbest as [->|(k & e & -> & Hk & Hdepth & Hsize)]; [exact Hraw|].
  rewrite Forall_lookup in Hwin, Hwd. destruct (Hwin k e Hk) as (Hi & w & Hw & Hwid & Hwt & Hwdat & Hwdepth).
  pose proof (Hwd k e Hk) as Hed.
  assert (Prelude.index (E:=StoreError) window (0 + Z.of_nat k) = Ok e) as ->.
  { unfold Prelude.index. replace (Z.to_nat (0 + Z.of_nat k)) with k by lia.
    apply lookup_lt_Some in Hk as Hlt. unfold zlen. by rewrite (proj2 (Z.leb_le _ _)), Hk by lia. }
  rewrite bind_Ok, Hi.
  pose proof (build_index_in_range (wdata e)) as Hrange.
  destruct (returns_inv _ _ (encode_with_index_decodes _ _ data Hrange)) as (delta & Hdelta & Hdec).
  rewrite Hdelta. cbn [lift]. rewrite bind_Ok.
  destruct (Z.ltb_spec (zlen (compress delta)) (zlen data)); [|exact Hraw]. cbn [returns].
  unfold MIN_DELTA_SIZE in *.
  assert (bytes_ok delta) as Hdb by (eapply encode_with_index_bytes; [|exact Hb|exact Hdelta]; lia).
  assert (zlen delta ≤ MAX_PACK_OBJECT_OUTPUT_SIZE) as Hdl.
  { pose proof (estimate_with_index_exact _ _ _ _ Hdelta) as He.
    pose proof (estimate_with_index_bounds _ _ data Hrange) as Hb'. rewrite He in Hb'. cbn [returns] in Hb'.
    unfold MAX_PACK_OBJECT_OUTPUT_SIZE, Decoder.MAX_DELTA_OUTPUT_SIZE in *. lia. }
  destruct (compress_bytes delta Hdb) as [Hcb Hcz].
  split; [exact Ho|]. split; [exact Hcb|]. split; [cbn [w_payload w_data]; lia|]. right.
  rewrite Forall_forall in Hws. pose proof (Hws w Hw) as (Hwo & _).
  split; [by exists h|]. split; [done|]. split.
  { cbn [w_depth]. destruct (Hws w Hw) as (_ & _ & _ & [(_ & _ & Hd0 & _)|(_ & _ & Hd0 & _)]);
      unfold MAX_DELTA_CHAIN_DEPTH in *; lia. }
  split; [done|]. exists w, delta. split; [done|]. split; [by exists (whash e)|].
  split; [by destruct Hwo|]. split; [done|]. split; [cbn [w_depth]; lia|]. split.
  - apply unpacks_delta; [done|done| |done]. by eapply (Hsafe (wdata e) data).
  - rewrite Hwdat. apply decode_of_decodes; [done|reflexivity|]. unfold Decoder.MAX_DELTA_OUTPUT_SIZE, USIZE_MAX in *. cbn [w_data]. lia.
Qed.
Lemma slide_window_Forall (P : WindowEntry → Prop) size t window e :
  Forall P window → P e → Forall P (slide_window size t window e).1.
Proof.
  intros Hw He. unfold slide_window. destruct (0 <? size); [|done].
  assert (Forall P (window ++ [e])) by (apply Forall_app; split; [done|by constructor]).
  destruct (_ <=? _); [|done]. destruct window as [|x window]; [by constructor|]. cbn [fst].
  by apply Forall_cons in H as [_ H].
Qed.

Definition window_good (ws : list written) (t : ObjectType) (window : list WindowEntry) : Prop :=
  Forall (window_ok ws t) window ∧ Forall (λ e, wdata e ∈ datas) window.
Lemma window_good_snoc ws t window w : window_good ws t window → window_good (ws ++ [w]) t window.
Proof.
  intros [Hw Hd]. split; [|done]. eapply Forall_impl; [exact Hw|]. intros e. apply window_ok_mono.
  intros x Hx. apply elem_of_app. by left.
Qed.

Definition delta_record_ok (t : ObjectType) (r : PackObjectRecord) : Prop :=
  record_ok t r ∧ deltable (rec_data r).

Lemma encode_record_good size keep t st ws window r :
  inv st ws → window_good ws t window → delta_record_ok t r →
  returns (encode_record encode_all config size keep t st window r) (λ '(st, window),
    ∃ w, w_object w = rec_object r ∧ inv st (ws ++ [w]) ∧ window_good (ws ++ [w]) t window).
Proof.
  intros Hinv Hwin [Hr Hd]. unfold encode_record. destruct (rec_id r) as [h|h|h] eqn:Hid.
  2,3: step (write_direct_good keep t st ws r Hinv Hr) as (w & Hw & Hst); exists w;
    (split; [done|]; split; [done|by apply window_good_snoc]).
  pose proof Hr as (Ho & Ht & _). unfold rec_object in Ho. rewrite Hid, Ht in Ho. destruct Hwin as [Hwin Hwd].
  step (choose_payload_good t ws window h (rec_data r) ltac:(apply Hinv) Hwin Hwd Ho Hd) as Hw.
  destruct a as [[[payload stored] base] depth].
  set (w := {| w_id := Hash h; w_type := t; w_data := rec_data r; w_stored := stored; w_base := base;
               w_payload := payload; w_depth := depth |}) in *.
  assert (entry_good (ws ++ [w]) w) as Hw'.
  { eapply entry_good_mono; [|exact Hw]. intros x Hx. apply elem_of_app. by left. }
  step (write_entry_parts_good st ws w Hinv Hw') as Hst. rename a into st'.
  set (e := {| whash := h; wdata := rec_data r; windex := _; chain_depth := depth |}).
  assert (window_good (ws ++ [w]) t (slide_window size t window e).1) as Hwin'.
  { destruct (window_good_snoc ws t window w (conj Hwin Hwd)) as [H1 H2].
    split; (apply slide_window_Forall; [done|]); [|apply Hd]. split; [done|]. exists w.
    split; [|done]. apply elem_of_app. right. by left. }
  destruct (slide_window size t window e) as [window' gone]. cbn [returns fst] in *. exists w.
  split; [by unfold w_object, rec_object; cbn; rewrite Hid, Ht|]. split; [|done].
  destruct keep, (bool_decide (base = None)); exact Hst.
Qed.

Lemma encode_with_sliding_window_good size keep t st ws window rs :
  inv st ws → window_good ws t window → Forall (delta_record_ok t) rs →
  returns (encode_with_sliding_window encode_all config size keep t st window rs)
    (λ st, ∃ ws', map w_object ws' = map rec_object rs ∧ inv st (ws ++ ws')).
Proof.
  intros Hinv Hwin Hrs. revert st ws window Hinv Hwin. induction Hrs as [|r rs Hr Hrs IH];
    intros st ws window Hinv Hwin; cbn [encode_with_sliding_window].
  { exists []. rewrite app_nil_r. destruct keep; done. }
  step (encode_record_good size keep t st ws window r Hinv Hwin Hr) as Hst. destruct a as [st' window'].
  destruct Hst as (w & Hw & Hst & Hwin').
  eapply returns_mono; [by apply (IH st' (ws ++ [w]))|]. intros st'' (ws' & Hws & Hst''). exists (w :: ws'). cbn [map].
  rewrite <- app_assoc in Hst''. split; [by rewrite Hw, Hws|done].
Qed.

(** The objects of the groups, as written. *)
Definition group_ok (g : ObjectType * list PackObjectRecord) : Prop := Forall (delta_record_ok g.1) g.2.

Lemma build_group_good size keep st ws g :
  inv st ws → group_ok g →
  returns (build_group encode_all config size keep st g)
    (λ st, ∃ ws', map w_object ws' ≡ₚ map rec_object g.2 ∧ inv st (ws ++ ws')).
Proof.
  intros Hinv Hg. unfold build_group. destruct (no_deltas _ _ _).
  - eapply returns_mono; [apply write_all_good; [done|]|].
    + eapply Forall_impl; [exact Hg|]. by intros r [? _].
    + intros st' (ws' & Heq & Hst). exists ws'. by rewrite Heq.
  - assert (sort_for_delta_window g.2 ≡ₚ g.2) as Hp by apply sort_by_perm.
    eapply returns_mono; [apply encode_with_sliding_window_good; [done|by split|]|].
    + by rewrite Hp.
    + intros st' (ws' & Heq & Hst). exists ws'. split; [by rewrite Heq, Hp|done].
Qed.

Lemma build_groups_good size keep st ws gs :
  inv st ws → Forall group_ok gs →
  returns (build_groups encode_all config size keep st gs)
    (λ st, ∃ ws', map w_object ws' ≡ₚ map rec_object (concat (map snd gs)) ∧ inv st (ws ++ ws')).
Proof.
  intros Hinv Hgs. revert st ws Hinv. induction Hgs as [|g gs Hg Hgs IH]; intros st ws Hinv; cbn [build_groups map concat].
  { exists []. by rewrite app_nil_r. }
  step (build_group_good size keep st ws g Hinv Hg) as (ws1 & Hp1 & Hst).
  eapply returns_mono; [by apply IH|]. intros st' (ws2 & Hp2 & Hst'). exists (ws1 ++ ws2).
  rewrite !map_app, Hp1, Hp2, app_assoc. done.
Qed.
End stored.

(** Grouping keeps every record, in the group of its type. *)
Lemma push_group_spec groups r :
  concat (map snd (push_group groups r)) ≡ₚ concat (map snd groups) ++ [r]
  ∧ (Forall (λ g, Forall (λ r, rec_obj_type r = g.1) g.2) groups →
     Forall (λ g, Forall (λ r, rec_obj_type r = g.1) g.2) (push_group groups r)).
Proof.
  induction groups as [|[t rs] groups [IH1 IH2]]; cbn [push_group].
  { split; [done|]. intros _. by repeat constructor. }
  case_bool_decide as Ht.
  - split; [cbn [map concat snd]; rewrite <- !app_assoc; by rewrite (Permutation_app_comm [r])|].
    intros [H1 H2]%Forall_cons. constructor; [|done]. cbn [fst snd] in *. apply Forall_app. split; [done|].
    by constructor.
  - split; [cbn [map concat snd]; by rewrite IH1, app_assoc|].
    intros [H1 H2]%Forall_cons. constructor; [done|by apply IH2].
Qed.
Lemma group_by_type_spec rs :
  concat (map snd (group_by_type rs)) ≡ₚ rs
  ∧ Forall (λ g, Forall (λ r, rec_obj_type r = g.1) g.2) (group_by_type rs).
Proof.
  unfold group_by_type.
  assert (∀ groups, Forall (λ g : ObjectType * list PackObjectRecord, Forall (λ r, rec_obj_type r = g.1) g.2) groups →
    concat (map snd (fold_left push_group rs groups)) ≡ₚ concat (map snd groups) ++ rs
    ∧ Forall (λ g, Forall (λ r, rec_obj_type r = g.1) g.2) (fold_left push_group rs groups)) as H; [|by apply (H [])].
  induction rs as [|r rs IH]; intros groups Hg; cbn [fold_left]; [by rewrite app_nil_r|].
  destruct (push_group_spec groups r) as [Hp Hgood]. destruct (IH _ (Hgood Hg)) as [IH1 IH2].
  split; [|done]. by rewrite IH1, Hp, <- app_assoc.
Qed.
