(* ===== verification/RenameMatch.v ===== *)
(** * Rename detection ([crates/merge/src/tree_merge/rename_matcher.rs])

    Module [RenameMatch] models the flattening of a tree, the scored candidate
    index with its greedy assignment, the exact-hash pass, the candidate pruning
    by name and size, the similarity scores and the inference of directory
    renames.  Scores are the floats of [F64].  A [HashMap] is a [gmap]; the
    program sorts before any order of iteration shows.  The semantic similarity
    hook is a parameter. *)

From S2P Require Import Prelude.
From S2P Require Import Text.
From S2P Require Import F64.
From S2P Require Import Delta.
From S2P Require Import Trees.
From S2P Require Import TreeHash.
From S2P Require Import ObjectStore.
Import F64 (f64).
Import Text (split, rsplit_once).
Import Trees.

Module RenameMatch.

Abbreviation path := (list Z).

(** ** [RenameCandidateIndex] *)
Record RenameAssignment := { source_index : Z; target_index : Z; score : f64 }.
Record RenameCandidateIndex := { source_count : Z; target_count : Z; candidates : list RenameAssignment }.

Definition index_new (source_count target_count : Z) : RenameCandidateIndex :=
  {| source_count := source_count; target_count := target_count; candidates := [] |}.

Definition push {E} (ix : RenameCandidateIndex) (source_index target_index : Z) (score : f64)
  : exec E RenameCandidateIndex :=
  if negb (source_index <? source_count ix) then Panic
  else if negb (target_index <? target_count ix) then Panic
  else if negb (F64.is_finite score) then Panic
  else Ok {| source_count := source_count ix; target_count := target_count ix;
             candidates := candidates ix
               ++ [{| source_index := source_index; target_index := target_index; score := score |}] |}.

Definition candidate_count (ix : RenameCandidateIndex) : Z := zlen (candidates ix).

(** The order of the candidates: descending score, then source, then target. *)
Definition compare_candidates (left right : RenameAssignment) : comparison :=
  match F64.total_cmp (score right) (score left) with
  | Eq => match source_index left ?= source_index right with
          | Eq => target_index left ?= target_index right
          | c => c
          end
  | c => c
  end.

Fixpoint assign_loop {E} (cs : list RenameAssignment) (used_sources used_targets : list bool)
    (assignments : list RenameAssignment) : exec E (list RenameAssignment) :=
  match cs with
  | [] => Ok assignments
  | c :: cs =>
      s ← index used_sources (source_index c);
      t ← index used_targets (target_index c);
      if s || t then assign_loop cs used_sources used_targets assignments
      else
        used_sources ← vec_set used_sources (source_index c) true;
        used_targets ← vec_set used_targets (target_index c) true;
        assign_loop cs used_sources used_targets (assignments ++ [c])
  end.

Definition assign {E} (ix : RenameCandidateIndex) : exec E (list RenameAssignment) :=
  assign_loop (sort_by compare_candidates (candidates ix))
    (replicate (Z.to_nat (source_count ix)) false) (replicate (Z.to_nat (target_count ix)) false) [].

(** ** Paths *)

Definition file_name_of (p : path) : path := default p (last (split 47 p)).
Definition file_stem_of (p : path) : path := match rsplit_once 46 p with Some (stem, _) => stem | None => p end.
Definition extension_of (p : path) : option path :=
  match rsplit_once 46 (file_name_of p) with Some (_, extension) => Some extension | None => None end.
Definition parent_dir (p : path) : option path :=
  match rsplit_once 47 p with Some (directory, _) => Some directory | None => None end.

(** The number of leading pairs that agree. *)
Fixpoint common_prefix_count (l r : list path) : Z :=
  match l, r with
  | x :: l, y :: r => if bool_decide (x = y) then 1 + common_prefix_count l r else 0
  | _, _ => 0
  end.

Definition path_similarity (left right : path) : f64 :=
  let left_parts := split 47 left in
  let right_parts := split 47 right in
  let shared_suffix := common_prefix_count (reverse left_parts) (reverse right_parts) in
  let component_count := Z.max (zlen left_parts) (zlen right_parts) in
  let suffix_score :=
    if component_count =? 0 then F64.zero
    else F64.div (F64.of_usize shared_suffix) (F64.of_usize component_count) in
  let same_extension := bool_decide (extension_of left = extension_of right)
                        && bool_decide (extension_of left ≠ None) in
  F64.add (F64.mul suffix_score (F64.literal 7 10)) (if same_extension then F64.literal 3 10 else F64.zero).

(** ** Scores *)
Definition DEFAULT_THRESHOLD : f64 := F64.literal 55 100.
Definition WEIGHT_DELTA : f64 := F64.literal 50 100.
Definition WEIGHT_SEMANTIC : f64 := F64.literal 30 100.
Definition WEIGHT_PATH : f64 := F64.literal 20 100.
Definition HIGH_CONFIDENCE_DELTA : f64 := F64.literal 95 100.
Definition CANDIDATE_CAP : Z := 10000.
Definition MAX_SIZE_RATIO_USIZE : Z := 3.

Definition delta_similarity {E} (base target : list Z) : exec E f64 :=
  if bool_decide (base = []) && bool_decide (target = []) then Ok F64.one
  else if bool_decide (base = []) || bool_decide (target = []) then Ok F64.zero
  else if bool_decide (base = target) then Ok F64.one
  else
    delta_size ← lift (Encoder.estimate_delta_size base target);
    let ratio := F64.div (F64.of_usize delta_size) (F64.of_usize (zlen target)) in
    Ok (F64.max (F64.sub F64.one ratio) F64.zero).

Record RenameMatcherStats := {
  deleted_files : Z; added_files : Z; exact_hash_matches : Z; total_possible_pairs : Z;
  metadata_candidate_pairs : Z; scored_pairs : Z; semantic_scored_pairs : Z;
  high_confidence_delta_pairs : Z; threshold_matches : Z; matched_pairs : Z;
  blob_loads : Z; blob_bytes_loaded : Z; used_content : bool
}.
Definition stats_default : RenameMatcherStats :=
  {| deleted_files := 0; added_files := 0; exact_hash_matches := 0; total_possible_pairs := 0;
     metadata_candidate_pairs := 0; scored_pairs := 0; semantic_scored_pairs := 0;
     high_confidence_delta_pairs := 0; threshold_matches := 0; matched_pairs := 0;
     blob_loads := 0; blob_bytes_loaded := 0; used_content := false |}.

(** The counters that the passes update, one setter for each update. *)
Definition count_exact (s : RenameMatcherStats) : RenameMatcherStats :=
  {| deleted_files := deleted_files s; added_files := added_files s;
     exact_hash_matches := exact_hash_matches s + 1; total_possible_pairs := total_possible_pairs s;
     metadata_candidate_pairs := metadata_candidate_pairs s; scored_pairs := scored_pairs s;
     semantic_scored_pairs := semantic_scored_pairs s;
     high_confidence_delta_pairs := high_confidence_delta_pairs s; threshold_matches := threshold_matches s;
     matched_pairs := matched_pairs s; blob_loads := blob_loads s; blob_bytes_loaded := blob_bytes_loaded s;
     used_content := used_content s |}.
Definition count_scores (s : RenameMatcherStats) (metadata scored semantic high threshold : Z)
  : RenameMatcherStats :=
  {| deleted_files := deleted_files s; added_files := added_files s;
     exact_hash_matches := exact_hash_matches s; total_possible_pairs := total_possible_pairs s;
     metadata_candidate_pairs := metadata_candidate_pairs s + metadata; scored_pairs := scored_pairs s + scored;
     semantic_scored_pairs := semantic_scored_pairs s + semantic;
     high_confidence_delta_pairs := high_confidence_delta_pairs s + high;
     threshold_matches := threshold_matches s + threshold;
     matched_pairs := matched_pairs s; blob_loads := blob_loads s; blob_bytes_loaded := blob_bytes_loaded s;
     used_content := used_content s |}.
Definition count_load (s : RenameMatcherStats) (bytes : Z) : RenameMatcherStats :=
  {| deleted_files := deleted_files s; added_files := added_files s;
     exact_hash_matches := exact_hash_matches s; total_possible_pairs := total_possible_pairs s;
     metadata_candidate_pairs := metadata_candidate_pairs s; scored_pairs := scored_pairs s;
     semantic_scored_pairs := semantic_scored_pairs s;
     high_confidence_delta_pairs := high_confidence_delta_pairs s; threshold_matches := threshold_matches s;
     matched_pairs := matched_pairs s; blob_loads := blob_loads s + 1;
     blob_bytes_loaded := blob_bytes_loaded s + bytes; used_content := used_content s |}.
Definition set_used_content (s : RenameMatcherStats) (b : bool) : RenameMatcherStats :=
  {| deleted_files := deleted_files s; added_files := added_files s;
     exact_hash_matches := exact_hash_matches s; total_possible_pairs := total_possible_pairs s;
     metadata_candidate_pairs := metadata_candidate_pairs s; scored_pairs := scored_pairs s;
     semantic_scored_pairs := semantic_scored_pairs s;
     high_confidence_delta_pairs := high_confidence_delta_pairs s; threshold_matches := threshold_matches s;
     matched_pairs := matched_pairs s; blob_loads := blob_loads s; blob_bytes_loaded := blob_bytes_loaded s;
     used_content := b |}.
Definition set_matched (s : RenameMatcherStats) (n : Z) : RenameMatcherStats :=
  {| deleted_files := deleted_files s; added_files := added_files s;
     exact_hash_matches := exact_hash_matches s; total_possible_pairs := total_possible_pairs s;
     metadata_candidate_pairs := metadata_candidate_pairs s; scored_pairs := scored_pairs s;
     semantic_scored_pairs := semantic_scored_pairs s;
     high_confidence_delta_pairs := high_confidence_delta_pairs s; threshold_matches := threshold_matches s;
     matched_pairs := n; blob_loads := blob_loads s; blob_bytes_loaded := blob_bytes_loaded s;
     used_content := used_content s |}.

(** ** Flattened trees *)
Inductive OpaqueLeaf (Oid : Type) :=
| OpaqueGitlink (target : Oid)
| OpaqueSpoollink (spool_id state_id : list Z).
Arguments OpaqueGitlink {Oid} target.
Arguments OpaqueSpoollink {Oid} spool_id state_id.

Record FlatLeaf (Oid : Type) := {
  hash : list Z; leaf_type : EntryType.t; executable : bool; opaque : option (OpaqueLeaf Oid)
}.
Arguments hash {Oid}. Arguments leaf_type {Oid}. Arguments executable {Oid}. Arguments opaque {Oid}.
Arguments Build_FlatLeaf {Oid}.

#[global] Instance OpaqueLeaf_eq_dec {Oid} `{EqDecision Oid} : EqDecision (OpaqueLeaf Oid).
Proof. solve_decision. Defined.
#[global] Instance FlatLeaf_eq_dec {Oid} `{EqDecision Oid} : EqDecision (FlatLeaf Oid).
Proof. solve_decision. Defined.

(** [SemanticSimilarityFn] *)
Abbreviation SemanticSimilarityFn := (path → path → list Z → list Z → f64).

Record RenameMatcherConfig := { threshold : f64; semantic_similarity : option SemanticSimilarityFn }.

Record RenameMatch := {
  from_path : path; to_path : path; match_score : f64; from_hash : list Z; to_hash : list Z;
  from_executable : bool; to_executable : bool; to_entry_type : EntryType.t
}.

Record CandidatePath := { cpath : path; basename : path; stem : path; extension : option path }.
Definition from_path_of (p : path) : CandidatePath :=
  let basename := file_name_of p in
  {| cpath := p; basename := basename; stem := file_stem_of basename; extension := extension_of p |}.

Record CandidateFile := { findex : Z; fpath : CandidatePath; size : option Z; content : option (list Z) }.

Record AddedIndex := {
  files : list CandidateFile;
  all_indices : list Z;
  by_basename : gmap path (list Z);
  by_stem : gmap path (list Z);
  by_extension : gmap (option path) (list Z);
  sorted_by_size : list Z
}.

Definition composite_score {E} (from_path to_path from_content to_content : list Z) (path_score : f64)
    (semantic : option SemanticSimilarityFn) (stats : RenameMatcherStats)
  : exec E (f64 * RenameMatcherStats) :=
  delta_score ← delta_similarity from_content to_content;
  if F64.ge delta_score HIGH_CONFIDENCE_DELTA then
    Ok (F64.add (F64.add (F64.mul WEIGHT_DELTA delta_score) WEIGHT_SEMANTIC) (F64.mul WEIGHT_PATH path_score),
        count_scores stats 0 0 0 1 0)
  else
    let '(semantic_score, stats) :=
      if F64.lt delta_score (F64.literal 3 10) then (F64.zero, stats)
      else
        (match semantic with
         | Some similarity => similarity from_path to_path from_content to_content
         | None => F64.zero
         end, count_scores stats 0 0 1 0 0) in
    if F64.eq semantic_score F64.zero then
      let delta_weight := F64.add WEIGHT_DELTA WEIGHT_SEMANTIC in
      Ok (F64.add (F64.mul delta_weight delta_score) (F64.mul WEIGHT_PATH path_score), stats)
    else
      Ok (F64.add (F64.add (F64.mul WEIGHT_DELTA delta_score) (F64.mul WEIGHT_SEMANTIC semantic_score))
                  (F64.mul WEIGHT_PATH path_score), stats).

(** [files[*index].size.unwrap_or(usize::MAX)]; the positions are those of the
    files. *)
Definition size_of (fs : list CandidateFile) (i : Z) : Z :=
  match get fs i with Some f => default USIZE_MAX (size f) | None => USIZE_MAX end.

Definition push_to {K} `{Countable K} (m : gmap K (list Z)) (k : K) (i : Z) : gmap K (list Z) :=
  <[k := default [] (m !! k) ++ [i]]> m.

Definition push_unique (target : list Z) (i : Z) : list Z := if decide (i ∈ target) then target else target ++ [i].
Definition push_unique_matches (target : list Z) (matches : option (list Z)) : list Z :=
  match matches with None => target | Some js => fold_left push_unique js target end.

Definition push_unique_size_window {E} (target : list Z) (sorted_indices : list Z) (fs : list CandidateFile)
    (size : option Z) : exec E (list Z) :=
  match size with
  | None => Ok target
  | Some size =>
      let lower := div_ceil size MAX_SIZE_RATIO_USIZE in
      let upper := saturating_mul size MAX_SIZE_RATIO_USIZE in
      start ← lift (partition_point (λ i, size_of fs i <? lower) sorted_indices);
      stop ← lift (partition_point (λ i, size_of fs i <=? upper) sorted_indices);
      window ← slice sorted_indices start stop;
      Ok (fold_left push_unique window target)
  end.

Definition collect_candidate_positions {E} (deleted_file : CandidateFile) (added_index : AddedIndex)
  : exec E (list Z) :=
  let positions := push_unique_matches [] (by_basename added_index !! basename (fpath deleted_file)) in
  let positions := push_unique_matches positions (by_stem added_index !! stem (fpath deleted_file)) in
  positions ←
    match by_extension added_index !! extension (fpath deleted_file) with
    | Some js => push_unique_size_window positions js (files added_index) (size deleted_file)
    | None => Ok positions
    end;
  positions ←
    (if bool_decide (positions = []) then
       push_unique_size_window positions (sorted_by_size added_index) (files added_index) (size deleted_file)
     else Ok positions);
  if bool_decide (positions = []) then Ok (positions ++ all_indices added_index) else Ok positions.

Section detection.
Context {Oid St : Type} `{ObjectStore Oid St}.
Context (blake3 : list Z → list Z).
Abbreviation entry := (TreeEntry Oid).
Abbreviation tree := (Tree Oid).
Abbreviation leaf := (FlatLeaf Oid).
Abbreviation FlatTree := (gmap path leaf).

(** [FlatLeaf::blob], [symlink], [gitlink], [spoollink] *)
Definition flat_blob (hash : list Z) (executable : bool) : leaf :=
  {| hash := hash; leaf_type := EntryType.Blob; executable := executable; opaque := None |}.
Definition flat_symlink (hash : list Z) : leaf :=
  {| hash := hash; leaf_type := EntryType.Symlink; executable := false; opaque := None |}.
Definition flat_gitlink (target : Oid) : leaf :=
  {| hash := TreeHash.compute_typed blake3 (Text.ascii_bytes "flat-gitlink") (oid_bytes target);
     leaf_type := EntryType.Gitlink; executable := false; opaque := Some (OpaqueGitlink target) |}.
Definition flat_spoollink (spool_id state_id : list Z) : leaf :=
  let identity := spool_id ++ state_id in
  {| hash := TreeHash.compute_typed blake3 (Text.ascii_bytes "flat-spoollink") identity;
     leaf_type := EntryType.Spoollink; executable := false; opaque := Some (OpaqueSpoollink spool_id state_id) |}.

(** [require_tree], [require_blob] of the store trait *)
Definition require_tree (s : St) (h : list Z) : mres tree :=
  found ← get_tree s h;
  ok_or found (StoreFailed "missing tree").
Definition require_blob (s : St) (h : list Z) : mres (list Z) :=
  found ← get_blob s h;
  ok_or found (StoreFailed "missing blob").

Definition join_path (prefix n : path) : path :=
  if bool_decide (prefix = []) then n else prefix ++ [47] ++ n.

(** One entry of the loop of [flatten_tree]; [recur] flattens a subtree. *)
Definition flatten_entry (recur : tree → path → mres FlatTree) (s : St) (prefix : path) (result : FlatTree)
    (e : entry) : mres FlatTree :=
  let p := join_path prefix (name e) in
  match target e with
  | TreeEntryTarget.Blob h x => Ok (<[p := flat_blob h x]> result)
  | TreeEntryTarget.Symlink h => Ok (<[p := flat_symlink h]> result)
  | TreeEntryTarget.Tree h =>
      subtree ← require_tree s h;
      sub ← recur subtree p;
      Ok (sub ∪ result)
  | TreeEntryTarget.Gitlink target => Ok (<[p := flat_gitlink target]> result)
  | TreeEntryTarget.Spoollink spool_id state_id => Ok (<[p := flat_spoollink spool_id state_id]> result)
  end.

Fixpoint flatten_entries (recur : tree → path → mres FlatTree) (s : St) (prefix : path) (es : list entry)
    (result : FlatTree) : mres FlatTree :=
  match es with
  | [] => Ok result
  | e :: es =>
      result ← flatten_entry recur s prefix result e;
      flatten_entries recur s prefix es result
  end.

Fixpoint flatten_tree (fuel : nat) (s : St) (t : tree) (prefix : path) : mres FlatTree :=
  match fuel with
  | O => Fuel
  | S fuel => flatten_entries (flatten_tree fuel s) s prefix (entries t) ∅
  end.

(** ** Detection *)

(** The blobs of one side that the other side has no entry for, by path. *)
Definition only_in (a b : FlatTree) : list (path * leaf) :=
  sort_by (λ l r, compare_bytes l.1 r.1)
    (filter (λ p, leaf_type p.2 = EntryType.Blob ∧ b !! p.1 = None) (map_to_list a)).

(** The loop state of detection. *)
Record Matching := {
  used_deleted : list bool; used_added : list bool; matches : gmap path RenameMatch;
  stats : RenameMatcherStats
}.

Definition rename_match (deleted added : path * leaf) (score : f64) : RenameMatch :=
  {| from_path := deleted.1; to_path := added.1; match_score := score;
     from_hash := hash deleted.2; to_hash := hash added.2;
     from_executable := executable deleted.2; to_executable := executable added.2;
     to_entry_type := leaf_type added.2 |}.

(** [used_deleted[i] = true; used_added[j] = true; matches.insert(..)] *)
Definition record_match (m : Matching) (i j : Z) (r : RenameMatch) (stats' : RenameMatcherStats)
  : mres Matching :=
  used_deleted ← vec_set (used_deleted m) i true;
  used_added ← vec_set (used_added m) j true;
  Ok {| used_deleted := used_deleted; used_added := used_added;
        matches := <[from_path r := r]> (matches m); stats := stats' |}.

(** [iter().copied().filter(|index| !used[*index])] *)
Fixpoint unused (used : list bool) (js : list Z) : mres (list Z) :=
  match js with
  | [] => Ok []
  | i :: js =>
      u ← index used i;
      rest ← unused used js;
      Ok (if u : bool then rest else i :: rest)
  end.

(** [max_by(cmp)]: the last of the greatest elements. *)
Definition max_by {A} (cmp : A → A → comparison) (l : list A) : option A :=
  match l with
  | [] => None
  | x :: l => Some (fold_left (λ x y, match cmp x y with Gt => x | _ => y end) l x)
  end.

Definition by_hash (added : list (path * leaf)) : gmap (list Z) (list Z) :=
  fold_left (λ m p, push_to m (hash p.2.2) p.1) (imap (λ i p, (Z.of_nat i, p)) added) ∅.

Definition path_at (added : list (path * leaf)) (i : Z) : path :=
  match get added i with Some p => p.1 | None => [] end.

Fixpoint match_exact_hashes (deleted_left : list (path * leaf)) (deleted_index : Z)
    (added : list (path * leaf)) (added_by_hash : gmap (list Z) (list Z)) (m : Matching) : mres Matching :=
  match deleted_left with
  | [] => Ok m
  | d :: deleted_left =>
      m ← match added_by_hash !! hash d.2 with
          | None => Ok m
          | Some indices =>
              free ← unused (used_added m) indices;
              match max_by (λ l r, default Eq (F64.partial_cmp (path_similarity d.1 (path_at added l))
                                                               (path_similarity d.1 (path_at added r)))) free with
              | None => Ok m
              | Some added_index =>
                  a ← index added added_index;
                  record_match m deleted_index added_index (rename_match d a F64.one) (count_exact (stats m))
              end
          end;
      match_exact_hashes deleted_left (deleted_index + 1) added added_by_hash m
  end.

(** [iter().enumerate().filter(|(index, _)| !used[*index])] *)
Fixpoint remaining (used : list bool) (i : Z) (l : list (path * leaf)) : mres (list (Z * path * list Z)) :=
  match l with
  | [] => Ok []
  | p :: l =>
      u ← index used i;
      rest ← remaining used (i + 1) l;
      Ok (if u : bool then rest else (i, p.1, hash p.2) :: rest)
  end.

Fixpoint load_candidate_files (s : St) (es : list (Z * path * list Z)) (load_content : bool)
    (stats : RenameMatcherStats) : mres (list CandidateFile * RenameMatcherStats) :=
  match es with
  | [] => Ok ([], stats)
  | (i, p, h) :: es =>
      blob ← require_blob s h;
      '(fs, stats) ← load_candidate_files s es load_content (count_load stats (zlen blob));
      Ok ({| findex := i; fpath := from_path_of p; size := Some (zlen blob);
             content := if load_content then Some blob else None |} :: fs, stats)
  end.

Definition sort_by_size (fs : list CandidateFile) (js : list Z) : list Z :=
  sort_by (λ i j, size_of fs i ?= size_of fs j) js.

Definition build_added_index (s : St) (es : list (Z * path * list Z)) (load_content : bool)
    (stats : RenameMatcherStats) : mres (AddedIndex * RenameMatcherStats) :=
  '(fs, stats) ← load_candidate_files s es load_content stats;
  let positioned := imap (λ i f, (Z.of_nat i, f)) fs in
  let all_indices := map fst positioned in
  let by_extension := fold_left (λ m p, push_to m (extension (fpath p.2)) p.1) positioned ∅ in
  Ok ({| files := fs;
         all_indices := all_indices;
         by_basename := fold_left (λ m p, push_to m (basename (fpath p.2)) p.1) positioned ∅;
         by_stem := fold_left (λ m p, push_to m (stem (fpath p.2)) p.1) positioned ∅;
         by_extension := sort_by_size fs <$> by_extension;
         sorted_by_size := sort_by_size fs all_indices |}, stats).

(** The score of one candidate pair and the counters after it. *)
Definition pair_score (config : RenameMatcherConfig) (use_content : bool) (d a : CandidateFile)
    (stats : RenameMatcherStats) : mres (f64 * RenameMatcherStats) :=
  let path_score := path_similarity (cpath (fpath d)) (cpath (fpath a)) in
  if negb use_content then Ok (path_score, stats)
  else
    match content d, content a with
    | Some from_content, Some to_content =>
        composite_score (cpath (fpath d)) (cpath (fpath a)) from_content to_content path_score
          (semantic_similarity config) stats
    | _, _ => Ok (F64.mul path_score WEIGHT_PATH, stats)
    end.

(** The inner loop: the candidates for one deleted file. *)
Fixpoint score_positions (config : RenameMatcherConfig) (use_content : bool) (used_added : list bool)
    (d : CandidateFile) (added_index : AddedIndex) (positions : list Z)
    (candidates : RenameCandidateIndex) (stats : RenameMatcherStats)
  : mres (RenameCandidateIndex * RenameMatcherStats) :=
  match positions with
  | [] => Ok (candidates, stats)
  | p :: positions =>
      a ← index (files added_index) p;
      u ← index used_added (findex a);
      '(candidates, stats) ←
        (if u : bool then Ok (candidates, stats)
         else
           '(score, stats) ← pair_score config use_content d a (count_scores stats 1 0 0 0 0);
           let stats := count_scores stats 0 1 0 0 0 in
           if F64.ge score (threshold config) then
             candidates ← push candidates (findex d) (findex a) score;
             Ok (candidates, count_scores stats 0 0 0 0 1)
           else Ok (candidates, stats));
      score_positions config use_content used_added d added_index positions candidates stats
  end.

(** The outer loop over the deleted files. *)
Fixpoint score_files (config : RenameMatcherConfig) (use_content : bool) (used_added : list bool)
    (deleted_files : list CandidateFile) (added_index : AddedIndex)
    (candidates : RenameCandidateIndex) (stats : RenameMatcherStats)
  : mres (RenameCandidateIndex * RenameMatcherStats) :=
  match deleted_files with
  | [] => Ok (candidates, stats)
  | d :: deleted_files =>
      positions ← collect_candidate_positions d added_index;
      '(candidates, stats) ←
        score_positions config use_content used_added d added_index positions candidates stats;
      score_files config use_content used_added deleted_files added_index candidates stats
  end.

(** The loop over the assignments. *)
Fixpoint record_assignments (deleted added : list (path * leaf)) (cs : list RenameAssignment) (m : Matching)
  : mres Matching :=
  match cs with
  | [] => Ok m
  | c :: cs =>
      d_used ← index (used_deleted m) (source_index c);
      a_used ← index (used_added m) (target_index c);
      m ← (if d_used || a_used then Ok m
           else
             d ← index deleted (source_index c);
             a ← index added (target_index c);
             record_match m (source_index c) (target_index c) (rename_match d a (score c)) (stats m));
      record_assignments deleted added cs m
  end.

(** [RenameDetection] *)
Abbreviation RenameDetection := (gmap path RenameMatch * RenameMatcherStats)%type.

Definition detect_renames_with_stats (s : St) (base branch : FlatTree) (config : RenameMatcherConfig)
  : mres RenameDetection :=
  let deleted := only_in base branch in
  let added := only_in branch base in
  let stats0 :=
    {| deleted_files := zlen deleted; added_files := zlen added; exact_hash_matches := 0;
       total_possible_pairs := saturating_mul (zlen deleted) (zlen added);
       metadata_candidate_pairs := 0; scored_pairs := 0; semantic_scored_pairs := 0;
       high_confidence_delta_pairs := 0; threshold_matches := 0; matched_pairs := 0;
       blob_loads := 0; blob_bytes_loaded := 0; used_content := false |} in
  if bool_decide (deleted = []) || bool_decide (added = []) then Ok (∅, stats0)
  else
    m ← match_exact_hashes deleted 0 added (by_hash added)
          {| used_deleted := replicate (length deleted) false; used_added := replicate (length added) false;
             matches := ∅; stats := stats0 |};
    remaining_deleted ← remaining (used_deleted m) 0 deleted;
    remaining_added ← remaining (used_added m) 0 added;
    if bool_decide (remaining_deleted = []) || bool_decide (remaining_added = []) then
      Ok (matches m, set_matched (stats m) (Z.of_nat (base.size (matches m))))
    else
      let use_content := saturating_mul (zlen remaining_deleted) (zlen remaining_added) <=? CANDIDATE_CAP in
      '(deleted_files, stats1) ←
        load_candidate_files s remaining_deleted use_content (set_used_content (stats m) use_content);
      '(added_index, stats2) ← build_added_index s remaining_added use_content stats1;
      '(candidates, stats3) ←
        score_files config use_content (used_added m) deleted_files added_index
          (index_new (zlen deleted) (zlen added)) stats2;
      assignments ← assign candidates;
      m ← record_assignments deleted added assignments
            {| used_deleted := used_deleted m; used_added := used_added m; matches := matches m; stats := stats3 |};
      Ok (matches m, set_matched (stats m) (Z.of_nat (base.size (matches m)))).

Definition detect_renames (s : St) (base branch : FlatTree) (config : RenameMatcherConfig)
  : mres (gmap path RenameMatch) :=
  detection ← detect_renames_with_stats s base branch config;
  Ok detection.1.

(** ** Directory renames *)

(** The counts by source directory and by target directory; [renames.values()]
    comes in the order of the map. *)
Definition count_directories (renames : list RenameMatch)
  : gmap path (gmap path Z) * gmap path Z :=
  fold_left (λ '(targets, counts) r,
    match parent_dir (from_path r), parent_dir (to_path r) with
    | Some from_dir, Some to_dir =>
        let of_from := default ∅ (targets !! from_dir) in
        (<[from_dir := <[to_dir := default 0 (of_from !! to_dir) + 1]> of_from]> targets,
         <[from_dir := default 0 (counts !! from_dir) + 1]> counts)
    | _, _ => (targets, counts)
    end) renames (∅, ∅).

Definition compare_pairs (a b : path * path) : comparison :=
  match compare_bytes a.1 b.1 with Eq => compare_bytes a.2 b.2 | c => c end.

Definition infer_directory_renames (renames : gmap path RenameMatch) : list (path * path) :=
  let '(directory_targets, directory_counts) := count_directories (map snd (map_to_list renames)) in
  sort_by compare_pairs
    (concat (map (λ '(from_dir, targets),
       let total := default 0 (directory_counts !! from_dir) in
       if total <? 2 then []
       else
         omap (λ '(to_dir, count),
           if bool_decide (from_dir ≠ to_dir)
              && F64.ge (F64.div (F64.of_usize count) (F64.of_usize total)) (F64.literal 8 10)
           then Some (from_dir, to_dir) else None) (map_to_list targets))
     (map_to_list directory_targets))).
End detection.

(** ** The greedy assignment *)

(** [used] marks the positions of [l] among the first [n] numbers. *)
Definition marks (n : Z) (used : list bool) (l : list Z) : Prop :=
  zlen used = n ∧ ∀ i, 0 ≤ i < n → get used i = Some (bool_decide (i ∈ l)).

Lemma marks_new n : 0 ≤ n → marks n (replicate (Z.to_nat n) false) [].
Proof.
  intros Hn. split; [unfold zlen; rewrite length_replicate; lia|]. intros i Hi. unfold get.
  rewrite (proj2 (Z.leb_le 0 i)), lookup_replicate_2 by lia. by rewrite bool_decide_eq_false_2 by apply not_elem_of_nil.
Qed.

Lemma marks_index {E} n used l i :
  marks n used l → 0 ≤ i < n → index used i = Ok (bool_decide (i ∈ l)) :> exec E bool.
Proof.
  intros [Hn Hm] Hi. specialize (Hm i Hi). unfold get, index in *. destruct (0 <=? i); [|done]. by rewrite Hm.
Qed.

Lemma marks_set {E} n used l i :
  marks n used l → 0 ≤ i < n → returns (vec_set (E:=E) used i true) (λ used', marks n used' (l ++ [i])).
Proof.
  intros [Hn Hm] Hi. unfold vec_set. rewrite (proj2 (Z.leb_le 0 i)), (proj2 (Z.ltb_lt _ _)) by lia.
  cbn [andb returns]. split; [unfold zlen in *; by rewrite length_insert|]. intros j Hj. specialize (Hm j Hj).
  unfold get in *. rewrite (proj2 (Z.leb_le 0 j)) in * by lia. destruct (decide (i = j)) as [->|Hne].
  - rewrite list_lookup_insert_eq by (unfold zlen in *; lia). rewrite bool_decide_eq_true_2; [done|].
    apply elem_of_app. right. by apply list_elem_of_singleton.
  - rewrite list_lookup_insert_ne by lia. rewrite Hm. f_equal. apply bool_decide_ext.
    rewrite elem_of_app, list_elem_of_singleton. split; [by left|by intros [?| ->]].
Qed.

Definition in_range (ns nt : Z) (c : RenameAssignment) : Prop :=
  0 ≤ source_index c < ns ∧ 0 ≤ target_index c < nt.
Definition clash (a b : RenameAssignment) : Prop := source_index a = source_index b ∨ target_index a = target_index b.
(** [a] does not come after [b]. *)
Definition no_later (a b : RenameAssignment) : Prop := compare_candidates a b ≠ Gt.

Lemma compare_candidates_antisym a b : compare_candidates b a = CompOpp (compare_candidates a b).
Proof.
  unfold compare_candidates, F64.total_cmp.
  rewrite (Z.compare_antisym (F64.total_key (score b))), (Z.compare_antisym (source_index a)),
    (Z.compare_antisym (target_index a)).
  destruct (F64.total_key (score b) ?= _); [|done..]. by destruct (source_index a ?= _).
Qed.

Lemma no_later_key a b :
  no_later a b ↔
  F64.total_key (score b) < F64.total_key (score a)
  ∨ F64.total_key (score b) = F64.total_key (score a)
    ∧ (source_index a < source_index b
       ∨ source_index a = source_index b ∧ target_index a ≤ target_index b).
Proof.
  unfold no_later, compare_candidates, F64.total_cmp.
  destruct (Z.compare_spec (F64.total_key (score b)) (F64.total_key (score a))),
    (Z.compare_spec (source_index a) (source_index b)), (Z.compare_spec (target_index a) (target_index b));
    (split; [intros Hx|intros Hx Hg]); try done; lia.
Qed.

Lemma no_later_trans a b c : no_later a b → no_later b c → no_later a c.
Proof. rewrite !no_later_key. lia. Qed.

Lemma sorted_candidates l : StronglySorted no_later (sort_by compare_candidates l).
Proof. apply sort_by_sorted; [intros; apply compare_candidates_antisym|exact no_later_trans]. Qed.

Lemma assign_loop_spec {E} ns nt cs us ut out :
  marks ns us (source_index <$> out) → marks nt ut (target_index <$> out) →
  Forall (in_range ns nt) cs → StronglySorted no_later cs →
  NoDup (source_index <$> out) → NoDup (target_index <$> out) →
  returns (assign_loop (E:=E) cs us ut out) (λ r,
    (∃ new, r = out ++ new ∧ new `sublist_of` cs)
    ∧ NoDup (source_index <$> r) ∧ NoDup (target_index <$> r)
    ∧ ∀ c, c ∈ cs → ∃ c', c' ∈ r ∧ clash c' c ∧ (c' ∈ out ∨ no_later c' c)).
Proof.
  revert us ut out. induction cs as [|c cs IH]; intros us ut out Hs Ht Hr Hsort Hns Hnt; cbn [assign_loop].
  { split; [exists []; by rewrite app_nil_r|]. split; [done|]. split; [done|]. by intros c ?%elem_of_nil. }
  apply Forall_cons in Hr as [[Hcs Hct] Hr]. apply StronglySorted_inv in Hsort as [Hsort Hfirst].
  rewrite (marks_index ns us _ _ Hs Hcs), bind_Ok, (marks_index nt ut _ _ Ht Hct), bind_Ok.
  destruct (bool_decide_reflect (source_index c ∈ source_index <$> out)) as [Hin|Hnin];
    [|destruct (bool_decide_reflect (target_index c ∈ target_index <$> out)) as [Hin|Hnin']]; cbn [orb].
  1, 2: eapply returns_mono; [by apply IH|]; intros r ((new & -> & Hsub) & H1 & H2 & Hc); split;
    [exists new; split; [done|by apply sublist_cons]|]; split; [done|]; split; [done|];
    intros x [-> |Hx]%elem_of_cons; [|by apply Hc];
    apply list_elem_of_fmap in Hin as (c' & Ec & Hc'); exists c'; split; [apply elem_of_app; by left|];
    split; [by (left + right)|by left].
  step (marks_set ns us _ _ Hs Hcs) as Hs'. step (marks_set nt ut _ _ Ht Hct) as Ht'.
  eapply returns_mono; [apply IH; [by rewrite fmap_app|by rewrite fmap_app|done|done| |]|].
  - rewrite fmap_app. apply NoDup_app. split; [done|]. split; [|apply NoDup_singleton].
    intros x Hx ?%list_elem_of_singleton. by subst.
  - rewrite fmap_app. apply NoDup_app. split; [done|]. split; [|apply NoDup_singleton].
    intros x Hx ?%list_elem_of_singleton. by subst.
  - intros r ((new & -> & Hsub) & H1 & H2 & Hc). split.
    { exists (c :: new). split; [by rewrite <- app_assoc|by apply sublist_skip]. }
    split; [done|]. split; [done|]. intros x [-> |Hx]%elem_of_cons.
    { exists c. split; [rewrite !elem_of_app, list_elem_of_singleton; auto|]. split; [by left|].
      right. apply no_later_key. lia. }
    destruct (Hc x Hx) as (c' & Hc' & Hcl & Hor). exists c'. split; [done|]. split; [done|].
    destruct Hor as [[?| ->%list_elem_of_singleton]%elem_of_app|?]; [by left| |by right].
    right. rewrite Forall_forall in Hfirst. by apply Hfirst.
Qed.

Definition pair_of (c : RenameAssignment) : Z * Z := (source_index c, target_index c).

(** The assignment looks at the pairs only. *)
Lemma assign_loop_pairs {E} cs cs' us ut out out' :
  map pair_of cs = map pair_of cs' → map pair_of out = map pair_of out' →
  match assign_loop (E:=E) cs us ut out, assign_loop (E:=E) cs' us ut out' with
  | Ok r, Ok r' => map pair_of r = map pair_of r'
  | Panic, Panic => True
  | _, _ => False
  end.
Proof.
  revert cs' us ut out out'. induction cs as [|c cs IH]; intros [|c' cs'] us ut out out' Hc Ho; try done.
  cbn [assign_loop]. injection Hc as Es Et Hc. rewrite Es, Et.
  unfold index. destruct (0 <=? source_index c'); [|done].
  destruct (us !! _) as [a|]; [|done]. rewrite !bind_Ok.
  destruct (0 <=? target_index c'); [|done]. destruct (ut !! _) as [b|]; [|done]. rewrite !bind_Ok.
  destruct (a || b); [by apply IH|]. unfold vec_set.
  destruct ((0 <=? source_index c') && _); [|exact I]. rewrite !bind_Ok.
  destruct ((0 <=? target_index c') && _); [|exact I]. rewrite !bind_Ok.
  apply IH; [done|]. rewrite !map_app, Ho. cbn. unfold pair_of. by rewrite Es, Et.
Qed.

Definition key_of (c : RenameAssignment) : Z * (Z * Z) := (F64.total_key (score c), pair_of c).

(** Sorting permuted candidates gives the same pairs. *)
Lemma sorted_pairs l k :
  l ≡ₚ k → map pair_of (sort_by compare_candidates l) = map pair_of (sort_by compare_candidates k).
Proof.
  intros Hp. set (le := λ x y : Z * (Z * Z), y.1 < x.1 ∨ y.1 = x.1 ∧ (x.2.1 < y.2.1 ∨ x.2.1 = y.2.1 ∧ x.2.2 ≤ y.2.2)).
  assert (∀ l, StronglySorted le (map key_of (sort_by compare_candidates l))) as Hs.
  { intros l'. pose proof (sorted_candidates l') as Hl. revert Hl. generalize (sort_by compare_candidates l').
    induction 1 as [|x l'' Hl IH Hx]; [constructor|]. cbn. constructor; [done|].
    apply (Forall_fmap key_of). eapply Forall_impl; [exact Hx|]. intros y Hy. by apply no_later_key in Hy. }
  assert (map key_of (sort_by compare_candidates l) = map key_of (sort_by compare_candidates k)) as E.
  { eapply (StronglySorted_unique_strong le); [|by apply Hs..|].
    - intros [x1 [x2 x3]] [y1 [y2 y3]] _ _ Hxy Hyx. unfold le in *. cbn in *. f_equal; [lia|f_equal; lia].
    - apply (fmap_Permutation key_of). by rewrite !sort_by_perm. }
  apply (f_equal (map snd)) in E. by rewrite !map_map in E.
Qed.

(** The rename assignment is the greedy matching of its candidates: it always
    answers, uses each source and each target at most once, picks only candidates,
    and leaves a candidate out only for one that comes no later in the order of
    scores (ties by index) and shares its source or its target.  It depends only
    on the multiset of the candidates, not on the order in which they were
    pushed. *)
Theorem assign_greedy {E} (ix : RenameCandidateIndex) :
  0 ≤ source_count ix → 0 ≤ target_count ix →
  Forall (in_range (source_count ix) (target_count ix)) (candidates ix) →
  ∃ out, assign (E:=E) ix = Ok out
    ∧ NoDup (source_index <$> out) ∧ NoDup (target_index <$> out)
    ∧ (∀ c, c ∈ out → c ∈ candidates ix)
    ∧ (∀ c, c ∈ candidates ix → ∃ c', c' ∈ out ∧ clash c' c ∧ no_later c' c)
    ∧ ∀ ix', source_count ix' = source_count ix → target_count ix' = target_count ix →
        candidates ix' ≡ₚ candidates ix →
        ∃ out', assign (E:=E) ix' = Ok out' ∧ map pair_of out' = map pair_of out.
Proof.
  intros Hs Ht Hr. unfold assign. set (cs := sort_by compare_candidates (candidates ix)).
  assert (cs ≡ₚ candidates ix) as Hp by apply sort_by_perm.
  pose proof (assign_loop_spec (E:=E) (source_count ix) (target_count ix) cs _ _ [] (marks_new _ Hs) (marks_new _ Ht)
    ltac:(by rewrite Hp) (sorted_candidates _) ltac:(constructor) ltac:(constructor)) as Hl.
  apply returns_inv in Hl as (out & E1 & (new & -> & Hsub) & H1 & H2 & Hc). exists new. split; [exact E1|].
  split; [done|]. split; [done|]. split; [|split].
  - intros c Hin. rewrite <- Hp. by eapply sublist_subseteq.
  - intros c Hin. rewrite <- Hp in Hin. destruct (Hc c Hin) as (c' & Hc' & Hcl & [?%elem_of_nil|?]); [done|by exists c'].
  - intros ix' -> -> Hp'. pose proof (assign_loop_pairs (E:=E) cs (sort_by compare_candidates (candidates ix'))
      (replicate (Z.to_nat (source_count ix)) false) (replicate (Z.to_nat (target_count ix)) false) [] []
      (sorted_pairs _ _ (symmetry Hp')) eq_refl) as Hx.
    rewrite E1 in Hx. destruct (assign_loop (sort_by _ (candidates ix')) _ _ _) as [r| | |]; try done. by exists r.
Qed.

(** ** Scores are finite *)

(** A Rust string or vector has less than 2^63 bytes. *)
Definition short (l : list Z) : Prop := zlen l < 2 ^ 63.

Lemma zlen_split sep s : 1 ≤ zlen (split sep s) ≤ zlen s + 1.
Proof.
  induction s as [|b s IH]; [by vm_compute|]. cbn [split]. rewrite zlen_cons. destruct (b =? sep).
  - rewrite zlen_cons. lia.
  - destruct (split sep s); rewrite ?zlen_cons, ?zlen_nil in *; lia.
Qed.

Lemma common_prefix_count_bounds l r : 0 ≤ common_prefix_count l r ≤ zlen l.
Proof.
  revert r. induction l as [|x l IH]; intros [|y r]; cbn [common_prefix_count]; rewrite ?zlen_cons.
  - by vm_compute.
  - by vm_compute.
  - pose proof (zlen_nonneg l). lia.
  - specialize (IH r). destruct (bool_decide _); lia.
Qed.

Lemma path_similarity_below l r : short l → short r → F64.below 72 (path_similarity l r).
Proof.
  unfold short. intros Hl Hr. unfold path_similarity. cbv zeta.
  pose proof (zlen_split 47 l). pose proof (zlen_split 47 r).
  set (count := Z.max _ _). set (shared := common_prefix_count _ _).
  assert (0 ≤ shared ≤ count).
  { pose proof (common_prefix_count_bounds (reverse (split 47 l)) (reverse (split 47 r))) as Hc.
    assert (zlen (reverse (split 47 l)) = zlen (split 47 l)) as E by (unfold zlen; by rewrite length_reverse).
    rewrite E in Hc. unfold shared, count. lia. }
  apply (F64.add_below 70); [|destruct (_ && _); by vm_compute|lia].
  apply (F64.below_le (67 + 1 + 1)); [lia|]. apply F64.mul_below; [|by vm_compute|lia].
  destruct (count =? 0) eqn:E; [done|]. apply Z.eqb_neq in E.
  apply (F64.below_le (65 - 1 + 2)); [lia|]. apply F64.div_below; [|apply F64.of_usize_above; lia|lia].
  apply (F64.of_usize_below 64); lia.
Qed.

Lemma delta_similarity_below {E} from to :
  short to → returns (delta_similarity (E:=E) from to) (F64.below 75).
Proof.
  unfold short, delta_similarity. intros Hto. destruct (_ && _); [by vm_compute|].
  destruct (bool_decide_reflect (from = [])); [done|]. destruct (bool_decide_reflect (to = [])) as [|Hne]; [done|].
  cbn [orb]. destruct (bool_decide (from = to)); [by vm_compute|].
  assert (1 ≤ zlen to) by (destruct to; [done|rewrite zlen_cons; pose proof (zlen_nonneg to); lia]).
  step (returns_lift _ _ (Delta.estimate_delta_size_bounds from to)) as Hn.
  apply F64.max_below; [|done]. apply (F64.below_le (70 + 2)); [lia|].
  apply F64.sub_below; [by vm_compute| |lia].
  apply (F64.below_le (67 + 1 - 1 + 2)); [lia|]. apply F64.div_below; [|apply F64.of_usize_above; lia|lia].
  apply F64.of_usize_below; lia.
Qed.

Definition similarity_bounded (config : RenameMatcherConfig) : Prop :=
  ∀ f, semantic_similarity config = Some f → ∀ a b c d, F64.below 64 (f a b c d).

Lemma weights_below :
  F64.below 1 WEIGHT_DELTA ∧ F64.below 1 WEIGHT_SEMANTIC ∧ F64.below 1 WEIGHT_PATH
  ∧ F64.below 1 (F64.add WEIGHT_DELTA WEIGHT_SEMANTIC).
Proof. vm_compute. repeat split; congruence. Qed.

Lemma weighted_below w x k : F64.below 1 w → F64.below k x → 0 ≤ k ≤ 80 → F64.below 82 (F64.mul w x).
Proof.
  intros Hw Hx Hk. apply (F64.below_le (1 + k + 1)); [lia|]. apply F64.mul_below; [exact Hw|exact Hx|lia].
Qed.

Lemma composite_score_below {E} config fp tp from to ps stats :
  similarity_bounded config → short to → F64.below 72 ps →
  returns (composite_score (E:=E) fp tp from to ps (semantic_similarity config) stats) (λ r, F64.below 90 r.1).
Proof.
  intros Hsem Hto Hps. unfold composite_score. step (delta_similarity_below from to Hto) as Hd.
  destruct weights_below as (Wd & Ws & Wp & Wsum). revert Wd Ws Wp Wsum.
  generalize WEIGHT_DELTA, WEIGHT_SEMANTIC, WEIGHT_PATH. intros wd ws wp Wd Ws Wp Wsum.
  assert (∀ x y k, F64.below k x → F64.below k y → 0 ≤ k ≤ 86 → F64.below (k + 2) (F64.add x y)) as Ha.
  { intros x y k Hx Hy Hk. apply F64.add_below; [exact Hx|exact Hy|lia]. }
  pose proof (weighted_below wp ps 72 Wp Hps ltac:(lia)) as H1.
  pose proof (F64.below_le 82 84 _ ltac:(lia) H1) as H1'.
  pose proof (weighted_below wd a 75 Wd Hd ltac:(lia)) as H2.
  destruct (F64.ge _ _).
  { apply (F64.below_le (84 + 2)); [lia|]. apply Ha; [|exact H1'|lia].
    apply (Ha _ _ 82); [exact H2|by apply (F64.below_le 1)|lia]. }
  assert (∀ s st, F64.below 64 s → returns (E:=E)
    (if F64.eq s F64.zero then Ok (F64.add (F64.mul (F64.add wd ws) a) (F64.mul wp ps), st)
     else Ok (F64.add (F64.add (F64.mul wd a) (F64.mul ws s)) (F64.mul wp ps), st))
    (λ r : f64 * RenameMatcherStats, F64.below 90 r.1)) as Hs.
  { intros s st Hs. pose proof (weighted_below ws s 64 Ws Hs ltac:(lia)) as H3.
    pose proof (weighted_below _ a 75 Wsum Hd ltac:(lia)) as H4. destruct (F64.eq _ _); cbn [returns fst].
    - apply (F64.below_le (82 + 2)); [lia|]. apply Ha; [exact H4|exact H1|lia].
    - apply (F64.below_le (84 + 2)); [lia|]. apply Ha; [|exact H1'|lia]. apply (Ha _ _ 82); [exact H2|exact H3|lia]. }
  destruct (F64.lt _ _); [by apply Hs|]. apply Hs.
  destruct (semantic_similarity config) as [f|] eqn:Ef; [by apply (Hsem f)|done].
Qed.

(** ** Candidate positions *)

(** The lists that [push_to] collects under each key. *)
Lemma push_all_lookup {K A} `{Countable K} (key : A → K) (l : list (Z * A)) k :
  default [] (fold_left (λ m p, push_to m (key p.2) p.1) l ∅ !! k) = map fst (filter (λ p, key p.2 = k) l).
Proof.
  induction l as [|p l IH] using rev_ind; [cbn [fold_left]; by rewrite lookup_empty|].
  rewrite fold_left_app, filter_app, map_app, <- IH. cbn [fold_left]. unfold push_to at 1.
  destruct (decide (key p.2 = k)) as [<-|Hne].
  - rewrite lookup_insert_eq, filter_cons_True by done. done.
  - rewrite lookup_insert_ne, filter_cons_False by done. by rewrite app_nil_r.
Qed.

Lemma push_all_in {K A} `{Countable K} (key : A → K) (l : list (Z * A)) k js j :
  fold_left (λ m p, push_to m (key p.2) p.1) l ∅ !! k = Some js →
  j ∈ js ↔ ∃ a, (j, a) ∈ l ∧ key a = k.
Proof.
  intros E. pose proof (push_all_lookup key l k) as Hl. rewrite E in Hl. cbn in Hl. subst js.
  rewrite (list_elem_of_fmap fst). split.
  - intros ([j' a] & -> & [Hk Hin]%list_elem_of_filter). by exists a.
  - intros (a & Hin & Hk). exists (j, a). split; [done|]. by apply list_elem_of_filter.
Qed.

Lemma push_all_none {K A} `{Countable K} (key : A → K) (l : list (Z * A)) k j a :
  fold_left (λ m p, push_to m (key p.2) p.1) l ∅ !! k = None → (j, a) ∈ l → key a ≠ k.
Proof.
  intros E Hin Hk. pose proof (push_all_lookup key l k) as Hl. rewrite E in Hl. cbn in Hl.
  symmetry in Hl. apply fmap_nil_inv in Hl. assert ((j, a) ∈ filter (λ p : Z * A, key p.2 = k) l) as Hf
    by (by apply list_elem_of_filter). rewrite Hl in Hf. by apply elem_of_nil in Hf.
Qed.

Lemma enumerated_in {A} (l : list A) j a :
  (j, a) ∈ imap (λ i a, (Z.of_nat i, a)) l ↔ get l j = Some a.
Proof.
  rewrite list_elem_of_lookup. setoid_rewrite list_lookup_imap_Some. unfold get. split.
  - intros (i & x & Hx & [= -> ->]). by rewrite (proj2 (Z.leb_le 0 _)), Nat2Z.id by lia.
  - destruct (Z.leb_spec 0 j); [|done]. intros Ha. exists (Z.to_nat j), a. split; [done|]. f_equal. lia.
Qed.

Definition positions_ok (n : Z) : list Z → Prop := Forall (λ p, 0 ≤ p < n).

Lemma push_unique_ok n ps js : positions_ok n ps → positions_ok n js → positions_ok n (fold_left push_unique js ps).
Proof.
  intros Hp Hj. revert ps Hp. induction Hj as [|j js Hj _ IH]; intros ps Hp; [done|]. cbn [fold_left]. apply IH.
  unfold push_unique. destruct (decide _); [done|]. apply Forall_app. split; [done|]. by constructor.
Qed.

Lemma push_unique_matches_ok n ps o :
  positions_ok n ps → (∀ js, o = Some js → positions_ok n js) → positions_ok n (push_unique_matches ps o).
Proof. intros Hp Ho. destruct o as [js|]; [|done]. apply push_unique_ok; auto. Qed.

Definition by_size (fs : list CandidateFile) (i j : Z) : Prop := size_of fs i ≤ size_of fs j.

Lemma sort_by_size_sorted fs js : StronglySorted (by_size fs) (sort_by_size fs js).
Proof.
  eapply StronglySorted_weaken; [|apply sort_by_sorted].
  - by intros x y Hxy.
  - intros x y. apply Z.compare_antisym.
  - intros x y z. apply Z.le_trans.
Qed.

Lemma sorted_monotone fs js (f : Z → bool) :
  StronglySorted (by_size fs) js → (∀ i j, by_size fs i j → f (size_of fs j) = true → f (size_of fs i) = true) →
  ∀ i j x y, (i ≤ j)%nat → js !! i = Some x → js !! j = Some y →
    f (size_of fs y) = true → f (size_of fs x) = true.
Proof.
  intros Hs Hf i j x y Hij Hx Hy. destruct (decide (i = j)) as [->|Hne]; [congruence|].
  apply Hf. eapply (StronglySorted_lookup_lt _ _ _ _ _ _ Hs Hx Hy). lia.
Qed.

Lemma size_window_ok {E} n ps js fs z :
  positions_ok n ps → positions_ok n js → StronglySorted (by_size fs) js → 0 ≤ z < 2 ^ 63 →
  returns (push_unique_size_window (E:=E) ps js fs (Some z)) (positions_ok n).
Proof.
  intros Hp Hj Hs Hz. unfold push_unique_size_window. cbv zeta.
  set (lower := div_ceil z _). set (upper := saturating_mul z _).
  assert (∀ x, x < lower → x ≤ upper) as Hlu.
  { unfold lower, upper, div_ceil, saturating_mul, MAX_SIZE_RATIO_USIZE, U64_MAX. intros x Hx.
    Z.to_euclidean_division_equations; lia. }
  step (returns_lift _ _ (partition_point_spec (λ i, size_of fs i <? lower) js
    (sorted_monotone fs js (λ x, x <? lower) Hs ltac:(unfold by_size; intros i j; rewrite !Z.ltb_lt; lia)))) as [Hst Hlo].
  step (returns_lift _ _ (partition_point_spec (λ i, size_of fs i <=? upper) js
    (sorted_monotone fs js (λ x, x <=? upper) Hs ltac:(unfold by_size; intros i j; rewrite !Z.leb_le; lia))))
    as [Hen Hhi].
  assert (a ≤ a0) as Hle.
  { destruct (Z.le_gt_cases a a0) as [|Hgt]; [done|exfalso].
    destruct (lookup_lt_is_Some_2 js (Z.to_nat a0)) as [x Hx]; [unfold zlen in *; lia|].
    specialize (Hlo _ _ Hx). specialize (Hhi _ _ Hx). rewrite Z2Nat.id, (proj2 (Z.ltb_lt a0 a)) in Hlo by lia.
    rewrite Z2Nat.id, (proj2 (Z.ltb_ge a0 a0)) in Hhi by lia. apply Z.ltb_lt in Hlo. apply Z.leb_gt in Hhi.
    specialize (Hlu _ Hlo). lia. }
  step (slice_returns js a a0) as ->; [lia..|]. apply push_unique_ok; [done|]. by apply Forall_sub_list.
Qed.

(** What the loader makes of the files of one side. *)
Definition file_good (n : Z) (f : CandidateFile) : Prop :=
  0 ≤ findex f < n ∧ short (cpath (fpath f)) ∧ (∃ z, size f = Some z ∧ 0 ≤ z < 2 ^ 63)
  ∧ ∀ c, content f = Some c → short c.

Record index_good (n : Z) (ix : AddedIndex) : Prop := {
  good_files : Forall (file_good n) (files ix);
  good_all : positions_ok (zlen (files ix)) (all_indices ix);
  good_basename : ∀ k js, by_basename ix !! k = Some js → positions_ok (zlen (files ix)) js;
  good_stem : ∀ k js, by_stem ix !! k = Some js → positions_ok (zlen (files ix)) js;
  good_extension : ∀ k js, by_extension ix !! k = Some js →
    positions_ok (zlen (files ix)) js ∧ StronglySorted (by_size (files ix)) js;
  good_size : positions_ok (zlen (files ix)) (sorted_by_size ix)
              ∧ StronglySorted (by_size (files ix)) (sorted_by_size ix)
}.

Lemma collect_positions_ok {E} n m d ix :
  file_good n d → index_good m ix →
  returns (collect_candidate_positions (E:=E) d ix) (positions_ok (zlen (files ix))).
Proof.
  intros (_ & _ & (z & Hz & Hzb) & _) Hix. unfold collect_candidate_positions. rewrite Hz.
  set (ps := push_unique_matches (push_unique_matches [] _) _).
  assert (positions_ok (zlen (files ix)) ps) as Hps.
  { apply push_unique_matches_ok; [apply push_unique_matches_ok; [constructor|]|].
    - intros js. by apply (good_basename m ix Hix).
    - intros js. by apply (good_stem m ix Hix). }
  clearbody ps.
  apply returns_bind. apply (returns_mono _ (positions_ok (zlen (files ix)))).
  { destruct (by_extension ix !! _) as [js|] eqn:Ej; [|done].
    destruct (good_extension m ix Hix _ _ Ej). by apply size_window_ok. }
  intros ps1 Hps1. apply returns_bind. apply (returns_mono _ (positions_ok (zlen (files ix)))).
  { destruct (bool_decide _); [|done]. destruct (good_size m ix Hix). by apply size_window_ok. }
  intros ps2 Hps2. destruct (bool_decide _); [|done]. apply Forall_app. split; [done|]. apply (good_all m ix Hix).
Qed.

(** ** The matching *)
Section matching.
Context {Oid St : Type} `{ObjectStore Oid St}.
Abbreviation leaf := (FlatLeaf Oid).
Abbreviation FlatTree := (gmap path leaf).
Abbreviation triple := (Z * Z * f64)%type.

Lemma only_in_elem (a b : FlatTree) p x :
  (p, x) ∈ only_in a b ↔ a !! p = Some x ∧ leaf_type x = EntryType.Blob ∧ b !! p = None.
Proof.
  unfold only_in. rewrite sort_by_perm, list_elem_of_filter, elem_of_map_to_list. cbn [fst snd]. tauto.
Qed.

Lemma only_in_nodup (a b : FlatTree) : NoDup (only_in a b).*1.
Proof.
  unfold only_in. rewrite sort_by_perm. apply NoDup_fmap_2_strong.
  - intros [p x] [q y] [_ Hp%elem_of_map_to_list]%list_elem_of_filter [_ Hq%elem_of_map_to_list]%list_elem_of_filter E.
    cbn in E. subst q. congruence.
  - apply NoDup_filter, NoDup_map_to_list.
Qed.

Context (deleted added : list (path * leaf)) (config : RenameMatcherConfig).
Context (deleted_nodup : NoDup deleted.*1) (added_nodup : NoDup added.*1).

Lemma get_nodup (l : list (path * leaf)) i j x y :
  NoDup l.*1 → get l i = Some x → get l j = Some y → x.1 = y.1 → i = j.
Proof.
  intros Hd Hx Hy E. unfold get in *. destruct (Z.leb_spec 0 i); [|done]. destruct (Z.leb_spec 0 j); [|done].
  assert (Z.to_nat i = Z.to_nat j); [|lia].
  eapply (NoDup_lookup l.*1 _ _ x.1); [done| |]; rewrite list_lookup_fmap.
  - by rewrite Hx.
  - rewrite Hy. by rewrite E.
Qed.

(** A pair is matched for equal contents or for its score. *)
Definition score_ok (d a : path * leaf) (sc : f64) : Prop :=
  (sc = F64.one ∧ hash d.2 = hash a.2) ∨ F64.ge sc (threshold config) = true.

(** The state of the matching after the pairs [ps]. *)
Record paired (m : Matching) (ps : list triple) : Prop := {
  paired_deleted : marks (zlen deleted) (used_deleted m) (map (λ p, p.1.1) ps);
  paired_added : marks (zlen added) (used_added m) (map (λ p, p.1.2) ps);
  paired_sources : NoDup (map (λ p, p.1.1) ps);
  paired_targets : NoDup (map (λ p, p.1.2) ps);
  paired_ends : ∀ i j sc, (i, j, sc) ∈ ps → ∃ d a,
    get deleted i = Some d ∧ get added j = Some a ∧ score_ok d a sc
    ∧ matches m !! d.1 = Some (rename_match d a sc);
  paired_only : ∀ k r, matches m !! k = Some r → ∃ i j sc d a,
    (i, j, sc) ∈ ps ∧ get deleted i = Some d ∧ get added j = Some a ∧ k = d.1 ∧ r = rename_match d a sc
}.

Lemma paired_new st :
  paired {| used_deleted := replicate (length deleted) false; used_added := replicate (length added) false;
            matches := ∅; stats := st |} [].
Proof.
  split; cbn.
  - pose proof (marks_new (zlen deleted) (zlen_nonneg _)) as Hm. unfold zlen in *. by rewrite Nat2Z.id in Hm.
  - pose proof (marks_new (zlen added) (zlen_nonneg _)) as Hm. unfold zlen in *. by rewrite Nat2Z.id in Hm.
  - constructor.
  - constructor.
  - by intros i j sc ?%elem_of_nil.
  - intros k r. by rewrite lookup_empty.
Qed.

Lemma paired_stats m ps st :
  paired m ps →
  paired {| used_deleted := used_deleted m; used_added := used_added m; matches := matches m; stats := st |} ps.
Proof. by intros []. Qed.

Lemma record_match_spec m ps i j d a sc st :
  paired m ps → get deleted i = Some d → get added j = Some a → score_ok d a sc →
  i ∉ map (λ p, p.1.1) ps → j ∉ map (λ p, p.1.2) ps →
  returns (record_match m i j (rename_match d a sc) st) (λ m', paired m' (ps ++ [(i, j, sc)])).
Proof.
  intros [Hd Ha Hs Ht He Ho] Hi Hj Hsc Hni Hnj. unfold record_match.
  pose proof (get_Some _ _ _ Hi) as Hir. pose proof (get_Some _ _ _ Hj) as Hjr.
  step (marks_set (zlen deleted) (used_deleted m) _ i Hd ltac:(lia)) as Hd'.
  step (marks_set (zlen added) (used_added m) _ j Ha ltac:(lia)) as Ha'.
  assert (∀ i' d', get deleted i' = Some d' → d'.1 = d.1 → i' = i) as Hkey
    by (intros i' d' Hi' Hk; by eapply (get_nodup deleted)).
  split; cbn [used_deleted used_added matches].
  - by rewrite map_app.
  - by rewrite map_app.
  - rewrite map_app. apply NoDup_app. split; [done|]. split; [|apply NoDup_singleton].
    intros x Hx ?%list_elem_of_singleton. by subst.
  - rewrite map_app. apply NoDup_app. split; [done|]. split; [|apply NoDup_singleton].
    intros x Hx ?%list_elem_of_singleton. by subst.
  - intros i' j' sc' [Hin|[= -> -> ->]%list_elem_of_singleton]%elem_of_app.
    + destruct (He _ _ _ Hin) as (d' & a' & Hi' & Hj' & Hsc' & Hm). exists d', a'.
      split; [done|]. split; [done|]. split; [done|]. rewrite lookup_insert_ne; [done|]. cbn. intros E.
      apply Hni. rewrite <- (Hkey i' d' Hi' (eq_sym E)). apply (list_elem_of_fmap_2 (λ p : triple, p.1.1) _ _ Hin).
    + exists d, a. split; [done|]. split; [done|]. split; [done|]. by rewrite lookup_insert_eq.
  - intros k r. rewrite lookup_insert_Some. intros [[<- <-]|[_ Hm]].
    + exists i, j, sc, d, a. split; [|done]. apply elem_of_app. right. by apply list_elem_of_singleton.
    + destruct (Ho k r Hm) as (i' & j' & sc' & d' & a' & Hin & ?). exists i', j', sc', d', a'.
      split; [|done]. apply elem_of_app. by left.
Qed.

Lemma index_get {E A} (l : list A) i x : get l i = Some x → index l i = Ok x :> exec E A.
Proof. unfold get, index. destruct (0 <=? i); [|done]. by intros ->. Qed.

Lemma unused_spec n used l js :
  marks n used l → positions_ok n js → unused used js = Ok (filter (λ j, j ∉ l) js).
Proof.
  intros Hm. induction 1 as [|j js Hj _ IH]; [done|]. cbn [unused]. rewrite (marks_index n used l j Hm Hj), bind_Ok, IH, bind_Ok.
  rewrite filter_cons. destruct (bool_decide_reflect (j ∈ l)), (decide (j ∉ l)); done.
Qed.

Lemma max_by_elem {A} (cmp : A → A → comparison) l :
  match max_by cmp l with Some x => x ∈ l | None => l = [] end.
Proof.
  destruct l as [|x l]; [done|]. cbn [max_by]. revert x. induction l as [|y l IH]; intros x; [by left|].
  cbn [fold_left]. destruct (cmp x y); specialize (IH y) as Hy; specialize (IH x) as Hx; rewrite !elem_of_cons in *; tauto.
Qed.

(** Equal contents on both sides leave one end matched. *)
Definition exact_done (m : list triple) (i : Z) : Prop :=
  ∀ d j a, get deleted i = Some d → get added j = Some a → hash d.2 = hash a.2 →
    i ∈ map (λ p, p.1.1) m ∨ j ∈ map (λ p, p.1.2) m.

Lemma exact_done_mono ps qs i : exact_done ps i → exact_done (ps ++ qs) i.
Proof.
  intros He d j a Hi Hj Hh. rewrite !map_app, !elem_of_app. destruct (He d j a Hi Hj Hh); tauto.
Qed.

Lemma match_exact_hashes_spec pre left m ps :
  deleted = pre ++ left → paired m ps → (∀ i, i ∈ map (λ p, p.1.1) ps → i < zlen pre) →
  (∀ i, 0 ≤ i < zlen pre → exact_done ps i) →
  returns (match_exact_hashes left (zlen pre) added (by_hash added) m) (λ m', ∃ qs,
    paired m' (ps ++ qs) ∧ ∀ i, 0 ≤ i < zlen deleted → exact_done (ps ++ qs) i).
Proof.
  revert pre m ps. induction left as [|d left IH]; intros pre m ps E Hp Hlt Hdone; cbn [match_exact_hashes].
  { exists []. rewrite !app_nil_r in *. subst pre. done. }
  assert (get deleted (zlen pre) = Some d) as Hd.
  { rewrite E. unfold get, zlen. rewrite (proj2 (Z.leb_le 0 _)), Nat2Z.id by lia. by apply list_lookup_middle. }
  assert (∀ m' qs, paired m' (ps ++ qs) → (∀ i, i ∈ map (λ p, p.1.1) qs → i = zlen pre) →
    exact_done (ps ++ qs) (zlen pre) →
    returns (match_exact_hashes left (zlen pre + 1) added (by_hash added) m') (λ m', ∃ qs,
      paired m' (ps ++ qs) ∧ ∀ i, 0 ≤ i < zlen deleted → exact_done (ps ++ qs) i)) as Hgo.
  { intros m' qs Hp' Hqs Hnew. replace (zlen pre + 1) with (zlen (pre ++ [d])) by zlia.
    eapply returns_mono; [apply (IH (pre ++ [d]) m' (ps ++ qs)); [by rewrite <- app_assoc|done| |]|].
    - intros i. rewrite map_app, elem_of_app, zlen_app. change (zlen [d]) with 1.
      intros [Hi|Hi]; [apply Hlt in Hi; lia|apply Hqs in Hi; lia].
    - intros i Hi. rewrite zlen_app in Hi. change (zlen [d]) with 1 in Hi. destruct (Z.eq_dec i (zlen pre)) as [->|]; [done|].
      apply exact_done_mono, Hdone. lia.
    - intros m'' (rs & Hr & Hr'). exists (qs ++ rs). by rewrite app_assoc. }
  destruct (by_hash added !! hash d.2) as [js|] eqn:Ej.
  - assert (∀ j, j ∈ js ↔ ∃ a, get added j = Some a ∧ hash a.2 = hash d.2) as Hjs.
    { intros j. unfold by_hash in Ej. rewrite (push_all_in (λ a : path * leaf, hash a.2) _ _ _ j Ej).
      setoid_rewrite enumerated_in. done. }
    assert (positions_ok (zlen added) js) as Hok.
    { apply Forall_forall. intros j (a & Ha & _)%Hjs. apply get_Some in Ha. lia. }
    rewrite (unused_spec (zlen added) _ _ js (paired_added _ _ Hp) Hok), bind_Ok.
    match goal with |- context [max_by ?c ?l] => pose proof (max_by_elem c l) as Hmax; destruct (max_by c l) as [j|] end.
    + apply list_elem_of_filter in Hmax as [Hnj Hj]. pose proof Hj as Hj'. apply Hjs in Hj' as (a & Ha & Hh).
      rewrite (index_get added j a Ha), bind_Ok. apply returns_bind.
      assert (zlen pre ∉ map (λ p, p.1.1) ps) as Hnin by (intros Hin%Hlt; lia).
      eapply returns_mono; [apply (record_match_spec m ps (zlen pre) j d a F64.one); try done; by left|].
      intros m' Hm'. apply (Hgo m' _ Hm'); [by intros i ?%list_elem_of_singleton|].
      intros d' j' a' _ _ _. left. rewrite map_app, elem_of_app. right. by apply list_elem_of_singleton.
    + rewrite bind_Ok. rewrite <- (app_nil_r ps) in Hp. apply (Hgo m [] Hp); [by intros i ?%elem_of_nil|].
      intros d' j a Hd' Ha Hh. rewrite Hd in Hd'. injection Hd' as <-. right. rewrite app_nil_r.
      destruct (decide (j ∈ map (λ p, p.1.2) ps)) as [|Hn]; [done|].
      assert (j ∈ filter (λ j, j ∉ map (λ p : triple, p.1.2) ps) js) as Hf
        by (apply list_elem_of_filter; split; [done|]; apply Hjs; by exists a).
      rewrite Hmax in Hf. by apply elem_of_nil in Hf.
  - rewrite bind_Ok. rewrite <- (app_nil_r ps) in Hp. apply (Hgo m [] Hp); [by intros i ?%elem_of_nil|].
    intros d' j a Hd' Ha Hh. rewrite Hd in Hd'. injection Hd' as <-. exfalso.
    unfold by_hash in Ej. apply (push_all_none (λ a : path * leaf, hash a.2) _ _ j a Ej); [|done]. by apply enumerated_in.
Qed.

(** The files that the exact pass left over. *)
Lemma remaining_spec n used l (full pre left : list (path * leaf)) :
  marks n used l → n = zlen full → full = pre ++ left →
  returns (remaining used (zlen pre) left) (λ es, Forall (λ e,
    (e.1.1 ∉ l) ∧ ∃ x, get full e.1.1 = Some x ∧ e.1.2 = x.1) es).
Proof.
  intros Hm -> . revert pre. induction left as [|x left IH]; intros pre E; [constructor|]. cbn [remaining].
  assert (get full (zlen pre) = Some x) as Hx.
  { rewrite E. unfold get, zlen. rewrite (proj2 (Z.leb_le 0 _)), Nat2Z.id by lia. by apply list_lookup_middle. }
  pose proof (get_Some _ _ _ Hx) as [Hr _].
  rewrite (marks_index _ used l _ Hm Hr), bind_Ok. replace (zlen pre + 1) with (zlen (pre ++ [x])) by zlia.
  step (IH (pre ++ [x]) ltac:(by rewrite <- app_assoc)) as Hes.
  destruct (bool_decide_reflect (zlen pre ∈ l)); [done|]. constructor; [|done]. split; [done|]. by exists x.
Qed.

Context (s : St).
Context (blobs_short : ∀ h b, get_blob s h = Ok (Some b) → short b).

Lemma load_candidate_files_settles n es load_content st :
  Forall (λ e : Z * path * list Z, 0 ≤ e.1.1 < n ∧ short e.1.2) es →
  settles (load_candidate_files s es load_content st)
    (λ r, Forall (file_good n) r.1 ∧ ∀ f, f ∈ r.1 → findex f ∈ map (λ e, e.1.1) es) (λ _, True).
Proof.
  intros He. revert st. induction He as [|[[i p] h] es [Hi Hp] _ IH]; intros st; cbn [load_candidate_files].
  { split; [constructor|]. by intros f ?%elem_of_nil. }
  unfold require_blob. pose proof (get_blob_answers s h) as Ha. destruct (get_blob s h) as [[b|]| | |] eqn:Eb; try done.
  rewrite bind_Ok. cbn [ok_or]. rewrite bind_Ok. pose proof (blobs_short h b Eb) as Hb.
  step (IH (count_load st (zlen b))) as [Hg Hin]; [|done]. destruct a as [fs st']. cbn [fst] in *. split.
  - constructor; [|done]. split; [done|]. split; [done|]. split.
    + exists (zlen b). split; [done|]. pose proof (zlen_nonneg b). unfold short in Hb. lia.
    + cbn. intros c Hc. destruct load_content; by simplify_eq.
  - intros f [-> |Hf]%elem_of_cons; [by left|]. right. by apply Hin.
Qed.

Lemma build_added_index_settles n es load_content st :
  Forall (λ e : Z * path * list Z, 0 ≤ e.1.1 < n ∧ short e.1.2) es →
  settles (build_added_index s es load_content st) (λ r, index_good n r.1) (λ _, True).
Proof.
  intros He. unfold build_added_index. step (load_candidate_files_settles n es load_content st He) as [Hg _]; [|done].
  destruct a as [fs st']. cbn [fst] in *.
  assert (∀ j f, (j, f) ∈ imap (λ i f, (Z.of_nat i, f)) fs → 0 ≤ j < zlen fs) as Hr.
  { intros j f Hj%enumerated_in. apply get_Some in Hj. lia. }
  assert (∀ K `{Countable K} (key : CandidateFile → K) k js,
    fold_left (λ m p, push_to m (key p.2) p.1) (imap (λ i f, (Z.of_nat i, f)) fs) ∅ !! k = Some js →
    positions_ok (zlen fs) js) as Hpush.
  { intros K ? ? key k js E. apply Forall_forall. intros j Hj. rewrite (push_all_in key _ k js j E) in Hj.
    destruct Hj as (f & Hf & _). by eapply Hr. }
  assert (positions_ok (zlen fs) (map fst (imap (λ i f, (Z.of_nat i, f)) fs))) as Hall.
  { apply Forall_forall. intros j ([j' f] & -> & Hf)%list_elem_of_fmap. by eapply Hr. }
  split; cbn.
  - done.
  - done.
  - intros k js. apply (Hpush _ _ _ (λ f, basename (fpath f))).
  - intros k js. apply (Hpush _ _ _ (λ f, stem (fpath f))).
  - intros k js. rewrite lookup_fmap_Some. intros (js' & <- & E). split; [|apply sort_by_size_sorted].
    unfold sort_by_size, positions_ok. rewrite sort_by_perm. by apply (Hpush _ _ _ (λ f, extension (fpath f)) k).
  - split; [|apply sort_by_size_sorted]. unfold sort_by_size, positions_ok. by rewrite sort_by_perm.
Qed.

Context (similarity : similarity_bounded config).

(** A candidate of the index. *)
Definition candidate_good (ix : RenameCandidateIndex) : Prop :=
  source_count ix = zlen deleted ∧ target_count ix = zlen added
  ∧ Forall (λ c, in_range (zlen deleted) (zlen added) c ∧ F64.ge (score c) (threshold config) = true) (candidates ix).

Lemma pair_score_below use_content d a st :
  file_good (zlen deleted) d → file_good (zlen added) a →
  returns (pair_score config use_content d a st) (λ r, F64.below 90 r.1).
Proof.
  intros (_ & Hd & _ & Hdc) (_ & Ha & _ & Hac). unfold pair_score.
  pose proof (path_similarity_below _ _ Hd Ha) as Hps. destruct (negb use_content).
  { cbn. by apply (F64.below_le 72). }
  destruct (content d) as [from|]; destruct (content a) as [to|].
  - apply composite_score_below; [done|by apply Hac|done].
  - apply (F64.below_le (72 + 1 + 1)); [lia|]. apply F64.mul_below; [done|by vm_compute|lia].
  - apply (F64.below_le (72 + 1 + 1)); [lia|]. apply F64.mul_below; [done|by vm_compute|lia].
  - apply (F64.below_le (72 + 1 + 1)); [lia|]. apply F64.mul_below; [done|by vm_compute|lia].
Qed.

Lemma push_good ix d a sc :
  candidate_good ix → 0 ≤ findex d < zlen deleted → 0 ≤ findex a < zlen added → F64.below 90 sc →
  F64.ge sc (threshold config) = true →
  returns (push (E:=MergeError) ix (findex d) (findex a) sc) candidate_good.
Proof.
  intros (Hs & Ht & Hc) Hd Ha Hb Hge. unfold push. rewrite Hs, Ht, !(proj2 (Z.ltb_lt _ _)) by lia.
  rewrite (F64.below_finite _ _ Hb). split; [done|]. split; [done|]. cbn. apply Forall_app. split; [done|]. constructor; [by split|constructor].
Qed.

Lemma score_positions_spec use_content used l d ix ps cs st :
  marks (zlen added) used l → file_good (zlen deleted) d → index_good (zlen added) ix →
  positions_ok (zlen (files ix)) ps → candidate_good cs →
  returns (score_positions config use_content used d ix ps cs st) (λ r, candidate_good r.1).
Proof.
  intros Hm Hd Hix Hps. revert cs st. induction Hps as [|p ps Hp _ IH]; intros cs st Hcs; cbn [score_positions]; [done|].
  destruct (get_is_Some (files ix) p Hp) as [a Ha]. rewrite (index_get _ _ _ Ha), bind_Ok.
  assert (file_good (zlen added) a) as Hga.
  { apply get_Some in Ha as [_ Ha]. eapply Forall_lookup_1; [apply (good_files _ _ Hix)|exact Ha]. }
  destruct Hga as [Hra Hga]. rewrite (marks_index _ used l _ Hm Hra), bind_Ok. apply returns_bind.
  eapply (returns_mono _ (λ r, candidate_good r.1)); [|intros [cs' st'] Hcs'; by apply IH].
  destruct (bool_decide _); [done|]. step (pair_score_below use_content d a _ Hd (conj Hra Hga)) as Hsc.
  destruct a0 as [sc st']. cbn [fst] in Hsc. cbv zeta. destruct (F64.ge sc _) eqn:Ege; [|done].
  step (push_good cs d a sc) as Hc; [done|apply Hd|done..|]. done.
Qed.

Lemma score_files_spec use_content used l ds ix cs st :
  marks (zlen added) used l → Forall (file_good (zlen deleted)) ds → index_good (zlen added) ix →
  candidate_good cs →
  returns (score_files config use_content used ds ix cs st) (λ r, candidate_good r.1).
Proof.
  intros Hm Hds Hix. revert cs st. induction Hds as [|d ds Hd _ IH]; intros cs st Hcs; cbn [score_files]; [done|].
  step (collect_positions_ok (E:=MergeError) _ _ d ix Hd Hix) as Hps.
  step (score_positions_spec use_content used l d ix a cs st Hm Hd Hix Hps Hcs) as Hc. destruct a0 as [cs' st'].
  by apply IH.
Qed.

Lemma record_assignments_spec cs m ps :
  paired m ps →
  Forall (λ c, in_range (zlen deleted) (zlen added) c ∧ F64.ge (score c) (threshold config) = true) cs →
  returns (record_assignments deleted added cs m) (λ m', ∃ qs, paired m' (ps ++ qs)).
Proof.
  intros Hp Hcs. revert m ps Hp. induction Hcs as [|c cs [[Hs Ht] Hge] _ IH]; intros m ps Hp; cbn [record_assignments].
  { exists []. by rewrite app_nil_r. }
  rewrite (marks_index _ _ _ _ (paired_deleted _ _ Hp) Hs), bind_Ok.
  rewrite (marks_index _ _ _ _ (paired_added _ _ Hp) Ht), bind_Ok.
  destruct (bool_decide_reflect (source_index c ∈ map (λ p, p.1.1) ps)) as [|Hns]; [by apply IH|].
  destruct (bool_decide_reflect (target_index c ∈ map (λ p, p.1.2) ps)) as [|Hnt]; [by apply IH|]. cbn [orb].
  destruct (get_is_Some deleted _ Hs) as [d Hd], (get_is_Some added _ Ht) as [a Ha].
  rewrite (index_get _ _ _ Hd), bind_Ok, (index_get _ _ _ Ha), bind_Ok.
  step (record_match_spec m ps (source_index c) (target_index c) d a (score c) (stats m) Hp Hd Ha) as Hm';
    [by right|done|done|].
  eapply returns_mono; [by apply IH|]. intros m' (qs & Hq). eexists. by rewrite <- app_assoc in Hq.
Qed.
End matching.

Section detected.
Context {Oid St : Type} `{ObjectStore Oid St}.
Abbreviation leaf := (FlatLeaf Oid).
Abbreviation FlatTree := (gmap path leaf).

(** What detection promises of the renames it reports from one flat tree to
    another. *)
Record renames_ok (config : RenameMatcherConfig) (base branch : FlatTree) (ms : gmap path RenameMatch) : Prop := {
  (** From a file that is gone to a file that is new, with their data. *)
  rename_ends : ∀ k r, ms !! k = Some r → ∃ d a,
    base !! k = Some d ∧ branch !! k = None ∧ branch !! to_path r = Some a ∧ base !! to_path r = None
    ∧ leaf_type d = EntryType.Blob ∧ leaf_type a = EntryType.Blob
    ∧ r = rename_match (k, d) (to_path r, a) (match_score r)
    ∧ score_ok config (k, d) (to_path r, a) (match_score r);
  (** No two files are renamed to one. *)
  rename_inj : ∀ k k' r r', ms !! k = Some r → ms !! k' = Some r' → to_path r = to_path r' → k = k';
  (** Of a file that is gone and a file that is new with the same content, one
      takes part in a rename. *)
  rename_exact : ∀ p d q a, base !! p = Some d → branch !! p = None → branch !! q = Some a → base !! q = None →
    leaf_type d = EntryType.Blob → leaf_type a = EntryType.Blob → hash d = hash a →
    is_Some (ms !! p) ∨ ∃ k r, ms !! k = Some r ∧ to_path r = q
}.

Lemma get_elem {A} (l : list A) i x : get l i = Some x → x ∈ l.
Proof. intros [_ Hx]%get_Some. by eapply list_elem_of_lookup_2. Qed.

Lemma elem_get {A} (l : list A) x : x ∈ l → ∃ i, get l i = Some x.
Proof.
  intros [i Hi]%list_elem_of_lookup. exists (Z.of_nat i). unfold get.
  by rewrite (proj2 (Z.leb_le 0 _)), Nat2Z.id by lia.
Qed.

Lemma paired_ok (config : RenameMatcherConfig) (base branch : FlatTree) (m : Matching) ps :
  paired (only_in base branch) (only_in branch base) config m ps →
  (∀ i, 0 ≤ i < zlen (only_in base branch) → exact_done (only_in base branch) (only_in branch base) ps i) →
  renames_ok config base branch (matches m).
Proof.
  intros Hp Hex. pose proof (only_in_nodup base branch) as Hdn. pose proof (only_in_nodup branch base) as Han. split.
  - intros k r Hk. destruct (paired_only _ _ _ _ _ Hp k r Hk) as (i & j & sc & d & a & Hin & Hi & Hj & -> & ->).
    destruct (paired_ends _ _ _ _ _ Hp i j sc Hin) as (d' & a' & Hi' & Hj' & Hsc & _). simplify_eq.
    destruct d as [p d], a as [q a]. apply get_elem, only_in_elem in Hi as (? & ? & ?), Hj as (? & ? & ?).
    exists d, a. by repeat split.
  - intros k k' r r' Hk Hk' E.
    destruct (paired_only _ _ _ _ _ Hp k r Hk) as (i & j & sc & d & a & Hin & Hi & Hj & -> & ->).
    destruct (paired_only _ _ _ _ _ Hp k' r' Hk') as (i' & j' & sc' & d' & a' & Hin' & Hi' & Hj' & -> & ->).
    cbn in E. assert (j = j') as <- by (by eapply (get_nodup (only_in branch base))).
    apply list_elem_of_lookup in Hin as [x Hx], Hin' as [y Hy].
    assert (x = y) as <-.
    { eapply (NoDup_lookup _ _ _ j (paired_targets _ _ _ _ _ Hp)); rewrite list_lookup_fmap; [by rewrite Hx|by rewrite Hy]. }
    congruence.
  - intros p d q a Hd Hdn' Ha Han' Hdt Hat Hh.
    destruct (elem_get (only_in base branch) (p, d)) as [i Hi]; [by apply only_in_elem|].
    destruct (elem_get (only_in branch base) (q, a)) as [j Hj]; [by apply only_in_elem|].
    pose proof (get_Some _ _ _ Hi) as [Hir _].
    destruct (Hex i Hir (p, d) j (q, a) Hi Hj Hh) as [Hin|Hin]; apply list_elem_of_fmap in Hin as ([[i' j'] sc] & E & Hin);
      cbn in E; subst; destruct (paired_ends _ _ _ _ _ Hp _ _ _ Hin) as (d' & a' & Hi' & Hj' & _ & Hm); simplify_eq.
    + left. by eexists.
    + right. by eexists _, _.
Qed.

Lemma renames_ok_empty (config : RenameMatcherConfig) (base branch : FlatTree) :
  only_in base branch = [] ∨ only_in branch base = [] → renames_ok config base branch ∅.
Proof.
  intros He. split.
  - intros k r. by rewrite lookup_empty.
  - intros k k' r r'. by rewrite lookup_empty.
  - intros p d q a Hd Hdn Ha Han Hdt Hat Hh. exfalso.
    assert ((p, d) ∈ only_in base branch) as H1 by (by apply only_in_elem).
    assert ((q, a) ∈ only_in branch base) as H2 by (by apply only_in_elem).
    destruct He as [E|E]; rewrite E in *; by eapply not_elem_of_nil.
Qed.

Lemma remaining_short l used (full : list (path * leaf)) :
  marks (zlen full) used l → (∀ p x, (p, x) ∈ full → short p) →
  returns (remaining used 0 full) (Forall (λ e, 0 ≤ e.1.1 < zlen full ∧ short e.1.2)).
Proof.
  intros Hm Hs. eapply returns_mono; [by apply (remaining_spec _ used l full [] full Hm)|].
  intros es Hes. eapply Forall_impl; [exact Hes|]. intros e (_ & [p x] & Hx & ->). split.
  - by apply get_Some in Hx as [? _].
  - by apply get_elem, Hs in Hx.
Qed.

(** Rename detection always answers, with a storage error or with renames that
    are sound: each leads from a file that is gone to a file that is new and
    carries the data of both; no file takes part in two renames; a pair is
    matched for equal contents or for a score at the threshold; and equal
    contents never stay unmatched on both sides.  It never panics: every index is
    in range and every score that is compared is finite, given that the
    similarity hook is bounded and that strings and blobs have fewer than 2^63
    bytes. *)
Theorem detect_renames_sound (s : St) (base branch : FlatTree) (config : RenameMatcherConfig) :
  (∀ h b, get_blob s h = Ok (Some b) → short b) →
  (∀ p x, base !! p = Some x ∨ branch !! p = Some x → short p) →
  similarity_bounded config →
  settles (detect_renames_with_stats s base branch config)
    (λ '(ms, st), renames_ok config base branch ms ∧ (only_in base branch ≠ [] ∧ only_in branch base ≠ [] →
                  matched_pairs st = Z.of_nat (base.size ms))) (λ _, True).
Proof.
  intros Hblobs Hshort Hsim. unfold detect_renames_with_stats.
  pose proof (only_in_nodup base branch) as Hdn. pose proof (only_in_nodup branch base) as Han.
  assert (∀ p x, (p, x) ∈ only_in base branch ∨ (p, x) ∈ only_in branch base → short p) as Hsp.
  { intros p x [Hx|Hx]; apply only_in_elem in Hx as [Hx _]; eapply Hshort; eauto. }
  pose proof (λ ms ps, paired_ok config base branch ms ps) as Hok.
  pose proof (renames_ok_empty config base branch) as Hempty.
  set (deleted := only_in base branch) in *. set (added := only_in branch base) in *. clearbody deleted added.
  cbv zeta. destruct (bool_decide_reflect (deleted = [])) as [E|Hd0]; cbn [orb].
  { split; [by apply Hempty; left|]. by intros [? _]. }
  destruct (bool_decide_reflect (added = [])) as [E|Ha0].
  { split; [by apply Hempty; right|]. by intros [_ ?]. }
  match goal with |- context [match_exact_hashes _ _ _ _ {| used_deleted := _; stats := ?st |}] => set (st0 := st) end.
  step (match_exact_hashes_spec deleted added config Hdn [] deleted _ [] eq_refl
    (paired_new deleted added config st0)) as (ps & Hp & Hex); [by intros i ?%elem_of_nil|intros i [Hi1 Hi2]; exfalso; change (i < 0) in Hi2; lia|].
  rewrite app_nil_l in Hp, Hex. rename a into m. clearbody st0.
  step (remaining_short _ _ deleted (paired_deleted _ _ _ _ _ Hp)) as Hrd; [eauto|]. rename a into rd.
  step (remaining_short _ _ added (paired_added _ _ _ _ _ Hp)) as Hra; [eauto|]. rename a into ra.
  destruct (_ || _); [split; [by eapply Hok|done]|].
  set (use_content := _ <=? _). clearbody use_content.
  step (load_candidate_files_settles s Hblobs (zlen deleted) rd use_content (set_used_content (stats m) use_content) Hrd)
    as [Hfd _]; [|done]. destruct a as [fs st1]. cbn [fst] in Hfd.
  step (build_added_index_settles s Hblobs (zlen added) ra use_content st1 Hra) as Hix; [|done].
  destruct a as [ix st2]. cbn [fst] in Hix.
  assert (candidate_good deleted added config (index_new (zlen deleted) (zlen added))) as Hnew by (split; [done|]; by split).
  step (score_files_spec deleted added config Hsim use_content _ _ fs ix _ st2 (paired_added _ _ _ _ _ Hp) Hfd Hix Hnew)
    as Hc. destruct a as [cs st3]. cbn [fst] in Hc. destruct Hc as (Hcs & Hct & Hc).
  unfold assign. rewrite Hcs, Hct.
  assert (sort_by compare_candidates (candidates cs) ≡ₚ candidates cs) as Hperm by apply sort_by_perm.
  step (assign_loop_spec (E:=MergeError) (zlen deleted) (zlen added) (sort_by compare_candidates (candidates cs)) _ _ []
    (marks_new _ (zlen_nonneg _)) (marks_new _ (zlen_nonneg _))) as ((new & -> & Hsub) & _).
  { rewrite Hperm. eapply Forall_impl; [exact Hc|]. by intros c []. }
  { apply sorted_candidates. }
  { constructor. }
  { constructor. }
  step (record_assignments_spec deleted added config Hdn new _ ps (paired_stats _ _ _ _ _ st3 Hp)) as (qs & Hq).
  { rewrite <- Hperm in Hc. rewrite Forall_forall in *. intros c Hcin. apply Hc. by eapply sublist_subseteq. }
  split; [|done]. apply (Hok _ _ Hq). intros i Hi. by apply exact_done_mono, Hex.
Qed.
End detected.

(** ** Examples *)
Module Samples.
Import Memory.

Definition sample_index : RenameCandidateIndex :=
  let c s t p q := {| source_index := s; target_index := t; score := F64.literal p q |} in
  {| source_count := 3; target_count := 3;
     candidates := [c 2 0 9 10; c 0 2 9 10; c 0 0 9 10; c 1 1 8 10; c 2 2 7 10] |}.

Example sample_assignment :
  match assign (E:=Empty_set) sample_index with Ok out => map pair_of out | _ => [] end = [(0, 0); (1, 1); (2, 2)].
Proof. vm_compute. reflexivity. Qed.

Lemma assign_greedy_witness :
  ∃ out, assign (E:=Empty_set) sample_index = Ok out
    ∧ NoDup (source_index <$> out) ∧ NoDup (target_index <$> out)
    ∧ (∀ c, c ∈ out → c ∈ candidates sample_index)
    ∧ (∀ c, c ∈ candidates sample_index → ∃ c', c' ∈ out ∧ clash c' c ∧ no_later c' c)
    ∧ ∀ ix', source_count ix' = source_count sample_index → target_count ix' = target_count sample_index →
        candidates ix' ≡ₚ candidates sample_index →
        ∃ out', assign (E:=Empty_set) ix' = Ok out' ∧ map pair_of out' = map pair_of out.
Proof.
  apply (assign_greedy (E:=Empty_set) sample_index); [vm_compute; congruence..|].
  repeat constructor; vm_compute; congruence.
Defined.

(** [d/x.txt] moves to [e/x.txt] unchanged; [y.rs] becomes [z.rs] with an edit. *)
Definition text (edit : Z) : list Z := flat_map (λ i, [97 + i; 98 + i; 99 + i; 10]) (seqZ 0 12) ++ [edit].
Definition sample_blobs : MemStore := {| blobs := [[120; 10]; text 1; text 2]; trees := [] |}.
Definition sample_from : gmap path (FlatLeaf bool) :=
  {[ [100; 47; 120; 46; 116; 120; 116] := flat_blob [0] false; [121; 46; 114; 115] := flat_blob [1] true ]}.
Definition sample_to : gmap path (FlatLeaf bool) :=
  {[ [101; 47; 120; 46; 116; 120; 116] := flat_blob [0] false; [122; 46; 114; 115] := flat_blob [2] true ]}.
Definition sample_config : RenameMatcherConfig := {| threshold := DEFAULT_THRESHOLD; semantic_similarity := None |}.

Example sample_detection :
  match detect_renames sample_blobs sample_from sample_to sample_config with
  | Ok ms => map (λ p, (p.1, to_path p.2)) (map_to_list ms)
  | _ => []
  end = [([100; 47; 120; 46; 116; 120; 116], [101; 47; 120; 46; 116; 120; 116]);
         ([121; 46; 114; 115], [122; 46; 114; 115])].
Proof. vm_compute. reflexivity. Qed.

Lemma detect_renames_sound_witness :
  settles (detect_renames_with_stats sample_blobs sample_from sample_to sample_config)
    (λ '(ms, st), renames_ok sample_config sample_from sample_to ms
       ∧ (only_in sample_from sample_to ≠ [] ∧ only_in sample_to sample_from ≠ [] →
          matched_pairs st = Z.of_nat (base.size ms))) (λ _, True).
Proof.
  apply (detect_renames_sound sample_blobs sample_from sample_to sample_config).
  - intros h b [= E]. assert (Forall short (blobs sample_blobs)) as Hs by (repeat constructor; vm_compute; congruence).
    unfold stored, get in E. destruct h as [|i [|? ?]]; try done. destruct (0 <=? i); [|done].
    eapply Forall_lookup_1; [exact Hs|exact E].
  - intros p x Hx. unfold sample_from, sample_to in Hx.
    rewrite !lookup_insert_Some, !lookup_singleton_Some in Hx.
    assert (∀ q, q = p → short q → short p) as Hq by (by intros q ->).
    destruct Hx as [[[E _]|[_ [E _]]]|[[E _]|[_ [E _]]]]; (eapply Hq; [exact E|vm_compute; congruence]).
  - intros f [=].
Defined.
End Samples.
End RenameMatch.
