(* ===== verification/RenameMerge.v ===== *)
(** * Tree merge with renames ([crates/merge/src/tree_merge/executor.rs], [engine.rs], [renames/mod.rs])

    Module [RenameMerge] models the merge that runs when a side renamed files:
    the three trees are flattened, the renames of both sides are applied, the
    remaining paths merge leaf by leaf and the nested trees are rebuilt.  The
    iteration order of a [HashMap] is a parameter, any permutation of the keys.
    [merge_trees] chooses between this merge and the recursive one of
    [TreeMerge]. *)

From S2P Require Import Prelude.
From S2P Require Import Text.
From S2P Require Import F64.
From S2P Require Import Merge.
From S2P Require Import Trees.
From S2P Require Import ObjectStore.
From S2P Require Import TreeMerge.
From S2P Require Import RenameMatch.
Import Trees.
Import TreeMerge (MergeStrategy, ConflictLabels, HunkOnly, Semantic, union_executable, format_conflict_content).
Import RenameMatch.

Module RenameMerge.

Abbreviation path := (list Z).
Abbreviation ascii := Text.ascii_bytes.
(** The arrow of the messages, U+2192. *)
Definition ARROW : list Z := [226; 134; 146].

(** [EntryType] with [{:?}] *)
Definition debug_type (t : EntryType.t) : list Z :=
  match t with
  | EntryType.Blob => ascii "Blob"
  | EntryType.Tree => ascii "Tree"
  | EntryType.Symlink => ascii "Symlink"
  | EntryType.Gitlink => ascii "Gitlink"
  | EntryType.Spoollink => ascii "Spoollink"
  end.

Definition merge_executable_values (base our their : bool) : bool :=
  if Bool.eqb our their then our
  else if Bool.eqb our base then their
  else if Bool.eqb their base then our
  else union_executable our their.

Section rename_merge.
Context {Oid St : Type} `{ObjectStore Oid St}.
Abbreviation entry := (TreeEntry Oid).
Abbreviation tree := (Tree Oid).
Abbreviation leaf := (FlatLeaf Oid).
Abbreviation FlatTree := (gmap path leaf).
Context (blake3 : list Z → list Z).
Context (diff : list Merge.line → list Merge.line → list Merge.DiffOp).
Context (load_blob : list Z → path → mres (list Z)).
Context (oid_text : Oid → list Z).
Context (semantic_merge : option TreeMerge.SemanticMergeFn).
Context (labels : ConflictLabels).
(** The orders in which maps and sets are walked: the renames of a side, the
    paths, the leaves and the directories of a flat tree at some depth. *)
Context (order : path → list path → list path).

(** The renames of both sides, by base path ([MergeRenameMap]). *)
Record MergeRenameMap := { our_renames : gmap path RenameMatch; their_renames : gmap path RenameMatch }.

Definition merge_executable (base our their : leaf) : bool :=
  merge_executable_values (executable base) (executable our) (executable their).

Definition merge_entry_type (base our their : leaf) : option EntryType.t :=
  if bool_decide (leaf_type our = leaf_type their) then Some (leaf_type our)
  else if bool_decide (leaf_type our = leaf_type base) then Some (leaf_type their)
  else if bool_decide (leaf_type their = leaf_type base) then Some (leaf_type our)
  else None.

Definition leaf_from_rename (r : RenameMatch) : leaf :=
  {| hash := to_hash r; leaf_type := to_entry_type r; executable := to_executable r; opaque := None |}.

Definition leaf_to_tree_entry (n : list Z) (l : leaf) : mres entry :=
  match leaf_type l with
  | EntryType.Blob => TreeMerge.file n (hash l) (executable l)
  | EntryType.Symlink => with_tree_error (new_entry n (TreeEntryTarget.Symlink (hash l)))
  | EntryType.Gitlink =>
      match opaque l with
      | Some (OpaqueGitlink target) => with_tree_error (new_entry n (TreeEntryTarget.Gitlink target))
      | _ => Err (Internal "flat Gitlink leaf has no Git target")
      end
  | EntryType.Spoollink =>
      match opaque l with
      | Some (OpaqueSpoollink spool_id state_id) =>
          with_tree_error (new_entry n (TreeEntryTarget.Spoollink spool_id state_id))
      | _ => Err (Internal "flat Spoollink leaf has no spool target")
      end
  | EntryType.Tree => Err (Internal "flat merge leaf has tree entry type")
  end.

Definition is_blob_leaf (l : leaf) : bool := bool_decide (leaf_type l = EntryType.Blob).

Definition resolve_merged_leaf (h : list Z) (our their : leaf) (content_was_merged : bool) : leaf :=
  if negb content_was_merged && bool_decide (leaf_type our = leaf_type their)
     && bool_decide (leaf_type our = EntryType.Symlink)
  then flat_symlink h
  else if negb content_was_merged && bool_decide (leaf_type our = leaf_type their)
          && bool_decide (leaf_type our = EntryType.Blob)
  then flat_blob h (union_executable (executable our) (executable their))
  else flat_blob h (union_executable (is_blob_leaf our && executable our) (is_blob_leaf their && executable their)).

(** The state of the merge: the store, the merged leaves, the conflicts and the
    claimed paths. *)
Record Merging := {
  store : St; merged_flat : FlatTree; conflicts : list path; claimed_paths : gset path
}.

Definition put_leaf (m : Merging) (p : path) (l : leaf) : Merging :=
  {| store := store m; merged_flat := <[p := l]> (merged_flat m); conflicts := conflicts m;
     claimed_paths := claimed_paths m |}.
Definition claim (m : Merging) (p : path) : Merging :=
  {| store := store m; merged_flat := merged_flat m; conflicts := conflicts m;
     claimed_paths := {[p]} ∪ claimed_paths m |}.
Definition report (m : Merging) (c : path) : Merging :=
  {| store := store m; merged_flat := merged_flat m; conflicts := conflicts m ++ [c];
     claimed_paths := claimed_paths m |}.
(** After a content merge. *)
Definition with_content (m : Merging) (s : St) (cs : list path) : Merging :=
  {| store := s; merged_flat := merged_flat m; conflicts := cs; claimed_paths := claimed_paths m |}.

Abbreviation content_merge := (TreeMerge.three_way_content_merge diff load_blob semantic_merge labels).
Abbreviation content_conflict := (TreeMerge.content_conflict_merge load_blob labels).

Definition modify_delete_conflict_merge (s : St) (kept_hash : list Z) (p : path) (cs : list path)
  : mres (St * list path * list Z) :=
  kept_content ← load_blob kept_hash p;
  '(s, h) ← put_blob s (format_conflict_content kept_content [] labels);
  Ok (s, cs ++ [p], h).

(** The rest of the body once the renames of both sides do not disagree. *)
Definition follow_rename (opposing_renames : gmap path RenameMatch) (opposing_flat : FlatTree)
    (base_path : path) (rename : RenameMatch) (m : Merging) : mres Merging :=
  let m := claim (claim m base_path) (to_path rename) in
  match opposing_flat !! base_path with
  | Some opposing =>
      if bool_decide (hash opposing ≠ from_hash rename) then
        '(s, cs, merged_hash) ←
          content_merge (store m) (from_hash rename) (to_hash rename) (hash opposing) (to_path rename) (conflicts m);
        Ok (put_leaf (with_content m s cs) (to_path rename)
              (resolve_merged_leaf merged_hash (leaf_from_rename rename) opposing true))
      else
        let l := leaf_from_rename rename in
        let l :=
          if is_blob_leaf l then
            {| hash := hash l; leaf_type := leaf_type l; opaque := opaque l;
               executable := merge_executable_values (from_executable rename) (executable l)
                               (executable opposing) |}
          else l in
        Ok (put_leaf m (to_path rename) l)
  | None =>
      let m :=
        if bool_decide (opposing_renames !! base_path = None) then
          report m (ascii "rename/delete conflict: " ++ base_path ++ ascii " renamed to " ++ to_path rename
                    ++ ascii " but deleted on other side")
        else m in
      Ok (put_leaf m (to_path rename) (leaf_from_rename rename))
  end.

(** The body of the loop of [apply_renames]. *)
Definition apply_rename (opposing_renames : gmap path RenameMatch) (opposing_flat : FlatTree)
    (base_path : path) (rename : RenameMatch) (m : Merging) : mres Merging :=
  match opposing_renames !! base_path with
  | Some opposing_rename =>
      if bool_decide (to_path rename ≠ to_path opposing_rename) then
        let m := report m (ascii "rename/rename conflict: " ++ base_path ++ ascii " " ++ ARROW ++ ascii " "
                           ++ to_path rename ++ ascii " vs " ++ to_path opposing_rename) in
        let m := put_leaf m (to_path rename) (leaf_from_rename rename) in
        let m := put_leaf m (to_path opposing_rename) (leaf_from_rename opposing_rename) in
        Ok (claim (claim (claim m base_path) (to_path rename)) (to_path opposing_rename))
      else follow_rename opposing_renames opposing_flat base_path rename m
  | None => follow_rename opposing_renames opposing_flat base_path rename m
  end.

Fixpoint apply_renames (active : list (path * RenameMatch)) (opposing_renames : gmap path RenameMatch)
    (opposing_flat : FlatTree) (m : Merging) : mres Merging :=
  match active with
  | [] => Ok m
  | (base_path, rename) :: active =>
      m ← apply_rename opposing_renames opposing_flat base_path rename m;
      apply_renames active opposing_renames opposing_flat m
  end.

(** Both sides added the path. *)
Definition merge_added_leaves (our their : leaf) (p : path) (m : Merging) : mres Merging :=
  if bool_decide (our = their) then Ok (put_leaf m p our)
  else if bool_decide (opaque our = None) && bool_decide (opaque their = None)
          && bool_decide (hash our = hash their) && bool_decide (leaf_type our = leaf_type their) then
    Ok (put_leaf m p {| hash := hash our; leaf_type := leaf_type our;
                        executable := union_executable (executable our) (executable their); opaque := None |})
  else if bool_decide (opaque our ≠ None) || bool_decide (opaque their ≠ None) then
    Ok (put_leaf (report m (ascii "non-content leaf conflict at " ++ p
                            ++ ascii ": both sides added incompatible " ++ debug_type (leaf_type our)
                            ++ ascii " entries")) p our)
  else
    '(s, cs, merged_hash) ← content_conflict (store m) (hash our) (hash their) p (conflicts m);
    Ok (put_leaf (with_content m s cs) p (resolve_merged_leaf merged_hash our their true)).

(** One side deleted the path; [side] names the one that kept it. *)
Definition merge_kept_leaf (side : list Z) (base kept : leaf) (p : path) (m : Merging) : mres Merging :=
  if bool_decide (hash kept ≠ hash base) || bool_decide (leaf_type kept ≠ leaf_type base)
     || negb (Bool.eqb (executable kept) (executable base)) then
    if bool_decide (opaque kept ≠ None) || bool_decide (opaque base ≠ None) then
      Ok (put_leaf (report m (ascii "modify/delete conflict at " ++ p ++ ascii ": " ++ debug_type (leaf_type kept)
                              ++ ascii " entry was modified on " ++ side ++ ascii " side")) p kept)
    else
      '(s, cs, merged_hash) ← modify_delete_conflict_merge (store m) (hash kept) p (conflicts m);
      Ok (put_leaf (with_content m s cs) p
            {| hash := merged_hash; leaf_type := EntryType.Blob;
               executable := is_blob_leaf kept && executable kept; opaque := None |})
  else Ok m.

Definition selected_content_matches_type (merged_type : option EntryType.t) (merged_hash : list Z)
    (our their : leaf) : bool :=
  match merged_type with
  | None => true
  | Some t =>
      (bool_decide (hash our = merged_hash) && bool_decide (leaf_type our = t))
      || (bool_decide (hash their = merged_hash) && bool_decide (leaf_type their = t))
  end.

(** The path is on all three sides. *)
Definition merge_present_leaves (base our their : leaf) (p : path) (m : Merging) : mres Merging :=
  if bool_decide (our = their) then Ok (put_leaf m p our)
  else if bool_decide (our = base) then Ok (put_leaf m p their)
  else if bool_decide (their = base) then Ok (put_leaf m p our)
  else if bool_decide (opaque our ≠ None) || bool_decide (opaque their ≠ None) || bool_decide (opaque base ≠ None)
  then
    Ok (put_leaf (report m (ascii "non-content leaf conflict at " ++ p ++ ascii ": " ++ debug_type (leaf_type our)
                            ++ ascii " changed incompatibly")) p our)
  else
    '(s, cs, merged_hash, content_was_merged) ←
      (if bool_decide (hash our = hash their) then Ok (store m, conflicts m, hash our, false)
       else if bool_decide (hash our = hash base) then Ok (store m, conflicts m, hash their, false)
       else if bool_decide (hash their = hash base) then Ok (store m, conflicts m, hash our, false)
       else
         '(s, cs, h) ← content_merge (store m) (hash base) (hash our) (hash their) p (conflicts m);
         Ok (s, cs, h, true));
    let m := with_content m s cs in
    let merged_type := merge_entry_type base our their in
    if negb content_was_merged && negb (selected_content_matches_type merged_type merged_hash our their) then
      '(s, cs, conflict_hash) ← content_conflict (store m) (hash our) (hash their) p (conflicts m);
      Ok (put_leaf (with_content m s cs) p
            (flat_blob conflict_hash
               (union_executable (is_blob_leaf our && executable our) (is_blob_leaf their && executable their))))
    else
      let l :=
        match content_was_merged, merged_type with
        | false, Some EntryType.Symlink => flat_symlink merged_hash
        | false, Some EntryType.Blob => flat_blob merged_hash (merge_executable base our their)
        | _, _ => resolve_merged_leaf merged_hash our their content_was_merged
        end in
      Ok (put_leaf m p l).

(** The body of the loop of [merge_remaining_paths]. *)
Definition merge_remaining_path (base_flat our_flat their_flat : FlatTree) (p : path) (m : Merging)
  : mres Merging :=
  if decide (p ∈ claimed_paths m) then Ok m
  else
    match base_flat !! p, our_flat !! p, their_flat !! p with
    | None, None, Some l | None, Some l, None => Ok (put_leaf m p l)
    | None, Some our, Some their => merge_added_leaves our their p m
    | Some _, None, None | None, None, None => Ok m
    | Some base, Some our, None => merge_kept_leaf (ascii "our") base our p m
    | Some base, None, Some their => merge_kept_leaf (ascii "their") base their p m
    | Some base, Some our, Some their => merge_present_leaves base our their p m
    end.

Fixpoint merge_remaining_paths (base_flat our_flat their_flat : FlatTree) (all_paths : list path) (m : Merging)
  : mres Merging :=
  match all_paths with
  | [] => Ok m
  | p :: all_paths =>
      m ← merge_remaining_path base_flat our_flat their_flat p m;
      merge_remaining_paths base_flat our_flat their_flat all_paths m
  end.

(** [path.split_once('/')] *)
Fixpoint split_once (sep : Z) (p : path) : option (path * path) :=
  match p with
  | [] => None
  | b :: p =>
      if b =? sep then Some ([], p)
      else match split_once sep p with Some (l, r) => Some (b :: l, r) | None => None end
  end.

(** A map in the order in which the program walks it. *)
Definition walk {V} (at_ : path) (m : gmap path V) : list (path * V) :=
  omap (λ p, match m !! p with Some v => Some (p, v) | None => None end)
    (order at_ (map fst (map_to_list m))).

(** The first loop of [build_nested_tree]. *)
Definition split_flat (flat : list (path * leaf)) : list (path * leaf) * gmap path FlatTree :=
  fold_left (λ '(top_files, subdirs) '(p, l),
    match split_once 47 p with
    | Some (directory, rest) =>
        (top_files, <[directory := <[rest := l]> (default ∅ (subdirs !! directory))]> subdirs)
    | None => (top_files ++ [(p, l)], subdirs)
    end) flat ([], ∅).

Fixpoint file_entries (top_files : list (path * leaf)) : mres (list entry) :=
  match top_files with
  | [] => Ok []
  | (n, l) :: top_files =>
      e ← leaf_to_tree_entry n l;
      es ← file_entries top_files;
      Ok (e :: es)
  end.

(** The loop over the directories; [build] is [build_nested_tree] below. *)
Fixpoint directory_entries (build : St → path → FlatTree → mres (St * tree)) (s : St) (prefix : path)
    (subdirs : list (path * FlatTree)) : mres (St * list entry) :=
  match subdirs with
  | [] => Ok (s, [])
  | (directory, sub_flat) :: subdirs =>
      '(s, subtree) ← build s (prefix ++ directory ++ [47]) sub_flat;
      '(s, h) ← put_tree s subtree;
      e ← TreeMerge.directory directory h;
      '(s, es) ← directory_entries build s prefix subdirs;
      Ok (s, e :: es)
  end.

(** [prefix] only tells the orders of the levels apart. *)
Fixpoint build_nested_tree (fuel : nat) (s : St) (prefix : path) (flat : FlatTree) : mres (St * tree) :=
  match fuel with
  | O => Fuel
  | S fuel =>
      let '(top_files, subdirs) := split_flat (walk prefix flat) in
      files ← file_entries top_files;
      '(s, dirs) ← directory_entries (build_nested_tree fuel) s prefix (walk (prefix ++ [0]) subdirs);
      Ok (s, from_entries (files ++ dirs))
  end.

(** A path of [n] bytes has at most [n] separators. *)
Definition depth_bound (flat : FlatTree) : nat :=
  S (list_max (map (λ p, length p.1) (map_to_list flat))).

(** [merge_with_renames] up to the merged leaves. *)
Definition merged_leaves (s : St) (base_flat our_flat their_flat : FlatTree) (rename_map : MergeRenameMap)
  : mres Merging :=
  m ← apply_renames (walk [1] (our_renames rename_map)) (their_renames rename_map) their_flat
        {| store := s; merged_flat := ∅; conflicts := []; claimed_paths := ∅ |};
  m ← apply_renames (walk [2] (their_renames rename_map)) (our_renames rename_map) our_flat m;
  merge_remaining_paths base_flat our_flat their_flat
    (order [3] (elements (dom base_flat ∪ dom our_flat ∪ dom their_flat : gset path))) m.

Definition merge_with_renames (fuel : nat) (s : St) (base_tree our_tree their_tree : tree)
    (rename_map : MergeRenameMap) : mres (St * tree * list path) :=
  base_flat ← flatten_tree blake3 fuel s base_tree [];
  our_flat ← flatten_tree blake3 fuel s our_tree [];
  their_flat ← flatten_tree blake3 fuel s their_tree [];
  m ← merged_leaves s base_flat our_flat their_flat rename_map;
  '(s, t) ← build_nested_tree (depth_bound (merged_flat m)) (store m) [] (merged_flat m);
  Ok (s, t, conflicts m).

Definition detect_merge_renames (fuel : nat) (s : St) (base_tree our_tree their_tree : tree)
    (config : RenameMatcherConfig) : mres MergeRenameMap :=
  base_flat ← flatten_tree blake3 fuel s base_tree [];
  our_flat ← flatten_tree blake3 fuel s our_tree [];
  their_flat ← flatten_tree blake3 fuel s their_tree [];
  ours ← detect_renames s base_flat our_flat config;
  theirs ← detect_renames s base_flat their_flat config;
  Ok {| our_renames := ours; their_renames := theirs |}.

(** ** [engine.rs] *)
Record DetectedRename := { from : path; to : path; rename_score : F64.f64 }.
Record TreeMergeResult := {
  merged_tree : tree; merge_conflicts : list path; renames : list DetectedRename;
  directory_renames : list (path * path)
}.

Definition detected (r : RenameMatch) : DetectedRename :=
  {| from := from_path r; to := to_path r; rename_score := match_score r |}.
Definition compare_detected (a b : DetectedRename) : comparison :=
  match compare_bytes (from a) (from b) with Eq => compare_bytes (to a) (to b) | c => c end.

Definition collect_renames (rename_map : MergeRenameMap) : list DetectedRename :=
  sort_by compare_detected
    (map (λ p, detected p.2) (walk [1] (our_renames rename_map))
     ++ omap (λ p, if bool_decide (our_renames rename_map !! from_path p.2 ≠ None) then None
                   else Some (detected p.2)) (walk [2] (their_renames rename_map))).

Definition merge_trees (fuel : nat) (s : St) (base_tree our_tree their_tree : tree)
    (config : RenameMatcherConfig) : mres (St * TreeMergeResult) :=
  rename_map ← detect_merge_renames fuel s base_tree our_tree their_tree config;
  '(s, t, cs) ←
    (if bool_decide (our_renames rename_map = ∅) && bool_decide (their_renames rename_map = ∅) then
       TreeMerge.merge_without_renames diff load_blob oid_text semantic_merge labels order fuel s
         base_tree our_tree their_tree
     else merge_with_renames fuel s base_tree our_tree their_tree rename_map);
  Ok (s, {| merged_tree := t; merge_conflicts := cs; renames := collect_renames rename_map;
            directory_renames :=
              infer_directory_renames (our_renames rename_map ∪ their_renames rename_map) |}).
End rename_merge.

(** ** Specification *)
Section spec.
Context {Oid St : Type} `{ObjectStore Oid St}.
Abbreviation leaf := (FlatLeaf Oid).
Abbreviation FlatTree := (gmap path leaf).
Context (diff : list Merge.line → list Merge.line → list Merge.DiffOp).
Context (load_blob : list Z → path → mres (list Z)).
Context (semantic_merge : option TreeMerge.SemanticMergeFn).
Context (labels : ConflictLabels).
Abbreviation merging := (@Merging Oid St).
Abbreviation content_merged := (TreeMerge.content_merged diff load_blob semantic_merge labels).

(** The three-way choice of a value: the side that changed, or the common one. *)
Inductive merged3 {A} : A → A → A → A → Prop :=
| merged3_same b x : merged3 b x x x
| merged3_theirs x t : merged3 x x t t
| merged3_ours x o : merged3 x o x o.

(** The merge of the leaves at one path that is no conflict: base, ours, theirs
    and the result. *)
Inductive flat_merged (s : St) (p : path) : option leaf → option leaf → option leaf → option leaf → Prop :=
| flat_side b o t m : merged3 b o t m → flat_merged s p b o t m
| flat_added o t :
    opaque o = None → opaque t = None → hash o = hash t → leaf_type o = leaf_type t →
    flat_merged s p None (Some o) (Some t)
      (Some {| hash := hash o; leaf_type := leaf_type o;
               executable := union_executable (executable o) (executable t); opaque := None |})
| flat_deleted_theirs b o :
    hash o = hash b → leaf_type o = leaf_type b → executable o = executable b →
    flat_merged s p (Some b) (Some o) None None
| flat_deleted_ours b t :
    hash t = hash b → leaf_type t = leaf_type b → executable t = executable b →
    flat_merged s p (Some b) None (Some t) None
| flat_fields b o t x m :
    (** content, kind and mode merge independently; content and kind are those of
        one side *)
    opaque b = None → opaque o = None → opaque t = None →
    x = o ∨ x = t → hash m = hash x → leaf_type m = leaf_type x → opaque m = None →
    merged3 (hash b) (hash o) (hash t) (hash m) → merged3 (leaf_type b) (leaf_type o) (leaf_type t) (leaf_type m) →
    executable m = (is_blob_leaf m && merge_executable b o t) →
    flat_merged s p (Some b) (Some o) (Some t) (Some m)
| flat_content b o t h :
    content_merged s p (hash b) (hash o) (hash t) h →
    flat_merged s p (Some b) (Some o) (Some t)
      (Some (flat_blob h (union_executable (is_blob_leaf o && executable o) (is_blob_leaf t && executable t)))).

(** A conflict is reported at the path. *)
Definition reported (cs : list path) (p : path) : Prop :=
  p ∈ cs
  ∨ (∃ why, ascii "non-content leaf conflict at " ++ p ++ 58 :: why ∈ cs)
  ∨ ∃ why, ascii "modify/delete conflict at " ++ p ++ 58 :: why ∈ cs.

(** What is left at a path where a conflict is reported: the leaf of a side, or a blob in its place *)
Definition conflict_leaf (o t : option leaf) (l : leaf) : Prop :=
  o = Some l ∨ t = Some l ∨ (is_Some o ∨ is_Some t) ∧ ∃ h x, l = flat_blob h x.

(** What a step does besides the path it is about: the store grows, conflicts are
    added, and other leaves stay. *)
Record steps (m m' : merging) (touched : path → Prop) : Prop := {
  steps_store : extends (store m) (store m');
  steps_conflicts : conflicts m ⊆ conflicts m';
  steps_claimed : claimed_paths m ⊆ claimed_paths m';
  steps_leaves : ∀ p, ¬ touched p → merged_flat m' !! p = merged_flat m !! p
}.

(** A leaf of which the kinds are those that flattening produces without a
    target: [Blob] and [Symlink]. *)
Definition plain (l : leaf) : Prop :=
  opaque l = None → leaf_type l = EntryType.Blob ∨ (leaf_type l = EntryType.Symlink ∧ executable l = false).

(** The merge at a path of the remaining ones. *)
Definition path_done (m : merging) (p : path) (b o t : option leaf) : Prop :=
  (reported (conflicts m) p ∧ ∃ l, merged_flat m !! p = Some l ∧ conflict_leaf o t l)
  ∨ flat_merged (store m) p b o t (merged_flat m !! p).

(** ** Renames *)
Definition apart_message (k : path) (r r' : RenameMatch) : path :=
  ascii "rename/rename conflict: " ++ k ++ ascii " " ++ ARROW ++ ascii " " ++ to_path r ++ ascii " vs " ++ to_path r'.
Definition gone_message (k : path) (r : RenameMatch) : path :=
  ascii "rename/delete conflict: " ++ k ++ ascii " renamed to " ++ to_path r ++ ascii " but deleted on other side".

(** The renamed file with the contents that its own side gave it, and with the modes merged *)
Definition kept_leaf (r : RenameMatch) (opposing : leaf) : leaf :=
  {| hash := to_hash r; leaf_type := to_entry_type r; opaque := None;
     executable := if bool_decide (to_entry_type r = EntryType.Blob)
                   then merge_executable_values (from_executable r) (to_executable r) (executable opposing)
                   else to_executable r |}.
(** The renamed file with the merged contents [h] *)
Definition content_leaf (r : RenameMatch) (opposing : leaf) (h : list Z) : leaf :=
  flat_blob h (union_executable (is_blob_leaf (leaf_from_rename (Oid:=Oid) r) && to_executable r)
                                (is_blob_leaf opposing && executable opposing)).

(** [l] is what a rename among [mine] brings to [p], the other side having the renames [other]
    and the leaves [flat]. *)
Inductive arrives (m : merging) (mine other : gmap path RenameMatch) (flat : FlatTree) (p : path) : leaf → Prop :=
| arrives_apart k r r' :
    (** The other side renamed the file elsewhere. *)
    mine !! k = Some r → p = to_path r → other !! k = Some r' → to_path r ≠ to_path r' →
    apart_message k r r' ∈ conflicts m ∨ apart_message k r' r ∈ conflicts m →
    arrives m mine other flat p (leaf_from_rename r)
| arrives_gone k r :
    (** The other side has no file at the old path: it deleted the file, which is reported, or
        renamed it to the same path. *)
    mine !! k = Some r → p = to_path r → flat !! k = None → (other !! k = None → gone_message k r ∈ conflicts m) →
    (∀ r', other !! k = Some r' → to_path r' = to_path r) →
    arrives m mine other flat p (leaf_from_rename r)
| arrives_kept k r opposing :
    (** The other side did not edit the file. *)
    mine !! k = Some r → p = to_path r → flat !! k = Some opposing → hash opposing = from_hash r →
    (∀ r', other !! k = Some r' → to_path r' = to_path r) →
    arrives m mine other flat p (kept_leaf r opposing)
| arrives_merged k r opposing h :
    (** The other side edited the file: the contents are merged, or the conflict is reported. *)
    mine !! k = Some r → p = to_path r → flat !! k = Some opposing → hash opposing ≠ from_hash r →
    (∀ r', other !! k = Some r' → to_path r' = to_path r) →
    p ∈ conflicts m ∨ content_merged (store m) p (from_hash r) (to_hash r) (hash opposing) h →
    arrives m mine other flat p (content_leaf r opposing h).

Definition arrived (m : merging) (rm : MergeRenameMap) (fo ft : FlatTree) (p : path) : Prop :=
  ∃ l, merged_flat m !! p = Some l ∧
    (arrives m (our_renames rm) (their_renames rm) ft p l ∨ arrives m (their_renames rm) (our_renames rm) fo p l).

(** The old and the new paths of the renames *)
Definition renamed_away (rm : MergeRenameMap) (p : path) : Prop :=
  is_Some (our_renames rm !! p) ∨ is_Some (their_renames rm !! p).
Definition renamed_to (rm : MergeRenameMap) (p : path) : Prop :=
  ∃ k r, (our_renames rm !! k = Some r ∨ their_renames rm !! k = Some r) ∧ p = to_path r.

(** The merged leaves, at every path: where a rename leads, what it brings; nothing at the
    old path of a renamed file; the three-way merge everywhere else. *)
Record leaves_merged (m : merging) (rm : MergeRenameMap) (fb fo ft : FlatTree) : Prop := {
  merged_to p : renamed_to rm p → arrived m rm fo ft p;
  merged_away p : renamed_away rm p → ¬ renamed_to rm p → merged_flat m !! p = None;
  merged_rest p : ¬ renamed_away rm p → ¬ renamed_to rm p → path_done m p (fb !! p) (fo !! p) (ft !! p)
}.
End spec.

(** ** The steps of the merge *)
Section steps.
Context {Oid St : Type} `{ObjectStore Oid St}.
Abbreviation leaf := (FlatLeaf Oid).
Abbreviation FlatTree := (gmap path leaf).
Context (diff : list Merge.line → list Merge.line → list Merge.DiffOp).
Context (load_blob : list Z → path → mres (list Z)).
Context (semantic_merge : option TreeMerge.SemanticMergeFn).
Context (labels : ConflictLabels).
Context (diff_script : ∀ a b, Merge.script a b 0 0 (diff a b)).
Context (load_answers : ∀ h p, settles (load_blob h p) (λ _, True) (λ _, True)).
Abbreviation merging := (@Merging Oid St).
Abbreviation content_merged := (TreeMerge.content_merged diff load_blob semantic_merge labels).
Abbreviation flat_merged := (flat_merged diff load_blob semantic_merge labels).
Abbreviation path_done := (path_done diff load_blob semantic_merge labels).
Abbreviation arrives := (arrives diff load_blob semantic_merge labels).
Implicit Types (m : merging).

Lemma steps_refl m touched : steps m m touched.
Proof. by split. Qed.

Lemma steps_trans m1 m2 m3 touched : steps m1 m2 touched → steps m2 m3 touched → steps m1 m3 touched.
Proof.
  intros [] []. split; [by etrans|by etrans|by etrans|]. intros p Hp. by rewrite steps_leaves1, steps_leaves0.
Qed.

Lemma steps_weaken m m' (P Q : path → Prop) : (∀ p, P p → Q p) → steps m m' P → steps m m' Q.
Proof. intros HPQ []. split; try done. intros p Hp. apply steps_leaves0. auto. Qed.

Lemma reported_more cs cs' p : cs ⊆ cs' → reported cs p → reported cs' p.
Proof. intros Hs [Hc|[[why Hc]|[why Hc]]]; [left|right; left; exists why|do 2 right; exists why]; by apply Hs. Qed.

Lemma reported_exact cs p : reported (cs ++ [p]) p.
Proof. left. apply elem_of_app. right. by apply list_elem_of_singleton. Qed.

Lemma reported_leaf cs p why : reported (cs ++ [ascii "non-content leaf conflict at " ++ p ++ 58 :: why]) p.
Proof. right; left. exists why. apply elem_of_app. right. by apply list_elem_of_singleton. Qed.

Lemma reported_modify cs p why : reported (cs ++ [ascii "modify/delete conflict at " ++ p ++ 58 :: why]) p.
Proof. do 2 right. exists why. apply elem_of_app. right. by apply list_elem_of_singleton. Qed.

Lemma content_merged_extends s s' p hb ho ht hm :
  extends s s' → content_merged s p hb ho ht hm → content_merged s' p hb ho ht hm.
Proof.
  intros Hs [?|[?|[?|(cb & co & ct & bytes & ? & ? & ? & ? & Hg)]]];
    [by left|right; by left|do 2 right; by left|do 3 right].
  exists cb, co, ct, bytes. do 4 (split; [done|]). by eapply extends_blob.
Qed.

Lemma flat_merged_extends s s' p b o t x : extends s s' → flat_merged s p b o t x → flat_merged s' p b o t x.
Proof.
  intros Hs. destruct 1; [by apply flat_side|by apply flat_added|by apply flat_deleted_theirs|by apply flat_deleted_ours
    |by eapply flat_fields|apply flat_content; by eapply content_merged_extends].
Qed.

(** A path that is dealt with stays so while its leaf is not touched. *)
Lemma path_done_steps m m' (touched : path → Prop) p b o t :
  steps m m' touched → ¬ touched p → path_done m p b o t → path_done m' p b o t.
Proof.
  intros Hs Ht [[Hr Hl]|Hf]; [left|right]; rewrite (steps_leaves _ _ _ Hs p Ht).
  - split; [by eapply reported_more; [apply (steps_conflicts _ _ _ Hs)|]|done].
  - by eapply flat_merged_extends; [apply (steps_store _ _ _ Hs)|].
Qed.

(** Putting a leaf after a content merge, a claim or a report. *)
Lemma steps_put m s cs p l :
  extends (store m) s → conflicts m ⊆ cs → steps m (put_leaf (with_content m s cs) p l) (λ q, q = p).
Proof. intros Hs Hc. split; [done|done|done|]. intros q Hq. cbn. by rewrite lookup_insert_ne by congruence. Qed.

Lemma put_leaf_lookup m p l : merged_flat (put_leaf m p l) !! p = Some l.
Proof. cbn. apply lookup_insert_eq. Qed.

Lemma with_content_same m : with_content m (store m) (conflicts m) = m.
Proof. by destruct m. Qed.

(** One step at a path: it is dealt with and nothing else is touched. *)
Definition path_step (p : path) (b o t : option leaf) (m m' : merging) : Prop :=
  steps m m' (λ q, q = p) ∧ claimed_paths m' = claimed_paths m ∧ path_done m' p b o t.

Lemma path_step_put m p b o t l :
  flat_merged (store m) p b o t (Some l) → path_step p b o t m (put_leaf m p l).
Proof.
  intros Hf. split.
  - pose proof (steps_put m (store m) (conflicts m) p l) as Hs. rewrite with_content_same in Hs. by apply Hs.
  - split; [done|]. right. by rewrite put_leaf_lookup.
Qed.

Lemma path_step_report m p b o t c l :
  reported (conflicts m ++ [c]) p → conflict_leaf o t l → path_step p b o t m (put_leaf (report m c) p l).
Proof.
  intros Hr Hl. split; [|split; [done|left; split; [done|]]].
  - apply (steps_put m (store m) (conflicts m ++ [_]) p l); [done|]. by apply list_subseteq_app_l.
  - exists l. by rewrite put_leaf_lookup.
Qed.

Lemma path_step_conflict m s p b o t h x :
  is_Some o ∨ is_Some t → extends (store m) s → path_step p b o t m (put_leaf (with_content m s (conflicts m ++ [p])) p (flat_blob h x)).
Proof.
  intros Hot Hs. split; [|split; [done|left; split; [apply reported_exact|]]].
  - apply steps_put; [done|]. by apply list_subseteq_app_l.
  - exists (flat_blob h x). rewrite put_leaf_lookup. split; [done|]. do 2 right. split; [done|]. by exists h, x.
Qed.

Lemma content_conflict_appends s ho ht p cs :
  settles (TreeMerge.content_conflict_merge load_blob labels s ho ht p cs)
    (λ r, extends s r.1.1 ∧ r.1.2 = cs ++ [p]) (λ _, True).
Proof.
  unfold TreeMerge.content_conflict_merge. step (load_answers ho p) as _; [|done]. step (load_answers ht p) as _; [|done].
  step put_blob_spec as [Hs _]; [|done]. by destruct a1.
Qed.

Lemma modify_delete_appends s h p cs :
  settles (modify_delete_conflict_merge load_blob labels s h p cs)
    (λ r, extends s r.1.1 ∧ r.1.2 = cs ++ [p]) (λ _, True).
Proof.
  unfold modify_delete_conflict_merge. step (load_answers h p) as _; [|done].
  step put_blob_spec as [Hs _]; [|done]. by destruct a0.
Qed.

Lemma merge_added_leaves_settles (o t : leaf) p m :
  settles (merge_added_leaves load_blob labels o t p m) (path_step p None (Some o) (Some t) m) (λ _, True).
Proof.
  unfold merge_added_leaves. destruct (bool_decide_reflect (o = t)) as [->|_].
  { apply path_step_put. apply flat_side. constructor. }
  destruct (bool_decide_reflect (opaque o = None)) as [Eo|Eo], (bool_decide_reflect (opaque t = None)) as [Et|Et];
    cbn [andb].
  - rewrite Eo, Et. destruct (bool_decide_reflect (hash o = hash t)) as [Eh|_]; cbn [andb].
    + destruct (bool_decide_reflect (leaf_type o = leaf_type t)) as [Ety|_].
      * apply path_step_put. by apply flat_added.
      * step content_conflict_appends as [Hs Hc]; [|done]. destruct a as [[s cs] h]. cbn [fst snd] in *. subst cs.
        apply path_step_conflict; [by left|done].
    + step content_conflict_appends as [Hs Hc]; [|done]. destruct a as [[s cs] h]. cbn [fst snd] in *. subst cs.
      apply path_step_conflict; [by left|done].
  - rewrite (bool_decide_eq_true_2 (opaque t ≠ None)), orb_true_r by done. apply path_step_report; [apply reported_leaf|by left].
  - rewrite (bool_decide_eq_true_2 (opaque o ≠ None)) by done. apply path_step_report; [apply reported_leaf|by left].
  - rewrite (bool_decide_eq_true_2 (opaque o ≠ None)) by done. apply path_step_report; [apply reported_leaf|by left].
Qed.

Lemma merge_kept_leaf_settles side (b x : leaf) p m o t :
  merged_flat m !! p = None →
  (o = None ∧ t = Some x) ∨ (o = Some x ∧ t = None) →
  settles (merge_kept_leaf load_blob labels side b x p m) (path_step p (Some b) o t m) (λ _, True).
Proof.
  intros Hnone Hot. unfold merge_kept_leaf.
  destruct (bool_decide_reflect (hash x ≠ hash b)) as [|Eh]; [cbn [orb]|
    destruct (bool_decide_reflect (leaf_type x ≠ leaf_type b)) as [|Et]; [cbn [orb]|
      destruct (Bool.eqb (executable x) (executable b)) eqn:Ee; cbn [orb negb]]].
  3: { apply dec_stable in Eh, Et. apply eqb_prop in Ee. split; [apply steps_refl|split; [done|right]]. rewrite Hnone.
       destruct Hot as [[-> ->]|[-> ->]]; [by apply flat_deleted_ours|by apply flat_deleted_theirs]. }
  all: (destruct (bool_decide (opaque x ≠ None) || bool_decide (opaque b ≠ None));
    [apply path_step_report; [apply reported_modify|destruct Hot as [[-> ->]|[-> ->]]; [right; by left|by left]]|]).
  all: (step modify_delete_appends as [Hs Hc]; [|done]); destruct a as [[s cs] h]; cbn [fst snd] in *; subst cs;
    apply path_step_conflict; [destruct Hot as [[-> ->]|[-> ->]]; [by right|by left]|done].
Qed.

Lemma merge_entry_type_merged3 (b o t : leaf) ty :
  merge_entry_type b o t = Some ty → merged3 (leaf_type b) (leaf_type o) (leaf_type t) ty.
Proof.
  unfold merge_entry_type. destruct (bool_decide_reflect (leaf_type o = leaf_type t)) as [->|].
  { intros [= <-]. constructor. }
  destruct (bool_decide_reflect (leaf_type o = leaf_type b)) as [->|]; [intros [= <-]; constructor|].
  destruct (bool_decide_reflect (leaf_type t = leaf_type b)) as [->|]; [intros [= <-]; constructor|done].
Qed.

(** Of three kinds among two, two agree. *)
Lemma merge_entry_type_plain (b o t : leaf) :
  plain b → plain o → plain t → opaque b = None → opaque o = None → opaque t = None →
  merge_entry_type b o t = Some EntryType.Blob ∨ merge_entry_type b o t = Some EntryType.Symlink.
Proof.
  intros Hb Ho Ht Eb Eo Et. specialize (Hb Eb). specialize (Ho Eo). specialize (Ht Et). unfold merge_entry_type.
  destruct Hb as [-> |[-> _]], Ho as [-> |[-> _]], Ht as [-> |[-> _]]; vm_compute; auto.
Qed.

Lemma selected_side (o t : leaf) h ty :
  selected_content_matches_type (Some ty) h o t = true → ∃ x, (x = o ∨ x = t) ∧ h = hash x ∧ ty = leaf_type x.
Proof.
  unfold selected_content_matches_type. rewrite orb_true_iff, !andb_true_iff, !bool_decide_eq_true.
  intros [[<- <-]|[<- <-]]; eauto.
Qed.

Lemma present_resolved (b o t : leaf) p m s cs h (cm : bool) :
  plain b → plain o → plain t → opaque b = None → opaque o = None → opaque t = None →
  extends (store m) s →
  (if cm then TreeMerge.content_step diff load_blob semantic_merge labels (store m) (hash b) (hash o) (hash t) p
                (conflicts m) (s, cs, h)
   else cs = conflicts m ∧ merged3 (hash b) (hash o) (hash t) h) →
  settles
    (let m := with_content m s cs in
     let merged_type := merge_entry_type b o t in
     if negb cm && negb (selected_content_matches_type merged_type h o t) then
       '(s, cs, conflict_hash) ← TreeMerge.content_conflict_merge load_blob labels (store m) (hash o) (hash t) p
                                   (conflicts m);
       Ok (put_leaf (with_content m s cs) p
             (flat_blob conflict_hash
                (union_executable (is_blob_leaf o && executable o) (is_blob_leaf t && executable t))))
     else
       let l :=
         match cm, merged_type with
         | false, Some EntryType.Symlink => flat_symlink h
         | false, Some EntryType.Blob => flat_blob h (merge_executable b o t)
         | _, _ => resolve_merged_leaf h o t cm
         end in
       Ok (put_leaf m p l))
    (path_step p (Some b) (Some o) (Some t) m) (λ _, True).
Proof.
  intros Pb Po Pt Eb Eo Et Hs Hc. cbv zeta. destruct cm; cbn [negb andb].
  - unfold resolve_merged_leaf. cbn [negb andb]. destruct Hc as [_ [Hc|[Hc Hm]]]; cbn [fst snd] in *; subst cs.
    + apply path_step_conflict; [by left|done].
    + split; [by apply steps_put|]. split; [done|right]. rewrite put_leaf_lookup. by apply flat_content.
  - destruct Hc as [-> Hh].
    destruct (selected_content_matches_type (merge_entry_type b o t) h o t) eqn:Es; cbn [negb].
    2: { step content_conflict_appends as [Hs' Hc']; [|done]. destruct a as [[s' cs'] h']. cbn [fst snd] in *. subst cs'.
         apply (path_step_conflict m s'); [by left|by etrans]. }
    pose proof (merge_entry_type_merged3 b o t) as Hty.
    destruct (merge_entry_type_plain b o t Pb Po Pt Eb Eo Et) as [E|E]; rewrite E in *;
      apply selected_side in Es as (x & Hx & -> & Ex); (split; [by apply steps_put|]); (split; [done|right]); rewrite put_leaf_lookup;
      apply (flat_fields _ _ _ _ _ _ _ _ _ x); auto.
Qed.

Lemma merge_present_leaves_settles (b o t : leaf) p m :
  plain b → plain o → plain t →
  settles (merge_present_leaves diff load_blob semantic_merge labels b o t p m)
    (path_step p (Some b) (Some o) (Some t) m) (λ _, True).
Proof.
  intros Pb Po Pt. unfold merge_present_leaves.
  destruct (bool_decide_reflect (o = t)) as [->|_]; [apply path_step_put, flat_side; constructor|].
  destruct (bool_decide_reflect (o = b)) as [->|_]; [apply path_step_put, flat_side; constructor|].
  destruct (bool_decide_reflect (t = b)) as [->|_]; [apply path_step_put, flat_side; constructor|].
  destruct (bool_decide_reflect (opaque o ≠ None)) as [|Eo]; [apply path_step_report; [apply reported_leaf|by left]|].
  destruct (bool_decide_reflect (opaque t ≠ None)) as [|Et]; [apply path_step_report; [apply reported_leaf|by left]|].
  destruct (bool_decide_reflect (opaque b ≠ None)) as [|Eb]; [apply path_step_report; [apply reported_leaf|by left]|]. cbn [orb].
  apply dec_stable in Eo, Et, Eb.
  destruct (bool_decide_reflect (hash o = hash t)) as [E1|N1].
  { apply (present_resolved b o t p m (store m) (conflicts m) (hash o) false); try done. split; [done|].
    rewrite E1. constructor. }
  destruct (bool_decide_reflect (hash o = hash b)) as [E2|N2].
  { apply (present_resolved b o t p m (store m) (conflicts m) (hash t) false); try done. split; [done|].
    rewrite E2. constructor. }
  destruct (bool_decide_reflect (hash t = hash b)) as [E3|N3].
  { apply (present_resolved b o t p m (store m) (conflicts m) (hash o) false); try done. split; [done|].
    rewrite E3. constructor. }
  apply settles_bind. step (TreeMerge.three_way_content_merge_settles diff load_blob semantic_merge labels diff_script load_answers
    (store m) (hash b) (hash o) (hash t) p (conflicts m)) as Hc; [|done].
  destruct a as [[s cs] h]. apply (present_resolved b o t p m s cs h true); try done. apply Hc.
Qed.

Definition plain_flat (f : FlatTree) : Prop := ∀ p l, f !! p = Some l → plain l.

Lemma merge_remaining_path_settles (fb fo ft : FlatTree) p m :
  plain_flat fb → plain_flat fo → plain_flat ft → p ∉ claimed_paths m → merged_flat m !! p = None →
  settles (merge_remaining_path diff load_blob semantic_merge labels fb fo ft p m)
    (path_step p (fb !! p) (fo !! p) (ft !! p) m) (λ _, True).
Proof.
  intros Hb Ho Ht Hc Hnone. unfold merge_remaining_path. destruct (decide _) as [|_]; [done|].
  destruct (fb !! p) as [b|] eqn:Eb, (fo !! p) as [o|] eqn:Eo, (ft !! p) as [t|] eqn:Et.
  - apply merge_present_leaves_settles; eauto.
  - apply merge_kept_leaf_settles; [done|]. by right.
  - apply merge_kept_leaf_settles; [done|]. by left.
  - split; [apply steps_refl|split; [done|right]]. rewrite Hnone. apply flat_side. constructor.
  - apply merge_added_leaves_settles.
  - apply path_step_put, flat_side. constructor.
  - apply path_step_put, flat_side. constructor.
  - split; [apply steps_refl|split; [done|right]]. rewrite Hnone. apply flat_side. constructor.
Qed.

Lemma merge_remaining_paths_settles (fb fo ft : FlatTree) ps m :
  plain_flat fb → plain_flat fo → plain_flat ft → NoDup ps →
  (∀ p, p ∈ ps → p ∉ claimed_paths m → merged_flat m !! p = None) →
  settles (merge_remaining_paths diff load_blob semantic_merge labels fb fo ft ps m)
    (λ m', steps m m' (λ q, q ∈ ps ∧ q ∉ claimed_paths m)
       ∧ ∀ p, p ∈ ps → p ∉ claimed_paths m → path_done m' p (fb !! p) (fo !! p) (ft !! p)) (λ _, True).
Proof.
  intros Hb Ho Ht Hd. revert m. induction Hd as [|p ps Hp Hd IH]; intros m Hnone; cbn [merge_remaining_paths].
  { split; [apply steps_refl|]. by intros p ?%elem_of_nil. }
  destruct (decide (p ∈ claimed_paths m)) as [Hin|Hnin].
  { unfold merge_remaining_path. rewrite decide_True, bind_Ok by done.
    eapply settles_mono; [apply IH; intros q Hq; apply Hnone; by right| |done].
    intros m' [Hs Hq]. split.
    - eapply steps_weaken; [|exact Hs]. intros q [? ?]. split; [by right|done].
    - intros q [-> |Hin']%elem_of_cons Hnq; [done|by apply Hq]. }
  step (merge_remaining_path_settles fb fo ft p m Hb Ho Ht Hnin (Hnone p ltac:(by left) Hnin)) as (Hs1 & Hcl & Hd1); [|done].
  rename a into m1.
  assert (∀ q, q ∈ ps → q ≠ p) as Hne by (intros q Hq ->; done).
  eapply settles_mono; [apply IH| |done].
  { intros q Hq Hnq. rewrite (steps_leaves _ _ _ Hs1) by auto. apply Hnone; [by right|]. by rewrite <- Hcl. }
  intros m' [Hs2 Hd2]. split.
  - apply (steps_trans m m1 m').
    + eapply steps_weaken; [|exact Hs1]. intros q ->. split; [by left|done].
    + eapply steps_weaken; [|exact Hs2]. intros q [Hq Hnq]. split; [by right|]. by rewrite <- Hcl.
  - intros q [-> |Hq]%elem_of_cons Hnq.
    + eapply path_done_steps; [exact Hs2| |exact Hd1]. by intros [? _].
    + apply Hd2; [done|]. by rewrite Hcl.
Qed.

(** ** Renames *)

(** The leaves that a rename of one side can write. *)
Definition touches (opp : gmap path RenameMatch) (k : path) (r : RenameMatch) (p : path) : Prop :=
  p = to_path r ∨ ∃ r', opp !! k = Some r' ∧ p = to_path r'.

Lemma steps_claim m m' p (touched : path → Prop) : steps (claim m p) m' touched → steps m m' touched.
Proof. intros []. split; [done|done| |done]. etrans; [|exact steps_claimed0]. cbn. apply union_subseteq_r. Qed.

Lemma steps_report m m' c (touched : path → Prop) : steps (report m c) m' touched → steps m m' touched.
Proof.
  intros []. split; [done| |done|done]. etrans; [|exact steps_conflicts0]. cbn. by apply list_subseteq_app_l.
Qed.

Lemma steps_put_leaf m p l (touched : path → Prop) : touched p → steps m (put_leaf m p l) touched.
Proof.
  intros Hp. split; [done|done|done|]. intros q Hq. cbn. rewrite lookup_insert_ne; [done|]. by intros ->.
Qed.

(** What a rename does to the claims: its two ends, and that of a different
    rename of the same file on the other side. *)
Definition claims (opp : gmap path RenameMatch) (k : path) (r : RenameMatch) (m m' : merging) : Prop :=
  (∀ p, p = k ∨ touches opp k r p → p ∈ claimed_paths m') ∧
  ∀ p, p ∈ claimed_paths m' → p ∈ claimed_paths m ∨ p = k ∨ touches opp k r p.

Lemma arrives_more m m' (touched : path → Prop) mine other flat p l :
  steps m m' touched → arrives m mine other flat p l → arrives m' mine other flat p l.
Proof.
  intros [Hs Hc _ _]. destruct 1 as [k r r' ? ? ? ? Hm|k r ? ? ? Hm|k r x|k r x h ? ? ? ? ? Hm].
  - eapply arrives_apart; [done..|]. destruct Hm as [Hm|Hm]; [left|right]; by apply Hc.
  - apply (arrives_gone _ _ _ _ _ _ _ _ _ k); auto.
  - by apply (arrives_kept _ _ _ _ _ _ _ _ _ k).
  - apply (arrives_merged _ _ _ _ _ _ _ _ _ k); try done.
    destruct Hm as [Hm|Hm]; [left; by apply Hc|right; by eapply content_merged_extends].
Qed.

Section side.
(** The renames of the side that is followed and of the other one, and the leaves of both *)
Context (mine opp : gmap path RenameMatch) (flat oflat : FlatTree).

Definition arrived_at (m : merging) (p : path) : Prop :=
  ∃ l, merged_flat m !! p = Some l ∧ (arrives m mine opp flat p l ∨ arrives m opp mine oflat p l).

Lemma arrived_steps m m' (touched : path → Prop) p :
  steps m m' touched → ¬ touched p → arrived_at m p → arrived_at m' p.
Proof.
  intros Hs Hp (l & Hl & Ha). exists l. rewrite (steps_leaves _ _ _ Hs p Hp). split; [done|].
  destruct Ha; [left|right]; by eapply arrives_more.
Qed.

Lemma follow_rename_settles (k : path) r m :
  mine !! k = Some r → (∀ r', opp !! k = Some r' → to_path r' = to_path r) →
  settles (follow_rename diff load_blob semantic_merge labels opp flat k r m)
    (λ m', steps m m' (touches opp k r) ∧ claims opp k r m m' ∧ arrived_at m' (to_path r)) (λ _, True).
Proof.
  intros Hk Hopp. unfold follow_rename. cbv zeta. set (m1 := claim (claim m k) (to_path r)).
  assert (∀ m', claimed_paths m' = claimed_paths m1 → claims opp k r m m') as Hcl.
  { intros m' E. split; rewrite E; unfold m1, claim; cbn; intros p; rewrite !elem_of_union, !elem_of_singleton; unfold touches; [|tauto].
    intros [->|[->|(r' & Hr' & ->)]]; [auto|auto|rewrite (Hopp r' Hr'); auto]. }
  assert (∀ m', steps m1 m' (touches opp k r) → steps m m' (touches opp k r)) as Hm1
    by (intros m' Hs; by apply (steps_claim m m' k), (steps_claim (claim m k) m' (to_path r))).
  assert (touches opp k r (to_path r)) as Htouch by by left.
  destruct (flat !! k) as [l|] eqn:El.
  2: { split; [|split; [destruct (bool_decide _); by apply Hcl|]].
       - apply Hm1. destruct (bool_decide _); [eapply steps_report|]; by apply steps_put_leaf.
       - eexists. rewrite put_leaf_lookup. split; [done|left]. apply (arrives_gone _ _ _ _ _ _ _ _ _ k); try done.
         intros Hn. rewrite bool_decide_eq_true_2 by done. cbn. apply elem_of_app. right. by apply list_elem_of_singleton. }
  destruct (bool_decide_reflect (hash l ≠ from_hash r)) as [Hne|Heq].
  - step (TreeMerge.three_way_content_merge_settles diff load_blob semantic_merge labels diff_script load_answers
      (store m1) (from_hash r) (to_hash r) (hash l) (to_path r) (conflicts m1)) as [Hs Hc]; [|done].
    destruct a as [[s cs] h]. cbn [fst snd] in *. unfold resolve_merged_leaf. cbn [negb andb].
    assert (conflicts m1 ⊆ cs) as Hcs by (destruct Hc as [-> |[-> _]]; [by apply list_subseteq_app_l|done]).
    split; [|split; [by apply Hcl|]].
    + apply Hm1. eapply steps_weaken; [|by apply (steps_put m1 s cs (to_path r))]. by intros p ->.
    + eexists. rewrite put_leaf_lookup. split; [done|left]. apply (arrives_merged _ _ _ _ _ _ _ _ _ k r l h); try done.
      cbn. destruct Hc as [-> |[_ Hc]]; [left; apply elem_of_app; right; by apply list_elem_of_singleton|by right].
  - apply dec_stable in Heq. split; [apply Hm1; by apply steps_put_leaf|]. split; [by apply Hcl|].
    exists (kept_leaf r l). rewrite put_leaf_lookup. split; [|left; by apply (arrives_kept _ _ _ _ _ _ _ _ _ k)]. f_equal.
    unfold kept_leaf, is_blob_leaf, leaf_from_rename. cbn. by destruct (bool_decide _).
Qed.

Lemma apply_rename_settles (k : path) r m :
  mine !! k = Some r →
  settles (apply_rename diff load_blob semantic_merge labels opp flat k r m)
    (λ m', steps m m' (touches opp k r) ∧ claims opp k r m m' ∧ ∀ p, touches opp k r p ∨ arrived_at m p → arrived_at m' p)
    (λ _, True).
Proof.
  intros Hk. assert ((∀ r', opp !! k = Some r' → to_path r' = to_path r) →
    settles (follow_rename diff load_blob semantic_merge labels opp flat k r m)
      (λ m', steps m m' (touches opp k r) ∧ claims opp k r m m' ∧ ∀ p, touches opp k r p ∨ arrived_at m p → arrived_at m' p)
      (λ _, True)) as Hfollow.
  { intros Hsame. eapply settles_mono; [by apply follow_rename_settles| |done]. intros m' (Hs & Hc & Ha). split; [done|]. split; [done|].
    intros p Hp. destruct (decide (p = to_path r)) as [->|Hne]; [done|].
    assert (¬ touches opp k r p) as Hn by (intros [?|(r' & Hr' & ->)]; [done|]; by destruct Hne; apply Hsame).
    destruct Hp as [?|Hp]; [done|]. by eapply arrived_steps. }
  unfold apply_rename. destruct (opp !! k) as [r'|] eqn:Er; [|by apply Hfollow].
  destruct (bool_decide_reflect (to_path r ≠ to_path r')) as [Hne|Heq].
  2: { apply dec_stable in Heq. apply Hfollow. by intros r2 [= <-]. }
  cbn [settles]. fold (apart_message k r r').
  assert (steps m (claim (claim (claim (put_leaf (put_leaf (report m (apart_message k r r')) (to_path r) (leaf_from_rename r))
    (to_path r') (leaf_from_rename r')) k) (to_path r)) (to_path r')) (touches opp k r)) as Hs.
  { apply (steps_report m _ (apart_message k r r')).
    eapply steps_trans; [apply (steps_put_leaf _ (to_path r)); by left|].
    eapply steps_trans; [apply (steps_put_leaf _ (to_path r')); right; by exists r'|].
    do 3 eapply steps_claim. apply steps_refl. }
  assert (apart_message k r r' ∈ conflicts m ++ [apart_message k r r']) as Hmsg by (apply elem_of_app; right; by apply list_elem_of_singleton).
  split; [exact Hs|]. split; [split; unfold claim; cbn; intros p; rewrite !elem_of_union, !elem_of_singleton; unfold touches; rewrite Er|].
  - intros [->|[->|(r2 & [= <-] & ->)]]; auto.
  - intros [-> |[-> |[-> |?]]]; [right; right; right; by exists r'|right; right; by left|by right; left|by left].
  - intros p Hp. destruct (decide (p = to_path r')) as [->|Hne'].
    { exists (leaf_from_rename r'). cbn. rewrite lookup_insert_eq. split; [done|right].
      apply (arrives_apart _ _ _ _ _ _ _ _ _ k r' r); [done..|congruence|by right]. }
    destruct (decide (p = to_path r)) as [->|Hne2].
    { exists (leaf_from_rename r). cbn. rewrite lookup_insert_ne, lookup_insert_eq by congruence. split; [done|left].
      apply (arrives_apart _ _ _ _ _ _ _ _ _ k r r'); [done..|by left]. }
    assert (¬ touches opp k r p) as Hn by (unfold touches; rewrite Er; by intros [?|(r2 & [= <-] & ?)]).
    destruct Hp as [?|Hp]; [done|]. by eapply arrived_steps.
Qed.

(** The leaves and the claims that a list of renames can change. *)
Definition touched_by (rs : list (path * RenameMatch)) (p : path) : Prop := ∃ k r, (k, r) ∈ rs ∧ touches opp k r p.

Lemma apply_renames_settles (rs : list (path * RenameMatch)) m :
  (∀ k r, (k, r) ∈ rs → mine !! k = Some r) →
  settles (apply_renames diff load_blob semantic_merge labels rs opp flat m)
    (λ m', steps m m' (touched_by rs)
       ∧ (∀ p, p ∈ rs.*1 ∨ touched_by rs p → p ∈ claimed_paths m')
       ∧ (∀ p, p ∈ claimed_paths m' → p ∈ claimed_paths m ∨ touched_by rs p ∨ p ∈ rs.*1)
       ∧ ∀ p, touched_by rs p ∨ arrived_at m p → arrived_at m' p)
    (λ _, True).
Proof.
  revert m. induction rs as [|[k r] rs IH]; intros m Hrs; cbn [apply_renames].
  { split; [apply steps_refl|]. split; [by intros p [?%elem_of_nil|(k & r & ?%elem_of_nil & _)]|]. split; [by left|].
    by intros p [(k & r & ?%elem_of_nil & _)|?]. }
  step (apply_rename_settles k r m (Hrs k r ltac:(by left))) as (Hs1 & [Hc1 Hc1'] & Ha1); [|done].
  rename a into m1. eapply settles_mono; [apply (IH m1); intros; apply Hrs; by right| |done]. intros m' (Hs & Hc & Hc' & Ha).
  split; [|split; [|split]].
  - apply (steps_trans m m1 m'); [eapply steps_weaken; [|exact Hs1]|eapply steps_weaken; [|exact Hs]].
    + intros p Hp. exists k, r. split; [by left|done].
    + intros p (k' & r' & Hin & Hp). exists k', r'. split; [by right|done].
  - assert (∀ p, p = k ∨ touches opp k r p → p ∈ claimed_paths m') as H1 by (intros p Hp; by apply (steps_claimed _ _ _ Hs), Hc1).
    intros p [Hp|(k' & r' & [[= -> ->]|Hin]%elem_of_cons & Ht)]; [|apply H1; by right|apply Hc; right; by exists k', r'].
    rewrite fmap_cons in Hp. apply elem_of_cons in Hp as [->|Hp]; [apply H1; by left|apply Hc; by left].
  - intros p Hp. destruct (Hc' p Hp) as [Hp1|[(k' & r' & Hin & Ht)|Hp1]].
    + destruct (Hc1' p Hp1) as [?|[->|?]]; [by left|right; right; by left|right; left].
      exists k, r. split; [by left|done].
    + right. left. exists k', r'. split; [by right|done].
    + right. right. by right.
  - intros p [(k' & r' & [[= -> ->]|Hin]%elem_of_cons & Ht)|Hp]; apply Ha; [right; apply Ha1; by left|left; by exists k', r'|right; apply Ha1; by right].
Qed.
End side.

Section whole.
Context (order : path → list path → list path).
Context (order_perm : ∀ at_ l, order at_ l ≡ₚ l).

Lemma walk_elem {V} (at_ : path) (x : gmap path V) (k : path) v : (k, v) ∈ walk order at_ x ↔ x !! k = Some v.
Proof.
  unfold walk. rewrite list_elem_of_omap. setoid_rewrite order_perm. split.
  - intros (k' & _ & E). destruct (x !! k') eqn:Ek; [|done]. by injection E as <- <-.
  - intros E. exists k. split; [|by rewrite E]. apply list_elem_of_fmap. exists (k, v). split; [done|].
    by apply elem_of_map_to_list.
Qed.

Lemma walk_nodup {V} (at_ : path) (x : gmap path V) : NoDup (walk order at_ x).*1.
Proof.
  unfold walk. assert (NoDup (order at_ (map fst (map_to_list x)))) as Hd
    by (rewrite order_perm; apply NoDup_fst_map_to_list).
  induction Hd as [|k l Hk Hd IH]; [constructor|]. cbn. destruct (x !! k) as [v0|] eqn:E; [|done]. cbn. constructor; [|done].
  intros ([k' v] & Ek & Hin)%list_elem_of_fmap. apply list_elem_of_omap in Hin as (k2 & Hk2 & E2).
  destruct (x !! k2); [|done]. cbn in Ek. simplify_eq. done.
Qed.

Lemma touched_to (rm : MergeRenameMap) (mine other : gmap path RenameMatch) (at_ p : path) :
  (mine = our_renames rm ∧ other = their_renames rm) ∨ (mine = their_renames rm ∧ other = our_renames rm) →
  touched_by other (walk order at_ mine) p → renamed_to rm p.
Proof.
  intros Hside (k & r & Hin%walk_elem & [->|(r' & Hr' & ->)]); [exists k, r|exists k, r'];
    (split; [destruct Hside as [[-> ->]|[-> ->]]; auto|done]).
Qed.

Lemma walk_key {V} (at_ : path) (x : gmap path V) p : p ∈ (walk order at_ x).*1 ↔ is_Some (x !! p).
Proof.
  rewrite list_elem_of_fmap. split.
  - intros ([k v] & -> & Hin%walk_elem). by exists v.
  - intros [v Hv]. exists (p, v). split; [done|by apply walk_elem].
Qed.

(** Both passes over the renames *)
Lemma renames_applied (s : St) (fo ft : FlatTree) (rm : MergeRenameMap) :
  settles
    (m ← apply_renames diff load_blob semantic_merge labels (walk order [1] (our_renames rm)) (their_renames rm) ft
          {| store := s; merged_flat := ∅; conflicts := []; claimed_paths := ∅ |};
     apply_renames diff load_blob semantic_merge labels (walk order [2] (their_renames rm)) (our_renames rm) fo m)
    (λ m, extends s (store m) ∧ (∀ p, p ∈ claimed_paths m ↔ renamed_away rm p ∨ renamed_to rm p)
       ∧ (∀ p, renamed_to rm p → arrived diff load_blob semantic_merge labels m rm fo ft p)
       ∧ ∀ p, ¬ renamed_to rm p → merged_flat m !! p = None) (λ _, True).
Proof.
  set (m0 := {| store := s; merged_flat := ∅; conflicts := []; claimed_paths := ∅ |}).
  step (apply_renames_settles (our_renames rm) (their_renames rm) ft fo (walk order [1] (our_renames rm)) m0) as (Hs1 & Hto1 & Hc1 & Ha1);
    [by intros k r ?%walk_elem| |done]. rename a into m1.
  eapply settles_mono; [apply (apply_renames_settles (their_renames rm) (our_renames rm) fo ft (walk order [2] (their_renames rm)) m1);
    by intros k r ?%walk_elem| |done]. intros m2 (Hs2 & Hto2 & Hc2 & Ha2).
  pose proof (λ at_ p, touched_to rm (our_renames rm) (their_renames rm) at_ p ltac:(by left)) as Ht1.
  pose proof (λ at_ p, touched_to rm (their_renames rm) (our_renames rm) at_ p ltac:(by right)) as Ht2.
  split; [etrans; [apply (steps_store _ _ _ Hs1)|apply (steps_store _ _ _ Hs2)]|]. split; [|split].
  - intros p. split.
    + intros [[Hp|[Hp|Hp]]%Hc1|[Hp|Hp]]%Hc2; [by apply not_elem_of_empty in Hp|right; by eapply Ht1|left|right; by eapply Ht2|left];
        [left|right]; by eapply walk_key.
    + intros [[Hp|Hp]|(k & r & [Hk|Hk] & ->)].
      * apply (steps_claimed _ _ _ Hs2), Hto1. left. by apply walk_key.
      * apply Hto2. left. by apply walk_key.
      * apply (steps_claimed _ _ _ Hs2), Hto1. right. exists k, r. split; [by apply walk_elem|by left].
      * apply Hto2. right. exists k, r. split; [by apply walk_elem|by left].
  - intros p (k & r & Hk & ->). assert (arrived_at (their_renames rm) (our_renames rm) fo ft m2 (to_path r)) as (l & Hl & Ha).
    { apply Ha2. destruct Hk as [Hk|Hk]; [right|left; exists k, r; split; [by apply walk_elem|by left]].
      destruct (Ha1 (to_path r)) as (l & Hl & Ha); [left; exists k, r; split; [by apply walk_elem|by left]|].
      exists l. split; [done|]. by apply or_comm. }
    exists l. split; [done|]. by apply or_comm.
  - intros p Hp. rewrite (steps_leaves _ _ _ Hs2), (steps_leaves _ _ _ Hs1); [apply lookup_empty|by intros ?%Ht1|by intros ?%Ht2].
Qed.

(** The merge with renames, up to the merged leaves: it always answers, with a
    storage error or with leaves that are accounted for at every path. *)
Lemma merged_leaves_settles (s : St) (fb fo ft : FlatTree) (rm : MergeRenameMap) :
  plain_flat fb → plain_flat fo → plain_flat ft →
  settles (merged_leaves diff load_blob semantic_merge labels order s fb fo ft rm)
    (λ m, extends s (store m) ∧ leaves_merged diff load_blob semantic_merge labels m rm fb fo ft) (λ _, True).
Proof.
  intros Pb Po Pt. unfold merged_leaves. rewrite bind_assoc.
  step (renames_applied s fo ft rm) as (Hext & Hcl & Hto & Hnone); [|done]. rename a into m2.
  set (ps := order [3] _). assert (NoDup ps) as Hd by (unfold ps; rewrite order_perm; apply NoDup_elements).
  assert (∀ p, p ∉ ps → fb !! p = None ∧ fo !! p = None ∧ ft !! p = None) as Hout.
  { intros p. unfold ps. rewrite order_perm, elem_of_elements, !elem_of_union, !elem_of_dom.
    intros Hn. rewrite !eq_None_not_Some. tauto. }
  clearbody ps.
  eapply settles_mono; [apply (merge_remaining_paths_settles fb fo ft ps m2 Pb Po Pt Hd)| |done].
  { intros p _ Hp. apply Hnone. intros Ht. apply Hp, Hcl. by right. }
  intros m3 [Hs3 Hd3]. split; [etrans; [done|apply (steps_store _ _ _ Hs3)]|]. split.
  - intros p Hp. eapply (arrived_steps (our_renames rm) (their_renames rm) ft fo); [exact Hs3| |by apply Hto].
    intros [_ Hn]. apply Hn, Hcl. by right.
  - intros p Ha Hn. rewrite (steps_leaves _ _ _ Hs3); [by apply Hnone|]. intros [_ Hc]. apply Hc, Hcl. by left.
  - intros p Ha Hn. assert (p ∉ claimed_paths m2) as Hfree by (by intros [?|?]%Hcl).
    destruct (decide (p ∈ ps)) as [Hin|Hnin]; [by apply Hd3|].
    destruct (Hout p Hnin) as (-> & -> & ->). right. rewrite (steps_leaves _ _ _ Hs3) by tauto.
    rewrite (Hnone p Hn). apply flat_side. constructor.
Qed.
End whole.
End steps.

(** ** Examples, on the in-memory store *)
Module Samples.
Import Memory.

(** The hash in the place of BLAKE3; no leaf of the examples is opaque. *)
Definition no_hash (l : list Z) : list Z := l.
Definition text (edit : Z) : list Z := flat_map (λ i, [97 + i; 98 + i; 99 + i; 10]) (seqZ 0 12) ++ [edit; 10].
(** Contents 0, 1, 2 and 3: base, two edits of it, and another file. *)
Definition sample_store : MemStore := {| blobs := [text 65; text 66; text 67; [120; 10]]; trees := [] |}.

Definition run (s : MemStore) (base ours theirs : Tree bool) : mres (MemStore * TreeMergeResult) :=
  merge_trees no_hash Merge.prefix_diff (TreeMerge.Samples.sample_load s) (λ _, []) None
    TreeMerge.Samples.no_labels (λ _ l, l) 3 s base ours theirs
    {| threshold := DEFAULT_THRESHOLD; semantic_similarity := None |}.

(** The conflicts and the content at a path. *)
Definition result (m : mres (MemStore * TreeMergeResult (Oid:=bool))) (p : list path)
  : option (list path * option (list Z * bool)) :=
  match m with
  | Ok (s, r) =>
      Some (merge_conflicts r, TreeMerge.Samples.merged_content (Ok (s, merged_tree r, merge_conflicts r)) p)
  | _ => None
  end.

Abbreviation f := TreeMerge.Samples.leaf_file.
Abbreviation one_file := (λ e : TreeEntry bool, from_entries [e]).

(** [b] is new on their side, and the directory [x] with the file [y]. *)
Definition theirs_added : Tree bool := from_entries [f 97 0 false; f 98 3 false].
Definition directory_store : MemStore :=
  {| blobs := blobs sample_store; trees := [one_file (f 121 3 false)] |}.
Definition theirs_directory : Tree bool := from_entries [f 97 0 false; TreeMerge.Samples.leaf_dir 120 0].

(** C40. The merge with renames loses changes without a conflict.  When both sides
    rename a file to the same path and edit it, the second pass over the renames
    overwrites the first: the result is their file and our edit is gone, although
    the merge is reported clean.  When one side renames a file to a path at which
    the other side added a file, the added file is gone, again with a clean
    merge.  And when a file is renamed to the path of a directory of the other
    side, the merged tree has two entries of that name, which validation
    rejects. *)
Theorem rename_merge_loses_changes :
  (* both rename a to b: contents 1 and 2 merge to 2 *)
  result (run sample_store (one_file (f 97 0 false)) (one_file (f 98 1 false)) (one_file (f 98 2 false))) [[98]]
    = Some ([], Some (text 67, false))
  (* we rename a to b, they add another b *)
  ∧ result (run sample_store (one_file (f 97 0 false)) (one_file (f 98 0 false)) theirs_added) [[98]]
    = Some ([], Some (text 65, false))
  (* we rename a to x, they add x/y *)
  ∧ match run directory_store (one_file (f 97 0 false)) (one_file (f 120 0 false)) theirs_directory with
    | Ok (_, r) =>
        merge_conflicts r = [] ∧ map name (entries (merged_tree r)) = [[120]; [120]]
        ∧ validate (merged_tree r) = Err (InvalidStructure "entries must be strictly sorted by name")
    | _ => False
    end.
Proof. vm_compute. repeat split. Qed.
End Samples.
End RenameMerge.
