(* ===== verification/FlatTrees.v ===== *)
(** * Flat trees and nested trees

    Flattening a stored tree ([flatten_tree] of [rename_matcher.rs]) lists
    exactly its leaves by their joined paths, and rebuilding
    ([build_nested_tree] of [executor.rs]) makes a tree with exactly the leaves
    of a flat tree, so that the two are inverse.  The walk [leaf_at] of
    [ObjectStore] is the common specification. *)

From S2P Require Import Prelude.
From S2P Require Import Text.
From S2P Require Import F64.
From S2P Require Import Merge.
From S2P Require Import Trees.
From S2P Require Import ObjectStore.
From S2P Require Import TreeMerge.
From S2P Require Import RenameMatch.
From S2P Require Import RenameMerge.
Import Text (split, rsplit_once).
Import Trees Stored RenameMatch RenameMerge.

Module FlatTrees.

(** ** Paths *)

(** A name: not empty and without a separator. *)
Definition plain_name (n : path) : Prop := n ≠ [] ∧ 47 ∉ n.

Lemma valid_name_plain n : validate_name n = Ok () → plain_name n.
Proof.
  unfold validate_name. destruct (bool_decide_reflect (n = [])) as [|Hne]; [done|].
  destruct (_ || _); [done|]. destruct (existsb _ n) eqn:E; [done|]. intros _. split; [done|].
  intros Hin. apply not_true_iff_false in E. apply E, existsb_exists. exists 47.
  split; [by apply list_elem_of_In|done].
Qed.

Lemma split_name n : 47 ∉ n → split 47 n = [n].
Proof.
  induction n as [|b n IH]; [done|]. rewrite not_elem_of_cons. intros [Hb Hn]. cbn [split].
  rewrite (proj2 (Z.eqb_neq b 47)), IH by done. done.
Qed.

Lemma split_app n p : 47 ∉ n → split 47 (n ++ 47 :: p) = n :: split 47 p.
Proof.
  induction n as [|b n IH]; [done|]. rewrite not_elem_of_cons. intros [Hb Hn]. cbn [app split].
  rewrite (proj2 (Z.eqb_neq b 47)), IH by done. done.
Qed.

Lemma split_inv q n ps :
  split 47 q = n :: ps → (47 ∉ n) ∧ ((ps = [] ∧ q = n) ∨ ∃ p, q = n ++ 47 :: p ∧ split 47 p = ps).
Proof.
  revert n ps. induction q as [|b q IH]; intros n ps; cbn [split].
  { intros [= <- <-]. split; [apply not_elem_of_nil|by left]. }
  destruct (Z.eqb_spec b 47) as [->|Hb].
  - intros [= <- <-]. split; [apply not_elem_of_nil|]. right. by exists q.
  - destruct (split 47 q) as [|m ms] eqn:E.
    + exfalso. pose proof (zlen_split 47 q) as Hz. rewrite E in Hz. change (zlen []) with 0 in Hz. lia.
    + destruct (IH m ms eq_refl) as [Hm Hor]. intros [= <- <-]. split; [by apply not_elem_of_cons|].
      destruct Hor as [[-> ->]|(p & -> & Hp)]; [by left|right]. by exists p.
Qed.

Lemma split_nonempty q : split 47 q ≠ [].
Proof. pose proof (zlen_split 47 q) as Hz. intros E. rewrite E in Hz. change (zlen []) with 0 in Hz. lia. Qed.

(** The names of a path below a prefix, the empty prefix being the root. *)
Definition below (prefix q : path) : option (list path) :=
  if bool_decide (prefix = []) then Some (split 47 q)
  else if bool_decide (prefix ++ [47] = take (length prefix + 1) q)
       then Some (split 47 (drop (length prefix + 1) q)) else None.

Lemma below_app prefix p : prefix ≠ [] → below prefix (prefix ++ 47 :: p) = Some (split 47 p).
Proof.
  intros Hp. unfold below. rewrite bool_decide_eq_false_2 by done.
  assert (prefix ++ 47 :: p = (prefix ++ [47]) ++ p) as -> by (by rewrite <- app_assoc).
  rewrite take_app_length', drop_app_length' by (rewrite length_app; done). by rewrite bool_decide_eq_true_2.
Qed.

Lemma below_inv prefix q ps :
  prefix ≠ [] → below prefix q = Some ps → ∃ p, q = prefix ++ 47 :: p ∧ ps = split 47 p.
Proof.
  intros Hp. unfold below. rewrite bool_decide_eq_false_2 by done. case_bool_decide as E; [|done].
  intros [= <-]. exists (drop (length prefix + 1) q). split; [|done].
  rewrite <- (take_drop (length prefix + 1) q) at 1. rewrite <- E. by rewrite <- app_assoc.
Qed.

(** The paths below a directory of a prefix. *)
Lemma below_join prefix n q ps :
  plain_name n → below (join_path prefix n) q = Some ps ↔ below prefix q = Some (n :: ps) ∧ ps ≠ [].
Proof.
  intros [Hn Hs]. unfold join_path. destruct (bool_decide_reflect (prefix = [])) as [->|Hp].
  - split.
    + intros (p & -> & ->)%below_inv; [|done]. unfold below. cbn. rewrite split_app by done.
      split; [done|apply split_nonempty].
    + unfold below at 1. cbn. intros [[= E] Hne]. apply split_inv in E as [_ [[-> ->]|(p & -> & <-)]]; [done|].
      by rewrite below_app.
  - assert (prefix ++ [47] ++ n ≠ []) as Hne by (by destruct prefix).
    split.
    + intros (p & -> & ->)%below_inv; [|done].
      replace ((prefix ++ [47] ++ n) ++ 47 :: p) with (prefix ++ 47 :: (n ++ 47 :: p)) by (by rewrite <- !app_assoc).
      rewrite below_app, split_app by done. split; [done|apply split_nonempty].
    + intros [(p & -> & E)%below_inv Hps]; [|done].
      symmetry in E. apply split_inv in E as [_ [[-> ->]|(p' & -> & <-)]]; [done|].
      replace (prefix ++ 47 :: n ++ 47 :: p') with ((prefix ++ [47] ++ n) ++ 47 :: p') by (by rewrite <- !app_assoc).
      by rewrite below_app.
Qed.

Lemma below_name prefix n q : plain_name n → below prefix q = Some [n] ↔ q = join_path prefix n.
Proof.
  intros [Hn Hs]. unfold join_path. destruct (bool_decide_reflect (prefix = [])) as [->|Hp].
  - unfold below. cbn. split.
    + intros [= E]. apply split_inv in E as [_ [[_ ->]|(p & _ & E)]]; [done|]. by apply split_nonempty in E.
    + intros ->. by rewrite split_name.
  - split.
    + intros (p & -> & E)%below_inv; [|done]. symmetry in E.
      apply split_inv in E as [_ [[_ ->]|(p' & _ & E)]]; [done|]. by apply split_nonempty in E.
    + intros ->. change (prefix ++ [47] ++ n) with (prefix ++ 47 :: n). by rewrite below_app, split_name.
Qed.

(** ** Flattening *)
Section flatten.
Context {Oid St : Type} `{ObjectStore Oid St}.
Context (blake3 : list Z → list Z).
Abbreviation entry := (TreeEntry Oid).
Abbreviation tree := (Tree Oid).
Abbreviation leaf := (FlatLeaf Oid).
Abbreviation FlatTree := (gmap path leaf).

(** The flat leaf of a target. *)
Definition flat_of (x : TreeEntryTarget.t Oid) : option leaf :=
  match x with
  | TreeEntryTarget.Blob h executable => Some (flat_blob h executable)
  | TreeEntryTarget.Symlink h => Some (flat_symlink h)
  | TreeEntryTarget.Gitlink target => Some (flat_gitlink blake3 target)
  | TreeEntryTarget.Spoollink spool_id state_id => Some (flat_spoollink blake3 spool_id state_id)
  | TreeEntryTarget.Tree _ => None
  end.

(** The flat leaf at a list of names below some entries. *)
Definition flat_at (s : St) (es : list entry) (ps : list path) : option leaf :=
  match ps with
  | [] => None
  | n :: ps => leaf_below s (by_name es !! n) ps ≫= flat_of
  end.

(** [F] lists the leaves below the entries [es] of a directory at [prefix]. *)
Definition lists (s : St) (prefix : path) (es : list entry) (F : FlatTree) : Prop :=
  ∀ q, F !! q = match below prefix q with Some ps => flat_at s es ps | None => None end.

Lemma lists_cases (s : St) (prefix : path) (es : list entry) (e : entry) (F : FlatTree) (q : path) :
  plain_name (name e) → name e ∉ name <$> es → lists s prefix es F →
  (∃ ps, below prefix q = Some (name e :: ps) ∧ F !! q = None
         ∧ match below prefix q with Some ps => flat_at s (es ++ [e]) ps | None => None end
           = leaf_below s (Some e) ps ≫= flat_of)
  ∨ (∀ ps, below prefix q ≠ Some (name e :: ps))
    ∧ F !! q = match below prefix q with Some ps => flat_at s (es ++ [e]) ps | None => None end.
Proof.
  intros Hn Hnin HF. rewrite (HF q). destruct (below prefix q) as [[|n ps]|] eqn:E; [by right| |by right].
  destruct (decide (n = name e)) as [->|Hne].
  - left. exists ps. split; [done|]. unfold flat_at. rewrite by_name_snoc, lookup_insert_eq. split; [|done].
    destruct (by_name es !! name e) as [e'|] eqn:Ee; [|done]. apply by_name_in in Ee as [Hin Hname].
    destruct Hnin. rewrite <- Hname. by apply list_elem_of_fmap_2.
  - right. split; [intros ps' [= -> _]; done|]. unfold flat_at. by rewrite by_name_snoc, lookup_insert_ne.
Qed.

(** A leaf entry adds its path. *)
Lemma lists_leaf (s : St) (prefix : path) (es : list entry) (e : entry) (l : leaf) (F : FlatTree) :
  plain_name (name e) → name e ∉ name <$> es → lists s prefix es F →
  is_tree e = false → flat_of (target e) = Some l →
  lists s prefix (es ++ [e]) (<[join_path prefix (name e) := l]> F).
Proof.
  intros Hn Hnin HF Htree Hl q.
  destruct (lists_cases s prefix es e F q Hn Hnin HF) as [(ps & Eb & HFq & ->)|[Hnb HFq]].
  - destruct ps as [|p ps].
    + apply below_name in Eb as ->; [|done]. rewrite lookup_insert_eq, leaf_below_some.
      destruct (target e); cbn in *; try done.
    + rewrite TreeMerge.leaf_below_flat by done. rewrite lookup_insert_ne; [done|].
      intros E. symmetry in E. apply below_name in E; [|done]. congruence.
  - rewrite lookup_insert_ne; [done|]. intros E. symmetry in E. apply below_name in E; [|done].
    by apply (Hnb []).
Qed.

(** A directory adds its leaves. *)
Lemma lists_directory (s : St) (prefix : path) (es : list entry) (e : entry) (h : list Z) (t : tree) (F sub : FlatTree) :
  plain_name (name e) → name e ∉ name <$> es → lists s prefix es F →
  target e = TreeEntryTarget.Tree h → get_tree s h = Ok (Some t) →
  lists s (join_path prefix (name e)) (entries t) sub →
  lists s prefix (es ++ [e]) (sub ∪ F).
Proof.
  intros Hn Hnin HF Et Hg Hsub q.
  destruct (lists_cases s prefix es e F q Hn Hnin HF) as [(ps & Eb & HFq & ->)|[Hnb HFq]].
  - rewrite leaf_below_some, Et, (fetch_get _ _ _ Hg). destruct ps as [|p ps].
    + cbn. rewrite lookup_union_r; [done|]. rewrite Hsub. destruct (below (join_path _ _) q) as [ps|] eqn:E; [|done].
      apply below_join in E as [E Hps]; [|done]. rewrite Eb in E. by injection E as <-.
    + assert (below (join_path prefix (name e)) q = Some (p :: ps)) as E by (by apply below_join).
      rewrite lookup_union, HFq, Hsub, E, right_id by apply _. done.
  - rewrite lookup_union_r; [done|]. rewrite Hsub. destruct (below (join_path _ _) q) as [ps|] eqn:E; [|done].
    apply below_join in E as [E _]; [|done]. by destruct (Hnb ps).
Qed.

Lemma flatten_entries_lists (s : St) (n : nat) (prefix : path) (pre post : list entry) (F : FlatTree) :
  (∀ t prefix, grounded n s t → returns (flatten_tree blake3 n s t prefix) (lists s prefix (entries t))) →
  Forall (λ e, validate_entry e = Ok () ∧ settled n s e) post → NoDup (name <$> (pre ++ post)) →
  lists s prefix pre F →
  returns (flatten_entries blake3 (flatten_tree blake3 n s) s prefix post F) (lists s prefix (pre ++ post)).
Proof.
  intros IH Hpost. revert pre F. induction Hpost as [|e post [Hv Hs] Hpost IHp]; intros pre F Hd HF; cbn [flatten_entries].
  { by rewrite app_nil_r. }
  assert (plain_name (name e)) as Hn by (unfold validate_entry in Hv; apply bind_ok_unit in Hv as [Hv _]; by apply valid_name_plain).
  assert (name e ∉ name <$> pre) as Hnin.
  { rewrite fmap_app in Hd. apply NoDup_app in Hd as (_ & Hd & _). intros Hin. apply (Hd _ Hin). by left. }
  replace (pre ++ e :: post) with ((pre ++ [e]) ++ post) in * by (by rewrite <- app_assoc).
  apply returns_bind. eapply (returns_mono _ (lists s prefix (pre ++ [e]))); [|intros F' HF'; by apply IHp].
  unfold flatten_entry. destruct (target e) as [h x|h|h|g|sp st] eqn:Et.
  - apply lists_leaf; [done..| |by rewrite Et]. unfold is_tree, entry_type. by rewrite Et.
  - destruct (Hs h Et) as (t & Hg & Hgr). unfold require_tree. rewrite Hg, bind_Ok. cbn [ok_or]. rewrite bind_Ok.
    step (IH t (join_path prefix (name e)) Hgr) as Hsub. by eapply lists_directory.
  - apply lists_leaf; [done..| |by rewrite Et]. unfold is_tree, entry_type. by rewrite Et.
  - apply lists_leaf; [done..| |by rewrite Et]. unfold is_tree, entry_type. by rewrite Et.
  - apply lists_leaf; [done..| |by rewrite Et]. unfold is_tree, entry_type. by rewrite Et.
Qed.

Lemma flatten_tree_lists (n : nat) (s : St) (t : tree) (prefix : path) :
  grounded n s t → returns (flatten_tree blake3 n s t prefix) (lists s prefix (entries t)).
Proof.
  revert t prefix. induction n as [|n IH]; intros t prefix; [done|]. rewrite grounded_S. intros [Hwf Hs].
  cbn [flatten_tree]. rewrite <- (app_nil_l (entries t)). apply (flatten_entries_lists s n prefix []).
  - done.
  - pose proof (wf_entries _ Hwf) as Hv. rewrite Forall_forall in *. auto.
  - by apply sorted_nodup, wf_sorted.
  - intros q. rewrite lookup_empty. by destruct (below prefix q) as [[|]|].
Qed.

Lemma flat_at_leaf (s : St) (t : tree) (ps : list path) : flat_at s (entries t) ps = leaf_at s t ps ≫= flat_of.
Proof. by destruct ps. Qed.

Lemma lists_extends (n : nat) (s s' : St) (prefix : path) (t : tree) (F : FlatTree) :
  extends s s' → grounded n s t → lists s prefix (entries t) F → lists s' prefix (entries t) F.
Proof.
  intros Hs Hg HF q. rewrite (HF q). destruct (below prefix q) as [ps|]; [|done].
  by rewrite !flat_at_leaf, (leaf_at_extends n s s').
Qed.


(** ** Rebuilding *)
Context (order : path → list path → list path).
Context (order_perm : ∀ at_ l, order at_ l ≡ₚ l).

(** The flat trees that are the leaves of a tree: valid names, and no leaf below
    another one. *)
Record buildable (F : FlatTree) : Prop := {
  buildable_leaf (p : path) (l : leaf) :
    F !! p = Some l → Forall (λ n, validate_name n = Ok ()) (split 47 p) ∧ ∃ x, flat_of x = Some l;
  buildable_below (p q : path) : is_Some (F !! p) → F !! (p ++ 47 :: q) = None
}.

(** The paths are shorter than the fuel. *)
Definition short (n : nat) (F : FlatTree) : Prop := (0 < n)%nat ∧ ∀ p, is_Some (F !! p) → (length p < n)%nat.

Lemma short_depth (F : FlatTree) : short (depth_bound F) F.
Proof.
  unfold depth_bound. split; [lia|]. intros p [l Hl]. apply Nat.lt_succ_r.
  pose proof (proj1 (list_max_le (map (λ p, length p.1) (map_to_list F)) _) (le_n _)) as Hm.
  rewrite List.Forall_forall in Hm. apply Hm, list_elem_of_In, list_elem_of_fmap. exists (p, l).
  split; [done|]. by apply elem_of_map_to_list.
Qed.

Lemma leaf_entry (n : path) (x : TreeEntryTarget.t Oid) (l : leaf) :
  validate_name n = Ok () → flat_of x = Some l →
  leaf_to_tree_entry n l = Ok {| name := n; target := x; git_mode := None |}.
Proof.
  intros Hn Hx. destruct x as [h e|h|h|g|sp st]; cbn [flat_of] in Hx; simplify_eq; unfold leaf_to_tree_entry.
  - by apply TreeMerge.file_ok.
  - cbn [flat_symlink leaf_type]. by rewrite TreeMerge.new_entry_named.
  - cbn [flat_gitlink leaf_type opaque]. by rewrite TreeMerge.new_entry_named.
  - cbn [flat_spoollink leaf_type opaque]. by rewrite TreeMerge.new_entry_named.
Qed.

Lemma split_once_some (p d r : path) : split_once 47 p = Some (d, r) → p = d ++ 47 :: r ∧ 47 ∉ d.
Proof.
  revert d. induction p as [|b p IH]; intros d; [done|]. cbn [split_once]. destruct (Z.eqb_spec b 47) as [->|Hb].
  - intros [= <- <-]. split; [done|apply not_elem_of_nil].
  - destruct (split_once 47 p) as [[d' r']|]; [|done]. intros [= <- ->]. destruct (IH d' eq_refl) as [-> Hd].
    split; [done|by apply not_elem_of_cons].
Qed.

Lemma split_once_none (p : path) : split_once 47 p = None → 47 ∉ p.
Proof.
  induction p as [|b p IH]; [intros _; apply not_elem_of_nil|]. cbn [split_once].
  destruct (Z.eqb_spec b 47); [done|]. destruct (split_once 47 p) as [[]|]; [done|]. intros _. apply not_elem_of_cons; auto.
Qed.

Lemma cut_unique (d d' r r' : path) : 47 ∉ d → 47 ∉ d' → d ++ 47 :: r = d' ++ 47 :: r' → d = d' ∧ r = r'.
Proof.
  revert d'. induction d as [|b d IH]; intros [|b' d']; cbn [app]; rewrite ?not_elem_of_cons.
  - by intros _ _ [= ->].
  - intros _ [Hb _] [= E _]. by destruct Hb.
  - intros [Hb _] _ [= E _]. by destruct Hb.
  - intros [_ Hd] [_ Hd'] [= -> E]. by destruct (IH d' Hd Hd' E) as [-> ->].
Qed.

(** The rows of the files, and for each directory the tree of the rows below it. *)
Record split_rows (rows files : list (path * leaf)) (subdirs : gmap path FlatTree) : Prop := {
  files_spec : files = filter (λ r, 47 ∉ r.1) rows;
  subdirs_name (d : path) : is_Some (subdirs !! d) → 47 ∉ d;
  subdirs_full (d : path) (sub : FlatTree) : subdirs !! d = Some sub → ∃ r, is_Some (sub !! r);
  subdirs_spec (d r : path) (l : leaf) : 47 ∉ d → default ∅ (subdirs !! d) !! r = Some l ↔ (d ++ 47 :: r, l) ∈ rows
}.

Lemma split_flat_spec (rows : list (path * leaf)) :
  NoDup rows.*1 → let '(files, subdirs) := split_flat rows in split_rows rows files subdirs.
Proof.
  unfold split_flat. induction rows as [|[p l] rows IH] using rev_ind; intros Hd.
  { split; [done|..].
    - intros d [sub Hs]. by rewrite lookup_empty in Hs.
    - intros d sub Hs. by rewrite lookup_empty in Hs.
    - intros d r l _. by rewrite lookup_empty, elem_of_nil. }
  rewrite fmap_app in Hd. apply NoDup_app in Hd as (Hd & Hp & _). specialize (IH Hd).
  rewrite fold_left_app. destruct (fold_left _ rows ([], ∅)) as [files subdirs]. destruct IH as [Hf Hn Hfull Hs].
  cbn [fold_left]. destruct (split_once 47 p) as [[d r]|] eqn:E.
  - apply split_once_some in E as [-> Hnd].
    split.
    + rewrite filter_app, <- Hf, filter_cons_False, filter_nil, app_nil_r; [done|].
      cbn. rewrite elem_of_app, elem_of_cons. tauto.
    + intros d' [sub Hsub]. destruct (decide (d' = d)) as [->|Hne]; [done|].
      rewrite lookup_insert_ne in Hsub by done. apply Hn. by exists sub.
    + intros d' sub Hsub. destruct (decide (d' = d)) as [->|Hne].
      * rewrite lookup_insert_eq in Hsub. injection Hsub as <-. exists r. by rewrite lookup_insert_eq.
      * rewrite lookup_insert_ne in Hsub by done. by apply (Hfull d').
    + intros d' r' l' Hd'. rewrite elem_of_app, list_elem_of_singleton, <- Hs by done.
      destruct (decide (d' = d)) as [->|Hne].
      * rewrite lookup_insert_eq. cbn [default from_option id]. rewrite lookup_insert_Some. split.
        { intros [[-> ->]|[_ ?]]; auto. }
        intros [Hl|[= E ->]]; [|left; by apply app_inv_head in E as [= ->]]. right. split; [|done]. intros <-.
        apply (Hp (d ++ 47 :: r)); [|by left]. apply Hs in Hl; [|done]. apply list_elem_of_fmap. eexists (_, _); split; [|exact Hl]; done.
      * rewrite lookup_insert_ne by done. split; [by left|]. intros [?|[= Hc _]]; [done|].
        by destruct (cut_unique _ _ _ _ Hd' Hnd Hc).
  - apply split_once_none in E. split; [|done..|].
    + by rewrite filter_app, <- Hf, filter_cons_True, filter_nil.
    + intros d' r' l' Hd'. rewrite elem_of_app, list_elem_of_singleton, <- Hs by done.
      split; [by left|]. intros [?|[= <- _]]; [done|]. destruct E. rewrite elem_of_app, elem_of_cons. auto.
Qed.

(** What the entries of the files and of the directories are. *)
Definition file_made (r : path * leaf) (e : entry) : Prop :=
  name e = r.1 ∧ validate_entry e = Ok () ∧ git_mode e = None ∧ flat_of (target e) = Some r.2.
Definition directory_made (k : nat) (s : St) (r : path * FlatTree) (e : entry) : Prop :=
  name e = r.1 ∧ validate_entry e = Ok () ∧ git_mode e = None
  ∧ ∃ h t, target e = TreeEntryTarget.Tree h ∧ get_tree s h = Ok (Some t) ∧ grounded k s t
           ∧ lists s [] (entries t) r.2.

Lemma validate_new (n : path) (x : TreeEntryTarget.t Oid) :
  validate_name n = Ok () → validate_entry {| name := n; target := x; git_mode := None |} = Ok ().
Proof. intros Hv. unfold validate_entry. cbn [name git_mode]. by rewrite Hv. Qed.

Lemma file_entries_made (files : list (path * leaf)) :
  Forall (λ r, validate_name r.1 = Ok () ∧ ∃ x, flat_of x = Some r.2) files →
  returns (file_entries files) (λ es, Forall2 file_made files es).
Proof.
  induction 1 as [|[n l] files (Hv & x & Hx) Hf IH]; cbn [file_entries]; [constructor|].
  cbn [fst snd] in *. rewrite (leaf_entry n x l), bind_Ok by done. step IH as Hes. constructor; [|done].
  split; [done|]. split; [by apply validate_new|done].
Qed.

Lemma directory_made_extends k s s' r e : extends s s' → directory_made k s r e → directory_made k s' r e.
Proof.
  intros Hs (Hn & Hv & Hm & h & t & Ht & Hg & Hgr & Hl). do 3 (split; [done|]). exists h, t.
  split; [done|]. split; [by eapply extends_tree|]. split; [by eapply grounded_extends|by eapply lists_extends].
Qed.

Lemma Forall2_elem_r {A B} (P : A → B → Prop) l k y : Forall2 P l k → y ∈ k → ∃ x, x ∈ l ∧ P x y.
Proof.
  intros Hf [i Hi]%list_elem_of_lookup. destruct (Forall2_lookup_r _ _ _ _ _ Hf Hi) as (x & Hx & HP). exists x.
  split; [by eapply list_elem_of_lookup_2|done].
Qed.

Lemma Forall2_elem_l {A B} (P : A → B → Prop) l k x : Forall2 P l k → x ∈ l → ∃ y, y ∈ k ∧ P x y.
Proof.
  intros Hf [i Hi]%list_elem_of_lookup. destruct (Forall2_lookup_l _ _ _ _ _ Hf Hi) as (y & Hy & HP). exists y.
  split; [by eapply list_elem_of_lookup_2|done].
Qed.

Section level.
Context (F : FlatTree) (at_ : path) (files : list (path * leaf)) (subdirs : gmap path FlatTree).
Context (HF : buildable F) (Hrows : split_rows (walk order at_ F) files subdirs).

Lemma file_row (p : path) (l : leaf) : (p, l) ∈ files ↔ F !! p = Some l ∧ 47 ∉ p.
Proof.
  rewrite (files_spec _ _ _ Hrows), list_elem_of_filter, walk_elem by done. cbn. tauto.
Qed.

Lemma subdir_lookup (d : path) (sub : FlatTree) (r : path) :
  subdirs !! d = Some sub → sub !! r = F !! (d ++ 47 :: r).
Proof.
  intros Hd. assert (47 ∉ d) as Hn by (apply (subdirs_name _ _ _ Hrows); by exists sub).
  apply option_eq. intros l. rewrite <- (walk_elem order order_perm at_ F).
  rewrite <- (subdirs_spec _ _ _ Hrows d r l Hn). by rewrite Hd.
Qed.

Lemma subdir_some (d r : path) : 47 ∉ d → is_Some (F !! (d ++ 47 :: r)) → is_Some (subdirs !! d).
Proof.
  intros Hd [l Hl]. apply (walk_elem order order_perm at_ F) in Hl.
  apply (subdirs_spec _ _ _ Hrows d r l Hd) in Hl. destruct (subdirs !! d) as [sub|]; [by eexists|].
  cbn [default from_option] in Hl. by rewrite lookup_empty in Hl.
Qed.

Lemma files_valid : Forall (λ r, validate_name r.1 = Ok () ∧ ∃ x, flat_of x = Some r.2) files.
Proof.
  apply Forall_forall. intros [p l] [Hl Hp]%file_row. destruct (buildable_leaf _ HF p l Hl) as [Hv Hx].
  rewrite split_name, Forall_singleton in Hv by done. done.
Qed.

Lemma subdir_valid (d : path) (sub : FlatTree) :
  subdirs !! d = Some sub → validate_name d = Ok () ∧ buildable sub.
Proof.
  intros Hd. pose proof (λ r, subdir_lookup d sub r Hd) as Hl.
  assert (47 ∉ d) as Hn by (apply (subdirs_name _ _ _ Hrows); by exists sub).
  assert (∀ r l, sub !! r = Some l → validate_name d = Ok () ∧ Forall (λ n, validate_name n = Ok ()) (split 47 r)
    ∧ ∃ x, flat_of x = Some l) as Hleaf.
  { intros r l Hr. rewrite Hl in Hr. destruct (buildable_leaf _ HF _ _ Hr) as [Hv Hx].
    rewrite split_app, Forall_cons in Hv by done. tauto. }
  destruct (subdirs_full _ _ _ Hrows d sub Hd) as [r0 Hr0].
  split; [destruct Hr0 as [l0 Hr0]; by apply (Hleaf r0 l0)|].
  split; [intros r l Hr; by apply (Hleaf r l)|]. intros r q Hr. rewrite !Hl in *.
  change (d ++ 47 :: r ++ 47 :: q) with (d ++ (47 :: r) ++ 47 :: q). rewrite app_assoc. by apply (buildable_below _ HF).
Qed.

(** A file and a directory never share a name. *)
Lemma made_names (k : nat) (s : St) (fs ds : list entry) :
  Forall2 file_made files fs → Forall2 (directory_made k s) (walk order (at_ ++ [0]) subdirs) ds →
  NoDup (name <$> (fs ++ ds)).
Proof.
  intros Hf Hd.
  assert (name <$> fs = files.*1) as Ef by (clear -Hf; induction Hf as [|r e fs es (E & _) Hf IH]; cbn; congruence).
  assert (name <$> ds = (walk order (at_ ++ [0]) subdirs).*1) as Ed
    by (clear -Hd; induction Hd as [|r e fs es (E & _) Hf IH]; cbn; congruence).
  rewrite fmap_app, Ef, Ed. apply NoDup_app. split; [|split; [|by apply walk_nodup]].
  - rewrite (files_spec _ _ _ Hrows). eapply sublist_NoDup; [apply walk_nodup, order_perm|].
    apply fmap_sublist, sublist_filter.
  - intros n ([p l] & -> & [Hp Hs]%file_row)%list_elem_of_fmap ([d sub] & E & Hin)%list_elem_of_fmap. cbn in E, Hs. subst d.
    apply walk_elem in Hin; [|done]. destruct (subdirs_full _ _ _ Hrows p sub Hin) as [r Hr].
    rewrite (subdir_lookup p sub r Hin) in Hr. rewrite (buildable_below _ HF) in Hr by (by exists l). by destruct Hr.
Qed.

Section made.
Context (k : nat) (s : St) (fs ds : list entry) (Hf : Forall2 file_made files fs).
Context (Hd : Forall2 (directory_made k s) (walk order (at_ ++ [0]) subdirs) ds).

Lemma made_good : Forall (λ e, validate_entry e = Ok () ∧ settled k s e) (fs ++ ds).
Proof.
  apply Forall_app. split; apply Forall_forall; intros e He.
  - destruct (Forall2_elem_r _ _ _ _ Hf He) as ([p l] & _ & _ & Hv & _ & Hx). split; [done|]. intros h Ht.
    by rewrite Ht in Hx.
  - destruct (Forall2_elem_r _ _ _ _ Hd He) as (r & _ & _ & Hv & _ & h & t & Ht & Hg & Hgr & _).
    split; [done|]. intros h' Ht'. rewrite Ht in Ht'. injection Ht' as <-. by exists t.
Qed.

(** A path of which the first name has an entry; [q] is split there. *)
Lemma made_listed (e : entry) (ps : list path) (q : path) :
  e ∈ fs ++ ds → (ps = [] ∧ q = name e) ∨ (∃ r, q = name e ++ 47 :: r ∧ split 47 r = ps) →
  F !! q = leaf_below s (Some e) ps ≫= flat_of.
Proof.
  intros [He|He]%elem_of_app Hq; rewrite leaf_below_some.
  - destruct (Forall2_elem_r _ _ _ _ Hf He) as ([p l] & [Hp _]%file_row & En & _ & _ & Hx). cbn in En, Hx. rewrite En in *.
    destruct Hq as [[-> ->]|(r & -> & Hr)]; [rewrite Hp; by destruct (target e)|].
    rewrite (buildable_below _ HF) by (by eexists). destruct (target e); destruct ps; try done; by apply split_nonempty in Hr.
  - destruct (Forall2_elem_r _ _ _ _ Hd He) as ([d sub] & Hp & En & _ & _ & h & t & Ht & Hg & _ & Hl).
    cbn in En, Hl. rewrite En in *. apply walk_elem in Hp; [|done].
    rewrite Ht, (fetch_get _ _ _ Hg), <- flat_at_leaf. destruct Hq as [[-> ->]|(r & -> & <-)].
    + destruct (subdirs_full _ _ _ Hrows d sub Hp) as [r Hr]. rewrite (subdir_lookup d sub r Hp) in Hr.
      cbn [flat_at]. apply eq_None_not_Some. intros Hs. rewrite (buildable_below _ HF) in Hr by done. by destruct Hr.
    + rewrite <- (subdir_lookup d sub r Hp). apply Hl.
Qed.

(** A path that is a leaf has an entry for its first name. *)
Lemma made_entry (n : path) (ps : list path) (q : path) :
  47 ∉ n → (ps = [] ∧ q = n) ∨ (∃ r, q = n ++ 47 :: r ∧ split 47 r = ps) → is_Some (F !! q) →
  n ∈ name <$> (fs ++ ds).
Proof.
  intros Hn Hq Hsome. rewrite fmap_app, elem_of_app, !list_elem_of_fmap.
  destruct Hq as [[-> ->]|(r & -> & Hr)]; [left|right].
  - destruct Hsome as [l Hl]. assert ((n, l) ∈ files) as Hin by (by apply file_row).
    destruct (Forall2_elem_l _ _ _ _ Hf Hin) as (e & He & En & _). by exists e.
  - destruct (subdir_some n r Hn Hsome) as [sub Hs]. apply (walk_elem order order_perm (at_ ++ [0])) in Hs.
    destruct (Forall2_elem_l _ _ _ _ Hd Hs) as (e & He & En & _). by exists e.
Qed.

(** One level: the entries make a tree that lists the leaves. *)
Lemma made_tree : grounded (S k) s (from_entries (fs ++ ds)) ∧ lists s [] (entries (from_entries (fs ++ ds))) F.
Proof.
  pose proof (made_names k s fs ds Hf Hd) as Hnd. pose proof made_good as Hgood. split.
  { apply grounded_S. split; [apply from_entries_wf; [|done]; eapply Forall_impl; [exact Hgood|]; by intros e []|].
    cbn [entries from_entries]. rewrite sort_by_perm. apply (Forall_fmap drop_raw_git_mode).
    eapply Forall_impl; [exact Hgood|]. by intros e [_ He]. }
  intros q. unfold below. rewrite bool_decide_eq_true_2 by done.
  destruct (split 47 q) as [|n ps] eqn:Eq; [by apply split_nonempty in Eq|].
  unfold flat_at. rewrite from_entries_by_name by done. apply split_inv in Eq as [Hn Hq].
  destruct (by_name (fs ++ ds) !! n) as [e|] eqn:Ee; cbn [fmap option_fmap option_map].
  - rewrite (leaf_below_target s (drop_raw_git_mode e) e) by done. apply by_name_in in Ee as [He <-]. by apply made_listed.
  - apply eq_None_not_Some. intros Hsome. apply eq_None_not_Some in Ee. apply Ee.
    apply (made_entry n ps q Hn Hq), list_elem_of_fmap in Hsome as (e & -> & He). exists e. by apply by_name_lookup.
Qed.
End made.
End level.

(** Rebuilding answers for any leaves: [short] is all that the fuel needs. *)
Lemma subdir_short (F : FlatTree) (at_ : path) (files : list (path * leaf)) (subdirs : gmap path FlatTree) (k : nat) (d : path) (sub : FlatTree) :
  split_rows (walk order at_ F) files subdirs → short (S k) F → subdirs !! d = Some sub → short k sub.
Proof.
  intros Hrows [_ Hk] Hd.
  assert (∀ r, is_Some (sub !! r) → (length r < k)%nat) as Hshort.
  { intros r Hr. rewrite (subdir_lookup F at_ files subdirs Hrows d sub r Hd) in Hr. apply Hk in Hr.
    rewrite length_app in Hr. cbn in Hr. lia. }
  destruct (subdirs_full _ _ _ Hrows d sub Hd) as [r0 Hr0]. split; [pose proof (Hshort r0 Hr0); lia|done].
Qed.





Lemma directory_entries_made (k : nat) (build : St → path → FlatTree → mres (St * tree)) (prefix : path)
    (dirs : list (path * FlatTree)) (s : St) :
  (∀ s prefix sub, buildable sub → short k sub →
    settles (build s prefix sub) (λ r, extends s r.1 ∧ grounded k r.1 r.2 ∧ lists r.1 [] (entries r.2) sub) (λ _, True)) →
  Forall (λ r, validate_name r.1 = Ok () ∧ buildable r.2 ∧ short k r.2) dirs →
  settles (directory_entries build s prefix dirs)
    (λ r, extends s r.1 ∧ Forall2 (directory_made k r.1) dirs r.2) (λ _, True).
Proof.
  intros Hb Hdirs. revert s. induction Hdirs as [|[d sub] dirs (Hv & Hsub & Hk) Hdirs IH]; intros s; cbn [directory_entries].
  { split; [done|constructor]. }
  cbn [fst snd] in *. step (Hb s (prefix ++ d ++ [47]) sub Hsub Hk) as (Hs1 & Hg & Hl); [|done].
  destruct a as [s1 t]. cbn [fst snd] in *. step (put_tree_spec s1 t) as [Hs2 Hput]; [|done].
  destruct a as [s2 h]. cbn [fst snd] in *. unfold TreeMerge.directory. rewrite TreeMerge.new_entry_named by done.
  cbn [with_tree_error]. rewrite bind_Ok. step (IH s2) as [Hs3 Hes]; [|done]. destruct a as [s3 es]. cbn [fst snd] in *.
  split; [by transitivity s1; [|transitivity s2]|]. constructor; [|done]. apply (directory_made_extends k s2); [done|].
  split; [done|]. split; [by apply validate_new|]. split; [done|]. exists h, t. split; [done|]. split; [done|].
  split; [by eapply grounded_extends|by eapply lists_extends].
Qed.

Lemma build_nested_tree_settles (n : nat) (s : St) (prefix : path) (F : FlatTree) :
  buildable F → short n F →
  settles (build_nested_tree order n s prefix F)
    (λ r, extends s r.1 ∧ grounded n r.1 r.2 ∧ lists r.1 [] (entries r.2) F) (λ _, True).
Proof.
  revert s prefix F. induction n as [|k IH]; intros s prefix F HF Hk; [by destruct Hk; lia|]. cbn [build_nested_tree].
  pose proof (split_flat_spec (walk order prefix F) (walk_nodup order order_perm prefix F)) as Hrows.
  destruct (split_flat (walk order prefix F)) as [files subdirs].
  step (file_entries_made files (files_valid F prefix files subdirs HF Hrows)) as Hf.
  step (directory_entries_made k (build_nested_tree order k) prefix (walk order (prefix ++ [0]) subdirs) s) as [Hs Hd]; [..|done].
  - done.
  - apply Forall_forall. intros [d sub] Hin%walk_elem; [|done]. cbn [fst snd].
    destruct (subdir_valid F prefix files subdirs HF Hrows d sub Hin). split; [done|]. split; [done|by eapply subdir_short].
  - destruct a0 as [s1 ds]. cbn [fst snd] in *. split; [done|]. by eapply made_tree.
Qed.

(** Rebuilding the nested trees of a flat tree and flattening are inverse: from
    leaves with valid names, none of them below another one, [build_nested_tree]
    answers with a storage error or with a stored tree, well-formed at every
    level, and flattening that tree gives back exactly the leaves.  The fuel is
    one more than the longest path. *)
Theorem nested_tree_roundtrip (s : St) (F : FlatTree) :
  buildable F →
  settles (build_nested_tree order (depth_bound F) s [] F)
    (λ r, extends s r.1 ∧ grounded (depth_bound F) r.1 r.2
       ∧ flatten_tree blake3 (depth_bound F) r.1 r.2 [] = Ok F) (λ _, True).
Proof.
  intros HF. eapply settles_mono; [by apply build_nested_tree_settles, short_depth| |done].
  intros [s' t] (Hs & Hg & Hl). cbn [fst snd] in *. split; [done|]. split; [done|].
  pose proof (flatten_tree_lists (depth_bound F) s' t [] Hg) as Hflat.
  destruct (flatten_tree _ _ _ _ _) as [F'| | |]; try done. f_equal. apply map_eq. intros q. by rewrite (Hflat q), (Hl q).
Qed.

(** ** The merge with renames, from trees to a tree *)
Section merge.
Context (diff : list Merge.line → list Merge.line → list Merge.DiffOp).
Context (load_blob : list Z → path → mres (list Z)).
Context (semantic_merge : option TreeMerge.SemanticMergeFn).
Context (labels : TreeMerge.ConflictLabels).
Context (diff_script : ∀ a b, Merge.script a b 0 0 (diff a b)).
Context (load_answers : ∀ h p, settles (load_blob h p) (λ _, True) (λ _, True)).
Abbreviation merging := (@Merging Oid St).
Abbreviation leaves_merged := (leaves_merged diff load_blob semantic_merge labels).
Abbreviation flat_merged := (flat_merged diff load_blob semantic_merge labels).
Abbreviation arrives := (arrives diff load_blob semantic_merge labels).
Implicit Types (m : merging) (rm : MergeRenameMap) (fb fo ft : FlatTree).


(** ** Merged leaves make a tree *)

(** The renames of a side lead to files of that side. *)
Definition leads_into (ms : gmap path RenameMatch) (F : FlatTree) : Prop :=
  ∀ k r, ms !! k = Some r → is_Some (F !! to_path r) ∧ to_entry_type r = EntryType.Blob.

Lemma detected_leads_into config base branch ms : renames_ok config base branch ms → leads_into ms branch.
Proof. intros Hok k r Hr. destruct (rename_ends _ _ _ _ Hok k r Hr) as (d & a & _ & _ & Ha & _ & _ & Hty & E & _). split; [by exists a|]. by rewrite E. Qed.










End merge.
End flatten.

(** ** Examples, on the in-memory store *)
Module Samples.
Import Memory RenameMerge.Samples.

(** The files [a/b], [a/c] and [d]. *)
Definition sample_flat : gmap path (FlatLeaf bool) :=
  <[ [97; 47; 98] := flat_blob [0] false ]> (<[ [97; 47; 99] := flat_blob [1] true ]> {[ [100] := flat_symlink [2] ]}).

Lemma sample_flat_paths p :
  is_Some (sample_flat !! p) → p = [97; 47; 98] ∨ p = [97; 47; 99] ∨ p = [100].
Proof.
  intros [l Hl]. unfold sample_flat in Hl. rewrite !lookup_insert_Some, lookup_singleton_Some in Hl.
  destruct Hl as [[<- _]|[_ [[<- _]|[_ [<- _]]]]]; tauto.
Qed.

Lemma sample_buildable : buildable no_hash sample_flat.
Proof.
  split.
  - intros p l Hl. split.
    + destruct (sample_flat_paths p) as [->|[->| ->]]; [by exists l|..]; repeat constructor.
    + unfold sample_flat in Hl. rewrite !lookup_insert_Some, lookup_singleton_Some in Hl.
      destruct Hl as [[_ <-]|[_ [[_ <-]|[_ [_ <-]]]]];
        [by exists (TreeEntryTarget.Blob [0] false)|by exists (TreeEntryTarget.Blob [1] true)|by exists (TreeEntryTarget.Symlink [2])].
  - intros p q Hp. apply eq_None_not_Some. intros Hq.
    destruct (sample_flat_paths p Hp) as [->|[->| ->]]; by destruct (sample_flat_paths _ Hq) as [?|[?|?]].
Qed.

Lemma nested_tree_roundtrip_witness :
  settles (build_nested_tree (λ _ l, l) (depth_bound sample_flat) empty [] sample_flat)
    (λ r, extends empty r.1 ∧ grounded (depth_bound sample_flat) r.1 r.2
       ∧ flatten_tree no_hash (depth_bound sample_flat) r.1 r.2 [] = Ok sample_flat) (λ _, True).
Proof. apply (nested_tree_roundtrip no_hash (λ _ l, l) (λ _ l, reflexivity l)), sample_buildable. Defined.

(** We rename [a] to [b]; they edit [a] and add [c]. *)
Definition sample_rename : MergeRenameMap :=
  {| our_renames :=
       {[ [97] := {| from_path := [97]; from_hash := [0]; from_executable := false; to_path := [98];
                     to_hash := [0]; to_entry_type := EntryType.Blob; to_executable := true; match_score := F64.one |} ]};
     their_renames := ∅ |}.
Definition sample_base : Tree bool := one_file (f 97 0 false).
Definition sample_ours : Tree bool := one_file (f 98 0 true).
Definition sample_theirs : Tree bool := from_entries [f 97 1 false; f 99 3 false].
Definition sample_merge : mres (MemStore * Tree bool * list path) :=
  merge_with_renames no_hash Merge.prefix_diff (TreeMerge.Samples.sample_load sample_store) None
    TreeMerge.Samples.no_labels (λ _ l, l) 1 sample_store sample_base sample_ours sample_theirs sample_rename.

Example sample_merge_followed : TreeMerge.Samples.merged_content sample_merge [[98]] = Some (text 66, true).
Proof. vm_compute. reflexivity. Qed.







End Samples.
End FlatTrees.
