(* ===== verification/PackRead.v ===== *)
(** * Reading packs ([crates/pack/src/store/pack/pack_reader.rs])

    Module [PackRead] models the pack reader: opening a container with its
    index, point reads that follow delta chains and unpack shared compact
    frames, the header-only queries, whole-pack visits and the copy of encoded
    entries.  BLAKE3 and zstd are parameters; the tree and state frames of
    [heddle_object_model::compact] are an interface, the class [MetadataFrames]
    with no laws; blob frames are those of [CompactFrame].  The physical index is
    built when it is needed and not cached.  Memory maps, the zero-copy slices of
    [Bytes] and test counters are left out. *)

From S2P Require Import Prelude.
From S2P Require Import Delta.
From S2P Require Import Varint PackFormat PackIndex PackSort.
From S2P Require Import CompactFrame.
Import Varint PackFormat.

Module PackRead.

Definition MAX_PACK_DELTA_OUTPUT_SIZE : Z := Decoder.MAX_DELTA_OUTPUT_SIZE.
Definition MAX_DELTA_CHAIN_DEPTH : Z := 50.

Inductive PackReadTier := Hot | SolidFrame.

(** What the reader uses of tree and state frames; [encode_*] is the durable
    encoding that the reader answers with. *)
Class MetadataFrames (FullTree FullState : Type) := {
  extract_tree : list Z → list Z → exec CompactFrame.CompactError FullTree;
  decode_tree_frame : list Z → exec CompactFrame.CompactError (list FullTree);
  tree_hash : FullTree → list Z;
  encode_tree : FullTree → option (list Z);
  extract_state : list Z → list Z → exec CompactFrame.CompactError FullState;
  decode_state_frame : list Z → exec CompactFrame.CompactError (list FullState);
  state_id : FullState → list Z;
  encode_state : FullState → option (list Z)
}.

Record PackReader := { data : list Z; rindex : PackIndex.PackIndex; has_scratch : bool; content_end : Z }.
Record EncodedPackSubset := { pack_data : list Z; index_data : list Z; encoded_bytes_copied : Z }.

Definition invalid {A} (message : string) : res A := Err (InvalidObject message []).

(** [map_err] of a frame error *)
Definition frame_error {A} (m : exec CompactFrame.CompactError A) : res A :=
  match m with Ok a => Ok a | Err _ => invalid "compact frame" | Panic => Panic | Fuel => Fuel end.
Definition compact_index_miss {A} : res A := invalid "compact frame does not contain indexed object".
Definition compact_extract_error {A} (m : exec CompactFrame.CompactError A) : res A :=
  match m with
  | Ok a => Ok a
  | Err CompactFrame.Missing => compact_index_miss
  | Err _ => invalid "compact frame"
  | Panic => Panic
  | Fuel => Fuel
  end.

(** [usize::try_from] *)
Definition checked_index_offset (offset : Z) : res Z :=
  if offset <=? USIZE_MAX then Ok offset else invalid "Entry offset exceeds platform limits".
Definition checked_index_add (start len : Z) : res Z :=
  ok_or (checked_add start len) (InvalidObject "offset overflows platform limits" []).
Definition checked_data_end (data_start compressed_size content_end : Z) : res Z :=
  data_end ← ok_or (checked_add data_start compressed_size)
               (InvalidObject "Entry data range overflows platform limits" []);
  if content_end <? data_end then invalid "Entry data out of bounds" else Ok data_end.
Definition decoded_entry_type (id : PackObjectId) (encoded : ObjectType) : res ObjectType :=
  if is_annotated_tag id then
    if decide (encoded ≠ Blob) then invalid "annotated-tag pack entry has invalid encoded type" else Ok AnnotatedTag
  else Ok encoded.
Definition verify_record_id_matches (requested found : PackObjectId) : res unit :=
  if bool_decide (requested = found) then Ok ()
  else invalid "pack index routed lookup to a record of another id: index is stale or corrupt".
Definition require_delta_base_hash (base_id : option PackObjectId) : res (list Z) :=
  match base_id with
  | Some (Hash hash) => Ok hash
  | Some _ => invalid "pack delta base must be hash-backed content"
  | None => invalid "pack object type is Delta but base hash is missing"
  end.

Definition is_compact_frame (d : list Z) : bool :=
  CompactFrame.is_blob_frame d || CompactFrame.is_tree_frame d || CompactFrame.is_state_frame d.

Definition content_from (r : PackReader) (offset : Z) : res (list Z) :=
  if content_end r <? offset then invalid "Entry header out of bounds"
  else slice (data r) offset (content_end r).

Definition offset_index (r : PackReader) : res OffsetIndex.OffsetIndex :=
  OffsetIndex.new (rindex r) (has_scratch r).
Definition aliases_at (r : PackReader) (offset : Z) : res bool :=
  o ← offset_index r;
  OffsetIndex.aliases o offset.

(** The id and the declared kind at an offset, and where the sizes go on. *)
Definition read_kind (r : PackReader) (offset : Z) : res (PackObjectId * ObjectType * Z * Z) :=
  rest ← content_from r offset;
  '(id, id_len) ← decode_tagged rest;
  header_start ← checked_index_add offset id_len;
  rest ← content_from r header_start;
  d ← lift (decode_type_and_size rest);
  '(encoded_type, uncompressed_size, type_len) ← ok_or d (InvalidObject "Truncated type+size varint" []);
  varint_start ← checked_index_add header_start type_len;
  Ok (id, encoded_type, uncompressed_size, varint_start).

(** The header of a record, and where its payload starts. *)
Definition read_sizes (r : PackReader) (offset : Z) : res (PackObjectId * ObjectType * Z * Z * Z) :=
  '(id, encoded_type, uncompressed_size, varint_start) ← read_kind r offset;
  obj_type ← decoded_entry_type id encoded_type;
  uncompressed_size ← checked_decoded_size "uncompressed_size" uncompressed_size;
  rest ← content_from r varint_start;
  d ← lift (decode_varint rest);
  '(compressed_size, comp_len) ← ok_or d (InvalidObject "Truncated compressed_size varint" []);
  compressed_size ← checked_decoded_size "compressed_size" compressed_size;
  data_start ← checked_index_add varint_start comp_len;
  Ok (id, obj_type, uncompressed_size, compressed_size, data_start).

Definition record_header (r : PackReader) (offset : Z)
  : res (PackObjectId * ObjectType * Z * Z * option PackObjectId * Z) :=
  '(id, obj_type, uncompressed_size, compressed_size, data_start) ← read_sizes r offset;
  if decide (obj_type = Delta) then
    rest ← content_from r data_start;
    '(base_id, base_len) ← decode_tagged rest;
    data_start ← checked_index_add data_start base_len;
    Ok (id, obj_type, uncompressed_size, compressed_size, Some base_id, data_start)
  else Ok (id, obj_type, uncompressed_size, compressed_size, None, data_start).

Section reader.
Context {FullTree FullState : Type} `{MetadataFrames FullTree FullState}.
Context (blake3 : list Z → list Z).
Context (derive : list Z → list Z).
Context (decoder : list Z → option (list (option (list Z)))).
Abbreviation decompress_pack_payload := (decompress_pack_payload decoder).
Abbreviation object := (PackObjectId * ObjectType * list Z)%type.

(** ** Opening *)
Definition from_bytes (pack_data index_data : list Z) : res PackReader :=
  '(_, _, content_end) ← verify_supported_container blake3 pack_data;
  index ← PackIndex.from_bytes index_data;
  Ok {| data := pack_data; rindex := index; has_scratch := true; content_end := content_end |}.
(** Also [from_slice]. *)
Definition from_slice_in_memory (pack_data index_data : list Z) : res PackReader :=
  reader ← from_bytes pack_data index_data;
  Ok {| data := data reader; rindex := rindex reader; has_scratch := false; content_end := content_end reader |}.
(** [open_with_verification], with the bytes of both files. *)
Definition open_with_verification (pack_data index_data : list Z) (verify_checksum : bool) : res PackReader :=
  '(_, _, content_end) ←
    (if verify_checksum then verify_supported_container blake3 pack_data
     else verify_supported_container_layout blake3 pack_data);
  index ← PackIndex.from_owned_bytes index_data;
  Ok {| data := pack_data; rindex := index; has_scratch := true; content_end := content_end |}.

(** ** Compact frames *)
Fixpoint encode_all {A} (f : A → option (list Z)) (id : A → PackObjectId) (t : ObjectType) (l : list A)
  : res (list object) :=
  match l with
  | [] => Ok []
  | a :: l =>
      bytes ← ok_or (f a) (InvalidObject "object encoding" []);
      os ← encode_all f id t l;
      Ok ((id a, t, bytes) :: os)
  end.

Definition decode_compact_objects (obj_type : ObjectType) (d : list Z) (require_blob_frame : bool)
  : res (option (list object)) :=
  let otherwise :=
    if is_compact_frame d then invalid "compact frame magic does not match its pack object type" else Ok None in
  match obj_type with
  | Blob =>
      if require_blob_frame then
        blobs ← frame_error (CompactFrame.decode_blob_frame blake3 d);
        Ok (Some (map (λ p, (Hash p.1, Blob, p.2)) blobs))
      else Ok None
  | Tree =>
      if CompactFrame.is_tree_frame d then
        trees ← frame_error (decode_tree_frame d);
        os ← encode_all encode_tree (λ t, Hash (tree_hash t)) Tree trees;
        Ok (Some os)
      else otherwise
  | State =>
      if CompactFrame.is_state_frame d then
        states ← frame_error (decode_state_frame d);
        os ← encode_all encode_state (λ s, StateId (state_id s)) State states;
        Ok (Some os)
      else otherwise
  | _ => otherwise
  end.

Definition find_object (id : PackObjectId) (os : list object) : option (list Z) :=
  match list_find (λ o : object, o.1.1 = id) os with Some (_, o) => Some o.2 | None => None end.

Definition decode_compact_object (requested_id : PackObjectId) (obj_type : ObjectType) (d : list Z)
    (require_blob_frame : bool) : res (option (list Z)) :=
  let scan :=
    os ← decode_compact_objects obj_type d require_blob_frame;
    match os with
    | None => Ok None
    | Some os => match find_object requested_id os with Some b => Ok (Some b) | None => compact_index_miss end
    end in
  match obj_type, requested_id with
  | Tree, Hash hash =>
      if CompactFrame.is_tree_frame d then
        tree ← compact_extract_error (extract_tree d hash);
        b ← ok_or (encode_tree tree) (InvalidObject "object encoding" []);
        Ok (Some b)
      else scan
  | State, StateId id =>
      if CompactFrame.is_state_frame d then
        state ← compact_extract_error (extract_state d id);
        b ← ok_or (encode_state state) (InvalidObject "object encoding" []);
        Ok (Some b)
      else scan
  | _, _ => scan
  end.

(** ** Records *)
Definition out_of_bounds (r : PackReader) (offset : Z) : res unit :=
  if content_end r <=? offset then invalid "Entry offset out of bounds" else Ok ().

Definition stored_data (r : PackReader) (data_start compressed_size : Z) : res (list Z) :=
  data_end ← checked_data_end data_start compressed_size (content_end r);
  slice (data r) data_start data_end.

(** Raw zstd: other entries are compressed when the sizes differ, deltas when
    they have the magic. *)
Definition decompressed (obj_type : ObjectType) (stored : list Z) (compressed_size uncompressed_size : Z)
  : res (list Z) :=
  if decide (obj_type = Delta) then
    if has_zstd_magic stored then decompress_pack_payload stored 0 else Ok stored
  else if negb (compressed_size =? uncompressed_size) then decompress_pack_payload stored uncompressed_size
  else Ok stored.

Definition decode_delta (base delta : list Z) (size : Z) : res (list Z) :=
  match Decoder.decode base delta size with
  | Ok d => Ok d
  | Err _ => invalid "Delta decode failed"
  | Panic => Panic
  | Fuel => Fuel
  end.

(** [read] is [read_record_at_depth] below. *)
Definition read_delta_record (read : PackObjectId → Z → Z → res PackObjectRecord) (r : PackReader)
    (base_id : option PackObjectId) (delta : list Z) (uncompressed_size depth : Z) : res (ObjectType * list Z) :=
  if MAX_DELTA_CHAIN_DEPTH <? depth then invalid "Delta chain depth exceeds max"
  else if MAX_PACK_DELTA_OUTPUT_SIZE <? uncompressed_size then invalid "Delta output size exceeds max"
  else
    base_hash ← require_delta_base_hash base_id;
    found ← PackIndex.find (rindex r) (Hash base_hash);
    base_offset ← ok_or found (NotFound base_hash);
    base_offset ← checked_index_offset base_offset;
    base_record ← read (Hash base_hash) base_offset (depth + 1);
    decoded ← decode_delta (rec_data base_record) delta uncompressed_size;
    Ok (rec_obj_type base_record, decoded).

Definition record_of (id : PackObjectId) (obj_type : ObjectType) (d : list Z) : PackObjectRecord :=
  {| rec_id := id; rec_obj_type := obj_type; rec_data := d; rec_delta_base := None; rec_path_hint := None |}.

Fixpoint read_record_at_depth (fuel : nat) (r : PackReader) (requested_id : PackObjectId) (offset depth : Z)
  : res PackObjectRecord :=
  match fuel with
  | O => Fuel
  | S fuel =>
      _ ← out_of_bounds r offset;
      '(id, obj_type, uncompressed_size, compressed_size, base_id, data_start) ← record_header r offset;
      stored ← stored_data r data_start compressed_size;
      d ← decompressed obj_type stored compressed_size uncompressed_size;
      shared_blob ← (if decide (obj_type = Blob) then aliases_at r offset else Ok false);
      compact ←
        (if negb (bool_decide (obj_type = Delta)) && (shared_blob || is_compact_frame d)
         then decode_compact_object requested_id obj_type d shared_blob else Ok None);
      match compact with
      | Some d => Ok (record_of requested_id obj_type d)
      | None =>
          _ ← verify_record_id_matches requested_id id;
          '(resolved_type, final_data) ←
            (if decide (obj_type = Delta)
             then read_delta_record (read_record_at_depth fuel r) r base_id d uncompressed_size depth
             else Ok (obj_type, d));
          if negb (zlen final_data =? uncompressed_size) then invalid "Size mismatch"
          else Ok (record_of id resolved_type final_data)
      end
  end.

(** [read_delta_record] is entered at depths up to 50, so that 52 records are
    read at most. *)
Definition depth_fuel (depth : Z) : nat := Z.to_nat (52 - depth).

Definition get_object (r : PackReader) (id : PackObjectId) : res (option (ObjectType * list Z)) :=
  found ← PackIndex.find (rindex r) id;
  match found with
  | None => Ok None
  | Some offset =>
      offset ← checked_index_offset offset;
      record ← read_record_at_depth (depth_fuel 0) r id offset 0;
      Ok (Some (rec_obj_type record, rec_data record))
  end.
Definition get_hashed_object (r : PackReader) (hash : list Z) : res (option (ObjectType * list Z)) :=
  get_object r (Hash hash).

(** The fast path answers a slice of the pack. *)
Definition get_object_bytes (r : PackReader) (id : PackObjectId) : res (option (ObjectType * list Z)) :=
  found ← PackIndex.find (rindex r) id;
  match found with
  | None => Ok None
  | Some offset =>
      offset ← checked_index_offset offset;
      _ ← out_of_bounds r offset;
      '(record_id, obj_type, uncompressed_size, compressed_size, data_start) ← read_sizes r offset;
      fast ←
        (if bool_decide (record_id = id) && bool_decide (obj_type ≠ Delta) && (compressed_size =? uncompressed_size)
         then
           d ← stored_data r data_start compressed_size;
           Ok (if is_compact_frame d then None else Some d)
         else Ok None);
      match fast with
      | Some d => Ok (Some (obj_type, d))
      | None =>
          record ← read_record_at_depth (depth_fuel 0) r id offset 0;
          Ok (Some (rec_obj_type record, rec_data record))
      end
  end.

(** ** Header queries *)
Fixpoint read_object_type_at_depth (fuel : nat) (r : PackReader) (requested_id : PackObjectId) (offset depth : Z)
  : res ObjectType :=
  match fuel with
  | O => Fuel
  | S fuel =>
      if MAX_DELTA_CHAIN_DEPTH <? depth then invalid "Delta chain depth exceeds max"
      else
        _ ← out_of_bounds r offset;
        rest ← content_from r offset;
        header ← decode_tagged_entry_header rest;
        if bool_decide (id header ≠ requested_id) then
          record ← read_record_at_depth (depth_fuel depth) r requested_id offset depth;
          Ok (rec_obj_type record)
        else if bool_decide (obj_type header ≠ Delta) then Ok (obj_type header)
        else
          base_hash ← require_delta_base_hash (delta_base header);
          found ← PackIndex.find (rindex r) (Hash base_hash);
          base_offset ← ok_or found (NotFound base_hash);
          base_offset ← checked_index_offset base_offset;
          read_object_type_at_depth fuel r (Hash base_hash) base_offset (depth + 1)
  end.
Definition get_hashed_object_type (r : PackReader) (hash : list Z) : res (option ObjectType) :=
  found ← PackIndex.find (rindex r) (Hash hash);
  match found with
  | None => Ok None
  | Some offset =>
      offset ← checked_index_offset offset;
      t ← read_object_type_at_depth (depth_fuel 0) r (Hash hash) offset 0;
      Ok (Some t)
  end.

Definition get_hashed_object_size (r : PackReader) (hash : list Z) : res (option Z) :=
  found ← PackIndex.find (rindex r) (Hash hash);
  match found with
  | None => Ok None
  | Some offset =>
      offset ← checked_index_offset offset;
      _ ← out_of_bounds r offset;
      '(record_id, obj_type, uncompressed_size, _) ← read_kind r offset;
      shared ← (if decide (obj_type = Blob) then aliases_at r offset else Ok false);
      if shared || bool_decide (obj_type = Tree) || bool_decide (obj_type = State) then
        o ← get_object r (Hash hash);
        Ok (option_map (λ o, zlen o.2) o)
      else
        _ ← verify_record_id_matches (Hash hash) record_id;
        Ok (Some uncompressed_size)
  end.

Definition list_ids (r : PackReader) : res (list PackObjectId) := PackIndex.ids (rindex r).
Definition list_hashes (r : PackReader) : res (list (list Z)) :=
  ids ← (list_ids r : res (list PackObjectId));
  Ok (omap (M:=list) (λ i, match i with Hash hash => Some hash | _ => None end) ids).
Definition object_count (r : PackReader) : Z := PackIndex.len (rindex r).
(** Also [contains_object]. *)
Definition has_object (r : PackReader) (id : PackObjectId) : res bool :=
  found ← PackIndex.find (rindex r) id;
  Ok (bool_decide (is_Some found)).

(** ** Whole-pack visits *)
Fixpoint check_unique (previous : option PackObjectId) (es : list PackIndex.IndexEntry) : res unit :=
  match es with
  | [] => Ok ()
  | e :: es =>
      if bool_decide (previous = Some (PackIndex.entry_id e)) then invalid "duplicate pack object identity"
      else check_unique (Some (PackIndex.entry_id e)) es
  end.
Definition validate_unique_ids (r : PackReader) : res unit :=
  es ← PackIndex.all_entries (rindex r);
  check_unique None es.

Definition read_compact_objects_at (r : PackReader) (offset : Z) : res (option (list object)) :=
  _ ← out_of_bounds r offset;
  rest ← content_from r offset;
  header ← decode_tagged_entry_header rest;
  if negb (bool_decide (obj_type header ∈ [Blob; Tree; State])) then Ok None
  else
    shared_blob ← (if decide (obj_type header = Blob) then aliases_at r offset else Ok false);
    if bool_decide (obj_type header = Blob) && negb shared_blob then Ok None
    else
      data_start ← checked_index_add offset (header_len header);
      stored ← stored_data r data_start (compressed_size header);
      d ← (if negb (compressed_size header =? uncompressed_size header)
           then decompress_pack_payload stored (uncompressed_size header) else Ok stored);
      if negb (zlen d =? uncompressed_size header) then invalid "Size mismatch"
      else decode_compact_objects (obj_type header) d shared_blob.

(** Every object of a frame is indexed at the offset of the frame, once. *)
Fixpoint check_members (r : PackReader) (offset : Z) (seen : list PackObjectId) (os : list object) : res unit :=
  match os with
  | [] => Ok ()
  | o :: os =>
      found ← (if decide (o.1.1 ∈ seen) then Ok None else PackIndex.find (rindex r) o.1.1);
      if bool_decide (o.1.1 ∈ seen) || bool_decide (found ≠ Some offset)
      then invalid "compact frame object set differs from its index"
      else check_members r offset (o.1.1 :: seen) os
  end.

Section visit.
Context {A : Type} (visitor : A → PackObjectId → ObjectType → list Z → res A).

Fixpoint visit_all (s : A) (os : list object) : res A :=
  match os with
  | [] => Ok s
  | (id, t, d) :: os => s ← visitor s id t d; visit_all s os
  end.

Definition visit_record (r : PackReader) (s : A) (offset ordinal aliases : Z) : res A :=
  offset ← checked_index_offset offset;
  objects ← read_compact_objects_at r offset;
  match objects with
  | Some objects =>
      if negb (zlen objects =? aliases) then invalid "compact frame object set differs from its index"
      else
        _ ← check_members r offset [] objects;
        visit_all s objects
  | None =>
      if negb (aliases =? 1) then invalid "ordinary pack record is indexed by multiple object ids"
      else
        e ← PackIndex.entry (rindex r) ordinal;
        o ← get_object r (PackIndex.entry_id e);
        '(kind, d) ← ok_or o (InvalidObject "indexed object is missing" []);
        visitor s (PackIndex.entry_id e) kind d
  end.

Definition visit_objects (r : PackReader) (s : A) : res A :=
  _ ← validate_unique_ids r;
  o ← offset_index r;
  OffsetIndex.visit (visit_record r) o s.
End visit.

Definition logical_id (r : PackReader) : res (list Z) :=
  b ← visit_objects (λ b id t d, Ok (PackIdentity.push blake3 b id t d)) r PackIdentity.builder_new;
  Ok (PackIdentity.finish derive b).
Definition representation_hash (r : PackReader) : list Z := PackIdentity.representation_hash blake3 (data r).

Definition indexed_read_tiers (r : PackReader) : res (list (PackObjectId * PackReadTier)) :=
  es ← PackIndex.all_entries (rindex r);
  Ok (map (λ e, (PackIndex.entry_id e,
                 if 1 <? zlen (filter (λ x, PackIndex.offset x = PackIndex.offset e) es) then SolidFrame else Hot)) es).

Definition encoded_payload_bytes (r : PackReader) (t : ObjectType) : res Z :=
  o ← offset_index r;
  OffsetIndex.visit (λ bytes offset _ _,
    offset ← checked_index_offset offset;
    rest ← content_from r offset;
    header ← decode_tagged_entry_header rest;
    Ok (if bool_decide (obj_type header = t) then saturating_add bytes (compressed_size header) else bytes)) o 0.

(** The state is the next offset and the decoded bytes so far. *)
Definition validate_source_layout (r : PackReader) (max_decoded_bytes : Z) : res unit :=
  if PackIndex.is_empty (rindex r) then invalid "source pack is empty"
  else
    _ ← validate_unique_ids r;
    '(_, next, stop) ← verify_supported_container_layout blake3 (data r);
    o ← offset_index r;
    '(next, _) ← OffsetIndex.visit (λ '(next, decoded) offset _ _,
      offset ← checked_index_offset offset;
      if negb (offset =? next) then invalid "source pack has unindexed or overlapping records"
      else
        rest ← content_from r next;
        header ← decode_tagged_entry_header rest;
        decoded ← ok_or (checked_add decoded (uncompressed_size header)) (InvalidObject "source pack size overflow" []);
        if max_decoded_bytes <? decoded then invalid "source pack decoded byte budget exceeded"
        else
          next ← ok_or (checked_add next (header_len header)) (InvalidObject "source pack record length overflow" []);
          next ← ok_or (checked_add next (compressed_size header))
                   (InvalidObject "source pack record length overflow" []);
          if stop <? next then invalid "source pack record exceeds container" else Ok (next, decoded)) o (next, 0);
    if negb (next =? stop) then invalid "source pack has unindexed trailing records" else Ok ().

(** ** Copying encoded entries *)
Definition local_type (t : ObjectType) : bool := bool_decide (t ∈ [Delta; StateAttachment; SnapshotCommit]).

Fixpoint copy_entries (r : PackReader) (expected : list (PackObjectId * ObjectType * Z)) (out : list Z)
    (index : PackIndex.PackIndex) (copied : Z) : res (option (list Z * PackIndex.PackIndex * Z)) :=
  match expected with
  | [] => Ok (Some (out, index, copied))
  | (expected_id, expected_type, expected_size) :: expected =>
      found ← PackIndex.find (rindex r) expected_id;
      match found with
      | None => Ok None
      | Some offset =>
          offset ← checked_index_offset offset;
          _ ← out_of_bounds r offset;
          rest ← content_from r offset;
          header ← decode_tagged_entry_header rest;
          compact ← read_compact_objects_at r offset;
          if bool_decide (is_Some compact) then Ok None
          else if bool_decide (id header ≠ expected_id) || bool_decide (obj_type header ≠ expected_type)
                  || negb (uncompressed_size header =? expected_size) || local_type (obj_type header)
          then Ok None
          else
            encoded_len ← ok_or (checked_add (header_len header) (compressed_size header))
                            (InvalidObject "pack entry length overflow" []);
            encoded_end ← ok_or (checked_add offset encoded_len) (InvalidObject "pack entry end overflow" []);
            if content_end r <? encoded_end then invalid "pack entry extends beyond content boundary"
            else
              entry ← slice (data r) offset encoded_end;
              copied ← ok_or (checked_add copied encoded_len) (InvalidObject "encoded reused byte count overflow" []);
              copy_entries r expected (out ++ entry) (PackIndex.add index expected_id (zlen out)) copied
      end
  end.

Definition copy_hosted_encoded_subset (r : PackReader) (expected : list (PackObjectId * ObjectType * Z))
  : res (option EncodedPackSubset) :=
  if bool_decide (expected = []) then Ok None
  else if negb (bool_decide (NoDup (map (λ e, e.1.1) expected))) || existsb (λ e, local_type e.1.2) expected then Ok None
  else
    copied ← copy_entries r expected (write_container_header [] pack_container_spec (zlen expected)) PackIndex.new 0;
    match copied with
    | None => Ok None
    | Some (out, index, n) =>
        index_data ← lift (PackIndex.to_bytes (PackIndex.sort index));
        Ok (Some {| pack_data := append_container_checksum blake3 out; index_data := index_data;
                    encoded_bytes_copied := n |})
    end.
End reader.
End PackRead.
