(* ===== verification/PackRoundtrip.v ===== *)
(** * Packs that are built are read back

    The pack builder [PackBuild] and the reader [PackRead] composed: every
    object of a built pack is read back, through delta chains, and the reader
    finds nothing else; and the inputs on which the builder writes a pack that
    the reader cannot read. *)

From S2P Require Import Prelude.
From S2P Require Import Text.
From S2P Require Import Delta.
From S2P Require Import Varint PackFormat PackIndex PackSort.
From S2P Require Import F64.
From S2P Require Import CompactFrame.
From S2P Require Import PackBuild.
From S2P Require Import PackRead.
Import Varint PackFormat.

(** ** Containers *)
Lemma verify_written blake3 n body :
  (∀ x, zlen (blake3 x) = 32 ∧ bytes_ok (blake3 x)) → is_u64 n → bytes_ok body →
  let content := write_container_header [] pack_container_spec n ++ body in
  verify_supported_container blake3 (append_container_checksum blake3 content) = Ok (n, 16, zlen content).
Proof.
  intros Hb Hn Hbody content.
  assert (spec_ok pack_container_spec) as Hspec by (split; [done|by vm_compute]).
  assert (zlen (write_container_header [] pack_container_spec n) = 16) as Hh by by apply zlen_container_header.
  assert (bytes_ok content) as Hc.
  { apply Forall_app. split; [|done]. rewrite write_container_header_bytes.
    repeat (apply Forall_app; split); try apply to_be_bytes_ok. by repeat (constructor; [by vm_compute|]). }
  set (d := append_container_checksum blake3 content).
  assert (d = content ++ blake3 content) as Hd by done.
  assert (zlen d = 48 + zlen body) as Hz by (rewrite Hd, zlen_app, (proj1 (Hb _)); unfold content; rewrite zlen_app; lia).
  pose proof (zlen_nonneg body).
  assert (verify_container blake3 d pack_container_spec = Ok (n, 16, zlen content)) as Hv.
  { pose proof (verify_container_spec blake3 (λ x, proj1 (Hb x)) pack_container_spec d Hspec) as Hs.
    assert (bytes_ok d) as Hdb by (rewrite Hd; apply Forall_app; split; [done|apply Hb]). specialize (Hs Hdb).
    destruct (verify_container blake3 d pack_container_spec) as [[[n' hl] stop]|e| |] eqn:E; cbn [settles] in Hs; try done.
    - destruct Hs as (Hn' & -> & body' & Hd' & ->). set (content' := _ ++ body') in *.
      assert (content = content') as Heq.
      { change (content ++ blake3 content = content' ++ blake3 content') in Hd'.
        apply app_inj_2 in Hd'; [by destruct Hd'|].
        pose proof (proj1 (Hb content)). pose proof (proj1 (Hb content')). unfold zlen in *. lia. }
      rewrite <- Heq. do 3 f_equal. unfold content, content' in Heq. rewrite !write_container_header_bytes in Heq.
      rewrite <- !app_assoc in Heq. apply app_inv_head in Heq. apply app_inv_head in Heq.
      apply app_inj_1 in Heq as [Heq _]; [|pose proof (zlen_to_be_bytes 8 n); pose proof (zlen_to_be_bytes 8 n'); unfold zlen in *; lia].
      rewrite <- (from_to_be_bytes_small 8 n'), <- (from_to_be_bytes_small 8 n), Heq; [done|..];
        change (256 ^ Z.of_nat 8) with 18446744073709551616; unfold is_u64, U64_MAX in *; lia.
    - exfalso. by apply (Hs n body). }
  unfold verify_supported_container, verify_supported_container_with.
  rewrite (proj2 (Z.ltb_ge (zlen d) 8)) by lia.
  assert (d = spec_magic pack_container_spec ++ to_be_bytes 4 (spec_version pack_container_spec) ++
    (to_be_bytes 8 n ++ body ++ blake3 content)) as Hparts.
  { rewrite Hd. unfold content at 1. rewrite write_container_header_bytes, <- !app_assoc. done. }
  rewrite (slice_ok d 0 4) by lia. rewrite bind_Ok.
  assert (sub_list d 0 4 = spec_magic pack_container_spec) as -> by (rewrite Hparts; by apply (sub_list_middle [])).
  rewrite bool_decide_eq_false_2 by auto. rewrite bind_Ok, (slice_ok d 4 8) by lia. rewrite bind_Ok.
  assert (sub_list d 4 8 = to_be_bytes 4 (spec_version pack_container_spec)) as ->
    by (rewrite Hparts; by apply sub_list_middle).
  change (from_be_bytes (to_be_bytes 4 (spec_version pack_container_spec))) with (spec_version pack_container_spec).
  by rewrite Z.ltb_irrefl.
Qed.

(** ** Reading one entry *)
Import PackRead.

(** The entry [w] lies at [offset] of the content of the pack. *)
Definition placed (r : PackReader) (offset : Z) (w : written) : Prop :=
  ∃ before after trailer, data r = before ++ w_bytes w ++ after ++ trailer
    ∧ content_end r = zlen before + zlen (w_bytes w) + zlen after ∧ offset = zlen before
    ∧ bytes_ok after ∧ content_end r ≤ USIZE_MAX.

Lemma content_at r before rest trailer offset :
  data r = before ++ rest ++ trailer → content_end r = zlen before + zlen rest → offset = zlen before →
  content_from r offset = Ok rest.
Proof.
  intros Hd Hc ->. pose proof (zlen_nonneg before). pose proof (zlen_nonneg rest). pose proof (zlen_nonneg trailer).
  unfold content_from. rewrite (proj2 (Z.ltb_ge _ _)) by lia. rewrite Hc, Hd.
  rewrite slice_ok by (rewrite ?zlen_app; lia). f_equal. by apply sub_list_middle.
Qed.

Lemma checked_add_ok a b : a + b ≤ USIZE_MAX → checked_index_add a b = Ok (a + b).
Proof. intros Hz. unfold checked_index_add, checked_add. by rewrite (proj2 (Z.leb_le _ _)) by done. Qed.

Lemma decoded_entry_type_ok i t :
  (t = AnnotatedTag ↔ is_annotated_tag i = true) →
  decoded_entry_type i (if decide (t = AnnotatedTag) then Blob else t) = Ok t.
Proof.
  intros Ht. unfold decoded_entry_type. destruct (decide (t = AnnotatedTag)) as [->|Hn].
  - by rewrite (proj1 Ht eq_refl).
  - destruct (is_annotated_tag i); [by exfalso; apply Hn, Ht|done].
Qed.

Definition header_fits (w : written) : Prop :=
  entry_ok (w_id w) (w_stored w) (option_map Hash (w_base w))
  ∧ zlen (w_data w) ≤ MAX_PACK_OBJECT_OUTPUT_SIZE ∧ bytes_ok (w_payload w) ∧ is_u64 (zlen (w_payload w)).

(** The parts of the bytes of an entry. *)
Definition kind_bytes (w : written) : list Z :=
  header_bytes (if decide (w_stored w = AnnotatedTag) then Blob else w_stored w) (zlen (w_data w)).
Definition base_bytes (w : written) : list Z :=
  if decide (w_stored w = Delta) then from_option id_encoding [] (option_map Hash (w_base w)) else [].

Lemma w_bytes_parts w :
  w_bytes w = id_encoding (w_id w) ++ kind_bytes w ++ varint_bytes (zlen (w_payload w)) ++ base_bytes w ++ w_payload w.
Proof. unfold w_bytes, w_header, entry_header_bytes. by rewrite <- !app_assoc. Qed.
Lemma zlen_w_header w :
  zlen (w_header w) = zlen (id_encoding (w_id w)) + zlen (kind_bytes w) + zlen (varint_bytes (zlen (w_payload w)))
                      + zlen (base_bytes w).
Proof. unfold w_header, entry_header_bytes. rewrite !zlen_app. unfold kind_bytes, base_bytes. lia. Qed.

Lemma base_bytes_ok w : header_fits w → bytes_ok (base_bytes w).
Proof.
  intros ((_ & _ & _ & Hb) & _). unfold base_bytes. destruct (decide _); [|constructor].
  destruct (option_map Hash (w_base w)); [|constructor]. by apply id_encoding_bytes.
Qed.
Lemma data_u64 w : header_fits w → is_u64 (zlen (w_data w)).
Proof. intros (_ & Hz & _). unfold is_u64, U64_MAX, MAX_PACK_OBJECT_OUTPUT_SIZE in *. zlia. Qed.

Lemma read_kind_placed r offset w :
  placed r offset w → header_fits w →
  read_kind r offset = Ok (w_id w, (if decide (w_stored w = AnnotatedTag) then Blob else w_stored w),
                           zlen (w_data w), offset + 33 + zlen (kind_bytes w)).
Proof.
  intros (before & after & trailer & Hd & Hc & -> & Ha & Hmax) Hw.
  pose proof (base_bytes_ok w Hw) as Hbb. pose proof (data_u64 w Hw) as Hu.
  destruct Hw as ((Hi & Ht & Hb & Hbi) & Hz & Hp & Hpu). pose proof (zlen_id_encoding _ Hi) as Hzi.
  rewrite w_bytes_parts in *. set (te := if decide (w_stored w = AnnotatedTag) then Blob else w_stored w).
  pose proof (zlen_nonneg (kind_bytes w)). pose proof (zlen_nonneg (varint_bytes (zlen (w_payload w)))).
  pose proof (zlen_nonneg (base_bytes w)). pose proof (zlen_nonneg (w_payload w)). pose proof (zlen_nonneg after).
  rewrite !zlen_app in Hc. rewrite <- !app_assoc in Hd. unfold read_kind.
  rewrite (content_at r before (id_encoding (w_id w) ++ kind_bytes w ++ varint_bytes (zlen (w_payload w)) ++ base_bytes w
    ++ w_payload w ++ after) trailer) by (rewrite ?zlen_app, <- ?app_assoc; done || lia).
  rewrite bind_Ok, decode_id_encoding by done. rewrite bind_Ok, checked_add_ok by lia. rewrite bind_Ok.
  rewrite (content_at r (before ++ id_encoding (w_id w)) (kind_bytes w ++ varint_bytes (zlen (w_payload w)) ++ base_bytes w
    ++ w_payload w ++ after) trailer) by (rewrite ?zlen_app, <- ?app_assoc; done || lia).
  rewrite bind_Ok. unfold kind_bytes. fold te. rewrite decode_encoded_header; [|unfold te; by case_decide|done|].
  2:{ repeat (apply Forall_app; split); try done. by eapply varint_of_bytes, varint_bytes_of. }
  cbn [lift]. rewrite bind_Ok. cbn [ok_or]. rewrite bind_Ok. fold te in H. unfold kind_bytes in *. fold te in H, Hc. rewrite checked_add_ok by lia.
  done.
Qed.

Lemma read_sizes_placed r offset w :
  placed r offset w → header_fits w →
  read_sizes r offset = Ok (w_id w, w_stored w, zlen (w_data w), zlen (w_payload w),
                            offset + 33 + zlen (kind_bytes w) + zlen (varint_bytes (zlen (w_payload w)))).
Proof.
  intros Hpl Hw. unfold read_sizes. rewrite (read_kind_placed r offset w Hpl Hw), bind_Ok.
  destruct Hpl as (before & after & trailer & Hd & Hc & -> & Ha & Hmax).
  pose proof (base_bytes_ok w Hw) as Hbb. pose proof (data_u64 w Hw) as Hu.
  destruct Hw as ((Hi & Ht & Hb & Hbi) & Hz & Hp & Hpu). pose proof (zlen_id_encoding _ Hi) as Hzi.
  rewrite w_bytes_parts in *. rewrite decoded_entry_type_ok by done. rewrite bind_Ok, checked_uncompressed by (split; [zlia|done]).
  rewrite bind_Ok.
  pose proof (zlen_nonneg (varint_bytes (zlen (w_payload w)))).
  pose proof (zlen_nonneg (base_bytes w)). pose proof (zlen_nonneg (w_payload w)). pose proof (zlen_nonneg after).
  rewrite !zlen_app in Hc. rewrite <- !app_assoc in Hd.
  rewrite (content_at r (before ++ id_encoding (w_id w) ++ kind_bytes w) (varint_bytes (zlen (w_payload w)) ++ base_bytes w
    ++ w_payload w ++ after) trailer) by (rewrite ?zlen_app, <- ?app_assoc; done || lia).
  rewrite bind_Ok, decode_encoded_varint by (done || (repeat (apply Forall_app; split); done)).
  cbn [lift]. rewrite bind_Ok. cbn [ok_or]. rewrite bind_Ok, checked_compressed by done. rewrite bind_Ok, checked_add_ok by lia. done.
Qed.

Lemma record_header_placed r offset w :
  placed r offset w → header_fits w →
  record_header r offset = Ok (w_id w, w_stored w, zlen (w_data w), zlen (w_payload w), option_map Hash (w_base w),
                               offset + zlen (w_header w)).
Proof.
  intros Hpl Hw. unfold record_header. rewrite (read_sizes_placed r offset w Hpl Hw), bind_Ok, zlen_w_header.
  destruct Hpl as (before & after & trailer & Hd & Hc & -> & Ha & Hmax).
  destruct Hw as ((Hi & Ht & Hb & Hbi) & Hz & Hp & Hpu). rewrite (zlen_id_encoding _ Hi).
  pose proof (zlen_id_encoding _ Hi) as Hzi. rewrite w_bytes_parts in *. unfold base_bytes in *.
  pose proof (zlen_nonneg (varint_bytes (zlen (w_payload w)))). pose proof (zlen_nonneg (w_payload w)). pose proof (zlen_nonneg after).
  destruct (decide (w_stored w = Delta)) as [Hs|Hs].
  - destruct (proj2 Hb Hs) as [b Hbase]. rewrite Hbase in *. cbn [from_option] in *.
    rewrite !zlen_app in Hc. rewrite <- !app_assoc in Hd. pose proof (zlen_id_encoding _ Hbi) as Hzb.
    rewrite (content_at r (before ++ id_encoding (w_id w) ++ kind_bytes w ++ varint_bytes (zlen (w_payload w)))
      (id_encoding b ++ w_payload w ++ after) trailer) by (rewrite ?zlen_app, <- ?app_assoc; done || lia).
    rewrite bind_Ok, decode_id_encoding by done. rewrite bind_Ok, checked_add_ok by lia. rewrite bind_Ok, Hzb.
    do 2 f_equal. lia.
  - destruct (option_map Hash (w_base w)) as [b|] eqn:Hbase; [by exfalso; apply Hs, Hb; eauto|].
    do 2 f_equal. change (zlen (@nil Z)) with 0. lia.
Qed.

Lemma stored_data_placed r offset w :
  placed r offset w → stored_data r (offset + zlen (w_header w)) (zlen (w_payload w)) = Ok (w_payload w).
Proof.
  intros (before & after & trailer & Hd & Hc & -> & Ha & Hmax). unfold w_bytes in *. rewrite zlen_app in Hc.
  pose proof (zlen_nonneg before). pose proof (zlen_nonneg (w_header w)). pose proof (zlen_nonneg (w_payload w)).
  pose proof (zlen_nonneg after). unfold stored_data, checked_data_end, checked_add.
  rewrite (proj2 (Z.leb_le _ _)) by lia. cbn [ok_or]. rewrite bind_Ok, (proj2 (Z.ltb_ge _ _)) by lia. rewrite bind_Ok.
  rewrite Hd, <- app_assoc, slice_ok by (rewrite ?zlen_app; zlia). f_equal.
  rewrite (app_assoc before). apply sub_list_middle; rewrite zlen_app; lia.
Qed.

(** ** The layout of a built pack *)
Lemma offsets_elem o ws e :
  e ∈ offsets_from o ws →
  ∃ pre w post, ws = pre ++ w :: post
    ∧ e = {| PackIndex.entry_id := w_id w; PackIndex.offset := o + zlen (concat (map w_bytes pre)) |}.
Proof.
  revert o. induction ws as [|w ws IH]; intros o; cbn [offsets_from]; [by intros ?%elem_of_nil|].
  intros [->|He]%elem_of_cons.
  - exists [], w, ws. split; [done|]. cbn [map concat]. change (zlen (@nil Z)) with 0. by rewrite Z.add_0_r.
  - destruct (IH _ He) as (pre & w' & post & -> & ->). exists (w :: pre), w', post. split; [done|].
    cbn [map concat]. by rewrite zlen_app, Z.add_assoc.
Qed.

Lemma offsets_ids o ws : map PackIndex.entry_id (offsets_from o ws) = map w_id ws.
Proof. revert o. induction ws as [|w ws IH]; intros o; cbn [offsets_from map]; [done|]. by rewrite IH. Qed.

Lemma offsets_bounds o ws :
  Forall (λ e, o ≤ PackIndex.offset e ≤ o + zlen (concat (map w_bytes ws))) (offsets_from o ws).
Proof.
  revert o. induction ws as [|w ws IH]; intros o; cbn [offsets_from]; [constructor|]. cbn [map concat].
  rewrite zlen_app. pose proof (zlen_nonneg (w_bytes w)). pose proof (zlen_nonneg (concat (map w_bytes ws))).
  constructor; [cbn [PackIndex.offset]; lia|]. eapply Forall_impl; [apply IH|]. cbv beta. intros e He. lia.
Qed.

Lemma offsets_NoDup o ws :
  Forall (λ w, 0 < zlen (w_bytes w)) ws → NoDup (map PackIndex.offset (offsets_from o ws)).
Proof.
  intros Hw. revert o. induction Hw as [|w ws Hw Hws IH]; intros o; cbn [offsets_from map]; [constructor|].
  constructor; [|done]. cbn [PackIndex.offset]. rewrite list_elem_of_fmap. intros (e & He & Hin).
  pose proof (offsets_bounds (o + zlen (w_bytes w)) ws) as Hb. rewrite Forall_forall in Hb.
  specialize (Hb e Hin). lia.
Qed.

Section opened.
Context (decoder : list Z → option (list (option (list Z)))).
Context (r : PackReader) (ws : list written) (es : list PackIndex.IndexEntry) (index_bytes header trailer : list Z).

(** The reader of a pack that the builder wrote. *)
Record opened : Prop := {
  opened_data : data r = header ++ concat (map w_bytes ws) ++ trailer;
  opened_header : zlen header = 16;
  opened_end : content_end r = 16 + zlen (concat (map w_bytes ws));
  opened_size : content_end r ≤ 2 ^ 62 - 1;
  opened_index : valid_index index_bytes (rindex r) es;
  opened_entries : es ≡ₚ offsets_from 16 ws;
  opened_good : Forall (entry_good decoder ws) ws;
  opened_ids : NoDup (map w_id ws);
}.
Context (Ho : opened).

Lemma entries_bytes : bytes_ok (concat (map w_bytes ws)).
Proof.
  apply Forall_concat, Forall_fmap. eapply Forall_impl; [apply (opened_good Ho)|]. cbv beta. intros w Hw.
  by eapply entry_good_size.
Qed.

Lemma entry_fits w : w ∈ ws → header_fits w.
Proof.
  intros Hw. pose proof (opened_good Ho) as Hg. rewrite Forall_forall in Hg. specialize (Hg w Hw).
  split; [by eapply entry_good_header|]. destruct Hg as ((_ & _ & _ & _ & Hz) & Hp & Hpz & _).
  unfold w_object in Hz. cbn [snd] in Hz. split; [done|]. split; [done|].
  unfold is_u64, U64_MAX, MAX_PACK_OBJECT_OUTPUT_SIZE in *. zlia.
Qed.

Lemma placed_entry pre w post :
  ws = pre ++ w :: post → placed r (16 + zlen (concat (map w_bytes pre))) w.
Proof.
  intros Hws. exists (header ++ concat (map w_bytes pre)), (concat (map w_bytes post)), trailer.
  pose proof (opened_header Ho) as Hh. pose proof (opened_end Ho) as He. pose proof (opened_data Ho) as Hd.
  pose proof (opened_size Ho) as Hz. pose proof entries_bytes as Hb.
  rewrite Hws, map_app, concat_app in He, Hd, Hb. cbn [map concat] in *. rewrite !zlen_app in *.
  split; [by rewrite Hd, <- !app_assoc|]. split; [lia|]. split; [lia|]. split; [|unfold USIZE_MAX; lia].
  apply Forall_app in Hb as [_ Hb]. by apply Forall_app in Hb as [_ Hb].
Qed.

Lemma find_written w :
  w ∈ ws → ∃ offset, PackIndex.find (rindex r) (w_id w) = Ok (Some offset) ∧ placed r offset w ∧ 0 ≤ offset < content_end r.
Proof.
  intros Hw. destruct (returns_inv _ _ (find_valid _ _ _ (w_id w) (opened_index Ho))) as ([off|] & Hf & Hspec).
  - rewrite (opened_entries Ho) in Hspec. apply offsets_elem in Hspec as (pre & w' & post & Hws & [= Hid ->]).
    assert (w' = w) as ->.
    { apply (NoDup_map_inj w_id ws); [apply (opened_ids Ho)| |done|done]. rewrite Hws. apply elem_of_app. right. by left. }
    exists (16 + zlen (concat (map w_bytes pre))). split; [done|]. split; [by eapply placed_entry|].
    rewrite (opened_end Ho), Hws, map_app, concat_app. cbn [map concat]. rewrite !zlen_app.
    pose proof (opened_good Ho) as Hg. rewrite Forall_forall in Hg. specialize (Hg w Hw).
    apply entry_good_size in Hg as (Hz & _). unfold w_bytes. rewrite zlen_app. zlia.
  - exfalso. apply Hspec. rewrite (opened_entries Ho), offsets_ids. apply list_elem_of_fmap. by exists w.
Qed.

Lemma find_missing i : i ∉ map w_id ws → PackIndex.find (rindex r) i = Ok None.
Proof.
  intros Hi. destruct (returns_inv _ _ (find_valid _ _ _ i (opened_index Ho))) as ([off|] & Hf & Hspec); [|done].
  exfalso. apply Hi. rewrite (opened_entries Ho) in Hspec. apply offsets_elem in Hspec as (pre & w & post & -> & [= -> _]).
  apply list_elem_of_fmap. exists w. split; [done|]. apply elem_of_app. right. by left.
Qed.

Lemma entry_count : zlen es = zlen ws.
Proof.
  unfold zlen. rewrite (opened_entries Ho), <- (length_fmap PackIndex.entry_id). change (fmap (M:=list)) with (@map PackIndex.IndexEntry PackObjectId).
  by rewrite offsets_ids, length_map.
Qed.

Lemma entries_size : 33 * zlen ws ≤ content_end r.
Proof.
  rewrite (opened_end Ho). assert (33 * zlen ws ≤ zlen (concat (map w_bytes ws))); [|lia].
  pose proof (opened_good Ho) as Hg.
  assert (∀ vs, Forall (entry_good decoder ws) vs → 33 * zlen vs ≤ zlen (concat (map w_bytes vs))) as H; [|by apply H].
  induction 1 as [|w vs Hw Hvs IH]; cbn [map concat]; [done|]. rewrite zlen_cons, zlen_app. unfold w_bytes at 1. rewrite zlen_app.
  apply entry_good_size in Hw as (Hz & _). zlia.
Qed.

(** No two entries share an offset. *)
Lemma offset_index_written :
  ∃ o l, offset_index r = Ok o ∧ holds o l ∧ l ≡ₚ zip (map PackIndex.offset es) (seqZ 0 (zlen es))
    ∧ NoDup (map fst l).
Proof.
  pose proof (opened_index Ho) as (Hix & Hreads & _). pose proof entry_count as Hn. pose proof entries_size as Hz.
  pose proof (opened_size Ho).
  assert (PackIndex.len (rindex r) = zlen es) as Hlen by (by rewrite Hix).
  assert (NoDup (map PackIndex.offset es)) as Hnd.
  { assert (map PackIndex.offset es ≡ₚ map PackIndex.offset (offsets_from 16 ws)) as -> by (by rewrite (opened_entries Ho)).
    apply offsets_NoDup. eapply Forall_impl; [apply (opened_good Ho)|].
    cbv beta. intros w (Hw & _)%entry_good_size. unfold w_bytes. rewrite zlen_app. zlia. }
  destruct (offset_index_new (rindex r) es) as (o & l & Hnew & Hl & Hp).
  - by rewrite Hlen.
  - rewrite (opened_entries Ho). eapply Forall_impl; [apply offsets_bounds|]. cbv beta. intros e He.
    rewrite <- (opened_end Ho) in He. unfold is_u64, U64_MAX. lia.
  - rewrite Hlen. unfold U64_MAX. lia.
  - rewrite Hlen in Hp. exists o, l. split; [apply Hnew|]. split; [done|]. split; [done|]. rewrite Hp.
    assert (map fst (zip (map PackIndex.offset es) (seqZ 0 (zlen es))) = map PackIndex.offset es) as ->; [|done].
    apply fst_zip. rewrite length_map, length_seqZ. unfold zlen. lia.
Qed.

Lemma aliases_written offset : aliases_at r offset = Ok false.
Proof.
  destruct offset_index_written as (o & l & Ho' & Hl & _ & Hnd). unfold aliases_at. rewrite Ho', bind_Ok.
  destruct (returns_inv _ _ (aliases_spec o l offset Hl)) as (b & -> & Hb). destruct b; [|done].
  destruct (proj1 Hb eq_refl) as (j & k & x & y & Hjk & Hj & Hk & Hx & Hy). exfalso.
  assert (j = k); [|lia].
  eapply (NoDup_lookup _ j k offset); [exact Hnd|..]; rewrite list_lookup_fmap, ?Hj, ?Hk; cbn; by f_equal.
Qed.
End opened.

(** ** Reading an object through its chain *)
Section reading.
Context {FullTree FullState : Type} `{!MetadataFrames FullTree FullState}.
Context (blake3 : list Z → list Z) (decoder : list Z → option (list (option (list Z)))).
Context (r : PackReader) (ws : list written) (es : list PackIndex.IndexEntry) (index_bytes header trailer : list Z).
Context (Ho : opened decoder r ws es index_bytes header trailer).

(** Objects other than blobs that are not frames of several objects. *)
Definition ordinary (o : object) : Prop := o.1.2 = Blob ∨ is_compact_frame o.2 = false.
Context (Hord : Forall (λ w, ordinary (w_object w)) ws).

Lemma decompressed_unpacks w d :
  unpacks decoder w d → decompressed decoder (w_stored w) (w_payload w) (zlen (w_payload w)) (zlen (w_data w)) = Ok d.
Proof.
  unfold unpacks, decompressed. intros Hu.
  destruct (decide (w_stored w = Delta)); [destruct (has_zstd_magic (w_payload w))|destruct (negb _)]; congruence.
Qed.

Lemma compact_ordinary w :
  w ∈ ws →
  (if negb (bool_decide (w_type w = Delta)) && (false || is_compact_frame (w_data w))
   then decode_compact_object blake3 (w_id w) (w_type w) (w_data w) false else Ok None) = Ok None.
Proof.
  intros Hw. rewrite Forall_forall in Hord. destruct (Hord w Hw) as [Hb|Hf]; cbn [w_object fst snd] in *.
  - rewrite Hb. destruct (_ && _); [|done]. done.
  - rewrite Hf, andb_false_r. done.
Qed.

Lemma find_id_ok w offset :
  placed r offset w → checked_index_offset offset = Ok offset ∧ 0 ≤ offset.
Proof.
  intros (before & after & trailer' & _ & Hc & -> & _ & Hmax). pose proof (zlen_nonneg (w_bytes w)).
  pose proof (zlen_nonneg after). pose proof (zlen_nonneg before). unfold checked_index_offset.
  by rewrite (proj2 (Z.leb_le _ _)) by lia.
Qed.

Lemma read_written n w fuel offset depth :
  w ∈ ws → placed r offset w → offset < content_end r → w_depth w ≤ Z.of_nat n → (n < fuel)%nat →
  depth + w_depth w ≤ MAX_DELTA_CHAIN_DEPTH →
  ∃ record, read_record_at_depth blake3 decoder fuel r (w_id w) offset depth = Ok record
    ∧ rec_obj_type record = w_type w ∧ rec_data record = w_data w.
Proof.
  revert w fuel offset depth. induction n as [|n IH]; intros w fuel offset depth Hw Hpl Hoff Hn Hfuel Hdepth;
    (destruct fuel as [|fuel]; [lia|]); cbn [read_record_at_depth].
  all: pose proof (entry_fits _ _ _ _ _ _ _ Ho w Hw) as Hfits.
  all: pose proof (opened_good _ _ _ _ _ _ _ Ho) as Hg; rewrite Forall_forall in Hg;
       pose proof (Hg w Hw) as (Hobj & _ & _ & Hkind).
  all: unfold out_of_bounds; rewrite (proj2 (Z.leb_gt _ _)) by lia; rewrite bind_Ok.
  all: rewrite (record_header_placed r offset w Hpl Hfits), bind_Ok.
  all: rewrite (stored_data_placed r offset w Hpl), bind_Ok.
  all: destruct Hkind as [(Hst & Hbase & Hd0 & Hun)|((h & Hh) & Hst & Hd0 & Hlim & base & delta & Hin & (hb & Hhb & Hwb) & Hbok & Hbt & Hdep & Hun & Hdec)].
  2: lia.
  1,2: rewrite (decompressed_unpacks w _ Hun), bind_Ok; rewrite Hst.
  1,2: assert ((if decide (w_type w = Blob) then aliases_at r offset else Ok false) = Ok false) as ->
         by (destruct (decide _); [by eapply aliases_written|done]).
  1,2: rewrite bind_Ok, (compact_ordinary w Hw), bind_Ok; unfold verify_record_id_matches; rewrite bool_decide_eq_true_2 by done;
       rewrite bind_Ok, decide_False by apply Hobj; rewrite bind_Ok, Z.eqb_refl; cbn [negb]; eexists; by split.
  rewrite (decompressed_unpacks w _ Hun), bind_Ok, Hst. rewrite (decide_False (P:=Delta = Blob)) by done.
  rewrite bind_Ok. rewrite bool_decide_eq_true_2 by done. cbn [negb andb]. rewrite bind_Ok.
  unfold verify_record_id_matches; rewrite bool_decide_eq_true_2 by done. rewrite bind_Ok, decide_True by done.
  unfold read_delta_record. rewrite (proj2 (Z.ltb_ge _ _)) by lia.
  rewrite (proj2 (Z.ltb_ge _ _)) by done. rewrite Hwb. cbn [option_map require_delta_base_hash]. rewrite bind_Ok.
  destruct (find_written _ _ _ _ _ _ _ Ho base Hin) as (boff & Hfind & Hbpl & Hboff). rewrite Hhb in Hfind.
  rewrite Hfind, bind_Ok. cbn [ok_or]. rewrite bind_Ok, (proj1 (find_id_ok base boff Hbpl)), bind_Ok.
  destruct (IH base fuel boff (depth + 1) Hin Hbpl ltac:(lia) ltac:(lia) ltac:(lia) ltac:(lia)) as (rec & Hrec & Hrt & Hrd).
  rewrite Hhb in Hrec. rewrite Hrec, bind_Ok. unfold decode_delta. rewrite Hrd, Hdec, bind_Ok. rewrite Hrt.
  rewrite bind_Ok, Z.eqb_refl. cbn [negb]. eexists. split; [done|]. by rewrite <- Hbt.
Qed.

Lemma get_object_written w :
  w ∈ ws → get_object blake3 decoder r (w_id w) = Ok (Some (w_type w, w_data w)).
Proof.
  intros Hw. destruct (find_written _ _ _ _ _ _ _ Ho w Hw) as (offset & Hf & Hpl & Hoff). unfold get_object.
  rewrite Hf, bind_Ok, (proj1 (find_id_ok w offset Hpl)), bind_Ok.
  pose proof (opened_good _ _ _ _ _ _ _ Ho) as Hg. rewrite Forall_forall in Hg. pose proof (Hg w Hw) as (_ & _ & _ & Hkind).
  assert (0 ≤ w_depth w ≤ MAX_DELTA_CHAIN_DEPTH) as Hdepth.
  { destruct Hkind as [(_ & _ & -> & _)|(_ & _ & Hd & _)]; unfold MAX_DELTA_CHAIN_DEPTH, PackBuild.MAX_DELTA_CHAIN_DEPTH in *; lia. }
  destruct (read_written 50 w (depth_fuel 0) offset 0) as (rec & -> & Ht & Hd); try done; try lia.
  - unfold MAX_DELTA_CHAIN_DEPTH in *. lia.
  - unfold depth_fuel. lia.
  - by rewrite bind_Ok, Ht, Hd.
Qed.

Lemma get_object_missing i : i ∉ map w_id ws → get_object blake3 decoder r i = Ok None.
Proof. intros Hi. unfold get_object. by rewrite (find_missing _ _ _ _ _ _ _ Ho). Qed.

(** The fast path answers the same. *)
Lemma get_object_bytes_written w :
  w ∈ ws → get_object_bytes blake3 decoder r (w_id w) = Ok (Some (w_type w, w_data w)).
Proof.
  intros Hw. pose proof (get_object_written w Hw) as Hget. unfold get_object in Hget. unfold get_object_bytes.
  destruct (find_written _ _ _ _ _ _ _ Ho w Hw) as (offset & Hf & Hpl & Hoff).
  rewrite Hf, bind_Ok, (proj1 (find_id_ok w offset Hpl)), bind_Ok in Hget.
  rewrite Hf, bind_Ok, (proj1 (find_id_ok w offset Hpl)), bind_Ok.
  unfold out_of_bounds. rewrite (proj2 (Z.leb_gt _ _)) by lia. rewrite bind_Ok.
  rewrite (read_sizes_placed r offset w Hpl (entry_fits _ _ _ _ _ _ _ Ho w Hw)), bind_Ok.
  rewrite bool_decide_eq_true_2 by done. cbn [andb]. case_bool_decide as Hst; [|done].
  destruct (Z.eqb_spec (zlen (w_payload w)) (zlen (w_data w))) as [Hz|Hz]; [|done]. cbn [andb].
  assert (offset + 33 + zlen (kind_bytes w) + zlen (varint_bytes (zlen (w_payload w))) = offset + zlen (w_header w)) as ->.
  { rewrite zlen_w_header. unfold base_bytes. rewrite decide_False by done. change (zlen (@nil Z)) with 0.
    rewrite zlen_id_encoding by (by apply (entry_fits _ _ _ _ _ _ _ Ho w Hw)). lia. }
  rewrite (stored_data_placed r offset w Hpl), !bind_Ok.
  destruct (is_compact_frame (w_payload w)); [done|].
  pose proof (opened_good _ _ _ _ _ _ _ Ho) as Hg. rewrite Forall_forall in Hg. pose proof (Hg w Hw) as (_ & _ & _ & Hkind).
  destruct Hkind as [(-> & _ & _ & Hun)|(_ & ? & _)]; [|done]. unfold unpacks in Hun.
  rewrite decide_False, Hz, Z.eqb_refl in Hun.
  2:{ intros E. apply Hst. destruct (Hg w Hw) as (_ & _ & _ & [(-> & _)|(_ & ? & _)]); done. }
  cbn [negb] in Hun. by rewrite Hun.
Qed.
End reading.

(** ** From the builder to the reader *)
Import PackBuild(PackBuilder, objects, compression, delta_window, group_by_type, build, build_impl).

Section roundtrip.
Context {FullTree FullState : Type} `{!MetadataFrames FullTree FullState}.
Context (blake3 : list Z → list Z) (encode_all : list Z → Z → option (list Z)).
Context (decoder : list Z → option (list (option (list Z)))).
Context (order : list (ObjectType * list PackObjectRecord) → list (ObjectType * list PackObjectRecord)).

(** What the code relies on of BLAKE3, of [zstd] and of the iteration of a
    [HashMap]. *)
Record services : Prop := {
  blake3_digest : ∀ x, zlen (blake3 x) = 32 ∧ bytes_ok (blake3 x);
  zstd_inverse : ∀ d level c, encode_all d level = Some c → zstd_stream decoder c d;
  order_perm : ∀ gs, order gs ≡ₚ gs;
}.

(** A record that a pack can carry and the reader give back. *)
Definition record_fits (r : PackObjectRecord) : Prop :=
  object_ok (rec_object r) ∧ ordinary (rec_object r) ∧ rec_delta_base r = None
  ∧ zlen (rec_data r) ≤ Decoder.MAX_DELTA_OUTPUT_SIZE.
Definition total_size (rs : list PackObjectRecord) : Z := Z.of_nat (sum_list_with (λ r, length (rec_data r) + 86)%nat rs).
Record packable (b : PackBuilder) : Prop := {
  packable_records : Forall record_fits (objects b);
  packable_ids : NoDup (map rec_id (objects b));
  packable_deltas : safe_deltas (map rec_data (objects b));
  packable_size : total_size (objects b) < 2 ^ 62 - 16;
}.

Context (Hs : services).

Lemma zlen_written_le ws vs rs :
  Forall (entry_good decoder ws) vs → map w_object vs ≡ₚ map rec_object rs →
  zlen (concat (map w_bytes vs)) ≤ total_size rs.
Proof.
  intros Hg Hp. unfold total_size.
  assert (∀ os os' : list object, os ≡ₚ os' →
    sum_list_with (λ o : object, length o.2 + 86)%nat os = sum_list_with (λ o : object, length o.2 + 86)%nat os') as Hsum.
  { intros os os' Hos. unfold sum_list_with. induction Hos; cbn; lia. }
  apply Hsum in Hp.
  assert (sum_list_with (λ o : object, length o.2 + 86)%nat (map rec_object rs)
    = sum_list_with (λ r, length (rec_data r) + 86)%nat rs) as <- by (clear; induction rs; cbn; [done|by f_equal]).
  rewrite <- Hp. clear Hp. induction Hg as [|w vs Hw Hg IH]; cbn [map concat sum_list_with]; [done|].
  apply entry_good_size in Hw as (_ & Hw & _). rewrite zlen_app. unfold w_object at 1. cbn [snd]. unfold zlen in *. lia.
Qed.

Lemma build_opened b keep :
  packable b →
  returns (build_impl blake3 encode_all order b keep) (λ '(pack, index_data, _, _), ∃ ws es r trailer,
    from_bytes blake3 pack index_data = Ok r
    ∧ opened decoder r ws es index_data (write_container_header [] pack_container_spec (zlen (objects b))) trailer
    ∧ map w_object ws ≡ₚ map rec_object (objects b)).
Proof.
  intros [Hrec Hids Hsafe Hsize]. unfold build_impl. set (hdr := write_container_header [] _ _).
  assert (zlen hdr = 16) as Hh by (apply zlen_container_header; split; [done|by vm_compute]).
  set (st0 := {| PackBuild.pack_data := hdr; PackBuild.index := _; PackBuild.total_uncompressed := _;
    PackBuild.total_compressed := _; PackBuild.delta_count := _; PackBuild.retained := _ |}).
  assert (inv decoder hdr st0 []) as Hinv.
  { split; [cbn [PackBuild.pack_data map concat]; by rewrite app_nil_r|]. split; [done|constructor]. }
  assert (Forall (group_ok (map rec_data (objects b))) (order (group_by_type (objects b)))) as Hgroups.
  { destruct (group_by_type_spec (objects b)) as [Hp Hty]. rewrite (order_perm Hs).
    apply Forall_forall. intros g Hg. apply Forall_forall. intros rec Hr.
    assert (rec ∈ objects b) as Hin.
    { rewrite <- Hp. apply list_elem_of_In, in_concat. exists g.2. split; [|by apply list_elem_of_In].
      apply list_elem_of_In, list_elem_of_fmap. by exists g. }
    rewrite Forall_forall in Hrec. destruct (Hrec rec Hin) as (Hok & _ & Hbase & Hlim).
    rewrite Forall_forall in Hty. pose proof (Hty g Hg) as Hg'. rewrite Forall_forall in Hg'.
    split; [by split; [|split; [apply Hg'|]]|]. split; [|done]. apply list_elem_of_fmap. by exists rec. }
  step (build_groups_good encode_all decoder (compression b) (zstd_inverse Hs) hdr (map rec_data (objects b)) Hsafe
          (delta_window b) keep st0 [] _ Hinv Hgroups) as (ws & Hws & Hst).
  destruct Hst as (Hdata & Hindex & Hgood). rewrite app_nil_l in *.
  assert (map w_object ws ≡ₚ map rec_object (objects b)) as Hobj.
  { rewrite Hws. apply Permutation_map. rewrite (order_perm Hs). apply group_by_type_spec. }
  pose proof (zlen_written_le _ _ _ Hgood Hobj) as Hz.
  assert (Forall index_entry_ok (offsets_from 16 ws)) as Hie.
  { apply Forall_forall. intros e He. pose proof (offsets_bounds 16 ws) as Hb. rewrite Forall_forall in Hb.
    specialize (Hb e He). split; [|rewrite PACK_OFFSET_MASK_ones; change (Z.ones 62) with (2 ^ 62 - 1); lia].
    apply offsets_elem in He as (pre & w & post & -> & ->). apply Forall_app in Hgood as [_ Hgood].
    by apply Forall_cons in Hgood as [((Hi & _) & _) _]. }
  assert (33 * zlen ws ≤ zlen (concat (map w_bytes ws))) as Hcount.
  { clear -Hgood. assert (∀ vs, Forall (entry_good decoder ws) vs → 33 * zlen vs ≤ zlen (concat (map w_bytes vs))) as H; [|by apply H].
    induction 1 as [|w vs Hw Hvs IH]; cbn [map concat]; [done|]. rewrite zlen_cons, zlen_app. unfold w_bytes at 1.
    rewrite zlen_app. apply entry_good_size in Hw as (Hz & _). zlia. }
  assert (zlen (offsets_from 16 ws) = zlen ws) as Hlen.
  { unfold zlen. rewrite <- (length_map PackIndex.entry_id), offsets_ids, length_map. done. }
  destruct (sorted_index_written (offsets_from 16 ws) Hie) as (d & ix & Hd & Hfrom & Hvalid & Hperm).
  { rewrite Hlen. unfold USIZE_MAX. lia. }
  rewrite Hindex, Hh, Hd. cbn [lift]. rewrite bind_Ok. cbn [returns].
  assert (zlen ws = zlen (objects b)) as Hn.
  { unfold zlen. rewrite <- (length_map w_object), Hobj, length_map. done. }
  exists ws, (PackIndex.entries (PackIndex.sort {| PackIndex.entries := offsets_from 16 ws; PackIndex.encoded := None |})).
  eexists _, (blake3 (PackBuild.pack_data a)).
  assert (bytes_ok (concat (map w_bytes ws))) as Hbytes.
  { apply Forall_concat, Forall_fmap. eapply Forall_impl; [exact Hgood|]. cbv beta. intros w Hw. by eapply entry_good_size. }
  split.
  { unfold from_bytes. rewrite Hdata. unfold hdr. rewrite verify_written by
      (apply (blake3_digest Hs) || done || (unfold is_u64, U64_MAX; zlia)).
    rewrite bind_Ok. unfold PackIndex.from_bytes. rewrite Hfrom, bind_Ok. reflexivity. }
  split; [|done]. split; cbn [data rindex content_end]; try done.
  - unfold append_container_checksum, append_checksum. by rewrite Hdata, <- app_assoc.
  - fold hdr. rewrite zlen_app. lia.
  - fold hdr. rewrite zlen_app. lia.
  - assert (map w_id ws ≡ₚ map rec_id (objects b)) as ->; [|done].
    assert (map w_id ws = map (λ o : object, o.1.1) (map w_object ws)) as -> by (by rewrite map_map).
    assert (map rec_id (objects b) = map (λ o : object, o.1.1) (map rec_object (objects b))) as -> by (by rewrite map_map).
    by apply Permutation_map.
Qed.

Lemma ordinary_written b ws :
  packable b → map w_object ws ≡ₚ map rec_object (objects b) → Forall (λ w, ordinary (w_object w)) ws.
Proof.
  intros Hb Hobj. apply (Forall_fmap w_object ordinary). change (fmap (M:=list)) with (@map written object). rewrite Hobj.
  apply (Forall_fmap rec_object ordinary). eapply Forall_impl; [apply (packable_records b Hb)|]. by intros rec (_ & ? & _).
Qed.

(** C1. Every built pack reads back: for objects that the format can carry, with
    distinct ids and where no delta looks like a compressed one, the builder
    succeeds, whatever its window, its compression level and the order of its
    groups; the reader opens the pack and its index, answers every added id with
    the type and data that were added, through chains of deltas, by both read
    paths; it answers that it does not have any other id; and it lists exactly
    the added ids. *)
Theorem build_read_roundtrip b :
  packable b →
  returns (build blake3 encode_all order b) (λ '(pack, index_data, stats), ∃ r,
    from_bytes blake3 pack index_data = Ok r
    ∧ (∀ rec, rec ∈ objects b →
         get_object blake3 decoder r (rec_id rec) = Ok (Some (rec_obj_type rec, rec_data rec))
         ∧ get_object_bytes blake3 decoder r (rec_id rec) = Ok (Some (rec_obj_type rec, rec_data rec)))
    ∧ (∀ i, i ∉ map rec_id (objects b) → get_object blake3 decoder r i = Ok None)
    ∧ returns (list_ids r) (λ ids, ids ≡ₚ map rec_id (objects b))).
Proof.
  intros Hb. unfold build. step (build_opened b false Hb) as Hspec. destruct a as [[[pack index_data] stats] kept].
  destruct Hspec as (ws & es & r & trailer & Hfrom & Ho & Hobj). cbn [returns]. exists r. split; [done|].
  assert (Forall (λ w, ordinary (w_object w)) ws) as Hord by by eapply ordinary_written.
  assert (map w_id ws ≡ₚ map rec_id (objects b)) as Hids.
  { assert (map w_id ws = map (λ o : object, o.1.1) (map w_object ws)) as -> by (by rewrite map_map).
    assert (map rec_id (objects b) = map (λ o : object, o.1.1) (map rec_object (objects b))) as -> by (by rewrite map_map).
    by apply Permutation_map. }
  split; [|split].
  - intros rec Hrec. assert (rec_object rec ∈ map w_object ws) as Hin by (rewrite Hobj; apply list_elem_of_fmap; by exists rec).
    apply list_elem_of_fmap in Hin as (w & [= Hi Ht Hd] & Hw). rewrite Hi, Ht, Hd.
    split; [by eapply get_object_written|by eapply get_object_bytes_written].
  - intros i Hi. eapply get_object_missing; [done|]. by rewrite Hids.
  - unfold list_ids, PackIndex.ids. rewrite (all_entries_valid _ _ _ (opened_index _ _ _ _ _ _ _ Ho)). cbn [returns bind_Ok].
    rewrite bind_Ok. cbn [returns]. rewrite (opened_entries _ _ _ _ _ _ _ Ho), offsets_ids. done.
Qed.
End roundtrip.

(** ** A concrete store *)
Module Samples.

(** Runs of one byte compress to the magic, the byte and their length. *)
Definition rle_encode (d : list Z) (level : Z) : option (list Z) :=
  match d with
  | x :: _ =>
      if (0 <=? x) && (x <? 256) && (zlen d <? 2 ^ 64) && forallb (Z.eqb x) d
      then Some ([0x28; 0xB5; 0x2F; 0xFD; x] ++ to_be_bytes 8 (zlen d)) else None
  | [] => None
  end.
Definition rle_decode (c : list Z) : option (list (option (list Z))) :=
  if has_zstd_magic c && (zlen c =? 13)
  then Some [Some (replicate (Z.to_nat (from_be_bytes (drop 5 c))) (default 0 (c !! 4%nat)))]
  else None.
Definition digest (d : list Z) : list Z := to_be_bytes 32 (fold_left (λ h x, h * 31 + x) d 7).
Definition keep_order (gs : list (ObjectType * list PackObjectRecord)) : list (ObjectType * list PackObjectRecord) := gs.

#[export] Instance no_frames : MetadataFrames unit unit := {|
  extract_tree _ _ := Err CompactFrame.Missing; decode_tree_frame _ := Err CompactFrame.Missing; tree_hash _ := [];
  encode_tree _ := None; extract_state _ _ := Err CompactFrame.Missing; decode_state_frame _ := Err CompactFrame.Missing;
  state_id _ := []; encode_state _ := None |}.

(** [t] stands for the encoded length. *)
Lemma rle_stream x d t :
  is_byte x → bytes_ok t → zlen t = 8 → from_be_bytes t = zlen (x :: d) → Forall (eq x) (x :: d) →
  zstd_stream rle_decode ([0x28; 0xB5; 0x2F; 0xFD; x] ++ t) (x :: d).
Proof.
  intros Hx Ht Ht8 Hn Hall. split; [|split].
  - apply Forall_app. split; [by repeat (constructor; [unfold is_byte in *; lia|])|done].
  - unfold has_zstd_magic. rewrite zlen_app, (proj2 (Z.leb_le _ _)); [done|]. pose proof (zlen_nonneg t).
    change (zlen [_; _; _; _; x]) with 5. lia.
  - exists [x :: d]. split; [|split; [by apply Forall_singleton|cbn [concat]; by rewrite app_nil_r]]. unfold rle_decode.
    assert (has_zstd_magic ([0x28; 0xB5; 0x2F; 0xFD; x] ++ t) = true) as ->.
    { unfold has_zstd_magic. rewrite zlen_app, (proj2 (Z.leb_le _ _)); [done|]. pose proof (zlen_nonneg t).
      change (zlen [_; _; _; _; x]) with 5. lia. }
    rewrite zlen_app, Ht8. change (zlen [_; _; _; _; x] + 8 =? 13) with true. cbn [andb].
    change (drop 5 (_ ++ t)) with t. change (default 0 (_ !! 4%nat)) with x. rewrite Hn. unfold zlen. rewrite Nat2Z.id.
    cbn [map]. do 3 f_equal. apply replicate_as_elem_of. split; [done|]. intros y Hy. rewrite Forall_forall in Hall. symmetry. by apply Hall.
Qed.

Lemma sample_services : services digest rle_encode rle_decode keep_order.
Proof.
  split; [|intros d level c|done].
  { intros x. unfold digest. split; [by rewrite zlen_to_be_bytes|apply to_be_bytes_ok]. }
  unfold rle_encode. destruct d as [|x d]; [done|]. destruct (_ && _) eqn:E; [|done].
  apply andb_true_iff in E as [[[H1%Z.leb_le H2%Z.ltb_lt]%andb_true_iff Hz%Z.ltb_lt]%andb_true_iff Hall].
  pose proof (zlen_nonneg (x :: d)) as Hpos. remember (to_be_bytes 8 (zlen (x :: d))) as t eqn:Ht. intros [= <-].
  apply (rle_stream x d t).
  - done.
  - rewrite Ht. apply to_be_bytes_ok.
  - rewrite Ht. by rewrite zlen_to_be_bytes.
  - rewrite Ht. apply from_to_be_bytes_small. change (256 ^ Z.of_nat 8) with (2 ^ 64). lia.
  - apply Forall_forall. intros y Hy%list_elem_of_In. rewrite forallb_forall in Hall. by apply Hall, Z.eqb_eq in Hy.
Qed.

(** Deltas that the reader misreads are looked for by running the encoder. *)
Definition safe_deltasb (datas : list (list Z)) : bool :=
  forallb (λ base, forallb (λ target,
    match Encoder.encode_with_index (Encoder.build_index base) base target with
    | Ok delta => negb (has_zstd_magic delta)
    | _ => true
    end) datas) datas.
Lemma safe_deltasb_ok datas : safe_deltasb datas = true → safe_deltas datas.
Proof.
  unfold safe_deltasb, safe_deltas. rewrite forallb_forall. intros H base target delta Hb%list_elem_of_In Ht%list_elem_of_In E.
  specialize (H base Hb). rewrite forallb_forall in H. specialize (H target Ht). rewrite E in H. by apply negb_true_iff in H.
Qed.

Definition bytesb (l : list Z) : bool := forallb (λ b, (0 <=? b) && (b <? 256)) l.
Lemma bytesb_ok l : bytesb l = true → bytes_ok l.
Proof.
  intros Hl. apply Forall_forall. intros x Hx%list_elem_of_In. unfold bytesb in Hl. rewrite forallb_forall in Hl.
  specialize (Hl x Hx). unfold is_byte. lia.
Qed.
Definition record_fitsb (r : PackObjectRecord) : bool :=
  (zlen (id_bytes (rec_id r)) =? 32) && bytesb (id_bytes (rec_id r)) && bytesb (rec_data r)
  && Bool.eqb (bool_decide (rec_obj_type r = AnnotatedTag)) (is_annotated_tag (rec_id r))
  && bool_decide (rec_obj_type r ≠ Delta) && (bool_decide (rec_obj_type r = Blob) || negb (is_compact_frame (rec_data r)))
  && bool_decide (rec_delta_base r = None) && (zlen (rec_data r) <=? Decoder.MAX_DELTA_OUTPUT_SIZE).
Lemma record_fitsb_ok rs : forallb record_fitsb rs = true → Forall record_fits rs.
Proof.
  rewrite forallb_forall. intros Hrs. apply Forall_forall. intros r Hr%list_elem_of_In%Hrs. unfold record_fitsb in Hr.
  repeat (apply andb_true_iff in Hr as [Hr ?]). unfold record_fits, object_ok, id_ok, ordinary, rec_object. cbn [fst snd].
  repeat match goal with
  | H : bytesb _ = true |- _ => apply bytesb_ok in H
  | H : bool_decide _ = true |- _ => apply bool_decide_eq_true in H
  | H : _ || _ = true |- _ => apply orb_true_iff in H
  | H : (_ =? _) = true |- _ => apply Z.eqb_eq in H
  | H : (_ <=? _) = true |- _ => apply Z.leb_le in H
  | H : Bool.eqb _ _ = true |- _ => apply Bool.eqb_prop in H
  end.
  split; [|split; [|done]].
  - split; [done|]. split; [by rewrite <- H3; rewrite bool_decide_eq_true|]. split; [done|]. split; [done|].
    unfold Decoder.MAX_DELTA_OUTPUT_SIZE, MAX_PACK_OBJECT_OUTPUT_SIZE in *. lia.
  - destruct H1 as [H1|H1]; [left; by apply bool_decide_eq_true in H1|right; by apply negb_true_iff in H1].
Qed.

Definition record (i : PackObjectId) (t : ObjectType) (d : list Z) : PackObjectRecord :=
  {| rec_id := i; rec_obj_type := t; rec_data := d; rec_delta_base := None; rec_path_hint := None |}.
Definition records : list PackObjectRecord :=
  [record (Hash (replicate 32 1)) Blob (seqZ 0 100);
   record (StateId (replicate 32 1)) State (replicate 80 3);
   record (Hash (replicate 32 2)) Blob ([9; 9] ++ seqZ 0 98);
   record (Hash (replicate 32 3)) Blob (replicate 70 200);
   record (AnnotatedTagId (replicate 32 4)) AnnotatedTag [1; 2; 3]].
Definition sample_config : CompressionConfig := {| enabled := true; level := 3; min_size := 16; max_delta_size := 10 |}.
Definition raw_config : CompressionConfig := {| enabled := false; level := 0; min_size := 0; max_delta_size := 10 |}.
Definition sample_builder : PackBuilder := PackBuild.Build_PackBuilder records sample_config 10.

Lemma sample_packable : packable sample_builder.
Proof.
  split.
  - apply record_fitsb_ok. by vm_compute.
  - apply (bool_decide_unpack _). by vm_compute.
  - apply safe_deltasb_ok. by vm_compute.
  - by vm_compute.
Qed.
End Samples.

Import Samples.

Lemma build_read_roundtrip_witness :
  packable sample_builder
  ∧ returns (build digest rle_encode keep_order sample_builder) (λ '(pack, index_data, stats), ∃ r,
    from_bytes digest pack index_data = Ok r
    ∧ (∀ rec, rec ∈ objects sample_builder →
         get_object digest rle_decode r (rec_id rec) = Ok (Some (rec_obj_type rec, rec_data rec))
         ∧ get_object_bytes digest rle_decode r (rec_id rec) = Ok (Some (rec_obj_type rec, rec_data rec)))
    ∧ (∀ i, i ∉ map rec_id (objects sample_builder) → get_object digest rle_decode r i = Ok None)
    ∧ returns (list_ids r) (λ ids, ids ≡ₚ map rec_id (objects sample_builder))).
Proof.
  split; [exact sample_packable|].
  apply (build_read_roundtrip digest rle_encode rle_decode keep_order sample_services sample_builder sample_packable).
Defined.

(** The sample exercises every kind of entry: a delta, compressed and raw data. *)
Example sample_stats :
  returns (build digest rle_encode keep_order sample_builder) (λ '(_, _, stats),
    PackBuild.object_count stats = 5 ∧ PackBuild.stat_deltas stats = 1 ∧ PackBuild.stat_compressed stats < 160).
Proof. by vm_compute. Qed.

(** C7. The builder can write a pack that loses an object: when an object is
    added twice, its second copy is stored as a delta to its own id, which the
    reader follows until its limit; and when a raw delta happens to start with
    the magic of [zstd], the reader decompresses it.  Both packs are accepted
    when they are opened. *)
Theorem build_loses_objects :
  (∃ b rec, Forall record_fits (objects b) ∧ safe_deltas (map rec_data (objects b)) ∧ rec ∈ objects b
    ∧ returns (build digest rle_encode keep_order b) (λ '(pack, index_data, _),
        returns (from_bytes digest pack index_data) (λ r,
          get_object digest rle_decode r (rec_id rec) = Err (InvalidObject "Delta chain depth exceeds max" []))))
  ∧ (∃ b rec, Forall record_fits (objects b) ∧ NoDup (map rec_id (objects b)) ∧ rec ∈ objects b
    ∧ returns (build digest rle_encode keep_order b) (λ '(pack, index_data, _),
        returns (from_bytes digest pack index_data) (λ r,
          get_object digest rle_decode r (rec_id rec) = Err (InvalidObject "zstd decode init failed" [])))).
Proof.
  split.
  - set (rec := record (Hash (replicate 32 1)) Blob (seqZ 0 80)).
    exists (PackBuild.Build_PackBuilder [rec; rec] raw_config 10), rec. cbn [objects].
    split; [apply record_fitsb_ok; by vm_compute|]. split; [apply safe_deltasb_ok; by vm_compute|]. split; [by left|].
    by vm_compute.
  - set (rec := record (Hash (replicate 32 2)) Blob ([0xB5; 0x2F; 0xFD; 8] ++ replicate 37 200 ++ seqZ 0 80)).
    exists (PackBuild.Build_PackBuilder [record (Hash (replicate 32 1)) Blob (seqZ 0 130); rec] raw_config 10), rec. cbn [objects].
    split; [apply record_fitsb_ok; by vm_compute|]. split; [apply (bool_decide_unpack _); by vm_compute|].
    split; [by right; left|]. by vm_compute.
Qed.
