(* ===== verification/PackVisit.v ===== *)
(** * Visiting a built pack

    [PackRead.visit_objects] on a pack of the builder: every object is visited
    once, in the order of the offsets, and so the logical id that the reader
    computes is the one the builder computes of the objects it was given. *)

From S2P Require Import Prelude.
From S2P Require Import Text.
From S2P Require Import Delta.
From S2P Require Import Varint PackFormat PackIndex PackSort.
From S2P Require Import F64.
From S2P Require Import CompactFrame.
From S2P Require Import PackBuild.
From S2P Require Import PackRead.
From S2P Require Import PackRoundtrip.
Import Varint PackFormat.
Import PackRead.

Lemma check_unique_ok previous es :
  NoDup (map PackIndex.entry_id es) → (∀ i, previous = Some i → i ∉ map PackIndex.entry_id es) →
  check_unique previous es = Ok ().
Proof.
  revert previous. induction es as [|e es IH]; intros previous Hnd Hp; cbn [check_unique]; [done|].
  cbn [map] in *. apply NoDup_cons in Hnd as [Hn Hnd]. rewrite bool_decide_eq_false_2.
  - apply IH; [done|]. by intros i [= <-].
  - intros ->. apply (Hp _ eq_refl). by left.
Qed.

Section visiting.
Context {FullTree FullState : Type} `{!MetadataFrames FullTree FullState}.
Context (blake3 : list Z → list Z) (decoder : list Z → option (list (option (list Z)))).
Context (r : PackReader) (ws : list written) (es : list PackIndex.IndexEntry) (index_bytes header trailer : list Z).
Context (Ho : opened decoder r ws es index_bytes header trailer).
Context (Hord : Forall (λ w, ordinary (w_object w)) ws).

Lemma read_compact_written w offset :
  w ∈ ws → placed r offset w → offset < content_end r → read_compact_objects_at blake3 decoder r offset = Ok None.
Proof.
  intros Hw Hpl Hoff. pose proof (entry_fits _ _ _ _ _ _ _ Ho w Hw) as (Hentry & Hz & Hp & Hpu).
  unfold read_compact_objects_at, out_of_bounds. rewrite (proj2 (Z.leb_gt _ _)) by lia. rewrite bind_Ok.
  pose proof Hpl as (before & after & trailer' & Hd & Hc & -> & Ha & Hmax).
  rewrite (content_at r before (w_bytes w ++ after) trailer') by (rewrite ?zlen_app, <- ?app_assoc; done || lia).
  rewrite bind_Ok. unfold w_bytes at 1, w_header. rewrite <- app_assoc.
  rewrite decode_entry_bytes by (done || (by split; [zlia|]) || (apply Forall_app; by split)).
  fold (w_header w). rewrite bind_Ok. cbn [obj_type header_len compressed_size uncompressed_size].
  case_bool_decide as Hkind; [|done]. cbn [negb].
  assert ((if decide (w_stored w = Blob) then aliases_at r (zlen before) else Ok false) = Ok false) as ->
    by (destruct (decide _); [by eapply aliases_written|done]).
  rewrite bind_Ok. cbn [negb]. rewrite andb_true_r. case_bool_decide as Hblob; [done|].
  rewrite checked_add_ok, bind_Ok.
  2:{ unfold w_bytes in Hc. rewrite zlen_app in Hc. zlia. }
  rewrite (stored_data_placed r (zlen before) w Hpl), bind_Ok.
  pose proof (opened_good _ _ _ _ _ _ _ Ho) as Hg. rewrite Forall_forall in Hg. pose proof (Hg w Hw) as (_ & _ & _ & Hraw).
  assert (w_stored w ≠ Delta) as Hnd by (intros E; rewrite E in Hkind; repeat (apply elem_of_cons in Hkind as [?|Hkind]; [done|]); by apply elem_of_nil in Hkind).
  destruct Hraw as [(Hst & _ & _ & Hun)|(_ & ? & _)]; [|done]. unfold unpacks in Hun. rewrite decide_False in Hun by done.
  assert ((if negb (zlen (w_payload w) =? zlen (w_data w)) then decompress_pack_payload decoder (w_payload w) (zlen (w_data w))
           else Ok (w_payload w)) = Ok (w_data w)) as -> by (destruct (negb _); [done|by rewrite Hun]).
  rewrite bind_Ok, Z.eqb_refl. cbn [negb]. rewrite Forall_forall in Hord.
  destruct (Hord w Hw) as [Hb|Hf]; cbn [w_object fst snd] in *; [by rewrite Hst in Hblob|].
  unfold decode_compact_objects. rewrite Hf.
  assert (CompactFrame.is_tree_frame (w_data w) = false ∧ CompactFrame.is_state_frame (w_data w) = false) as [-> ->].
  { unfold is_compact_frame in Hf. apply orb_false_iff in Hf as [Hf ->]. by apply orb_false_iff in Hf as [_ ->]. }
  rewrite Hst in *. destruct (w_type w); done.
Qed.

(** What is visited in the order of the offsets is the pack. *)
Lemma visited_perm l os :
  l ≡ₚ zip (map PackIndex.offset es) (seqZ 0 (zlen es)) →
  Forall2 (λ p o, ∃ w, o = w_object w ∧ w ∈ ws ∧ PackIndex.entry (rindex r) p.2
    = Ok {| PackIndex.entry_id := w_id w; PackIndex.offset := p.1 |}) l os →
  os ≡ₚ map w_object ws.
Proof.
  intros Hperm Hf. pose proof (opened_ids _ _ _ _ _ _ _ Ho) as Hids.
  set (g := λ p : Z * Z, match PackIndex.entry (rindex r) p.2 with Ok e => PackIndex.entry_id e | _ => Hash [] end).
  assert (map (λ o : object, o.1.1) os ≡ₚ map w_id ws) as Hos.
  { transitivity (map g l).
    - assert (map (λ o : object, o.1.1) os = map g l) as ->; [|done]. clear Hperm.
      induction Hf as [|p o l' os' (w & -> & _ & He) Hf IH]; [done|]. cbn [map]. rewrite IH. f_equal. unfold g. by rewrite He.
    - rewrite Hperm, <- (offsets_ids 16), <- (opened_entries _ _ _ _ _ _ _ Ho).
      pose proof (opened_index _ _ _ _ _ _ _ Ho) as (_ & Hreads & _). unfold reads in Hreads.
      assert (map g (zip (map PackIndex.offset es) (seqZ 0 (zlen es))) = map PackIndex.entry_id es) as ->; [|done].
      clear -Hreads. induction Hreads as [|k e ks es Hk Hr IH]; [done|]. cbn [map zip zip_with]. rewrite IH. f_equal.
      unfold g. cbn [snd]. by rewrite Hk. }
  assert (∀ o, o ∈ os → ∃ w, o = w_object w ∧ w ∈ ws) as Hmem.
  { intros o Hin. apply list_elem_of_lookup in Hin as [k Hk]. destruct (Forall2_lookup_r _ _ _ _ _ Hf Hk) as (p & _ & w & -> & Hw & _).
    by exists w. }
  apply NoDup_Permutation.
  - apply (NoDup_fmap_1 (λ o : object, o.1.1)). change (fmap (M:=list)) with (@map object PackObjectId). by rewrite Hos.
  - apply (NoDup_fmap_1 (λ o : object, o.1.1)). change (NoDup (map (λ o : object, o.1.1) (map w_object ws))). by rewrite map_map.
  - intros o. split.
    + intros Hin. destruct (Hmem o Hin) as (w & -> & Hw). apply list_elem_of_fmap. by exists w.
    + intros (w & -> & Hw)%list_elem_of_fmap.
      assert (w_id w ∈ map (λ o : object, o.1.1) os) as Hin by (rewrite Hos; apply list_elem_of_fmap; by exists w).
      apply list_elem_of_fmap in Hin as (o & Heq & Hin). destruct (Hmem o Hin) as (w' & -> & Hw'). cbn [w_object fst] in Heq.
      by rewrite (NoDup_map_inj w_id ws w w').
Qed.

Section visitor.
Context {A : Type} (visitor : A → PackObjectId → ObjectType → list Z → res A).

Lemma visit_record_written w offset ordinal s :
  w ∈ ws → placed r offset w → offset < content_end r → PackIndex.entry (rindex r) ordinal =
    Ok {| PackIndex.entry_id := w_id w; PackIndex.offset := offset |} →
  visit_record blake3 decoder visitor r s offset ordinal 1 = visitor s (w_id w) (w_type w) (w_data w).
Proof.
  intros Hw Hpl Hoff He. unfold visit_record. rewrite (proj1 (find_id_ok r w offset Hpl)), bind_Ok.
  rewrite (read_compact_written w offset Hw Hpl Hoff), bind_Ok. cbn [Z.eqb Pos.eqb negb].
  rewrite He, bind_Ok. cbn [PackIndex.entry_id].
  by rewrite (get_object_written blake3 decoder r ws es index_bytes header trailer Ho Hord w Hw).
Qed.

(** Each object is visited once. *)
Lemma visit_objects_written :
  ∃ os, os ≡ₚ map w_object ws ∧ ∀ s, visit_objects blake3 decoder visitor r s = visit_all visitor s os.
Proof.
  destruct (offset_index_written _ _ _ _ _ _ _ Ho) as (o & l & Hoi & Hl & Hperm & Hnd).
  destruct (visit_loop_spec (visit_record blake3 decoder visitor r) o l (S (Z.to_nat (zlen (OffsetIndex.odata o) / 16))) 0 Hl)
    as (runs & Hruns & Hrok & Hsorted & Hvisit); [pose proof (zlen_nonneg l); lia|rewrite (holds_size o l Hl); pose proof (zlen_nonneg l); lia|].
  change (drop (Z.to_nat 0) l) with l in Hruns. clear Hsorted.
  pose proof (opened_index _ _ _ _ _ _ _ Ho) as Hv. pose proof Hv as (Hix & Hreads & _).
  pose proof (opened_entries _ _ _ _ _ _ _ Ho) as Hes.
  (* Every pair of the offset index is an entry of the pack. *)
  assert (∀ p, p ∈ l → ∃ w, w ∈ ws ∧ placed r p.1 w ∧ p.1 < content_end r
    ∧ PackIndex.entry (rindex r) p.2 = Ok {| PackIndex.entry_id := w_id w; PackIndex.offset := p.1 |}) as Hpair.
  { intros [off k] Hp. rewrite Hperm in Hp. apply list_elem_of_lookup in Hp as [j Hj].
    apply lookup_zip_with_Some in Hj as (x & y & [= -> ->] & Hx & Hy). cbn [fst snd].
    rewrite list_lookup_fmap in Hx. apply fmap_Some in Hx as (e & He & ->).
    pose proof (list_elem_of_lookup_2 _ _ _ He) as Hin. rewrite Hes in Hin.
    destruct (offsets_elem 16 ws e Hin) as (pre & w & post & Hws & ->). cbn [PackIndex.offset].
    assert (w ∈ ws) as Hw by (rewrite Hws; apply elem_of_app; right; by left).
    exists w. split; [done|]. split; [by eapply placed_entry|]. split.
    - rewrite (opened_end _ _ _ _ _ _ _ Ho), Hws, map_app, concat_app. cbn [map concat]. rewrite !zlen_app.
      pose proof (opened_good _ _ _ _ _ _ _ Ho) as Hg. rewrite Forall_forall in Hg. specialize (Hg w Hw).
      apply entry_good_size in Hg as (Hz & _). unfold w_bytes. rewrite zlen_app. zlia.
    - unfold reads in Hreads. rewrite Forall2_lookup in Hreads. specialize (Hreads j). rewrite Hy, He in Hreads.
      by inversion Hreads. }
  assert (∀ runs', Forall run_ok runs' → (∀ p, p ∈ concat runs' → p ∈ l) → NoDup (map fst (concat runs')) →
    ∃ os, (∀ s, visit_runs (visit_record blake3 decoder visitor r) runs' s = visit_all visitor s os)
      ∧ Forall2 (λ p o, ∃ w, o = w_object w ∧ w ∈ ws ∧ PackIndex.entry (rindex r) p.2
           = Ok {| PackIndex.entry_id := w_id w; PackIndex.offset := p.1 |}) (concat runs') os) as Hall.
  { induction 1 as [|run runs' Hrun Hrs IH]; intros Hin Hnd'; [exists []; split; [done|constructor]|].
    destruct Hrun as (p & rest & -> & Hrest). cbn [concat] in *.
    assert (rest = []) as ->.
    { destruct rest as [|q rest]; [done|]. apply Forall_cons in Hrest as [Hq _]. cbn [app map] in Hnd'.
      apply NoDup_cons in Hnd' as [Hn _]. exfalso. apply Hn. rewrite Hq. by left. }
    cbn [app map] in *. apply NoDup_cons in Hnd' as [_ Hnd'].
    destruct IH as (os & Hos & Hf); [intros q Hq; apply Hin; by right|done|].
    destruct (Hpair p (Hin p ltac:(by left))) as (w & Hw & Hpl & Hoff & He).
    exists (w_object w :: os). split; [|constructor; [by exists w|done]]. intros s.
    cbn [visit_runs run_offset run_ordinal visit_all]. change (zlen [p]) with 1.
    rewrite (visit_record_written w p.1 p.2 s Hw Hpl Hoff He). unfold w_object at 1.
    destruct (visitor s (w_id w) (w_type w) (w_data w)); [rewrite !bind_Ok; apply Hos|done..]. }
  destruct (Hall runs Hrok) as (os & Hos & Hf); [by rewrite Hruns|by rewrite Hruns|].
  exists os. split.
  - rewrite Hruns in Hf. by apply (visited_perm l).
  - intros s. unfold visit_objects, validate_unique_ids. rewrite (all_entries_valid _ _ _ Hv), bind_Ok.
    rewrite check_unique_ok; [|rewrite Hes, offsets_ids; apply (opened_ids _ _ _ _ _ _ _ Ho)|done].
    rewrite bind_Ok, Hoi, bind_Ok. unfold OffsetIndex.visit. by rewrite Hvisit, Hos.
Qed.
End visitor.
End visiting.

(** ** The identity of a pack *)
Import PackBuild(PackBuilder, objects, build, build_impl).

Section identity.
Context {FullTree FullState : Type} `{!MetadataFrames FullTree FullState}.
Context (blake3 derive : list Z → list Z) (encode_all : list Z → Z → option (list Z)).
Context (decoder : list Z → option (list (option (list Z)))).
Context (order : list (ObjectType * list PackObjectRecord) → list (ObjectType * list PackObjectRecord)).
Context (Hs : services blake3 encode_all decoder order).

Lemma visit_push os b :
  visit_all (λ b id t d, Ok (PackIdentity.push blake3 b id t d)) b os
  = Ok (fold_left (λ b '(i, t, d), PackIdentity.push blake3 b i t d) os b).
Proof. revert b. induction os as [|[[i t] d] os IH]; intros b; cbn [visit_all fold_left]; [done|]. by rewrite bind_Ok. Qed.

(** C2. A built pack is visited object by object: whatever the visitor, visiting
    the pack that was built of some objects runs the visitor on each of those
    objects once; and the logical id that the reader computes of the pack is the
    id that the builder computes of the objects, so it depends on neither the
    deltas nor the compression nor the order of the pack. *)
Theorem built_pack_identity b :
  packable b →
  returns (build blake3 encode_all order b) (λ '(pack, index_data, _), ∃ r,
    from_bytes blake3 pack index_data = Ok r
    ∧ (∀ A (visitor : A → PackObjectId → ObjectType → list Z → res A), ∃ os,
         os ≡ₚ map rec_object (objects b)
         ∧ ∀ s, visit_objects blake3 decoder visitor r s = visit_all visitor s os)
    ∧ PackRead.logical_id blake3 derive decoder r = Ok (PackBuild.logical_id blake3 derive b)).
Proof.
  intros Hb. unfold build. step (build_opened blake3 encode_all decoder order Hs b false Hb) as Hspec.
  destruct a as [[[pack index_data] stats] kept]. destruct Hspec as (ws & es & r & trailer & Hfrom & Ho & Hobj).
  cbn [returns]. exists r. split; [done|].
  assert (Forall (λ w, ordinary (w_object w)) ws) as Hord by by eapply ordinary_written.
  assert (∀ A (visitor : A → PackObjectId → ObjectType → list Z → res A), ∃ os, os ≡ₚ map rec_object (objects b)
     ∧ ∀ s, visit_objects blake3 decoder visitor r s = visit_all visitor s os) as Hvisit.
  { intros A visitor. destruct (visit_objects_written blake3 decoder r ws es _ _ trailer Ho Hord visitor) as (os & Hos & Hv).
    exists os. split; [by rewrite Hos|done]. }
  split; [exact Hvisit|]. unfold PackRead.logical_id.
  destruct (Hvisit _ (λ b id t d, Ok (PackIdentity.push blake3 b id t d))) as (os & Hos & Hv).
  rewrite Hv, visit_push, bind_Ok. f_equal. unfold PackBuild.logical_id.
  apply (logical_id_permutation blake3 derive os (map rec_object (objects b))); [apply (blake3_digest _ _ _ _ Hs)| |done].
  rewrite Hos. apply Forall_fmap. eapply Forall_impl; [apply (packable_records b Hb)|]. intros rec ((Hi & _) & _); exact Hi.
Qed.
End identity.

Import Samples.

Lemma built_pack_identity_witness :
  packable sample_builder
  ∧ returns (build digest rle_encode keep_order sample_builder) (λ '(pack, index_data, _), ∃ r,
    from_bytes digest pack index_data = Ok r
    ∧ (∀ A (visitor : A → PackObjectId → ObjectType → list Z → res A), ∃ os,
         os ≡ₚ map rec_object (objects sample_builder)
         ∧ ∀ s, visit_objects digest rle_decode visitor r s = visit_all visitor s os)
    ∧ PackRead.logical_id digest digest rle_decode r = Ok (PackBuild.logical_id digest digest sample_builder)).
Proof.
  split; [exact sample_packable|].
  apply (built_pack_identity digest digest rle_encode rle_decode keep_order sample_services sample_builder sample_packable).
Defined.
