(* ===== verification/RefNames.v ===== *)
(** * Names of refs as storage paths

    [crates/object-model/src/name_encoding.rs] and the namespace test of
    [object/identifiers.rs]: percent escaping of UTF-8 names, the mapping of
    imported Git names that collide with the reserved namespace, and the bounded
    relative path under which a name is stored. BLAKE3 is a parameter. *)

From S2P Require Import Prelude Text.
Import Text.

Module RefNames.

(** [strip_suffix] and [strip_prefix] of [str] *)
Fixpoint strip_prefix (p s : list Z) : option (list Z) :=
  match p, s with
  | [], s => Some s
  | x :: p, y :: s => if x =? y then strip_prefix p s else None
  | _ :: _, [] => None
  end.

Definition strip_suffix (p s : list Z) : option (list Z) := reverse <$> strip_prefix (reverse p) (reverse s).

Definition starts_with (p s : list Z) : bool := match strip_prefix p s with Some _ => true | None => false end.

Definition strip_ref_line_ending (value : list Z) : list Z :=
  match strip_suffix [13; 10] value with
  | Some v => v
  | None => match strip_suffix [10] value with Some v => v | None => value end
  end.

(** The letters [n-], [git%] and the like. *)
Definition N_PREFIX : list Z := ascii_bytes "n-".
Definition H_PREFIX : list Z := ascii_bytes "h-".
Definition GIT_PREFIX : list Z := ascii_bytes "git%".

(** [HEX[d]] *)
Definition hex_upper (d : Z) : Z := if d <? 10 then 48 + d else 55 + d.
Definition hex_lower (d : Z) : Z := if d <? 10 then 48 + d else 87 + d.

(** [(b as char).to_digit(16)] *)
Definition to_digit16 (b : Z) : option Z :=
  if between 48 57 b then Some (b - 48)
  else if between 97 102 b then Some (b - 87)
  else if between 65 70 b then Some (b - 55)
  else None.

Definition passes (b : Z) : bool := between 97 122 b || between 48 57 b || (b =? 45) || (b =? 95).

Definition encode_byte (b : Z) : list Z :=
  if passes b then [b] else [37; hex_upper (Z.shiftr b 4); hex_upper (Z.land b 15)].

Definition encode_name (value : list Z) : list Z := N_PREFIX ++ concat (map encode_byte value).

(** The loop of [decode_name] *)
Fixpoint decode_bytes (bytes : list Z) : option (list Z) :=
  match bytes with
  | [] => Some []
  | b :: rest =>
      if b =? 37 then
        match rest with
        | h :: l :: rest =>
            hi ← to_digit16 h;
            lo ← to_digit16 l;
            out ← decode_bytes rest;
            Some (as_u8 (hi * 16 + lo) :: out)
        | _ => None
        end
      else out ← decode_bytes rest; Some (b :: out)
  end.

Definition decode_name (encoded : list Z) : option (list Z) :=
  bytes ← strip_prefix N_PREFIX encoded;
  out ← decode_bytes bytes;
  if is_utf8 out then if bool_decide (encode_name out = encoded) then Some out else None else None.

(** [u8::to_ascii_lowercase], [eq_ignore_ascii_case] *)
Definition ascii_lower (b : Z) : Z := if between 65 90 b then b + 32 else b.
Definition RESERVED_REF_SEGMENT : list Z := ascii_bytes "heddle".

Definition is_reserved_heddle_namespace (name : list Z) : bool :=
  match split 47 name with
  | first :: _ :: _ => bool_decide (map ascii_lower first = map ascii_lower RESERVED_REF_SEGMENT)
  | _ => false
  end.

Definition native_git_name (name : list Z) : list Z :=
  if is_reserved_heddle_namespace name || starts_with GIT_PREFIX name
  then GIT_PREFIX ++ encode_name name else name.

(** [git_name(native)]; the flag says that the [Cow] is [Owned]. *)
Definition git_name_cow (native : list Z) : bool * list Z :=
  match strip_prefix GIT_PREFIX native ≫= decode_name with
  | Some name => if bool_decide (native_git_name name = native) then (true, name) else (false, native)
  | None => (false, native)
  end.
Definition git_name (native : list Z) : list Z := (git_name_cow native).2.

(** Relative paths are lists of components. *)
Definition NAME_PATH_BUDGET : Z := 128.
Definition GIT_PART : list Z := ascii_bytes "git".
Definition ENTRY_PART : list Z := ascii_bytes "entry".

Definition path_len (path : list (list Z)) : Z := zlen (concat path) + Z.max 0 (zlen path - 1).

Definition to_hex (digest : list Z) : list Z :=
  concat (map (λ b, [hex_lower (Z.shiftr b 4); hex_lower (Z.land b 15)]) digest).

Definition plain_name_path (value : list Z) : list (list Z) :=
  let '(imported, source) := git_name_cow value in
  (if imported then [GIT_PART] else [])
  ++ map (λ chunk, N_PREFIX ++ chunk) (chunks 180 (drop 2 (encode_name source))) ++ [ENTRY_PART].

(** [is_digest_name_path] *)
Definition is_digest_name_path (path : list (list Z)) : bool :=
  match path with
  | [digest; last] =>
      match strip_prefix H_PREFIX digest with
      | Some hex =>
          (zlen hex =? 64) && forallb (λ b, between 48 57 b || between 97 102 b) hex
          && bool_decide (last = ENTRY_PART)
      | None => false
      end
  | _ => false
  end.

(** The loop of [decode_name_path] over the remaining components *)
Fixpoint collect_parts (parts : list (list Z)) (encoded : list Z) : option (list Z) :=
  match parts with
  | [] => Some encoded
  | [last] => if bool_decide (last = ENTRY_PART) then Some encoded else None
  | part :: parts => chunk ← strip_prefix N_PREFIX part; collect_parts parts (encoded ++ chunk)
  end.

Section paths.
Context (blake3 : list Z → list Z).

Definition name_path (value : list Z) : list (list Z) :=
  let path := plain_name_path value in
  if NAME_PATH_BUDGET <? path_len path then [H_PREFIX ++ to_hex (blake3 value); ENTRY_PART] else path.

Definition decode_name_path (path : list (list Z)) : option (list Z) :=
  let '(imported, parts) :=
    match path with
    | first :: rest => if bool_decide (first = GIT_PART) then (true, rest) else (false, path)
    | [] => (false, path)
    end in
  encoded ← collect_parts parts N_PREFIX;
  source ← decode_name encoded;
  let value := if imported then native_git_name source else source in
  if bool_decide (name_path value = path) then Some value else None.

End paths.

End RefNames.

Import RefNames.

(** ** Prefixes and escapes *)

Lemma strip_prefix_app p s : strip_prefix p (p ++ s) = Some s.
Proof. induction p as [|x p IH]; [by destruct s|]. cbn. by rewrite Z.eqb_refl. Qed.

Lemma strip_prefix_Some p s r : strip_prefix p s = Some r ↔ s = p ++ r.
Proof.
  split; [|intros ->; apply strip_prefix_app].
  revert s. induction p as [|x p IH]; intros s; [by destruct s as [|? ?]; cbn; intros [= ->]|].
  destruct s as [|y s]; [done|]. cbn. destruct (x =? y) eqn:E; [|done].
  apply Z.eqb_eq in E as ->. by intros ->%IH.
Qed.

Lemma starts_with_spec p s : starts_with p s = true ↔ ∃ r, s = p ++ r.
Proof.
  unfold starts_with. destruct (strip_prefix p s) as [r|] eqn:E.
  - apply strip_prefix_Some in E. split; [|done]. intros _. by exists r.
  - split; [done|]. intros [r ->]. by rewrite strip_prefix_app in E.
Qed.

(** A letter of an escape as it may be written on a case-folding host. *)
Definition folds (f : Z → Z) : Prop :=
  f 37 = 37 ∧ (∀ b, passes b = true → f b = b) ∧
  (∀ d, 0 ≤ d < 16 → to_digit16 (f (hex_upper d)) = Some d).

Lemma digit_forall (P : Z → bool) :
  forallb P [0;1;2;3;4;5;6;7;8;9;10;11;12;13;14;15] = true → ∀ d, 0 ≤ d < 16 → P d = true.
Proof.
  intros H d Hd. rewrite forallb_forall in H. apply H. cbn.
  assert (d = 0 ∨ d = 1 ∨ d = 2 ∨ d = 3 ∨ d = 4 ∨ d = 5 ∨ d = 6 ∨ d = 7 ∨ d = 8 ∨ d = 9 ∨ d = 10 ∨ d = 11
    ∨ d = 12 ∨ d = 13 ∨ d = 14 ∨ d = 15) as Hc by lia. intuition.
Qed.

Lemma folds_id : folds id.
Proof.
  split; [done|]. split; [done|]. intros d Hd.
  assert (bool_decide (to_digit16 (id (hex_upper d)) = Some d) = true) as H.
  { revert d Hd. apply digit_forall. by vm_compute. }
  by apply bool_decide_eq_true in H.
Qed.

Lemma passes_bounds b : passes b = true → 45 ≤ b ≤ 122 ∧ b ≠ 46 ∧ b ≠ 47 ∧ ¬ (65 ≤ b ≤ 90).
Proof. unfold passes, between. rewrite !orb_true_iff, !andb_true_iff, !Z.leb_le, !Z.eqb_eq. lia. Qed.

Lemma folds_lower : folds ascii_lower.
Proof.
  split; [done|]. split.
  - intros b Hb%passes_bounds. unfold ascii_lower, between.
    destruct (65 <=? b) eqn:E1, (b <=? 90) eqn:E2; cbn; try done. lia.
  - intros d Hd. assert (bool_decide (to_digit16 (ascii_lower (hex_upper d)) = Some d) = true) as H.
    { revert d Hd. apply digit_forall. by vm_compute. }
    by apply bool_decide_eq_true in H.
Qed.

Lemma nibbles b : is_byte b →
  0 ≤ Z.shiftr b 4 < 16 ∧ 0 ≤ Z.land b 15 < 16 ∧ Z.shiftr b 4 * 16 + Z.land b 15 = b.
Proof.
  intros Hb. unfold is_byte in Hb. rewrite shiftr_div by lia.
  change 15 with (Z.ones 4). rewrite Z.land_ones by lia. change (2 ^ 4) with 16. Z.to_euclidean_division_equations. lia.
Qed.

Lemma decode_escaped f v : folds f → bytes_ok v → decode_bytes (map f (concat (map encode_byte v))) = Some v.
Proof.
  intros (H37 & Hp & Hd) Hv. induction Hv as [|b v Hb Hv IH]; [done|].
  cbn [map concat]. rewrite map_app. unfold encode_byte at 1. destruct (passes b) eqn:Pb.
  - cbn [map app decode_bytes]. rewrite (Hp b) by done.
    destruct (b =? 37) eqn:E; [apply Z.eqb_eq in E; apply passes_bounds in Pb; lia|].
    by rewrite IH.
  - destruct (nibbles b Hb) as (Hh & Hl & E). cbn [map app decode_bytes]. rewrite H37. cbn.
    rewrite (Hd _ Hh), (Hd _ Hl). cbn. rewrite IH. cbn.
    rewrite E. unfold as_u8. rewrite Z.mod_small by (unfold is_byte in Hb; lia). done.
Qed.

Lemma decode_bytes_encoded v : bytes_ok v → decode_bytes (concat (map encode_byte v)) = Some v.
Proof. intros Hv. rewrite <- (map_id (concat _)). by apply (decode_escaped id), Hv; apply folds_id. Qed.

Lemma decode_encode v : bytes_ok v → is_utf8 v = true → decode_name (encode_name v) = Some v.
Proof.
  intros Hv Hu. unfold decode_name.
  assert (strip_prefix N_PREFIX (encode_name v) = Some (concat (map encode_byte v))) as -> by apply strip_prefix_app. cbn.
  rewrite decode_bytes_encoded by done. cbn. rewrite Hu. by rewrite bool_decide_eq_true_2.
Qed.

Lemma decode_Some e v : decode_name e = Some v → encode_name v = e ∧ is_utf8 v = true.
Proof.
  unfold decode_name. intros (b & Eb & H)%bind_Some. apply bind_Some in H as (o & Eo & H).
  destruct (is_utf8 o) eqn:U; [|done]. case_bool_decide as E; [|done]. by injection H as ->.
Qed.

(** The alphabet of an escape *)
Definition escape_char (b : Z) : Prop := passes b = true ∨ b = 37 ∨ 48 ≤ b ≤ 57 ∨ 65 ≤ b ≤ 70.

Lemma encoded_alphabet v : bytes_ok v → Forall escape_char (concat (map encode_byte v)).
Proof.
  induction 1 as [|b v Hb _ IH]; [constructor|]. cbn [map concat]. apply Forall_app. split; [|done].
  unfold encode_byte. destruct (passes b) eqn:Pb; [constructor; [by left|constructor]|].
  destruct (nibbles b Hb) as (Hh & Hl & _).
  assert (∀ d, 0 ≤ d < 16 → escape_char (hex_upper d)) as Hd.
  { intros d Hd. unfold escape_char, hex_upper. destruct (d <? 10) eqn:E; [apply Z.ltb_lt in E|apply Z.ltb_ge in E]; lia. }
  constructor; [by right; left|]. constructor; [by apply Hd|]. constructor; [by apply Hd|constructor].
Qed.

Lemma escape_bounds b : escape_char b → 37 ≤ b ≤ 122 ∧ b ≠ 47 ∧ b ≠ 46.
Proof. intros [H%passes_bounds|H]; lia. Qed.

(** ** Imported Git names *)

Lemma split_single sep s : sep ∉ s → split sep s = [s].
Proof.
  induction s as [|b s IH]; [done|]. intros H. apply not_elem_of_cons in H as [Hb Hs]. cbn.
  destruct (b =? sep) eqn:E; [apply Z.eqb_eq in E; congruence|]. by rewrite IH.
Qed.

Lemma encode_no_slash v : bytes_ok v → 47 ∉ encode_name v.
Proof.
  intros Hv H. unfold encode_name in H. apply elem_of_app in H as [H|H].
  - apply list_elem_of_In in H. cbn in H. lia.
  - pose proof (encoded_alphabet v Hv) as F. rewrite Forall_forall in F. apply F, escape_bounds in H. lia.
Qed.

(** A name as the code may hold it: a Rust string. *)
Definition text_ok (v : list Z) : Prop := bytes_ok v ∧ is_utf8 v = true.

Lemma git_name_cow_native v : text_ok v →
  git_name_cow (native_git_name v) = (is_reserved_heddle_namespace v || starts_with GIT_PREFIX v, v).
Proof.
  intros [Hb Hu]. unfold git_name_cow. destruct (is_reserved_heddle_namespace v || starts_with GIT_PREFIX v) eqn:E.
  - assert (native_git_name v = GIT_PREFIX ++ encode_name v) as En by (unfold native_git_name; by rewrite E).
    rewrite En at 1. rewrite strip_prefix_app. cbn [mbind option_bind].
    rewrite decode_encode by done. by rewrite bool_decide_eq_true_2.
  - assert (native_git_name v = v) as -> by (unfold native_git_name; by rewrite E).
    apply orb_false_iff in E as [_ E]. unfold starts_with in E.
    by destruct (strip_prefix GIT_PREFIX v).
Qed.

Lemma git_name_cow_spec native b s : git_name_cow native = (b, s) →
  if b then native_git_name s = native ∧ decode_name (encode_name s) = Some s else s = native.
Proof.
  unfold git_name_cow. destruct (strip_prefix GIT_PREFIX native ≫= decode_name) as [n|] eqn:E;
    [|by intros [= <- <-]].
  case_bool_decide as En; intros [= <- <-]; [|done]. split; [done|].
  apply bind_Some in E as (e & _ & E). pose proof (decode_Some _ _ E) as [<- _]. done.
Qed.

Lemma native_not_reserved v : bytes_ok v → is_reserved_heddle_namespace (native_git_name v) = false.
Proof.
  intros Hv. unfold native_git_name. destruct (is_reserved_heddle_namespace v || starts_with GIT_PREFIX v) eqn:E.
  - unfold is_reserved_heddle_namespace. rewrite split_single; [done|].
    intros H. apply elem_of_app in H as [H|H]; [|by apply encode_no_slash in H].
    apply list_elem_of_In in H. cbn in H. lia.
  - by apply orb_false_iff in E as [-> _].
Qed.

Lemma decode_bytes_ok e : ∀ o, bytes_ok e → decode_bytes e = Some o → bytes_ok o.
Proof.
  induction e as [e IH] using (induction_ltof1 _ (@length Z)); unfold ltof in IH. intros o He H.
  destruct e as [|b e]; [by injection H as <-|]. apply Forall_cons in He as [Hb He]. cbn in H.
  destruct (b =? 37).
  - destruct e as [|h [|l e]]; [done|done|]. apply bind_Some in H as (hi & _ & H).
    apply bind_Some in H as (lo & _ & H). apply bind_Some in H as (o' & Eo & H). injection H as <-.
    apply Forall_cons in He as [_ He]. apply Forall_cons in He as [_ He].
    constructor; [apply as_u8_byte|]. eapply IH; [|exact He|exact Eo]. cbn. lia.
  - apply bind_Some in H as (o' & Eo & H). injection H as <-. constructor; [done|].
    eapply IH; [|exact He|exact Eo]. cbn. lia.
Qed.

(** The source of a stored name is a string that its escape gives back. *)
Lemma cow_source v b s : text_ok v → git_name_cow v = (b, s) →
  bytes_ok s ∧ decode_name (encode_name s) = Some s ∧ v = (if b then native_git_name s else s).
Proof.
  intros [Hb Hu] E. pose proof (git_name_cow_spec _ _ _ E) as H. destruct b.
  - destruct H as [<- Hd]. split; [|done]. unfold git_name_cow in E.
    destruct (strip_prefix GIT_PREFIX (native_git_name s) ≫= decode_name) as [n|] eqn:En; [|done].
    case_bool_decide; [|done]. injection E as ->.
    apply bind_Some in En as (e & Ee & En). apply strip_prefix_Some in Ee. rewrite Ee in Hb.
    apply Forall_app in Hb as [_ Hb]. unfold decode_name in En.
    apply bind_Some in En as (q & Eq & En). apply strip_prefix_Some in Eq as ->.
    apply Forall_app in Hb as [_ Hb]. apply bind_Some in En as (o & Eo & En).
    destruct (is_utf8 o); [|done]. case_bool_decide; [|done]. injection En as ->.
    by eapply decode_bytes_ok.
  - subst s. split; [done|]. split; [by apply decode_encode|done].
Qed.

(** ** Storage paths *)

Lemma collect_parts_chunks cs acc :
  collect_parts (map (λ c, N_PREFIX ++ c) cs ++ [ENTRY_PART]) acc = Some (acc ++ concat cs).
Proof.
  revert acc. induction cs as [|c cs IH]; intros acc; [by rewrite app_nil_r|].
  assert (∃ p ps, map (λ c, N_PREFIX ++ c) cs ++ [ENTRY_PART] = p :: ps) as (p & ps & E)
    by (destruct cs; cbn; eauto).
  change (collect_parts ((N_PREFIX ++ c) :: (map (λ c, N_PREFIX ++ c) cs ++ [ENTRY_PART])) acc
    = Some (acc ++ concat (c :: cs))).
  specialize (IH (acc ++ c)). rewrite E in IH |- *.
  change ((chunk ← strip_prefix N_PREFIX (N_PREFIX ++ c); collect_parts (p :: ps) (acc ++ chunk))
    = Some (acc ++ concat (c :: cs))).
  rewrite strip_prefix_app. cbn [mbind option_bind]. rewrite IH. cbn [concat]. by rewrite app_assoc.
Qed.

Lemma drop2_encode s : drop 2 (encode_name s) = concat (map encode_byte s).
Proof. done. Qed.

(** The shape of the path of a short name *)
Lemma plain_shape v b s : git_name_cow v = (b, s) →
  ∃ cs, concat cs = concat (map encode_byte s) ∧
    plain_name_path v = (if b then [GIT_PART] else []) ++ map (λ c, N_PREFIX ++ c) cs ++ [ENTRY_PART].
Proof.
  intros E. unfold plain_name_path. rewrite E. eexists. split; [|done].
  rewrite drop2_encode. apply concat_chunks. lia.
Qed.

Lemma lower_part c : map ascii_lower (N_PREFIX ++ c) = N_PREFIX ++ map ascii_lower c.
Proof. by rewrite map_app. Qed.

Definition fold_path (p : list (list Z)) : list (list Z) := map (map ascii_lower) p.

Lemma fold_plain (b : bool) cs :
  fold_path ((if b then [GIT_PART] else []) ++ map (λ c, N_PREFIX ++ c) cs ++ [ENTRY_PART])
  = (if b then [GIT_PART] else []) ++ map (λ c, N_PREFIX ++ c) (map (map ascii_lower) cs) ++ [ENTRY_PART].
Proof.
  unfold fold_path. rewrite !map_app. f_equal; [by destruct b|]. f_equal.
  rewrite !map_map. apply map_ext. intros c. by rewrite lower_part.
Qed.

Lemma plain_parts_inj (b b' : bool) cs cs' :
  (if b then [GIT_PART] else []) ++ map (λ c, N_PREFIX ++ c) cs ++ [ENTRY_PART]
  = (if b' then [GIT_PART] else []) ++ map (λ c, N_PREFIX ++ c) cs' ++ [ENTRY_PART] →
  b = b' ∧ cs = cs'.
Proof.
  intros H. assert (b = b') as <-.
  { destruct b, b'; [done| | |done]; exfalso; [destruct cs'|destruct cs]; done. }
  split; [done|]. apply app_inv_head, app_inj_tail in H as [H _].
  revert cs' H. induction cs as [|c cs IH]; intros [|c' cs'] H; try done.
  cbn [map] in H. injection H as Hc H. f_equal; [done|by apply IH].
Qed.

Lemma fold_encoded_inj s s' : bytes_ok s → bytes_ok s' →
  map ascii_lower (concat (map encode_byte s)) = map ascii_lower (concat (map encode_byte s')) → s = s'.
Proof.
  intros Hs Hs' E. pose proof (decode_escaped _ _ folds_lower Hs) as D. rewrite E in D.
  rewrite (decode_escaped _ _ folds_lower Hs') in D. congruence.
Qed.

Lemma concat_lower cs : concat (map (map ascii_lower) cs) = map ascii_lower (concat cs).
Proof. induction cs as [|c cs IH]; [done|]. cbn. by rewrite map_app, IH. Qed.

Lemma plain_path_inj v v' : text_ok v → text_ok v' →
  fold_path (plain_name_path v) = fold_path (plain_name_path v') → v = v'.
Proof.
  intros Hv Hv' H. destruct (git_name_cow v) as [b s] eqn:E, (git_name_cow v') as [b' s'] eqn:E'.
  destruct (plain_shape _ _ _ E) as (cs & C & S), (plain_shape _ _ _ E') as (cs' & C' & S').
  rewrite S, S', !fold_plain in H. apply plain_parts_inj in H as [<- H].
  destruct (cow_source _ _ _ Hv E) as (Hs & _ & ->), (cow_source _ _ _ Hv' E') as (Hs' & _ & ->).
  assert (s = s') as <-; [|done]. apply fold_encoded_inj; [done|done|].
  rewrite <- C, <- C', <- !concat_lower. by rewrite H.
Qed.

Lemma to_hex_inj a b : bytes_ok a → bytes_ok b → to_hex a = to_hex b → a = b.
Proof.
  intros Ha. revert b. induction Ha as [|x a Hx Ha IH]; intros [|y b] Hb H; try done.
  apply Forall_cons in Hb as [Hy Hb]. unfold to_hex in H. cbn [map concat app] in H.
  injection H as Hh Hl H. f_equal; [|by apply IH].
  assert (∀ d d', 0 ≤ d < 16 → 0 ≤ d' < 16 → hex_lower d = hex_lower d' → d = d') as Hinj.
  { intros d d' Hd Hd'. unfold hex_lower.
    destruct (d <? 10) eqn:E, (d' <? 10) eqn:E'; rewrite ?Z.ltb_lt, ?Z.ltb_ge in *; lia. }
  destruct (nibbles x Hx) as (A & B & E), (nibbles y Hy) as (A' & B' & E').
  apply Hinj in Hh, Hl; [|done..]. lia.
Qed.

Definition hex_char (b : Z) : Prop := 48 ≤ b ≤ 57 ∨ 97 ≤ b ≤ 102.

Lemma to_hex_chars a : bytes_ok a → Forall hex_char (to_hex a).
Proof.
  induction 1 as [|x a Hx _ IH]; [constructor|]. unfold to_hex. cbn [map concat app].
  assert (∀ d, 0 ≤ d < 16 → hex_char (hex_lower d)) as Hd.
  { intros d Hd. unfold hex_char, hex_lower. destruct (d <? 10) eqn:E; rewrite ?Z.ltb_lt, ?Z.ltb_ge in E; lia. }
  destruct (nibbles x Hx) as (A & B & _). constructor; [by apply Hd|]. constructor; [by apply Hd|done].
Qed.

Lemma zlen_to_hex a : zlen (to_hex a) = 2 * zlen a.
Proof. induction a as [|x a IH]; [done|]. unfold to_hex in *. cbn [map concat app]. rewrite !zlen_cons, IH. lia. Qed.

(** The parts of storage paths: portable characters only. *)
Definition portable (part : list Z) : Prop := part ≠ [] ∧ Forall escape_char part.

Lemma hex_escape b : hex_char b → escape_char b.
Proof.
  intros H. left. unfold passes, between. rewrite !orb_true_iff, !andb_true_iff, !Z.leb_le. unfold hex_char in H. lia.
Qed.

Ltac portable_literal :=
  split; [done|]; cbn; repeat (constructor; [left; by vm_compute|]); constructor.

Lemma plain_portable v b s : text_ok v → git_name_cow v = (b, s) → Forall portable (plain_name_path v).
Proof.
  intros Hv E. destruct (plain_shape _ _ _ E) as (cs & C & ->). destruct (cow_source _ _ _ Hv E) as (Hs & _).
  apply Forall_app. split; [destruct b; [constructor; [portable_literal|]|]; constructor|].
  apply Forall_app. split; [|constructor; [portable_literal|constructor]].
  pose proof (encoded_alphabet s Hs) as F. rewrite <- C in F. clear -F. revert F.
  induction cs as [|c cs IH]; [constructor|]. cbn [concat map]. rewrite Forall_app. intros [Fc F].
  constructor; [|by apply IH]. split; [done|].
  change (N_PREFIX ++ c) with (110 :: 45 :: c). constructor; [left; by vm_compute|]. by constructor; [left; by vm_compute|].
Qed.

Section digests.
Context (blake3 : list Z → list Z) (blake3_hash : ∀ x, zlen (blake3 x) = 32 ∧ bytes_ok (blake3 x)).

Definition long_name (v : list Z) : Prop := NAME_PATH_BUDGET < path_len (plain_name_path v).

Lemma name_path_long v : long_name v → name_path blake3 v = [H_PREFIX ++ to_hex (blake3 v); ENTRY_PART].
Proof. intros H. unfold name_path. by rewrite (proj2 (Z.ltb_lt _ _) H). Qed.

Lemma name_path_short v : ¬ long_name v → name_path blake3 v = plain_name_path v.
Proof. intros H%Z.nlt_ge. unfold name_path. by rewrite (proj2 (Z.ltb_ge _ _) H). Qed.

Lemma long_name_dec v : {long_name v} + {¬ long_name v}.
Proof. unfold long_name. destruct (Z_lt_dec NAME_PATH_BUDGET (path_len (plain_name_path v))); auto. Qed.

Lemma digest_part_lower v : map ascii_lower (H_PREFIX ++ to_hex (blake3 v)) = H_PREFIX ++ to_hex (blake3 v).
Proof.
  rewrite map_app. f_equal. destruct (blake3_hash v) as [_ Hb].
  induction (to_hex_chars _ Hb) as [|b l Hc _ IH]; [done|]. cbn [map]. rewrite IH. f_equal.
  unfold ascii_lower, between. unfold hex_char in Hc.
  destruct (65 <=? b) eqn:E, (b <=? 90) eqn:E'; rewrite ?Z.leb_le, ?Z.leb_gt in *; try done; lia.
Qed.

Lemma plain_not_long v w : fold_path (plain_name_path v) ≠ fold_path [H_PREFIX ++ to_hex (blake3 w); ENTRY_PART].
Proof.
  destruct (git_name_cow v) as [b s] eqn:E. destruct (plain_shape _ _ _ E) as (cs & _ & ->). rewrite fold_plain.
  unfold fold_path. cbn [map]. rewrite digest_part_lower. by destruct b, cs.
Qed.

Lemma is_digest_long v : is_digest_name_path [H_PREFIX ++ to_hex (blake3 v); ENTRY_PART] = true.
Proof.
  unfold is_digest_name_path. rewrite strip_prefix_app. destruct (blake3_hash v) as [Hl Hb].
  rewrite zlen_to_hex, Hl. change (2 * 32 =? 64) with true. rewrite bool_decide_eq_true_2 by done.
  rewrite andb_true_r, andb_true_l. apply forallb_forall. intros b Hin%list_elem_of_In.
  pose proof (to_hex_chars _ Hb) as F. rewrite Forall_forall in F. apply F in Hin. unfold hex_char in Hin. unfold between.
  rewrite orb_true_iff, !andb_true_iff, !Z.leb_le. lia.
Qed.

Lemma is_digest_plain v : is_digest_name_path (plain_name_path v) = false.
Proof.
  destruct (git_name_cow v) as [b s] eqn:E. destruct (plain_shape _ _ _ E) as (cs & _ & ->).
  destruct b, cs as [|c [|c' [|c'' cs]]]; reflexivity.
Qed.

Lemma decode_plain v : text_ok v → ¬ long_name v → decode_name_path blake3 (plain_name_path v) = Some v.
Proof.
  intros Hv Hs. destruct (git_name_cow v) as [b s] eqn:E.
  pose proof (name_path_short v Hs) as Hp. destruct (plain_shape _ _ _ E) as (cs & C & S).
  destruct (cow_source _ _ _ Hv E) as (Hb & D & Ev). rewrite S in Hp |- *. unfold decode_name_path.
  assert (N_PREFIX ++ concat cs = encode_name s) as En by (rewrite C; done).
  destruct b; cbn [app].
  - rewrite bool_decide_eq_true_2 by done. rewrite collect_parts_chunks. cbn [mbind option_bind].
    rewrite En, D. cbn [mbind option_bind]. rewrite <- Ev, Hp. by rewrite bool_decide_eq_true_2.
  - assert (∃ p ps, map (λ c, N_PREFIX ++ c) cs ++ [ENTRY_PART] = p :: ps ∧ p ≠ GIT_PART) as (p & ps & Ep & Hn)
      by (destruct cs; cbn; eauto).
    cbn [app] in Hp. rewrite Ep. rewrite bool_decide_eq_false_2 by done. rewrite <- Ep.
    rewrite collect_parts_chunks. cbn [mbind option_bind]. rewrite En, D. cbn [mbind option_bind].
    rewrite <- Ev, Hp. by rewrite bool_decide_eq_true_2.
Qed.

Lemma entry_last v : ∃ pre, name_path blake3 v = pre ++ [ENTRY_PART] ∧ ENTRY_PART ∉ pre.
Proof.
  destruct (long_name_dec v) as [L|L].
  - rewrite name_path_long by done. exists [H_PREFIX ++ to_hex (blake3 v)]. split; [done|].
    by intros H%list_elem_of_singleton.
  - rewrite name_path_short by done. destruct (git_name_cow v) as [b s] eqn:E.
    destruct (plain_shape _ _ _ E) as (cs & _ & ->). rewrite app_assoc. eexists. split; [done|].
    intros [H|H]%elem_of_app; [destruct b; [by apply list_elem_of_singleton in H|by apply elem_of_nil in H]|].
    by apply list_elem_of_fmap in H as (c & H & _).
Qed.

End digests.

Section theorems.
Context (blake3 : list Z → list Z) (blake3_hash : ∀ x, zlen (blake3 x) = 32 ∧ bytes_ok (blake3 x)).

(** C24. Storage paths of ref names are faithful. Two names get the same path, even
    on a file system that folds the case of ASCII letters, only when they are the
    same name or both are long names with the same BLAKE3 digest; no path lies
    below another one (a name's directory never contains another name's value);
    every path stays within its length budget and uses only portable characters;
    and the path of a name that is not long decodes to exactly that name. *)
Theorem name_path_faithful v w : text_ok v → text_ok w →
  (fold_path (name_path blake3 v) = fold_path (name_path blake3 w) →
     v = w ∨ (long_name v ∧ long_name w ∧ blake3 v = blake3 w)) ∧
  (name_path blake3 v `prefix_of` name_path blake3 w → name_path blake3 v = name_path blake3 w) ∧
  path_len (name_path blake3 v) ≤ NAME_PATH_BUDGET ∧ Forall portable (name_path blake3 v) ∧
  decode_name_path blake3 (name_path blake3 v) =
    (if is_digest_name_path (name_path blake3 v) then None else Some v).
Proof using blake3_hash.
  intros Hv Hw. split; [|split; [|split; [|split]]].
  - intros H. destruct (long_name_dec v) as [Lv|Lv], (long_name_dec w) as [Lw|Lw];
      rewrite ?(name_path_long blake3 v Lv), ?(name_path_short blake3 v Lv),
        ?(name_path_long blake3 w Lw), ?(name_path_short blake3 w Lw) in H.
    + right. split; [done|]. split; [done|]. unfold fold_path in H. cbn [map] in H.
      rewrite !digest_part_lower in H by done. injection H as H.
      apply to_hex_inj in H; [done|apply blake3_hash..].
    + symmetry in H. by apply plain_not_long in H.
    + by apply plain_not_long in H.
    + left. by apply plain_path_inj.
  - intros [k Ek]. destruct (entry_last blake3 v) as (p & Ev & _), (entry_last blake3 w) as (q & Ew & Hq).
    destruct k as [|x k _] using rev_ind; [by rewrite app_nil_r in Ek|]. exfalso. apply Hq.
    rewrite Ev, Ew, !app_assoc in Ek. apply app_inj_tail in Ek as [-> _].
    apply elem_of_app. left. apply elem_of_app. right. by apply list_elem_of_singleton.
  - destruct (long_name_dec v) as [L|L].
    + rewrite name_path_long by done. unfold path_len. cbn [concat]. rewrite !zlen_app, zlen_to_hex.
      destruct (blake3_hash v) as [-> _]. by vm_compute.
    + rewrite name_path_short by done. unfold long_name in L. lia.
  - destruct (long_name_dec v) as [L|L].
    + rewrite name_path_long by done. constructor; [|constructor; [portable_literal|constructor]].
      split; [done|]. apply Forall_app. split; [repeat (constructor; [left; by vm_compute|]); constructor|].
      eapply Forall_impl; [apply to_hex_chars, blake3_hash|apply hex_escape].
    + rewrite name_path_short by done. destruct (git_name_cow v) as [b s] eqn:E. by eapply plain_portable.
  - destruct (long_name_dec v) as [L|L].
    + rewrite name_path_long, is_digest_long by done. unfold decode_name_path.
      rewrite bool_decide_eq_false_2 by done. reflexivity.
    + rewrite name_path_short, is_digest_plain, decode_plain by done. done.
Qed.

End theorems.

(** Names that a case-folding host confuses, and a digest of 32 bytes. *)
Definition zero_hash (x : list Z) : list Z := replicate 32 0.

Lemma name_path_faithful_witness :
  name_path zero_hash (ascii_bytes "CON/a") = [ascii_bytes "n-%43%4F%4E%2Fa"; ascii_bytes "entry"] ∧
  fold_path (name_path zero_hash (ascii_bytes "CON/a")) ≠ fold_path (name_path zero_hash (ascii_bytes "con/a")).
Proof.
  split; [by vm_compute|]. intros H.
  assert (∀ x, zlen (zero_hash x) = 32 ∧ bytes_ok (zero_hash x)) as Hz.
  { intros x. split; [done|]. unfold zero_hash. apply Forall_replicate. by split. }
  assert (text_ok (ascii_bytes "CON/a") ∧ text_ok (ascii_bytes "con/a")) as [Hv Hw].
  { split; (split; [repeat (constructor; [by split|]); constructor|by vm_compute]). }
  destruct (name_path_faithful zero_hash Hz _ _ Hv Hw) as [F _].
  destruct (F H) as [E|[L _]]; [done|]. unfold long_name in L. vm_compute in L. done.
Defined.

(** Mapping an imported Git name into the native names and back gives the Git
    name; hence distinct Git names stay distinct, and no mapped name falls into the
    reserved [heddle/] namespace, whatever its case. *)
Theorem git_name_roundtrip v : text_ok v →
  git_name (native_git_name v) = v ∧ is_reserved_heddle_namespace (native_git_name v) = false.
Proof.
  intros Hv. split; [|apply native_not_reserved, Hv].
  unfold git_name. by rewrite git_name_cow_native.
Qed.

Lemma git_name_roundtrip_witness :
  native_git_name (ascii_bytes "Heddle/x") = ascii_bytes "git%n-%48eddle%2Fx" ∧
  git_name (ascii_bytes "git%n-%48eddle%2Fx") = ascii_bytes "Heddle/x".
Proof.
  split; [by vm_compute|].
  assert (text_ok (ascii_bytes "Heddle/x")) as Hv.
  { split; [repeat (constructor; [by split|]); constructor|by vm_compute]. }
  exact (proj1 (git_name_roundtrip _ Hv)).
Defined.
