(* ===== verification/RefText.v ===== *)
(** * Text of refs

    [StateId] text of [crates/object-model/src/object/hash.rs], the loose-ref
    payload ([refs/text.rs]), HEAD ([refs/head.rs]), ref-name validation
    ([refs/name.rs], [object/identifiers.rs]) and the packed-refs file
    ([object-model/src/refs.rs]). The base32 crate, the Unicode case tables of
    the standard library and the ref syntax of the sley crate are parameters. *)

From S2P Require Import Prelude Text RefNames.
Import Text RefNames.

(** [base32::encode], [base32::decode] (alphabet Crockford); [str::to_uppercase]
    and [str::to_lowercase], of which only the effect on ASCII is used. *)
Class Base32 := {
  b32_encode : list Z → list Z;
  b32_decode : list Z → option (list Z);
  to_uppercase : list Z → list Z;
  to_lowercase : list Z → list Z;
}.

Module RefText.

(** [BranchRefNameBuf::from_branch_name(name).is_ok()] and
    [check_refname_format(full, false).is_ok()] of the sley crate *)
Class RefSyntax := {
  branch_format : list Z → bool;
  refname_format : list Z → bool;
}.

Section text.
Context `{Base32} `{RefSyntax}.

Definition HS_PREFIX : list Z := ascii_bytes "hs-".

Definition to_string_full (id : list Z) : list Z := HS_PREFIX ++ to_lowercase (b32_encode id).

Definition try_from_slice (bytes : list Z) : option (list Z) :=
  if zlen bytes =? 32 then Some bytes else None.

Definition state_id_parse (s : list Z) : option (list Z) :=
  let encoded := default s (strip_prefix HS_PREFIX s) in
  bytes ← b32_decode (to_uppercase encoded);
  try_from_slice bytes.

(** [str::trim]: the UTF-8 sequences of the [White_Space] characters *)
Definition white_space : list (list Z) :=
  [[9]; [10]; [11]; [12]; [13]; [32]; [194; 133]; [194; 160]; [225; 154; 128]; [226; 128; 128]; [226; 128; 129];
   [226; 128; 130]; [226; 128; 131]; [226; 128; 132]; [226; 128; 133]; [226; 128; 134]; [226; 128; 135];
   [226; 128; 136]; [226; 128; 137]; [226; 128; 138]; [226; 128; 168]; [226; 128; 169]; [226; 128; 175];
   [226; 129; 159]; [227; 128; 128]].

Fixpoint strip_any (ws : list (list Z)) (s : list Z) : option (list Z) :=
  match ws with
  | [] => None
  | w :: ws => match strip_prefix w s with Some r => Some r | None => strip_any ws s end
  end.

Fixpoint trim_loop (fuel : nat) (ws : list (list Z)) (s : list Z) : list Z :=
  match fuel with
  | O => s
  | S fuel => match strip_any ws s with Some r => trim_loop fuel ws r | None => s end
  end.

Definition trim (s : list Z) : list Z :=
  let s := trim_loop (length s) white_space s in
  reverse (trim_loop (length s) (map reverse white_space) (reverse s)).

Definition parse_state_id_text (contents : list Z) : option (list Z) := state_id_parse (trim contents).
Definition format_state_id_text (id : list Z) : list Z := to_string_full id ++ [10].

(** ** Names *)

Definition HEADS_PREFIX : list Z := ascii_bytes "refs/heads/".
Definition TAGS_PREFIX : list Z := ascii_bytes "refs/tags/".

Definition from_git_branch (name : list Z) : option (list Z) :=
  if bool_decide (name = ascii_bytes "HEAD") || (1024 <? zlen name + zlen HEADS_PREFIX) || negb (branch_format name)
  then None else Some (native_git_name name).

Definition from_git_tag (name : list Z) : option (list Z) :=
  let full := TAGS_PREFIX ++ name in
  if (1024 <? zlen full) || negb (refname_format full) then None else Some (native_git_name name).

Definition validate_ref_name (name : list Z) : bool :=
  let full := HEADS_PREFIX ++ git_name name in
  negb (negb (refname_format full) || is_reserved_heddle_namespace name
        || (starts_with GIT_PREFIX name && negb (bool_decide (native_git_name (git_name name) = name)))).

(** ** HEAD *)

Inductive Head := Attached (thread : list Z) | Detached (state : list Z).

Definition REF_PREFIX : list Z := ascii_bytes "ref: ".

Definition head_parse (contents : list Z) : option Head :=
  let contents := strip_ref_line_ending contents in
  match strip_prefix REF_PREFIX contents with
  | Some thread =>
      match from_git_branch (git_name thread) with
      | None => None
      | Some _ => if validate_ref_name thread then Some (Attached thread) else None
      end
  | None => match state_id_parse contents with Some id => Some (Detached id) | None => None end
  end.

Definition head_to_text (h : Head) : list Z :=
  match h with
  | Attached thread => REF_PREFIX ++ thread ++ [10]
  | Detached state => to_string_full state ++ [10]
  end.

(** ** Packed refs *)

Definition THREADS_PREFIX : list Z := ascii_bytes "refs/threads/".
Definition MARKERS_PREFIX : list Z := ascii_bytes "refs/markers/".

Record PackedRefsModel := { threads : gmap (list Z) (list Z); markers : gmap (list Z) (list Z) }.

Definition packed_new : PackedRefsModel := {| threads := ∅; markers := ∅ |}.
Definition get_thread (p : PackedRefsModel) (name : list Z) : option (list Z) := threads p !! name.
Definition get_marker (p : PackedRefsModel) (name : list Z) : option (list Z) := markers p !! name.
Definition set_thread (name id : list Z) (p : PackedRefsModel) : PackedRefsModel :=
  {| threads := <[name := id]> (threads p); markers := markers p |}.
Definition set_marker (name id : list Z) (p : PackedRefsModel) : PackedRefsModel :=
  {| threads := threads p; markers := <[name := id]> (markers p) |}.
Definition remove_track (name : list Z) (p : PackedRefsModel) : PackedRefsModel :=
  {| threads := delete name (threads p); markers := markers p |}.
Definition remove_marker (name : list Z) (p : PackedRefsModel) : PackedRefsModel :=
  {| threads := threads p; markers := delete name (markers p) |}.
Definition packed_is_empty (p : PackedRefsModel) : bool :=
  bool_decide (threads p = ∅) && bool_decide (markers p = ∅).

(** [line.splitn(2, ' ')] with both parts present *)
Fixpoint split_once (sep : Z) (s : list Z) : option (list Z * list Z) :=
  match s with
  | [] => None
  | b :: s => if b =? sep then Some ([], s) else '(l, r) ← split_once sep s; Some (b :: l, r)
  end.

(** One iteration of the loop of [PackedRefsModel::parse] *)
Definition parse_line (p : PackedRefsModel) (line : list Z) : PackedRefsModel :=
  if bool_decide (line = []) || starts_with [35] line then p
  else
    match split_once 32 line with
    | None => p
    | Some (id_str, refname) =>
        match state_id_parse id_str with
        | None => p
        | Some id =>
            match strip_prefix THREADS_PREFIX refname with
            | Some name => set_thread name id p
            | None =>
                match strip_prefix MARKERS_PREFIX refname with
                | Some name => set_marker name id p
                | None => p
                end
            end
        end
    end.

Definition packed_parse (contents : list Z) : PackedRefsModel :=
  fold_left parse_line (text_lines contents) packed_new.

(** [lines.join("\n")] *)
Fixpoint join (sep : list Z) (lines : list (list Z)) : list Z :=
  match lines with
  | [] => []
  | [line] => line
  | line :: lines => line ++ sep ++ join sep lines
  end.

Definition PACKED_HEADER : list Z := ascii_bytes "# packed-refs with: peeled fully-peeled sorted".

Definition packed_line (prefix : list Z) (entry : list Z * list Z) : list Z :=
  to_string_full entry.2 ++ [32] ++ prefix ++ entry.1.

(** [to_text], for the orders in which the hash maps are walked *)
Definition packed_to_text_in (ts ms : list (list Z * list Z)) : list Z :=
  join [10] (sort_by compare_bytes
    (PACKED_HEADER :: map (packed_line THREADS_PREFIX) ts ++ map (packed_line MARKERS_PREFIX) ms)) ++ [10].

Definition packed_to_text (p : PackedRefsModel) : list Z :=
  packed_to_text_in (map_to_list (threads p)) (map_to_list (markers p)).

End text.
End RefText.

Import RefText.

#[global] Instance head_eq_dec : EqDecision Head.
Proof. solve_decision. Defined.

(** What the parameters are known to satisfy: base 32 is decoded back and written
    in digits and capital letters; case mapping of ASCII is bytewise; a ref name
    that passes the syntax has no space and no control character. *)
Definition ascii_upper (b : Z) : Z := if between 97 122 b then b - 32 else b.
Definition capital (b : Z) : Prop := 48 ≤ b ≤ 57 ∨ 65 ≤ b ≤ 90.

Class Base32Laws `{Base32} : Prop := {
  b32_roundtrip : ∀ bs, bytes_ok bs → zlen bs = 32 → b32_decode (b32_encode bs) = Some bs;
  b32_capitals : ∀ bs, bytes_ok bs → Forall capital (b32_encode bs);
  b32_nonempty : ∀ bs, zlen bs = 32 → b32_encode bs ≠ [];
  uppercase_ascii : ∀ s, Forall (λ b, 0 ≤ b < 128) s → to_uppercase s = map ascii_upper s;
  lowercase_ascii : ∀ s, Forall (λ b, 0 ≤ b < 128) s → to_lowercase s = map ascii_lower s;
}.

Class RefSyntaxLaws `{RefSyntax} : Prop := {
  refname_visible : ∀ name, refname_format name = true → Forall (λ b, 32 < b ∧ b ≠ 127) name;
}.

(** A state id as the code holds it. *)
Definition id32 (id : list Z) : Prop := bytes_ok id ∧ zlen id = 32.

(** ** State ids *)

Definition id_char (b : Z) : Prop := 48 ≤ b ≤ 57 ∨ 97 ≤ b ≤ 122 ∨ b = 45.

Section ids.
Context `{Base32Laws}.

Lemma lower_capital b : capital b → ascii_upper (ascii_lower b) = b ∧ id_char (ascii_lower b).
Proof.
  unfold capital, ascii_upper, ascii_lower, between, id_char. intros Hb.
  destruct (65 <=? b) eqn:E, (b <=? 90) eqn:E'; rewrite ?Z.leb_le, ?Z.leb_gt in *; cbn [andb];
    repeat match goal with |- context [if ?c then _ else _] => destruct c eqn:? end;
    rewrite ?andb_true_iff, ?andb_false_iff, ?Z.leb_le, ?Z.leb_gt in *; lia.
Qed.

Lemma id_text id : id32 id →
  ∃ body, to_string_full id = HS_PREFIX ++ body ∧ body ≠ [] ∧ Forall id_char body ∧ to_uppercase body = b32_encode id.
Proof.
  intros [Hb Hl]. pose proof (b32_capitals id Hb) as Hc. exists (map ascii_lower (b32_encode id)).
  assert (Forall (λ b, 0 ≤ b < 128) (b32_encode id)) as Ha.
  { eapply Forall_impl; [exact Hc|]. intros b Hcb. unfold capital in Hcb. lia. }
  split; [unfold to_string_full; by rewrite lowercase_ascii|]. split.
  { intros E%map_eq_nil. by apply (b32_nonempty id Hl). }
  assert (Forall id_char (map ascii_lower (b32_encode id))) as Hi.
  { rewrite Forall_map. eapply Forall_impl; [exact Hc|]. intros b Hcb. by apply lower_capital. }
  split; [done|]. rewrite uppercase_ascii.
  - rewrite map_map. rewrite <- (map_id (b32_encode id)) at 2. apply map_ext_in. intros b Hin%list_elem_of_In.
    rewrite Forall_forall in Hc. by apply lower_capital, Hc.
  - eapply Forall_impl; [exact Hi|]. intros b Hib. unfold id_char in Hib. lia.
Qed.

Lemma id_text_chars id : id32 id → Forall id_char (to_string_full id) ∧ ∃ s, to_string_full id = 104 :: s.
Proof.
  intros Hid. destruct (id_text id Hid) as (body & -> & _ & Hc & _). split; [|by exists (115 :: 45 :: body)].
  apply Forall_app. split; [|done]. repeat (constructor; [unfold id_char; cbn; lia|]). constructor.
Qed.

Lemma state_id_roundtrip id : id32 id → state_id_parse (to_string_full id) = Some id.
Proof.
  intros Hid. destruct (id_text id Hid) as (body & -> & _ & _ & Eu). destruct Hid as [Hb Hl].
  unfold state_id_parse. rewrite strip_prefix_app. cbn [from_option Datatypes.id]. rewrite Eu, b32_roundtrip by done.
  cbn. unfold try_from_slice. by rewrite Hl.
Qed.

Lemma state_id_length s id : state_id_parse s = Some id → zlen id = 32.
Proof.
  unfold state_id_parse. intros (b & _ & E)%bind_Some. unfold try_from_slice in E.
  destruct (zlen b =? 32) eqn:Ez; [|done]. injection E as <-. by apply Z.eqb_eq.
Qed.

(** *** Trimming *)

Lemma strip_any_id ws b s : Forall (λ w, ∃ x w', w = x :: w' ∧ ¬ id_char x) ws → id_char b → strip_any ws (b :: s) = None.
Proof.
  intros Hw Hb. induction Hw as [|w ws (x & w' & -> & Hx) _ IH]; [done|]. cbn [strip_any strip_prefix].
  destruct (x =? b) eqn:E; [apply Z.eqb_eq in E; congruence|done].
Qed.

Lemma spaces_not_id : Forall (λ w, ∃ x w', w = x :: w' ∧ ¬ id_char x) white_space.
Proof. repeat (constructor; [eexists _, _; split; [done|unfold id_char; lia]|]). constructor. Qed.
Lemma rev_spaces_not_id : Forall (λ w, ∃ x w', w = x :: w' ∧ ¬ id_char x) (map reverse white_space).
Proof. repeat (constructor; [eexists _, _; split; [done|unfold id_char; lia]|]). constructor. Qed.

Lemma trim_loop_stop n ws b s : strip_any ws (b :: s) = None → trim_loop n ws (b :: s) = b :: s.
Proof. destruct n; [done|]. cbn. by intros ->. Qed.

Lemma trim_line s : s ≠ [] → Forall id_char s → trim (s ++ [10]) = s.
Proof.
  intros Hn Hs. destruct s as [|b s]; [done|]. pose proof Hs as [Hb _]%Forall_cons. unfold trim.
  cbn [app]. rewrite trim_loop_stop by (apply strip_any_id; [apply spaces_not_id|done]).
  change (b :: s ++ [10]) with ((b :: s) ++ [10]). rewrite reverse_app.
  assert (length ((b :: s) ++ [10]) = S (length (b :: s))) as -> by (rewrite length_app; cbn; lia).
  change (reverse [10] ++ reverse (b :: s)) with (10 :: reverse (b :: s)).
  assert (∀ n r, trim_loop (S n) (map reverse white_space) (10 :: r) = trim_loop n (map reverse white_space) r)
    as -> by done.
  destruct (reverse (b :: s)) as [|c r] eqn:E.
  { apply (f_equal reverse) in E. by rewrite reverse_involutive in E. }
  rewrite trim_loop_stop; [rewrite <- E; apply reverse_involutive|].
  apply strip_any_id; [apply rev_spaces_not_id|]. apply Forall_reverse in Hs. rewrite E in Hs.
  by apply Forall_cons in Hs as [? _].
Qed.

Lemma state_text_roundtrip id : id32 id → parse_state_id_text (format_state_id_text id) = Some id.
Proof.
  intros Hid. destruct (id_text_chars id Hid) as (Hc & s & E). unfold parse_state_id_text, format_state_id_text.
  rewrite trim_line; [by apply state_id_roundtrip|by rewrite E|done].
Qed.

End ids.

(** ** Names and HEAD *)

Definition visible (s : list Z) : Prop := Forall (λ b, 32 < b ∧ b ≠ 127) s.

Section names.
Context `{Base32Laws} `{RefSyntaxLaws}.

Lemma name_visible name : text_ok name → validate_ref_name name = true → visible name.
Proof.
  intros Hn V. unfold validate_ref_name in V.
  assert (refname_format (HEADS_PREFIX ++ git_name name) = true) as F
    by (destruct (refname_format (HEADS_PREFIX ++ git_name name)); [done|by cbn in V]).
  apply refname_visible, Forall_app in F as [_ F].
  unfold git_name in F. destruct (git_name_cow name) as [b s] eqn:E. cbn [snd] in F.
  destruct (cow_source _ _ _ Hn E) as (Hs & _ & Ev). rewrite Ev. destruct b; [|exact F].
  unfold native_git_name. destruct (is_reserved_heddle_namespace s || starts_with GIT_PREFIX s); [|exact F].
  unfold encode_name. do 2 (apply Forall_app; split; [repeat (constructor; [by vm_compute|]); constructor|]).
  eapply Forall_impl; [exact (encoded_alphabet s Hs)|]. cbn. intros x Hx%escape_bounds. split; [lia|].  lia.
Qed.

(** A HEAD that the code can have written: an acceptable thread or a state id. *)
Definition head_ok (h : Head) : Prop :=
  match h with
  | Attached thread => text_ok thread ∧ is_Some (from_git_branch (git_name thread)) ∧ validate_ref_name thread = true
  | Detached state => id32 state
  end.

Lemma strip_suffix_app p s : strip_suffix p (s ++ p) = Some s.
Proof. unfold strip_suffix. rewrite reverse_app, strip_prefix_app. cbn. by rewrite reverse_involutive. Qed.

Lemma strip_suffix_Some p s r : strip_suffix p s = Some r → s = r ++ p.
Proof.
  unfold strip_suffix. intros (r' & E & ->)%fmap_Some. apply strip_prefix_Some in E.
  apply (f_equal reverse) in E. by rewrite reverse_app, !reverse_involutive in E.
Qed.

(** Text without line breaks. *)
Definition one_line (s : list Z) : Prop := Forall (λ b, b ≠ 10 ∧ b ≠ 13) s.

Lemma visible_line s : visible s → one_line s.
Proof. intros Hs. eapply Forall_impl; [exact Hs|]. cbn. lia. Qed.

Lemma one_line_last p b s : b = 10 ∨ b = 13 → one_line s → s ≠ p ++ [b].
Proof. intros Hb Hs ->. apply Forall_app in Hs as [_ Hs]. apply Forall_cons in Hs. lia. Qed.

Lemma strip_ending s eol : one_line s → eol = [] ∨ eol = [10] ∨ eol = [13; 10] → strip_ref_line_ending (s ++ eol) = s.
Proof.
  intros Hs Heol. unfold strip_ref_line_ending.
  assert (∀ p, strip_suffix (p ++ [10]) s = None) as Hnone.
  { intros p. destruct (strip_suffix (p ++ [10]) s) as [r|] eqn:E; [|done].
    apply strip_suffix_Some in E. rewrite app_assoc in E. by apply one_line_last in E; [|left|]. }
  destruct Heol as [->|[->| ->]].
  - rewrite app_nil_r. pose proof (Hnone [13]) as H13. pose proof (Hnone []) as H10. cbn [app] in H13, H10.
    by rewrite H13, H10.
  - assert (strip_suffix [13; 10] (s ++ [10]) = None) as ->; [|by rewrite strip_suffix_app].
    destruct (strip_suffix [13; 10] (s ++ [10])) as [r|] eqn:E; [|done].
    apply strip_suffix_Some in E. change [13; 10] with ([13] ++ [10]) in E. rewrite app_assoc in E.
    apply app_inj_tail in E as [E _]. by apply one_line_last in E; [|right|].
  - by rewrite strip_suffix_app.
Qed.

Lemma id_line id : id32 id → one_line (to_string_full id).
Proof.
  intros Hi. destruct (id_text_chars id Hi) as [Hc _]. eapply Forall_impl; [exact Hc|]. cbn. unfold id_char. lia.
Qed.

Lemma head_body h : head_ok h →
  ∃ s, head_to_text h = s ++ [10] ∧
    ∀ eol, eol = [] ∨ eol = [10] ∨ eol = [13; 10] → head_parse (s ++ eol) = Some h.
Proof.
  destruct h as [t|i]; cbn [head_to_text head_ok].
  - intros (Ht & [n Hn] & Hv). exists (REF_PREFIX ++ t). split; [by rewrite app_assoc|].
    intros eol He. unfold head_parse. rewrite strip_ending; [|apply Forall_app; split|done].
    + by rewrite strip_prefix_app, Hn, Hv.
    + repeat (constructor; [by vm_compute|]); constructor.
    + by apply visible_line, name_visible.
  - intros Hi. exists (to_string_full i). split; [done|]. intros eol He. unfold head_parse.
    rewrite strip_ending by (done || by apply id_line).
    destruct (strip_prefix REF_PREFIX (to_string_full i)) as [r|] eqn:E.
    + exfalso. apply strip_prefix_Some in E. destruct (id_text_chars i Hi) as (_ & s & E'). by rewrite E' in E.
    + by rewrite state_id_roundtrip.
Qed.

End names.

(** ** Packed refs *)

Lemma pieces_line l rest : 10 ∉ l → ∀ cur, pieces cur (l ++ 10 :: rest) = (cur ++ l ++ [10]) :: pieces [] rest.
Proof.
  induction l as [|b l IH]; intros Hl cur; [done|]. apply not_elem_of_cons in Hl as [Hb Hl]. cbn [app pieces].
  destruct (b =? 10) eqn:E; [apply Z.eqb_eq in E; congruence|]. rewrite IH by done. by rewrite <- app_assoc.
Qed.

Lemma strip_snoc b l : strip b (l ++ [b]) = Some l.
Proof. rewrite strip_last. by rewrite Z.eqb_refl. Qed.

Lemma text_lines_line l rest : one_line l → text_lines (l ++ 10 :: rest) = l :: text_lines rest.
Proof.
  intros Hl. unfold text_lines. rewrite pieces_line.
  - cbn [map app]. f_equal. unfold line_content. rewrite strip_snoc.
    destruct l as [|x l _] using rev_ind; [done|]. rewrite strip_last. apply Forall_app in Hl as [_ Hl].
    apply Forall_cons in Hl as [Hx _]. destruct (x =? 13) eqn:E; [apply Z.eqb_eq in E; lia|done].
  - intros Hin. unfold one_line in Hl. rewrite Forall_forall in Hl. by apply Hl in Hin as [? _].
Qed.

Lemma join_utf8 (sep : list Z) ls : is_utf8 sep = true → Forall (λ l, is_utf8 l = true) ls → is_utf8 (join sep ls) = true.
Proof.
  intros Hs. induction 1 as [|l ls Hl Hls IH]; [done|]. destruct ls as [|l' ls]; [done|].
  change (join sep (l :: l' :: ls)) with (l ++ sep ++ join sep (l' :: ls)). by repeat apply is_utf8_app.
Qed.

Lemma text_lines_join ls : ls ≠ [] → Forall one_line ls → text_lines (join [10] ls ++ [10]) = ls.
Proof.
  intros Hn Hl. induction Hl as [|l ls Hl Hls IH]; [done|]. destruct ls as [|l' ls].
  - cbn [join]. change (l ++ [10]) with (l ++ 10 :: []). by rewrite text_lines_line.
  - change (join [10] (l :: l' :: ls)) with (l ++ [10] ++ join [10] (l' :: ls)). rewrite <- !app_assoc.
    change ([10] ++ (join [10] (l' :: ls) ++ [10])) with (10 :: (join [10] (l' :: ls) ++ [10])).
    rewrite text_lines_line by done. f_equal. by apply IH.
Qed.

Section packed.
Context `{Base32Laws} `{RefSyntax}.

(** A line as an entry: the table, the name and the id. *)
Definition line_entry (line : list Z) : option (bool * list Z * list Z) :=
  if bool_decide (line = []) || starts_with [35] line then None
  else '(i, refname) ← split_once 32 line; id ← state_id_parse i;
    match strip_prefix THREADS_PREFIX refname with
    | Some name => Some (true, name, id)
    | None => name ← strip_prefix MARKERS_PREFIX refname; Some (false, name, id)
    end.

Definition add_entry (p : PackedRefsModel) (e : bool * list Z * list Z) : PackedRefsModel :=
  let '(k, name, id) := e in if k : bool then set_thread name id p else set_marker name id p.

Lemma parse_line_entry p line :
  parse_line p line = match line_entry line with Some e => add_entry p e | None => p end.
Proof.
  unfold parse_line, line_entry. destruct (bool_decide (line = []) || starts_with [35] line); [done|].
  destruct (split_once 32 line) as [[i r]|]; [|done]. cbn [mbind option_bind].
  destruct (state_id_parse i) as [id|]; [|done]. cbn [mbind option_bind].
  destruct (strip_prefix THREADS_PREFIX r) as [n|]; [done|]. by destruct (strip_prefix MARKERS_PREFIX r).
Qed.

Lemma parse_entries ls p : fold_left parse_line ls p = fold_left add_entry (omap line_entry ls) p.
Proof.
  revert p. induction ls as [|l ls IH]; intros p; [done|]. cbn [fold_left omap list_omap].
  rewrite parse_line_entry, IH. by destruct (line_entry l).
Qed.

Definition table (k : bool) (p : PackedRefsModel) : gmap (list Z) (list Z) := if k then threads p else markers p.

Lemma table_add k n p k' n' i :
  table k (add_entry p (k', n', i)) !! n = if bool_decide (k = k' ∧ n = n') then Some i else table k p !! n.
Proof.
  destruct k, k'; cbn; case_bool_decide as E; try (destruct E; congruence); try done.
  - destruct E as [_ ->]. by rewrite lookup_insert_eq.
  - rewrite lookup_insert_ne; [done|]. intros ->. by apply E.
  - destruct E as [_ ->]. by rewrite lookup_insert_eq.
  - rewrite lookup_insert_ne; [done|]. intros ->. by apply E.
Qed.

(** When no two entries disagree, their order does not matter. *)
Lemma table_fold k n x es p :
  (∀ i, (k, n, i) ∈ es → i = x) → (∃ i, (k, n, i) ∈ es) ∨ table k p !! n = Some x →
  table k (fold_left add_entry es p) !! n = Some x.
Proof.
  revert p. induction es as [|[[k' n'] i'] es IH]; intros p Hu He; cbn [fold_left].
  - destruct He as [[i Hi]|He]; [by apply elem_of_nil in Hi|done].
  - apply IH; [intros i Hi; apply Hu; by apply elem_of_cons; right|]. rewrite table_add.
    case_bool_decide as E.
    + right. destruct E as [-> ->]. f_equal. apply Hu, elem_of_cons. by left.
    + destruct He as [[i Hi]|He]; [|by right]. apply elem_of_cons in Hi as [Hi|Hi]; [|by left; exists i].
      injection Hi as -> -> ->. by destruct E.
Qed.

Lemma table_fold_none k n es p :
  (∀ i, (k, n, i) ∉ es) → table k (fold_left add_entry es p) !! n = table k p !! n.
Proof.
  revert p. induction es as [|[[k' n'] i'] es IH]; intros p He; [done|]. cbn [fold_left].
  rewrite IH, table_add; [|intros i Hi; apply (He i), elem_of_cons; by right].
  case_bool_decide as E; [|done]. destruct E as [-> ->]. exfalso. apply (He i'), elem_of_cons. by left.
Qed.

Definition packed_ok (p : PackedRefsModel) : Prop :=
  ∀ k n i, table k p !! n = Some i → one_line n ∧ id32 i.

Lemma split_once_app sep a b : sep ∉ a → split_once sep (a ++ sep :: b) = Some (a, b).
Proof.
  induction a as [|x a IH]; intros Ha; cbn; [by rewrite Z.eqb_refl|]. apply not_elem_of_cons in Ha as [Hx Ha].
  destruct (x =? sep) eqn:E; [apply Z.eqb_eq in E; congruence|]. by rewrite IH.
Qed.

Lemma line_entry_packed (k : bool) n i : id32 i →
  line_entry (packed_line (if k then THREADS_PREFIX else MARKERS_PREFIX) (n, i)) = Some (k, n, i).
Proof.
  intros Hi. unfold packed_line, line_entry. cbn [fst snd].
  destruct (id_text_chars i Hi) as (Hc & s & Es).
  rewrite bool_decide_eq_false_2 by (by rewrite Es). cbn [orb].
  assert (∀ t, starts_with [35] (to_string_full i ++ t) = false) as -> by (intros t; by rewrite Es).
  match goal with |- context [to_string_full i ++ [32] ++ ?r] =>
    change (to_string_full i ++ [32] ++ r) with (to_string_full i ++ 32 :: r) end.
  rewrite split_once_app. 2:{ intros Hin. rewrite Forall_forall in Hc. apply Hc in Hin. unfold id_char in Hin. lia. }
  cbn [mbind option_bind]. rewrite state_id_roundtrip by done. cbn [mbind option_bind].
  destruct k; [by rewrite strip_prefix_app|]. rewrite strip_prefix_app.
  by assert (strip_prefix THREADS_PREFIX (MARKERS_PREFIX ++ n) = None) as -> by done.
Qed.

Lemma packed_line_one k n i : one_line n → id32 i →
  one_line (packed_line (if k : bool then THREADS_PREFIX else MARKERS_PREFIX) (n, i)).
Proof.
  intros Hn Hi. unfold packed_line. apply Forall_app. split; [by apply id_line|]. apply Forall_app.
  split; [constructor; [by vm_compute|constructor]|]. apply Forall_app. split; [|done].
  destruct k; repeat (constructor; [by vm_compute|]); constructor.
Qed.

Lemma omap_perm {A B} (f : A → option B) l k : l ≡ₚ k → omap f l ≡ₚ omap f k.
Proof. by intros ->. Qed.

Lemma packed_entries p ts ms : packed_ok p → ts ≡ₚ map_to_list (threads p) → ms ≡ₚ map_to_list (markers p) →
  let ls := PACKED_HEADER :: map (packed_line THREADS_PREFIX) ts ++ map (packed_line MARKERS_PREFIX) ms in
  Forall one_line ls ∧ ∀ k n i, (k, n, i) ∈ omap line_entry ls ↔ table k p !! n = Some i.
Proof.
  intros Hp Ht Hm ls.
  assert (∀ n i, (n, i) ∈ ts ↔ table true p !! n = Some i) as Et
    by (intros n i; rewrite Ht; apply elem_of_map_to_list).
  assert (∀ n i, (n, i) ∈ ms ↔ table false p !! n = Some i) as Em
    by (intros n i; rewrite Hm; apply elem_of_map_to_list).
  split.
  - constructor; [repeat (constructor; [by vm_compute|]); constructor|].
    apply Forall_app. split; rewrite Forall_map; apply Forall_forall; intros [n i] Hin.
    + apply Et in Hin. destruct (Hp _ _ _ Hin). by apply (packed_line_one true).
    + apply Em in Hin. destruct (Hp _ _ _ Hin). by apply (packed_line_one false).
  - intros k n i. rewrite list_elem_of_omap. split.
    + intros (l & Hl & E). apply elem_of_cons in Hl as [->|Hl]; [done|].
      apply elem_of_app in Hl as [Hl|Hl]; apply list_elem_of_In, in_map_iff in Hl as ([n' i'] & <- & Hl%list_elem_of_In).
      * apply Et in Hl. destruct (Hp _ _ _ Hl) as [_ Hi].
        assert (line_entry (packed_line THREADS_PREFIX (n', i')) = Some (true, n', i')) as E'
          by by apply (line_entry_packed true).
        rewrite E' in E. by injection E as <- <- <-.
      * apply Em in Hl. destruct (Hp _ _ _ Hl) as [_ Hi].
        assert (line_entry (packed_line MARKERS_PREFIX (n', i')) = Some (false, n', i')) as E'
          by by apply (line_entry_packed false).
        rewrite E' in E. by injection E as <- <- <-.
    + intros E. destruct (Hp _ _ _ E) as [_ Hi]. eexists. split; [|by apply (line_entry_packed k)].
      apply elem_of_cons. right. apply elem_of_app. destruct k; [left|right]; apply list_elem_of_In, in_map, list_elem_of_In.
      * by apply Et.
      * by apply Em.
Qed.

Lemma packed_parse_text p ts ms : packed_ok p → ts ≡ₚ map_to_list (threads p) → ms ≡ₚ map_to_list (markers p) →
  packed_parse (packed_to_text_in ts ms) = p.
Proof.
  intros Hp Ht Hm. destruct (packed_entries p ts ms Hp Ht Hm) as [Hl He].
  unfold packed_parse, packed_to_text_in.
  set (ls := PACKED_HEADER :: _) in *. pose proof (sort_by_perm compare_bytes ls) as Hs.
  rewrite text_lines_join.
  2:{ intros E. rewrite E in Hs. by apply Permutation_nil_cons in Hs. }
  2:{ by rewrite Hs. }
  rewrite parse_entries. set (es := omap line_entry _).
  assert (∀ k n i, (k, n, i) ∈ es ↔ table k p !! n = Some i) as Hes.
  { intros k n i. unfold es. rewrite <- He. by rewrite (omap_perm line_entry _ _ Hs). }
  assert (∀ k n, table k (fold_left add_entry es packed_new) !! n = table k p !! n) as Hk.
  { intros k n. destruct (table k p !! n) as [i|] eqn:E.
    - apply table_fold; [|left; exists i; by apply Hes]. intros j Hj%Hes. congruence.
    - rewrite table_fold_none; [by destruct k|]. intros i Hi%Hes. congruence. }
  destruct p as [pt pm]. destruct (fold_left add_entry es packed_new) as [qt qm].
  f_equal; apply map_eq; intros n; [apply (Hk true)|apply (Hk false)].
Qed.

End packed.

(** ** Concrete services

    Hexadecimal in place of base 32, the ASCII case mapping, and the names of
    visible characters. *)
Module TextSamples.

Definition hex_encode (bs : list Z) : list Z :=
  concat (map (λ b, [hex_upper (Z.shiftr b 4); hex_upper (Z.land b 15)]) bs).

Fixpoint hex_decode (s : list Z) : option (list Z) :=
  match s with
  | [] => Some []
  | h :: l :: s => hi ← to_digit16 h; lo ← to_digit16 l; out ← hex_decode s; Some (as_u8 (hi * 16 + lo) :: out)
  | _ => None
  end.

#[export] Instance hex : Base32 := {|
  b32_encode := hex_encode; b32_decode := hex_decode;
  to_uppercase := map ascii_upper; to_lowercase := map ascii_lower |}.

Definition all_visible (s : list Z) : bool := forallb (λ b, (32 <? b) && negb (b =? 127)) s.
#[export] Instance plain_syntax : RefSyntax := {| branch_format := all_visible; refname_format := all_visible |}.

Lemma hex_digits b : is_byte b →
  to_digit16 (hex_upper (Z.shiftr b 4)) = Some (Z.shiftr b 4) ∧ to_digit16 (hex_upper (Z.land b 15)) = Some (Z.land b 15).
Proof. intros Hb. destruct (nibbles b Hb) as (H1 & H2 & _). destruct folds_id as (_ & _ & Hd). split; by apply Hd. Qed.

#[export] Instance hex_laws : Base32Laws.
Proof.
  split.
  - intros bs Hb _. cbn [b32_decode b32_encode hex]. unfold hex_encode.
    induction Hb as [|b bs Hb _ IH]; [done|]. cbn [map concat app hex_decode].
    destruct (hex_digits b Hb) as [-> ->]. cbn [mbind option_bind]. rewrite IH. cbn [mbind option_bind].
    destruct (nibbles b Hb) as (_ & _ & E). rewrite E. unfold as_u8. rewrite Z.mod_small by (unfold is_byte in Hb; lia). done.
  - intros bs Hb. cbn [b32_encode hex]. unfold hex_encode. induction Hb as [|b bs Hb _ IH]; [constructor|].
    cbn [map concat app]. assert (∀ d, 0 ≤ d < 16 → capital (hex_upper d)) as Hd.
    { intros d Hd. unfold capital, hex_upper. destruct (d <? 10) eqn:E; rewrite ?Z.ltb_lt, ?Z.ltb_ge in E; lia. }
    destruct (nibbles b Hb) as (H1 & H2 & _). constructor; [by apply Hd|]. constructor; [by apply Hd|done].
  - intros bs Hl. by destruct bs.
  - done.
  - done.
Qed.

#[export] Instance plain_syntax_laws : RefSyntaxLaws.
Proof.
  split. intros name H. unfold refname_format, plain_syntax, all_visible in H. apply Forall_forall.
  rewrite forallb_forall in H. intros b Hb%list_elem_of_In%H.
  rewrite andb_true_iff, Z.ltb_lt, negb_true_iff, Z.eqb_neq in Hb. lia.
Qed.

Definition sample_id (b : Z) : list Z := replicate 32 b.
Lemma sample_id_ok b : is_byte b → id32 (sample_id b).
Proof. intros Hb. split; [by apply Forall_replicate|done]. Qed.

End TextSamples.

Section theorems.
Context `{Base32Laws} `{RefSyntaxLaws}.

(** Whatever the order in which the hash maps of a packed-refs table are walked,
    the text written for the table is read back as exactly that table. *)
Theorem packed_refs_roundtrip p ts ms : packed_ok p →
  ts ≡ₚ map_to_list (threads p) → ms ≡ₚ map_to_list (markers p) →
  packed_parse (packed_to_text_in ts ms) = p.
Proof. apply packed_parse_text. Qed.

(** The text of a HEAD is read back as that HEAD, with a Unix or Windows line
    ending or none. *)
Theorem head_roundtrip h : head_ok h →
  ∃ s, head_to_text h = s ++ [10] ∧
    head_parse s = Some h ∧ head_parse (s ++ [10]) = Some h ∧ head_parse (s ++ [13; 10]) = Some h.
Proof.
  intros Hh. destruct (head_body h Hh) as (s & Hs & Hp). exists s. split; [done|]. split; [|split].
  - rewrite <- (app_nil_r s). apply Hp. by left.
  - apply Hp. by right; left.
  - apply Hp. by right; right.
Qed.

End theorems.

Import TextSamples.

Definition sample_packed : PackedRefsModel :=
  {| threads := {[ascii_bytes "main" := sample_id 7; ascii_bytes "a b" := sample_id 9]};
     markers := {[ascii_bytes "v1" := sample_id 7]} |}.

Lemma sample_packed_ok : packed_ok sample_packed.
Proof.
  intros k n i Hi. assert (one_line (ascii_bytes "main") ∧ one_line (ascii_bytes "a b") ∧ one_line (ascii_bytes "v1")) as (H1 & H2 & H3).
  { repeat split; repeat (constructor; [by vm_compute|]); constructor. }
  assert (id32 (sample_id 7) ∧ id32 (sample_id 9)) as [I7 I9] by (split; apply sample_id_ok; by split).
  destruct k; cbn [table sample_packed threads markers] in Hi.
  - apply lookup_insert_Some in Hi as [[<- <-]|[_ Hi]]; [done|].
    apply lookup_singleton_Some in Hi as [<- <-]. done.
  - apply lookup_singleton_Some in Hi as [<- <-]. done.
Qed.

Lemma packed_refs_roundtrip_witness : packed_parse (packed_to_text sample_packed) = sample_packed.
Proof. by apply packed_refs_roundtrip; [apply sample_packed_ok|..]. Defined.

Lemma head_roundtrip_witness :
  ∃ s, head_to_text (Attached (ascii_bytes "main")) = s ++ [10] ∧
    head_parse s = Some (Attached (ascii_bytes "main")) ∧
    head_parse (s ++ [10]) = Some (Attached (ascii_bytes "main")) ∧
    head_parse (s ++ [13; 10]) = Some (Attached (ascii_bytes "main")).
Proof.
  apply head_roundtrip. split; [split; [repeat (constructor; [by split|]); constructor|by vm_compute]|].
  split; [eexists; by vm_compute|by vm_compute].
Defined.
