(* ===== verification/RefDisk.v ===== *)
(** * The files of the ref store

    The file system as [RefManager] sees it ([crates/refs/src/refs/refs_storage.rs],
    [refs_head.rs] and the raw loads of [refs_manager.rs]): files under paths,
    staged temporaries, the directories of remote threads, and a schedule that decides
    which operation fails, and whether it fails before or after its effect. A
    path stands for the name that it encodes ([RefNames.name_path_faithful]);
    the identity files of names beyond the path budget are left out. *)

From S2P Require Import Prelude Text RefNames RefText.
Import Text RefNames RefText.

Module RefDisk.

Inductive rpath :=
| PHead (checkout : Z)
| PUndo (checkout : Z)
| PPacked
| PSummary
| PThread (name : list Z)
| PMarker (name : list Z)
| PRemote (remote thread : list Z)
| PWatermarkLocal (checkout : Z)
| PWatermarkShared
| PWitnessLocal (checkout : Z)
| PWitnessShared.

(** [HeddleError], of which only the kind is kept. *)
Inductive RefError := Io | InvalidRefName | InvalidObject | Conflict | Config.

(** One operation of the file system: it succeeds, it fails without effect, or it
    fails after its effect (a directory sync that follows a rename). *)
Inductive fault := Fine | Before | After.

#[global] Instance fault_eq_dec : EqDecision fault.
Proof. solve_decision. Defined.
#[global] Instance rpath_eq_dec : EqDecision rpath.
Proof. solve_decision. Defined.

Definition rpath_code (p : rpath) : Z * Z * list Z * list Z :=
  match p with
  | PHead c => (0, c, [], []) | PUndo c => (1, c, [], []) | PPacked => (2, 0, [], []) | PSummary => (3, 0, [], [])
  | PThread n => (4, 0, n, []) | PMarker n => (5, 0, n, []) | PRemote r n => (6, 0, r, n)
  | PWatermarkLocal c => (7, c, [], []) | PWatermarkShared => (8, 0, [], [])
  | PWitnessLocal c => (9, c, [], []) | PWitnessShared => (10, 0, [], [])
  end.
Definition rpath_decode (x : Z * Z * list Z * list Z) : rpath :=
  let '(k, c, n, m) := x in
  match k with
  | 0 => PHead c | 1 => PUndo c | 2 => PPacked | 3 => PSummary | 4 => PThread n | 5 => PMarker n
  | 6 => PRemote n m | 7 => PWatermarkLocal c | 8 => PWatermarkShared | 9 => PWitnessLocal c | _ => PWitnessShared
  end.
#[global] Program Instance rpath_countable : Countable rpath := inj_countable' rpath_code rpath_decode _.
Next Obligation. by intros []. Qed.

Record Disk := {
  files : gmap rpath (list Z);
  temps : gmap N (rpath * list Z);
  next_temp : N;
  remote_entries : gset (list Z * list Z);
  schedule : list fault;
}.

Definition set_files (f : gmap rpath (list Z) → gmap rpath (list Z)) (d : Disk) : Disk :=
  {| files := f (files d); temps := temps d; next_temp := next_temp d; remote_entries := remote_entries d;
     schedule := schedule d |}.
Definition set_temps (f : gmap N (rpath * list Z) → gmap N (rpath * list Z)) (d : Disk) : Disk :=
  {| files := files d; temps := f (temps d); next_temp := next_temp d; remote_entries := remote_entries d;
     schedule := schedule d |}.
Definition set_schedule (s : list fault) (d : Disk) : Disk :=
  {| files := files d; temps := temps d; next_temp := next_temp d; remote_entries := remote_entries d; schedule := s |}.

(** ** Operations that may fail *)

Definition io (A : Type) : Type := Disk → exec RefError A * Disk.

#[global] Instance io_ret : MRet io := λ A a d, (Ok a, d).
#[global] Instance io_bind : MBind io := λ A B f m d,
  match m d with
  | (Ok a, d) => f a d
  | (Err e, d) => (Err e, d)
  | (Panic, d) => (Panic, d)
  | (Fuel, d) => (Fuel, d)
  end.

Definition io_fail {A} (e : RefError) : io A := λ d, (Err e, d).
Definition io_panic {A} : io A := λ d, (Panic, d).
Definition io_ok {A} (o : option A) (e : RefError) : io A := match o with Some a => mret a | None => io_fail e end.
Definition io_get : io Disk := λ d, (Ok d, d).

(** An operation with the effect [f] that can fail before or after it. *)
Definition effect (f : Disk → Disk) : io unit := λ d,
  match schedule d with
  | [] => (Ok tt, f d)
  | Fine :: s => (Ok tt, f (set_schedule s d))
  | Before :: s => (Err Io, set_schedule s d)
  | After :: s => (Err Io, f (set_schedule s d))
  end.

(** An operation that is atomic: when it fails it has no effect. *)
Definition atomic_effect (f : Disk → Disk) : io unit := λ d,
  match schedule d with
  | [] => (Ok tt, f d)
  | Fine :: s => (Ok tt, f (set_schedule s d))
  | _ :: s => (Err Io, set_schedule s d)
  end.

(** An operation without effect on what is modelled (a directory, an identity
    file, a sync), which can fail. *)
Definition io_point : io unit := atomic_effect (λ d, d).

(** [let _ = m;]: the error is dropped. *)
Definition io_ignore {A} (m : io A) : io unit := λ d,
  match m d with (Panic, d) => (Panic, d) | (Fuel, d) => (Fuel, d) | (_, d) => (Ok tt, d) end.

(** [match m { Ok(a) => k(Ok(a)), Err(e) => k(Err(e)) }] *)
Definition io_try {A} (m : io A) : io (A + RefError) := λ d,
  match m d with
  | (Ok a, d) => (Ok (inl a), d)
  | (Err e, d) => (Ok (inr e), d)
  | (Panic, d) => (Panic, d)
  | (Fuel, d) => (Fuel, d)
  end.

(** [for x in xs { body(x)?; }] *)
Fixpoint io_each {X} (body : X → io unit) (xs : list X) : io unit :=
  match xs with
  | [] => mret tt
  | x :: xs => body x ;; io_each body xs
  end.

(** [xs.into_iter().map(body).collect::<Result<Vec<_>>>()] *)
Fixpoint io_map {X Y} (body : X → io Y) (xs : list X) : io (list Y) :=
  match xs with
  | [] => mret []
  | x :: xs => y ← body x; ys ← io_map body xs; mret (y :: ys)
  end.

(** ** Files *)

Definition exists_file (p : rpath) : io bool := λ d, (Ok (bool_decide (is_Some (files d !! p))), d).

Definition read_optional_string (p : rpath) : io (option (list Z)) := λ d,
  match files d !! p with
  | None => (Ok None, d)
  | Some contents => if is_utf8 contents then (Ok (Some contents), d) else (Err Io, d)
  end.

Definition put_file (p : rpath) (contents : list Z) : Disk → Disk := set_files (insert p contents).
Definition drop_file (p : rpath) : Disk → Disk := set_files (delete p).

(** [write_file_atomic]: a temporary, its sync, the rename, the directory's sync *)
Definition write_string (p : rpath) (contents : list Z) : io unit := effect (put_file p contents).
(** [std::fs::remove_file] *)
Definition remove_file (p : rpath) : io unit := atomic_effect (drop_file p).
(** [create_dir_all_durable] of the directory of [p]; the directory of a remote thread is seen by the listings. *)
Definition make_dir (p : rpath) : io unit :=
  match p with
  | PRemote remote thread => effect (λ d,
      {| files := files d; temps := temps d; next_temp := next_temp d; remote_entries := {[(remote, thread)]} ∪ remote_entries d;
         schedule := schedule d |})
  | _ => io_point
  end.
Definition sync_directory : io unit := io_point.
(** [write_name_entry] *)
Definition write_name_entry (name : list Z) : io unit := io_point.

(** [rand::random] for a temporary's suffix: a number not used before *)
Definition fresh_temp : io N := λ d,
  (Ok (next_temp d),
   {| files := files d; temps := temps d; next_temp := N.succ (next_temp d); remote_entries := remote_entries d;
      schedule := schedule d |}).

(** [alloc_temp_path]: a fresh name beside [p] *)
Definition alloc_temp_path (p : rpath) : io N := make_dir p ;; fresh_temp.

Definition stage_one (t : N * rpath * list Z) : io unit :=
  let '(n, p, bytes) := t in effect (set_temps (insert n (p, bytes))).

(** [std::fs::rename(temp, path)] *)
Definition rename (n : N) (p : rpath) : io unit := λ d,
  match temps d !! n with
  | None => (Err Io, d)
  | Some (_, bytes) => atomic_effect (λ d, set_files (insert p bytes) (set_temps (delete n) d)) d
  end.

(** ** Paths and raw reads *)

Section raw.
Context `{Base32} `{RefSyntax}.

Definition require_user_ref_name (name : list Z) : io unit :=
  if validate_ref_name name then mret tt else io_fail InvalidRefName.

Definition thread_path (name : list Z) : io rpath :=
  require_user_ref_name name ;;
  io_ok (from_git_branch (git_name name)) InvalidRefName ;;
  mret (PThread name).

Definition marker_path (name : list Z) : io rpath :=
  require_user_ref_name name ;;
  io_ok (from_git_tag (git_name name)) InvalidRefName ;;
  mret (PMarker name).

Definition remote_dir (remote : list Z) : io unit := require_user_ref_name remote.

Definition remote_thread_path (remote thread : list Z) : io rpath :=
  require_user_ref_name thread ;;
  io_ok (from_git_branch (git_name thread)) InvalidRefName ;;
  remote_dir remote ;;
  mret (PRemote remote thread).

Definition read_state_id_at (p : rpath) : io (option (list Z)) :=
  contents ← read_optional_string p;
  match contents with
  | None => mret None
  | Some contents => id ← io_ok (parse_state_id_text contents) InvalidObject; mret (Some id)
  end.

(** [PackedRefs::load] behind its process-local cache *)
Definition load_packed_refs : io PackedRefsModel :=
  contents ← read_optional_string PPacked;
  mret (match contents with None => packed_new | Some contents => packed_parse contents end).

(** [PackedRefs::save] *)
Definition save_packed_refs (packed : PackedRefsModel) : io unit :=
  io_point ;; write_string PPacked (packed_to_text packed).

Definition raw_get_thread (name : list Z) : io (option (list Z)) :=
  path ← thread_path name;
  id ← read_state_id_at path;
  match id with
  | Some id => mret (Some id)
  | None => packed ← load_packed_refs; mret (get_thread packed name)
  end.

Definition raw_get_marker (name : list Z) : io (option (list Z)) :=
  path ← marker_path name;
  id ← read_state_id_at path;
  match id with
  | Some id => mret (Some id)
  | None => packed ← load_packed_refs; mret (get_marker packed name)
  end.

Definition raw_get_remote_thread (remote thread : list Z) : io (option (list Z)) :=
  path ← remote_thread_path remote thread;
  read_state_id_at path.

Record HeadState := { hs_head : Head; hs_exists : bool; hs_raw : option (list Z) }.

Definition MAIN : list Z := ascii_bytes "main".

Definition read_head_state (checkout : Z) : io HeadState :=
  contents ← read_optional_string (PHead checkout);
  match contents with
  | None => mret {| hs_head := Attached MAIN; hs_exists := false; hs_raw := None |}
  | Some contents =>
      head ← io_ok (head_parse contents) InvalidObject;
      mret {| hs_head := head; hs_exists := true; hs_raw := Some contents |}
  end.

End raw.
End RefDisk.

Import RefDisk.

(** ** Reasoning about [io] *)

(** [m], run on [d], ends in a value and a disk that satisfy [Q] or in an error and
    a disk that satisfy [R]; it does not panic. *)
Definition wp {A} (m : io A) (Q : A → Disk → Prop) (R : RefError → Disk → Prop) (d : Disk) : Prop :=
  match m d with
  | (Ok a, d') => Q a d'
  | (Err e, d') => R e d'
  | _ => False
  end.

Lemma wp_mono {A} (m : io A) (Q Q' : A → Disk → Prop) (R R' : RefError → Disk → Prop) d :
  wp m Q R d → (∀ a d', Q a d' → Q' a d') → (∀ e d', R e d' → R' e d') → wp m Q' R' d.
Proof. unfold wp. destruct (m d) as [[] ?]; naive_solver. Qed.

Lemma wp_ret {A} (a : A) Q R d : Q a d → wp (mret a) Q R d.
Proof. done. Qed.

Lemma wp_fail {A} e Q R d : R e d → wp (io_fail (A:=A) e) Q R d.
Proof. done. Qed.

Lemma wp_bind {A B} (m : io A) (f : A → io B) Q R d :
  wp m (λ a d', wp (f a) Q R d') R d → wp (m ≫= f) Q R d.
Proof. unfold wp, mbind, io_bind. by destruct (m d) as [[] ?]. Qed.

Lemma wp_ok {A} (o : option A) e Q R d :
  (∀ a, o = Some a → Q a d) → (o = None → R e d) → wp (io_ok o e) Q R d.
Proof. unfold io_ok. destruct o; intros H1 H2; [by apply wp_ret, H1|by apply wp_fail, H2]. Qed.

Lemma wp_get (Q : Disk → Disk → Prop) R d : Q d d → wp io_get Q R d.
Proof. done. Qed.

(** What remains of the schedule is of no interest to a specification that holds
    for every schedule. *)
Definition same_state (d d' : Disk) : Prop :=
  files d' = files d ∧ temps d' = temps d ∧ next_temp d' = next_temp d ∧ remote_entries d' = remote_entries d.

Lemma wp_effect f Q R d :
  (∀ s, Q tt (f (set_schedule s d))) → (∀ s, R Io (set_schedule s d)) → (∀ s, R Io (f (set_schedule s d))) →
  wp (effect f) Q R d.
Proof.
  intros H1 H2 H3. unfold wp, effect. pose proof (H1 []) as H0.
  destruct d as [fs ts n rs [|[] s]]; [exact H0|exact (H1 s)|exact (H2 s)|exact (H3 s)].
Qed.

Lemma wp_atomic f Q R d :
  (∀ s, Q tt (f (set_schedule s d))) → (∀ s, R Io (set_schedule s d)) → wp (atomic_effect f) Q R d.
Proof.
  intros H1 H2. unfold wp, atomic_effect. pose proof (H1 []) as H0.
  destruct d as [fs ts n rs [|[] s]]; [exact H0|exact (H1 s)|exact (H2 s)|exact (H2 s)].
Qed.

Lemma wp_try {A} (m : io A) (Q : A + RefError → Disk → Prop) R d :
  wp m (λ a d', Q (inl a) d') (λ e d', Q (inr e) d') d → wp (io_try m) Q R d.
Proof. unfold wp, io_try. by destruct (m d) as [[] ?]. Qed.

Lemma wp_ignore {A} (m : io A) (Q : unit → Disk → Prop) R d :
  wp m (λ _ d', Q tt d') (λ _ d', Q tt d') d → wp (io_ignore m) Q R d.
Proof. unfold wp, io_ignore. by destruct (m d) as [[] ?]. Qed.

Lemma wp_read p (Q : option (list Z) → Disk → Prop) (R : RefError → Disk → Prop) d :
  (∀ o, files d !! p = o → (∀ c, o = Some c → is_utf8 c = true) → Q o d) →
  (∀ c, files d !! p = Some c → is_utf8 c = false → R Io d) → wp (read_optional_string p) Q R d.
Proof.
  intros H1 H2. unfold wp, read_optional_string. destruct (files d !! p) as [c|] eqn:E; [|by apply H1].
  destruct (is_utf8 c) eqn:U; [|by eapply H2]. apply H1; [done|]. by intros ? [= <-].
Qed.

Lemma wp_rename n p (Q : unit → Disk → Prop) (R : RefError → Disk → Prop) d q bytes :
  temps d !! n = Some (q, bytes) →
  (∀ s, Q tt (set_files (insert p bytes) (set_temps (delete n) (set_schedule s d)))) →
  (∀ s, R Io (set_schedule s d)) → wp (rename n p) Q R d.
Proof.
  intros E H1 H2. unfold wp, rename. rewrite E. by apply wp_atomic.
Qed.
