(* ===== verification/BTree.v ===== *)
(** * Sorted vectors and ordered maps

    Vectors kept strictly sorted by a text key, as [BTreeMap] iterates and as the
    code maintains with [binary_search_by] and [Vec::insert]; the list of rows of a
    finite map in key order. *)

From S2P Require Import Prelude.

Module BTree.
Section keyed.
Context {E : Type} (key : E → list Z).

(** [v.binary_search_by(|e| e.key.cmp(k))] on a sorted vector: whether the key is
    there, and its index or the index to insert at. *)
Fixpoint vec_search (k : list Z) (v : list E) : bool * nat :=
  match v with
  | [] => (false, 0%nat)
  | e :: v =>
      match compare_bytes (key e) k with
      | Lt => let '(b, i) := vec_search k v in (b, S i)
      | Eq => (true, 0%nat)
      | Gt => (false, 0%nat)
      end
  end.

(** [match v.binary_search_by(..) { Ok(i) => v[i] = f(Some(v[i])), Err(i) => v.insert(i, f(None)) }] *)
Definition upsert (k : list Z) (f : option E → E) (v : list E) : list E :=
  let '(found, i) := vec_search k v in
  if found then alter (λ e, f (Some e)) i v else take i v ++ f None :: drop i v.

Definition strictly (v : list E) : Prop := StronglySorted (λ x y, compare_bytes (key x) (key y) = Lt) v.

(** [v.iter().find(|e| e.key == k)] *)
Definition find_key (k : list Z) (v : list E) : option E :=
  snd <$> list_find (λ e, key e = k) v.
End keyed.

(** The entries of a [BTreeMap], in order *)
Definition rows {V} (m : gmap (list Z) V) : list (list Z * V) :=
  sort_by (λ x y, compare_bytes x.1 y.1) (map_to_list m).
End BTree.

Import BTree.

Section facts.
Context {E : Type} (key : E → list Z).

Lemma strictly_nodup (v : list E) : strictly key v → NoDup v.
Proof.
  induction 1 as [|x v _ IH Hx]; constructor; [|done].
  intros Hin. rewrite Forall_forall in Hx. apply Hx in Hin.
  assert (compare_bytes (key x) (key x) = Eq) by (by apply compare_bytes_eq). congruence.
Qed.

(** A strictly sorted vector is determined by its elements. *)
Lemma strictly_ext (v w : list E) : strictly key v → strictly key w → (∀ e, e ∈ v ↔ e ∈ w) → v = w.
Proof.
  intros Hv Hw He. apply (sorted_unique (λ x y, compare_bytes (key x) (key y))).
  - intros x y. apply compare_bytes_antisym.
  - eapply StronglySorted_weaken; [|exact Hv]. cbn. congruence.
  - done.
  - apply NoDup_Permutation; [by apply strictly_nodup..|done].
Qed.

Lemma strictly_key (v : list E) x y : strictly key v → x ∈ v → y ∈ v → key x = key y → x = y.
Proof.
  induction 1 as [|z v _ IH Hz]; intros Hx Hy E'; [by apply elem_of_nil in Hx|].
  rewrite Forall_forall in Hz. assert (∀ a, a ∈ v → key z ≠ key a) as Hne.
  { intros a Ha Ea. apply Hz in Ha. rewrite Ea in Ha.
    assert (compare_bytes (key a) (key a) = Eq) by (by apply compare_bytes_eq). congruence. }
  apply elem_of_cons in Hx as [->|Hx], Hy as [->|Hy]; [done| | |by apply IH].
  - by apply Hne in Hy.
  - by apply Hne in Hx.
Qed.

Lemma find_key_spec (v : list E) k e : strictly key v → find_key key k v = Some e ↔ e ∈ v ∧ key e = k.
Proof.
  intros Hv. unfold find_key. split.
  - intros ([i x] & H & ->)%fmap_Some. apply list_find_Some in H as (Hl & Hk & _).
    split; [by eapply list_elem_of_lookup_2|done].
  - intros [Hin Hk]. destruct (list_find (λ e, key e = k) v) as [[i x]|] eqn:F.
    + apply list_find_Some in F as (Hl & Hx & _). cbn. f_equal.
      apply (strictly_key v); [done|by eapply list_elem_of_lookup_2|done|congruence].
    + exfalso. apply list_find_None in F. rewrite Forall_forall in F. by apply (F e).
Qed.

Lemma upsert_cons k f e (v : list E) :
  upsert key k f (e :: v) =
  match compare_bytes (key e) k with
  | Lt => e :: upsert key k f v
  | Eq => f (Some e) :: v
  | Gt => f None :: e :: v
  end.
Proof.
  unfold upsert. cbn [vec_search]. destruct (compare_bytes (key e) k); [done| |done].
  by destruct (vec_search key k v) as [[] i].
Qed.

Lemma upsert_sorted k f (v : list E) : (∀ o, key (f o) = k) → strictly key v → strictly key (upsert key k f v).
Proof.
  intros Hf. induction 1 as [|e v Hs IH He].
  - unfold upsert. cbn. repeat constructor.
  - rewrite upsert_cons. destruct (compare_bytes (key e) k) eqn:C.
    + apply compare_bytes_eq in C. constructor; [done|]. by rewrite Hf, <- C.
    + constructor; [done|]. clear IH Hs. induction v as [|x v IHv].
      * unfold upsert. cbn. constructor; [by rewrite Hf|constructor].
      * apply Forall_cons in He as [Hx He]. rewrite upsert_cons.
        destruct (compare_bytes (key x) k) eqn:Cx; constructor; [by rewrite Hf|done|done|by apply IHv|by rewrite Hf|by constructor].
    + assert (compare_bytes k (key e) = Lt) as C' by (by rewrite compare_bytes_antisym, C).
      constructor; [by constructor|]. rewrite Hf. constructor; [done|].
      eapply Forall_impl; [exact He|]. cbn. intros x Hx. by apply (compare_bytes_trans Lt k (key e)).
Qed.

Lemma upsert_elem k f (v : list E) e : (∀ o, key (f o) = k) → strictly key v →
  e ∈ upsert key k f v ↔ e = f (find_key key k v) ∨ (e ∈ v ∧ key e ≠ k).
Proof.
  intros Hf Hv.
  assert (∀ o, e = f o → key e = k) as Hfe by (intros o ->; apply Hf).
  induction Hv as [|x v Hv IH Hx].
  - unfold upsert, find_key. cbn. rewrite list_elem_of_singleton, elem_of_nil. intuition.
  - rewrite upsert_cons. destruct (compare_bytes (key x) k) eqn:C.
    + apply compare_bytes_eq in C.
      assert (find_key key k (x :: v) = Some x) as ->.
      { apply find_key_spec; [by constructor|]. split; [by left|done]. }
      rewrite !elem_of_cons. split; [intros [->|Hin]|intros [->|[[->|Hin] Hk]]]; auto.
      * right. split; [by right|]. rewrite Forall_forall in Hx. intros Ek. apply Hx in Hin.
        rewrite Ek, C in Hin. assert (compare_bytes k k = Eq) by (by apply compare_bytes_eq). congruence.
      * done.
    + assert (key x ≠ k) as Hxk.
      { intros Ek. rewrite Ek in C. assert (compare_bytes k k = Eq) by (by apply compare_bytes_eq). congruence. }
      assert (find_key key k (x :: v) = find_key key k v) as ->.
      { unfold find_key. cbn. destruct (decide (key x = k)); [done|].
        destruct (list_find (λ e, key e = k) v) as [[]|]; done. }
      rewrite !elem_of_cons, IH. split; [intros [->|[H|[H H']]]|intros [H|[[->|H] H']]]; auto.
    + assert (∀ a, a ∈ x :: v → key a ≠ k) as Hne.
      { intros a Ha Ea. apply elem_of_cons in Ha as [->|Ha].
        - rewrite Ea in C. assert (compare_bytes k k = Eq) by (by apply compare_bytes_eq). congruence.
        - rewrite Forall_forall in Hx. apply Hx in Ha. rewrite Ea in Ha. congruence. }
      assert (find_key key k (x :: v) = None) as ->.
      { destruct (find_key key k (x :: v)) as [a|] eqn:F; [|done].
        apply find_key_spec in F as [Hin Ek]; [by apply Hne in Hin|by constructor]. }
      rewrite (elem_of_cons (x :: v)). split; [intros [H|H]; [by left|right; by split; [|apply Hne]]|intros [H|[H _]]; auto].
Qed.

Lemma filter_sorted (P : E → Prop) `{∀ e, Decision (P e)} (v : list E) : strictly key v → strictly key (filter P v).
Proof.
  induction 1 as [|x v Hv IH Hx]; [constructor|]. cbn. destruct (decide (P x)); [|done].
  constructor; [done|]. apply Forall_forall. intros y [_ Hy]%list_elem_of_filter. rewrite Forall_forall in Hx. by apply Hx.
Qed.
End facts.

Section rows.
Context {V : Type}.

Lemma rows_elem (m : gmap (list Z) V) k v : (k, v) ∈ rows m ↔ m !! k = Some v.
Proof. unfold rows. rewrite sort_by_perm. apply elem_of_map_to_list. Qed.

Lemma strict_of_sorted {E} (key : E → list Z) v :
  StronglySorted (λ x y, compare_bytes (key x) (key y) ≠ Gt) v → NoDup (key <$> v) → strictly key v.
Proof.
  induction 1 as [|x v Hv IH Hx]; [constructor|]. cbn. intros [Hn Hd]%NoDup_cons. constructor; [by apply IH|].
  rewrite Forall_forall in Hx |- *. intros y Hy. specialize (Hx y Hy).
  destruct (compare_bytes (key x) (key y)) eqn:C; [|done|done]. apply compare_bytes_eq in C. exfalso. apply Hn.
  rewrite C. by apply list_elem_of_fmap_2.
Qed.

Lemma map_rows_sorted (m : gmap (list Z) V) : strictly fst (rows m).
Proof.
  apply strict_of_sorted.
  - apply sort_by_sorted; [intros; apply compare_bytes_antisym|intros x y z; apply compare_bytes_le_trans].
  - unfold rows. rewrite sort_by_perm. apply NoDup_fst_map_to_list.
Qed.
End rows.
