(* ===== verification/RefSummary.v ===== *)
(** * The summary index of refs

    [crates/refs/src/refs/ref_summary_index.rs]: the sidecar file that lists every
    thread, marker and remote thread, its text format, its incremental update
    by the deltas of a publish, its rebuild from storage and the listings that
    read it. *)

From S2P Require Import Prelude Text RefNames RefText RefDisk BTree.
Import Text RefNames RefText RefDisk BTree.

Module RefSummary.

Inductive RefSummarySource := Loose | Packed | LooseAndPacked.

Record RefSummaryEntry := { se_name : list Z; se_state : list Z; se_source : RefSummarySource }.

Inductive SummaryDelta :=
| SetThread (name state_id : list Z)
| SetMarker (name state_id : list Z)
| DeleteThread (name : list Z)
| DeleteMarker (name : list Z)
| SetRemoteThread (remote name state_id : list Z)
| DeleteRemoteThread (remote name : list Z).

Record RemoteThreadSummaryEntry := { rt_name : list Z; rt_state : list Z }.
Record RemoteSummaryEntry := { rs_name : list Z; rs_threads : list RemoteThreadSummaryEntry }.

Record RefSummaryIndex := {
  ix_threads : list RefSummaryEntry;
  ix_markers : list RefSummaryEntry;
  ix_remotes : list RemoteSummaryEntry;
}.

Definition REF_SUMMARY_VERSION : list Z := ascii_bytes "heddle-ref-summary-v2".

Definition source_as_str (s : RefSummarySource) : list Z :=
  match s with
  | Loose => ascii_bytes "loose" | Packed => ascii_bytes "packed" | LooseAndPacked => ascii_bytes "loose+packed"
  end.
Definition source_parse (value : list Z) : option RefSummarySource :=
  if bool_decide (value = ascii_bytes "loose") then Some Loose
  else if bool_decide (value = ascii_bytes "packed") then Some Packed
  else if bool_decide (value = ascii_bytes "loose+packed") then Some LooseAndPacked
  else None.

Definition T_THREAD : list Z := ascii_bytes "thread".
Definition T_MARKER : list Z := ascii_bytes "marker".
Definition T_REMOTE : list Z := ascii_bytes "remote".
Definition T_REMOTE_THREAD : list Z := ascii_bytes "remote_thread".

Section summary.
Context `{Base32} `{RefSyntax}.

(** ** The text format *)

(** The tables that [parse] fills; the remotes, seen or with threads, are one ordered map. *)
Record Tables := {
  tb_threads : list RefSummaryEntry;
  tb_markers : list RefSummaryEntry;
  tb_remotes : gmap (list Z) (list RemoteThreadSummaryEntry);
}.

Definition parse_entry (name state_id source : list Z) : option RefSummaryEntry :=
  id ← parse_state_id_text state_id;
  source ← source_parse source;
  Some {| se_name := name; se_state := id; se_source := source |}.

(** One line of [RefSummaryIndex::parse] *)
Definition parse_summary_line (t : Tables) (line : list Z) : option Tables :=
  if bool_decide (line = []) then Some t
  else
    match split 9 line with
    | [kind; remote] =>
        if bool_decide (kind = T_REMOTE) then
          Some {| tb_threads := tb_threads t; tb_markers := tb_markers t;
                  tb_remotes := <[remote := default [] (tb_remotes t !! remote)]> (tb_remotes t) |}
        else None
    | [kind; a; b; c] =>
        if bool_decide (kind = T_THREAD) then
          e ← parse_entry a b c;
          Some {| tb_threads := tb_threads t ++ [e]; tb_markers := tb_markers t; tb_remotes := tb_remotes t |}
        else if bool_decide (kind = T_MARKER) then
          e ← parse_entry a b c;
          Some {| tb_threads := tb_threads t; tb_markers := tb_markers t ++ [e]; tb_remotes := tb_remotes t |}
        else if bool_decide (kind = T_REMOTE_THREAD) then
          id ← parse_state_id_text c;
          Some {| tb_threads := tb_threads t; tb_markers := tb_markers t;
                  tb_remotes := <[a := default [] (tb_remotes t !! a) ++ [{| rt_name := b; rt_state := id |}]]>
                    (tb_remotes t) |}
        else None
    | _ => None
    end.

Fixpoint parse_summary_lines (t : Tables) (lines : list (list Z)) : option Tables :=
  match lines with
  | [] => Some t
  | line :: lines => t ← parse_summary_line t line; parse_summary_lines t lines
  end.

Definition summary_parse (contents : list Z) : option RefSummaryIndex :=
  match text_lines contents with
  | [] => None
  | header :: lines =>
      if bool_decide (header = REF_SUMMARY_VERSION) then
        t ← parse_summary_lines {| tb_threads := []; tb_markers := []; tb_remotes := ∅ |} lines;
        Some {| ix_threads := tb_threads t; ix_markers := tb_markers t;
                ix_remotes := map (λ '(n, ts), {| rs_name := n; rs_threads := ts |}) (rows (tb_remotes t)) |}
      else None
  end.

Definition tabbed (fields : list (list Z)) : list Z := join [9] fields ++ [10].

Definition entry_text (kind : list Z) (e : RefSummaryEntry) : list Z :=
  tabbed [kind; se_name e; to_string_full (se_state e); source_as_str (se_source e)].
Definition remote_text (r : RemoteSummaryEntry) : list Z :=
  tabbed [T_REMOTE; rs_name r]
  ++ concat (map (λ t, tabbed [T_REMOTE_THREAD; rs_name r; rt_name t; to_string_full (rt_state t)]) (rs_threads r)).

Definition summary_to_text (ix : RefSummaryIndex) : list Z :=
  REF_SUMMARY_VERSION ++ [10]
  ++ concat (map (entry_text T_THREAD) (ix_threads ix))
  ++ concat (map (entry_text T_MARKER) (ix_markers ix))
  ++ concat (map remote_text (ix_remotes ix)).

(** ** Incremental update *)

Definition upsert_entry (name state_id : list Z) (source : RefSummarySource) (entries : list RefSummaryEntry)
    : list RefSummaryEntry :=
  upsert se_name name (λ _, {| se_name := name; se_state := state_id; se_source := source |}) entries.

Definition upsert_remote_thread (name state_id : list Z) (threads : list RemoteThreadSummaryEntry)
    : list RemoteThreadSummaryEntry :=
  upsert rt_name name (λ _, {| rt_name := name; rt_state := state_id |}) threads.

Definition loose_source (packed : option (list Z)) : RefSummarySource :=
  match packed with Some _ => LooseAndPacked | None => Loose end.

Definition apply_delta (packed : PackedRefsModel) (ix : RefSummaryIndex) (delta : SummaryDelta) : RefSummaryIndex :=
  match delta with
  | SetThread name id =>
      {| ix_threads := upsert_entry name id (loose_source (get_thread packed name)) (ix_threads ix);
         ix_markers := ix_markers ix; ix_remotes := ix_remotes ix |}
  | SetMarker name id =>
      {| ix_threads := ix_threads ix;
         ix_markers := upsert_entry name id (loose_source (get_marker packed name)) (ix_markers ix);
         ix_remotes := ix_remotes ix |}
  | DeleteThread name =>
      {| ix_threads := filter (λ e, se_name e ≠ name) (ix_threads ix);
         ix_markers := ix_markers ix; ix_remotes := ix_remotes ix |}
  | DeleteMarker name =>
      {| ix_threads := ix_threads ix;
         ix_markers := filter (λ e, se_name e ≠ name) (ix_markers ix); ix_remotes := ix_remotes ix |}
  | SetRemoteThread remote name id =>
      {| ix_threads := ix_threads ix; ix_markers := ix_markers ix;
         ix_remotes := upsert rs_name remote (λ o,
           {| rs_name := remote;
              rs_threads := upsert_remote_thread name id (match o with Some r => rs_threads r | None => [] end) |})
           (ix_remotes ix) |}
  | DeleteRemoteThread remote name =>
      {| ix_threads := ix_threads ix; ix_markers := ix_markers ix;
         ix_remotes :=
           (let '(found, i) := vec_search rs_name remote (ix_remotes ix) in
            if found then
              alter (λ r, {| rs_name := rs_name r; rs_threads := filter (λ e, rt_name e ≠ name) (rs_threads r) |})
                i (ix_remotes ix)
            else ix_remotes ix) |}
  end.

(** ** Storage scans *)

Definition sort_names : list (list Z) → list (list Z) := sort_by compare_bytes.

(** [list_refs_recursive] of the threads and markers directories; a directory without a
    value is skipped by every reader. *)
Definition loose_thread_names (d : Disk) : list (list Z) :=
  sort_names (omap (λ '(p, _), match p with PThread n => Some n | _ => None end) (map_to_list (files d))).
Definition loose_marker_names (d : Disk) : list (list Z) :=
  sort_names (omap (λ '(p, _), match p with PMarker n => Some n | _ => None end) (map_to_list (files d))).

(** [list_remotes_from_storage], [list_remote_threads_from_storage]: the directories *)
Definition list_remotes_from_storage : io (list (list Z)) :=
  d ← io_get; mret (sort_names (elements (set_map (D:=gset (list Z)) fst (remote_entries d)))).
Definition list_remote_threads_from_storage (remote : list Z) : io (list (list Z)) :=
  remote_dir remote ;;
  d ← io_get;
  mret (sort_names (omap (λ '(r, n), if bool_decide (r = remote) then Some n else None) (elements (remote_entries d)))).

(** The scans fold a read over the names listed. *)
Fixpoint scan (read : list Z → io (option (list Z))) (names : list (list Z)) : io (gmap (list Z) (list Z)) :=
  match names with
  | [] => mret ∅
  | n :: names => o ← read n; m ← scan read names; mret (match o with Some id => <[n := id]> m | None => m end)
  end.

Definition scan_loose_threads : io (gmap (list Z) (list Z)) :=
  d ← io_get; scan (λ n, p ← thread_path n; read_state_id_at p) (loose_thread_names d).
Definition scan_loose_markers : io (gmap (list Z) (list Z)) :=
  d ← io_get; scan (λ n, p ← marker_path n; read_state_id_at p) (loose_marker_names d).
Definition scan_remote_threads (remote : list Z) : io (gmap (list Z) (list Z)) :=
  names ← list_remote_threads_from_storage remote;
  scan (λ n, p ← remote_thread_path remote n; read_state_id_at p) names.

(** Loose entries first, then the packed names that no loose ref shadows, sorted. *)
Definition merged_entries (loose packed : gmap (list Z) (list Z)) : list RefSummaryEntry :=
  sort_by (λ x y, compare_bytes (se_name x) (se_name y))
    (map (λ '(n, id), {| se_name := n; se_state := id; se_source := loose_source (packed !! n) |}) (rows loose)
     ++ omap (λ '(n, id), match loose !! n with
                          | None => Some {| se_name := n; se_state := id; se_source := Packed |}
                          | Some _ => None
                          end) (map_to_list packed)).

Definition remote_rows (threads : gmap (list Z) (list Z)) : list RemoteThreadSummaryEntry :=
  map (λ '(n, id), {| rt_name := n; rt_state := id |}) (rows threads).

Definition build_ref_summary_index_from_storage : io RefSummaryIndex :=
  loose_threads ← scan_loose_threads;
  loose_markers ← scan_loose_markers;
  packed ← load_packed_refs;
  remotes ← list_remotes_from_storage;
  remotes ← io_map (λ name, m ← scan_remote_threads name; mret {| rs_name := name; rs_threads := remote_rows m |})
    remotes;
  mret {| ix_threads := merged_entries loose_threads (threads packed);
          ix_markers := merged_entries loose_markers (markers packed);
          ix_remotes := remotes |}.

(** ** The sidecar file *)

Definition rebuild_ref_summary_index_with_lock : io RefSummaryIndex :=
  summary ← build_ref_summary_index_from_storage;
  write_string PSummary (summary_to_text summary) ;;
  mret summary.

Definition invalidate_ref_summary_index : io unit := io_ignore (remove_file PSummary).

Definition read_ref_summary_index : io (option RefSummaryIndex) :=
  contents ← read_optional_string PSummary;
  match contents with
  | None => mret None
  | Some contents => ix ← io_ok (summary_parse contents) InvalidObject; mret (Some ix)
  end.

Definition try_read_ref_summary_index : io (option RefSummaryIndex) :=
  r ← io_try read_ref_summary_index;
  mret (match r with inl o => o | inr _ => None end).

Definition update_ref_summary_index_with_deltas (deltas : list SummaryDelta) : io unit :=
  summary ← try_read_ref_summary_index;
  match summary with
  | None => rebuild_ref_summary_index_with_lock ;; mret tt
  | Some summary =>
      match deltas with
      | [] => mret tt
      | _ =>
          packed ← load_packed_refs;
          write_string PSummary (summary_to_text (fold_left (apply_delta packed) deltas summary))
      end
  end.

(** [write_string_reconstructible]: a staged temporary, removed when the rename fails *)
Definition write_string_reconstructible (p : rpath) (contents : list Z) : io unit :=
  n ← alloc_temp_path p;
  r ← io_try (stage_one (n, p, contents) ;; rename n p);
  match r with
  | inl _ => mret tt
  | inr e => io_ignore (atomic_effect (set_temps (delete n))) ;; io_fail e
  end.

Definition update_ref_summary_index_with_deltas_reconstructible (deltas : list SummaryDelta) : io unit :=
  summary ← try_read_ref_summary_index;
  summary ← (match summary with Some s => mret s | None => build_ref_summary_index_from_storage end);
  match deltas with
  | [] => write_string_reconstructible PSummary (summary_to_text summary)
  | _ =>
      packed ← load_packed_refs;
      write_string_reconstructible PSummary (summary_to_text (fold_left (apply_delta packed) deltas summary))
  end.

(** ** Listings *)

Definition list_threads_from_storage : io (list (list Z)) :=
  loose ← scan_loose_threads;
  packed ← load_packed_refs;
  mret (sort_names ((rows loose).*1 ++ filter (λ n, loose !! n = None) (map_to_list (threads packed)).*1)).
Definition list_markers_from_storage : io (list (list Z)) :=
  loose ← scan_loose_markers;
  packed ← load_packed_refs;
  mret (sort_names ((rows loose).*1 ++ filter (λ n, loose !! n = None) (map_to_list (markers packed)).*1)).

Definition with_summary {A} (f : RefSummaryIndex → A) (fallback : io A) : io A :=
  summary ← try_read_ref_summary_index;
  match summary with Some s => mret (f s) | None => fallback end.

Definition thread_names (ix : RefSummaryIndex) : list (list Z) := map se_name (ix_threads ix).
Definition marker_names (ix : RefSummaryIndex) : list (list Z) := map se_name (ix_markers ix).
Definition remote_names (ix : RefSummaryIndex) : list (list Z) := map rs_name (ix_remotes ix).
Definition remote_thread_names (remote : list Z) (ix : RefSummaryIndex) : list (list Z) :=
  match find_key rs_name remote (ix_remotes ix) with Some r => map rt_name (rs_threads r) | None => [] end.

Definition raw_list_threads : io (list (list Z)) := with_summary thread_names list_threads_from_storage.
Definition raw_list_markers : io (list (list Z)) := with_summary marker_names list_markers_from_storage.
Definition raw_list_remotes : io (list (list Z)) := with_summary remote_names list_remotes_from_storage.
Definition raw_list_remote_threads (remote : list Z) : io (list (list Z)) :=
  with_summary (remote_thread_names remote) (list_remote_threads_from_storage remote).

End summary.
End RefSummary.

Import RefSummary.

(** ** What the index should hold

    [storage] is the content of the ref store; [build] is the index of a storage
    and [after] is the effect on a storage of the publish that a delta reports. *)
Record storage := {
  s_threads : gmap (list Z) (list Z);
  s_markers : gmap (list Z) (list Z);
  s_packed : PackedRefsModel;
  s_remotes : gmap (list Z) (gmap (list Z) (list Z));
}.

Definition build (v : storage) : RefSummaryIndex :=
  {| ix_threads := merged_entries (s_threads v) (threads (s_packed v));
     ix_markers := merged_entries (s_markers v) (markers (s_packed v));
     ix_remotes := map (λ '(r, m), {| rs_name := r; rs_threads := remote_rows m |}) (rows (s_remotes v)) |}.

Definition after (v : storage) (d : SummaryDelta) : storage :=
  match d with
  | SetThread n id =>
      {| s_threads := <[n := id]> (s_threads v); s_markers := s_markers v; s_packed := s_packed v; s_remotes := s_remotes v |}
  | SetMarker n id =>
      {| s_threads := s_threads v; s_markers := <[n := id]> (s_markers v); s_packed := s_packed v; s_remotes := s_remotes v |}
  | DeleteThread n =>
      {| s_threads := delete n (s_threads v); s_markers := s_markers v; s_packed := remove_track n (s_packed v);
         s_remotes := s_remotes v |}
  | DeleteMarker n =>
      {| s_threads := s_threads v; s_markers := delete n (s_markers v); s_packed := remove_marker n (s_packed v);
         s_remotes := s_remotes v |}
  | SetRemoteThread r n id =>
      {| s_threads := s_threads v; s_markers := s_markers v; s_packed := s_packed v;
         s_remotes := <[r := <[n := id]> (default ∅ (s_remotes v !! r))]> (s_remotes v) |}
  | DeleteRemoteThread r n =>
      {| s_threads := s_threads v; s_markers := s_markers v; s_packed := s_packed v;
         s_remotes := alter (delete n) r (s_remotes v) |}
  end.

(** What a delta is about *)
Definition delta_target (d : SummaryDelta) : Z * list Z * list Z :=
  match d with
  | SetThread n _ | DeleteThread n => (0, [], n)
  | SetMarker n _ | DeleteMarker n => (1, [], n)
  | SetRemoteThread r n _ | DeleteRemoteThread r n => (2, r, n)
  end.

(** ** Entries *)

Definition entry_spec (loose packed : gmap (list Z) (list Z)) (e : RefSummaryEntry) : Prop :=
  match loose !! se_name e with
  | Some id => se_state e = id ∧ se_source e = loose_source (packed !! se_name e)
  | None => packed !! se_name e = Some (se_state e) ∧ se_source e = Packed
  end.

Lemma merged_elem l p e : e ∈ merged_entries l p ↔ entry_spec l p e.
Proof.
  unfold merged_entries. rewrite sort_by_perm, elem_of_app. unfold entry_spec. split.
  - intros [Hin|Hin].
    + apply list_elem_of_In, in_map_iff in Hin as ([n i] & <- & Hin%list_elem_of_In%rows_elem). cbn. by rewrite Hin.
    + apply list_elem_of_omap in Hin as ([n i] & Hin%elem_of_map_to_list & Hf). destruct (l !! n) eqn:El; [done|].
      injection Hf as <-. cbn. by rewrite El.
  - destruct e as [n i s]. cbn. destruct (l !! n) as [j|] eqn:El.
    + intros [-> ->]. left. apply list_elem_of_In, in_map_iff. exists (n, j). split; [done|].
      by apply list_elem_of_In, rows_elem.
    + intros [Hp ->]. right. apply list_elem_of_omap. exists (n, i). split; [by apply elem_of_map_to_list|]. by rewrite El.
Qed.

Lemma merged_sorted l p : strictly se_name (merged_entries l p).
Proof.
  apply strict_of_sorted.
  - apply sort_by_sorted; [intros; apply compare_bytes_antisym|intros x y z; apply compare_bytes_le_trans].
  - unfold merged_entries. rewrite sort_by_perm, fmap_app. apply NoDup_app. split; [|split].
    + assert (se_name <$> map (λ '(n, id), {| se_name := n; se_state := id; se_source := loose_source (p !! n) |}) (rows l)
        = (rows l).*1) as ->.
      { induction (rows l) as [|[n i] r IH]; [done|]. cbn in *. by rewrite IH. }
      unfold rows. rewrite sort_by_perm. apply NoDup_fst_map_to_list.
    + intros n Hn Hn'. apply list_elem_of_fmap in Hn as (e & -> & He), Hn' as (e' & Ee & He').
      apply list_elem_of_In, in_map_iff in He as ([m i] & <- & Hin%list_elem_of_In%rows_elem).
      apply list_elem_of_omap in He' as ([m' i'] & _ & Hf). cbn in Ee. subst.
      destruct (l !! m') eqn:El; [done|]. injection Hf as <-. cbn in Hin. congruence.
    + pose proof (NoDup_fst_map_to_list p) as Hd. induction (map_to_list p) as [|[n i] r IH]; [constructor|].
      cbn in Hd. apply NoDup_cons in Hd as [Hn Hd]. cbn. destruct (l !! n); [by apply IH|].
      cbn. constructor; [|by apply IH]. intros Hin. apply Hn.
      apply list_elem_of_fmap in Hin as (e & -> & He). apply list_elem_of_omap in He as ([m j] & Hm & Hf).
      destruct (l !! m); [done|]. injection Hf as <-. cbn. by apply (list_elem_of_fmap_2 fst) in Hm.
Qed.

Lemma merged_set l p n i s : s = loose_source (p !! n) →
  upsert_entry n i s (merged_entries l p) = merged_entries (<[n := i]> l) p.
Proof.
  intros ->. unfold upsert_entry. apply (strictly_ext se_name).
  - apply upsert_sorted; [done|apply merged_sorted].
  - apply merged_sorted.
  - intros e. rewrite upsert_elem by (done || apply merged_sorted). rewrite !merged_elem. unfold entry_spec.
    destruct e as [m j s]. cbn. destruct (decide (m = n)) as [->|Hn].
    + rewrite lookup_insert_eq. split; [intros [E|[_ E]]; [by injection E as -> ->|done]|].
      intros [-> ->]. by left.
    + rewrite lookup_insert_ne by done. split; [intros [E|[E _]]; [congruence|done]|]. intros E. by right.
Qed.

Lemma merged_delete l p n : filter (λ e, se_name e ≠ n) (merged_entries l p) = merged_entries (delete n l) (delete n p).
Proof.
  apply (strictly_ext se_name); [apply filter_sorted, merged_sorted|apply merged_sorted|].
  intros e. rewrite list_elem_of_filter, !merged_elem. unfold entry_spec.
  destruct (decide (se_name e = n)) as [->|Hn].
  - rewrite !lookup_delete_eq. split; [by intros []|]. by intros [? _].
  - rewrite !lookup_delete_ne by done. tauto.
Qed.

Lemma merged_packed l p p' : (∀ n, p !! n = p' !! n) → merged_entries l p = merged_entries l p'.
Proof. intros H. by rewrite (map_eq p p' H). Qed.

(** ** Remotes *)

Lemma remote_rows_elem m e : e ∈ remote_rows m ↔ m !! rt_name e = Some (rt_state e).
Proof.
  unfold remote_rows. rewrite list_elem_of_In, in_map_iff. split.
  - intros ([n i] & <- & Hin%list_elem_of_In%rows_elem). done.
  - intros H. exists (rt_name e, rt_state e). split; [by destruct e|]. by apply list_elem_of_In, rows_elem.
Qed.

Lemma strictly_map {A B} (ka : A → list Z) (kb : B → list Z) (f : A → B) l :
  (∀ a, kb (f a) = ka a) → strictly ka l → strictly kb (map f l).
Proof.
  intros Hf. induction 1 as [|x l _ IH Hx]; [constructor|]. cbn [map]. constructor; [done|].
  rewrite Forall_map. eapply Forall_impl; [exact Hx|]. cbn. intros y. by rewrite !Hf.
Qed.

Lemma remote_rows_sorted m : strictly rt_name (remote_rows m).
Proof. unfold remote_rows. apply (strictly_map fst); [by intros []|apply map_rows_sorted]. Qed.

Lemma remote_rows_set n i m : upsert_remote_thread n i (remote_rows m) = remote_rows (<[n := i]> m).
Proof.
  unfold upsert_remote_thread. apply (strictly_ext rt_name).
  - apply upsert_sorted; [done|apply remote_rows_sorted].
  - apply remote_rows_sorted.
  - intros e. rewrite upsert_elem by (done || apply remote_rows_sorted). rewrite !remote_rows_elem.
    destruct e as [k j]. cbn. destruct (decide (k = n)) as [->|Hn].
    + rewrite lookup_insert_eq. split; [intros [[= ->]|[_ H]]; [done|by destruct H]|]. intros [= ->]. by left.
    + rewrite lookup_insert_ne by done. split; [intros [[= -> ->]|[H _]]; [by destruct Hn|done]|]. intros H. by right.
Qed.

Lemma remote_rows_delete n m : filter (λ e, rt_name e ≠ n) (remote_rows m) = remote_rows (delete n m).
Proof.
  apply (strictly_ext rt_name); [apply filter_sorted, remote_rows_sorted|apply remote_rows_sorted|].
  intros e. rewrite list_elem_of_filter, !remote_rows_elem. destruct (decide (rt_name e = n)) as [->|Hn].
  - rewrite lookup_delete_eq. split; [by intros []|done].
  - rewrite lookup_delete_ne by done. tauto.
Qed.

Definition remote_entry (p : list Z * gmap (list Z) (list Z)) : RemoteSummaryEntry :=
  {| rs_name := p.1; rs_threads := remote_rows p.2 |}.

Definition remote_list (rem : gmap (list Z) (gmap (list Z) (list Z))) : list RemoteSummaryEntry :=
  map remote_entry (rows rem).

Lemma remote_list_alt (rem : gmap (list Z) (gmap (list Z) (list Z))) :
  map (λ '(r, m), {| rs_name := r; rs_threads := remote_rows m |}) (rows rem) = remote_list rem.
Proof. apply map_ext. by intros []. Qed.

Lemma remote_list_elem rem e : e ∈ remote_list rem ↔ ∃ m, rem !! rs_name e = Some m ∧ rs_threads e = remote_rows m.
Proof.
  unfold remote_list. rewrite list_elem_of_In, in_map_iff. split.
  - intros ([n m] & <- & Hin%list_elem_of_In%rows_elem). by exists m.
  - intros (m & H & E). exists (rs_name e, m). split; [unfold remote_entry; destruct e; cbn in *; congruence|].
    by apply list_elem_of_In, rows_elem.
Qed.

Lemma remote_list_sorted rem : strictly rs_name (remote_list rem).
Proof. unfold remote_list. apply (strictly_map fst); [done|apply map_rows_sorted]. Qed.

Lemma remote_list_find rem r :
  find_key rs_name r (remote_list rem) = (λ m, {| rs_name := r; rs_threads := remote_rows m |}) <$> rem !! r.
Proof.
  destruct (rem !! r) as [m|] eqn:E; cbn [fmap option_fmap option_map].
  - apply find_key_spec; [apply remote_list_sorted|]. split; [|done]. apply remote_list_elem. by exists m.
  - destruct (find_key rs_name r (remote_list rem)) as [e|] eqn:F; [|done].
    apply find_key_spec in F as [Hin <-]; [|apply remote_list_sorted]. apply remote_list_elem in Hin as (m & Em & _). congruence.
Qed.

Lemma remote_list_set rem r n i :
  upsert rs_name r (λ o, {| rs_name := r;
    rs_threads := upsert_remote_thread n i (match o with Some e => rs_threads e | None => [] end) |}) (remote_list rem)
  = remote_list (<[r := <[n := i]> (default ∅ (rem !! r))]> rem).
Proof.
  apply (strictly_ext rs_name).
  - apply upsert_sorted; [done|apply remote_list_sorted].
  - apply remote_list_sorted.
  - intros e. rewrite upsert_elem by (done || apply remote_list_sorted). rewrite remote_list_find, !remote_list_elem.
    destruct e as [k ts]. cbn [rs_name rs_threads].
    assert (upsert_remote_thread n i
      match (λ m, {| rs_name := r; rs_threads := remote_rows m |}) <$> rem !! r with
      | Some e => rs_threads e | None => [] end = remote_rows (<[n := i]> (default ∅ (rem !! r)))) as ->.
    { rewrite <- remote_rows_set. by destruct (rem !! r). }
    destruct (decide (k = r)) as [->|Hk].
    + rewrite lookup_insert_eq. split; [intros [[= ->]|[_ H]]; [by eexists|by destruct H]|].
      intros (m & [= <-] & ->). by left.
    + rewrite lookup_insert_ne by done. split; [intros [[= -> ->]|[H _]]; [by destruct Hk|done]|]. intros H. by right.
Qed.

Lemma search_alter {E} (key : E → list Z) k g (v : list E) : strictly key v →
  (let '(found, i) := vec_search key k v in if found then alter g i v else v)
  = map (λ e, if decide (key e = k) then g e else e) v.
Proof.
  induction 1 as [|x v Hv IH Hx]; [done|]. cbn [vec_search map].
  assert (∀ a, compare_bytes a a = Eq) as Hrefl by (intros a; by apply compare_bytes_eq).
  assert (compare_bytes (key x) k ≠ Lt → map (λ e, if decide (key e = k) then g e else e) v = v) as Hid.
  { intros Hge. rewrite <- (map_id v) at 2. apply map_ext_in. intros a Ha%list_elem_of_In.
    rewrite Forall_forall in Hx. apply Hx in Ha. destruct (decide (key a = k)) as [E'|]; [|done]. by rewrite E' in Ha. }
  destruct (compare_bytes (key x) k) eqn:C.
  - rewrite Hid by done. apply compare_bytes_eq in C. by rewrite decide_True.
  - destruct (decide (key x = k)) as [E'|]; [rewrite E', Hrefl in C; done|].
    destruct (vec_search key k v) as [[] i]; cbn in *; by rewrite <- IH.
  - rewrite Hid by done. destruct (decide (key x = k)) as [E'|]; [rewrite E', Hrefl in C; done|done].
Qed.

Lemma remote_list_delete rem r n :
  (let '(found, i) := vec_search rs_name r (remote_list rem) in
   if found then alter (λ e, {| rs_name := rs_name e; rs_threads := filter (λ t, rt_name t ≠ n) (rs_threads e) |})
     i (remote_list rem) else remote_list rem)
  = remote_list (alter (delete n) r rem).
Proof.
  rewrite search_alter by apply remote_list_sorted. apply (strictly_ext rs_name).
  - apply (strictly_map rs_name); [|apply remote_list_sorted]. intros e. by destruct (decide (rs_name e = r)).
  - apply remote_list_sorted.
  - intros e. rewrite list_elem_of_In, in_map_iff, remote_list_elem. split.
    + intros (e' & <- & He%list_elem_of_In). apply remote_list_elem in He as (m & Em & Et).
      destruct (decide (rs_name e' = r)) as [Er|Er]; cbn [rs_name rs_threads].
      * exists (delete n m). rewrite Er, lookup_alter_eq, <- Er, Em. split; [done|]. rewrite Et. apply remote_rows_delete.
      * exists m. by rewrite lookup_alter_ne by done.
    + intros (m & Em & Et). destruct (decide (rs_name e = r)) as [Er|Er].
      * rewrite Er, lookup_alter_eq in Em. apply fmap_Some in Em as (m0 & E0 & ->).
        exists {| rs_name := r; rs_threads := remote_rows m0 |}. cbn [rs_name rs_threads].
        rewrite decide_True by done. split; [destruct e; cbn in *; by rewrite remote_rows_delete, Er, Et|].
        apply list_elem_of_In, remote_list_elem. by exists m0.
      * exists e. rewrite decide_False by done. split; [done|]. apply list_elem_of_In, remote_list_elem.
        exists m. by rewrite lookup_alter_ne in Em by done.
Qed.

(** ** One delta, and a batch *)

Lemma apply_delta_build pkf v d :
  (∀ n, delta_target d = (0, [], n) → get_thread pkf n = get_thread (s_packed v) n ∨ ∃ m, d = DeleteThread m) →
  (∀ n, delta_target d = (1, [], n) → get_marker pkf n = get_marker (s_packed v) n ∨ ∃ m, d = DeleteMarker m) →
  apply_delta pkf (build v) d = build (after v d).
Proof.
  intros Ht Hm. destruct d as [n i|n i|n|n|r n i|r n]; unfold build; cbn [apply_delta after].
  - cbn. f_equal. destruct (Ht n eq_refl) as [E|[m E]]; [|done]. apply merged_set. unfold get_thread in *. by rewrite E.
  - cbn. f_equal. destruct (Hm n eq_refl) as [E|[m E]]; [|done]. apply merged_set. unfold get_marker in *. by rewrite E.
  - cbn. f_equal. apply merged_delete.
  - cbn. f_equal. apply merged_delete.
  - f_equal. cbn [ix_remotes s_remotes]. rewrite !remote_list_alt. apply remote_list_set.
  - f_equal. cbn [ix_remotes s_remotes]. rewrite !remote_list_alt. apply remote_list_delete.
Qed.

Lemma packed_untouched n ds v : (0, [], n) ∉ map delta_target ds →
  get_thread (s_packed (fold_left after ds v)) n = get_thread (s_packed v) n.
Proof.
  revert v. induction ds as [|d ds IH]; intros v Hn; [done|]. cbn [map] in Hn.
  apply not_elem_of_cons in Hn as [Hd Hn]. cbn [fold_left]. rewrite IH by done.
  destruct d; try done. cbn in *. unfold get_thread. cbn. rewrite lookup_delete_ne; [done|]. congruence.
Qed.

Lemma packed_marker_untouched n ds v : (1, [], n) ∉ map delta_target ds →
  get_marker (s_packed (fold_left after ds v)) n = get_marker (s_packed v) n.
Proof.
  revert v. induction ds as [|d ds IH]; intros v Hn; [done|]. cbn [map] in Hn.
  apply not_elem_of_cons in Hn as [Hd Hn]. cbn [fold_left]. rewrite IH by done.
  destruct d; try done. cbn in *. unfold get_marker. cbn. rewrite lookup_delete_ne; [done|]. congruence.
Qed.

Lemma fold_deltas pkf ds v : NoDup (map delta_target ds) → pkf = s_packed (fold_left after ds v) →
  fold_left (apply_delta pkf) ds (build v) = build (fold_left after ds v).
Proof.
  revert v. induction ds as [|d ds IH]; intros v Hd ->; [done|]. cbn [map] in Hd. apply NoDup_cons in Hd as [Hn Hd].
  cbn [fold_left]. rewrite apply_delta_build; [by apply IH| |].
  - intros n Ht. rewrite Ht in Hn. rewrite packed_untouched by done. destruct d; try done; [by left|right; by eexists].
  - intros n Ht. rewrite Ht in Hn. rewrite packed_marker_untouched by done. destruct d; try done; [by left|right; by eexists].
Qed.

(** ** The text is read back *)

(** Names that fit into a field: no tab, no line break. *)
Definition field (s : list Z) : Prop := Forall (λ b, b ≠ 9 ∧ b ≠ 10 ∧ b ≠ 13) s.

Lemma visible_field s : visible s → field s.
Proof. intros Hs. eapply Forall_impl; [exact Hs|]. cbn. lia. Qed.

Lemma split_join fs : fs ≠ [] → Forall (λ f, 9 ∉ f) fs → split 9 (join [9] fs) = fs.
Proof.
  assert (∀ f rest, 9 ∉ f → split 9 (f ++ 9 :: rest) = f :: split 9 rest) as Happ.
  { intros f rest. induction f as [|b f IH]; intros Hf; [done|]. apply not_elem_of_cons in Hf as [Hb Hf].
    cbn. destruct (b =? 9) eqn:E; [apply Z.eqb_eq in E; congruence|]. by rewrite IH. }
  intros Hn Hf. induction Hf as [|f fs Hf Hfs IH]; [done|]. destruct fs as [|g fs].
  - cbn. by apply split_single.
  - change (join [9] (f :: g :: fs)) with (f ++ 9 :: join [9] (g :: fs)). rewrite Happ by done. by rewrite IH.
Qed.

Section text.
Context `{Base32Laws}.

Lemma trim_id s : s ≠ [] → Forall id_char s → trim s = s.
Proof.
  intros Hn Hs. destruct s as [|b s]; [done|]. pose proof Hs as [Hb _]%Forall_cons. unfold trim.
  rewrite trim_loop_stop by (apply strip_any_id; [apply spaces_not_id|done]).
  destruct (reverse (b :: s)) as [|c r] eqn:E.
  { apply (f_equal reverse) in E. by rewrite reverse_involutive in E. }
  rewrite trim_loop_stop; [rewrite <- E; apply reverse_involutive|].
  apply strip_any_id; [apply rev_spaces_not_id|]. apply Forall_reverse in Hs. rewrite E in Hs.
  by apply Forall_cons in Hs as [? _].
Qed.

Lemma state_field_roundtrip i : id32 i → parse_state_id_text (to_string_full i) = Some i.
Proof.
  intros Hi. destruct (id_text_chars i Hi) as (Hc & s & E). unfold parse_state_id_text.
  rewrite trim_id; [by apply state_id_roundtrip|by rewrite E|done].
Qed.

Lemma id_field i : id32 i → field (to_string_full i).
Proof.
  intros Hi. destruct (id_text_chars i Hi) as [Hc _]. eapply Forall_impl; [exact Hc|]. cbn. unfold id_char. lia.
Qed.

Definition entry_ok (e : RefSummaryEntry) : Prop := field (se_name e) ∧ id32 (se_state e).
Definition remote_ok (r : RemoteSummaryEntry) : Prop :=
  field (rs_name r) ∧ Forall (λ t, field (rt_name t) ∧ id32 (rt_state t)) (rs_threads r).
Definition index_ok (ix : RefSummaryIndex) : Prop :=
  Forall entry_ok (ix_threads ix) ∧ Forall entry_ok (ix_markers ix) ∧ Forall remote_ok (ix_remotes ix) ∧
  strictly rs_name (ix_remotes ix).

(** The lines of the text *)
Definition entry_line (kind : list Z) (e : RefSummaryEntry) : list Z :=
  join [9] [kind; se_name e; to_string_full (se_state e); source_as_str (se_source e)].
Definition thread_line (r : list Z) (t : RemoteThreadSummaryEntry) : list Z :=
  join [9] [T_REMOTE_THREAD; r; rt_name t; to_string_full (rt_state t)].
Definition remote_lines (r : RemoteSummaryEntry) : list (list Z) :=
  join [9] [T_REMOTE; rs_name r] :: map (thread_line (rs_name r)) (rs_threads r).
Definition index_lines (ix : RefSummaryIndex) : list (list Z) :=
  REF_SUMMARY_VERSION :: map (entry_line T_THREAD) (ix_threads ix) ++ map (entry_line T_MARKER) (ix_markers ix)
  ++ concat (map remote_lines (ix_remotes ix)).

Definition ended (l : list Z) : list Z := l ++ [10].

Lemma summary_text_lines ix : summary_to_text ix = concat (map ended (index_lines ix)).
Proof.
  assert (concat (map remote_text (ix_remotes ix)) = concat (map ended (concat (map remote_lines (ix_remotes ix))))) as Hr.
  { induction (ix_remotes ix) as [|r rs IH]; [done|]. cbn [map concat]. rewrite IH, map_app, concat_app. f_equal.
    unfold remote_text, remote_lines. cbn [map concat]. f_equal. by rewrite map_map. }
  unfold summary_to_text, index_lines. rewrite Hr. cbn [map concat]. rewrite !map_app, !concat_app, !map_map.
  change (ended REF_SUMMARY_VERSION) with (REF_SUMMARY_VERSION ++ [10]). by rewrite <- app_assoc.
Qed.

Lemma lines_of_ended ls : Forall one_line ls → text_lines (concat (map ended ls)) = ls.
Proof.
  induction 1 as [|l ls Hl _ IH]; [done|]. cbn [map concat]. unfold ended at 1. rewrite <- app_assoc.
  change ([10] ++ concat (map ended ls)) with (10 :: concat (map ended ls)). by rewrite text_lines_line, IH.
Qed.

Lemma join_field fs : Forall field fs → one_line (join [9] fs).
Proof.
  induction 1 as [|f fs Hf Hfs IH]; [constructor|]. destruct fs as [|g fs].
  - cbn [join]. eapply Forall_impl; [exact Hf|]. cbn. lia.
  - change (join [9] (f :: g :: fs)) with (f ++ 9 :: join [9] (g :: fs)). apply Forall_app. split.
    + eapply Forall_impl; [exact Hf|]. cbn. lia.
    + constructor; [lia|done].
Qed.

Lemma field_no_tab f : field f → 9 ∉ f.
Proof. intros Hf Hin. unfold field in Hf. rewrite Forall_forall in Hf. apply Hf in Hin. lia. Qed.

Lemma split_fields fs : fs ≠ [] → Forall field fs → split 9 (join [9] fs) = fs.
Proof. intros Hn Hf. apply split_join; [done|]. eapply Forall_impl; [exact Hf|]. apply field_no_tab. Qed.

Ltac literal_field := repeat (constructor; [by vm_compute|]); constructor.

Lemma kind_fields : field T_THREAD ∧ field T_MARKER ∧ field T_REMOTE ∧ field T_REMOTE_THREAD.
Proof. repeat split; literal_field. Qed.
Lemma source_field s : field (source_as_str s).
Proof. destruct s; literal_field. Qed.
Lemma source_roundtrip s : source_parse (source_as_str s) = Some s.
Proof. by destruct s. Qed.

Lemma entry_fields kind e : field kind → entry_ok e →
  Forall field [kind; se_name e; to_string_full (se_state e); source_as_str (se_source e)].
Proof.
  intros Hk [Hn Hi]. constructor; [done|]. constructor; [done|]. constructor; [by apply id_field|].
  constructor; [apply source_field|constructor].
Qed.

Lemma parse_entry_text e : entry_ok e →
  parse_entry (se_name e) (to_string_full (se_state e)) (source_as_str (se_source e)) = Some e.
Proof.
  intros [_ Hi]. unfold parse_entry. rewrite state_field_roundtrip by done. cbn. rewrite source_roundtrip. cbn. by destruct e.
Qed.

Definition with_threads (es : list RefSummaryEntry) (t : Tables) : Tables :=
  {| tb_threads := tb_threads t ++ es; tb_markers := tb_markers t; tb_remotes := tb_remotes t |}.
Definition with_markers (es : list RefSummaryEntry) (t : Tables) : Tables :=
  {| tb_threads := tb_threads t; tb_markers := tb_markers t ++ es; tb_remotes := tb_remotes t |}.
Definition with_remote (r : list Z) (ts : list RemoteThreadSummaryEntry) (t : Tables) : Tables :=
  {| tb_threads := tb_threads t; tb_markers := tb_markers t; tb_remotes := <[r := ts]> (tb_remotes t) |}.

Lemma parse_thread_line t e : entry_ok e → parse_summary_line t (entry_line T_THREAD e) = Some (with_threads [e] t).
Proof.
  intros He. destruct kind_fields as (HT & _). unfold parse_summary_line, entry_line.
  rewrite bool_decide_eq_false_2 by done. rewrite split_fields by (done || by apply entry_fields).
  rewrite bool_decide_eq_true_2 by done. by rewrite parse_entry_text.
Qed.

Lemma parse_marker_line t e : entry_ok e → parse_summary_line t (entry_line T_MARKER e) = Some (with_markers [e] t).
Proof.
  intros He. destruct kind_fields as (_ & HM & _). unfold parse_summary_line, entry_line.
  rewrite bool_decide_eq_false_2 by done. rewrite split_fields by (done || by apply entry_fields).
  rewrite bool_decide_eq_false_2 by done. rewrite bool_decide_eq_true_2 by done. by rewrite parse_entry_text.
Qed.

Lemma parse_lines_app t ls ks :
  parse_summary_lines t (ls ++ ks) = t ← parse_summary_lines t ls; parse_summary_lines t ks.
Proof.
  revert t. induction ls as [|l ls IH]; intros t; [done|]. cbn [app parse_summary_lines].
  destruct (parse_summary_line t l); [apply IH|done].
Qed.

Lemma parse_threads t es : Forall entry_ok es →
  parse_summary_lines t (map (entry_line T_THREAD) es) = Some (with_threads es t).
Proof.
  intros Hes. revert t. induction Hes as [|e es He _ IH]; intros t; cbn [map parse_summary_lines].
  - unfold with_threads. rewrite app_nil_r. by destruct t.
  - rewrite parse_thread_line by done. cbn [mbind option_bind]. rewrite IH. unfold with_threads. cbn. by rewrite <- app_assoc.
Qed.

Lemma parse_markers t es : Forall entry_ok es →
  parse_summary_lines t (map (entry_line T_MARKER) es) = Some (with_markers es t).
Proof.
  intros Hes. revert t. induction Hes as [|e es He _ IH]; intros t; cbn [map parse_summary_lines].
  - unfold with_markers. rewrite app_nil_r. by destruct t.
  - rewrite parse_marker_line by done. cbn [mbind option_bind]. rewrite IH. unfold with_markers. cbn. by rewrite <- app_assoc.
Qed.

Lemma parse_remote_line t r : field r →
  parse_summary_line t (join [9] [T_REMOTE; r]) = Some (with_remote r (default [] (tb_remotes t !! r)) t).
Proof.
  intros Hr. destruct kind_fields as (_ & _ & HR & _). unfold parse_summary_line.
  rewrite bool_decide_eq_false_2 by done. rewrite split_fields by (done || by repeat constructor).
  by rewrite bool_decide_eq_true_2.
Qed.

Lemma parse_remote_thread_line t r x : field r → field (rt_name x) → id32 (rt_state x) →
  parse_summary_line t (thread_line r x) = Some (with_remote r (default [] (tb_remotes t !! r) ++ [x]) t).
Proof.
  intros Hr Hn Hi. destruct kind_fields as (_ & _ & _ & HK). unfold parse_summary_line, thread_line.
  rewrite bool_decide_eq_false_2 by done.
  rewrite split_fields; [|done|repeat (constructor; [done || by apply id_field|]); constructor].
  do 2 (rewrite bool_decide_eq_false_2 by done). rewrite bool_decide_eq_true_2 by done.
  rewrite state_field_roundtrip by done. cbn [mbind option_bind]. by destruct x.
Qed.

Lemma parse_remote_threads t r xs ts : field r → Forall (λ t, field (rt_name t) ∧ id32 (rt_state t)) xs →
  tb_remotes t !! r = Some ts →
  parse_summary_lines t (map (thread_line r) xs) = Some (with_remote r (ts ++ xs) t).
Proof.
  intros Hr Hx. revert t ts. induction Hx as [|x xs [Hn Hi] _ IH]; intros t ts E; cbn [map parse_summary_lines].
  - rewrite app_nil_r. unfold with_remote. rewrite insert_id by done. by destruct t.
  - rewrite parse_remote_thread_line by done. cbn [mbind option_bind]. rewrite E. cbn [default from_option Datatypes.id].
    erewrite IH; [|cbn; by rewrite lookup_insert_eq]. unfold with_remote. cbn. by rewrite insert_insert_eq, <- app_assoc.
Qed.

Lemma parse_remotes t rs : Forall remote_ok rs → NoDup (rs_name <$> rs) → (∀ r, r ∈ rs → tb_remotes t !! rs_name r = None) →
  ∃ t', parse_summary_lines t (concat (map remote_lines rs)) = Some t' ∧
    tb_threads t' = tb_threads t ∧ tb_markers t' = tb_markers t ∧
    ∀ n ts, tb_remotes t' !! n = Some ts ↔ tb_remotes t !! n = Some ts ∨ ∃ r, r ∈ rs ∧ rs_name r = n ∧ rs_threads r = ts.
Proof.
  intros Hok. revert t. induction Hok as [|r rs [Hn Hts] _ IH]; intros t Hd Hfree; cbn [map concat].
  - exists t. split; [done|]. split; [done|]. split; [done|]. intros n ts. split; [by left|].
    intros [Hx|(r & Hr & _)]; [done|]. by apply elem_of_nil in Hr.
  - cbn [fmap list_fmap] in Hd. apply NoDup_cons in Hd as [Hr Hd]. rewrite parse_lines_app.
    change (remote_lines r) with (join [9] [T_REMOTE; rs_name r] :: map (thread_line (rs_name r)) (rs_threads r)).
    cbn [parse_summary_lines].
    rewrite parse_remote_line by done. cbn [mbind option_bind].
    rewrite (Hfree r) by by left. cbn [default from_option Datatypes.id].
    rewrite (parse_remote_threads _ _ _ []); [|done|done|cbn; by rewrite lookup_insert_eq]. cbn [mbind option_bind app].
    destruct (IH (with_remote (rs_name r) (rs_threads r) (with_remote (rs_name r) [] t))) as (t' & Ht' & E1 & E2 & Em).
    + done.
    + intros q Hq. cbn. assert (rs_name q ≠ rs_name r).
      { intros Eq. apply Hr. rewrite <- Eq. by apply list_elem_of_fmap_2. }
      rewrite !lookup_insert_ne by done. apply Hfree. by right.
    + exists t'. split; [exact Ht'|]. split; [exact E1|]. split; [exact E2|]. intros n ts. rewrite Em. cbn.
      rewrite insert_insert_eq. destruct (decide (n = rs_name r)) as [->|Hne].
      * rewrite lookup_insert_eq. split.
        -- intros [[= <-]|(q & Hq & Eq & Et)]; right; [exists r|exists q]; (split; [|done]); [by left|by right].
        -- intros [Hx|(q & Hq & Eq & Et)]; [by rewrite (Hfree r) in Hx by by left|].
           apply elem_of_cons in Hq as [->|Hq]; [left; congruence|]. right. by exists q.
      * rewrite lookup_insert_ne by done. split; (intros [Hx|(q & Hq & Eq & Et)]; [by left|right; exists q]).
        -- split; [by right|done].
        -- apply elem_of_cons in Hq as [->|Hq]; [congruence|done].
Qed.

Lemma strictly_keys {E} (key : E → list Z) v : strictly key v → NoDup (key <$> v).
Proof.
  induction 1 as [|x v _ IH Hx]; [constructor|]. cbn. constructor; [|done].
  intros Hin. apply list_elem_of_fmap in Hin as (y & Ey & Hy). rewrite Forall_forall in Hx. apply Hx in Hy.
  rewrite Ey in Hy. assert (compare_bytes (key y) (key y) = Eq) by (by apply compare_bytes_eq). congruence.
Qed.

Lemma summary_roundtrip ix : index_ok ix → summary_parse (summary_to_text ix) = Some ix.
Proof.
  intros (Ht & Hm & Hr & Hs). destruct kind_fields as (HT & HM & HR & HK).
  unfold summary_parse. rewrite summary_text_lines, lines_of_ended.
  - unfold index_lines. rewrite bool_decide_eq_true_2 by done.
    rewrite parse_lines_app, parse_threads by done. cbn [mbind option_bind].
    rewrite parse_lines_app, parse_markers by done. cbn [mbind option_bind].
    destruct (parse_remotes (with_markers (ix_markers ix) (with_threads (ix_threads ix)
      {| tb_threads := []; tb_markers := []; tb_remotes := ∅ |})) (ix_remotes ix) Hr) as (t & -> & E1 & E2 & Em).
    + by apply strictly_keys.
    + intros r _. cbn. apply lookup_empty.
    + cbn [mbind option_bind]. rewrite E1, E2. cbn. destruct ix as [ts ms rs]. cbn in *. do 2 f_equal.
      apply (strictly_ext rs_name); [|done|].
      * apply (strictly_map fst); [by intros []|apply map_rows_sorted].
      * intros e. rewrite list_elem_of_In, in_map_iff. split.
        -- intros ([n x] & <- & Hin%list_elem_of_In%rows_elem). apply Em in Hin as [Hin|(r & Hin & <- & <-)];
             [by rewrite lookup_empty in Hin|by destruct r].
        -- intros Hin. exists (rs_name e, rs_threads e). split; [by destruct e|]. apply list_elem_of_In, rows_elem, Em.
           right. by exists e.
  - unfold index_lines. constructor; [apply (join_field [REF_SUMMARY_VERSION]); constructor; [literal_field|constructor]|].
    rewrite !Forall_app, !Forall_map. split; [|split].
    + eapply Forall_impl; [exact Ht|]. intros e He. by apply join_field, entry_fields.
    + eapply Forall_impl; [exact Hm|]. intros e He. by apply join_field, entry_fields.
    + clear Hs. induction Hr as [|r rs [Hn Hx] _ IH]; [constructor|]. cbn [map concat]. apply Forall_app. split; [|done].
      constructor; [apply join_field; by repeat constructor|]. rewrite Forall_map.
      eapply Forall_impl; [exact Hx|]. intros x [Hxn Hxi]. apply join_field.
      repeat (constructor; [done || by apply id_field|]). constructor.
Qed.
End text.

(** ** The index of a disk *)

Section disk.
Context `{Base32Laws} `{RefSyntaxLaws}.

Definition thread_name (n : list Z) : Prop :=
  text_ok n ∧ validate_ref_name n = true ∧ is_Some (from_git_branch (git_name n)).
Definition marker_name (n : list Z) : Prop :=
  text_ok n ∧ validate_ref_name n = true ∧ is_Some (from_git_tag (git_name n)).
Definition remote_name (r : list Z) : Prop := text_ok r ∧ validate_ref_name r = true.

(** [d] holds the refs of [v], written as the code writes them. *)
Record stores (d : Disk) (v : storage) : Prop := {
  st_threads : ∀ n, files d !! PThread n = format_state_id_text <$> s_threads v !! n;
  st_markers : ∀ n, files d !! PMarker n = format_state_id_text <$> s_markers v !! n;
  st_packed : match files d !! PPacked with
              | None => s_packed v = packed_new
              | Some c => is_utf8 c = true ∧ packed_parse c = s_packed v
              end;
  st_remotes : ∀ r n, files d !! PRemote r n = format_state_id_text <$> (s_remotes v !! r ≫= lookup n);
  st_dirs : ∀ r, is_Some (s_remotes v !! r) ↔ ∃ n, (r, n) ∈ remote_entries d;
  st_entries : ∀ r n, is_Some (files d !! PRemote r n) → (r, n) ∈ remote_entries d;
  st_thread_ok : ∀ n i, s_threads v !! n = Some i → thread_name n ∧ id32 i;
  st_marker_ok : ∀ n i, s_markers v !! n = Some i → marker_name n ∧ id32 i;
  st_packed_ok : ∀ (k : bool) n i, table k (s_packed v) !! n = Some i → (if k then thread_name n else marker_name n) ∧ id32 i;
  st_remote_ok : ∀ r n, (r, n) ∈ remote_entries d → remote_name r ∧ thread_name n;
  st_remote_id : ∀ r m n i, s_remotes v !! r = Some m → m !! n = Some i → id32 i;
}.

Lemma format_utf8 i : id32 i → is_utf8 (format_state_id_text i) = true.
Proof.
  intros Hi. apply ascii_is_utf8, Forall_app. destruct (id_text_chars i Hi) as [Hc _]. split.
  - eapply Forall_impl; [exact Hc|]. cbn. unfold id_char. lia.
  - constructor; [lia|constructor].
Qed.

Lemma read_state p d o : files d !! p = format_state_id_text <$> o → (∀ i, o = Some i → id32 i) →
  read_state_id_at p d = (Ok o, d).
Proof.
  intros E Ho. unfold read_state_id_at, read_optional_string, mbind, io_bind. rewrite E.
  destruct o as [i|]; [|done]. cbn [fmap option_fmap option_map]. rewrite format_utf8 by by apply Ho.
  unfold io_ok. by rewrite state_text_roundtrip by by apply Ho.
Qed.

Lemma thread_path_ok n d : thread_name n → thread_path n d = (Ok (PThread n), d).
Proof. intros (_ & Hv & [x Hx]). unfold thread_path, require_user_ref_name. rewrite Hv. unfold io_ok. by rewrite Hx. Qed.
Lemma marker_path_ok n d : marker_name n → marker_path n d = (Ok (PMarker n), d).
Proof. intros (_ & Hv & [x Hx]). unfold marker_path, require_user_ref_name. rewrite Hv. unfold io_ok. by rewrite Hx. Qed.
Lemma remote_path_ok r n d : remote_name r → thread_name n → remote_thread_path r n d = (Ok (PRemote r n), d).
Proof.
  intros (_ & Hr) (_ & Hv & [x Hx]). unfold remote_thread_path, remote_dir, require_user_ref_name. rewrite Hv, Hr.
  unfold io_ok. by rewrite Hx.
Qed.

Lemma load_packed_ok d v : stores d v → load_packed_refs d = (Ok (s_packed v), d).
Proof.
  intros Hs. pose proof (st_packed _ _ Hs) as Hp. unfold load_packed_refs, read_optional_string, mbind, io_bind.
  destruct (files d !! PPacked) as [c|]; [|by rewrite Hp]. destruct Hp as [-> ->]. done.
Qed.

Lemma scan_spec read names m d : (∀ n, n ∈ names → read n d = (Ok (m !! n), d)) →
  (∀ n, is_Some (m !! n) → n ∈ names) → scan read names d = (Ok m, d).
Proof.
  intros Hr Hm.
  assert (∃ m', scan read names d = (Ok m', d) ∧ ∀ n, m' !! n = if decide (n ∈ names) then m !! n else None)
    as (m' & -> & E).
  { clear Hm. induction names as [|n names IH].
    - exists ∅. split; [done|]. intros n. rewrite lookup_empty. by destruct (decide (n ∈ [])) as [Hn%elem_of_nil|].
    - destruct IH as (m' & Hs & E); [intros k Hk; apply Hr; by right|].
      exists (match m !! n with Some i => <[n := i]> m' | None => m' end). split.
      { cbn [scan]. unfold mbind, io_bind. rewrite (Hr n) by by left. by rewrite Hs. }
      intros k. destruct (m !! n) as [i|] eqn:En.
      + destruct (decide (k = n)) as [->|Hk]; [by rewrite lookup_insert_eq, decide_True, En by by left|].
        rewrite lookup_insert_ne, E by done. destruct (decide (k ∈ names)).
        * by rewrite decide_True by by right.
        * rewrite decide_False; [done|]. by intros [?|?]%elem_of_cons.
      + rewrite E. destruct (decide (k ∈ names)); [by rewrite decide_True by by right|].
        destruct (decide (k ∈ n :: names)) as [Hk|]; [|done]. apply elem_of_cons in Hk as [->|?]; done. }
  do 2 f_equal. apply map_eq. intros n. rewrite E. destruct (decide (n ∈ names)) as [|Hn]; [done|].
  destruct (m !! n) eqn:En; [|done]. exfalso. apply Hn, Hm. by eexists.
Qed.

Lemma sort_names_elem l n : n ∈ sort_names l ↔ n ∈ l.
Proof. unfold sort_names. by rewrite sort_by_perm. Qed.

Lemma loose_threads_elem d n : n ∈ loose_thread_names d ↔ is_Some (files d !! PThread n).
Proof.
  unfold loose_thread_names. rewrite sort_names_elem, list_elem_of_omap. split.
  - intros ([p c] & Hin%elem_of_map_to_list & Hp). destruct p; try done. injection Hp as ->. by eexists.
  - intros [c Hc]. exists (PThread n, c). split; [by apply elem_of_map_to_list|done].
Qed.
Lemma loose_markers_elem d n : n ∈ loose_marker_names d ↔ is_Some (files d !! PMarker n).
Proof.
  unfold loose_marker_names. rewrite sort_names_elem, list_elem_of_omap. split.
  - intros ([p c] & Hin%elem_of_map_to_list & Hp). destruct p; try done. injection Hp as ->. by eexists.
  - intros [c Hc]. exists (PMarker n, c). split; [by apply elem_of_map_to_list|done].
Qed.

Lemma scan_threads_ok d v : stores d v → scan_loose_threads d = (Ok (s_threads v), d).
Proof.
  intros Hs. unfold scan_loose_threads, mbind, io_bind, io_get. apply scan_spec.
  - intros n Hn%loose_threads_elem. rewrite (st_threads _ _ Hs), fmap_is_Some in Hn. destruct Hn as [i Hi].
    destruct (st_thread_ok _ _ Hs _ _ Hi) as [Hn Hid]. rewrite thread_path_ok by done.
    apply read_state; [apply (st_threads _ _ Hs)|]. intros j Hj. congruence.
  - intros n Hn. apply loose_threads_elem. rewrite (st_threads _ _ Hs). by apply fmap_is_Some.
Qed.

Lemma scan_markers_ok d v : stores d v → scan_loose_markers d = (Ok (s_markers v), d).
Proof.
  intros Hs. unfold scan_loose_markers, mbind, io_bind, io_get. apply scan_spec.
  - intros n Hn%loose_markers_elem. rewrite (st_markers _ _ Hs), fmap_is_Some in Hn. destruct Hn as [i Hi].
    destruct (st_marker_ok _ _ Hs _ _ Hi) as [Hn Hid]. rewrite marker_path_ok by done.
    apply read_state; [apply (st_markers _ _ Hs)|]. intros j Hj. congruence.
  - intros n Hn. apply loose_markers_elem. rewrite (st_markers _ _ Hs). by apply fmap_is_Some.
Qed.

Lemma scan_remote_ok d v r m : stores d v → s_remotes v !! r = Some m → scan_remote_threads r d = (Ok m, d).
Proof.
  intros Hs Hm. destruct (proj1 (st_dirs _ _ Hs r)) as [n0 Hn0]; [by eexists|].
  destruct (st_remote_ok _ _ Hs _ _ Hn0) as [Hr _].
  unfold scan_remote_threads, list_remote_threads_from_storage, remote_dir, require_user_ref_name, mbind, io_bind.
  rewrite (proj2 Hr). cbn [mret io_ret]. unfold io_get.
  apply scan_spec.
  - intros n Hn. rewrite sort_names_elem, list_elem_of_omap in Hn. destruct Hn as ([r' n'] & Hin%elem_of_elements & E).
    case_bool_decide; [|done]. injection E as ->. subst r'. destruct (st_remote_ok _ _ Hs _ _ Hin) as [_ Hn].
    rewrite remote_path_ok by done. apply read_state.
    + rewrite (st_remotes _ _ Hs), Hm. done.
    + intros i Hi. by eapply (st_remote_id _ _ Hs).
  - intros n [i Hi]. rewrite sort_names_elem, list_elem_of_omap. exists (r, n).
    split; [|by rewrite bool_decide_eq_true_2]. apply elem_of_elements, (st_entries _ _ Hs).
    rewrite (st_remotes _ _ Hs), Hm. cbn [mbind option_bind]. rewrite Hi. by eexists.
Qed.

Lemma remotes_listed d v : stores d v → list_remotes_from_storage d = (Ok ((rows (s_remotes v)).*1), d).
Proof.
  intros Hs. unfold list_remotes_from_storage, mbind, io_bind, io_get, mret, io_ret. do 2 f_equal.
  apply (strictly_ext (λ x, x)).
  - apply (strict_of_sorted (λ x, x)).
    + apply sort_by_sorted; [apply compare_bytes_antisym|apply compare_bytes_le_trans].
    + rewrite list_fmap_id. unfold sort_names. rewrite sort_by_perm. apply NoDup_elements.
  - apply (strictly_map fst); [done|apply map_rows_sorted].
  - intros r. rewrite sort_names_elem, elem_of_elements, elem_of_map. split.
    + intros ([r' n] & -> & Hin). destruct (proj2 (st_dirs _ _ Hs r')) as [m Hm]; [by eexists|].
      apply list_elem_of_fmap. exists (r', m). split; [done|]. by apply rows_elem.
    + intros ([r' m] & -> & Hin%rows_elem)%list_elem_of_fmap. destruct (proj1 (st_dirs _ _ Hs r')) as [n Hn]; [by eexists|].
      by exists (r', n).
Qed.

Lemma build_ok d v : stores d v → build_ref_summary_index_from_storage d = (Ok (build v), d).
Proof.
  intros Hs. unfold build_ref_summary_index_from_storage. unfold mbind at 1, io_bind at 1. rewrite (scan_threads_ok d v) by done.
  unfold mbind at 1, io_bind at 1. rewrite (scan_markers_ok d v) by done.
  unfold mbind at 1, io_bind at 1. rewrite (load_packed_ok d v) by done.
  unfold mbind at 1, io_bind at 1. rewrite (remotes_listed d v) by done.
  unfold mbind at 1, io_bind at 1.
  assert (∀ l, l ⊆ rows (s_remotes v) →
    io_map (λ name, m ← scan_remote_threads name; mret {| rs_name := name; rs_threads := remote_rows m |}) l.*1 d
    = (Ok (map remote_entry l), d)) as Hl.
  { induction l as [|[r m] l IH]; intros Hl; [done|]. cbn [fmap list_fmap io_map fst]. unfold mbind, io_bind.
    rewrite (scan_remote_ok d v r m); [|done|apply rows_elem, Hl; by left].
    cbn [mret io_ret]. unfold mbind, io_bind in IH. rewrite IH; [done|]. intros x Hx. apply Hl. by right. }
  rewrite Hl by done. unfold mret, io_ret, build. by rewrite remote_list_alt.
Qed.

Lemma thread_field n : thread_name n → field n.
Proof. intros (Hn & Hv & _). by apply visible_field, name_visible. Qed.
Lemma marker_field n : marker_name n → field n.
Proof. intros (Hn & Hv & _). by apply visible_field, name_visible. Qed.

Lemma build_index_ok d v : stores d v → index_ok (build v).
Proof.
  intros Hs. split; [|split; [|split]].
  - apply Forall_forall. intros e He. apply merged_elem in He. unfold entry_spec in He.
    destruct (s_threads v !! se_name e) as [i|] eqn:E.
    + destruct He as [<- _]. destruct (st_thread_ok _ _ Hs _ _ E). split; [by apply thread_field|done].
    + destruct He as [Ep _]. destruct (st_packed_ok _ _ Hs true _ _ Ep). split; [by apply thread_field|done].
  - apply Forall_forall. intros e He. apply merged_elem in He. unfold entry_spec in He.
    destruct (s_markers v !! se_name e) as [i|] eqn:E.
    + destruct He as [<- _]. destruct (st_marker_ok _ _ Hs _ _ E). split; [by apply marker_field|done].
    + destruct He as [Ep _]. destruct (st_packed_ok _ _ Hs false _ _ Ep). split; [by apply marker_field|done].
  - apply Forall_forall. intros e He. cbn [build ix_remotes] in He. rewrite remote_list_alt in He.
    apply remote_list_elem in He as (m & Em & Et). destruct (proj1 (st_dirs _ _ Hs (rs_name e))) as [n Hn]; [by eexists|].
    destruct (st_remote_ok _ _ Hs _ _ Hn) as [[Hr Hv] _]. split; [by apply visible_field, name_visible|].
    rewrite Et. apply Forall_forall. intros t Ht%remote_rows_elem. split.
    + assert ((rs_name e, rt_name t) ∈ remote_entries d) as Hin.
      { apply (st_entries _ _ Hs). rewrite (st_remotes _ _ Hs), Em. cbn. rewrite Ht. by eexists. }
      destruct (st_remote_ok _ _ Hs _ _ Hin) as [_ Hn']. by apply thread_field.
    + by eapply (st_remote_id _ _ Hs).
  - cbn [build ix_remotes]. rewrite remote_list_alt. apply remote_list_sorted.
Qed.

(** The sidecar of [d] is the index of [v]. *)
Definition has_summary (d : Disk) (v : storage) : Prop :=
  files d !! PSummary = Some (summary_to_text (build v)) ∧ is_utf8 (summary_to_text (build v)) = true.

Lemma read_summary_ok d v d0 : has_summary d v → stores d0 v → try_read_ref_summary_index d = (Ok (Some (build v)), d).
Proof.
  intros [E U] Hs. unfold try_read_ref_summary_index, io_try, read_ref_summary_index, read_optional_string, mbind, io_bind.
  rewrite E, U. unfold io_ok. by rewrite summary_roundtrip by by eapply build_index_ok.
Qed.

(** C23. The incremental update of the summary index equals its rebuild. When the
    sidecar held the index of the refs before a publish, and the publish had the
    effects its deltas report, each on a ref of its own, then folding the deltas
    into the sidecar writes byte for byte the file that a rebuild from a scan of the
    whole store writes; with no delta nothing is written and nothing needs to be. *)
Theorem summary_incremental d v d' v' ds : stores d v → has_summary d' v →
  NoDup (map delta_target ds) → v' = fold_left after ds v → stores d' v' →
  rebuild_ref_summary_index_with_lock d' = (write_string PSummary (summary_to_text (build v')) ;; mret (build v')) d' ∧
  update_ref_summary_index_with_deltas ds d' =
    (if bool_decide (ds = []) then (Ok tt, d') else write_string PSummary (summary_to_text (build v')) d') ∧
  (ds = [] → files d' !! PSummary = Some (summary_to_text (build v'))).
Proof.
  intros Hs Hf Hd Hv Hs'. split; [|split].
  - unfold rebuild_ref_summary_index_with_lock. unfold mbind at 1, io_bind at 1. by rewrite (build_ok d' v').
  - unfold update_ref_summary_index_with_deltas. unfold mbind at 1, io_bind at 1.
    rewrite (read_summary_ok d' v d) by done.
    destruct ds as [|x ds]; [done|]. unfold mbind, io_bind. rewrite (load_packed_ok d' v') by done.
    rewrite fold_deltas by (done || by rewrite Hv). rewrite bool_decide_eq_false_2 by done. by rewrite Hv.
  - intros ->. cbn in Hv. subst v'. by destruct Hf.
Qed.
End disk.

(** ** A concrete store

    A loose thread that shadows a packed one, then the publish of a second thread. *)
Module SummarySamples.
Import TextSamples.

Definition main : list Z := ascii_bytes "main".
Definition topic : list Z := ascii_bytes "topic".

Definition before : storage :=
  {| s_threads := {[main := sample_id 7]}; s_markers := ∅;
     s_packed := {| threads := {[main := sample_id 9]}; markers := ∅ |}; s_remotes := ∅ |}.
Definition publish : list SummaryDelta := [SetThread topic (sample_id 1); DeleteThread main].

(** The disk of a store without markers and remotes *)
Definition disk_of (loose : gmap (list Z) (list Z)) (p : PackedRefsModel) (sidecar : list Z) : Disk :=
  {| files := <[PPacked := packed_to_text p]> (<[PSummary := sidecar]>
       (kmap PThread (format_state_id_text <$> loose)));
     temps := ∅; next_temp := 0; remote_entries := ∅; schedule := [] |}.

Lemma names_ok : thread_name main ∧ thread_name topic.
Proof.
  assert (∀ n, Forall is_byte n → is_utf8 n = true → validate_ref_name n = true → is_Some (from_git_branch (git_name n)) →
    thread_name n) as Hn by by repeat split.
  split; apply Hn; try by vm_compute; try (repeat (constructor; [by split|]); constructor); by eexists; vm_compute.
Qed.

Lemma disk_of_stores loose p s : (∀ n i, loose !! n = Some i → thread_name n ∧ id32 i) →
  (∀ n i, threads p !! n = Some i → thread_name n ∧ id32 i) → markers p = ∅ → is_utf8 (packed_to_text p) = true →
  stores (disk_of loose p s) {| s_threads := loose; s_markers := ∅; s_packed := p; s_remotes := ∅ |}.
Proof.
  intros Hl Hp Hm Hu.
  assert (∀ (k : bool) n i, table k p !! n = Some i → k = true ∧ thread_name n ∧ id32 i) as Hk.
  { intros [] n i Hi; [split; [done|by apply Hp]|]. cbn in Hi. by rewrite Hm, lookup_empty in Hi. }
  assert (∀ q, q ≠ PPacked → q ≠ PSummary → (∀ n, q ≠ PThread n) → files (disk_of loose p s) !! q = None) as Hno.
  { intros q H1 H2 H3. cbn. rewrite !lookup_insert_ne by done. destruct (_ !! q) eqn:E; [|done].
    apply lookup_kmap_Some in E as (n & -> & _); [by destruct (H3 n)|]. by intros ?? [=]. }
  split; cbn [s_threads s_markers s_packed s_remotes].
  - intros n. cbn. rewrite !lookup_insert_ne by done. rewrite lookup_kmap by (intros ?? [=]; done). by rewrite lookup_fmap.
  - intros n. by rewrite lookup_empty, Hno.
  - cbn. rewrite lookup_insert_eq. split; [done|]. apply packed_parse_text; [|done..].
    intros k n i Hi. destruct (Hk _ _ _ Hi) as (_ & (Hn & Hv & _) & Hid). split; [|done].
    by apply visible_line, name_visible.
  - intros r n. by rewrite lookup_empty, Hno.
  - intros r. rewrite lookup_empty. cbn. split; [by intros []|]. intros [n Hn]. by apply elem_of_empty in Hn.
  - intros r n. rewrite Hno by done. by intros [].
  - done.
  - intros n i Hi. by rewrite lookup_empty in Hi.
  - intros k n i Hi. destruct (Hk _ _ _ Hi) as (-> & H1 & H2). done.
  - intros r n Hn. cbn in Hn. by apply elem_of_empty in Hn.
  - intros r m n i Hr. by rewrite lookup_empty in Hr.
Qed.

Lemma single_ok n i : thread_name n → id32 i →
  ∀ n' i', ({[n := i]} : gmap (list Z) (list Z)) !! n' = Some i' → thread_name n' ∧ id32 i'.
Proof. intros Hn Hi n' i' E. by apply lookup_singleton_Some in E as [<- <-]. Qed.

Lemma sample_ids : id32 (sample_id 7) ∧ id32 (sample_id 9) ∧ id32 (sample_id 1).
Proof. repeat split; by apply Forall_replicate. Qed.
End SummarySamples.

Import TextSamples SummarySamples.

Lemma summary_incremental_witness :
  let v' := fold_left after publish before in
  let d' := disk_of (s_threads v') (s_packed v') (summary_to_text (build before)) in
  update_ref_summary_index_with_deltas publish d' = write_string PSummary (summary_to_text (build v')) d' ∧
  map se_name (ix_threads (build v')) = [topic].
Proof.
  cbn zeta. split; [|by vm_compute].
  destruct names_ok as [Hmain Htopic], sample_ids as (H7 & H9 & H1).
  set (v' := fold_left after publish before).
  set (d := disk_of (s_threads before) (s_packed before) []).
  set (d' := disk_of (s_threads v') (s_packed v') (summary_to_text (build before))).
  assert (stores d before) as Hs.
  { apply disk_of_stores; [by apply single_ok|by apply single_ok|done|by vm_compute]. }
  assert (s_threads v' = {[topic := sample_id 1]}) as Et by by vm_compute.
  assert (s_packed v' = packed_new) as Ep by by vm_compute.
  assert (stores d' v') as Hs'.
  { unfold d'. rewrite Et, Ep.
    assert (v' = {| s_threads := {[topic := sample_id 1]}; s_markers := ∅; s_packed := packed_new; s_remotes := ∅ |})
      as -> by by vm_compute.
    apply disk_of_stores; [by apply single_ok|intros n i Hi; cbn in Hi; by rewrite lookup_empty in Hi|done|by vm_compute]. }
  refine (proj1 (proj2 (summary_incremental d before d' v' publish Hs _ _ eq_refl Hs'))).
  - split; by vm_compute.
  - by apply (bool_decide_unpack _); vm_compute.
Defined.
