(* ===== verification/RefStore.v ===== *)
(** * Ref transactions

    [crates/refs/src/refs/refs_transactions.rs], [types.rs], [refs_types.rs] and
    the writers of [refs_manager.rs]: planning a batch against expectations,
    publishing it by staged temporaries and renames, rolling back, the removal
    from packed refs, the remote-thread and undo-recovery writers, and packing. *)

From S2P Require Import Prelude Text RefNames RefText RefDisk BTree RefSummary.
Import Text RefNames RefText RefDisk BTree RefSummary.

Module RefStore.

(** ** Requests *)

Inductive RefExpectation (T : Type) := Any | Missing | Value (v : T).
Arguments Any {T}.
Arguments Missing {T}.
Arguments Value {T} v.

Inductive RefUpdate :=
| UThread (name : list Z) (expected : RefExpectation (list Z)) (new : option (list Z))
| UMarker (name : list Z) (expected : RefExpectation (list Z)) (new : option (list Z))
| UHead (expected : RefExpectation Head) (new : Head)
| URemoteThread (remote thread : list Z) (expected : RefExpectation (list Z)) (new : option (list Z)).

Inductive LoadRequest :=
| LHead | LThread (name : list Z) | LMarker (name : list Z) | LUndoRecovery
| LRemoteThread (remote thread : list Z) | LThreadList | LMarkerList | LRemoteList
| LRemoteThreadList (remote : list Z).

Inductive Loaded :=
| OHead (h : Head) | OPoint (id : option (list Z))
| OThreadList (names : list (list Z)) | OMarkerList (names : list (list Z))
| ORemoteList (names : list (list Z)) | ORemoteThreadList (names : list (list Z)).

Definition matches_expectation {T} `{EqDecision T} (expectation : RefExpectation T) (current : option T) (exists_ : bool)
    : bool :=
  match expectation with
  | Any => true
  | Missing => negb exists_
  | Value value => bool_decide (current = Some value)
  end.

Inductive PackedRemove := RemoveThread (name : list Z) | RemoveMarker (name : list Z).
Inductive RefPublishDurability := Durable | Reconstructible.

Record RefUpdatePlan := {
  path : rpath;
  new_content : option (list Z);
  previous_content : option (list Z);
  temp_path : option N;
  packed_remove : option PackedRemove;
  summary_delta : option SummaryDelta;
}.

Definition is_some {A} (o : option A) : bool := match o with Some _ => true | None => false end.

Definition thread_summary_delta (name : list Z) (new : option (list Z)) : SummaryDelta :=
  match new with Some id => SetThread name id | None => DeleteThread name end.
Definition marker_summary_delta (name : list Z) (new : option (list Z)) : SummaryDelta :=
  match new with Some id => SetMarker name id | None => DeleteMarker name end.
Definition remote_summary_delta (remote thread : list Z) (new : option (list Z)) : SummaryDelta :=
  match new with Some id => SetRemoteThread remote thread id | None => DeleteRemoteThread remote thread end.

Section transactions.
Context `{Base32} `{RefSyntax}.

(** ** Reads with the packed fallback *)

Definition read_track_with_packed_fallback (name : list Z) : io (rpath * option (list Z) * option (list Z)) :=
  p ← thread_path name;
  raw ← read_optional_string p;
  match raw with
  | Some contents => id ← io_ok (parse_state_id_text contents) InvalidObject; mret (p, Some id, raw)
  | None =>
      packed ← load_packed_refs;
      mret (p, get_thread packed name, format_state_id_text <$> get_thread packed name)
  end.

Definition read_marker_with_packed_fallback (p : rpath) (name : list Z) : io (option (list Z) * option (list Z)) :=
  raw ← read_optional_string p;
  match raw with
  | Some contents => id ← io_ok (parse_state_id_text contents) InvalidObject; mret (Some id, raw)
  | None =>
      packed ← load_packed_refs;
      mret (get_marker packed name, format_state_id_text <$> get_marker packed name)
  end.

(** ** Planning

    The plans of one ref, from its current and its new value *)
Definition thread_plan (name : list Z) (p : rpath) (current new previous : option (list Z)) : RefUpdatePlan :=
  {| path := p; new_content := format_state_id_text <$> new; previous_content := previous; temp_path := None;
     packed_remove := if negb (is_some new) && is_some current then Some (RemoveThread name) else None;
     summary_delta := Some (thread_summary_delta name new) |}.
Definition marker_plan (name : list Z) (p : rpath) (current new previous : option (list Z)) : RefUpdatePlan :=
  {| path := p; new_content := format_state_id_text <$> new; previous_content := previous; temp_path := None;
     packed_remove := if negb (is_some new) && is_some current then Some (RemoveMarker name) else None;
     summary_delta := Some (marker_summary_delta name new) |}.
Definition remote_plan (remote thread : list Z) (p : rpath) (current new : option (list Z)) : RefUpdatePlan :=
  {| path := p; new_content := format_state_id_text <$> new; previous_content := format_state_id_text <$> current;
     temp_path := None; packed_remove := None; summary_delta := Some (remote_summary_delta remote thread new) |}.
Definition head_plan (checkout : Z) (new : Head) (previous : option (list Z)) : RefUpdatePlan :=
  {| path := PHead checkout; new_content := Some (head_to_text new); previous_content := previous; temp_path := None;
     packed_remove := None; summary_delta := None |}.

(** [reconciled_value_under_lock], and the checkout whose HEAD this manager keeps *)
Context (reconciled : LoadRequest → io Loaded) (checkout : Z).

Definition reconciled_id (req : LoadRequest) : io (option (list Z)) :=
  loaded ← reconciled req;
  match loaded with OPoint id => mret id | _ => io_panic end.

Definition expect_id (expected : RefExpectation (list Z)) (current : option (list Z)) : io unit :=
  if matches_expectation expected current (is_some current) then mret tt else io_fail Conflict.

Definition note_seen (p : rpath) (seen : list rpath) : io (list rpath) :=
  if bool_decide (p ∈ seen) then io_fail Conflict else mret (p :: seen).

(** One iteration of [plan_ref_updates] *)
Definition plan_one (update : RefUpdate) (seen : list rpath) : io (RefUpdatePlan * list rpath) :=
  match update with
  | UThread name expected new =>
      '(p, _, _) ← read_track_with_packed_fallback name;
      seen ← note_seen p seen;
      current ← reconciled_id (LThread name);
      expect_id expected current ;;
      mret (thread_plan name p current new (format_state_id_text <$> current), seen)
  | UMarker name expected new =>
      p ← marker_path name;
      seen ← note_seen p seen;
      current ← reconciled_id (LMarker name);
      expect_id expected current ;;
      mret (marker_plan name p current new (format_state_id_text <$> current), seen)
  | UHead expected new =>
      raw_state ← read_head_state checkout;
      loaded ← reconciled LHead;
      match loaded with
      | OHead reconciled_head =>
          let exists_ := hs_exists raw_state || negb (bool_decide (reconciled_head = hs_head raw_state)) in
          (if matches_expectation expected (Some reconciled_head) exists_ then mret tt else io_fail Conflict) ;;
          let previous := if bool_decide (reconciled_head = hs_head raw_state) then hs_raw raw_state
                          else Some (head_to_text reconciled_head) in
          mret (head_plan checkout new previous, seen)
      | _ => io_panic
      end
  | URemoteThread remote thread expected new =>
      p ← remote_thread_path remote thread;
      seen ← note_seen p seen;
      current ← reconciled_id (LRemoteThread remote thread);
      expect_id expected current ;;
      mret (remote_plan remote thread p current new, seen)
  end.

Fixpoint plan_loop (updates : list RefUpdate) (seen : list rpath) : io (list RefUpdatePlan) :=
  match updates with
  | [] => mret []
  | u :: updates => '(p, seen) ← plan_one u seen; ps ← plan_loop updates seen; mret (p :: ps)
  end.

Definition plan_ref_updates (updates : list RefUpdate) : io (list RefUpdatePlan) := plan_loop updates [].

(** One iteration of [plan_materialization]: [None] is [continue]. *)
Definition materialization_plan (update : RefUpdate) : io (option RefUpdatePlan) :=
  match update with
  | UThread name _ new =>
      '(p, current, previous) ← read_track_with_packed_fallback name;
      mret (if bool_decide (current = new) then None else Some (thread_plan name p current new previous))
  | UMarker name _ new =>
      p ← marker_path name;
      '(current, previous) ← read_marker_with_packed_fallback p name;
      mret (if bool_decide (current = new) then None else Some (marker_plan name p current new previous))
  | UHead _ new =>
      state ← read_head_state checkout;
      mret (if hs_exists state && bool_decide (hs_head state = new) then None
            else Some (head_plan checkout new (hs_raw state)))
  | URemoteThread remote thread _ new =>
      p ← remote_thread_path remote thread;
      current ← raw_get_remote_thread remote thread;
      mret (if bool_decide (current = new) then None else Some (remote_plan remote thread p current new))
  end.

Definition plan_materialization (republish : list RefUpdate) : io (list RefUpdatePlan) :=
  ps ← io_map materialization_plan republish;
  mret (omap Datatypes.id ps).

(** ** Publishing *)

(** The identity entries of the names that a plan sets *)
Definition write_plan_names (plan : RefUpdatePlan) : io unit :=
  match summary_delta plan with
  | Some (SetThread name _) | Some (SetMarker name _) => write_name_entry name
  | Some (SetRemoteThread remote name _) => write_name_entry remote ;; remote_dir remote ;; write_name_entry name
  | _ => mret tt
  end.

Definition alloc_plan (plan : RefUpdatePlan) : io RefUpdatePlan :=
  match new_content plan with
  | None => mret plan
  | Some _ =>
      write_plan_names plan ;;
      make_dir (path plan) ;;
      n ← alloc_temp_path (path plan);
      mret {| path := path plan; new_content := new_content plan; previous_content := previous_content plan;
              temp_path := Some n; packed_remove := packed_remove plan; summary_delta := summary_delta plan |}
  end.

Definition temp_writes (plans : list RefUpdatePlan) : list (N * rpath * list Z) :=
  omap (λ p, match temp_path p, new_content p with Some n, Some c => Some (n, path p, c) | _, _ => None end) plans.

(** [stage_temp_files_durable], [stage_temp_files_reconstructible] *)
Definition stage_temps (durability : RefPublishDurability) (writes : list (N * rpath * list Z)) : io unit :=
  io_each stage_one writes ;;
  match durability with
  | Durable => io_each (λ _, io_point) writes
  | Reconstructible => mret tt
  end.

Definition rollback_one (plan : RefUpdatePlan) : io unit :=
  match previous_content plan with
  | Some previous => write_string (path plan) previous
  | None => b ← exists_file (path plan); if b : bool then remove_file (path plan) else mret tt
  end.

(** [rollback_updates]; [applied] lists the applied plans, the last one first. *)
Definition rollback_updates (applied : list RefUpdatePlan) (packed_snapshot : option (list Z)) : io unit :=
  io_each rollback_one applied ;;
  match packed_snapshot with
  | Some snapshot => write_string PPacked snapshot
  | None => b ← exists_file PPacked; if b : bool then remove_file PPacked else mret tt
  end.

(** [if let Err(e) = rollback { return Err(Conflict) }; return Err(err)] *)
Definition roll_back {A} (applied : list RefUpdatePlan) (packed_snapshot : option (list Z)) (err : RefError) : io A :=
  r ← io_try (rollback_updates applied packed_snapshot);
  match r with inl _ => io_fail err | inr _ => io_fail Conflict end.

Definition apply_one (plan : RefUpdatePlan) : io unit :=
  match temp_path plan with
  | Some n => rename n (path plan)
  | None => b ← exists_file (path plan); if b : bool then remove_file (path plan) else mret tt
  end.

Fixpoint apply_loop (plans applied : list RefUpdatePlan) (packed_snapshot : option (list Z)) : io unit :=
  match plans with
  | [] => mret tt
  | plan :: plans =>
      r ← io_try (apply_one plan);
      match r with
      | inl _ => apply_loop plans (plan :: applied) packed_snapshot
      | inr err => roll_back applied packed_snapshot err
      end
  end.

(** The directories that are synced, each named by the path renamed into it: the parents are
    as distinct as the paths, since [name_path] gives every name a directory of its own, in
    which its value is the file [entry], and HEAD is the one ref in the directory above. *)
Definition dirty_parents (plans : list RefUpdatePlan) : list rpath :=
  remove_dups (omap (λ p, match temp_path p with Some _ => Some (path p) | None => None end) plans).

Definition remove_packed (packed : PackedRefsModel) (r : PackedRemove) : PackedRefsModel :=
  match r with RemoveThread name => remove_track name packed | RemoveMarker name => remove_marker name packed end.

Definition apply_packed_removals (plans : list RefUpdatePlan) : io unit :=
  match omap packed_remove plans with
  | [] => mret tt
  | removals =>
      b ← exists_file PPacked;
      if b : bool then
        packed ← load_packed_refs;
        save_packed_refs (fold_left remove_packed removals packed)
      else mret tt
  end.

Definition update_summary (durability : RefPublishDurability) (deltas : list SummaryDelta) : io unit :=
  r ← io_try (match durability with
              | Durable => update_ref_summary_index_with_deltas deltas
              | Reconstructible => update_ref_summary_index_with_deltas_reconstructible deltas
              end);
  match r with inl _ => mret tt | inr _ => invalidate_ref_summary_index end.

Definition publish_ref_plans_with_durability (durability : RefPublishDurability) (plans : list RefUpdatePlan) : io unit :=
  plans ← io_map alloc_plan plans;
  stage_temps durability (temp_writes plans) ;;
  packed_snapshot ← read_optional_string PPacked;
  apply_loop plans [] packed_snapshot ;;
  (match durability with
   | Durable => io_each (λ _, sync_directory) (dirty_parents plans)
   | Reconstructible => mret tt
   end) ;;
  r ← io_try (apply_packed_removals plans);
  match r with
  | inr err => roll_back (reverse plans) packed_snapshot err
  | inl _ => update_summary durability (omap summary_delta plans)
  end.

Definition publish_ref_plans : list RefUpdatePlan → io unit := publish_ref_plans_with_durability Durable.
Definition publish_ref_plans_reconstructible : list RefUpdatePlan → io unit :=
  publish_ref_plans_with_durability Reconstructible.

Definition update_refs_with_lock (updates : list RefUpdate) : io unit :=
  plans ← plan_ref_updates updates;
  publish_ref_plans plans.

(** ** The other writers *)

Definition rebuild_or_invalidate : io unit :=
  r ← io_try rebuild_ref_summary_index_with_lock;
  match r with inl _ => mret tt | inr _ => invalidate_ref_summary_index end.

Definition set_remote_thread_locked (remote thread state : list Z) : io unit :=
  p ← remote_thread_path remote thread;
  write_name_entry remote ;;
  remote_dir remote ;;
  write_name_entry thread ;;
  make_dir p ;;
  write_string p (format_state_id_text state) ;;
  rebuild_or_invalidate.

Definition delete_remote_thread_locked (remote thread : list Z) : io (option (list Z)) :=
  state ← raw_get_remote_thread remote thread;
  (match state with
   | Some _ =>
       p ← remote_thread_path remote thread;
       b ← exists_file p;
       if b : bool then remove_file p else mret tt
   | None => mret tt
   end) ;;
  rebuild_or_invalidate ;;
  mret state.

Definition set_undo_recovery_locked (state : list Z) : io unit :=
  write_string (PUndo checkout) (format_state_id_text state).

Definition clear_undo_recovery_locked : io unit :=
  b ← exists_file (PUndo checkout);
  if b : bool then remove_file (PUndo checkout) else mret tt.

(** ** Packing *)

(** [for name in names { if let Some(id) = read(name)? { packed.set(name, id) } }] *)
Fixpoint pack_loop (path_of : list Z → io rpath) (set : list Z → list Z → PackedRefsModel → PackedRefsModel)
    (names : list (list Z)) (packed : PackedRefsModel) : io PackedRefsModel :=
  match names with
  | [] => mret packed
  | n :: names =>
      p ← path_of n;
      id ← read_state_id_at p;
      pack_loop path_of set names (match id with Some id => set n id packed | None => packed end)
  end.

Definition remove_loose (path_of : list Z → io rpath) (name : list Z) : io unit :=
  p ← path_of name;
  b ← exists_file p;
  if b : bool then remove_file p else mret tt.

Definition pack_refs : io unit :=
  packed ← load_packed_refs;
  threads ← list_threads_from_storage;
  packed ← pack_loop thread_path set_thread threads packed;
  markers ← list_markers_from_storage;
  packed ← pack_loop marker_path set_marker markers packed;
  (if packed_is_empty packed then mret tt
   else
     save_packed_refs packed ;;
     sync_directory ;;
     io_each (remove_loose thread_path) threads ;;
     io_each (remove_loose marker_path) markers) ;;
  rebuild_or_invalidate.

(** ** Raw reads of a request *)

Definition raw_load (req : LoadRequest) : io Loaded :=
  match req with
  | LHead => state ← read_head_state checkout; mret (OHead (hs_head state))
  | LThread name => id ← raw_get_thread name; mret (OPoint id)
  | LMarker name => id ← raw_get_marker name; mret (OPoint id)
  | LUndoRecovery => id ← read_state_id_at (PUndo checkout); mret (OPoint id)
  | LRemoteThread remote thread => id ← raw_get_remote_thread remote thread; mret (OPoint id)
  | LThreadList => names ← raw_list_threads; mret (OThreadList names)
  | LMarkerList => names ← raw_list_markers; mret (OMarkerList names)
  | LRemoteList => names ← raw_list_remotes; mret (ORemoteList names)
  | LRemoteThreadList remote => names ← raw_list_remote_threads remote; mret (ORemoteThreadList names)
  end.

(** [cleanup_stale_temps]: the temporaries directly below [refs/] *)
Definition top_level (p : rpath) : bool := match p with PSummary | PPacked => true | _ => false end.
Definition cleanup_stale_temps : io unit := λ d,
  io_each (λ '(n, (p, _)), if top_level p then io_ignore (atomic_effect (set_temps (delete n))) else mret tt)
    (map_to_list (temps d)) d.

End transactions.
End RefStore.

Import RefStore.

(** ** Failures that remain in a schedule *)

Definition failing (f : fault) : bool := match f with Fine => false | _ => true end.
Definition nf (d : Disk) : nat := length (List.filter failing (schedule d)).

Lemma wp_effect_nf f Q R d : (∀ d', nf (f d') = nf d') →
  (∀ s, nf (set_schedule s d) = nf d → Q tt (f (set_schedule s d))) →
  (∀ s, (nf (set_schedule s d) < nf d)%nat → R Io (set_schedule s d)) →
  (∀ s, (nf (set_schedule s d) < nf d)%nat → R Io (f (set_schedule s d))) → wp (effect f) Q R d.
Proof.
  intros Hf H1 H2 H3. unfold wp, effect, nf in *. destruct d as [fs ts n rs [|[] s]]; cbn in *.
  - by apply (H1 []).
  - by apply (H1 s).
  - apply (H2 s). lia.
  - apply (H3 s). lia.
Qed.

Lemma wp_atomic_nf f Q R d :
  (∀ s, nf (set_schedule s d) = nf d → Q tt (f (set_schedule s d))) →
  (∀ s, (nf (set_schedule s d) < nf d)%nat → R Io (set_schedule s d)) → wp (atomic_effect f) Q R d.
Proof.
  intros H1 H2. unfold wp, atomic_effect, nf in *. destruct d as [fs ts n rs [|[] s]]; cbn in *.
  - by apply (H1 []).
  - by apply (H1 s).
  - apply (H2 s). lia.
  - apply (H2 s). lia.
Qed.

(** ** Operations that only read *)

Class Reads {A} (m : io A) : Prop :=
  reads_run : ∀ d, (∃ a, m d = (Ok a, d)) ∨ (∃ e, m d = (Err e, d)).

#[export] Instance reads_ret {A} (a : A) : Reads (mret a).
Proof. intros d. left. by exists a. Qed.
#[export] Instance reads_fail {A} e : Reads (io_fail (A:=A) e).
Proof. intros d. right. by exists e. Qed.
#[export] Instance reads_ok {A} (o : option A) e : Reads (io_ok o e).
Proof. destruct o; apply _. Qed.
#[export] Instance reads_get : Reads io_get.
Proof. intros d. left. by exists d. Qed.
#[export] Instance reads_bind {A B} (m : io A) (f : A → io B) : Reads m → (∀ a, Reads (f a)) → Reads (m ≫= f).
Proof.
  intros Hm Hf d. unfold mbind, io_bind. destruct (Hm d) as [[a ->]|[e ->]]; [apply Hf|right; by exists e].
Qed.
#[export] Instance reads_if {A} (b : bool) (m n : io A) : Reads m → Reads n → Reads (if b then m else n).
Proof. by destruct b. Qed.
#[export] Instance reads_option {A B} (o : option B) (m : B → io A) (n : io A) :
  (∀ b, Reads (m b)) → Reads n → Reads (match o with Some b => m b | None => n end).
Proof. by destruct o. Qed.
#[export] Instance reads_prod {A B C} (p : B * C) (m : B → C → io A) :
  (∀ b c, Reads (m b c)) → Reads (let '(b, c) := p in m b c).
Proof. by destruct p. Qed.
#[export] Instance reads_exists p : Reads (exists_file p).
Proof. intros d. left. by eexists. Qed.
#[export] Instance reads_file p : Reads (read_optional_string p).
Proof.
  intros d. unfold read_optional_string. destruct (files d !! p) as [c|]; [|left; by eexists].
  destruct (is_utf8 c); [left|right]; by eexists.
Qed.
#[export] Instance reads_try {A} (m : io A) : Reads m → Reads (io_try m).
Proof. intros Hm d. unfold io_try. left. destruct (Hm d) as [[a ->]|[e ->]]; by eexists. Qed.
#[export] Instance reads_map {A B} (f : A → io B) xs : (∀ x, Reads (f x)) → Reads (io_map f xs).
Proof. intros Hf. induction xs as [|x xs IH]; cbn [io_map]; apply _. Qed.
#[export] Instance reads_scan read names : (∀ n, Reads (read n)) → Reads (scan read names).
Proof. intros Hf. induction names as [|x xs IH]; cbn [scan]; apply _. Qed.

Section reads.
Context `{Base32} `{RefSyntax}.

#[export] Instance reads_thread_path n : Reads (thread_path n).
Proof. unfold thread_path, require_user_ref_name. apply _. Qed.
#[export] Instance reads_marker_path n : Reads (marker_path n).
Proof. unfold marker_path, require_user_ref_name. apply _. Qed.
#[export] Instance reads_remote_dir r : Reads (remote_dir r).
Proof. unfold remote_dir, require_user_ref_name. apply _. Qed.
#[export] Instance reads_remote_path r n : Reads (remote_thread_path r n).
Proof. unfold remote_thread_path, require_user_ref_name. apply _. Qed.
#[export] Instance reads_state p : Reads (read_state_id_at p).
Proof. unfold read_state_id_at. apply _. Qed.
#[export] Instance reads_packed : Reads load_packed_refs.
Proof. unfold load_packed_refs. apply _. Qed.
#[export] Instance reads_raw_thread n : Reads (raw_get_thread n).
Proof. unfold raw_get_thread. apply _. Qed.
#[export] Instance reads_raw_marker n : Reads (raw_get_marker n).
Proof. unfold raw_get_marker. apply _. Qed.
#[export] Instance reads_raw_remote r n : Reads (raw_get_remote_thread r n).
Proof. unfold raw_get_remote_thread. apply _. Qed.
#[export] Instance reads_head c : Reads (read_head_state c).
Proof. unfold read_head_state. apply _. Qed.
#[export] Instance reads_build : Reads build_ref_summary_index_from_storage.
Proof.
  unfold build_ref_summary_index_from_storage, scan_loose_threads, scan_loose_markers, list_remotes_from_storage,
    scan_remote_threads, list_remote_threads_from_storage. apply _.
Qed.
#[export] Instance reads_summary : Reads read_ref_summary_index.
Proof. unfold read_ref_summary_index. apply _. Qed.
#[export] Instance reads_try_summary : Reads try_read_ref_summary_index.
Proof. unfold try_read_ref_summary_index. apply _. Qed.
#[export] Instance reads_list_threads : Reads list_threads_from_storage.
Proof. unfold list_threads_from_storage, scan_loose_threads. apply _. Qed.
#[export] Instance reads_list_markers : Reads list_markers_from_storage.
Proof. unfold list_markers_from_storage, scan_loose_markers. apply _. Qed.
End reads.

Lemma wp_reads {A} (m : io A) `{!Reads m} (Q : A → Disk → Prop) (R : RefError → Disk → Prop) d :
  (∀ a, m d = (Ok a, d) → Q a d) → (∀ e, m d = (Err e, d) → R e d) → wp m Q R d.
Proof. intros H1 H2. unfold wp. destruct (reads_run (m:=m) d) as [[a E]|[e E]]; rewrite E; auto. Qed.

(** ** The sidecar: writers that touch nothing but the summary file *)

Definition but_summary (d d' : Disk) : Prop :=
  (∀ q, q ≠ PSummary → files d' !! q = files d !! q) ∧ remote_entries d' = remote_entries d ∧ (nf d' ≤ nf d)%nat.

Lemma but_refl d : but_summary d d.
Proof. by repeat split. Qed.
Lemma but_trans d d' d'' : but_summary d d' → but_summary d' d'' → but_summary d d''.
Proof. intros (F & E & N) (F' & E' & N'). split; [intros q Hq; by rewrite F', F|]. split; [congruence|lia]. Qed.

Lemma but_schedule s d : (nf (set_schedule s d) ≤ nf d)%nat → but_summary d (set_schedule s d).
Proof. by repeat split. Qed.
Lemma but_put c d : but_summary d (put_file PSummary c d).
Proof. split; [|done]. intros q Hq. cbn. by rewrite lookup_insert_ne. Qed.
Lemma but_drop d : but_summary d (drop_file PSummary d).
Proof. split; [|done]. intros q Hq. cbn. by rewrite lookup_delete_ne. Qed.

Ltac but_next := intros; cbv beta in *; eapply but_trans; eassumption.

(** An operation that ends, in a value or an error, with only the sidecar changed *)
Definition sidecar {A} (m : io A) : Prop := ∀ d, wp m (λ _ d', but_summary d d') (λ _ d', but_summary d d') d.

Lemma sidecar_reads {A} (m : io A) `{!Reads m} : sidecar m.
Proof. intros d. apply wp_reads; [done|intros; apply but_refl|intros; apply but_refl]. Qed.

Lemma sidecar_bind {A B} (m : io A) (f : A → io B) : sidecar m → (∀ a, sidecar (f a)) → sidecar (m ≫= f).
Proof.
  intros Hm Hf d. apply wp_bind. eapply wp_mono; [apply Hm| |auto]. intros a d' Hd.
  eapply wp_mono; [apply Hf|..]; but_next.
Qed.

Lemma sidecar_write c : sidecar (write_string PSummary c).
Proof.
  intros d. unfold write_string. apply wp_effect_nf; [done|..]; intros s Hs.
  - eapply but_trans; [|apply but_put]. apply but_schedule. lia.
  - apply but_schedule. lia.
  - eapply but_trans; [|apply but_put]. apply but_schedule. lia.
Qed.

Lemma sidecar_remove : sidecar (remove_file PSummary).
Proof.
  intros d. unfold remove_file. apply wp_atomic_nf; intros s Hs.
  - eapply but_trans; [|apply but_drop]. apply but_schedule. lia.
  - apply but_schedule. lia.
Qed.

Lemma sidecar_ignore {A} (m : io A) : sidecar m → sidecar (io_ignore m).
Proof. intros Hm d. apply wp_ignore. eapply wp_mono; [apply Hm|done..]. Qed.
Lemma sidecar_try {A} (m : io A) : sidecar m → sidecar (io_try m).
Proof. intros Hm d. apply wp_try. eapply wp_mono; [apply Hm|done..]. Qed.

Lemma sidecar_point : sidecar io_point.
Proof. intros d. apply wp_atomic_nf; intros s Hs; apply but_schedule; lia. Qed.

Lemma sidecar_temps f : (∀ d, nf (set_temps f d) = nf d) → sidecar (effect (set_temps f)) ∧ sidecar (atomic_effect (set_temps f)).
Proof.
  intros Hf. split; intros d; [apply wp_effect_nf; [done|..]|apply wp_atomic_nf]; intros s Hs; repeat split; unfold nf in *; cbn in *; lia.
Qed.

Lemma sidecar_reconstructible c : sidecar (write_string_reconstructible PSummary c).
Proof.
  unfold write_string_reconstructible, alloc_temp_path. apply sidecar_bind.
  - apply sidecar_bind; [apply sidecar_point|]. intros _ d. by repeat split.
  - intros n. apply sidecar_bind.
    + apply sidecar_try, sidecar_bind; [by apply sidecar_temps|]. intros _ d. unfold rename.
      unfold wp. destruct (temps d !! n) as [[q bytes]|]; [|apply but_refl].
      apply (wp_atomic_nf _ (λ _ d', but_summary d d') (λ _ d', but_summary d d')); intros s Hs.
      * split; [|split; [done|unfold nf in *; cbn in *; lia]]. intros q' Hq. cbn. by rewrite lookup_insert_ne.
      * apply but_schedule. lia.
    + intros [|e]; [apply (sidecar_reads (mret tt))|]. apply sidecar_bind; [|intros; apply (sidecar_reads (io_fail e))].
      apply sidecar_ignore. by apply sidecar_temps.
Qed.

Section sidecars.
Context `{Base32} `{RefSyntax}.

Lemma sidecar_rebuild : sidecar rebuild_ref_summary_index_with_lock.
Proof.
  unfold rebuild_ref_summary_index_with_lock. apply sidecar_bind; [apply sidecar_reads, _|]. intros ix.
  apply sidecar_bind; [apply sidecar_write|]. intros _. apply (sidecar_reads (mret ix)).
Qed.

Lemma sidecar_deltas ds : sidecar (update_ref_summary_index_with_deltas ds).
Proof.
  unfold update_ref_summary_index_with_deltas. apply sidecar_bind; [apply sidecar_reads, _|]. intros [ix|].
  - destruct ds; [apply (sidecar_reads (mret tt))|]. apply sidecar_bind; [apply sidecar_reads, _|]. intros p. apply sidecar_write.
  - apply sidecar_bind; [apply sidecar_rebuild|]. intros _. apply (sidecar_reads (mret tt)).
Qed.

Lemma sidecar_deltas_reconstructible ds : sidecar (update_ref_summary_index_with_deltas_reconstructible ds).
Proof.
  unfold update_ref_summary_index_with_deltas_reconstructible. apply sidecar_bind; [apply sidecar_reads, _|]. intros o.
  apply sidecar_bind; [destruct o; apply sidecar_reads, _|]. intros ix.
  destruct ds; [apply sidecar_reconstructible|]. apply sidecar_bind; [apply sidecar_reads, _|]. intros p.
  apply sidecar_reconstructible.
Qed.

(** Every error of the sidecar is absorbed. *)
Lemma summary_absorbed durability ds d : wp (update_summary durability ds) (λ _ d', but_summary d d') (λ _ _, False) d.
Proof.
  unfold update_summary. apply wp_bind, wp_try. eapply (wp_mono _ (λ _ d', but_summary d d') _ (λ _ d', but_summary d d')).
  - destruct durability; [apply sidecar_deltas|apply sidecar_deltas_reconstructible].
  - intros u d' Hd. by apply wp_ret.
  - intros e d' Hd. unfold invalidate_ref_summary_index. apply wp_ignore.
    eapply wp_mono; [apply sidecar_remove|..]; but_next.
Qed.

Lemma rebuild_absorbed d : wp rebuild_or_invalidate (λ _ d', but_summary d d') (λ _ _, False) d.
Proof.
  unfold rebuild_or_invalidate. apply wp_bind, wp_try. eapply wp_mono; [apply sidecar_rebuild|..].
  - intros ix d' Hd. by apply wp_ret.
  - intros e d' Hd. unfold invalidate_ref_summary_index. apply wp_ignore.
    eapply wp_mono; [apply sidecar_remove|..]; but_next.
Qed.
End sidecars.

(** ** The refs of a set of files *)

Inductive ref_key := KThread (name : list Z) | KMarker (name : list Z) | KRemote (remote name : list Z).

#[global] Instance ref_key_eq_dec : EqDecision ref_key.
Proof. solve_decision. Defined.

Definition key_path (k : ref_key) : rpath :=
  match k with KThread n => PThread n | KMarker n => PMarker n | KRemote r n => PRemote r n end.

Lemma key_path_inj k k' : key_path k = key_path k' → k = k'.
Proof. destruct k, k'; cbn; congruence. Qed.

Definition packed_value (p : PackedRefsModel) (k : ref_key) : option (list Z) :=
  match k with KThread n => get_thread p n | KMarker n => get_marker p n | KRemote _ _ => None end.

Section refs.
Context `{Base32Laws} `{RefSyntaxLaws}.

Definition packed_of (fs : gmap rpath (list Z)) : PackedRefsModel :=
  match fs !! PPacked with Some c => packed_parse c | None => packed_new end.

(** The value of a ref: its loose file, else its packed entry. *)
Definition ref_value (fs : gmap rpath (list Z)) (k : ref_key) : option (list Z) :=
  match fs !! key_path k with
  | Some c => parse_state_id_text c
  | None => packed_value (packed_of fs) k
  end.

Definition head_value (fs : gmap rpath (list Z)) (c : Z) : Head :=
  match fs !! PHead c with Some t => default (Attached MAIN) (head_parse t) | None => Attached MAIN end.

Definition key_ok (k : ref_key) : Prop :=
  match k with
  | KThread n => thread_name n | KMarker n => marker_name n | KRemote r n => remote_name r ∧ thread_name n
  end.

Definition packed_names (p : PackedRefsModel) : Prop :=
  ∀ (k : bool) n i, table k p !! n = Some i → (if k then thread_name n else marker_name n) ∧ id32 i.

(** Files as the code writes them. *)
Record clean (fs : gmap rpath (list Z)) : Prop := {
  cl_ref : ∀ k c, fs !! key_path k = Some c → key_ok k ∧ ∃ i, id32 i ∧ c = format_state_id_text i;
  cl_packed : ∀ c, fs !! PPacked = Some c → is_utf8 c = true ∧ packed_names (packed_parse c);
  cl_head : ∀ co c, fs !! PHead co = Some c → is_utf8 c = true ∧ ∃ h, head_ok h ∧ c = head_to_text h;
  cl_undo : ∀ co c, fs !! PUndo co = Some c → ∃ i, id32 i ∧ c = format_state_id_text i;
}.

Lemma read_file_ok p d c : files d !! p = Some c → is_utf8 c = true → read_optional_string p d = (Ok (Some c), d).
Proof. intros E U. unfold read_optional_string. by rewrite E, U. Qed.
Lemma read_file_none p d : files d !! p = None → read_optional_string p d = (Ok None, d).
Proof. intros E. unfold read_optional_string. by rewrite E. Qed.

Lemma run_bind {A B} (m : io A) (f : A → io B) d d' a : m d = (Ok a, d') → (m ≫= f) d = f a d'.
Proof. intros E. unfold mbind, io_bind. by rewrite E. Qed.

Lemma load_packed_clean d : clean (files d) → load_packed_refs d = (Ok (packed_of (files d)), d).
Proof.
  intros Hc. unfold load_packed_refs, packed_of. destruct (files d !! PPacked) as [c|] eqn:E.
  - destruct (cl_packed _ Hc _ E) as [U _]. by rewrite (run_bind _ _ _ _ _ (read_file_ok _ _ _ E U)).
  - by rewrite (run_bind _ _ _ _ _ (read_file_none _ _ E)).
Qed.

Lemma key_text fs k c : clean fs → fs !! key_path k = Some c →
  is_utf8 c = true ∧ ∃ i, id32 i ∧ c = format_state_id_text i ∧ parse_state_id_text c = Some i.
Proof.
  intros Hc E. destruct (cl_ref _ Hc _ _ E) as (_ & i & Hi & ->). split; [by apply format_utf8|].
  exists i. split; [done|]. split; [done|]. by apply state_text_roundtrip.
Qed.

Lemma packed_names_of fs : clean fs → packed_names (packed_of fs).
Proof.
  intros Hc. unfold packed_of. destruct (fs !! PPacked) as [c|] eqn:E; [by apply (cl_packed _ Hc)|].
  intros [] n i Hi; cbn in Hi; by rewrite lookup_empty in Hi.
Qed.

Lemma packed_value_id p k i : packed_names p → packed_value p k = Some i → id32 i.
Proof.
  intros Hp. destruct k as [n|n|r n]; cbn; [|by intros [_ ?]%(Hp false)|done]. by intros [_ ?]%(Hp true).
Qed.

Lemma ref_value_id fs k i : clean fs → ref_value fs k = Some i → id32 i.
Proof.
  intros Hc. unfold ref_value. destruct (fs !! key_path k) as [c|] eqn:E.
  - destruct (key_text _ _ _ Hc E) as (_ & j & Hj & _ & ->). by intros [= <-].
  - apply packed_value_id, packed_names_of, Hc.
Qed.

(** The path of a key, and the raw read of a key, as the code computes them *)
Definition path_of (k : ref_key) : io rpath :=
  match k with KThread n => thread_path n | KMarker n => marker_path n | KRemote r n => remote_thread_path r n end.

Lemma path_of_ok k d : key_ok k → path_of k d = (Ok (key_path k), d).
Proof.
  destruct k as [n|n|r n]; cbn; [apply thread_path_ok|apply marker_path_ok|]. intros [Hr Hn]. by apply remote_path_ok.
Qed.

Lemma read_key d k : clean (files d) →
  read_state_id_at (key_path k) d = (Ok (match files d !! key_path k with Some c => parse_state_id_text c | None => None end), d).
Proof.
  intros Hc. unfold read_state_id_at. destruct (files d !! key_path k) as [c|] eqn:E.
  - destruct (key_text _ _ _ Hc E) as (U & i & Hi & -> & Ep). rewrite (run_bind _ _ _ _ _ (read_file_ok _ _ _ E U)).
    by rewrite Ep.
  - by rewrite (run_bind _ _ _ _ _ (read_file_none _ _ E)).
Qed.

Definition raw_get (k : ref_key) : io (option (list Z)) :=
  match k with
  | KThread n => raw_get_thread n | KMarker n => raw_get_marker n | KRemote r n => raw_get_remote_thread r n
  end.

Lemma raw_get_ok d k : clean (files d) → key_ok k → raw_get k d = (Ok (ref_value (files d) k), d).
Proof.
  intros Hc Hk. unfold ref_value. destruct k as [n|n|r n]; cbn [raw_get];
    [unfold raw_get_thread|unfold raw_get_marker|unfold raw_get_remote_thread].
  - rewrite (run_bind _ _ _ _ _ (path_of_ok (KThread n) d Hk)), (run_bind _ _ _ _ _ (read_key d (KThread n) Hc)).
    destruct (files d !! key_path (KThread n)) as [c|] eqn:E.
    + destruct (key_text _ _ _ Hc E) as (_ & i & _ & _ & ->). done.
    + by rewrite (run_bind _ _ _ _ _ (load_packed_clean d Hc)).
  - rewrite (run_bind _ _ _ _ _ (path_of_ok (KMarker n) d Hk)), (run_bind _ _ _ _ _ (read_key d (KMarker n) Hc)).
    destruct (files d !! key_path (KMarker n)) as [c|] eqn:E.
    + destruct (key_text _ _ _ Hc E) as (_ & i & _ & _ & ->). done.
    + by rewrite (run_bind _ _ _ _ _ (load_packed_clean d Hc)).
  - rewrite (run_bind _ _ _ _ _ (path_of_ok (KRemote r n) d Hk)), (read_key d (KRemote r n) Hc).
    by destruct (files d !! key_path (KRemote r n)).
Qed.

Lemma head_utf8_value fs co c : clean fs → fs !! PHead co = Some c →
  is_utf8 c = true ∧ ∃ h, head_ok h ∧ c = head_to_text h ∧ head_parse c = Some h.
Proof.
  intros Hc E. destruct (cl_head _ Hc _ _ E) as (U & h & Hh & ->). split; [done|]. exists h. split; [done|]. split; [done|].
  destruct (head_body h Hh) as (s & -> & Hp). apply Hp. by right; left.
Qed.

Lemma read_head_ok d co : clean (files d) →
  read_head_state co d = (Ok {| hs_head := head_value (files d) co; hs_exists := is_some (files d !! PHead co);
                                hs_raw := files d !! PHead co |}, d).
Proof.
  intros Hc. unfold read_head_state, head_value. destruct (files d !! PHead co) as [c|] eqn:E.
  - destruct (head_utf8_value _ _ _ Hc E) as (U & h & _ & _ & Ep). rewrite (run_bind _ _ _ _ _ (read_file_ok _ _ _ E U)).
    by rewrite Ep.
  - by rewrite (run_bind _ _ _ _ _ (read_file_none _ _ E)).
Qed.

(** ** Changes and their plans

    What an update asks for once its expectation has been checked *)
Inductive change := CRef (k : ref_key) (new : option (list Z)) | CHead (h : Head).

Definition change_ok (c : change) : Prop :=
  match c with CRef k new => key_ok k ∧ (∀ i, new = Some i → id32 i) | CHead h => head_ok h end.

Definition change_of (u : RefUpdate) : change :=
  match u with
  | UThread n _ new => CRef (KThread n) new | UMarker n _ new => CRef (KMarker n) new
  | UHead _ h => CHead h | URemoteThread r n _ new => CRef (KRemote r n) new
  end.

Definition key_delta (k : ref_key) (new : option (list Z)) : SummaryDelta :=
  match k with
  | KThread n => thread_summary_delta n new | KMarker n => marker_summary_delta n new
  | KRemote r n => remote_summary_delta r n new
  end.
Definition key_remove (k : ref_key) : option PackedRemove :=
  match k with KThread n => Some (RemoveThread n) | KMarker n => Some (RemoveMarker n) | KRemote _ _ => None end.

Definition plan_for (fs : gmap rpath (list Z)) (co : Z) (c : change) : RefUpdatePlan :=
  match c with
  | CRef k new =>
      {| path := key_path k; new_content := format_state_id_text <$> new;
         previous_content := format_state_id_text <$> ref_value fs k; temp_path := None;
         packed_remove := if negb (is_some new) && is_some (ref_value fs k) then key_remove k else None;
         summary_delta := Some (key_delta k new) |}
  | CHead h => head_plan co h (fs !! PHead co)
  end.

(** The effect of a plan on the files *)
Definition apply_file (fs : gmap rpath (list Z)) (p : RefUpdatePlan) : gmap rpath (list Z) :=
  match new_content p with Some c => <[path p := c]> fs | None => delete (path p) fs end.
Definition restore_file (fs : gmap rpath (list Z)) (p : RefUpdatePlan) : gmap rpath (list Z) :=
  match previous_content p with Some c => <[path p := c]> fs | None => delete (path p) fs end.
Definition restore_packed (snapshot : option (list Z)) (fs : gmap rpath (list Z)) : gmap rpath (list Z) :=
  match snapshot with Some c => <[PPacked := c]> fs | None => delete PPacked fs end.

(** The last plan on a path *)
Definition last_on (q : rpath) (ps : list RefUpdatePlan) : option RefUpdatePlan := last (filter (λ p, path p = q) ps).

Lemma last_on_snoc q ps p : last_on q (ps ++ [p]) = if decide (path p = q) then Some p else last_on q ps.
Proof.
  unfold last_on. rewrite filter_app. cbn. destruct (decide (path p = q)); [by rewrite last_snoc|by rewrite app_nil_r].
Qed.

Lemma apply_files ps fs q :
  fold_left apply_file ps fs !! q = match last_on q ps with Some p => new_content p | None => fs !! q end.
Proof.
  induction ps as [|p ps IH] using rev_ind; [done|]. rewrite fold_left_app, last_on_snoc. cbn. unfold apply_file at 1.
  destruct (decide (path p = q)) as [<-|Hq].
  - destruct (new_content p); [by rewrite lookup_insert_eq|by rewrite lookup_delete_eq].
  - destruct (new_content p); [rewrite lookup_insert_ne by done|rewrite lookup_delete_ne by done]; apply IH.
Qed.

Lemma restore_files ps fs q :
  fold_left restore_file ps fs !! q = match last_on q ps with Some p => previous_content p | None => fs !! q end.
Proof.
  induction ps as [|p ps IH] using rev_ind; [done|]. rewrite fold_left_app, last_on_snoc. cbn. unfold restore_file at 1.
  destruct (decide (path p = q)) as [<-|Hq].
  - destruct (previous_content p); [by rewrite lookup_insert_eq|by rewrite lookup_delete_eq].
  - destruct (previous_content p); [rewrite lookup_insert_ne by done|rewrite lookup_delete_ne by done]; apply IH.
Qed.

Lemma last_on_Some q ps p : last_on q ps = Some p → p ∈ ps ∧ path p = q.
Proof.
  induction ps as [|r ps IH] using rev_ind; [done|]. rewrite last_on_snoc, elem_of_app. destruct (decide (path r = q)) as [Er|].
  - intros [= <-]. split; [right; by apply list_elem_of_singleton|done].
  - intros E. destruct (IH E). by split; [left|].
Qed.

Lemma last_on_None q ps : last_on q ps = None ↔ ∀ p, p ∈ ps → path p ≠ q.
Proof.
  induction ps as [|r ps IH] using rev_ind; [split; [by intros _ p ?%elem_of_nil|done]|].
  rewrite last_on_snoc. destruct (decide (path r = q)) as [Er|Er].
  - split; [done|]. intros Hn. exfalso. apply (Hn r); [apply elem_of_app; right; by apply list_elem_of_singleton|done].
  - rewrite IH. split; intros Hn p Hp; [|apply Hn, elem_of_app; by left].
    apply elem_of_app in Hp as [Hp| ->%list_elem_of_singleton]; [by apply Hn|done].
Qed.
End refs.
