(* ===== verification/RefPublish.v ===== *)
(** * Publishing a batch of refs

    [publish_ref_plans_with_durability] ([crates/refs/src/refs/refs_transactions.rs])
    over the disk of [RefDisk]: its phases one by one, then the guarantee of the
    whole: with at most one failing operation, all of a batch or none of it. *)

From S2P Require Import Prelude Text RefNames RefText RefDisk BTree RefSummary RefStore.
Import Text RefNames RefText RefDisk BTree RefSummary RefStore.

(** ** Allocation of the temporaries *)

Definition with_temp (o : option N) (p : RefUpdatePlan) : RefUpdatePlan :=
  {| path := path p; new_content := new_content p; previous_content := previous_content p; temp_path := o;
     packed_remove := packed_remove p; summary_delta := summary_delta p |}.

(** [p'] is [p] with a temporary when it has contents to write. *)
Definition allocated (p p' : RefUpdatePlan) : Prop :=
  ∃ o, p' = with_temp o p ∧ (is_Some o ↔ is_Some (new_content p)).

(** Nothing but directories, temporaries and the schedule changed. *)
Definition kept (d d' : Disk) : Prop := files d' = files d ∧ (nf d' ≤ nf d)%nat.

Lemma kept_refl d : kept d d.
Proof. done. Qed.
Lemma kept_trans d d' d'' : kept d d' → kept d' d'' → kept d d''.
Proof. intros [E N] [E' N']. split; [congruence|lia]. Qed.

Lemma kept_but d d' : kept d d' → remote_entries d' = remote_entries d → but_summary d d'.
Proof. intros [E N] Hr. repeat split; [|done|done]. intros q _. by rewrite E. Qed.

(** A failed operation that changed no file *)
Definition fault_kept (d d' : Disk) : Prop := files d' = files d ∧ (nf d' < nf d)%nat.

Lemma kept_fault d d' d'' : kept d d' → fault_kept d' d'' → fault_kept d d''.
Proof. intros [E N] [E' N']. split; [congruence|lia]. Qed.

(** An operation that changes no file, takes no temporary name and has no error of its own *)
Definition keeps {A} (m : io A) : Prop :=
  ∀ d, wp m (λ _ d', kept d d' ∧ next_temp d' = next_temp d ∧ temps d' = temps d) (λ _ d', fault_kept d d') d.

Lemma keeps_ret {A} (a : A) : keeps (mret a).
Proof. intros d. by apply wp_ret. Qed.

Lemma keeps_bind {A B} (m : io A) (f : A → io B) : keeps m → (∀ a, keeps (f a)) → keeps (m ≫= f).
Proof.
  intros Hm Hf d. apply wp_bind. eapply wp_mono; [apply Hm| |done]. intros a d' (K & E & T).
  eapply wp_mono; [apply Hf|..]; cbv beta.
  - intros b d'' (K' & E' & T'). split; [by eapply kept_trans|]. split; congruence.
  - intros e d'' K'. by eapply kept_fault.
Qed.

Lemma keeps_point : keeps io_point.
Proof. intros d. apply wp_atomic_nf; intros s Hs; repeat split; lia. Qed.

Lemma keeps_each {X} (body : X → io unit) xs : (∀ x, keeps (body x)) → keeps (io_each body xs).
Proof.
  intros Hb. induction xs as [|x xs IH]; cbn [io_each]; [apply keeps_ret|]. apply keeps_bind; [apply Hb|done].
Qed.

Lemma keeps_dir p : keeps (make_dir p).
Proof.
  destruct p; try apply keeps_point. intros d. apply wp_effect_nf; [done|..]; intros s Hs; (repeat split; cbn; try done);
    unfold nf in *; cbn in *; lia.
Qed.

Section publish.
Context `{Base32Laws} `{RefSyntaxLaws}.

(** The remote that a plan sets a thread of has a valid name. *)
Definition named (p : RefUpdatePlan) : Prop :=
  match summary_delta p with Some (SetRemoteThread remote _ _) => validate_ref_name remote = true | _ => True end.

Lemma keeps_names p : named p → keeps (write_plan_names p).
Proof.
  unfold named, write_plan_names. intros Hn. destruct (summary_delta p) as [[]|]; try apply keeps_ret; try apply keeps_point.
  apply keeps_bind; [apply keeps_point|]. intros _. apply keeps_bind; [|intros _; apply keeps_point].
  unfold remote_dir, require_user_ref_name. rewrite Hn. apply keeps_ret.
Qed.

Lemma alloc_spec p d : named p → temp_path p = None → wp (alloc_plan p)
  (λ p' d', kept d d' ∧ temps d' = temps d ∧ allocated p p' ∧
    match temp_path p' with Some n => n = next_temp d ∧ next_temp d' = N.succ n | None => next_temp d' = next_temp d end)
  (λ _ d', fault_kept d d') d.
Proof.
  intros Hn Et. unfold alloc_plan. destruct (new_content p) as [c|] eqn:En.
  - apply wp_bind. eapply wp_mono; [by apply keeps_names| |done]. intros _ d1 (K1 & N1 & T1).
    apply wp_bind. eapply wp_mono; [apply keeps_dir|..]; cbv beta; [|intros e d2 K2; by eapply kept_fault].
    intros _ d2 (K2 & N2 & T2). apply wp_bind, wp_bind. eapply wp_mono; [apply keeps_dir|..]; cbv beta.
    + intros _ d3 (K3 & N3 & T3). cbn. split; [|split; [congruence|split]].
      * assert (kept d d3) as K by (eapply kept_trans; [exact K1|by eapply kept_trans]). exact K.
      * exists (Some (next_temp d3)). unfold with_temp. rewrite En. split; [done|]. split; by intros _.
      * split; [congruence|done].
    + intros e d3 K3. eapply kept_fault; [exact K1|by eapply kept_fault].
  - apply wp_ret. split; [done|]. split; [done|]. rewrite Et. split; [|done].
    exists None. split; [destruct p; cbn in *; by subst|]. rewrite En. by split; intros [].
Qed.

(** The allocated plans have temporaries of their own. *)
Lemma alloc_all ps d : Forall (λ p, named p ∧ temp_path p = None) ps → wp (io_map alloc_plan ps)
  (λ ps' d', kept d d' ∧ (next_temp d ≤ next_temp d')%N ∧ Forall2 allocated ps ps' ∧ NoDup (omap temp_path ps') ∧
    ∀ n, n ∈ omap temp_path ps' → (next_temp d ≤ n < next_temp d')%N)
  (λ _ d', fault_kept d d') d.
Proof.
  intros Hps. revert d. induction Hps as [|p ps [Hnp Hp] _ IH]; intros d; cbn [io_map].
  - apply wp_ret. split; [done|]. split; [done|]. split; [constructor|]. split; [constructor|]. by intros n ?%elem_of_nil.
  - apply wp_bind. eapply wp_mono; [by apply alloc_spec| |done]. intros p' d1 (K1 & _ & A1 & N1).
    apply wp_bind. eapply wp_mono; [apply IH|..]; cbv beta; [|intros e d2 K2; by eapply kept_fault].
    intros ps' d2 (K2 & L2 & A2 & D2 & B2). apply wp_ret. split; [by eapply kept_trans|].
    cbn [omap list_omap]. destruct (temp_path p') as [n|].
    + destruct N1 as [-> N1]. split; [lia|]. split; [by constructor|]. split.
      * apply NoDup_cons. split; [|done]. intros ?%B2. lia.
      * intros n [->|Hn%B2]%elem_of_cons; lia.
    + split; [lia|]. split; [by constructor|]. split; [done|]. intros n ?%B2. lia.
Qed.

(** ** Staging *)

(** Every plan's temporary holds its contents. *)
Definition staged (d : Disk) (ps : list RefUpdatePlan) : Prop :=
  ∀ p, p ∈ ps → match temp_path p with
                | Some n => ∃ c, new_content p = Some c ∧ temps d !! n = Some (path p, c)
                | None => new_content p = None
                end.

Definition temp_entry (t : N * rpath * list Z) : N * (rpath * list Z) := let '(n, p, c) := t in (n, (p, c)).

Lemma stage_each ts d : wp (io_each stage_one ts)
  (λ _ d', kept d d' ∧ temps d' = fold_left (λ m t, <[(temp_entry t).1 := (temp_entry t).2]> m) ts (temps d))
  (λ _ d', fault_kept d d') d.
Proof.
  revert d. induction ts as [|[[n p] c] ts IH]; intros d; cbn [io_each]; [by apply wp_ret|].
  apply wp_bind. cbn [stage_one]. apply wp_effect_nf; [done|..]; intros s Hs.
  - eapply wp_mono; [apply IH|..]; cbv beta.
    + intros _ d' [[E N] T]. unfold kept, nf in *. cbn in *. split; [split; [done|lia]|done].
    + intros e d' [E N]. unfold fault_kept, nf in *. cbn in *. split; [done|lia].
  - split; [done|lia].
  - unfold fault_kept, nf in *. cbn in *. split; [done|lia].
Qed.

Lemma fold_temps ts (m : gmap N (rpath * list Z)) n v : NoDup ((temp_entry <$> ts).*1) → (n, v) ∈ temp_entry <$> ts →
  fold_left (λ (m : gmap N (rpath * list Z)) t, <[(temp_entry t).1 := (temp_entry t).2]> m) ts m !! n = Some v.
Proof.
  induction ts as [|t ts IH] using rev_ind; [by intros _ ?%elem_of_nil|].
  rewrite fmap_app, fmap_app, NoDup_app, elem_of_app, fold_left_app. intros (ND & Hd & _) Hin. cbn in *.
  destruct Hin as [Hin|Hin%list_elem_of_singleton].
  - rewrite lookup_insert_ne; [by apply IH|]. intros E. apply (Hd n); [by apply (list_elem_of_fmap_2 fst _ (n, v))|].
    by apply list_elem_of_singleton.
  - rewrite <- Hin. cbn. by rewrite lookup_insert_eq.
Qed.

Lemma writes_temps ps : (∀ p, p ∈ ps → is_Some (temp_path p) ↔ is_Some (new_content p)) →
  (temp_entry <$> temp_writes ps).*1 = omap temp_path ps.
Proof.
  unfold temp_writes. induction ps as [|p ps IH]; intros Hp; [done|]. cbn.
  assert (is_Some (temp_path p) ↔ is_Some (new_content p)) as Hi by (apply Hp; by left).
  assert (IHs := IH (λ q Hq, Hp q (list_elem_of_further _ _ _ Hq))). destruct (temp_path p) as [n|].
  - destruct (proj1 Hi) as [c ->]; [by eexists|]. cbn. by f_equal.
  - done.
Qed.

Lemma stage_spec durability ps d : (∀ p, p ∈ ps → is_Some (temp_path p) ↔ is_Some (new_content p)) →
  NoDup (omap temp_path ps) →
  wp (stage_temps durability (temp_writes ps)) (λ _ d', kept d d' ∧ staged d' ps) (λ _ d', fault_kept d d') d.
Proof.
  intros Hp Hn. unfold stage_temps. apply wp_bind. eapply wp_mono; [apply stage_each| |done]. intros _ d1 [K1 T1].
  assert (staged d1 ps) as S1.
  { intros p Hin. destruct (temp_path p) as [n|] eqn:Et.
    - destruct (proj1 (Hp p Hin)) as [c Ec]; [by rewrite Et|]. exists c. split; [done|]. rewrite T1.
      apply fold_temps; [by rewrite writes_temps|]. apply list_elem_of_fmap. exists (n, path p, c). split; [done|].
      apply list_elem_of_omap. exists p. by rewrite Et, Ec.
    - destruct (new_content p) eqn:Ec; [|done]. destruct (proj2 (Hp p Hin)) as [? E]; [by rewrite Ec|]. by rewrite Et in E. }
  destruct durability; [|by apply wp_ret].
  eapply wp_mono; [apply keeps_each; intros; apply keeps_point|..]; cbv beta; [|intros e d2 K2; by eapply kept_fault].
  intros _ d2 (K2 & _ & T2). split; [by eapply kept_trans|]. unfold staged in *. by rewrite T2.
Qed.

(** ** Applying and rolling back *)

Lemma write_spec q c d : wp (write_string q c)
  (λ _ d', files d' = <[q := c]> (files d) ∧ temps d' = temps d ∧ (nf d' ≤ nf d)%nat)
  (λ _ d', (files d' = files d ∨ files d' = <[q := c]> (files d)) ∧ (nf d' < nf d)%nat) d.
Proof.
  unfold write_string. apply wp_effect_nf; [done|..]; intros s Hs; unfold nf in *; cbn in *.
  - split; [done|]. split; [done|lia].
  - split; [by left|lia].
  - split; [by right|lia].
Qed.

Lemma remove_spec q d : wp (b ← exists_file q; if b : bool then remove_file q else mret tt)
  (λ _ d', files d' = delete q (files d) ∧ temps d' = temps d ∧ (nf d' ≤ nf d)%nat)
  (λ _ d', files d' = files d ∧ (nf d' < nf d)%nat) d.
Proof.
  apply wp_bind. unfold wp at 1, exists_file. case_bool_decide as He.
  - unfold remove_file. apply wp_atomic_nf; intros s Hs; unfold nf in *; cbn in *; [|split; [done|lia]].
    split; [done|]. split; [done|lia].
  - apply wp_ret. split; [|by split]. symmetry. apply delete_id. by apply eq_None_not_Some.
Qed.

Lemma apply_spec p d : (match temp_path p with
    | Some n => ∃ c, new_content p = Some c ∧ temps d !! n = Some (path p, c) | None => new_content p = None end) →
  wp (apply_one p)
    (λ _ d', files d' = apply_file (files d) p ∧ (nf d' ≤ nf d)%nat ∧
      ∀ n, temp_path p ≠ Some n → temps d' !! n = temps d !! n)
    (λ _ d', files d' = files d ∧ (nf d' < nf d)%nat) d.
Proof.
  unfold apply_one, apply_file. destruct (temp_path p) as [n|].
  - intros (c & -> & Et). unfold wp, rename. rewrite Et.
    apply (wp_atomic_nf _ (λ (_ : unit) d', files d' = <[path p := c]> (files d) ∧ (nf d' ≤ nf d)%nat ∧
      ∀ m, Some n ≠ Some m → temps d' !! m = temps d !! m) (λ _ d', files d' = files d ∧ (nf d' < nf d)%nat));
      intros s Hs; unfold nf in *; cbn in *; [|split; [done|lia]].
    split; [done|]. split; [lia|]. intros m Hm. apply lookup_delete_ne. congruence.
  - intros ->. eapply wp_mono; [apply remove_spec| |done]. intros _ d' (E & T & N). split; [done|]. split; [done|].
    intros n _. by rewrite T.
Qed.

Lemma restore_spec p d : nf d = 0%nat →
  wp (rollback_one p) (λ _ d', files d' = restore_file (files d) p ∧ nf d' = 0%nat) (λ _ _, False) d.
Proof.
  intros Hd. unfold rollback_one, restore_file. destruct (previous_content p) as [c|].
  - eapply wp_mono; [apply write_spec|..]; cbv beta; [|intros e d' [_ ?]; lia]. intros _ d' (E & _ & N). split; [done|lia].
  - eapply wp_mono; [apply remove_spec|..]; cbv beta; [|intros e d' [_ ?]; lia]. intros _ d' (E & _ & N). split; [done|lia].
Qed.

Lemma rollback_spec ap snapshot d : nf d = 0%nat →
  wp (rollback_updates ap snapshot)
    (λ _ d', files d' = restore_packed snapshot (fold_left restore_file ap (files d))) (λ _ _, False) d.
Proof.
  intros Hd. unfold rollback_updates. apply wp_bind.
  assert (∀ d, nf d = 0%nat → wp (io_each rollback_one ap)
    (λ _ d', files d' = fold_left restore_file ap (files d) ∧ nf d' = 0%nat) (λ _ _, False) d) as He.
  { clear Hd d. induction ap as [|p ap IH]; intros d Hd; cbn [io_each]; [by apply wp_ret|]. apply wp_bind.
    eapply wp_mono; [by apply restore_spec| |done]. intros _ d1 [E1 N1]. cbn [fold_left]. rewrite <- E1. by apply IH. }
  eapply wp_mono; [by apply He| |done]. intros _ d1 [<- N1]. unfold restore_packed. destruct snapshot as [c|].
  - eapply wp_mono; [apply write_spec|..]; cbv beta; [|intros e d' [_ ?]; lia]. by intros _ d' (E & _ & N).
  - eapply wp_mono; [apply remove_spec|..]; cbv beta; [|intros e d' [_ ?]; lia]. by intros _ d' (E & _ & N).
Qed.

(** The files [fs'] are [fs], except that the plans [sub] put their previous contents. *)
Definition restored (sub : list RefUpdatePlan) (fs fs' : gmap rpath (list Z)) : Prop :=
  ∀ q, fs' !! q = match last_on q sub with Some p => previous_content p | None => fs !! q end.

Lemma roll_back_spec {A} ap err d fs : nf d = 0%nat → (∀ p, p ∈ ap → path p ≠ PPacked) →
  (∀ q, q ≠ PPacked → last_on q ap = None → files d !! q = fs !! q) →
  wp (roll_back (A:=A) ap (fs !! PPacked) err) (λ _ _, False) (λ _ d', restored ap fs (files d')) d.
Proof.
  intros Hd Hp Hf. unfold roll_back. apply wp_bind, wp_try. eapply wp_mono; [by apply rollback_spec| |done].
  intros u d' E; cbv beta in E. clear u. apply wp_fail. intros q. rewrite E. unfold restore_packed. destruct (decide (q = PPacked)) as [->|Hq].
  - rewrite (proj2 (last_on_None PPacked ap) Hp). destruct (fs !! PPacked); [by rewrite lookup_insert_eq|by rewrite lookup_delete_eq].
  - assert (∀ m, m = fold_left restore_file ap (files d) !! q → m = match last_on q ap with Some p => previous_content p | None => fs !! q end) as Eq.
    { intros m ->. rewrite restore_files. destruct (last_on q ap) eqn:El; [done|]. by apply Hf. }
    apply Eq. destruct (fs !! PPacked); [by rewrite lookup_insert_ne|by rewrite lookup_delete_ne].
Qed.

Lemma last_on_reverse q ps : last_on q ps = None → last_on q (reverse ps) = None.
Proof. rewrite !last_on_None. intros Hn p. rewrite elem_of_reverse. apply Hn. Qed.

Lemma apply_loop_spec ps ap d fs : (nf d ≤ 1)%nat → staged d ps → NoDup (omap temp_path ps) →
  (∀ p, p ∈ ap ++ ps → path p ≠ PPacked) → files d = fold_left apply_file (reverse ap) fs →
  wp (apply_loop ps ap (fs !! PPacked))
    (λ _ d', files d' = fold_left apply_file (reverse ap ++ ps) fs ∧ (nf d' ≤ nf d)%nat)
    (λ _ d', (∃ sub, sub ⊆ ap ++ ps ∧ restored sub fs (files d')) ∧ (0 < nf d)%nat) d.
Proof.
  revert ap d. induction ps as [|p ps IH]; intros ap d Hd Hs Hn Hp Hf; cbn [apply_loop].
  { apply wp_ret. by rewrite app_nil_r. }
  apply wp_bind, wp_try. eapply wp_mono; [apply apply_spec, Hs; by left|..]; cbv beta.
  - intros _ d1 (E1 & N1 & T1). eapply wp_mono; [apply (IH (p :: ap) d1)|..]; cbv beta.
    + lia.
    + intros q Hq. assert (Hq' := Hs q (list_elem_of_further _ _ _ Hq)). destruct (temp_path q) as [n|] eqn:Eq; [|done].
      rewrite T1; [done|]. intros En. cbn in Hn. rewrite En in Hn. apply NoDup_cons in Hn as [Hn _]. apply Hn.
      apply list_elem_of_omap. by exists q.
    + cbn in Hn. destruct (temp_path p); [by apply NoDup_cons in Hn as [_ ?]|done].
    + intros q Hq. apply Hp. apply elem_of_app. apply elem_of_app in Hq as [[->|?]%elem_of_cons|?]; [right; by left|by left|right; by right].
    + by rewrite reverse_cons, fold_left_app, <- Hf.
    + intros _ d2 [E2 N2]. rewrite reverse_cons, <- app_assoc in E2. split; [done|lia].
    + intros e d2 [(sub & Hsub & Hr) N2]. split; [|lia]. exists sub. split; [|done]. intros q Hq%Hsub. apply elem_of_app.
      apply elem_of_app in Hq as [[->|?]%elem_of_cons|?]; [right; by left|by left|right; by right].
  - intros e d1 [E1 N1]. eapply wp_mono; [apply (roll_back_spec ap e d1 fs)|done|].
    + lia.
    + intros q Hq. apply Hp, elem_of_app. by left.
    + intros q _ Hq. rewrite E1, Hf, apply_files. by rewrite last_on_reverse.
    + intros e' d2 Hr. split; [|lia]. exists ap. split; [|done]. intros q Hq. apply elem_of_app. by left.
Qed.

(** ** The packed file *)

Definition packed_after (ps : list RefUpdatePlan) (fs : gmap rpath (list Z)) : gmap rpath (list Z) :=
  match omap packed_remove ps, fs !! PPacked with
  | [], _ | _, None => fs
  | removals, Some c => <[PPacked := packed_to_text (fold_left remove_packed removals (packed_parse c))]> fs
  end.

Lemma packed_spec ps d : (∀ c, files d !! PPacked = Some c → is_utf8 c = true) →
  wp (apply_packed_removals ps)
    (λ _ d', files d' = packed_after ps (files d) ∧ (nf d' ≤ nf d)%nat)
    (λ _ d', (∀ q, q ≠ PPacked → files d' !! q = files d !! q) ∧ (nf d' < nf d)%nat) d.
Proof.
  intros Hu. unfold apply_packed_removals, packed_after. destruct (omap packed_remove ps) as [|r rs]; [by apply wp_ret|].
  apply wp_bind. unfold wp at 1, exists_file. destruct (files d !! PPacked) as [c|] eqn:E.
  - rewrite bool_decide_eq_true_2 by by eexists. unfold load_packed_refs. apply wp_bind, wp_bind.
    unfold wp at 1. rewrite (read_file_ok _ _ _ E (Hu _ eq_refl)). apply wp_ret. unfold save_packed_refs. apply wp_bind.
    unfold io_point. apply wp_atomic_nf; intros s Hs; [|split; [done|lia]].
    eapply wp_mono; [apply write_spec|..]; cbv beta; unfold nf in *; cbn in *.
    + intros _ d' (E' & _ & N'). split; [done|lia].
    + intros e d' [E' N']. split; [|lia]. intros q Hq. destruct E' as [-> | ->]; [done|]. by rewrite lookup_insert_ne.
  - rewrite bool_decide_eq_false_2 by by intros []. by apply wp_ret.
Qed.

(** ** The whole *)

Definition same_plan (p p' : RefUpdatePlan) : Prop := path p = path p' ∧ previous_content p = previous_content p'.

Lemma allocated_fold (f : gmap rpath (list Z) → RefUpdatePlan → gmap rpath (list Z)) ps ps' fs :
  (∀ fs o p, f fs (with_temp o p) = f fs p) → Forall2 allocated ps ps' → fold_left f ps' fs = fold_left f ps fs.
Proof.
  intros Hf HF. revert fs. induction HF as [|p p' ps ps' (o & -> & _) _ IH]; intros fs; [done|]. cbn. by rewrite Hf.
Qed.

Lemma allocated_removals ps ps' : Forall2 allocated ps ps' → omap packed_remove ps' = omap packed_remove ps.
Proof. induction 1 as [|p p' ps ps' (o & -> & _) _ IH]; [done|]. cbn. by rewrite IH. Qed.

Lemma allocated_elem ps ps' p' : Forall2 allocated ps ps' → p' ∈ ps' → ∃ p, p ∈ ps ∧ allocated p p'.
Proof.
  intros HF [i Hi]%list_elem_of_lookup. destruct (Forall2_lookup_r _ _ _ _ _ HF Hi) as (p & Hp & Ha).
  exists p. split; [|done]. by eapply list_elem_of_lookup_2.
Qed.

Lemma publish_spec durability ps d : clean (files d) → (nf d ≤ 1)%nat → Forall (λ p, named p ∧ temp_path p = None) ps →
  (∀ p, p ∈ ps → path p ≠ PPacked) →
  wp (publish_ref_plans_with_durability durability ps)
    (λ _ d', (∀ q, q ≠ PSummary → files d' !! q = packed_after ps (fold_left apply_file ps (files d)) !! q) ∧
      (nf d' ≤ nf d)%nat)
    (λ _ d', ((∃ sub, (∀ p, p ∈ sub → ∃ p0, p0 ∈ ps ∧ same_plan p p0) ∧ restored sub (files d) (files d')) ∨
      durability = Durable ∧ files d' = fold_left apply_file ps (files d)) ∧ (0 < nf d)%nat) d.
Proof.
  intros Hc Hd Ht Hp. set (fs := files d). unfold publish_ref_plans_with_durability.
  assert (∀ d', files d' = fs → ∃ sub, (∀ p, p ∈ sub → ∃ p0, p0 ∈ ps ∧ same_plan p p0) ∧ restored sub fs (files d')) as Hsame.
  { intros d' ->. exists []. split; [by intros p ?%elem_of_nil|done]. }
  apply wp_bind. eapply wp_mono; [by apply alloc_all| |intros e d1 [E1 L1]; split; [left; by apply Hsame|lia]]. cbv beta.
  intros ps' d1 ([E1 N1] & _ & A1 & D1 & _).
  assert (∀ p, p ∈ ps' → is_Some (temp_path p) ↔ is_Some (new_content p)) as Htn.
  { intros p Hin. destruct (allocated_elem _ _ _ A1 Hin) as (p0 & _ & o & -> & Ho). exact Ho. }
  assert (∀ p, p ∈ ps' → ∃ p0, p0 ∈ ps ∧ same_plan p p0) as Hpl.
  { intros p Hin. destruct (allocated_elem _ _ _ A1 Hin) as (p0 & H0p & o & -> & _). by exists p0. }
  assert (∀ p, p ∈ ps' → path p ≠ PPacked) as Hpp.
  { intros p Hin. destruct (Hpl p Hin) as (p0 & Hin0 & -> & _). by apply Hp. }
  apply wp_bind. eapply wp_mono; [by apply stage_spec| |intros e d2 [E2 L2]; split; [left; apply Hsame; by rewrite E2|lia]]. cbv beta.
  intros _ d2 ([E2 N2] & S2). assert (files d2 = fs) as F2 by by rewrite E2.
  apply wp_bind. eapply (wp_mono _ (λ o d', o = fs !! PPacked ∧ d' = d2) _ (λ _ d', False)).
  { apply wp_read; [intros o Ho _; by rewrite F2 in Ho|]. intros c Ho U. rewrite F2 in Ho. apply (cl_packed _ Hc) in Ho as [? _]. congruence. }
  2: done.
  intros o d3 [-> ->]. apply wp_bind. eapply wp_mono; [apply (apply_loop_spec ps' [] d2 fs); [lia|done|done|done|by rewrite F2]|..]; cbv beta.
  2:{ intros e d3 [(sub & Hsub & Hr) L3]. split; [|lia]. left. exists sub. split; [|done]. intros p Hin%Hsub. by apply Hpl. }
  intros _ d3 [F3 N3]. change (reverse [] ++ ps') with ps' in F3.
  apply wp_bind. eapply (wp_mono _ (λ _ d', kept d3 d') _ (λ _ d', durability = Durable ∧ fault_kept d3 d')).
  { destruct durability; [|by apply wp_ret]. clear F3.
    eapply wp_mono; [apply keeps_each; intros; apply keeps_point|..]; cbv beta; [by intros _ d4 []|by intros e d4 K4]. }
  2:{ intros e d4 [Hdur [E4 L4]]. split; [|lia]. right. split; [done|]. rewrite E4, F3. by apply allocated_fold. }
  intros _ d4 [E4 N4]. rewrite F3 in E4. apply wp_bind, wp_try. eapply wp_mono; [apply packed_spec|..]; cbv beta.
  - intros c. rewrite E4, apply_files, (proj2 (last_on_None PPacked ps') Hpp). intros Ec. by apply (cl_packed _ Hc).
  - intros u d5 [E5 N5]. clear u. eapply wp_mono; [apply summary_absorbed| |done]. intros u d6 (F6 & _ & N6). clear u.
    split; [|lia]. intros q Hq. rewrite F6, E5, E4 by done. unfold packed_after. rewrite (allocated_removals ps ps') by done.
    by rewrite (allocated_fold _ ps ps') by done.
  - intros e d5 [F5 N5]. eapply wp_mono; [apply (roll_back_spec (reverse ps') e d5 fs)|done|].
    + lia.
    + intros p. rewrite elem_of_reverse. apply Hpp.
    + intros q Hq Hl. rewrite F5, E4, apply_files by done.
      assert (last_on q ps' = None) as -> by (rewrite <- (reverse_involutive ps'); by apply last_on_reverse). done.
    + intros e' d6 Hr. split; [|lia]. left. exists (reverse ps'). split; [|done]. intros p. rewrite elem_of_reverse. apply Hpl.
Qed.

(** ** What a batch does to the refs *)

(** The value that a batch gives to a ref and to the HEAD of its checkout: that of
    the last change of it, or the old one *)
Definition spec_value (cs : list change) (k : ref_key) (old : option (list Z)) : option (list Z) :=
  fold_left (λ v c, match c with CRef k' new => if decide (k = k') then new else v | CHead _ => v end) cs old.
Definition spec_head (cs : list change) (old : Head) : Head :=
  fold_left (λ v c, match c with CHead h => h | CRef _ _ => v end) cs old.

(** The refs and HEADs of [fs'] are those of [fs] with the changes made. *)
Definition changed (cs : list change) (co : Z) (fs fs' : gmap rpath (list Z)) : Prop :=
  (∀ k, ref_value fs' k = spec_value cs k (ref_value fs k)) ∧
  ∀ co', head_value fs' co' = if decide (co' = co) then spec_head cs (head_value fs co) else head_value fs co'.

(** The same, but a ref that the changes delete shows its packed value. *)
Definition changed_but_packed (cs : list change) (co : Z) (fs fs' : gmap rpath (list Z)) : Prop :=
  (∀ k, ref_value fs' k = match spec_value cs k (ref_value fs k) with Some i => Some i | None => packed_value (packed_of fs) k end) ∧
  ∀ co', head_value fs' co' = if decide (co' = co) then spec_head cs (head_value fs co) else head_value fs co'.

Definition plans_for (fs : gmap rpath (list Z)) (co : Z) (cs : list change) : list RefUpdatePlan := plan_for fs co <$> cs.

Lemma plan_paths fs co c : path (plan_for fs co c) = match c with CRef k _ => key_path k | CHead _ => PHead co end.
Proof. by destruct c. Qed.

Lemma plans_no_packed fs co cs p : p ∈ plans_for fs co cs → path p ≠ PPacked.
Proof. intros ([k new|h] & -> & _)%list_elem_of_fmap; [by destruct k|done]. Qed.

Lemma plans_no_temp fs co cs : Forall change_ok cs → Forall (λ p, named p ∧ temp_path p = None) (plans_for fs co cs).
Proof.
  intros Hok. apply Forall_fmap. eapply Forall_impl; [exact Hok|]. intros [k new|h] Hc; [|done].
  split; [|done]. destruct Hc as [Hk _]. destruct k as [n|n|r n], new; try done. apply Hk.
Qed.

Lemma last_ref fs co cs k old :
  match last_on (key_path k) (plans_for fs co cs) with
  | Some p => ∃ new, CRef k new ∈ cs ∧ p = plan_for fs co (CRef k new) ∧ spec_value cs k old = new
  | None => spec_value cs k old = old ∧ ∀ new, CRef k new ∉ cs
  end.
Proof.
  unfold plans_for. induction cs as [|c cs IH] using rev_ind; [split; [done|]; by intros ? ?%elem_of_nil|].
  rewrite fmap_app. cbn [fmap list_fmap]. rewrite last_on_snoc, plan_paths. unfold spec_value. rewrite fold_left_app.
  cbn [fold_left]. fold (spec_value cs k old). assert (∀ new, CRef k new ∈ cs ++ [c] ↔ CRef k new ∈ cs ∨ CRef k new = c) as Hin.
  { intros new. by rewrite elem_of_app, list_elem_of_singleton. }
  assert (c ≠ CRef k (match c with CRef _ new => new | _ => None end) →
    match last_on (key_path k) (plan_for fs co <$> cs) with
    | Some p => ∃ new, CRef k new ∈ cs ++ [c] ∧ p = plan_for fs co (CRef k new) ∧ spec_value cs k old = new
    | None => spec_value cs k old = old ∧ ∀ new, CRef k new ∉ cs ++ [c]
    end) as Hkeep.
  { intros Hc. destruct (last_on _ _) as [p|].
    - destruct IH as (new & H1' & H2' & H3'). exists new. split; [by apply Hin; left|done].
    - destruct IH as [H1' H2']. split; [done|]. intros new [Hx|<-]%Hin; [by apply (H2' new)|done]. }
  destruct c as [k' new|h].
  - destruct (decide (key_path k' = key_path k)) as [E|E].
    + apply key_path_inj in E as ->. rewrite decide_True by done. exists new. split; [by apply Hin; right|done].
    + rewrite decide_False by (intros ->; done). apply Hkeep. intros Ec. apply E. congruence.
  - rewrite decide_False by by destruct k. by apply Hkeep.
Qed.

Lemma last_head fs co cs co' old :
  match last_on (PHead co') (plans_for fs co cs) with
  | Some p => co' = co ∧ ∃ h, CHead h ∈ cs ∧ p = plan_for fs co (CHead h) ∧ spec_head cs old = h
  | None => co' = co → spec_head cs old = old
  end.
Proof.
  unfold plans_for. induction cs as [|c cs IH] using rev_ind; [done|].
  rewrite fmap_app. cbn [fmap list_fmap]. rewrite last_on_snoc, plan_paths. unfold spec_head. rewrite fold_left_app.
  cbn [fold_left]. fold (spec_head cs old). destruct c as [k' new|h].
  - rewrite decide_False by by destruct k'. destruct (last_on _ _) as [p|]; [|done].
    destruct IH as (-> & h & H1' & H2' & H3'). split; [done|]. exists h. split; [apply elem_of_app; by left|done].
  - destruct (decide (PHead co = PHead co')) as [[= ->]|E].
    + split; [done|]. exists h. split; [apply elem_of_app; right; by apply list_elem_of_singleton|done].
    + destruct (last_on _ _) as [p|]; [by destruct IH as (-> & _)|]. intros ->. done.
Qed.

(** Refs depend on the files but for the sidecar. *)
Lemma ref_value_ext fs fs' : (∀ q, q ≠ PSummary → fs' !! q = fs !! q) → ∀ k, ref_value fs' k = ref_value fs k.
Proof. intros E k. unfold ref_value, packed_of. rewrite !E by (done || by destruct k). done. Qed.
Lemma head_value_ext fs fs' : (∀ q, q ≠ PSummary → fs' !! q = fs !! q) → ∀ co, head_value fs' co = head_value fs co.
Proof. intros E co. unfold head_value. by rewrite E. Qed.

Lemma packed_value_none fs k : clean fs → ref_value fs k = None → packed_value (packed_of fs) k = None.
Proof.
  intros Hc. unfold ref_value. destruct (fs !! key_path k) as [c|] eqn:E; [|done].
  destruct (key_text _ _ _ Hc E) as (_ & i & _ & _ & ->). done.
Qed.

Lemma parse_new new i : (∀ i, new = Some i → id32 i) → new = Some i → parse_state_id_text (format_state_id_text i) = Some i.
Proof. intros Hn E. by apply state_text_roundtrip, Hn. Qed.

(** A rolled-back batch changes no ref. *)
Lemma restored_unchanged co cs fs fs' sub : clean fs →
  (∀ p, p ∈ sub → ∃ p0, p0 ∈ plans_for fs co cs ∧ same_plan p p0) → restored sub fs fs' → changed [] co fs fs'.
Proof.
  intros Hc Hsub Hr. assert (packed_of fs' = packed_of fs) as Epk.
  { unfold packed_of. rewrite Hr. destruct (last_on PPacked sub) as [p|] eqn:E; [|done].
    apply last_on_Some in E as [Hin Hp]. destruct (Hsub p Hin) as (p0 & Hin0 & E0 & _). exfalso.
    apply (plans_no_packed fs co cs p0); [done|congruence]. }
  split; cbn [spec_value spec_head fold_left].
  - intros k. unfold ref_value at 1. rewrite Hr, Epk. destruct (last_on (key_path k) sub) as [p|] eqn:E; [|done].
    apply last_on_Some in E as [Hin Hp]. destruct (Hsub p Hin) as (p0 & ([k' new|h] & -> & _)%list_elem_of_fmap & E0 & ->).
    + cbn [plan_for path previous_content] in *. rewrite Hp in E0. apply key_path_inj in E0 as <-.
      destruct (ref_value fs k) as [i|] eqn:Ev; cbn [fmap option_fmap option_map].
      * by apply state_text_roundtrip, (ref_value_id fs k).
      * by apply packed_value_none.
    + cbn in E0. rewrite Hp in E0. by destruct k.
  - intros co'. assert (fs' !! PHead co' = fs !! PHead co') as E'.
    { rewrite Hr. destruct (last_on (PHead co') sub) as [p|] eqn:E; [|done].
      apply last_on_Some in E as [Hin Hp]. destruct (Hsub p Hin) as (p0 & ([k' new|h] & -> & _)%list_elem_of_fmap & E0 & ->).
      - cbn in E0. rewrite Hp in E0. by destruct k'.
      - cbn in E0 |- *. rewrite Hp in E0. by injection E0 as ->. }
    unfold head_value. rewrite E'. by destruct (decide (co' = co)) as [->|].
Qed.

(** The files of an applied batch, before and after the packed removals *)
Lemma applied_heads co cs fs fs' : Forall change_ok cs →
  (∀ co', fs' !! PHead co' = fold_left apply_file (plans_for fs co cs) fs !! PHead co') →
  ∀ co', head_value fs' co' = if decide (co' = co) then spec_head cs (head_value fs co) else head_value fs co'.
Proof.
  intros Hok Hf co'. unfold head_value at 1. rewrite Hf, apply_files. assert (Hl := last_head fs co cs co' (head_value fs co)).
  destruct (last_on _ _) as [p|].
  - destruct Hl as (-> & h & Hin & -> & ->). rewrite decide_True by done. cbn.
    rewrite Forall_forall in Hok. destruct (head_body h (Hok _ Hin)) as (s & -> & Hp).
    rewrite (Hp [10]) by (by right; left). done.
  - destruct (decide (co' = co)) as [->|]; [|done]. by rewrite Hl.
Qed.

Lemma applied_refs co cs fs fs' k : clean fs → Forall change_ok cs →
  fs' !! key_path k = fold_left apply_file (plans_for fs co cs) fs !! key_path k →
  ref_value fs' k = match spec_value cs k (ref_value fs k) with
                    | Some i => match fs' !! key_path k with Some _ => Some i | None => packed_value (packed_of fs') k end
                    | None => packed_value (packed_of fs') k
                    end ∧
  (fs' !! key_path k = None → spec_value cs k (ref_value fs k) = None ∨
    (∀ new, CRef k new ∉ cs) ∧ spec_value cs k (ref_value fs k) = packed_value (packed_of fs) k).
Proof.
  intros Hc Hok Hf. rewrite apply_files in Hf. assert (Hl := last_ref fs co cs k (ref_value fs k)).
  unfold ref_value at 1. destruct (last_on _ _) as [p|].
  - destruct Hl as (new & Hin & -> & ->). rewrite Hf. cbn. rewrite Forall_forall in Hok. destruct (Hok _ Hin) as [_ Hid].
    destruct new as [i|]; cbn; [|by split; [|left]]. split; [by apply state_text_roundtrip, Hid|done].
  - destruct Hl as [-> Hn]. rewrite Hf. unfold ref_value. destruct (fs !! key_path k) as [c|] eqn:E.
    + destruct (key_text _ _ _ Hc E) as (_ & i & _ & _ & ->). done.
    + split; [by destruct (packed_value (packed_of fs) k)|]. intros _. by right.
Qed.

Lemma applied_loose co cs fs : clean fs → Forall change_ok cs →
  changed_but_packed cs co fs (fold_left apply_file (plans_for fs co cs) fs).
Proof.
  intros Hc Hok. set (fs' := fold_left _ _ _). assert (packed_of fs' = packed_of fs) as Epk.
  { unfold packed_of, fs'. rewrite apply_files, (proj2 (last_on_None PPacked _)); [done|]. apply plans_no_packed. }
  split; [|by apply applied_heads]. intros k. destruct (applied_refs co cs fs fs' k Hc Hok) as [-> Hn]; [done|].
  rewrite Epk in *. destruct (spec_value cs k _) as [i|] eqn:Es; [|done]. destruct (fs' !! key_path k) eqn:Ef; [done|].
  destruct (Hn eq_refl) as [?|[_ ?]]; congruence.
Qed.

(** ** The packed removals of a batch *)

Definition removed (k : ref_key) (rs : list PackedRemove) : Prop := ∃ r, key_remove k = Some r ∧ r ∈ rs.

Lemma removals_value rs p k : packed_value (fold_left remove_packed rs p) k = packed_value p k ∧ ¬ removed k rs ∨
  packed_value (fold_left remove_packed rs p) k = None ∧ removed k rs.
Proof.
  revert p. induction rs as [|r rs IH]; intros p; [left; split; [done|]; by intros (r & _ & ?%elem_of_nil)|].
  assert (packed_value (remove_packed p r) k = packed_value p k ∧ key_remove k ≠ Some r ∨
    packed_value (remove_packed p r) k = None ∧ key_remove k = Some r) as Hr.
  { destruct k as [n|n|? n], r as [m|m]; cbn; unfold get_thread, get_marker; cbn; try by left.
    - destruct (decide (m = n)) as [->|]; [right; by rewrite lookup_delete_eq|left]. rewrite lookup_delete_ne by done. split; [done|congruence].
    - destruct (decide (m = n)) as [->|]; [right; by rewrite lookup_delete_eq|left]. rewrite lookup_delete_ne by done. split; [done|congruence]. }
  cbn [fold_left]. destruct (IH (remove_packed p r)) as [[E Hn]|[E Hn]], Hr as [[E' Hr]|[E' Hr]].
  - left. split; [congruence|]. intros (r' & Hk & [->|Hin]%elem_of_cons); [done|]. apply Hn. by exists r'.
  - right. split; [congruence|]. exists r. split; [done|by left].
  - right. split; [done|]. destruct Hn as (r' & ? & ?). exists r'. split; [done|by right].
  - right. split; [done|]. exists r. split; [done|by left].
Qed.

Lemma removals_names rs p : packed_names p → packed_names (fold_left remove_packed rs p).
Proof.
  revert p. induction rs as [|r rs IH]; intros p Hp; [done|]. cbn. apply IH. intros k n i. destruct r as [m|m], k; cbn.
  - intros [_ E]%lookup_delete_Some. by apply (Hp true).
  - apply (Hp false).
  - apply (Hp true).
  - intros [_ E]%lookup_delete_Some. by apply (Hp false).
Qed.

Lemma names_packed_ok p : packed_names p → packed_ok p.
Proof.
  intros Hp k n i Hi. destruct (Hp k n i Hi) as [Hn Hid]. split; [|done].
  destruct k; destruct Hn as (Hn & Hv & _); by apply visible_line, name_visible.
Qed.

Lemma packed_after_of ps fs : packed_names (packed_of fs) →
  packed_of (packed_after ps fs) = match fs !! PPacked with
                                   | Some _ => fold_left remove_packed (omap packed_remove ps) (packed_of fs)
                                   | None => packed_of fs
                                   end.
Proof.
  intros Hp. unfold packed_after. destruct (omap packed_remove ps) as [|r rs]; [by destruct (fs !! PPacked)|].
  destruct (fs !! PPacked) as [c|] eqn:E; [|done].
  assert (packed_of fs = packed_parse c) as Ep by (unfold packed_of; by rewrite E). rewrite Ep in *.
  unfold packed_of. rewrite lookup_insert_eq. apply packed_parse_text; [|done..]. by apply names_packed_ok, removals_names.
Qed.

Lemma batch_removals fs co cs k new : CRef k new ∈ cs → new = None → is_Some (ref_value fs k) →
  match k with KRemote _ _ => True | _ => removed k (omap packed_remove (plans_for fs co cs)) end.
Proof.
  intros Hin -> [i Hi]. assert (∀ r, key_remove k = Some r → removed k (omap packed_remove (plans_for fs co cs))) as Hr.
  { intros r Er. exists r. split; [done|]. apply list_elem_of_omap. exists (plan_for fs co (CRef k None)).
    split; [by apply list_elem_of_fmap_2|]. cbn. by rewrite Hi. }
  destruct k; [by eapply Hr|by eapply Hr|done].
Qed.

Lemma removal_change fs co cs k : removed k (omap packed_remove (plans_for fs co cs)) → ∃ new, CRef k new ∈ cs.
Proof.
  intros (r & Er & ([] & (c & -> & Hc)%list_elem_of_fmap & Ep)%list_elem_of_omap). destruct c as [k' new|h]; [|done].
  cbn in Ep. exists new. assert (k' = k) as ->; [|done].
  destruct (negb _ && _); [|done]. destruct k, k'; cbn in *; congruence.
Qed.

(** The packed value of a ref after the removals *)
Lemma packed_after_value fs co cs k : clean fs →
  let ps := plans_for fs co cs in let fs1 := fold_left apply_file ps fs in
  (packed_value (packed_of (packed_after ps fs1)) k = packed_value (packed_of fs) k ∧ ¬ removed k (omap packed_remove ps)) ∨
  packed_value (packed_of (packed_after ps fs1)) k = None ∧
    (removed k (omap packed_remove ps) ∨ packed_value (packed_of fs) k = None).
Proof.
  intros Hc ps fs1. assert (fs1 !! PPacked = fs !! PPacked) as E1.
  { unfold fs1. rewrite apply_files, (proj2 (last_on_None PPacked ps)); [done|]. apply plans_no_packed. }
  assert (packed_of fs1 = packed_of fs) as Ep by (unfold packed_of; by rewrite E1).
  rewrite packed_after_of by (rewrite Ep; by apply packed_names_of). rewrite E1, Ep.
  destruct (fs !! PPacked) as [c|] eqn:E.
  - destruct (removals_value (omap packed_remove ps) (packed_of fs) k) as [?|[? ?]]; [by left|right].
    split; [done|by left].
  - right. unfold packed_of. rewrite E. assert (packed_value packed_new k = None) as -> by (destruct k; [apply lookup_empty|apply lookup_empty|done]).
    split; [done|by right].
Qed.

Lemma applied_all co cs fs fs' : clean fs → Forall change_ok cs →
  (∀ q, q ≠ PSummary → fs' !! q = packed_after (plans_for fs co cs) (fold_left apply_file (plans_for fs co cs) fs) !! q) →
  changed cs co fs fs'.
Proof.
  intros Hc Hok Hf. set (ps := plans_for fs co cs) in *. set (fs1 := fold_left apply_file ps fs) in *.
  assert (∀ q, q ≠ PPacked → packed_after ps fs1 !! q = fs1 !! q) as Ea.
  { intros q Hq. unfold packed_after. destruct (omap _ _); [done|]. destruct (fs1 !! PPacked); [by rewrite lookup_insert_ne|done]. }
  split; [|apply applied_heads; [done|]; intros co'; rewrite Hf by done; by apply Ea].
  intros k. rewrite (ref_value_ext _ _ Hf). set (fs2 := packed_after ps fs1) in *.
  destruct (applied_refs co cs fs fs2 k Hc Hok) as [-> Hn]; [by apply Ea; destruct k|].
  assert (Hp := packed_after_value fs co cs k Hc). cbv zeta in Hp. fold ps fs1 fs2 in Hp.
  destruct (spec_value cs k (ref_value fs k)) as [i|] eqn:Es.
  - destruct (fs2 !! key_path k) eqn:Ef; [done|]. destruct (Hn eq_refl) as [?|[Hnew Ev]]; [done|].
    destruct Hp as [[-> _]|[_ [Hr|Hr]]]; [done| |congruence].
    apply removal_change in Hr as [new Hin]. by destruct (Hnew new).
  - destruct Hp as [[-> Hr]|[-> _]]; [|done]. destruct (ref_value fs k) as [i|] eqn:Ev; [|by apply packed_value_none].
    assert (Hl := last_ref fs co cs k (Some i)). destruct (last_on _ _) as [p|]; [|by destruct Hl; congruence].
    destruct Hl as (new & Hin & _ & En). rewrite Es in En.
    assert (Hb := batch_removals fs co cs k new Hin (eq_sym En) (mk_is_Some _ _ Ev)).
    destruct k; [by destruct Hr|by destruct Hr|done].
Qed.

(** ** The files of a batch stay well formed *)

Lemma clean_ext fs fs' : (∀ q, q ≠ PSummary → fs' !! q = fs !! q) → clean fs → clean fs'.
Proof.
  intros E [Hr Hp Hh Hu]. split.
  - intros k c. rewrite E by (by destruct k). apply Hr.
  - intros c. rewrite E by done. apply Hp.
  - intros co c. rewrite E by done. apply Hh.
  - intros co c. rewrite E by done. apply Hu.
Qed.

Lemma id_utf8 i : id32 i → is_utf8 (to_string_full i) = true.
Proof.
  intros Hi. apply ascii_is_utf8. destruct (id_text_chars i Hi) as [Hc _]. eapply Forall_impl; [exact Hc|]. unfold id_char. lia.
Qed.

Lemma head_text_utf8 h : head_ok h → is_utf8 (head_to_text h) = true.
Proof.
  destruct h as [t|i]; cbn [head_ok head_to_text]; [|apply format_utf8]. intros ([_ U] & _). by repeat apply is_utf8_app.
Qed.

Lemma packed_text_utf8 p : packed_names p → is_utf8 (packed_to_text p) = true.
Proof.
  intros Hp. unfold packed_to_text, packed_to_text_in. apply is_utf8_app; [|done]. apply join_utf8; [done|].
  rewrite sort_by_perm. apply Forall_cons. split; [done|].
  apply Forall_app; split; apply Forall_fmap, Forall_forall; intros [n i] Hin%elem_of_map_to_list; unfold compose, packed_line;
    [destruct (Hp true n i Hin) as (([_ U] & _) & Hi)|destruct (Hp false n i Hin) as (([_ U] & _) & Hi)];
    (apply is_utf8_app; [by apply id_utf8|by repeat apply is_utf8_app]).
Qed.

(** One well-formed file written, or one file removed *)
Definition good_file (p : rpath) (c : list Z) : Prop :=
  match p with
  | PPacked => is_utf8 c = true ∧ packed_names (packed_parse c)
  | PHead _ => is_utf8 c = true ∧ ∃ h, head_ok h ∧ c = head_to_text h
  | PUndo _ => ∃ i, id32 i ∧ c = format_state_id_text i
  | PThread n => key_ok (KThread n) ∧ ∃ i, id32 i ∧ c = format_state_id_text i
  | PMarker n => key_ok (KMarker n) ∧ ∃ i, id32 i ∧ c = format_state_id_text i
  | PRemote r n => key_ok (KRemote r n) ∧ ∃ i, id32 i ∧ c = format_state_id_text i
  | _ => True
  end.

Lemma clean_good fs : clean fs ↔ ∀ p c, fs !! p = Some c → good_file p c.
Proof.
  split.
  - intros [Hr Hp Hh Hu] p c E. destruct p as [co|co| | |n|n|r n|co| |co|]; try done; cbn [good_file].
    + by apply (Hh co).
    + by apply (Hu co).
    + by apply Hp.
    + by apply (Hr (KThread n)).
    + by apply (Hr (KMarker n)).
    + by apply (Hr (KRemote r n)).
  - intros Hg. split; [|intros c; apply (Hg PPacked)|intros co c; apply (Hg (PHead co))|intros co c; apply (Hg (PUndo co))].
    intros [n|n|r n] c E; by apply Hg in E.
Qed.

Lemma clean_put fs p c : clean fs → good_file p c → clean (<[p := c]> fs).
Proof.
  rewrite !clean_good. intros Hc Hg q c' [[-> ->]|[_ E]]%lookup_insert_Some; [done|by apply Hc].
Qed.
Lemma clean_drop fs p : clean fs → clean (delete p fs).
Proof. rewrite !clean_good. intros Hc q c [_ E]%lookup_delete_Some. by apply Hc. Qed.

Lemma plan_good fs co ch c : change_ok ch → new_content (plan_for fs co ch) = Some c → good_file (path (plan_for fs co ch)) c.
Proof.
  destruct ch as [k new|h]; cbn [change_ok plan_for new_content path head_plan].
  - intros [Hk Hi] E. destruct new as [i|]; [|done]. injection E as <-. specialize (Hi i eq_refl). destruct k; (split; [done|by exists i]).
  - intros Hh [= <-]. split; [by apply head_text_utf8|by exists h].
Qed.

Lemma plan_previous_good fs co ch c : clean fs → change_ok ch → previous_content (plan_for fs co ch) = Some c →
  good_file (path (plan_for fs co ch)) c.
Proof.
  intros Hc. destruct ch as [k new|h]; cbn [change_ok plan_for previous_content path head_plan].
  - intros [Hk _]. destruct (ref_value fs k) as [i|] eqn:E; [|done]. intros [= <-]. apply ref_value_id in E; [|done].
    destruct k; (split; [done|by exists i]).
  - intros _ E. by apply (cl_head _ Hc co).
Qed.

Lemma clean_restored co cs fs fs' sub : clean fs → Forall change_ok cs →
  (∀ p, p ∈ sub → ∃ p0, p0 ∈ plans_for fs co cs ∧ same_plan p p0) → restored sub fs fs' → clean fs'.
Proof.
  intros Hc Hok Hsub Hr. apply clean_good. intros q c. rewrite Hr. destruct (last_on q sub) as [p|] eqn:E; [|exact (proj1 (clean_good fs) Hc q c)].
  apply last_on_Some in E as [Hin <-]. destruct (Hsub p Hin) as (p0 & Hin0 & E0 & E1).
  apply list_elem_of_fmap in Hin0 as (ch & -> & Hch). rewrite E0, E1. apply (plan_previous_good fs co ch); [exact Hc|].
  rewrite Forall_forall in Hok. exact (Hok _ Hch).
Qed.

Lemma clean_applied co cs fs0 fs : clean fs → Forall change_ok cs → clean (fold_left apply_file (plans_for fs0 co cs) fs).
Proof.
  intros Hc Hok. revert fs Hc. induction Hok as [|ch cs Hch _ IH]; intros fs Hc; [done|]. apply IH. unfold apply_file.
  destruct (new_content _) as [c|] eqn:E; [|by apply clean_drop]. apply clean_put; [done|by apply plan_good].
Qed.

Lemma clean_packed ps fs : clean fs → clean (packed_after ps fs).
Proof.
  intros Hc. unfold packed_after. destruct (omap packed_remove ps) as [|r rs] eqn:Er; [by destruct (fs !! PPacked)|].
  destruct (fs !! PPacked) as [c|] eqn:E; [|done]. apply clean_put; [done|]. cbn [good_file].
  assert (packed_names (fold_left remove_packed (r :: rs) (packed_parse c))) as Hn by (by apply removals_names, (cl_packed _ Hc)).
  split; [by apply packed_text_utf8|]. set (pk := fold_left remove_packed (r :: rs) (packed_parse c)) in *.
  assert (packed_parse (packed_to_text pk) = pk) as ->; [|done]. apply packed_parse_text; [by apply names_packed_ok|done..].
Qed.

(** The files beside the refs: watermarks, witnesses and undo pointers *)
Definition side_file (q : rpath) : Prop :=
  match q with PUndo _ | PWatermarkLocal _ | PWatermarkShared | PWitnessLocal _ | PWitnessShared => True | _ => False end.
Definition side_kept (fs fs' : gmap rpath (list Z)) : Prop := ∀ q, side_file q → fs' !! q = fs !! q.

Lemma plans_side fs co cs q : side_file q → last_on q (plans_for fs co cs) = None.
Proof.
  intros Hq. apply last_on_None. intros p (c & -> & _)%list_elem_of_fmap. rewrite plan_paths.
  destruct c as [[]|]; intros <-; exact Hq.
Qed.

Lemma restored_side co cs fs fs' sub : (∀ p, p ∈ sub → ∃ p0, p0 ∈ plans_for fs co cs ∧ same_plan p p0) →
  restored sub fs fs' → side_kept fs fs'.
Proof.
  intros Hsub Hr q Hq. rewrite Hr. destruct (last_on q sub) as [p|] eqn:E; [|done].
  apply last_on_Some in E as [Hin <-]. destruct (Hsub p Hin) as (p0 & Hin0 & Ep & _).
  pose proof (proj1 (last_on_None _ _) (plans_side fs co cs _ Hq) p0 Hin0). congruence.
Qed.

Lemma applied_side co cs fs0 fs : side_kept fs (fold_left apply_file (plans_for fs0 co cs) fs).
Proof. intros q Hq. by rewrite apply_files, plans_side. Qed.

Lemma packed_side ps fs : side_kept fs (packed_after ps fs).
Proof.
  intros q Hq. unfold packed_after. destruct (omap packed_remove ps); [by destruct (fs !! PPacked)|].
  destruct (fs !! PPacked); [|done]. apply lookup_insert_ne. by intros <-.
Qed.

(** A publish, in all: what it does to the refs, to the files beside them and to their
    well-formedness, and what an error costs *)
Lemma publish_batch durability co cs d : clean (files d) → Forall change_ok cs → (nf d ≤ 1)%nat →
  wp (publish_ref_plans_with_durability durability (plans_for (files d) co cs))
    (λ _ d', changed cs co (files d) (files d') ∧ clean (files d') ∧ side_kept (files d) (files d') ∧ (nf d' ≤ nf d)%nat)
    (λ _ d', (changed [] co (files d) (files d') ∨
              durability = Durable ∧ changed_but_packed cs co (files d) (files d')) ∧
             clean (files d') ∧ side_kept (files d) (files d') ∧ (0 < nf d)%nat) d.
Proof.
  intros Hc Hok Hd. eapply wp_mono; [apply publish_spec; [done|done|by apply plans_no_temp|apply plans_no_packed]|..]; cbv beta.
  - intros _ d' [Hf N']. split; [by apply applied_all|]. split; [|split; [|done]].
    + apply (clean_ext _ _ Hf). apply clean_packed. by apply clean_applied.
    + intros q Hq. rewrite Hf by (by intros ->). rewrite packed_side by done. by apply applied_side.
  - intros e d' [[(sub & Hsub & Hr)|[Hdur ->]] L]; (split; [|split; [|split; [|done]]]).
    + left. by apply (restored_unchanged co cs _ _ sub).
    + by eapply clean_restored.
    + by eapply restored_side.
    + right. split; [done|by apply applied_loose].
    + by apply clean_applied.
    + apply applied_side.
Qed.

(** C8. A batch is atomic. When at most one operation of the file system fails
    during a publish, a publish that returns [Ok] has made every change of the batch
    and no other, to loose and packed refs, remote threads and HEAD; one that returns
    an error met a failing operation and has changed no ref, also when that operation had its
    effect, with one exception: the sync of a directory after the renames, of a durable
    publish, returns its error with every loose file in place and the packed entries
    of deleted refs still there. It never panics. *)
Theorem publish_all_or_nothing durability co cs d : clean (files d) → Forall change_ok cs → (nf d ≤ 1)%nat →
  wp (publish_ref_plans_with_durability durability (plans_for (files d) co cs))
    (λ _ d', changed cs co (files d) (files d'))
    (λ _ d', (0 < nf d)%nat ∧ (changed [] co (files d) (files d') ∨
             durability = Durable ∧ changed_but_packed cs co (files d) (files d'))) d.
Proof.
  intros Hc Hok Hd. eapply wp_mono; [by apply publish_batch|..]; cbv beta; [by intros _ d' (? & _)|].
  intros e d' (? & _ & _ & ?). by split.
Qed.
End publish.
