(* ===== verification/RefPack.v ===== *)
(** * Packing and updating refs

    [pack_refs] ([crates/refs/src/refs/refs_manager.rs]) never changes the value of a
    ref, wherever it is interrupted; [update_refs] ([refs_transactions.rs]) is a
    compare-and-swap of a whole batch; and the one case in which a failing
    [update_refs] leaves a batch half done. *)

From S2P Require Import Prelude Text RefNames RefText RefDisk BTree RefSummary RefStore RefPublish.
Import Text RefNames RefText RefDisk BTree RefSummary RefStore.

Section pack.
Context `{Base32Laws} `{RefSyntaxLaws}.

(** ** Listings *)

Lemma scan_total read names v d : (∀ n, n ∈ names → read n d = (Ok (v n), d)) →
  ∃ m : gmap (list Z) (list Z), scan read names d = (Ok m, d) ∧ ∀ n, m !! n = if decide (n ∈ names) then v n else None.
Proof.
  induction names as [|x names IH]; intros Hr; [by exists ∅|]. cbn [scan]. destruct IH as (m & Em & Hm).
  { intros n Hn. apply Hr. by right. }
  rewrite (run_bind _ _ _ _ _ (Hr x (list_elem_of_here _ _))), (run_bind _ _ _ _ _ Em). eexists. split; [done|].
  intros n. destruct (decide (n = x)) as [->|Hn].
  - rewrite decide_True by by left. destruct (v x) eqn:Ev; [by rewrite lookup_insert_eq|]. rewrite Hm. by case_decide.
  - assert (m !! n = if decide (n ∈ x :: names) then v n else None) as <-.
    { rewrite Hm. apply decide_ext. rewrite elem_of_cons. split; [by right|by intros [?|?]]. }
    destruct (v x); [by rewrite lookup_insert_ne|done].
Qed.

(** The names of one kind: threads ([true]) or markers *)
Definition key_of (k : bool) (n : list Z) : ref_key := if k then KThread n else KMarker n.
Definition names_path (k : bool) : list Z → io rpath := if k then thread_path else marker_path.
Definition loose_names (k : bool) : Disk → list (list Z) := if k then loose_thread_names else loose_marker_names.
Definition list_storage (k : bool) : io (list (list Z)) := if k then list_threads_from_storage else list_markers_from_storage.

Lemma names_path_ok k n d : key_ok (key_of k n) → names_path k n d = (Ok (key_path (key_of k n)), d).
Proof. destruct k; [apply thread_path_ok|apply marker_path_ok]. Qed.

Lemma loose_names_elem k d n : n ∈ loose_names k d ↔ is_Some (files d !! key_path (key_of k n)).
Proof. destruct k; [apply loose_threads_elem|apply loose_markers_elem]. Qed.

Lemma list_storage_alt k : list_storage k =
  (loose ← (d ← io_get; scan (λ n, p ← names_path k n; read_state_id_at p) (loose_names k d));
   packed ← load_packed_refs;
   mret (sort_names ((rows loose).*1 ++ filter (λ n, loose !! n = None) (map_to_list (table k packed)).*1))).
Proof. by destruct k. Qed.

(** A listing holds every name with a loose file, and only valid names. *)
Lemma list_storage_ok k d : clean (files d) → ∃ names, list_storage k d = (Ok names, d) ∧
  (∀ n, n ∈ names → key_ok (key_of k n)) ∧ ∀ n, is_Some (files d !! key_path (key_of k n)) → n ∈ names.
Proof.
  intros Hc. rewrite list_storage_alt.
  set (v n := match files d !! key_path (key_of k n) with Some c => parse_state_id_text c | None => None end).
  assert (∀ n, n ∈ loose_names k d → (p ← names_path k n; read_state_id_at p) d = (Ok (v n), d)) as Hr.
  { intros n [c Hn]%loose_names_elem. destruct (cl_ref _ Hc _ _ Hn) as [Hk _].
    rewrite (run_bind _ _ _ _ _ (names_path_ok k n d Hk)). by apply read_key. }
  destruct (scan_total (λ n, p ← names_path k n; read_state_id_at p) (loose_names k d) v d Hr) as (m & Em & Hm). unfold mbind at 1, io_bind at 1.
  rewrite (run_bind io_get _ d d d eq_refl), Em. rewrite (run_bind _ _ _ _ _ (load_packed_clean d Hc)).
  eexists. split; [done|]. assert (∀ n i, m !! n = Some i → is_Some (files d !! key_path (key_of k n))) as Hmn.
  { intros n i. rewrite Hm. case_decide as Hd; [|done]. intros _. by apply loose_names_elem. }
  split; intros n; rewrite sort_names_elem, elem_of_app.
  - intros [([n' i] & -> & Hin%rows_elem)%list_elem_of_fmap|[_ ([n' i] & -> & Hin%elem_of_map_to_list)%list_elem_of_fmap]%list_elem_of_filter].
    + destruct (Hmn _ _ Hin) as [c Hc']. apply (cl_ref _ Hc _ _ Hc').
    + destruct (packed_names_of _ Hc k _ _ Hin) as [Hn _]. by destruct k.
  - intros [c Hn]. left. apply list_elem_of_fmap. destruct (key_text _ _ _ Hc Hn) as (_ & i & _ & _ & Ep).
    exists (n, i). split; [done|]. apply rows_elem. rewrite Hm, decide_True by (apply loose_names_elem; by eexists).
    unfold v. by rewrite Hn.
Qed.

(** ** Packing *)

Definition pack_set (k : bool) : list Z → list Z → PackedRefsModel → PackedRefsModel := if k then set_thread else set_marker.

Lemma table_set k n n' i p :
  table (negb k) (pack_set k n i p) = table (negb k) p ∧
  table k (pack_set k n i p) !! n' = if decide (n = n') then Some i else table k p !! n'.
Proof.
  destruct k; (split; [done|]); cbn;
    (destruct (decide (n = n')) as [->|Hn]; [by rewrite lookup_insert_eq|by rewrite lookup_insert_ne]).
Qed.

(** The loose value of a name *)
Definition loose (fs : gmap rpath (list Z)) (k : bool) (n : list Z) : option (list Z) :=
  match fs !! key_path (key_of k n) with Some c => parse_state_id_text c | None => None end.

(** Packing copies the loose value of every listed name into its table. *)
Lemma pack_loop_ok k names p d : clean (files d) → (∀ n, n ∈ names → key_ok (key_of k n)) →
  ∃ p', pack_loop (names_path k) (pack_set k) names p d = (Ok p', d) ∧ table (negb k) p' = table (negb k) p ∧
    ∀ n, table k p' !! n = match (if decide (n ∈ names) then loose (files d) k n else None) with
                           | Some i => Some i
                           | None => table k p !! n
                           end.
Proof.
  intros Hc. revert p. induction names as [|x names IH]; intros p Hn; [by exists p|].
  cbn [pack_loop]. rewrite (run_bind _ _ _ _ _ (names_path_ok k x d (Hn x (list_elem_of_here _ _)))).
  rewrite (run_bind _ _ _ _ _ (read_key d (key_of k x) Hc)). fold (loose (files d) k x).
  destruct (IH (match loose (files d) k x with Some id => pack_set k x id p | None => p end)) as (p' & -> & Ho & Hp').
  { intros n Hin. apply Hn. by right. }
  exists p'. split; [done|]. clear IH. split.
  - rewrite Ho. destruct (loose (files d) k x); [apply table_set; exact x|done].
  - intros n. rewrite Hp'. clear Hp' Ho. assert (n ∈ x :: names ↔ n = x ∨ n ∈ names) as Hi by apply elem_of_cons.
    destruct (decide (n ∈ names)) as [Hm|Hm].
    + rewrite (decide_True (P:=n ∈ x :: names)) by by right. destruct (loose (files d) k n) eqn:El; [done|].
      destruct (loose (files d) k x) eqn:Ex; [|done]. rewrite (proj2 (table_set _ _ _ _ _)).
      rewrite decide_False; [done|congruence].
    + destruct (decide (n = x)) as [->|Hx].
      * rewrite (decide_True (P:=x ∈ x :: names)) by by left. destruct (loose (files d) k x); [|done].
        by rewrite (proj2 (table_set _ _ _ _ _)), decide_True.
      * rewrite (decide_False (P:=n ∈ x :: names)) by by intros [?|?]%Hi.
        destruct (loose (files d) k x); [|done]. by rewrite (proj2 (table_set _ _ _ _ _)), decide_False.
Qed.

(** What packing keeps: the refs of [fs] are those of [fs0]. *)
Definition same_refs (fs0 fs : gmap rpath (list Z)) : Prop :=
  (∀ k, ref_value fs k = ref_value fs0 k) ∧ (∀ co, head_value fs co = head_value fs0 co) ∧
  ∀ co, fs !! PUndo co = fs0 !! PUndo co.

(** The files while loose refs are removed: [P] is the table written. *)
Record packing (P : PackedRefsModel) (fs0 fs : gmap rpath (list Z)) : Prop := {
  pk_packed : packed_of fs = P;
  pk_loose : ∀ k, fs !! key_path k = fs0 !! key_path k ∨ fs !! key_path k = None ∧ ref_value fs0 k = packed_value P k;
  pk_rest : ∀ q, (∀ k, q ≠ key_path k) → q ≠ PPacked → fs !! q = fs0 !! q;
}.

Lemma packing_same P fs0 fs : (∀ k, fs0 !! key_path k = None → ref_value fs0 k = packed_value P k) → clean fs0 →
  packing P fs0 fs → same_refs fs0 fs.
Proof.
  intros HP Hc [Hp Hl Hr]. split; [|split].
  - intros k. unfold ref_value at 1. rewrite Hp. destruct (Hl k) as [E|[E Ev]]; rewrite E; [|done].
    destruct (fs0 !! key_path k) as [c|] eqn:E0; [|by rewrite HP]. unfold ref_value. by rewrite E0.
  - intros co. unfold head_value. by rewrite Hr by (done || by intros []).
  - intros co. by rewrite Hr by (done || by intros []).
Qed.

Lemma remove_loose_ok P fs0 k n d : packing P fs0 (files d) → key_ok (key_of k n) →
  ref_value fs0 (key_of k n) = packed_value P (key_of k n) →
  wp (remove_loose (names_path k) n)
    (λ _ d', packing P fs0 (files d') ∧ files d' !! key_path (key_of k n) = None ∧
       ∀ q, files d !! q = None → files d' !! q = None)
    (λ _ d', packing P fs0 (files d')) d.
Proof.
  intros Hp Hk Hv. unfold remove_loose. apply wp_bind. unfold wp at 1. rewrite names_path_ok by done.
  eapply wp_mono; [apply remove_spec|..]; cbv beta; [|intros e d' [-> _]; done].
  intros _ d' (-> & _ & _). destruct Hp as [Hp Hl Hr]. split; [|split; [by rewrite lookup_delete_eq|]].
  - split.
    + unfold packed_of. by rewrite lookup_delete_ne by by destruct k.
    + intros k'. destruct (decide (key_path (key_of k n) = key_path k')) as [E|E].
      * apply key_path_inj in E as <-. right. by rewrite lookup_delete_eq.
      * rewrite lookup_delete_ne by done. apply Hl.
    + intros q Hq Hq'. rewrite lookup_delete_ne by (intros E; by apply (Hq (key_of k n))). by apply Hr.
  - intros q Hq. destruct (decide (key_path (key_of k n) = q)) as [<-|E]; [by rewrite lookup_delete_eq|by rewrite lookup_delete_ne].
Qed.

Lemma remove_all_ok P fs0 k names d : packing P fs0 (files d) → (∀ n, n ∈ names → key_ok (key_of k n)) →
  (∀ n, n ∈ names → ref_value fs0 (key_of k n) = packed_value P (key_of k n)) →
  wp (io_each (remove_loose (names_path k)) names)
    (λ _ d', packing P fs0 (files d') ∧ (∀ n, n ∈ names → files d' !! key_path (key_of k n) = None) ∧
       ∀ q, files d !! q = None → files d' !! q = None)
    (λ _ d', packing P fs0 (files d')) d.
Proof.
  revert d. induction names as [|x names IH]; intros d Hp Hk Hv; cbn [io_each].
  - apply wp_ret. split; [done|]. split; [by intros n ?%elem_of_nil|done].
  - apply wp_bind. eapply wp_mono; [apply (remove_loose_ok P fs0 k x d); [done|apply Hk; by left|apply Hv; by left]| |done].
    cbv beta. intros _ d1 (P1 & E1 & M1).
    eapply wp_mono; [apply (IH d1); [done|intros n Hn; apply Hk; by right|intros n Hn; apply Hv; by right]| |done].
    cbv beta. intros _ d2 (P2 & E2 & M2). split; [done|]. split.
    + intros n [->|Hn]%elem_of_cons; [by apply M2|by apply E2].
    + intros q Hq. by apply M2, M1.
Qed.

(** The table that packing writes holds every thread and marker. *)
Definition full (fs : gmap rpath (list Z)) (P : PackedRefsModel) : Prop := ∀ k n, table k P !! n = ref_value fs (key_of k n).

Lemma full_value fs P k : full fs P → (∀ r n, k = KRemote r n → fs !! key_path k = None) → ref_value fs k = packed_value P k.
Proof.
  intros Hf Hr. destruct k as [n|n|r n].
  - symmetry. apply (Hf true).
  - symmetry. apply (Hf false).
  - unfold ref_value. by rewrite (Hr r n).
Qed.

Lemma full_names fs P : clean fs → full fs P → packed_names P.
Proof.
  intros Hc Hf k n i Hi. rewrite Hf in Hi. split; [|by apply (ref_value_id fs (key_of k n))].
  unfold ref_value in Hi. destruct (fs !! key_path (key_of k n)) as [c|] eqn:E.
  - destruct (cl_ref _ Hc _ _ E) as [Hk _]. by destruct k.
  - assert (table k (packed_of fs) !! n = Some i) as Hi' by by destruct k. by destruct (packed_names_of _ Hc k n i Hi').
Qed.

Lemma ref_value_loose fs k n :
  ref_value fs (key_of k n) = match loose fs k n with Some i => Some i | None => table k (packed_of fs) !! n end ∨
  loose fs k n = None ∧ is_Some (fs !! key_path (key_of k n)).
Proof.
  unfold ref_value, loose. destruct (fs !! key_path (key_of k n)) as [c|]; [|left; by destruct k].
  destruct (parse_state_id_text c) eqn:E; [by left|right]. split; [done|by eexists].
Qed.

Lemma collect_full d : clean (files d) →
  ∃ ts p1 ms P, list_threads_from_storage d = (Ok ts, d) ∧
    pack_loop thread_path set_thread ts (packed_of (files d)) d = (Ok p1, d) ∧
    list_markers_from_storage d = (Ok ms, d) ∧ pack_loop marker_path set_marker ms p1 d = (Ok P, d) ∧
    full (files d) P ∧ ∀ k n, (n ∈ (if k : bool then ts else ms) → key_ok (key_of k n)) ∧
      (is_Some (files d !! key_path (key_of k n)) → n ∈ (if k then ts else ms)).
Proof.
  intros Hc. destruct (list_storage_ok true d Hc) as (ts & Et & Kt & Lt). destruct (list_storage_ok false d Hc) as (ms & Em & Km & Lm).
  destruct (pack_loop_ok true ts (packed_of (files d)) d Hc Kt) as (p1 & E1 & O1 & V1).
  destruct (pack_loop_ok false ms p1 d Hc Km) as (P & E2 & O2 & V2).
  exists ts, p1, ms, P. do 4 (split; [done|]). split.
  - intros k n. assert (∀ names : list (list Z), (is_Some (files d !! key_path (key_of k n)) → n ∈ names) →
      table k P !! n = match (if decide (n ∈ names) then loose (files d) k n else None) with
                       | Some i => Some i | None => table k (packed_of (files d)) !! n end →
      table k P !! n = ref_value (files d) (key_of k n)) as Hk.
    { intros names Hl ->. destruct (ref_value_loose (files d) k n) as [->|[El Hs]].
      - case_decide as Hd; [done|]. destruct (loose (files d) k n) eqn:El; [|done]. exfalso. apply Hd, Hl.
        unfold loose in El. destruct (files d !! _); [by eexists|done].
      - exfalso. destruct Hs as [c Hs]. destruct (key_text _ _ _ Hc Hs) as (_ & i & _ & _ & Ep). unfold loose in El. rewrite Hs in El. congruence. }
    destruct k.
    + apply (Hk ts); [apply Lt|]. cbn in O2 |- *. rewrite O2. apply V1.
    + apply (Hk ms); [apply Lm|]. cbn in O1. rewrite V2. cbn. by rewrite O1.
  - intros [] n; split; [apply Kt|apply Lt|apply Km|apply Lm].
Qed.

Lemma same_refs_but fs0 fs fs' : same_refs fs0 fs → (∀ q, q ≠ PSummary → fs' !! q = fs !! q) → same_refs fs0 fs'.
Proof.
  intros (H1' & H2' & H3') Hq. split; [|split].
  - intros k. by rewrite (ref_value_ext _ _ Hq).
  - intros co. by rewrite (head_value_ext _ _ Hq).
  - intros co. by rewrite Hq.
Qed.

(** Every loose file of the listed names is gone. *)
Definition all_packed (fs : gmap rpath (list Z)) : Prop := ∀ k n, fs !! key_path (key_of k n) = None.

Lemma packing_start fs P : clean fs → full fs P → packing P fs (<[PPacked := packed_to_text P]> fs).
Proof.
  intros Hc Hf. split.
  - unfold packed_of. rewrite lookup_insert_eq. apply packed_parse_text; [|done..]. by eapply names_packed_ok, full_names.
  - intros k. left. by rewrite lookup_insert_ne by by destruct k.
  - intros q _ Hq. by rewrite lookup_insert_ne.
Qed.

(** C10. Packing is safe at every step. Whatever operations of the file system fail
    while [pack_refs] runs, whether it returns or stops with an error, every thread,
    marker, remote thread, HEAD and undo pointer has the value that it had before;
    when it returns, every thread and marker is in the packed table alone. *)
Theorem pack_refs_crash_safe d : clean (files d) →
  wp pack_refs (λ _ d', same_refs (files d) (files d') ∧ all_packed (files d')) (λ _ d', same_refs (files d) (files d')) d.
Proof.
  intros Hc. unfold pack_refs. destruct (collect_full d Hc) as (ts & p1 & ms & P & Et & E1 & Em & E2 & Hf & Hk).
  set (fs := files d) in *. assert (∀ k, fs !! key_path k = None → ref_value fs k = packed_value P k) as Hv.
  { intros k E. apply full_value; [done|]. by intros r n ->. }
  assert (∀ d', packing P fs (files d') → same_refs fs (files d')) as Hsame by (intros d'; by apply packing_same).
  apply wp_bind. unfold wp at 1. rewrite (load_packed_clean d Hc). fold fs. apply wp_bind. unfold wp at 1. rewrite Et.
  apply wp_bind. unfold wp at 1. rewrite E1. apply wp_bind. unfold wp at 1. rewrite Em. apply wp_bind. unfold wp at 1. rewrite E2.
  apply wp_bind. eapply (wp_mono _ (λ _ d', same_refs fs (files d') ∧ all_packed (files d')) _ (λ _ d', same_refs fs (files d'))); [|
    intros u d1 [S1 A1]; eapply wp_mono; [apply rebuild_absorbed| |done]; cbv beta; intros u' d2 (B2 & _); split;
      [by eapply same_refs_but|intros k n; rewrite B2 by (by destruct k); apply A1]|done].
  destruct (packed_is_empty P) eqn:Ee.
  - apply wp_ret. split; [done|]. intros k n. fold fs. destruct (fs !! key_path (key_of k n)) as [c|] eqn:E; [|done]. exfalso.
    destruct (key_text _ _ _ Hc E) as (_ & i & _ & _ & Ep). specialize (Hf k n). unfold ref_value in Hf. rewrite E, Ep in Hf.
    unfold packed_is_empty in Ee. apply andb_true_iff in Ee as [E3%bool_decide_eq_true E4%bool_decide_eq_true].
    destruct k; cbn in Hf; rewrite ?E3, ?E4, lookup_empty in Hf; done.
  - apply wp_bind. unfold save_packed_refs. apply wp_bind. unfold io_point. apply wp_atomic; intros s; [|done].
    eapply wp_mono; [apply write_spec|..]; cbv beta; cbn [set_schedule files].
    2:{ intros e d1 [[-> | ->] _]; [done|]. apply packing_same with P; [done..|]. by apply packing_start. }
    intros _ d1 (F1 & _ & _). assert (packing P fs (files d1)) as P1 by (rewrite F1; by apply packing_start).
    apply wp_bind. eapply wp_mono; [apply keeps_point| |]; cbv beta.
    2:{ intros e d2 [F2 _]. rewrite F2. by apply Hsame. }
    intros _ d2 ([F2 _] & _). rewrite <- F2 in P1. apply wp_bind.
    assert (∀ k n, n ∈ (if k : bool then ts else ms) → ref_value fs (key_of k n) = packed_value P (key_of k n)) as Hv'.
    { intros k n _. apply full_value; [done|]. by destruct k. }
    eapply wp_mono; [apply (remove_all_ok P fs true ts); [done|intros n; apply (Hk true n)|apply (Hv' true)]| |intros e d3; apply Hsame].
    cbv beta. intros _ d3 (P3 & A3 & _).
    eapply wp_mono; [apply (remove_all_ok P fs false ms); [done|intros n; apply (Hk false n)|apply (Hv' false)]| |intros e d4; apply Hsame].
    cbv beta. intros _ d4 (P4 & A4 & M4). split; [by apply Hsame|]. intros k n.
    destruct (pk_loose _ _ _ P4 (key_of k n)) as [E|[E _]]; [|done]. rewrite E. apply eq_None_not_Some. intros Hs.
    destruct (Hk k n) as [_ Hin]. specialize (Hin Hs). destruct k.
    + apply A3, M4 in Hin. cbn in *. rewrite Hin in E. rewrite <- E in Hs. by destruct Hs.
    + apply A4 in Hin. cbn in *. rewrite Hin in E. rewrite <- E in Hs. by destruct Hs.
Qed.
End pack.
