(* ===== verification/RefCas.v ===== *)
(** * Compare-and-swap of a batch

    [update_refs_with_lock] ([crates/refs/src/refs/refs_transactions.rs]) over a store
    whose reads need no reconciliation: the expectations of the whole batch decide, then
    the batch is published; and the one failure that leaves a batch half done. *)

From S2P Require Import Prelude Text RefNames RefText RefDisk BTree RefSummary RefStore RefPublish RefPack.
Import Text RefNames RefText RefDisk BTree RefSummary RefStore.

Section cas.
Context `{Base32Laws} `{RefSyntaxLaws}.

(** ** When a batch is accepted *)

(** What an expectation says of a current value *)
Definition meets {T} (e : RefExpectation T) (current : option T) (present : Prop) : Prop :=
  match e with Any => True | Missing => ¬ present | Value v => current = Some v end.

Lemma matches_meets {T} `{EqDecision T} (e : RefExpectation T) (c : option T) (b : bool) (P : Prop) : (b = true ↔ P) →
  matches_expectation e c b = true ↔ meets e c P.
Proof.
  intros Hb. destruct e as [| |v]; cbn; [done| |by rewrite bool_decide_eq_true].
  rewrite negb_true_iff. rewrite <- Hb. by destruct b.
Qed.

Lemma is_some_true {A} (o : option A) : is_some o = true ↔ is_Some o.
Proof. destruct o as [a|]; cbn; split; [by exists a|done|done|by intros []]. Qed.

(** The expectation of an update holds: a thread, marker or remote thread is missing
    when it has no value, HEAD when it has no file. *)
Definition expectation_holds (fs : gmap rpath (list Z)) (co : Z) (u : RefUpdate) : Prop :=
  match u with
  | UThread n e _ => meets e (ref_value fs (KThread n)) (is_Some (ref_value fs (KThread n)))
  | UMarker n e _ => meets e (ref_value fs (KMarker n)) (is_Some (ref_value fs (KMarker n)))
  | URemoteThread r n e _ => meets e (ref_value fs (KRemote r n)) (is_Some (ref_value fs (KRemote r n)))
  | UHead e _ => meets e (Some (head_value fs co)) (is_Some (fs !! PHead co))
  end.

Definition expectation_met (fs : gmap rpath (list Z)) (co : Z) (u : RefUpdate) : bool :=
  match u with
  | UThread n e _ => matches_expectation e (ref_value fs (KThread n)) (is_some (ref_value fs (KThread n)))
  | UMarker n e _ => matches_expectation e (ref_value fs (KMarker n)) (is_some (ref_value fs (KMarker n)))
  | URemoteThread r n e _ => matches_expectation e (ref_value fs (KRemote r n)) (is_some (ref_value fs (KRemote r n)))
  | UHead e _ => matches_expectation e (Some (head_value fs co)) (is_some (fs !! PHead co))
  end.

Lemma expectation_met_holds fs co u : expectation_met fs co u = true ↔ expectation_holds fs co u.
Proof. destruct u; cbn [expectation_met expectation_holds]; by apply matches_meets, is_some_true. Qed.

(** The ref that an update names; the HEAD of the checkout is not counted. *)
Definition target (u : RefUpdate) : option rpath :=
  match u with
  | UThread n _ _ => Some (PThread n) | UMarker n _ _ => Some (PMarker n)
  | URemoteThread r n _ _ => Some (PRemote r n) | UHead _ _ => None
  end.

Definition accepted (fs : gmap rpath (list Z)) (co : Z) (us : list RefUpdate) : Prop :=
  Forall (expectation_holds fs co) us ∧ NoDup (omap target us).

Lemma met_all fs co us : Forall (λ u, expectation_met fs co u = true) us ↔ Forall (expectation_holds fs co) us.
Proof. split; intros HF; (eapply Forall_impl; [exact HF|]); intros u; apply expectation_met_holds. Qed.

Definition planned (fs : gmap rpath (list Z)) (co : Z) (u : RefUpdate) (seen : list rpath) : option (list rpath) :=
  match target u with
  | Some p => if bool_decide (p ∈ seen) then None else if expectation_met fs co u then Some (p :: seen) else None
  | None => if expectation_met fs co u then Some seen else None
  end.

Lemma raw_track_ok d n : clean (files d) → thread_name n →
  ∃ o, read_track_with_packed_fallback n d = (Ok (PThread n, ref_value (files d) (KThread n), o), d).
Proof.
  intros Hc Hn. unfold read_track_with_packed_fallback. rewrite (run_bind _ _ _ _ _ (thread_path_ok n d Hn)).
  unfold ref_value. cbn [key_path]. destruct (files d !! PThread n) as [c|] eqn:E.
  - destruct (key_text _ (KThread n) _ Hc E) as (U & i & _ & _ & Ep). rewrite (run_bind _ _ _ _ _ (read_file_ok _ _ _ E U)).
    rewrite Ep. by eexists.
  - rewrite (run_bind _ _ _ _ _ (read_file_none _ _ E)), (run_bind _ _ _ _ _ (load_packed_clean d Hc)). by eexists.
Qed.

Definition key_load (k : ref_key) : LoadRequest :=
  match k with KThread n => LThread n | KMarker n => LMarker n | KRemote r n => LRemoteThread r n end.

Lemma raw_id_ok d co k : clean (files d) → key_ok k →
  reconciled_id (raw_load co) (key_load k) d = (Ok (ref_value (files d) k), d).
Proof.
  intros Hc Hk. unfold reconciled_id.
  assert (raw_load co (key_load k) d = (Ok (OPoint (ref_value (files d) k)), d)) as E.
  { assert (Hr := raw_get_ok d k Hc Hk). destruct k; cbn [raw_load key_load raw_get] in *; by rewrite (run_bind _ _ _ _ _ Hr). }
  by rewrite (run_bind _ _ _ _ _ E).
Qed.

Lemma note_run p seen d : note_seen p seen d = if bool_decide (p ∈ seen) then (Err Conflict, d) else (Ok (p :: seen), d).
Proof. unfold note_seen. by case_bool_decide. Qed.
Lemma expect_run e c d : expect_id e c d = if matches_expectation e c (is_some c) then (Ok tt, d) else (Err Conflict, d).
Proof. unfold expect_id. by destruct (matches_expectation _ _ _). Qed.

(** The checks of one ref, after its path is known *)
Lemma checks_run {A} d co k p seen e (f : option (list Z) → list rpath → A) : clean (files d) → key_ok k →
  (seen ← note_seen p seen; current ← reconciled_id (raw_load co) (key_load k); expect_id e current ;; mret (f current seen)) d
  = if bool_decide (p ∈ seen) then (Err Conflict, d)
    else if matches_expectation e (ref_value (files d) k) (is_some (ref_value (files d) k))
         then (Ok (f (ref_value (files d) k) (p :: seen)), d) else (Err Conflict, d).
Proof.
  intros Hc Hk. unfold mbind at 1, io_bind at 1. rewrite note_run. case_bool_decide; [done|].
  rewrite (run_bind _ _ _ _ _ (raw_id_ok d co k Hc Hk)). unfold mbind, io_bind. rewrite expect_run. by destruct (matches_expectation _ _ _).
Qed.

Lemma plan_one_run d co u seen : clean (files d) → change_ok (change_of u) →
  plan_one (raw_load co) co u seen d =
    match planned (files d) co u seen with
    | Some seen' => (Ok (plan_for (files d) co (change_of u), seen'), d)
    | None => (Err Conflict, d)
    end.
Proof.
  intros Hc Hok. unfold planned. destruct u as [n e new|n e new|e h|r n e new]; cbn [plan_one target expectation_met change_of] in *.
  - destruct Hok as [Hk _]. destruct (raw_track_ok d n Hc Hk) as (o & Eo). rewrite (run_bind _ _ _ _ _ Eo).
    rewrite (checks_run d co (KThread n) (PThread n) seen e
      (λ current seen, (thread_plan n (PThread n) current new (format_state_id_text <$> current), seen)) Hc Hk).
    case_bool_decide; [done|]. by destruct (matches_expectation _ _ _).
  - destruct Hok as [Hk _]. rewrite (run_bind _ _ _ _ _ (path_of_ok (KMarker n) d Hk)). cbn [key_path].
    rewrite (checks_run d co (KMarker n) (PMarker n) seen e
      (λ current seen, (marker_plan n (PMarker n) current new (format_state_id_text <$> current), seen)) Hc Hk).
    case_bool_decide; [done|]. by destruct (matches_expectation _ _ _).
  - rewrite (run_bind _ _ _ _ _ (read_head_ok d co Hc)).
    assert (raw_load co LHead d = (Ok (OHead (head_value (files d) co)), d)) as E.
    { cbn [raw_load]. by rewrite (run_bind _ _ _ _ _ (read_head_ok d co Hc)). }
    rewrite (run_bind _ _ _ _ _ E). cbn [hs_exists hs_head hs_raw].
    rewrite bool_decide_eq_true_2 by done. rewrite orb_false_r.
    by destruct (matches_expectation _ _ _).
  - destruct Hok as [Hk _]. rewrite (run_bind _ _ _ _ _ (path_of_ok (KRemote r n) d Hk)). cbn [key_path].
    rewrite (checks_run d co (KRemote r n) (PRemote r n) seen e
      (λ current seen, (remote_plan r n (PRemote r n) current new, seen)) Hc Hk).
    case_bool_decide; [done|]. destruct (matches_expectation _ _ _); [|done]. unfold remote_plan, plan_for. cbn [key_remove].
    by destruct (negb _ && _).
Qed.

Lemma plan_loop_cons d co u us seen : clean (files d) → change_ok (change_of u) →
  plan_loop (raw_load co) co (u :: us) seen d =
    match planned (files d) co u seen with
    | Some seen' => (ps ← plan_loop (raw_load co) co us seen'; mret (plan_for (files d) co (change_of u) :: ps)) d
    | None => (Err Conflict, d)
    end.
Proof.
  intros Hc Hu. cbn [plan_loop]. unfold mbind at 1, io_bind at 1. rewrite plan_one_run by done.
  by destruct (planned _ _ _ _).
Qed.

Lemma plan_loop_run d co us seen : clean (files d) → Forall (λ u, change_ok (change_of u)) us →
  (Forall (λ u, expectation_met (files d) co u = true) us ∧ NoDup (omap target us) ∧ (∀ p, p ∈ omap target us → p ∉ seen) ∧
   plan_loop (raw_load co) co us seen d = (Ok (plans_for (files d) co (change_of <$> us)), d)) ∨
  (¬ (Forall (λ u, expectation_met (files d) co u = true) us ∧ NoDup (omap target us) ∧ ∀ p, p ∈ omap target us → p ∉ seen) ∧
   plan_loop (raw_load co) co us seen d = (Err Conflict, d)).
Proof.
  intros Hc Hok. revert seen. induction Hok as [|u us Hu _ IH]; intros seen.
  { left. split; [done|]. split; [constructor|]. split; [by intros p ?%elem_of_nil|done]. }
  rewrite plan_loop_cons by done. unfold planned. cbn [omap list_omap].
  assert (∀ seen', (plan_loop (raw_load co) co us seen' d = (Ok (plans_for (files d) co (change_of <$> us)), d) →
    (ps ← plan_loop (raw_load co) co us seen'; mret (plan_for (files d) co (change_of u) :: ps)) d =
      (Ok (plans_for (files d) co (change_of <$> u :: us)), d)) ∧ (plan_loop (raw_load co) co us seen' d = (Err Conflict, d) →
    (ps ← plan_loop (raw_load co) co us seen'; mret (plan_for (files d) co (change_of u) :: ps)) d = (Err Conflict, d))) as Hrun.
  { intros seen'. unfold mbind, io_bind. by split; intros ->. }
  destruct (expectation_met (files d) co u) eqn:Em.
  2:{ right. split; [intros (HF & _); apply Forall_cons in HF as [? _]; congruence|]. destruct (target u) as [p|]; [by destruct (bool_decide (p ∈ seen))|done]. }
  destruct (target u) as [p|].
  - case_bool_decide as Hp; [right; split; [|done]; intros (_ & _ & Hs); by apply (Hs p); [by left|]|].
    destruct (IH (p :: seen)) as [(HF & HN & Hs & E)|[Hn E]]; [left|right; split; [|by apply Hrun]].
    + split; [by constructor|]. split; [apply NoDup_cons; split; [|done]; intros Hin; apply (Hs p Hin); by left|].
      split; [|by apply Hrun]. intros q [->|Hq]%elem_of_cons; [done|]. intros Hin. apply (Hs q Hq). by right.
    + intros (HF & HN & Hs). apply Forall_cons in HF as [_ HF]. apply NoDup_cons in HN as [Hpn HN]. apply Hn. split; [done|]. split; [done|].
      intros q Hq [->|Hin]%elem_of_cons; [done|]. apply (Hs q); [by right|done].
  - destruct (IH seen) as [(HF & HN & Hs & E)|[Hn E]]; [left|right; split; [|by apply Hrun]].
    + split; [by constructor|]. split; [done|]. split; [done|by apply Hrun].
    + intros (HF & HN & Hs). apply Forall_cons in HF as [_ HF]. by apply Hn.
Qed.

(** C9. An update of refs is a compare-and-swap of the whole batch. If one expectation does
    not hold of the current values, or two updates name the same ref, the answer is
    [Conflict] and nothing on disk is touched. Otherwise, with at most one failing
    operation of the file system, [Ok] means that every ref of the batch, HEAD included,
    has its new value and no other ref moved; an error means that no ref moved, the failed
    sync of a directory after the renames excepted. *)
Theorem update_refs_cas co us d : clean (files d) → Forall (λ u, change_ok (change_of u)) us → (nf d ≤ 1)%nat →
  (¬ accepted (files d) co us ∧ update_refs_with_lock (raw_load co) co us d = (Err Conflict, d)) ∨
  (accepted (files d) co us ∧
   wp (update_refs_with_lock (raw_load co) co us)
     (λ _ d', changed (change_of <$> us) co (files d) (files d'))
     (λ _ d', changed [] co (files d) (files d') ∨ changed_but_packed (change_of <$> us) co (files d) (files d')) d).
Proof.
  intros Hc Hok Hd. unfold update_refs_with_lock, plan_ref_updates.
  destruct (plan_loop_run d co us [] Hc Hok) as [(HF & HN & _ & E)|[Hn E]].
  - right. split; [split; [by apply met_all|done]|]. apply wp_bind. unfold wp at 1. rewrite E. unfold publish_ref_plans.
    eapply wp_mono; [apply publish_batch; [done|by apply Forall_fmap|done]|..]; cbv beta; [by intros _ d' (? & _)|].
    intros e d' ([?|[_ ?]] & _); [by left|by right].
  - left. split; [|unfold mbind, io_bind; by rewrite E]. intros [HF HN]. apply Hn. split; [by apply met_all|]. split; [done|].
    by intros p _ ?%elem_of_nil.
Qed.
End cas.
