(* ===== verification/RefSamples.v ===== *)
(** * Concrete ref stores

    A store with a loose thread that shadows an older packed value of it, on which the
    theorems of [RefPublish], [RefPack] and [RefCas] are applied, and the run that shows
    what a failed directory sync leaves behind. *)

From S2P Require Import Prelude Text RefNames RefText RefDisk BTree RefSummary RefStore RefPublish RefPack RefCas.
Import Text RefNames RefText RefDisk BTree RefSummary RefStore TextSamples SummarySamples.

Lemma disk_of_clean loose p s : (∀ n i, loose !! n = Some i → thread_name n ∧ id32 i) →
  packed_names p → is_utf8 (packed_to_text p) = true → clean (files (disk_of loose p s)).
Proof.
  intros Hl Hp Hu.
  assert (∀ q, q ≠ PPacked → q ≠ PSummary → files (disk_of loose p s) !! q = (kmap PThread (format_state_id_text <$> loose) : gmap rpath (list Z)) !! q) as Hq.
  { intros q H1 H2. cbn. by rewrite !lookup_insert_ne. }
  assert (∀ q c, files (disk_of loose p s) !! q = Some c → q ≠ PPacked → q ≠ PSummary →
    ∃ n i, q = PThread n ∧ loose !! n = Some i ∧ c = format_state_id_text i) as Hin.
  { intros q c E H1 H2. rewrite Hq in E by done. apply lookup_kmap_Some in E as (n & -> & E); [|by intros ?? [=]].
    rewrite lookup_fmap in E. destruct (loose !! n) as [i|] eqn:En; [|done]. exists n, i. by injection E as <-. }
  split.
  - intros k c E. destruct (Hin _ _ E) as (n & i & Ek & En & ->); [by destruct k..|]. destruct (Hl _ _ En) as [Hn Hi].
    split; [|by exists i]. destruct k; try done. by injection Ek as ->.
  - intros c E. assert (files (disk_of loose p s) !! PPacked = Some (packed_to_text p)) as E' by apply lookup_insert_eq.
    rewrite E' in E. injection E as <-. split; [done|].
    assert (packed_parse (packed_to_text p) = p) as ->; [|done]. apply packed_parse_text; [by apply names_packed_ok|done..].
  - intros co c E. by destruct (Hin _ _ E) as (n & i & ? & _).
  - intros co c E. by destruct (Hin _ _ E) as (n & i & ? & _).
Qed.

Definition shadowed : PackedRefsModel := {| threads := {[main := sample_id 9]}; markers := ∅ |}.
(** The thread [main] is loose at 7 and packed at 9. *)
Definition store : Disk := disk_of {[main := sample_id 7]} shadowed [].
Definition with_schedule (s : list fault) : Disk := set_schedule s store.

Lemma store_clean : clean (files store).
Proof.
  destruct names_ok as [Hmain _], sample_ids as (H7 & H9 & _).
  apply disk_of_clean; [by apply single_ok| |by vm_compute].
  intros [] n i Hi; cbn in Hi; [by apply (single_ok main (sample_id 9))|by rewrite lookup_empty in Hi].
Qed.

(** Delete [main], create [topic] *)
Definition batch : list RefUpdate :=
  [UThread main (Value (sample_id 7)) None; UThread topic Missing (Some (sample_id 1))].

Lemma batch_ok : Forall (λ u, change_ok (change_of u)) batch.
Proof.
  destruct names_ok as [Hmain Htopic], sample_ids as (_ & _ & H1).
  constructor; [by split|]. constructor; [|constructor]. split; [done|]. by intros i [= <-].
Qed.

(** ** The theorems at the store *)

(** The final disk of a run *)
Definition final {A} (r : exec RefError A * Disk) : gmap rpath (list Z) := files (snd r).
Definition changes : list change := change_of <$> batch.
Definition plans : list RefUpdatePlan := plans_for (files store) 0 changes.

Lemma changes_ok : Forall change_ok changes.
Proof. apply Forall_fmap, batch_ok. Qed.

(** The rename of a temporary fails after [main] is deleted: the batch is rolled back. *)
Definition rename_fails : Disk := with_schedule (replicate 5 Fine ++ [Before]).

Lemma publish_all_or_nothing_witness :
  let r := publish_ref_plans_reconstructible plans rename_fails in
  fst r = Err Io ∧ changed [] 0 (files store) (final r) ∧ final r !! PThread main = Some (format_state_id_text (sample_id 7)).
Proof.
  assert (fst (publish_ref_plans_reconstructible plans rename_fails) = Err Io) as E by by vm_compute.
  split; [exact E|]. split; [|by vm_compute].
  assert (Hw := publish_all_or_nothing Reconstructible 0 changes rename_fails store_clean changes_ok (le_n 1)).
  unfold final, publish_ref_plans_reconstructible, plans, wp in *. change (files rename_fails) with (files store) in Hw.
  destruct (publish_ref_plans_with_durability Reconstructible _ rename_fails) as [[] d']; cbn [fst snd] in *; try discriminate E.
  destruct Hw as [_ [Hw|[Hw _]]]; [exact Hw|discriminate Hw].
Defined.

(** The packed table is written and its directory sync fails, then the run stops. *)
Lemma pack_refs_crash_safe_witness :
  let r := pack_refs (with_schedule [Fine; After]) in
  fst r = Err Io ∧ same_refs (files store) (final r) ∧
  final r !! PThread main = Some (format_state_id_text (sample_id 7)).
Proof.
  assert (fst (pack_refs (with_schedule [Fine; After])) = Err Io) as E by by vm_compute.
  split; [exact E|]. split; [|by vm_compute].
  assert (Hw := pack_refs_crash_safe (with_schedule [Fine; After]) store_clean). unfold final, wp in *.
  destruct (pack_refs (with_schedule [Fine; After])) as [[] d']; cbn [fst snd] in *; try discriminate E. exact Hw.
Defined.

(** The batch is accepted and published; a stale expectation is refused. *)
Lemma update_refs_cas_witness :
  (let r := update_refs_with_lock (raw_load 0) 0 batch store in fst r = Ok tt ∧ changed changes 0 (files store) (final r)) ∧
  update_refs_with_lock (raw_load 0) 0 [UThread main (Value (sample_id 9)) None] store = (Err Conflict, store).
Proof.
  split.
  - assert (fst (update_refs_with_lock (raw_load 0) 0 batch store) = Ok tt) as E by by vm_compute.
    split; [exact E|]. destruct (update_refs_cas 0 batch store store_clean batch_ok (le_S _ _ (le_n 0))) as [[_ Hr]|[_ Hw]].
    + rewrite Hr in E. discriminate E.
    + unfold final, wp in *. destruct (update_refs_with_lock (raw_load 0) 0 batch store) as [[] d']; cbn [fst snd] in *; try discriminate E.
      exact Hw.
  - by vm_compute.
Defined.

(** ** A failed directory sync

    Every rename and removal of the batch is done, then the sync of the directory of
    [topic] fails. *)
Definition sync_fails : Disk := with_schedule (replicate 7 Fine ++ [Before]).

(** The exception is real. Deleting a thread that is both loose and packed, in one
    durable batch with another change, when the directory sync after the renames fails:
    the update returns an error without rolling back, the other change is kept, and the
    deleted thread has neither its old value nor none, but the stale packed value that the
    loose file shadowed. *)
Theorem sync_failure_resurrects :
  ∃ d', update_refs_with_lock (raw_load 0) 0 batch sync_fails = (Err Io, d') ∧
    clean (files sync_fails) ∧ nf sync_fails = 1%nat ∧
    ref_value (files sync_fails) (KThread main) = Some (sample_id 7) ∧
    ref_value (files d') (KThread main) = Some (sample_id 9) ∧
    ref_value (files sync_fails) (KThread topic) = None ∧
    ref_value (files d') (KThread topic) = Some (sample_id 1).
Proof.
  exists (snd (update_refs_with_lock (raw_load 0) 0 batch sync_fails)). split; [by vm_compute|].
  split; [exact store_clean|]. repeat split; by vm_compute.
Qed.
