(* ===== verification/OpRecords.v ===== *)
(** * Operation records

    [crates/object-model/src/op_record/types.rs]: the records of the operation log, the
    logical keys that a record touches, the classification of records for undo and redo,
    and log entries and batches. State ids, content hashes, names and opaque payloads
    (record snapshots, sidecars, an attribution, a visibility tier, a principal) are
    byte strings. *)

From S2P Require Import Prelude Text.
Import Text.

Module OpRecords.

Inductive ConflictResolutionMode := Ours | Theirs | Edit | Auto.

Inductive IsolationKey :=
| KeyThread (thread : list Z)
| KeyLocalHead (scope : list Z)
| KeyStateVisibility (state : list Z).

#[global] Instance isolation_key_eq_dec : EqDecision IsolationKey.
Proof. solve_decision. Defined.

Record IsolationPrecondition := { since_head_id : Z; keys : list IsolationKey }.

Inductive RecordedHead := RecordedAttached (thread : list Z) | RecordedDetached (state : list Z).

Record ThreadUpdateSnapshots := {
  ts_old : option (list Z);
  ts_new : option (list Z);
  old_records : list (list Z);
  new_records : list (list Z);
  old_ref_absent : bool;
}.

Inductive OpRecord :=
| Snapshot (new_state : list Z) (prev_head head : option (list Z)) (thread : option (list Z))
| Goto (target : list Z) (prev_head : option (list Z)) (head : list Z)
| ThreadCreate (name state : list Z) (manager_snapshot : option (list Z))
| ThreadDelete (name state : list Z)
| ThreadUpdate (name old_state new_state : list Z) (manager_snapshots : option ThreadUpdateSnapshots)
| Fork (from new_state : list Z) (thread head : option (list Z))
| Collapse (sources : list (list Z)) (result : list Z) (thread pre_thread_state : option (list Z))
| MarkerCreate (name state : list Z)
| MarkerDelete (name state : list Z)
| Checkpoint (parent : option (list Z)) (state : list Z) (thread : option (list Z))
| TransactionAbort (transaction_id reason : list Z)
| EphemeralThreadCollapse (thread final_state : list Z)
| ConflictResolved (conflict_id resolution resolver : list Z) (mode : ConflictResolutionMode)
| TransactionCommit (transaction_id : list Z) (op_count : Z)
| Redact (redaction_id blob state path : list Z)
| Purge (redaction_id blob : list Z)
| FastForward (source_thread target_thread pre_target_id post_target_id : list Z)
| GitCheckpoint (branch state : list Z) (previous_git_oid : option (list Z)) (new_git_oid : list Z)
| RemoteThreadUpdate (remote thread state : list Z)
| RemoteThreadDelete (remote thread state : list Z)
| UndoRecoveryUpdate (state : list Z)
| StateVisibilitySet (state record_id tier : list Z) (prior_sidecar new_sidecar : option (list Z))
| StateVisibilityPromote (state superseded record_id tier : list Z) (prior_sidecar new_sidecar : option (list Z))
| HeadUpdate (previous new : RecordedHead)
| EntryVisibilitySet (change_id record_id : list Z) (prior_sidecar new_sidecar : option (list Z)).

Definition is_transaction_commit (record : OpRecord) : bool :=
  match record with TransactionCommit _ _ => true | _ => false end.

Definition is_transaction_commit_for (record : OpRecord) (transaction_id : list Z) : bool :=
  match record with TransactionCommit id _ => bool_decide (id = transaction_id) | _ => false end.

(** ** Isolation keys *)

(** The [BTreeSet] of keys of one record: at most two keys, smallest first. *)
Definition thread_keys (ts : list (list Z)) : list IsolationKey :=
  KeyThread <$> sort_by compare_bytes (remove_dups ts).
Definition scope_key (scope : option (list Z)) : list IsolationKey :=
  match scope with Some scope => [KeyLocalHead scope] | None => [] end.

Definition isolation_keys_for_record (record : OpRecord) (scope : option (list Z)) : list IsolationKey :=
  match record with
  | Snapshot _ _ _ (Some thread) | Checkpoint _ _ (Some thread) | ThreadCreate thread _ _ | ThreadDelete thread _
  | ThreadUpdate thread _ _ _ | EphemeralThreadCollapse thread _ | GitCheckpoint thread _ _ _
  | RemoteThreadUpdate _ thread _ | RemoteThreadDelete _ thread _ => thread_keys [thread]
  | Snapshot _ _ _ None | Checkpoint _ _ None | Goto _ _ _ | HeadUpdate _ _ | UndoRecoveryUpdate _ => scope_key scope
  | FastForward source_thread target_thread _ _ => thread_keys [source_thread; target_thread]
  | Fork _ _ (Some thread) _ | Collapse _ _ (Some thread) _ => thread_keys [thread]
  | Fork _ _ None head => match head with Some _ => scope_key scope | None => [] end
  | Collapse _ _ None _ => scope_key scope
  | StateVisibilitySet state _ _ _ _ | StateVisibilityPromote state _ _ _ _ _ => [KeyStateVisibility state]
  | MarkerCreate _ _ | MarkerDelete _ _ | TransactionAbort _ _ | ConflictResolved _ _ _ _ | TransactionCommit _ _
  | Redact _ _ _ _ | EntryVisibilitySet _ _ _ _ | Purge _ _ => []
  end.

(** ** Undo and redo *)

Definition states_required_for_undo (record : OpRecord) : list (list Z) :=
  match record with
  | Snapshot _ (Some prev) _ _ | Goto _ (Some prev) _ => [prev]
  | ThreadDelete _ state => [state]
  | ThreadUpdate _ old_state _ _ => [old_state]
  | MarkerDelete _ state => [state]
  | FastForward _ _ pre_target_id _ => [pre_target_id]
  | HeadUpdate (RecordedDetached state) _ => [state]
  | _ => []
  end.

Definition states_required_for_redo (record : OpRecord) : list (list Z) :=
  match record with
  | Snapshot new_state _ _ _ => [new_state]
  | Goto target _ _ => [target]
  | ThreadCreate _ state _ => [state]
  | ThreadUpdate _ _ new_state _ => [new_state]
  | MarkerCreate _ state => [state]
  | FastForward _ _ _ post_target_id => [post_target_id]
  | HeadUpdate _ (RecordedDetached state) => [state]
  | _ => []
  end.

Definition redo_unsupported_label (record : OpRecord) : option (list Z) :=
  match record with
  | Redact _ _ _ _ => Some (ascii_bytes "Redact")
  | Purge _ _ => Some (ascii_bytes "Purge")
  | _ => None
  end.

Inductive RedactionUndoClass := ClassPurge (redaction_id : list Z) | ClassRedact (blob state path : list Z) | ClassOther.

Definition redaction_undo_class (record : OpRecord) : RedactionUndoClass :=
  match record with
  | Purge redaction_id _ => ClassPurge redaction_id
  | Redact _ blob state path => ClassRedact blob state path
  | _ => ClassOther
  end.

Definition thread_worktree_undo_hazard_name (record : OpRecord) : option (list Z) :=
  match record with ThreadCreate name _ _ => Some name | _ => None end.

(** ** Entries and batches *)

Record OpEntry := {
  e_id : Z;
  timestamp : Z;
  operation : OpRecord;
  undone : bool;
  batch_id : Z;
  batch_index : Z;
  scope : option (list Z);
  actor : list Z;
  operation_id : option (list Z);
}.

Record OpBatch := { b_id : Z; entries : list OpEntry }.

Definition is_transaction_marker_only (batch : OpBatch) : bool :=
  negb (bool_decide (length (entries batch) = 0%nat)) && forallb (λ e, is_transaction_commit (operation e)) (entries batch).

End OpRecords.
