(* ===== verification/OpLog.v ===== *)
(** * The operation log

    [crates/oplog/src/oplog]: the indexed container of log entries
    ([packed_oplog.rs]: building, validating and querying the index), the log as a base
    container and a binary-counter tail of segments ([segmented_oplog.rs]), and the
    operations of the log ([oplog_core.rs]). A file of the log is the value that its
    bytes encode: the byte encodings, the repair of damaged files and the handle's cache
    are left out, and an entry's file offset is its position among the entries. *)

From S2P Require Import Prelude Text OpRecords.
Import Text OpRecords.

Module OpLog.

Inductive LogError := InvalidObject | Config.

Definition effective_batch_id (e : OpEntry) : Z := if batch_id e =? 0 then e_id e else batch_id e.

(** ** Index sections *)

Definition SCOPE_NONE : Z := 0.
Definition SCOPE_ONE : Z := 1.
Definition SCOPE_MIXED : Z := 2.

Record EntryOffsetRecord := { eo_id : Z; eo_offset : Z }.
Record BatchDirRecord := {
  bd_batch_id : Z;
  bd_newest : Z;
  bd_first : Z;
  bd_count : Z;
  bd_scope_state : Z;
}.
(** The key stands for its range in the key bytes. *)
Record TxDirRecord := { tx_key : list Z; tx_entry : Z; tx_batch : Z }.

Record IndexSections := {
  entry_offsets : list EntryOffsetRecord;
  batch_offsets : list Z;
  batch_dir : list BatchDirRecord;
  tx_dir : list TxDirRecord;
}.

(** The loop of [scope_state] over its [first] *)
Fixpoint scope_loop (first : option (option (list Z))) (scopes : list (option (list Z))) : Z :=
  match scopes with
  | [] => match first with Some (Some _) => SCOPE_ONE | _ => SCOPE_NONE end
  | s :: scopes =>
      match first with
      | None => scope_loop (Some s) scopes
      | Some prev => if bool_decide (prev = s) then scope_loop first scopes else SCOPE_MIXED
      end
  end.
Definition scope_state (scopes : list (option (list Z))) : Z := scope_loop None scopes.

Definition compare_index (x y : OpEntry * Z) : comparison :=
  match batch_index x.1 ?= batch_index y.1 with Eq => e_id x.1 ?= e_id y.1 | c => c end.

(** The two maps of [build_index_sections], filled in entry order *)
Definition group_step (g : gmap Z (list (OpEntry * Z))) (x : OpEntry * Z) : gmap Z (list (OpEntry * Z)) :=
  <[effective_batch_id x.1 := default [] (g !! effective_batch_id x.1) ++ [x]]> g.
Definition tx_step (t : gmap (list Z) (Z * Z)) (x : OpEntry * Z) : gmap (list Z) (Z * Z) :=
  match operation x.1 with
  | TransactionCommit id _ =>
      match t !! id with Some _ => t | None => <[id := (e_id x.1, effective_batch_id x.1)]> t end
  | _ => t
  end.

Record BatchRecord := { br_id : Z; br_newest : Z; br_scope : Z; br_entries : list (OpEntry * Z) }.

Definition batch_record (x : Z * list (OpEntry * Z)) : BatchRecord :=
  let es := sort_by compare_index x.2 in
  {| br_id := x.1; br_newest := foldr Z.max 0 ((λ y, e_id y.1) <$> es);
     br_scope := scope_state ((λ y, scope y.1) <$> es); br_entries := es |}.

Definition batch_records (es : list (OpEntry * Z)) : list BatchRecord :=
  sort_by (λ x y, br_newest y ?= br_newest x)
    (batch_record <$> sort_by (λ x y, x.1 ?= y.1) (map_to_list (fold_left group_step es ∅))).

(** The loop that lays out the offsets of the batches *)
Fixpoint lay_out (records : list BatchRecord) (offsets : list Z) : list Z * list BatchDirRecord :=
  match records with
  | [] => (offsets, [])
  | r :: records =>
      let '(out, dir) := lay_out records (offsets ++ (br_entries r).*2) in
      (out, {| bd_batch_id := br_id r; bd_newest := br_newest r; bd_first := zlen offsets;
               bd_count := as_u32 (zlen (br_entries r)); bd_scope_state := br_scope r |} :: dir)
  end.

Definition build_index_sections (entries : list OpEntry) : IndexSections :=
  let xs := zip entries (seqZ 0 (zlen entries)) in
  let '(offsets, dir) := lay_out (batch_records xs) [] in
  {| entry_offsets := (λ x, {| eo_id := e_id x.1; eo_offset := x.2 |}) <$> xs;
     batch_offsets := offsets; batch_dir := dir;
     tx_dir := (λ x, {| tx_key := x.1; tx_entry := x.2.1; tx_batch := x.2.2 |}) <$>
       sort_by (λ x y, compare_bytes x.1 y.1) (map_to_list (fold_left tx_step xs ∅)) |}.

(** ** Containers *)

Record PackedOpLogIndex := {
  file : option (list OpEntry);
  ix_entry_count : Z;
  ix_head_id : Z;
  sections : IndexSections;
}.

Definition entry_id_range (ix : PackedOpLogIndex) : option (Z * Z) :=
  first ← head (entry_offsets (sections ix));
  last ← last (entry_offsets (sections ix));
  Some (eo_id first, eo_id last).

Definition empty : PackedOpLogIndex :=
  {| file := None; ix_entry_count := 0; ix_head_id := 0;
     sections := {| entry_offsets := []; batch_offsets := []; batch_dir := []; tx_dir := [] |} |}.

(** [data.windows(2).any(|w| bad(w[0], w[1]))] *)
Fixpoint any_pair {A} (bad : A → A → bool) (l : list A) : bool :=
  match l with
  | x :: (y :: _) as l' => bad x y || any_pair bad l'
  | _ => false
  end.

(** [validate_index_records] *)
Definition validate_index_records (entries : list OpEntry) (head_id : Z) (s : IndexSections) : exec LogError unit :=
  let n := zlen entries in
  ensure (zlen (entry_offsets s) =? n) InvalidObject ;;
  (if n =? 0 then ensure (head_id =? 0) InvalidObject
   else ensure (bool_decide (eo_id <$> last (entry_offsets s) = Some head_id)) InvalidObject) ;;
  ensure (forallb (λ r, (0 <=? eo_offset r) && (eo_offset r <? n)) (entry_offsets s)) InvalidObject ;;
  ensure (negb (any_pair (λ x y, eo_id y <=? eo_id x) (entry_offsets s))) InvalidObject ;;
  ensure (forallb (λ o, (0 <=? o) && (o <? n)) (batch_offsets s)) InvalidObject ;;
  ensure (negb (any_pair (λ x y, bd_newest x <=? bd_newest y) (batch_dir s))) InvalidObject ;;
  ensure (forallb (λ r, bd_first r + bd_count r <=? zlen (batch_offsets s)) (batch_dir s)) InvalidObject ;;
  ensure (foldr Z.add 0 (bd_count <$> batch_dir s) =? zlen (batch_offsets s)) InvalidObject ;;
  ensure (negb (any_pair (λ x y, match compare_bytes (tx_key y) (tx_key x) with Gt => false | _ => true end) (tx_dir s)))
    InvalidObject ;;
  ensure (forallb (λ r, existsb (λ e, (e_id e =? tx_entry r) && is_transaction_commit_for (operation e) (tx_key r)) entries)
    (tx_dir s)) InvalidObject.

(** [PackedOpLog::save] of [entries] and [head_id], then [PackedOpLogIndex::open] of the file *)
Definition save_and_open (entries : list OpEntry) (head_id : Z) : exec LogError PackedOpLogIndex :=
  let s := build_index_sections entries in
  validate_index_records entries head_id s ;;
  Ok {| file := Some entries; ix_entry_count := zlen entries; ix_head_id := head_id; sections := s |}.

Definition open_file (ix : PackedOpLogIndex) : exec LogError (list OpEntry) := ok_or (file ix) InvalidObject.

Definition read_entry_at (file : list OpEntry) (offset : Z) : exec LogError OpEntry := ok_or (get file offset) InvalidObject.

Fixpoint read_entries (file : list OpEntry) (offsets : list Z) : exec LogError (list OpEntry) :=
  match offsets with
  | [] => Ok []
  | o :: offsets => e ← read_entry_at file o; es ← read_entries file offsets; Ok (e :: es)
  end.

Definition recent_entries (ix : PackedOpLogIndex) (count : Z) : exec LogError (list OpEntry) :=
  if (count =? 0) || (ix_entry_count ix =? 0) then Ok []
  else
    let offsets := entry_offsets (sections ix) in
    let n := Z.min count (zlen offsets) in
    f ← open_file ix;
    read_entries f (eo_offset <$> take (Z.to_nat n) (reverse offsets)).

Definition entries_after (ix : PackedOpLogIndex) (since : Z) : exec LogError (list OpEntry) :=
  let offsets := entry_offsets (sections ix) in
  start ← lift (partition_point (λ r, eo_id r <=? since) offsets);
  f ← open_file ix;
  read_entries f (eo_offset <$> drop (Z.to_nat start) offsets).

Definition scope_matches (scope_ : option (list Z)) (es : list OpEntry) : bool :=
  match scope_ with Some s => forallb (λ e, bool_decide (scope e = Some s)) es | None => true end.

Definition compare_batch_index (x y : OpEntry) : comparison := batch_index x ?= batch_index y.

(** The loop of [collect_batches_after_scoped] over the batch directory *)
Fixpoint collect_loop (f : list OpEntry) (offsets : list Z) (since count : Z) (predicate : OpBatch → bool)
    (scope_ : option (list Z)) (dir : list BatchDirRecord) (out : list OpBatch) : exec LogError (list OpBatch) :=
  match dir with
  | [] => Ok out
  | r :: dir =>
      let continue := collect_loop f offsets since count predicate scope_ dir in
      if bd_newest r <=? since then Ok out
      else if match scope_ with
              | Some s => (bd_scope_state r =? SCOPE_NONE) && negb (bool_decide (s = []))
              | None => false
              end then continue out
      else
        last ← ok_or (checked_add (bd_first r) (bd_count r)) InvalidObject;
        ensure (last <=? zlen offsets) InvalidObject ;;
        range ← slice offsets (bd_first r) last;
        read ← read_entries f range;
        let es := List.filter (λ e, since <? e_id e) read in
        if bool_decide (es = []) then continue out
        else
          let es := sort_by compare_batch_index es in
          let batch := {| b_id := bd_batch_id r; entries := es |} in
          if negb (scope_matches scope_ es) then continue out
          else if predicate batch then
            let out := out ++ [batch] in
            if zlen out =? count then Ok out else continue out
          else continue out
  end.

Definition container_collect (ix : PackedOpLogIndex) (since count : Z) (predicate : OpBatch → bool)
    (scope_ : option (list Z)) : exec LogError (list OpBatch) :=
  if (count =? 0) || (ix_entry_count ix =? 0) then Ok []
  else
    f ← open_file ix;
    collect_loop f (batch_offsets (sections ix)) since count predicate scope_ (batch_dir (sections ix)) [].

(** [transaction_commit]: a binary search of the transaction directory *)
Definition container_transaction_commit (ix : PackedOpLogIndex) (transaction_id : list Z) : exec LogError (option (Z * Z)) :=
  i ← lift (binary_search_by (λ r, compare_bytes (tx_key r) transaction_id) (tx_dir (sections ix)));
  match i with
  | Some i => r ← index (tx_dir (sections ix)) i; Ok (Some (tx_entry r, tx_batch r))
  | None => Ok None
  end.

(** ** The segmented log *)

(** A level of the descriptors stands beside the container that its path names. *)
Record SegmentedOpLogIndex := {
  generation : Z;
  levels : list Z;
  entry_count : Z;
  head_id : Z;
  base : PackedOpLogIndex;
  segments : list PackedOpLogIndex;
}.

(** The log before any file of it exists *)
Definition empty_log : SegmentedOpLogIndex :=
  {| generation := 0; levels := []; entry_count := 0; head_id := 0; base := empty; segments := [] |}.

Definition validate_first_entry_id (base : PackedOpLogIndex) : exec LogError unit :=
  match entry_id_range base with
  | Some (first, _) => ensure (first =? 1) InvalidObject
  | None => Ok tt
  end.

Fixpoint sequence_loop (segments : list PackedOpLogIndex) (previous : option Z) : exec LogError unit :=
  match segments with
  | [] => Ok tt
  | segment :: segments =>
      '(first, last) ← ok_or (entry_id_range segment) InvalidObject;
      (match previous with
       | Some previous => expected ← ok_or (checked_add previous 1) InvalidObject; ensure (first =? expected) InvalidObject
       | None => ensure (first =? 1) InvalidObject
       end) ;;
      ensure (first <=? last) InvalidObject ;;
      sequence_loop segments (Some last)
  end.

(** [validate_container_sequence]; the paths of a manifest differ by their generations. *)
Definition validate_container_sequence (log : SegmentedOpLogIndex) : exec LogError unit :=
  ensure (negb (any_pair (λ x y, x <=? y) (levels log))) InvalidObject ;;
  validate_first_entry_id (base log) ;;
  sequence_loop (segments log) (snd <$> entry_id_range (base log)).

(** [SegmentedOpLogIndex::open] of the files that hold [log] *)
Definition open_log (log : SegmentedOpLogIndex) : exec LogError SegmentedOpLogIndex :=
  ensure (zlen (levels log) <=? 64) InvalidObject ;;
  validate_container_sequence log ;;
  let actual_count := ix_entry_count (base log) + foldr Z.add 0 (ix_entry_count <$> segments log) in
  let actual_head := match last (segments log) with Some s => ix_head_id s | None => ix_head_id (base log) end in
  ensure ((actual_count =? entry_count log) && (actual_head =? head_id log)) InvalidObject ;;
  Ok log.

Fixpoint recent_loop (containers : list PackedOpLogIndex) (remaining : Z) : exec LogError (list OpEntry) :=
  match containers with
  | [] => Ok []
  | c :: containers =>
      if remaining =? 0 then Ok []
      else
        es ← recent_entries c remaining;
        remaining ← usub remaining (zlen es);
        rest ← recent_loop containers remaining;
        Ok (es ++ rest)
  end.
Definition log_recent_entries (log : SegmentedOpLogIndex) (count : Z) : exec LogError (list OpEntry) :=
  recent_loop (reverse (segments log) ++ [base log]) count.

Definition last_entry (log : SegmentedOpLogIndex) : exec LogError (option OpEntry) :=
  es ← log_recent_entries log 1; Ok (last es).

Fixpoint after_loop (containers : list PackedOpLogIndex) (since : Z) : exec LogError (list OpEntry) :=
  match containers with
  | [] => Ok []
  | c :: containers =>
      es ← (if since <? ix_head_id c then entries_after c since else Ok []);
      rest ← after_loop containers since;
      Ok (es ++ rest)
  end.
Definition log_entries_after (log : SegmentedOpLogIndex) (since : Z) : exec LogError (list OpEntry) :=
  after_loop (base log :: segments log) since.

Fixpoint log_collect_loop (containers : list PackedOpLogIndex) (since count : Z) (predicate : OpBatch → bool)
    (scope_ : option (list Z)) (out : list OpBatch) : exec LogError (list OpBatch) :=
  match containers with
  | [] => Ok out
  | c :: containers =>
      if (zlen out =? count) || (ix_head_id c <=? since) then log_collect_loop containers since count predicate scope_ out
      else
        batches ← container_collect c since (count - zlen out) predicate scope_;
        log_collect_loop containers since count predicate scope_ (out ++ batches)
  end.
Definition collect_batches_after_scoped (log : SegmentedOpLogIndex) (since count : Z) (predicate : OpBatch → bool)
    (scope_ : option (list Z)) : exec LogError (list OpBatch) :=
  log_collect_loop (reverse (segments log) ++ [base log]) since count predicate scope_ [].
Definition collect_batches_scoped (log : SegmentedOpLogIndex) (count : Z) (predicate : OpBatch → bool)
    (scope_ : option (list Z)) : exec LogError (list OpBatch) :=
  collect_batches_after_scoped log 0 count predicate scope_.

Fixpoint commit_loop (containers : list PackedOpLogIndex) (transaction_id : list Z) : exec LogError (option (Z * Z)) :=
  match containers with
  | [] => Ok None
  | c :: containers =>
      r ← container_transaction_commit c transaction_id;
      match r with Some commit => Ok (Some commit) | None => commit_loop containers transaction_id end
  end.
Definition transaction_commit (log : SegmentedOpLogIndex) (transaction_id : list Z) : exec LogError (option (Z * Z)) :=
  commit_loop (base log :: segments log) transaction_id.

Definition committed_batch (log : SegmentedOpLogIndex) (transaction_id : list Z) : exec LogError (option OpBatch) :=
  r ← transaction_commit log transaction_id;
  match r with
  | None => Ok None
  | Some (_, id) => batches ← collect_batches_scoped log 1 (λ b, b_id b =? id) None; Ok (last batches)
  end.

Definition committed_batch_records (log : SegmentedOpLogIndex) (transaction_id : list Z) : exec LogError (list OpRecord) :=
  b ← committed_batch log transaction_id;
  Ok (match b with
      | None => []
      | Some b => operation <$> List.filter (λ e, negb (is_transaction_commit (operation e))) (entries b)
      end).

(** The merge loop of [append_entries_inner], over the descriptors and segments with the
    newest first: what is left of them, the carried entries and their level *)
Fixpoint carry_loop (levels : list Z) (segments : list PackedOpLogIndex) (carry : list OpEntry) (level : Z)
    : exec LogError (list Z * list PackedOpLogIndex * list OpEntry * Z) :=
  match levels with
  | [] => Ok (levels, segments, carry, level)
  | l :: levels' =>
      if negb (l =? level) then Ok (levels, segments, carry, level)
      else
        match segments with
        | [] => Err InvalidObject
        | prior :: segments =>
            merged ← entries_after prior 0;
            level ← ok_or (if level + 1 <=? U8_MAX then Some (level + 1) else None) InvalidObject;
            carry_loop levels' segments (merged ++ carry) level
        end
  end.

Definition append_entries (log : SegmentedOpLogIndex) (new : list OpEntry) : exec LogError SegmentedOpLogIndex :=
  if bool_decide (new = []) then Ok log
  else
    generation ← ok_or (checked_add (generation log) 1) InvalidObject;
    '(ls, ss, carry, level) ← carry_loop (reverse (levels log)) (reverse (segments log)) new 0;
    let head := match last new with Some e => e_id e | None => head_id log end in
    index ← save_and_open carry head;
    count ← ok_or (checked_add (entry_count log) (zlen new)) InvalidObject;
    Ok {| generation := generation; levels := reverse ls ++ [level]; entry_count := count; head_id := head;
          base := base log; segments := reverse ss ++ [index] |}.

Definition materialize_entries (log : SegmentedOpLogIndex) : exec LogError (list OpEntry) := log_entries_after log 0.

Definition replace_entries (log : SegmentedOpLogIndex) (es : list OpEntry) : exec LogError SegmentedOpLogIndex :=
  let head := match last es with Some e => e_id e | None => 0 end in
  generation ← ok_or (checked_add (generation log) 1) InvalidObject;
  base ← save_and_open es head;
  Ok {| generation := generation; levels := []; entry_count := ix_entry_count base; head_id := head; base := base; segments := [] |}.

(** ** Operations of the log *)

Definition build_entries (actor : list Z) (operations : list OpRecord) (start_id timestamp : Z) (scope : option (list Z))
    : list OpEntry :=
  imap (λ i op, {| e_id := start_id + Z.of_nat i; timestamp := timestamp; operation := op; undone := false;
                   batch_id := start_id; batch_index := as_u32 (Z.of_nat i); scope := scope; actor := actor;
                   operation_id := None |}) operations.

Section recorder.
Context (actor : list Z) (now : Z).

Definition append_operations (log : SegmentedOpLogIndex) (operations : list OpRecord) (scope : option (list Z))
    : exec LogError (list Z * SegmentedOpLogIndex) :=
  let new := build_entries actor operations (head_id log + 1) now scope in
  updated ← append_entries log new;
  Ok (e_id <$> new, updated).

Definition record_batch_scoped (log : SegmentedOpLogIndex) (operations : list OpRecord) (scope : option (list Z))
    : exec LogError (list Z * SegmentedOpLogIndex) :=
  if bool_decide (operations = []) then Ok ([], log) else append_operations log operations scope.

(** The loop of [record_batches_scoped] *)
Fixpoint batches_loop (groups : list (list OpRecord * option (list Z))) (next_id : Z) : list OpEntry * list (list Z) :=
  match groups with
  | [] => ([], [])
  | (operations, scope) :: groups =>
      if bool_decide (operations = []) then
        let '(all, ids) := batches_loop groups next_id in (all, [] :: ids)
      else
        let es := build_entries actor operations next_id now scope in
        let '(all, ids) := batches_loop groups (next_id + zlen es) in (es ++ all, (e_id <$> es) :: ids)
  end.
Definition record_batches_scoped (log : SegmentedOpLogIndex) (groups : list (list OpRecord * option (list Z)))
    : exec LogError (list (list Z) * SegmentedOpLogIndex) :=
  if forallb (λ g, bool_decide (g.1 = [])) groups then Ok ((λ _, []) <$> groups, log)
  else
    let '(all, ids) := batches_loop groups (head_id log + 1) in
    updated ← append_entries log all;
    Ok (ids, updated).

Definition record_batch_scoped_if_no_transaction (log : SegmentedOpLogIndex) (operations : list OpRecord)
    (scope : option (list Z)) (transaction_id : list Z) (recent_window : Z)
    : exec LogError (option (list Z) * SegmentedOpLogIndex) :=
  if bool_decide (operations = []) then Ok (Some [], log)
  else
    recent ← collect_batches_scoped log recent_window (λ _, true) scope;
    if existsb (λ b, existsb (λ e, is_transaction_commit_for (operation e) transaction_id) (entries b)) recent
    then Ok (None, log)
    else '(ids, updated) ← append_operations log operations scope; Ok (Some ids, updated).

Definition record_batch_exactly_once (log : SegmentedOpLogIndex) (operations : list OpRecord) (scope : option (list Z))
    (transaction_id : list Z) : exec LogError (option (list Z) * SegmentedOpLogIndex) :=
  if bool_decide (operations = []) then Ok (Some [], log)
  else
    commit ← transaction_commit log transaction_id;
    match commit with
    | Some _ => Ok (None, log)
    | None => '(ids, updated) ← append_operations log operations scope; Ok (Some ids, updated)
    end.

Inductive ConditionalCommitOutcome :=
| Committed (ids : list Z)
| AlreadyCommitted (records : list OpRecord)
| IsolationConflict (key : IsolationKey) (since_head_id conflicting_entry_id : Z).

(** The scan for an entry that touches one of the [keys]: [intersection(..).next()] *)
Fixpoint isolation_scan (es : list OpEntry) (ks : list IsolationKey) : option (IsolationKey * Z) :=
  match es with
  | [] => None
  | e :: es =>
      match List.filter (λ k, bool_decide (k ∈ ks)) (isolation_keys_for_record (operation e) (OpRecords.scope e)) with
      | k :: _ => Some (k, e_id e)
      | [] => isolation_scan es ks
      end
  end.

Definition record_batch_exactly_once_if_unchanged (log : SegmentedOpLogIndex) (operations : list OpRecord)
    (scope : option (list Z)) (transaction_id : list Z) (precondition : IsolationPrecondition)
    : exec LogError (ConditionalCommitOutcome * SegmentedOpLogIndex) :=
  if bool_decide (operations = []) then Ok (Committed [], log)
  else
    commit ← transaction_commit log transaction_id;
    match commit with
    | Some _ => records ← committed_batch_records log transaction_id; Ok (AlreadyCommitted records, log)
    | None =>
        conflict ←
          (if negb (bool_decide (keys precondition = [])) && negb (head_id log =? since_head_id precondition) then
             es ← log_entries_after log (since_head_id precondition);
             Ok (isolation_scan es (keys precondition))
           else Ok None);
        match conflict with
        | Some (k, id) => Ok (IsolationConflict k (since_head_id precondition) id, log)
        | None => '(ids, updated) ← append_operations log operations scope; Ok (Committed ids, updated)
        end
    end.
End recorder.

Definition recent_batches_after_scoped (log : SegmentedOpLogIndex) (since_head_id count : Z) (scope : option (list Z))
    : exec LogError (list OpBatch) :=
  collect_batches_after_scoped log since_head_id count (λ _, true) scope.

Definition undo_batches_scoped (log : SegmentedOpLogIndex) (count : Z) (scope : option (list Z)) : exec LogError (list OpBatch) :=
  collect_batches_scoped log count
    (λ b, existsb (λ e, negb (undone e) && negb (is_transaction_commit (operation e))) (entries b)) scope.
Definition redo_batches_scoped (log : SegmentedOpLogIndex) (count : Z) (scope : option (list Z)) : exec LogError (list OpBatch) :=
  collect_batches_scoped log count
    (λ b, existsb (λ e, undone e && negb (is_transaction_commit (operation e))) (entries b)) scope.
Definition recent_user_batches_scoped (log : SegmentedOpLogIndex) (count : Z) (scope : option (list Z))
    : exec LogError (list OpBatch) :=
  collect_batches_scoped log count (λ b, negb (is_transaction_marker_only b)) scope.

Definition mark_entry (undone : bool) (e : OpEntry) : OpEntry :=
  {| e_id := e_id e; timestamp := timestamp e; operation := operation e; undone := undone; batch_id := batch_id e;
     batch_index := batch_index e; scope := scope e; actor := actor e; operation_id := operation_id e |}.
Definition set_undone (es : list OpEntry) (id : Z) (undone : bool) : list OpEntry :=
  (λ e, if (batch_id e =? id) || ((batch_id e =? 0) && (e_id e =? id)) then mark_entry undone e else e) <$> es.

Definition update_batch_undone_state (log : SegmentedOpLogIndex) (batch : OpBatch) (undone : bool)
    : exec LogError (OpBatch * SegmentedOpLogIndex) :=
  es ← materialize_entries log;
  updated ← replace_entries log (set_undone es (b_id batch) undone);
  Ok ({| b_id := b_id batch; entries := mark_entry undone <$> entries batch |}, updated).

Definition move_entry (id i : Z) (e : OpEntry) : OpEntry :=
  {| e_id := e_id e; timestamp := timestamp e; operation := operation e; undone := undone e; batch_id := id;
     batch_index := as_u32 i; scope := scope e; actor := actor e; operation_id := operation_id e |}.
Definition in_either (primary secondary : Z) (e : OpEntry) : bool :=
  (effective_batch_id e =? primary) || (effective_batch_id e =? secondary).

(** The sorted [matching_indices] of [coalesce_batches], each with its entry *)
Definition compare_indexed (x y : nat * OpEntry) : comparison := e_id x.2 ?= e_id y.2.
Definition matching_indices (primary secondary : Z) (es : list OpEntry) : list (nat * OpEntry) :=
  sort_by compare_indexed (List.filter (λ x, in_either primary secondary x.2) (imap pair es)).
(** The writes through them, numbered from [i] *)
Fixpoint move_indexed (primary i : Z) (matching : list (nat * OpEntry)) (es : list OpEntry) : list OpEntry :=
  match matching with
  | [] => es
  | (idx, e) :: matching => move_indexed primary (i + 1) matching (<[idx := move_entry primary i e]> es)
  end.

Definition coalesce_batches (log : SegmentedOpLogIndex) (primary secondary : Z) : exec LogError (OpBatch * SegmentedOpLogIndex) :=
  if primary =? secondary then
    batches ← collect_batches_scoped log 1 (λ b, b_id b =? primary) None;
    b ← ok_or (last batches) Config;
    Ok (b, log)
  else
    es ← materialize_entries log;
    ensure (existsb (λ e, effective_batch_id e =? primary) es && existsb (λ e, effective_batch_id e =? secondary) es) Config ;;
    let matching := matching_indices primary secondary es in
    updated ← replace_entries log (move_indexed primary 0 matching es);
    Ok ({| b_id := primary; entries := imap (λ i x, move_entry primary (Z.of_nat i) x.2) matching |}, updated).
End OpLog.
