(* ===== verification/OpLogSpec.v ===== *)
(** * What the operation log holds

    The reference that the indexed log is compared with: [collect_batches_from_entries]
    of [crates/oplog/src/oplog/packed_oplog.rs], over the plain list of entries; its closed
    form; and the index sections of a container as that form describes them. *)

From S2P Require Import Prelude Text OpRecords OpLog.
Import OpRecords OpLog.

Module OpLogRef.

Record PendingBatch := { pb_entries : list OpEntry; pb_scope_matches : bool }.

(** The first loop of [collect_batches_from_entries]: the order of the batches and the
    pending map *)
Definition pending_step (scope_ : option (list Z)) (s : list Z * gmap Z PendingBatch) (e : OpEntry)
    : list Z * gmap Z PendingBatch :=
  let '(order, pending) := s in
  let id := effective_batch_id e in
  let order := match pending !! id with Some _ => order | None => order ++ [id] end in
  let b := default {| pb_entries := []; pb_scope_matches := true |} (pending !! id) in
  let ok := match scope_ with
            | Some s => if bool_decide (scope e = Some s) then pb_scope_matches b else false
            | None => pb_scope_matches b
            end in
  (order, <[id := {| pb_entries := pb_entries b ++ [e]; pb_scope_matches := ok |}]> pending).

Fixpoint emit_loop (count : Z) (predicate : OpBatch → bool) (order : list Z) (pending : gmap Z PendingBatch)
    (out : list OpBatch) : list OpBatch :=
  match order with
  | [] => out
  | id :: order =>
      match pending !! id with
      | None => emit_loop count predicate order pending out
      | Some b =>
          let pending := delete id pending in
          if negb (pb_scope_matches b) then emit_loop count predicate order pending out
          else
            let batch := {| b_id := id; entries := sort_by compare_batch_index (reverse (pb_entries b)) |} in
            if predicate batch then
              let out := out ++ [batch] in
              if zlen out =? count then out else emit_loop count predicate order pending out
            else emit_loop count predicate order pending out
      end
  end.

(** [collect_batches_from_entries]; the entries come newest first. *)
Definition collect_batches_from_entries (es : list OpEntry) (count : Z) (predicate : OpBatch → bool)
    (scope_ : option (list Z)) : list OpBatch :=
  if count =? 0 then []
  else
    let '(order, pending) := fold_left (pending_step scope_) es ([], ∅) in
    emit_loop count predicate order pending [].
End OpLogRef.

Import OpLogRef.

(** ** The batches of a list of entries, newest first *)

Definition of_batch (id : Z) (es : list OpEntry) : list OpEntry := List.filter (λ e, effective_batch_id e =? id) es.
Definition batch_order (es : list OpEntry) : list Z := reverse (remove_dups (effective_batch_id <$> es)).
Definition batch_of (es : list OpEntry) (id : Z) : OpBatch :=
  {| b_id := id; entries := sort_by compare_batch_index (of_batch id es) |}.
Definition batches (es : list OpEntry) : list OpBatch := batch_of es <$> batch_order es.

(** The batches shown by a query *)
Definition shown (predicate : OpBatch → bool) (scope_ : option (list Z)) (bs : list OpBatch) : list OpBatch :=
  List.filter predicate (List.filter (λ b, scope_matches scope_ (entries b)) bs).
Definition query (es : list OpEntry) (count : Z) (predicate : OpBatch → bool) (scope_ : option (list Z)) : list OpBatch :=
  take (Z.to_nat count) (shown predicate scope_ (batches es)).

Lemma remove_dups_app {A} `{EqDecision A} (l k : list A) :
  remove_dups (l ++ k) = filter (λ x, x ∉ k) (remove_dups l) ++ remove_dups k.
Proof.
  induction l as [|x l IH]; [done|]. cbn [app remove_dups]. rewrite IH.
  destruct (decide_rel elem_of x (l ++ k)) as [Hx|Hx], (decide_rel elem_of x l) as [Hl|Hl]; try done.
  - apply elem_of_app in Hx as [?|Hk]; [done|]. rewrite filter_cons_False; [done|]. intros Hn. by apply Hn.
  - destruct Hx. apply elem_of_app. by left.
  - rewrite filter_cons_True; [done|]. intros Hk. apply Hx, elem_of_app. by right.
Qed.

Lemma reverse_filter {A} (P : A → Prop) `{∀ x, Decision (P x)} (l : list A) : reverse (filter P l) = filter P (reverse l).
Proof.
  induction l as [|x l IH]; [done|]. rewrite reverse_cons, filter_app, <- IH, filter_cons.
  rewrite (filter_cons P x []). cbn [filter]. case_decide; [apply reverse_cons|symmetry; apply app_nil_r].
Qed.

Lemma batch_order_app l k : batch_order (l ++ k) = batch_order k ++ filter (λ x, x ∉ effective_batch_id <$> k) (batch_order l).
Proof. unfold batch_order. by rewrite fmap_app, remove_dups_app, reverse_app, reverse_filter. Qed.

Lemma batch_order_cons e es :
  batch_order (e :: es) =
    if bool_decide (effective_batch_id e ∈ effective_batch_id <$> es) then batch_order es
    else batch_order es ++ [effective_batch_id e].
Proof.
  unfold batch_order. cbn [fmap list_fmap remove_dups].
  destruct (decide_rel elem_of _ _); [by rewrite bool_decide_true|]. by rewrite bool_decide_false, reverse_cons.
Qed.

Lemma batch_order_elem es id : id ∈ batch_order es ↔ ∃ e, e ∈ es ∧ effective_batch_id e = id.
Proof.
  unfold batch_order. rewrite elem_of_reverse, elem_of_remove_dups, list_elem_of_fmap. split; intros (e & ? & ?); by exists e.
Qed.

Lemma batch_order_NoDup es : NoDup (batch_order es).
Proof. unfold batch_order. rewrite reverse_Permutation. apply NoDup_remove_dups. Qed.

Lemma of_batch_app id l k : of_batch id (l ++ k) = of_batch id l ++ of_batch id k.
Proof. unfold of_batch. by rewrite List.filter_app. Qed.

Lemma of_batch_elem id es e : e ∈ of_batch id es ↔ e ∈ es ∧ effective_batch_id e = id.
Proof. unfold of_batch. rewrite !list_elem_of_In, filter_In, Z.eqb_eq. done. Qed.

Lemma of_batch_nil id es : (∀ e, e ∈ es → effective_batch_id e ≠ id) → of_batch id es = [].
Proof.
  intros Hn. destruct (of_batch id es) as [|e l] eqn:E; [done|]. exfalso.
  assert (e ∈ of_batch id es) as [Hin He]%of_batch_elem by (rewrite E; by left). by apply (Hn e).
Qed.

Lemma of_batch_cons id e es : of_batch id (e :: es) = if effective_batch_id e =? id then e :: of_batch id es else of_batch id es.
Proof. done. Qed.

(** ** The reference in closed form *)

(** After the entries [es], oldest last: the order and the pending batches *)
Definition pending_ok (scope_ : option (list Z)) (es : list OpEntry) (s : list Z * gmap Z PendingBatch) : Prop :=
  s.1 = batch_order es ∧
  ∀ id, s.2 !! id =
    if bool_decide (of_batch id es = []) then None
    else Some {| pb_entries := reverse (of_batch id es); pb_scope_matches := scope_matches scope_ (of_batch id es) |}.

Lemma pending_step_ok scope_ e es s : pending_ok scope_ es s → pending_ok scope_ (e :: es) (pending_step scope_ s e).
Proof.
  destruct s as [order pending]. intros [Ho Hp]. cbn in Ho, Hp. subst order.
  set (id := effective_batch_id e). pose proof (Hp id) as Hid.
  split; cbn [pending_step fst snd]; fold id.
  - rewrite batch_order_cons. fold id. destruct (decide (id ∈ effective_batch_id <$> es)) as [Hin|Hin].
    + rewrite (bool_decide_true (id ∈ _)) by done. rewrite Hid, bool_decide_false; [done|]. intros E. apply list_elem_of_fmap in Hin as (x & Hx & Hin).
      assert (x ∈ of_batch id es) as Hx' by (by apply of_batch_elem). rewrite E in Hx'. by apply not_elem_of_nil in Hx'.
    + rewrite (bool_decide_false (id ∈ _)) by done. rewrite Hid, bool_decide_true; [done|]. apply of_batch_nil. intros x Hx Heq. apply Hin.
      rewrite <- Heq. by apply list_elem_of_fmap_2.
  - intros id'. rewrite of_batch_cons. fold id. destruct (Z.eqb_spec id id') as [<-|Hne].
    + rewrite lookup_insert_eq, bool_decide_false by done. f_equal. rewrite Hid. clear Hid Hp.
      case_bool_decide as E; cbn [default].
      all: cbn [Datatypes.id pb_entries pb_scope_matches]; rewrite reverse_cons, ?E; destruct scope_ as [s|]; [|done].
      all: cbn [scope_matches forallb]; by case_bool_decide.
    + rewrite lookup_insert_ne by done. apply Hp.
Qed.

Lemma pending_fold scope_ es : pending_ok scope_ es (fold_left (pending_step scope_) (reverse es) ([], ∅)).
Proof.
  induction es as [|e es IH]; [by split|]. rewrite reverse_cons, fold_left_app. by apply pending_step_ok.
Qed.

Lemma zlen_snoc {A} (l : list A) x : zlen (l ++ [x]) = zlen l + 1.
Proof. zlia. Qed.

Lemma emit_loop_ok es count predicate scope_ pending order out :
  NoDup order → zlen out < count →
  (∀ id, id ∈ order → pending !! id =
     Some {| pb_entries := reverse (of_batch id es); pb_scope_matches := scope_matches scope_ (of_batch id es) |}) →
  (∀ id, scope_matches scope_ (of_batch id es) = scope_matches scope_ (entries (batch_of es id))) →
  emit_loop count predicate order pending out =
    out ++ take (Z.to_nat (count - zlen out)) (shown predicate scope_ (batch_of es <$> order)).
Proof.
  intros Hnd Hc Hp Hs. revert pending out Hc Hp. induction Hnd as [|id order Hid Hnd IH]; intros pending out Hc Hp.
  { cbn. by rewrite take_nil, app_nil_r. }
  cbn [emit_loop fmap list_fmap]. rewrite Hp by (by left). cbn [pb_scope_matches pb_entries].
  assert (∀ id', id' ∈ order → delete id pending !! id' =
    Some {| pb_entries := reverse (of_batch id' es); pb_scope_matches := scope_matches scope_ (of_batch id' es) |}) as Hp'.
  { intros id' Hin. rewrite lookup_delete_ne by congruence. apply Hp. by right. }
  unfold shown at 1. cbn [List.filter]. rewrite <- Hs.
  destruct (scope_matches scope_ (of_batch id es)); cbn [negb]; [|by apply IH].
  cbn [List.filter]. rewrite reverse_involutive. fold (batch_of es id).
  destruct (predicate (batch_of es id)); [|by apply IH].
  rewrite zlen_snoc. replace (Z.to_nat (count - zlen out)) with (S (Z.to_nat (count - zlen out - 1))) by lia.
  cbn [take]. destruct (Z.eqb_spec (zlen out + 1) count) as [E|Hne].
  - replace (Z.to_nat (count - zlen out - 1)) with 0%nat by lia. by rewrite take_0.
  - rewrite IH by (done || (rewrite zlen_snoc; lia)). rewrite zlen_snoc, <- app_assoc. cbn [app]. do 3 f_equal. lia.
Qed.

Lemma scope_matches_perm scope_ es es' : es ≡ₚ es' → scope_matches scope_ es = scope_matches scope_ es'.
Proof.
  intros Hp. destruct scope_ as [s|]; [|done]. cbn [scope_matches]. apply eq_true_iff_eq.
  rewrite !forallb_forall. split; intros Ha x Hx; apply Ha; [by rewrite Hp|by rewrite <- Hp].
Qed.

(** The reference gives the first [count] of the batches that the query shows. *)
Lemma collect_batches_from_entries_query es count predicate scope_ :
  0 ≤ count → collect_batches_from_entries (reverse es) count predicate scope_ = query es count predicate scope_.
Proof.
  intros Hc. unfold collect_batches_from_entries, query. destruct (Z.eqb_spec count 0) as [->|]; [by rewrite take_0|].
  pose proof (pending_fold scope_ es) as [Ho Hp]. destruct (fold_left _ _ _) as [order pending]. cbn in Ho, Hp. subst order.
  rewrite (emit_loop_ok es count predicate scope_ pending (batch_order es) []).
  - cbn [app]. by rewrite zlen_nil, Z.sub_0_r.
  - apply batch_order_NoDup.
  - rewrite zlen_nil. lia.
  - intros id (e & He & Hid)%batch_order_elem. rewrite Hp, bool_decide_false; [done|].
    intros E. assert (e ∈ of_batch id es) as Hx by (by apply of_batch_elem). rewrite E in Hx. by apply not_elem_of_nil in Hx.
  - intros id. apply scope_matches_perm. symmetry. apply sort_by_perm.
Qed.
