(* ===== verification/OpIndex.v ===== *)
(** * The index of a container of the operation log

    The index sections that [build_index_sections] gives, described by the batches of
    the entries, and what the indexed query of a container returns ([packed_oplog.rs]). *)

From S2P Require Import Prelude Text OpRecords OpLog OpLogSpec.
Import OpRecords OpLog.

(** ** Stable sorting *)

Section stable.
Context {A : Type} (cmp : A → A → comparison).

Lemma insert_by_le_head x y l : cmp x y ≠ Gt → insert_by cmp x (y :: l) = x :: y :: l.
Proof. cbn [insert_by]. by destruct (cmp x y). Qed.

Lemma insert_by_all_le x l : Forall (λ y, cmp x y ≠ Gt) l → insert_by cmp x l = x :: l.
Proof. destruct 1 as [|y l Hy _]; [done|]. cbn [insert_by]. by destruct (cmp x y). Qed.

Lemma sort_by_sorted_id l : StronglySorted (λ x y, cmp x y ≠ Gt) l → sort_by cmp l = l.
Proof.
  induction 1 as [|x l Hs IH Hx]; [done|]. change (insert_by cmp x (sort_by cmp l) = x :: l).
  rewrite IH. by apply insert_by_all_le.
Qed.

Context (Hanti : ∀ x y, cmp y x = CompOpp (cmp x y)).
Context (Htrans : ∀ x y z, cmp x y ≠ Gt → cmp y z ≠ Gt → cmp x z ≠ Gt).

Lemma sort_by_idemp l : sort_by cmp (sort_by cmp l) = sort_by cmp l.
Proof using Hanti Htrans. apply sort_by_sorted_id. by apply sort_by_sorted. Qed.

Lemma Forall_bool_filter (Q : A → Prop) (P : A → bool) l : Forall Q l → Forall Q (List.filter P l).
Proof using.
  intros Hq. apply Forall_forall. intros x Hx%list_elem_of_In%filter_In. rewrite Forall_forall in Hq.
  apply Hq, list_elem_of_In, Hx.
Qed.

Lemma insert_by_filter (P : A → bool) x l :
  StronglySorted (λ x y, cmp x y ≠ Gt) l →
  List.filter P (insert_by cmp x l) = if P x then insert_by cmp x (List.filter P l) else List.filter P l.
Proof using Htrans.
  induction 1 as [|y l Hs IH Hy]; [done|]. cbn [insert_by].
  destruct (cmp x y) eqn:E.
  3:{ cbn [List.filter]. rewrite IH. destruct (P x), (P y); cbn [insert_by]; try done. by rewrite E. }
  all: change (List.filter P (x :: y :: l)) with (if P x then x :: List.filter P (y :: l) else List.filter P (y :: l)).
  all: destruct (P x); [|done]; rewrite insert_by_all_le; [done|]; apply Forall_bool_filter.
  all: constructor; [congruence|]; eapply Forall_impl; [exact Hy|]; intros z Hz; apply (Htrans x y z); [congruence|done].
Qed.

Lemma sort_by_filter (P : A → bool) l : List.filter P (sort_by cmp l) = sort_by cmp (List.filter P l).
Proof using Hanti Htrans.
  induction l as [|x l IH]; [done|]. cbn [List.filter].
  change (sort_by cmp (x :: l)) with (insert_by cmp x (sort_by cmp l)).
  rewrite insert_by_filter, IH by (by apply sort_by_sorted). by destruct (P x).
Qed.
End stable.

(** A sort that breaks ties with the order of the list is the stable sort. *)
Lemma sort_by_map {A B} (f : A → B) (cmp : A → A → comparison) (cmp' : B → B → comparison) l :
  StronglySorted (λ x y, cmp x y = Gt ↔ cmp' (f x) (f y) = Gt) l → f <$> sort_by cmp l = sort_by cmp' (f <$> l).
Proof.
  induction 1 as [|x l Hs IH Hx]; [done|].
  change (f <$> insert_by cmp x (sort_by cmp l) = insert_by cmp' (f x) (sort_by cmp' (f <$> l))). rewrite <- IH.
  assert (Forall (λ y, cmp x y = Gt ↔ cmp' (f x) (f y) = Gt) (sort_by cmp l)) as Hy by (by rewrite sort_by_perm).
  clear IH. induction Hy as [|y k Hy Hk IHk]; [done|]. cbn [fmap list_fmap] in *. destruct (decide (cmp x y = Gt)) as [Hg|Hg].
  - cbn [insert_by fmap list_fmap]. rewrite Hg, (proj1 Hy Hg). cbn [fmap list_fmap]. by f_equal.
  - rewrite (insert_by_le_head cmp) by done. rewrite fmap_cons, insert_by_le_head by (by rewrite <- Hy). done.
Qed.

Lemma StronglySorted_fmap_inv {A B} (f : A → B) (R : B → B → Prop) l :
  StronglySorted R (f <$> l) → StronglySorted (λ x y, R (f x) (f y)) l.
Proof.
  induction l as [|x l IH]; intros Hs; [constructor|]. rewrite fmap_cons in Hs. inversion Hs as [|? ? Hl Hx]; subst.
  constructor; [by apply IH|]. by rewrite Forall_fmap in Hx.
Qed.

Lemma compare_batch_index_anti x y : compare_batch_index y x = CompOpp (compare_batch_index x y).
Proof. apply Z.compare_antisym. Qed.
Lemma compare_batch_index_trans x y z :
  compare_batch_index x y ≠ Gt → compare_batch_index y z ≠ Gt → compare_batch_index x z ≠ Gt.
Proof. unfold compare_batch_index. intros H1 H2. change (batch_index x ≤ batch_index z). etrans; [exact H1|exact H2]. Qed.

(** ** The entries of a container *)

(** Entries with growing positive ids, few enough for the counts of the index. *)
Definition increasing (es : list OpEntry) : Prop := StronglySorted (λ x y, e_id x < e_id y) es.
Record wf_entries (es : list OpEntry) : Prop := {
  wf_increasing : increasing es;
  wf_positive : Forall (λ e, 0 < e_id e) es;
  wf_count : zlen es ≤ U32_MAX;
}.

(** The id of the newest entry of a batch *)
Definition newest (es : list OpEntry) (id : Z) : Z := foldr Z.max 0 (e_id <$> of_batch id es).

Lemma foldr_max_ge l x : x ∈ l → x ≤ foldr Z.max 0 l.
Proof. induction 1; cbn [foldr]; lia. Qed.
Lemma foldr_max_lt l x : 0 < x → Forall (λ y, y < x) l → foldr Z.max 0 l < x.
Proof. intros Hx. induction 1; cbn [foldr]; lia. Qed.
Lemma foldr_max_perm l k : l ≡ₚ k → foldr Z.max 0 l = foldr Z.max 0 k.
Proof. induction 1; cbn [foldr]; lia. Qed.

Lemma newest_gt es id x : id ∈ batch_order es → Forall (λ e, x < e_id e) es → x < newest es id.
Proof.
  intros (e & He & Hid)%batch_order_elem Hx. apply Z.lt_le_trans with (e_id e).
  - rewrite Forall_forall in Hx. by apply Hx.
  - apply foldr_max_ge, list_elem_of_fmap_2. by apply of_batch_elem.
Qed.

Lemma newest_cons e es id :
  newest (e :: es) id = if effective_batch_id e =? id then Z.max (e_id e) (newest es id) else newest es id.
Proof. unfold newest. rewrite of_batch_cons. by destruct (_ =? _). Qed.

(** The batches of the entries are listed with the newest first. *)
Lemma batch_order_sorted es :
  increasing es → Forall (λ e, 0 < e_id e) es → StronglySorted (λ a b, newest es b < newest es a) (batch_order es).
Proof.
  induction 1 as [|e es Hs IH He]; intros Hp; [constructor|]. apply Forall_cons in Hp as [Hpe Hp]. specialize (IH Hp).
  assert (∀ id, id ∈ batch_order es → newest (e :: es) id = newest es id) as Hn.
  { intros id Hid. rewrite newest_cons. pose proof (newest_gt es id (e_id e) Hid He). destruct (_ =? _); lia. }
  assert (StronglySorted (λ a b, newest (e :: es) b < newest (e :: es) a) (batch_order es)) as IH'.
  { clear Hs. revert IH Hn. generalize (batch_order es). intros o Ho Hn. induction Ho as [|a o Ho IH Ha]; constructor.
    - apply IH. intros. apply Hn. by right.
    - rewrite Forall_forall in *. intros b Hb. rewrite !Hn by (by constructor). by apply Ha. }
  rewrite batch_order_cons. case_bool_decide as Hin; [done|].
  apply StronglySorted_app_2; [|done|by repeat constructor].
  intros a b Ha ->%list_elem_of_singleton. rewrite newest_cons, Z.eqb_refl, Hn by done.
  assert (newest es (effective_batch_id e) = 0) as ->.
  { unfold newest. rewrite of_batch_nil; [done|]. intros x Hx Hid. apply Hin. rewrite <- Hid. by apply list_elem_of_fmap_2. }
  pose proof (newest_gt es a (e_id e) Ha He). lia.
Qed.

(** ** The index sections *)

(** The entries with their offsets *)
Definition indexed (es : list OpEntry) : list (OpEntry * Z) := zip es (seqZ 0 (zlen es)).

Lemma indexed_fst es : (indexed es).*1 = es.
Proof. apply fst_zip. rewrite length_seqZ. unfold zlen. lia. Qed.

Lemma zlen_indexed es : zlen (indexed es) = zlen es.
Proof. by rewrite <- (zlen_fmap fst (indexed es)), indexed_fst. Qed.

Lemma indexed_lookup es i x : indexed es !! i = Some x ↔ es !! i = Some x.1 ∧ x.2 = Z.of_nat i.
Proof.
  unfold indexed. destruct x as [e o]. rewrite lookup_zip_Some, lookup_seqZ. cbn [fst snd]. split; [intros (? & ? & ?); split; [done|lia]|].
  intros [He ->]. split; [done|]. pose proof (lookup_lt_Some _ _ _ He). unfold zlen. split; lia.
Qed.

Lemma indexed_get es x : x ∈ indexed es → get es x.2 = Some x.1.
Proof.
  intros [i [He ->]%indexed_lookup]%list_elem_of_lookup. unfold get. rewrite (proj2 (Z.leb_le _ _)) by lia.
  by rewrite Nat2Z.id.
Qed.

(** The entries of one batch, with their offsets *)
Definition batch_entries (id : Z) (xs : list (OpEntry * Z)) : list (OpEntry * Z) :=
  List.filter (λ x, effective_batch_id x.1 =? id) xs.

Lemma batch_entries_fst id xs : (batch_entries id xs).*1 = of_batch id xs.*1.
Proof.
  induction xs as [|x xs IH]; [done|]. rewrite fmap_cons, of_batch_cons, <- IH. unfold batch_entries. cbn [List.filter].
  by destruct (_ =? _).
Qed.

Lemma group_lookup xs id :
  fold_left group_step xs ∅ !! id =
    if bool_decide (batch_entries id xs = []) then None else Some (batch_entries id xs).
Proof.
  induction xs as [|x xs IH] using rev_ind; [done|]. rewrite fold_left_app. cbn [fold_left].
  unfold group_step at 1. unfold batch_entries. rewrite List.filter_app. cbn [List.filter]. fold (batch_entries id xs).
  destruct (Z.eqb_spec (effective_batch_id x.1) id) as [<-|Hne].
  - rewrite lookup_insert_eq, IH. rewrite (bool_decide_false (_ ++ _ = [])) by (by destruct (batch_entries _ xs)).
    clear IH. case_bool_decide as E; [by rewrite E|done].
  - by rewrite lookup_insert_ne, IH, app_nil_r by done.
Qed.

Lemma batch_entries_nil es id : batch_entries id (indexed es) = [] ↔ id ∉ batch_order es.
Proof.
  rewrite batch_order_elem. split.
  - intros E (e & He & Hid). apply (f_equal (fmap fst)) in E. rewrite batch_entries_fst, indexed_fst in E. assert (e ∈ of_batch id es) as Hx by (by apply of_batch_elem). rewrite E in Hx.
    by apply not_elem_of_nil in Hx.
  - intros Hn. apply (fmap_nil_inv fst). rewrite batch_entries_fst, indexed_fst. apply of_batch_nil. intros e He Hid. apply Hn. by exists e.
Qed.

(** The record of a batch *)
Definition record_of (es : list OpEntry) (id : Z) : BatchRecord := batch_record (id, batch_entries id (indexed es)).

Lemma record_of_entries es id : br_entries (record_of es id) ≡ₚ batch_entries id (indexed es).
Proof. apply sort_by_perm. Qed.

Lemma record_of_newest es id : br_newest (record_of es id) = newest es id.
Proof.
  change (br_newest _) with (foldr Z.max 0 ((λ y, e_id y.1) <$> br_entries (record_of es id))).
  unfold newest. rewrite <- (indexed_fst es) at 2. rewrite <- batch_entries_fst, <- list_fmap_compose.
  apply foldr_max_perm, fmap_Permutation, record_of_entries.
Qed.

Lemma groups_perm es :
  map_to_list (fold_left group_step (indexed es) ∅) ≡ₚ (λ id, (id, batch_entries id (indexed es))) <$> batch_order es.
Proof.
  apply NoDup_Permutation.
  - apply NoDup_map_to_list.
  - apply (NoDup_fmap_1 fst). rewrite <- list_fmap_compose. cbn. rewrite list_fmap_id. apply batch_order_NoDup.
  - intros [id l]. rewrite elem_of_map_to_list, group_lookup, list_elem_of_fmap. split.
    + case_bool_decide as E; [done|]. intros [= <-]. exists id. split; [done|].
      destruct (decide (id ∈ batch_order es)) as [|Hn]; [done|]. by apply batch_entries_nil in Hn.
    + intros (id' & [= -> ->] & Hid). rewrite bool_decide_false; [done|]. by intros ?%batch_entries_nil.
Qed.

(** The directory lists the batches of the entries, newest first. *)
Lemma batch_records_spec es : wf_entries es → batch_records (indexed es) = record_of es <$> batch_order es.
Proof.
  intros [Hs Hp _]. apply (sorted_unique (λ x y, br_newest y ?= br_newest x)).
  - intros. apply Z.compare_antisym.
  - apply sort_by_sorted; [intros; apply Z.compare_antisym|].
    intros x y z Hxy Hyz. change (br_newest z ≤ br_newest x). etrans; [exact Hyz|exact Hxy].
  - eapply StronglySorted_fmap; [|by apply batch_order_sorted].
    intros a b Hab. cbn beta. rewrite !record_of_newest. by apply Z.compare_lt_iff.
  - unfold batch_records. rewrite !sort_by_perm, groups_perm, <- list_fmap_compose. done.
Qed.

(** ** The query of a container *)

Lemma read_entries_ok f xs : (∀ x, x ∈ xs → get f x.2 = Some x.1) → read_entries f xs.*2 = Ok xs.*1.
Proof.
  induction xs as [|x xs IH]; intros Hx; [done|]. rewrite !fmap_cons. cbn [read_entries]. unfold read_entry_at.
  rewrite (Hx x) by (by left). cbn [ok_or]. rewrite bind_Ok, IH by (intros; apply Hx; by right). done.
Qed.

Lemma lay_out_offsets rs offs : (lay_out rs offs).1 = offs ++ concat ((λ r, (br_entries r).*2) <$> rs).
Proof.
  revert offs. induction rs as [|r rs IH]; intros offs; [by rewrite app_nil_r|]. cbn [lay_out]. specialize (IH (offs ++ (br_entries r).*2)).
  destruct (lay_out rs _) as [out dir]. cbn [fst] in *. rewrite IH, <- app_assoc. done.
Qed.

Lemma lay_out_cons r rs offs :
  (lay_out (r :: rs) offs).2 =
    {| bd_batch_id := br_id r; bd_newest := br_newest r; bd_first := zlen offs;
       bd_count := as_u32 (zlen (br_entries r)); bd_scope_state := br_scope r |} :: (lay_out rs (offs ++ (br_entries r).*2)).2.
Proof. cbn [lay_out]. by destruct (lay_out rs _). Qed.

Definition after (since : Z) (es : list OpEntry) : list OpEntry := List.filter (λ e, since <? e_id e) es.

(** A batch without its entries up to [since] *)
Definition batch_after (since : Z) (r : BatchRecord) : OpBatch :=
  {| b_id := br_id r; entries := sort_by compare_batch_index (after since (br_entries r).*1) |}.

(** What the loop relies on of a record *)
Record good_record (f : list OpEntry) (r : BatchRecord) : Prop := {
  gr_get : ∀ x, x ∈ br_entries r → get f x.2 = Some x.1;
  gr_count : zlen (br_entries r) ≤ U32_MAX;
  gr_newest : br_newest r = foldr Z.max 0 (e_id <$> (br_entries r).*1);
  gr_scope : br_scope r = scope_state (scope <$> (br_entries r).*1);
}.

Lemma scope_loop_none p scopes : scope_loop (Some p) scopes = SCOPE_NONE → p = None ∧ Forall (.= None) scopes.
Proof.
  induction scopes as [|s scopes IH]; cbn [scope_loop]; [by destruct p|]. case_bool_decide as E; [|done].
  intros [-> Hs]%IH. split; [done|]. by constructor.
Qed.

Lemma scope_state_none scopes : scope_state scopes = SCOPE_NONE → Forall (.= None) scopes.
Proof. destruct scopes as [|s scopes]; [done|]. intros [-> Hs]%scope_loop_none. by constructor. Qed.

Lemma batch_after_scopeless f since r s :
  good_record f r → br_scope r = SCOPE_NONE → after since (br_entries r).*1 ≠ [] →
  scope_matches (Some s) (entries (batch_after since r)) = false.
Proof.
  intros Hg Hs Hne. rewrite (gr_scope f) in Hs by done. apply scope_state_none in Hs.
  cbn [batch_after entries]. rewrite (scope_matches_perm _ _ (after since (br_entries r).*1)) by (apply sort_by_perm).
  destruct (after since _) as [|e es] eqn:E; [done|]. cbn [scope_matches forallb].
  rewrite bool_decide_false; [done|]. assert (e ∈ after since (br_entries r).*1) as He by (rewrite E; by left).
  apply list_elem_of_In, filter_In in He as [He _]. apply list_elem_of_In in He.
  rewrite Forall_forall in Hs. by rewrite (Hs (scope e)) by (by apply list_elem_of_fmap_2).
Qed.

Lemma after_nonempty since es : since < foldr Z.max 0 (e_id <$> es) → 0 ≤ since → after since es ≠ [].
Proof.
  intros Hlt Hs E. apply (Z.lt_irrefl since). eapply Z.lt_le_trans; [exact Hlt|].
  induction es as [|e es IH]; [done|]. cbn [after List.filter] in E. destruct (Z.ltb_spec since (e_id e)); [done|].
  cbn [fmap list_fmap foldr] in *. apply Z.max_lub; [done|].
  destruct (Z.lt_ge_cases since (foldr Z.max 0 (e_id <$> es))) as [Hl|]; [by apply IH|done].
Qed.

Lemma sub_list_range {A} (pre l post : list A) :
  slice (E:=LogError) (pre ++ l ++ post) (zlen pre) (zlen pre + zlen l) = Ok l.
Proof. rewrite slice_ok by zlia. by rewrite sub_list_middle. Qed.

Lemma collect_loop_spec f since count predicate scope_ A B offs out :
  0 ≤ since → zlen out < count →
  Forall (good_record f) A → Forall (λ r, since < br_newest r) A → Forall (λ r, br_newest r ≤ since) B →
  zlen (lay_out (A ++ B) offs).1 ≤ U32_MAX →
  collect_loop f (lay_out (A ++ B) offs).1 since count predicate scope_ (lay_out (A ++ B) offs).2 out =
    Ok (out ++ take (Z.to_nat (count - zlen out)) (shown predicate scope_ (batch_after since <$> A))).
Proof.
  intros Hsince Hc Hg Hlt Hge Hz. revert offs out Hc Hz.
  induction Hlt as [|r A Hr Hlt IH]; intros offs out Hc Hz; cbn [app].
  { cbn [fmap list_fmap shown List.filter]. rewrite take_nil, app_nil_r.
    destruct Hge as [|r B Hr _]; [done|]. rewrite lay_out_cons. cbn [collect_loop bd_newest].
    by rewrite (proj2 (Z.leb_le _ _)). }
  apply Forall_cons in Hg as [Hgr Hg]. specialize (IH Hg).
  assert ((lay_out (r :: A ++ B) offs).1 = (lay_out (A ++ B) (offs ++ (br_entries r).*2)).1) as Hout.
  { rewrite !lay_out_offsets. cbn [fmap list_fmap concat]. by rewrite <- app_assoc. }
  cbn [app] in Hz. rewrite Hout in Hz |- *. rewrite lay_out_cons.
  assert (as_u32 (zlen (br_entries r)) = zlen (br_entries r).*2) as Hcount.
  { rewrite zlen_fmap. apply Z.mod_small. pose proof (gr_count _ _ Hgr). unfold U32_MAX in *. zlia. }
  rewrite Hcount. cbn [collect_loop bd_newest bd_first bd_count bd_scope_state bd_batch_id].
  rewrite (proj2 (Z.leb_gt _ _)) by done.
  assert (after since (br_entries r).*1 ≠ []) as Hne.
  { apply after_nonempty; [|done]. by rewrite <- (gr_newest _ _ Hgr). }
  set (next := collect_loop f _ since count predicate scope_ _) in *.
  rewrite fmap_cons. unfold shown at 1. cbn [List.filter].
  match goal with |- (if ?b then _ else _) = _ => destruct b eqn:Hskip end.
  { destruct scope_ as [s|]; [|done]. apply andb_prop in Hskip as [Hnone _]. apply Z.eqb_eq in Hnone.
    rewrite (batch_after_scopeless f) by done. by apply IH. }
  assert (zlen offs + zlen (br_entries r).*2 ≤ zlen (lay_out (A ++ B) (offs ++ (br_entries r).*2)).1) as Hfit.
  { rewrite lay_out_offsets. zlia. }
  unfold checked_add. rewrite (proj2 (Z.leb_le _ USIZE_MAX)) by (unfold U32_MAX, USIZE_MAX in *; lia).
  cbn [ok_or]. rewrite bind_Ok. unfold ensure. rewrite (proj2 (Z.leb_le _ _)) by done. rewrite bind_Ok.
  rewrite lay_out_offsets, <- app_assoc, sub_list_range, bind_Ok.
  rewrite (read_entries_ok f) by apply Hgr. rewrite bind_Ok. fold (after since (br_entries r).*1).
  rewrite bool_decide_false by done. fold (batch_after since r).
  change (sort_by compare_batch_index _) with (entries (batch_after since r)).
  destruct (scope_matches scope_ (entries (batch_after since r))); cbn [negb List.filter]; [|by apply IH].
  destruct (predicate (batch_after since r)); [|by apply IH].
  rewrite zlen_snoc. replace (Z.to_nat (count - zlen out)) with (S (Z.to_nat (count - zlen out - 1))) by lia.
  cbn [take]. destruct (Z.eqb_spec (zlen out + 1) count) as [E|Hn].
  - replace (Z.to_nat (count - zlen out - 1)) with 0%nat by lia. by rewrite take_0.
  - unfold next. rewrite IH by (done || (rewrite zlen_snoc; lia)). rewrite zlen_snoc, <- app_assoc. cbn [app]. do 4 f_equal. lia.
Qed.

Definition until (since : Z) (es : list OpEntry) : list OpEntry := List.filter (λ e, e_id e <=? since) es.

Lemma after_elem since es e : e ∈ after since es ↔ e ∈ es ∧ since < e_id e.
Proof. unfold after. rewrite !list_elem_of_In, filter_In, Z.ltb_lt. done. Qed.
Lemma until_elem since es e : e ∈ until since es ↔ e ∈ es ∧ e_id e ≤ since.
Proof. unfold until. rewrite !list_elem_of_In, filter_In, Z.leb_le. done. Qed.

Lemma after_all since es : Forall (λ e, since < e_id e) es → after since es = es.
Proof. induction 1 as [|e es He _ IH]; [done|]. cbn. rewrite (proj2 (Z.ltb_lt _ _)) by done. by f_equal. Qed.
Lemma after_none since es : Forall (λ e, e_id e ≤ since) es → after since es = [].
Proof. induction 1 as [|e es He _ IH]; [done|]. cbn. by rewrite (proj2 (Z.ltb_ge _ _)). Qed.
Lemma after_app since l k : after since (l ++ k) = after since l ++ after since k.
Proof. apply List.filter_app. Qed.

Lemma until_none since es : Forall (λ e, since < e_id e) es → until since es = [].
Proof. induction 1 as [|e es He _ IH]; [done|]. cbn. by rewrite (proj2 (Z.leb_gt _ _)). Qed.

Lemma increasing_split since es : increasing es → es = until since es ++ after since es.
Proof.
  induction 1 as [|e es Hs IH He]; [done|]. destruct (Z.lt_ge_cases since (e_id e)) as [Hlt|Hge].
  - rewrite until_none, after_all; [done|..]; (constructor; [done|]); eapply Forall_impl; try exact He; cbn; lia.
  - unfold until, after. cbn [List.filter]. rewrite (proj2 (Z.leb_le _ _)), (proj2 (Z.ltb_ge _ _)) by done.
    cbn [app]. f_equal. exact IH.
Qed.

Lemma of_batch_after since id es : of_batch id (after since es) = after since (of_batch id es).
Proof.
  unfold after, of_batch. induction es as [|e es IH]; [done|]. cbn [List.filter].
  destruct (since <? e_id e) eqn:E1, (effective_batch_id e =? id) eqn:E2; cbn [List.filter]; by rewrite ?E1, ?E2, ?IH.
Qed.

Lemma increasing_filter P es : increasing es → increasing (List.filter P es).
Proof.
  induction 1 as [|e es Hs IH He]; [constructor|]. cbn [List.filter]. destruct (P e); [|done].
  constructor; [done|]. by apply Forall_bool_filter.
Qed.

Lemma batch_entries_sorted es id :
  increasing es → StronglySorted (λ x y, compare_index x y = Gt ↔ compare_batch_index x.1 y.1 = Gt) (batch_entries id (indexed es)).
Proof.
  intros Hs. assert (StronglySorted (λ x y : OpEntry * Z, e_id x.1 < e_id y.1) (batch_entries id (indexed es))) as Hi.
  { pose proof (increasing_filter (λ e, effective_batch_id e =? id) es Hs) as Hf. change (List.filter _ _) with (of_batch id es) in Hf.
    rewrite <- (indexed_fst es), <- batch_entries_fst in Hf. by apply StronglySorted_fmap_inv in Hf. }
  eapply StronglySorted_weaken; [|exact Hi]. intros x y Hxy. cbn beta in *. unfold compare_index, compare_batch_index.
  destruct (batch_index x.1 ?= batch_index y.1); [|done..]. by rewrite (proj2 (Z.compare_lt_iff _ _)).
Qed.

Lemma record_of_fst es id : increasing es → (br_entries (record_of es id)).*1 = sort_by compare_batch_index (of_batch id es).
Proof.
  intros Hs. change (br_entries _) with (sort_by compare_index (batch_entries id (indexed es))).
  rewrite (sort_by_map fst compare_index compare_batch_index), batch_entries_fst, indexed_fst; [done|].
  by apply batch_entries_sorted.
Qed.

Lemma batch_after_record since es id :
  increasing es → batch_after since (record_of es id) = batch_of (after since es) id.
Proof.
  intros Hs. unfold batch_after, batch_of. f_equal. rewrite record_of_fst, of_batch_after by done. unfold after.
  rewrite sort_by_filter by (apply compare_batch_index_anti || apply compare_batch_index_trans).
  by rewrite sort_by_idemp by (apply compare_batch_index_anti || apply compare_batch_index_trans).
Qed.

Lemma good_record_of es id : wf_entries es → good_record es (record_of es id).
Proof.
  intros [Hs Hp Hc]. split.
  - intros x Hx. rewrite record_of_entries in Hx. apply indexed_get. apply list_elem_of_In, filter_In in Hx.
    apply list_elem_of_In, Hx.
  - etrans; [|exact Hc]. unfold zlen. rewrite record_of_entries. rewrite <- (length_fmap fst), batch_entries_fst, indexed_fst.
    pose proof (List.filter_length_le (λ e, effective_batch_id e =? id) es). unfold of_batch. lia.
  - change (br_newest (record_of es id)) with (foldr Z.max 0 ((λ y, e_id y.1) <$> br_entries (record_of es id))).
    by rewrite <- list_fmap_compose.
  - change (br_scope (record_of es id)) with (scope_state ((λ y, scope y.1) <$> br_entries (record_of es id))).
    by rewrite <- list_fmap_compose.
Qed.

(** The batches with an entry after [since] come first in the directory. *)
Lemma batch_order_split since es :
  increasing es → Forall (λ e, 0 < e_id e) es → 0 ≤ since →
  ∃ rest, batch_order es = batch_order (after since es) ++ rest ∧
    Forall (λ id, since < newest es id) (batch_order (after since es)) ∧ Forall (λ id, newest es id ≤ since) rest.
Proof.
  intros Hs Hp Hsince.
  exists (filter (λ id, id ∉ effective_batch_id <$> after since es) (batch_order (until since es))). split_and!.
  - rewrite (increasing_split since es) at 1 by done. apply batch_order_app.
  - apply Forall_forall. intros id (e & [He Hlt]%after_elem & Hid)%batch_order_elem.
    eapply Z.lt_le_trans; [exact Hlt|]. apply foldr_max_ge, list_elem_of_fmap_2. by apply of_batch_elem.
  - apply Forall_forall. intros id [Hn _]%list_elem_of_filter. apply Z.lt_succ_r. apply foldr_max_lt; [lia|].
    apply Forall_forall. intros x (e & -> & [He Hid]%of_batch_elem)%list_elem_of_fmap.
    destruct (Z.lt_ge_cases since (e_id e)) as [Hlt|]; [|lia]. exfalso. apply Hn. rewrite <- Hid.
    apply list_elem_of_fmap_2. by apply after_elem.
Qed.

(** The container that holds the entries [es] *)
Definition container_of (es : list OpEntry) : PackedOpLogIndex :=
  {| file := Some es; ix_entry_count := zlen es; ix_head_id := default 0 (e_id <$> last es);
     sections := build_index_sections es |}.
Definition holds (ix : PackedOpLogIndex) (es : list OpEntry) : Prop := ix = container_of es ∨ ix = empty ∧ es = [].

Lemma build_sections es :
  batch_offsets (build_index_sections es) = (lay_out (batch_records (indexed es)) []).1 ∧
  batch_dir (build_index_sections es) = (lay_out (batch_records (indexed es)) []).2.
Proof. unfold build_index_sections. fold (indexed es). by destruct (lay_out _ _). Qed.

Lemma concat_zlen {A} (ls : list (list A)) : zlen (concat ls) = foldr Z.add 0 (zlen <$> ls).
Proof. induction ls as [|l ls IH]; [done|]. cbn [concat fmap list_fmap foldr]. rewrite zlen_app, IH. done. Qed.

Lemma foldr_add_perm l k : l ≡ₚ k → foldr Z.add 0 l = foldr Z.add 0 k.
Proof. induction 1; cbn [foldr]; lia. Qed.

(** Every entry is in exactly one batch. *)
Lemma batches_partition_order es (o : list Z) :
  NoDup o → (∀ e, e ∈ es → effective_batch_id e ∈ o) → foldr Z.add 0 ((λ id, zlen (of_batch id es)) <$> o) = zlen es.
Proof.
  intros Ho. induction es as [|e es IH]; intros Hcover.
  { clear. induction o as [|a o IH]; [done|]. rewrite fmap_cons. cbn [foldr]. by rewrite IH. }
  rewrite zlen_cons, <- IH by (intros; apply Hcover; by right).
  specialize (Hcover e ltac:(by left)). clear IH.
  assert (∀ a, zlen (of_batch a (e :: es)) = (if effective_batch_id e =? a then 1 else 0) + zlen (of_batch a es)) as Hc.
  { intros a. rewrite of_batch_cons. destruct (_ =? _); zlia. }
  revert Hcover Hc. generalize (effective_batch_id e). intros i Hcover Hc.
  induction Ho as [|a o Ha Ho IHo]; [by apply not_elem_of_nil in Hcover|]. rewrite !fmap_cons. cbn [foldr]. rewrite Hc.
  destruct (Z.eqb_spec i a) as [->|Hne].
  - assert (((λ id, zlen (of_batch id (e :: es))) <$> o) = ((λ id, zlen (of_batch id es)) <$> o)) as ->; [|lia].
    apply list_fmap_ext. intros j b Hb%list_elem_of_lookup_2. rewrite Hc. destruct (Z.eqb_spec a b) as [->|]; [done|lia].
  - apply elem_of_cons in Hcover as [->|Hi]; [done|]. rewrite IHo by done. lia.
Qed.

Lemma batches_partition es : foldr Z.add 0 ((λ id, zlen (of_batch id es)) <$> batch_order es) = zlen es.
Proof.
  apply batches_partition_order; [apply batch_order_NoDup|]. intros e He. apply batch_order_elem. by exists e.
Qed.

Lemma zlen_record es id : zlen (br_entries (record_of es id)) = zlen (of_batch id es).
Proof. unfold zlen. rewrite record_of_entries. by rewrite <- (length_fmap fst), batch_entries_fst, indexed_fst. Qed.

Lemma offsets_count es : wf_entries es → zlen (batch_offsets (build_index_sections es)) = zlen es.
Proof.
  intros Hwf. rewrite (proj1 (build_sections es)), lay_out_offsets, batch_records_spec by done. cbn [app].
  rewrite concat_zlen, <- !list_fmap_compose, <- batches_partition. f_equal. apply list_fmap_ext.
  intros i id _. change (zlen (br_entries (record_of es id)).*2 = zlen (of_batch id es)). by rewrite zlen_fmap, zlen_record.
Qed.

(** The indexed query of a container gives what the reference query of its entries gives. *)
Lemma container_collect_spec ix es since count predicate scope_ :
  wf_entries es → holds ix es → 0 ≤ since → 0 ≤ count →
  container_collect ix since count predicate scope_ = Ok (query (after since es) count predicate scope_).
Proof.
  intros Hwf Hix Hs Hc. unfold container_collect. destruct (Z.eqb_spec count 0) as [->|Hc']; [done|]. cbn [orb].
  destruct Hix as [-> | [-> ->]]; [|symmetry; apply f_equal, take_nil]. cbn [ix_entry_count container_of].
  destruct (Z.eqb_spec (zlen es) 0) as [->%zlen_0_nil|_]; [symmetry; apply f_equal, take_nil|].
  unfold open_file. cbn [file container_of ok_or]. rewrite bind_Ok. cbn [sections container_of].
  pose proof (offsets_count es Hwf) as Hz. destruct (build_sections es) as [Ho Hd]. rewrite Ho in Hz. rewrite Ho, Hd.
  rewrite batch_records_spec in * by done.
  destruct (batch_order_split since es) as (rest & Hsplit & Hlt & Hge); [apply Hwf..|done|].
  rewrite Hsplit, fmap_app in *. rewrite collect_loop_spec.
  - cbn [app]. rewrite zlen_nil, Z.sub_0_r. unfold query, batches. do 3 f_equal. rewrite <- list_fmap_compose.
    apply list_fmap_ext. intros i id _. apply batch_after_record, Hwf.
  - done.
  - rewrite zlen_nil. lia.
  - apply Forall_fmap, Forall_true. intros id. by apply good_record_of.
  - apply Forall_fmap. eapply Forall_impl; [exact Hlt|]. intros id. unfold compose. by rewrite record_of_newest.
  - apply Forall_fmap. eapply Forall_impl; [exact Hge|]. intros id. unfold compose. by rewrite record_of_newest.
  - rewrite Hz. apply Hwf.
Qed.

(** ** The transaction directory *)

(** The first commit entry of a transaction, with its batch *)
Definition first_commit (id : list Z) (es : list OpEntry) : option (Z * Z) :=
  (λ e, (e_id e, effective_batch_id e)) <$> head (List.filter (λ e, is_transaction_commit_for (operation e) id) es).

Lemma first_commit_app id l k :
  first_commit id (l ++ k) = match first_commit id l with Some c => Some c | None => first_commit id k end.
Proof. unfold first_commit. rewrite List.filter_app. by destruct (List.filter _ l). Qed.

Lemma tx_lookup xs id : fold_left tx_step xs ∅ !! id = first_commit id xs.*1.
Proof.
  induction xs as [|x xs IH] using rev_ind; [done|]. rewrite fold_left_app, fmap_app, first_commit_app, <- IH.
  cbn [fold_left]. unfold tx_step at 1. rewrite fmap_cons, fmap_nil. unfold first_commit. cbn [List.filter].
  destruct (operation x.1) eqn:Eop; cbn [is_transaction_commit_for]; try (by destruct (fold_left tx_step xs ∅ !! id)).
  case_bool_decide as Heq; [subst transaction_id|].
  - destruct (fold_left tx_step xs ∅ !! id) eqn:E; [done|]. by rewrite lookup_insert_eq.
  - destruct (fold_left tx_step xs ∅ !! transaction_id); [by destruct (fold_left tx_step xs ∅ !! id)|].
    rewrite lookup_insert_ne by done. by destruct (fold_left tx_step xs ∅ !! id).
Qed.

Definition compare_tx (x y : TxDirRecord) : comparison := compare_bytes (tx_key x) (tx_key y).

Lemma sorted_keys_strict {A} (key : A → list Z) (l : list A) :
  NoDup (key <$> l) →
  StronglySorted (λ x y, compare_bytes (key x) (key y) = Lt) (sort_by (λ x y, compare_bytes (key x) (key y)) l).
Proof.
  intros Hnd. assert (NoDup (key <$> sort_by (λ x y, compare_bytes (key x) (key y)) l)) as Hnd' by (by rewrite sort_by_perm).
  assert (StronglySorted (λ x y, compare_bytes (key x) (key y) ≠ Gt) (sort_by (λ x y, compare_bytes (key x) (key y)) l)) as Hs.
  { apply (sort_by_sorted (λ x y, compare_bytes (key x) (key y))); [intros; apply compare_bytes_antisym|].
    intros x y z. apply compare_bytes_le_trans. }
  induction Hs as [|x k Hs IH Hx]; [constructor|]. rewrite fmap_cons in Hnd'. apply NoDup_cons in Hnd' as [Hn Hnd'].
  constructor; [by apply IH|]. rewrite Forall_forall in *. intros y Hy. specialize (Hx y Hy).
  destruct (compare_bytes (key x) (key y)) eqn:E; [|done|done]. apply compare_bytes_eq in E. destruct Hn. rewrite E.
  by apply list_elem_of_fmap_2.
Qed.

Lemma tx_dir_sorted es : StronglySorted (λ x y, compare_tx x y = Lt) (tx_dir (build_index_sections es)).
Proof.
  unfold build_index_sections. fold (indexed es). destruct (lay_out _ _). cbn [tx_dir].
  eapply StronglySorted_fmap; [|by apply (sorted_keys_strict fst), NoDup_fst_map_to_list]. done.
Qed.

Lemma tx_dir_elem es r :
  r ∈ tx_dir (build_index_sections es) ↔ first_commit (tx_key r) es = Some (tx_entry r, tx_batch r).
Proof.
  unfold build_index_sections. fold (indexed es). destruct (lay_out _ _). cbn [tx_dir].
  pose proof (tx_lookup (indexed es) (tx_key r)) as Htx. rewrite indexed_fst in Htx. rewrite <- Htx, list_elem_of_fmap. split.
  - intros ([k [a b]] & -> & Hx). rewrite sort_by_perm in Hx. by apply elem_of_map_to_list in Hx.
  - intros E. exists (tx_key r, (tx_entry r, tx_batch r)). split; [by destruct r|]. rewrite sort_by_perm.
    by apply elem_of_map_to_list.
Qed.

Lemma container_transaction_commit_spec ix es id :
  holds ix es → container_transaction_commit ix id = Ok (first_commit id es).
Proof.
  unfold container_transaction_commit. intros [-> | [-> ->]]; [|done]. cbn [sections container_of].
  set (dir := tx_dir (build_index_sections es)).
  pose proof (binary_search_by_bounds (λ r, compare_bytes (tx_key r) id) dir) as Hb.
  pose proof (binary_search_by_complete (λ r, compare_bytes (tx_key r) id) dir) as Hc.
  destruct (binary_search_by _ dir) as [o| | |] eqn:E; [|done..]. cbn [returns lift] in *. rewrite bind_Ok.
  destruct o as [i|].
  - destruct (Hb i eq_refl) as (Hi & r & Hr & Heq). unfold index. rewrite (proj2 (Z.leb_le _ _)), Hr by lia. rewrite bind_Ok.
    apply compare_bytes_eq in Heq. subst id. f_equal. symmetry. apply tx_dir_elem. by eapply list_elem_of_lookup_2.
  - f_equal. destruct (first_commit id es) as [[a b]|] eqn:Hf; [|done]. exfalso.
    assert ({| tx_key := id; tx_entry := a; tx_batch := b |} ∈ dir) as [j Hj]%list_elem_of_lookup by (by apply tx_dir_elem).
    refine (Hc _ eq_refl j _ Hj (proj2 (compare_bytes_eq _ _) eq_refl)).
    intros j' k x y Hjk Hx Hy. pose proof (StronglySorted_lookup_lt _ _ _ _ _ _ (tx_dir_sorted es) Hx Hy Hjk) as Hxy.
    unfold compare_tx in Hxy. split; intros Hn.
    + destruct (compare_bytes (tx_key y) id) eqn:Ey; [|exfalso|done].
      * apply compare_bytes_eq in Ey. by rewrite <- Ey, Hxy in Hn.
      * apply Hn. by apply (compare_bytes_trans Lt _ (tx_key y)).
    + destruct (compare_bytes (tx_key x) id) eqn:Ex; [exfalso|done|exfalso].
      * apply compare_bytes_eq in Ex. apply Hn. rewrite compare_bytes_antisym, <- Ex, Hxy. done.
      * apply Hn. rewrite compare_bytes_antisym in Ex. destruct (compare_bytes id (tx_key x)) eqn:Ex'; try done.
        rewrite compare_bytes_antisym, (compare_bytes_trans Lt id (tx_key x)); done.
Qed.

(** ** A built index is valid *)

Lemma any_pair_sorted {A} (R : A → A → Prop) (bad : A → A → bool) l :
  StronglySorted R l → (∀ x y, R x y → bad x y = false) → any_pair bad l = false.
Proof.
  intros Hs Hb. induction Hs as [|x l Hs IH Hx]; [done|]. destruct Hx as [|y l Hxy _]; [done|].
  cbn [any_pair] in *. by rewrite Hb, IH.
Qed.

Lemma built_entry_offsets es :
  entry_offsets (build_index_sections es) = (λ x, {| eo_id := e_id x.1; eo_offset := x.2 |}) <$> indexed es.
Proof. unfold build_index_sections. fold (indexed es). by destruct (lay_out _ _). Qed.

Lemma indexed_bound es x : x ∈ indexed es → 0 ≤ x.2 < zlen es.
Proof. intros [i [Hi ->]%indexed_lookup]%list_elem_of_lookup. apply lookup_lt_Some in Hi. unfold zlen. lia. Qed.

Lemma last_ids es : eo_id <$> last (entry_offsets (build_index_sections es)) = e_id <$> last es.
Proof.
  rewrite built_entry_offsets, fmap_last. rewrite <- (indexed_fst es) at 2. rewrite fmap_last.
  by destruct (last (indexed es)).
Qed.

Lemma indexed_ids_sorted es : increasing es → StronglySorted (λ x y, eo_id x < eo_id y) (entry_offsets (build_index_sections es)).
Proof.
  intros Hs. unfold increasing in Hs. rewrite <- (indexed_fst es) in Hs. apply StronglySorted_fmap_inv in Hs.
  rewrite built_entry_offsets. by eapply StronglySorted_fmap; [|exact Hs].
Qed.

Lemma lay_out_dir_bounds rs offs :
  Forall (λ r, zlen (br_entries r) ≤ U32_MAX) rs →
  Forall (λ d, bd_first d + bd_count d ≤ zlen (lay_out rs offs).1) (lay_out rs offs).2 ∧
  bd_count <$> (lay_out rs offs).2 = (λ r, zlen (br_entries r)) <$> rs ∧
  bd_newest <$> (lay_out rs offs).2 = br_newest <$> rs.
Proof.
  intros Hc. revert offs. induction Hc as [|r rs Hr Hc IH]; intros offs; [done|].
  specialize (IH (offs ++ (br_entries r).*2)) as (Hb & Hn & Hw). rewrite lay_out_cons.
  assert ((lay_out (r :: rs) offs).1 = (lay_out rs (offs ++ (br_entries r).*2)).1) as ->.
  { cbn [lay_out]. by destruct (lay_out rs _). }
  assert (as_u32 (zlen (br_entries r)) = zlen (br_entries r)) as Hz.
  { apply Z.mod_small. unfold U32_MAX in *. zlia. }
  rewrite !fmap_cons, Hn, Hw. cbn [bd_count bd_newest]. rewrite Hz. split_and!; [|done..]. constructor; [|done].
  cbn [bd_first bd_count]. rewrite lay_out_offsets. zlia.
Qed.

Lemma built_dir es :
  wf_entries es →
  Forall (λ d, bd_first d + bd_count d ≤ zlen es) (batch_dir (build_index_sections es)) ∧
  foldr Z.add 0 (bd_count <$> batch_dir (build_index_sections es)) = zlen es ∧
  StronglySorted (λ x y, bd_newest y < bd_newest x) (batch_dir (build_index_sections es)).
Proof.
  intros Hwf. pose proof (offsets_count es Hwf) as Hz. destruct (build_sections es) as [Ho ->]. rewrite Ho in Hz.
  destruct (lay_out_dir_bounds (batch_records (indexed es)) []) as (Hb & Hn & Hw).
  { rewrite batch_records_spec by done. apply Forall_fmap, Forall_true. intros id. by apply good_record_of. }
  rewrite Hz in Hb. split_and!; [done|..].
  - rewrite Hn, batch_records_spec, <- list_fmap_compose, <- batches_partition by done. f_equal. apply list_fmap_ext.
    intros i id _. apply zlen_record.
  - assert (StronglySorted (λ x y, y < x) (bd_newest <$> (lay_out (batch_records (indexed es)) []).2)) as Hs.
    { rewrite Hw, batch_records_spec, <- list_fmap_compose by done. eapply StronglySorted_fmap; [|apply batch_order_sorted; apply Hwf].
      intros a b Hab. unfold compose. by rewrite !record_of_newest. }
    by apply StronglySorted_fmap_inv in Hs.
Qed.

Lemma batch_offsets_bound es : wf_entries es → Forall (λ o, 0 ≤ o < zlen es) (batch_offsets (build_index_sections es)).
Proof.
  intros Hwf. rewrite (proj1 (build_sections es)), lay_out_offsets, batch_records_spec by done. cbn [app].
  apply Forall_concat. apply Forall_fmap, Forall_fmap, Forall_true. intros id. unfold compose. apply Forall_fmap, Forall_forall.
  intros x Hx. rewrite record_of_entries in Hx. apply list_elem_of_In, filter_In in Hx as [Hx _].
  by apply indexed_bound, list_elem_of_In.
Qed.

Lemma forallb_Forall {A} (p : A → bool) (P : A → Prop) l : Forall P l → (∀ x, P x → p x = true) → forallb p l = true.
Proof. intros Hl Hp. apply forallb_forall. intros x Hx%list_elem_of_In. rewrite Forall_forall in Hl. by apply Hp, Hl. Qed.

Lemma save_and_open_ok es head :
  wf_entries es → head = default 0 (e_id <$> last es) → save_and_open es head = Ok (container_of es).
Proof.
  intros Hwf ->. unfold save_and_open. pose proof (last_ids es) as Hlast. destruct (built_dir es Hwf) as (Hb & Hn & Hd).
  assert (validate_index_records es (default 0 (e_id <$> last es)) (build_index_sections es) = Ok tt) as ->; [|done].
  unfold validate_index_records. rewrite Hlast.
  replace (zlen (entry_offsets (build_index_sections es))) with (zlen es).
  2:{ by rewrite built_entry_offsets, zlen_fmap, zlen_indexed. }
  rewrite Z.eqb_refl, (offsets_count es Hwf), Hn, Z.eqb_refl. cbn [ensure]. rewrite bind_Ok.
  assert ((if zlen es =? 0 then ensure (default 0 (e_id <$> last es) =? 0) InvalidObject
    else ensure (bool_decide (e_id <$> last es = Some (default 0 (e_id <$> last es)))) InvalidObject) = Ok tt) as ->.
  { destruct (Z.eqb_spec (zlen es) 0) as [->%zlen_0_nil|Hne]; [done|]. destruct (last es) eqn:E.
    - cbn. by rewrite bool_decide_true.
    - by apply last_None in E as ->. }
  rewrite bind_Ok. rewrite (forallb_Forall _ (λ r, 0 ≤ eo_offset r < zlen es)).
  2:{ rewrite built_entry_offsets. apply Forall_fmap, Forall_forall. intros x Hx. by apply (indexed_bound es). }
  2:{ intros r Hr. apply andb_true_intro. split; [apply Z.leb_le|apply Z.ltb_lt]; lia. }
  rewrite (any_pair_sorted (λ x y, eo_id x < eo_id y)) by (apply indexed_ids_sorted, Hwf || (intros; apply Z.leb_gt; lia)).
  rewrite (forallb_Forall _ (λ o, 0 ≤ o < zlen es)).
  2:{ by apply batch_offsets_bound. }
  2:{ intros r Hr. apply andb_true_intro. split; [apply Z.leb_le|apply Z.ltb_lt]; lia. }
  rewrite (any_pair_sorted (λ x y, bd_newest y < bd_newest x)) by (done || (intros; apply Z.leb_gt; lia)).
  rewrite (forallb_Forall _ _ _ Hb) by (intros; by apply Z.leb_le).
  rewrite (any_pair_sorted _ _ _ (tx_dir_sorted es)).
  2:{ intros x y Hxy. rewrite compare_bytes_antisym. unfold compare_tx in Hxy. by rewrite Hxy. }
  rewrite (forallb_Forall _ (λ r, r ∈ tx_dir (build_index_sections es))); [done|by apply Forall_forall|].
  intros r Hr%tx_dir_elem. apply existsb_exists. unfold first_commit in Hr.
  destruct (List.filter _ es) as [|e l] eqn:E; [done|]. injection Hr as He _. exists e.
  assert (In e (List.filter (λ e, is_transaction_commit_for (operation e) (tx_key r)) es)) as [Hin Hc]%filter_In by (rewrite E; by left).
  split; [done|]. rewrite Hc, andb_true_r. by apply Z.eqb_eq.
Qed.
