(* ===== verification/OpSegments.v ===== *)
(** * The segmented operation log as a list of entries

    The invariant of the base container and the binary-counter tail of segments, the
    queries of a log that satisfies it, and the two writes that keep it: the append of
    entries and their replacement ([segmented_oplog.rs]). *)

From S2P Require Import Prelude Text OpRecords OpLog OpLogSpec OpIndex.
Import OpRecords OpLog OpLogRef.

(** ** Reading one container *)

Lemma after_drop since (r : Z) es :
  (∀ i e, es !! i = Some e → (e_id e <=? since) = (Z.of_nat i <? r)) → after since es = drop (Z.to_nat r) es.
Proof.
  revert r. induction es as [|e es IH]; intros r Hr; [by rewrite drop_nil|].
  pose proof (Hr 0%nat e eq_refl) as He. change (Z.of_nat 0) with 0 in He.
  unfold after. cbn [List.filter]. fold (after since es). rewrite Z.ltb_antisym, He. destruct (Z.ltb_spec 0 r); cbn [negb].
  - replace (Z.to_nat r) with (S (Z.to_nat (r - 1))) by lia. cbn [drop]. apply IH. intros i x Hx.
    rewrite (Hr (S i) x Hx). apply eq_true_iff_eq. rewrite !Z.ltb_lt. lia.
  - replace (Z.to_nat r) with 0%nat by lia. rewrite drop_0. f_equal. rewrite (IH 0); [done|]. intros i x Hx.
    rewrite (Hr (S i) x Hx). apply eq_true_iff_eq. rewrite !Z.ltb_lt. lia.
Qed.

Lemma increasing_lookup es i j x y :
  increasing es → es !! i = Some x → es !! j = Some y → (i ≤ j)%nat → e_id x ≤ e_id y.
Proof.
  intros Hs Hx Hy Hij. destruct (decide (i = j)) as [->|]; [replace y with x by congruence; done|].
  apply Z.lt_le_incl. apply (StronglySorted_lookup_lt _ _ _ _ _ _ Hs Hx Hy). lia.
Qed.

Lemma entries_after_ok es since : increasing es → entries_after (container_of es) since = Ok (after since es).
Proof.
  intros Hs. unfold entries_after. cbn [sections container_of]. rewrite built_entry_offsets.
  set (offs := (λ x, {| eo_id := e_id x.1; eo_offset := x.2 |}) <$> indexed es).
  assert (∀ i e, offs !! i = Some e → ∃ x, es !! i = Some x ∧ eo_id e = e_id x) as Hl.
  { intros i e Hi. unfold offs in Hi. rewrite list_lookup_fmap in Hi. destruct (indexed es !! i) as [x|] eqn:E; [|done].
    apply indexed_lookup in E as [E _]. injection Hi as <-. by exists x.1. }
  destruct (returns_inv _ _ (partition_point_spec (λ r, eo_id r <=? since) offs
    ltac:(intros i j x y Hij (x' & Hx & ->)%Hl (y' & Hy & ->)%Hl Hp; apply Z.leb_le in Hp; apply Z.leb_le;
          pose proof (increasing_lookup es i j x' y' Hs Hx Hy Hij); lia))) as (r & -> & Hr & Hpred).
  cbn [lift]. rewrite bind_Ok. unfold open_file. cbn [file container_of ok_or]. rewrite bind_Ok.
  unfold offs. rewrite <- fmap_drop, <- list_fmap_compose.
  change (eo_offset ∘ (λ x, {| eo_id := e_id x.1; eo_offset := x.2 |})) with (@snd OpEntry Z).
  rewrite read_entries_ok.
  - rewrite fmap_drop, indexed_fst, <- (after_drop since r); [done|]. intros i e He.
    assert (offs !! i = Some {| eo_id := e_id e; eo_offset := Z.of_nat i |}) as Ho.
    { unfold offs. rewrite list_lookup_fmap. by rewrite (proj2 (indexed_lookup es i (e, Z.of_nat i))). }
    apply (Hpred i _ Ho).
  - intros x [i Hi]%list_elem_of_lookup. rewrite lookup_drop in Hi. by eapply indexed_get, list_elem_of_lookup_2.
Qed.

Lemma recent_entries_ok ix es n :
  holds ix es → 0 ≤ n → recent_entries ix n = Ok (take (Z.to_nat n) (reverse es)).
Proof.
  intros Hix Hn. unfold recent_entries. destruct (Z.eqb_spec n 0) as [->|]; [done|]. cbn [orb].
  destruct Hix as [-> | [-> ->]]; [|by rewrite reverse_nil, take_nil]. cbn [ix_entry_count container_of].
  destruct (Z.eqb_spec (zlen es) 0) as [->%zlen_0_nil|]; [by rewrite reverse_nil, take_nil|].
  unfold open_file. cbn [file container_of ok_or sections]. rewrite bind_Ok, built_entry_offsets.
  rewrite zlen_fmap, zlen_indexed. rewrite <- fmap_reverse, <- fmap_take, <- list_fmap_compose.
  change (eo_offset ∘ (λ x, {| eo_id := e_id x.1; eo_offset := x.2 |})) with (@snd OpEntry Z).
  rewrite read_entries_ok.
  - rewrite fmap_take, fmap_reverse, indexed_fst. f_equal.
    destruct (Z.le_ge_cases n (zlen es)); [by rewrite Z.min_l by done|]. rewrite Z.min_r by done.
    rewrite !take_ge; [done|..]; rewrite length_reverse; unfold zlen in *; lia.
  - intros x [i Hi]%list_elem_of_lookup. apply lookup_take_Some in Hi as [Hi _].
    apply list_elem_of_lookup_2 in Hi. rewrite elem_of_reverse in Hi. by apply indexed_get.
Qed.

(** ** The invariant *)

(** Entries with the ids [s], [s + 1], ... *)
Definition numbered (s : Z) (es : list OpEntry) : Prop := e_id <$> es = seqZ s (zlen es).
(** Every batch is named after one of the entries. *)
Definition batch_closed (es : list OpEntry) : Prop :=
  ∀ e, e ∈ es → ∃ x, x ∈ es ∧ e_id x = effective_batch_id e.

(** The log holds [bs] in its base and the lists [ss] in its segments. *)
Record log_holds (log : SegmentedOpLogIndex) (bs : list OpEntry) (ss : list (list OpEntry)) : Prop := {
  lh_base : holds (base log) bs;
  lh_segments : segments log = container_of <$> ss;
  lh_levels : Forall2 (λ l s, 0 ≤ l ∧ 2 ^ l ≤ zlen s) (levels log) ss;
  lh_sorted : StronglySorted (λ x y, y < x) (levels log);
  lh_ids : numbered 1 (bs ++ concat ss);
  lh_closed : Forall batch_closed (bs :: ss);
  lh_max : zlen (bs ++ concat ss) ≤ U32_MAX;
  lh_count : entry_count log = zlen (bs ++ concat ss);
  lh_head : head_id log = zlen (bs ++ concat ss);
}.

(** The log holds the entries [es]. *)
Definition log_of (log : SegmentedOpLogIndex) (es : list OpEntry) : Prop :=
  ∃ bs ss, log_holds log bs ss ∧ es = bs ++ concat ss.

Lemma numbered_lookup s es i e : numbered s es → es !! i = Some e → e_id e = s + Z.of_nat i.
Proof.
  intros Hn He. assert ((e_id <$> es) !! i = Some (e_id e)) as Hl by (by rewrite list_lookup_fmap, He).
  rewrite Hn in Hl. apply lookup_seqZ in Hl. lia.
Qed.

Lemma numbered_app s l k : numbered s (l ++ k) ↔ numbered s l ∧ numbered (s + zlen l) k.
Proof.
  unfold numbered. rewrite fmap_app, zlen_app, seqZ_app by apply zlen_nonneg. split; [|by intros [-> ->]].
  intros E. apply app_inj_1 in E; [done|]. rewrite length_fmap, length_seqZ. unfold zlen. lia.
Qed.

Lemma numbered_increasing s es : numbered s es → increasing es.
Proof.
  unfold numbered, increasing. revert s. induction es as [|e es IH]; intros s Hn; [constructor|].
  change (e :: es) with ([e] ++ es) in Hn. apply (numbered_app s [e] es) in Hn as [He Hn]. constructor; [by eapply IH|].
  apply Forall_forall. intros x [i Hi]%list_elem_of_lookup. rewrite (numbered_lookup _ _ _ _ Hn Hi).
  rewrite (numbered_lookup s [e] 0 e He eq_refl). change (zlen [e]) with 1. lia.
Qed.

Lemma numbered_bounds s es e : numbered s es → e ∈ es → s ≤ e_id e < s + zlen es.
Proof.
  intros Hn [i Hi]%list_elem_of_lookup. rewrite (numbered_lookup _ _ _ _ Hn Hi). apply lookup_lt_Some in Hi. unfold zlen. lia.
Qed.

Lemma numbered_wf s es : numbered s es → 1 ≤ s → zlen es ≤ U32_MAX → wf_entries es.
Proof.
  intros Hn Hs Hz. split; [by eapply numbered_increasing| |done]. apply Forall_forall. intros e He.
  pose proof (numbered_bounds _ _ _ Hn He). lia.
Qed.

Lemma numbered_last s es : numbered s es → es ≠ [] → e_id <$> last es = Some (s + zlen es - 1).
Proof.
  intros Hn Hne. destruct (exists_last Hne) as (l & e & ->). rewrite last_snoc. cbn. f_equal.
  rewrite (numbered_lookup s (l ++ [e]) (length l) e Hn) by (by rewrite lookup_app_r, Nat.sub_diag). unfold zlen.
  rewrite length_app. cbn. lia.
Qed.

Lemma numbered_head s es : numbered s es → es ≠ [] → e_id <$> head es = Some s.
Proof. intros Hn Hne. destruct es as [|e es]; [done|]. cbn. by rewrite (numbered_lookup _ _ 0 e Hn eq_refl), Z.add_0_r. Qed.

Lemma batch_closed_app l k : batch_closed l → batch_closed k → batch_closed (l ++ k).
Proof.
  intros Hl Hk e [He|He]%elem_of_app; [destruct (Hl e He) as (x & ? & ?)|destruct (Hk e He) as (x & ? & ?)];
    exists x; split; auto; apply elem_of_app; auto.
Qed.

Lemma batch_closed_concat cs : Forall batch_closed cs → batch_closed (concat cs).
Proof. induction 1 as [|c cs Hc _ IH]; [by intros ? ?%not_elem_of_nil|]. by apply batch_closed_app. Qed.

(** Parts of a log share no batch. *)
Lemma batches_disjoint s l k x y :
  numbered s (l ++ k) → batch_closed l → batch_closed k → x ∈ l → y ∈ k → effective_batch_id x ≠ effective_batch_id y.
Proof.
  intros [Hl Hk]%numbered_app Hcl Hck Hx Hy E. destruct (Hcl x Hx) as (x' & Hx' & Ex), (Hck y Hy) as (y' & Hy' & Ey).
  pose proof (numbered_bounds _ _ _ Hl Hx'). pose proof (numbered_bounds _ _ _ Hk Hy'). lia.
Qed.

Lemma filter_true {A} (P : A → Prop) `{∀ x, Decision (P x)} (l : list A) : (∀ x, x ∈ l → P x) → filter P l = l.
Proof.
  induction l as [|x l IH]; intros Hp; [done|]. rewrite filter_cons_True by (apply Hp; by left).
  f_equal. apply IH. intros y Hy. apply Hp. by right.
Qed.

Lemma batches_app l k :
  (∀ x y, x ∈ l → y ∈ k → effective_batch_id x ≠ effective_batch_id y) → batches (l ++ k) = batches k ++ batches l.
Proof.
  intros Hd. unfold batches. rewrite batch_order_app, fmap_app. f_equal.
  - apply list_fmap_ext. intros i id (e & He & Hid)%list_elem_of_lookup_2%batch_order_elem. unfold batch_of.
    rewrite of_batch_app, (of_batch_nil id l); [done|]. intros x Hx Hxid. apply (Hd x e Hx He). congruence.
  - assert (∀ id, id ∈ batch_order l → of_batch id k = []) as Hnil.
    { intros id (e & He & Hid)%batch_order_elem. apply of_batch_nil. intros y Hy Hyid. apply (Hd e y He Hy). congruence. }
    rewrite filter_true.
    + apply list_fmap_ext. intros i id Hid%list_elem_of_lookup_2. unfold batch_of.
      by rewrite of_batch_app, (Hnil id), app_nil_r.
    + intros id (e & He & Hid)%batch_order_elem (y & Hy & Hin)%list_elem_of_fmap. apply (Hd e y He Hin). congruence.
Qed.

(** ** Queries of the log *)

Lemma after_past_head ix es since :
  holds ix es → increasing es → ix_head_id ix ≤ since → after since es = [].
Proof.
  intros Hix Hs Hle. apply after_none, Forall_forall. intros x [i Hx]%list_elem_of_lookup.
  destruct Hix as [-> | [-> ->]]; [|done]. cbn [ix_head_id container_of] in Hle.
  destruct (last es) as [y|] eqn:E; [|by apply last_None in E as ->]. cbn in Hle.
  rewrite last_lookup in E. pose proof (increasing_lookup es i (pred (length es)) x y Hs Hx E). apply lookup_lt_Some in Hx. lia.
Qed.

Lemma after_loop_ok ixs cs since :
  Forall2 holds ixs cs → Forall increasing cs → 0 ≤ since → after_loop ixs since = Ok (after since (concat cs)).
Proof.
  intros Hh Hi Hs. induction Hh as [|ix c ixs cs Hix Hh IH]; [done|]. apply Forall_cons in Hi as [Hc Hi].
  cbn [after_loop concat]. rewrite after_app, (IH Hi).
  assert ((if since <? ix_head_id ix then entries_after ix since else Ok []) = Ok (after since c)) as ->; [|done].
  destruct (Z.ltb_spec since (ix_head_id ix)).
  - destruct Hix as [-> | [-> ->]]; [by apply entries_after_ok|]. cbn in *. lia.
  - by rewrite (after_past_head ix).
Qed.

Lemma recent_loop_ok ixs cs n :
  Forall2 holds ixs cs → 0 ≤ n → recent_loop ixs n = Ok (take (Z.to_nat n) (concat (reverse <$> cs))).
Proof.
  intros Hh. revert n. induction Hh as [|ix c ixs cs Hix Hh IH]; intros n Hn; [cbn; by rewrite take_nil|].
  cbn [recent_loop]. destruct (Z.eqb_spec n 0) as [->|]; [done|]. rewrite (recent_entries_ok ix c n) by done.
  rewrite bind_Ok. set (t := take (Z.to_nat n) (reverse c)).
  assert (zlen t ≤ n) by (unfold t, zlen; rewrite length_take; lia).
  unfold usub. rewrite (proj2 (Z.leb_le _ _)) by done. rewrite bind_Ok, IH by lia. rewrite bind_Ok.
  cbn [fmap list_fmap concat]. rewrite take_app. f_equal. f_equal. f_equal. unfold t, zlen. rewrite length_take. lia.
Qed.

Lemma commit_loop_ok ixs cs id : Forall2 holds ixs cs → commit_loop ixs id = Ok (first_commit id (concat cs)).
Proof.
  induction 1 as [|ix c ixs cs Hix Hh IH]; [done|]. cbn [commit_loop concat]. rewrite first_commit_app.
  rewrite (container_transaction_commit_spec ix c) by done. rewrite bind_Ok. by destruct (first_commit id c).
Qed.

Lemma shown_app predicate scope_ l k : shown predicate scope_ (l ++ k) = shown predicate scope_ l ++ shown predicate scope_ k.
Proof. unfold shown. by rewrite !List.filter_app. Qed.

Lemma log_collect_ok ixs cs since count predicate scope_ out :
  Forall2 holds ixs cs → Forall wf_entries cs → 0 ≤ since → zlen out ≤ count →
  log_collect_loop ixs since count predicate scope_ out =
    Ok (out ++ take (Z.to_nat (count - zlen out)) (shown predicate scope_ (concat ((λ c, batches (after since c)) <$> cs)))).
Proof.
  intros Hh Hw Hs. revert out. induction Hh as [|ix c ixs cs Hix Hh IH]; intros out Hout.
  { cbn. by rewrite take_nil, app_nil_r. }
  apply Forall_cons in Hw as [Hc Hw]. specialize (IH Hw). cbn [log_collect_loop fmap list_fmap concat]. rewrite shown_app.
  destruct (Z.eqb_spec (zlen out) count) as [E|Hne]; cbn [orb].
  { rewrite IH by lia. replace (Z.to_nat (count - zlen out)) with 0%nat by lia. by rewrite !take_0. }
  destruct (Z.leb_spec (ix_head_id ix) since) as [Hle|Hlt].
  { rewrite (after_past_head ix) by (done || apply Hc). by apply IH. }
  rewrite (container_collect_spec ix c) by (done || lia). rewrite bind_Ok. unfold query.
  set (t := take (Z.to_nat (count - zlen out)) (shown predicate scope_ (batches (after since c)))).
  assert (zlen t ≤ count - zlen out) by (unfold t, zlen in *; rewrite length_take; lia).
  rewrite IH by zlia. rewrite <- app_assoc. f_equal. f_equal. rewrite take_app. f_equal. f_equal.
  rewrite zlen_app. unfold t, zlen in *. rewrite length_take in *. lia.
Qed.

(** The containers of a log, oldest first, and what each holds *)
Definition containers (log : SegmentedOpLogIndex) : list PackedOpLogIndex := base log :: segments log.

Lemma containers_of_hold ss : Forall2 holds (container_of <$> ss) ss.
Proof. induction ss as [|s ss IH]; constructor; [by left|done]. Qed.

Section log.
Context {log : SegmentedOpLogIndex} {bs : list OpEntry} {ss : list (list OpEntry)} (Hlog : log_holds log bs ss).

Lemma containers_hold : Forall2 holds (containers log) (bs :: ss).
Proof using Hlog.
  constructor; [apply Hlog|]. rewrite (lh_segments _ _ _ Hlog). apply containers_of_hold.
Qed.

Lemma parts_numbered : numbered 1 (concat (bs :: ss)).
Proof using Hlog. apply Hlog. Qed.

Lemma concat_numbered s (cs : list (list OpEntry)) : numbered s (concat cs) → Forall (λ c, ∃ s', s ≤ s' ∧ numbered s' c) cs.
Proof using.
  revert s. induction cs as [|c cs IH]; intros s Hn; [constructor|]. cbn [concat] in Hn. apply numbered_app in Hn as [Hc Hn].
  constructor; [by exists s|]. eapply Forall_impl; [by apply IH|]. intros c' (s' & Hs' & Hc'). exists s'. split; [|done]. zlia.
Qed.

Lemma concat_elem_zlen (c : list OpEntry) cs : c ∈ cs → zlen c ≤ zlen (concat cs).
Proof using. induction 1; cbn [concat]; zlia. Qed.

Lemma parts_wf : Forall wf_entries (bs :: ss).
Proof using Hlog.
  pose proof (concat_numbered 1 _ parts_numbered) as Hn. rewrite Forall_forall in *. intros c Hc.
  destruct (Hn c Hc) as (s & Hs & Hcn). apply (numbered_wf s); [done|done|].
  etrans; [by apply (concat_elem_zlen c (bs :: ss))|]. apply Hlog.
Qed.

Lemma parts_increasing : Forall increasing (bs :: ss).
Proof using Hlog. eapply Forall_impl; [apply parts_wf|]. by intros c []. Qed.
End log.

(** The newest parts first *)
Lemma parts_batches s cs since :
  numbered s (concat cs) → Forall batch_closed cs →
  concat ((λ c, batches (after since c)) <$> reverse cs) = batches (after since (concat cs)).
Proof.
  intros Hn Hc. revert s Hn. induction Hc as [|c cs Hc Hcs IH]; intros s Hn; [done|]. cbn [concat] in *.
  rewrite reverse_cons, fmap_app, concat_app, after_app, batches_app.
  - rewrite (IH (s + zlen c)) by (by apply numbered_app in Hn as [_ ?]). f_equal. apply app_nil_r.
  - intros x y [Hx _]%after_elem [Hy _]%after_elem. eapply batches_disjoint; try done. by apply batch_closed_concat.
Qed.

Lemma log_entries_after_ok log es since : log_of log es → 0 ≤ since → log_entries_after log since = Ok (after since es).
Proof.
  intros (bs & ss & Hlog & ->) Hs. apply (after_loop_ok _ (bs :: ss)); [by apply containers_hold|by eapply parts_increasing|done].
Qed.

Lemma log_recent_entries_ok log es n : log_of log es → 0 ≤ n → log_recent_entries log n = Ok (take (Z.to_nat n) (reverse es)).
Proof.
  intros (bs & ss & Hlog & ->) Hn. unfold log_recent_entries.
  rewrite (recent_loop_ok _ (reverse (bs :: ss))); [|rewrite <- reverse_cons; by apply Forall2_reverse, containers_hold|done].
  do 2 f_equal. change (bs ++ concat ss) with (concat (bs :: ss)). generalize (bs :: ss). clear. intros cs.
  induction cs as [|c cs IH]; [done|]. cbn [concat]. rewrite reverse_cons, fmap_app, concat_app, reverse_app, IH.
  cbn. by rewrite app_nil_r.
Qed.

Lemma transaction_commit_ok log es id : log_of log es → transaction_commit log id = Ok (first_commit id es).
Proof. intros (bs & ss & Hlog & ->). apply (commit_loop_ok _ (bs :: ss)). by apply containers_hold. Qed.

Lemma collect_ok log es since count predicate scope_ :
  log_of log es → 0 ≤ since → 0 ≤ count →
  collect_batches_after_scoped log since count predicate scope_ = Ok (query (after since es) count predicate scope_).
Proof.
  intros (bs & ss & Hlog & ->) Hs Hc. unfold collect_batches_after_scoped.
  rewrite <- reverse_cons. rewrite (log_collect_ok _ (reverse (bs :: ss))).
  - cbn [app]. rewrite zlen_nil, Z.sub_0_r, (parts_batches 1); [done|apply Hlog..].
  - by apply Forall2_reverse, containers_hold.
  - rewrite Forall_reverse. by eapply parts_wf.
  - done.
  - by rewrite zlen_nil.
Qed.

Lemma checked_add_fits a b : a + b ≤ USIZE_MAX → checked_add a b = Some (a + b).
Proof. intros Hab. unfold checked_add. by rewrite (proj2 (Z.leb_le _ _)). Qed.

(** ** Opening the log *)

Lemma entry_range_ok s es :
  numbered s es → es ≠ [] → entry_id_range (container_of es) = Some (s, s + zlen es - 1).
Proof.
  intros Hn Hne. unfold entry_id_range. cbn [sections container_of].
  assert (eo_id <$> head (entry_offsets (build_index_sections es)) = Some s) as Hh.
  { rewrite built_entry_offsets, <- (numbered_head s es Hn Hne). rewrite <- (indexed_fst es) at 2. by destruct (indexed es). }
  assert (eo_id <$> last (entry_offsets (build_index_sections es)) = Some (s + zlen es - 1)) as Hl.
  { rewrite last_ids. by apply numbered_last. }
  destruct (head _) as [x|]; [|done]. destruct (last _) as [y|]; [|done]. cbn in *. congruence.
Qed.

Lemma sequence_loop_ok ss previous s :
  numbered s (concat ss) → Forall (λ c, c ≠ []) ss → s = default 0 previous + 1 → 1 ≤ s → s + zlen (concat ss) ≤ U64_MAX →
  sequence_loop (container_of <$> ss) previous = Ok tt.
Proof.
  intros Hn Hne. revert s previous Hn. induction Hne as [|c ss Hc Hne IH]; intros s previous Hn Hs Hs1 Hmax; [done|].
  cbn [concat] in *. apply numbered_app in Hn as [Hcn Hn]. rewrite fmap_cons. cbn [sequence_loop].
  rewrite (entry_range_ok s) by done. cbn [ok_or]. rewrite bind_Ok.
  assert ((match previous with
    | Some p => expected ← ok_or (checked_add p 1) InvalidObject; ensure (s =? expected) InvalidObject
    | None => ensure (s =? 1) InvalidObject
    end) = Ok tt) as ->.
  { destruct previous as [p|]; cbn in Hs; [|by subst s]. rewrite checked_add_fits by (unfold USIZE_MAX, U64_MAX in *; zlia). cbn [ok_or]. rewrite bind_Ok. by rewrite Hs, Z.eqb_refl. }
  assert (0 < zlen c) by (destruct c; [done|zlia]).
  rewrite bind_Ok. unfold ensure. rewrite (proj2 (Z.leb_le _ _)) by lia. rewrite bind_Ok.
  apply (IH (s + zlen c)); [done|cbn; lia|lia|zlia].
Qed.

Lemma level_bound l (es : list OpEntry) : 0 ≤ l → 2 ^ l ≤ zlen es → zlen es ≤ U32_MAX → l ≤ 31.
Proof.
  intros Hl Hs Hm. destruct (Z.le_gt_cases l 31) as [|Hgt]; [done|]. exfalso.
  assert (2 ^ 32 ≤ 2 ^ l) by (apply Z.pow_le_mono_r; lia). change (2 ^ 32) with 4294967296 in *. unfold U32_MAX in *. lia.
Qed.

Lemma level_nonempty l (es : list OpEntry) : 0 ≤ l → 2 ^ l ≤ zlen es → es ≠ [].
Proof. intros Hl Hs ->. pose proof (Z.pow_pos_nonneg 2 l). rewrite zlen_nil in Hs. lia. Qed.

Lemma descending_length (l : list Z) k :
  StronglySorted (λ x y, y < x) l → 0 ≤ k → Forall (λ x, 0 ≤ x < k) l → zlen l ≤ k.
Proof.
  intros Hs. revert k. induction Hs as [|x l Hs IH Hx]; intros k Hk0 Hk; [done|].
  apply Forall_cons in Hk as [Hxk Hk]. rewrite zlen_cons. assert (zlen l ≤ x); [|lia]. apply IH; [lia|].
  rewrite Forall_forall in *. intros y Hy. specialize (Hx y Hy). specialize (Hk y Hy). lia.
Qed.

Lemma last_segment_head s ss :
  numbered s (concat ss) → Forall (λ c, c ≠ []) ss →
  match last (container_of <$> ss) with Some c => ix_head_id c | None => s - 1 end = s + zlen (concat ss) - 1.
Proof.
  intros Hn Hne. destruct ss as [|c' ss' _] using rev_ind; [change (s - 1 = s + 0 - 1); lia|]. rewrite fmap_app, fmap_cons, fmap_nil, last_snoc.
  apply Forall_app in Hne as [_ Hne]. apply Forall_cons in Hne as [Hne _]. rewrite concat_app in *. cbn [concat] in *.
  rewrite app_nil_r in *. apply numbered_app in Hn as [_ Hn]. cbn [ix_head_id container_of].
  rewrite (numbered_last _ _ Hn Hne). cbn. zlia.
Qed.

Lemma container_count ix es : holds ix es → ix_entry_count ix = zlen es.
Proof. by intros [-> | [-> ->]]. Qed.
Lemma container_head ix es : holds ix es → numbered 1 es → ix_head_id ix = zlen es.
Proof.
  intros [-> | [-> ->]] Hn; [|done]. cbn [ix_head_id container_of]. destruct es as [|e es]; [done|].
  rewrite (numbered_last 1 _ Hn) by done. cbn. lia.
Qed.

Lemma segments_nonempty levels ss : Forall2 (λ l s, 0 ≤ l ∧ 2 ^ l ≤ zlen s) levels ss → Forall (λ c : list OpEntry, c ≠ []) ss.
Proof. induction 1 as [|l c levels ss [Hl Hc] _ IH]; constructor; [by eapply level_nonempty|done]. Qed.

Lemma Forall2_levels_bound levels ss :
  Forall2 (λ l (s : list OpEntry), 0 ≤ l ∧ 2 ^ l ≤ zlen s) levels ss → zlen (concat ss) ≤ U32_MAX →
  Forall (λ l, 0 ≤ l < 32) levels.
Proof.
  induction 1 as [|l c levels ss [Hl Hc] _ IH]; intros Hz; [constructor|]. cbn [concat] in Hz.
  constructor; [|apply IH; zlia]. pose proof (level_bound l c Hl Hc). zlia.
Qed.

Lemma open_log_ok log es : log_of log es → open_log log = Ok log.
Proof.
  intros (bs & ss & Hlog & ->). pose proof Hlog as [Hb Hsg Hlv Hsorted Hids Hcl Hmax Hcount Hhead].
  pose proof (segments_nonempty _ _ Hlv) as Hne. pose proof Hids as [Hbn Hsn]%numbered_app.
  assert (Forall (λ l, 0 ≤ l < 32) (levels log)) as Hl32 by (eapply Forall2_levels_bound; [done|zlia]).
  pose proof (descending_length _ 32 Hsorted ltac:(lia) Hl32) as Hlen.
  unfold open_log. rewrite (proj2 (Z.leb_le _ 64)) by lia. cbn [ensure]. rewrite bind_Ok.
  assert (validate_container_sequence log = Ok tt) as ->.
  { unfold validate_container_sequence. rewrite (any_pair_sorted (λ x y, y < x)) by (done || (intros; apply Z.leb_gt; lia)).
    cbn [negb ensure]. rewrite bind_Ok.
    assert (validate_first_entry_id (base log) = Ok tt ∧ default 0 (snd <$> entry_id_range (base log)) = zlen bs) as [-> Hlast].
    { unfold validate_first_entry_id. destruct Hb as [-> | [-> ->]]; [|done].
      destruct (decide (bs = [])) as [->|Hbne]; [done|]. rewrite (entry_range_ok 1) by done. split; [done|]. cbn. lia. }
    rewrite bind_Ok, Hsg. apply (sequence_loop_ok _ _ (1 + zlen bs)); [done|done|lia|zlia|].
    unfold U32_MAX, U64_MAX in *. zlia. }
  rewrite bind_Ok, Hsg.
  assert (ix_entry_count (base log) + foldr Z.add 0 (ix_entry_count <$> (container_of <$> ss)) = entry_count log) as ->.
  { rewrite (container_count _ bs Hb), Hcount, <- list_fmap_compose.
    change (ix_entry_count ∘ container_of) with (@zlen OpEntry). by rewrite <- concat_zlen, zlen_app. }
  assert (match last (container_of <$> ss) with Some s => ix_head_id s | None => ix_head_id (base log) end = head_id log) as ->.
  { rewrite Hhead, (container_head _ bs Hb Hbn). pose proof (last_segment_head _ _ Hsn Hne) as Hls.
    rewrite zlen_app. destruct (last _); lia. }
  by rewrite !Z.eqb_refl.
Qed.

(** ** Appending and replacing entries *)

(** The carry takes the segments of levels [level], [level + 1], ...: it keeps the entries
    in order, and what is left has greater levels. *)
Lemma carry_loop_ok (levels : list Z) ss carry level n :
  Forall2 (λ l s, 0 ≤ l ∧ 2 ^ l ≤ zlen s) levels ss → StronglySorted Z.lt levels → Forall (Z.le level) levels →
  0 ≤ level → 2 ^ level ≤ zlen carry → Forall batch_closed ss → batch_closed carry →
  1 ≤ n → numbered n (concat (reverse ss) ++ carry) → zlen (concat (reverse ss) ++ carry) ≤ U32_MAX →
  returns (carry_loop levels (container_of <$> ss) carry level) (λ '(levels', segments', carry', level'),
    ∃ ss', segments' = container_of <$> ss' ∧ Forall2 (λ l s, 0 ≤ l ∧ 2 ^ l ≤ zlen s) levels' ss' ∧
      StronglySorted Z.lt levels' ∧ Forall (Z.lt level') levels' ∧ 0 ≤ level' ∧ 2 ^ level' ≤ zlen carry' ∧
      Forall batch_closed ss' ∧ batch_closed carry' ∧
      concat (reverse ss') ++ carry' = concat (reverse ss) ++ carry).
Proof.
  intros Hlv. revert carry level. induction Hlv as [|l c levels ss [Hl Hc] Hlv IH];
    intros carry level Hs Hle Hlevel Hcarry Hcl Hcc Hn1 Hn Hz.
  { exists []. by repeat split. }
  inversion Hs as [|? ? Hs' Hlt]; subst. apply Forall_cons in Hle as [Hle Hle'].
  rewrite fmap_cons. cbn [carry_loop]. destruct (Z.eqb_spec l level) as [->|Hne]; cbn [negb].
  2:{ exists (c :: ss). split; [done|]. split; [by constructor|]. split; [done|]. split; [|done].
      constructor; [lia|]. eapply Forall_impl; [exact Hlt|]. cbn. lia. }
  rewrite reverse_cons, concat_app in Hn, Hz |- *. cbn [concat] in Hn, Hz |- *. rewrite app_nil_r, <- app_assoc in Hn, Hz |- *.
  apply Forall_cons in Hcl as [Hclc Hcl]. pose proof Hn as [_ [Hcn _]%numbered_app]%numbered_app.
  rewrite entries_after_ok by (by eapply numbered_increasing). rewrite bind_Ok.
  rewrite after_all by (apply Forall_forall; intros e He; pose proof (numbered_bounds _ _ _ Hcn He); zlia).
  pose proof (level_bound level c Hl Hc) as H31. rewrite !zlen_app in Hz.
  rewrite (proj2 (Z.leb_le _ U8_MAX)) by (unfold U8_MAX; zlia). cbn [ok_or]. rewrite bind_Ok.
  apply IH; [done| |lia| |done|by apply batch_closed_app|done|done|rewrite !zlen_app; zlia].
  - eapply Forall_impl; [exact Hlt|]. cbn. lia.
  - rewrite Z.pow_add_r, zlen_app by lia. lia.
Qed.

Lemma descending_reverse (l : list Z) : StronglySorted (λ x y, y < x) l ↔ StronglySorted Z.lt (reverse l).
Proof.
  split; intros Hs.
  - induction Hs as [|x l Hs IH Hx]; [constructor|]. rewrite reverse_cons. apply StronglySorted_app_2; [|done|by repeat constructor].
    intros a b Ha ->%list_elem_of_singleton. rewrite elem_of_reverse in Ha. rewrite Forall_forall in Hx. by apply Hx.
  - rewrite <- (reverse_involutive l). induction Hs as [|x k Hs IH Hx]; [constructor|]. rewrite reverse_cons.
    apply StronglySorted_app_2; [|done|by repeat constructor].
    intros a b Ha ->%list_elem_of_singleton. rewrite elem_of_reverse in Ha. rewrite Forall_forall in Hx. by apply Hx.
Qed.

(** [append_entries] appends to the list of entries. *)
Lemma append_entries_ok log es new :
  log_of log es → numbered (1 + zlen es) new → batch_closed new → zlen es + zlen new ≤ U32_MAX →
  generation log < USIZE_MAX →
  returns (append_entries log new) (λ log', log_of log' (es ++ new) ∧
    generation log' = if bool_decide (new = []) then generation log else generation log + 1).
Proof.
  intros (bs & ss & Hlog & ->) Hn Hc Hz Hg. unfold append_entries. case_bool_decide as Hnew.
  { subst new. rewrite app_nil_r. split; [|done]. by exists bs, ss. }
  pose proof Hlog as [Hb Hsg Hlv Hsorted Hids Hcl Hmax Hcount Hhead]. apply Forall_cons in Hcl as [Hcb Hcs].
  rewrite (checked_add_fits (generation log)) by lia. cbn [ok_or]. rewrite bind_Ok.
  assert (numbered 1 ((bs ++ concat ss) ++ new)) as Hall by (by apply numbered_app).
  rewrite <- app_assoc in Hall. apply numbered_app in Hall as [Hbn Hsn]. rewrite zlen_app in Hz.
  rewrite Hsg, <- fmap_reverse. apply returns_bind. eapply returns_mono.
  { apply (carry_loop_ok _ (reverse ss) new 0 (1 + zlen bs)).
    - by apply Forall2_reverse.
    - by apply descending_reverse.
    - rewrite Forall_reverse. clear -Hlv. induction Hlv as [|l c levels ss [Hl _] _ IH]; constructor; [lia|done].
    - done.
    - rewrite Z.pow_0_r. destruct new; [done|zlia].
    - by rewrite Forall_reverse.
    - done.
    - zlia.
    - by rewrite reverse_involutive.
    - rewrite reverse_involutive. zlia. }
  intros [[[ls segs] carry] level] (ss' & -> & Hlv' & Hs' & Hgt & Hl0 & Hpow & Hcs' & Hcc & Heq). cbv beta iota.
  rewrite reverse_involutive in Heq. rewrite <- Heq in Hsn. pose proof Hsn as [_ Hcarry]%numbered_app.
  assert (carry ≠ []) as Hcne by (by eapply level_nonempty). pose proof (numbered_last _ _ Hcarry Hcne) as Hlast.
  assert (zlen (concat (reverse ss')) + zlen carry = zlen (concat ss) + zlen new) as Hlen by (by rewrite <- !zlen_app, Heq).
  assert (last carry = last new) as Hlc.
  { transitivity (last (concat (reverse ss') ++ carry)); [|rewrite Heq]; rewrite last_app; [by destruct (last carry) eqn:E; [|apply last_None in E]|].
    by destruct (last new) eqn:E; [|apply last_None in E]. }
  rewrite Hlc in Hlast. destruct (last new) as [e|] eqn:Enew; [|done]. cbn in Hlast. injection Hlast as He.
  rewrite (save_and_open_ok carry); [|eapply numbered_wf; [done|zlia|zlia]|by rewrite Hlc]. rewrite bind_Ok.
  rewrite checked_add_fits by (rewrite Hcount; unfold U32_MAX, USIZE_MAX in *; zlia).
  cbn [ok_or]. rewrite bind_Ok. cbn [returns generation]. split; [|done].
  exists bs, (reverse ss' ++ [carry]). rewrite concat_app. cbn [concat]. rewrite app_nil_r, Heq, app_assoc. split; [|done].
  split; cbn [base segments levels entry_count head_id].
  - done.
  - rewrite fmap_app, fmap_reverse. done.
  - apply Forall2_app; [by apply Forall2_reverse|by repeat constructor].
  - apply StronglySorted_app_2; [|by apply descending_reverse; rewrite reverse_involutive|by repeat constructor].
    intros a b Ha ->%list_elem_of_singleton. rewrite elem_of_reverse in Ha. rewrite Forall_forall in Hgt. by apply Hgt.
  - rewrite concat_app. cbn [concat]. rewrite app_nil_r, Heq. apply numbered_app. split; [done|]. by rewrite <- Heq.
  - constructor; [done|]. apply Forall_app. split; [by rewrite Forall_reverse|by repeat constructor].
  - rewrite concat_app. cbn [concat]. rewrite app_nil_r, Heq. zlia.
  - rewrite concat_app. cbn [concat]. rewrite app_nil_r, Heq, Hcount. zlia.
  - rewrite concat_app. cbn [concat]. rewrite app_nil_r, Heq. zlia.
Qed.

(** [replace_entries] replaces the list of entries. *)
Lemma replace_entries_ok log es :
  numbered 1 es → batch_closed es → zlen es ≤ U32_MAX → generation log < USIZE_MAX →
  returns (replace_entries log es) (λ log', log_of log' es ∧ generation log' = generation log + 1).
Proof.
  intros Hn Hc Hz Hg. unfold replace_entries. rewrite (checked_add_fits (generation log)) by lia. cbn [ok_or].
  rewrite bind_Ok. set (head := match last es with Some e => e_id e | None => 0 end).
  assert (head = default 0 (e_id <$> last es)) as Hh by (unfold head; by destruct (last es)).
  rewrite (save_and_open_ok es) by (done || by eapply numbered_wf). rewrite bind_Ok. split; [|done].
  exists es, []. cbn [concat]. rewrite app_nil_r. split; [|done]. split; cbn [base segments levels entry_count head_id concat];
    rewrite ?app_nil_r; try done; try (by constructor).
  rewrite Hh. destruct es as [|e es]; [done|]. rewrite (numbered_last 1) by done. cbn. lia.
Qed.

Lemma empty_log_ok : log_of empty_log [].
Proof.
  exists [], []. split; [|done]. split; [by right|done|constructor|constructor|done| |done..].
  constructor; [|constructor]. by intros ? ?%not_elem_of_nil.
Qed.
