(* ===== verification/OpOps.v ===== *)
(** * Operations of the operation log

    What each operation of [oplog_core.rs] does to the list of entries that the log
    holds: recording, exactly-once recording, conditional commits, undo marks and the
    merging of two batches; and what every sequence of them, the windowed append included,
    keeps of a transaction's commit, by what its callers see to. *)

From S2P Require Import Prelude Text OpRecords OpLog OpLogSpec OpIndex OpSegments.
Import OpRecords OpLog OpLogRef.

(** ** New entries *)

Section build.
Context (who : list Z) (now : Z) (lane : option (list Z)).

Lemma built_zlen ops start : zlen (build_entries who ops start now lane) = zlen ops.
Proof using. unfold zlen, build_entries. by rewrite length_imap. Qed.

Lemma built_lookup ops start i e :
  build_entries who ops start now lane !! i = Some e ↔
  ∃ op, ops !! i = Some op ∧
    e = {| e_id := start + Z.of_nat i; timestamp := now; operation := op; undone := false; batch_id := start;
           batch_index := as_u32 (Z.of_nat i); scope := lane; actor := who; operation_id := None |}.
Proof using.
  unfold build_entries. rewrite list_lookup_imap. destruct (ops !! i) as [op|]; cbn; split; try done.
  - intros [= <-]. by exists op.
  - intros (? & [= <-] & ->). done.
  - by intros (? & ? & _).
Qed.

Lemma built_numbered ops start : numbered start (build_entries who ops start now lane).
Proof using.
  unfold numbered. apply list_eq. intros i. rewrite list_lookup_fmap.
  destruct (build_entries who ops start now lane !! i) as [e|] eqn:E; symmetry.
  - pose proof (lookup_lt_Some _ _ _ E). apply built_lookup in E as (op & Hop & ->). cbn. apply lookup_seqZ. unfold zlen. lia.
  - apply lookup_ge_None in E. apply lookup_seqZ_ge. unfold zlen. lia.
Qed.

Lemma built_effective ops start e : 0 < start → e ∈ build_entries who ops start now lane → effective_batch_id e = start.
Proof using.
  intros Hs [i (op & _ & ->)%built_lookup]%list_elem_of_lookup. unfold effective_batch_id. cbn.
  destruct (Z.eqb_spec start 0); [lia|done].
Qed.

Lemma built_closed ops start : 0 < start → batch_closed (build_entries who ops start now lane).
Proof using.
  intros Hs e He. rewrite (built_effective ops start e Hs He). apply list_elem_of_lookup in He as [i Hi].
  pose proof (lookup_lt_Some _ _ _ Hi). destruct (lookup_lt_is_Some_2 (build_entries who ops start now lane) 0) as [x Hx]; [lia|].
  exists x. split; [by eapply list_elem_of_lookup_2|]. apply built_lookup in Hx as (? & _ & ->). cbn. lia.
Qed.

Lemma built_operations ops start : operation <$> build_entries who ops start now lane = ops.
Proof using.
  apply list_eq. intros i. rewrite list_lookup_fmap. unfold build_entries. rewrite list_lookup_imap. by destruct (ops !! i).
Qed.
End build.

(** Room for [n] more entries *)
Definition room (log : SegmentedOpLogIndex) (n : Z) : Prop :=
  entry_count log + n ≤ U32_MAX ∧ generation log < USIZE_MAX.

Lemma log_of_count log es : log_of log es → entry_count log = zlen es ∧ head_id log = zlen es ∧ zlen es ≤ U32_MAX.
Proof. intros (bs & ss & [] & ->). done. Qed.

Lemma log_of_closed log es : log_of log es → batch_closed es.
Proof. intros (bs & ss & Hl & ->). apply (batch_closed_concat (bs :: ss)), Hl. Qed.
Lemma log_of_numbered log es : log_of log es → numbered 1 es.
Proof. intros (bs & ss & Hl & ->). apply Hl. Qed.

Section record.
Context (who : list Z) (now : Z).

(** Recording appends one batch of entries. *)
Lemma append_operations_ok log es ops lane :
  log_of log es → room log (zlen ops) →
  returns (append_operations who now log ops lane) (λ '(ids, log'),
    log_of log' (es ++ build_entries who ops (zlen es + 1) now lane) ∧ ids = seqZ (zlen es + 1) (zlen ops) ∧
    (ops ≠ [] → generation log' = generation log + 1)).
Proof using.
  intros Hlog [Hz Hg]. destruct (log_of_count _ _ Hlog) as (Hc & Hh & _). unfold append_operations. rewrite Hh.
  pose proof (zlen_nonneg es). apply returns_bind. eapply returns_mono.
  { apply (append_entries_ok log es); [done| | |rewrite built_zlen; lia|done].
    - rewrite Z.add_comm. apply built_numbered.
    - apply built_closed. lia. }
  intros log' [Hl Hgen]. split; [done|]. split; [rewrite built_numbered; by rewrite built_zlen|].
  intros Hne. rewrite Hgen, bool_decide_false; [done|]. intros E. apply Hne. rewrite <- (built_operations who now lane ops (zlen es + 1)).
  by rewrite E.
Qed.
End record.

(** ** Queries and writes against the plain list *)

(** C19. The indexed, segmented query gives what the reference of the source
    ([collect_batches_from_entries]) computes from the plain entries after [since_head_id],
    newest first: the same batches, in the same order, each with the same entries. *)
Theorem log_query_reference log es since count predicate scope_ :
  log_of log es → 0 ≤ since → 0 ≤ count →
  collect_batches_after_scoped log since count predicate scope_ =
    Ok (collect_batches_from_entries (reverse (after since es)) count predicate scope_).
Proof. intros Hlog Hs Hc. by rewrite (collect_ok log es), collect_batches_from_entries_query. Qed.

Lemma segments_bound log es : log_of log es → zlen (segments log) ≤ 32.
Proof.
  intros (bs & ss & [_ Hsg Hlv Hsorted _ _ Hmax _ _] & _). rewrite Hsg, zlen_fmap.
  assert (zlen ss = zlen (levels log)) as -> by (unfold zlen; by rewrite (Forall2_length _ _ _ Hlv)).
  apply descending_length; [done|lia|]. eapply Forall2_levels_bound; [done|zlia].
Qed.

(** C20. Recording refines the append to a list: the call succeeds, the new log holds the old
    entries followed by one batch of new ones, numbered on from the old; it has at most 32
    segments, and a reader that opens its files gets it. *)
Theorem record_refines_append who now log es ops lane :
  log_of log es → room log (zlen ops) → ops ≠ [] →
  returns (record_batch_scoped who now log ops lane) (λ '(ids, log'),
    log_of log' (es ++ build_entries who ops (zlen es + 1) now lane) ∧ ids = seqZ (zlen es + 1) (zlen ops) ∧
    log_entries_after log' (zlen es) = Ok (build_entries who ops (zlen es + 1) now lane) ∧
    zlen (segments log') ≤ 32 ∧ open_log log' = Ok log').
Proof.
  intros Hlog Hroom Hne. unfold record_batch_scoped. rewrite bool_decide_false by done.
  eapply returns_mono; [by apply append_operations_ok|]. intros [ids log'] (Hl & -> & _). split; [done|]. split; [done|].
  split; [|split; [by eapply segments_bound|by eapply open_log_ok]].
  rewrite (log_entries_after_ok _ _ _ Hl) by apply zlen_nonneg. f_equal. rewrite after_app.
  destruct Hlog as (bs & ss & Hlog & ->). rewrite after_none, after_all; [done|..]; apply Forall_forall; intros e He.
  - pose proof (numbered_bounds _ _ _ (built_numbered who now lane ops _) He). lia.
  - pose proof (numbered_bounds _ _ _ (lh_ids _ _ _ Hlog) He). lia.
Qed.

(** ** Commit markers *)

Definition commits (id : list Z) (ops : list OpRecord) : list OpRecord := List.filter (λ op, is_transaction_commit_for op id) ops.

Lemma first_commit_none id es : first_commit id es = None ↔ commits id (operation <$> es) = [].
Proof.
  unfold first_commit, commits. induction es as [|e es IH]; [done|]. rewrite fmap_cons. cbn [List.filter].
  by destruct (is_transaction_commit_for (operation e) id).
Qed.

Lemma commits_app id l k : commits id (l ++ k) = commits id l ++ commits id k.
Proof. apply List.filter_app. Qed.

(** ** Reading a commit back *)

Lemma sorted_by_lookup {A} (R : A → A → Prop) l :
  (∀ i j x y, (i < j)%nat → l !! i = Some x → l !! j = Some y → R x y) → StronglySorted R l.
Proof.
  induction l as [|x l IH]; intros Hr; constructor.
  - apply IH. intros i j a b Hij Ha Hb. apply (Hr (S i) (S j)); [lia|done|done].
  - apply Forall_forall. intros y [j Hj]%list_elem_of_lookup. apply (Hr 0%nat (S j)); [lia|done|done].
Qed.

Lemma built_batches who ops start now lane :
  0 < start → ops ≠ [] → zlen ops ≤ U32_MAX →
  batches (build_entries who ops start now lane) = [{| b_id := start; entries := build_entries who ops start now lane |}].
Proof.
  intros Hs Hne Hz. set (new := build_entries who ops start now lane).
  assert (∀ e, e ∈ new → effective_batch_id e = start) as Heff by (intros e He; by apply (built_effective who now lane ops start)).
  assert (batch_order new = [start]) as Ho.
  { apply Permutation_singleton_r, NoDup_Permutation; [apply batch_order_NoDup|apply NoDup_singleton|].
    intros id. rewrite batch_order_elem, list_elem_of_singleton. split; [intros (e & He & <-); by apply Heff|intros ->].
    destruct new as [|e l] eqn:E; [|exists e; split; [by left|apply Heff; by left]].
    destruct Hne. rewrite <- (built_operations who now lane ops start). fold new. by rewrite E. }
  unfold batches. rewrite Ho. cbn [fmap list_fmap]. unfold batch_of. do 2 f_equal.
  assert (of_batch start new = new) as ->.
  { unfold of_batch. clear -Heff. induction new as [|e l IH]; [done|]. cbn [List.filter].
    rewrite (Heff e), Z.eqb_refl by (by left). f_equal. apply IH. intros. apply Heff. by right. }
  apply sort_by_id, sorted_by_lookup. assert (∀ i x, new !! i = Some x → batch_index x = Z.of_nat i) as Hi.
  { intros i x Hx. pose proof (lookup_lt_Some _ _ _ Hx) as Hlt. assert (zlen new = zlen ops) by apply built_zlen.
    apply built_lookup in Hx as (op & _ & ->). cbn. apply Z.mod_small. unfold U32_MAX, zlen in *. lia. }
  intros i j x y Hij Hx%Hi Hy%Hi. unfold compare_batch_index. rewrite Hx, Hy. apply Z.compare_lt_iff. lia.
Qed.

Lemma is_commit_for op id : is_transaction_commit_for op id = true → is_transaction_commit op = true.
Proof. by destruct op. Qed.

Lemma first_commit_built who ops start now lane tx :
  0 < start → commits tx ops ≠ [] → ∃ id, first_commit tx (build_entries who ops start now lane) = Some (id, start).
Proof.
  intros Hs Hc. destruct (first_commit tx _) as [[id b]|] eqn:E.
  - exists id. unfold first_commit in E. destruct (List.filter _ _) as [|e l] eqn:El; [done|]. injection E as <- <-. do 2 f_equal.
    apply (built_effective who now lane ops); [done|]. assert (In e (e :: l)) as Hin by (by left). rewrite <- El in Hin.
    apply filter_In in Hin as [Hin _]. by apply list_elem_of_In.
  - apply first_commit_none in E. by rewrite built_operations in E.
Qed.

Lemma filter_fmap_bool {A B} (f : A → B) (p : B → bool) l : f <$> List.filter (λ x, p (f x)) l = List.filter p (f <$> l).
Proof. induction l as [|x l IH]; [done|]. rewrite fmap_cons. cbn [List.filter]. destruct (p (f x)); [|done]. rewrite fmap_cons. by f_equal. Qed.

(** What a committed transaction recorded, from the log that its batch was appended to *)
Lemma committed_records_built who log es ops now lane tx :
  log_of log (es ++ build_entries who ops (zlen es + 1) now lane) → batch_closed es → first_commit tx es = None →
  commits tx ops ≠ [] →
  (∃ id, transaction_commit log tx = Ok (Some (id, zlen es + 1))) ∧
  committed_batch_records log tx = Ok (List.filter (λ op, negb (is_transaction_commit op)) ops).
Proof.
  intros Hl Hcl Hf Hc. pose proof (zlen_nonneg es) as Hes. set (new := build_entries who ops (zlen es + 1) now lane) in *.
  destruct (first_commit_built who ops (zlen es + 1) now lane tx) as [id Hnew]; [lia|done|]. fold new in Hnew.
  assert (transaction_commit log tx = Ok (Some (id, zlen es + 1))) as Ht.
  { by rewrite (transaction_commit_ok _ _ _ Hl), first_commit_app, Hf, Hnew. }
  split; [by exists id|]. unfold committed_batch_records, committed_batch. rewrite Ht, !bind_Ok.
  unfold collect_batches_scoped. rewrite (collect_ok _ _ 0 1 _ _ Hl) by done. rewrite bind_Ok.
  destruct (log_of_count _ _ Hl) as (_ & _ & Hmax). rewrite zlen_app in Hmax. unfold new in Hmax. rewrite built_zlen in Hmax.
  destruct Hl as (bs & ss & Hl & Heq). pose proof (lh_ids _ _ _ Hl) as Hids. rewrite <- Heq in Hids.
  rewrite after_all by (apply Forall_forall; intros e He; pose proof (numbered_bounds _ _ _ Hids He); lia).
  assert (ops ≠ []) as Hne by (by intros ->). apply numbered_app in Hids as [Hids _].
  unfold query, shown. rewrite batches_app.
  - unfold new. rewrite built_batches by (lia || done).
    cbn [app List.filter scope_matches b_id]. rewrite Z.eqb_refl. change (Z.to_nat 1) with 1%nat. rewrite firstn_cons, take_0.
    cbn [last]. rewrite bind_Ok. cbn [entries]. rewrite (filter_fmap_bool operation (λ op, negb (is_transaction_commit op))).
    by rewrite built_operations.
  - intros x y Hx Hy. rewrite (built_effective who now lane ops (zlen es + 1) y) by (lia || done).
    destruct (Hcl x Hx) as (x' & Hx' & <-). pose proof (numbered_bounds _ _ _ Hids Hx'). lia.
Qed.

(** An operation with a transaction id is applied exactly once: the call either finds the
    id's commit and changes nothing, or appends the batch, from which the records of the
    transaction can be read back, and after which every further call with the id does
    nothing. *)
Theorem exactly_once_commit who now log es ops lane tx :
  log_of log es → room log (zlen ops) → commits tx ops ≠ [] →
  returns (record_batch_exactly_once who now log ops lane tx) (λ '(r, log'),
    match r with
    | None => log' = log ∧ commits tx (operation <$> es) ≠ []
    | Some ids =>
        ids = seqZ (zlen es + 1) (zlen ops) ∧ commits tx (operation <$> es) = [] ∧
        log_of log' (es ++ build_entries who ops (zlen es + 1) now lane) ∧
        committed_batch_records log' tx = Ok (List.filter (λ op, negb (is_transaction_commit op)) ops) ∧
        ∀ who' now' ops' lane', ops' ≠ [] → record_batch_exactly_once who' now' log' ops' lane' tx = Ok (None, log')
    end).
Proof.
  intros Hlog Hroom Hc. pose proof (zlen_nonneg es) as Hes. assert (ops ≠ []) as Hne by (by intros ->).
  unfold record_batch_exactly_once at 1. rewrite bool_decide_false by done.
  rewrite (transaction_commit_ok _ _ _ Hlog), bind_Ok. destruct (first_commit tx es) as [c|] eqn:Hf.
  { split; [done|]. intros E%first_commit_none. congruence. }
  apply returns_bind. eapply returns_mono; [by apply append_operations_ok|]. intros [ids log'] (Hl & -> & _).
  destruct (committed_records_built who log' es ops now lane tx) as [[id Ht] Hr]; [done|by eapply log_of_closed|done..|].
  split; [done|]. split; [by apply first_commit_none|]. split; [done|]. split; [done|].
  intros who' now' ops' lane' Hne'. unfold record_batch_exactly_once. rewrite bool_decide_false by done. by rewrite Ht, bind_Ok.
Qed.

Lemma committed_batch_records_total log es tx : log_of log es → ∃ records, committed_batch_records log tx = Ok records.
Proof.
  intros Hlog. unfold committed_batch_records, committed_batch. rewrite (transaction_commit_ok _ _ _ Hlog), bind_Ok.
  destruct (first_commit tx es) as [[id b]|]; [|by eexists]. unfold collect_batches_scoped.
  rewrite (collect_ok _ _ 0 1 _ _ Hlog) by done. rewrite !bind_Ok. by eexists.
Qed.

(** ** Conditional commits *)

(** The keys of an entry that a precondition names *)
Definition conflicts (ks : list IsolationKey) (e : OpEntry) : list IsolationKey :=
  List.filter (λ k, bool_decide (k ∈ ks)) (isolation_keys_for_record (operation e) (scope e)).

Lemma isolation_scan_some es ks k id :
  isolation_scan es ks = Some (k, id) →
  ∃ older e newer, es = older ++ e :: newer ∧ e_id e = id ∧ Forall (λ x, conflicts ks x = []) older ∧
    k ∈ ks ∧ k ∈ isolation_keys_for_record (operation e) (scope e).
Proof.
  induction es as [|e es IH]; [done|]. cbn [isolation_scan]. fold (conflicts ks e).
  destruct (conflicts ks e) as [|k' l] eqn:E.
  - intros (older & e' & newer & -> & Hid & Ho & Hk)%IH. exists (e :: older), e', newer. split_and!; try done; [by constructor|apply Hk|apply Hk].
  - intros [= -> <-]. exists [], e, es. split_and!; [done|done|constructor|..].
    all: assert (In k (conflicts ks e)) as [Hk Hin]%filter_In by (rewrite E; by left).
    + by apply bool_decide_eq_true in Hin.
    + by apply list_elem_of_In.
Qed.

Lemma isolation_scan_none es ks : isolation_scan es ks = None → Forall (λ x, conflicts ks x = []) es.
Proof.
  induction es as [|e es IH]; [constructor|]. cbn [isolation_scan]. fold (conflicts ks e).
  destruct (conflicts ks e) eqn:E; [|done]. intros Hs. constructor; [done|by apply IH].
Qed.

Lemma conflicts_nil es : Forall (λ x, conflicts [] x = []) es.
Proof.
  apply Forall_true. intros e. unfold conflicts. induction (isolation_keys_for_record (operation e) (scope e)) as [|k l IH]; [done|].
  cbn [List.filter]. rewrite bool_decide_false; [done|]. apply not_elem_of_nil.
Qed.

(** C21. A conditional commit is serializable: it commits only when the transaction was not
    committed before and no entry after the head that the caller saw touches a key of the
    precondition; a conflict names the first such entry and the key; a retry of a committed
    transaction returns the recorded operations. Nothing but a commit changes the log. *)
Theorem conditional_commit who now log es ops lane tx pre :
  log_of log es → room log (zlen ops) → commits tx ops ≠ [] → 0 ≤ since_head_id pre ≤ zlen es →
  returns (record_batch_exactly_once_if_unchanged who now log ops lane tx pre) (λ '(outcome, log'),
    match outcome with
    | Committed ids =>
        ids = seqZ (zlen es + 1) (zlen ops) ∧ commits tx (operation <$> es) = [] ∧
        Forall (λ e, conflicts (keys pre) e = []) (after (since_head_id pre) es) ∧
        log_of log' (es ++ build_entries who ops (zlen es + 1) now lane)
    | AlreadyCommitted records =>
        log' = log ∧ commits tx (operation <$> es) ≠ [] ∧ committed_batch_records log tx = Ok records
    | IsolationConflict k since id =>
        log' = log ∧ since = since_head_id pre ∧ commits tx (operation <$> es) = [] ∧
        ∃ older e newer, after since es = older ++ e :: newer ∧ e_id e = id ∧
          Forall (λ x, conflicts (keys pre) x = []) older ∧
          k ∈ keys pre ∧ k ∈ isolation_keys_for_record (operation e) (scope e)
    end).
Proof.
  intros Hlog Hroom Hc Hs. assert (ops ≠ []) as Hne by (by intros ->). destruct (log_of_count _ _ Hlog) as (_ & Hh & _).
  unfold record_batch_exactly_once_if_unchanged. rewrite bool_decide_false by done.
  rewrite (transaction_commit_ok _ _ _ Hlog), bind_Ok. destruct (first_commit tx es) as [c|] eqn:Hf.
  { assert (commits tx (operation <$> es) ≠ []) as Hce by (intros E%first_commit_none; congruence).
    destruct (committed_batch_records_total log es tx Hlog) as [records Hr]. rewrite Hr, bind_Ok. by split_and!. }
  apply first_commit_none in Hf. rewrite (log_entries_after_ok _ _ _ Hlog) by lia.
  set (conflict := if _ && _ then _ else _).
  assert (∃ o, conflict = Ok o ∧ match o with
    | Some (k, id) => isolation_scan (after (since_head_id pre) es) (keys pre) = Some (k, id)
    | None => Forall (λ e, conflicts (keys pre) e = []) (after (since_head_id pre) es)
    end) as (o & -> & Ho).
  { unfold conflict. case_bool_decide as Hk; cbn [negb andb].
    { exists None. split; [done|]. rewrite Hk. apply conflicts_nil. }
    destruct (Z.eqb_spec (head_id log) (since_head_id pre)) as [E|_]; cbn [negb].
    { exists None. split; [done|]. rewrite after_none; [constructor|]. apply Forall_forall. intros e He.
      pose proof (numbered_bounds _ _ _ (log_of_numbered _ _ Hlog) He). lia. }
    rewrite bind_Ok. eexists. split; [done|]. destruct (isolation_scan _ _) as [[k id]|] eqn:Eo; [done|]. by apply isolation_scan_none. }
  rewrite bind_Ok. destruct o as [[k id]|].
  - split_and!; [done..|]. by apply isolation_scan_some.
  - apply returns_bind. eapply returns_mono; [by apply append_operations_ok|]. intros [ids log'] (Hl & -> & _). by split_and!.
Qed.

(** ** Undo marks *)

Lemma set_undone_spec es id u :
  0 < id → set_undone es id u = (λ e, if effective_batch_id e =? id then mark_entry u e else e) <$> es.
Proof.
  intros Hid. unfold set_undone. apply list_fmap_ext. intros i e _. f_equal. unfold effective_batch_id.
  destruct (Z.eqb_spec (batch_id e) 0) as [->|]; cbn [andb orb]; [|by rewrite orb_false_r].
  destruct (Z.eqb_spec 0 id); [lia|done].
Qed.

(** A rewrite of entries that keeps their ids and operations *)
Record same_entries (es es' : list OpEntry) : Prop := {
  se_ids : e_id <$> es' = e_id <$> es;
  se_ops : operation <$> es' = operation <$> es;
}.

Lemma same_zlen es es' : same_entries es es' → zlen es' = zlen es.
Proof. intros [Hi _]. by rewrite <- (zlen_fmap e_id es'), Hi, zlen_fmap. Qed.

Lemma same_numbered es es' : same_entries es es' → numbered 1 es → numbered 1 es'.
Proof. intros Hs Hn. unfold numbered in *. by rewrite (same_zlen _ _ Hs), (se_ids _ _ Hs). Qed.

Lemma same_elem es es' id : same_entries es es' → (∃ x, x ∈ es ∧ e_id x = id) → ∃ x, x ∈ es' ∧ e_id x = id.
Proof.
  intros [Hi _] (x & Hx & <-). assert (e_id x ∈ e_id <$> es') as Hin by (rewrite Hi; by apply list_elem_of_fmap_2).
  apply list_elem_of_fmap in Hin as (y & Hy & Hin). by exists y.
Qed.

Lemma set_undone_same es id u : same_entries es (set_undone es id u).
Proof.
  split; unfold set_undone; rewrite <- list_fmap_compose; apply list_fmap_ext; intros i e _; unfold compose; by destruct (_ || _).
Qed.

Lemma set_undone_closed es id u : batch_closed es → batch_closed (set_undone es id u).
Proof.
  intros Hc e (x & -> & Hx)%list_elem_of_fmap. apply (same_elem es); [apply set_undone_same|].
  destruct (Hc x Hx) as (y & Hy & E). exists y. split; [done|]. rewrite E. by destruct (_ || _).
Qed.

Lemma update_undone_ok log es b u :
  log_of log es → generation log < USIZE_MAX →
  returns (update_batch_undone_state log b u) (λ '(b', log'),
    log_of log' (set_undone es (b_id b) u) ∧ generation log' = generation log + 1 ∧
    b' = {| b_id := b_id b; entries := mark_entry u <$> entries b |}).
Proof.
  intros Hlog Hg. unfold update_batch_undone_state, materialize_entries. rewrite (log_entries_after_ok _ _ _ Hlog) by done.
  pose proof (log_of_numbered _ _ Hlog) as Hn. rewrite bind_Ok, after_all.
  2:{ apply Forall_forall. intros e He. pose proof (numbered_bounds _ _ _ Hn He). lia. }
  pose proof (set_undone_same es (b_id b) u) as Hsame. apply returns_bind. eapply returns_mono.
  { apply replace_entries_ok; [by eapply same_numbered|apply set_undone_closed; by eapply log_of_closed| |done].
    rewrite (same_zlen _ _ Hsame). by destruct (log_of_count _ _ Hlog) as (_ & _ & ?). }
  intros log' [Hl Hgen]. by split_and!.
Qed.

Lemma of_batch_undone es id u : 0 < id → of_batch id (set_undone es id u) = mark_entry u <$> of_batch id es.
Proof.
  intros Hid. rewrite set_undone_spec by done. induction es as [|e es IH]; [done|]. rewrite fmap_cons, !of_batch_cons, IH.
  destruct (effective_batch_id e =? id) eqn:E; [|by rewrite E]. change (effective_batch_id (mark_entry u e)) with (effective_batch_id e).
  by rewrite E.
Qed.

Lemma elem_take {A} n (l : list A) x : x ∈ take n l → x ∈ l.
Proof. intros Hx. rewrite <- (take_drop n l). apply elem_of_app. by left. Qed.

(** C22. Marking a batch undone hides it from the next undo, at every bound and scope, and
    redoing it restores the log to the entries that it held before. *)
Theorem undo_redo_roundtrip log es b :
  log_of log es → generation log + 1 < USIZE_MAX → 0 < b_id b →
  Forall (λ e, undone e = false) (of_batch (b_id b) es) →
  returns (update_batch_undone_state log b true) (λ '(b', log'),
    (∀ count scope_, 0 ≤ count → returns (undo_batches_scoped log' count scope_) (λ bs, Forall (λ x, b_id x ≠ b_id b) bs)) ∧
    returns (update_batch_undone_state log' b' false) (λ '(_, log''), log_of log'' es)).
Proof.
  intros Hlog Hg Hid Hu. eapply returns_mono; [apply update_undone_ok; [done|lia]|].
  intros [b' log'] (Hl & Hgen & ->). split.
  - intros count scope_ Hc. unfold undo_batches_scoped, collect_batches_scoped. rewrite (collect_ok _ _ 0 count _ _ Hl) by done.
    apply Forall_forall. intros x Hx%elem_take. unfold shown in Hx. apply list_elem_of_In, filter_In in Hx as [Hx Hp].
    apply filter_In in Hx as [Hx _]. apply list_elem_of_In, list_elem_of_fmap in Hx as (id & -> & _). cbn [b_id batch_of]. intros ->.
    apply existsb_exists in Hp as (e & He & Hpe). apply list_elem_of_In in He. cbn [entries batch_of] in He.
    rewrite sort_by_perm, after_all, of_batch_undone in He.
    + apply list_elem_of_fmap in He as (y & -> & _). done.
    + done.
    + apply Forall_forall. intros y Hy. pose proof (numbered_bounds _ _ _ (log_of_numbered _ _ Hl) Hy). lia.
  - eapply returns_mono; [apply update_undone_ok; [done|lia]|]. intros [b'' log''] (Hl' & _ & _). cbn [b_id] in Hl'.
    assert (set_undone (set_undone es (b_id b) true) (b_id b) false = es) as <-; [|done].
    rewrite !set_undone_spec by done. rewrite <- list_fmap_compose. rewrite <- (list_fmap_id es) at 2. apply list_fmap_ext.
    intros i e He%list_elem_of_lookup_2. unfold compose. destruct (effective_batch_id e =? b_id b) eqn:E; [|by rewrite E].
    change (effective_batch_id (mark_entry true e)) with (effective_batch_id e). rewrite E.
    rewrite Forall_forall in Hu. specialize (Hu e). rewrite of_batch_elem in Hu. apply Z.eqb_eq in E.
    destruct e. unfold mark_entry. cbn in *. by rewrite Hu.
Qed.

(** ** Coalescing two batches *)

(** The entries of both batches moved into the primary one, in the order of the log and
    numbered from [i]; in a numbered log this is what the writes through the sorted indices
    give. *)
Fixpoint move_entries (primary secondary i : Z) (es : list OpEntry) : list OpEntry :=
  match es with
  | [] => []
  | e :: es =>
      if in_either primary secondary e
      then move_entry primary i e :: move_entries primary secondary (i + 1) es
      else e :: move_entries primary secondary i es
  end.

Lemma indexed_sorted (P : OpEntry → bool) (f : nat → nat) es :
  increasing es → StronglySorted (λ x y, compare_indexed x y = Lt) (List.filter (λ x, P x.2) (imap (λ n, pair (f n)) es)).
Proof.
  intros Hs. revert f. induction Hs as [|e es Hs IH Hall]; intros f; [constructor|]. rewrite imap_cons. cbn [List.filter snd].
  destruct (P e); [|apply (IH (f ∘ S))]. constructor; [apply (IH (f ∘ S))|]. apply Forall_forall.
  intros [n x] Hx%list_elem_of_In. apply filter_In in Hx as [Hx%list_elem_of_In _]. apply elem_of_lookup_imap in Hx as (k & y & [= -> ->] & Hy).
  rewrite Forall_forall in Hall. apply Z.compare_lt_iff, Hall, (list_elem_of_lookup_2 _ _ _ Hy).
Qed.

Lemma matching_sorted primary secondary es :
  numbered 1 es → matching_indices primary secondary es = List.filter (λ x, in_either primary secondary x.2) (imap pair es).
Proof. intros Hn%numbered_increasing. by apply sort_by_id, (indexed_sorted _ id). Qed.

Lemma matching_entries primary secondary (f : nat → nat) es :
  (List.filter (λ x, in_either primary secondary x.2) (imap (λ n, pair (f n)) es)).*2 = List.filter (in_either primary secondary) es.
Proof.
  revert f. induction es as [|e es IH]; intros f; [done|]. rewrite imap_cons. cbn [List.filter snd].
  destruct (in_either primary secondary e); [rewrite fmap_cons; f_equal|]; apply (IH (f ∘ S)).
Qed.

Lemma move_indexed_app primary secondary i pre es :
  move_indexed primary i (List.filter (λ x, in_either primary secondary x.2) (imap (λ n, pair (length pre + n)%nat) es)) (pre ++ es) =
    pre ++ move_entries primary secondary i es.
Proof.
  revert pre i. induction es as [|e es IH]; intros pre i; [done|]. rewrite imap_cons. cbn [List.filter snd move_entries].
  assert (∀ x, imap ((λ n, pair (length pre + n)%nat) ∘ S) es = imap (λ n, pair (length (pre ++ [x]) + n)%nat) es) as Hi.
  { intros x. apply imap_ext. intros n y _. cbn. f_equal. rewrite length_app. cbn. lia. }
  destruct (in_either primary secondary e).
  - cbn [move_indexed]. rewrite Nat.add_0_r, (insert_app_r_alt pre) by lia. rewrite Nat.sub_diag. cbn [list_insert insert].
    rewrite (Hi (move_entry primary i e)), (cons_middle _ pre es), (app_assoc pre _ es), IH. by rewrite <- app_assoc.
  - rewrite (Hi e), (cons_middle e pre es), (app_assoc pre _ es), IH. by rewrite <- app_assoc.
Qed.

Lemma move_indexed_entries primary secondary es :
  numbered 1 es → move_indexed primary 0 (matching_indices primary secondary es) es = move_entries primary secondary 0 es.
Proof. intros Hn. rewrite matching_sorted by done. apply (move_indexed_app primary secondary 0 []). Qed.

Lemma moved_entries primary secondary es :
  numbered 1 es →
  imap (λ i x, move_entry primary (Z.of_nat i) x.2) (matching_indices primary secondary es) =
    imap (λ i e, move_entry primary (Z.of_nat i) e) (List.filter (in_either primary secondary) es).
Proof. intros Hn. by rewrite matching_sorted, <- (matching_entries primary secondary id), imap_fmap. Qed.

Section coalesce.
Context (primary secondary : Z) (Hp : 0 < primary).

Lemma move_same i es : same_entries es (move_entries primary secondary i es).
Proof using.
  split; revert i; induction es as [|e es IH]; intros i; try done; cbn [move_entries];
    destruct (in_either _ _ e); rewrite !fmap_cons; cbn [move_entry e_id operation]; by f_equal.
Qed.

Lemma effective_move i e : effective_batch_id (move_entry primary i e) = primary.
Proof using Hp. unfold effective_batch_id. cbn. destruct (Z.eqb_spec primary 0); [lia|done]. Qed.

Lemma move_elem i es e :
  e ∈ move_entries primary secondary i es →
  effective_batch_id e = primary ∨ (e ∈ es ∧ in_either primary secondary e = false).
Proof using Hp.
  revert i. induction es as [|x es IH]; intros i; [by intros ?%not_elem_of_nil|]. cbn [move_entries].
  destruct (in_either primary secondary x) eqn:E.
  - intros [-> |He]%elem_of_cons; [left; apply effective_move|]. destruct (IH _ He) as [|[? ?]]; [by left|right; split; [by right|done]].
  - intros [-> |He]%elem_of_cons; [right; split; [by left|done]|]. destruct (IH _ He) as [|[? ?]]; [by left|right; split; [by right|done]].
Qed.

(** The merged batch: the entries of both, numbered in order *)
Lemma move_of_batch i es :
  of_batch primary (move_entries primary secondary i es) =
    imap (λ k e, move_entry primary (i + Z.of_nat k) e) (List.filter (in_either primary secondary) es).
Proof using Hp.
  revert i. induction es as [|e es IH]; intros i; [done|]. cbn [move_entries List.filter].
  destruct (in_either primary secondary e) eqn:E; rewrite of_batch_cons.
  - rewrite effective_move, Z.eqb_refl, IH, imap_cons, Z.add_0_r. f_equal. apply imap_ext. intros k x _. cbn. f_equal. lia.
  - unfold in_either in E. apply orb_false_elim in E as [E _]. rewrite E. apply IH.
Qed.

(** The other batches are as they were. *)
Lemma move_of_other i es id :
  id ≠ primary → id ≠ secondary → of_batch id (move_entries primary secondary i es) = of_batch id es.
Proof using Hp.
  intros Hip His. revert i. induction es as [|e es IH]; intros i; [done|]. cbn [move_entries].
  destruct (in_either primary secondary e) eqn:E; rewrite !of_batch_cons, IH; [|done].
  rewrite effective_move. unfold in_either in E. apply orb_prop in E.
  rewrite (proj2 (Z.eqb_neq primary id)) by done. by destruct E as [->%Z.eqb_eq | ->%Z.eqb_eq]; rewrite (proj2 (Z.eqb_neq _ id)) by done.
Qed.

Lemma move_closed i es : (∃ x, x ∈ es ∧ e_id x = primary) → batch_closed es → batch_closed (move_entries primary secondary i es).
Proof using Hp.
  intros Hx Hc e [-> | [He _]]%move_elem; apply (same_elem es _ _ (move_same i es)); [done|]. by apply Hc.
Qed.
End coalesce.

Lemma existsb_batch es id : existsb (λ e, effective_batch_id e =? id) es = true ↔ ∃ e, e ∈ es ∧ effective_batch_id e = id.
Proof.
  rewrite existsb_exists. split; intros (e & He & E); exists e; (split; [by apply list_elem_of_In|by apply Z.eqb_eq]).
Qed.

Lemma existsb_no_batch es id : existsb (λ e, effective_batch_id e =? id) es = false → of_batch id es = [].
Proof.
  intros E. apply of_batch_nil. intros e He Hid. assert (existsb (λ e, effective_batch_id e =? id) es = true) as Et; [|congruence].
  apply existsb_batch. by exists e.
Qed.

(** The query for one batch *)
Lemma query_one es id : id ∈ batch_order es → query es 1 (λ b, b_id b =? id) None = [batch_of es id].
Proof.
  intros Hin. unfold query, shown. assert (List.filter (λ b, scope_matches None (entries b)) (batches es) = batches es) as ->.
  { induction (batches es) as [|b bs IH]; [done|]. cbn. by f_equal. }
  unfold batches. pose proof (batch_order_NoDup es) as Hnd. revert Hin Hnd. generalize (batch_order es). intros o Hin Hnd.
  induction Hnd as [|a o Ha Ho IH]; [by apply not_elem_of_nil in Hin|]. rewrite fmap_cons. cbn [List.filter b_id batch_of].
  destruct (Z.eqb_spec a id) as [->|Hne].
  - change (Z.to_nat 1) with 1%nat. by rewrite firstn_cons, take_0.
  - apply IH. by apply elem_of_cons in Hin as [->|].
Qed.

Lemma move_sorted primary es :
  zlen es ≤ U32_MAX →
  sort_by compare_batch_index (imap (λ k e, move_entry primary (0 + Z.of_nat k) e) es) =
    imap (λ k e, move_entry primary (0 + Z.of_nat k) e) es.
Proof.
  intros Hz. apply sort_by_id, sorted_by_lookup. intros i j x y Hij. rewrite !list_lookup_imap.
  destruct (es !! i) as [a|] eqn:Ei, (es !! j) as [b|] eqn:Ej; try done. cbn. intros [= <-] [= <-].
  apply lookup_lt_Some in Ei, Ej. unfold compare_batch_index. cbn [batch_index move_entry]. unfold as_u32, zlen, U32_MAX in *.
  rewrite !Z.mod_small by lia. apply Z.compare_lt_iff. lia.
Qed.

(** Coalescing two batches of the log moves every entry of the two into the primary
    batch, in log order and numbered anew, leaves the operations and the other batches as
    they were, and leaves no secondary batch; a query for the primary batch then returns
    it. A missing batch is an error. *)
Theorem coalesce_merges log es primary secondary :
  log_of log es → generation log < USIZE_MAX → primary ≠ secondary →
  settles (coalesce_batches log primary secondary) (λ '(b, log'),
      ∃ es', log_of log' es' ∧ operation <$> es' = operation <$> es ∧
        b_id b = primary ∧
        entries b = imap (λ k e, move_entry primary (Z.of_nat k) e) (List.filter (in_either primary secondary) es) ∧
        of_batch secondary es' = [] ∧ (∀ id, id ≠ primary → id ≠ secondary → of_batch id es' = of_batch id es) ∧
        collect_batches_scoped log' 1 (λ x, b_id x =? primary) None = Ok [b])
    (λ err, err = Config ∧ (of_batch primary es = [] ∨ of_batch secondary es = [])).
Proof.
  intros Hlog Hg Hne. unfold coalesce_batches, materialize_entries. rewrite (proj2 (Z.eqb_neq _ _)) by done.
  pose proof (log_of_numbered _ _ Hlog) as Hn. pose proof (log_of_closed _ _ Hlog) as Hc.
  rewrite (log_entries_after_ok _ _ _ Hlog) by done. rewrite bind_Ok, after_all.
  2:{ apply Forall_forall. intros e He. pose proof (numbered_bounds _ _ _ Hn He). lia. }
  destruct (existsb _ es && existsb _ es) eqn:Ex; cbn [ensure].
  2:{ split; [done|]. by apply andb_false_iff in Ex as [Ex|Ex]; [left|right]; apply existsb_no_batch. }
  rewrite bind_Ok, move_indexed_entries, moved_entries by done. apply andb_prop in Ex as [Hp%existsb_batch _].
  assert (∃ x, x ∈ es ∧ e_id x = primary) as Hx by (by destruct Hp as (e & He & <-); apply Hc).
  assert (0 < primary) as Hpos by (destruct Hx as (x & Hx & <-); pose proof (numbered_bounds _ _ _ Hn Hx); lia).
  pose proof (move_same primary secondary 0 es) as Hsame. destruct (log_of_count _ _ Hlog) as (_ & _ & Hz).
  apply settles_bind, returns_settles. eapply returns_mono.
  { apply (replace_entries_ok log (move_entries primary secondary 0 es)); [by eapply same_numbered| | |done].
    - by apply move_closed.
    - by rewrite (same_zlen _ _ Hsame). }
  intros log' [Hl _]. cbn [settles].
  exists (move_entries primary secondary 0 es). cbn [b_id entries].
  split; [done|]. split; [apply Hsame|]. split; [done|]. split; [done|].
  split; [|split; [intros; by apply move_of_other|]].
  - apply of_batch_nil. intros e He. apply move_elem in He as [->|[_ E]]; [done| |done].
    unfold in_either in E. apply orb_false_elim in E as [_ E]. by apply Z.eqb_neq.
  - unfold collect_batches_scoped. rewrite (collect_ok _ _ 0 1 _ _ Hl) by done. f_equal. rewrite after_all.
    2:{ apply Forall_forall. intros e He. pose proof (numbered_bounds _ _ _ (log_of_numbered _ _ Hl) He). lia. }
    rewrite query_one.
    + unfold batch_of. rewrite move_of_batch, move_sorted; [done| |done].
      etrans; [|exact Hz]. pose proof (List.filter_length_le (in_either primary secondary) es). unfold zlen. lia.
    + assert (of_batch primary (move_entries primary secondary 0 es) ≠ []) as Hnil.
      { rewrite move_of_batch by done. intros E%length_zero_iff_nil. rewrite length_imap in E. apply length_zero_iff_nil in E.
        destruct Hp as (e & He & Hid). assert (In e (List.filter (in_either primary secondary) es)) as Hin; [|by rewrite E in Hin].
        apply filter_In. split; [by apply list_elem_of_In|]. unfold in_either. by rewrite Hid, Z.eqb_refl. }
      destruct (of_batch primary (move_entries primary secondary 0 es)) as [|e l] eqn:E; [done|].
      apply batch_order_elem. exists e. apply of_batch_elem. rewrite E. by left.
Qed.

(** ** Every sequence of operations *)

Inductive log_call :=
| CallRecord (ops : list OpRecord) (lane : option (list Z))
| CallRecordMany (groups : list (list OpRecord * option (list Z)))
| CallIfNoTransaction (ops : list OpRecord) (lane : option (list Z)) (tx : list Z) (window : Z)
| CallExactlyOnce (ops : list OpRecord) (lane : option (list Z)) (tx : list Z)
| CallIfUnchanged (ops : list OpRecord) (lane : option (list Z)) (tx : list Z) (pre : IsolationPrecondition)
| CallSetUndone (b : OpBatch) (u : bool)
| CallCoalesce (primary secondary : Z).

Definition run_call (who : list Z) (now : Z) (c : log_call) (log : SegmentedOpLogIndex) : exec LogError SegmentedOpLogIndex :=
  match c with
  | CallRecord ops lane => '(_, log) ← record_batch_scoped who now log ops lane; Ok log
  | CallRecordMany groups => '(_, log) ← record_batches_scoped who now log groups; Ok log
  | CallIfNoTransaction ops lane tx window =>
      '(_, log) ← record_batch_scoped_if_no_transaction who now log ops lane tx window; Ok log
  | CallExactlyOnce ops lane tx => '(_, log) ← record_batch_exactly_once who now log ops lane tx; Ok log
  | CallIfUnchanged ops lane tx pre => '(_, log) ← record_batch_exactly_once_if_unchanged who now log ops lane tx pre; Ok log
  | CallSetUndone b u => '(_, log) ← update_batch_undone_state log b u; Ok log
  | CallCoalesce p s => '(_, log) ← coalesce_batches log p s; Ok log
  end.

(** The unsigned arguments *)
Definition unsigned (c : log_call) : Prop :=
  match c with
  | CallIfNoTransaction _ _ _ window => 0 ≤ window
  | CallIfUnchanged _ _ _ pre => 0 ≤ since_head_id pre
  | _ => True
  end.
Definition call_size (c : log_call) : Z :=
  match c with
  | CallRecord ops _ | CallIfNoTransaction ops _ _ _ | CallExactlyOnce ops _ _ | CallIfUnchanged ops _ _ _ => zlen ops
  | CallRecordMany groups => zlen (concat groups.*1)
  | _ => 0
  end.

(** The call names a batch that the log does not have. *)
Definition missing (es : list OpEntry) (c : log_call) : Prop :=
  match c with CallCoalesce p s => of_batch p es = [] ∨ of_batch s es = [] | _ => False end.

(** A transaction is committed at most once by the entries, *)
Definition at_most_once (id : list Z) (es : list OpEntry) : Prop := (length (commits id (operation <$> es)) ≤ 1)%nat.
(** and still so with the operations added to them. *)
Definition once_more (id : list Z) (es : list OpEntry) (ops : list OpRecord) : Prop :=
  (length (commits id (operation <$> es)) + length (commits id ops) ≤ 1)%nat.
(** The commit of the transaction, if there is one, is in one of the [window] newest batches
    of the lane. *)
Definition recalled (id : list Z) (es : list OpEntry) (window : Z) (lane : option (list Z)) : Prop :=
  commits id (operation <$> es) = [] ∨
  ∃ b, b ∈ query es window (λ _, true) lane ∧ commits id (operation <$> entries b) ≠ [].

(** What a caller has to see to for a transaction. A call that writes for the transaction
    itself carries its marker at most once; only when it looks at a window of the log must an
    earlier commit be inside that window. A call that writes without looking for the
    transaction carries its marker only as the first commit of it. *)
Definition careful (id : list Z) (es : list OpEntry) (c : log_call) : Prop :=
  match c with
  | CallRecord ops _ => once_more id es ops
  | CallRecordMany groups => once_more id es (concat groups.*1)
  | CallIfNoTransaction ops lane tx window =>
      if decide (tx = id) then (length (commits id ops) ≤ 1)%nat ∧ recalled id es window lane else once_more id es ops
  | CallExactlyOnce ops _ tx | CallIfUnchanged ops _ tx _ =>
      if decide (tx = id) then (length (commits id ops) ≤ 1)%nat else once_more id es ops
  | CallSetUndone _ _ | CallCoalesce _ _ => True
  end.

Inductive log_step (id : list Z) (log log' : SegmentedOpLogIndex) : Prop :=
| log_call_step who now c es :
    log_of log es → unsigned c → careful id es c → room log (call_size c) → run_call who now c log = Ok log' →
    log_step id log log'.

Lemma batches_loop_ok who now groups next :
  0 < next →
  let '(all, _) := batches_loop who now groups next in
  numbered next all ∧ batch_closed all ∧ operation <$> all = concat groups.*1.
Proof.
  revert next. induction groups as [|[ops lane] groups IH]; intros next Hn; cbn [batches_loop].
  { split; [done|]. split; [by intros ? ?%not_elem_of_nil|done]. }
  rewrite fmap_cons. cbn [concat fst]. case_bool_decide as E.
  - subst ops. specialize (IH next Hn). destruct (batches_loop who now groups next) as [all ids]. done.
  - rewrite built_zlen. pose proof (zlen_nonneg ops). specialize (IH (next + zlen ops) ltac:(lia)).
    destruct (batches_loop who now groups (next + zlen ops)) as [all ids]. destruct IH as (Hnum & Hc & Hops). split; [|split].
    + apply numbered_app. split; [apply built_numbered|]. by rewrite built_zlen.
    + apply batch_closed_app; [by apply built_closed|done].
    + by rewrite fmap_app, built_operations, Hops.
Qed.

Lemma zlen_operations es ops : operation <$> es = ops → zlen es = zlen ops.
Proof. intros <-. by rewrite zlen_fmap. Qed.

(** Whether a batch carries a commit of the transaction *)
Lemma existsb_commit id es :
  existsb (λ e, is_transaction_commit_for (operation e) id) es = true ↔ commits id (operation <$> es) ≠ [].
Proof.
  unfold commits. induction es as [|e es IH]; [done|]. rewrite fmap_cons. cbn [existsb List.filter].
  by destruct (is_transaction_commit_for (operation e) id).
Qed.

Lemma log_read_all log es : log_of log es → log_entries_after log 0 = Ok es.
Proof.
  intros Hlog. rewrite (log_entries_after_ok _ _ _ Hlog) by done. f_equal. apply after_all, Forall_forall. intros e He.
  pose proof (numbered_bounds _ _ _ (log_of_numbered _ _ Hlog) He). lia.
Qed.

Lemma query_recent log es window lane :
  log_of log es → 0 ≤ window → collect_batches_scoped log window (λ _, true) lane = Ok (query es window (λ _, true) lane).
Proof.
  intros Hlog Hw. unfold collect_batches_scoped. rewrite (collect_ok _ _ 0 window _ _ Hlog) by done. do 2 f_equal.
  apply after_all, Forall_forall. intros e He. pose proof (numbered_bounds _ _ _ (log_of_numbered _ _ Hlog) He). lia.
Qed.

Section steps.
Context (who : list Z) (now : Z) (id : list Z) (log : SegmentedOpLogIndex) (es : list OpEntry).
Context (Hlog : log_of log es) (Honce : at_most_once id es).

(** The log after a call that was made with care when [P] holds *)
Definition follows (P : Prop) (log' : SegmentedOpLogIndex) : Prop := ∃ es', log_of log' es' ∧ (P → at_most_once id es').

Lemma keeps_log P : follows P log.
Proof using Hlog Honce. by exists es. Qed.

Lemma follows_app log' new ops (P : Prop) :
  log_of log' (es ++ new) → operation <$> new = ops → (P → once_more id es ops) → follows P log'.
Proof using Type. intros Hl Hops HP. eexists. split; [exact Hl|]. intros H. unfold at_most_once. rewrite fmap_app, commits_app, length_app, Hops. by apply HP. Qed.

(** A batch without commits, or with the first of its transaction *)
Lemma append_inv ops lane (P : Prop) :
  room log (zlen ops) → (P → once_more id es ops) →
  returns (append_operations who now log ops lane) (λ '(_, log'), follows P log').
Proof using Hlog.
  intros Hr Hc. eapply returns_mono; [by apply append_operations_ok|]. intros [ids log'] (Hl & _).
  by apply (follows_app _ _ _ _ Hl (built_operations _ _ _ _ _)).
Qed.

Lemma fresh_once tx ops :
  first_commit tx es = None →
  (if decide (tx = id) then (length (commits id ops) ≤ 1)%nat else once_more id es ops) → once_more id es ops.
Proof using Type. intros Hf%first_commit_none. destruct (decide (tx = id)) as [->|]; [|done]. unfold once_more. by rewrite Hf. Qed.

Lemma record_inv ops lane :
  room log (zlen ops) →
  returns (record_batch_scoped who now log ops lane) (λ '(_, log'), follows (once_more id es ops) log').
Proof using Hlog Honce. intros Hr. unfold record_batch_scoped. case_bool_decide; [apply keeps_log|by apply append_inv]. Qed.

Lemma record_many_inv groups :
  room log (zlen (concat groups.*1)) →
  returns (record_batches_scoped who now log groups) (λ '(_, log'), follows (once_more id es (concat groups.*1)) log').
Proof using Hlog Honce.
  intros [Hz Hg]. destruct (log_of_count _ _ Hlog) as (Hc & Hh & _). unfold record_batches_scoped. destruct (forallb _ _); [apply keeps_log|].
  pose proof (zlen_nonneg es) as Hes. pose proof (batches_loop_ok who now groups (head_id log + 1) ltac:(lia)) as Hb.
  destruct (batches_loop who now groups (head_id log + 1)) as [all ids]. destruct Hb as (Hnum & Hcl & Hops).
  apply returns_bind. eapply returns_mono.
  { apply (append_entries_ok log es all); [done| |done| |done].
    - by rewrite Z.add_comm, <- Hh.
    - rewrite (zlen_operations _ _ Hops). lia. }
  intros log' [Hl _]. by apply (follows_app _ _ _ _ Hl Hops).
Qed.

Lemma exactly_once_inv ops lane tx :
  room log (zlen ops) →
  returns (record_batch_exactly_once who now log ops lane tx) (λ '(_, log'), follows (careful id es (CallExactlyOnce ops lane tx)) log').
Proof using Hlog Honce.
  intros Hr. unfold record_batch_exactly_once. case_bool_decide; [apply keeps_log|].
  rewrite (transaction_commit_ok _ _ _ Hlog), bind_Ok. destruct (first_commit tx es) as [c|] eqn:Hf; [apply keeps_log|].
  apply returns_bind. eapply returns_mono; [apply append_inv; [done|by apply (fresh_once tx)]|]. by intros [ids log'].
Qed.

Lemma if_unchanged_inv ops lane tx pre :
  room log (zlen ops) → 0 ≤ since_head_id pre →
  returns (record_batch_exactly_once_if_unchanged who now log ops lane tx pre)
    (λ '(_, log'), follows (careful id es (CallIfUnchanged ops lane tx pre)) log').
Proof using Hlog Honce.
  intros Hr Hs. unfold record_batch_exactly_once_if_unchanged. case_bool_decide; [apply keeps_log|].
  rewrite (transaction_commit_ok _ _ _ Hlog), bind_Ok. destruct (first_commit tx es) as [c|] eqn:Hf.
  { destruct (committed_batch_records_total log es tx Hlog) as [records ->]. apply keeps_log. }
  rewrite (log_entries_after_ok _ _ _ Hlog) by done. rewrite bind_Ok. set (o := isolation_scan _ _).
  set (P := careful id es (CallIfUnchanged ops lane tx pre)).
  assert (∀ o' : option (IsolationKey * Z), returns (match o' with
    | Some (k, i) => Ok (IsolationConflict k (since_head_id pre) i, log)
    | None => '(ids, updated) ← append_operations who now log ops lane; Ok (Committed ids, updated)
    end) (λ '(_, log'), follows P log')) as Hcase.
  { intros [[k i]|]; [apply keeps_log|]. apply returns_bind. eapply returns_mono; [apply append_inv; [done|by apply (fresh_once tx)]|].
    by intros [ids log']. }
  destruct (_ && _); rewrite bind_Ok; [apply (Hcase o)|apply (Hcase None)].
Qed.

(** The windowed append, on both sides of its window *)
Lemma if_no_transaction_inv ops lane tx window :
  room log (zlen ops) → 0 ≤ window →
  returns (record_batch_scoped_if_no_transaction who now log ops lane tx window)
    (λ '(_, log'), follows (careful id es (CallIfNoTransaction ops lane tx window)) log').
Proof using Hlog Honce.
  intros Hr Hw. unfold record_batch_scoped_if_no_transaction. case_bool_decide; [apply keeps_log|].
  rewrite (query_recent log es) by done. rewrite bind_Ok. destruct (existsb _ _) eqn:Ex; [apply keeps_log|].
  apply returns_bind. eapply returns_mono; [apply append_inv; [done|]|by intros [ids log']]. cbn [careful].
  destruct (decide (tx = id)) as [->|]; [|done]. intros (Hone & [Hnone|(b & Hb & Hcm)]).
  - unfold once_more. by rewrite Hnone.
  - apply existsb_commit in Hcm. destruct (existsb _ (query _ _ _ _)) eqn:E in Ex; [done|]. exfalso.
    apply not_true_iff_false in E. apply E, existsb_exists. exists b. split; [by apply list_elem_of_In|done].
Qed.

Lemma if_no_transaction_exact ops lane window :
  room log (zlen ops) → 0 ≤ window → length (commits id ops) = 1%nat →
  returns (record_batch_scoped_if_no_transaction who now log ops lane id window)
    (λ '(_, log'), ∃ es', log_of log' es' ∧ (at_most_once id es' ↔ recalled id es window lane)).
Proof using Hlog Honce.
  intros Hr Hw Hone. unfold record_batch_scoped_if_no_transaction. rewrite bool_decide_false by (by intros ->).
  rewrite (query_recent log es) by done. rewrite bind_Ok. destruct (existsb _ _) eqn:Ex.
  - apply existsb_exists in Ex as (b & Hb%list_elem_of_In & Hcm%existsb_commit). exists es. split; [done|]. split; [|done].
    intros _. right. by exists b.
  - apply returns_bind. eapply returns_mono; [by apply append_operations_ok|]. intros [ids log'] (Hl & _). eexists. split; [exact Hl|].
    unfold at_most_once. rewrite fmap_app, commits_app, length_app, built_operations, Hone. split.
    + intros Hle. left. apply length_zero_iff_nil. lia.
    + intros [->|(b & Hb & Hcm%existsb_commit)]; [done|]. exfalso. apply not_true_iff_false in Ex. apply Ex, existsb_exists.
      exists b. split; [by apply list_elem_of_In|done].
Qed.

Lemma undone_inv b u : generation log < USIZE_MAX → returns (update_batch_undone_state log b u) (λ '(_, log'), follows True log').
Proof using Hlog Honce.
  intros Hg. eapply returns_mono; [by apply update_undone_ok|]. intros [b' log'] (Hl & _). eexists. split; [exact Hl|].
  intros _. unfold at_most_once. rewrite (se_ops _ _ (set_undone_same es (b_id b) u)). apply Honce.
Qed.

Lemma same_batch_query i :
  settles (batches ← collect_batches_scoped log 1 (λ b, b_id b =? i) None; b ← ok_or (last batches) Config; Ok (b, log))
    (λ '(_, log'), follows True log') (λ err, err = Config ∧ of_batch i es = []).
Proof using Hlog Honce.
  unfold collect_batches_scoped. rewrite (collect_ok _ _ 0 1 _ _ Hlog) by done. rewrite bind_Ok, after_all.
  2:{ apply Forall_forall. intros e He. pose proof (numbered_bounds _ _ _ (log_of_numbered _ _ Hlog) He). lia. }
  destruct (decide (i ∈ batch_order es)) as [Hin|Hn]; [rewrite (query_one es i) by done; apply keeps_log|].
  assert (of_batch i es = []) as Hnil.
  { apply of_batch_nil. intros e He Hid. apply Hn, batch_order_elem. by exists e. }
  destruct (last _); [apply keeps_log|done].
Qed.

Lemma coalesce_inv primary secondary :
  generation log < USIZE_MAX →
  settles (coalesce_batches log primary secondary) (λ '(_, log'), follows True log')
    (λ err, err = Config ∧ missing es (CallCoalesce primary secondary)).
Proof using Hlog Honce.
  intros Hg. destruct (Z.eq_dec primary secondary) as [<-|Hne].
  - unfold coalesce_batches. rewrite Z.eqb_refl. eapply settles_mono; [apply same_batch_query|by intros [? ?]|].
    intros err [-> Hn]. split; [done|]. by left.
  - eapply settles_mono; [by apply (coalesce_merges log es)| |done]. intros [b log'] (es' & Hl & Hops & _). exists es'. split; [done|]. intros _.
    unfold at_most_once. rewrite Hops. apply Honce.
Qed.
End steps.

Lemma run_call_inv who now id c log es :
  log_of log es → at_most_once id es → unsigned c → room log (call_size c) →
  settles (run_call who now c log) (follows id (careful id es c)) (λ err, err = Config ∧ missing es c).
Proof.
  intros Hlog Honce Hu Hr. destruct c as [ops lane|groups|ops lane tx window|ops lane tx|ops lane tx pre|b u|p s];
    cbn [unsigned call_size run_call] in Hu, Hr |- *; apply settles_bind.
  1-6: apply returns_settles.
  - eapply returns_mono; [by apply record_inv|]. by intros [? ?].
  - eapply returns_mono; [by apply record_many_inv|]. by intros [? ?].
  - eapply returns_mono; [by apply if_no_transaction_inv|]. by intros [? ?].
  - eapply returns_mono; [by apply exactly_once_inv|]. by intros [? ?].
  - eapply returns_mono; [by apply if_unchanged_inv|]. by intros [? ?].
  - eapply returns_mono; [by eapply undone_inv, Hr|]. by intros [? ?].
  - eapply settles_mono; [by eapply coalesce_inv, Hr| |done]. by intros [? ?].
Qed.

(** C18. Take any sequence of the log's operations from an empty log, with room for what they
    append, whose callers are [careful] about one transaction. Then the log can be opened
    and has at most one commit of that transaction, and the next call, careful or not,
    succeeds, unless it coalesces a batch that does not exist, and a careful one continues
    the sequence. Careful is: [record_batch_exactly_once] and its conditional form, called
    for the transaction, only have to carry its marker at most once, wherever an earlier
    commit is in the log; [record_batch_scoped_if_no_transaction], called for the
    transaction, must also find an earlier commit within its window; and a call that does
    not look for the transaction, as [record_batch_scoped], may carry its marker only as
    the first commit of it. The limit of the windowed append is exact: with a marker of the
    transaction it leaves at most one commit if and only if an earlier commit is within its
    window. *)
Theorem commits_at_most_once id log :
  rtc (log_step id) empty_log log →
  open_log log = Ok log ∧
  ∃ es, log_of log es ∧ log_entries_after log 0 = Ok es ∧ (length (commits id (operation <$> es)) ≤ 1)%nat ∧
    (∀ who now c, unsigned c → room log (call_size c) →
       settles (run_call who now c log) (λ log', (∃ es', log_of log' es') ∧ (careful id es c → log_step id log log'))
         (λ err, err = Config ∧ missing es c)) ∧
    (∀ who now ops lane window, room log (zlen ops) → 0 ≤ window → length (commits id ops) = 1%nat →
       returns (run_call who now (CallIfNoTransaction ops lane id window) log) (λ log',
         ∃ es', log_of log' es' ∧ ((length (commits id (operation <$> es')) ≤ 1)%nat ↔ recalled id es window lane))).
Proof.
  intros Hr. assert (∃ es, log_of log es ∧ at_most_once id es) as (es & Hlog & Honce).
  { assert (∃ es, log_of empty_log es ∧ at_most_once id es) as H0 by (exists []; split; [apply empty_log_ok|apply le_0_n]).
    induction Hr as [|log log1 log' [who now c es Hlog Hu Hc Hroom Hrun] Hr IH]; [done|]. apply IH. destruct H0 as (es0 & Hlog0 & Honce).
    pose proof (log_read_all _ _ Hlog) as Hes. rewrite (log_read_all _ _ Hlog0) in Hes. injection Hes as ->.
    pose proof (run_call_inv who now id c log es Hlog0 Honce Hu Hroom) as Hs. rewrite Hrun in Hs.
    destruct Hs as (es' & Hl & Ho). exists es'. split; [done|by apply Ho]. }
  split; [by eapply open_log_ok|]. exists es. split; [done|]. split; [by apply log_read_all|]. split; [done|]. split.
  - intros who now c Hu Hroom. pose proof (run_call_inv who now id c log es Hlog Honce Hu Hroom) as Hs.
    destruct (run_call who now c log) as [log'|e| |] eqn:E; try done. destruct Hs as (es' & Hl & _).
    split; [by exists es'|]. intros Hc. by eapply log_call_step.
  - intros who now ops lane window Hroom Hw Hone. cbn [run_call]. apply returns_bind.
    eapply returns_mono; [by apply (if_no_transaction_exact who now id log es)|]. by intros [? ?].
Qed.
