(* ===== verification/OpSamples.v ===== *)
(** * The operation log at concrete inputs

    A log of two recorded batches, as it is on disk after them, and the theorems about the
    log applied to it. *)

From S2P Require Import Prelude Text OpRecords OpLog OpLogSpec OpIndex OpSegments OpOps.
Import Text OpRecords OpLog OpLogRef.

Module OpSamples.

Definition alice : list Z := ascii_bytes "alice".
Definition main : list Z := ascii_bytes "main".
Definition tx : list Z := ascii_bytes "tx-1".
Definition other_tx : list Z := ascii_bytes "tx-2".
Definition state_1 : list Z := [1].
Definition state_2 : list Z := [2].

Definition first_ops : list OpRecord := [ThreadCreate main state_1 None; TransactionCommit tx 1].
Definition second_ops : list OpRecord := [Snapshot state_2 (Some state_1) None (Some main)].
Definition third_ops : list OpRecord := [ThreadDelete main state_2; TransactionCommit other_tx 1].

Definition sample_entries : list OpEntry :=
  build_entries alice first_ops 1 7 None ++ build_entries alice second_ops 3 8 None.

(** Two segments of level 0 have become one of level 1. *)
Definition sample_log : SegmentedOpLogIndex :=
  {| generation := 2; levels := [1]; entry_count := 3; head_id := 3; base := empty; segments := [container_of sample_entries] |}.

Example sample_recorded :
  ('(_, log) ← record_batch_scoped alice 7 empty_log first_ops None;
   '(_, log) ← record_batch_scoped alice 8 log second_ops None; Ok log) = Ok sample_log.
Proof. vm_compute. reflexivity. Qed.

Lemma sample_log_of : log_of sample_log sample_entries.
Proof.
  exists [], [sample_entries]. split; [|done]. split; try done.
  - by right.
  - repeat constructor; done.
  - repeat constructor.
  - constructor; [by intros ? ?%not_elem_of_nil|]. constructor; [|constructor].
    apply batch_closed_app; by apply built_closed.
Qed.

Lemma sample_room n : n ≤ 10 → room sample_log n.
Proof. intros Hn. unfold room, U32_MAX, USIZE_MAX. cbn. lia. Qed.

Lemma log_query_reference_witness :
  collect_batches_after_scoped sample_log 0 5 (λ _, true) None =
    Ok (collect_batches_from_entries (reverse (after 0 sample_entries)) 5 (λ _, true) None).
Proof. apply (log_query_reference sample_log sample_entries 0 5); [exact sample_log_of|lia|lia]. Defined.

Lemma record_refines_append_witness :
  returns (record_batch_scoped alice 9 sample_log third_ops None) (λ '(ids, log'),
    log_of log' (sample_entries ++ build_entries alice third_ops 4 9 None) ∧ ids = seqZ 4 2 ∧
    log_entries_after log' 3 = Ok (build_entries alice third_ops 4 9 None) ∧
    zlen (segments log') ≤ 32 ∧ open_log log' = Ok log').
Proof. apply (record_refines_append alice 9 sample_log sample_entries third_ops None); [exact sample_log_of|by apply sample_room|done]. Defined.

Lemma exactly_once_commit_witness :
  returns (record_batch_exactly_once alice 9 sample_log third_ops None other_tx) (λ '(r, log'),
    match r with
    | None => log' = sample_log ∧ commits other_tx (operation <$> sample_entries) ≠ []
    | Some ids =>
        ids = seqZ 4 2 ∧ commits other_tx (operation <$> sample_entries) = [] ∧
        log_of log' (sample_entries ++ build_entries alice third_ops 4 9 None) ∧
        committed_batch_records log' other_tx = Ok (List.filter (λ op, negb (is_transaction_commit op)) third_ops) ∧
        ∀ who' now' ops' lane', ops' ≠ [] → record_batch_exactly_once who' now' log' ops' lane' other_tx = Ok (None, log')
    end).
Proof. apply (exactly_once_commit alice 9 sample_log sample_entries third_ops None other_tx); [exact sample_log_of|by apply sample_room|done]. Defined.

(** A caller that saw the head 2 conflicts with the snapshot of [main] that came after. *)
Definition seen_head_2 : IsolationPrecondition := {| since_head_id := 2; keys := [KeyThread main] |}.

Example sample_conflict :
  record_batch_exactly_once_if_unchanged alice 9 sample_log third_ops None other_tx seen_head_2 =
    Ok (IsolationConflict (KeyThread main) 2 3, sample_log).
Proof. vm_compute. reflexivity. Qed.

Lemma conditional_commit_witness :
  returns (record_batch_exactly_once_if_unchanged alice 9 sample_log third_ops None other_tx seen_head_2) (λ '(outcome, log'),
    match outcome with
    | Committed ids =>
        ids = seqZ 4 2 ∧ commits other_tx (operation <$> sample_entries) = [] ∧
        Forall (λ e, conflicts [KeyThread main] e = []) (after 2 sample_entries) ∧
        log_of log' (sample_entries ++ build_entries alice third_ops 4 9 None)
    | AlreadyCommitted records =>
        log' = sample_log ∧ commits other_tx (operation <$> sample_entries) ≠ [] ∧
        committed_batch_records sample_log other_tx = Ok records
    | IsolationConflict k since id =>
        log' = sample_log ∧ since = 2 ∧ commits other_tx (operation <$> sample_entries) = [] ∧
        ∃ older e newer, after since sample_entries = older ++ e :: newer ∧ e_id e = id ∧
          Forall (λ x, conflicts [KeyThread main] x = []) older ∧
          k ∈ [KeyThread main] ∧ k ∈ isolation_keys_for_record (operation e) (scope e)
    end).
Proof.
  apply (conditional_commit alice 9 sample_log sample_entries third_ops None other_tx seen_head_2);
    [exact sample_log_of|by apply sample_room|done|vm_compute; split; discriminate].
Defined.

Definition second_batch : OpBatch := {| b_id := 3; entries := build_entries alice second_ops 3 8 None |}.

Lemma undo_redo_roundtrip_witness :
  returns (update_batch_undone_state sample_log second_batch true) (λ '(b', log'),
    (∀ count scope_, 0 ≤ count → returns (undo_batches_scoped log' count scope_) (λ bs, Forall (λ x, b_id x ≠ 3) bs)) ∧
    returns (update_batch_undone_state log' b' false) (λ '(_, log''), log_of log'' sample_entries)).
Proof.
  apply (undo_redo_roundtrip sample_log sample_entries second_batch);
    [exact sample_log_of|reflexivity|reflexivity|repeat constructor].
Defined.

Lemma coalesce_merges_witness :
  settles (coalesce_batches sample_log 1 3) (λ '(b, log'),
      ∃ es', log_of log' es' ∧ operation <$> es' = operation <$> sample_entries ∧
        b_id b = 1 ∧
        entries b = imap (λ k e, move_entry 1 (Z.of_nat k) e) (List.filter (in_either 1 3) sample_entries) ∧
        of_batch 3 es' = [] ∧ (∀ id, id ≠ 1 → id ≠ 3 → of_batch id es' = of_batch id sample_entries) ∧
        collect_batches_scoped log' 1 (λ x, b_id x =? 1) None = Ok [b])
    (λ err, err = Config ∧ (of_batch 1 sample_entries = [] ∨ of_batch 3 sample_entries = [])).
Proof. apply (coalesce_merges sample_log sample_entries 1 3); [exact sample_log_of|reflexivity|lia]. Defined.

(** The log after the first batch *)
Definition first_log : SegmentedOpLogIndex :=
  {| generation := 1; levels := [0]; entry_count := 2; head_id := 2; base := empty;
     segments := [container_of (build_entries alice first_ops 1 7 None)] |}.

Lemma first_log_of : log_of first_log (build_entries alice first_ops 1 7 None).
Proof.
  exists [], [build_entries alice first_ops 1 7 None]. split; [|done]. split; try done.
  - by right.
  - repeat constructor; done.
  - repeat constructor.
  - constructor; [by intros ? ?%not_elem_of_nil|]. constructor; [by apply built_closed|constructor].
Qed.

(** The first batch commits [tx], the second nothing. *)
Lemma sample_reachable : rtc (log_step tx) empty_log sample_log.
Proof.
  apply (rtc_l _ _ first_log); [|apply rtc_once].
  - apply (log_call_step tx _ _ alice 7 (CallExactlyOnce first_ops None tx) []); [apply empty_log_ok|done| |by vm_compute|vm_compute; reflexivity].
    apply le_n.
  - apply (log_call_step tx _ _ alice 8 (CallRecord second_ops None) _ first_log_of); [done| |by vm_compute|vm_compute; reflexivity].
    apply le_n.
Qed.

Lemma commits_at_most_once_witness :
  open_log sample_log = Ok sample_log ∧
  ∃ es, log_of sample_log es ∧ log_entries_after sample_log 0 = Ok es ∧ (length (commits tx (operation <$> es)) ≤ 1)%nat ∧
    (∀ who now c, unsigned c → room sample_log (call_size c) →
       settles (run_call who now c sample_log) (λ log', (∃ es', log_of log' es') ∧ (careful tx es c → log_step tx sample_log log'))
         (λ err, err = Config ∧ missing es c)) ∧
    (∀ who now ops lane window, room sample_log (zlen ops) → 0 ≤ window → length (commits tx ops) = 1%nat →
       returns (run_call who now (CallIfNoTransaction ops lane tx window) sample_log) (λ log',
         ∃ es', log_of log' es' ∧ ((length (commits tx (operation <$> es')) ≤ 1)%nat ↔ recalled tx es window lane))).
Proof. apply (commits_at_most_once tx sample_log). exact sample_reachable. Defined.

(** How often the log that a run gives commits [tx] *)
Definition times_committed (run : exec LogError SegmentedOpLogIndex) : exec LogError nat :=
  log ← run; es ← log_entries_after log 0; Ok (length (commits tx (operation <$> es))).

(** The two cases that are not careful do commit twice. The commit of [tx] is in the older of
    the two batches: a window of one batch misses it, a window of two does not. *)
Example aged_commit_repeats : times_committed (run_call alice 9 (CallIfNoTransaction first_ops None tx 1) sample_log) = Ok 2%nat.
Proof. vm_compute. reflexivity. Qed.
Example recent_commit_found : times_committed (run_call alice 9 (CallIfNoTransaction first_ops None tx 2) sample_log) = Ok 1%nat.
Proof. vm_compute. reflexivity. Qed.
(** A plain batch carries the marker again, where a call for the transaction does not. *)
Example plain_commit_repeats : times_committed (run_call alice 9 (CallRecord first_ops None) sample_log) = Ok 2%nat.
Proof. vm_compute. reflexivity. Qed.
Example exactly_once_found : times_committed (run_call alice 9 (CallExactlyOnce first_ops None tx) sample_log) = Ok 1%nat.
Proof. vm_compute. reflexivity. Qed.

End OpSamples.
