(* ===== verification/RefFold.v ===== *)
(** * Folding the operation log into refs

    [crates/repo/src/atomic/reconciler.rs] and the types of [crates/refs/src/refs/reconcile.rs]:
    what the committed records of a window of the log say of HEAD, of every thread,
    marker and remote thread, and of the undo pointer, and the materialization of that
    for a class of refs. *)

From S2P Require Import Prelude Text RefNames RefText RefDisk RefStore OpRecords OpLog.
Import Text RefText RefStore OpRecords.

Module RefFold.

Inductive RefClass := Local | Shared.

#[global] Instance ref_class_eq_dec : EqDecision RefClass.
Proof. solve_decision. Defined.

Definition ref_class (req : LoadRequest) : RefClass :=
  match req with LHead | LUndoRecovery => Local | _ => Shared end.

Record ReconcileOutcome := {
  loaded : Loaded;
  republish : list RefUpdate;
  remote_updates : list (list Z * list Z * option (list Z));
  undo_recovery : option (list Z);
}.

Inductive HeadFold := Untouched | Republish (head : Head) | Canonical.

(** A value of the maps is the target of a ref; [None] is its deletion. *)
Record Fold := {
  f_head : HeadFold;
  f_threads : gmap (list Z) (option (list Z));
  f_markers : gmap (list Z) (option (list Z));
  f_remotes : gmap (list Z * list Z) (option (list Z));
  f_undo : option (list Z);
}.

Definition empty_fold : Fold := {| f_head := Untouched; f_threads := ∅; f_markers := ∅; f_remotes := ∅; f_undo := None |}.

Definition set_head (h : HeadFold) (f : Fold) : Fold :=
  {| f_head := h; f_threads := f_threads f; f_markers := f_markers f; f_remotes := f_remotes f; f_undo := f_undo f |}.
Definition put_thread (name : list Z) (v : option (list Z)) (f : Fold) : Fold :=
  {| f_head := f_head f; f_threads := <[name := v]> (f_threads f); f_markers := f_markers f; f_remotes := f_remotes f; f_undo := f_undo f |}.
Definition put_marker (name : list Z) (v : option (list Z)) (f : Fold) : Fold :=
  {| f_head := f_head f; f_threads := f_threads f; f_markers := <[name := v]> (f_markers f); f_remotes := f_remotes f; f_undo := f_undo f |}.
Definition put_remote (remote name : list Z) (v : option (list Z)) (f : Fold) : Fold :=
  {| f_head := f_head f; f_threads := f_threads f; f_markers := f_markers f; f_remotes := <[(remote, name) := v]> (f_remotes f); f_undo := f_undo f |}.
Definition put_undo (state : list Z) (f : Fold) : Fold :=
  {| f_head := f_head f; f_threads := f_threads f; f_markers := f_markers f; f_remotes := f_remotes f; f_undo := Some state |}.

(** [Fold::apply] *)
Definition fold_apply (f : Fold) (op : OpRecord) : Fold :=
  match op with
  | Snapshot new_state _ head thread =>
      match thread with
      | Some name => set_head (Republish (Attached name)) (put_thread name (Some new_state) f)
      | None => match head with Some head => set_head (Republish (Detached head)) f | None => f end
      end
  | ThreadCreate name state _ | ThreadUpdate name _ state _ => put_thread name (Some state) f
  | ThreadDelete name _ => put_thread name None f
  | Fork _ new_state thread head =>
      let f := match thread with
               | Some name => set_head (Republish (Attached name)) (put_thread name (Some new_state) f)
               | None => f
               end in
      match head with Some head => set_head (Republish (Detached head)) f | None => f end
  | Collapse _ result thread _ =>
      match thread with
      | Some name => put_thread name (Some result) f
      | None => set_head (Republish (Detached result)) f
      end
  | MarkerCreate name state => put_marker name (Some state) f
  | MarkerDelete name _ => put_marker name None f
  | Checkpoint _ state thread =>
      match thread with Some name => put_thread name (Some state) f | None => set_head Canonical f end
  | FastForward _ target_thread _ post_target_id => set_head Canonical (put_thread target_thread (Some post_target_id) f)
  | EphemeralThreadCollapse thread _ => put_thread thread None f
  | RemoteThreadUpdate remote thread state => put_remote remote thread (Some state) f
  | RemoteThreadDelete remote thread _ => put_remote remote thread None f
  | UndoRecoveryUpdate state => put_undo state f
  | Goto _ _ head => set_head (Republish (Detached head)) f
  | HeadUpdate _ new =>
      set_head (Republish (match new with RecordedAttached thread => Attached thread | RecordedDetached state => Detached state end)) f
  | TransactionAbort _ _ | TransactionCommit _ _ | ConflictResolved _ _ _ _ | Redact _ _ _ _ | Purge _ _
  | StateVisibilitySet _ _ _ _ _ | StateVisibilityPromote _ _ _ _ _ _ | EntryVisibilitySet _ _ _ _
  | GitCheckpoint _ _ _ _ => f
  end.

Definition compare_id (x y : OpEntry) : comparison := e_id x ?= e_id y.

(** The committed entries that [fold_batches] replays *)
Definition replayed (batches : list OpBatch) (since : Z) : list OpEntry :=
  sort_by compare_id (List.filter (λ e, negb (undone e) && (since <? e_id e)) (concat (entries <$> batches))).
Definition fold_batches (batches : list OpBatch) (since : Z) : Fold :=
  fold_left (λ f e, fold_apply f (operation e)) (replayed batches since) empty_fold.

(** The rows of a [BTreeMap], in the order of its keys *)
Definition rows {V} (m : gmap (list Z) V) : list (list Z * V) := sort_by (λ x y, compare_bytes x.1 y.1) (map_to_list m).
Definition compare_pair (x y : list Z * list Z) : comparison :=
  match compare_bytes x.1 y.1 with Eq => compare_bytes x.2 y.2 | c => c end.
Definition pair_rows {V} (m : gmap (list Z * list Z) V) : list (list Z * list Z * V) :=
  sort_by (λ x y, compare_pair x.1 y.1) (map_to_list m).

Definition class_materialization (class : RefClass) (f : Fold)
    : list RefUpdate * list (list Z * list Z * option (list Z)) * option (list Z) :=
  match class with
  | Shared =>
      (((λ x, UThread x.1 Any x.2) <$> rows (f_threads f)) ++ ((λ x, UMarker x.1 Any x.2) <$> rows (f_markers f)),
       pair_rows (f_remotes f), None)
  | Local =>
      (match f_head f with
       | Republish head =>
           UHead Any head ::
             match head with
             | Attached thread => match f_threads f !! thread with Some value => [UThread thread Any value] | None => [] end
             | Detached _ => []
             end
       | _ => []
       end, [], f_undo f)
  end.

(** [fill_point] *)
Definition fill_point (raw : Loaded) (folded : option (option (list Z))) : Loaded :=
  match folded with Some value => OPoint value | None => raw end.

(** The keys of a [BTreeMap<String, ()>] *)
Definition keys_of (s : gset (list Z)) : list (list Z) := sort_by compare_bytes (elements s).
Definition change_name (s : gset (list Z)) (x : list Z * option (list Z)) : gset (list Z) :=
  match x.2 with Some _ => {[x.1]} ∪ s | None => s ∖ {[x.1]} end.
Definition merge_list (base : list (list Z)) (changes : gmap (list Z) (option (list Z))) : list (list Z) :=
  keys_of (fold_left change_name (rows changes) (list_to_set base)).

Definition raw_thread_names (raw : Loaded) : list (list Z) := match raw with OThreadList names => names | _ => [] end.
Definition raw_marker_names (raw : Loaded) : list (list Z) := match raw with OMarkerList names => names | _ => [] end.

(** The changes that a fold makes to the threads of one remote *)
Definition change_remote (remote : list Z) (s : gset (list Z)) (x : list Z * list Z * option (list Z)) : gset (list Z) :=
  if bool_decide (x.1.1 = remote) then change_name s (x.1.2, x.2) else s.
Definition merge_remote (remote : list Z) (base : list (list Z)) (changes : gmap (list Z * list Z) (option (list Z)))
    : gset (list Z) :=
  fold_left (change_remote remote) (pair_rows changes) (list_to_set base).
End RefFold.
