(* ===== verification/RefReconcile.v ===== *)
(** * Logical reads and writes of refs

    The chokepoints of [crates/refs/src/refs/refs_manager.rs]: a logical read or write
    first folds the committed records above the watermark of a class into the files of
    the refs; the watermarks and their files; the commit of records before the publish;
    and [reconcile] of [crates/repo/src/atomic/reconciler.rs]. The lock of the refs is held by one
    process at a time: an operation is one step. *)

From S2P Require Import Prelude Text RefNames RefText RefDisk RefSummary RefStore OpRecords OpLog RefFold.
Import Text RefText RefDisk RefSummary RefStore.
Import OpRecords(OpRecord, OpEntry).
Import RefFold(RefClass, ReconcileOutcome, HeadFold, Fold).

Module RefReconcile.

Definition WATERMARK_UNSET : Z := U64_MAX.
Definition watermark_covers (cached tip : Z) : bool := negb (cached =? WATERMARK_UNSET) && (tip <=? cached).

(** ** Numbers in text *)

(** [u64]'s [Display] and [FromStr] *)
Fixpoint decimal_digits (fuel : nat) (v : Z) (acc : list Z) : list Z :=
  match fuel with
  | O => acc
  | S fuel => if v <? 10 then 48 + v :: acc else decimal_digits fuel (v / 10) (48 + v `mod` 10 :: acc)
  end.
Definition to_decimal (v : Z) : list Z := decimal_digits 20 v [].

Fixpoint digits_value (v : Z) (s : list Z) : option Z :=
  match s with
  | [] => Some v
  | d :: s =>
      if (48 <=? d) && (d <=? 57) then
        let v := v * 10 + (d - 48) in
        if v <=? U64_MAX then digits_value v s else None
      else None
  end.
Definition parse_u64 (s : list Z) : option Z :=
  let digits := match s with 43 :: rest => rest | _ => s end in
  if bool_decide (digits = []) then None else digits_value 0 digits.

(** [contents.split_whitespace().next()] *)
Fixpoint take_word (s : list Z) : list Z :=
  match s with
  | [] => []
  | b :: rest => match strip_any white_space s with Some _ => [] | None => b :: take_word rest end
  end.
Definition first_word (s : list Z) : option (list Z) :=
  let s := trim_loop (length s) white_space s in
  if bool_decide (s = []) then None else Some (take_word s).

(** ** Errors of the log *)

Definition log_io {A} (m : exec OpLog.LogError A) : io A :=
  match m with
  | Ok a => mret a
  | Err OpLog.InvalidObject => io_fail InvalidObject
  | Err OpLog.Config => io_fail Config
  | Panic => io_panic
  | Fuel => λ d, (Fuel, d)
  end.

Section reconcile.
Context `{Base32} `{RefSyntax}.
Context (checkout : Z) (op_scope : list Z).

(** ** [OplogRefReconciler] *)

Definition remote_list_value (raw : Loaded) (f : Fold) : io Loaded :=
  let base := match raw with ORemoteList names => names | _ => [] end in
  let remotes := RefFold.keys_of (list_to_set (base ++ ((λ x, x.1.1) <$> RefFold.pair_rows (RefFold.f_remotes f)))) in
  present ← io_map (λ remote,
    threads ← raw_list_remote_threads remote;
    mret (if bool_decide (RefFold.merge_remote remote threads (RefFold.f_remotes f) = ∅) then None else Some remote)) remotes;
  mret (ORemoteList (omap Datatypes.id present)).

Definition reconciled_value (req : LoadRequest) (raw : Loaded) (f : Fold) : io Loaded :=
  match req with
  | LHead => mret (match RefFold.f_head f with RefFold.Republish head => OHead head | _ => raw end)
  | LUndoRecovery => mret (RefFold.fill_point raw (Some <$> RefFold.f_undo f))
  | LThread name => mret (RefFold.fill_point raw (RefFold.f_threads f !! name))
  | LMarker name => mret (RefFold.fill_point raw (RefFold.f_markers f !! name))
  | LRemoteThread remote thread => mret (RefFold.fill_point raw (RefFold.f_remotes f !! (remote, thread)))
  | LThreadList => mret (OThreadList (RefFold.merge_list (RefFold.raw_thread_names raw) (RefFold.f_threads f)))
  | LMarkerList => mret (OMarkerList (RefFold.merge_list (RefFold.raw_marker_names raw) (RefFold.f_markers f)))
  | LRemoteList => remote_list_value raw f
  | LRemoteThreadList remote =>
      let base := match raw with ORemoteThreadList names => names | _ => [] end in
      mret (ORemoteThreadList (RefFold.keys_of (RefFold.merge_remote remote base (RefFold.f_remotes f))))
  end.

Definition generation (log : OpLog.SegmentedOpLogIndex) : Z := OpLog.head_id log.

Definition class_scope (class : RefClass) : option (list Z) :=
  match class with RefFold.Local => Some op_scope | RefFold.Shared => None end.

Definition reconcile (log : OpLog.SegmentedOpLogIndex) (req : LoadRequest) (raw : Loaded) (since : Z) : io ReconcileOutcome :=
  let class := RefFold.ref_class req in
  batches ← log_io (OpLog.recent_batches_after_scoped log since USIZE_MAX (class_scope class));
  let f := RefFold.fold_batches batches since in
  let '(republish, remotes, undo) := RefFold.class_materialization class f in
  value ← reconciled_value req raw f;
  mret {| RefFold.loaded := value; RefFold.republish := republish; RefFold.remote_updates := remotes;
          RefFold.undo_recovery := undo |}.

(** ** Materialization *)

Definition materialize_remote (x : list Z * list Z * option (list Z)) : io unit :=
  let '(remote, thread, value) := x in
  current ← raw_get_remote_thread remote thread;
  if bool_decide (current = value) then mret tt
  else match value with
       | Some state => set_remote_thread_locked remote thread state
       | None => delete_remote_thread_locked remote thread ;; mret tt
       end.

Definition materialize_with_ref_durability (outcome : ReconcileOutcome) (durable_refs : bool) : io unit :=
  plans ← plan_materialization checkout (RefFold.republish outcome);
  (match plans with
   | [] => mret tt
   | _ => if durable_refs then publish_ref_plans plans else publish_ref_plans_reconstructible plans
   end) ;;
  io_each materialize_remote (RefFold.remote_updates outcome) ;;
  match RefFold.undo_recovery outcome with
  | Some state =>
      current ← read_state_id_at (PUndo checkout);
      if bool_decide (current = Some state) then mret tt else set_undo_recovery_locked checkout state
  | None => mret tt
  end.
Definition materialize (outcome : ReconcileOutcome) : io unit := materialize_with_ref_durability outcome true.

(** ** Watermark files *)

Definition read_single_watermark (p : rpath) : io (option Z) :=
  contents ← read_optional_string p;
  mret (contents ← contents; word ← first_word contents; parse_u64 word).

Definition persist_watermark_file (p : rpath) (value : Z) : io unit :=
  if value =? WATERMARK_UNSET then mret tt
  else
    on_disk ← read_single_watermark p;
    write_string p (to_decimal (Z.max value (default 0 on_disk)) ++ [10]).

Definition watermark_path (class : RefClass) : rpath :=
  match class with RefFold.Local => PWatermarkLocal checkout | RefFold.Shared => PWatermarkShared end.

(** ** Snapshot witnesses *)

Definition ATTACHED : list Z := ascii_bytes "attached".
Definition DETACHED : list Z := ascii_bytes "detached".
Definition THREAD : list Z := ascii_bytes "thread".

(** The lines of a witness after its tip, if that is [tip] *)
Definition witness_lines (contents : option (list Z)) (tip : Z) : option (list (list Z)) :=
  contents ← contents;
  match text_lines contents with
  | first :: rest => v ← parse_u64 first; if v =? tip then Some rest else None
  | [] => None
  end.

Definition snapshot_witnessed_load (req : LoadRequest) (tip : Z) : io (option Loaded) :=
  match req with
  | LHead =>
      contents ← read_optional_string (PWitnessLocal checkout);
      let witnessed :=
        rest ← witness_lines contents tip;
        match rest with
        | kind :: value :: _ =>
            if bool_decide (kind = ATTACHED) then Some (Attached value)
            else if bool_decide (kind = DETACHED) then Detached <$> state_id_parse value
            else None
        | _ => None
        end in
      match witnessed with
      | None => mret None
      | Some witnessed =>
          state ← read_head_state checkout;
          mret (if bool_decide (hs_head state = witnessed) then Some (OHead (hs_head state)) else None)
      end
  | LThread requested =>
      contents ← read_optional_string PWitnessShared;
      let witnessed :=
        rest ← witness_lines contents tip;
        match rest with
        | kind :: thread :: value :: _ =>
            if bool_decide (kind = THREAD) then state ← state_id_parse value; Some (thread, state) else None
        | _ => None
        end in
      match witnessed with
      | None => mret None
      | Some (thread, state) =>
          if bool_decide (thread = requested) then
            raw ← raw_get_thread requested;
            mret (if bool_decide (raw = Some state) then Some (OPoint raw) else None)
          else mret None
      end
  | _ => mret None
  end.

(** [std::fs::write] whose error is dropped *)
Definition write_witness (p : rpath) (contents : list Z) : io unit := io_ignore (effect (put_file p contents)).

(** ** The manager *)

(** The files of the refs, the operation log and the watermarks in memory *)
Record Env := { disk : Disk; oplog : OpLog.SegmentedOpLogIndex; cached_local : Z; cached_shared : Z }.

Definition set_disk (d : Disk) (e : Env) : Env :=
  {| disk := d; oplog := oplog e; cached_local := cached_local e; cached_shared := cached_shared e |}.
Definition set_oplog (log : OpLog.SegmentedOpLogIndex) (e : Env) : Env :=
  {| disk := disk e; oplog := log; cached_local := cached_local e; cached_shared := cached_shared e |}.
Definition class_watermark (class : RefClass) (e : Env) : Z :=
  match class with RefFold.Local => cached_local e | RefFold.Shared => cached_shared e end.
Definition set_watermark (class : RefClass) (v : Z) (e : Env) : Env :=
  match class with
  | RefFold.Local => {| disk := disk e; oplog := oplog e; cached_local := v; cached_shared := cached_shared e |}
  | RefFold.Shared => {| disk := disk e; oplog := oplog e; cached_local := cached_local e; cached_shared := v |}
  end.

Definition rio (A : Type) : Type := Env → exec RefError A * Env.
#[global] Instance rio_ret : MRet rio := λ A a e, (Ok a, e).
#[global] Instance rio_bind : MBind rio := λ A B f m e,
  match m e with
  | (Ok a, e) => f a e
  | (Err x, e) => (Err x, e)
  | (Panic, e) => (Panic, e)
  | (Fuel, e) => (Fuel, e)
  end.

Definition on_disk {A} (m : io A) : rio A := λ e, let '(r, d) := m (disk e) in (r, set_disk d e).
Definition get_env : rio Env := λ e, (Ok e, e).
Definition store_watermark (class : RefClass) (v : Z) : rio unit := λ e, (Ok tt, set_watermark class v e).
Definition rio_ignore {A} (m : rio A) : rio unit := λ e,
  match m e with (Panic, e) => (Panic, e) | (Fuel, e) => (Fuel, e) | (_, e) => (Ok tt, e) end.
Definition rio_fail {A} (x : RefError) : rio A := λ e, (Err x, e).

Definition rio_panic {A} : rio A := λ e, (Panic, e).

Definition persist_reconcile_watermark : rio unit :=
  e ← get_env;
  on_disk (persist_watermark_file (watermark_path RefFold.Local) (cached_local e)) ;;
  on_disk (persist_watermark_file (watermark_path RefFold.Shared) (cached_shared e)).

Definition refresh_persisted_watermark (class : RefClass) : rio unit :=
  persisted ← on_disk (read_single_watermark (watermark_path class));
  match persisted with
  | None => mret tt
  | Some persisted =>
      e ← get_env;
      let cached := class_watermark class e in
      store_watermark class (if cached =? WATERMARK_UNSET then persisted else Z.max cached persisted)
  end.

Definition class_probe (class : RefClass) : LoadRequest :=
  match class with RefFold.Local => LHead | RefFold.Shared => LMarkerList end.
Definition since_of (cached : Z) : Z := if cached =? WATERMARK_UNSET then 0 else cached.

(** The lag branch shared by [materialize_class] and [reconciled_load]: fold, materialize,
    advance and persist the watermark *)
Definition catch_up (req : LoadRequest) (raw : Loaded) (cached tip : Z) : rio Loaded :=
  e ← get_env;
  outcome ← on_disk (reconcile (oplog e) req raw (since_of cached));
  on_disk (materialize outcome) ;;
  store_watermark (RefFold.ref_class req) tip ;;
  rio_ignore persist_reconcile_watermark ;;
  mret (RefFold.loaded outcome).

Definition materialize_class (class : RefClass) : rio unit :=
  e ← get_env;
  let tip := generation (oplog e) in
  if watermark_covers (class_watermark class e) tip then mret tt
  else
    refresh_persisted_watermark class ;;
    e ← get_env;
    let cached := class_watermark class e in
    if watermark_covers cached tip then mret tt
    else
      raw ← on_disk (raw_load checkout (class_probe class));
      catch_up (class_probe class) raw cached tip ;;
      mret tt.

Definition materialize_committed_tail : rio unit := materialize_class RefFold.Local ;; materialize_class RefFold.Shared.

Definition write_chokepoint {A} (body : rio A) : rio A := materialize_committed_tail ;; body.

(** The read chokepoint *)
Definition reconciled_load (req : LoadRequest) : rio Loaded :=
  let class := RefFold.ref_class req in
  e ← get_env;
  let tip := generation (oplog e) in
  if watermark_covers (class_watermark class e) tip then on_disk (raw_load checkout req)
  else
    witnessed ← on_disk (snapshot_witnessed_load req tip);
    match witnessed with
    | Some value => mret value
    | None =>
        refresh_persisted_watermark class ;;
        e ← get_env;
        let cached := class_watermark class e in
        raw ← on_disk (raw_load checkout req);
        if watermark_covers cached tip then mret raw else catch_up req raw cached tip
    end.

(** The value that a write validates against *)
Definition reconciled_value_under_lock (e : Env) (req : LoadRequest) : io Loaded :=
  raw ← raw_load checkout req;
  let cached := class_watermark (RefFold.ref_class req) e in
  if watermark_covers cached (generation (oplog e)) then mret raw
  else
    outcome ← reconcile (oplog e) req raw (since_of cached);
    mret (RefFold.loaded outcome).

(** [init_reconcile_watermark] of a manager on the files and the log of [e], after
    [with_reconciler] *)
Definition open_manager (d : Disk) (log : OpLog.SegmentedOpLogIndex) : Env :=
  {| disk := d; oplog := log; cached_local := generation log; cached_shared := generation log |}.
Definition init_reconcile_watermark : rio unit :=
  local ← on_disk (read_single_watermark (watermark_path RefFold.Local));
  shared ← on_disk (read_single_watermark (watermark_path RefFold.Shared));
  (match local with Some local => store_watermark RefFold.Local local | None => mret tt end) ;;
  (match shared with Some shared => store_watermark RefFold.Shared shared | None => mret tt end) ;;
  match local, shared with
  | Some _, Some _ => mret tt
  | _, _ => persist_reconcile_watermark
  end.

(** ** Writers *)

Definition update_refs (updates : list RefUpdate) : rio unit :=
  match updates with
  | [] => mret tt
  | _ => write_chokepoint (e ← get_env; on_disk (update_refs_with_lock (reconciled_value_under_lock e) checkout updates))
  end.

Definition set_undo_recovery (state : list Z) : rio unit := write_chokepoint (on_disk (set_undo_recovery_locked checkout state)).
Definition clear_undo_recovery : rio unit := write_chokepoint (on_disk (clear_undo_recovery_locked checkout)).
Definition set_remote_thread (remote thread state : list Z) : rio unit :=
  write_chokepoint (on_disk (set_remote_thread_locked remote thread state)).
Definition delete_remote_thread (remote thread : list Z) : rio (option (list Z)) :=
  write_chokepoint (on_disk (delete_remote_thread_locked remote thread)).

(** [OplogRefCommitter::commit_records]: the append of one batch, which like every other
    operation on the files can fail before or after its effect *)
Definition commit_records (who : list Z) (now : Z) (records : list OpRecord) (scope : option (list Z)) : rio unit := λ e,
  if bool_decide (records = []) then (Ok tt, e)
  else
    let append e :=
      match OpLog.record_batch_scoped who now (oplog e) records scope with
      | Ok (_, log) => (Ok tt, set_oplog log e)
      | Err OpLog.InvalidObject => (Err InvalidObject, e)
      | Err OpLog.Config => (Err Config, e)
      | Panic => (Panic, e)
      | Fuel => (Fuel, e)
      end in
    match schedule (disk e) with
    | [] => append e
    | Fine :: s => append (set_disk (set_schedule s (disk e)) e)
    | Before :: s => (Err Io, set_disk (set_schedule s (disk e)) e)
    | After :: s =>
        match append (set_disk (set_schedule s (disk e)) e) with
        | (Ok _, e) => (Err Io, e)
        | r => r
        end
    end.

Definition rio_try {A} (m : rio A) : rio (A + RefError) := λ e,
  match m e with
  | (Ok a, e) => (Ok (inl a), e)
  | (Err x, e) => (Ok (inr x), e)
  | (Panic, e) => (Panic, e)
  | (Fuel, e) => (Fuel, e)
  end.

(** [validate_commit_publish]: [commit] answers whether a record was committed. *)
Definition validate_commit_publish (updates : list RefUpdate) (commit : rio bool) : rio unit :=
  e ← get_env;
  plans ← on_disk (plan_ref_updates (reconciled_value_under_lock e) checkout updates);
  committed ← commit;
  r ← rio_try (on_disk (publish_ref_plans plans));
  match r with
  | inl _ => mret tt
  | inr err => if committed : bool then mret tt else rio_fail err
  end.

Definition commit_and_publish (committer : option (list Z * Z)) (records : list OpRecord) (updates : list RefUpdate)
    (scope : option (list Z)) : rio unit :=
  write_chokepoint (validate_commit_publish updates (
    match committer with
    | Some (who, now) => commit_records who now records scope ;; mret (negb (bool_decide (records = [])))
    | None => if bool_decide (records = []) then mret false else rio_fail Config
    end)).

Definition materialize_snapshot_thread_after_commit (thread state : list Z) (tip : Z) : rio unit :=
  on_disk (materialize_with_ref_durability
    {| RefFold.loaded := OPoint (Some state); RefFold.republish := [UThread thread Any (Some state)];
       RefFold.remote_updates := []; RefFold.undo_recovery := None |} false) ;;
  store_watermark RefFold.Shared tip ;;
  store_watermark RefFold.Local tip ;;
  on_disk (write_witness (PWitnessLocal checkout) (to_decimal tip ++ [10] ++ ATTACHED ++ [10] ++ thread ++ [10])) ;;
  on_disk (write_witness PWitnessShared
    (to_decimal tip ++ [10] ++ THREAD ++ [10] ++ thread ++ [10] ++ to_string_full state ++ [10])).

Definition materialize_snapshot_head_after_commit (state : list Z) (tip : Z) : rio unit :=
  on_disk (materialize_with_ref_durability
    {| RefFold.loaded := OHead (Detached state); RefFold.republish := [UHead Any (Detached state)];
       RefFold.remote_updates := []; RefFold.undo_recovery := None |} false) ;;
  store_watermark RefFold.Local tip ;;
  store_watermark RefFold.Shared tip ;;
  on_disk (write_witness (PWitnessLocal checkout) (to_decimal tip ++ [10] ++ DETACHED ++ [10] ++ to_string_full state ++ [10])).

(** ** The interface of the manager *)

Definition read_head : rio Head :=
  value ← reconciled_load LHead;
  match value with OHead head => mret head | _ => rio_panic end.
Definition reconciled_point (req : LoadRequest) : rio (option (list Z)) :=
  value ← reconciled_load req;
  match value with OPoint id => mret id | _ => rio_panic end.
Definition get_thread (name : list Z) : rio (option (list Z)) := reconciled_point (LThread name).
Definition get_marker (name : list Z) : rio (option (list Z)) := reconciled_point (LMarker name).
Definition get_undo_recovery : rio (option (list Z)) := reconciled_point LUndoRecovery.
Definition get_remote_thread (remote thread : list Z) : rio (option (list Z)) := reconciled_point (LRemoteThread remote thread).
Definition list_threads : rio (list (list Z)) :=
  value ← reconciled_load LThreadList;
  match value with OThreadList names => mret names | _ => rio_panic end.
Definition list_markers : rio (list (list Z)) :=
  value ← reconciled_load LMarkerList;
  match value with OMarkerList names => mret names | _ => rio_panic end.
Definition list_remotes : rio (list (list Z)) :=
  value ← reconciled_load LRemoteList;
  match value with ORemoteList names => mret names | _ => rio_panic end.
Definition list_remote_threads (remote : list Z) : rio (list (list Z)) :=
  value ← reconciled_load (LRemoteThreadList remote);
  match value with ORemoteThreadList names => mret names | _ => rio_panic end.

Definition write_head_cas (expected : RefExpectation Head) (head : Head) : rio unit := update_refs [UHead expected head].
Definition write_head (head : Head) : rio unit := write_head_cas Any head.
Definition set_thread_cas (name : list Z) (expected : RefExpectation (list Z)) (state : list Z) : rio unit :=
  update_refs [UThread name expected (Some state)].
Definition set_thread (name state : list Z) : rio unit := set_thread_cas name Any state.
Definition delete_thread_cas (name : list Z) (expected : RefExpectation (list Z)) : rio unit :=
  update_refs [UThread name expected None].
Definition delete_thread (name : list Z) : rio (option (list Z)) :=
  state ← get_thread name;
  (match state with Some _ => update_refs [UThread name Any None] | None => mret tt end) ;;
  mret state.
Definition set_marker_cas (name : list Z) (expected : RefExpectation (list Z)) (state : list Z) : rio unit :=
  update_refs [UMarker name expected (Some state)].
Definition create_marker (name state : list Z) : rio unit := set_marker_cas name Missing state.
Definition delete_marker_cas (name : list Z) (expected : RefExpectation (list Z)) : rio unit :=
  update_refs [UMarker name expected None].
Definition delete_marker (name : list Z) : rio (option (list Z)) :=
  state ← get_marker name;
  (match state with Some _ => delete_marker_cas name Any | None => mret tt end) ;;
  mret state.

Definition UNDO_RECOVERY_HANDLE : list Z := ascii_bytes ".undo-recovery".

(** [resolve] by [resolve_refspec] *)
Definition resolve (refspec : list Z) : rio (option (list Z)) :=
  if bool_decide (refspec = ascii_bytes "@") || bool_decide (refspec = ascii_bytes "HEAD") then
    head ← read_head;
    match head with Attached thread => get_thread thread | Detached state => mret (Some state) end
  else if bool_decide (refspec = UNDO_RECOVERY_HANDLE) then get_undo_recovery
  else
    id ← get_thread refspec;
    match id with
    | Some id => mret (Some id)
    | None =>
        id ← get_marker refspec;
        match id with
        | Some id => mret (Some id)
        | None => mret (state_id_parse refspec)
        end
    end.
End reconcile.
End RefReconcile.
