(* ===== verification/RefFoldSpec.v ===== *)
(** * What a window of the log says

    The change that each record makes, the committed entries of a window of the log in
    a lane, and the fold of [RefFold] as the newest change of every ref. *)

From S2P Require Import Prelude Text RefNames RefText RefDisk RefStore OpRecords OpLog OpLogSpec OpIndex OpSegments RefFold.
Import Text RefText RefStore OpRecords OpLog RefFold.

(** ** The change of a record *)

Definition op_change (op : OpRecord) : option (ref_key * option (list Z)) :=
  match op with
  | Snapshot new_state _ _ (Some name) => Some (KThread name, Some new_state)
  | ThreadCreate name state _ | ThreadUpdate name _ state _ | Checkpoint _ state (Some name) => Some (KThread name, Some state)
  | Fork _ new_state (Some name) _ => Some (KThread name, Some new_state)
  | Collapse _ result (Some name) _ => Some (KThread name, Some result)
  | FastForward _ name _ state => Some (KThread name, Some state)
  | ThreadDelete name _ | EphemeralThreadCollapse name _ => Some (KThread name, None)
  | MarkerCreate name state => Some (KMarker name, Some state)
  | MarkerDelete name _ => Some (KMarker name, None)
  | RemoteThreadUpdate remote thread state => Some (KRemote remote thread, Some state)
  | RemoteThreadDelete remote thread _ => Some (KRemote remote thread, None)
  | _ => None
  end.

(** What a record says of HEAD: [None] when it does not move it *)
Definition op_head (op : OpRecord) : option HeadFold :=
  match op with
  | Snapshot _ _ _ (Some name) => Some (Republish (Attached name))
  | Snapshot _ _ (Some head) None => Some (Republish (Detached head))
  | Fork _ _ _ (Some head) => Some (Republish (Detached head))
  | Fork _ _ (Some name) None => Some (Republish (Attached name))
  | Collapse _ result None _ => Some (Republish (Detached result))
  | Goto _ _ head => Some (Republish (Detached head))
  | HeadUpdate _ (RecordedAttached thread) => Some (Republish (Attached thread))
  | HeadUpdate _ (RecordedDetached state) => Some (Republish (Detached state))
  | Checkpoint _ _ None | FastForward _ _ _ _ => Some Canonical
  | _ => None
  end.

Definition op_undo (op : OpRecord) : option (list Z) := match op with UndoRecoveryUpdate state => Some state | _ => None end.

Definition change_on (k : ref_key) (op : OpRecord) : option (option (list Z)) :=
  match op_change op with Some (k', v) => if decide (k' = k) then Some v else None | None => None end.

(** The newest change of a ref *)
Definition last_change (ops : list OpRecord) (k : ref_key) : option (option (list Z)) := last (omap (change_on k) ops).

Definition fold_value (f : Fold) (k : ref_key) : option (option (list Z)) :=
  match k with KThread n => f_threads f !! n | KMarker n => f_markers f !! n | KRemote r n => f_remotes f !! (r, n) end.

Definition fold_ops (ops : list OpRecord) : Fold := fold_left fold_apply ops empty_fold.

Lemma put_value f k k' v :
  fold_value (match k with KThread n => put_thread n v f | KMarker n => put_marker n v f | KRemote r n => put_remote r n v f end) k' =
    if decide (k = k') then Some v else fold_value f k'.
Proof.
  destruct (decide (k = k')) as [<-|Hne]; [destruct k; apply lookup_insert_eq|].
  destruct k, k'; cbn; try done; apply lookup_insert_ne; congruence.
Qed.

(** A record changes one ref at most, and says one thing of HEAD and of the undo pointer. *)
Lemma fold_apply_spec f op k :
  fold_value (fold_apply f op) k = (match change_on k op with Some v => Some v | None => fold_value f k end) ∧
  f_head (fold_apply f op) = default (f_head f) (op_head op) ∧
  f_undo (fold_apply f op) = match op_undo op with Some s => Some s | None => f_undo f end.
Proof.
  unfold change_on. destruct op; cbn [fold_apply op_change op_head op_undo].
  all: repeat match goal with |- context [match ?x with Some _ => _ | None => _ end] => is_var x; destruct x; cbn [op_change op_head] end.
  all: try (match goal with |- context [RecordedAttached] => idtac end; match goal with h : RecordedHead |- _ => destruct h end).
  all: split_and!; try done.
  all: try (by destruct new).
  all: match goal with
    | |- fold_value _ ?k = match (if decide (?k0 = ?k) then _ else _) with _ => _ end =>
        destruct (decide (k0 = k)) as [<-|Hne]; [apply lookup_insert_eq|]; destruct k; cbn; try done;
        apply lookup_insert_ne; congruence
    end.
Qed.

(** Folding keeps the newest change of every ref, the newest word on HEAD and the newest
    undo pointer. *)
Lemma fold_ops_spec ops :
  (∀ k, fold_value (fold_ops ops) k = last_change ops k) ∧
  f_head (fold_ops ops) = default Untouched (last (omap op_head ops)) ∧
  f_undo (fold_ops ops) = last (omap op_undo ops).
Proof.
  unfold fold_ops, last_change. induction ops as [|op ops (IHk & IHh & IHu)] using rev_ind; [by split; [intros []|split]|].
  rewrite fold_left_app. cbn [fold_left]. set (f := fold_left fold_apply ops empty_fold) in *.
  split; [intros k|split; rewrite omap_app; cbn [omap list_omap]].
  - rewrite omap_app. cbn [omap list_omap]. destruct (fold_apply_spec f op k) as (-> & _ & _).
    destruct (change_on k op) as [v|]; [by rewrite last_snoc|by rewrite app_nil_r, IHk].
  - destruct (fold_apply_spec f op (KThread [])) as (_ & -> & _). destruct (op_head op) as [h|]; [by rewrite last_snoc|].
    by rewrite app_nil_r, IHh.
  - destruct (fold_apply_spec f op (KThread [])) as (_ & _ & ->). destruct (op_undo op) as [s|]; [by rewrite last_snoc|].
    by rewrite app_nil_r, IHu.
Qed.

Lemma fold_batches_ops bs since : fold_batches bs since = fold_ops (operation <$> replayed bs since).
Proof. unfold fold_batches, fold_ops. generalize (replayed bs since), empty_fold. intros es. induction es as [|e es IH]; intros f; [done|]. apply IH. Qed.

(** ** The entries that are replayed *)

(** The part of the batch of an entry that lies in the window is all of the lane. *)
Definition in_lane (lane : option (list Z)) (es : list OpEntry) (e : OpEntry) : bool :=
  scope_matches lane (of_batch (effective_batch_id e) es).

(** The committed records after [since], oldest first *)
Definition window (since : Z) (lane : option (list Z)) (es : list OpEntry) : list OpEntry :=
  List.filter (λ e, negb (undone e) && in_lane lane (after since es) e) (after since es).

Lemma concat_batches_perm es o :
  NoDup o → concat (entries <$> (batch_of es <$> o)) ≡ₚ filter (λ e, effective_batch_id e ∈ o) es.
Proof.
  induction 1 as [|id o Hid Ho IH]; cbn [fmap list_fmap concat].
  { induction es as [|e es IH]; [done|]. by rewrite filter_cons_False by (apply not_elem_of_nil). }
  rewrite IH. cbn [entries batch_of]. rewrite sort_by_perm. clear IH.
  induction es as [|e es IH]; [done|]. rewrite of_batch_cons, !filter_cons. destruct (Z.eqb_spec (effective_batch_id e) id) as [E|E].
  - rewrite (decide_False (P := effective_batch_id e ∈ o)), (decide_True (P := effective_batch_id e ∈ id :: o)) by (rewrite E; (done || by left)).
    cbn [app]. by rewrite IH.
  - destruct (decide (effective_batch_id e ∈ o)) as [Hin|Hin].
    + rewrite decide_True by (by right). by rewrite <- Permutation_middle, IH.
    + rewrite decide_False; [done|]. by intros [?|?]%elem_of_cons.
Qed.

Lemma bool_filter_perm {A} (p : A → bool) l k : l ≡ₚ k → List.filter p l ≡ₚ List.filter p k.
Proof.
  induction 1 as [|x l k _ IH|x y l|l k m _ IH1 _ IH2]; [done|..|by etrans]; cbn [List.filter].
  - destruct (p x); [by constructor|done].
  - destruct (p x), (p y); done || constructor.
Qed.

Lemma filter_fmap {A B} (p : B → bool) (f : A → B) l : List.filter p (f <$> l) = f <$> List.filter (λ x, p (f x)) l.
Proof. induction l as [|x l IH]; [done|]. cbn. destruct (p (f x)); cbn; by rewrite IH. Qed.

Lemma bool_filter_ext {A} (p q : A → bool) l : (∀ x, x ∈ l → p x = q x) → List.filter p l = List.filter q l.
Proof.
  intros He. induction l as [|x l IH]; [done|]. cbn [List.filter]. rewrite (He x) by (by left).
  rewrite IH; [done|]. intros. apply He. by right.
Qed.

Lemma filter_bool {A} (P : A → Prop) `{∀ x, Decision (P x)} (p : A → bool) l :
  (∀ x, x ∈ l → p x = true ↔ P x) → filter P l = List.filter p l.
Proof.
  intros He. induction l as [|x l IH]; [done|]. rewrite filter_cons. cbn [List.filter].
  rewrite IH by (intros; apply He; by right). pose proof (He x ltac:(by left)) as Hx.
  destruct (decide (P x)) as [Hp|Hp], (p x); try done; [by apply Hx in Hp|by destruct Hp; apply Hx].
Qed.

Lemma shown_perm lane es :
  concat (entries <$> shown (λ _, true) lane (batches es)) ≡ₚ List.filter (in_lane lane es) es.
Proof.
  unfold shown, batches. rewrite (forallb_filter_id (λ _, true)) by (by apply forallb_forall).
  rewrite filter_fmap, concat_batches_perm by (apply NoDup_ListNoDup, List.NoDup_filter, NoDup_ListNoDup, batch_order_NoDup).
  rewrite (filter_bool _ (in_lane lane es)); [done|]. intros e He.
  rewrite list_elem_of_In, filter_In, <- list_elem_of_In. unfold in_lane. cbn [entries batch_of].
  rewrite (scope_matches_perm lane _ _ (sort_by_perm _ _)). split; [|by intros [_ ?]]. intros Hs. split; [|done].
  apply batch_order_elem. by exists e.
Qed.

Lemma filter_and {A} (p q : A → bool) l : List.filter p (List.filter q l) = List.filter (λ x, q x && p x) l.
Proof. induction l as [|x l IH]; [done|]. cbn [List.filter]. destruct (q x); cbn [List.filter andb]; by rewrite IH. Qed.

Lemma remove_dups_length {A} `{EqDecision A} (l : list A) : (length (remove_dups l) ≤ length l)%nat.
Proof. induction l as [|x l IH]; [done|]. cbn [remove_dups]. case_decide; cbn [length]; lia. Qed.

Lemma compare_id_anti x y : compare_id y x = CompOpp (compare_id x y).
Proof. apply Z.compare_antisym. Qed.
Lemma rec_compare_trans x y z : compare_id x y ≠ Gt → compare_id y z ≠ Gt → compare_id x z ≠ Gt.
Proof. unfold compare_id. intros H1 H2. change (e_id x ≤ e_id z). etrans; [exact H1|exact H2]. Qed.

(** What is replayed of the batches that a query shows *)
Lemma replayed_window es since lane count :
  increasing es → zlen es ≤ count →
  replayed (query (after since es) count (λ _, true) lane) since = window since lane es.
Proof.
  intros Hi Hc. assert (increasing (after since es)) as Ha by (by apply increasing_filter).
  unfold query. rewrite take_ge.
  2: { assert (length (shown (λ _, true) lane (batches (after since es))) ≤ length es)%nat; [|unfold zlen in Hc; lia].
    unfold shown, batches, batch_order. etrans; [apply filter_length_le|]. etrans; [apply filter_length_le|].
    rewrite length_fmap, length_reverse. etrans; [apply remove_dups_length|]. rewrite length_fmap. apply filter_length_le. }
  unfold replayed, window. set (p := λ e, negb (undone e) && (since <? e_id e)).
  apply (sorted_unique compare_id); [apply compare_id_anti|apply sort_by_sorted; [intros; apply compare_id_anti|apply rec_compare_trans]| |].
  - eapply StronglySorted_weaken; [|by apply increasing_filter, Ha]. intros x y Hxy. by apply Z.compare_lt_iff.
  - rewrite sort_by_perm, (bool_filter_perm _ _ _ (shown_perm lane (after since es))). rewrite filter_and.
    erewrite (bool_filter_ext _ _ (after since es)); [reflexivity|]. intros e [_ He]%after_elem. unfold p.
    rewrite (proj2 (Z.ltb_lt _ _)) by done. rewrite andb_true_r. apply andb_comm.
Qed.
