(* ===== verification/RefWatermark.v ===== *)
(** * Watermark files

    The decimal text of a watermark reads back, and a write to a watermark file never
    lowers what it holds ([persist_watermark_file], [read_single_watermark] of
    [crates/refs/src/refs/refs_manager.rs]). *)

From S2P Require Import Prelude Text RefNames RefText RefDisk RefSummary RefStore RefPublish OpRecords OpLog RefFold RefReconcile.
Import Text RefText RefDisk RefStore RefReconcile.

(** ** Decimal numbers *)

Definition digit (b : Z) : Prop := 48 ≤ b ≤ 57.
Definition value_from (v : Z) (ds : list Z) : Z := fold_left (λ a b, a * 10 + (b - 48)) ds v.

Lemma digits_value_from v ds : 0 ≤ v → Forall digit ds → value_from v ds ≤ U64_MAX → digits_value v ds = Some (value_from v ds).
Proof.
  intros Hv Hds. revert v Hv. induction Hds as [|b ds Hb Hds IH]; intros v Hv Hmax; [done|].
  cbn [digits_value]. unfold digit in Hb. rewrite (proj2 (Z.leb_le 48 b)), (proj2 (Z.leb_le b 57)) by lia. cbn [andb].
  change (value_from v (b :: ds)) with (value_from (v * 10 + (b - 48)) ds) in *.
  assert (v * 10 + (b - 48) ≤ value_from (v * 10 + (b - 48)) ds) as Hle.
  { assert (0 ≤ v * 10 + (b - 48)) as H0 by lia. revert H0. generalize (v * 10 + (b - 48)). clear -Hds.
    induction Hds as [|c ds Hc Hds IH]; intros u Hu; [done|]. unfold digit in Hc.
    change (value_from u (c :: ds)) with (value_from (u * 10 + (c - 48)) ds). specialize (IH (u * 10 + (c - 48))). lia. }
  rewrite (proj2 (Z.leb_le _ _)) by lia. apply IH; [lia|done].
Qed.

Lemma decimal_digits_spec fuel v acc : 0 ≤ v < 10 ^ Z.of_nat fuel → (0 < fuel)%nat →
  ∃ ds, decimal_digits fuel v acc = ds ++ acc ∧ Forall digit ds ∧ ds ≠ [] ∧ value_from 0 ds = v.
Proof.
  revert v acc. induction fuel as [|fuel IH]; intros v acc Hv Hf; [lia|]. cbn [decimal_digits].
  destruct (Z.ltb_spec v 10) as [Hlt|Hge].
  { exists [48 + v]. unfold digit. split; [done|]. split; [repeat constructor; lia|]. split; [done|]. cbn. lia. }
  assert (10 ^ Z.of_nat (S fuel) = 10 * 10 ^ Z.of_nat fuel) as Hp by (rewrite Nat2Z.inj_succ, Z.pow_succ_r; lia).
  destruct (IH (v / 10) (48 + v `mod` 10 :: acc)) as (ds & E & Hd & Hne & Hval).
  { Z.to_euclidean_division_equations; lia. }
  { destruct fuel; [|lia]. cbn in Hv. lia. }
  exists (ds ++ [48 + v `mod` 10]). rewrite E, <- app_assoc. split; [done|]. split.
  { apply Forall_app. split; [done|]. repeat constructor; unfold digit; Z.to_euclidean_division_equations; lia. }
  split; [by destruct ds|]. unfold value_from in *. rewrite fold_left_app, Hval. cbn [fold_left]. Z.to_euclidean_division_equations; lia.
Qed.

Lemma to_decimal_spec v : 0 ≤ v ≤ U64_MAX → Forall digit (to_decimal v) ∧ to_decimal v ≠ [] ∧ parse_u64 (to_decimal v) = Some v.
Proof.
  intros Hv. destruct (decimal_digits_spec 20 v []) as (ds & E & Hd & Hne & Hval); [unfold U64_MAX in Hv; lia|lia|].
  unfold to_decimal. rewrite E, app_nil_r. split; [done|]. split; [done|]. unfold parse_u64.
  assert (match ds with 43 :: rest => rest | _ => ds end = ds) as ->.
  { destruct ds as [|b ds]; [done|]. apply Forall_cons in Hd as [Hb _]. unfold digit in Hb.
    destruct b as [|b|b]; try lia. do 6 (destruct b as [b|b|]; try done). lia. }
  rewrite bool_decide_false by done. rewrite <- Hval. apply digits_value_from; [done|done|]. lia.
Qed.

(** ** The text of a watermark *)

Definition mark_text (v : Z) : list Z := to_decimal v ++ [10].
Definition mark_of (contents : list Z) : option Z := word ← first_word contents; parse_u64 word.
(** The watermark in a file: [None] when there is no number in it *)
Definition mark (fs : gmap rpath (list Z)) (p : rpath) : option Z := contents ← fs !! p; mark_of contents.

Lemma digit_id b : digit b → id_char b.
Proof. unfold digit, id_char. lia. Qed.

Lemma take_word_digits ds : Forall digit ds → take_word (ds ++ [10]) = ds.
Proof.
  induction 1 as [|b ds Hb Hds IH]; [done|]. cbn [app take_word].
  rewrite (strip_any_id white_space b) by (apply spaces_not_id || by apply digit_id). by rewrite IH.
Qed.

Lemma mark_text_of v : 0 ≤ v ≤ U64_MAX → mark_of (mark_text v) = Some v.
Proof.
  intros Hv. destruct (to_decimal_spec v Hv) as (Hd & Hne & Hp). unfold mark_of, mark_text, first_word.
  destruct (to_decimal v) as [|b ds] eqn:E; [done|].
  change ((b :: ds) ++ [10]) with (b :: (ds ++ [10])).
  rewrite trim_loop_stop by (apply strip_any_id; [apply spaces_not_id|apply Forall_cons in Hd as [Hb _]; by apply digit_id]).
  rewrite bool_decide_false by done. change (b :: (ds ++ [10])) with ((b :: ds) ++ [10]). by rewrite take_word_digits.
Qed.

Lemma mark_text_utf8 v : 0 ≤ v ≤ U64_MAX → is_utf8 (mark_text v) = true.
Proof.
  intros Hv. destruct (to_decimal_spec v Hv) as (Hd & _ & _). apply ascii_is_utf8, Forall_app. split; [|repeat constructor; lia].
  eapply Forall_impl; [exact Hd|]. unfold digit. lia.
Qed.

(** ** Reading and writing the files *)

(** The file can be read. *)
Definition readable (fs : gmap rpath (list Z)) (p : rpath) : Prop := ∀ c, fs !! p = Some c → is_utf8 c = true.

Lemma read_mark p d : readable (files d) p → read_single_watermark p d = (Ok (mark (files d) p), d).
Proof.
  intros Hu. unfold read_single_watermark, mark. destruct (files d !! p) as [c|] eqn:E.
  - by rewrite (run_bind _ _ _ _ _ (read_file_ok _ _ _ E (Hu _ E))).
  - by rewrite (run_bind _ _ _ _ _ (read_file_none _ _ E)).
Qed.

(** The watermark after persisting [v] *)
Definition advanced (v : Z) (old : option Z) : option Z := if v =? WATERMARK_UNSET then old else Some (Z.max v (default 0 old)).
Definition advance_file (p : rpath) (v : Z) (fs : gmap rpath (list Z)) : gmap rpath (list Z) :=
  if v =? WATERMARK_UNSET then fs else <[p := mark_text (Z.max v (default 0 (mark fs p)))]> fs.

Lemma mark_bound fs p v : mark fs p = Some v → 0 ≤ v ≤ U64_MAX.
Proof.
  unfold mark, mark_of. destruct (fs !! p) as [c|]; [|done]. cbn. destruct (first_word c) as [w|]; [|done]. cbn.
  unfold parse_u64. case_bool_decide; [done|]. generalize (match w with 43 :: rest => rest | _ => w end). intros ds.
  assert (∀ u, 0 ≤ u ≤ U64_MAX → digits_value u ds = Some v → 0 ≤ v ≤ U64_MAX) as Hd; [|apply Hd; unfold U64_MAX; lia].
  clear. induction ds as [|b ds IH]; intros u Hu; cbn [digits_value]; [by intros [= <-]|].
  destruct ((48 <=? b) && (b <=? 57)) eqn:Eb; [|done]. destruct (Z.leb_spec (u * 10 + (b - 48)) U64_MAX); [|done].
  apply IH. apply andb_true_iff in Eb as [?%Z.leb_le ?%Z.leb_le]. lia.
Qed.

Lemma max_bound fs p v : 0 ≤ v ≤ U64_MAX → 0 ≤ Z.max v (default 0 (mark fs p)) ≤ U64_MAX.
Proof. intros Hv. destruct (mark fs p) as [m|] eqn:E; [apply mark_bound in E|]; cbn; lia. Qed.

Lemma advance_mark fs p v : 0 ≤ v ≤ U64_MAX → mark (advance_file p v fs) p = advanced v (mark fs p).
Proof.
  intros Hv. unfold advance_file, advanced. destruct (v =? WATERMARK_UNSET); [done|].
  unfold mark at 1. rewrite lookup_insert_eq. cbn. by apply mark_text_of, max_bound.
Qed.

Lemma advance_other fs p q v : q ≠ p → advance_file p v fs !! q = fs !! q.
Proof. intros Hq. unfold advance_file. destruct (v =? WATERMARK_UNSET); [done|]. by apply lookup_insert_ne. Qed.

Lemma advance_readable fs p v : 0 ≤ v ≤ U64_MAX → readable fs p → readable (advance_file p v fs) p.
Proof.
  intros Hv Hr c. unfold advance_file. destruct (v =? WATERMARK_UNSET); [apply Hr|]. rewrite lookup_insert_eq.
  intros [= <-]. by apply mark_text_utf8, max_bound.
Qed.

Lemma wp_persist p v d : readable (files d) p → wp (persist_watermark_file p v)
  (λ _ d', files d' = advance_file p v (files d) ∧ (nf d' ≤ nf d)%nat)
  (λ _ d', (files d' = files d ∨ files d' = advance_file p v (files d)) ∧ (nf d' < nf d)%nat) d.
Proof.
  intros Hr. unfold persist_watermark_file, advance_file. destruct (v =? WATERMARK_UNSET); [by apply wp_ret|].
  apply wp_bind. unfold wp at 1. rewrite read_mark by done. eapply wp_mono; [apply write_spec|..]; cbv beta.
  - by intros _ d' (E & _ & N).
  - by intros e d' [E N].
Qed.
