(* ===== verification/RefMaterialize.v ===== *)
(** * Materializing what was folded

    [plan_materialization], [materialize_with_ref_durability] and the setters of remote
    threads ([crates/refs/src/refs/refs_manager.rs], [refs_transactions.rs]): what they do to the
    refs, and what a failing operation in the middle of them leaves. *)

From S2P Require Import Prelude Text RefNames RefText RefDisk RefSummary RefStore RefPublish RefPack RefCas.
From S2P Require Import OpRecords OpLog RefFold RefReconcile RefFoldSpec.
Import Text RefText RefDisk RefSummary RefStore RefReconcile.

Section materialize.
Context `{Base32Laws} `{RefSyntaxLaws}.

(** ** Single writes to the refs *)

Lemma key_not_packed k : key_path k ≠ PPacked.
Proof. by destruct k. Qed.

Lemma ref_value_put fs k i k' : id32 i →
  ref_value (<[key_path k := format_state_id_text i]> fs) k' = if decide (k' = k) then Some i else ref_value fs k'.
Proof.
  intros Hi. unfold ref_value, packed_of. rewrite (lookup_insert_ne _ (key_path k) PPacked) by apply key_not_packed.
  destruct (decide (k' = k)) as [->|Hne]; [by rewrite lookup_insert_eq, state_text_roundtrip|].
  rewrite lookup_insert_ne; [done|]. intros ->%key_path_inj. done.
Qed.

Lemma ref_value_drop fs r n k' :
  ref_value (delete (PRemote r n) fs) k' = if decide (k' = KRemote r n) then None else ref_value fs k'.
Proof.
  unfold ref_value, packed_of. rewrite (lookup_delete_ne _ (PRemote r n) PPacked) by done.
  destruct (decide (k' = KRemote r n)) as [->|Hne]; [by rewrite lookup_delete_eq|].
  rewrite lookup_delete_ne; [done|]. destruct k'; cbn; congruence.
Qed.

(** The files beside the refs and HEAD are kept, and everything is well formed. *)
Record rest_kept (fs fs' : gmap rpath (list Z)) : Prop := {
  rk_clean : clean fs';
  rk_side : side_kept fs fs';
  rk_head : ∀ co, head_value fs' co = head_value fs co;
}.

Lemma rest_refl fs : clean fs → rest_kept fs fs.
Proof. by split. Qed.
Lemma rest_trans fs fs' fs'' : rest_kept fs fs' → rest_kept fs' fs'' → rest_kept fs fs''.
Proof.
  intros [C S Hh] [C' S' Hh']. split; [done| |].
  - intros q Hq. by rewrite S', S.
  - intros co. by rewrite Hh', Hh.
Qed.

Lemma rest_ext fs fs' fs'' : rest_kept fs fs' → (∀ q, q ≠ PSummary → fs'' !! q = fs' !! q) → rest_kept fs fs''.
Proof.
  intros Hr E. eapply rest_trans; [exact Hr|]. split; [by apply (clean_ext _ _ E), Hr| |by apply head_value_ext].
  intros q Hq. apply E. by intros ->.
Qed.

Lemma rest_put fs k i : clean fs → key_ok k → id32 i → rest_kept fs (<[key_path k := format_state_id_text i]> fs).
Proof.
  intros Hc Hk Hi. split.
  - apply clean_put; [done|]. destruct k; (split; [exact Hk|by exists i]).
  - intros q Hq. apply lookup_insert_ne. intros <-. by destruct k.
  - intros co. unfold head_value. rewrite lookup_insert_ne; [done|by destruct k].
Qed.

Lemma rest_drop fs r n : clean fs → rest_kept fs (delete (PRemote r n) fs).
Proof.
  intros Hc. split; [by apply clean_drop| |].
  - intros q Hq. apply lookup_delete_ne. by intros <-.
  - intros co. unfold head_value. by rewrite lookup_delete_ne.
Qed.

(** ** Remote threads *)

(** The refs of [fs'] are those of [fs] with [k] set to [v]. *)
Definition one_set (k : ref_key) (v : option (list Z)) (fs fs' : gmap rpath (list Z)) : Prop :=
  ∀ k', ref_value fs' k' = if decide (k' = k) then v else ref_value fs k'.

(** A single write, and its failure before or after the effect *)
Definition one_written (k : ref_key) (v : option (list Z)) (d d' : Disk) : Prop :=
  one_set k v (files d) (files d') ∧ rest_kept (files d) (files d') ∧ (nf d' ≤ nf d)%nat.
Definition one_failed (k : ref_key) (d d' : Disk) : Prop :=
  (∀ k', k' ≠ k → ref_value (files d') k' = ref_value (files d) k') ∧ rest_kept (files d) (files d') ∧ (nf d' < nf d)%nat.

Lemma set_remote_spec r n i d : clean (files d) → key_ok (KRemote r n) → id32 i →
  wp (set_remote_thread_locked r n i) (λ _ d', one_written (KRemote r n) (Some i) d d') (λ _ d', one_failed (KRemote r n) d d') d.
Proof.
  intros Hc Hk Hi. unfold set_remote_thread_locked. apply wp_bind. unfold wp at 1. rewrite (path_of_ok (KRemote r n) d Hk : remote_thread_path r n d = _).
  cbn [key_path].
  assert (∀ d1, fault_kept d d1 → one_failed (KRemote r n) d d1) as Hf.
  { intros d1 [E N]. unfold one_failed. rewrite E. split; [done|]. split; [by apply rest_refl|done]. }
  apply wp_bind. eapply wp_mono; [apply keeps_point| |intros e d1; apply Hf]. cbv beta. intros _ d1 (K1 & _).
  apply wp_bind. eapply (wp_mono _ (λ _ d2, d2 = d1) _ (λ _ _, False)); [|intros _ d2 ->|done].
  { destruct Hk as [[_ Hv] _]. unfold remote_dir, require_user_ref_name. rewrite Hv. by apply wp_ret. }
  apply wp_bind. eapply wp_mono; [apply keeps_point| |intros e d2 K2; apply Hf; by eapply kept_fault]. cbv beta. intros _ d2 (K2 & _).
  apply wp_bind. eapply wp_mono; [apply (keeps_dir (PRemote r n))|..]; cbv beta.
  2:{ intros e d3 K3. apply Hf. eapply kept_fault; [exact K1|by eapply kept_fault]. }
  intros _ d3 (K3 & _). assert (kept d d3) as [E3 N3] by (eapply kept_trans; [exact K1|by eapply kept_trans]).
  set (fs1 := <[PRemote r n := format_state_id_text i]> (files d)).
  assert (one_set (KRemote r n) (Some i) (files d) fs1) as Hset by (intros k'; by apply (ref_value_put _ (KRemote r n))).
  assert (rest_kept (files d) fs1) as Hrest by (by apply (rest_put _ (KRemote r n))).
  apply wp_bind. eapply wp_mono; [apply write_spec|..]; cbv beta; rewrite E3; fold fs1.
  - intros _ d4 (E4 & _ & N4). eapply wp_mono; [apply rebuild_absorbed| |done]. cbv beta. intros _ d5 (E5 & _ & N5). rewrite E4 in E5.
    split; [|split; [by eapply rest_ext|lia]]. intros k'. by rewrite (ref_value_ext _ _ E5).
  - intros e d4 [[E4|E4] N4]; [apply Hf; split; [done|lia]|]. unfold one_failed. rewrite E4. split; [|split; [done|lia]].
    intros k' Hk'. rewrite Hset. by rewrite decide_False.
Qed.

Lemma delete_remote_spec r n d : clean (files d) → key_ok (KRemote r n) →
  wp (delete_remote_thread_locked r n)
    (λ v d', v = ref_value (files d) (KRemote r n) ∧ one_written (KRemote r n) None d d')
    (λ _ d', one_failed (KRemote r n) d d') d.
Proof.
  intros Hc Hk. unfold delete_remote_thread_locked. apply wp_bind. unfold wp at 1.
  rewrite (raw_get_ok d (KRemote r n) Hc Hk : raw_get_remote_thread r n d = _).
  apply wp_bind. eapply (wp_mono _ (λ _ d1, one_set (KRemote r n) None (files d) (files d1) ∧ rest_kept (files d) (files d1) ∧
    (nf d1 ≤ nf d)%nat) _ (λ _ d1, one_failed (KRemote r n) d d1)); [|cbv beta|done].
  - destruct (ref_value (files d) (KRemote r n)) as [i|] eqn:Ev.
    + apply wp_bind. unfold wp at 1. rewrite (path_of_ok (KRemote r n) d Hk : remote_thread_path r n d = _). cbn [key_path].
      eapply wp_mono; [apply remove_spec|..]; cbv beta.
      * intros _ d1 (E & _ & N). rewrite E. split; [intros k'; apply ref_value_drop|]. split; [by apply rest_drop|done].
      * intros e d1 [E N]. unfold one_failed. rewrite E. split; [done|]. split; [by apply rest_refl|done].
    + apply wp_ret. split; [|split; [by apply rest_refl|done]]. intros k'. by destruct (decide (k' = KRemote r n)) as [->|].
  - intros _ d1 (S1 & R1 & N1). apply wp_bind. eapply wp_mono; [apply rebuild_absorbed| |done]. cbv beta. intros _ d2 (E2 & _ & N2).
    apply wp_ret. split; [done|]. split; [|split; [by eapply rest_ext|lia]]. intros k'. by rewrite (ref_value_ext _ _ E2).
Qed.

(** ** Plans of a materialization *)

Context (checkout : Z).

(** The update changes something. *)
Definition needed (fs : gmap rpath (list Z)) (u : RefUpdate) : bool :=
  match change_of u with
  | CRef k new => negb (bool_decide (ref_value fs k = new))
  | CHead h => negb (is_some (fs !! PHead checkout) && bool_decide (head_value fs checkout = h))
  end.

Definition needed_changes (fs : gmap rpath (list Z)) (us : list RefUpdate) : list change :=
  change_of <$> List.filter (needed fs) us.

Lemma raw_fallback fs k : clean fs →
  (match fs !! key_path k with Some c => Some c | None => format_state_id_text <$> packed_value (packed_of fs) k end) =
    format_state_id_text <$> ref_value fs k.
Proof.
  intros Hc. unfold ref_value. destruct (fs !! key_path k) as [c|] eqn:E; [|done].
  destruct (key_text _ _ _ Hc E) as (_ & i & _ & -> & ->). done.
Qed.

Lemma fallback_track d n : clean (files d) → thread_name n →
  read_track_with_packed_fallback n d =
    (Ok (PThread n, ref_value (files d) (KThread n), format_state_id_text <$> ref_value (files d) (KThread n)), d).
Proof.
  intros Hc Hn. unfold read_track_with_packed_fallback. rewrite (run_bind _ _ _ _ _ (path_of_ok (KThread n) d Hn)).
  rewrite <- (raw_fallback _ (KThread n)) by done. unfold ref_value. cbn [key_path].
  destruct (files d !! PThread n) as [c|] eqn:E.
  - destruct (key_text _ (KThread n) _ Hc E) as (U & i & _ & _ & Ep). rewrite (run_bind _ _ _ _ _ (read_file_ok _ _ _ E U)), Ep. done.
  - rewrite (run_bind _ _ _ _ _ (read_file_none _ _ E)). by rewrite (run_bind _ _ _ _ _ (load_packed_clean d Hc)).
Qed.

Lemma fallback_marker d n : clean (files d) → marker_name n →
  read_marker_with_packed_fallback (PMarker n) n d =
    (Ok (ref_value (files d) (KMarker n), format_state_id_text <$> ref_value (files d) (KMarker n)), d).
Proof.
  intros Hc Hn. unfold read_marker_with_packed_fallback.
  rewrite <- (raw_fallback _ (KMarker n)) by done. unfold ref_value. cbn [key_path].
  destruct (files d !! PMarker n) as [c|] eqn:E.
  - destruct (key_text _ (KMarker n) _ Hc E) as (U & i & _ & _ & Ep). rewrite (run_bind _ _ _ _ _ (read_file_ok _ _ _ E U)), Ep. done.
  - rewrite (run_bind _ _ _ _ _ (read_file_none _ _ E)). by rewrite (run_bind _ _ _ _ _ (load_packed_clean d Hc)).
Qed.

Lemma materialization_plan_ok d u : clean (files d) → change_ok (change_of u) →
  materialization_plan checkout u d =
    (Ok (if needed (files d) u then Some (plan_for (files d) checkout (change_of u)) else None), d).
Proof.
  intros Hc Hok. destruct u as [n e new|n e new|e h|r n e new]; cbn [materialization_plan change_of] in *; unfold needed; cbn [change_of].
  - destruct Hok as [Hk _]. rewrite (run_bind _ _ _ _ _ (fallback_track d n Hc Hk)). by case_bool_decide.
  - destruct Hok as [Hk _]. rewrite (run_bind _ _ _ _ _ (path_of_ok (KMarker n) d Hk)). cbn [key_path].
    rewrite (run_bind _ _ _ _ _ (fallback_marker d n Hc Hk)). by case_bool_decide.
  - rewrite (run_bind _ _ _ _ _ (read_head_ok d checkout Hc)). cbn [hs_exists hs_head hs_raw]. by destruct (is_some _ && _).
  - destruct Hok as [Hk _]. rewrite (run_bind _ _ _ _ _ (path_of_ok (KRemote r n) d Hk)). cbn [key_path].
    rewrite (run_bind _ _ _ _ _ (raw_get_ok d (KRemote r n) Hc Hk)).
    case_bool_decide; [done|]. unfold remote_plan, plan_for. by destruct (negb _ && _).
Qed.

Lemma plan_materialization_ok d us : clean (files d) → Forall change_ok (change_of <$> us) →
  plan_materialization checkout us d = (Ok (plans_for (files d) checkout (needed_changes (files d) us)), d).
Proof.
  intros Hc Hok. unfold plan_materialization.
  assert (io_map (materialization_plan checkout) us d =
    (Ok ((λ u, if needed (files d) u then Some (plan_for (files d) checkout (change_of u)) else None) <$> us), d)) as E.
  { induction us as [|u us IH]; [done|]. apply Forall_cons in Hok as [Hu Hok]. cbn [io_map].
    rewrite (run_bind _ _ _ _ _ (materialization_plan_ok d u Hc Hu)), (run_bind _ _ _ _ _ (IH Hok)). done. }
  rewrite (run_bind _ _ _ _ _ E). unfold mret, io_ret. do 2 f_equal. unfold plans_for, needed_changes. clear.
  induction us as [|u us IH]; [done|]. cbn [fmap list_fmap omap list_omap List.filter Datatypes.id].
  destruct (needed (files d) u); cbn [fmap list_fmap Datatypes.id]; by rewrite IH.
Qed.

Lemma needed_ok fs us : Forall change_ok (change_of <$> us) → Forall change_ok (needed_changes fs us).
Proof.
  rewrite !Forall_forall. intros Hok c (u & -> & Hu)%list_elem_of_fmap. apply Hok, list_elem_of_fmap_2.
  apply list_elem_of_In, filter_In in Hu as [Hu _]. by apply list_elem_of_In.
Qed.

(** Every value that the changes give to a ref is one that they ask for. *)
Lemma spec_value_in cs k old :
  (∃ new, CRef k new ∈ cs ∧ spec_value cs k old = new) ∨ spec_value cs k old = old ∧ ∀ new, CRef k new ∉ cs.
Proof.
  pose proof (last_ref ∅ checkout cs k old) as Hl. destruct (last_on _ _) as [p|]; [left|by right].
  destruct Hl as (new & Hin & _ & E). by exists new.
Qed.
Lemma spec_head_in cs old : (∃ h, CHead h ∈ cs ∧ spec_head cs old = h) ∨ spec_head cs old = old ∧ ∀ h, CHead h ∉ cs.
Proof.
  unfold spec_head. induction cs as [|c cs IH] using rev_ind; [right; split; [done|]; by intros h ?%elem_of_nil|].
  rewrite fold_left_app. cbn [fold_left]. destruct c as [k new|h].
  - destruct IH as [(h & Hin & E)|[E Hn]]; [left; exists h; split; [apply elem_of_app; by left|done]|right].
    split; [done|]. intros h [?|?%list_elem_of_singleton]%elem_of_app; [by eapply Hn|done].
  - left. exists h. split; [apply elem_of_app; right; by apply list_elem_of_singleton|done].
Qed.

(** What the changes [us] leave of the refs: none lost, each of them made *)
Definition made (us : list RefUpdate) (fs fs' : gmap rpath (list Z)) : Prop :=
  (∀ k, (∃ new, CRef k new ∈ change_of <$> us ∧ ref_value fs' k = new) ∨
        ref_value fs' k = ref_value fs k ∧ ∀ new, CRef k new ∈ change_of <$> us → new = ref_value fs k) ∧
  ((∃ h, CHead h ∈ change_of <$> us ∧ head_value fs' checkout = h) ∨
   head_value fs' checkout = head_value fs checkout ∧ ∀ h, CHead h ∈ change_of <$> us → h = head_value fs checkout) ∧
  ∀ co, co ≠ checkout → head_value fs' co = head_value fs co.

Lemma needed_in fs us c : c ∈ change_of <$> us → c ∈ needed_changes fs us ∨
  match c with CRef k new => new = ref_value fs k | CHead h => h = head_value fs checkout end.
Proof.
  intros (u & -> & Hu)%list_elem_of_fmap. destruct (needed fs u) eqn:E.
  - left. apply list_elem_of_fmap_2, list_elem_of_In, filter_In. split; [by apply list_elem_of_In|done].
  - right. unfold needed in E. destruct (change_of u) as [k new|h]; apply negb_false_iff in E.
    + by apply bool_decide_eq_true in E.
    + apply andb_true_iff in E as [_ E]. by apply bool_decide_eq_true in E.
Qed.

Lemma needed_sub fs us c : c ∈ needed_changes fs us → c ∈ change_of <$> us.
Proof.
  intros (u & -> & Hu)%list_elem_of_fmap. apply list_elem_of_fmap_2. apply list_elem_of_In, filter_In in Hu as [Hu _].
  by apply list_elem_of_In.
Qed.

Lemma changed_made us fs fs' : changed (needed_changes fs us) checkout fs fs' → made us fs fs'.
Proof.
  intros [Hr Hh]. split; [|split].
  - intros k. destruct (spec_value_in (needed_changes fs us) k (ref_value fs k)) as [(new & Hin & E)|[E Hn]].
    + left. exists new. split; [by apply needed_sub in Hin|by rewrite Hr].
    + right. split; [by rewrite Hr|]. intros new Hin. destruct (needed_in fs us _ Hin) as [Hi|Hi]; [by destruct (Hn new)|done].
  - specialize (Hh checkout). rewrite decide_True in Hh by done.
    destruct (spec_head_in (needed_changes fs us) (head_value fs checkout)) as [(h & Hin & E)|[E Hn]].
    + left. exists h. split; [by apply needed_sub in Hin|by rewrite Hh].
    + right. split; [by rewrite Hh|]. intros h Hin. destruct (needed_in fs us _ Hin) as [Hi|Hi]; [by destruct (Hn h)|done].
  - intros co Hco. specialize (Hh co). by rewrite decide_False in Hh.
Qed.

(** A failed publish changes no ref but those of its updates. *)
Definition spoiled (us : list RefUpdate) (fs fs' : gmap rpath (list Z)) : Prop :=
  (∀ k, (∀ new, CRef k new ∉ change_of <$> us) → ref_value fs' k = ref_value fs k) ∧
  ((∀ h, CHead h ∉ change_of <$> us) → head_value fs' checkout = head_value fs checkout) ∧
  ∀ co, co ≠ checkout → head_value fs' co = head_value fs co.

Lemma failed_spoiled us fs fs' : clean fs →
  changed [] checkout fs fs' ∨ changed_but_packed (needed_changes fs us) checkout fs fs' → spoiled us fs fs'.
Proof.
  intros Hc [[Hr Hh]|[Hr Hh]].
  - split; [intros k _; apply Hr|]. split; [intros _|intros co Hco].
    + specialize (Hh checkout). by rewrite decide_True in Hh.
    + specialize (Hh co). by rewrite decide_False in Hh.
  - split; [|split].
    + intros k Hk. rewrite Hr. destruct (spec_value_in (needed_changes fs us) k (ref_value fs k)) as [(new & Hin & _)|[-> _]].
      * apply needed_sub in Hin. by destruct (Hk new).
      * destruct (ref_value fs k) eqn:Ev; [done|]. by apply packed_value_none.
    + intros Hn. specialize (Hh checkout). rewrite decide_True in Hh by done. rewrite Hh.
      destruct (spec_head_in (needed_changes fs us) (head_value fs checkout)) as [(h & Hin & _)|[-> _]]; [|done].
      apply needed_sub in Hin. by destruct (Hn h).
    + intros co Hco. specialize (Hh co). by rewrite decide_False in Hh.
Qed.

(** Planning and publishing together *)
Definition publish_updates (us : list RefUpdate) (durable_refs : bool) : io unit :=
  plans ← plan_materialization checkout us;
  match plans with
  | [] => mret tt
  | _ => if durable_refs then publish_ref_plans plans else publish_ref_plans_reconstructible plans
  end.

Definition others_kept (d d' : Disk) : Prop := clean (files d') ∧ side_kept (files d) (files d').

Lemma publish_updates_spec us durable d : clean (files d) → Forall change_ok (change_of <$> us) → (nf d ≤ 1)%nat →
  wp (publish_updates us durable)
    (λ _ d', made us (files d) (files d') ∧ others_kept d d' ∧ (nf d' ≤ nf d)%nat)
    (λ _ d', spoiled us (files d) (files d') ∧ others_kept d d' ∧ (0 < nf d)%nat) d.
Proof.
  intros Hc Hok Hd. unfold publish_updates. apply wp_bind. unfold wp at 1. rewrite plan_materialization_ok by done.
  set (cs := needed_changes (files d) us). assert (Forall change_ok cs) as Hcs by (by apply needed_ok).
  assert (wp (publish_ref_plans_with_durability (if durable then Durable else Reconstructible) (plans_for (files d) checkout cs))
    (λ _ d', made us (files d) (files d') ∧ others_kept d d' ∧ (nf d' ≤ nf d)%nat)
    (λ _ d', spoiled us (files d) (files d') ∧ others_kept d d' ∧ (0 < nf d)%nat) d) as Hp.
  { eapply wp_mono; [by apply publish_batch|..]; cbv beta.
    - intros _ d' (Hch & Hcl & Hs & Hn). split; [by apply changed_made|]. split; [by split|done].
    - intros e d' (Hch & Hcl & Hs & Hn). split; [|split; [by split|done]]. apply failed_spoiled; [done|].
      destruct Hch as [?|[_ ?]]; [by left|by right]. }
  destruct (plans_for (files d) checkout cs) as [|p ps] eqn:E; [|by destruct durable].
  apply wp_ret. split; [|split; [by split|done]]. apply changed_made. fold cs. destruct cs; [|done].
  split; [done|]. intros co. by destruct (decide (co = checkout)) as [->|].
Qed.
End materialize.
