(* ===== verification/RefShared.v ===== *)
(** * The refs that all checkouts share

    Folding the committed records above the shared watermark into the files of threads,
    markers and remote threads, and the read chokepoint of [refs_manager.rs]: a logical
    read answers what the log and the files together say, and catches the files up. *)

From S2P Require Import Prelude Text RefNames RefText RefDisk RefSummary RefStore RefPublish RefPack RefCas.
From S2P Require Import OpRecords OpLog OpLogSpec OpIndex OpSegments OpOps RefFold RefReconcile RefFoldSpec RefWatermark RefMaterialize.
Import Text RefText RefDisk RefSummary RefStore RefReconcile.
Import OpRecords(OpRecord, OpEntry, operation).
Import RefFold(RefClass, Fold, loaded, republish, remote_updates, undo_recovery).

Section shared.
Context `{Base32Laws} `{RefSyntaxLaws}.
Context (checkout : Z) (op_scope : list Z).

(** Records that the code writes: names that are refs, ids of 32 bytes *)
Record record_ok (op : OpRecord) : Prop := {
  ro_change : ∀ k v, op_change op = Some (k, v) → key_ok k ∧ ∀ i, v = Some i → id32 i;
  ro_head : ∀ h, op_head op = Some (RefFold.Republish h) → head_ok h;
  ro_undo : ∀ s, op_undo op = Some s → id32 s;
}.

Definition fold_ok (f : Fold) : Prop := ∀ k v, fold_value f k = Some v → key_ok k ∧ ∀ i, v = Some i → id32 i.

Lemma last_change_in ops k v : last_change ops k = Some v → ∃ op, op ∈ ops ∧ op_change op = Some (k, v).
Proof.
  unfold last_change. intros Hl%last_Some_elem_of. apply list_elem_of_omap in Hl as (op & Hop & E). exists op. split; [done|].
  unfold change_on in E. destruct (op_change op) as [[k' v']|]; [|done]. destruct (decide (k' = k)) as [->|]; [|done]. by injection E as ->.
Qed.

Lemma fold_ops_ok ops : Forall record_ok ops → fold_ok (fold_ops ops).
Proof.
  intros Hok k v. destruct (fold_ops_spec ops) as (-> & _). intros (op & Hop & E)%last_change_in.
  rewrite Forall_forall in Hok. exact (ro_change _ (Hok op Hop) _ _ E).
Qed.

(** ** The changes of the shared class *)

Lemma shared_rows_elem {V} (m : gmap (list Z) V) x : x ∈ RefFold.rows m ↔ m !! x.1 = Some x.2.
Proof. unfold RefFold.rows. rewrite sort_by_perm. destruct x. apply elem_of_map_to_list. Qed.
Lemma pair_rows_elem {V} (m : gmap (list Z * list Z) V) x : x ∈ RefFold.pair_rows m ↔ m !! x.1 = Some x.2.
Proof. unfold RefFold.pair_rows. rewrite sort_by_perm. destruct x. apply elem_of_map_to_list. Qed.

Definition shared_updates (f : Fold) : list RefUpdate :=
  ((λ x, UThread x.1 Any x.2) <$> RefFold.rows (RefFold.f_threads f)) ++
  ((λ x, UMarker x.1 Any x.2) <$> RefFold.rows (RefFold.f_markers f)).

Definition is_remote (k : ref_key) : bool := match k with KRemote _ _ => true | _ => false end.

Lemma shared_changes f c : c ∈ change_of <$> shared_updates f ↔
  ∃ k v, c = CRef k v ∧ is_remote k = false ∧ fold_value f k = Some v.
Proof.
  unfold shared_updates. rewrite fmap_app, elem_of_app, <- !list_fmap_compose, !list_elem_of_fmap. split.
  - intros [([n v] & -> & E%shared_rows_elem)|([n v] & -> & E%shared_rows_elem)]; [exists (KThread n), v|exists (KMarker n), v]; done.
  - intros ([n|n|r n] & v & -> & Hk & E); [left|right|done]; exists (n, v); (split; [done|by apply shared_rows_elem]).
Qed.

Lemma shared_changes_ok f : fold_ok f → Forall change_ok (change_of <$> shared_updates f).
Proof. intros Hf. apply Forall_forall. intros c (k & v & -> & _ & E)%shared_changes. apply (Hf _ _ E). Qed.

(** ** Refs on their way to a fold *)

Definition toward (f : Fold) (fs fs' : gmap rpath (list Z)) : Prop :=
  ∀ k, ref_value fs' k = ref_value fs k ∨ fold_value f k = Some (ref_value fs' k).
(** Only refs that the fold changes differ. *)
Definition within (f : Fold) (fs fs' : gmap rpath (list Z)) : Prop :=
  ∀ k, fold_value f k = None → ref_value fs' k = ref_value fs k.
Definition folded (f : Fold) (fs fs' : gmap rpath (list Z)) : Prop :=
  ∀ k, ref_value fs' k = default (ref_value fs k) (fold_value f k).

Lemma toward_refl f fs : toward f fs fs.
Proof. intros k. by left. Qed.
Lemma toward_trans f fs fs' fs'' : toward f fs fs' → toward f fs' fs'' → toward f fs fs''.
Proof. intros H1' H2' k. destruct (H2' k) as [->|?]; [apply H1'|by right]. Qed.
Lemma toward_within f fs fs' : toward f fs fs' → within f fs fs'.
Proof. intros Ht k E. destruct (Ht k) as [?|?]; [done|congruence]. Qed.
Lemma within_trans f fs fs' fs'' : within f fs fs' → within f fs' fs'' → within f fs fs''.
Proof. intros H1' H2' k E. by rewrite H2', H1'. Qed.
Lemma toward_reached f fs fs' k v : toward f fs fs' → fold_value f k = Some v → ref_value fs k = v → ref_value fs' k = v.
Proof. intros Ht E Ev. destruct (Ht k) as [->|E']; [done|congruence]. Qed.

Lemma made_toward f fs fs' : made checkout (shared_updates f) fs fs' →
  toward f fs fs' ∧ (∀ k v, is_remote k = false → fold_value f k = Some v → ref_value fs' k = v) ∧
  ∀ co, head_value fs' co = head_value fs co.
Proof.
  intros (Hr & Hh & Ho). split; [|split].
  - intros k. destruct (Hr k) as [(new & (k' & v & [= <- <-] & _ & E)%shared_changes & ->)|[-> _]]; [by right|by left].
  - intros k v Hk E. assert (CRef k v ∈ change_of <$> shared_updates f) as Hin by (apply shared_changes; by exists k, v).
    destruct (Hr k) as [(new & (k' & v' & [= <- <-] & _ & E')%shared_changes & ->)|[-> Hn]]; [congruence|].
    symmetry. by apply Hn.
  - intros co. destruct (decide (co = checkout)) as [->|]; [|by apply Ho].
    destruct Hh as [(h & (k & v & ? & _)%shared_changes & _)|[? _]]; done.
Qed.

Lemma spoiled_within f fs fs' : spoiled checkout (shared_updates f) fs fs' →
  within f fs fs' ∧ ∀ co, head_value fs' co = head_value fs co.
Proof.
  intros (Hr & Hh & Ho). split.
  - intros k E. apply Hr. intros new (k' & v & [= <- <-] & _ & E')%shared_changes. congruence.
  - intros co. destruct (decide (co = checkout)) as [->|]; [|by apply Ho].
    apply Hh. by intros h (k & v & ? & _)%shared_changes.
Qed.

(** ** Remote threads *)

Lemma remote_spec f x d : clean (files d) → fold_ok f → fold_value f (KRemote x.1.1 x.1.2) = Some x.2 →
  wp (materialize_remote x)
    (λ _ d', toward f (files d) (files d') ∧ ref_value (files d') (KRemote x.1.1 x.1.2) = x.2 ∧
             rest_kept (files d) (files d') ∧ (nf d' ≤ nf d)%nat)
    (λ _ d', within f (files d) (files d') ∧ rest_kept (files d) (files d') ∧ (nf d' < nf d)%nat) d.
Proof.
  destruct x as [[r n] v]. cbn [fst snd]. intros Hc Hf E. destruct (Hf _ _ E) as [Hk Hv]. unfold materialize_remote.
  apply wp_bind. unfold wp at 1. rewrite (raw_get_ok d (KRemote r n) Hc Hk : raw_get_remote_thread r n d = _).
  assert (∀ d', one_failed (KRemote r n) d d' →
    within f (files d) (files d') ∧ rest_kept (files d) (files d') ∧ (nf d' < nf d)%nat) as Hfail.
  { intros d' (Ho & Hr & Hn). split; [|done]. intros k Ek. apply Ho. intros ->. congruence. }
  assert (∀ d', one_written (KRemote r n) v d d' → toward f (files d) (files d') ∧
    ref_value (files d') (KRemote r n) = v ∧ rest_kept (files d) (files d') ∧ (nf d' ≤ nf d)%nat) as Hset.
  { intros d' (Ho & Hr & Hn). split; [|split; [by rewrite Ho, decide_True|done]]. intros k. rewrite Ho.
    destruct (decide (k = KRemote r n)) as [->|]; [by right|by left]. }
  case_bool_decide as Ev.
  - apply wp_ret. split; [apply toward_refl|]. split; [done|]. split; [by apply rest_refl|done].
  - destruct v as [i|].
    + eapply wp_mono; [apply set_remote_spec; [done|done|by apply Hv]|..]; cbv beta; intros ? d'; auto.
    + apply wp_bind. eapply wp_mono; [by apply delete_remote_spec|..]; cbv beta; [|intros ? d'; auto].
      intros w d' [_ Hw]. apply wp_ret. auto.
Qed.

Lemma remotes_spec f xs d : clean (files d) → fold_ok f →
  (∀ x, x ∈ xs → fold_value f (KRemote x.1.1 x.1.2) = Some x.2) →
  wp (io_each materialize_remote xs)
    (λ _ d', toward f (files d) (files d') ∧ (∀ x, x ∈ xs → ref_value (files d') (KRemote x.1.1 x.1.2) = x.2) ∧
             rest_kept (files d) (files d') ∧ (nf d' ≤ nf d)%nat)
    (λ _ d', within f (files d) (files d') ∧ rest_kept (files d) (files d') ∧ (nf d' < nf d)%nat) d.
Proof.
  revert d. induction xs as [|x xs IH]; intros d Hc Hf Hx; cbn [io_each].
  { apply wp_ret. split; [apply toward_refl|]. split; [by intros x ?%elem_of_nil|]. split; [by apply rest_refl|done]. }
  apply wp_bind. eapply wp_mono; [apply (remote_spec f x); [done|done|apply Hx; by left]| |done]. cbv beta.
  intros _ d1 (T1 & V1 & R1 & N1). eapply wp_mono; [apply IH; [apply R1|done|intros; apply Hx; by right]|..]; cbv beta.
  - intros _ d2 (T2 & V2 & R2 & N2). split; [by eapply toward_trans|]. split; [|split; [by eapply rest_trans|lia]].
    intros y [->|Hy]%elem_of_cons; [|by apply V2]. eapply toward_reached; [done|apply Hx; by left|done].
  - intros e d2 (T2 & R2 & N2). split; [eapply within_trans; [by apply toward_within|done]|]. split; [by eapply rest_trans|lia].
Qed.

(** ** The whole class *)

Lemma materialize_alt out durable d : materialize_with_ref_durability checkout out durable d =
  (publish_updates checkout (republish out) durable ;; io_each materialize_remote (remote_updates out) ;;
   match undo_recovery out with
   | Some state => current ← read_state_id_at (PUndo checkout);
                   if bool_decide (current = Some state) then mret tt else set_undo_recovery_locked checkout state
   | None => mret tt
   end) d.
Proof.
  unfold materialize_with_ref_durability, publish_updates, mbind, io_bind. by destruct (plan_materialization _ _ d) as [[] ?].
Qed.

Lemma materialize_shared f out d : clean (files d) → fold_ok f → (nf d ≤ 1)%nat →
  (republish out, remote_updates out, undo_recovery out) = RefFold.class_materialization RefFold.Shared f →
  wp (materialize checkout out)
    (λ _ d', folded f (files d) (files d') ∧ rest_kept (files d) (files d') ∧ (nf d' ≤ nf d)%nat)
    (λ _ d', within f (files d) (files d') ∧ rest_kept (files d) (files d') ∧ (0 < nf d)%nat) d.
Proof.
  intros Hc Hf Hd Ho. unfold materialize, wp. rewrite materialize_alt. fold (wp (A:=unit)). injection Ho as Er Em Eu.
  rewrite Er, Em, Eu. fold (shared_updates f).
  match goal with |- match ?m d with _ => _ end => change (wp m
    (λ _ d', folded f (files d) (files d') ∧ rest_kept (files d) (files d') ∧ (nf d' ≤ nf d)%nat)
    (λ _ d', within f (files d) (files d') ∧ rest_kept (files d) (files d') ∧ (0 < nf d)%nat) d) end.
  apply wp_bind. eapply wp_mono; [apply publish_updates_spec; [done|by apply shared_changes_ok|done]|..]; cbv beta.
  2:{ intros e d1 (S1 & [C1 K1] & N1). apply spoiled_within in S1 as [W1 H1']. split; [done|]. split; [by split|done]. }
  intros _ d1 (M1 & [C1 K1] & N1). apply made_toward in M1 as (T1 & V1 & H1').
  assert (rest_kept (files d) (files d1)) as R1 by by split.
  apply wp_bind. eapply wp_mono; [apply (remotes_spec f); [done|done|]|..]; cbv beta.
  - intros [[r n] v] Hx%pair_rows_elem. exact Hx.
  - intros _ d2 (T2 & V2 & R2 & N2). apply wp_ret. split; [|split; [by eapply rest_trans|lia]].
    intros k. destruct (fold_value f k) as [v|] eqn:E; cbn [default].
    + destruct (is_remote k) eqn:Ek; [|eapply toward_reached; [done|done|by apply V1]].
      destruct k as [| |r n]; try done. apply (V2 (r, n, v)). by apply pair_rows_elem.
    + rewrite (toward_within _ _ _ T2), (toward_within _ _ _ T1) by done. done.
  - intros e d2 (W2 & R2 & N2). split; [eapply within_trans; [by apply toward_within|done]|]. split; [by eapply rest_trans|lia].
Qed.
End shared.
