(* ===== verification/RefRecover.v ===== *)
(** * The chokepoints over the log

    The manager's state, what the log and the files together say of a ref, and the class-wise
    catching up that logical reads and writes of [refs_manager.rs] start with. *)

From S2P Require Import Prelude Text RefNames RefText RefDisk RefSummary RefStore RefPublish RefPack RefCas.
From S2P Require Import OpRecords OpLog OpLogSpec OpIndex OpSegments OpOps RefFold RefReconcile RefFoldSpec RefWatermark RefMaterialize RefShared.
Import Text RefText RefDisk RefSummary RefStore RefReconcile.
Import OpRecords(OpRecord, OpEntry, operation, e_id).
Import RefFold(RefClass, Fold, loaded, republish, remote_updates, undo_recovery).

(** ** Reasoning about [rio] *)

Definition rwp {A} (m : rio A) (Q : A → Env → Prop) (R : RefError → Env → Prop) (e : Env) : Prop :=
  match m e with
  | (Ok a, e') => Q a e'
  | (Err x, e') => R x e'
  | _ => False
  end.

Lemma rwp_mono {A} (m : rio A) (Q Q' : A → Env → Prop) (R R' : RefError → Env → Prop) e :
  rwp m Q R e → (∀ a e', Q a e' → Q' a e') → (∀ x e', R x e' → R' x e') → rwp m Q' R' e.
Proof. unfold rwp. destruct (m e) as [[] ?]; auto. Qed.
Lemma rwp_ret {A} (a : A) (Q : A → Env → Prop) R e : Q a e → rwp (mret a) Q R e.
Proof. done. Qed.
Lemma rwp_bind {A B} (m : rio A) (f : A → rio B) Q R e : rwp m (λ a e', rwp (f a) Q R e') R e → rwp (m ≫= f) Q R e.
Proof. unfold rwp, mbind, rio_bind. by destruct (m e) as [[] ?]. Qed.
Lemma rwp_get (Q : Env → Env → Prop) R e : Q e e → rwp get_env Q R e.
Proof. done. Qed.
Lemma rwp_disk {A} (m : io A) (Q : A → Env → Prop) (R : RefError → Env → Prop) e :
  wp m (λ a d', Q a (set_disk d' e)) (λ x d', R x (set_disk d' e)) (disk e) → rwp (on_disk m) Q R e.
Proof. unfold rwp, wp, on_disk. by destruct (m (disk e)) as [[] ?]. Qed.
Lemma rwp_ignore {A} (m : rio A) (Q : unit → Env → Prop) R e :
  rwp m (λ _ e', Q tt e') (λ _ e', Q tt e') e → rwp (rio_ignore m) Q R e.
Proof. unfold rwp, rio_ignore. by destruct (m e) as [[] ?]. Qed.
Lemma rwp_store class v (Q : unit → Env → Prop) R e : Q tt (set_watermark class v e) → rwp (store_watermark class v) Q R e.
Proof. done. Qed.

Lemma set_disk_same e : set_disk (disk e) e = e.
Proof. by destruct e. Qed.

(** A failing operation was met, or could have been. *)
Definition faulty (e : Env) : Prop := (0 < nf (disk e))%nat.

(** ** What is replayed *)

Lemma window_empty since lane es : zlen es ≤ since → numbered 1 es → window since lane es = [].
Proof.
  intros Hs Hn. unfold window. rewrite after_none; [done|]. apply Forall_forall. intros x Hx.
  pose proof (numbered_bounds 1 es x Hn Hx). lia.
Qed.

Lemma recent_fold log es since lane : log_of log es → 0 ≤ since → ∃ bs,
  OpLog.recent_batches_after_scoped log since USIZE_MAX lane = Ok bs ∧
  RefFold.replayed bs since = window since lane es ∧
  RefFold.fold_batches bs since = fold_ops (operation <$> window since lane es).
Proof.
  intros Hl Hs. destruct (log_of_count _ _ Hl) as (_ & _ & Hz).
  exists (query (after since es) USIZE_MAX (λ _, true) lane). split.
  - apply collect_ok; [done|done|]. unfold USIZE_MAX. lia.
  - assert (RefFold.replayed (query (after since es) USIZE_MAX (λ _, true) lane) since = window since lane es) as E.
    { apply replayed_window; [by eapply numbered_increasing, log_of_numbered|]. unfold U32_MAX, USIZE_MAX in *. lia. }
    split; [exact E|]. by rewrite fold_batches_ops, E.
Qed.

Section recover.
Context `{Base32Laws} `{RefSyntaxLaws}.
Context (checkout : Z) (op_scope : list Z).

(** [refresh_persisted_watermark] on values *)
Definition refreshed (cached : Z) (persisted : option Z) : Z :=
  match persisted with
  | None => cached
  | Some p => if cached =? WATERMARK_UNSET then p else Z.max cached p
  end.

(** Where the fold of a class starts *)
Definition class_mark (class : RefClass) (e : Env) : Z :=
  refreshed (class_watermark class e) (mark (files (disk e)) (watermark_path checkout class)).
Definition floor (class : RefClass) (e : Env) : Z := since_of (class_mark class e).

(** What the committed records above the floor say of the refs of a class *)
Definition class_window (class : RefClass) (e : Env) (es : list OpEntry) : list OpEntry := window (floor class e) (class_scope op_scope class) es.
Definition class_fold (class : RefClass) (e : Env) (es : list OpEntry) : Fold := fold_ops (operation <$> class_window class e es).

(** The value of a shared ref: what the newest committed record above the floor gives it, else
    what its file holds *)
Definition view (e : Env) (es : list OpEntry) (k : ref_key) : option (list Z) :=
  default (ref_value (files (disk e)) k) (fold_value (class_fold RefFold.Shared e es) k).

Record ready (e : Env) (es : list OpEntry) : Prop := {
  rd_clean : clean (files (disk e));
  rd_log : log_of (oplog e) es;
  rd_records : Forall (λ x, record_ok (operation x)) es;
  rd_cached : ∀ class, class_watermark class e = WATERMARK_UNSET ∨ 0 ≤ class_watermark class e ≤ zlen es;
  rd_readable : ∀ class, readable (files (disk e)) (watermark_path checkout class);
  rd_mark : ∀ class v, mark (files (disk e)) (watermark_path checkout class) = Some v → v ≤ zlen es;
}.

Lemma ready_tip e es : ready e es → generation (oplog e) = zlen es ∧ zlen es ≤ U32_MAX ∧ numbered 1 es.
Proof.
  intros Hr. destruct (log_of_count _ _ (rd_log _ _ Hr)) as (_ & Hh & Hz). split; [done|]. split; [done|].
  by eapply log_of_numbered, rd_log.
Qed.

Lemma fold_records_ok e es class : ready e es → fold_ok (class_fold class e es) ∧ Forall (λ x, record_ok (operation x)) (class_window class e es).
Proof.
  intros Hr. assert (Forall (λ x, record_ok (operation x)) (class_window class e es)) as Hw.
  { apply Forall_forall. intros x Hx%list_elem_of_In. unfold class_window, window, after in Hx.
    apply filter_In in Hx as [Hx _]. apply filter_In in Hx as [Hx _]. apply list_elem_of_In in Hx.
    by apply (proj1 (Forall_forall _ _) (rd_records _ _ Hr)). }
  split; [|done]. apply fold_ops_ok. by apply Forall_fmap.
Qed.

Lemma class_mark_bound e es class : ready e es → class_mark class e = WATERMARK_UNSET ∨ 0 ≤ class_mark class e ≤ zlen es.
Proof.
  intros Hr. unfold class_mark, refreshed. pose proof (rd_cached _ _ Hr class) as Hc. pose proof (zlen_nonneg es).
  destruct (mark _ _) as [p|] eqn:E; [|done]. pose proof (mark_bound _ _ _ E). apply (rd_mark _ _ Hr) in E.
  destruct (Z.eqb_spec (class_watermark class e) WATERMARK_UNSET); [right; lia|]. destruct Hc; [done|]. right. lia.
Qed.

Lemma floor_bound e es class : ready e es → 0 ≤ floor class e ≤ zlen es.
Proof.
  intros Hr. unfold floor, since_of. pose proof (zlen_nonneg es). destruct (class_mark_bound e es class Hr) as [->|Hb]; [rewrite Z.eqb_refl; lia|].
  destruct (_ =? _); lia.
Qed.

(** A class whose watermark covers the tip has nothing to fold. *)
Lemma covered_window e es class v : ready e es → watermark_covers v (zlen es) = true →
  v = class_watermark class e ∨ v = class_mark class e → class_window class e es = [].
Proof.
  intros Hr Hc Hv. destruct (ready_tip _ _ Hr) as (_ & Hz & Hn). unfold watermark_covers in Hc.
  apply andb_true_iff in Hc as [Hu Hc]. apply negb_true_iff, Z.eqb_neq in Hu. apply Z.leb_le in Hc.
  apply window_empty; [|done]. unfold floor, since_of.
  assert (zlen es ≤ class_mark class e ∧ class_mark class e ≠ WATERMARK_UNSET) as [Hle Hne].
  { destruct Hv as [->|<-]; [|done]. unfold class_mark, refreshed. destruct (mark _ _) as [p|] eqn:E; [|done].
    rewrite (proj2 (Z.eqb_neq _ _)) by done. apply (rd_mark _ _ Hr) in E. unfold WATERMARK_UNSET, U64_MAX, U32_MAX in *.
    destruct (rd_cached _ _ Hr class) as [?|?]; [done|]. lia. }
  by rewrite (proj2 (Z.eqb_neq _ _)).
Qed.

Lemma covered_view e es v k : ready e es → watermark_covers v (zlen es) = true →
  v = cached_shared e ∨ v = class_mark RefFold.Shared e → view e es k = ref_value (files (disk e)) k.
Proof.
  intros Hr Hc Hv. unfold view, class_fold. rewrite (covered_window e es RefFold.Shared v Hr Hc Hv). by destruct k.
Qed.

(** ** Moving a watermark *)

Lemma set_watermark_disk class v e : disk (set_watermark class v e) = disk e ∧ oplog (set_watermark class v e) = oplog e.
Proof. by destruct class. Qed.
Lemma class_watermark_set class class' v e :
  class_watermark class' (set_watermark class v e) = if decide (class' = class) then v else class_watermark class' e.
Proof. by destruct class, class'. Qed.

Lemma refresh_run class e : readable (files (disk e)) (watermark_path checkout class) →
  refresh_persisted_watermark checkout class e = (Ok tt, set_watermark class (class_mark class e) e).
Proof.
  intros Hr. unfold refresh_persisted_watermark, on_disk, mbind, rio_bind. rewrite read_mark by done. rewrite set_disk_same.
  unfold class_mark, refreshed. destruct (mark _ _) as [p|]; [done|]. by destruct class, e.
Qed.

Lemma refreshed_idemp c m : refreshed (refreshed c m) m = refreshed c m.
Proof.
  unfold refreshed. destruct m as [p|]; [|done]. destruct (Z.eqb_spec c WATERMARK_UNSET) as [->|Hne].
  - destruct (Z.eqb_spec p WATERMARK_UNSET); [done|]. lia.
  - destruct (Z.eqb_spec (Z.max c p) WATERMARK_UNSET); [|lia]. lia.
Qed.

(** Refreshing a watermark changes neither the floors nor what is ready. *)
Lemma refreshed_mark class class' e : class_mark class' (set_watermark class (class_mark class e) e) = class_mark class' e.
Proof.
  unfold class_mark. rewrite class_watermark_set. rewrite (proj1 (set_watermark_disk _ _ _)).
  destruct (decide (class' = class)) as [->|]; [|done]. apply refreshed_idemp.
Qed.

Lemma refreshed_ready class e es : ready e es → ready (set_watermark class (class_mark class e) e) es.
Proof.
  intros Hr. pose proof (class_mark_bound e es class Hr) as Hb. pose proof Hr as [Hc Hl Ho Hw Hrd Hm].
  destruct (set_watermark_disk class (class_mark class e) e) as [Ed El].
  split; rewrite ?Ed, ?El; try done. intros class'. rewrite class_watermark_set. destruct (decide (class' = class)); [done|apply Hw].
Qed.

Lemma refreshed_view class e es k : view (set_watermark class (class_mark class e) e) es k = view e es k.
Proof.
  unfold view, class_fold, class_window, floor. rewrite refreshed_mark. by destruct (set_watermark_disk class (class_mark class e) e) as [-> _].
Qed.

(** ** Persisting *)

(** Only the watermark files moved, to the watermarks [w] and no further than [tip]. *)
Record marked (w : RefClass → Z) (d d' : Disk) (tip : Z) : Prop := {
  mk_files : ∀ q, (∀ class, q ≠ watermark_path checkout class) → files d' !! q = files d !! q;
  mk_readable : ∀ class, readable (files d') (watermark_path checkout class);
  mk_bound : ∀ class v, mark (files d') (watermark_path checkout class) = Some v → v ≤ tip;
  mk_step : ∀ class, mark (files d') (watermark_path checkout class) = mark (files d) (watermark_path checkout class) ∨
    mark (files d') (watermark_path checkout class) = advanced (w class) (mark (files d) (watermark_path checkout class));
  mk_faults : (nf d' ≤ nf d)%nat;
}.

Lemma watermark_path_inj class class' : watermark_path checkout class = watermark_path checkout class' → class = class'.
Proof. by destruct class, class'. Qed.

Lemma mark_ext fs fs' p : fs' !! p = fs !! p → mark fs' p = mark fs p.
Proof. intros E. unfold mark. by rewrite E. Qed.

Lemma advanced_idemp v m : advanced v (advanced v m) = advanced v m.
Proof. unfold advanced. destruct (v =? WATERMARK_UNSET); [done|]. f_equal. cbn [default Datatypes.id]. lia. Qed.

Lemma advance_marked w class v d d' d0 tip : marked w d0 d tip → w class = v → 0 ≤ tip → (v = WATERMARK_UNSET ∨ 0 ≤ v ≤ tip) →
  tip ≤ U32_MAX →
  files d' = advance_file (watermark_path checkout class) v (files d) → (nf d' ≤ nf d)%nat → marked w d0 d' tip.
Proof.
  intros [F R B S N] Ew Ht Hv Hmax E N'. assert (0 ≤ v ≤ U64_MAX) as Hv' by (unfold WATERMARK_UNSET, U64_MAX, U32_MAX in *; lia).
  split; [| | | |lia].
  - intros q Hq. rewrite E, advance_other by apply Hq. by apply F.
  - intros class'. rewrite E. destruct (decide (class' = class)) as [->|Hne]; [by apply advance_readable|].
    intros c. rewrite advance_other by by intros ?%watermark_path_inj. apply R.
  - intros class' x. rewrite E. destruct (decide (class' = class)) as [->|Hne].
    + rewrite advance_mark by done. unfold advanced. destruct (Z.eqb_spec v WATERMARK_UNSET) as [->|Hu]; [apply B|].
      intros [= <-]. destruct (mark (files d) _) as [m|] eqn:Em; [apply B in Em|]; cbn; destruct Hv; lia.
    + rewrite (mark_ext (files d)) by (by rewrite advance_other by by intros ?%watermark_path_inj). apply B.
  - intros class'. rewrite E. destruct (decide (class' = class)) as [->|Hne].
    + right. rewrite advance_mark, Ew by done. destruct (S class) as [->| ->]; [done|]. by rewrite Ew, advanced_idemp.
    + rewrite (mark_ext (files d)) by (by rewrite advance_other by by intros ?%watermark_path_inj). apply S.
Qed.

Lemma persist_spec e tip : (∀ class, class_watermark class e = WATERMARK_UNSET ∨ 0 ≤ class_watermark class e ≤ tip) → 0 ≤ tip ≤ U32_MAX →
  (∀ class, readable (files (disk e)) (watermark_path checkout class)) →
  (∀ class v, mark (files (disk e)) (watermark_path checkout class) = Some v → v ≤ tip) →
  rwp (persist_reconcile_watermark checkout) (λ _ e', ∃ d', e' = set_disk d' e ∧ marked (λ cl, class_watermark cl e) (disk e) d' tip)
    (λ _ e', ∃ d', e' = set_disk d' e ∧ marked (λ cl, class_watermark cl e) (disk e) d' tip) e.
Proof.
  intros Hw Ht Hrd Hm. set (w := λ cl, class_watermark cl e).
  assert (marked w (disk e) (disk e) tip) as M0 by (split; auto).
  assert (∀ class v d, class_watermark class e = v → marked w (disk e) d tip →
    wp (persist_watermark_file (watermark_path checkout class) v) (λ _ d', marked w (disk e) d' tip) (λ _ d', marked w (disk e) d' tip) d) as Hp.
  { intros class v d Ev M. eapply wp_mono; [apply wp_persist, M|..]; cbv beta.
    - intros _ d' [E N]. eapply (advance_marked w class v d); try done; [lia|by rewrite <- Ev|lia].
    - intros x d' [[E|E] N].
      + destruct M as [F R B S Nm]. split; rewrite ?E; try done. lia.
      + eapply (advance_marked w class v d); try done; [lia|by rewrite <- Ev|lia|lia]. }
  unfold persist_reconcile_watermark. apply rwp_bind, rwp_get, rwp_bind, rwp_disk.
  eapply wp_mono; [apply (Hp RefFold.Local); [done|exact M0]|..]; cbv beta; [|by intros x d' M; exists d'].
  intros _ d1 M1. apply rwp_disk. change (disk (set_disk d1 e)) with d1.
  eapply wp_mono; [apply (Hp RefFold.Shared); [done|exact M1]|..]; cbv beta; intros ? d2 M2; by exists d2.
Qed.

(** ** Catching a class up *)

(** The manager has caught [class] up to [tip], from the files [d]. *)
Definition settled (class : RefClass) (tip : Z) (e : Env) (d : Disk) (e' : Env) : Prop :=
  ∃ d', marked (λ cl, class_watermark cl (set_watermark class tip e)) d d' tip ∧ e' = set_disk d' (set_watermark class tip e).

Lemma catch_up_spec req raw v e es (M N : Disk → Prop) : let class := RefFold.ref_class req in
  ready e es → class_watermark class e = class_mark class e →
  (∀ d, reconciled_value req raw (class_fold class e es) d = (Ok v, d)) →
  (∀ out, (republish out, remote_updates out, undo_recovery out) = RefFold.class_materialization class (class_fold class e es) →
     wp (materialize checkout out) (λ _ d', M d') (λ _ d', N d') (disk e)) →
  (∀ d', M d' → (∀ cl, files d' !! watermark_path checkout cl = files (disk e) !! watermark_path checkout cl)) →
  rwp (catch_up checkout op_scope req raw (class_watermark class e) (zlen es))
    (λ v' e', v' = v ∧ ∃ d, M d ∧ settled class (zlen es) e d e') (λ _ e', ∃ d, N d ∧ e' = set_disk d e) e.
Proof.
  intros class Hr Hcm Hv Hmat HM. destruct (ready_tip _ _ Hr) as (Hg & Hz & _). pose proof (floor_bound e es class Hr) as Hf.
  assert (since_of (class_watermark class e) = floor class e) as Hs by (unfold floor; by rewrite <- Hcm).
  unfold catch_up. apply rwp_bind, rwp_get, rwp_bind, rwp_disk.
  destruct (recent_fold (oplog e) es (floor class e) (class_scope op_scope class) (rd_log _ _ Hr) (proj1 Hf)) as (bs & Eb & _ & Ef).
  change (fold_ops (operation <$> window (floor class e) (class_scope op_scope class) es)) with (class_fold class e es) in Ef.
  assert (∃ out, reconcile op_scope (oplog e) req raw (since_of (class_watermark class e)) (disk e) = (Ok out, disk e) ∧
    loaded out = v ∧ (republish out, remote_updates out, undo_recovery out) = RefFold.class_materialization class (class_fold class e es)) as (out & Eo & Ev & Em).
  { unfold reconcile. rewrite Hs. fold class.
    assert (log_io (OpLog.recent_batches_after_scoped (oplog e) (floor class e) USIZE_MAX (class_scope op_scope class)) (disk e) =
      (Ok bs, disk e)) as E1 by by rewrite Eb.
    rewrite (run_bind _ _ _ _ _ E1), Ef. destruct (RefFold.class_materialization class (class_fold class e es)) as [[rp rm] un].
    rewrite (run_bind _ _ _ _ _ (Hv (disk e))). eexists. split; [done|]. done. }
  unfold wp at 1. rewrite Eo, set_disk_same. apply rwp_bind, rwp_disk. eapply wp_mono; [by apply Hmat|..]; cbv beta.
  2:{ intros x d1 Hn. by exists d1. }
  intros _ d1 Hm1. apply rwp_bind, rwp_store. fold class. set (e1 := set_watermark class (zlen es) (set_disk d1 e)).
  assert (disk e1 = d1) as Ed by (by destruct (set_watermark_disk class (zlen es) (set_disk d1 e))).
  assert (∀ cl, files d1 !! watermark_path checkout cl = files (disk e) !! watermark_path checkout cl) as Hk by by apply HM.
  apply rwp_bind, rwp_ignore. eapply rwp_mono; [apply (persist_spec e1 (zlen es))|..]; cbv beta.
  - intros cl. unfold e1. rewrite class_watermark_set. destruct (decide (cl = class)); [right; pose proof (zlen_nonneg es); lia|].
    exact (rd_cached _ _ Hr cl).
  - pose proof (zlen_nonneg es). lia.
  - intros cl c. rewrite Ed, Hk. apply (rd_readable _ _ Hr).
  - intros cl w. rewrite Ed, (mark_ext (files (disk e))) by apply Hk. apply (rd_mark _ _ Hr).
  - intros _ e' (d' & -> & Mk). apply rwp_ret. split; [done|]. exists d1. split; [done|]. exists d'. rewrite Ed in Mk.
    unfold e1 in *. split; [|by destruct class]. by destruct class.
  - intros x e' (d' & -> & Mk). apply rwp_ret. split; [done|]. exists d1. split; [done|]. exists d'. rewrite Ed in Mk.
    unfold e1 in *. split; [|by destruct class]. by destruct class.
Qed.

(** The log, what it says of the shared refs and the witness of a snapshot are as before. *)
Record view_kept (e e' : Env) (es : list OpEntry) : Prop := {
  vk_ready : ready e' es;
  vk_log : oplog e' = oplog e;
  vk_view : ∀ k, view e' es k = view e es k;
  vk_witness : files (disk e') !! PWitnessShared = files (disk e) !! PWitnessShared;
}.

Lemma view_kept_refl e es : ready e es → view_kept e e es.
Proof. by split. Qed.
Lemma view_kept_trans e e' e'' es : view_kept e e' es → view_kept e' e'' es → view_kept e e'' es.
Proof. intros [R L V W] [R' L' V' W']. split; [done|congruence| |congruence]. intros k. by rewrite V', V. Qed.

Lemma refreshed_kept class e es : ready e es → view_kept e (set_watermark class (class_mark class e) e) es.
Proof.
  intros Hr. split; [by apply refreshed_ready|by destruct (set_watermark_disk class (class_mark class e) e)| |by destruct class].
  intros k. apply refreshed_view.
Qed.

(** Files replaced while the manager's memory stays *)
Lemma ready_disk e es d : ready e es → clean (files d) →
  (∀ class, files d !! watermark_path checkout class = files (disk e) !! watermark_path checkout class) →
  ready (set_disk d e) es ∧ ∀ class, class_mark class (set_disk d e) = class_mark class e.
Proof.
  intros [Hc Hl Ho Hw Hrd Hm] Hcd Hk. split.
  - split; try done.
    + intros class c. cbn [disk set_disk]. rewrite Hk. apply Hrd.
    + intros class v. cbn [disk set_disk]. rewrite (mark_ext (files (disk e))) by apply Hk. apply Hm.
  - intros class. unfold class_mark. cbn [disk set_disk]. rewrite (mark_ext (files (disk e))) by apply Hk. by destruct class.
Qed.

Lemma view_disk e es d : (∀ class, class_mark class (set_disk d e) = class_mark class e) →
  within (class_fold RefFold.Shared e es) (files (disk e)) (files d) → ∀ k, view (set_disk d e) es k = view e es k.
Proof.
  intros Hm Hw k. unfold view. assert (class_fold RefFold.Shared (set_disk d e) es = class_fold RefFold.Shared e es) as ->.
  { unfold class_fold, class_window, floor. by rewrite Hm. }
  specialize (Hw k). destruct (fold_value _ k); [done|]. by apply Hw.
Qed.

Lemma covers_tip tip : tip ≤ U32_MAX → watermark_covers tip tip = true.
Proof.
  intros Ht. unfold watermark_covers. rewrite (proj2 (Z.eqb_neq _ _)); [by rewrite Z.leb_refl|].
  unfold WATERMARK_UNSET, U64_MAX, U32_MAX in *. lia.
Qed.

Lemma marked_ext w d d' tip q : marked w d d' tip → (∀ class, q ≠ watermark_path checkout class) → files d' !! q = files d !! q.
Proof. intros M. apply M. Qed.

Lemma key_not_mark k class : key_path k ≠ watermark_path checkout class.
Proof. by destruct k, class. Qed.

Lemma marked_refs w d d' tip : marked w d d' tip → clean (files d) →
  clean (files d') ∧ (∀ k, ref_value (files d') k = ref_value (files d) k) ∧ ∀ co, head_value (files d') co = head_value (files d) co.
Proof.
  intros M Hc. split; [|split].
  - apply clean_good. intros p c E.
    destruct (decide (p = watermark_path checkout RefFold.Local)) as [->|Hl]; [done|].
    destruct (decide (p = watermark_path checkout RefFold.Shared)) as [->|Hs]; [done|].
    rewrite (marked_ext _ _ _ _ p M) in E by (by intros []). exact (proj1 (clean_good _) Hc p c E).
  - intros k. unfold ref_value, packed_of. rewrite !(marked_ext _ _ _ _ _ M) by (intros []; done || apply key_not_mark). done.
  - intros co. unfold head_value. by rewrite (marked_ext _ _ _ _ _ M) by by intros [].
Qed.

(** A settled class: the state is ready and its watermark covers the tip. *)
Lemma settled_ready class e d e' es : ready e es → settled class (zlen es) e d e' → clean (files d) →
  ready e' es ∧ oplog e' = oplog e ∧ class_watermark class e' = zlen es ∧
  (∀ cl, cl ≠ class → class_watermark cl e' = class_watermark cl e) ∧ (nf (disk e') ≤ nf d)%nat ∧
  (∀ k, ref_value (files (disk e')) k = ref_value (files d) k) ∧ ∀ co, head_value (files (disk e')) co = head_value (files d) co.
Proof.
  intros Hr (d' & M & ->) Hc. destruct (marked_refs _ _ _ _ M Hc) as (Hcd & Hv & Hh). pose proof (zlen_nonneg es).
  pose proof Hr as [_ Hl Ho Hw _ _]. split.
  { split; [done| |done| | |].
    - by destruct class.
    - intros cl. assert (class_watermark cl (set_disk d' (set_watermark class (zlen es) e)) = class_watermark cl (set_watermark class (zlen es) e)) as -> by by destruct cl.
      rewrite class_watermark_set. destruct (decide (cl = class)); [right; lia|apply Hw].
    - apply M.
    - apply M. }
  split; [by destruct class|]. split; [by destruct class|]. split; [intros []; by destruct class|]. split; [apply M|]. by split.
Qed.

Lemma settled_witness class tip e d e' : settled class tip e d e' → files (disk e') !! PWitnessShared = files d !! PWitnessShared.
Proof. intros (d' & M & ->). apply M. by intros []. Qed.

Lemma caught_view e' es : ready e' es → cached_shared e' = zlen es → ∀ k, view e' es k = ref_value (files (disk e')) k.
Proof.
  intros Hr Hc k. destruct (ready_tip _ _ Hr) as (_ & Hz & _). apply (covered_view _ _ (cached_shared e')); [done| |by left].
  rewrite Hc. by apply covers_tip.
Qed.

Lemma catch_up_shared req raw v e es : RefFold.ref_class req = RefFold.Shared → ready e es → (nf (disk e) ≤ 1)%nat →
  cached_shared e = class_mark RefFold.Shared e →
  (∀ d, reconciled_value req raw (class_fold RefFold.Shared e es) d = (Ok v, d)) →
  rwp (catch_up checkout op_scope req raw (cached_shared e) (zlen es))
    (λ v' e', v' = v ∧ view_kept e e' es ∧ cached_shared e' = zlen es ∧ cached_local e' = cached_local e ∧
      (nf (disk e') ≤ nf (disk e))%nat)
    (λ _ e', view_kept e e' es ∧ faulty e) e.
Proof.
  intros Hclass Hr Hnf Hcm Hv. pose proof (fold_records_ok e es RefFold.Shared Hr) as [Hfo _].
  set (f := class_fold RefFold.Shared e es) in *. assert (∀ d', rest_kept (files (disk e)) (files d') →
    ∀ cl, files d' !! watermark_path checkout cl = files (disk e) !! watermark_path checkout cl) as Hside.
  { intros d' Hrk cl. apply Hrk. by destruct cl. }
  pose proof (catch_up_spec req raw v e es
    (λ d', folded f (files (disk e)) (files d') ∧ rest_kept (files (disk e)) (files d') ∧ (nf d' ≤ nf (disk e))%nat)
    (λ d', within f (files (disk e)) (files d') ∧ rest_kept (files (disk e)) (files d') ∧ faulty e)) as Hcu.
  cbv zeta in Hcu. rewrite Hclass in Hcu. eapply rwp_mono; [apply Hcu|..]; cbv beta; [done|done|done|..].
  - intros out Ho. apply (materialize_shared checkout f out); [apply Hr|done|done|done].
  - intros d' (_ & Hrk & _). by apply Hside.
  - intros v' e' (-> & d & (Hfold & Hrk & Hn) & Hs). split; [done|].
    destruct (settled_ready _ _ _ _ _ Hr Hs (rk_clean _ _ Hrk)) as (Hr' & Hl' & Hw' & Hlw' & Hn' & Hv' & _).
    split; [|split; [done|split; [by apply (Hlw' RefFold.Local)|lia]]].
    split; [done|done| |rewrite (settled_witness _ _ _ _ _ Hs); by apply Hrk]. intros k.
    rewrite (caught_view e') by done. by rewrite Hv', Hfold.
  - intros x e' (d & (Hw & Hrk & Hf) & ->). split; [|done].
    destruct (ready_disk e es d Hr (rk_clean _ _ Hrk) (Hside d Hrk)) as [Hr' Hm']. split; [done|done|by apply view_disk|by apply Hrk].
Qed.

End recover.

(** C5. The reconciler folds the newest word. What it gathers from the indexed log above a watermark,
    for a lane or for all of them, is for every ref its newest committed change there, for HEAD the
    newest record that moves it, and the newest undo pointer. Undone entries say nothing, and of a
    lane's batches only those whose entries are all of the lane speak. *)
Theorem fold_newest_change log es since class lane_name : log_of log es → 0 ≤ since → ∃ bs,
  OpLog.recent_batches_after_scoped log since USIZE_MAX (class_scope lane_name class) = Ok bs ∧
  let ops := operation <$> window since (class_scope lane_name class) es in
  let f := RefFold.fold_batches bs since in
  (∀ k, fold_value f k = last_change ops k) ∧
  RefFold.f_head f = default RefFold.Untouched (last (omap op_head ops)) ∧
  RefFold.f_undo f = last (omap op_undo ops).
Proof.
  intros Hl Hs. destruct (recent_fold log es since (class_scope lane_name class) Hl Hs) as (bs & Eb & _ & Ef).
  exists bs. split; [done|]. cbv zeta. rewrite Ef. apply fold_ops_spec.
Qed.
