(* ===== verification/RefWitness.v ===== *)
(** * Snapshot witnesses

    The file [SNAPSHOT_WITNESS_SHARED] of [crates/refs/src/refs/refs_manager.rs], in which a snapshot
    notes the thread that it published and the log that it saw: what a witness says of the
    log, that [materialize_snapshot_thread_after_commit] writes it so and that it stays so
    while the log grows, and what [snapshot_witnessed_load] makes of it. *)

From S2P Require Import Prelude Text RefNames RefText RefDisk RefSummary RefStore RefPublish RefPack RefCas.
From S2P Require Import OpRecords OpLog OpLogSpec OpIndex OpSegments OpOps RefFold RefReconcile RefFoldSpec RefWatermark RefMaterialize RefShared RefRecover.
Import Text RefText RefDisk RefSummary RefStore RefReconcile.
Import OpRecords(OpRecord, OpEntry, operation, e_id, undone).
Import RefFold(RefClass, Fold, loaded, republish, remote_updates, undo_recovery).

Section witness.
Context `{Base32Laws} `{RefSyntaxLaws}.
Context (checkout : Z) (op_scope : list Z).

(** The text of a witness *)
Definition witness_text (tip : Z) (thread state : list Z) : list Z :=
  to_decimal tip ++ [10] ++ THREAD ++ [10] ++ thread ++ [10] ++ to_string_full state ++ [10].

Definition committed (es : list OpEntry) : list OpEntry := List.filter (λ x, negb (undone x)) es.

(** A snapshot of [thread] to [state] saw a log of [tip] entries. If these are still all of the
    entries of the log, then its newest committed record of the thread is that of the snapshot. *)
Record snapshot_seen (es : list OpEntry) (tip : Z) (thread state : list Z) : Prop := {
  ss_thread : thread_name thread;
  ss_state : id32 state;
  ss_tip : 0 ≤ tip ≤ zlen es;
  ss_newest : tip = zlen es → last_change (operation <$> committed es) (KThread thread) = Some (Some state);
}.

(** The witness, if there is one, is what a snapshot wrote, or was cut before its last line. *)
Definition witnessed (fs : gmap rpath (list Z)) (es : list OpEntry) : Prop :=
  ∀ c, fs !! PWitnessShared = Some c → is_utf8 c = true ∧
    (zlen (text_lines c) < 4 ∨ ∃ tip thread state, c = witness_text tip thread state ∧ snapshot_seen es tip thread state).

(** ** The witness while the log grows *)

Lemma witnessed_append fs es new : witnessed fs es → new ≠ [] → witnessed fs (es ++ new).
Proof.
  intros Hw Hne c Hc. destruct (Hw c Hc) as [Hu [?|(tip & n & s & -> & [Hn Hs Ht _])]]; (split; [done|]); [by left|right].
  exists tip, n, s. split; [done|]. assert (0 < zlen new) by (destruct new; [done|rewrite zlen_cons; pose proof (zlen_nonneg new); lia]).
  split; [done|done|rewrite zlen_app; lia|]. rewrite zlen_app. lia.
Qed.

Lemma witnessed_ext fs fs' es : fs' !! PWitnessShared = fs !! PWitnessShared → witnessed fs es → witnessed fs' es.
Proof. intros E Hw c. rewrite E. apply Hw. Qed.

Lemma witnessed_none fs es : fs !! PWitnessShared = None → witnessed fs es.
Proof. intros E c. by rewrite E. Qed.

(** A window of all lanes says of a ref what the whole log says of it, or nothing. *)
Lemma window_newest since es k v : numbered 1 es →
  last_change (operation <$> window since None es) k = Some v → last_change (operation <$> committed es) k = Some v.
Proof.
  intros Hn. assert (window since None es = committed (after since es)) as ->.
  { unfold window, committed. apply bool_filter_ext. intros x _. unfold in_lane. cbn. apply andb_true_r. }
  intros Hl. rewrite (increasing_split since es) by (by eapply numbered_increasing).
  unfold committed, last_change in *. rewrite List.filter_app, fmap_app, omap_app.
  by rewrite last_app, Hl.
Qed.

(** ** Reading a witness *)

Lemma digits_line ds : Forall digit ds → one_line ds.
Proof. intros Hd. eapply Forall_impl; [exact Hd|]. unfold digit. lia. Qed.

Lemma thread_line n : thread_name n → one_line n.
Proof. intros (Hn & Hv & _). by apply visible_line, name_visible. Qed.

Lemma witness_utf8 tip n s : 0 ≤ tip ≤ U64_MAX → thread_name n → id32 s → is_utf8 (witness_text tip n s) = true.
Proof.
  intros Ht ([_ Hn] & _) Hs. unfold witness_text. rewrite (app_assoc (to_decimal tip) [10]). apply is_utf8_app; [by apply mark_text_utf8|].
  do 2 (apply is_utf8_app; [by vm_compute|]). apply is_utf8_app; [done|]. apply is_utf8_app; [by vm_compute|].
  by apply is_utf8_app; [apply id_utf8|].
Qed.

Lemma witness_text_lines tip n s : 0 ≤ tip ≤ U64_MAX → thread_name n → id32 s →
  text_lines (witness_text tip n s) = [to_decimal tip; THREAD; n; to_string_full s].
Proof.
  intros Ht Hn Hs. destruct (to_decimal_spec tip Ht) as (Hd & _ & _). unfold witness_text.
  change ([10] ++ THREAD ++ ?rest) with (10 :: (THREAD ++ rest)). rewrite text_lines_line by (by apply digits_line).
  change ([10] ++ n ++ ?rest) with (10 :: (n ++ rest)). rewrite text_lines_line by (by repeat constructor).
  change ([10] ++ to_string_full s ++ ?rest) with (10 :: (to_string_full s ++ rest)). rewrite text_lines_line by (by apply thread_line).
  by rewrite text_lines_line by (by apply id_line).
Qed.

(** The request of a point read *)
Definition key_request (k : ref_key) : LoadRequest :=
  match k with KThread n => LThread n | KMarker n => LMarker n | KRemote r n => LRemoteThread r n end.

(** A witness is believed when it saw all of the log and the thread is still what it says: then that
    is what the log and the files together say of the thread. *)
Lemma witnessed_run k e es : ready checkout e es → key_ok k → witnessed (files (disk e)) es →
  ∃ w, snapshot_witnessed_load checkout (key_request k) (zlen es) (disk e) = (Ok w, disk e) ∧
    ∀ l, w = Some l → l = OPoint (view checkout op_scope e es k).
Proof.
  intros Hr Hk Hw. destruct k as [n|n|r n]; cbn [key_request snapshot_witnessed_load]; [|by exists None..].
  destruct (ready_tip _ _ _ Hr) as (_ & Hz & Hnum).
  assert (read_optional_string PWitnessShared (disk e) = (Ok (files (disk e) !! PWitnessShared), disk e)) as E.
  { destruct (files (disk e) !! PWitnessShared) as [c|] eqn:Ec; [apply read_file_ok; [done|by apply Hw]|by apply read_file_none]. }
  rewrite (run_bind _ _ _ _ _ E). clear E.
  destruct (files (disk e) !! PWitnessShared) as [c|] eqn:Ec; [|by exists None].
  destruct (Hw c Ec) as [_ [Hcut|(tip & n' & s & -> & [Hn Hs Ht Hnew])]].
  { unfold witness_lines. cbn [mbind option_bind]. destruct (text_lines c) as [|l0 [|l1 [|l2 [|l3 ls]]]] eqn:El; try by exists None.
    1-3: (destruct (parse_u64 l0); cbn [mbind option_bind]; [|by exists None]; destruct (_ =? _); by exists None).
    exfalso. rewrite !zlen_cons in Hcut. pose proof (zlen_nonneg ls). lia. }
  assert (0 ≤ tip ≤ U64_MAX) as Ht' by (unfold U64_MAX, U32_MAX in *; lia).
  unfold witness_lines. cbn [mbind option_bind]. rewrite witness_text_lines by done.
  destruct (to_decimal_spec tip Ht') as (_ & _ & ->). cbn [mbind option_bind].
  destruct (Z.eqb_spec tip (zlen es)) as [Etip|]; [|by exists None]. cbn [mbind option_bind].
  rewrite bool_decide_true by done. rewrite state_id_roundtrip by done. cbn [mbind option_bind].
  case_bool_decide as En; [subst n'|by exists None].
  rewrite (run_bind _ _ _ _ _ (raw_get_ok (disk e) (KThread n) (rd_clean _ _ _ Hr) Hk : raw_get_thread n (disk e) = _)).
  case_bool_decide as Er; eexists; (split; [done|]); [|done]. intros l [= <-]. f_equal. unfold view, class_fold.
  rewrite (proj1 (fold_ops_spec _)). destruct (last_change (operation <$> class_window checkout op_scope RefFold.Shared e es) (KThread n)) as [v|] eqn:El; [|done].
  apply window_newest in El; [|done]. rewrite Hnew in El by done. injection El as <-. by rewrite Er.
Qed.

(** ** Writing a witness *)

Lemma seen_witnessed fs es tip n s : zlen es ≤ U32_MAX → snapshot_seen es tip n s →
  witnessed (<[PWitnessShared := witness_text tip n s]> fs) es.
Proof.
  intros Hz Hs c. rewrite lookup_insert_eq. intros [= <-]. pose proof (ss_tip _ _ _ _ Hs). split; [|right; by exists tip, n, s].
  apply witness_utf8; [unfold U64_MAX, U32_MAX in *; lia|apply Hs..].
Qed.

Lemma write_witness_spec p c d :
  wp (write_witness p c) (λ _ d', (files d' = files d ∨ files d' = <[p := c]> (files d)) ∧ (nf d' ≤ nf d)%nat) (λ _ _, False) d.
Proof.
  unfold write_witness. apply wp_ignore. change (effect (put_file p c)) with (write_string p c).
  eapply wp_mono; [apply write_spec|..]; cbv beta; [intros _ d' (E & _ & N); split; [by right|done]|].
  intros x d' [E N]. split; [done|lia].
Qed.

(** A snapshot of an attached HEAD, after its commit: the thread is published and noted. *)
Lemma snapshot_witnessed n s tip e es : ready checkout e es → (nf (disk e) ≤ 1)%nat → witnessed (files (disk e)) es →
  snapshot_seen es tip n s →
  rwp (materialize_snapshot_thread_after_commit checkout n s tip)
    (λ _ e', oplog e' = oplog e ∧ ref_value (files (disk e')) (KThread n) = Some s ∧ clean (files (disk e')) ∧
             witnessed (files (disk e')) es)
    (λ _ e', oplog e' = oplog e ∧ clean (files (disk e')) ∧ witnessed (files (disk e')) es ∧ faulty e) e.
Proof.
  intros Hr Hnf Hw Hs. destruct (ready_tip _ _ _ Hr) as (_ & Hz & _). unfold materialize_snapshot_thread_after_commit.
  apply rwp_bind, rwp_disk.
  set (out := {| loaded := OPoint (Some s); republish := [UThread n Any (Some s)]; remote_updates := []; undo_recovery := None |}).
  assert (wp (materialize_with_ref_durability checkout out false)
    (λ _ d', ref_value (files d') (KThread n) = Some s ∧ others_kept (disk e) d') (λ _ d', others_kept (disk e) d' ∧ faulty e) (disk e)) as Hm.
  { unfold wp. rewrite materialize_alt. cbn [republish remote_updates undo_recovery out io_each].
    match goal with |- match ?m ?d with _ => _ end => change (wp m
      (λ _ d', ref_value (files d') (KThread n) = Some s ∧ others_kept (disk e) d') (λ _ d', others_kept (disk e) d' ∧ faulty e) d) end.
    apply wp_bind. eapply wp_mono; [apply (publish_updates_spec checkout [UThread n Any (Some s)] false); [apply Hr| |done]|..]; cbv beta.
    - constructor; [|done]. split; [apply Hs|]. intros i [= <-]. apply Hs.
    - intros _ d1 ((Hv & _) & Hk & _). apply wp_ret. split; [|done].
      destruct (Hv (KThread n)) as [(new & Hin & ->)|[-> Hn]].
      + cbn in Hin. apply list_elem_of_singleton in Hin. by injection Hin as ->.
      + symmetry. apply Hn. by left.
    - intros x d1 (_ & Hk & Hf). by split. }
  eapply wp_mono; [exact Hm|..]; cbv beta.
  2:{ intros x d1 [[Hc Hside] Hf]. split; [done|]. split; [done|]. split; [|done]. eapply witnessed_ext; [by apply Hside|done]. }
  intros _ d1 (Hv & Hc & Hside). apply rwp_bind, rwp_store, rwp_bind, rwp_store, rwp_bind, rwp_disk. cbn [disk set_watermark set_disk].
  eapply wp_mono; [apply write_witness_spec| |done]. cbv beta. intros _ d2 [E2 _]. apply rwp_disk. cbn [disk set_watermark set_disk].
  fold (witness_text tip n s). eapply wp_mono; [apply write_witness_spec| |done]. cbv beta. intros _ d3 [E3 _]. cbn [disk set_disk oplog].
  assert (clean (files d2) ∧ witnessed (files d2) es ∧ ref_value (files d2) (KThread n) = Some s) as (Hc2 & Hw2 & Hv2).
  { assert (witnessed (files d1) es) as Hw1 by (eapply witnessed_ext; [by apply Hside|done]).
    destruct E2 as [-> | ->]; [done|]. split; [by apply clean_put|]. split; [eapply witnessed_ext; [by apply lookup_insert_ne|done]|].
    rewrite <- Hv. unfold ref_value, packed_of. by rewrite !lookup_insert_ne. }
  split; [done|]. destruct E3 as [-> | ->]; [done|]. split; [|split; [by apply clean_put|by apply seen_witnessed]].
  rewrite <- Hv2. unfold ref_value, packed_of. by rewrite !lookup_insert_ne.
Qed.
End witness.
