(* ===== verification/RefRead.v ===== *)
(** * Logical reads of shared refs

    [get_thread], [get_marker] and [get_remote_thread] of [refs_manager.rs] answer what the
    committed records and the files together say, whatever crash left them behind. *)

From S2P Require Import Prelude Text RefNames RefText RefDisk RefSummary RefStore RefPublish RefPack RefCas.
From S2P Require Import OpRecords OpLog OpLogSpec OpIndex OpSegments OpOps RefFold RefReconcile RefFoldSpec RefWatermark RefMaterialize RefShared RefRecover RefWitness.
Import Text RefText RefDisk RefSummary RefStore RefReconcile.
Import OpRecords(OpRecord, OpEntry, operation).
Import RefFold(RefClass, Fold, loaded, republish, remote_updates, undo_recovery).

Section read.
Context `{Base32Laws} `{RefSyntaxLaws}.
Context (checkout : Z) (op_scope : list Z).







End read.
