(* ===== verification/RefLocal.v ===== *)
(** * The refs of one checkout, and the start of every write

    Catching up HEAD and the undo pointer, which may republish the thread that HEAD is attached
    to, and [materialize_committed_tail] ([refs_manager.rs]): both classes caught up before a
    write. *)

From S2P Require Import Prelude Text RefNames RefText RefDisk RefSummary RefStore RefPublish RefPack RefCas.
From S2P Require Import OpRecords OpLog OpLogSpec OpIndex OpSegments OpOps RefFold RefReconcile RefFoldSpec RefWatermark RefMaterialize RefShared RefRecover.
Import Text RefText RefDisk RefSummary RefStore RefReconcile.
Import OpRecords(OpRecord, OpEntry, operation, undone).
Import RefFold(RefClass, Fold, loaded, republish, remote_updates, undo_recovery).

Section local.
Context `{Base32Laws} `{RefSyntaxLaws}.
Context (checkout : Z) (op_scope : list Z).

(** What a local fold may hold *)
Record local_ok (f : Fold) : Prop := {
  lo_refs : fold_ok f;
  lo_head : ∀ h, RefFold.f_head f = RefFold.Republish h → head_ok h;
  lo_undo : ∀ s, RefFold.f_undo f = Some s → id32 s;
}.

Lemma last_omap_in {A B} (g : A → option B) l b : last (omap g l) = Some b → ∃ a, a ∈ l ∧ g a = Some b.
Proof. intros Hl%last_Some_elem_of. by apply list_elem_of_omap in Hl. Qed.

Lemma fold_ops_local ops : Forall record_ok ops → local_ok (fold_ops ops).
Proof.
  intros Hok. destruct (fold_ops_spec ops) as (_ & Eh & Eu). rewrite Forall_forall in Hok. split.
  - apply fold_ops_ok. by apply Forall_forall.
  - intros h. rewrite Eh. destruct (last (omap op_head ops)) as [x|] eqn:E; [|done]. cbn. intros ->.
    apply last_omap_in in E as (op & Hop & E). exact (ro_head _ (Hok op Hop) h E).
  - intros s. rewrite Eu. intros E. apply last_omap_in in E as (op & Hop & E). exact (ro_undo _ (Hok op Hop) s E).
Qed.

Definition local_updates (f : Fold) : list RefUpdate := (RefFold.class_materialization RefFold.Local f).1.1.

Lemma local_changes f c : c ∈ change_of <$> local_updates f →
  match c with CHead h => RefFold.f_head f = RefFold.Republish h | CRef k v => fold_value f k = Some v end.
Proof.
  unfold local_updates. cbn [RefFold.class_materialization fst]. destruct (RefFold.f_head f) as [|h|]; [by intros ?%elem_of_nil| |by intros ?%elem_of_nil].
  rewrite fmap_cons. intros [->|Hc]%elem_of_cons; [done|]. destruct h as [t|s]; [|by apply elem_of_nil in Hc].
  destruct (RefFold.f_threads f !! t) as [v|] eqn:E; [|by apply elem_of_nil in Hc].
  cbn [fmap list_fmap change_of] in Hc. apply list_elem_of_singleton in Hc as ->. exact E.
Qed.

Lemma local_head_in f h : RefFold.f_head f = RefFold.Republish h → CHead h ∈ change_of <$> local_updates f.
Proof. intros E. unfold local_updates. cbn [RefFold.class_materialization fst]. rewrite E. by left. Qed.

Lemma local_changes_ok f : local_ok f → Forall change_ok (change_of <$> local_updates f).
Proof.
  intros [Hr Hh _]. apply Forall_forall. intros [k v|h] Hc%local_changes; [exact (Hr _ _ Hc)|exact (Hh _ Hc)].
Qed.

(** The HEAD of the checkout after a fold *)
Definition folded_head (f : Fold) (h : Head) : Head := match RefFold.f_head f with RefFold.Republish h' => h' | _ => h end.

(** What catching up the local class leaves of the files *)
Record local_kept (f : Fold) (fs fs' : gmap rpath (list Z)) : Prop := {
  lk_refs : within f fs fs';
  lk_clean : clean fs';
  lk_side : ∀ q, side_file q → q ≠ PUndo checkout → fs' !! q = fs !! q;
}.

Lemma made_head us fs fs' h0 : made checkout us fs fs' → (∀ h, CHead h ∈ change_of <$> us ↔ h0 = RefFold.Republish h) →
  head_value fs' checkout = match h0 with RefFold.Republish h => h | _ => head_value fs checkout end.
Proof.
  intros (_ & [(h & Hin & E)|[E Hn]] & _) Hus.
  - apply Hus in Hin. by rewrite Hin.
  - destruct h0 as [|h|]; try done. rewrite E. symmetry. apply Hn. by apply Hus.
Qed.

Lemma undo_spec s d : clean (files d) → id32 s →
  wp (current ← read_state_id_at (PUndo checkout); if bool_decide (current = Some s) then mret tt else set_undo_recovery_locked checkout s)
    (λ _ d', (files d' = files d ∨ files d' = <[PUndo checkout := format_state_id_text s]> (files d)) ∧ (nf d' ≤ nf d)%nat)
    (λ _ d', (files d' = files d ∨ files d' = <[PUndo checkout := format_state_id_text s]> (files d)) ∧ (nf d' < nf d)%nat) d.
Proof.
  intros Hc Hs. assert (∃ o, read_state_id_at (PUndo checkout) d = (Ok o, d)) as [o Eo].
  { unfold read_state_id_at. destruct (files d !! PUndo checkout) as [c|] eqn:E.
    - destruct (cl_undo _ Hc _ _ E) as (i & Hi & ->). rewrite (run_bind _ _ _ _ _ (read_file_ok _ _ _ E (format_utf8 i Hi))).
      rewrite state_text_roundtrip by done. by exists (Some i).
    - rewrite (run_bind _ _ _ _ _ (read_file_none _ _ E)). by exists None. }
  apply wp_bind. unfold wp at 1. rewrite Eo. case_bool_decide; [apply wp_ret; split; [by left|done]|].
  eapply wp_mono; [apply write_spec|..]; cbv beta; [|done]. intros _ d' (E & _ & N). split; [by right|done].
Qed.

Lemma local_undo f fs fs1 fs2 s : local_kept f fs fs1 → id32 s →
  fs2 = fs1 ∨ fs2 = <[PUndo checkout := format_state_id_text s]> fs1 → local_kept f fs fs2.
Proof.
  intros [Hr Hc Hs] Hi [->| ->]; [done|]. split.
  - intros k E. rewrite <- Hr by done. unfold ref_value, packed_of.
    rewrite !lookup_insert_ne by (done || by destruct k). done.
  - apply clean_put; [done|]. by exists s.
  - intros q Hq Hne. rewrite lookup_insert_ne by congruence. by apply Hs.
Qed.

Lemma local_undo_head fs fs2 s co : fs2 = fs ∨ fs2 = <[PUndo checkout := format_state_id_text s]> fs → head_value fs2 co = head_value fs co.
Proof. intros [->| ->]; [done|]. unfold head_value. by rewrite lookup_insert_ne. Qed.

Lemma materialize_local f out d : clean (files d) → local_ok f → (nf d ≤ 1)%nat →
  (republish out, remote_updates out, undo_recovery out) = RefFold.class_materialization RefFold.Local f →
  wp (materialize checkout out)
    (λ _ d', local_kept f (files d) (files d') ∧ head_value (files d') checkout = folded_head f (head_value (files d) checkout) ∧
             (nf d' ≤ nf d)%nat)
    (λ _ d', local_kept f (files d) (files d') ∧ (0 < nf d)%nat) d.
Proof.
  intros Hc Hf Hd Ho. unfold materialize, wp. rewrite materialize_alt.
  assert (republish out = local_updates f ∧ remote_updates out = [] ∧ undo_recovery out = RefFold.f_undo f) as (Er & Em & Eu).
  { unfold local_updates. rewrite <- Ho. cbn [fst]. split; [done|]. cbn [RefFold.class_materialization] in Ho. by injection Ho. }
  rewrite Er, Em, Eu.
  match goal with |- match ?m d with _ => _ end => change (wp m
    (λ _ d', local_kept f (files d) (files d') ∧ head_value (files d') checkout = folded_head f (head_value (files d) checkout) ∧
             (nf d' ≤ nf d)%nat)
    (λ _ d', local_kept f (files d) (files d') ∧ (0 < nf d)%nat) d) end.
  apply wp_bind. eapply wp_mono; [apply publish_updates_spec; [done|by apply local_changes_ok|done]|..]; cbv beta.
  2:{ intros e d1 ((Hs & _) & [C1 K1] & N1). split; [|done]. split; [|done|intros q Hq _; by apply K1].
      intros k E. apply Hs. intros new Hin%local_changes. congruence. }
  intros _ d1 (M1 & [C1 K1] & N1). pose proof M1 as (Hr & _).
  assert (local_kept f (files d) (files d1)) as L1.
  { split; [|done|intros q Hq _; by apply K1]. intros k E. destruct (Hr k) as [(new & Hin%local_changes & _)|[-> _]]; [congruence|done]. }
  assert (head_value (files d1) checkout = folded_head f (head_value (files d) checkout)) as Hh.
  { apply (made_head (local_updates f)); [done|]. intros h. split; [by intros ?%local_changes|by intros ?%local_head_in]. }
  apply wp_bind. cbn [io_each]. apply wp_ret. destruct (RefFold.f_undo f) as [s|] eqn:Es; [|by apply wp_ret].
  pose proof (lo_undo _ Hf s Es) as Hs. eapply wp_mono; [by apply undo_spec|..]; cbv beta.
  - intros _ d2 [E2 N2]. split; [by eapply local_undo|]. rewrite (local_undo_head _ _ s _ E2). split; [done|lia].
  - intros e d2 [E2 N2]. split; [by eapply local_undo|lia].
Qed.

(** ** The floors after catching up *)

Lemma refreshed_advanced c m : c = WATERMARK_UNSET ∨ 0 ≤ c → refreshed c (advanced c m) = refreshed c m.
Proof.
  intros Hc. unfold refreshed, advanced. destruct (Z.eqb_spec c WATERMARK_UNSET) as [->|Hne]; [done|].
  destruct Hc as [?|Hc]; [done|]. destruct m as [p|]; cbn [default Datatypes.id]; lia.
Qed.

Lemma settled_mark class e d e' es cl : ready checkout e es → settled checkout class (zlen es) e d e' →
  (∀ c, files d !! watermark_path checkout c = files (disk e) !! watermark_path checkout c) → cl ≠ class →
  class_mark checkout cl e' = class_mark checkout cl e.
Proof.
  intros Hr (d' & M & ->) Hk Hne. unfold class_mark.
  assert (class_watermark cl (set_disk d' (set_watermark class (zlen es) e)) = class_watermark cl e) as ->.
  { transitivity (class_watermark cl (set_watermark class (zlen es) e)); [by destruct cl|]. rewrite class_watermark_set. by rewrite decide_False. }
  assert (class_watermark cl e = WATERMARK_UNSET ∨ 0 ≤ class_watermark cl e) as Hb by (destruct (rd_cached _ _ _ Hr cl); [by left|right; lia]).
  assert (mark (files d) (watermark_path checkout cl) = mark (files (disk e)) (watermark_path checkout cl)) as E by (apply mark_ext, Hk).
  destruct (mk_step _ _ _ _ _ M cl) as [E'|E']; cbn [disk set_disk]; rewrite E', ?E; [done|].
  rewrite class_watermark_set, decide_False by done. by apply refreshed_advanced.
Qed.

(** A ref that the local fold names is one that the shared fold names, from a floor no higher. *)
Lemma local_within_shared e es : floor checkout RefFold.Shared e ≤ floor checkout RefFold.Local e → ∀ k,
  fold_value (class_fold checkout op_scope RefFold.Shared e es) k = None → fold_value (class_fold checkout op_scope RefFold.Local e es) k = None.
Proof.
  intros Hf k. unfold class_fold. rewrite !(proj1 (fold_ops_spec _)). intros Hs.
  destruct (last_change (operation <$> class_window checkout op_scope RefFold.Local e es) k) as [v|] eqn:E; [|done]. exfalso. apply last_change_in in E as (op & Hop & Ec).
  apply list_elem_of_fmap in Hop as (x & -> & Hx).
  assert (x ∈ class_window checkout op_scope RefFold.Shared e es) as Hx'.
  { unfold class_window, window in *. rewrite !list_elem_of_In, !filter_In, <- !list_elem_of_In, !after_elem in *.
    destruct Hx as [[Hx Hlt] Hu]. apply andb_true_iff in Hu as [Hu _]. split; [split; [done|lia]|]. rewrite Hu. done. }
  unfold last_change in Hs. apply last_None in Hs.
  assert (v ∈ omap (change_on k) (operation <$> class_window checkout op_scope RefFold.Shared e es)) as Hin.
  { apply list_elem_of_omap. exists (operation x). split; [by apply list_elem_of_fmap_2|]. unfold change_on. rewrite Ec. by rewrite decide_True. }
  rewrite Hs in Hin. by apply elem_of_nil in Hin.
Qed.

Lemma view_same e e' es : class_mark checkout RefFold.Shared e' = class_mark checkout RefFold.Shared e →
  within (class_fold checkout op_scope RefFold.Shared e es) (files (disk e)) (files (disk e')) →
  ∀ k, view checkout op_scope e' es k = view checkout op_scope e es k.
Proof.
  intros Hm Hw k. unfold view. assert (class_fold checkout op_scope RefFold.Shared e' es = class_fold checkout op_scope RefFold.Shared e es) as ->.
  { unfold class_fold, class_window, floor. by rewrite Hm. }
  specialize (Hw k). destruct (fold_value _ k); [done|]. by apply Hw.
Qed.

Lemma local_kept_marks f fs fs' : local_kept f fs fs' → ∀ cl, fs' !! watermark_path checkout cl = fs !! watermark_path checkout cl.
Proof. intros [_ _ Hs] cl. apply Hs; by destruct cl. Qed.

(** The outcome of catching up a class before a write *)
Definition caught_up (class : RefClass) (e e' : Env) (es : list OpEntry) : Prop :=
  view_kept checkout op_scope e e' es ∧ class_watermark class e' = zlen es ∧ (nf (disk e') ≤ nf (disk e))%nat.

Lemma covered_tip class e es : ready checkout e es → watermark_covers (class_watermark class e) (zlen es) = true →
  class_watermark class e = zlen es.
Proof.
  intros Hr [Hu Hc]%andb_true_iff. apply negb_true_iff, Z.eqb_neq in Hu. apply Z.leb_le in Hc.
  destruct (rd_cached _ _ _ Hr class); [done|lia].
Qed.

(** [materialize_class], given what catching up does *)
Lemma materialize_class_spec class e es raw v Q : ready checkout e es →
  raw_load checkout (class_probe class) (disk e) = (Ok raw, disk e) →
  let e1 := set_watermark class (class_mark checkout class e) e in
  rwp (catch_up checkout op_scope (class_probe class) raw (class_watermark class e1) (zlen es))
    (λ v' e', v' = v ∧ caught_up class e1 e' es ∧ Q e') (λ _ e', view_kept checkout op_scope e1 e' es ∧ faulty e) e1 →
  (class_watermark class e = zlen es → Q e) → (class_watermark class e1 = zlen es → Q e1) →
  rwp (materialize_class checkout op_scope class) (λ _ e', caught_up class e e' es ∧ Q e')
    (λ _ e', view_kept checkout op_scope e e' es ∧ faulty e) e.
Proof.
  intros Hr Hraw e1 Hcu HQ HQ1. destruct (ready_tip _ _ _ Hr) as (Hg & _ & _). unfold materialize_class.
  apply rwp_bind, rwp_get. rewrite Hg. destruct (watermark_covers (class_watermark class e) (zlen es)) eqn:Ec.
  { apply covered_tip in Ec; [|done]. apply rwp_ret. split; [split; [by apply view_kept_refl|done]|by apply HQ]. }
  apply rwp_bind. unfold rwp at 1. rewrite (refresh_run checkout) by apply (rd_readable _ _ _ Hr). fold e1.
  pose proof (refreshed_kept checkout op_scope class e es Hr) as Hk1. fold e1 in Hk1.
  assert (disk e1 = disk e) as Ed1 by by destruct class.
  apply rwp_bind, rwp_get. destruct (watermark_covers (class_watermark class e1) (zlen es)) eqn:Ec1.
  { apply covered_tip in Ec1; [|apply Hk1]. apply rwp_ret. split; [|by apply HQ1]. split; [done|]. split; [done|by rewrite Ed1]. }
  apply rwp_bind. unfold rwp at 1, on_disk. rewrite Ed1, Hraw. rewrite <- Ed1, set_disk_same.
  apply rwp_bind. eapply rwp_mono; [exact Hcu|..]; cbv beta.
  - intros v' e' (_ & (Hk2 & Hw2 & Hn2) & HQ2). apply rwp_ret. split; [|done]. split; [by eapply view_kept_trans|].
    split; [done|by rewrite Ed1 in Hn2].
  - intros x e' [Hk2 Hf]. split; [by eapply view_kept_trans|done].
Qed.

Lemma local_caught e es : ready checkout e es → (nf (disk e) ≤ 1)%nat → floor checkout RefFold.Shared e ≤ floor checkout RefFold.Local e →
  rwp (materialize_class checkout op_scope RefFold.Local) (λ _ e', caught_up RefFold.Local e e' es)
    (λ _ e', view_kept checkout op_scope e e' es ∧ faulty e) e.
Proof.
  intros Hr Hnf Hfl. eapply rwp_mono; [eapply (materialize_class_spec RefFold.Local e es (OHead (head_value (files (disk e)) checkout))
    (OHead (folded_head (class_fold checkout op_scope RefFold.Local e es) (head_value (files (disk e)) checkout))) (λ _, True) Hr)|..]; cbv beta.
  - cbn [class_probe raw_load]. by rewrite (run_bind _ _ _ _ _ (read_head_ok (disk e) checkout (rd_clean _ _ _ Hr))).
  - cbv zeta. set (e1 := set_watermark RefFold.Local (class_mark checkout RefFold.Local e) e).
    pose proof (refreshed_kept checkout op_scope RefFold.Local e es Hr) as [Hr1 Hl1 Hv1 _]. fold e1 in Hr1, Hl1, Hv1.
    assert (∀ cl, class_mark checkout cl e1 = class_mark checkout cl e) as Hm1 by (intros cl; apply refreshed_mark).
    set (f := class_fold checkout op_scope RefFold.Local e es).
    assert (class_fold checkout op_scope RefFold.Local e1 es = f) as Ef by (unfold f, class_fold, class_window, floor; by rewrite Hm1).
    assert (local_ok f) as Hfo.
    { apply fold_ops_local, Forall_fmap. exact (proj2 (fold_records_ok checkout op_scope e es RefFold.Local Hr)). }
    assert (∀ d', local_kept f (files (disk e)) (files d') → within (class_fold checkout op_scope RefFold.Shared e1 es) (files (disk e)) (files d')) as Hwi.
    { intros d' [Hw _ _] k E. apply Hw. rewrite <- Ef. apply local_within_shared; [|done]. unfold floor. by rewrite !Hm1. }
    eapply rwp_mono; [apply (catch_up_spec checkout op_scope LHead _ (OHead (folded_head f (head_value (files (disk e)) checkout))) e1 es
      (λ d', local_kept f (files (disk e)) (files d') ∧ (nf d' ≤ nf (disk e))%nat)
      (λ d', local_kept f (files (disk e)) (files d') ∧ faulty e))|..]; cbv beta.
    + done.
    + symmetry. apply Hm1.
    + intros d. change (RefFold.ref_class LHead) with RefFold.Local. rewrite Ef. cbn [reconciled_value]. unfold folded_head.
      by destruct (RefFold.f_head f).
    + intros out Ho. change (RefFold.ref_class LHead) with RefFold.Local in Ho. rewrite Ef in Ho.
      eapply wp_mono; [apply (materialize_local f out (disk e1)); [apply Hr1|done|done|done]|..]; cbv beta; [|done].
      by intros _ d' (Hlk & _ & Hn).
    + intros d' [Hlk _]. exact (local_kept_marks _ _ _ Hlk).
    + intros v' e' (-> & d & [Hlk Hn] & Hs). change (RefFold.ref_class LHead) with RefFold.Local in Hs. split; [done|]. split; [|done].
      destruct (settled_ready checkout _ _ _ _ _ Hr1 Hs (lk_clean _ _ _ Hlk)) as (Hr' & Hl' & Hw' & _ & Hn' & Hv' & _).
      split; [|split; [done|change (disk e1) with (disk e); lia]].
      split; [done|done| |rewrite (settled_witness _ _ _ _ _ _ Hs); by apply (lk_side _ _ _ Hlk)]. apply view_same.
      * apply (settled_mark RefFold.Local e1 d e' es RefFold.Shared Hr1 Hs); [by apply (local_kept_marks f)|done].
      * intros k E. rewrite Hv'. by apply (Hwi d).
    + intros x e' (d & [Hlk Hf] & ->). split; [|done].
      destruct (ready_disk checkout e1 es d Hr1 (lk_clean _ _ _ Hlk) (local_kept_marks _ _ _ Hlk)) as [Hr' Hm'].
      split; [done|done| |by apply (lk_side _ _ _ Hlk)]. apply view_disk; [done|by apply Hwi].
  - done.
  - done.
  - by intros _ e' [? _].
  - by intros x e' ?.
Qed.

(** The probe of the shared class reads the list of markers, from the sidecar or from storage. *)
Lemma probe_markers d : clean (files d) → ∃ names, raw_load checkout LMarkerList d = (Ok (OMarkerList names), d).
Proof.
  intros Hc. cbn [raw_load]. unfold raw_list_markers, with_summary.
  assert (∃ o, try_read_ref_summary_index d = (Ok o, d)) as [o Eo].
  { unfold try_read_ref_summary_index, mbind, io_bind, io_try. destruct (reads_run (m:=read_ref_summary_index) d) as [[a ->]|[x ->]]; by eexists. }
  destruct (list_storage_ok false d Hc) as (names & En & _). cbn [list_storage] in En.
  destruct o as [ix|].
  - exists (marker_names ix). unfold mbind, io_bind in *. by rewrite Eo.
  - exists names. unfold mbind, io_bind in *. rewrite Eo. by rewrite En.
Qed.

Lemma shared_caught e es : ready checkout e es → (nf (disk e) ≤ 1)%nat →
  rwp (materialize_class checkout op_scope RefFold.Shared)
    (λ _ e', caught_up RefFold.Shared e e' es ∧ cached_local e' = cached_local e)
    (λ _ e', view_kept checkout op_scope e e' es ∧ faulty e) e.
Proof.
  intros Hr Hnf. destruct (probe_markers (disk e) (rd_clean _ _ _ Hr)) as [names En].
  set (e1 := set_watermark RefFold.Shared (class_mark checkout RefFold.Shared e) e).
  pose proof (refreshed_kept checkout op_scope RefFold.Shared e es Hr) as [Hr1 Hl1 Hv1 _]. fold e1 in Hr1, Hl1, Hv1.
  eapply (materialize_class_spec RefFold.Shared e es (OMarkerList names)
    (OMarkerList (RefFold.merge_list names (RefFold.f_markers (class_fold checkout op_scope RefFold.Shared e1 es))))
    (λ e', cached_local e' = cached_local e) Hr); [exact En| |done|done].
  cbv zeta. fold e1. change (class_watermark RefFold.Shared e1) with (cached_shared e1).
  eapply rwp_mono; [apply (catch_up_shared checkout op_scope LMarkerList (OMarkerList names)
    (OMarkerList (RefFold.merge_list names (RefFold.f_markers (class_fold checkout op_scope RefFold.Shared e1 es)))) e1 es)|..]; cbv beta.
  - done.
  - done.
  - done.
  - unfold e1 at 2. by rewrite refreshed_mark.
  - done.
  - intros v' e' (-> & Hk & Hc & Hlc & Hn). done.
  - done.
Qed.

(** [materialize_committed_tail] *)
Lemma tail_caught e es : ready checkout e es → (nf (disk e) ≤ 1)%nat → floor checkout RefFold.Shared e ≤ floor checkout RefFold.Local e →
  rwp (materialize_committed_tail checkout op_scope)
    (λ _ e', view_kept checkout op_scope e e' es ∧ (∀ class, class_watermark class e' = zlen es) ∧ (nf (disk e') ≤ nf (disk e))%nat)
    (λ _ e', view_kept checkout op_scope e e' es ∧ faulty e) e.
Proof.
  intros Hr Hnf Hfl. unfold materialize_committed_tail. apply rwp_bind. eapply rwp_mono; [by apply local_caught| |done]. cbv beta.
  intros _ e1 (Hk1 & Hw1 & Hn1). eapply rwp_mono; [apply (shared_caught e1 es); [apply Hk1|lia]|..]; cbv beta.
  - intros _ e2 [(Hk2 & Hw2 & Hn2) Hl2]. split; [by eapply view_kept_trans|]. split; [|lia]. intros []; [|done].
    change (cached_local e2 = zlen es). rewrite Hl2. exact Hw1.
  - intros x e2 [Hk2 Hf]. split; [by eapply view_kept_trans|]. unfold faulty in *. lia.
Qed.
End local.
