(* ===== verification/RefCommit.v ===== *)
(** * Committing records and publishing refs

    [commit_and_publish] ([refs_manager.rs], [refs_transactions.rs]) with the append of
    [crates/repo/src/atomic/committer.rs]: the batch is all or nothing in what logical reads see. *)

From Stdlib Require Import FunctionalExtensionality.
From S2P Require Import Prelude Text RefNames RefText RefDisk RefSummary RefStore RefPublish RefPack RefCas.
From S2P Require Import OpRecords OpLog OpLogSpec OpIndex OpSegments OpOps RefFold RefReconcile RefFoldSpec RefWatermark RefMaterialize RefShared RefRecover RefWitness RefLocal.
Import Text RefText RefDisk RefSummary RefStore RefReconcile.
Import OpRecords(OpRecord, OpEntry, operation, undone).
Import RefFold(RefClass, Fold, loaded, republish, remote_updates, undo_recovery).

Section commit.
Context `{Base32Laws} `{RefSyntaxLaws}.
Context (checkout : Z) (op_scope : list Z).

(** Once both watermarks cover the tip, a write is validated against the files. *)
Lemma covered_reconciled e es : ready checkout e es → (∀ class, class_watermark class e = zlen es) →
  reconciled_value_under_lock checkout op_scope e = raw_load checkout.
Proof.
  intros Hr Hw. destruct (ready_tip _ _ _ Hr) as (Hg & Hz & _). apply functional_extensionality. intros req.
  apply functional_extensionality. intros d. unfold reconciled_value_under_lock. rewrite Hw, Hg, covers_tip by done.
  unfold mbind, io_bind. by destruct (raw_load checkout req d) as [[] ?].
Qed.

(** ** The append *)

Lemma commit_records_spec who now records scope e es : log_of (oplog e) es → room (oplog e) (zlen records) → records ≠ [] →
  rwp (commit_records who now records scope)
    (λ _ e', ∃ s log, e' = set_oplog log (set_disk (set_schedule s (disk e)) e) ∧ (nf (disk e') ≤ nf (disk e))%nat ∧
      log_of log (es ++ OpLog.build_entries who records (zlen es + 1) now scope))
    (λ _ e', faulty e ∧ ∃ s, e' = set_disk (set_schedule s (disk e)) e ∨
      ∃ log, e' = set_oplog log (set_disk (set_schedule s (disk e)) e) ∧
             log_of log (es ++ OpLog.build_entries who records (zlen es + 1) now scope)) e.
Proof.
  intros Hl Hroom Hne. unfold rwp, commit_records. rewrite bool_decide_false by done.
  destruct (returns_inv _ _ (append_operations_ok who now (oplog e) es records scope Hl Hroom)) as ([ids log] & Ea & Hlog & _ & _).
  assert (OpLog.record_batch_scoped who now (oplog e) records scope = Ok (ids, log)) as Er.
  { unfold OpLog.record_batch_scoped. by rewrite bool_decide_false by done. }
  unfold faulty, nf. destruct (schedule (disk e)) as [|[] s] eqn:Es; cbn [oplog set_disk]; try rewrite Er.
  - exists [], log. split; [|split; [cbn; rewrite Es; cbn; lia|done]]. rewrite <- Es. destruct e as [[] ? ? ?]; done.
  - exists s, log. split; [done|]. split; [cbn; lia|done].
  - split; [cbn; lia|]. exists s. by left.
  - split; [cbn; lia|]. exists s. right. by exists log.
Qed.

(** ** The state after the append *)

Lemma built_records_ok who now scope records start : Forall record_ok records →
  Forall (λ x, record_ok (operation x)) (OpLog.build_entries who records start now scope).
Proof.
  intros Hok. assert (Forall record_ok (operation <$> OpLog.build_entries who records start now scope)) as Hb by (by rewrite built_operations).
  apply Forall_forall. intros x Hx. apply (proj1 (Forall_forall _ _) Hb). by apply list_elem_of_fmap_2.
Qed.

Lemma new_window who now scope records es : numbered 1 es →
  window (zlen es) None (es ++ OpLog.build_entries who records (zlen es + 1) now scope) =
    OpLog.build_entries who records (zlen es + 1) now scope.
Proof.
  intros Hn. unfold window. rewrite after_app, after_none, after_all; cbn [app].
  - rewrite (forallb_filter_id); [done|]. apply forallb_forall. intros x [i Hx]%list_elem_of_In%list_elem_of_lookup.
    apply built_lookup in Hx as (op & _ & ->). done.
  - apply Forall_forall. intros x Hx. pose proof (numbered_bounds _ _ _ (built_numbered who now scope records _) Hx). lia.
  - apply Forall_forall. intros x Hx. pose proof (numbered_bounds _ _ _ Hn Hx). lia.
Qed.

(** A log with one batch appended, over files that keep the watermarks *)
Lemma appended_ready e es e' new : ready checkout e es → (∀ class, class_watermark class e = zlen es) →
  (∀ class, class_watermark class e' = zlen es) → log_of (oplog e') (es ++ new) →
  Forall (λ x, record_ok (operation x)) new → clean (files (disk e')) →
  (∀ class, files (disk e') !! watermark_path checkout class = files (disk e) !! watermark_path checkout class) →
  ready checkout e' (es ++ new) ∧ floor checkout RefFold.Shared e' = zlen es.
Proof.
  intros Hr Hw Hw' Hl Hn Hc Hk. pose proof Hr as [_ _ Ho _ Hrd Hm]. destruct (ready_tip _ _ _ Hr) as (_ & Hz & _).
  pose proof (zlen_nonneg es). pose proof (zlen_nonneg new). assert (zlen es ≠ WATERMARK_UNSET) as Hu.
  { unfold WATERMARK_UNSET, U64_MAX, U32_MAX in *. lia. }
  split.
  - split; [done|done|by apply Forall_app| | |].
    + intros class. rewrite Hw', zlen_app. right. lia.
    + intros class c. rewrite Hk. apply Hrd.
    + intros class v. rewrite (mark_ext (files (disk e))) by apply Hk. intros E%Hm. rewrite zlen_app. lia.
  - unfold floor, class_mark. rewrite Hw', (mark_ext (files (disk e))) by apply Hk. unfold refreshed.
    destruct (mark (files (disk e)) _) as [p|] eqn:E.
    + apply Hm in E. rewrite (proj2 (Z.eqb_neq _ _) Hu), Z.max_l by lia. unfold since_of. by rewrite (proj2 (Z.eqb_neq _ _) Hu).
    + unfold since_of. by rewrite (proj2 (Z.eqb_neq _ _) Hu).
Qed.

Lemma appended_view who now scope records e' es k : numbered 1 es → floor checkout RefFold.Shared e' = zlen es →
  view checkout op_scope e' (es ++ OpLog.build_entries who records (zlen es + 1) now scope) k =
    default (ref_value (files (disk e')) k) (last_change records k).
Proof.
  intros Hn Hf. unfold view, class_fold, class_window. rewrite Hf. cbn [class_scope]. rewrite new_window by done.
  rewrite built_operations. by rewrite (proj1 (fold_ops_spec records)).
Qed.

(** The records say of the refs what the updates do. *)
Definition coherent (records : list OpRecord) (us : list RefUpdate) : Prop :=
  ∀ k new, CRef k new ∈ change_of <$> us ↔ last_change records k = Some new.

(** The batch is committed: the log ends in its records, the updates were accepted against what
    the refs were, and they are what every read now sees. *)
Definition batch_committed (e : Env) (es new : list OpEntry) (records : list OpRecord) (us : list RefUpdate) (e' : Env) : Prop :=
  ready checkout e' (es ++ new) ∧
  (∀ k, view checkout op_scope e' (es ++ new) k = default (view checkout op_scope e es k) (last_change records k)) ∧
  ∃ fs, (∀ k, ref_value fs k = view checkout op_scope e es k) ∧ accepted fs checkout us.

Definition batch_absent (e : Env) (es : list OpEntry) (e' : Env) : Prop :=
  ready checkout e' es ∧ ∀ k, view checkout op_scope e' es k = view checkout op_scope e es k.

(** The publish after the append, whether or not it succeeds *)
Lemma published_view co cs fs fs' k : clean fs → (∀ new, CRef k new ∉ cs) →
  changed cs co fs fs' ∨ changed [] co fs fs' ∨ changed_but_packed cs co fs fs' → ref_value fs' k = ref_value fs k.
Proof.
  intros Hc Hn [[Hr _]|[[Hr _]|[Hr _]]]; rewrite Hr; [|done|].
  - destruct (spec_value_in co cs k (ref_value fs k)) as [(new & Hin & _)|[-> _]]; [by destruct (Hn new)|done].
  - destruct (spec_value_in co cs k (ref_value fs k)) as [(new & Hin & _)|[-> _]]; [by destruct (Hn new)|].
    destruct (ref_value fs k) eqn:E; [done|]. by apply packed_value_none.
Qed.

(** The witness of a snapshot is not touched. *)
Definition same_witness (e e' : Env) : Prop := files (disk e') !! PWitnessShared = files (disk e) !! PWitnessShared.

Lemma commit_publish_spec who now records us scope e es :
  ready checkout e es → (nf (disk e) ≤ 1)%nat → floor checkout RefFold.Shared e ≤ floor checkout RefFold.Local e →
  room (oplog e) (zlen records) → records ≠ [] → Forall record_ok records → Forall (λ u, change_ok (change_of u)) us →
  coherent records us →
  let new := OpLog.build_entries who records (zlen es + 1) now scope in
  rwp (commit_and_publish checkout op_scope (Some (who, now)) records us scope)
    (λ _ e', same_witness e e' ∧ batch_committed e es new records us e')
    (λ x e', same_witness e e' ∧
      (batch_absent e es e' ∧ (faulty e ∨ x = Conflict) ∨ batch_committed e es new records us e' ∧ faulty e)) e.
Proof.
  intros Hr Hnf Hfl Hroom Hne Hrec Hus Hco new. unfold commit_and_publish, write_chokepoint. apply rwp_bind.
  eapply rwp_mono; [by apply (tail_caught checkout op_scope e es)|..]; cbv beta.
  2:{ intros x e1 [[Hr1 _ Hv1 HW] Hf]. split; [done|]. left. split; [by split|by left]. }
  intros _ e1 ([Hr1 Hl1 Hv1 HW] & Hw1 & Hn1). pose proof (rd_clean _ _ _ Hr1) as Hc1. destruct (ready_tip _ _ _ Hr1) as (_ & Hz & Hnum).
  assert (∀ k, ref_value (files (disk e1)) k = view checkout op_scope e es k) as Hraw.
  { intros k. rewrite <- Hv1. symmetry. by apply caught_view; [|apply (Hw1 RefFold.Shared)]. }
  unfold validate_commit_publish. apply rwp_bind, rwp_get. rewrite (covered_reconciled e1 es) by done. apply rwp_bind, rwp_disk.
  unfold plan_ref_updates. destruct (plan_loop_run (disk e1) checkout us [] Hc1 Hus) as [(HF & HN & _ & E)|[_ E]]; unfold wp at 1; rewrite E.
  2:{ rewrite set_disk_same. split; [done|]. left. split; [by split|by right]. }
  rewrite set_disk_same. clear E. assert (accepted (files (disk e1)) checkout us) as Hacc by (split; [by apply met_all|done]).
  assert (∀ e', (∀ class, class_watermark class e' = zlen es) → log_of (oplog e') (es ++ new) → clean (files (disk e')) →
    (∀ class, files (disk e') !! watermark_path checkout class = files (disk e1) !! watermark_path checkout class) →
    (∀ k, (∀ v, CRef k v ∉ change_of <$> us) → ref_value (files (disk e')) k = ref_value (files (disk e1)) k) →
    batch_committed e es new records us e') as Hdone.
  { intros e' Hw' Hl' Hc' Hk' Hv'. destruct (appended_ready e1 es e' new Hr1 Hw1 Hw' Hl') as [Hr' Hfl']; [by apply built_records_ok|done|done|].
    split; [done|]. split; [|by exists (files (disk e1))]. intros k. unfold new. rewrite appended_view by done.
    destruct (last_change records k) as [v|] eqn:Ek; [done|]. cbn. rewrite Hv', Hraw; [done|].
    intros v Hin%Hco. congruence. }
  rewrite bool_decide_false by done. apply rwp_bind, rwp_bind.
  eapply rwp_mono; [apply (commit_records_spec who now records scope e1 es); [apply Hr1|by rewrite Hl1|done]|..]; cbv beta.
  2:{ intros x e2 [Hf (s & [-> |(log & -> & Hlog)])]; (split; [exact HW|]); [left|right].
      - split; [|left; unfold faulty in *; lia]. destruct (ready_disk checkout e1 es (set_schedule s (disk e1)) Hr1 Hc1) as [Hr2 Hm2]; [done|].
        split; [done|]. intros k. rewrite <- Hv1. by apply view_disk.
      - split; [|unfold faulty in *; lia]. by apply Hdone. }
  intros _ e2 (s & log & -> & Hn2 & Hlog). apply rwp_ret. cbn [negb]. apply rwp_bind.
  set (e2 := set_oplog log (set_disk (set_schedule s (disk e1)) e1)) in *.
  assert (∀ d class, class_watermark class (set_disk d e2) = zlen es) as Hw2 by (intros d []; [apply (Hw1 RefFold.Local)|apply (Hw1 RefFold.Shared)]).
  assert (wp (publish_ref_plans (plans_for (files (disk e1)) checkout (change_of <$> us)))
    (λ _ d', same_witness e (set_disk d' e2) ∧ batch_committed e es new records us (set_disk d' e2))
    (λ _ d', same_witness e (set_disk d' e2) ∧ batch_committed e es new records us (set_disk d' e2)) (disk e2)) as Hpub.
  { change (files (disk e1)) with (files (disk e2)). unfold publish_ref_plans.
    eapply wp_mono; [apply publish_batch; [done|by apply Forall_fmap|lia]|..]; cbv beta.
    - intros _ d' (Hch & Hcl & Hs & _). split; [unfold same_witness; rewrite <- HW; by apply (Hs PWitnessShared)|]. apply Hdone; [apply Hw2|done|done|intros []; by apply Hs|].
      intros k Hk. apply (published_view checkout (change_of <$> us)); [done|done|by left].
    - intros x d' (Hch & Hcl & Hs & _). split; [unfold same_witness; rewrite <- HW; by apply (Hs PWitnessShared)|]. apply Hdone; [apply Hw2|done|done|intros []; by apply Hs|].
      intros k Hk. apply (published_view checkout (change_of <$> us)); [done|done|]. right. destruct Hch as [?|[_ ?]]; [by left|by right]. }
  unfold rwp at 1, rio_try, on_disk. unfold wp in Hpub. change (disk e2) with (disk e2) in Hpub.
  destruct (publish_ref_plans _ (disk e2)) as [[u|x| |] d']; [by apply rwp_ret|by apply rwp_ret|done|done].
Qed.

(** C3. [commit_and_publish] is atomic in what logical reads see. When at most one operation fails,
    [Ok] means that the records are at the end of the log and that every thread, marker and remote
    thread reads as the updates say, even when their publish failed after the append; an error means
    that no ref reads differently from before, unless the append itself failed after it had its
    effect, and then all of the batch is committed. Expectations are checked against what reads see;
    the only error without a failing operation is [Conflict]. The shared floor may not be above the
    floor of this checkout. *)
Theorem commit_and_publish_atomic who now records us scope e es :
  ready checkout e es → (nf (disk e) ≤ 1)%nat → floor checkout RefFold.Shared e ≤ floor checkout RefFold.Local e →
  room (oplog e) (zlen records) → records ≠ [] → Forall record_ok records → Forall (λ u, change_ok (change_of u)) us →
  coherent records us →
  let new := OpLog.build_entries who records (zlen es + 1) now scope in
  rwp (commit_and_publish checkout op_scope (Some (who, now)) records us scope)
    (λ _ e', batch_committed e es new records us e')
    (λ x e', batch_absent e es e' ∧ (faulty e ∨ x = Conflict) ∨ batch_committed e es new records us e' ∧ faulty e) e.
Proof.
  intros Hr Hnf Hfl Hroom Hne Hrec Hus Hco new. eapply rwp_mono; [by apply commit_publish_spec|..]; cbv beta; [by intros _ e' [_ Hb]|].
  by intros x e' [_ Hb].
Qed.

(** A commit keeps what a snapshot witness says true. *)
Lemma commit_keeps_witness who now records us scope e es :
  ready checkout e es → (nf (disk e) ≤ 1)%nat → floor checkout RefFold.Shared e ≤ floor checkout RefFold.Local e →
  room (oplog e) (zlen records) → records ≠ [] → Forall record_ok records → Forall (λ u, change_ok (change_of u)) us →
  coherent records us → witnessed (files (disk e)) es →
  let new := OpLog.build_entries who records (zlen es + 1) now scope in
  rwp (commit_and_publish checkout op_scope (Some (who, now)) records us scope)
    (λ _ e', ready checkout e' (es ++ new) ∧ witnessed (files (disk e')) (es ++ new))
    (λ _ e', ready checkout e' es ∧ witnessed (files (disk e')) es ∨
             ready checkout e' (es ++ new) ∧ witnessed (files (disk e')) (es ++ new)) e.
Proof.
  intros Hr Hnf Hfl Hroom Hne Hrec Hus Hco Hw new.
  assert (new ≠ []) as Hnew.
  { intros E. pose proof (built_operations who now scope records (zlen es + 1)) as B. fold new in B. rewrite E in B. by destruct Hne. }
  assert (∀ e', same_witness e e' → witnessed (files (disk e')) (es ++ new)) as Happ
    by (intros e' E; apply witnessed_append; [by eapply witnessed_ext|done]).
  eapply rwp_mono; [by apply (commit_publish_spec who now records us scope e es)|..]; cbv beta.
  - intros _ e' [E [Hr' _]]. split; [done|by apply Happ].
  - intros x e' [E [[[Hr' _] _]|[[Hr' _] _]]]; [left|right]; (split; [done|]); [by eapply witnessed_ext|by apply Happ].
Qed.
End commit.
