(* ===== verification/RefReconcileSamples.v ===== *)
(** * The reconciler at concrete inputs

    A store that lags one committed record behind the log, on which the theorems about logical
    reads and writes are applied, and two checkouts of which one loses an update of the other. *)

From S2P Require Import Prelude Text RefNames RefText RefDisk BTree RefSummary RefStore RefPublish RefPack RefCas RefSamples.
From S2P Require Import OpRecords OpLog OpLogSpec OpIndex OpSegments OpOps RefFold RefReconcile RefFoldSpec RefWatermark RefMaterialize RefShared RefRecover RefWitness RefRead RefLocal RefCommit.
Import Text RefNames RefText RefDisk RefSummary RefStore RefReconcile TextSamples SummarySamples.
Import OpRecords(OpRecord, OpEntry, operation, ThreadUpdate, Snapshot).

(** ** A store behind its log *)

Definition alice : list Z := ascii_bytes "alice".
Definition lane_a : list Z := ascii_bytes "lane-a".
Definition lane_b : list Z := ascii_bytes "lane-b".

(** The record committed before a crash: [main] moves from 7 to 9. *)
Definition lost_ops : list OpRecord := [ThreadUpdate main (sample_id 7) (sample_id 9) None].
Definition lost_entries : list OpEntry := OpLog.build_entries alice lost_ops 1 7 (Some lane_a).
Definition lost_log : OpLog.SegmentedOpLogIndex :=
  {| OpLog.generation := 1; OpLog.levels := [0]; OpLog.entry_count := 1; OpLog.head_id := 1; OpLog.base := OpLog.empty;
     OpLog.segments := [container_of lost_entries] |}.

Example lost_recorded : OpLog.record_batch_scoped alice 7 OpLog.empty_log lost_ops (Some lane_a) = Ok ([1], lost_log).
Proof. vm_compute. reflexivity. Qed.

Definition lagging : Env := {| disk := store; oplog := lost_log; cached_local := 0; cached_shared := 0 |}.

Lemma lost_log_of : log_of lost_log lost_entries.
Proof.
  exists [], [lost_entries]. split; [|done]. split; try done.
  - by right.
  - repeat constructor; done.
  - repeat constructor.
  - constructor; [by intros ? ?%not_elem_of_nil|]. constructor; [|constructor]. by apply built_closed.
Qed.

Lemma update_ok n old new : thread_name n → id32 new → record_ok (ThreadUpdate n old new None).
Proof. intros Hn Hi. split; [|done|done]. intros k v [= <- <-]. split; [done|]. by intros i [= <-]. Qed.

Lemma lost_ok : Forall (λ x, record_ok (operation x)) lost_entries.
Proof.
  destruct names_ok as [Hmain _], sample_ids as (_ & H9 & _). apply (built_records_ok alice 7 (Some lane_a) lost_ops 1).
  constructor; [|constructor]. by apply update_ok.
Qed.

Lemma lagging_ready : ready 0 lagging lost_entries.
Proof.
  assert (∀ class, files (disk lagging) !! watermark_path 0 class = None) as Hn by (intros []; by vm_compute).
  split; [exact store_clean|exact lost_log_of|exact lost_ok| | |].
  - intros []; right; split; by vm_compute.
  - intros class c. by rewrite Hn.
  - intros class v. unfold mark. by rewrite Hn.
Qed.





(** ** A commit over it *)

Definition next_ops : list OpRecord := [ThreadUpdate main (sample_id 9) (sample_id 1) None].
Definition next_updates : list RefUpdate := [UThread main (Value (sample_id 9)) (Some (sample_id 1))].

Lemma next_coherent : coherent next_ops next_updates.
Proof.
  intros k new. unfold last_change. cbn [next_ops next_updates fmap list_fmap change_of omap list_omap]. unfold change_on. cbn [op_change].
  rewrite list_elem_of_singleton. destruct (decide (KThread main = k)) as [<-|Hne]; cbn [last].
  - split; [by intros [= ->]|by intros [= <-]].
  - split; [by intros [= ->]|done].
Qed.

Lemma commit_and_publish_atomic_witness :
  let new := OpLog.build_entries alice next_ops 2 8 (Some lane_a) in
  fst (commit_and_publish 0 lane_a (Some (alice, 8)) next_ops next_updates (Some lane_a) lagging) = Ok tt ∧
  rwp (commit_and_publish 0 lane_a (Some (alice, 8)) next_ops next_updates (Some lane_a))
    (λ _ e', batch_committed 0 lane_a lagging lost_entries new next_ops next_updates e')
    (λ x e', batch_absent 0 lane_a lagging lost_entries e' ∧ (faulty lagging ∨ x = Conflict) ∨
             batch_committed 0 lane_a lagging lost_entries new next_ops next_updates e' ∧ faulty lagging) lagging.
Proof.
  destruct names_ok as [Hmain _], sample_ids as (_ & _ & H1). split; [by vm_compute|].
  apply (commit_and_publish_atomic 0 lane_a alice 8 next_ops next_updates (Some lane_a) lagging lost_entries).
  - exact lagging_ready.
  - vm_compute. lia.
  - vm_compute. done.
  - split; by vm_compute.
  - done.
  - constructor; [|constructor]. by apply update_ok.
  - constructor; [|constructor]. split; [done|]. by intros i [= <-].
  - exact next_coherent.
Defined.

(** ** Two checkouts that share a thread

    Checkout 0, in the lane [lane_a], has its HEAD on [topic] and snapshots it to 1; checkout 1,
    in [lane_b], moves [topic] to 7. Each process opens the manager anew. *)

Definition open_in (checkout : Z) (e : Env) : Env := snd (init_reconcile_watermark checkout (open_manager (disk e) (oplog e))).
Definition first_env : Env := open_in 0 (open_manager (disk_of ∅ packed_new []) OpLog.empty_log).

Definition snapshot_run : exec RefError unit * Env :=
  (write_head 0 lane_a (Attached topic) ;;
   commit_and_publish 0 lane_a (Some (alice, 1)) [Snapshot (sample_id 1) None None (Some topic)]
     [UThread topic Any (Some (sample_id 1))] (Some lane_a)) first_env.
Definition update_run : exec RefError unit * Env :=
  commit_and_publish 1 lane_b (Some (alice, 2)) [ThreadUpdate topic (sample_id 1) (sample_id 7) None]
    [UThread topic (Value (sample_id 1)) (Some (sample_id 7))] (Some lane_b) (open_in 1 (snd snapshot_run)).
Definition updated_read : exec RefError (option (list Z)) * Env := RefReconcile.get_thread 1 lane_b topic (snd update_run).
Definition head_run : exec RefError Head * Env := read_head 0 lane_a (open_in 0 (snd updated_read)).
Definition lost_read : exec RefError (option (list Z)) * Env := RefReconcile.get_thread 1 lane_b topic (snd head_run).

(** C6. Reading HEAD in one checkout can undo a committed update of another. The update of [topic] to
    7 is committed and read back; then the first checkout, whose own watermark is older than its
    snapshot, reads HEAD. Catching up its HEAD republishes [topic] with the value of that
    snapshot, while the watermark of the shared refs is already past the update, so that no later
    read repairs it: [topic] reads 1 again. No operation fails. *)
Theorem local_reconcile_clobbers :
  fst snapshot_run = Ok tt ∧ fst update_run = Ok tt ∧ fst updated_read = Ok (Some (sample_id 7)) ∧
  fst head_run = Ok (Attached topic) ∧ fst lost_read = Ok (Some (sample_id 1)) ∧
  cached_shared (snd updated_read) = 2 ∧ generation (oplog (snd head_run)) = 2.
Proof. split_and!; by vm_compute. Qed.

Lemma fold_newest_change_witness : ∃ bs,
  OpLog.recent_batches_after_scoped lost_log 0 USIZE_MAX None = Ok bs ∧
  let ops := operation <$> window 0 None lost_entries in
  let f := RefFold.fold_batches bs 0 in
  (∀ k, fold_value f k = last_change ops k) ∧
  RefFold.f_head f = default RefFold.Untouched (last (omap op_head ops)) ∧
  RefFold.f_undo f = last (omap op_undo ops).
Proof. apply (fold_newest_change lost_log lost_entries 0 RefFold.Shared lane_a); [exact lost_log_of|lia]. Defined.
