(* ===== verification/Cursor.v ===== *)
(** * Strict readers of binary records

    The byte cursors of the manifest codecs: [Reader] of
    [crates/object-model/src/object/manifest/node.rs], and the same code once more with
    other error types as [ClaimReader] of [extent.rs] and [BindingReader] of
    [binding.rs]; the errors are parameters. What the codecs need of a reader is
    [reads] (it reads back what was written) and [parses] (what it accepted was
    written so). *)

From S2P Require Import Prelude.
From S2P Require Import Text.
Import Text.

Module Cursor.

Record Reader := { rbytes : list Z; pos : Z }.

Definition reader_new (bytes : list Z) : Reader := {| rbytes := bytes; pos := 0 |}.

Section errors.
Context {E : Type} (truncated invalid_utf8 : E).

Definition take (r : Reader) (len : Z) : exec E (list Z * Reader) :=
  stop ← ok_or (checked_add (pos r) len) truncated;
  slice ← ok_or (get_range (rbytes r) (pos r) stop) truncated;
  Ok (slice, {| rbytes := rbytes r; pos := stop |}).

Definition read_u8 (r : Reader) : exec E (Z * Reader) :=
  '(b, r) ← take r 1; x ← index b 0; Ok (x, r).

Definition read_u16 (r : Reader) : exec E (Z * Reader) :=
  '(b, r) ← take r 2; b0 ← index b 0; b1 ← index b 1; Ok (from_be_bytes [b0; b1], r).

Definition read_u32 (r : Reader) : exec E (Z * Reader) :=
  '(b, r) ← take r 4;
  b0 ← index b 0; b1 ← index b 1; b2 ← index b 2; b3 ← index b 3;
  Ok (from_be_bytes [b0; b1; b2; b3], r).

(** [arr.copy_from_slice(bytes)] panics when the lengths differ. *)
Definition copy_array (n : Z) (b : list Z) : exec E (list Z) := if zlen b =? n then Ok b else Panic.

Definition read_u64 (r : Reader) : exec E (Z * Reader) :=
  '(b, r) ← take r 8; arr ← copy_array 8 b; Ok (from_be_bytes arr, r).

Definition read_hash (r : Reader) : exec E (list Z * Reader) :=
  '(b, r) ← take r 32; arr ← copy_array 32 b; Ok (arr, r).

Definition short_string (r : Reader) : exec E (list Z * Reader) :=
  '(len, r) ← read_u16 r;
  '(b, r) ← take r len;
  if is_utf8 b then Ok (b, r) else Err invalid_utf8.

Definition is_exhausted (r : Reader) : bool := pos r =? zlen (rbytes r).
End errors.

(** ** What is left to read *)
Definition rest (r : Reader) : list Z := sub_list (rbytes r) (pos r) (zlen (rbytes r)).
Definition advance (r : Reader) (n : Z) : Reader := {| rbytes := rbytes r; pos := pos r + n |}.
Definition within (r : Reader) : Prop := 0 ≤ pos r ≤ zlen (rbytes r) ∧ zlen (rbytes r) ≤ USIZE_MAX.

(** [m] reads the bytes [v] as the value [a]. *)
Definition reads {E A} (m : Reader → exec E (A * Reader)) (v : list Z) (a : A) : Prop :=
  ∀ r post, within r → rest r = v ++ post → m r = Ok (a, advance r (zlen v)).

(** Whatever value [m] returns, it is in the relation [R] with the bytes read; its errors
    satisfy [Er], and it never panics. *)
Definition parses {E A} (m : Reader → exec E (A * Reader)) (R : list Z → A → Prop) (Er : E → Prop) : Prop :=
  ∀ r, within r → bytes_ok (rbytes r) →
    settles (m r) (λ p, ∃ v, p.2 = advance r (zlen v) ∧ within p.2 ∧ rest r = v ++ rest p.2
                             ∧ bytes_ok v ∧ R v p.1) Er.

End Cursor.
Import Cursor.

Lemma rest_new bytes : rest (reader_new bytes) = bytes.
Proof. apply sub_list_full. Qed.
Lemma within_new bytes : zlen bytes ≤ USIZE_MAX → within (reader_new bytes).
Proof. unfold within. cbn. intros. zlen_pose. lia. Qed.

Lemma rest_advance r v post : within r → rest r = v ++ post → rest (advance r (zlen v)) = post ∧ within (advance r (zlen v)).
Proof.
  unfold within, rest, advance. cbn. intros [Hp Hm] Hr.
  assert (zlen (v ++ post) = zlen (rbytes r) - pos r) as Hl by (rewrite <- Hr; by apply zlen_sub_list).
  rewrite zlen_app in Hl. zlen_pose. split; [|lia].
  rewrite <- (sub_list_app _ _ (pos r + zlen v)) in Hr by lia.
  apply app_inj_1 in Hr as [_ Hr]; [done|].
  assert (zlen (sub_list (rbytes r) (pos r) (pos r + zlen v)) = zlen v); [|unfold zlen in *; lia].
  rewrite zlen_sub_list; lia.
Qed.

Lemma exhausted_rest r : within r → is_exhausted r = bool_decide (rest r = []).
Proof.
  intros [Hp _]. unfold is_exhausted, rest.
  pose proof (zlen_sub_list (rbytes r) (pos r) (zlen (rbytes r)) Hp ltac:(lia)) as Hl.
  case_bool_decide as E.
  - rewrite E in Hl. change (zlen (@nil Z)) with 0 in Hl. apply Z.eqb_eq. lia.
  - apply Z.eqb_neq. intros Hx. apply E. apply zlen_0_nil. lia.
Qed.

Section laws.
Context {E : Type} (truncated invalid_utf8 : E).

Lemma reads_bind {A B} (m : Reader → exec E (A * Reader)) (f : A → Reader → exec E (B * Reader)) v w a b :
  reads m v a → reads (f a) w b → reads (λ r, '(x, r) ← m r; f x r) (v ++ w) b.
Proof.
  intros Hm Hf r post Hr Hrest. rewrite <- app_assoc in Hrest. rewrite (Hm r (w ++ post) Hr Hrest). cbn.
  destruct (rest_advance r v _ Hr Hrest) as [H1 H2]. rewrite (Hf _ post H2 H1).
  unfold advance. cbn. rewrite zlen_app. do 3 f_equal. lia.
Qed.

Lemma reads_last {A B} (m : Reader → exec E (A * Reader)) (f : A → Reader → exec E (B * Reader)) v a b :
  reads m v a → reads (f a) [] b → reads (λ r, '(x, r) ← m r; f x r) v b.
Proof. intros Hm Hf. rewrite <- (app_nil_r v). by apply reads_bind with a. Qed.

Lemma reads_ret {A} (a : A) : reads (λ r, Ok (E:=E) (a, r)) [] a.
Proof. intros [] post _ _. unfold advance. cbn. rewrite zlen_nil. by rewrite Z.add_0_r. Qed.

Lemma reads_take v : reads (λ r, take truncated r (zlen v)) v v.
Proof.
  intros r post Hr Hrest. pose proof (rest_advance r v post Hr Hrest) as [H1 [H2 _]].
  destruct Hr as [Hp Hm]. unfold take, advance in *. cbn in *. unfold checked_add.
  destruct (Z.leb_spec (pos r + zlen v) USIZE_MAX); [|lia]. cbn.
  replace (get_range _ _ _) with (Some v); [done|]. symmetry. apply get_range_Some. zlen_pose.
  split; [lia|]. split; [lia|].
  pose proof (sub_list_app (rbytes r) (pos r) (pos r + zlen v) (zlen (rbytes r)) ltac:(lia) ltac:(lia)) as Ha.
  unfold rest in *. rewrite <- Ha in Hrest. cbn in H1. rewrite H1 in Hrest. by apply app_inv_tail in Hrest.
Qed.

Lemma take_parses len : 0 ≤ len →
  parses (λ r, take truncated r len) (λ v a, a = v ∧ zlen v = len) (λ e, e = truncated).
Proof.
  intros Hlen r Hr Hb. unfold take, checked_add. destruct (Z.leb_spec (pos r + len) USIZE_MAX); cbn; [|done].
  destruct (get_range (rbytes r) (pos r) (pos r + len)) as [v|] eqn:Hg; cbn; [|done].
  apply get_range_Some in Hg as (H1 & H2 & ->). destruct Hr as [Hp Hm].
  pose proof (zlen_sub_list (rbytes r) (pos r) (pos r + len) ltac:(lia) H2) as Hl.
  exists (sub_list (rbytes r) (pos r) (pos r + len)). unfold advance, within, rest. cbn.
  split; [do 2 f_equal; lia|]. split; [lia|]. split; [by rewrite sub_list_app by lia|].
  split; [by apply Forall_sub_list|]. split; [done|lia].
Qed.

Lemma parses_bind {A B} (m : Reader → exec E (A * Reader)) (f : A → Reader → exec E (B * Reader)) R S Er :
  parses m R Er → (∀ a v, R v a → parses (f a) (λ w b, S (v ++ w) b) Er) →
  parses (λ r, '(x, r) ← m r; f x r) S Er.
Proof.
  intros Hm Hf r Hr Hb. apply settles_bind. eapply settles_mono; [by apply Hm| |done].
  intros [a r1] (v & E1 & Hr1 & Erest & Hv & HR). cbn in *. subst r1.
  eapply settles_mono; [apply (Hf a v HR); [done|by cbn]| |done].
  intros [b r2] (w & E2 & Hr2 & Erest2 & Hw & HS). cbn in *. exists (v ++ w).
  split; [rewrite E2; unfold advance; cbn; rewrite zlen_app; f_equal; lia|].
  split; [done|]. split; [by rewrite Erest, Erest2, app_assoc|]. split; [by apply Forall_app|done].
Qed.

Lemma parses_ret {A} (a : A) (R : list Z → A → Prop) Er :
  R [] a → parses (λ r, Ok (E:=E) (a, r)) R Er.
Proof.
  intros HR r Hr Hb. cbn. exists []. unfold advance. cbn. rewrite zlen_nil.
  split; [destruct r; cbn; f_equal; lia|]. done.
Qed.
Lemma parses_err {A} e (R : list Z → A → Prop) (Er : E → Prop) : Er e → parses (λ r, Err e) R Er.
Proof. by intros He r _ _. Qed.

Lemma parses_mono {A} (m : Reader → exec E (A * Reader)) R R' (Er Er' : E → Prop) :
  parses m R Er → (∀ v a, bytes_ok v → R v a → R' v a) → (∀ e, Er e → Er' e) → parses m R' Er'.
Proof.
  intros Hm HR HE r Hr Hb. eapply settles_mono; [by apply Hm| |done].
  intros p (v & H1 & H2 & H3 & H4 & H5). exists v. eauto 10.
Qed.

(** The fixed-width integers *)
Lemma from_be_1 b : from_be_bytes [b] = b.
Proof. unfold from_be_bytes. cbn [fold_left]. lia. Qed.

Lemma reads_u8 b : is_byte b → reads (read_u8 truncated) [b] b.
Proof.
  intros Hb r post Hr Hrest. unfold read_u8.
  pose proof (reads_take [b] r post Hr Hrest) as Ht. change (zlen [b]) with 1 in Ht. by rewrite Ht.
Qed.
Lemma u8_parses : parses (read_u8 truncated) (λ v a, v = [a] ∧ is_byte a) (λ e, e = truncated).
Proof.
  intros r Hr Hb. unfold read_u8. apply settles_bind. eapply settles_mono; [by apply (take_parses 1)| |done].
  intros [v r1] (w & H1 & H2 & H3 & H4 & Hv & Hl). cbn in *. subst v.
  destruct w as [|x [|? ?]]; try (zlen_pose; unfold zlen in *; cbn in *; lia). cbn.
  exists [x]. split; [done|]. split; [done|]. split; [done|]. split; [done|]. split; [done|]. by inversion H4.
Qed.

Lemma four {A} (v : list A) : zlen v = 4 → ∃ a b c d, v = [a; b; c; d].
Proof. destruct v as [|a [|b [|c [|d [|? ?]]]]]; unfold zlen; cbn; intros; try lia. by eauto. Qed.
Lemma two {A} (v : list A) : zlen v = 2 → ∃ a b, v = [a; b].
Proof. destruct v as [|a [|b [|? ?]]]; unfold zlen; cbn; intros; try lia. by eauto. Qed.

Lemma reads_be n (m : Reader → exec E (Z * Reader)) x :
  (∀ v r post, zlen v = Z.of_nat n → within r → rest r = v ++ post → m r = Ok (from_be_bytes v, advance r (zlen v))) →
  0 ≤ x < 256 ^ Z.of_nat n → reads m (to_be_bytes n x) x.
Proof.
  intros Hm Hx r post Hr Hrest. rewrite (Hm (to_be_bytes n x) r post) by (done || apply zlen_to_be_bytes).
  by rewrite from_to_be_bytes_small.
Qed.

Lemma reads_u16 x : 0 ≤ x < 65536 → reads (read_u16 truncated) (to_be_bytes 2 x) x.
Proof.
  intros Hx. apply reads_be; [|done]. intros v r post Hv Hr Hrest. unfold read_u16.
  replace 2 with (zlen v) at 1. rewrite (reads_take v r post) by done.
  apply two in Hv as (a & b & ->). done.
Qed.
Lemma reads_u32 x : 0 ≤ x < 4294967296 → reads (read_u32 truncated) (to_be_bytes 4 x) x.
Proof.
  intros Hx. apply reads_be; [|done]. intros v r post Hv Hr Hrest. unfold read_u32.
  replace 4 with (zlen v) at 1. rewrite (reads_take v r post) by done.
  apply four in Hv as (a & b & c & d & ->). done.
Qed.
Lemma reads_u64 x : 0 ≤ x ≤ U64_MAX → reads (read_u64 truncated) (to_be_bytes 8 x) x.
Proof.
  intros Hx. apply reads_be; [|unfold U64_MAX in Hx; change (256 ^ Z.of_nat 8) with 18446744073709551616; lia].
  intros v r post Hv Hr Hrest. unfold read_u64.
  replace 8 with (zlen v) at 1. rewrite (reads_take v r post) by done. cbn -[zlen].
  unfold copy_array. rewrite Hv. done.
Qed.
Lemma reads_hash v : zlen v = 32 → reads (read_hash truncated) v v.
Proof.
  intros Hv r post Hr Hrest. unfold read_hash.
  replace 32 with (zlen v) at 1. rewrite (reads_take v r post) by done. cbn -[zlen].
  unfold copy_array. by rewrite Hv.
Qed.
Lemma reads_short_string v :
  is_utf8 v = true → zlen v < 65536 →
  reads (short_string truncated invalid_utf8) (to_be_bytes 2 (zlen v) ++ v) v.
Proof.
  intros Hu Hl. unfold short_string. apply reads_bind with (a := zlen v); [apply reads_u16; zlen_pose; lia|].
  apply reads_last with (a := v); [apply reads_take|].
  rewrite Hu. apply reads_ret.
Qed.

Lemma be_parses n (m : Reader → exec E (Z * Reader)) :
  (∀ r, within r → bytes_ok (rbytes r) →
     settles (m r) (λ p, ∃ v, p.2 = advance r (zlen v) ∧ within p.2 ∧ rest r = v ++ rest p.2
                              ∧ bytes_ok v ∧ zlen v = Z.of_nat n ∧ p.1 = from_be_bytes v) (λ e, e = truncated)) →
  parses m (λ v a, v = to_be_bytes n a ∧ 0 ≤ a < 256 ^ Z.of_nat n) (λ e, e = truncated).
Proof.
  intros Hm r Hr Hb. eapply settles_mono; [by apply Hm| |done].
  intros p (v & H1 & H2 & H3 & H4 & Hl & ->). exists v. repeat (split; [done|]).
  split; [symmetry; by apply to_from_be_bytes|]. rewrite <- Hl. by apply from_be_bytes_bound.
Qed.

Lemma u16_parses : parses (read_u16 truncated) (λ v a, v = to_be_bytes 2 a ∧ 0 ≤ a < 65536) (λ e, e = truncated).
Proof.
  apply (be_parses 2). intros r Hr Hb. unfold read_u16. apply settles_bind.
  eapply settles_mono; [by apply (take_parses 2)| |done].
  intros [v r1] (w & H1 & H2 & H3 & H4 & Hv & Hl). cbn in *. subst v. pose proof (two w Hl) as (a & b & ->). cbn. by exists [a; b].
Qed.
Lemma u32_parses : parses (read_u32 truncated) (λ v a, v = to_be_bytes 4 a ∧ 0 ≤ a < 4294967296) (λ e, e = truncated).
Proof.
  apply (be_parses 4). intros r Hr Hb. unfold read_u32. apply settles_bind.
  eapply settles_mono; [by apply (take_parses 4)| |done].
  intros [v r1] (w & H1 & H2 & H3 & H4 & Hv & Hl). cbn in *. subst v. pose proof (four w Hl) as (a & b & c & d & ->). cbn. by exists [a; b; c; d].
Qed.
Lemma u64_parses : parses (read_u64 truncated) (λ v a, v = to_be_bytes 8 a ∧ 0 ≤ a ≤ U64_MAX) (λ e, e = truncated).
Proof.
  eapply parses_mono; [apply (be_parses 8)| |done].
  - intros r Hr Hb. unfold read_u64. apply settles_bind. eapply settles_mono; [by apply (take_parses 8)| |done].
    intros [v r1] (w & H1 & H2 & H3 & H4 & Hv & Hl). cbn -[zlen] in *. subst v. unfold copy_array. rewrite Hl. cbn -[zlen].
    exists w. done.
  - intros v a _ [-> Ha]. split; [done|]. unfold U64_MAX. change (256 ^ Z.of_nat 8) with 18446744073709551616 in Ha. lia.
Qed.
Lemma hash_parses : parses (read_hash truncated) (λ v a, v = a ∧ zlen a = 32) (λ e, e = truncated).
Proof.
  intros r Hr Hb. unfold read_hash. apply settles_bind. eapply settles_mono; [by apply (take_parses 32)| |done].
  intros [v r1] (w & H1 & H2 & H3 & H4 & Hv & Hl). cbn -[zlen] in *. subst v. unfold copy_array. rewrite Hl. cbn -[zlen].
  exists w. done.
Qed.
Lemma short_string_parses :
  parses (short_string truncated invalid_utf8)
    (λ v a, v = to_be_bytes 2 (zlen a) ++ a ∧ zlen a < 65536 ∧ is_utf8 a = true) (λ e, e = truncated ∨ e = invalid_utf8).
Proof.
  unfold short_string. eapply parses_bind; [eapply parses_mono; [apply u16_parses|done|by left]|].
  intros n v [-> Hn]. eapply parses_bind; [eapply parses_mono; [apply take_parses; lia|done|by left]|].
  intros a w [-> Ha]. destruct (is_utf8 w) eqn:Hu.
  - apply parses_ret. rewrite app_nil_r, Ha. split; [done|]. split; [lia|done].
  - apply parses_err. by right.
Qed.
End laws.
