(* ===== verification/Manifest.v ===== *)
(** * Manifest nodes ([crates/object-model/src/object/manifest/node.rs])

    The canonical nodes of the manifest trie: object keys and their routes, leaves and
    branches, their one byte string and its strict decoder. BLAKE3 is a parameter; a
    [ContentHash] is its list of 32 bytes, and [compare_bytes] is its order. *)

From S2P Require Import Prelude.
From S2P Require Import Cursor.
Import Cursor.

Module Manifest.

(** ["WPMF"], ["weft-plan-manifest-key-v1"] *)
Definition MANIFEST_NODE_MAGIC : list Z := [87; 80; 77; 70].
Definition MANIFEST_FORMAT_VERSION : Z := 1.
Definition MANIFEST_ROUTE_DOMAIN : list Z :=
  [119; 101; 102; 116; 45; 112; 108; 97; 110; 45; 109; 97; 110; 105; 102; 101; 115; 116; 45;
   107; 101; 121; 45; 118; 49].
Definition MANIFEST_ROUTE_BITS : Z := 5.
Definition MANIFEST_BRANCH_WIDTH : Z := 32.
Definition MANIFEST_ROUTE_LEVELS : Z := 52.
Definition MANIFEST_LEAF_MAX_ENTRIES : Z := 16.
Definition TAG_LEAF : Z := 0.
Definition TAG_BRANCH : Z := 1.

(** ** Objects and keys *)
Inductive ManifestObjectKind := Blob | Tree.

Definition kind_to_byte (k : ManifestObjectKind) : Z := match k with Blob => 0 | Tree => 1 end.
Definition kind_from_byte (b : Z) : option ManifestObjectKind :=
  if b =? 0 then Some Blob else if b =? 1 then Some Tree else None.

Record ManifestKey := MKey { k_kind : ManifestObjectKind; k_hash : list Z }.
Record ManifestObject := MObject { o_kind : ManifestObjectKind; o_hash : list Z; decoded_size : Z }.

Definition key (o : ManifestObject) : ManifestKey := MKey (o_kind o) (o_hash o).

(** The derived orders: fields in order of declaration. *)
Definition compare_key (a b : ManifestKey) : comparison :=
  match kind_to_byte (k_kind a) ?= kind_to_byte (k_kind b) with
  | Eq => compare_bytes (k_hash a) (k_hash b)
  | c => c
  end.
Definition compare_object (a b : ManifestObject) : comparison :=
  match compare_key (key a) (key b) with
  | Eq => decoded_size a ?= decoded_size b
  | c => c
  end.
Definition by_key (a b : ManifestObject) : comparison := compare_key (key a) (key b).

#[export] Instance kind_eq_dec : EqDecision ManifestObjectKind.
Proof. solve_decision. Defined.
#[export] Instance key_eq_dec : EqDecision ManifestKey.
Proof. solve_decision. Defined.
#[export] Instance object_eq_dec : EqDecision ManifestObject.
Proof. solve_decision. Defined.

#[export] Instance kind_countable : Countable ManifestObjectKind :=
  inj_countable kind_to_byte kind_from_byte ltac:(by intros []).
#[export] Instance key_countable : Countable ManifestKey :=
  inj_countable' (λ k, (k_kind k, k_hash k)) (λ p, MKey p.1 p.2) ltac:(by intros []).
#[export] Instance object_countable : Countable ManifestObject :=
  inj_countable' (λ o, (o_kind o, o_hash o, decoded_size o)) (λ p, MObject p.1.1 p.1.2 p.2) ltac:(by intros []).

(** ** Nodes *)
Record ManifestChild := MChild { slot : Z; c_hash : list Z; object_count : Z; decoded_bytes : Z }.
Record ManifestLeaf := MLeaf { entries : list ManifestObject }.
Record ManifestBranch := MBranch { depth : Z; children : list ManifestChild }.
Inductive ManifestNode := Leaf (l : ManifestLeaf) | Branch (b : ManifestBranch).

#[export] Instance child_eq_dec : EqDecision ManifestChild.
Proof. solve_decision. Defined.
#[export] Instance leaf_eq_dec : EqDecision ManifestLeaf.
Proof. solve_decision. Defined.
#[export] Instance branch_eq_dec : EqDecision ManifestBranch.
Proof. solve_decision. Defined.
#[export] Instance node_eq_dec : EqDecision ManifestNode.
Proof. solve_decision. Defined.

Inductive ManifestNodeError :=
| NodeDuplicateObjectKey (k : ManifestKey)
| LeafCountOverflow (n : Z)
| NodeEmptyBranchBitmap
| SlotOutOfRange (s : Z)
| DuplicateBranchSlot (s : Z).

(** [v.windows(2).find(|w| f(w[0]) == f(w[1])).map(|w| f(w[0]))] *)
Fixpoint twin {A B} `{EqDecision B} (f : A → B) (v : list A) : option B :=
  match v with
  | x :: (y :: _) as v' => if decide (f x = f y) then Some (f x) else twin f v'
  | _ => None
  end.

Definition leaf_new (es : list ManifestObject) : exec ManifestNodeError ManifestLeaf :=
  let es := sort_by by_key es in
  match twin key es with
  | Some k => Err (NodeDuplicateObjectKey k)
  | None => if zlen es <=? 65535 then Ok (MLeaf es) else Err (LeafCountOverflow (zlen es))
  end.

(** [entries.len() as u64] *)
Definition leaf_object_count (l : ManifestLeaf) : Z := as_u64 (zlen (entries l)).
Fixpoint sum_checked (acc : Z) (es : list ManifestObject) : option Z :=
  match es with
  | [] => Some acc
  | e :: es => acc ← checked_add acc (decoded_size e); sum_checked acc es
  end.
Definition leaf_decoded_bytes (l : ManifestLeaf) : option Z := sum_checked 0 (entries l).

Definition branch_new (d : Z) (cs : list ManifestChild) : exec ManifestNodeError ManifestBranch :=
  let cs := sort_by (λ a b, slot a ?= slot b) cs in
  match cs with
  | [] => Err NodeEmptyBranchBitmap
  | _ =>
      match find (λ c, MANIFEST_BRANCH_WIDTH <=? slot c) cs with
      | Some c => Err (SlotOutOfRange (slot c))
      | None =>
          match twin slot cs with
          | Some s => Err (DuplicateBranchSlot s)
          | None => Ok (MBranch d cs)
          end
      end
  end.

Definition bitmap (b : ManifestBranch) : Z :=
  fold_left (λ acc c, Z.lor acc (as_u32 (Z.shiftl 1 (slot c)))) (children b) 0.
Definition child_at (b : ManifestBranch) (s : Z) : option ManifestChild :=
  find (λ c, slot c =? s) (children b).

Definition node_empty : ManifestNode := Leaf (MLeaf []).

(** ** Encoding *)
Definition encode_entry (e : ManifestObject) : list Z :=
  [kind_to_byte (o_kind e)] ++ o_hash e ++ to_be_bytes 8 (decoded_size e).
Definition encode_child (c : ManifestChild) : list Z :=
  c_hash c ++ to_be_bytes 8 (object_count c) ++ to_be_bytes 8 (decoded_bytes c).

Definition encode (n : ManifestNode) : list Z :=
  match n with
  | Leaf l =>
      fold_left (λ out e, out ++ encode_entry e) (entries l)
        (MANIFEST_NODE_MAGIC ++ [MANIFEST_FORMAT_VERSION] ++ [TAG_LEAF] ++ to_be_bytes 2 (zlen (entries l)))
  | Branch b =>
      fold_left (λ out c, out ++ encode_child c) (children b)
        (MANIFEST_NODE_MAGIC ++ [MANIFEST_FORMAT_VERSION] ++ [TAG_BRANCH] ++ [depth b] ++ to_be_bytes 4 (bitmap b))
  end.

(** ** Decoding *)
Inductive ManifestDecodeError :=
| BadMagic
| UnsupportedVersion (v : Z)
| UnknownNodeTag (t : Z)
| UnknownObjectKind (k : Z)
| Truncated
| TrailingBytes
| EntriesOutOfOrder
| DuplicateObjectKey (k : ManifestKey)
| EmptyBranchBitmap
| NonCanonicalEncoding
| AddressMismatch (expected actual : list Z).

Definition dres := (exec ManifestDecodeError).

Definition check_order (previous : option ManifestKey) (k : ManifestKey) : dres unit :=
  match previous with
  | Some prev =>
      if decide (prev = k) then Err (DuplicateObjectKey k)
      else if decide (compare_key prev k = Gt) then Err EntriesOutOfOrder
      else Ok ()
  | None => Ok ()
  end.

(** [for _ in 0..count]: the entries, [previous] being the key of the last one. *)
Fixpoint decode_entries (count : nat) (previous : option ManifestKey) (r : Reader) : dres (list ManifestObject * Reader) :=
  match count with
  | O => Ok ([], r)
  | S count =>
      '(kind_byte, r) ← read_u8 Truncated r;
      kind ← ok_or (kind_from_byte kind_byte) (UnknownObjectKind kind_byte);
      '(hash, r) ← read_hash Truncated r;
      '(decoded_size, r) ← read_u64 Truncated r;
      let k := MKey kind hash in
      _ ← check_order previous k;
      '(es, r) ← decode_entries count (Some k) r;
      Ok (MObject kind hash decoded_size :: es, r)
  end.

(** [for slot in 0..MANIFEST_BRANCH_WIDTH as u8] *)
Fixpoint decode_children (slots : list Z) (bits : Z) (r : Reader) : dres (list ManifestChild * Reader) :=
  match slots with
  | [] => Ok ([], r)
  | s :: slots =>
      if Z.land bits (as_u32 (Z.shiftl 1 s)) =? 0 then decode_children slots bits r
      else
        '(hash, r) ← read_hash Truncated r;
        '(object_count, r) ← read_u64 Truncated r;
        '(decoded_bytes, r) ← read_u64 Truncated r;
        '(cs, r) ← decode_children slots bits r;
        Ok (MChild s hash object_count decoded_bytes :: cs, r)
  end.

Definition decode_body (r : Reader) : dres (ManifestNode * Reader) :=
  '(magic, r) ← take Truncated r 4;
  if bool_decide (magic ≠ MANIFEST_NODE_MAGIC) then Err BadMagic
  else
    '(version, r) ← read_u8 Truncated r;
    if negb (version =? MANIFEST_FORMAT_VERSION) then Err (UnsupportedVersion version)
    else
      '(tag, r) ← read_u8 Truncated r;
      if tag =? TAG_LEAF then
        '(count, r) ← read_u16 Truncated r;
        '(es, r) ← decode_entries (Z.to_nat count) None r;
        Ok (Leaf (MLeaf es), r)
      else if tag =? TAG_BRANCH then
        '(d, r) ← read_u8 Truncated r;
        '(bits, r) ← read_u32 Truncated r;
        if bits =? 0 then Err EmptyBranchBitmap
        else
          '(cs, r) ← decode_children (seqZ 0 MANIFEST_BRANCH_WIDTH) bits r;
          Ok (Branch (MBranch d cs), r)
      else Err (UnknownNodeTag tag).

Definition decode_inner (bytes : list Z) : dres ManifestNode :=
  '(node, r) ← decode_body (reader_new bytes);
  if negb (is_exhausted r) then Err TrailingBytes else Ok node.

Definition decode (bytes : list Z) : dres ManifestNode :=
  node ← decode_inner bytes;
  if bool_decide (encode node ≠ bytes) then Err NonCanonicalEncoding else Ok node.

Definition leaf_entries (n : ManifestNode) : list ManifestObject :=
  match n with Leaf l => entries l | Branch _ => [] end.

Section hashing.
Context (blake3 : list Z → list Z).

(** The 256 routing bits of a key, [ManifestRoute] *)
Definition route (k : ManifestKey) : list Z :=
  blake3 (MANIFEST_ROUTE_DOMAIN ++ [kind_to_byte (k_kind k)] ++ k_hash k).

Definition address (n : ManifestNode) : list Z := blake3 (encode n).

Definition decode_addressed (bytes expected : list Z) : dres ManifestNode :=
  node ← decode bytes;
  let actual := blake3 bytes in
  if bool_decide (actual ≠ expected) then Err (AddressMismatch expected actual) else Ok node.
End hashing.

(** [ManifestRoute::group]: bit [i] of the route, counted from the most significant one
    of its first byte; zeros after the last. *)
Definition route_bit (route : list Z) (i : Z) : Z :=
  if 256 <=? i then 0
  else Z.land (Z.shiftr (default 0 (get route (i / 8))) (7 - i `mod` 8)) 1.
Definition group (route : list Z) (level : Z) : Z :=
  let start := level * MANIFEST_ROUTE_BITS in
  fold_left (λ value offset, Z.lor (as_u8 (Z.shiftl value 1)) (route_bit route (start + offset))) (seqZ 0 MANIFEST_ROUTE_BITS) 0.

End Manifest.

Import Manifest.

(** ** The orders *)
Definition key_lt (a b : ManifestKey) : Prop := compare_key a b = Lt.

Lemma kind_byte_inj a b : kind_to_byte a = kind_to_byte b → a = b.
Proof. by destruct a, b. Qed.
Lemma kind_to_from a : kind_from_byte (kind_to_byte a) = Some a.
Proof. by destruct a. Qed.
Lemma kind_from_to b k : kind_from_byte b = Some k → b = kind_to_byte k.
Proof. unfold kind_from_byte. repeat case_match; intros [= <-]; cbn; lia. Qed.

Lemma compare_key_eq a b : compare_key a b = Eq ↔ a = b.
Proof.
  unfold compare_key. destruct a as [ka ha], b as [kb hb]; cbn.
  destruct (Z.compare_spec (kind_to_byte ka) (kind_to_byte kb)) as [H|H|H]; split; try done; intros Hx.
  - apply compare_bytes_eq in Hx. apply kind_byte_inj in H. by subst.
  - simplify_eq. by apply compare_bytes_eq.
  - simplify_eq. lia.
  - simplify_eq. lia.
Qed.

Lemma compare_key_antisym a b : compare_key b a = CompOpp (compare_key a b).
Proof.
  unfold compare_key. rewrite Z.compare_antisym, compare_bytes_antisym.
  by destruct (kind_to_byte (k_kind a) ?= kind_to_byte (k_kind b)).
Qed.

Lemma compare_key_trans c a b d : compare_key a b = c → compare_key b d = c → compare_key a d = c.
Proof.
  unfold compare_key.
  destruct (Z.compare_spec (kind_to_byte (k_kind a)) (kind_to_byte (k_kind b))),
    (Z.compare_spec (kind_to_byte (k_kind b)) (kind_to_byte (k_kind d))),
    (Z.compare_spec (kind_to_byte (k_kind a)) (kind_to_byte (k_kind d))); intros; subst; try lia; try congruence.
  by eapply compare_bytes_trans.
Qed.

Lemma key_lt_irrefl a : ¬ key_lt a a.
Proof. unfold key_lt. intros H. assert (compare_key a a = Eq) by by apply compare_key_eq. congruence. Qed.
#[export] Instance key_lt_trans : Transitive key_lt.
Proof. intros a b c. apply compare_key_trans. Qed.

(** ** Well-formed nodes: what the constructors and the field types guarantee *)
Definition hash_ok (h : list Z) : Prop := zlen h = 32 ∧ bytes_ok h.
Definition u64_ok (x : Z) : Prop := 0 ≤ x ≤ U64_MAX.
Definition object_ok (o : ManifestObject) : Prop := hash_ok (o_hash o) ∧ u64_ok (decoded_size o).
Definition child_ok (c : ManifestChild) : Prop :=
  0 ≤ slot c < 32 ∧ hash_ok (c_hash c) ∧ u64_ok (object_count c) ∧ u64_ok (decoded_bytes c).

Definition node_ok (n : ManifestNode) : Prop :=
  match n with
  | Leaf l => StronglySorted key_lt (map key (entries l)) ∧ Forall object_ok (entries l) ∧ zlen (entries l) ≤ 65535
  | Branch b => is_byte (depth b) ∧ children b ≠ [] ∧ StronglySorted Z.lt (map slot (children b)) ∧ Forall child_ok (children b)
  end.

Definition fault (e : ManifestDecodeError) : Prop :=
  e ≠ NonCanonicalEncoding ∧ ∀ a b, e ≠ AddressMismatch a b.

Lemma fold_left_concat {A} (f : A → list Z) (xs : list A) acc :
  fold_left (λ out x, out ++ f x) xs acc = acc ++ concat (map f xs).
Proof.
  revert acc. induction xs as [|x xs IH]; intros acc; cbn; [by rewrite app_nil_r|].
  by rewrite IH, <- app_assoc.
Qed.

Lemma encode_leaf es :
  encode (Leaf (MLeaf es)) = MANIFEST_NODE_MAGIC ++ [MANIFEST_FORMAT_VERSION] ++ [TAG_LEAF] ++ to_be_bytes 2 (zlen es)
    ++ concat (map encode_entry es).
Proof. cbn [encode entries]. rewrite fold_left_concat. by rewrite <- !app_assoc. Qed.
Lemma encode_branch d cs :
  encode (Branch (MBranch d cs)) = MANIFEST_NODE_MAGIC ++ [MANIFEST_FORMAT_VERSION] ++ [TAG_BRANCH] ++ [d]
    ++ to_be_bytes 4 (bitmap (MBranch d cs)) ++ concat (map encode_child cs).
Proof. cbn [encode children depth]. rewrite fold_left_concat. by rewrite <- !app_assoc. Qed.

(** ** Entries of a leaf *)
Lemma check_order_ok previous k :
  check_order previous k = Ok () ↔ StronglySorted key_lt (option_list previous ++ [k]).
Proof.
  destruct previous as [p|]; cbn; [|split; [by repeat constructor|done]].
  unfold key_lt. repeat case_decide; split; try done.
  - subst. intros [_ Hx]%StronglySorted_inv. apply Forall_inv in Hx. by apply key_lt_irrefl in Hx.
  - intros [_ Hx]%StronglySorted_inv. apply Forall_inv in Hx. congruence.
  - intros _. repeat constructor. destruct (compare_key p k) eqn:E; [|done..].
    by apply compare_key_eq in E.
Qed.

Lemma entries_reads es previous :
  StronglySorted key_lt (option_list previous ++ map key es) → Forall object_ok es →
  reads (decode_entries (length es) previous) (concat (map encode_entry es)) es.
Proof.
  revert previous. induction es as [|[k h n] es IH]; intros previous Hs Hok; cbn [length decode_entries map concat].
  { apply reads_ret. }
  apply Forall_cons in Hok as [[[Hh Hb] Hn] Hok]. unfold encode_entry. cbn [o_kind o_hash decoded_size].
  rewrite <- !app_assoc.
  apply reads_bind with (a := kind_to_byte k); [apply reads_u8; by destruct k|]. rewrite kind_to_from. cbn -[take to_be_bytes].
  apply reads_bind with (a := h); [by apply reads_hash|].
  apply reads_bind with (a := n); [by apply reads_u64|].
  assert (check_order previous (MKey k h) = Ok ()) as ->.
  { apply check_order_ok. cbn in Hs.
    destruct previous; cbn in *; [|by repeat constructor].
    apply StronglySorted_inv in Hs as [_ Hs]. apply Forall_inv in Hs. by repeat constructor. }
  cbn -[take to_be_bytes decode_entries].
  apply reads_last with (a := es); [|apply reads_ret].
  apply IH; [|done]. cbn in *. destruct previous; [by apply StronglySorted_inv in Hs as [Hs _]|done].
Qed.

Lemma entries_parses n previous :
  parses (decode_entries n previous)
    (λ v es, v = concat (map encode_entry es) ∧ length es = n
             ∧ StronglySorted key_lt (option_list previous ++ map key es) ∧ Forall object_ok es) fault.
Proof.
  assert (fault Truncated) as HT by done.
  revert previous. induction n as [|n IH]; intros previous; cbn [decode_entries].
  { apply parses_ret. cbn. split; [done|]. split; [done|]. split; [|done].
    destruct previous; cbn; by repeat constructor. }
  eapply parses_bind; [eapply parses_mono; [apply u8_parses|done|by intros e ->]|]. intros b vb [-> Hb].
  destruct (kind_from_byte b) as [k|] eqn:Ek; [|by apply parses_err].
  apply kind_from_to in Ek as ->.
  cbn [ok_or mbind exec_bind].
  eapply parses_bind; [eapply parses_mono; [apply hash_parses|by intros v a Hv [-> Ha]; instantiate (1 := λ v a, v = a ∧ hash_ok a)|by intros e ->]|].
  intros h vh [-> Hh].
  eapply parses_bind; [eapply parses_mono; [apply u64_parses|done|by intros e ->]|]. intros s vs [-> Hn].
  destruct (check_order previous (MKey k h)) as [[]|e| |] eqn:Ec.
  - cbn [mbind exec_bind]. eapply parses_bind; [apply IH|]. intros es ves (-> & Hl & Hs & Hok). apply parses_ret.
    apply check_order_ok in Ec. rewrite app_nil_r. split; [|split; [|split]].
    + unfold encode_entry. cbn -[to_be_bytes]. by rewrite <- !app_assoc.
    + cbn. by rewrite Hl.
    + cbn in *. destruct previous as [p|]; cbn in *; [|done]. constructor; [done|].
      apply StronglySorted_inv in Ec as [_ Ec]. apply Forall_inv in Ec. constructor; [done|].
      apply StronglySorted_inv in Hs as [_ Hs]. eapply Forall_impl; [exact Hs|]. intros. by etrans.
    + by constructor.
  - apply parses_err. unfold check_order in Ec. repeat case_match; simplify_eq; done.
  - unfold check_order in Ec. repeat case_match; done.
  - unfold check_order in Ec. repeat case_match; done.
Qed.

(** ** Children of a branch *)
Lemma bit_test bits s : 0 ≤ s < 32 → (Z.land bits (as_u32 (Z.shiftl 1 s)) =? 0) = negb (Z.testbit bits s).
Proof.
  intros Hs. assert (as_u32 (Z.shiftl 1 s) = 2 ^ s) as ->.
  { unfold as_u32. rewrite Z.shiftl_1_l. apply Z.mod_small. split; [lia|].
    change 4294967296 with (2 ^ 32). apply Z.pow_lt_mono_r; lia. }
  destruct (Z.testbit bits s) eqn:E; cbn.
  - apply Z.eqb_neq. intros H. assert (Z.testbit (Z.land bits (2 ^ s)) s = true) as Ht; [|by rewrite H, Z.bits_0 in Ht].
    by rewrite Z.land_spec, E, Z.pow2_bits_true by lia.
  - apply Z.eqb_eq, Z.bits_inj'. intros n Hn. rewrite Z.land_spec, Z.bits_0.
    destruct (Z.eq_dec n s) as [->|]; [by rewrite E|]. by rewrite Z.pow2_bits_false, andb_false_r by lia.
Qed.

Lemma bitmap_testbit cs acc i :
  0 ≤ i → Forall (λ c, 0 ≤ slot c < 32) cs →
  Z.testbit (fold_left (λ acc c, Z.lor acc (as_u32 (Z.shiftl 1 (slot c)))) cs acc) i
  = Z.testbit acc i || bool_decide (i ∈ map slot cs).
Proof.
  intros Hi. revert acc. induction cs as [|c cs IH]; intros acc Hc; cbn [fold_left map].
  { by rewrite (bool_decide_eq_false_2 _ (not_elem_of_nil i)), orb_false_r. }
  apply Forall_cons in Hc as [Hc Hcs]. rewrite IH by done. rewrite Z.lor_spec, <- orb_assoc. f_equal.
  assert (Z.testbit (as_u32 (Z.shiftl 1 (slot c))) i = bool_decide (i = slot c)) as ->.
  { unfold as_u32. rewrite Z.shiftl_1_l, Z.mod_small.
    - rewrite Z.pow2_bits_eqb by lia. apply eq_iff_eq_true. rewrite Z.eqb_eq, bool_decide_eq_true. split; congruence.
    - split; [lia|]. change 4294967296 with (2 ^ 32). apply Z.pow_lt_mono_r; lia. }
  rewrite <- bool_decide_or. apply bool_decide_ext. by rewrite elem_of_cons.
Qed.

Lemma bitmap_range d cs : Forall (λ c, 0 ≤ slot c < 32) cs → 0 ≤ bitmap (MBranch d cs) < 4294967296.
Proof.
  intros Hc. unfold bitmap. cbn [children].
  assert (∀ acc, 0 ≤ acc < 2 ^ 32 →
    0 ≤ fold_left (λ acc c, Z.lor acc (as_u32 (Z.shiftl 1 (slot c)))) cs acc < 2 ^ 32) as H; [|by apply (H 0)].
  clear Hc. induction cs as [|c cs IH]; intros acc Ha; cbn [fold_left]; [done|]. apply IH.
  assert (0 ≤ as_u32 (Z.shiftl 1 (slot c)) < 2 ^ 32) as Hs by (apply Z.mod_pos_bound; lia).
  split; [apply Z.lor_nonneg; lia|]. apply Z.log2_lt_cancel. 
  rewrite Z.log2_lor, Z.log2_pow2 by lia.
  assert (∀ x, 0 ≤ x < 2 ^ 32 → Z.log2 x < 32) as Hl; [|by apply Z.max_lub_lt; apply Hl].
  intros x Hx. destruct (Z.eq_dec x 0) as [->|]; [done|]. apply Z.log2_lt_pow2; lia.
Qed.

Lemma testbit_above bits i : 0 ≤ bits < 4294967296 → 32 ≤ i → Z.testbit bits i = false.
Proof. intros Hb Hi. apply (testbit_small bits 32 i); [done|lia]. Qed.

(** The occupied slots of a bitmap, in order. *)
Definition slots_of (bits : Z) (slots : list Z) : list Z := List.filter (Z.testbit bits) slots.

Lemma children_reads slots bits cs :
  Forall (λ s, 0 ≤ s < 32) slots → map slot cs = slots_of bits slots → Forall child_ok cs →
  reads (decode_children slots bits) (concat (map encode_child cs)) cs.
Proof.
  intros Hs. revert cs. induction Hs as [|s slots Hs Hss IH]; intros cs Hcs Hok; cbn [decode_children].
  { destruct cs; [|done]. apply reads_ret. }
  rewrite bit_test by done. cbn in Hcs. destruct (Z.testbit bits s); cbn [negb]; [|by apply IH].
  destruct cs as [|[s' h n b] cs]; cbn in Hcs; [done|]. injection Hcs as -> Hcs.
  apply Forall_cons in Hok as [(_ & [Hh _] & Hn & Hb) Hok]. cbn [map concat]. unfold encode_child at 1.
  cbn [c_hash object_count decoded_bytes] in *. rewrite <- !app_assoc.
  apply reads_bind with (a := h); [by apply reads_hash|].
  apply reads_bind with (a := n); [by apply reads_u64|].
  apply reads_bind with (a := b); [by apply reads_u64|].
  apply reads_last with (a := cs); [by apply IH|apply reads_ret].
Qed.

Lemma children_parses slots bits :
  Forall (λ s, 0 ≤ s < 32) slots →
  parses (decode_children slots bits)
    (λ v cs, v = concat (map encode_child cs) ∧ map slot cs = slots_of bits slots ∧ Forall child_ok cs) fault.
Proof.
  induction 1 as [|s slots Hs Hss IH]; cbn [decode_children]; [by apply parses_ret|].
  rewrite bit_test by done. unfold slots_of. cbn [List.filter]. destruct (Z.testbit bits s); cbn [negb]; [|done].
  eapply parses_bind; [eapply parses_mono; [apply hash_parses|by intros v a Hv [-> Ha]; instantiate (1 := λ v a, v = a ∧ hash_ok a)|by intros e ->]|].
  intros h vh [-> Hh].
  eapply parses_bind; [eapply parses_mono; [apply u64_parses|done|by intros e ->]|]. intros n vn [-> Hn].
  eapply parses_bind; [eapply parses_mono; [apply u64_parses|done|by intros e ->]|]. intros b vb [-> Hb].
  eapply parses_bind; [apply IH|]. intros cs vcs (-> & Hm & Hok). apply parses_ret.
  split; [|split].
  - unfold encode_child. cbn [map concat c_hash object_count decoded_bytes]. by rewrite app_nil_r, <- !app_assoc.
  - cbn. by rewrite Hm.
  - by constructor.
Qed.

Lemma slots_sorted bits : StronglySorted Z.lt (slots_of bits (seqZ 0 32)).
Proof.
  assert (∀ l, StronglySorted Z.lt l → StronglySorted Z.lt (slots_of bits l)) as H.
  - induction 1 as [|s l Hs IH Hl]; cbn; [constructor|]. destruct (Z.testbit bits s); [|done].
    constructor; [done|]. rewrite Forall_forall in *. intros x Hx%list_elem_of_In%filter_In.
    apply Hl, list_elem_of_In, Hx.
  - apply H. repeat (constructor; [|repeat (constructor; [lia|]); constructor]). constructor.
Qed.

Lemma slots_elem bits i : i ∈ slots_of bits (seqZ 0 32) ↔ 0 ≤ i < 32 ∧ Z.testbit bits i = true.
Proof. unfold slots_of. rewrite list_elem_of_In, filter_In, <- list_elem_of_In, elem_of_seqZ. split; intros [? ?]; (split; [lia|done]). Qed.

(** The slots of a well-formed branch are the ones of its bitmap. *)
Lemma branch_slots d cs :
  StronglySorted Z.lt (map slot cs) → Forall child_ok cs →
  map slot cs = slots_of (bitmap (MBranch d cs)) (seqZ 0 32).
Proof.
  intros Hs Hok. assert (Forall (λ c, 0 ≤ slot c < 32) cs) as Hr by (eapply Forall_impl; [exact Hok|]; by intros ? []).
  eapply (strict_sorted_ext Z.lt); [lia|apply _|done|apply slots_sorted|]. intros i.
  rewrite slots_elem. split.
  - intros Hi. assert (0 ≤ i < 32) as Hi'.
    { apply list_elem_of_In, in_map_iff in Hi as (c & <- & Hc%list_elem_of_In). rewrite Forall_forall in Hr. by apply Hr. }
    split; [done|]. unfold bitmap. cbn [children]. rewrite bitmap_testbit by (done || lia). by rewrite bool_decide_eq_true_2, orb_true_r.
  - intros [Hi Ht]. unfold bitmap in Ht. cbn [children] in Ht. rewrite bitmap_testbit in Ht by (done || lia).
    rewrite Z.bits_0 in Ht. by apply bool_decide_eq_true in Ht.
Qed.

Lemma slots_bitmap d cs bits :
  0 ≤ bits < 4294967296 → map slot cs = slots_of bits (seqZ 0 32) → Forall child_ok cs → bitmap (MBranch d cs) = bits.
Proof.
  intros Hb Hm Hok. assert (Forall (λ c, 0 ≤ slot c < 32) cs) as Hr by (eapply Forall_impl; [exact Hok|]; by intros ? []).
  pose proof (bitmap_range d cs Hr) as Hbr.
  apply Z.bits_inj'. intros i Hi. destruct (Z.lt_ge_cases i 32).
  - unfold bitmap. cbn [children]. rewrite bitmap_testbit, Z.bits_0 by done. cbn. rewrite Hm.
    destruct (Z.testbit bits i) eqn:E.
    + apply bool_decide_eq_true. by apply slots_elem.
    + apply bool_decide_eq_false. rewrite slots_elem. intros [_ ?]. congruence.
  - by rewrite !testbit_above.
Qed.

(** ** The codec of nodes *)
Lemma leaf_body_reads es : node_ok (Leaf (MLeaf es)) → reads decode_body (encode (Leaf (MLeaf es))) (Leaf (MLeaf es)).
Proof.
  intros (Hs & Hok & Hl). cbn [entries] in *. rewrite encode_leaf. unfold decode_body.
  apply reads_bind with (a := MANIFEST_NODE_MAGIC); [apply (reads_take Truncated MANIFEST_NODE_MAGIC)|]. cbn -[to_be_bytes seqZ].
  apply (reads_bind _ _ [MANIFEST_FORMAT_VERSION]) with (a := MANIFEST_FORMAT_VERSION); [by apply reads_u8|]. cbn -[to_be_bytes seqZ].
  apply (reads_bind _ _ [TAG_LEAF]) with (a := TAG_LEAF); [by apply reads_u8|]. cbn -[to_be_bytes seqZ].
  apply reads_bind with (a := zlen es); [apply reads_u16; zlen_pose; lia|].
  apply reads_last with (a := es); [|apply reads_ret].
  unfold zlen. rewrite Nat2Z.id. by apply entries_reads.
Qed.

Lemma branch_body_reads d cs : node_ok (Branch (MBranch d cs)) → reads decode_body (encode (Branch (MBranch d cs))) (Branch (MBranch d cs)).
Proof.
  intros (Hd & Hne & Hs & Hok). cbn [depth children] in *. rewrite encode_branch. unfold decode_body.
  assert (Forall (λ c, 0 ≤ slot c < 32) cs) as Hr by (eapply Forall_impl; [exact Hok|]; by intros ? []).
  apply reads_bind with (a := MANIFEST_NODE_MAGIC); [apply (reads_take Truncated MANIFEST_NODE_MAGIC)|]. cbn -[to_be_bytes seqZ bitmap].
  apply (reads_bind _ _ [MANIFEST_FORMAT_VERSION]) with (a := MANIFEST_FORMAT_VERSION); [by apply reads_u8|]. cbn -[to_be_bytes seqZ bitmap].
  apply (reads_bind _ _ [TAG_BRANCH]) with (a := TAG_BRANCH); [by apply reads_u8|]. cbn -[to_be_bytes seqZ bitmap].
  apply (reads_bind _ _ [d]) with (a := d); [by apply reads_u8|].
  apply reads_bind with (a := bitmap (MBranch d cs)); [by apply reads_u32, bitmap_range|].
  destruct (Z.eqb_spec (bitmap (MBranch d cs)) 0) as [E|_].
  - pose proof (branch_slots d cs Hs Hok) as Hm. rewrite E in Hm. destruct cs; [done|].
    assert (slot m ∈ slots_of 0 (seqZ 0 32)) as [_ Hx]%slots_elem by (rewrite <- Hm; by left). by rewrite Z.bits_0 in Hx.
  - apply reads_last with (a := cs); [|apply reads_ret]. apply children_reads; [|by apply branch_slots|done].
    apply Forall_forall. intros s. rewrite elem_of_seqZ. unfold MANIFEST_BRANCH_WIDTH. lia.
Qed.

Lemma body_reads n : node_ok n → reads decode_body (encode n) n.
Proof. destruct n as [[es]|[d cs]]; [apply leaf_body_reads|apply branch_body_reads]. Qed.

Lemma body_parses : parses decode_body (λ v n, v = encode n ∧ node_ok n) fault.
Proof.
  unfold decode_body.
  eapply parses_bind; [eapply parses_mono; [by apply take_parses|done|by intros e ->]|]. intros m vm [-> _].
  case_bool_decide as Hm; [by apply parses_err|]. subst vm.
  eapply parses_bind; [eapply parses_mono; [apply u8_parses|done|by intros e ->]|]. intros v vv [-> _].
  destruct (Z.eqb_spec v MANIFEST_FORMAT_VERSION) as [->|]; cbn [negb]; [|by apply parses_err].
  eapply parses_bind; [eapply parses_mono; [apply u8_parses|done|by intros e ->]|]. intros t vt [-> _].
  destruct (Z.eqb_spec t TAG_LEAF) as [->|].
  { eapply parses_bind; [eapply parses_mono; [apply u16_parses|done|by intros e ->]|]. intros n vn [-> Hn].
    eapply parses_bind; [apply entries_parses|]. intros es ves (-> & Hl & Hs & Hok). apply parses_ret.
    assert (zlen es = n) as Hz by (unfold zlen; lia). split; [|split; [done|split; [done|cbn; lia]]].
    rewrite encode_leaf, Hz, app_nil_r. by rewrite <- ?app_assoc. }
  destruct (Z.eqb_spec t TAG_BRANCH) as [->|]; [|by apply parses_err].
  eapply parses_bind; [eapply parses_mono; [apply u8_parses|done|by intros e ->]|]. intros d vd [-> Hd].
  eapply parses_bind; [eapply parses_mono; [apply u32_parses|done|by intros e ->]|]. intros bits vb [-> Hb].
  destruct (Z.eqb_spec bits 0) as [->|Hnz]; [by apply parses_err|].
  eapply parses_bind; [apply children_parses|].
  { apply Forall_forall. intros s. rewrite elem_of_seqZ. unfold MANIFEST_BRANCH_WIDTH. lia. }
  intros cs vcs (-> & Hm & Hok). apply parses_ret. pose proof (slots_bitmap d cs bits Hb Hm Hok) as Hbm.
  split; [|split; [done|split; [|split; [|done]]]].
  - rewrite encode_branch, Hbm, app_nil_r. by rewrite <- ?app_assoc.
  - cbn. intros ->. apply Hnz. by rewrite <- Hbm.
  - cbn. rewrite Hm. apply slots_sorted.
Qed.

Lemma encode_ok n : node_ok n → bytes_ok (encode n) ∧ zlen (encode n) ≤ USIZE_MAX.
Proof.
  destruct n as [[es]|[d cs]]; cbn [node_ok entries depth children].
  - intros (_ & Hok & Hl). rewrite encode_leaf. split.
    + repeat (apply Forall_app; split); try (by repeat constructor); [apply to_be_bytes_ok|].
      apply Forall_concat, Forall_fmap. eapply Forall_impl; [exact Hok|]. intros [k h s] [[_ Hh] _]. cbn -[to_be_bytes].
      constructor; [by destruct k|]. apply Forall_app. split; [done|apply to_be_bytes_ok].
    + assert (zlen (concat (map encode_entry es)) = 41 * zlen es) as Hc.
      { clear Hl. induction Hok as [|[k h s] es [[Hh _] _] _ IH]; [done|]. cbn [map concat]. rewrite zlen_app, IH.
        unfold encode_entry. cbn [o_kind o_hash decoded_size] in *. rewrite !zlen_app, zlen_to_be_bytes, Hh.
        rewrite !zlen_cons, zlen_nil. lia. }
      rewrite !zlen_app, zlen_to_be_bytes, Hc. unfold USIZE_MAX, MANIFEST_NODE_MAGIC. rewrite !zlen_cons, !zlen_nil. lia.
  - intros (Hd & _ & Hs & Hok). rewrite encode_branch. split.
    + assert (bytes_ok [d]) by (by constructor). repeat (apply Forall_app; split); try (done || by repeat constructor); [apply to_be_bytes_ok|].
      apply Forall_concat, Forall_fmap. eapply Forall_impl; [exact Hok|]. intros [s h n b] (_ & [_ Hh] & _). cbn -[to_be_bytes].
      apply Forall_app. split; [done|]. apply Forall_app. split; apply to_be_bytes_ok.
    + assert (zlen (concat (map encode_child cs)) = 48 * zlen cs) as Hc.
      { clear Hs. induction Hok as [|[s h n b] cs (_ & [Hh _] & _) _ IH]; [done|]. cbn [map concat]. rewrite zlen_app, IH.
        unfold encode_child. cbn [c_hash object_count decoded_bytes] in *. rewrite !zlen_app, !zlen_to_be_bytes, Hh.
        rewrite !zlen_cons. lia. }
      assert (zlen cs ≤ 32) as Hl.
      { pose proof (branch_slots d cs Hs Hok) as Hm. apply (f_equal length) in Hm. rewrite length_map in Hm.
        assert (length (slots_of (bitmap (MBranch d cs)) (seqZ 0 32)) ≤ 32)%nat; [|unfold zlen; lia].
        etrans; [apply List.filter_length_le|]. done. }
      rewrite !zlen_app, zlen_to_be_bytes, Hc. unfold USIZE_MAX, MANIFEST_NODE_MAGIC. rewrite !zlen_cons, !zlen_nil. lia.
Qed.

(** The final comparison of [decode] never fails: it is a second line of defence. *)
Lemma decode_inner_exact bytes :
  bytes_ok bytes → zlen bytes ≤ USIZE_MAX →
  settles (decode_inner bytes) (λ n, node_ok n ∧ encode n = bytes) fault.
Proof.
  intros Hb Hl. unfold decode_inner. apply settles_bind.
  eapply settles_mono; [apply body_parses; [by apply within_new|done]| |done].
  intros [n r] (v & _ & Hr & Hrest & _ & -> & Hn). cbn in *. rewrite exhausted_rest by done.
  case_bool_decide as E; cbn; [|done]. rewrite E, app_nil_r, rest_new in Hrest. done.
Qed.

Lemma node_decode_encode n : node_ok n → decode (encode n) = Ok n.
Proof.
  intros Hn. destruct (encode_ok n Hn) as [Hb Hl]. unfold decode, decode_inner.
  rewrite (body_reads n Hn (reader_new (encode n)) []); [|by apply within_new|by rewrite rest_new, app_nil_r].
  cbn -[encode]. rewrite exhausted_rest.
  - destruct (rest_advance (reader_new (encode n)) (encode n) []) as [E _]; [by apply within_new|by rewrite rest_new, app_nil_r|].
    rewrite E. cbn -[encode]. by rewrite bool_decide_eq_false_2 by (intros H; by apply H).
  - apply (rest_advance _ _ []); [by apply within_new|by rewrite rest_new, app_nil_r].
Qed.

Lemma encode_inj n n' : node_ok n → node_ok n' → encode n = encode n' → n = n'.
Proof. intros Hn Hn' E. pose proof (node_decode_encode n Hn) as H. rewrite E, node_decode_encode in H by done. congruence. Qed.

Lemma decode_settles bytes :
  bytes_ok bytes → zlen bytes ≤ USIZE_MAX →
  settles (decode bytes) (λ n, node_ok n ∧ encode n = bytes) fault.
Proof.
  intros Hb Hl. unfold decode. apply settles_bind. eapply settles_mono; [by apply decode_inner_exact| |done].
  intros n [Hn <-]. by rewrite bool_decide_eq_false_2 by (intros H; by apply H).
Qed.

(** A node has exactly one byte string: decoding arbitrary bytes never panics, it
    accepts exactly the encodings of the well-formed nodes and gives the node back, and the
    comparison with the re-encoding that ends [decode] is never what rejects. *)
Theorem node_codec_exact (bytes : list Z) :
  bytes_ok bytes → zlen bytes ≤ USIZE_MAX →
  (∀ n, decode bytes = Ok n ↔ node_ok n ∧ encode n = bytes)
  ∧ match decode bytes with Ok _ => True | Err e => e ≠ NonCanonicalEncoding | Panic | Fuel => False end.
Proof.
  intros Hb Hl. pose proof (decode_settles bytes Hb Hl) as H. split.
  - intros n. split; [intros E; by rewrite E in H|]. intros [Hn <-]. by apply node_decode_encode.
  - destruct (decode bytes); cbn in H; try done. apply H.
Qed.
