(* ===== verification/ManifestBuild.v ===== *)
(** * Building and expanding manifests ([crates/object-model/src/object/manifest/build.rs])

    [build_manifest] makes the trie of a set of objects, [expand_manifest] lists the
    objects of a trie in a node source. A [BTreeMap] or [BTreeSet] is a finite map or set,
    read in key order; the node source is any function from addresses to bytes. The
    recursion is over the levels of the trie: 53 of them below and with the root, so 54
    rounds of fuel reach the depth check. Counts of objects in memory are not wrapped. *)

From S2P Require Import Prelude.
From S2P Require Import Cursor.
From S2P Require Import Manifest.
Import Manifest.

Module ManifestBuild.

Inductive ManifestBuildError :=
| ConflictingDuplicate (k : ManifestKey) (first second : Z)
| DecodedBytesOverflow
| NodeError (e : ManifestNodeError).
Definition bres := (exec ManifestBuildError).

(** [?] through [From<ManifestNodeError>] *)
Definition node_err {A} (m : exec ManifestNodeError A) : bres A :=
  match m with Ok a => Ok a | Err e => Err (NodeError e) | Panic => Panic | Fuel => Fuel end.

Abbreviation node_map := (gmap (list Z) (list Z)).
Record BuiltManifest := { root : list Z; nodes : node_map; m_object_count : Z; m_decoded_bytes : Z }.
Record Summary := { s_hash : list Z; s_count : Z; s_bytes : Z }.

(** [unique] after the loop over the objects *)
Fixpoint collect (objects : list ManifestObject) (unique : gmap ManifestKey ManifestObject)
  : bres (gmap ManifestKey ManifestObject) :=
  match objects with
  | [] => Ok unique
  | object :: objects =>
      let k := key object in
      match unique !! k with
      | Some existing =>
          if negb (decoded_size existing =? decoded_size object)
          then Err (ConflictingDuplicate k (decoded_size existing) (decoded_size object))
          else collect objects (<[k := object]> unique)
      | None => collect objects (<[k := object]> unique)
      end
  end.
(** [unique.into_values()] *)
Definition into_values (unique : gmap ManifestKey ManifestObject) : list ManifestObject :=
  map snd (sort_by (λ x y, compare_key x.1 y.1) (map_to_list unique)).

Section hashing.
Context (blake3 : list Z → list Z).

Definition insert_node (nodes : node_map) (n : ManifestNode) : list Z * node_map :=
  let bytes := encode n in
  let hash := blake3 bytes in
  (hash, <[hash := bytes]> nodes).

(** [buckets[slot].push(entry)] *)
Definition push_bucket (d : Z) (buckets : list (list ManifestObject)) (e : ManifestObject)
  : bres (list (list ManifestObject)) :=
  let s := group (route blake3 (key e)) d in
  b ← index buckets s;
  vec_set buckets s (b ++ [e]).
Fixpoint fill_buckets (d : Z) (es : list ManifestObject) (buckets : list (list ManifestObject))
  : bres (list (list ManifestObject)) :=
  match es with
  | [] => Ok buckets
  | e :: es => buckets ← push_bucket d buckets e; fill_buckets d es buckets
  end.

(** The loop over the buckets, [build] being [build_level] one level down. *)
Fixpoint build_children (build : list ManifestObject → node_map → bres (Summary * node_map))
    (s : Z) (buckets : list (list ManifestObject)) (count bytes : Z) (cs : list ManifestChild) (nodes : node_map)
  : bres (Z * Z * list ManifestChild * node_map) :=
  match buckets with
  | [] => Ok (count, bytes, cs, nodes)
  | [] :: buckets => build_children build (s + 1) buckets count bytes cs nodes
  | bucket :: buckets =>
      '(child, nodes) ← build bucket nodes;
      bytes ← ok_or (checked_add bytes (s_bytes child)) DecodedBytesOverflow;
      build_children build (s + 1) buckets (count + s_count child) bytes
        (cs ++ [MChild (as_u8 s) (s_hash child) (s_count child) (s_bytes child)]) nodes
  end.

Fixpoint build_level (fuel : nat) (es : list ManifestObject) (d : Z) (nodes : node_map) : bres (Summary * node_map) :=
  match fuel with
  | O => Fuel
  | S fuel =>
      if (zlen es <=? MANIFEST_LEAF_MAX_ENTRIES) || (MANIFEST_ROUTE_LEVELS <=? d) then
        leaf ← node_err (leaf_new es);
        bytes ← ok_or (leaf_decoded_bytes leaf) DecodedBytesOverflow;
        let '(hash, nodes) := insert_node nodes (Leaf leaf) in
        Ok ({| s_hash := hash; s_count := leaf_object_count leaf; s_bytes := bytes |}, nodes)
      else
        buckets ← fill_buckets d es (replicate (Z.to_nat MANIFEST_BRANCH_WIDTH) []);
        '(count, bytes, cs, nodes) ← build_children (λ bucket nodes, build_level fuel bucket (d + 1) nodes) 0 buckets 0 0 [] nodes;
        branch ← node_err (branch_new d cs);
        let '(hash, nodes) := insert_node nodes (Branch branch) in
        Ok ({| s_hash := hash; s_count := count; s_bytes := bytes |}, nodes)
  end.

Definition LEVEL_FUEL : nat := 54.

Definition build_manifest (objects : list ManifestObject) : bres BuiltManifest :=
  unique ← collect objects ∅;
  '(summary, nodes) ← build_level LEVEL_FUEL (into_values unique) 0 ∅;
  Ok {| root := s_hash summary; nodes := nodes;
        m_object_count := s_count summary; m_decoded_bytes := s_bytes summary |}.

(** ** Expansion *)
Inductive ManifestExpandError :=
| MissingNode (hash : list Z)
| ExpandDecode (hash : list Z) (e : ManifestDecodeError)
| DepthExceeded (hash : list Z).

Context (source : list Z → option (list Z)).

Abbreviation expand_state := (gset (list Z) * gset ManifestObject)%type.

(** [for child in branch.children() { .. ? }] *)
Fixpoint expand_children (expand : list Z → expand_state → exec ManifestExpandError expand_state)
    (cs : list ManifestChild) (st : expand_state) : exec ManifestExpandError expand_state :=
  match cs with
  | [] => Ok st
  | c :: cs => st ← expand (c_hash c) st; expand_children expand cs st
  end.

Fixpoint expand_node (fuel : nat) (hash : list Z) (d : Z) (st : expand_state) : exec ManifestExpandError expand_state :=
  match fuel with
  | O => Fuel
  | S fuel =>
      if MANIFEST_ROUTE_LEVELS <? d then Err (DepthExceeded hash)
      else
        let '(visited, objects) := st in
        if decide (hash ∈ visited) then Ok st
        else
          let visited := {[hash]} ∪ visited in
          bytes ← ok_or (source hash) (MissingNode hash);
          match decode_addressed blake3 bytes hash with
          | Ok (Leaf leaf) => Ok (visited, list_to_set (entries leaf) ∪ objects)
          | Ok (Branch branch) =>
              expand_children (λ h st, expand_node fuel h (d + 1) st) (children branch) (visited, objects)
          | Err e => Err (ExpandDecode hash e)
          | Panic => Panic
          | Fuel => Fuel
          end
  end.

Definition expand_manifest (hash : list Z) : exec ManifestExpandError (list ManifestObject) :=
  '(_, objects) ← expand_node LEVEL_FUEL hash 0 (∅, ∅);
  Ok (sort_by compare_object (elements objects)).
End hashing.

End ManifestBuild.
