(* ===== verification/ManifestSpec.v ===== *)
(** * The trie of a set of objects

    What [ManifestBuild.build_manifest] computes, as a function of the strictly sorted
    list of the objects: the node of each subtree, and the nodes that are stored. The
    number [f] is the number of levels left below a node, so that a node at depth [d] has
    [f = 52 - d]. *)

From S2P Require Import Prelude.
From S2P Require Import Cursor.
From S2P Require Import Manifest.
From S2P Require Import ManifestBuild.
Import Manifest ManifestBuild.

Module ManifestSpec.
Section hashing.
Context (blake3 : list Z → list Z).

Definition lvl (f : nat) : Z := 52 - Z.of_nat f.
Definition slot_at (d : Z) (e : ManifestObject) : Z := group (route blake3 (key e)) d.
Definition bucket (f : nat) (s : Z) (es : list ManifestObject) : list ManifestObject :=
  List.filter (λ e, slot_at (lvl f) e =? s) es.
Definition nonempty {A} (l : list A) : bool := match l with [] => false | _ => true end.
Definition occupied (f : nat) (es : list ManifestObject) : list Z :=
  List.filter (λ s, nonempty (bucket f s es)) (seqZ 0 32).
Fixpoint total (es : list ManifestObject) : Z :=
  match es with [] => 0 | e :: es => decoded_size e + total es end.

Fixpoint spec_node (f : nat) (es : list ManifestObject) : ManifestNode :=
  match f with
  | O => Leaf (MLeaf es)
  | S f' =>
      if zlen es <=? 16 then Leaf (MLeaf es)
      else
        Branch (MBranch (lvl f)
          (map (λ s, let b := bucket f s es in MChild s (blake3 (encode (spec_node f' b))) (zlen b) (total b))
             (occupied f es)))
  end.
Definition spec_hash (f : nat) (es : list ManifestObject) : list Z := blake3 (encode (spec_node f es)).
Definition child_of (f' : nat) (es : list ManifestObject) (s : Z) : ManifestChild :=
  let b := bucket (S f') s es in MChild s (spec_hash f' b) (zlen b) (total b).

(** The map of nodes after the subtree is stored into [m]. *)
Fixpoint put (f : nat) (es : list ManifestObject) (m : gmap (list Z) (list Z)) : gmap (list Z) (list Z) :=
  let m := match f with
           | O => m
           | S f' =>
               if zlen es <=? 16 then m
               else fold_left (λ m s, put f' (bucket f s es) m) (occupied f es) m
           end in
  <[spec_hash f es := encode (spec_node f es)]> m.

(** The leaves of the subtree have an entry count that fits its field. *)
Fixpoint fits (f : nat) (es : list ManifestObject) : Prop :=
  match f with
  | O => zlen es ≤ 65535
  | S f' => zlen es ≤ 16 ∨ ∀ s, s ∈ occupied f es → fits f' (bucket f s es)
  end.

(** More objects with one route, group by group, than a leaf can count. *)
Definition crowded (es : list ManifestObject) : Prop :=
  ∃ b, b `sublist_of` es ∧ 65535 < zlen b
       ∧ ∀ x y l, x ∈ b → y ∈ b → 0 ≤ l < 52 → slot_at l x = slot_at l y.

(** Strictly sorted well-formed objects *)
Definition sorted_objects (es : list ManifestObject) : Prop :=
  StronglySorted key_lt (map key es) ∧ Forall object_ok es.

Definition manifest_of (es : list ManifestObject) : BuiltManifest :=
  {| root := spec_hash 52 es; nodes := put 52 es ∅; m_object_count := zlen es; m_decoded_bytes := total es |}.
End hashing.
End ManifestSpec.
Import ManifestSpec.

(** Conversion compares applications of these before it computes them. *)
#[global] Strategy 1000 [occupied bucket slot_at group seqZ].

(** ** Groups are slots *)
Lemma route_bit_01 r i : route_bit r i = 0 ∨ route_bit r i = 1.
Proof.
  unfold route_bit. destruct (256 <=? i); [by left|].
  rewrite (Z.land_ones _ 1) by lia. change (2 ^ 1) with 2.
  pose proof (Z.mod_pos_bound (Z.shiftr (default 0 (get r (i / 8))) (7 - i `mod` 8)) 2). lia.
Qed.

Lemma group_bits r l :
  let b i := route_bit r (l * 5 + i) in group r l = 16 * b 0 + 8 * b 1 + 4 * b 2 + 2 * b 3 + b 4.
Proof.
  cbn zeta. unfold group. change (seqZ 0 MANIFEST_ROUTE_BITS) with [0; 1; 2; 3; 4]. cbn [fold_left].
  change MANIFEST_ROUTE_BITS with 5.
  destruct (route_bit_01 r (l * 5 + 0)) as [-> | ->], (route_bit_01 r (l * 5 + 1)) as [-> | ->],
    (route_bit_01 r (l * 5 + 2)) as [-> | ->], (route_bit_01 r (l * 5 + 3)) as [-> | ->],
    (route_bit_01 r (l * 5 + 4)) as [-> | ->]; reflexivity.
Qed.

Lemma group_range r l : 0 ≤ group r l < 32.
Proof.
  rewrite group_bits. cbn zeta.
  destruct (route_bit_01 r (l * 5 + 0)) as [-> | ->], (route_bit_01 r (l * 5 + 1)) as [-> | ->],
    (route_bit_01 r (l * 5 + 2)) as [-> | ->], (route_bit_01 r (l * 5 + 3)) as [-> | ->],
    (route_bit_01 r (l * 5 + 4)) as [-> | ->]; lia.
Qed.

(** ** Splitting a list by a key *)
Lemma filter_split {A} (p : A → bool) (l : list A) : l ≡ₚ List.filter p l ++ List.filter (λ x, negb (p x)) l.
Proof.
  induction l as [|x l IH]; [done|]. cbn. destruct (p x); cbn; [by f_equiv|].
  rewrite <- Permutation_middle. by f_equiv.
Qed.

Lemma filter_within {A} (p q : A → bool) l :
  (∀ x, p x = true → q x = true) → List.filter p (List.filter q l) = List.filter p l.
Proof.
  intros Hpq. induction l as [|x l IH]; [done|]. cbn. destruct (q x) eqn:Hq; cbn; [by rewrite IH|].
  destruct (p x) eqn:Hp; [|done]. apply Hpq in Hp. congruence.
Qed.

Lemma split_by_key {A} (g : A → Z) n s (l : list A) :
  0 ≤ n → (∀ x, x ∈ l → s ≤ g x < s + n) →
  l ≡ₚ concat (map (λ i, List.filter (λ x, g x =? i) l) (seqZ s n)).
Proof.
  intros Hn. revert s l. pattern n. apply natlike_ind; [..|done]; clear n Hn.
  - intros s l Hl. destruct l as [|x l]; [done|]. specialize (Hl x ltac:(by left)). lia.
  - intros n Hn IH s l Hl. rewrite seqZ_cons by lia. cbn [map concat]. rewrite Z.pred_succ.
    rewrite (filter_split (λ x, g x =? s) l) at 1. f_equiv.
    rewrite (IH (Z.succ s) (List.filter (λ x, negb (g x =? s)) l)).
    + f_equiv. erewrite map_ext_in; [done|]. cbn. intros i Hi%list_elem_of_In%elem_of_seqZ.
      apply filter_within. intros x Hx%Z.eqb_eq. apply negb_true_iff, Z.eqb_neq. lia.
    + intros x [Hx%list_elem_of_In Hg]%list_elem_of_In%filter_In. specialize (Hl x Hx).
      destruct (Z.eqb_spec (g x) s); [done|]. lia.
Qed.

Section spec.
Context (blake3 : list Z → list Z).
Abbreviation bucket := (bucket blake3).
Abbreviation occupied := (occupied blake3).

Lemma bucket_elem f s es e : e ∈ bucket f s es ↔ e ∈ es ∧ slot_at blake3 (lvl f) e = s.
Proof. unfold ManifestSpec.bucket. by rewrite list_elem_of_In, filter_In, <- list_elem_of_In, Z.eqb_eq. Qed.

Lemma occupied_elem f es s : s ∈ occupied f es ↔ bucket f s es ≠ [].
Proof.
  unfold ManifestSpec.occupied. rewrite list_elem_of_In, filter_In, <- list_elem_of_In, elem_of_seqZ.
  destruct (bucket f s es) as [|e b] eqn:E; cbn [nonempty]; [split; [by intros []|done]|].
  split; [done|]. intros _. split; [|done].
  assert (e ∈ bucket f s es) as [_ <-]%bucket_elem by (rewrite E; by left). apply group_range.
Qed.

Lemma occupied_range f es s : s ∈ occupied f es → 0 ≤ s < 32.
Proof.
  unfold ManifestSpec.occupied. rewrite list_elem_of_In, filter_In, <- list_elem_of_In, elem_of_seqZ. lia.
Qed.

Lemma occupied_sorted f es : StronglySorted Z.lt (occupied f es).
Proof.
  unfold ManifestSpec.occupied. generalize (λ s, nonempty (bucket f s es)). intros p.
  assert (StronglySorted Z.lt (seqZ 0 32)) as Hs by (repeat (constructor; [|repeat (constructor; [lia|]); constructor]); constructor).
  induction Hs as [|s l Hs IH Hl]; cbn; [constructor|]. destruct (p s); [|done].
  constructor; [done|]. rewrite Forall_forall in *. intros x [Hx _]%list_elem_of_In%filter_In. by apply Hl, list_elem_of_In.
Qed.

(** The buckets of a list make it up. *)
Lemma buckets_perm f es : es ≡ₚ concat (map (λ s, bucket f s es) (seqZ 0 32)).
Proof. apply split_by_key; [lia|]. intros x _. apply group_range. Qed.

Lemma concat_occupied f es : concat (map (λ s, bucket f s es) (occupied f es)) = concat (map (λ s, bucket f s es) (seqZ 0 32)).
Proof.
  unfold ManifestSpec.occupied. induction (seqZ 0 32) as [|s l IH]; [done|]. cbn.
  destruct (bucket f s es) eqn:E; cbn; [done|]. by rewrite E, IH.
Qed.

Lemma total_app a b : total (a ++ b) = total a + total b.
Proof. induction a as [|e a IH]; cbn; [done|]. rewrite IH. lia. Qed.
#[global] Instance total_perm : Proper ((≡ₚ) ==> (=)) total.
Proof. intros a b. induction 1; cbn; lia. Qed.
Lemma total_nonneg es : Forall object_ok es → 0 ≤ total es.
Proof. induction 1 as [|e es [_ [He _]] _ IH]; cbn; lia. Qed.

Lemma filter_sublist {A} (p : A → bool) l : List.filter p l `sublist_of` l.
Proof. induction l as [|x l IH]; cbn; [done|]. destruct (p x); by constructor. Qed.

Lemma sorted_sublist {A} (R : relation A) l k : StronglySorted R k → l `sublist_of` k → StronglySorted R l.
Proof.
  intros Hk Hl. induction Hl as [|x l k Hl IH|x l k Hl IH]; [done|..]; apply StronglySorted_inv in Hk as [Hk Hx].
  - constructor; [by apply IH|]. rewrite Forall_forall in *. intros y Hy. apply Hx. by eapply elem_of_sublist.
  - by apply IH.
Qed.

Lemma bucket_sorted f s es : sorted_objects es → sorted_objects (bucket f s es).
Proof.
  intros [Hs Hok]. pose proof (filter_sublist (λ e, slot_at blake3 (lvl f) e =? s) es) as Hsub. split.
  - eapply sorted_sublist; [exact Hs|]. by apply fmap_sublist.
  - rewrite Forall_forall in *. intros e [He _]%bucket_elem. by apply Hok.
Qed.
Lemma bucket_total f s es : Forall object_ok es → total (bucket f s es) ≤ total es.
Proof.
  intros Hok. unfold ManifestSpec.bucket. rewrite (filter_split (λ e, slot_at blake3 (lvl f) e =? s) es) at 2.
  rewrite total_app. pose proof (total_nonneg (List.filter (λ e, negb (slot_at blake3 (lvl f) e =? s)) es)) as H.
  rewrite Forall_forall in *. specialize (H ltac:(intros e [He _]%list_elem_of_In%filter_In; by apply Hok, list_elem_of_In)). lia.
Qed.
Lemma crowded_bucket f s es : crowded blake3 (bucket f s es) → crowded blake3 es.
Proof. intros (b & Hb & Hr). exists b. split; [|done]. etrans; [exact Hb|apply filter_sublist]. Qed.
End spec.
