(* ===== verification/ManifestCanon.v ===== *)
(** * Manifests are canonical

    [build_manifest] depends on the set of objects only and computes the trie of
    [ManifestSpec]; expanding that trie gives the objects back; and the root of the trie
    stands for the whole set. *)

From S2P Require Import Prelude.
From S2P Require Import Cursor.
From S2P Require Import Manifest.
From S2P Require Import ManifestBuild.
From S2P Require Import ManifestSpec.
Import Manifest ManifestBuild ManifestSpec.

(** ** Collecting the objects *)
Definition keyed (m : gmap ManifestKey ManifestObject) : Prop := ∀ k o, m !! k = Some o → key o = k.

Lemma key_size_eq (x y : ManifestObject) : key x = key y → decoded_size x = decoded_size y → x = y.
Proof. destruct x, y. unfold key. cbn. intros [= -> ->] ->. done. Qed.

Lemma collect_spec os m :
  keyed m →
  settles (collect os m)
    (λ m', keyed m' ∧ ∀ o, m' !! key o = Some o ↔ m !! key o = Some o ∨ o ∈ os)
    (λ e, ∃ x y, (m !! key x = Some x ∨ x ∈ os) ∧ y ∈ os ∧ key x = key y ∧ decoded_size x ≠ decoded_size y
                 ∧ e = ConflictingDuplicate (key x) (decoded_size x) (decoded_size y)).
Proof.
  revert m. induction os as [|o os IH]; intros m Hm; cbn [collect].
  { cbn. split; [done|]. intros o. split; [by left|]. by intros [?|?%not_elem_of_nil]. }
  assert ((∀ o', m !! key o = Some o' → o' = o) →
    settles (collect os (<[key o:=o]> m))
      (λ m', keyed m' ∧ ∀ o0, m' !! key o0 = Some o0 ↔ m !! key o0 = Some o0 ∨ o0 ∈ o :: os)
      (λ e, ∃ x y, (m !! key x = Some x ∨ x ∈ o :: os) ∧ y ∈ o :: os ∧ key x = key y ∧ decoded_size x ≠ decoded_size y
                   ∧ e = ConflictingDuplicate (key x) (decoded_size x) (decoded_size y))) as Hins.
  { intros Hold. assert (keyed (<[key o:=o]> m)) as Hk.
    { intros k x. destruct (decide (key o = k)) as [<-|]; [rewrite lookup_insert_eq; by intros [= <-]|].
      rewrite lookup_insert_ne by done. apply Hm. }
    assert (∀ x, <[key o:=o]> m !! key x = Some x ↔ m !! key x = Some x ∨ x = o) as Hl.
    { intros x. destruct (decide (key o = key x)) as [E|].
      - rewrite <- E, lookup_insert_eq. split; [intros [= <-]; by right|]. intros [H| ->]; [|done]. by rewrite (Hold _ H).
      - rewrite lookup_insert_ne by done. split; [by left|]. by intros [?| ->]. }
    eapply settles_mono; [apply IH, Hk| |].
    - intros m' [Hk' He]. split; [done|]. intros x. rewrite He, Hl, elem_of_cons. tauto.
    - intros e (x & y & Hx & Hy & Hr). exists x, y. rewrite Hl in Hx. rewrite !elem_of_cons. split; [tauto|]. split; [by right|done]. }
  destruct (m !! key o) as [x|] eqn:E; [|by apply Hins].
  destruct (Z.eqb_spec (decoded_size x) (decoded_size o)) as [Hs|Hs]; cbn [negb].
  - apply Hins. intros o' [= <-]. apply key_size_eq; [by apply Hm in E|done].
  - cbn. pose proof (Hm _ _ E) as Hk. exists x, o. rewrite Hk. split; [by left|]. split; [by left|done].
Qed.

Lemma into_values_spec m :
  keyed m → StronglySorted key_lt (map key (into_values m)) ∧ ∀ o, o ∈ into_values m ↔ m !! key o = Some o.
Proof.
  intros Hm. unfold into_values. set (l := sort_by _ (map_to_list m)).
  assert (l ≡ₚ map_to_list m) as Hp by apply sort_by_perm.
  assert (∀ p, p ∈ l ↔ m !! p.1 = Some p.2) as Hl by (intros [k o]; rewrite Hp; apply elem_of_map_to_list).
  split.
  - rewrite map_map.
    assert (map (λ x, key x.2) l = map fst l) as ->.
    { apply map_ext_in. intros [k o] Ho%list_elem_of_In. apply Hl in Ho. by apply Hm in Ho. }
    assert (StronglySorted (λ x y : ManifestKey * ManifestObject, compare_key x.1 y.1 ≠ Gt) l) as Hs.
    { apply sort_by_sorted; [intros; apply compare_key_antisym|]. intros x y z Hxy Hyz.
      destruct (compare_key x.1 y.1) eqn:E1; [apply compare_key_eq in E1 as ->; done| |done].
      destruct (compare_key y.1 z.1) eqn:E2; [apply compare_key_eq in E2 as <-; congruence| |done].
      by rewrite (compare_key_trans Lt _ _ _ E1 E2). }
    assert (NoDup (map fst l)) as Hnd by (rewrite Hp; apply NoDup_fst_map_to_list).
    clear -Hs Hnd. induction Hs as [|x l Hs IH Hx]; cbn; [constructor|]. apply NoDup_cons in Hnd as [Hn Hnd].
    constructor; [by apply IH|]. apply Forall_fmap. rewrite Forall_forall in *. intros y Hy. unfold key_lt. cbn.
    specialize (Hx y Hy). destruct (compare_key x.1 y.1) eqn:E; [|done|done].
    apply compare_key_eq in E. destruct Hn. rewrite E. by apply list_elem_of_fmap_2.
  - intros o. rewrite list_elem_of_fmap. split.
    + intros ([k x] & -> & Hx%Hl). cbn in *. by rewrite (Hm _ _ Hx).
    + intros Ho. exists (key o, o). split; [done|]. by apply Hl.
Qed.

(** ** The pieces of a level *)
Section build.
Context (blake3 : list Z → list Z).
Abbreviation bucket := (bucket blake3).
Abbreviation occupied := (occupied blake3).
Abbreviation spec_hash := (spec_hash blake3).
Abbreviation put := (put blake3).

Lemma sorted_key_nodup es : StronglySorted key_lt (map key es) → NoDup (map key es).
Proof. apply strict_sorted_nodup, key_lt_irrefl. Qed.

Lemma twin_none {A} (f : A → Z) v : StronglySorted Z.lt (map f v) → twin f v = None.
Proof.
  induction v as [|x v IH]; [done|]. intros [Hs Hx]%StronglySorted_inv. destruct v as [|y v]; [done|].
  change (twin f (x :: y :: v)) with (if decide (f x = f y) then Some (f x) else twin f (y :: v)).
  apply Forall_inv in Hx. rewrite decide_False by lia. by apply IH.
Qed.
Lemma twin_key_none es : StronglySorted key_lt (map key es) → twin key es = None.
Proof.
  induction es as [|x v IH]; [done|]. intros [Hs Hx]%StronglySorted_inv. destruct v as [|y v]; [done|].
  change (twin key (x :: y :: v)) with (if decide (key x = key y) then Some (key x) else twin key (y :: v)).
  apply Forall_inv in Hx. rewrite decide_False; [by apply IH|]. intros E. rewrite E in Hx. by apply key_lt_irrefl in Hx.
Qed.

Lemma leaf_new_sorted es :
  StronglySorted key_lt (map key es) →
  leaf_new es = if zlen es <=? 65535 then Ok (MLeaf es) else Err (LeafCountOverflow (zlen es)).
Proof.
  intros Hs. unfold leaf_new. rewrite sort_by_id; [by rewrite twin_key_none|].
  clear -Hs. induction es as [|x es IH]; cbn in *; [constructor|]. apply StronglySorted_inv in Hs as [Hs Hx].
  constructor; [by apply IH|]. exact (proj1 (Forall_map _ _ _) Hx).
Qed.

Lemma sum_checked_total acc es :
  Forall object_ok es → acc ≤ U64_MAX →
  sum_checked acc es = if acc + total es <=? U64_MAX then Some (acc + total es) else None.
Proof.
  intros Hok. revert acc. induction Hok as [|e es [_ [He _]] Hok IH]; intros acc Ha; cbn [sum_checked total].
  { rewrite Z.add_0_r. by rewrite (proj2 (Z.leb_le _ _)). }
  pose proof (total_nonneg es Hok) as Ht. unfold checked_add.
  change USIZE_MAX with U64_MAX. destruct (Z.leb_spec (acc + decoded_size e) U64_MAX); cbn.
  - by rewrite IH, Z.add_assoc by done.
  - destruct (Z.leb_spec (acc + (decoded_size e + total es)) U64_MAX); [lia|done].
Qed.

Lemma leaf_bytes es :
  Forall object_ok es → leaf_decoded_bytes (MLeaf es) = if total es <=? U64_MAX then Some (total es) else None.
Proof.
  intros Hok. unfold leaf_decoded_bytes. cbn [entries]. by rewrite sum_checked_total.
Qed.

Lemma fill_buckets_spec d es bs :
  length bs = 32%nat →
  returns (fill_buckets blake3 d es bs)
    (λ bs', bs' = imap (λ i b, b ++ List.filter (λ e, slot_at blake3 d e =? Z.of_nat i) es) bs).
Proof.
  revert bs. induction es as [|e es IH]; intros bs Hl; cbn [fill_buckets].
  { cbn. apply list_eq. intros i. rewrite list_lookup_imap. destruct (bs !! i); cbn; [by rewrite app_nil_r|done]. }
  unfold push_bucket. pose proof (group_range (route blake3 (key e)) d) as Hg. set (s := group _ d) in *.
  destruct (index_ok (E:=ManifestBuildError) bs s) as (b & Hb & Hi); [unfold zlen; lia|].
  rewrite Hi. cbn [mbind exec_bind]. unfold vec_set.
  rewrite (proj2 (Z.leb_le 0 s)), (proj2 (Z.ltb_lt s (zlen bs))) by (unfold zlen; lia). cbn [andb mbind exec_bind].
  eapply returns_mono; [apply IH; by rewrite length_insert|]. intros bs' ->. apply list_eq. intros i.
  rewrite !list_lookup_imap. destruct (decide (i = Z.to_nat s)) as [->|Hne].
  - rewrite list_lookup_insert_eq, Hb by lia. cbn. rewrite <- app_assoc. unfold slot_at at 2. fold s.
    destruct (Z.eqb_spec s (Z.of_nat (Z.to_nat s))); [done|lia].
  - rewrite list_lookup_insert_ne by done. destruct (bs !! i) as [c|]; cbn; [|done].
    unfold slot_at at 2. fold s. destruct (Z.eqb_spec s (Z.of_nat i)); [lia|done].
Qed.

Lemma filled_buckets f es :
  returns (fill_buckets blake3 (lvl f) es (replicate (Z.to_nat MANIFEST_BRANCH_WIDTH) []))
    (λ bs, bs = map (λ s, bucket f s es) (seqZ 0 32)).
Proof.
  eapply returns_mono; [by apply fill_buckets_spec|]. intros bs ->. apply list_eq. intros i.
  rewrite list_lookup_imap, list_lookup_fmap.
  destruct (decide (i < 32)%nat).
  - rewrite lookup_replicate_2 by done. rewrite lookup_seqZ_lt by lia. done.
  - rewrite lookup_ge_None_2 by (rewrite length_replicate; change (Z.to_nat MANIFEST_BRANCH_WIDTH) with 32%nat; lia). rewrite lookup_seqZ_ge by lia. done.
Qed.

(** ** One level *)
Definition summary_of (f : nat) (es : list ManifestObject) : Summary :=
  {| s_hash := spec_hash f es; s_count := zlen es; s_bytes := total es |}.
Definition built (f : nat) (es : list ManifestObject) (m : node_map) (r : Summary * node_map) : Prop :=
  r = (summary_of f es, put f es m) ∧ total es ≤ U64_MAX ∧ fits blake3 f es.
Definition refused (es : list ManifestObject) (e : ManifestBuildError) : Prop :=
  (e = DecodedBytesOverflow ∧ U64_MAX < total es) ∨ (∃ n, e = NodeError (LeafCountOverflow n) ∧ crowded blake3 es).
Definition agree (f : nat) (es : list ManifestObject) : Prop :=
  ∀ x y l, x ∈ es → y ∈ es → 0 ≤ l < lvl f → slot_at blake3 l x = slot_at blake3 l y.

Lemma build_children_spec build f' es n s count bytes cs m :
  let f := S f' in
  Forall object_ok es → 0 ≤ s → s + Z.of_nat n ≤ 32 → bytes ≤ U64_MAX →
  (∀ s m, bucket f s es ≠ [] → settles (build (bucket f s es) m) (built f' (bucket f s es) m) (refused es)) →
  let all := concat (map (λ s, bucket f s es) (seqZ s (Z.of_nat n))) in
  let occ := List.filter (λ s, nonempty (bucket f s es)) (seqZ s (Z.of_nat n)) in
  settles (build_children build s (map (λ s, bucket f s es) (seqZ s (Z.of_nat n))) count bytes cs m)
    (λ r, r = (count + zlen all, bytes + total all, cs ++ map (child_of blake3 f' es) occ,
               fold_left (λ m s, put f' (bucket f s es) m) occ m)
          ∧ bytes + total all ≤ U64_MAX ∧ ∀ s, s ∈ occ → fits blake3 f' (bucket f s es))
    (λ e, refused es e ∨ e = DecodedBytesOverflow ∧ U64_MAX < bytes + total all).
Proof.
  intros f Hok. revert s count bytes cs m. induction n as [|n IH]; intros s count bytes cs m Hs Hn Hb Hrec; cbn zeta.
  { cbn. rewrite app_nil_r, !Z.add_0_r. split; [done|]. split; [done|]. by intros ? ?%not_elem_of_nil. }
  rewrite seqZ_cons by lia. replace (Z.pred (Z.of_nat (S n))) with (Z.of_nat n) by lia.
  cbn [map concat List.filter]. specialize (IH (Z.succ s)).
  destruct (bucket f s es) as [|e b] eqn:E.
  { cbn [nonempty build_children app].
    apply IH; [lia..|done|done]. }
  cbn [nonempty build_children map fold_left]. rewrite <- E.
  assert (0 ≤ total (bucket f s es)) as Hpos.
  { apply total_nonneg, Forall_forall. intros x [Hx _]%bucket_elem. rewrite Forall_forall in Hok. by apply Hok. }
  assert (0 ≤ total (concat (map (λ s, bucket f s es) (seqZ (Z.succ s) (Z.of_nat n))))) as Hpos'.
  { apply total_nonneg, Forall_concat, Forall_map, Forall_forall. intros i _. apply Forall_forall.
    intros x [Hx _]%bucket_elem. rewrite Forall_forall in Hok. by apply Hok. }
  apply settles_bind. eapply settles_mono; [apply (Hrec s); by rewrite E| |by left].
  intros r (-> & Ht & Hf). cbn [summary_of s_bytes s_hash s_count]. rewrite total_app, Z.add_assoc, zlen_app, Z.add_assoc.
  unfold checked_add. change USIZE_MAX with U64_MAX.
  destruct (Z.leb_spec (bytes + total (bucket f s es)) U64_MAX) as [Hle|Hgt]; cbn [ok_or mbind exec_bind].
  - eapply settles_mono; [apply IH; [lia..|done|done]| |done].
    intros r (-> & Hle' & Hfit). split; [|split; [done|]].
    + assert (as_u8 s = s) as Hu by (apply Z.mod_small; lia). rewrite Hu, <- app_assoc. done.
    + intros i [-> |Hi]%elem_of_cons; [done|by apply Hfit].
  - right. split; [done|lia].
Qed.

Lemma occupied_eq f es : List.filter (λ s, nonempty (bucket f s es)) (seqZ 0 32) = occupied f es.
Proof. unfold ManifestSpec.occupied. reflexivity. Qed.

Lemma children_sorted f' es : StronglySorted Z.lt (map slot (map (child_of blake3 f' es) (occupied (S f') es))).
Proof. rewrite map_map. cbn. rewrite map_id. apply occupied_sorted. Qed.

Lemma branch_new_sorted d cs :
  cs ≠ [] → StronglySorted Z.lt (map slot cs) → Forall (λ c, slot c < 32) cs → branch_new d cs = Ok (MBranch d cs).
Proof.
  intros Hne Hs Hr. unfold branch_new. rewrite sort_by_id.
  - assert (find (λ c, MANIFEST_BRANCH_WIDTH <=? slot c) cs = None) as ->.
    { clear -Hr. induction Hr as [|c cs Hc _ IH]; cbn [find]; [done|].
      unfold MANIFEST_BRANCH_WIDTH at 1. by rewrite (proj2 (Z.leb_gt _ _)). }
    rewrite (twin_none slot) by done. by destruct cs.
  - clear Hr Hne. induction cs as [|c cs IH]; cbn [map] in *; [constructor|]. apply StronglySorted_inv in Hs as [Hs Hc].
    constructor; [by apply IH|]. pose proof (proj1 (Forall_map _ _ _) Hc) as Hc'. eapply Forall_impl; [exact Hc'|].
    cbn. intros c' Hlt. by apply Z.compare_lt_iff.
Qed.

Lemma branch_new_children f' es :
  es ≠ [] → branch_new (lvl (S f')) (map (child_of blake3 f' es) (occupied (S f') es))
            = Ok (MBranch (lvl (S f')) (map (child_of blake3 f' es) (occupied (S f') es))).
Proof.
  intros Hne. apply branch_new_sorted; [|apply children_sorted|].
  - intros E%map_eq_nil. destruct es as [|e es]; [done|].
    assert (slot_at blake3 (lvl (S f')) e ∈ occupied (S f') (e :: es)) as Hin; [|rewrite E in Hin; by apply not_elem_of_nil in Hin].
    apply occupied_elem. intros Hb. assert (e ∈ bucket (S f') (slot_at blake3 (lvl (S f')) e) (e :: es)) as Hx.
    { apply bucket_elem. split; [by left|done]. }
    rewrite Hb in Hx. by apply not_elem_of_nil in Hx.
  - apply Forall_map, Forall_forall. intros s Hx. apply occupied_range in Hx. apply Hx.
Qed.

Lemma spec_node_branch f' es : 16 < zlen es →
  spec_node blake3 (S f') es = Branch (MBranch (lvl (S f')) (map (child_of blake3 f' es) (occupied (S f') es))).
Proof. intros Hl. cbn [spec_node]. rewrite (proj2 (Z.leb_gt _ _)) by lia. done. Qed.
Lemma spec_node_leaf f es : zlen es ≤ 16 ∨ f = 0%nat → spec_node blake3 f es = Leaf (MLeaf es).
Proof. intros [H| ->]; [|done]. destruct f; [done|]. cbn [spec_node]. by rewrite (proj2 (Z.leb_le _ _)). Qed.

Lemma build_leaf f es m :
  (zlen es ≤ 16 ∨ f = 0%nat) → sorted_objects es → agree f es →
  settles (leaf ← node_err (leaf_new es);
           bytes ← ok_or (leaf_decoded_bytes leaf) DecodedBytesOverflow;
           let '(hash, nodes) := insert_node blake3 m (Leaf leaf) in
           Ok ({| s_hash := hash; s_count := leaf_object_count leaf; s_bytes := bytes |}, nodes)) (built f es m) (refused es).
Proof.
  intros Hsmall [Hs Hok] Hag. rewrite leaf_new_sorted by done.
  destruct (Z.leb_spec (zlen es) 65535) as [Hl|Hl]; cbn [node_err mbind exec_bind].
  - rewrite leaf_bytes by done. destruct (Z.leb_spec (total es) U64_MAX) as [Ht|Ht]; cbn [ok_or mbind exec_bind insert_node].
    + unfold built, summary_of, leaf_object_count, ManifestSpec.spec_hash. rewrite spec_node_leaf by done. cbn [entries settles].
      split; [|split; [done|]].
      * assert (as_u64 (zlen es) = zlen es) as -> by (unfold as_u64; apply Z.mod_small; zlen_pose; lia).
        f_equal. destruct f; cbn [ManifestSpec.put]; unfold ManifestSpec.spec_hash; rewrite spec_node_leaf by tauto; [done|].
        destruct Hsmall as [Hz|]; [|done]. by rewrite (proj2 (Z.leb_le _ _)).
      * destruct f; cbn [fits]; [done|]. left. by destruct Hsmall.
    + left. split; [done|lia].
  - right. exists (zlen es). split; [done|]. exists es. split; [done|]. split; [lia|].
    destruct Hsmall as [| ->]; [lia|]. exact Hag.
Qed.

Lemma zlen_perm {A} (l k : list A) : l ≡ₚ k → zlen l = zlen k.
Proof. intros H. unfold zlen. by rewrite H. Qed.

Lemma build_level_spec f fuel es m :
  (f < fuel)%nat → (f ≤ 52)%nat → sorted_objects es → agree f es →
  settles (build_level blake3 fuel es (lvl f) m) (built f es m) (refused es).
Proof.
  revert fuel es m. induction f as [|f' IH]; intros [|fuel] es m Hf H52 Hso Hag; [lia| |lia|]; cbn [build_level].
  { change (MANIFEST_ROUTE_LEVELS <=? lvl 0) with true. rewrite orb_true_r. apply build_leaf; [by right|done|done]. }
  destruct (Z.leb_spec (zlen es) MANIFEST_LEAF_MAX_ENTRIES) as [Hz|Hz]; cbn [orb].
  { apply build_leaf; [by left|done|done]. }
  unfold MANIFEST_LEAF_MAX_ENTRIES in Hz. destruct (Z.leb_spec MANIFEST_ROUTE_LEVELS (lvl (S f'))) as [Hd|_].
  { unfold MANIFEST_ROUTE_LEVELS, lvl in Hd. lia. }
  step (filled_buckets (S f') es) as ->.
  apply settles_bind. eapply settles_mono.
  - apply (build_children_spec _ f' es 32 0 0 0 [] m); [apply Hso|lia..|done|]. intros s m' Hne.
    replace (lvl (S f') + 1) with (lvl f') by (unfold lvl; lia).
    eapply settles_mono; [apply IH; [lia..|by apply bucket_sorted|]|done|].
    + intros x y l [Hx Hsx]%bucket_elem [Hy Hsy]%bucket_elem Hl.
      destruct (decide (l = lvl (S f'))) as [->|]; [congruence|]. apply Hag; [done..|]. unfold lvl in *. lia.
    + intros e [[-> Ht]|(n & -> & Hc)]; [left|right].
      * split; [done|]. pose proof (bucket_total blake3 (S f') s es (proj2 Hso)). lia.
      * exists n. split; [done|]. by eapply crowded_bucket.
  - intros r (-> & Ht & Hfit). change (Z.of_nat 32) with 32 in *. cbn [fst snd].
    rewrite <- (total_perm _ _ (buckets_perm blake3 (S f') es)) in Ht |- *.
    rewrite <- (zlen_perm _ _ (buckets_perm blake3 (S f') es)).
    rewrite occupied_eq in Hfit |- *. cbn [app].
    rewrite branch_new_children by (intros ->; rewrite zlen_nil in Hz; lia). cbn [node_err mbind exec_bind insert_node settles].
    unfold built, summary_of. unfold ManifestSpec.spec_hash. rewrite spec_node_branch by done.
    split; [|split; [done|]].
    + f_equal. cbn [ManifestSpec.put]. unfold ManifestSpec.spec_hash. rewrite (proj2 (Z.leb_gt (zlen es) 16)), spec_node_branch by lia. done.
    + cbn [fits]. by right.
  - intros e [He|[-> Ht]]; [done|]. left. split; [done|]. change (Z.of_nat 32) with 32 in *.
    rewrite (total_perm _ _ (buckets_perm blake3 (S f') es)). lia.
Qed.
End build.

(** ** Building *)
Section manifest.
Context (blake3 : list Z → list Z).

(** The strictly sorted list of a set of objects. *)
Definition listed (es os : list ManifestObject) : Prop :=
  StronglySorted key_lt (map key es) ∧ ∀ o, o ∈ es ↔ o ∈ os.

Lemma sorted_objects_ext es es' :
  StronglySorted key_lt (map key es) → StronglySorted key_lt (map key es') → (∀ o, o ∈ es ↔ o ∈ es') → es = es'.
Proof.
  intros Hs Hs' He. apply (strict_sorted_ext (λ x y, key_lt (key x) (key y))); [|intros x y z; apply key_lt_trans| | |done].
  - intros x. apply key_lt_irrefl.
  - clear -Hs. induction es as [|e es IH]; cbn [map] in *; [constructor|]. apply StronglySorted_inv in Hs as [Hs He].
    constructor; [by apply IH|]. exact (proj1 (Forall_map _ _ _) He).
  - clear -Hs'. induction es' as [|e es IH]; cbn [map] in *; [constructor|]. apply StronglySorted_inv in Hs' as [Hs He].
    constructor; [by apply IH|]. exact (proj1 (Forall_map _ _ _) He).
Qed.

Lemma listed_unique es es' os os' : listed es os → listed es' os' → (∀ o, o ∈ os ↔ o ∈ os') → es = es'.
Proof. intros [Hs He] [Hs' He'] Ho. apply sorted_objects_ext; [done..|]. intros o. by rewrite He, He'. Qed.

Lemma listed_key_eq es os x y : listed es os → x ∈ os → y ∈ os → key x = key y → x = y.
Proof.
  intros [Hs He] Hx Hy E. apply He in Hx, Hy. apply (NoDup_map_inj key es); [by apply sorted_key_nodup|done..].
Qed.

Lemma listed_ok es os : listed es os → Forall object_ok os → sorted_objects es.
Proof. intros [Hs He] Hok. split; [done|]. rewrite Forall_forall in *. intros o Ho. by apply Hok, He. Qed.

Lemma collected os :
  settles (collect os ∅) (λ m, listed (into_values m) os)
    (λ e, ∃ x y, x ∈ os ∧ y ∈ os ∧ key x = key y ∧ decoded_size x ≠ decoded_size y
                 ∧ e = ConflictingDuplicate (key x) (decoded_size x) (decoded_size y)).
Proof.
  eapply settles_mono; [by apply collect_spec| |].
  - intros m [Hk He]. destruct (into_values_spec m Hk) as [Hs Hv]. split; [done|]. intros o. rewrite Hv, He, lookup_empty.
    split; [by intros [|]|by right].
  - intros e (x & y & Hx & Hr). exists x, y. split; [|done]. rewrite lookup_empty in Hx. by destruct Hx.
Qed.

Lemma agree_top es : agree blake3 52 es.
Proof. intros x y l _ _ Hl. unfold lvl in Hl. lia. Qed.

(** What [build_manifest] does after the objects are collected. *)
Definition build_sorted (es : list ManifestObject) : bres BuiltManifest :=
  '(summary, nodes) ← build_level blake3 LEVEL_FUEL es 0 ∅;
  Ok {| root := s_hash summary; nodes := nodes; m_object_count := s_count summary; m_decoded_bytes := s_bytes summary |}.

Lemma build_sorted_spec es :
  sorted_objects es →
  settles (build_sorted es) (λ b, b = manifest_of blake3 es ∧ total es ≤ U64_MAX ∧ fits blake3 52 es) (refused blake3 es).
Proof.
  intros Hes. unfold build_sorted. apply settles_bind. eapply settles_mono; [|shelve|by intros ? H; exact H].
  apply (build_level_spec blake3 52 54 es ∅); [lia|lia|done|apply agree_top].
  Unshelve. cbn. intros r (-> & Ht & Hf). done.
Qed.

Lemma build_listed es os : listed es os → build_manifest blake3 os = build_sorted es.
Proof.
  intros Hl. unfold build_manifest. pose proof (collected os) as Hc. destruct (collect os ∅) as [m|e| |]; cbn in Hc; try done.
  - by rewrite (listed_unique _ _ _ _ Hl Hc).
  - destruct Hc as (x & y & Hx & Hy & E & Hne & _). destruct Hne. by rewrite (listed_key_eq _ _ _ _ Hl Hx Hy E).
Qed.

(** C11. The manifest of some objects depends on the set of them only: the root, the nodes,
    the count and the total size are those of the trie over the sorted set, whatever the
    order and the repetitions. Building fails only when one object is given two sizes, when
    the sizes add up past [u64], or when over 65535 objects share one whole route; it never
    panics and the levels suffice. *)
Theorem build_canonical (os : list ManifestObject) :
  Forall object_ok os →
  match build_manifest blake3 os with
  | Ok b => ∃ es, listed es os ∧ b = manifest_of blake3 es ∧ total es ≤ U64_MAX
                  ∧ ∀ os', (∀ o, o ∈ os' ↔ o ∈ os) → build_manifest blake3 os' = Ok b
  | Err (ConflictingDuplicate k n n') => n ≠ n' ∧ ∃ x y, x ∈ os ∧ y ∈ os ∧ key x = k ∧ key y = k ∧ decoded_size x = n ∧ decoded_size y = n'
  | Err DecodedBytesOverflow => ∃ es, listed es os ∧ U64_MAX < total es
  | Err (NodeError e) => ∃ n es, e = LeafCountOverflow n ∧ listed es os ∧ crowded blake3 es
  | Panic | Fuel => False
  end.
Proof.
  intros Hok. pose proof (collected os) as Hc. destruct (collect os ∅) as [m|e| |] eqn:Ec; cbn in Hc; try done.
  - rewrite (build_listed _ _ Hc). pose proof (build_sorted_spec _ (listed_ok _ _ Hc Hok)) as Hb.
    destruct (build_sorted (into_values m)) as [b|e| |] eqn:Eb; cbn in Hb; try done.
    + destruct Hb as (-> & Ht & _). exists (into_values m). repeat (split; [done|]). intros os' Ho.
      rewrite (build_listed (into_values m)); [done|]. destruct Hc as [Hs He]. split; [done|]. intros o. by rewrite He, Ho.
    + destruct Hb as [[-> Ht]|(n & -> & Hcr)]; [by exists (into_values m)|by exists n, (into_values m)].
  - unfold build_manifest. rewrite Ec. cbn. destruct Hc as (x & y & Hx & Hy & E & Hne & ->). split; [done|].
    by exists x, y.
Qed.
End manifest.
