(* ===== verification/ManifestTrie.v ===== *)
(** * The nodes of a manifest

    The encodings of the nodes of a trie: each is well formed, the root determines the set
    of objects, no node occurs twice, and expanding the trie gives the objects back. BLAKE3
    is a parameter with 32-byte digests; where two different encodings have one digest, the
    theorems say so instead. *)

From S2P Require Import Prelude.
From S2P Require Import Cursor.
From S2P Require Import Manifest.
From S2P Require Import ManifestBuild.
From S2P Require Import ManifestSpec.
From S2P Require Import ManifestCanon.
Import Manifest ManifestBuild ManifestSpec.

Section trie.
Context (blake3 : list Z → list Z) (Hhash : ∀ x, hash_ok (blake3 x)).
Abbreviation bucket := (bucket blake3).
Abbreviation occupied := (occupied blake3).
Abbreviation spec_node := (spec_node blake3).
Abbreviation spec_hash := (spec_hash blake3).
Abbreviation put := (put blake3).
Abbreviation fits := (fits blake3).

(** The encodings of the nodes of a subtree, the root first. *)
Fixpoint encs (f : nat) (es : list ManifestObject) : list (list Z) :=
  encode (spec_node f es) ::
  match f with
  | O => []
  | S f' => if zlen es <=? 16 then [] else concat (map (λ s, encs f' (bucket f s es)) (occupied f es))
  end.

Definition good (f : nat) (es : list ManifestObject) : Prop :=
  (f ≤ 52)%nat ∧ sorted_objects es ∧ total es ≤ U64_MAX ∧ fits f es ∧ zlen es ≤ U64_MAX.

Lemma bucket_zlen f s es : zlen (bucket f s es) ≤ zlen es.
Proof. unfold zlen, ManifestSpec.bucket. pose proof (List.filter_length_le (λ e, slot_at blake3 (lvl f) e =? s) es). lia. Qed.

Lemma good_bucket f' s es : good (S f') es → 16 < zlen es → s ∈ occupied (S f') es → good f' (bucket (S f') s es).
Proof.
  intros (Hf & Hs & Ht & Hfit & Hz) Hl Ho. split; [lia|]. split; [by apply bucket_sorted|].
  pose proof (bucket_total blake3 (S f') s es (proj2 Hs)). split; [lia|].
  split; [|pose proof (bucket_zlen (S f') s es); lia].
  destruct Hfit as [|Hfit]; [lia|]. by apply Hfit.
Qed.

Lemma spec_node_ok f es : good f es → node_ok (spec_node f es).
Proof.
  intros Hg. pose proof Hg as (Hf & [Hs Hok] & Ht & Hfit & Hz). destruct f as [|f'].
  { split; [done|]. by split. }
  destruct (Z.le_gt_cases (zlen es) 16) as [Hl|Hl].
  { rewrite spec_node_leaf by (by left). split; [done|]. split; [done|]. cbn. lia. }
  rewrite spec_node_branch by lia. cbn [node_ok depth children]. split; [|split; [|split]].
  - unfold is_byte, lvl. lia.
  - assert (es ≠ []) as Hne by (intros ->; rewrite zlen_nil in Hl; lia).
    pose proof (branch_new_children blake3 f' es Hne) as Hb. intros E. rewrite E in Hb. done.
  - apply children_sorted.
  - apply Forall_map, Forall_forall. intros s Ho. pose proof (occupied_range _ _ _ _ Ho).
    pose proof (good_bucket f' s es Hg Hl Ho) as (_ & [_ Hbok] & Hbt & _ & Hbz).
    split; [done|]. split; [apply Hhash|]. cbn [child_of object_count decoded_bytes]. unfold u64_ok.
    pose proof (total_nonneg _ Hbok). pose proof (zlen_nonneg (bucket (S f') s es)). lia.
Qed.

(** ** A node determines the objects below it *)
Definition cross_free (B B' : list (list Z)) : Prop :=
  ∀ x y, x ∈ B → y ∈ B' → blake3 x = blake3 y → x = y.
Definition collides (B B' : list (list Z)) : Prop :=
  ∃ x y, x ∈ B ∧ y ∈ B' ∧ x ≠ y ∧ blake3 x = blake3 y.

Lemma cross_free_dec B B' : cross_free B B' ∨ collides B B'.
Proof.
  destruct (decide (Forall (λ x, Forall (λ y, blake3 x = blake3 y → x = y) B') B)) as [H|H].
  - left. intros x y Hx Hy. rewrite Forall_forall in H. specialize (H x Hx). rewrite Forall_forall in H. by apply H.
  - right. apply not_Forall_Exists in H; [|apply _]. apply Exists_exists in H as (x & Hx & H).
    apply not_Forall_Exists in H; [|apply _]. apply Exists_exists in H as (y & Hy & H). cbn in H.
    exists x, y. destruct (decide (blake3 x = blake3 y)) as [E|E]; [|by destruct H].
    split; [done|]. split; [done|]. split; [|done]. intros ->. by apply H.
Qed.

Lemma encs_root f es : encode (spec_node f es) ∈ encs f es.
Proof. destruct f; by left. Qed.

Lemma encs_kid f' s es x : 16 < zlen es → s ∈ occupied (S f') es → x ∈ encs f' (bucket (S f') s es) → x ∈ encs (S f') es.
Proof.
  intros Hl Ho Hx. cbn [encs]. rewrite (proj2 (Z.leb_gt (zlen es) 16)) by lia. right.
  apply list_elem_of_In, in_concat. exists (encs f' (bucket (S f') s es)). split; [|by apply list_elem_of_In].
  apply list_elem_of_In. apply (list_elem_of_fmap_2 (λ s, encs f' (bucket (S f') s es))). done.
Qed.

Lemma kids_perm f es es' :
  occupied f es = occupied f es' → (∀ s, s ∈ occupied f es → bucket f s es = bucket f s es') → es ≡ₚ es'.
Proof.
  intros Ho Hb. rewrite (buckets_perm blake3 f es), (buckets_perm blake3 f es').
  rewrite <- !concat_occupied, <- Ho. f_equiv. erewrite map_ext_in; [done|]. intros s Hs%list_elem_of_In. by apply Hb.
Qed.

Lemma node_inj f f' es es' :
  good f es → good f' es' → cross_free (encs f es) (encs f' es') → spec_node f es = spec_node f' es' → es = es'.
Proof.
  revert f' es es'. induction f as [|f IH]; intros f' es es' Hg Hg' Hcf E.
  { rewrite (spec_node_leaf blake3 0) in E by (by right). destruct f' as [|f']; [by injection E|].
    destruct (Z.le_gt_cases (zlen es') 16); [rewrite spec_node_leaf in E by (by left); by injection E|].
    by rewrite spec_node_branch in E by lia. }
  destruct (Z.le_gt_cases (zlen es) 16) as [Hl|Hl].
  { rewrite spec_node_leaf in E by (by left). destruct f' as [|f']; [by injection E|].
    destruct (Z.le_gt_cases (zlen es') 16); [rewrite spec_node_leaf in E by (by left); by injection E|].
    by rewrite spec_node_branch in E by lia. }
  rewrite spec_node_branch in E by lia.
  destruct f' as [|f']; [done|]. destruct (Z.le_gt_cases (zlen es') 16) as [Hl'|Hl'].
  { by rewrite spec_node_leaf in E by (by left). }
  rewrite spec_node_branch in E by lia. injection E as Hd Hcs.
  assert (f' = f) as -> by (unfold lvl in Hd; lia).
  assert (occupied (S f) es = occupied (S f) es') as Ho.
  { apply (f_equal (map slot)) in Hcs. rewrite !map_map in Hcs. cbn in Hcs. by rewrite !map_id in Hcs. }
  assert (es ≡ₚ es') as Hp.
  { apply (kids_perm (S f)); [done|]. intros s Hs. pose proof Hs as Hs'. rewrite Ho in Hs'.
    assert (spec_hash f (bucket (S f) s es) = spec_hash f (bucket (S f) s es')) as Hh.
    { rewrite <- Ho in Hcs. clear -Hcs Hs. induction (occupied (S f) es) as [|i l IH]; [by apply not_elem_of_nil in Hs|].
      cbn [map] in Hcs. injection Hcs as Hh _ _ Hcs. apply elem_of_cons in Hs as [->|Hs]; [done|by apply IH]. }
    pose proof (good_bucket f s es Hg ltac:(lia) Hs) as Hgb. pose proof (good_bucket f s es' Hg' ltac:(lia) Hs') as Hgb'.
    apply (IH f); [done|done| |].
    - intros x y Hx Hy. apply Hcf; by eapply encs_kid.
    - apply encode_inj; [by apply spec_node_ok..|]. apply Hcf; [eapply encs_kid; [done..|apply encs_root]|eapply encs_kid; [done..|apply encs_root]|done]. }
  apply sorted_objects_ext; [apply Hg|apply Hg'|]. intros o. by rewrite Hp.
Qed.

(** ** No node occurs twice *)
Lemma encs_small f es : zlen es ≤ 16 ∨ f = 0%nat → encs f es = [encode (spec_node f es)].
Proof. intros [H| ->]; [|done]. destruct f; [done|]. cbn [encs]. by rewrite (proj2 (Z.leb_le _ _)). Qed.
Lemma encs_large f' es : 16 < zlen es →
  encs (S f') es = encode (spec_node (S f') es) :: concat (map (λ s, encs f' (bucket (S f') s es)) (occupied (S f') es)).
Proof. intros H. cbn [encs]. by rewrite (proj2 (Z.leb_gt (zlen es) 16)) by lia. Qed.

Lemma concat_elem {A B} (g : A → list B) l x : x ∈ concat (map g l) ↔ ∃ a, a ∈ l ∧ x ∈ g a.
Proof.
  rewrite list_elem_of_In, in_concat. split.
  - intros (b & (a & <- & Ha)%in_map_iff & Hx). exists a. by rewrite !list_elem_of_In.
  - intros (a & Ha & Hx). exists (g a). rewrite <- list_elem_of_In. split; [|by apply list_elem_of_In].
    by apply (list_elem_of_fmap_2 g).
Qed.

Lemma encs_elem f es x :
  good f es → x ∈ encs f es →
  ∃ g es', (g ≤ f)%nat ∧ good g es' ∧ x = encode (spec_node g es') ∧ (∀ e, e ∈ es' → e ∈ es) ∧ (es ≠ [] → es' ≠ [])
           ∧ ∀ y, y ∈ encs g es' → y ∈ encs f es.
Proof.
  revert es. induction f as [|f IH]; intros es Hg Hx.
  { exists 0%nat, es. rewrite encs_small in Hx by (by right). apply list_elem_of_singleton in Hx. done. }
  destruct (Z.le_gt_cases (zlen es) 16).
  { exists (S f), es. rewrite encs_small in Hx by (by left). apply list_elem_of_singleton in Hx. done. }
  pose proof Hx as Hx'. rewrite encs_large in Hx' by lia. apply elem_of_cons in Hx' as [->|(s & Hs & Hx')%concat_elem].
  { by exists (S f), es. }
  destruct (IH _ (good_bucket f s es Hg ltac:(lia) Hs) Hx') as (g & es' & Hle & Hg' & -> & Hsub & Hne & Henc).
  exists g, es'. split; [lia|]. split; [done|]. split; [done|]. split; [|split].
  - intros e He. by apply Hsub, bucket_elem in He as [He _].
  - intros _. apply Hne. by apply occupied_elem in Hs.
  - intros y Hy. eapply encs_kid; [lia|done|by apply Henc].
Qed.

Lemma NoDup_concat_map {A B} (g : A → list B) l :
  NoDup l → (∀ a, a ∈ l → NoDup (g a)) → (∀ a b x, a ∈ l → b ∈ l → x ∈ g a → x ∈ g b → a = b) →
  NoDup (concat (map g l)).
Proof.
  induction 1 as [|a l Ha Hnd IH]; intros Hg Hd; cbn; [constructor|]. apply NoDup_app. split; [apply Hg; by left|].
  split.
  - intros x Hx (b & Hb & Hx')%concat_elem. apply Ha. by rewrite (Hd a b x ltac:(by left) ltac:(by right) Hx Hx').
  - apply IH; [intros; apply Hg; by right|]. intros b c x Hb Hc. apply Hd; by right.
Qed.

Lemma encs_nodup f es : good f es → cross_free (encs f es) (encs f es) → NoDup (encs f es).
Proof.
  revert es. induction f as [|f IH]; intros es Hg Hcf.
  { rewrite encs_small by (by right). apply NoDup_singleton. }
  destruct (Z.le_gt_cases (zlen es) 16).
  { rewrite encs_small by (by left). apply NoDup_singleton. }
  assert (∀ s x, s ∈ occupied (S f) es → x ∈ encs f (bucket (S f) s es) → x ∈ encs (S f) es) as Hin by (intros; eapply encs_kid; [lia|done..]).
  rewrite encs_large by lia. apply NoDup_cons. split.
  - intros (s & Hs & Hx)%concat_elem. pose proof (good_bucket f s es Hg ltac:(lia) Hs) as Hgb.
    destruct (encs_elem _ _ _ Hgb Hx) as (g & es' & Hle & Hg' & E & _).
    apply encode_inj in E; [|by apply spec_node_ok..]. rewrite spec_node_branch in E by lia.
    destruct g as [|g]; [done|]. destruct (Z.le_gt_cases (zlen es') 16); [by rewrite spec_node_leaf in E by (by left)|].
    rewrite spec_node_branch in E by lia. injection E as Hd _. unfold lvl in Hd. lia.
  - apply NoDup_concat_map.
    + eapply strict_sorted_nodup; [|apply occupied_sorted]. lia.
    + intros s Hs. apply IH; [by apply good_bucket|]. intros x y Hx Hy. apply Hcf; by eapply Hin.
    + intros s s' x Hs Hs' Hx Hx'.
      destruct (encs_elem _ _ _ (good_bucket f s es Hg ltac:(lia) Hs) Hx) as (g & e1 & _ & Hg1 & E1 & Hsub1 & Hne1 & Henc1).
      destruct (encs_elem _ _ _ (good_bucket f s' es Hg ltac:(lia) Hs') Hx') as (g' & e2 & _ & Hg2 & E2 & Hsub2 & _ & Henc2).
      assert (e1 = e2) as ->.
      { apply (node_inj g g'); [done|done| |].
        - intros y z Hy Hz. apply Hcf; [by eapply Hin, Henc1|by eapply Hin, Henc2].
        - apply encode_inj; [by apply spec_node_ok..|]. congruence. }
      specialize (Hne1 (proj1 (occupied_elem _ _ _ _) Hs)). destruct e2 as [|e e2]; [done|].
      specialize (Hsub1 e ltac:(by left)). specialize (Hsub2 e ltac:(by left)).
      apply bucket_elem in Hsub1 as [_ <-], Hsub2 as [_ <-]. done.
Qed.

(** ** What [put] stores *)
Lemma put_kids_lookup f' es l m h x :
  (∀ s m h x, s ∈ l → put f' (bucket (S f') s es) m !! h = Some x →
     (h = blake3 x ∧ x ∈ encs f' (bucket (S f') s es)) ∨ m !! h = Some x) →
  fold_left (λ m s, put f' (bucket (S f') s es) m) l m !! h = Some x →
  (h = blake3 x ∧ x ∈ concat (map (λ s, encs f' (bucket (S f') s es)) l)) ∨ m !! h = Some x.
Proof.
  revert m. induction l as [|s l IH]; intros m Hp; cbn [fold_left map concat]; [by right|].
  intros Hf. assert (∀ s m h x, s ∈ l → put f' (bucket (S f') s es) m !! h = Some x →
    (h = blake3 x ∧ x ∈ encs f' (bucket (S f') s es)) ∨ m !! h = Some x) as Hp' by (intros; apply Hp; [by right|done]).
  destruct (IH _ Hp' Hf) as [[-> Hx]|Hx]; [left; split; [done|]; apply elem_of_app; by right|].
  destruct (Hp s m h x ltac:(by left) Hx) as [[-> Hx']|]; [|by right]. left. split; [done|]. apply elem_of_app. by left.
Qed.

Lemma put_lookup f es m h x : put f es m !! h = Some x → (h = blake3 x ∧ x ∈ encs f es) ∨ m !! h = Some x.
Proof.
  revert es m h x. induction f as [|f IH]; intros es m h x; cbn [ManifestSpec.put].
  - destruct (decide (spec_hash 0 es = h)) as [<-|]; [|rewrite lookup_insert_ne by done; by right].
    rewrite lookup_insert_eq. intros Hx%(inj Some). subst x. left. split; [done|apply encs_root].
  - destruct (decide (spec_hash (S f) es = h)) as [<-|]; [rewrite lookup_insert_eq; intros Hx%(inj Some); subst x; left; split; [done|apply encs_root]|].
    rewrite lookup_insert_ne by done. destruct (Z.leb_spec (zlen es) 16); [by right|].
    intros Hf. apply put_kids_lookup in Hf as [[-> Hx]|Hx]; [|by right|intros; by apply IH]. left. split; [done|].
    rewrite encs_large by lia. by right.
Qed.

Definition holds (m : node_map) (B : list (list Z)) : Prop := ∀ x, x ∈ B → m !! blake3 x = Some x.

Lemma kids_keep f' es l m x :
  (∀ s m, s ∈ l → m !! blake3 x = Some x → put f' (bucket (S f') s es) m !! blake3 x = Some x) →
  m !! blake3 x = Some x → fold_left (λ m s, put f' (bucket (S f') s es) m) l m !! blake3 x = Some x.
Proof.
  revert m. induction l as [|s l IH]; intros m Hp Hm; cbn [fold_left]; [done|].
  apply IH; [intros; apply Hp; [by right|done]|]. apply Hp; [by left|done].
Qed.

Lemma put_keeps f es m x :
  (∀ y, y ∈ encs f es → blake3 y = blake3 x → y = x) → m !! blake3 x = Some x → put f es m !! blake3 x = Some x.
Proof.
  revert es m. induction f as [|f IH]; intros es m Hcf Hx; cbn [ManifestSpec.put].
  - destruct (decide (spec_hash 0 es = blake3 x)) as [E|]; [|by rewrite lookup_insert_ne].
    rewrite E, lookup_insert_eq. f_equal. by apply Hcf; [apply encs_root|].
  - destruct (decide (spec_hash (S f) es = blake3 x)) as [E|].
    { rewrite E, lookup_insert_eq. f_equal. by apply Hcf; [apply encs_root|]. }
    rewrite lookup_insert_ne by done. destruct (Z.leb_spec (zlen es) 16); [done|].
    apply kids_keep; [|done]. intros s m' Hs Hm'. apply IH; [|done]. intros y Hy. apply Hcf. eapply encs_kid; [lia|done..].
Qed.

Lemma put_holds f es m : cross_free (encs f es) (encs f es) → holds (put f es m) (encs f es).
Proof.
  revert es m. induction f as [|f IH]; intros es m Hcf x Hx; cbn [ManifestSpec.put].
  - rewrite encs_small in Hx by (by right). apply list_elem_of_singleton in Hx as ->. apply lookup_insert_eq.
  - destruct (decide (spec_hash (S f) es = blake3 x)) as [E|Hne].
    { rewrite E, lookup_insert_eq. f_equal. apply Hcf; [apply encs_root|done|done]. }
    rewrite lookup_insert_ne by done. destruct (Z.leb_spec (zlen es) 16) as [|Hl].
    { rewrite encs_small in Hx by (by left). apply list_elem_of_singleton in Hx as ->. done. }
    assert (∀ s y, s ∈ occupied (S f) es → y ∈ encs f (bucket (S f) s es) → y ∈ encs (S f) es) as Hin by (intros; eapply encs_kid; [lia|done..]).
    pose proof Hx as Hx'. rewrite encs_large in Hx' by lia. apply elem_of_cons in Hx' as [->|(s & Hs & Hx')%concat_elem]; [done|].
    apply list_elem_of_split in Hs as (l1 & l2 & El). rewrite El in Hin |- *. rewrite fold_left_app. cbn [fold_left].
    apply kids_keep.
    + intros i m' Hi. apply put_keeps. intros y Hy. apply Hcf; [|done].
      apply (Hin i); [apply elem_of_app; right; by right|done].
    + apply IH; [|done]. intros y z Hy Hz. apply Hcf; (apply (Hin s); [apply elem_of_app; right; by left|done]).
Qed.

(** ** Expansion of the trie *)
Section expansion.
Context (source : list Z → option (list Z)).

Definition serves (B : list (list Z)) : Prop := ∀ x, x ∈ B → source (blake3 x) = Some x.
Definition hashes (B : list (list Z)) : gset (list Z) := list_to_set (map blake3 B).

Lemma hashes_elem B h : h ∈ hashes B ↔ ∃ x, h = blake3 x ∧ x ∈ B.
Proof. unfold hashes. by rewrite elem_of_list_to_set, list_elem_of_fmap. Qed.
Lemma hashes_app B B' : hashes (B ++ B') = hashes B ∪ hashes B'.
Proof. unfold hashes. by rewrite map_app, list_to_set_app_L. Qed.

Lemma decode_spec f es : good f es → decode_addressed blake3 (encode (spec_node f es)) (spec_hash f es) = Ok (spec_node f es).
Proof.
  intros Hg. unfold decode_addressed. rewrite node_decode_encode by by apply spec_node_ok. cbn -[encode].
  by rewrite bool_decide_eq_false_2 by (intros H; by apply H).
Qed.

Lemma serves_root f es : serves (encs f es) → source (spec_hash f es) = Some (encode (spec_node f es)).
Proof. intros Hs. apply Hs, encs_root. Qed.

Lemma expand_children_spec (expand : list Z → gset (list Z) * gset ManifestObject → _) f' es l V O :
  NoDup (concat (map (λ s, encs f' (bucket (S f') s es)) l)) →
  (∀ x, x ∈ concat (map (λ s, encs f' (bucket (S f') s es)) l) → blake3 x ∉ V) →
  cross_free (concat (map (λ s, encs f' (bucket (S f') s es)) l)) (concat (map (λ s, encs f' (bucket (S f') s es)) l)) →
  (∀ s V O, s ∈ l → (∀ x, x ∈ encs f' (bucket (S f') s es) → blake3 x ∉ V) →
     expand (spec_hash f' (bucket (S f') s es)) (V, O)
     = Ok (hashes (encs f' (bucket (S f') s es)) ∪ V, list_to_set (bucket (S f') s es) ∪ O)) →
  expand_children expand (map (child_of blake3 f' es) l) (V, O)
  = Ok (hashes (concat (map (λ s, encs f' (bucket (S f') s es)) l)) ∪ V,
        list_to_set (concat (map (λ s, bucket (S f') s es) l)) ∪ O).
Proof.
  revert V O. induction l as [|s l IH]; intros V O Hnd HV Hcf Hexp; cbn [map concat expand_children] in *.
  { unfold hashes. cbn. by rewrite !union_empty_l_L. }
  apply NoDup_app in Hnd as (_ & Hdis & Hnd). cbn [c_hash child_of].
  rewrite Hexp; [|by left|intros x Hx; apply HV, elem_of_app; by left]. cbn [mbind exec_bind].
  rewrite IH; [|done| | |].
  - rewrite hashes_app, list_to_set_app_L. do 2 f_equal; [|]; rewrite union_assoc_L; f_equal; apply union_comm_L.
  - intros x Hx [(y & E & Hy)%hashes_elem|Hv]%elem_of_union.
    + assert (x = y) as -> by (apply Hcf; [apply elem_of_app; by right|apply elem_of_app; by left|done]).
      by apply (Hdis y).
    + by apply (HV x); [apply elem_of_app; right|].
  - intros x y Hx Hy. apply Hcf; apply elem_of_app; by right.
  - intros i V' O' Hi. apply Hexp. by right.
Qed.

Lemma expand_spec f fuel es V O :
  (f < fuel)%nat → good f es → cross_free (encs f es) (encs f es) → serves (encs f es) →
  (∀ x, x ∈ encs f es → blake3 x ∉ V) →
  expand_node blake3 source fuel (spec_hash f es) (lvl f) (V, O)
  = Ok (hashes (encs f es) ∪ V, list_to_set es ∪ O).
Proof.
  revert fuel es V O. induction f as [|f IH]; intros [|fuel] es V O Hf Hg Hcf Hs HV; [lia| |lia|]; cbn [expand_node].
  - rewrite decide_False by (apply (HV (encode (spec_node 0 es))), encs_root).
    rewrite (serves_root 0 es Hs). cbn [ok_or mbind exec_bind]. rewrite decode_spec by done.
    rewrite spec_node_leaf by (by right). rewrite encs_small by (by right). unfold hashes. cbn [map list_to_set].
    rewrite union_empty_r_L. by rewrite spec_node_leaf by (by right).
  - destruct (Z.ltb_spec MANIFEST_ROUTE_LEVELS (lvl (S f))) as [Hd|_]; [unfold MANIFEST_ROUTE_LEVELS, lvl in Hd; lia|].
    rewrite decide_False by (apply (HV (encode (spec_node (S f) es))), encs_root).
    rewrite (serves_root (S f) es Hs). cbn [ok_or mbind exec_bind]. rewrite decode_spec by done.
    destruct (Z.le_gt_cases (zlen es) 16).
    { rewrite encs_small by (by left). unfold hashes. cbn [map list_to_set]. rewrite union_empty_r_L.
      unfold ManifestSpec.spec_hash. rewrite !spec_node_leaf by (by left). done. }
    pose proof (encs_nodup _ _ Hg Hcf) as Hnd. rewrite encs_large in Hnd, Hcf, HV, Hs |- * by lia.
    apply NoDup_cons in Hnd as [Hni Hnd]. rewrite spec_node_branch at 1 by lia. cbn [children].
    rewrite (expand_children_spec _ f es); [|done| | |].
    + rewrite concat_occupied. do 2 f_equal.
      * unfold hashes. cbn [map list_to_set]. rewrite union_assoc_L. f_equal. apply union_comm_L.
      * f_equal. apply set_eq. intros e. rewrite !elem_of_list_to_set. by rewrite <- (buckets_perm blake3 (S f) es).
    + intros x Hx [E%elem_of_singleton|Hv]%elem_of_union.
      * assert (x = encode (spec_node (S f) es)) as -> by (apply Hcf; [by right|by left|done]). done.
      * by apply (HV x); [right|].
    + intros x y Hx Hy. apply Hcf; by right.
    + intros s V' O' Hs' HV'. replace (lvl (S f) + 1) with (lvl f) by (unfold lvl; lia).
      assert (∀ x, x ∈ encs f (bucket (S f) s es) → x ∈ encode (spec_node (S f) es) :: concat (map (λ s, encs f (bucket (S f) s es)) (occupied (S f) es))) as Hin.
      { intros x Hx. right. apply concat_elem. by exists s. }
      apply IH; [lia|by apply good_bucket| | |done].
      * intros x y Hx Hy. apply Hcf; by apply Hin.
      * intros x Hx. by apply Hs, Hin.
Qed.

Lemma compare_object_lt a b : compare_object a b = Lt ↔ key_lt (key a) (key b) ∨ key a = key b ∧ decoded_size a < decoded_size b.
Proof.
  unfold compare_object, key_lt. destruct (compare_key (key a) (key b)) eqn:E.
  - apply compare_key_eq in E. rewrite Z.compare_lt_iff. split; [by right|]. by intros [|[]].
  - split; [by left|done].
  - split; [done|]. intros [|[E' _]]; [done|]. apply compare_key_eq in E'. congruence.
Qed.
Lemma compare_object_antisym a b : compare_object b a = CompOpp (compare_object a b).
Proof.
  unfold compare_object. rewrite compare_key_antisym, Z.compare_antisym.
  by destruct (compare_key (key a) (key b)).
Qed.
Lemma compare_object_trans a b c : compare_object a b ≠ Gt → compare_object b c ≠ Gt → compare_object a c ≠ Gt.
Proof.
  unfold compare_object. destruct (compare_key (key a) (key b)) eqn:E1; [| |done].
  - apply compare_key_eq in E1. rewrite E1. destruct (compare_key (key b) (key c)); [|done|done].
    rewrite !Z.compare_le_iff. lia.
  - intros _. destruct (compare_key (key b) (key c)) eqn:E2; [| |done].
    + apply compare_key_eq in E2. rewrite <- E2, E1. done.
    + by rewrite (compare_key_trans Lt _ _ _ E1 E2).
Qed.

Lemma elements_sorted es : sorted_objects es → sort_by compare_object (elements (list_to_set es : gset ManifestObject)) = es.
Proof.
  intros [Hs _]. apply (sorted_unique compare_object).
  - apply compare_object_antisym.
  - apply sort_by_sorted; [intros; apply compare_object_antisym|apply compare_object_trans].
  - clear -Hs. induction es as [|e es IH]; cbn [map] in *; [constructor|]. apply StronglySorted_inv in Hs as [Hs He].
    constructor; [by apply IH|]. eapply Forall_impl; [exact (proj1 (Forall_map _ _ _) He)|]. intros x Hx.
    apply compare_object_lt. by left.
  - rewrite sort_by_perm. apply elements_list_to_set. eapply NoDup_fmap_1. by apply sorted_key_nodup.
Qed.

Lemma expand_manifest_spec es :
  good 52 es → cross_free (encs 52 es) (encs 52 es) → serves (encs 52 es) →
  expand_manifest blake3 source (spec_hash 52 es) = Ok es.
Proof.
  intros Hg Hcf Hs. unfold expand_manifest. change 0 with (lvl 52).
  rewrite (expand_spec 52) by (done || (unfold LEVEL_FUEL; lia) || (intros ? _; apply not_elem_of_empty)).
  cbn [mbind exec_bind]. rewrite union_empty_r_L. f_equal. apply elements_sorted, Hg.
Qed.
End expansion.
End trie.

(** ** Built manifests *)
Section theorems.
Context (blake3 : list Z → list Z) (Hhash : ∀ x, hash_ok (blake3 x)).

Lemma listed_zlen es os : listed es os → zlen es ≤ zlen os.
Proof.
  intros [Hs He]. unfold zlen. apply inj_le, submseteq_length, NoDup_submseteq.
  - eapply NoDup_fmap_1. by apply sorted_key_nodup.
  - intros o. apply He.
Qed.

Lemma built_good os b :
  Forall object_ok os → zlen os ≤ USIZE_MAX → build_manifest blake3 os = Ok b →
  ∃ es, listed es os ∧ good blake3 52 es ∧ b = manifest_of blake3 es.
Proof.
  intros Hok Hl Hb. pose proof (collected os) as Hc. destruct (collect os ∅) as [m|e| |] eqn:Ec; cbn in Hc; try done.
  2:{ unfold build_manifest in Hb. by rewrite Ec in Hb. }
  exists (into_values m). split; [done|]. rewrite (build_listed blake3 _ _ Hc) in Hb.
  pose proof (build_sorted_spec blake3 _ (listed_ok _ _ Hc Hok)) as Hs. rewrite Hb in Hs. cbn in Hs.
  destruct Hs as (-> & Ht & Hf). split; [|done]. split; [lia|]. split; [by apply (listed_ok _ os)|].
  split; [done|]. split; [done|]. pose proof (listed_zlen _ _ Hc). unfold USIZE_MAX, U64_MAX in *. lia.
Qed.

(** C12. Expanding a built manifest from any source of its nodes gives back the objects it
    was built from, each once and in key order; unless two different nodes of that manifest
    have one digest. *)
Theorem expand_build_roundtrip (source : list Z → option (list Z)) (os : list ManifestObject) (b : BuiltManifest) :
  Forall object_ok os → zlen os ≤ USIZE_MAX → build_manifest blake3 os = Ok b →
  (∀ h d, nodes b !! h = Some d → source h = Some d) →
  ∃ es, listed es os ∧ (expand_manifest blake3 source (root b) = Ok es
                        ∨ collides blake3 (encs blake3 52 es) (encs blake3 52 es)).
Proof using Hhash.
  intros Hok Hl Hb Hsrc. destruct (built_good os b Hok Hl Hb) as (es & Hes & Hg & ->). exists es. split; [done|].
  destruct (cross_free_dec blake3 (encs blake3 52 es) (encs blake3 52 es)) as [Hcf|]; [left|by right].
  apply expand_manifest_spec; [done..|]. intros x Hx. apply Hsrc. by apply (put_holds blake3 52 es ∅ Hcf).
Qed.

(** C13. The root of a manifest stands for its whole content: two sets of objects whose
    manifests have one root are the same set with the same sizes; or two different nodes,
    one of each manifest, have one digest. *)
Theorem root_binds_objects (os os' : list ManifestObject) (b b' : BuiltManifest) :
  Forall object_ok os → Forall object_ok os' → zlen os ≤ USIZE_MAX → zlen os' ≤ USIZE_MAX →
  build_manifest blake3 os = Ok b → build_manifest blake3 os' = Ok b' → root b = root b' →
  (∀ o, o ∈ os ↔ o ∈ os')
  ∨ ∃ es es', listed es os ∧ listed es' os' ∧ collides blake3 (encs blake3 52 es) (encs blake3 52 es').
Proof using Hhash.
  intros Hok Hok' Hl Hl' Hb Hb' Hr. destruct (built_good os b Hok Hl Hb) as (es & Hes & Hg & ->).
  destruct (built_good os' b' Hok' Hl' Hb') as (es' & Hes' & Hg' & ->).
  destruct (cross_free_dec blake3 (encs blake3 52 es) (encs blake3 52 es')) as [Hcf|]; [left|right; by exists es, es'].
  assert (es = es') as <-.
  { apply (node_inj blake3 Hhash 52 52); [done..|]. apply encode_inj; [by apply spec_node_ok..|].
    apply Hcf; [apply encs_root..|]. exact Hr. }
  intros o. destruct Hes as [_ He], Hes' as [_ He']. by rewrite <- He, <- He'.
Qed.
End theorems.
