(* ===== verification/ManifestFsck.v ===== *)
(** * Checking manifests ([crates/object-model/src/object/manifest/fsck.rs])

    The named rules, the visit of a manifest graph from a root with its checks of bytes,
    shape, routes and summaries, and the rebuild that ends it. A finding is its rule and
    its node; the text that describes it is left out. The object index, when there is one,
    is a function from keys to sizes. *)

From S2P Require Import Prelude.
From S2P Require Import Cursor.
From S2P Require Import Manifest.
From S2P Require Import ManifestBuild.
Import Manifest ManifestBuild.

Module ManifestFsck.

Inductive FsckRule :=
| MalformedNode | NonCanonicalNodeEncoding | RTrailingBytes | LeafEntriesOutOfOrder | RDuplicateObjectKey
| REmptyBranchBitmap
| NodeDigestMismatch | SubtreeSummaryMismatch | ObjectSizeMismatch | ExtentDigestMismatch
| DanglingNodeRef | DanglingObjectRef | ExtentObjectNotInManifest | UnreachableNode
| LeafOverfull | UnderfullBranch | EmptyNonRootLeaf | BranchDepthMismatch | MisroutedEntry | NonCanonicalTrieShape
| RDepthExceeded
| ExtentsOutOfOffsetOrder | ExtentOverlap | ExtentGap | RangeCoverageMismatch | ZeroLengthExtent.

#[export] Instance rule_eq_dec : EqDecision FsckRule.
Proof. solve_decision. Defined.

(** [ManifestDecodeError::fsck_rule] *)
Definition fsck_rule (e : ManifestDecodeError) : FsckRule :=
  match e with
  | BadMagic | UnsupportedVersion _ | UnknownNodeTag _ | UnknownObjectKind _ | Truncated => MalformedNode
  | TrailingBytes => RTrailingBytes
  | EntriesOutOfOrder => LeafEntriesOutOfOrder
  | DuplicateObjectKey _ => RDuplicateObjectKey
  | EmptyBranchBitmap => REmptyBranchBitmap
  | NonCanonicalEncoding => NonCanonicalNodeEncoding
  | AddressMismatch _ _ => NodeDigestMismatch
  end.

Record FsckFinding := Finding { rule : FsckRule; f_node : option (list Z) }.
Abbreviation FsckReport := (list FsckFinding).

Definition is_clean (r : FsckReport) : bool := match r with [] => true | _ => false end.
Definition has_rule (r : FsckReport) (x : FsckRule) : bool := existsb (λ f, bool_decide (rule f = x)) r.

(** What [visit] threads through: [visited], [objects], [report], [expansion_complete] *)
Record FsckState := { visited : gset (list Z); found : list ManifestObject; report : FsckReport; complete : bool }.
Definition push (x : FsckRule) (h : list Z) (st : FsckState) : FsckState :=
  {| visited := visited st; found := found st; report := report st ++ [Finding x (Some h)]; complete := complete st |}.
Definition incomplete (st : FsckState) : FsckState :=
  {| visited := visited st; found := found st; report := report st; complete := false |}.
Definition push_if (b : bool) (x : FsckRule) (h : list Z) (st : FsckState) : FsckState := if b then push x h st else st.

Section hashing.
Context (blake3 : list Z → list Z) (source : list Z → option (list Z)).
(** [options.objects] *)
Context (index : option (ManifestKey → option Z)).

(** The loop over the entries of a leaf. *)
Fixpoint visit_entries (hash : list Z) (es : list ManifestObject) (bytes : Z) (st : FsckState) : Z * FsckState :=
  match es with
  | [] => (bytes, st)
  | e :: es =>
      let bytes := saturating_add bytes (decoded_size e) in
      let st := match index with
                | Some decoded =>
                    match decoded (key e) with
                    | None => push DanglingObjectRef hash st
                    | Some size => push_if (negb (size =? decoded_size e)) ObjectSizeMismatch hash st
                    end
                | None => st
                end in
      visit_entries hash es bytes
        {| visited := visited st; found := found st ++ [e]; report := report st; complete := complete st |}
  end.

(** The loop over the objects that a child has added. *)
Fixpoint check_routes (d : Z) (child : ManifestChild) (new : list ManifestObject) (st : FsckState) : FsckState :=
  match new with
  | [] => st
  | e :: new =>
      check_routes d child new
        (push_if (negb (group (route blake3 (key e)) d =? slot child)) MisroutedEntry (c_hash child) st)
  end.

(** The loop over the children of a branch, [go] being [visit] one level down. *)
Fixpoint visit_children (go : list Z → FsckState → pure (option (Z * Z) * FsckState)) (hash : list Z) (d : Z)
    (cs : list ManifestChild) (count bytes : Z) (all : bool) (st : FsckState) : pure (Z * Z * bool * FsckState) :=
  match cs with
  | [] => Ok (count, bytes, all, st)
  | child :: cs =>
      let before := zlen (found st) in
      '(summary, st) ← go (c_hash child) st;
      new ← slice (found st) before (zlen (found st));
      let st := check_routes d child new st in
      match summary with
      | Some (n, b) =>
          let st := push_if (negb (n =? object_count child) || negb (b =? decoded_bytes child)) SubtreeSummaryMismatch hash st in
          visit_children go hash d cs (count + n) (saturating_add bytes b) all st
      | None => visit_children go hash d cs count bytes false st
      end
  end.

Fixpoint visit (fuel : nat) (hash : list Z) (d : Z) (is_root : bool) (st : FsckState) : pure (option (Z * Z) * FsckState) :=
  match fuel with
  | O => Fuel
  | S fuel =>
      if MANIFEST_ROUTE_LEVELS <? d then Ok (None, push RDepthExceeded hash (incomplete st))
      else if decide (hash ∈ visited st) then Ok (None, st)
      else
        let st := {| visited := {[hash]} ∪ visited st; found := found st; report := report st; complete := complete st |} in
        match source hash with
        | None => Ok (None, push DanglingNodeRef hash (incomplete st))
        | Some bytes =>
            if bool_decide (blake3 bytes ≠ hash) then Ok (None, push NodeDigestMismatch hash (incomplete st))
            else
              match decode bytes with
              | Err e => Ok (None, push (fsck_rule e) hash (incomplete st))
              | Panic => Panic
              | Fuel => Fuel
              | Ok (Leaf leaf) =>
                  let es := entries leaf in
                  let st := push_if ((zlen es =? 0) && negb is_root) EmptyNonRootLeaf hash st in
                  let st := push_if ((MANIFEST_LEAF_MAX_ENTRIES <? zlen es) && (d <? MANIFEST_ROUTE_LEVELS)) LeafOverfull hash st in
                  let '(bytes, st) := visit_entries hash es 0 st in
                  Ok (Some (zlen es, bytes), st)
              | Ok (Branch branch) =>
                  let st := push_if (negb (depth branch =? d)) BranchDepthMismatch hash st in
                  '(count, bytes, all, st) ←
                    visit_children (λ h st, visit fuel h (d + 1) false st) hash d (children branch) 0 0 true st;
                  if (all : bool) then
                    let st := push_if ((count <=? MANIFEST_LEAF_MAX_ENTRIES) && (d <? MANIFEST_ROUTE_LEVELS)) UnderfullBranch hash st in
                    Ok (Some (count, bytes), st)
                  else Ok (None, st)
              end
        end
  end.

(** The rebuild from the objects found; when it fails with an error nothing is reported. *)
Definition backstop (hash : list Z) (st : FsckState) : pure FsckState :=
  if complete st then
    match build_manifest blake3 (found st) with
    | Ok rebuilt => Ok (push_if (bool_decide (root rebuilt ≠ hash)) NonCanonicalTrieShape hash st)
    | Err _ => Ok st
    | Panic => Panic
    | Fuel => Fuel
    end
  else Ok st.

Definition start (r : FsckReport) : FsckState := {| visited := ∅; found := []; report := r; complete := true |}.

Definition fsck_manifest_with (hash : list Z) : pure FsckReport :=
  '(_, st) ← visit LEVEL_FUEL hash 0 true (start []);
  st ← backstop hash st;
  Ok (report st).

(** The loop over the roots of [fsck_manifest_store] *)
Fixpoint fsck_roots (roots : list (list Z)) (r : FsckReport) (reachable : gset (list Z)) : pure (FsckReport * gset (list Z)) :=
  match roots with
  | [] => Ok (r, reachable)
  | hash :: roots =>
      '(_, st) ← visit LEVEL_FUEL hash 0 true (start r);
      st ← backstop hash st;
      fsck_roots roots (report st) (reachable ∪ visited st)
  end.
Definition unreachable (hashes : list (list Z)) (reachable : gset (list Z)) : FsckReport :=
  flat_map (λ h, if decide (h ∈ reachable) then [] else [Finding UnreachableNode (Some h)]) hashes.

Definition fsck_manifest_store (node_hashes : list (list Z)) (report_unreachable : bool) (roots : list (list Z)) : pure FsckReport :=
  '(r, reachable) ← fsck_roots roots [] ∅;
  Ok (if report_unreachable then r ++ unreachable node_hashes reachable else r).
End hashing.

(** [fsck_manifest]: no options *)
Definition fsck_manifest (blake3 : list Z → list Z) (source : list Z → option (list Z)) (hash : list Z) : pure FsckReport :=
  fsck_manifest_with blake3 source None hash.

End ManifestFsck.
