(* ===== verification/ManifestAudit.v ===== *)
(** * What a clean report of a manifest means

    A visit that reports nothing has seen a graph that [expand_manifest] expands to the
    same objects, each of one key, routed as the trie demands; and the trie of a set of
    objects is reported clean. *)

From S2P Require Import Prelude.
From S2P Require Import Cursor.
From S2P Require Import Manifest.
From S2P Require Import ManifestBuild.
From S2P Require Import ManifestFsck.
From S2P Require Import ManifestSpec.
From S2P Require Import ManifestCanon.
From S2P Require Import ManifestTrie.
Import Manifest ManifestBuild ManifestFsck ManifestSpec.

(** From [st] to [st'] some findings and some objects were added; without findings, the
    objects satisfy [P]. *)
Definition grows (st st' : FsckState) (P : list ManifestObject → Prop) : Prop :=
  ∃ extra new, report st' = report st ++ extra ∧ found st' = found st ++ new
    ∧ (complete st' = complete st ∨ extra ≠ []) ∧ Forall object_ok new ∧ (extra = [] → P new).

Lemma grows_mono st st' (P Q : list ManifestObject → Prop) : grows st st' P → (∀ new, P new → Q new) → grows st st' Q.
Proof. intros (x & n & H1 & H2 & H3 & H4 & H5) HPQ. exists x, n. auto 10. Qed.

Lemma grows_refl st (P : list ManifestObject → Prop) : P [] → grows st st P.
Proof. intros HP. exists [], []. rewrite !app_nil_r. auto 10. Qed.

Lemma grows_trans st st1 st2 P Q :
  grows st st1 P → grows st1 st2 Q → grows st st2 (λ new, ∃ a b, new = a ++ b ∧ P a ∧ Q b).
Proof.
  intros (x1 & n1 & R1 & F1 & C1 & O1 & P1) (x2 & n2 & R2 & F2 & C2 & O2 & P2). exists (x1 ++ x2), (n1 ++ n2).
  rewrite R2, R1, F2, F1, <- !app_assoc. split; [done|]. split; [done|]. split; [|split; [by apply Forall_app|]].
  - destruct C2 as [C2|C2]; [|right; by destruct x1, x2]. destruct C1 as [C1|C1]; [left; congruence|right; by destruct x1].
  - intros [-> ->]%app_nil. exists n1, n2. auto.
Qed.

Lemma grows_push x h st P : grows st (push x h st) P.
Proof. exists [Finding x (Some h)], []. cbn. rewrite app_nil_r. repeat (split; [done|]). split; [by right|]. by split. Qed.
Lemma grows_fail x h st P : grows st (push x h (incomplete st)) P.
Proof. exists [Finding x (Some h)], []. cbn. rewrite app_nil_r. repeat (split; [done|]). split; [by right|]. by split. Qed.
Lemma grows_push_if b x h st : grows st (push_if b x h st) (λ new, new = [] ∧ b = false).
Proof. destruct b; [apply grows_push|by apply grows_refl]. Qed.
Lemma visited_push_if b x h st : visited (push_if b x h st) = visited st.
Proof. by destruct b. Qed.

(** The same growth from a state with the same report and objects. *)
Lemma grows_from st0 st st' P :
  report st0 = report st → found st0 = found st → complete st0 = complete st → grows st st' P → grows st0 st' P.
Proof. intros H1 H2 H3 (x & n & R & F & C & HO & HP). exists x, n. rewrite H1, H2, H3. auto 10. Qed.

Section audit.
Context (blake3 : list Z → list Z) (source : list Z → option (list Z)) (index : option (ManifestKey → option Z)).
Context (Hsource : ∀ h b, source h = Some b → bytes_ok b ∧ zlen b ≤ USIZE_MAX).

Definition indexed (e : ManifestObject) : Prop :=
  match index with Some decoded => decoded (key e) = Some (decoded_size e) | None => True end.

Lemma visit_entries_grows hash es bytes st :
  Forall object_ok es → let r := visit_entries index hash es bytes st in
  visited r.2 = visited st ∧ grows st r.2 (λ new, new = es ∧ Forall indexed es).
Proof.
  intros Hok. revert bytes st. induction Hok as [|e es Hok _ IH]; intros bytes st; cbn [visit_entries].
  { split; [done|]. by apply grows_refl. }
  set (st1 := match index with Some decoded => _ | None => st end).
  set (st2 := {| visited := visited st1 |}). destruct (IH (saturating_add bytes (decoded_size e)) st2) as [HV HG].
  assert (visited st1 = visited st ∧ grows st st1 (λ new, new = [] ∧ indexed e)) as [HV1 HG1].
  { unfold st1, indexed. destruct index as [decoded|]; [|split; [done|by apply grows_refl]].
    destruct (decoded (key e)) as [n|]; [|split; [done|apply grows_push]]. rewrite visited_push_if. split; [done|].
    eapply grows_mono; [apply grows_push_if|]. intros new [-> Hn]. split; [done|]. apply negb_false_iff, Z.eqb_eq in Hn. by rewrite Hn. }
  split; [by rewrite HV|].
  assert (grows st1 st2 (λ new, new = [e])) as HG2 by (exists [], [e]; cbn; rewrite app_nil_r; auto 10).
  eapply grows_mono; [exact (grows_trans _ _ _ _ _ HG1 (grows_trans _ _ _ _ _ HG2 HG))|].
  intros new (a & b & -> & [-> He] & c & d & -> & -> & -> & Hes). split; [done|]. by constructor.
Qed.

Lemma check_routes_grows d child new st :
  let st' := check_routes blake3 d child new st in
  visited st' = visited st ∧ grows st st' (λ added, added = [] ∧ Forall (λ e, slot_at blake3 d e = slot child) new).
Proof.
  revert st. induction new as [|e new IH]; intros st; cbn [check_routes]; [split; [done|by apply grows_refl]|].
  set (st1 := push_if _ _ _ st). destruct (IH st1) as [HV HG]. cbn zeta. rewrite HV. unfold st1 at 1.
  split; [apply visited_push_if|]. eapply grows_mono; [eapply grows_trans; [apply grows_push_if|exact HG]|].
  intros x (a & b & -> & [-> Hb] & -> & Hr). split; [done|]. constructor; [|done]. by apply negb_false_iff, Z.eqb_eq in Hb.
Qed.

(** What the objects of a clean subtree satisfy. *)
Definition sound (new : list ManifestObject) : Prop :=
  NoDup (map key new) ∧ Forall object_ok new ∧ Forall indexed new.

Definition visits (fuel : nat) (hash : list Z) (d : Z) (st : FsckState) (p : option (Z * Z) * FsckState) : Prop :=
  grows st p.2 (λ new, sound new ∧
    ∀ O, expand_node blake3 source fuel hash d (visited st, O) = Ok (visited p.2, list_to_set new ∪ O)).

Lemma visit_children_grows fuel go hash d cs count bytes all st :
  (∀ h st, returns (go h st) (visits fuel h (d + 1) st)) →
  StronglySorted Z.lt (map slot cs) →
  returns (visit_children blake3 go hash d cs count bytes all st) (λ p,
    grows st p.2 (λ new, sound new ∧ Forall (λ e, slot_at blake3 d e ∈ map slot cs) new ∧
      ∀ O, expand_children (λ h st, expand_node blake3 source fuel h (d + 1) st) cs (visited st, O)
           = Ok (visited p.2, list_to_set new ∪ O))).
Proof.
  intros Hgo. revert count bytes all st. induction cs as [|child cs IH]; intros count bytes all st Hs; cbn [visit_children].
  { cbn. apply grows_refl. split; [by repeat constructor|]. split; [done|]. intros O. cbn. by rewrite union_empty_l_L. }
  cbn [map] in Hs. apply StronglySorted_inv in Hs as [Hs Hc].
  apply returns_bind. eapply returns_mono; [apply Hgo|]. intros [summary st1] Hv. unfold visits in Hv. cbn [fst snd] in *.
  destruct Hv as (x1 & n1 & R1 & F1 & C1 & O1 & P1).
  assert (slice (E:=Empty_set) (found st1) (zlen (found st)) (zlen (found st1)) = Ok n1) as Hsl.
  { rewrite F1. apply slice_suffix. done. }
  rewrite Hsl. cbn [mbind exec_bind].
  destruct (check_routes_grows d child n1 st1) as [HV2 HG2]. set (st2 := check_routes _ _ _ _ _) in *.
  assert (∃ c b a st3, visit_children blake3 go hash d cs c b a st3
    = match summary with
      | Some (n, b) => visit_children blake3 go hash d cs (count + n) (saturating_add bytes b) all
          (push_if (negb (n =? object_count child) || negb (b =? decoded_bytes child)) SubtreeSummaryMismatch hash st2)
      | None => visit_children blake3 go hash d cs count bytes false st2
      end ∧ visited st3 = visited st2 ∧ grows st2 st3 (λ new, new = [])) as (c & b & a & st3 & <- & HV3 & HG3).
  { destruct summary as [[n b]|]; [|exists count, bytes, false, st2; split; [done|]; split; [done|by apply grows_refl]].
    eexists _, _, _, _. split; [done|]. split; [apply visited_push_if|]. eapply grows_mono; [apply grows_push_if|]. by intros ? [-> _]. }
  eapply returns_mono; [by apply IH|]. intros p HG4.
  assert (grows st st1 (λ new, new = n1 ∧ (sound new ∧ ∀ O, expand_node blake3 source fuel (c_hash child) (d + 1) (visited st, O)
            = Ok (visited st1, list_to_set new ∪ O)))) as HG1 by (exists x1, n1; auto 12).
  eapply grows_mono; [exact (grows_trans _ _ _ _ _ HG1 (grows_trans _ _ _ _ _ HG2 (grows_trans _ _ _ _ _ HG3 HG4)))|].
  intros new (? & ? & -> & [-> [Hso1 Hex1]] & ? & ? & -> & [-> Hr] & ? & n2 & -> & -> & (Hnd2 & Hok2 & Hix2) & Hr2 & Hex2).
  cbn [app]. destruct Hso1 as (Hnd1 & Hok1 & Hix1). split; [|split].
  - split; [|split; by apply Forall_app]. rewrite map_app. apply NoDup_app. split; [done|]. split; [|done].
    intros k (e1 & -> & H1)%list_elem_of_fmap (e2 & Ek & H2)%list_elem_of_fmap.
    rewrite Forall_forall in Hr, Hr2. specialize (Hr _ H1). specialize (Hr2 _ H2). cbn in Hr.
    unfold slot_at in Hr, Hr2. rewrite <- Ek, Hr in Hr2.
    rewrite Forall_forall in Hc. specialize (Hc _ Hr2). lia.
  - apply Forall_app. split; (eapply Forall_impl; [eassumption|]); cbn; intros e He; [rewrite He; by left|by right].
  - intros O. cbn [expand_children]. rewrite Hex1. cbn [mbind exec_bind]. rewrite <- HV2, <- HV3, Hex2.
    rewrite list_to_set_app_L, union_assoc_L. do 3 f_equal. apply union_comm_L.
Qed.

Lemma node_slots d cs : node_ok (Branch (MBranch d cs)) → StronglySorted Z.lt (map slot cs).
Proof. intros (_ & _ & Hs & _). exact Hs. Qed.

Lemma leaf_sound es : node_ok (Leaf (MLeaf es)) → Forall indexed es → sound es.
Proof. intros (Hs & Hok & _) Hi. split; [by apply sorted_key_nodup|]. done. Qed.

Lemma visit_grows fuel hash d root st :
  d ≤ 53 → 54 ≤ d + Z.of_nat fuel → returns (visit blake3 source index fuel hash d root st) (visits fuel hash d st).
Proof.
  revert hash d root st. induction fuel as [|fuel IH]; intros hash d root st Hd Hf; [lia|]. cbn [visit].
  destruct (Z.ltb_spec MANIFEST_ROUTE_LEVELS d) as [Hdd|Hdd]; [apply grows_fail|].
  unfold visits. cbn [expand_node]. rewrite (proj2 (Z.ltb_ge _ _) Hdd).
  destruct (decide (hash ∈ visited st)) as [Hin|Hin].
  { apply grows_refl. split; [by repeat constructor|]. intros O. cbn [list_to_set]. by rewrite union_empty_l_L. }
  set (st0 := {| visited := {[hash]} ∪ visited st |}).
  assert (∀ st' P, grows st0 st' P → grows st st' P) as Hfrom by (intros st' P; by apply grows_from).
  destruct (source hash) as [bytes|] eqn:Hsrc; [|apply Hfrom, grows_fail]. destruct (Hsource _ _ Hsrc) as [Hb Hbl].
  case_bool_decide as Hh; [apply Hfrom, grows_fail|]. 
  pose proof (decode_settles bytes Hb Hbl) as Hdec. cbn [ok_or]. unfold decode_addressed.
  destruct (decode bytes) as [[[es]|[bd cs]]|e| |] eqn:Ed; cbn in Hdec; try done; [| |apply Hfrom, grows_fail].
  - destruct Hdec as [Hok _]. cbn [entries]. destruct (visit_entries_grows hash es 0
      (push_if ((MANIFEST_LEAF_MAX_ENTRIES <? zlen es) && (d <? MANIFEST_ROUTE_LEVELS)) LeafOverfull hash
        (push_if ((zlen es =? 0) && negb root) EmptyNonRootLeaf hash st0)) (proj1 (proj2 Hok))) as [HV HG].
    destruct (visit_entries _ _ _ _ _) as [b st'] eqn:Ev. cbn [fst snd] in *. apply Hfrom.
    eapply grows_mono; [exact (grows_trans _ _ _ _ _ (grows_push_if _ _ _ _) (grows_trans _ _ _ _ _ (grows_push_if _ _ _ _) HG))|].
    intros new (? & ? & -> & [-> _] & ? & ? & -> & [-> _] & -> & Hi). cbn [app]. split; [by apply leaf_sound|].
    intros O. cbn [mbind exec_bind]. rewrite Ed. cbn [mbind exec_bind snd].
    rewrite bool_decide_eq_false_2 by (intros Hx; by apply Hx). cbn [entries]. by rewrite HV, !visited_push_if.
  - destruct Hdec as [Hok _]. cbn [children depth]. apply returns_bind.
    eapply returns_mono; [apply (visit_children_grows fuel); [intros h st1; apply IH; unfold MANIFEST_ROUTE_LEVELS in Hdd; lia|by eapply node_slots]|].
    intros [[[count bytes'] all] st1] HG. cbn [snd] in HG.
    assert (∃ s st2, (if all then Ok (Some (count, bytes'), push_if ((count <=? MANIFEST_LEAF_MAX_ENTRIES) && (d <? MANIFEST_ROUTE_LEVELS)) UnderfullBranch hash st1)
                      else Ok (E:=Empty_set) (None, st1)) = Ok (s, st2) ∧ visited st2 = visited st1 ∧ grows st1 st2 (λ new, new = [])) as (s & st2 & Hr & HV & HG2).
    { destruct all; [|exists None, st1; split; [done|]; split; [done|by apply grows_refl]].
      eexists _, _. split; [done|]. split; [apply visited_push_if|]. eapply grows_mono; [apply grows_push_if|]. by intros ? [-> _]. }
    cbn zeta in *. rewrite Hr. cbn [returns snd]. apply Hfrom.
    eapply grows_mono; [exact (grows_trans _ _ _ _ _ (grows_push_if _ _ _ _) (grows_trans _ _ _ _ _ HG HG2))|].
    intros new (? & ? & -> & [-> _] & new' & ? & -> & (Hso & _ & Hex) & ->). cbn [app]. rewrite app_nil_r. split; [done|].
    intros O. cbn [mbind exec_bind]. rewrite Ed. cbn [mbind exec_bind snd].
    rewrite bool_decide_eq_false_2 by (intros Hx; by apply Hx). cbn [children].
    rewrite visited_push_if in Hex. rewrite HV. apply Hex.
Qed.

Lemma push_if_nil b x h st : report (push_if b x h st) = [] → report st = [] ∧ b = false.
Proof. destruct b; cbn; [by intros [? ?]%app_nil|done]. Qed.

Lemma nodup_listed new : NoDup (map key new) → ∃ es, listed es new.
Proof.
  intros Hnd. pose proof (collected new) as Hc. destruct (collect new ∅) as [m|e| |]; cbn in Hc; try done; [by exists (into_values m)|].
  destruct Hc as (x & y & Hx & Hy & E & Hne & _). destruct Hne. by rewrite (NoDup_map_inj key new x y Hnd Hx Hy E).
Qed.

(** C14. A clean report is a proof of the manifest: the root expands without error, every
    listed object is in the index with its size, each key is listed once, and rebuilding
    the trie from the objects gives the same root. The rebuild can only fail, and be passed
    over, when the sizes add up past [u64] or too many objects share a route. The check
    itself never panics and its levels suffice. *)
Theorem fsck_clean_sound (hash : list Z) :
  match fsck_manifest_with blake3 source index hash with
  | Ok [] => ∃ es, expand_manifest blake3 source hash = Ok es ∧ StronglySorted key_lt (map key es)
      ∧ Forall object_ok es ∧ Forall indexed es
      ∧ match build_manifest blake3 es with
        | Ok b => root b = hash
        | Err e => refused blake3 es e
        | Panic | Fuel => False
        end
  | Ok (_ :: _) => True
  | _ => False
  end.
Proof using Hsource.
  unfold fsck_manifest_with, expand_manifest.
  destruct (returns_inv _ _ (visit_grows LEVEL_FUEL hash 0 true (start []) ltac:(lia) ltac:(done))) as ([s st] & -> & Hv).
  cbn [mbind exec_bind]. destruct Hv as (x & new & R & F & C & HO & HP). cbn [snd start report found visited complete app] in *.
  unfold backstop. destruct (complete st) eqn:Ec.
  2:{ cbn [mbind exec_bind]. destruct C as [C|C]; [done|]. rewrite R. by destruct x. }
  assert (∀ es, listed es new → Forall object_ok new → build_manifest blake3 (found st) = build_sorted blake3 es
    ∧ build_manifest blake3 es = build_sorted blake3 es
    ∧ settles (build_sorted blake3 es) (λ b, b = manifest_of blake3 es ∧ total es ≤ U64_MAX ∧ fits blake3 52 es) (refused blake3 es)) as Hbuild.
  { intros es Hl Hok. rewrite F. split; [by apply build_listed|]. split; [apply build_listed; by destruct Hl|].
    apply build_sorted_spec. by apply (listed_ok _ new). }
  destruct x as [|f x].
  - destruct (HP eq_refl) as [(Hnd & Hok & Hix) Hex]. destruct (nodup_listed new Hnd) as [es Hl].
    destruct (Hbuild es Hl Hok) as (-> & Hb2 & Hspec).
    assert (expand_manifest blake3 source hash = Ok es) as Hexp.
    { unfold expand_manifest. rewrite Hex. cbn [mbind exec_bind]. rewrite union_empty_r_L. f_equal.
      rewrite <- (elements_sorted es) by by apply (listed_ok _ new). do 2 f_equal. apply set_eq. intros o.
      rewrite !elem_of_list_to_set. symmetry. apply Hl. }
    unfold expand_manifest in Hexp. rewrite Hexp. pose proof (listed_ok es new Hl Hok) as [Hs Hoks].
    assert (Forall indexed es) as Hixs by (rewrite Forall_forall in *; intros o Ho; by apply Hix, Hl).
    destruct (build_sorted blake3 es) as [b|e| |] eqn:Eb; cbn [settles] in Hspec; try done; cbn [mbind exec_bind].
    + case_bool_decide as Hr; cbn [push_if]; [cbn [report push]; by rewrite R|]. rewrite R. exists es. by rewrite Hb2.
    + rewrite R. exists es. by rewrite Hb2.
  - pose proof (build_canonical blake3 new HO) as Hbc. rewrite F.
    destruct (build_manifest blake3 new) as [b|e| |]; try done; cbn [mbind exec_bind]; [|by rewrite R].
    unfold push_if. case_bool_decide; cbn [report push]; by rewrite R.
Qed.
End audit.

(** ** Built manifests are clean *)
Section clean.
Context (blake3 : list Z → list Z) (Hhash : ∀ x, hash_ok (blake3 x)).
Context (source : list Z → option (list Z)) (index : option (ManifestKey → option Z)).
Abbreviation bucket := (bucket blake3).
Abbreviation encs := (encs blake3).

Lemma visit_entries_clean hash es bytes st :
  sorted_objects es → Forall (indexed index) es → 0 ≤ bytes → bytes + total es ≤ U64_MAX →
  visit_entries index hash es bytes st
  = (bytes + total es, {| visited := visited st; found := found st ++ es; report := report st; complete := complete st |}).
Proof.
  intros [_ Hok]. revert bytes st. induction Hok as [|e es [_ [He _]] Hok IH]; intros bytes st Hi Hb Ht; cbn [visit_entries total] in *.
  { rewrite Z.add_0_r, app_nil_r. by destruct st. }
  apply Forall_cons in Hi as [Hie Hi]. pose proof (total_nonneg es Hok).
  assert (saturating_add bytes (decoded_size e) = bytes + decoded_size e) as -> by (unfold saturating_add; lia).
  assert (match index with
          | Some decoded => match decoded (key e) with
                            | Some size => push_if (negb (size =? decoded_size e)) ObjectSizeMismatch hash st
                            | None => push DanglingObjectRef hash st end
          | None => st end = st) as ->.
  { unfold indexed in Hie. destruct index as [decoded|]; [|done]. rewrite Hie, Z.eqb_refl. done. }
  rewrite IH by (done || lia). cbn [visited found report complete]. by rewrite <- app_assoc, Z.add_assoc.
Qed.

Lemma check_routes_clean d child new st :
  Forall (λ e, slot_at blake3 d e = slot child) new → check_routes blake3 d child new st = st.
Proof.
  induction 1 as [|e new He _ IH]; cbn [check_routes]; [done|]. unfold slot_at in He. by rewrite He, Z.eqb_refl.
Qed.

(** The state after a clean visit of the objects [es] whose nodes are [B]. *)
Definition after (st : FsckState) (B : list (list Z)) (es : list ManifestObject) (st' : FsckState) : Prop :=
  visited st' = hashes blake3 B ∪ visited st ∧ report st' = report st ∧ complete st' = complete st
  ∧ ∃ new, new ≡ₚ es ∧ found st' = found st ++ new.

Lemma visit_children_clean go f' es hash l count bytes st :
  let kids := concat (map (λ s, encs f' (bucket (S f') s es)) l) in
  let objs := concat (map (λ s, bucket (S f') s es) l) in
  NoDup kids → cross_free blake3 kids kids → (∀ x, x ∈ kids → blake3 x ∉ visited st) →
  Forall object_ok objs → 0 ≤ bytes → bytes + total objs ≤ U64_MAX →
  (∀ s st, s ∈ l → (∀ x, x ∈ encs f' (bucket (S f') s es) → blake3 x ∉ visited st) →
     ∃ st', go (spec_hash blake3 f' (bucket (S f') s es)) st
            = Ok (Some (zlen (bucket (S f') s es), total (bucket (S f') s es)), st')
       ∧ after st (encs f' (bucket (S f') s es)) (bucket (S f') s es) st') →
  ∃ st', visit_children blake3 go hash (lvl (S f')) (map (child_of blake3 f' es) l) count bytes true st
         = Ok (count + zlen objs, bytes + total objs, true, st') ∧ after st kids objs st'.
Proof.
  revert count bytes st. induction l as [|s l IH]; intros count bytes st kids objs Hnd Hcf HV Hok Hb Ht Hgo; subst kids objs;
    cbn [map concat visit_children] in *.
  { exists st. rewrite !Z.add_0_r. split; [done|]. split; [unfold hashes; cbn; by rewrite union_empty_l_L|].
    split; [done|]. split; [done|]. exists []. by rewrite app_nil_r. }
  apply NoDup_app in Hnd as (_ & Hdis & Hnd). apply Forall_app in Hok as [Hok1 Hok]. rewrite total_app in Ht.
  pose proof (total_nonneg _ Hok1). pose proof (total_nonneg _ Hok).
  destruct (Hgo s st) as (st1 & E1 & HV1 & R1 & C1 & new1 & Hp1 & F1); [by left|intros x Hx; apply HV, elem_of_app; by left|].
  cbn [c_hash child_of] in *. rewrite E1. cbn [mbind exec_bind]. rewrite F1, slice_suffix by done. cbn [mbind exec_bind].
  rewrite check_routes_clean.
  2:{ apply Forall_forall. intros e. rewrite Hp1. intros [_ He]%bucket_elem. done. }
  cbn [object_count decoded_bytes child_of]. rewrite !Z.eqb_refl. cbn [negb orb push_if].
  assert (saturating_add bytes (total (bucket (S f') s es)) = bytes + total (bucket (S f') s es)) as -> by (unfold saturating_add; lia).
  destruct (IH (count + zlen (bucket (S f') s es)) (bytes + total (bucket (S f') s es)) st1) as (st2 & E2 & HV2 & R2 & C2 & new2 & Hp2 & F2); [done| | |done|lia|lia|..].
  - intros x y Hx Hy. apply Hcf; apply elem_of_app; by right.
  - intros x Hx. rewrite HV1. intros [(y & E & Hy)%hashes_elem|Hv]%elem_of_union.
    + assert (x = y) as -> by (apply Hcf; [apply elem_of_app; by right|apply elem_of_app; by left|done]). by apply (Hdis y).
    + by apply (HV x); [apply elem_of_app; right|].
  - intros i st' Hi. apply Hgo. by right.
  - exists st2. rewrite E2, zlen_app, total_app, !Z.add_assoc. split; [done|]. split; [|split; [congruence|split; [congruence|]]].
    + rewrite HV2, HV1, hashes_app, union_assoc_L. f_equal. apply union_comm_L.
    + exists (new1 ++ new2). rewrite F2, F1, app_assoc. split; [by rewrite Hp1, Hp2|done].
Qed.

(** What [visit] does once the node is read. *)
Definition visit_node (fuel : nat) (hash : list Z) (d : Z) (root : bool) (n : ManifestNode) (st : FsckState)
  : pure (option (Z * Z) * FsckState) :=
  match n with
  | Leaf leaf =>
      let es := entries leaf in
      let st := push_if ((zlen es =? 0) && negb root) EmptyNonRootLeaf hash st in
      let st := push_if ((MANIFEST_LEAF_MAX_ENTRIES <? zlen es) && (d <? MANIFEST_ROUTE_LEVELS)) LeafOverfull hash st in
      let '(bytes, st) := visit_entries index hash es 0 st in
      Ok (Some (zlen es, bytes), st)
  | Branch branch =>
      let st := push_if (negb (depth branch =? d)) BranchDepthMismatch hash st in
      '(count, bytes, all, st) ←
        visit_children blake3 (λ h st, visit blake3 source index fuel h (d + 1) false st) hash d (children branch) 0 0 true st;
      if (all : bool) then
        let st := push_if ((count <=? MANIFEST_LEAF_MAX_ENTRIES) && (d <? MANIFEST_ROUTE_LEVELS)) UnderfullBranch hash st in
        Ok (Some (count, bytes), st)
      else Ok (None, st)
  end.

Lemma visit_reads f fuel es root st :
  good blake3 f es → serves blake3 source (encs f es) → spec_hash blake3 f es ∉ visited st →
  visit blake3 source index (S fuel) (spec_hash blake3 f es) (lvl f) root st
  = visit_node fuel (spec_hash blake3 f es) (lvl f) root (spec_node blake3 f es)
      {| visited := {[spec_hash blake3 f es]} ∪ visited st; found := found st; report := report st; complete := complete st |}.
Proof using Hhash.
  intros Hg Hs HV. cbn [visit].
  destruct (Z.ltb_spec MANIFEST_ROUTE_LEVELS (lvl f)) as [Hd|_]; [unfold MANIFEST_ROUTE_LEVELS, lvl in Hd; lia|].
  rewrite decide_False by done. rewrite (serves_root blake3 source f es Hs).
  rewrite bool_decide_eq_false_2 by (intros Hx; by apply Hx). rewrite node_decode_encode by by apply spec_node_ok.
  by destruct (spec_node blake3 f es).
Qed.

Lemma visit_leaf_clean f fuel es root st :
  good blake3 f es → serves blake3 source (encs f es) → spec_hash blake3 f es ∉ visited st →
  Forall (indexed index) es → (root = true ∨ es ≠ []) → (zlen es ≤ 16 ∨ f = 0%nat) →
  ∃ st', visit blake3 source index (S fuel) (spec_hash blake3 f es) (lvl f) root st = Ok (Some (zlen es, total es), st')
         ∧ after st (encs f es) es st'.
Proof using Hhash.
  intros Hg Hs HV Hi Hrt Hsmall. rewrite visit_reads by done. rewrite spec_node_leaf by done. cbn [visit_node entries].
  assert ((zlen es =? 0) && negb root = false) as ->.
  { destruct Hrt as [->|Hne]; [by rewrite andb_false_r|]. destruct (Z.eqb_spec (zlen es) 0) as [E|]; [|done].
    by apply zlen_0_nil in E. }
  assert ((MANIFEST_LEAF_MAX_ENTRIES <? zlen es) && (lvl f <? MANIFEST_ROUTE_LEVELS) = false) as ->.
  { apply andb_false_iff. destruct Hsmall as [Hz| ->]; [left|by right]. by apply Z.ltb_ge. }
  cbn [push_if]. destruct Hg as (_ & Hso & Ht & _). rewrite visit_entries_clean by (done || lia).
  cbn [visited found report complete]. rewrite Z.add_0_l. eexists. split; [done|]. split; [|split; [done|split; [done|by exists es]]].
  cbn [visited]. rewrite encs_small by done. unfold hashes. cbn [map list_to_set]. by rewrite union_empty_r_L.
Qed.

Lemma visit_clean f fuel es root st :
  (f < fuel)%nat → good blake3 f es → cross_free blake3 (encs f es) (encs f es) → serves blake3 source (encs f es) →
  (∀ x, x ∈ encs f es → blake3 x ∉ visited st) → Forall (indexed index) es → (root = true ∨ es ≠ []) →
  ∃ st', visit blake3 source index fuel (spec_hash blake3 f es) (lvl f) root st = Ok (Some (zlen es, total es), st')
         ∧ after st (encs f es) es st'.
Proof using Hhash.
  revert fuel es root st. induction f as [|f IH]; intros [|fuel] es rt st Hf Hg Hcf Hs HV Hi Hrt; [lia| |lia|];
    pose proof (HV _ (encs_root blake3 _ es)) as HVr.
  { apply visit_leaf_clean; [done..|by right]. }
  destruct (Z.le_gt_cases (zlen es) 16) as [Hl|Hl]; [apply visit_leaf_clean; [done..|by left]|].
  rewrite visit_reads by done. rewrite spec_node_branch by lia. cbn [visit_node depth children].
  rewrite Z.eqb_refl. cbn [negb push_if].
  set (st0 := {| visited := {[spec_hash blake3 (S f) es]} ∪ visited st |}).
  pose proof (encs_nodup _ Hhash _ _ Hg Hcf) as Hnd. rewrite encs_large in Hnd, Hcf, HV, Hs |- * by lia.
  apply NoDup_cons in Hnd as [Hni Hnd].
  assert (concat (map (λ s, bucket (S f) s es) (occupied blake3 (S f) es)) ≡ₚ es) as Hperm
    by (rewrite concat_occupied; symmetry; apply buckets_perm).
  pose proof Hg as (_ & [_ Hok] & Ht & _).
  destruct (visit_children_clean (λ h st, visit blake3 source index fuel h (lvl (S f) + 1) false st) f es
    (spec_hash blake3 (S f) es) (occupied blake3 (S f) es) 0 0 st0) as (st' & E & HV' & R & C & new & Hp & F); [done|..].
  - intros x y Hx Hy. apply Hcf; by right.
  - intros x Hx. cbn [st0 visited]. intros [Ex%elem_of_singleton|Hv]%elem_of_union; [|by apply (HV x); [right|]].
    assert (x = encode (spec_node blake3 (S f) es)) as -> by (apply Hcf; [by right|by left|done]). done.
  - by rewrite Hperm.
  - done.
  - rewrite (total_perm _ _ Hperm). lia.
  - intros s st1 Hso HV1. replace (lvl (S f) + 1) with (lvl f) by (unfold lvl; lia).
    assert (∀ x, x ∈ encs f (bucket (S f) s es) → x ∈ encode (spec_node blake3 (S f) es) :: concat (map (λ s, encs f (bucket (S f) s es)) (occupied blake3 (S f) es))) as Hin.
    { intros x Hx. right. apply concat_elem. by exists s. }
    apply IH; [lia|by apply good_bucket| | |done| |].
    + intros x y Hx Hy. apply Hcf; by apply Hin.
    + intros x Hx. by apply Hs, Hin.
    + apply Forall_forall. intros e [He _]%bucket_elem. rewrite Forall_forall in Hi. by apply Hi.
    + right. by apply occupied_elem in Hso.
  - rewrite E. cbn [mbind exec_bind]. rewrite (zlen_perm _ _ Hperm), (total_perm _ _ Hperm), !Z.add_0_l.
    unfold MANIFEST_LEAF_MAX_ENTRIES. rewrite (proj2 (Z.leb_gt (zlen es) 16)) by lia. cbn [andb push_if].
    exists st'. split; [done|]. split; [|split; [done|split; [done|]]].
    + rewrite HV'. unfold hashes. cbn [map list_to_set st0 visited]. rewrite union_assoc_L. f_equal. apply union_comm_L.
    + exists new. split; [by etrans|done].
Qed.

(** C15. The manifest that is built of some objects passes the check, with or without an
    index that holds these objects: no rule is reported; unless two different nodes of it
    have one digest. *)
Theorem fsck_accepts_built (os : list ManifestObject) (b : BuiltManifest) :
  Forall object_ok os → zlen os ≤ USIZE_MAX → build_manifest blake3 os = Ok b →
  (∀ h d, nodes b !! h = Some d → source h = Some d) →
  (∀ o, o ∈ os → match index with Some decoded => decoded (key o) = Some (decoded_size o) | None => True end) →
  ∃ es, listed es os ∧ (fsck_manifest_with blake3 source index (root b) = Ok []
                        ∨ collides blake3 (encs 52 es) (encs 52 es)).
Proof using Hhash.
  intros Hok Hl Hb Hsrc Hix. destruct (built_good blake3 os b Hok Hl Hb) as (es & Hes & Hg & ->). exists es. split; [done|].
  destruct (cross_free_dec blake3 (encs 52 es) (encs 52 es)) as [Hcf|]; [left|by right].
  assert (Forall (indexed index) es) as Hi by (apply Forall_forall; intros o Ho; by apply Hix, Hes).
  unfold fsck_manifest_with. change 0 with (lvl 52). cbn [manifest_of root].
  destruct (visit_clean 52 LEVEL_FUEL es true (start [])) as (st & E & HV & R & C & new & Hp & F);
    [unfold LEVEL_FUEL; lia|done|done| | |done|by left|].
  - intros x Hx. apply Hsrc. by apply (put_holds blake3 52 es ∅ Hcf).
  - intros x _. apply not_elem_of_empty.
  - rewrite E. cbn [mbind exec_bind]. unfold backstop. rewrite C. cbn [start complete found app] in *.
    rewrite F. rewrite (build_listed blake3 es), <- (build_listed blake3 es os), Hb by (done || (split; [apply Hes|]; intros o; by rewrite Hp)).
    cbn [mbind exec_bind manifest_of root]. rewrite bool_decide_eq_false_2 by (intros Hx; by apply Hx). cbn [push_if]. by rewrite R.
Qed.
End clean.
