(* ===== verification/ManifestExtent.v ===== *)
(** * Pack-range claims ([crates/object-model/src/object/manifest/extent.rs], [fsck.rs])

    The canonical encoding of a claim of pack records and [fsck_pack_range], which checks
    that the records partition the claimed range. BLAKE3 is a parameter. A string is its
    bytes, which are UTF-8. *)

From S2P Require Import Prelude.
From S2P Require Import Text.
From S2P Require Import Cursor.
From S2P Require Import Manifest.
From S2P Require Import ManifestFsck.
Import Text Cursor Manifest ManifestFsck.

Module ManifestExtent.

(** ["WPMX"] *)
Definition PACK_CLAIM_MAGIC : list Z := [87; 80; 77; 88].
Definition PACK_CLAIM_VERSION : Z := 1.

Record PackRecord := PRecord { object : ManifestObject; offset : Z; length : Z; encoded_digest : list Z }.
Record PackRangeClaim := Claim { pack_id : list Z; etag : list Z; start : Z; stop : Z; records : list PackRecord }.

Definition record_end (r : PackRecord) : option Z := checked_add (offset r) (length r).
Definition record_key (r : PackRecord) : ManifestKey := key (object r).

(** [(record.offset, record.length, record.key())], compared field by field *)
Definition compare_record (a b : PackRecord) : comparison :=
  match offset a ?= offset b with
  | Eq => match length a ?= length b with
          | Eq => compare_key (record_key a) (record_key b)
          | c => c
          end
  | c => c
  end.

Definition claim_new (pack_id etag : list Z) (start stop : Z) (records : list PackRecord) : PackRangeClaim :=
  Claim pack_id etag start stop (sort_by compare_record records).

Definition byte_len (c : PackRangeClaim) : option Z := if start c <=? stop c then Some (stop c - start c) else None.

(** [(value.len() as u16).to_be_bytes()] and the bytes *)
Definition push_short_string (v : list Z) : list Z := to_be_bytes 2 (zlen v) ++ v.
Definition encode_record (r : PackRecord) : list Z :=
  [kind_to_byte (o_kind (object r))] ++ o_hash (object r) ++ to_be_bytes 8 (decoded_size (object r))
  ++ to_be_bytes 8 (offset r) ++ to_be_bytes 8 (length r) ++ encoded_digest r.
Definition encode_claim (c : PackRangeClaim) : list Z :=
  fold_left (λ out r, out ++ encode_record r) (records c)
    (PACK_CLAIM_MAGIC ++ [PACK_CLAIM_VERSION] ++ push_short_string (pack_id c) ++ push_short_string (etag c)
     ++ to_be_bytes 8 (start c) ++ to_be_bytes 8 (stop c) ++ to_be_bytes 4 (zlen (records c))).

Inductive PackClaimDecodeError :=
| CBadMagic
| CUnsupportedVersion (v : Z)
| CUnknownObjectKind (k : Z)
| CTruncated
| CTrailingBytes
| CInvalidUtf8
| RecordsOutOfOffsetOrder
| CNonCanonicalEncoding.
Definition cres := (exec PackClaimDecodeError).

Definition check_order (previous : option PackRecord) (record : PackRecord) : cres unit :=
  match previous with
  | Some prev => match compare_record prev record with Lt => Ok () | _ => Err RecordsOutOfOffsetOrder end
  | None => Ok ()
  end.

(** The loop over the records; [previous] is the last one. *)
Fixpoint decode_records (count : nat) (previous : option PackRecord) (r : Reader) : cres (list PackRecord * Reader) :=
  match count with
  | O => Ok ([], r)
  | S count =>
      '(kind_byte, r) ← read_u8 CTruncated r;
      kind ← ok_or (kind_from_byte kind_byte) (CUnknownObjectKind kind_byte);
      '(hash, r) ← read_hash CTruncated r;
      '(decoded_size, r) ← read_u64 CTruncated r;
      '(offset, r) ← read_u64 CTruncated r;
      '(length, r) ← read_u64 CTruncated r;
      '(digest, r) ← read_hash CTruncated r;
      let record := PRecord (MObject kind hash decoded_size) offset length digest in
      _ ← check_order previous record;
      '(rs, r) ← decode_records count (Some record) r;
      Ok (record :: rs, r)
  end.

Definition decode_claim_body (r : Reader) : cres (PackRangeClaim * Reader) :=
  '(magic, r) ← take CTruncated r 4;
  if bool_decide (magic ≠ PACK_CLAIM_MAGIC) then Err CBadMagic
  else
    '(version, r) ← read_u8 CTruncated r;
    if negb (version =? PACK_CLAIM_VERSION) then Err (CUnsupportedVersion version)
    else
      '(pack_id, r) ← short_string CTruncated CInvalidUtf8 r;
      '(etag, r) ← short_string CTruncated CInvalidUtf8 r;
      '(start, r) ← read_u64 CTruncated r;
      '(stop, r) ← read_u64 CTruncated r;
      '(count, r) ← read_u32 CTruncated r;
      '(rs, r) ← decode_records (Z.to_nat count) None r;
      Ok (Claim pack_id etag start stop rs, r).

Definition decode_claim (bytes : list Z) : cres PackRangeClaim :=
  '(claim, r) ← decode_claim_body (reader_new bytes);
  if negb (pos r =? zlen bytes) then Err CTrailingBytes
  else if bool_decide (encode_claim claim ≠ bytes) then Err CNonCanonicalEncoding
  else Ok claim.

(** ** [fsck_pack_range] *)
Record PackRangeAudit := Audit { range_bytes : option (list Z); authorized : option (gset ManifestKey) }.

Definition note (x : FsckRule) : FsckReport := [Finding x None].
Definition note_if (b : bool) (x : FsckRule) : FsckReport := if b then note x else [].

Section hashing.
Context (blake3 : list Z → list Z).

(** The digest check of one record. *)
Definition check_digest (claim : PackRangeClaim) (audit : PackRangeAudit) (r : PackRecord) (r_end : Z) : FsckReport :=
  match range_bytes audit with
  | Some bytes =>
      if start claim <=? offset r then
        match get_range bytes (offset r - start claim) (saturating_sub r_end (start claim)) with
        | Some slice => note_if (bool_decide (blake3 slice ≠ encoded_digest r)) ExtentDigestMismatch
        | None => note RangeCoverageMismatch
        end
      else []
  | None => []
  end.
Definition check_authorized (audit : PackRangeAudit) (r : PackRecord) : FsckReport :=
  match authorized audit with
  | Some keys => note_if (negb (bool_decide (record_key r ∈ keys))) ExtentObjectNotInManifest
  | None => []
  end.

(** The loop over the records: the findings, and the cursor unless an end overflowed. *)
Fixpoint check_records (claim : PackRangeClaim) (audit : PackRangeAudit) (rs : list PackRecord) (previous : option PackRecord)
    (cursor : Z) : FsckReport * option Z :=
  match rs with
  | [] => ([], Some cursor)
  | r :: rs =>
      let f0 := note_if (length r =? 0) ZeroLengthExtent in
      let f1 := match previous with
                | Some prev => note_if (offset r <? offset prev) ExtentsOutOfOffsetOrder
                | None => []
                end in
      let f2 := if cursor <? offset r then note ExtentGap
                else note_if (offset r <? cursor) ExtentOverlap in
      match record_end r with
      | None => (f0 ++ f1 ++ f2 ++ note RangeCoverageMismatch, None)
      | Some r_end =>
          let cursor := Z.max cursor r_end in
          let '(fs, last) := check_records claim audit rs (Some r) cursor in
          (f0 ++ f1 ++ f2 ++ check_digest claim audit r r_end ++ check_authorized audit r ++ fs, last)
      end
  end.

Definition fsck_pack_range (claim : PackRangeClaim) (audit : PackRangeAudit) : FsckReport :=
  if stop claim <? start claim then note RangeCoverageMismatch
  else
    match records claim with
    | [] => note_if (negb (stop claim =? start claim)) RangeCoverageMismatch
    | rs =>
        match check_records claim audit rs None (start claim) with
        | (fs, None) => fs
        | (fs, Some cursor) =>
            fs ++ note_if (negb (cursor =? stop claim)) RangeCoverageMismatch
            ++ match range_bytes audit, byte_len claim with
               | Some bytes, Some expected => note_if (negb (zlen bytes =? expected)) RangeCoverageMismatch
               | _, _ => []
               end
        end
    end.
End hashing.
End ManifestExtent.
Import ManifestExtent.

(** ** The partition that a clean claim is *)
Fixpoint tiles (from to : Z) (rs : list PackRecord) : Prop :=
  match rs with
  | [] => from = to
  | r :: rs => offset r = from ∧ 0 < length r ∧ tiles (from + length r) to rs
  end.

Definition record_ok (r : PackRecord) : Prop :=
  object_ok (object r) ∧ u64_ok (offset r) ∧ u64_ok (length r) ∧ hash_ok (encoded_digest r).

Section range.
Context (blake3 : list Z → list Z).

(** What the audit asks of one record. *)
Definition audited (claim : PackRangeClaim) (audit : PackRangeAudit) (r : PackRecord) : Prop :=
  match range_bytes audit with
  | Some bytes => blake3 (sub_list bytes (offset r - start claim) (offset r + length r - start claim)) = encoded_digest r
  | None => True
  end
  ∧ match authorized audit with Some keys => record_key r ∈ keys | None => True end.

Lemma note_if_nil b x : note_if b x = [] ↔ b = false.
Proof. by destruct b. Qed.

Lemma check_authorized_nil audit r :
  check_authorized audit r = [] ↔ match authorized audit with Some keys => record_key r ∈ keys | None => True end.
Proof.
  unfold check_authorized. destruct (authorized audit); [|done]. rewrite note_if_nil, negb_false_iff. apply bool_decide_eq_true.
Qed.

Lemma tiles_le from to rs : tiles from to rs → from ≤ to.
Proof. revert from. induction rs as [|r rs IH]; intros from; cbn; [lia|]. intros (_ & H & Ht%IH). lia. Qed.

Lemma check_digest_nil claim audit r :
  start claim ≤ offset r → 0 < length r →
  (match range_bytes audit with Some bytes => offset r + length r - start claim ≤ zlen bytes | None => True end) →
  check_digest blake3 claim audit r (offset r + length r) = []
  ↔ match range_bytes audit with
    | Some bytes => blake3 (sub_list bytes (offset r - start claim) (offset r + length r - start claim)) = encoded_digest r
    | None => True
    end.
Proof.
  intros Hs Hl Hb. unfold check_digest. destruct (range_bytes audit) as [bytes|]; [|done].
  rewrite (proj2 (Z.leb_le _ _) Hs). unfold saturating_sub. rewrite Z.max_r by lia.
  assert (get_range bytes (offset r - start claim) (offset r + length r - start claim)
    = Some (sub_list bytes (offset r - start claim) (offset r + length r - start claim))) as ->.
  { apply get_range_Some. split; [lia|]. by split. }
  rewrite note_if_nil, bool_decide_eq_false. split; [by intros H%dec_stable|by intros H Hn; apply Hn].
Qed.

(** The loop on records that are well formed. *)
Lemma check_records_nil claim audit rs previous cursor to :
  Forall record_ok rs → start claim ≤ cursor → to ≤ U64_MAX →
  (match previous with Some p => offset p ≤ cursor | None => True end) →
  (match range_bytes audit with Some bytes => zlen bytes = to - start claim | None => True end) →
  check_records blake3 claim audit rs previous cursor = ([], Some to)
  ↔ tiles cursor to rs ∧ Forall (audited claim audit) rs.
Proof.
  intros Hok. revert previous cursor. induction Hok as [|r rs (_ & [Ho _] & [Hl Hl'] & _) Hok IH];
    intros previous cursor Hs Hto Hp Hb; cbn [check_records tiles].
  { split; [by intros [= ->]|]. by intros [-> _]. }
  rewrite Forall_cons.
  destruct (decide (offset r = cursor ∧ 0 < length r)) as [[E Hpos]|Hn].
  2:{ split; [|intros [(? & ? & _) _]; by destruct Hn]. intros H. exfalso. apply Hn.
      assert (note_if (length r =? 0) ZeroLengthExtent = [] ∧
        (if cursor <? offset r then note ExtentGap else note_if (offset r <? cursor) ExtentOverlap) = []) as [H0 H2].
      { destruct (record_end r); [destruct (check_records _ _ _ _ _ _)|]; injection H as H _;
          repeat match goal with H : _ ++ _ = [] |- _ => apply app_nil in H as [? ?] end; done. }
      apply note_if_nil, Z.eqb_neq in H0. destruct (Z.ltb_spec cursor (offset r)); [done|].
      apply note_if_nil, Z.ltb_ge in H2. lia. }
  unfold record_end, checked_add. change USIZE_MAX with U64_MAX.
  assert (note_if (length r =? 0) ZeroLengthExtent = []) as -> by (apply note_if_nil, Z.eqb_neq; lia).
  assert (match previous with Some prev => note_if (offset r <? offset prev) ExtentsOutOfOffsetOrder | None => [] end = []) as ->.
  { destruct previous; [|done]. apply note_if_nil, Z.ltb_ge. lia. }
  rewrite E, Z.ltb_irrefl. cbn [note_if app]. rewrite <- E.
  destruct (Z.leb_spec (offset r + length r) U64_MAX) as [He|He].
  2:{ split; [done|]. intros [(_ & _ & Ht%tiles_le) _]. lia. }
  rewrite Z.max_r by lia. specialize (IH (Some r) (offset r + length r) ltac:(lia) Hto ltac:(cbn; lia) Hb).
  destruct (check_records blake3 claim audit rs (Some r) (offset r + length r)) as [fs last].
  split.
  - intros [= H1 ->]. apply app_nil in H1 as [Hd [Ha ->]%app_nil].
    destruct (proj1 IH eq_refl) as [Ht Hau]. split; [done|]. split; [|done]. split; [|by apply check_authorized_nil].
    apply check_digest_nil in Hd; [done|lia|done|]. apply tiles_le in Ht. destruct (range_bytes audit); [lia|done].
  - intros [(_ & _ & Ht) [[Hd Ha] Hau]]. pose proof (proj2 IH (conj Ht Hau)) as [= -> ->].
    assert (check_authorized audit r = []) as -> by by apply check_authorized_nil.
    assert (check_digest blake3 claim audit r (offset r + length r) = []) as ->; [|done].
    apply check_digest_nil; [lia|done| |done]. apply tiles_le in Ht. destruct (range_bytes audit); [lia|done].
Qed.

Lemma check_records_none claim audit rs previous cursor fs :
  check_records blake3 claim audit rs previous cursor = (fs, None) → fs ≠ [].
Proof.
  revert previous cursor fs. induction rs as [|r rs IH]; intros previous cursor fs; cbn [check_records]; [done|].
  destruct (record_end r) as [e|].
  - destruct (check_records _ _ _ _ _ _) as [fs' last] eqn:E. intros [= <- ->].
    apply IH in E. intros H. repeat match goal with H : _ ++ _ = [] |- _ => apply app_nil in H as [? ?] end. done.
  - intros [= <-] H. repeat match goal with H : _ ++ _ = [] |- _ => apply app_nil in H as [? ?] end. done.
Qed.

(** C16. [fsck_pack_range] reports nothing exactly when the records tile the claimed range:
    in order, each of positive length, each starting where the one before ends, from the
    first byte to the last; when the bytes of the range are given they have its length and
    every record its digest; and when a set of authorized keys is given every record is in
    it. A claim without records must be empty, and its bytes are not looked at. *)
Theorem fsck_pack_range_exact (claim : PackRangeClaim) (audit : PackRangeAudit) :
  Forall record_ok (records claim) → u64_ok (start claim) → u64_ok (stop claim) →
  fsck_pack_range blake3 claim audit = []
  ↔ tiles (start claim) (stop claim) (records claim)
    ∧ Forall (audited claim audit) (records claim)
    ∧ (records claim ≠ [] → ∀ bytes, range_bytes audit = Some bytes → zlen bytes = stop claim - start claim).
Proof.
  intros Hok Hs He. unfold fsck_pack_range. destruct (Z.ltb_spec (stop claim) (start claim)) as [Hlt|Hle].
  { split; [done|]. intros [Ht%tiles_le _]. lia. }
  destruct (records claim) as [|r rs] eqn:Er.
  { rewrite note_if_nil, negb_false_iff, Z.eqb_eq. cbn [tiles]. split; [|by intros [-> _]]. intros ->. done. }
  set (all := r :: rs) in *. assert (all ≠ []) as Hne by done. clearbody all. clear r rs.
  unfold byte_len. rewrite (proj2 (Z.leb_le _ _) Hle).
  pose proof (λ Hb, check_records_nil claim audit all None (start claim) (stop claim) Hok ltac:(lia) (proj2 He) I Hb) as Hloop.
  pose proof (check_records_none claim audit all None (start claim)) as Hnone.
  assert ((∀ bytes, range_bytes audit = Some bytes → zlen bytes = stop claim - start claim) →
    match range_bytes audit with Some bytes => zlen bytes = stop claim - start claim | None => True end) as Hbytes.
  { intros Hz. destruct (range_bytes audit); [by apply Hz|done]. }
  destruct (check_records blake3 claim audit all None (start claim)) as [fs [cursor|]].
  - split.
    + intros [-> [Hc Hb]%app_nil]%app_nil. apply note_if_nil, negb_false_iff, Z.eqb_eq in Hc as ->.
      assert (∀ bytes, range_bytes audit = Some bytes → zlen bytes = stop claim - start claim) as Hz.
      { intros bytes Eb. rewrite Eb in Hb. by apply note_if_nil, negb_false_iff, Z.eqb_eq in Hb. }
      by destruct (proj1 (Hloop (Hbytes Hz)) eq_refl).
    + intros (Ht & Ha & Hz). specialize (Hz Hne). pose proof (proj2 (Hloop (Hbytes Hz)) (conj Ht Ha)) as [= -> ->].
      rewrite Z.eqb_refl. cbn [negb note_if app]. destruct (range_bytes audit); [|done].
      by rewrite (Hz _ eq_refl), Z.eqb_refl.
  - split; [by intros ->; destruct (Hnone [])|].
    intros (Ht & Ha & Hz). by pose proof (proj2 (Hloop (Hbytes (Hz Hne))) (conj Ht Ha)).
Qed.
End range.

(** ** The codec of claims *)
Lemma compare_record_antisym a b : compare_record b a = CompOpp (compare_record a b).
Proof.
  unfold compare_record. rewrite (Z.compare_antisym (offset a)), (Z.compare_antisym (length a)), compare_key_antisym.
  destruct (offset a ?= offset b); [|done..]. by destruct (length a ?= length b).
Qed.

Definition record_lt (a b : PackRecord) : Prop := compare_record a b = Lt.

#[export] Instance record_lt_trans : Transitive record_lt.
Proof.
  intros a b c. unfold record_lt, compare_record.
  destruct (Z.compare_spec (offset a) (offset b)), (Z.compare_spec (offset b) (offset c)), (Z.compare_spec (offset a) (offset c));
    intros Hab Hbc; try done; try lia.
  destruct (Z.compare_spec (length a) (length b)), (Z.compare_spec (length b) (length c)), (Z.compare_spec (length a) (length c));
    try done; try lia.
  by eapply compare_key_trans.
Qed.

Definition claim_ok (c : PackRangeClaim) : Prop :=
  is_utf8 (pack_id c) = true ∧ zlen (pack_id c) < 65536 ∧ is_utf8 (etag c) = true ∧ zlen (etag c) < 65536
  ∧ u64_ok (start c) ∧ u64_ok (stop c) ∧ zlen (records c) < 4294967296
  ∧ StronglySorted record_lt (records c) ∧ Forall record_ok (records c).

Lemma records_reads rs previous :
  StronglySorted record_lt (option_list previous ++ rs) → Forall record_ok rs →
  reads (decode_records (List.length rs) previous) (concat (map encode_record rs)) rs.
Proof.
  revert previous. induction rs as [|[[k h n] o l g] rs IH]; intros previous Hs Hok; cbn [List.length decode_records map concat].
  { apply reads_ret. }
  apply Forall_cons in Hok as [([[Hh _] Hn] & Ho & Hl & [Hg _]) Hok]. unfold encode_record.
  cbn [o_kind o_hash decoded_size object offset length encoded_digest] in *. rewrite <- !app_assoc.
  apply reads_bind with (a := kind_to_byte k); [apply reads_u8; by destruct k|]. rewrite kind_to_from. cbn -[take to_be_bytes].
  apply reads_bind with (a := h); [by apply reads_hash|].
  apply reads_bind with (a := n); [by apply reads_u64|].
  apply reads_bind with (a := o); [by apply reads_u64|].
  apply reads_bind with (a := l); [by apply reads_u64|].
  apply reads_bind with (a := g); [by apply reads_hash|].
  set (x := PRecord (MObject k h n) o l g) in *.
  assert (check_order previous x = Ok ()) as ->.
  { destruct previous as [p|]; [|done]. cbn [option_list app] in Hs. apply StronglySorted_inv in Hs as [_ Hs].
    apply Forall_inv in Hs. unfold record_lt in Hs. cbn [check_order]. by rewrite Hs. }
  cbn -[take to_be_bytes decode_records].
  apply reads_last with (a := rs); [|apply reads_ret]. apply IH; [|done].
  destruct previous; [by apply StronglySorted_inv in Hs as [Hs _]|done].
Qed.

Definition claim_fault (e : PackClaimDecodeError) : Prop := e ≠ CNonCanonicalEncoding.

Lemma records_parses n previous :
  parses (decode_records n previous)
    (λ v rs, v = concat (map encode_record rs) ∧ List.length rs = n
             ∧ StronglySorted record_lt (option_list previous ++ rs) ∧ Forall record_ok rs) claim_fault.
Proof.
  assert (claim_fault CTruncated) as HT by done.
  revert previous. induction n as [|n IH]; intros previous; cbn [decode_records].
  { apply parses_ret. cbn. repeat (split; [done|]). split; [|done]. destruct previous; cbn; by repeat constructor. }
  eapply parses_bind; [eapply parses_mono; [apply u8_parses|done|by intros e ->]|]. intros b vb [-> Hb].
  destruct (kind_from_byte b) as [k|] eqn:Ek; [|by apply parses_err].
  apply kind_from_to in Ek as ->. cbn [ok_or mbind exec_bind].
  eapply parses_bind; [eapply parses_mono; [apply hash_parses|by intros v a Hv [-> Ha]; instantiate (1 := λ v a, v = a ∧ hash_ok a)|by intros e ->]|]. intros h vh [-> Hh].
  eapply parses_bind; [eapply parses_mono; [apply u64_parses|done|by intros e ->]|]. intros s vs [-> Hn].
  eapply parses_bind; [eapply parses_mono; [apply u64_parses|done|by intros e ->]|]. intros o vo [-> Ho].
  eapply parses_bind; [eapply parses_mono; [apply u64_parses|done|by intros e ->]|]. intros l vl [-> Hl].
  eapply parses_bind; [eapply parses_mono; [apply hash_parses|by intros v a Hv [-> Ha]; instantiate (1 := λ v a, v = a ∧ hash_ok a)|by intros e ->]|]. intros g vg [-> Hg].
  set (x := PRecord (MObject k h s) o l g).
  assert (StronglySorted record_lt (option_list previous ++ [x]) →
    parses (λ r, '(rs, r) ← decode_records n (Some x) r; Ok (x :: rs, r))
      (λ w rs, [kind_to_byte k] ++ h ++ to_be_bytes 8 s ++ to_be_bytes 8 o ++ to_be_bytes 8 l ++ g ++ w = concat (map encode_record rs)
        ∧ List.length rs = S n ∧ StronglySorted record_lt (option_list previous ++ rs) ∧ Forall record_ok rs) claim_fault) as Hgo.
  { intros Hc. eapply parses_bind; [apply IH|]. intros rs vr (-> & Hlen & Hs & Hok). apply parses_ret.
    rewrite app_nil_r. split; [|split; [by cbn; rewrite Hlen|split; [|by constructor]]].
    - cbn [map concat]. unfold encode_record, x. cbn [o_kind o_hash decoded_size object offset length encoded_digest].
      by rewrite <- !app_assoc.
    - destruct previous as [p|]; cbn in *; [|done]. constructor; [done|].
      apply StronglySorted_inv in Hc as [_ Hc]. apply Forall_inv in Hc. constructor; [done|].
      apply StronglySorted_inv in Hs as [_ Hs]. eapply Forall_impl; [exact Hs|]. intros. by etrans. }
  destruct previous as [p|]; [|by apply Hgo; repeat constructor].
  cbn [check_order]. destruct (compare_record p x) eqn:Hlt; [by apply parses_err| |by apply parses_err].
  apply Hgo. by repeat constructor.
Qed.

Lemma encode_claim_eq c :
  encode_claim c = PACK_CLAIM_MAGIC ++ [PACK_CLAIM_VERSION] ++ push_short_string (pack_id c) ++ push_short_string (etag c)
    ++ to_be_bytes 8 (start c) ++ to_be_bytes 8 (stop c) ++ to_be_bytes 4 (zlen (records c)) ++ concat (map encode_record (records c)).
Proof. unfold encode_claim. rewrite fold_left_concat. by rewrite <- !app_assoc. Qed.

Lemma claim_reads c : claim_ok c → reads decode_claim_body (encode_claim c) c.
Proof.
  destruct c as [p e s t rs]. intros (Hp & Hpl & He & Hel & Hs & Ht & Hrl & Hso & Hok).
  cbn [pack_id etag start stop records] in *. rewrite encode_claim_eq. cbn [pack_id etag start stop records]. unfold decode_claim_body.
  apply reads_bind with (a := PACK_CLAIM_MAGIC); [apply (reads_take CTruncated PACK_CLAIM_MAGIC)|]. cbn -[to_be_bytes].
  apply (reads_bind _ _ [PACK_CLAIM_VERSION]) with (a := PACK_CLAIM_VERSION); [by apply reads_u8|]. cbn -[to_be_bytes].
  apply reads_bind with (a := p); [by apply reads_short_string|].
  apply reads_bind with (a := e); [by apply reads_short_string|].
  apply reads_bind with (a := s); [by apply reads_u64|].
  apply reads_bind with (a := t); [by apply reads_u64|].
  apply reads_bind with (a := zlen rs); [apply reads_u32; zlen_pose; lia|].
  apply reads_last with (a := rs); [|apply reads_ret]. unfold zlen. rewrite Nat2Z.id. by apply records_reads.
Qed.

Lemma claim_parses : parses decode_claim_body (λ v c, v = encode_claim c ∧ claim_ok c) claim_fault.
Proof.
  unfold decode_claim_body.
  eapply parses_bind; [eapply parses_mono; [by apply take_parses|done|by intros e ->]|]. intros m vm [-> _].
  case_bool_decide as Hm; [by apply parses_err|]. subst vm.
  eapply parses_bind; [eapply parses_mono; [apply u8_parses|done|by intros e ->]|]. intros v vv [-> _].
  destruct (Z.eqb_spec v PACK_CLAIM_VERSION) as [->|]; cbn [negb]; [|by apply parses_err].
  eapply parses_bind; [eapply parses_mono; [apply short_string_parses|done|by intros e [-> | ->]]|]. intros p vp (-> & Hpl & Hp).
  eapply parses_bind; [eapply parses_mono; [apply short_string_parses|done|by intros e [-> | ->]]|]. intros e ve (-> & Hel & He).
  eapply parses_bind; [eapply parses_mono; [apply u64_parses|done|by intros e' ->]|]. intros s vs [-> Hs].
  eapply parses_bind; [eapply parses_mono; [apply u64_parses|done|by intros e' ->]|]. intros t vt [-> Ht].
  eapply parses_bind; [eapply parses_mono; [apply u32_parses|done|by intros e' ->]|]. intros n vn [-> Hn].
  eapply parses_bind; [apply records_parses|]. intros rs vr (-> & Hlen & Hso & Hok). apply parses_ret.
  assert (zlen rs = n) as Hz by (unfold zlen; lia). split.
  - rewrite encode_claim_eq. cbn [pack_id etag start stop records]. unfold push_short_string. rewrite Hz, app_nil_r. by rewrite <- ?app_assoc.
  - unfold claim_ok. cbn [pack_id etag start stop records]. rewrite Hz. repeat (split; [done|]). split; [lia|done].
Qed.

(** A claim has exactly one byte string: decoding arbitrary bytes never panics, it
    accepts exactly the encodings of the claims whose names are UTF-8 of at most 65535
    bytes and whose records are strictly ordered by offset, length and key, and gives the
    claim back. *)
Theorem claim_codec_exact (bytes : list Z) :
  bytes_ok bytes → zlen bytes ≤ USIZE_MAX →
  (∀ c, decode_claim bytes = Ok c ↔ claim_ok c ∧ encode_claim c = bytes)
  ∧ match decode_claim bytes with Ok _ => True | Err e => e ≠ CNonCanonicalEncoding | Panic | Fuel => False end.
Proof.
  intros Hb Hl.
  assert (settles (decode_claim bytes) (λ c, claim_ok c ∧ encode_claim c = bytes) claim_fault) as Hd.
  { unfold decode_claim. apply settles_bind. eapply settles_mono; [apply claim_parses; [by apply within_new|done]| |done].
    intros [c r] (v & Er & Hr & Hrest & _ & -> & Hc). cbn [fst snd] in *.
    replace (pos r =? zlen bytes) with (is_exhausted r) by (rewrite Er; done). rewrite exhausted_rest by done.
    case_bool_decide as E; cbn [negb]; [|done]. rewrite E, app_nil_r, rest_new in Hrest. subst bytes.
    rewrite bool_decide_eq_false_2 by (intros H; by apply H). done. }
  split.
  - intros c. split; [intros E; by rewrite E in Hd|]. intros [Hc <-]. unfold decode_claim.
    rewrite (claim_reads c Hc (reader_new (encode_claim c)) []); [|by apply within_new|by rewrite rest_new, app_nil_r].
    cbn -[encode_claim]. rewrite Z.eqb_refl. cbn [negb]. by rewrite bool_decide_eq_false_2 by (intros H; by apply H).
  - destruct (decode_claim bytes); cbn in Hd; done.
Qed.

(** A claim of three bytes in two records, with its bytes and its keys. *)
Definition sum_digest (d : list Z) : list Z := replicate 31 0 ++ [Z.land (fold_left Z.add d 0) 255].
Definition two_records : list PackRecord :=
  [PRecord (MObject Blob (replicate 32 9) 4) 10 1 (sum_digest [5]);
   PRecord (MObject Tree (replicate 32 1) 7) 11 2 (sum_digest [6; 7])].
Lemma two_records_ok : Forall record_ok two_records.
Proof.
  assert (∀ l, zlen l = 32 → forallb (λ b, (0 <=? b) && (b <? 256)) l = true → hash_ok l) as Hc.
  { intros l Hl H. split; [done|]. apply Forall_forall. intros x Hx%list_elem_of_In. rewrite forallb_forall in H.
    specialize (H x Hx). unfold is_byte. lia. }
  repeat constructor; try (by apply Hc); done.
Qed.
Lemma fsck_pack_range_exact_witness :
  fsck_pack_range sum_digest (Claim [112] [101] 10 13 two_records) (Audit (Some [5; 6; 7]) None) = []
  ∧ tiles 10 13 two_records.
Proof.
  pose proof (fsck_pack_range_exact sum_digest (Claim [112] [101] 10 13 two_records) (Audit (Some [5; 6; 7]) None)
    two_records_ok ltac:(done) ltac:(done)) as H.
  assert (fsck_pack_range sum_digest (Claim [112] [101] 10 13 two_records) (Audit (Some [5; 6; 7]) None) = []) as E by by vm_compute.
  split; [exact E|]. destruct (proj1 H E) as [Ht _]. exact Ht.
Defined.
