(* ===== verification/ManifestBinding.v ===== *)
(** * Manifest bindings ([crates/object-model/src/object/manifest/binding.rs], [spool_id.rs])

    The binding of a content root to a spool, a facet and an owner: its canonical encoding
    with the facet tokens and spool ids that it admits. A string is its bytes. *)

From S2P Require Import Prelude.
From S2P Require Import Text.
From S2P Require Import Cursor.
From S2P Require Import Manifest.
Import Text Cursor Manifest.

Module ManifestBinding.

(** ["WPMB"] *)
Definition MANIFEST_BINDING_MAGIC : list Z := [87; 80; 77; 66].
Definition MANIFEST_BINDING_VERSION : Z := 1.

Definition is_lower (b : Z) : bool := between 97 122 b.
Definition is_upper (b : Z) : bool := between 65 90 b.
Definition is_digit (b : Z) : bool := between 48 57 b.
Definition is_alphanumeric (b : Z) : bool := is_lower b || is_upper b || is_digit b.

(** ** Spool ids *)
Definition valid_segment (segment : list Z) : bool :=
  negb (bool_decide (segment = []))
  && forallb (λ b, is_lower b || is_digit b || (b =? 45) || (b =? 95) || (b =? 46)) segment
  && match head segment with Some b => is_alphanumeric b | None => false end
  && match last segment with Some b => is_alphanumeric b | None => false end.

(** [SpoolId::parse] *)
Definition spool_parse (value : list Z) : option (list Z) :=
  match split 47 value with
  | [] => None
  | namespace :: segments =>
      let name := match segments with name :: _ => name | [] => [] end in
      let third := match segments with _ :: _ :: _ => true | _ => false end in
      if third || negb (valid_segment namespace) || negb (valid_segment name) then None else Some value
  end.

(** ** Facets *)
Inductive ManifestFacet := Content | Governance | Membership | Children | Named (token : list Z).
#[export] Instance facet_eq_dec : EqDecision ManifestFacet.
Proof. solve_decision. Defined.

Definition token (f : ManifestFacet) : list Z :=
  match f with
  | Content => ascii_bytes "content"
  | Governance => ascii_bytes "governance"
  | Membership => ascii_bytes "membership"
  | Children => ascii_bytes "children"
  | Named t => t
  end.

(** [&&] evaluates its right side only when the left one holds, so the indices exist. *)
Definition valid_facet_token (t : list Z) : bool :=
  negb (bool_decide (t = [])) && (zlen t <=? 64)
  && forallb (λ b, is_lower b || is_digit b || (b =? 45) || (b =? 95)) t
  && match head t with Some b => is_alphanumeric b | None => false end
  && match last t with Some b => is_alphanumeric b | None => false end.

Definition facet_parse (t : list Z) : option ManifestFacet :=
  if decide (t = ascii_bytes "content") then Some Content
  else if decide (t = ascii_bytes "governance") then Some Governance
  else if decide (t = ascii_bytes "membership") then Some Membership
  else if decide (t = ascii_bytes "children") then Some Children
  else if valid_facet_token t then Some (Named t) else None.

Definition well_known : list ManifestFacet := [Content; Governance; Membership; Children].

(** ** Owners *)
Inductive ManifestOwnerKind := OState | OStateAttachment.
Definition owner_to_byte (k : ManifestOwnerKind) : Z := match k with OState => 0 | OStateAttachment => 1 end.
Definition owner_from_byte (b : Z) : option ManifestOwnerKind :=
  if b =? 0 then Some OState else if b =? 1 then Some OStateAttachment else None.

(** ** Bindings *)
Record ManifestBinding := MBinding {
  spool : list Z; facet : ManifestFacet; owner_kind : ManifestOwnerKind;
  owner_hash : list Z; owner_decoded_size : Z; content_root : list Z }.

Definition encode_binding (b : ManifestBinding) : list Z :=
  MANIFEST_BINDING_MAGIC ++ [MANIFEST_BINDING_VERSION]
  ++ to_be_bytes 2 (zlen (spool b)) ++ spool b
  ++ to_be_bytes 2 (zlen (token (facet b))) ++ token (facet b)
  ++ [owner_to_byte (owner_kind b)] ++ owner_hash b ++ to_be_bytes 8 (owner_decoded_size b) ++ content_root b.

Inductive ManifestBindingDecodeError :=
| BBadMagic
| BUnsupportedVersion (v : Z)
| BUnknownOwnerKind (k : Z)
| BTruncated
| BTrailingBytes
| BInvalidUtf8
| InvalidSpoolId (s : list Z)
| InvalidFacet (s : list Z)
| BNonCanonicalEncoding.
Definition mbres := (exec ManifestBindingDecodeError).

Definition decode_binding_body (r : Reader) : mbres (ManifestBinding * Reader) :=
  '(magic, r) ← take BTruncated r 4;
  if bool_decide (magic ≠ MANIFEST_BINDING_MAGIC) then Err BBadMagic
  else
    '(version, r) ← read_u8 BTruncated r;
    if negb (version =? MANIFEST_BINDING_VERSION) then Err (BUnsupportedVersion version)
    else
      '(spool_token, r) ← short_string BTruncated BInvalidUtf8 r;
      spool ← ok_or (spool_parse spool_token) (InvalidSpoolId spool_token);
      '(facet_token, r) ← short_string BTruncated BInvalidUtf8 r;
      facet ← ok_or (facet_parse facet_token) (InvalidFacet facet_token);
      '(owner_byte, r) ← read_u8 BTruncated r;
      owner_kind ← ok_or (owner_from_byte owner_byte) (BUnknownOwnerKind owner_byte);
      '(owner_hash, r) ← read_hash BTruncated r;
      '(owner_decoded_size, r) ← read_u64 BTruncated r;
      '(content_root, r) ← read_hash BTruncated r;
      Ok (MBinding spool facet owner_kind owner_hash owner_decoded_size content_root, r).

Definition decode_binding (bytes : list Z) : mbres ManifestBinding :=
  '(b, r) ← decode_binding_body (reader_new bytes);
  if negb (pos r =? zlen bytes) then Err BTrailingBytes
  else if bool_decide (encode_binding b ≠ bytes) then Err BNonCanonicalEncoding
  else Ok b.

Definition binding_address (blake3 : list Z → list Z) (b : ManifestBinding) : list Z := blake3 (encode_binding b).
End ManifestBinding.
Import ManifestBinding.

(** ** Tokens and ids *)
Lemma facet_parse_token f t : facet_parse t = Some f → token f = t.
Proof. unfold facet_parse. repeat case_decide; [by intros [= <-]..|]. destruct (valid_facet_token t); [by intros [= <-]|done]. Qed.

Lemma spool_parse_id s s' : spool_parse s = Some s' → s' = s.
Proof. unfold spool_parse. destruct (split 47 s); [done|]. destruct (_ || _); [done|by intros [= ->]]. Qed.

Lemma split_bytes (P : Z → Prop) s : P 47 → Forall (Forall P) (split 47 s) → Forall P s.
Proof.
  intros Hsep. induction s as [|b s IH]; cbn [split]; [done|]. destruct (Z.eqb_spec b 47) as [->|].
  - intros [_ H]%Forall_cons. constructor; [done|by apply IH].
  - destruct (split 47 s) as [|p ps]; intros [Hp Hps]%Forall_cons; apply Forall_cons in Hp as [Hb Hp];
      apply Forall_cons; (split; [exact Hb|]); apply IH; by apply Forall_cons || done.
Qed.

Definition ascii_byte (b : Z) : Prop := 0 ≤ b < 128.

Lemma valid_segment_ascii s : valid_segment s = true → Forall ascii_byte s.
Proof.
  unfold valid_segment. rewrite !andb_true_iff. intros [[[_ H] _] _]. rewrite forallb_forall in H. apply Forall_forall.
  intros b Hb%list_elem_of_In. specialize (H b Hb). unfold ascii_byte, is_lower, is_digit, between in *. lia.
Qed.

Lemma spool_ascii s s' : spool_parse s = Some s' → Forall ascii_byte s.
Proof.
  unfold spool_parse. intros H. apply split_bytes; [unfold ascii_byte; lia|].
  destruct (split 47 s) as [|n [|m [|x segs]]]; [done|..]; cbn in H.
  - by rewrite orb_true_r in H.
  - destruct (negb (valid_segment n) || negb (valid_segment m)) eqn:E; [done|]. apply orb_false_iff in E as [E E'].
    constructor; [|constructor; [|done]]; apply valid_segment_ascii; by apply negb_false_iff.
  - done.
Qed.

Lemma facet_parsed f t : facet_parse t = Some f → Forall ascii_byte t ∧ zlen t ≤ 64.
Proof.
  unfold facet_parse. repeat case_decide; subst; try (intros _; by (split; [repeat constructor|])).
  destruct (valid_facet_token t) eqn:E; [|done]. intros _. unfold valid_facet_token in E. rewrite !andb_true_iff in E.
  destruct E as [[[[_ Hl] Hf] _] _]. split; [|by apply Z.leb_le]. rewrite forallb_forall in Hf. apply Forall_forall.
  intros b Hb%list_elem_of_In. specialize (Hf b Hb). unfold ascii_byte, is_lower, is_digit, between in *. lia.
Qed.

(** ** The codec of bindings *)
Definition binding_ok (b : ManifestBinding) : Prop :=
  spool_parse (spool b) = Some (spool b) ∧ zlen (spool b) < 65536 ∧ facet_parse (token (facet b)) = Some (facet b)
  ∧ hash_ok (owner_hash b) ∧ u64_ok (owner_decoded_size b) ∧ hash_ok (content_root b).

Definition binding_fault (e : ManifestBindingDecodeError) : Prop := e ≠ BNonCanonicalEncoding.

Lemma binding_reads b : binding_ok b → reads decode_binding_body (encode_binding b) b.
Proof.
  destruct b as [s f k h n c]. intros (Hs & Hsl & Hf & [Hh _] & Hn & [Hc _]).
  cbn [spool facet owner_kind owner_hash owner_decoded_size content_root] in *. unfold encode_binding, decode_binding_body.
  cbn [spool facet owner_kind owner_hash owner_decoded_size content_root].
  pose proof (facet_parsed _ _ Hf) as [Hfa Hfl].
  apply reads_bind with (a := MANIFEST_BINDING_MAGIC); [apply (reads_take BTruncated MANIFEST_BINDING_MAGIC)|]. cbn -[to_be_bytes token].
  apply (reads_bind _ _ [MANIFEST_BINDING_VERSION]) with (a := MANIFEST_BINDING_VERSION); [by apply reads_u8|]. cbn -[to_be_bytes token].
  rewrite app_assoc. apply reads_bind with (a := s); [apply reads_short_string; [by apply ascii_is_utf8, (spool_ascii s s)|done]|].
  rewrite Hs. cbn [ok_or mbind exec_bind].
  rewrite app_assoc. apply reads_bind with (a := token f); [apply reads_short_string; [by apply ascii_is_utf8|lia]|].
  rewrite Hf. cbn [ok_or mbind exec_bind].
  apply (reads_bind _ _ [owner_to_byte k]) with (a := owner_to_byte k); [apply reads_u8; by destruct k|].
  assert (owner_from_byte (owner_to_byte k) = Some k) as -> by by destruct k. cbn [ok_or mbind exec_bind].
  apply reads_bind with (a := h); [by apply reads_hash|].
  apply reads_bind with (a := n); [by apply reads_u64|].
  apply reads_last with (a := c); [by apply reads_hash|]. apply reads_ret.
Qed.

Lemma binding_parses : parses decode_binding_body (λ v b, v = encode_binding b ∧ binding_ok b) binding_fault.
Proof.
  unfold decode_binding_body.
  eapply parses_bind; [eapply parses_mono; [by apply take_parses|done|by intros e ->]|]. intros m vm [-> _].
  case_bool_decide as Hm; [by apply parses_err|]. subst vm.
  eapply parses_bind; [eapply parses_mono; [apply u8_parses|done|by intros e ->]|]. intros v vv [-> _].
  destruct (Z.eqb_spec v MANIFEST_BINDING_VERSION) as [->|]; cbn [negb]; [|by apply parses_err].
  eapply parses_bind; [eapply parses_mono; [apply short_string_parses|done|by intros e [-> | ->]]|]. intros s vs (-> & Hsl & _).
  destruct (spool_parse s) as [s'|] eqn:Es; [|by apply parses_err]. pose proof (spool_parse_id _ _ Es) as ->. cbn [ok_or mbind exec_bind].
  eapply parses_bind; [eapply parses_mono; [apply short_string_parses|done|by intros e [-> | ->]]|]. intros t vt (-> & _ & _).
  destruct (facet_parse t) as [f|] eqn:Ef; [|by apply parses_err]. pose proof (facet_parse_token _ _ Ef) as Et. cbn [ok_or mbind exec_bind].
  eapply parses_bind; [eapply parses_mono; [apply u8_parses|done|by intros e ->]|]. intros o vo [-> _].
  destruct (owner_from_byte o) as [k|] eqn:Ek; [|by apply parses_err].
  assert (o = owner_to_byte k) as -> by (unfold owner_from_byte in Ek; repeat case_match; simplify_eq; cbn; lia). cbn [ok_or mbind exec_bind].
  eapply parses_bind; [eapply parses_mono; [apply hash_parses|by intros x a Hv [-> Ha]; instantiate (1 := λ v a, v = a ∧ hash_ok a)|by intros e ->]|]. intros h vh [-> Hh].
  eapply parses_bind; [eapply parses_mono; [apply u64_parses|done|by intros e ->]|]. intros n vn [-> Hn].
  eapply parses_bind; [eapply parses_mono; [apply hash_parses|by intros x a Hv [-> Ha]; instantiate (1 := λ v a, v = a ∧ hash_ok a)|by intros e ->]|]. intros c vc [-> Hc].
  apply parses_ret. split.
  - unfold encode_binding. cbn [spool facet owner_kind owner_hash owner_decoded_size content_root]. rewrite Et, app_nil_r.
    by rewrite <- ?app_assoc.
  - unfold binding_ok. cbn [spool facet owner_kind owner_hash owner_decoded_size content_root]. by rewrite Et.
Qed.

(** A binding has exactly one byte string: decoding arbitrary bytes never panics, it
    accepts exactly the encodings of the bindings with a canonical spool id of at most 65535
    bytes and a facet in its normal form, and gives the binding back. *)
Theorem binding_codec_exact (bytes : list Z) :
  bytes_ok bytes → zlen bytes ≤ USIZE_MAX →
  (∀ b, decode_binding bytes = Ok b ↔ binding_ok b ∧ encode_binding b = bytes)
  ∧ match decode_binding bytes with Ok _ => True | Err e => e ≠ BNonCanonicalEncoding | Panic | Fuel => False end.
Proof.
  intros Hb Hl.
  assert (settles (decode_binding bytes) (λ b, binding_ok b ∧ encode_binding b = bytes) binding_fault) as Hd.
  { unfold decode_binding. apply settles_bind. eapply settles_mono; [apply binding_parses; [by apply within_new|done]| |done].
    intros [b r] (v & Er & Hr & Hrest & _ & -> & Hok). cbn [fst snd] in *.
    replace (pos r =? zlen bytes) with (is_exhausted r) by (rewrite Er; done). rewrite exhausted_rest by done.
    case_bool_decide as E; cbn [negb]; [|done]. rewrite E, app_nil_r, rest_new in Hrest. subst bytes.
    rewrite bool_decide_eq_false_2 by (intros H; by apply H). done. }
  split.
  - intros b. split; [intros E; by rewrite E in Hd|]. intros [Hok <-]. unfold decode_binding.
    rewrite (binding_reads b Hok (reader_new (encode_binding b)) []); [|by apply within_new|by rewrite rest_new, app_nil_r].
    cbn -[encode_binding]. rewrite Z.eqb_refl. cbn [negb]. by rewrite bool_decide_eq_false_2 by (intros H; by apply H).
  - destruct (decode_binding bytes); cbn in Hd; done.
Qed.
