(* ===== verification/ManifestSamples.v ===== *)
(** * Manifests at concrete inputs

    A digest of 32 bytes, a set of seventeen objects, which is one more than a leaf holds,
    on which the theorems about manifests are applied, and a manifest that the check passes
    although no set of objects builds it. *)

From S2P Require Import Prelude.
From S2P Require Import Cursor.
From S2P Require Import Manifest.
From S2P Require Import ManifestBuild.
From S2P Require Import ManifestSpec.
From S2P Require Import ManifestCanon.
From S2P Require Import ManifestTrie.
From S2P Require Import ManifestFsck.
From S2P Require Import ManifestAudit.
Import Manifest ManifestBuild ManifestSpec ManifestFsck.

Module ManifestSamples.

(** The bytes at positions that agree modulo 32, added up. *)
Fixpoint lanes (fuel : nat) (d acc : list Z) : list Z :=
  match fuel, d with
  | O, _ | _, [] => acc
  | S fuel, _ => lanes fuel (drop 32 d) (zip_with Z.add acc (take 32 d ++ replicate 32 0))
  end.
Definition digest (d : list Z) : list Z :=
  map (λ b, Z.land b 255) (lanes (length d) d (replicate 32 0)).
Lemma lanes_length fuel d acc : length acc = 32%nat → length (lanes fuel d acc) = 32%nat.
Proof.
  revert d acc. induction fuel as [|fuel IH]; intros d acc Ha; [done|]. cbn [lanes]. destruct d as [|x d]; [done|].
  apply IH. rewrite length_zip_with, Ha, length_app, length_replicate. lia.
Qed.
Lemma digest_ok d : hash_ok (digest d).
Proof.
  unfold digest. split.
  - unfold zlen. rewrite length_map, lanes_length by done. done.
  - apply Forall_map, Forall_forall. intros b _. change 255 with (Z.ones 8). rewrite Z.land_ones by lia.
    apply Z.mod_pos_bound. lia.
Qed.

Definition obj (i n : Z) : ManifestObject := MObject Blob (replicate 32 i) n.
Definition sample : list ManifestObject := map (λ i, obj (8 * i) (i * 10)) (seqZ 1 17).
Lemma objects_check os :
  forallb (λ o, (zlen (o_hash o) =? 32) && forallb (λ b, (0 <=? b) && (b <? 256)) (o_hash o)
                && (0 <=? decoded_size o) && (decoded_size o <=? U64_MAX)) os = true → Forall object_ok os.
Proof.
  rewrite forallb_forall. intros H. apply Forall_forall. intros o Ho%list_elem_of_In. specialize (H o Ho).
  rewrite !andb_true_iff, forallb_forall in H. destruct H as [[[Hl Hb] H0] H1]. split; [split|split; lia]; [lia|].
  apply Forall_forall. intros b Hb'%list_elem_of_In. specialize (Hb b Hb'). unfold is_byte. lia.
Qed.
Lemma sample_ok : Forall object_ok sample.
Proof. apply objects_check. by vm_compute. Qed.
Lemma reversed_ok : Forall object_ok (rev sample ++ [obj 24 30]).
Proof. apply objects_check. by vm_compute. Qed.

(** The sample is its own sorted list, and the one of its reversal with a repetition. *)
Lemma sample_sorted : StronglySorted key_lt (map key sample).
Proof. repeat (constructor; [|repeat (constructor; [by vm_compute|]); constructor]). constructor. Qed.
Lemma sample_listed : listed sample sample.
Proof. split; [apply sample_sorted|done]. Qed.
Lemma reversed_listed : listed sample (rev sample ++ [obj 24 30]).
Proof.
  split; [apply sample_sorted|]. intros o. rewrite elem_of_app, list_elem_of_singleton, (list_elem_of_In (rev sample)), <- in_rev, <- list_elem_of_In.
  split; [by left|]. intros [H| ->]; [exact H|]. apply (list_elem_of_lookup_2 _ 2). reflexivity.
Qed.

Definition sample_built : BuiltManifest :=
  match build_manifest digest sample with
  | Ok b => b
  | _ => {| root := []; nodes := ∅; m_object_count := 0; m_decoded_bytes := 0 |}
  end.
Lemma sample_builds : build_manifest digest sample = Ok sample_built.
Proof. vm_cast_no_check (eq_refl (build_manifest digest sample)). Qed.
Lemma reversed_builds : build_manifest digest (rev sample ++ [obj 24 30]) = Ok sample_built.
Proof. rewrite (build_listed digest sample), <- (build_listed digest sample sample); [apply sample_builds|apply sample_listed|apply reversed_listed]. Qed.
Definition sample_source (h : list Z) : option (list Z) := nodes sample_built !! h.

#[local] Opaque build_manifest fsck_manifest_with expand_manifest.

Lemma build_canonical_witness : Forall object_ok sample ∧ ∃ es, listed es sample ∧ sample_built = manifest_of digest es.
Proof.
  split; [apply sample_ok|]. pose proof (build_canonical digest sample sample_ok) as H. rewrite sample_builds in H.
  destruct H as (es & Hl & E & _). exists es. split; [exact Hl|exact E].
Defined.

Lemma expand_build_roundtrip_witness :
  ∃ es, listed es sample ∧ (expand_manifest digest sample_source (root sample_built) = Ok es
                            ∨ collides digest (encs digest 52 es) (encs digest 52 es)).
Proof.
  exact (expand_build_roundtrip digest digest_ok sample_source sample sample_built sample_ok
    ltac:(by vm_compute) sample_builds (λ h d Hd, Hd)).
Defined.

Lemma root_binds_objects_witness :
  (∀ o, o ∈ sample ↔ o ∈ rev sample ++ [obj 24 30])
  ∨ ∃ es es', listed es sample ∧ listed es' (rev sample ++ [obj 24 30]) ∧ collides digest (encs digest 52 es) (encs digest 52 es').
Proof.
  exact (root_binds_objects digest digest_ok sample (rev sample ++ [obj 24 30]) sample_built sample_built
    sample_ok reversed_ok ltac:(by vm_compute) ltac:(by vm_compute) sample_builds reversed_builds eq_refl).
Defined.

Lemma fsck_accepts_built_witness :
  ∃ es, listed es sample ∧ (fsck_manifest_with digest sample_source None (root sample_built) = Ok []
                            ∨ collides digest (encs digest 52 es) (encs digest 52 es)).
Proof.
  exact (fsck_accepts_built digest digest_ok sample_source None sample sample_built sample_ok
    ltac:(by vm_compute) sample_builds (λ h d Hd, Hd) (λ _ _, I)).
Defined.

#[local] Transparent build_manifest fsck_manifest_with expand_manifest.

(** ** A manifest of too many bytes *)
Definition half : Z := 9223372036854775808.
Definition big_leaf : ManifestNode := Leaf (MLeaf [obj 1 half; obj 2 half]).
Definition forged : ManifestNode :=
  Branch (MBranch 0 [MChild 15 (address digest big_leaf) 2 U64_MAX; MChild 20 (address digest big_leaf) 7 7]).
Definition forged_source (h : list Z) : option (list Z) :=
  if decide (h = address digest big_leaf) then Some (encode big_leaf)
  else if decide (h = address digest forged) then Some (encode forged)
  else None.

Lemma forged_source_ok h b : forged_source h = Some b → bytes_ok b ∧ zlen b ≤ USIZE_MAX.
Proof.
  assert (∀ l, forallb (λ b, (0 <=? b) && (b <? 256)) l = true → bytes_ok l) as Hc.
  { intros l H. apply Forall_forall. intros x Hx%list_elem_of_In. rewrite forallb_forall in H. specialize (H x Hx). unfold is_byte. lia. }
  unfold forged_source. repeat case_decide; intros [= <-]; (split; [apply Hc; by vm_compute|by vm_compute]).
Qed.

(** C17. The rebuild that ends the check is skipped when it fails, and it fails when the
    sizes add up past [u64]: a root with two slots that hold one and the same leaf, the
    second with a count and a size that are made up and to which no object routes, has a
    clean report, while no manifest can be built of its objects. *)
Theorem fsck_overflow_blind :
  fsck_manifest digest forged_source (address digest forged) = Ok []
  ∧ expand_manifest digest forged_source (address digest forged) = Ok [obj 1 half; obj 2 half]
  ∧ build_manifest digest [obj 1 half; obj 2 half] = Err DecodedBytesOverflow
  ∧ decode (encode forged) = Ok forged
  ∧ Forall (λ e, group (route digest (key e)) 0 = 15) [obj 1 half; obj 2 half].
Proof.
  split; [vm_cast_no_check (eq_refl (Ok (E:=Empty_set) (@nil FsckFinding)))|].
  split; [vm_cast_no_check (eq_refl (Ok (E:=ManifestExpandError) [obj 1 half; obj 2 half]))|].
  split; [by vm_compute|]. split; [by vm_compute|]. by repeat constructor.
Qed.

Lemma forged_clean : fsck_manifest_with digest forged_source None (address digest forged) = Ok [].
Proof. vm_cast_no_check (eq_refl (Ok (E:=Empty_set) (@nil FsckFinding))). Qed.

#[local] Opaque build_manifest fsck_manifest_with expand_manifest.

Lemma fsck_clean_sound_witness :
  (∀ h b, forged_source h = Some b → bytes_ok b ∧ zlen b ≤ USIZE_MAX)
  ∧ ∃ es, expand_manifest digest forged_source (address digest forged) = Ok es ∧ StronglySorted key_lt (map key es).
Proof.
  split; [apply forged_source_ok|].
  pose proof (fsck_clean_sound digest forged_source None forged_source_ok (address digest forged)) as H.
  rewrite forged_clean in H. destruct H as (es & He & Hs & _). exists es. split; [exact He|exact Hs].
Defined.
End ManifestSamples.
